(* ===== verification/_CoqProject ===== *)
-Q . S2P
Prelude.v
StableSort.v
Text.v
Rules.v
Json.v
Bytes.v
Order.v
BTree.v
Slices.v
Framing.v
Canonical.v
Claim.v
Hash.v
Checkpoint.v
CheckpointPlan.v
CheckpointReaders.v
Membership.v
FleetView.v
CheckpointAgreement.v
CheckpointSeal.v
CheckpointTrim.v
CheckpointOps.v
Utf8.v
Inventory.v
Snapshot.v
Exchange.v
Convergence.v
Measure.v
HealClaims.v
Heal.v
JoinCode.v
Handshake.v
Invites.v
JoinRoute.v
Principal.v
Verdicts.v
RulesGate.v
SeatQueue.v
Lane.v
Suspension.v
Touched.v
Contracts.v
Residency.v
DeliveryLedger.v
Flapping.v
SupervisorChain.v
TaskReconcile.v
Execute.v
Supervise.v
Settle.v
Incremental.v
Mission.v
MissionText.v
PersonRequest.v
Mailbox.v
MailboxFence.v
Work.v
RunStep.v
MissionRun.v
RunCompletes.v
