(* ===== verification/Prelude.v ===== *)
(** * A verification of st

    st runs a fleet of coding agents. Nodes keep an append-only store of signed claims which they
    replicate to each other ([crates/smallclaims]); everything a node shows or decides is folded
    from that store. A service reconciles missions, lanes and agent seats against it
    ([crates/st3]), and drivers start, watch, feed and restart the harness processes behind the
    seats ([crates/st-drivers], with the declarations of [crates/agent-spec]).

    This library models the decision code of those crates as executable Gallina definitions, one
    file per source file, and proves what makes each part correct. Names follow the source, with a
    record's initials before its fields. Paths below are under [src/crates/].

    ** Foundations

    - [Prelude]: the [result]-like [outcome] and [result] types with their notation, tactics, and
      shared lemmas on lists, options and machine-width integers.
    - [StableSort]: the Rust standard library's stable sorts, and when sorting forgets the order of
      its input.
    - [Text], [Bytes], [Utf8], [Order]: [str], big-endian integers, UTF-8 and [Ord].
    - [BTree]: [BTreeMap] and [BTreeSet] as sorted lists, rows in key order and groups by key.
    - [Slices]: the searches and groupings of slices, and that they are right on sorted ones.
    - [Framing]: injective concatenations of length-framed fields, for the digests.
    - [Json]: [serde_json::Value] with insertion-ordered objects, and the normal form
      [canonical_json_value].

    ** The claim store (smallclaims/src)

    - [Claim] ([claim.rs], [error.rs]): claims, batches, envelopes.
    - [Canonical] ([store/canonical.rs]): the order every replica folds claims in. The BLOB key
      compares byte-wise as the key tuple does (C37) and SQL's [ORDER BY] is that order.
    - [Hash] ([hash.rs]): a claim's hash ignores field order; an envelope's hash binds all it
      covers ([envelope_hash_binds]).
    - [Membership] ([fleet/membership.rs]): who is in the fleet, with which key, for which part of
      each writer's sequence. The fold is a function of the set of claims (C1); nothing counts
      without a key that some earlier counted claim vouches for (C2); windows end at the greatest
      recorded high water ([window_end_is_greatest_high_water]); unsigned envelopes are accepted only before a writer's first key
      ([unsigned_only_before_membership]); a converged fold is a fixed point. [iterate] has the source's own iteration bound
      as its recursion measure, so running out of it is the code's behaviour and not the model's;
      [removal_ring_depends_on_uncounted_claims] exhibits an input on which it does.
    - [FleetView] ([fleet/view.rs]): the acceptance table is a refinement of the membership (C3).
    - [JoinCode] ([fleet/code.rs]): encoding and decoding a join code are inverse ([join_code_roundtrip]).
    - [Principal] ([principal.rs], [fleet/keys.rs]): signatures, delegation chains and verdicts.
      [judge] verifies exactly the claims whose chain reaches a node (C14), by the one path the
      signer's family allows, and signatures bind what they cover ([signing_bytes_bind]). The facts [judge] consults
      are the type class [Facts], as they are a trait in the source.
    - [Verdicts] ([store/principals.rs]): the store behind that interface. Its facts are
      computations over what a pass has seen (a memo of verdicts, and the links a verdict relied
      on), its cache and queue are tables, and a pass is a loop over them. Where verdicts rest on
      one another in chains of at most [MAX_CHAIN_DEPTH] steps ([shallow]), and so not in loops, they are the one
      solution of the fold ([verdicts_solve], [verdicts_unique]), rechecking ends with exactly that solution in
      the cache whatever was there (C13), and so every claim it shows as verified descends from a node
      ([rechecked_claims_descend_from_a_node]). [judging_can_run_forever] shows three claims without that bound on which a pass never
      ends.
    - [Rules] and [RulesGate] ([rules.rs], [store/principals.rs]): the glob matcher (C36), the
      exemption of a writer's own prefix, and the gate every local write passes ([rules_gate_admits]).
    - [Touched] ([touched.rs]): recordings of reads and writes nest, panics included.

    ** Checkpoints (smallclaims/src/store, st3/src/store)

    A checkpoint drops what later claims replaced before a daily cut. Every node plans the drop,
    all of them agree on it, and each deletes the rows and keeps tombstones.

    - [CheckpointSeal] ([checkpoint.rs]): the sealed set a node reads from its tables, and the
      shorter query that seals it, which agree ([identities_are_the_sealed_set]).
    - [CheckpointPlan] ([checkpoint_rules.rs], in st3): slots, the claims each rule keeps, guards,
      and the loop that keeps back what is not replaced; [settle] recurses on a number of turns,
      and the number of sealed claims is enough ([plan_loop_ends]). [CheckpointReaders] states what the readers
      answer and proves that no answer changes (C9), and that a dropped claim is replaced and goes
      with its whole envelope and operation (C10).
    - [Checkpoint] ([checkpoint.rs], [checkpoint/tombstones.rs]): tombstones, digests and manifests.
      The check of a manifest is exact ([manifest_check_is_exact]), an accepted one is the agreed drop or shows a
      collision ([accepted_manifest_is_the_drop]), its pages add up to it ([manifest_pages_add_up]), and the plan of a sealed set passes the check
      ([planned_manifest_is_accepted]).
    - [CheckpointAgreement] ([checkpoint_agreement.rs]): a pass of checkpoint work as a function of
      what it reads to what it publishes, and a fleet of such nodes as a step relation in which
      claims travel in any order. Certificates that share a participant are the same (C8), last
      ([certificates_last]), and rest on everyone's seals ([certified_after_all_sealed]); published terms read back ([published_terms_read_back]); nothing written
      after a seal is dated before its cut ([writes_after_a_seal_stay_after_its_cut]).
    - [CheckpointTrim] ([checkpoint_trim.rs]): the tables, and trims in chunks that the clock, a
      crash or a changed graph can end. The inventory peers see is settled when a trim begins, and
      does not change at all when a node trims by its own plan; adoption forgets tombstones that are not
      the checkpoint's (C11). An interrupted
      trim finishes with exactly the rows it should (C15), adoption passes every check or leaves the
      store alone ([adoption_is_checked]), and a pass that goes on has applied the newest stable checkpoint ([newest_checkpoint_is_applied_first]).
      [spent_budget_ends_a_trim] shows the chunk that ends a trim early.
    - [CheckpointOps] (the rest of [checkpoint_agreement.rs] and [checkpoint/tombstones.rs]): evidence
      may cite after a trim what it could cite before, a person's resuming ends a halt, and the
      status view says what the next pass does.

    ** Replication (smallclaims/src)

    Nodes tell each other what they hold and send what the other lacks.

    - [Inventory] ([store.rs]): the compact inventory, with writers interned and hashes as bytes, is
      a sorted set of identities with its digest and the digests of its ranges
      (C18). The hexadecimal crate is the class [HexApi], with [lower_hex] as an instance.
    - [Snapshot] ([store.rs]): the inventory a node tells of, extended row by row from its
      predecessor, is the one read whole from the tables (C12), on the condition that an extension
      takes for granted ([continues]): no rowid was used again and no tombstone is gone. The steps of [table_step] keep it;
      [reused_rowid_hides_an_envelope] shows one that does not.
    - [Exchange] ([store.rs], [sync/worker.rs]): the difference of two inventories, the messages made
      of it and the worker's round between two nodes. A node sends only what it holds and the reader
      lacks ([exports_send_what_is_lacking]).
    - [Convergence]: rounds bring two nodes to the same set of envelopes, in at most as many rounds as
      envelopes are apart, unless a digest that the nodes compare in one of those rounds is the same for what they
      hold at that moment though that differs ([some_round_misled], C7). The proof shows that a round in which
      nothing is sent means equal inventories.
    - [Measure] ([store.rs]): the counted difference is a lower bound, and exact when the peer listed
      what differs ([difference_is_measured]).

    - [HealClaims] ([store/heal.rs]): two nodes with the same envelopes and different graphs compare the
      claims they project, by range, by subject and one by one; the three questions come to claims
      only one of them projects, unless the digests of the very ranges or subjects that differ collide
      ([range_misread], [subject_misread], C16).
    - [Heal] ([store/heal.rs], [sync/worker.rs]): the state machine of a heal. It ends within 32
      questions with a true report (C17), heals are rationed ([heals_are_rationed]), and the record of a first
      sync says what it saw. [dropped_ranges_hide_a_difference] shows what the range limit hides.

    ** Joining and leaving (smallclaims/src)

    - [Handshake] ([fleet/handshake.rs]): a joiner's request, the sponsor's checks and sealed answer, and
      opening it. The primitives are the class [JoinCrypto]. What a joiner opens was sealed for its
      own request (C5).
    - [Invites] ([store.rs]): redeeming an invite as a machine whose steps are the reads and writes of
      the store, so that requests interleave; the runtime that appends claims is the class
      [StoreRuntime]. An invite admits one member (C4), and five bad proofs served in turn burn
      it ([bad_proofs_burn_the_invite]); [parallel_bad_proofs_count_once] shows what parallel requests can do. A
      redemption takes at most eight steps ([redeem_run_finishes]).
    - [JoinRoute] ([store.rs], [sync/worker.rs], [sync/backend.rs]): the invites as their claims tell
      them, removals and leaves, and the route that serves a join. An honest join goes through
      (C6), a name joins again only above its history ([rejoined_names_start_above_their_history]), and a removal ends every
      open incarnation ([removal_ends_every_incarnation]).

    ** The service (st3/src)

    - [SeatQueue] ([seat_queue.rs]) and [Lane] ([lane.rs]): queues rebuilt from recorded joins and
      moves. Rebuilding never panics, keeps every run exactly once, and gives each move the effect
      it names ([lane_entry_follows_its_own_claims], [seat_queue_holds_every_joined_run]).
    - [Suspension] ([suspension.rs]): when a seat is held, when it may be suspended, and which
      session a relaunch continues ([seat_is_held_until_refused_or_resumed]). The store's queries are the class [SeatStore].
    - [Incremental] ([incremental.rs]): a reconcile pass evaluates exactly the items a change can
      affect, and the reader index stays exact ([passes_evaluate_what_changed]).
    - [Mission] ([mission.rs], [model.rs]): the check of a mission's step graph. It always answers, and
      accepts exactly the graphs that can be carried out (C32); a run that waits for another
      follows a mission that is accepted too (C33). The search for cycles has as many nested
      calls as there are steps and one more, which is enough.
    - [MissionText] ([mission.rs]): variables in a mission's texts. A template yields the text it says,
      with a dollar right before a variable read as its escape (C34), a validated text interpolates when its variables have values
      ([validated_values_interpolate]), and a duration reads back with its overflow refused
      ([durations_read_back]). Each turn of the loop takes at least two bytes off the text, so its length
      is turns enough.
    - [PersonRequest] ([person_request.rs]): requests to a person. What is recorded for a decision
      accepts or declines exactly when the answer declared to was named (C35), an update
      is only ever read ([update_only_read]), and the code marked unreachable is ([answer_total]).

    - [Work] ([store.rs]): the work a step is, its leases, the reconciler's transitions and the
      projection of the claims they publish. While a lease is valid nobody else changes its step
      (C23), over any history a worker holds one chain of nested work, unless leased work is
      given a status that neither ends the lease nor counts (C24), a replica that projects a claim
      has the row its writer has (C25), and quiet renewals stay within what was replicated
      ([renewals_stay_replicated]). What a transaction reads of other tables is the record [Reads].
      [orphaned_leases_diverge], [orphaned_work_escapes_capacity] and [ancestor_renewals_stay_local]
      show where the source departs from these.
    - [RunStep] ([reconcile.rs]): a pass over the steps of a run, with the rows of [Work]. A step moves
      only as a table of its status and the answers of gates, products and the rest allows, its attempts stay within
      its retries (C27). The branches that release expired leases are never taken
      ([expired_leases_are_not_shown]).
    - [MissionRun] ([reconcile.rs], [store.rs]): the phases of a run and the transaction that moves it. A run
      without final work is completed exactly when its baselines hold and its mission accepts it
      (C28); one with final work loses that verdict
      (C29, and [frontier_with_final_work] for a frontier that leaves steps out). The
      search for the runs below a generation has as many rounds as there are runs, which find them all ([descendants_closed]).
    - [RunCompletes]: the two composed, on missions of agentless, plain steps that wait only for completed or terminal ones
      ([unattended]), with the acceptance of [Mission] and answers that refuse nothing ([favourable]): each pass
      does a step of an abstract machine, and twice as many passes as there are steps, and three,
      complete a root run (C26).
    - [Mailbox] ([store.rs]): the harness state a person is shown, folded from observations, and the
      shorter read that decides whether a session may have the seat's mail. They agree
      (C31) as long as no observation names an array or an object as its incarnation,
      which the schema of those claims rules out.
    - [MailboxFence] ([store.rs], [mailbox.rs]): the tables of channel owners and bindings as a step
      relation. A channel has one owner, and a replaced one never comes back (C30); a
      retried request changes nothing ([retried_binds_change_nothing]), a new session takes over
      ([fresh_tokens_take_over]), and a stream that sees no change may go on ([quiet_streams_stay_admitted]).

    ** The drivers (st-drivers/src)

    - [Contracts] ([contracts.rs]): the spellings of a record's schema.
    - [Residency] ([residency.rs]): the on-demand residency state machine. Reachable ledgers are
      valid (C39), wakes are served within six steps (C40), late events are inert.
    - [DeliveryLedger] ([delivery_ledger.rs]): what may be sent to a harness again ([transport_needs_authority]), evidence
      is monotone, and a written ledger is never quarantined by its next reader (C38).
    - [Flapping] ([flapping.rs]): the restart cap ([crash_loop_is_bounded]).
    - [SupervisorChain] ([supervisor_chain.rs]): the walk to an agent's root.
    - [TaskReconcile] ([reconcile.rs]): what is declared against the sessions observed. The plan is
      a table of one decision per task (C19), a request for one task decides as the whole plan
      would ([selected_plans_follow_the_table]), and launched tasks run as their agent.
    - [Execute] ([run.rs]): the debounce of misread deaths, carrying out a plan against the runner
      (the class [Runner]) and the restart cap, the turns of presentation repair ([every_drift_gets_its_turn]), and a
      pass as a whole.
    - [Supervise]: what passes guarantee on every runner. Crash loops end (C21), and sessions that
      are not declared here or may have been misread are left alone (C22).
    - [Settle]: on an obedient runner a fresh supervisor brings its team up in one pass and is at
      rest after two (C20).

    ** Conventions

    An unsigned integer is a [Z] with its range stated where it matters, and its checked, saturating
    or wrapping operation written out. A panic is [None], an [Err] is a constructor of the result
    type. Maps and sets whose order cannot be observed are stdpp's [gmap] and [gset]; a [BTreeMap]
    whose order is observed is traversed in sorted order. Loops bounded in the source recurse on
    their bound; the loops of [plan_drops], of reading a manifest, of a trim and of judging take a
    number of turns, and a theorem says how many are enough; the others are structural. A query is
    the list of rows it selects, in the order SQL gives them; a failing statement is not modelled.

    Code of other packages is a parameter: SHA-256, base32, base64, Ed25519 and P-256, CBOR, the
    text form of JSON and derived deserializers. A hypothesis on one of them states its documented
    behaviour, and the witness of the theorem that uses it instantiates it with a concrete
    function. Hashes are never assumed to be without collisions: a theorem that rests on a digest
    concludes with a collision of named inputs, those the code compared, as its alternative, which no counting
    argument provides. That a signature is not forged is a hypothesis of one theorem
    (C5), about the one answer it speaks of; the others hold for every scheme.

    ** What is not modelled

    The SQLite store itself (schema, transactions, indexes, most projections, admission of received
    envelopes), proving a plan on a copy of the store, replication transport, the HTTP and client
    interfaces, generated clients, the terminal user interfaces, process, PTY and harness input and
    output, the answers of gates, products and declarations of a mission, the KDL declaration parser, resource providers and migrations. Reading and writing
    files is represented only by the value read or written and whether the write succeeded. *)

From Stdlib Require Import Ascii.
From stdpp Require Export base decidable gmap sets list sorting strings numbers.
From stdpp Require Import options.

Declare Scope st_scope.
Delimit Scope st_scope with st.
Open Scope st_scope.

Create HintDb st.
Create Rewrite HintDb st.

(** ** Results

    Fallible code returns [Result<T, E>]; the errors are values. *)

Inductive result (E A : Type) : Type :=
| Ok (a : A)
| Err (e : E).
Arguments Ok {E A} a.
Arguments Err {E A} e.

Definition result_bind {E A B} (m : result E A) (k : A → result E B) : result E B :=
  match m with
  | Ok a => k a
  | Err e => Err e
  end.

Notation "'let?' x := m 'in' k" := (result_bind m (λ x, k))
  (at level 10, x pattern, m at level 100, k at level 200) : st_scope.

(** ** Machine integers

    Unsigned integers are [Z] with their range stated, and the saturating operations the source
    uses are written out. *)

Definition u8_max : Z := 2 ^ 8 - 1.
Definition u16_max : Z := 2 ^ 16 - 1.
Definition u32_max : Z := 2 ^ 32 - 1.
Definition u64_max : Z := 2 ^ 64 - 1.
Definition u128_max : Z := 2 ^ 128 - 1.

Definition is_u64 (z : Z) : Prop := (0 ≤ z ≤ u64_max)%Z.
Definition is_u128 (z : Z) : Prop := (0 ≤ z ≤ u128_max)%Z.

(** [u64::saturating_add], [u64::saturating_sub]. *)
Definition sat_add64 (a b : Z) : Z := Z.min u64_max (a + b).
Definition sat_sub (a b : Z) : Z := Z.max 0 (a - b).

(** ** Options as the source uses them *)

(** [Option::is_none_or], [Option::is_some_and]. *)
Definition is_none_or {A} (o : option A) (p : A → bool) : bool :=
  match o with None => true | Some a => p a end.
Definition is_some_and {A} (o : option A) (p : A → bool) : bool :=
  match o with None => false | Some a => p a end.
Definition is_some {A} (o : option A) : bool :=
  match o with None => false | Some _ => true end.
Definition is_none {A} (o : option A) : bool := negb (is_some o).

(** Equality of strings and of optional strings as a boolean. *)
Definition str_eqb (a b : string) : bool := bool_decide (a = b).
Definition ostr_eqb (a b : option string) : bool := bool_decide (a = b).

(** Two different inputs with one digest. Such a pair exists for every digest of bounded length, so a
    theorem that has one as its alternative names the pair. *)
Definition collide {A B} (digest : A → B) (x y : A) : Prop := x ≠ y ∧ digest x = digest y.

Lemma str_eqb_true a b : str_eqb a b = true ↔ a = b.
Proof. apply bool_decide_eq_true. Qed.
Lemma str_eqb_false a b : str_eqb a b = false ↔ a ≠ b.
Proof. apply bool_decide_eq_false. Qed.
Lemma str_eqb_refl a : str_eqb a a = true.
Proof. by apply str_eqb_true. Qed.
Lemma ostr_eqb_true a b : ostr_eqb a b = true ↔ a = b.
Proof. apply bool_decide_eq_true. Qed.
Lemma ostr_eqb_false a b : ostr_eqb a b = false ↔ a ≠ b.
Proof. apply bool_decide_eq_false. Qed.
#[export] Hint Rewrite str_eqb_refl : st.

(** Case analysis on every boolean string test in sight. *)
Ltac str_cases :=
  repeat match goal with
  | H : str_eqb _ _ = true |- _ => apply str_eqb_true in H
  | H : str_eqb _ _ = false |- _ => apply str_eqb_false in H
  | H : ostr_eqb _ _ = true |- _ => apply ostr_eqb_true in H
  | H : ostr_eqb _ _ = false |- _ => apply ostr_eqb_false in H
  end.

(** Splitting boolean conjunctions and disjunctions in hypotheses. *)
Ltac bool_cases :=
  repeat match goal with
  | H : (_ && _) = true |- _ => apply andb_true_iff in H as [??]
  | H : (_ || _) = false |- _ => apply orb_false_iff in H as [??]
  | H : negb _ = true |- _ => apply negb_true_iff in H
  | H : negb _ = false |- _ => apply negb_false_iff in H
  end.

(** ** Vectors as the source updates them

    [Vec::remove] and [Vec::insert] panic out of range; here a panic is [None]. *)

Definition vec_remove {A} (i : nat) (l : list A) : option (A * list A) :=
  match l !! i with
  | Some x => Some (x, take i l ++ drop (S i) l)
  | None => None
  end.

Definition vec_insert {A} (i : nat) (x : A) (l : list A) : option (list A) :=
  if decide (i ≤ length l) then Some (take i l ++ x :: drop i l) else None.

(** [Iterator::position]. *)
Fixpoint position {A} (p : A → bool) (l : list A) : option nat :=
  match l with
  | [] => None
  | x :: l' => if p x then Some 0 else S <$> position p l'
  end.

Section vectors.
Context {A : Type}.
Implicit Types (p : A → bool) (l : list A).

Lemma position_Some p l i :
  position p l = Some i →
  ∃ x, l !! i = Some x ∧ p x = true ∧ ∀ j y, j < i → l !! j = Some y → p y = false.
Proof.
  revert i; induction l as [|a l IH]; intros i; simpl; [done|].
  destruct (p a) eqn:Ha.
  - intros [= <-]. exists a. repeat split; auto. intros; lia.
  - destruct (position p l) as [k|]; simpl; [|done]. intros [= <-].
    destruct (IH k eq_refl) as (x & Hx & Hp & Hlt). exists x. repeat split; auto.
    intros [|j] y Hj; simpl; [congruence|]. apply Hlt. lia.
Qed.

Lemma position_None p l : position p l = None ↔ ∀ x, x ∈ l → p x = false.
Proof.
  induction l as [|a l IH]; simpl.
  - split; [intros _ x Hx; by apply not_elem_of_nil in Hx | done].
  - destruct (p a) eqn:Ha.
    + split; [done|]. intros H. specialize (H a). rewrite Ha in H.
      exfalso. assert (true = false) by (apply H; left). done.
    + destruct (position p l); simpl.
      * split; [done|]. intros H. destruct IH as [_ IH].
        assert (Some n = None); [|done]. apply IH. intros x Hx. apply H. by right.
      * split; [|done]. intros _ x [->|Hx]%elem_of_cons; [done|]. by apply IH.
Qed.

Lemma position_existsb p l : is_some (position p l) = existsb p l.
Proof. induction l as [|a l IH]; simpl; [done|]. destruct (p a); simpl; [done|].
  rewrite <- IH. by destruct (position p l). Qed.

Lemma position_split p l i :
  position p l = Some i →
  ∃ x, l = take i l ++ x :: drop (S i) l ∧ p x = true ∧ i < length l.
Proof.
  intros (x & Hx & Hp & _)%position_Some. exists x. split_and!; auto.
  - symmetry. by apply take_drop_middle.
  - by eapply lookup_lt_Some.
Qed.

Lemma vec_remove_Some i l x : l !! i = Some x → vec_remove i l = Some (x, take i l ++ drop (S i) l).
Proof. unfold vec_remove. by intros ->. Qed.

Lemma vec_remove_perm i l x l' : vec_remove i l = Some (x, l') → l ≡ₚ x :: l'.
Proof.
  unfold vec_remove. destruct (l !! i) as [y|] eqn:Hy; [|done]. intros [= <- <-].
  rewrite <- (take_drop_middle l i y Hy) at 1. by rewrite <- Permutation_middle.
Qed.

Lemma vec_insert_perm i l x l' : vec_insert i x l = Some l' → l' ≡ₚ x :: l.
Proof.
  unfold vec_insert. case_decide; [|done]. intros [= <-].
  rewrite <- Permutation_middle. by rewrite take_drop.
Qed.

Lemma vec_insert_le i l x : i ≤ length l → vec_insert i x l = Some (take i l ++ x :: drop i l).
Proof. intros. unfold vec_insert. by rewrite decide_True. Qed.

Lemma existsb_true_elem p l : existsb p l = true ↔ ∃ x, x ∈ l ∧ p x = true.
Proof. rewrite existsb_exists. by setoid_rewrite list_elem_of_In. Qed.

Lemma existsb_false_elem p l : existsb p l = false ↔ ∀ x, x ∈ l → p x = false.
Proof.
  induction l as [|a l IH]; simpl.
  - split; [intros _ x Hx; by apply not_elem_of_nil in Hx | done].
  - rewrite orb_false_iff, IH. setoid_rewrite elem_of_cons. naive_solver.
Qed.

Lemma lfilter_elem p l x : x ∈ List.filter p l ↔ x ∈ l ∧ p x = true.
Proof. by rewrite !list_elem_of_In, filter_In. Qed.

Lemma lfilter_perm p l l' : l ≡ₚ l' → List.filter p l ≡ₚ List.filter p l'.
Proof.
  induction 1; simpl; auto.
  - destruct (p x); auto.
  - destruct (p x), (p y); auto. constructor.
  - by etrans.
Qed.

Lemma find_Some_elem p l x : List.find p l = Some x → x ∈ l ∧ p x = true.
Proof. intros [? ?]%find_some. by rewrite list_elem_of_In. Qed.

Lemma find_None_elem p l : List.find p l = None → ∀ x, x ∈ l → p x = false.
Proof. intros H x Hx%list_elem_of_In. by eapply find_none in H. Qed.
End vectors.

#[export] Instance lfilter_proper {A} (p : A → bool) :
  Proper ((≡ₚ) ==> (≡ₚ)) (List.filter p).
Proof. intros ???. by apply lfilter_perm. Qed.
