(* ===== verification/StableSort.v ===== *)
(** * Stable sorting

    [slice::sort_by], [sort_by_key] and [sort] of the Rust standard library are stable sorts.
    [sort_by le] is the stable sort by the boolean order [le]; the lemmas say that it permutes its
    input, sorts it, keeps the given order among elements that compare equal, and that two
    permutations of one list sort to the same list when no two of its elements compare equal. *)

From S2P Require Import Prelude.

Section sort.
Context {A : Type} (le : A → A → bool).

Fixpoint insert_by (x : A) (l : list A) : list A :=
  match l with
  | [] => [x]
  | y :: l' => if le x y then x :: y :: l' else y :: insert_by x l'
  end.

Fixpoint sort_by (l : list A) : list A :=
  match l with
  | [] => []
  | x :: l' => insert_by x (sort_by l')
  end.

Lemma insert_by_perm x l : insert_by x l ≡ₚ x :: l.
Proof.
  induction l as [|y l IH]; simpl; [done|]. destruct (le x y); [done|].
  rewrite IH. constructor.
Qed.

Lemma sort_by_perm l : sort_by l ≡ₚ l.
Proof. induction l as [|x l IH]; simpl; [done|]. by rewrite insert_by_perm, IH. Qed.

Lemma elem_of_sort_by x l : x ∈ sort_by l ↔ x ∈ l.
Proof. by rewrite sort_by_perm. Qed.

Lemma length_sort_by l : length (sort_by l) = length l.
Proof. by rewrite sort_by_perm. Qed.

(** Stability: a class of mutually equivalent elements keeps its order. *)
Lemma insert_by_stable (p : A → bool) x l :
  (∀ y, p x = true → p y = true → le x y = true) →
  List.filter p (insert_by x l) = List.filter p (x :: l).
Proof.
  intros Hle. induction l as [|y l IH]; simpl in *; [done|].
  destruct (le x y) eqn:Hxy; [done|]. simpl. rewrite IH.
  destruct (p x) eqn:Hx, (p y) eqn:Hy; try done.
  by rewrite Hle in Hxy.
Qed.

Lemma sort_by_stable (p : A → bool) l :
  (∀ x y, p x = true → p y = true → le x y = true) →
  List.filter p (sort_by l) = List.filter p l.
Proof.
  intros Hle. induction l as [|x l IH]; simpl; [done|].
  rewrite insert_by_stable by auto. simpl. by rewrite IH.
Qed.

Section ordered.
Hypothesis le_total : ∀ x y, le x y = true ∨ le y x = true.
Hypothesis le_trans : ∀ x y z, le x y = true → le y z = true → le x z = true.

Lemma insert_by_sorted x l :
  StronglySorted (λ a b, le a b = true) l → StronglySorted (λ a b, le a b = true) (insert_by x l).
Proof.
  induction 1 as [|y l Hl IH Hy]; simpl; [by repeat constructor|].
  destruct (le x y) eqn:Hxy.
  - repeat constructor; auto. eapply Forall_impl; [|exact Hy]. intros z Hz. by apply (le_trans x y z).
  - constructor; [done|]. assert (le y x = true) by (destruct (le_total x y); congruence).
    rewrite insert_by_perm. by constructor.
Qed.

Lemma sort_by_sorted l : StronglySorted (λ a b, le a b = true) (sort_by l).
Proof. induction l; simpl; [constructor|]. by apply insert_by_sorted. Qed.

Lemma sort_by_perm_eq l1 l2 :
  (∀ x y, x ∈ l1 → y ∈ l1 → le x y = true → le y x = true → x = y) →
  l1 ≡ₚ l2 → sort_by l1 = sort_by l2.
Proof.
  intros Hanti Hp. eapply (StronglySorted_unique_strong (λ a b, le a b = true)).
  - intros x y Hx Hy. rewrite elem_of_sort_by in Hx, Hy. rewrite <- Hp in Hy. eauto.
  - apply sort_by_sorted.
  - apply sort_by_sorted.
  - by rewrite !sort_by_perm.
Qed.

(** A sorted list is its own stable sort. *)
Lemma sort_by_id l : StronglySorted (λ a b, le a b = true) l → sort_by l = l.
Proof.
  induction 1 as [|x l Hl IH Hx]; simpl; [done|]. rewrite IH.
  destruct l as [|y l]; simpl; [done|]. inversion Hx; subst. by rewrite H1.
Qed.
End ordered.
End sort.

(** Sorting by a key: elements compare through [key]. *)
Definition key_leb {A K} (leb : K → K → bool) (key : A → K) (x y : A) : bool := leb (key x) (key y).

Lemma str_leb_total a b : String.leb a b = true ∨ String.leb b a = true.
Proof. apply String.leb_total. Qed.

Lemma str_leb_trans a b c : String.leb a b = true → String.leb b c = true → String.leb a c = true.
Proof.
  intros Hab Hbc. apply Is_true_eq_true.
  apply (transitivity (R := String.le) (y := b)); by apply Is_true_eq_left.
Qed.

Lemma str_leb_antisym a b : String.leb a b = true → String.leb b a = true → a = b.
Proof. apply String.leb_antisym. Qed.

Lemma str_leb_refl a : String.leb a a = true.
Proof. destruct (str_leb_total a a); done. Qed.

(** Permuted lists of records with distinct string keys sort to the same list. *)
Lemma sort_by_str_key_perm_eq {A} (key : A → string) (l1 l2 : list A) :
  NoDup (key <$> l1) → l1 ≡ₚ l2 →
  sort_by (key_leb String.leb key) l1 = sort_by (key_leb String.leb key) l2.
Proof.
  intros Hnd Hp. apply sort_by_perm_eq; [| |  |done]; unfold key_leb.
  - intros. apply str_leb_total.
  - intros ???. apply str_leb_trans.
  - intros x y Hx Hy H1 H2. assert (Hk : key x = key y) by by apply str_leb_antisym.
    apply list_elem_of_lookup in Hx as [i Hi]. apply list_elem_of_lookup in Hy as [j Hj].
    assert (i = j); [|congruence].
    eapply NoDup_lookup; [exact Hnd| |]; rewrite list_lookup_fmap.
    + by rewrite Hi.
    + rewrite Hj. simpl. congruence.
Qed.

(** A stably sorted list is determined by its runs of equal keys: two lists with the same elements
    at every key, in the same order, sort to the same list. *)
Section by_key.
Context {A : Type} (key : A → Z).

Definition zkey_leb (x y : A) : bool := (key x <=? key y)%Z.
Definition at_key (t : Z) (l : list A) : list A := List.filter (λ x, (key x =? t)%Z) l.

Lemma zkey_leb_total x y : zkey_leb x y = true ∨ zkey_leb y x = true.
Proof. unfold zkey_leb. rewrite !Z.leb_le. lia. Qed.
Lemma zkey_leb_trans x y z : zkey_leb x y = true → zkey_leb y z = true → zkey_leb x z = true.
Proof. unfold zkey_leb. rewrite !Z.leb_le. lia. Qed.

Lemma at_key_sort t l : at_key t (sort_by zkey_leb l) = at_key t l.
Proof.
  apply sort_by_stable. intros x y. unfold zkey_leb. rewrite !Z.eqb_eq, Z.leb_le. lia.
Qed.

Lemma at_key_elem t x l : x ∈ at_key t l ↔ x ∈ l ∧ key x = t.
Proof. unfold at_key. by rewrite lfilter_elem, Z.eqb_eq. Qed.

Lemma sorted_at_key_eq l1 : ∀ l2,
  StronglySorted (λ a b, zkey_leb a b = true) l1 →
  StronglySorted (λ a b, zkey_leb a b = true) l2 →
  (∀ t, at_key t l1 = at_key t l2) → l1 = l2.
Proof.
  induction l1 as [|x l1 IH]; intros [|y l2] H1 H2 Heq.
  - done.
  - specialize (Heq (key y)). simpl in Heq. unfold at_key in Heq. simpl in Heq.
    by rewrite Z.eqb_refl in Heq.
  - specialize (Heq (key x)). unfold at_key in Heq. simpl in Heq.
    by rewrite Z.eqb_refl in Heq.
  - inversion H1 as [|? ? Hs1 Hle1]; subst. inversion H2 as [|? ? Hs2 Hle2]; subst.
    assert (Hxy : (key x <= key y)%Z).
    { assert (Hy : y ∈ at_key (key y) (x :: l1)).
      { rewrite Heq. apply at_key_elem. split; [left | done]. }
      apply at_key_elem in Hy as [[->|Hy]%elem_of_cons _]; [lia|].
      rewrite List.Forall_forall in Hle1. apply list_elem_of_In, Hle1 in Hy. unfold zkey_leb in Hy. lia. }
    assert (Hyx : (key y <= key x)%Z).
    { assert (Hx : x ∈ at_key (key x) (y :: l2)).
      { rewrite <- Heq. apply at_key_elem. split; [left | done]. }
      apply at_key_elem in Hx as [[->|Hx]%elem_of_cons _]; [lia|].
      rewrite List.Forall_forall in Hle2. apply list_elem_of_In, Hle2 in Hx. unfold zkey_leb in Hx. lia. }
    assert (Hk : key x = key y) by lia.
    assert (x = y) as <-.
    { specialize (Heq (key x)). unfold at_key in Heq. simpl in Heq.
      rewrite Hk, Z.eqb_refl in Heq. by injection Heq. }
    f_equal. apply IH; [done..|]. intros t. specialize (Heq t). unfold at_key in *. simpl in Heq.
    destruct (key x =? t)%Z; [by injection Heq | done].
Qed.

Lemma sort_by_at_key_eq l1 l2 :
  (∀ t, at_key t l1 = at_key t l2) → sort_by zkey_leb l1 = sort_by zkey_leb l2.
Proof.
  intros Heq. apply sorted_at_key_eq.
  - apply sort_by_sorted; [apply zkey_leb_total | apply zkey_leb_trans].
  - apply sort_by_sorted; [apply zkey_leb_total | apply zkey_leb_trans].
  - intros t. by rewrite !at_key_sort.
Qed.
End by_key.

(** A [BTreeMap]'s entries in key order. *)
Definition in_key_order {A} (m : gmap string A) : list (string * A) :=
  sort_by (key_leb String.leb fst) (map_to_list m).

Lemma in_key_order_elem {A} (m : gmap string A) k x : (k, x) ∈ in_key_order m ↔ m !! k = Some x.
Proof. unfold in_key_order. by rewrite elem_of_sort_by, elem_of_map_to_list. Qed.

Lemma in_key_order_NoDup {A} (m : gmap string A) : NoDup (map fst (in_key_order m)).
Proof.
  unfold in_key_order. rewrite (Permutation_map fst (sort_by_perm _ (map_to_list m))).
  apply NoDup_fst_map_to_list.
Qed.

(** [Vec::dedup]: the first of each run of equal neighbours. *)
Fixpoint dedup (l : list string) : list string :=
  match l with
  | [] => []
  | x :: l' =>
      match dedup l' with
      | y :: r => if str_eqb x y then y :: r else x :: y :: r
      | [] => [x]
      end
  end.

Lemma elem_of_dedup x l : x ∈ dedup l ↔ x ∈ l.
Proof.
  induction l as [|y l IH]; [done|]. simpl. rewrite elem_of_cons, <- IH.
  destruct (dedup l) as [|z r]; [by rewrite elem_of_cons|].
  destruct (str_eqb y z) eqn:E; str_cases; subst; rewrite !elem_of_cons; tauto.
Qed.

Lemma dedup_nil l : dedup l = [] ↔ l = [].
Proof.
  destruct l as [|y l]; [done|]. simpl. destruct (dedup l); [done|]. by destruct (str_eqb _ _).
Qed.

(** [sort] then [dedup]: the same elements, each once, in order. *)
Definition sort_dedup (l : list string) : list string := dedup (sort_by String.leb l).

Lemma elem_of_sort_dedup x l : x ∈ sort_dedup l ↔ x ∈ l.
Proof. unfold sort_dedup. by rewrite elem_of_dedup, elem_of_sort_by. Qed.

Lemma sort_dedup_nil l : sort_dedup l = [] ↔ l = [].
Proof.
  unfold sort_dedup. rewrite dedup_nil. split; [|by intros ->]. intros E.
  apply Permutation_nil_r. by rewrite <- E, sort_by_perm.
Qed.

Lemma dedup_strict l :
  StronglySorted (λ a b, String.leb a b = true) l →
  StronglySorted (λ a b, String.leb a b = true ∧ a ≠ b) (dedup l).
Proof.
  induction 1 as [|x l Hl IH Hx]; simpl; [constructor|].
  destruct (dedup l) as [|y r] eqn:E; [by repeat constructor|].
  destruct (str_eqb x y) eqn:Exy; str_cases; [done|]. constructor; [done|].
  assert (Hin : ∀ z, z ∈ y :: r → String.leb x z = true).
  { intros z Hz. rewrite <- E, elem_of_dedup, list_elem_of_In in Hz.
    rewrite List.Forall_forall in Hx. by apply Hx. }
  inversion IH as [|? ? _ Hy]; subst.
  rewrite List.Forall_forall in *. intros z Hz%list_elem_of_In. split; [by apply Hin|].
  intros ->. apply elem_of_cons in Hz as [->|Hz]; [done|].
  destruct (Hy z (proj1 (list_elem_of_In _ _) Hz)) as [Hyz _].
  apply Exy, str_leb_antisym; [|done]. apply Hin. left.
Qed.

Lemma sort_dedup_strict l :
  StronglySorted (λ a b, String.leb a b = true ∧ a ≠ b) (sort_dedup l).
Proof.
  apply dedup_strict, sort_by_sorted; [apply str_leb_total | apply str_leb_trans].
Qed.
