(* ===== verification/Text.v ===== *)
(** * Text

    The [str] operations of the Rust standard library the modelled code uses. A [str] is its
    bytes; [string] is a list of 8-bit characters, compared byte by byte as [str::cmp] does. *)

From Stdlib Require Import Ascii.
From stdpp Require Export pretty.
From S2P Require Import Prelude.

(** [str::strip_prefix]. *)
Fixpoint strip_prefix (p s : string) : option string :=
  match p, s with
  | EmptyString, _ => Some s
  | String a p', String b s' => if decide (a = b) then strip_prefix p' s' else None
  | String _ _, EmptyString => None
  end.

(** [str::starts_with]. *)
Definition starts_with (p s : string) : bool := is_some (strip_prefix p s).

(** [str::split_once] with a one-byte separator. *)
Fixpoint split_once (c : ascii) (s : string) : option (string * string) :=
  match s with
  | EmptyString => None
  | String a s' =>
      if decide (a = c) then Some (EmptyString, s')
      else prod_map (String a) id <$> split_once c s'
  end.

(** [str::contains] with a one-byte character. *)
Fixpoint contains_char (c : ascii) (s : string) : bool :=
  match s with
  | EmptyString => false
  | String a s' => if decide (a = c) then true else contains_char c s'
  end.

(** [str::replace]: matches of the non-empty [pat], left to right and not overlapping. The
    counter skips the rest of a match that was just replaced. *)
Fixpoint replace_from (skip : nat) (pat rep s : string) : string :=
  match s with
  | EmptyString => EmptyString
  | String a s' =>
      match skip with
      | S k => replace_from k pat rep s'
      | O =>
          if starts_with pat s
          then rep +:+ replace_from (String.length pat - 1) pat rep s'
          else String a (replace_from 0 pat rep s')
      end
  end.

Definition replace (pat rep s : string) : string := replace_from 0 pat rep s.

(** [[T]::join] on strings. *)
Fixpoint join (sep : string) (l : list string) : string :=
  match l with
  | [] => EmptyString
  | [x] => x
  | x :: l' => x +:+ sep +:+ join sep l'
  end.

(** [to_string] of an unsigned integer. *)
Definition u_to_string (n : Z) : string := pretty (Z.to_N n).

Definition bytes_of (s : string) : list ascii := String.list_ascii_of_string s.
Definition str_of (l : list ascii) : string := String.string_of_list_ascii l.

Lemma str_of_bytes_of s : str_of (bytes_of s) = s.
Proof. apply String.string_of_list_ascii_of_string. Qed.
Lemma bytes_of_str_of l : bytes_of (str_of l) = l.
Proof. apply String.list_ascii_of_string_of_list_ascii. Qed.

Lemma str_app_nil_r (s : string) : s +:+ "" = s.
Proof. induction s as [|a s IH]; [done|]. unfold String.append in *. simpl. by rewrite IH. Qed.

Lemma str_app_assoc (a b c : string) : a +:+ (b +:+ c) = (a +:+ b) +:+ c.
Proof. induction a as [|x a IH]; [done|]. unfold String.append in *. simpl. by rewrite IH. Qed.

Lemma bytes_of_app a b : bytes_of (a +:+ b) = bytes_of a ++ bytes_of b.
Proof. induction a as [|x a IH]; [done|]. unfold String.append, bytes_of in *. simpl. by rewrite IH. Qed.

Lemma length_bytes_of s : length (bytes_of s) = String.length s.
Proof. induction s; simpl; [done|]. f_equal. done. Qed.

Lemma bytes_of_inj a b : bytes_of a = bytes_of b → a = b.
Proof. intros H. by rewrite <- (str_of_bytes_of a), H, str_of_bytes_of. Qed.

Lemma strip_prefix_Some p s r : strip_prefix p s = Some r ↔ s = p +:+ r.
Proof.
  revert s; induction p as [|a p IH]; intros s; simpl.
  - split; [by intros [= ->] | by intros ->].
  - destruct s as [|b s]; [done|]. case_decide as Hab; subst.
    + rewrite IH. unfold String.append. simpl. split; [by intros -> | by intros [= ->]].
    + split; [done|]. unfold String.append. simpl. intros [=]; congruence.
Qed.

Lemma starts_with_true p s : starts_with p s = true ↔ ∃ r, s = p +:+ r.
Proof.
  unfold starts_with. destruct (strip_prefix p s) as [r|] eqn:E; simpl.
  - split; [intros _; exists r; by apply strip_prefix_Some|done].
  - split; [done|]. intros [r Hr]. apply strip_prefix_Some in Hr. congruence.
Qed.

Lemma split_once_Some c s a b :
  split_once c s = Some (a, b) ↔ s = a +:+ String c b ∧ contains_char c a = false.
Proof.
  revert a b; induction s as [|x s IH]; intros a b; simpl.
  - split; [done|]. destruct a; by intros [??].
  - case_decide as Hx; subst.
    + split; [by intros [= <- <-]|]. intros [Heq Hc]. destruct a as [|y a]; simpl in *.
      * by injection Heq as ->.
      * unfold String.append in Heq. simpl in Heq. injection Heq as -> _.
        by rewrite decide_True in Hc.
    + destruct (split_once c s) as [[a' b']|] eqn:E; simpl.
      * destruct (IH a' b') as [IH1 _]. destruct IH1 as [-> Hc]; [done|].
        split.
        -- intros [= <- <-]. unfold String.append. simpl. by rewrite decide_False.
        -- intros [Heq Hca]. destruct a as [|y a]; unfold String.append in Heq; simpl in *;
             injection Heq as ? Heq'; subst; [done|].
           rewrite decide_False in Hca by done.
           assert (Some (a', b') = Some (a, b)) as [= -> ->]; [|done].
           apply IH. done.
      * split; [done|]. intros [Heq Hca]. destruct a as [|y a]; unfold String.append in Heq; simpl in *;
          injection Heq as ? Heq'; subst; [done|].
        rewrite decide_False in Hca by done. exfalso.
        assert (None = Some (a, b)); [|done]. apply IH. done.
Qed.

Lemma contains_char_true c s : contains_char c s = true ↔ c ∈ bytes_of s.
Proof.
  induction s as [|a s IH]; simpl.
  - split; [done|]. intros H. by apply not_elem_of_nil in H.
  - unfold bytes_of in *. simpl. rewrite elem_of_cons. case_decide; subst; [naive_solver|].
    rewrite IH. naive_solver.
Qed.

Lemma replace_from_0_nil pat rep : replace_from 0 pat rep "" = "".
Proof. done. Qed.

(** Text without an occurrence of the pattern is unchanged. *)
Lemma replace_absent (c : ascii) p rep s :
  contains_char c s = false → replace (String c p) rep s = s.
Proof.
  unfold replace. induction s as [|a s IH]; [done|]. intros H. simpl in H.
  case_decide as Ha; [done|]. simpl. unfold starts_with. simpl.
  rewrite decide_False by done. simpl. by rewrite IH.
Qed.

Lemma contains_char_app c a b : contains_char c (a +:+ b) = contains_char c a || contains_char c b.
Proof.
  induction a as [|x a IH]; [done|]. unfold String.append in *. simpl.
  case_decide; [done|]. apply IH.
Qed.

(** Replacement passes over text without the pattern's first byte, and replaces a match. *)
Lemma replace_skip_literal (c : ascii) p rep a b :
  contains_char c a = false → replace (String c p) rep (a +:+ b) = a +:+ replace (String c p) rep b.
Proof.
  unfold replace. induction a as [|x a IH]; [done|]. intros H. simpl in H.
  case_decide as Hx; [done|]. unfold String.append in *. simpl. unfold starts_with. simpl.
  rewrite decide_False by done. simpl. by rewrite IH.
Qed.

Lemma replace_from_skip pat rep a b :
  replace_from (String.length a) pat rep (a +:+ b) = replace_from 0 pat rep b.
Proof. induction a as [|x a IH]; [done|]. unfold String.append in *. simpl. apply IH. Qed.

Lemma replace_match (c : ascii) p rep b :
  replace (String c p) rep (String c p +:+ b) = rep +:+ replace (String c p) rep b.
Proof.
  unfold replace. assert (starts_with (String c p) (String c p +:+ b) = true) as Hs.
  { apply starts_with_true. by exists b. }
  change (String c p +:+ b) with (String c (p +:+ b)) in *. simpl in *. rewrite Hs.
  by rewrite Nat.sub_0_r, replace_from_skip.
Qed.

(** Decimal text: the digits before the last, and the last. *)
Definition digits (x : N) : string := pretty_N_go x "".

Lemma pretty_go_app x : ∀ s, pretty_N_go x s = digits x +:+ s.
Proof.
  unfold digits. induction (N.lt_wf_0 x) as [x _ IH]; intros s.
  destruct (decide (x = 0)%N) as [->|Hx]; [done|].
  rewrite !(pretty_N_go_step x) by lia. assert (Hd : (x `div` 10 < x)%N) by (apply N.div_lt; lia).
  rewrite (IH _ Hd), (IH _ Hd (String _ "")). by rewrite <- str_app_assoc.
Qed.

Lemma digits_step x : (0 < x)%N →
  digits x = digits (x `div` 10) +:+ String (pretty_N_char (x `mod` 10)) "".
Proof. intros Hx. unfold digits at 1. by rewrite pretty_N_go_step, pretty_go_app. Qed.

Lemma str_length_app (a b : string) : String.length (a +:+ b) = String.length a + String.length b.
Proof. induction a as [|x a IH]; [done|]. unfold String.append in *. simpl. by rewrite IH. Qed.

Lemma length_digits k : ∀ x, (x < 10 ^ N.of_nat k)%N → String.length (digits x) ≤ k.
Proof.
  induction k as [|k IH]; intros x Hx.
  - assert (x = 0)%N as -> by (simpl in Hx; lia). done.
  - destruct (decide (x = 0)%N) as [->|Hx0]; [simpl; lia|].
    rewrite digits_step, str_length_app by lia. simpl.
    rewrite Nat2N.inj_succ, N.pow_succ_r' in Hx.
    specialize (IH (x `div` 10)%N). enough (String.length (digits (x `div` 10)) ≤ k) by lia.
    apply IH. apply N.Div0.div_lt_upper_bound; lia.
Qed.

(** The decimal text of a u128 has at most 39 digits. *)
Lemma length_u_to_string z : (0 ≤ z ≤ u128_max)%Z → String.length (u_to_string z) ≤ 39.
Proof.
  intros Hz. unfold u_to_string, pretty, pretty_N. case_decide; [simpl; lia|].
  apply (length_digits 39). unfold u128_max in Hz.
  assert (2 ^ 128 < Z.of_N (10 ^ N.of_nat 39))%Z by (vm_compute; reflexivity). lia.
Qed.

Lemma u_to_string_inj a b : (0 ≤ a)%Z → (0 ≤ b)%Z → u_to_string a = u_to_string b → a = b.
Proof. intros Ha Hb E. unfold u_to_string in E. apply (inj (pretty (A:=N))) in E. lia. Qed.

(** Text before the first separator is determined by the whole. *)
Lemma separated_inj c a b a' b' :
  contains_char c a = false → contains_char c a' = false →
  a +:+ String c b = a' +:+ String c b' → a = a' ∧ b = b'.
Proof.
  intros Ha Ha' E.
  assert (H1 : split_once c (a +:+ String c b) = Some (a, b)) by by apply split_once_Some.
  assert (H2 : split_once c (a' +:+ String c b') = Some (a', b')) by by apply split_once_Some.
  rewrite E, H2 in H1. by injection H1 as -> ->.
Qed.

(** A list of at least one text joined by a separator none of them contains is determined by the
    joined text. *)
Lemma join_char_inj c l l' :
  Forall (λ s, contains_char c s = false) l → Forall (λ s, contains_char c s = false) l' →
  l ≠ [] → l' ≠ [] → join (String c "") l = join (String c "") l' → l = l'.
Proof.
  assert (Hc : ∀ s, contains_char c s = false → ∀ x t, s ≠ x +:+ String c t).
  { intros s Hs x t ->. rewrite contains_char_app in Hs. simpl in Hs.
    rewrite decide_True, orb_true_r in Hs; done. }
  intros Hl. revert l'. induction Hl as [|x l Hx Hl IH]; [done|]. intros l' Hl' _ Hne'.
  destruct Hl' as [|x' l' Hx' Hl']; [done|].
  destruct l as [|y l], l' as [|y' l']; simpl; intros E.
  - by rewrite E.
  - exfalso. by apply (Hc x Hx x' (join (String c "") (y' :: l'))).
  - exfalso. symmetry in E. by apply (Hc x' Hx' x (join (String c "") (y :: l))).
  - change (String c "" +:+ ?s) with (String c s) in E.
    apply separated_inj in E as [-> E]; [|done..]. f_equal. by apply IH.
Qed.

(** [str::strip_suffix]. *)
Definition strip_suffix (p s : string) : option string :=
  let n := String.length s - String.length p in
  if (String.length p <=? String.length s) && str_eqb (String.substring n (String.length p) s) p
  then Some (String.substring 0 n s) else None.
