(* ===== verification/Rules.v ===== *)
(** * Rules: what principals may write

    Models [crates/smallclaims/src/rules.rs]: rules with their three modes, the glob matcher, which
    writes a rule restricts, and the decision over a list of rules. A write is one claim: its actor,
    kind and subject. The glob matcher is proved equal to a declarative reading of patterns, and the
    decision loop to "the first enforcing rule denies, every auditing rule is recorded". *)

From Stdlib Require Import Ascii.
From S2P Require Import Prelude Text.

Definition RULE_SET : string := "rule.set".
Definition RULE_AUDITED : string := "rule.audited".

Inductive Mode := Off | Audit | Enforce.

#[export] Instance Mode_eq_dec : EqDecision Mode.
Proof. solve_decision. Defined.

Definition Mode_as_str (m : Mode) : string :=
  match m with
  | Off => "off"
  | Audit => "audit"
  | Enforce => "enforce"
  end.

Record Rule := mkRule {
  mode : Mode;
  description : string;
  actors : list string;
  except : list string;
  kinds : list string;
  subjects : list string;
  unless_subjects : list string
}.

Record NamedRule := mkNamedRule {
  nr_name : string;
  nr_claim_id : string;
  nr_rule : Rule
}.

Record Decision := mkDecision {
  audited : list NamedRule;
  denied : option NamedRule
}.

(** ** The glob matcher *)

Definition slash : ascii := "/"%char.
Definition star : ascii := "*"%char.

(** [matches] of [glob], on byte slices. The two loops over [skip] run from 0 to the length of
    the value, and to the end of its first segment. *)
Fixpoint matches (pattern value : list ascii) {struct pattern} : bool :=
  match pattern with
  | [] => match value with [] => true | _ => false end
  | first :: rest =>
      if decide (first = star) then
        match rest with
        | second :: rest' =>
            if decide (second = star) then
              existsb (λ skip, matches rest' (drop skip value)) (seq 0 (S (length value)))
            else
              let segment := default (length value)
                               (position (λ byte, bool_decide (byte = slash)) value) in
              existsb (λ skip, matches rest (drop skip value)) (seq 0 (S segment))
        | [] =>
            let segment := default (length value)
                             (position (λ byte, bool_decide (byte = slash)) value) in
            existsb (λ skip, matches rest (drop skip value)) (seq 0 (S segment))
        end
      else
        match value with
        | byte :: value' => bool_decide (byte = first) && matches rest value'
        | [] => false
        end
  end.

Definition glob (pattern value : string) : bool := matches (bytes_of pattern) (bytes_of value).

(** ** Which writes a rule restricts *)

(** [str::splitn] with a one-byte separator. *)
Fixpoint splitn (n : nat) (c : ascii) (s : string) : list string :=
  match n with
  | 0 => []
  | 1 => [s]
  | S n' =>
      match split_once c s with
      | Some (a, b) => a :: splitn n' c b
      | None => [s]
      end
  end.

(** The actor's name without its family, and the first two segments of that name. *)
Definition actor_name (actor : string) : string :=
  match split_once slash actor with
  | Some (_, name) => name
  | None => actor
  end.

Definition actor_namespace (actor : string) : string :=
  join "/" (take 2 (splitn 3 slash (actor_name actor))).

Definition fill_pattern (actor pattern : string) : string :=
  replace "{namespace}" (actor_namespace actor) (replace "{actor}" (actor_name actor) pattern).

Definition any_pattern (actor : string) (patterns : list string) (value : string) : bool :=
  existsb (λ pattern, glob (fill_pattern actor pattern) value) patterns.

Definition restricts (r : Rule) (actor kind subject : string) : bool :=
  any_pattern actor (actors r) actor
  && negb (any_pattern actor (except r) actor)
  && any_pattern actor (kinds r) kind
  && ((match subjects r with [] => true | _ => false end)
      || any_pattern actor (subjects r) subject)
  && negb (any_pattern actor (unless_subjects r) subject).

(** ** Deciding one write *)

Definition decide_step (actor kind subject : string) (d : Decision) (r : NamedRule) : Decision :=
  if bool_decide (mode (nr_rule r) = Off) || negb (restricts (nr_rule r) actor kind subject)
  then d
  else
    match mode (nr_rule r) with
    | Enforce =>
        match denied d with
        | None => mkDecision (audited d) (Some r)
        | Some _ => d
        end
    | Audit => mkDecision (audited d ++ [r]) (denied d)
    | Off => d
    end.

Definition decide_write (rules : list NamedRule) (actor kind subject : string) : Decision :=
  fold_left (decide_step actor kind subject) rules (mkDecision [] None).

(** ** What a pattern means

    A pattern is a sequence of tokens, read left to right: [**], [*] and literal bytes. A value
    matches when it splits into one piece per token: any bytes for [**], bytes without a [/] for
    [*], the byte itself for a literal. *)

Inductive token := AnyPath | AnySegment | Lit (a : ascii).

Fixpoint tokens (p : list ascii) : list token :=
  match p with
  | [] => []
  | a :: rest =>
      if decide (a = star) then
        match rest with
        | b :: rest' => if decide (b = star) then AnyPath :: tokens rest' else AnySegment :: tokens rest
        | [] => [AnySegment]
        end
      else Lit a :: tokens rest
  end.

Definition token_matches (t : token) (piece : list ascii) : Prop :=
  match t with
  | AnyPath => True
  | AnySegment => slash ∉ piece
  | Lit a => piece = [a]
  end.

Definition pattern_means (p v : list ascii) : Prop :=
  ∃ pieces, Forall2 token_matches (tokens p) pieces ∧ concat pieces = v.

Lemma existsb_skips (f : list ascii → bool) (v : list ascii) n :
  (existsb (λ skip, f (drop skip v)) (seq 0 (S n)) = true) ↔ ∃ k, k ≤ n ∧ f (drop k v) = true.
Proof.
  rewrite existsb_exists. split.
  - intros (k & Hk & Hf). apply in_seq in Hk. exists k. split; [lia|done].
  - intros (k & Hk & Hf). exists k. split; [apply in_seq; lia|done].
Qed.

Lemma segment_prefix (v : list ascii) k :
  k ≤ default (length v) (position (λ byte, bool_decide (byte = slash)) v) → slash ∉ take k v.
Proof.
  intros Hk Hin. apply list_elem_of_lookup in Hin as [i Hi].
  apply lookup_take_Some in Hi as [Hi Hlt].
  destruct (position _ v) as [n|] eqn:E; simpl in Hk.
  - apply position_Some in E as (x & Hx & Hp & Hmin).
    specialize (Hmin i slash ltac:(lia) Hi). by rewrite bool_decide_eq_false in Hmin.
  - rewrite position_None in E. specialize (E slash).
    rewrite bool_decide_eq_false in E. apply E; [|done].
    apply list_elem_of_lookup. eauto.
Qed.

Lemma segment_bound (u w : list ascii) :
  slash ∉ u →
  length u ≤ default (length (u ++ w)) (position (λ byte, bool_decide (byte = slash)) (u ++ w)).
Proof.
  intros Hu. destruct (position _ (u ++ w)) as [n|] eqn:E; simpl.
  - apply position_Some in E as (x & Hx & Hp & _). apply bool_decide_eq_true in Hp as ->.
    destruct (decide (n < length u)) as [Hn|]; [|lia]. exfalso. apply Hu.
    apply list_elem_of_lookup. exists n. by rewrite lookup_app_l in Hx.
  - rewrite length_app. lia.
Qed.

(** The pieces of a matched value: the first piece, and a match of the rest. *)
Lemma pieces_cons t ts v :
  (∃ pieces, Forall2 token_matches (t :: ts) pieces ∧ concat pieces = v) ↔
  ∃ u w, v = u ++ w ∧ token_matches t u ∧ ∃ pieces, Forall2 token_matches ts pieces ∧ concat pieces = w.
Proof.
  split.
  - intros (ps & Hf & <-). inversion Hf as [|? u ? ps' Hu Hps]; subst. simpl. naive_solver.
  - intros (u & w & -> & Hu & ps & Hps & <-). exists (u :: ps). split; [by constructor|done].
Qed.

Lemma skip_any_path (rest v : list ascii) (f : list ascii → bool) :
  (∀ w, f w = true ↔ pattern_means rest w) →
  existsb (λ skip, f (drop skip v)) (seq 0 (S (length v))) = true ↔
  ∃ u w, v = u ++ w ∧ True ∧ pattern_means rest w.
Proof.
  intros IH. rewrite existsb_skips. split.
  - intros (k & Hk & Hf). exists (take k v), (drop k v). rewrite take_drop. by rewrite <- IH.
  - intros (u & w & -> & _ & Hw). exists (length u). rewrite length_app, drop_app_length, IH.
    split; [lia|done].
Qed.

Lemma skip_any_segment (rest v : list ascii) (f : list ascii → bool) :
  (∀ w, f w = true ↔ pattern_means rest w) →
  existsb (λ skip, f (drop skip v))
    (seq 0 (S (default (length v) (position (λ byte, bool_decide (byte = slash)) v)))) = true ↔
  ∃ u w, v = u ++ w ∧ (slash ∉ u) ∧ pattern_means rest w.
Proof.
  intros IH. rewrite existsb_skips. split.
  - intros (k & Hk & Hf). exists (take k v), (drop k v). rewrite take_drop, <- IH.
    split_and!; auto using segment_prefix.
  - intros (u & w & -> & Hu & Hw). exists (length u). rewrite drop_app_length, IH.
    split; [by apply segment_bound|done].
Qed.

Lemma matches_spec n : ∀ p v, length p ≤ n → matches p v = true ↔ pattern_means p v.
Proof.
  induction n as [|n IH]; intros p v Hn.
  { destruct p; [|simpl in Hn; lia]. simpl. unfold pattern_means. simpl. split.
    - destruct v; [|done]. intros _. by exists [].
    - intros (ps & Hf & <-). by inversion Hf. }
  destruct p as [|a rest]; [by apply (IH [] v); simpl; lia|]. simpl in Hn.
  unfold pattern_means. simpl. case_decide as Ha.
  - destruct rest as [|b rest']; [|case_decide as Hb].
    + rewrite pieces_cons. apply (skip_any_segment []). intros w. apply (IH [] w). simpl. lia.
    + rewrite pieces_cons. apply skip_any_path. intros w. apply IH. simpl in Hn. lia.
    + rewrite pieces_cons. apply (skip_any_segment (b :: rest')).
      intros w. apply (IH (b :: rest') w). lia.
  - rewrite pieces_cons. destruct v as [|c v]; simpl.
    + split; [done|]. intros (u & w & Huw & -> & _). done.
    + rewrite andb_true_iff, bool_decide_eq_true, IH by lia. split.
      * intros [-> Hv]. by exists [a], v.
      * intros (u & w & Huw & -> & Hw). simpl in Huw. by injection Huw as -> ->.
Qed.

(** C36. The glob matcher decides the declarative meaning of patterns: [glob pattern value] holds
    exactly when [value] splits into one piece per token of [pattern], where a [**] takes any
    bytes, a [*] takes bytes without [/], and every other byte takes itself. *)
Theorem glob_correct (pattern value : string) :
  glob pattern value = true ↔ pattern_means (bytes_of pattern) (bytes_of value).
Proof. apply (matches_spec (length (bytes_of pattern))). lia. Qed.

(** ** The decision loop *)

Definition enforced (actor kind subject : string) (r : NamedRule) : bool :=
  bool_decide (mode (nr_rule r) = Enforce) && restricts (nr_rule r) actor kind subject.
Definition audits (actor kind subject : string) (r : NamedRule) : bool :=
  bool_decide (mode (nr_rule r) = Audit) && restricts (nr_rule r) actor kind subject.

Lemma decide_loop actor kind subject rules : ∀ d,
  fold_left (decide_step actor kind subject) rules d =
  mkDecision (audited d ++ List.filter (audits actor kind subject) rules)
             (match denied d with
              | Some r => Some r
              | None => List.find (enforced actor kind subject) rules
              end).
Proof.
  induction rules as [|r rules IH]; intros [au de]; simpl.
  { rewrite app_nil_r. by destruct de. }
  rewrite IH. unfold decide_step, audits, enforced.
  destruct (mode (nr_rule r)) eqn:Hm; simpl.
  - by destruct de.
  - destruct (restricts _ _ _ _); simpl; [|by destruct de].
    by rewrite <- app_assoc.
  - destruct (restricts _ _ _ _); simpl; by destruct de.
Qed.

(** What the rules say about one write: the audited rules are exactly the rules in audit mode
    that restrict it, in their given order, and the denying rule is the first rule in enforce mode
    that restricts it. Rules that are off say nothing. *)
Theorem decide_write_spec rules actor kind subject :
  decide_write rules actor kind subject =
  mkDecision (List.filter (audits actor kind subject) rules)
             (List.find (enforced actor kind subject) rules).
Proof. apply (decide_loop actor kind subject rules (mkDecision [] None)). Qed.

(** ** Patterns that name the writer *)

Lemma literal_tokens (p : list ascii) : star ∉ p → ∀ q, tokens (p ++ q) = (map Lit p) ++ tokens q.
Proof.
  induction p as [|a p IH]; intros Hp q; [done|]. apply not_elem_of_cons in Hp as [Ha Hp].
  simpl. rewrite decide_False by done. by rewrite IH.
Qed.

Lemma literal_pieces (p : list ascii) : Forall2 token_matches (map Lit p) (map (λ a, [a]) p).
Proof. induction p; constructor; done. Qed.

Lemma concat_singletons (p : list ascii) : concat (map (λ a, [a]) p) = p.
Proof. induction p as [|a p IH]; simpl; [done|]. by rewrite IH. Qed.

(** A literal prefix followed by [**] matches every text with that prefix. *)
Lemma glob_literal_prefix (p q : string) :
  contains_char star p = false → glob (p +:+ "**") (p +:+ q) = true.
Proof.
  intros Hp. unfold glob. rewrite !bytes_of_app. apply (matches_spec _ _ _ (le_n _)).
  exists ((map (λ a, [a]) (bytes_of p)) ++ [bytes_of q]). split.
  - rewrite literal_tokens.
    + apply Forall2_app; [apply literal_pieces|]. by repeat constructor.
    + intros Hin%contains_char_true. congruence.
  - rewrite concat_app, concat_singletons. simpl. by rewrite app_nil_r.
Qed.

(** Filling in a pattern of the shape [prefix{actor}suffix]. *)
Lemma fill_actor_pattern (actor pre suf : string) :
  contains_char "{"%char pre = false →
  contains_char "{"%char suf = false →
  contains_char "{"%char (actor_name actor) = false →
  fill_pattern actor (pre +:+ "{actor}" +:+ suf) = pre +:+ actor_name actor +:+ suf.
Proof.
  intros Hpre Hsuf Hname. unfold fill_pattern.
  rewrite (replace_skip_literal "{"%char) by done.
  rewrite replace_match, (replace_absent "{"%char _ _ suf) by done.
  apply replace_absent. by rewrite !contains_char_app, Hpre, Hsuf, Hname.
Qed.

(** A rule that spares the writer's own prefix ([PREFIX/{actor}/**] among its
    [unless_subjects]) never restricts a write under that prefix, whatever its mode and its other
    patterns, for every writer whose name holds no pattern byte ([*] or [{]). *)
Theorem own_prefix_is_never_restricted (r : Rule) (actor kind pre rest : string) :
  contains_char "{"%char pre = false →
  contains_char star pre = false →
  contains_char "{"%char (actor_name actor) = false →
  contains_char star (actor_name actor) = false →
  (pre +:+ "{actor}" +:+ "/**") ∈ unless_subjects r →
  restricts r actor kind (pre +:+ actor_name actor +:+ "/" +:+ rest) = false.
Proof.
  intros Hpre Hpre' Hname Hname' Hin. unfold restricts.
  apply andb_false_intro2, negb_false_iff, existsb_true_elem.
  eexists. split; [exact Hin|]. rewrite fill_actor_pattern by done.
  change "/**" with ("/" +:+ "**"). rewrite !str_app_assoc.
  apply glob_literal_prefix. by rewrite !contains_char_app, Hpre', Hname'.
Qed.

Definition example_rule : Rule :=
  mkRule Enforce "an agent publishes only under its own prefix"
    ["agent/**"] ["agent/example/librarian"] ["doc.bound"] ["doc/**"] ["doc/{actor}/**"].

Lemma own_prefix_witness :
  restricts example_rule "agent/example/reviewer" "doc.bound" "doc/elsewhere/notes" = true ∧
  restricts example_rule "agent/example/reviewer" "doc.bound" "doc/example/reviewer/notes" = false.
Proof.
  split; [reflexivity|].
  apply (own_prefix_is_never_restricted example_rule "agent/example/reviewer" "doc.bound" "doc/" "notes");
    try reflexivity. simpl. left.
Defined.
