(* ===== verification/Json.v ===== *)
(** * JSON values

    [serde_json::Value], with objects as the ordered maps the workspace builds it with
    ([preserve_order]): an object is its list of fields in insertion order, with distinct keys.
    Numbers belong to [serde_json]; the model keeps them abstract behind the accessor the code
    calls. [canonical_json_value] is the normal form [crates/smallclaims/src/hash.rs] hashes. *)

From S2P Require Import Prelude StableSort.

(** [serde_json::Number], with [Value::as_u64]'s documented behaviour on it. *)
Class NumberApi := {
  Number : Type;
  #[global] Number_eq_dec :: EqDecision Number;
  num_as_u64 : Number → option Z;
  num_as_u64_range : ∀ n z, num_as_u64 n = Some z → is_u64 z
}.

(** A concrete number type: the integers, for examples. *)
Program Definition integer_numbers : NumberApi := {|
  Number := Z;
  num_as_u64 z := if decide (0 ≤ z ≤ u64_max)%Z then Some z else None
|}.
Next Obligation. intros n z. simpl. case_decide; [|done]. by intros [= <-]. Qed.

Section json.
Context `{NumberApi}.

Inductive Value :=
| Null
| Bool (b : bool)
| Num (n : Number)
| Str (s : string)
| Array (values : list Value)
| Object (fields : list (string * Value)).

(** Induction through arrays and object fields. *)
Fixpoint Value_strong_ind (P : Value → Prop)
    (HNull : P Null) (HBool : ∀ b, P (Bool b)) (HNum : ∀ n, P (Num n)) (HStr : ∀ s, P (Str s))
    (HArray : ∀ l, Forall P l → P (Array l))
    (HObject : ∀ fs, Forall (λ f, P f.2) fs → P (Object fs)) (v : Value) : P v :=
  let rec := Value_strong_ind P HNull HBool HNum HStr HArray HObject in
  match v with
  | Null => HNull
  | Bool b => HBool b
  | Num n => HNum n
  | Str s => HStr s
  | Array l =>
      HArray l ((fix go l : Forall P l :=
                   match l with
                   | [] => Forall_nil _
                   | x :: l' => Forall_cons _ x l' (rec x) (go l')
                   end) l)
  | Object fs =>
      HObject fs ((fix go fs : Forall (λ f, P f.2) fs :=
                     match fs with
                     | [] => Forall_nil _
                     | f :: fs' => Forall_cons _ f fs' (rec f.2) (go fs')
                     end) fs)
  end.

(** The accessors the code calls. *)
Definition as_str (v : Value) : option string :=
  match v with Str s => Some s | _ => None end.
Definition as_bool (v : Value) : option bool :=
  match v with Bool b => Some b | _ => None end.
Definition as_u64 (v : Value) : option Z :=
  match v with Num n => num_as_u64 n | _ => None end.
Definition as_array (v : Value) : option (list Value) :=
  match v with Array l => Some l | _ => None end.

Definition field_get (name : string) (fs : list (string * Value)) : option Value :=
  snd <$> List.find (λ f, str_eqb (fst f) name) fs.
(** [Value::get] with a string key, and with an index. *)
Definition get (name : string) (v : Value) : option Value :=
  match v with Object fs => field_get name fs | _ => None end.
Definition get_index (i : nat) (v : Value) : option Value :=
  match v with Array l => l !! i | _ => None end.
(** [Value::pointer] with two field names that are not indexes. *)
Definition pointer2 (a b : string) (v : Value) : option Value := get a v ≫= get b.

(** Every object has distinct keys. *)
Fixpoint unique_keys (v : Value) : Prop :=
  match v with
  | Array l => Forall id (map unique_keys l)
  | Object fs => NoDup (map fst fs) ∧ Forall id (map (λ f, unique_keys f.2) fs)
  | _ => True
  end.

Definition by_key : (string * Value) → (string * Value) → bool := key_leb String.leb fst.

(** [canonical_json_value]. The source sorts the fields and then maps their values; the keys
    that order them are not changed by the map, so mapping first gives the same fields
    ([canonical_object_fields]). *)
Fixpoint canonical_json_value (v : Value) : Value :=
  match v with
  | Array l => Array (map canonical_json_value l)
  | Object fs => Object (sort_by by_key (map (λ f, (fst f, canonical_json_value (snd f))) fs))
  | _ => v
  end.

Lemma insert_by_key_map (g : Value → Value) f fs :
  insert_by by_key (f.1, g f.2) (map (λ f, (f.1, g f.2)) fs) =
  map (λ f, (f.1, g f.2)) (insert_by by_key f fs).
Proof.
  induction fs as [|f' fs IH]; simpl; [done|]. unfold by_key, key_leb in *. simpl.
  destruct (String.leb f.1 f'.1); simpl; [done|]. by rewrite IH.
Qed.

Lemma canonical_object_fields fs :
  canonical_json_value (Object fs) =
  Object (map (λ f, (fst f, canonical_json_value (snd f))) (sort_by by_key fs)).
Proof.
  simpl. f_equal. induction fs as [|f fs IH]; simpl; [done|].
  by rewrite IH, insert_by_key_map.
Qed.

(** Two values that differ at most in the order of object fields. *)
Inductive same_json : Value → Value → Prop :=
| same_atom v : same_json v v
| same_array l l' : Forall2 same_json l l' → same_json (Array l) (Array l')
| same_object fs gs hs :
    fs ≡ₚ gs → Forall2 (λ f g, f.1 = g.1 ∧ same_json f.2 g.2) gs hs →
    same_json (Object fs) (Object hs).

Lemma by_key_total x y : by_key x y = true ∨ by_key y x = true.
Proof. apply str_leb_total. Qed.
Lemma by_key_trans x y z : by_key x y = true → by_key y z = true → by_key x z = true.
Proof. apply str_leb_trans. Qed.

Lemma map_fst_canonical fs :
  map fst (map (λ f : string * Value, (f.1, canonical_json_value f.2)) fs) = map fst fs.
Proof. rewrite map_map. by apply map_ext. Qed.

(** Reordering the fields of an object with distinct keys does not change the sorted object. *)
Lemma sort_fields_perm (fs gs : list (string * Value)) :
  NoDup (map fst fs) → fs ≡ₚ gs → sort_by by_key fs = sort_by by_key gs.
Proof. intros Hnd Hp. by apply sort_by_str_key_perm_eq. Qed.

(** Values that differ in field order have one canonical form. *)
Lemma canonical_same v : ∀ w, unique_keys v → same_json v w →
  canonical_json_value v = canonical_json_value w.
Proof.
  induction v as [| | | |l IH|fs IH] using Value_strong_ind; intros w Hu Hs;
    inversion Hs as [| ? l' Hl | ? gs hs Hp Hf]; subst; try done.
  - simpl. f_equal. simpl in Hu. induction Hl as [|x y l l' Hxy Hl IHl]; [done|].
    apply Forall_cons_iff in IH as [IHx IH]. apply Forall_cons_iff in Hu as [Hx Hu].
    simpl. f_equal; [by apply IHx|]. apply IHl; auto. by constructor.
  - simpl. f_equal. simpl in Hu. destruct Hu as [Hnd Hu].
    assert (Hg : map (λ f, (f.1, canonical_json_value f.2)) gs =
                 map (λ f, (f.1, canonical_json_value f.2)) hs).
    { assert (Hu' : Forall (λ f, unique_keys f.2) gs).
      { rewrite <- Hp. clear -Hu. induction fs; simpl in *; inversion Hu; constructor; auto. }
      rewrite Hp in IH. clear Hp Hs Hnd Hu.
      induction Hf as [|[k1 x] [k2 y] gs hs [? Hxy] Hf IHf]; simpl in *; [done|].
      apply Forall_cons_iff in IH as [IHx IH]. apply Forall_cons_iff in Hu' as [Hx Hu']. subst.
      f_equal; [|by apply IHf]. f_equal. by apply IHx. }
    rewrite <- Hg. apply sort_fields_perm; [by rewrite map_fst_canonical|].
    by apply Permutation_map.
Qed.

(** The canonical form is the same value up to field order. *)
Lemma same_json_canonical v : same_json v (canonical_json_value v).
Proof.
  induction v as [| | | |l IH|fs IH] using Value_strong_ind; simpl; try apply same_atom.
  - apply same_array. clear -IH. induction IH; simpl; by constructor.
  - pose proof (canonical_object_fields fs) as E. simpl in E. injection E as E. rewrite E.
    apply same_object with (gs := sort_by by_key fs); [by rewrite sort_by_perm|].
    rewrite <- (sort_by_perm by_key fs) in IH. revert IH.
    generalize (sort_by by_key fs). intros gs IH. induction IH; simpl; constructor; auto.
Qed.

(** The canonical form lists every object's keys in byte order. *)
Lemma canonical_object_sorted fs :
  ∃ gs, canonical_json_value (Object fs) = Object gs ∧
        StronglySorted (λ a b, String.leb a b = true) (map fst gs).
Proof.
  exists (sort_by by_key (map (λ f, (f.1, canonical_json_value f.2)) fs)). split; [done|].
  generalize (sort_by_sorted by_key by_key_total by_key_trans
                (map (λ f, (f.1, canonical_json_value f.2)) fs)).
  generalize (sort_by by_key (map (λ f, (f.1, canonical_json_value f.2)) fs)).
  induction 1 as [|x l Hl IH Hx]; simpl; constructor; [done|]. by apply Forall_map.
Qed.
End json.
