(* ===== verification/Bytes.v ===== *)
(** * Byte strings

    Big-endian integers ([to_be_bytes]), the byte-wise lexicographic order SQLite compares BLOBs
    with, and the composition lemma used to show that an encoding preserves an order: an encoding
    is [order_exact] when comparing two encodings, whatever follows them, is comparing what they
    encode first. *)

From Stdlib Require Import Ascii.
From S2P Require Import Prelude Text.

Definition byte_of (z : Z) : ascii := ascii_of_N (Z.to_N (z mod 256)).
Definition byte_val (b : ascii) : Z := Z.of_N (N_of_ascii b).

(** [uN::to_be_bytes], [n] bytes. *)
Fixpoint be_bytes (n : nat) (z : Z) : list ascii :=
  match n with
  | O => []
  | S k => byte_of (Z.shiftr z (8 * Z.of_nat k)) :: be_bytes k z
  end.

(** [uN::from_be_bytes]. *)
Definition be_value (l : list ascii) : Z := fold_left (λ acc b, acc * 256 + byte_val b)%Z l 0%Z.

Lemma byte_val_range b : (0 ≤ byte_val b < 256)%Z.
Proof. unfold byte_val. pose proof (N_ascii_bounded b). lia. Qed.

Lemma byte_val_of z : byte_val (byte_of z) = (z mod 256)%Z.
Proof.
  unfold byte_val, byte_of. pose proof (Z.mod_pos_bound z 256 ltac:(lia)).
  rewrite N_ascii_embedding by lia. lia.
Qed.

Lemma byte_of_val b : byte_of (byte_val b) = b.
Proof.
  unfold byte_of, byte_val. pose proof (N_ascii_bounded b).
  rewrite Z.mod_small by lia. rewrite N2Z.id. apply ascii_N_embedding.
Qed.

Lemma byte_val_inj a b : byte_val a = byte_val b → a = b.
Proof. intros E. by rewrite <- (byte_of_val a), E, byte_of_val. Qed.

Lemma length_be_bytes n z : length (be_bytes n z) = n.
Proof. induction n; simpl; [done|]. by f_equal. Qed.

Lemma be_value_app_acc l : ∀ acc,
  fold_left (λ a b, a * 256 + byte_val b)%Z l acc =
  (acc * 256 ^ Z.of_nat (length l) + be_value l)%Z.
Proof.
  unfold be_value. induction l as [|b l IH]; intros acc; simpl; [lia|].
  rewrite IH, (IH (0 * 256 + byte_val b)%Z). rewrite Nat2Z.inj_succ, Z.pow_succ_r by lia. ring.
Qed.

Lemma be_value_cons b l : be_value (b :: l) = (byte_val b * 256 ^ Z.of_nat (length l) + be_value l)%Z.
Proof. unfold be_value at 1. simpl. rewrite be_value_app_acc. f_equal. Qed.

Lemma be_value_range l : (0 ≤ be_value l < 256 ^ Z.of_nat (length l))%Z.
Proof.
  induction l as [|b l IH]; [unfold be_value; simpl; lia|].
  rewrite be_value_cons. simpl length. rewrite Nat2Z.inj_succ, Z.pow_succ_r by lia.
  pose proof (byte_val_range b). nia.
Qed.

Lemma pow8 k : (2 ^ (8 * Z.of_nat k) = 256 ^ Z.of_nat k)%Z.
Proof. rewrite Z.pow_mul_r by lia. done. Qed.

Lemma be_bytes_value n z : be_value (be_bytes n z) = (z mod 256 ^ Z.of_nat n)%Z.
Proof.
  induction n as [|k IH]; [unfold be_value; simpl; by rewrite Z.mod_1_r|].
  simpl be_bytes. rewrite be_value_cons, length_be_bytes, IH, byte_val_of.
  rewrite Z.shiftr_div_pow2, pow8 by lia. rewrite Nat2Z.inj_succ, Z.pow_succ_r by lia.
  set (m := (256 ^ Z.of_nat k)%Z). assert (0 < m)%Z by (apply Z.pow_pos_nonneg; lia).
  rewrite (Z.mul_comm 256 m), Z.rem_mul_r by lia. lia.
Qed.

Lemma be_bytes_value_id n z : (0 ≤ z < 256 ^ Z.of_nat n)%Z → be_value (be_bytes n z) = z.
Proof. intros Hz. rewrite be_bytes_value. by apply Z.mod_small. Qed.

Lemma be_value_inj l1 l2 : length l1 = length l2 → be_value l1 = be_value l2 → l1 = l2.
Proof.
  revert l2; induction l1 as [|a l1 IH]; intros [|b l2] Hlen Hv; try done.
  simpl in Hlen. injection Hlen as Hlen. rewrite !be_value_cons, Hlen in Hv.
  pose proof (be_value_range l1). pose proof (be_value_range l2). rewrite Hlen in *.
  pose proof (byte_val_range a). pose proof (byte_val_range b).
  assert (byte_val a = byte_val b) by nia.
  f_equal; [by apply byte_val_inj|]. apply IH; [done|]. nia.
Qed.

Lemma be_bytes_of_value l : be_bytes (length l) (be_value l) = l.
Proof.
  apply be_value_inj; [by rewrite length_be_bytes|].
  apply be_bytes_value_id, be_value_range.
Qed.

Lemma be_bytes_inj n x y :
  (0 ≤ x < 256 ^ Z.of_nat n)%Z → (0 ≤ y < 256 ^ Z.of_nat n)%Z →
  be_bytes n x = be_bytes n y → x = y.
Proof. intros Hx Hy E. by rewrite <- (be_bytes_value_id n x), E, be_bytes_value_id. Qed.

(** ** The order of byte strings *)

(** [Ordering::then_with]. *)
Definition then_with (c d : comparison) : comparison := match c with Eq => d | _ => c end.

Lemma then_with_assoc a b c : then_with (then_with a b) c = then_with a (then_with b c).
Proof. by destruct a. Qed.

Fixpoint bytes_compare (a b : list ascii) : comparison :=
  match a, b with
  | [], [] => Eq
  | [], _ :: _ => Lt
  | _ :: _, [] => Gt
  | x :: a', y :: b' => then_with (byte_val x ?= byte_val y)%Z (bytes_compare a' b')
  end.

Lemma bytes_compare_refl a : bytes_compare a a = Eq.
Proof. induction a as [|x a IH]; simpl; [done|]. by rewrite Z.compare_refl. Qed.

Lemma bytes_compare_Eq a b : bytes_compare a b = Eq ↔ a = b.
Proof.
  split; [|intros ->; apply bytes_compare_refl].
  revert b; induction a as [|x a IH]; intros [|y b]; simpl; try done.
  destruct (byte_val x ?= byte_val y)%Z eqn:E; simpl; try done.
  apply Z.compare_eq, byte_val_inj in E as ->. intros Hab. by rewrite (IH b).
Qed.

Lemma bytes_compare_app_same a b c : bytes_compare (a ++ b) (a ++ c) = bytes_compare b c.
Proof. induction a as [|x a IH]; simpl; [done|]. by rewrite Z.compare_refl. Qed.

(** ** Order-exact encodings *)

Definition order_exact {A} (cmp : A → A → comparison) (enc : A → list ascii) (P : A → Prop) : Prop :=
  ∀ x y s t, P x → P y →
    bytes_compare (enc x ++ s) (enc y ++ t) = then_with (cmp x y) (bytes_compare s t).

Lemma order_exact_pair {A B} (cA : A → A → comparison) (cB : B → B → comparison) eA eB PA PB :
  order_exact cA eA PA → order_exact cB eB PB →
  order_exact (λ x y, then_with (cA x.1 y.1) (cB x.2 y.2)) (λ x, eA x.1 ++ eB x.2)
    (λ x, PA x.1 ∧ PB x.2).
Proof.
  intros HA HB x y s t [HxA HxB] [HyA HyB]. rewrite <- !app_assoc, HA by done.
  rewrite HB by done. by rewrite then_with_assoc.
Qed.

Lemma Z_compare_div_mod m x y :
  (0 < m)%Z → ((x ?= y) = then_with (x / m ?= y / m) (x mod m ?= y mod m))%Z.
Proof.
  intros Hm. pose proof (Z.mod_pos_bound x m Hm). pose proof (Z.mod_pos_bound y m Hm).
  pose proof (Z.div_mod x m ltac:(lia)). pose proof (Z.div_mod y m ltac:(lia)).
  destruct (Z.compare_spec (x / m) (y / m)) as [E|E|E]; simpl.
  - destruct (Z.compare_spec (x mod m) (y mod m)) as [F|F|F];
      [apply Z.compare_eq_iff | apply Z.compare_lt_iff | apply Z.compare_gt_iff]; nia.
  - apply Z.compare_lt_iff. nia.
  - apply Z.compare_gt_iff. nia.
Qed.

Lemma be_bytes_mod n z : be_bytes n (z mod 256 ^ Z.of_nat n) = be_bytes n z.
Proof.
  apply be_value_inj; [by rewrite !length_be_bytes|]. rewrite !be_bytes_value.
  apply Z.mod_mod. assert (0 < 256 ^ Z.of_nat n)%Z by (apply Z.pow_pos_nonneg; lia). lia.
Qed.

(** Fixed-width big-endian integers compare numerically. *)
Lemma be_bytes_order_exact n :
  order_exact Z.compare (be_bytes n) (λ z, 0 ≤ z < 256 ^ Z.of_nat n)%Z.
Proof.
  induction n as [|k IH]; intros x y s t Hx Hy.
  { assert (x = 0 ∧ y = 0)%Z as [-> ->] by (simpl in *; lia). done. }
  rewrite Nat2Z.inj_succ, Z.pow_succ_r in Hx, Hy by lia. simpl.
  set (m := (256 ^ Z.of_nat k)%Z) in *. assert (0 < m)%Z by (apply Z.pow_pos_nonneg; lia).
  rewrite !byte_val_of, !Z.shiftr_div_pow2, pow8 by lia. fold m.
  assert (0 ≤ x / m < 256)%Z by (split; [apply Z.div_pos; lia|apply Z.div_lt_upper_bound; lia]).
  assert (0 ≤ y / m < 256)%Z by (split; [apply Z.div_pos; lia|apply Z.div_lt_upper_bound; lia]).
  rewrite !(Z.mod_small (_ / m)) by lia.
  rewrite <- (be_bytes_mod k x), <- (be_bytes_mod k y). fold m.
  rewrite IH by (apply Z.mod_pos_bound; lia).
  rewrite (Z_compare_div_mod m x y) by done. by rewrite then_with_assoc.
Qed.

#[global] Arguments byte_val : simpl never.
#[global] Arguments byte_of : simpl never.
#[global] Arguments be_bytes : simpl never.
