(* ===== verification/Order.v ===== *)
(** * Orders given by a comparison

    Rust's [Ord::cmp] and SQL's [ORDER BY] compare with a three-way comparison. [cmp_order] says
    that a comparison is a total preorder; it is closed under comparing by a key and under
    [then_with], so the order of a tuple follows from the orders of its parts. *)

From Stdlib Require Import Ascii.
From S2P Require Import Prelude StableSort Text Bytes.

Class cmp_order {A} (cmp : A → A → comparison) : Prop := {
  cmp_opp : ∀ x y, cmp y x = CompOpp (cmp x y);
  cmp_trans : ∀ x y z, cmp x y ≠ Gt → cmp y z ≠ Gt → cmp x z ≠ Gt
}.
Arguments cmp_opp {A} cmp {_} x y.
Arguments cmp_trans {A} cmp {_} x y z.

Definition cmp_leb {A} (cmp : A → A → comparison) (x y : A) : bool :=
  match cmp x y with Gt => false | _ => true end.

Lemma cmp_leb_true {A} (cmp : A → A → comparison) x y : cmp_leb cmp x y = true ↔ cmp x y ≠ Gt.
Proof. unfold cmp_leb. by destruct (cmp x y). Qed.

Section order.
Context {A : Type} (cmp : A → A → comparison) `{!cmp_order cmp}.

Lemma cmp_leb_total x y : cmp_leb cmp x y = true ∨ cmp_leb cmp y x = true.
Proof. rewrite !cmp_leb_true, (cmp_opp cmp x y). destruct (cmp x y); naive_solver. Qed.

Lemma cmp_leb_trans x y z : cmp_leb cmp x y = true → cmp_leb cmp y z = true → cmp_leb cmp x z = true.
Proof. rewrite !cmp_leb_true. apply (cmp_trans cmp). Qed.

Lemma cmp_leb_both x y : cmp_leb cmp x y = true → cmp_leb cmp y x = true → cmp x y = Eq.
Proof. rewrite !cmp_leb_true, (cmp_opp cmp x y). by destruct (cmp x y). Qed.

(** Two comparisons compose as the strict and the weak order say. *)
Lemma cmp_Eq_l x y z : cmp x y = Eq → cmp x z = cmp y z.
Proof.
  intros Hxy. assert (Hyx : cmp y x = Eq) by by rewrite (cmp_opp cmp x y), Hxy.
  assert (H1 : cmp x z ≠ Gt → cmp y z ≠ Gt) by (apply (cmp_trans cmp); congruence).
  assert (H2 : cmp y z ≠ Gt → cmp x z ≠ Gt) by (apply (cmp_trans cmp); congruence).
  assert (H3 : cmp z x ≠ Gt → cmp z y ≠ Gt) by (intros ?; apply (cmp_trans cmp _ x); congruence).
  assert (H4 : cmp z y ≠ Gt → cmp z x ≠ Gt) by (intros ?; apply (cmp_trans cmp _ y); congruence).
  rewrite (cmp_opp cmp x z), (cmp_opp cmp y z) in *. destruct (cmp x z), (cmp y z); naive_solver.
Qed.
End order.

#[export] Instance cmp_order_by_key {A B} (cmp : B → B → comparison) (f : A → B) :
  cmp_order cmp → cmp_order (λ x y, cmp (f x) (f y)).
Proof. intros []. split; naive_solver. Qed.

#[export] Instance cmp_order_then {A} (c1 c2 : A → A → comparison) :
  cmp_order c1 → cmp_order c2 → cmp_order (λ x y, then_with (c1 x y) (c2 x y)).
Proof.
  intros H1 H2. split.
  - intros x y. rewrite (cmp_opp c1 x y), (cmp_opp c2 x y). by destruct (c1 x y).
  - intros x y z Hxy Hyz.
    assert (Hle : c1 x z ≠ Gt).
    { apply (cmp_trans c1 _ y); [by destruct (c1 x y) | by destruct (c1 y z)]. }
    destruct (c1 x z) eqn:E; [|done..]. simpl.
    assert (c1 x y = Eq ∧ c1 y z = Eq) as [E1 E2].
    { pose proof (cmp_Eq_l c1 x z y E) as Hz. rewrite (cmp_opp c1 y z) in Hz.
      by destruct (c1 x y), (c1 y z). }
    rewrite E1 in Hxy. rewrite E2 in Hyz. by apply (cmp_trans c2 _ y).
Qed.

#[export] Instance cmp_order_Z : cmp_order Z.compare.
Proof.
  split; [intros x y; apply Z.compare_antisym|].
  intros x y z. rewrite !Z.compare_gt_iff. lia.
Qed.

#[export] Instance cmp_order_nat : cmp_order Nat.compare.
Proof.
  split; [intros x y; apply Nat.compare_antisym|].
  intros x y z. rewrite !Nat.compare_gt_iff. lia.
Qed.

#[export] Instance cmp_order_string : cmp_order String.compare.
Proof.
  split; [intros x y; apply String.compare_antisym|].
  intros x y z Hxy Hyz. pose proof (str_leb_trans x y z) as H. unfold String.leb in H.
  destruct (String.compare x y), (String.compare y z), (String.compare x z); naive_solver.
Qed.
