(* ===== verification/BTree.v ===== *)
(** * Ordered collections

    [BTreeMap] and [BTreeSet] over keys compared with [Ord::cmp], for code that depends on the
    order they iterate in. A map is its list of entries in strictly increasing key order and a set
    its list of elements; [bt_update] is the [entry] API, and [bt_set] collects an iterator. The
    derived orders of tuples and lists are built from the orders of their parts. *)

From Stdlib Require Import Ascii.
From S2P Require Import Prelude StableSort Text Bytes Order.

(** ** Exact comparisons *)

(** Keys that compare equal are equal, as for a derived [Ord]. *)
Class cmp_exact {A} (cmp : A → A → comparison) : Prop :=
  cmp_eq : ∀ x y, cmp x y = Eq ↔ x = y.

#[export] Instance cmp_exact_Z : cmp_exact Z.compare.
Proof. intros x y. apply Z.compare_eq_iff. Qed.
#[export] Instance cmp_exact_nat : cmp_exact Nat.compare.
Proof. intros x y. apply Nat.compare_eq_iff. Qed.
#[export] Instance cmp_exact_string : cmp_exact String.compare.
Proof.
  intros x y. split; [apply String.compare_eq_iff|]. intros ->.
  pose proof (String.compare_antisym y y). by destruct (String.compare y y).
Qed.

(** Lexicographic order of slices. *)
Fixpoint list_compare {A} (cmp : A → A → comparison) (a b : list A) : comparison :=
  match a, b with
  | [], [] => Eq
  | [], _ :: _ => Lt
  | _ :: _, [] => Gt
  | x :: a', y :: b' => then_with (cmp x y) (list_compare cmp a' b')
  end.

(** [None] sorts before [Some]. *)
Definition option_compare {A} (cmp : A → A → comparison) (a b : option A) : comparison :=
  match a, b with
  | None, None => Eq
  | None, Some _ => Lt
  | Some _, None => Gt
  | Some x, Some y => cmp x y
  end.

Section derived.
Context {A : Type} (cmp : A → A → comparison) `{!cmp_order cmp, !cmp_exact cmp}.

Lemma cmp_refl x : cmp x x = Eq.
Proof. by apply cmp_eq. Qed.

#[export] Instance list_compare_exact : cmp_exact (list_compare cmp).
Proof.
  intros a. induction a as [|x a IH]; intros [|y b]; simpl; try done.
  destruct (cmp x y) eqn:E; simpl.
  - apply cmp_eq in E as ->. rewrite IH. split; [by intros ->|by intros [=]].
  - split; [done|]. intros [= -> _]. by rewrite cmp_refl in E.
  - split; [done|]. intros [= -> _]. by rewrite cmp_refl in E.
Qed.

#[export] Instance list_compare_order : cmp_order (list_compare cmp).
Proof.
  split.
  - intros a. induction a as [|x a IH]; intros [|y b]; simpl; try done.
    rewrite (cmp_opp cmp x y), IH. by destruct (cmp x y).
  - intros a. induction a as [|x a IH]; intros [|y b] [|z c]; simpl; try done.
    intros Hxy Hyz.
    assert (Hle : cmp x z ≠ Gt).
    { apply (cmp_trans cmp _ y); [by destruct (cmp x y) | by destruct (cmp y z)]. }
    destruct (cmp x z) eqn:E; [|done..]. simpl. apply cmp_eq in E as ->.
    rewrite (cmp_opp cmp z y) in Hyz. destruct (cmp z y) eqn:E'; try done.
    simpl in *. by apply (IH b c).
Qed.

#[export] Instance option_compare_exact : cmp_exact (option_compare cmp).
Proof.
  intros [x|] [y|]; simpl; try done. rewrite (cmp_eq x y). split; [by intros ->|by intros [=]].
Qed.

#[export] Instance option_compare_order : cmp_order (option_compare cmp).
Proof.
  split; [intros [x|] [y|]; simpl; try done; apply (cmp_opp cmp)|].
  intros [x|] [y|] [z|]; simpl; try done. apply (cmp_trans cmp).
Qed.
End derived.

Lemma then_with_Eq c d : then_with c d = Eq ↔ c = Eq ∧ d = Eq.
Proof. destruct c; naive_solver. Qed.

(** A derived [Ord] compares one field after another. *)
Ltac derive_order :=
  repeat match goal with
  | |- cmp_order (λ x y, then_with _ _) => apply cmp_order_then
  | |- cmp_order (λ x y, ?c (@?f x) (@?g y)) => apply (cmp_order_by_key c f); apply _
  end.
Ltac derive_exact :=
  intros [] []; cbn; rewrite ?then_with_Eq, ?cmp_eq; split;
  [intros; destruct_and?; congruence | intros [=]; subst; tauto].

(** ** Sorted maps *)

Section maps.
Context {K V : Type} (cmp : K → K → comparison).

(** [BTreeMap::entry] followed by an update, or by [or_default] and an update. *)
Fixpoint bt_update (k : K) (f : option V → V) (m : list (K * V)) : list (K * V) :=
  match m with
  | [] => [(k, f None)]
  | (k', v) :: m' =>
      match cmp k k' with
      | Eq => (k', f (Some v)) :: m'
      | Lt => (k, f None) :: m
      | Gt => (k', v) :: bt_update k f m'
      end
  end.

Definition bt_insert (k : K) (v : V) (m : list (K * V)) : list (K * V) := bt_update k (λ _, v) m.

(** [BTreeMap::get]. *)
Definition bt_get (k : K) (m : list (K * V)) : option V :=
  snd <$> List.find (λ e, match cmp k e.1 with Eq => true | _ => false end) m.

Definition bt_wf (m : list (K * V)) : Prop := StronglySorted (λ a b, cmp a.1 b.1 = Lt) m.

Context `{!cmp_order cmp, !cmp_exact cmp}.

Lemma cmp_lt_trans x y z : cmp x y = Lt → cmp y z = Lt → cmp x z = Lt.
Proof.
  intros Hxy Hyz. destruct (cmp x z) eqn:E; [|done|].
  - apply cmp_eq in E as ->. by rewrite (cmp_opp cmp y z), Hyz in Hxy.
  - exfalso. eapply (cmp_trans cmp x y z); congruence.
Qed.

Lemma cmp_gt_lt x y : cmp x y = Gt ↔ cmp y x = Lt.
Proof. rewrite (cmp_opp cmp x y). by destruct (cmp x y). Qed.

Lemma bt_update_elem k f m e : e ∈ bt_update k f m → e ∈ m ∨ e.1 = k.
Proof.
  induction m as [|[k' v] m IH]; simpl.
  - intros ->%list_elem_of_singleton. by right.
  - destruct (cmp k k') eqn:E.
    + apply cmp_eq in E as ->. rewrite !elem_of_cons. intros [->|?]; auto.
    + rewrite elem_of_cons. intros [->|?]; auto.
    + rewrite !elem_of_cons. intros [->|?%IH]; tauto.
Qed.

Lemma bt_update_wf k f m : bt_wf m → bt_wf (bt_update k f m).
Proof.
  unfold bt_wf. induction 1 as [|[k' v] m Hm IH Hk]; simpl; [by repeat constructor|].
  destruct (cmp k k') eqn:E.
  - by constructor.
  - constructor; [by constructor|]. constructor; [done|].
    eapply List.Forall_impl; [|done]. intros e. simpl. by apply cmp_lt_trans.
  - constructor; [done|]. rewrite List.Forall_forall in *. intros e He%list_elem_of_In.
    apply bt_update_elem in He as [He|He]; [by apply Hk, list_elem_of_In|].
    simpl. rewrite He. by apply cmp_gt_lt.
Qed.

Lemma bt_get_Some k m v : bt_wf m → bt_get k m = Some v ↔ (k, v) ∈ m.
Proof.
  unfold bt_get. induction 1 as [|[k' v'] m Hm IH Hk]; simpl.
  - split; [done|]. by intros ?%elem_of_nil.
  - rewrite elem_of_cons. destruct (cmp k k') eqn:E; simpl.
    + apply cmp_eq in E as ->. split; [intros [= ->]; by left|]. intros [[= ->]|Hin]; [done|].
      rewrite List.Forall_forall in Hk. apply list_elem_of_In, Hk in Hin. simpl in Hin.
      by rewrite cmp_refl in Hin.
    + rewrite IH. split; [auto|]. intros [[= -> ->]|?]; [|done]. by rewrite cmp_refl in E.
    + rewrite IH. split; [auto|]. intros [[= -> ->]|?]; [|done]. by rewrite cmp_refl in E.
Qed.

Lemma bt_get_update k f m k' : bt_wf m →
  bt_get k' (bt_update k f m) = match cmp k' k with Eq => Some (f (bt_get k m)) | _ => bt_get k' m end.
Proof.
  unfold bt_get. induction 1 as [|[k0 v0] m Hm IH Hk]; simpl.
  - by destruct (cmp k' k).
  - assert (Hlt : cmp k k0 = Lt →
      List.find (λ e, match cmp k e.1 with Eq => true | _ => false end) m = None).
    { intros Hlt. destruct (List.find _ m) as [e|] eqn:F; [|done].
      apply find_Some_elem in F as [Hin Heq].
      rewrite List.Forall_forall in Hk. apply list_elem_of_In, Hk in Hin. simpl in Hin.
      destruct (cmp k e.1) eqn:E; try done. apply cmp_eq in E as ->.
      pose proof (cmp_lt_trans _ _ _ Hlt Hin) as Habs. by rewrite cmp_refl in Habs. }
    destruct (cmp k k0) eqn:E; simpl.
    + apply cmp_eq in E as ->. by destruct (cmp k' k0).
    + rewrite (Hlt eq_refl). simpl. by destruct (cmp k' k).
    + destruct (cmp k' k0) eqn:E'; simpl; [|exact IH..].
      apply cmp_eq in E' as ->. rewrite (proj1 (cmp_gt_lt k k0) E). done.
Qed.
End maps.

(** ** Strictly sorted lists *)

Section sorted.
Context {A : Type} (cmp : A → A → comparison) `{!cmp_order cmp}.

Lemma cmp_order_refl x : cmp x x = Eq.
Proof. pose proof (cmp_opp cmp x x). by destruct (cmp x x). Qed.

(** Strictly sorted lists with the same elements are equal. *)
Lemma sorted_ext l l' :
  StronglySorted (λ a b, cmp a b = Lt) l → StronglySorted (λ a b, cmp a b = Lt) l' →
  (∀ x, x ∈ l ↔ x ∈ l') → l = l'.
Proof.
  intros Hl. revert l'. induction Hl as [|x l Hs IH Hx]; intros l' Hl' Heq.
  - destruct l' as [|y l']; [done|]. exfalso. eapply elem_of_nil, Heq. left.
  - destruct Hl' as [|y l' Hs' Hy]; [exfalso; eapply elem_of_nil, Heq; left|].
    rewrite List.Forall_forall in Hx, Hy.
    assert (x = y) as ->.
    { assert (Hxin : x ∈ y :: l') by (apply Heq; left).
      assert (Hyin : y ∈ x :: l) by (apply Heq; left).
      apply elem_of_cons in Hxin as [?|Hxin]; [done|].
      apply elem_of_cons in Hyin as [?|Hyin]; [done|].
      apply list_elem_of_In, Hy in Hxin. apply list_elem_of_In, Hx in Hyin.
      by rewrite (cmp_opp cmp y x), Hxin in Hyin. }
    f_equal. apply IH; [done|]. intros z. specialize (Heq z). rewrite !elem_of_cons in Heq.
    split; intros Hz.
    + destruct (proj1 Heq (or_intror Hz)) as [->|?]; [|done].
      apply list_elem_of_In, Hx in Hz. by rewrite cmp_order_refl in Hz.
    + destruct (proj2 Heq (or_intror Hz)) as [->|?]; [|done].
      apply list_elem_of_In, Hy in Hz. by rewrite cmp_order_refl in Hz.
Qed.

Lemma sorted_NoDup l : StronglySorted (λ a b, cmp a b = Lt) l → NoDup l.
Proof.
  induction 1 as [|x s _ IH Hx]; constructor; [|done].
  intros Hin%list_elem_of_In. rewrite List.Forall_forall in Hx. apply Hx in Hin.
  by rewrite cmp_order_refl in Hin.
Qed.
End sorted.

(** ** Reading rows in key order

    [SELECT … WHERE key > after ORDER BY key] over rows with distinct keys. *)

Section rows.
Context {A K : Type} (cmp : K → K → comparison) (key : A → K) `{!cmp_order cmp, !cmp_exact cmp}.

Definition by_row_key (a b : A) : comparison := cmp (key a) (key b).

Definition rows_in_order (l : list A) : list A := sort_by (cmp_leb by_row_key) l.

Definition is_after (after : K) (r : A) : bool :=
  match cmp (key r) after with Gt => true | _ => false end.

Definition rows_after (l : list A) (after : K) : list A :=
  rows_in_order (List.filter (is_after after) l).

#[export] Instance by_row_key_order : cmp_order by_row_key.
Proof. unfold by_row_key. apply (cmp_order_by_key cmp key). apply _. Qed.

Lemma rows_in_order_sorted l :
  NoDup (map key l) → StronglySorted (λ a b, by_row_key a b = Lt) (rows_in_order l).
Proof.
  intros Hnd. unfold rows_in_order.
  assert (Hs : StronglySorted (λ a b, cmp_leb by_row_key a b = true)
                 (sort_by (cmp_leb by_row_key) l)).
  { apply sort_by_sorted; [apply (cmp_leb_total by_row_key) | apply (cmp_leb_trans by_row_key)]. }
  assert (Hn : NoDup (map key (sort_by (cmp_leb by_row_key) l)))
    by by rewrite (Permutation_map key (sort_by_perm _ l)).
  revert Hn. induction Hs as [|x s _ IH Hx]; simpl; [constructor|].
  intros [Hnin Hn]%NoDup_cons. constructor; [by apply IH|].
  rewrite List.Forall_forall in *. intros y Hy. specialize (Hx y Hy). apply cmp_leb_true in Hx.
  destruct (by_row_key x y) eqn:E; [|done..]. exfalso. apply Hnin.
  unfold by_row_key in E. apply cmp_eq in E as ->. by apply list_elem_of_In, in_map.
Qed.

Lemma rows_after_filter l after :
  NoDup (map key l) → rows_after l after = List.filter (is_after after) (rows_in_order l).
Proof.
  intros Hnd. apply (sorted_ext by_row_key).
  - apply rows_in_order_sorted. clear - Hnd. induction l as [|x l IH]; simpl in *; [constructor|].
    apply NoDup_cons in Hnd as [Hx Hnd]. destruct (is_after after x); simpl; [|by apply IH].
    constructor; [|by apply IH]. rewrite list_elem_of_fmap in *.
    intros (y & E & Hy%lfilter_elem). apply Hx. exists y. naive_solver.
  - pose proof (rows_in_order_sorted l Hnd) as Hs. clear Hnd.
    induction Hs as [|x s _ IH Hx]; simpl; [constructor|].
    destruct (is_after after x); [|done]. constructor; [done|].
    rewrite List.Forall_forall in *. intros y [Hy _]%filter_In. by apply Hx.
  - intros x. unfold rows_after, rows_in_order. by rewrite elem_of_sort_by, !lfilter_elem, elem_of_sort_by.
Qed.

(** The rows after the last one read are the rest. *)
Lemma rows_after_last l pre x post :
  NoDup (map key l) → rows_in_order l = pre ++ x :: post → rows_after l (key x) = post.
Proof.
  intros Hnd E. rewrite (rows_after_filter _ _ Hnd).
  pose proof (rows_in_order_sorted l Hnd) as Hs. rewrite E in *.
  assert (Hpost : ∀ y, y ∈ post → is_after (key x) y = true).
  { intros y Hy. clear E. unfold is_after. rewrite (cmp_opp cmp (key x) (key y)).
    induction pre as [|p pre IH]; simpl in Hs; inversion Hs as [|? ? Hs' Hx]; subst.
    - rewrite List.Forall_forall in Hx. apply list_elem_of_In, Hx in Hy.
      unfold by_row_key in Hy. by rewrite Hy.
    - by apply IH. }
  assert (Hpre : ∀ y, y ∈ pre ++ [x] → is_after (key x) y = false).
  { intros y Hy. clear E Hpost. unfold is_after.
    induction pre as [|p pre IH]; simpl in *.
    - apply list_elem_of_singleton in Hy as ->. by rewrite (cmp_order_refl cmp).
    - inversion Hs as [|? ? Hs' Hx]; subst. apply elem_of_cons in Hy as [->|Hy]; [|by apply IH].
      rewrite List.Forall_forall in Hx. assert (by_row_key p x = Lt) as Hlt.
      { apply Hx, list_elem_of_In. set_solver. } unfold by_row_key in Hlt. by rewrite Hlt. }
  replace (pre ++ x :: post) with ((pre ++ [x]) ++ post) by by rewrite <- app_assoc.
  rewrite List.filter_app.
  clear E Hs. revert Hpre Hpost. generalize (pre ++ [x]) as q. intros q Hpre Hpost.
  assert (List.filter (is_after (key x)) q = []) as ->.
  { clear Hpost. induction q as [|y q IH]; simpl; [done|]. rewrite Hpre by left.
    apply IH. intros z Hz. apply Hpre. by right. }
  simpl. clear Hpre. induction post as [|y post IH]; simpl; [done|]. rewrite Hpost by left.
  f_equal. apply IH. intros z Hz. apply Hpost. by right.
Qed.

(** Before every row, all of them follow. *)
Lemma rows_after_low l after :
  (∀ r, r ∈ l → is_after after r = true) → rows_after l after = rows_in_order l.
Proof.
  intros Hl. unfold rows_after. f_equal. induction l as [|x l IH]; simpl; [done|].
  rewrite Hl by left. f_equal. apply IH. intros r Hr. apply Hl. by right.
Qed.
End rows.

(** ** Sorted sets *)

Section bsets.
Context {A : Type} (cmp : A → A → comparison).

Definition bt_add (x : A) (s : list (A * unit)) : list (A * unit) := bt_insert cmp x tt s.

(** Collecting into a [BTreeSet] and iterating it. *)
Definition bt_set (l : list A) : list A := map fst (fold_left (λ s x, bt_add x s) l []).

Context `{!cmp_order cmp, !cmp_exact cmp}.

Lemma bt_fold_spec l s : bt_wf cmp s →
  let s' := fold_left (λ s x, bt_add x s) l s in
  bt_wf cmp s' ∧ ∀ x, (x, tt) ∈ s' ↔ (x, tt) ∈ s ∨ x ∈ l.
Proof.
  revert s. induction l as [|y l IH]; intros s Hs; simpl.
  - split; [done|]. intros x. split; [by left|]. intros [?|?%elem_of_nil]; done.
  - destruct (IH (bt_add y s)) as [Hwf Hin]; [by apply bt_update_wf|]. split; [done|].
    intros x. rewrite Hin, elem_of_cons. unfold bt_add, bt_insert.
    rewrite <- !(bt_get_Some cmp) by (done || by apply bt_update_wf).
    rewrite bt_get_update by done. destruct (cmp x y) eqn:E.
    + apply cmp_eq in E as ->. naive_solver.
    + assert (x ≠ y) by (intros ->; by rewrite cmp_refl in E). naive_solver.
    + assert (x ≠ y) by (intros ->; by rewrite cmp_refl in E). naive_solver.
Qed.

Lemma elem_of_bt_set x l : x ∈ bt_set l ↔ x ∈ l.
Proof.
  unfold bt_set. destruct (bt_fold_spec l []) as [_ Hin]; [constructor|].
  rewrite list_elem_of_fmap.
  split.
  - intros ([y []] & -> & Hy). apply Hin in Hy as [?%elem_of_nil|?]; done.
  - intros Hx. exists (x, tt). split; [done|]. apply Hin. by right.
Qed.

Lemma bt_set_sorted l : StronglySorted (λ a b, cmp a b = Lt) (bt_set l).
Proof.
  unfold bt_set. destruct (bt_fold_spec l []) as [Hwf _]; [constructor|].
  induction Hwf as [|e s _ IH He]; simpl; constructor; [done|].
  rewrite List.Forall_forall in *. intros x (e' & <- & He')%in_map_iff. by apply He.
Qed.

Lemma bt_set_NoDup l : NoDup (bt_set l).
Proof. apply (sorted_NoDup cmp), bt_set_sorted. Qed.

Lemma bt_set_ext l l' : (∀ x, x ∈ l ↔ x ∈ l') → bt_set l = bt_set l'.
Proof.
  intros H. apply (sorted_ext cmp); [apply bt_set_sorted..|]. intros x. by rewrite !elem_of_bt_set.
Qed.
End bsets.

(** ** Grouping

    A loop of [map.entry(key).or_default().push(x)] over the items that have a key. *)

Section groups.
Context {A K : Type} (cmp : K → K → comparison) (key : A → option K).

Definition push_group (m : list (K * list A)) (x : A) : list (K * list A) :=
  match key x with
  | Some k => bt_update cmp k (λ o, default [] o ++ [x]) m
  | None => m
  end.

Definition bt_group (l : list A) : list (K * list A) := fold_left push_group l [].

Context `{!EqDecision K, !cmp_order cmp, !cmp_exact cmp}.

(** The members of a group, in the order of the list. *)
Definition group_of (k : K) (l : list A) : list A :=
  List.filter (λ x, bool_decide (key x = Some k)) l.

Lemma push_group_wf m x : bt_wf cmp m → bt_wf cmp (push_group m x).
Proof. intros Hm. unfold push_group. destruct (key x); [by apply bt_update_wf|done]. Qed.

Lemma push_group_get m x k : bt_wf cmp m →
  default [] (bt_get cmp k (push_group m x)) = default [] (bt_get cmp k m) ++ group_of k [x].
Proof.
  intros Hm. unfold push_group, group_of. simpl. destruct (key x) as [k'|] eqn:Hk.
  - rewrite bt_get_update by done. destruct (cmp k k') eqn:E; simpl.
    + apply cmp_eq in E as ->. by rewrite bool_decide_true.
    + rewrite bool_decide_false, app_nil_r; [done|]. intros [= ->]. by rewrite cmp_refl in E.
    + rewrite bool_decide_false, app_nil_r; [done|]. intros [= ->]. by rewrite cmp_refl in E.
  - by rewrite bool_decide_false, app_nil_r.
Qed.

Lemma push_group_nonempty m x k :
  bt_wf cmp m → (∀ k, bt_get cmp k m ≠ Some []) → bt_get cmp k (push_group m x) ≠ Some [].
Proof.
  intros Hm Hne. unfold push_group. destruct (key x) as [k'|]; [|done].
  rewrite bt_get_update by done. destruct (cmp k k'); [|done..]. by destruct (default _ _).
Qed.

Lemma bt_group_get l :
  bt_wf cmp (bt_group l) ∧ (∀ k, bt_get cmp k (bt_group l) ≠ Some []) ∧
  ∀ k, default [] (bt_get cmp k (bt_group l)) = group_of k l.
Proof.
  unfold bt_group. induction l as [|x l IH] using rev_ind; [repeat split; done || constructor|].
  rewrite fold_left_app. simpl. destruct IH as (Hwf & Hne & Hget). repeat split.
  - by apply push_group_wf.
  - intros k. by apply push_group_nonempty.
  - intros k. rewrite push_group_get, Hget by done. unfold group_of.
    by rewrite List.filter_app.
Qed.

(** A group is what has its key, and there is one for every key some item has. *)
Lemma elem_of_bt_group k ms l : (k, ms) ∈ bt_group l ↔ ms = group_of k l ∧ ms ≠ [].
Proof.
  destruct (bt_group_get l) as (Hwf & Hne & Hget).
  rewrite <- (bt_get_Some cmp) by done. specialize (Hget k). specialize (Hne k).
  destruct (bt_get cmp k _) as [v|]; simpl in *.
  - rewrite <- Hget. split; [intros [= ->]; split; [done|by intros ->]|by intros [-> _]].
  - rewrite <- Hget. split; [done|by intros [-> ?]].
Qed.

Lemma bt_group_sorted l : bt_wf cmp (bt_group l).
Proof. apply bt_group_get. Qed.
End groups.

Lemma NoDup_map_filter {A B} (f : A → B) (p : A → bool) l :
  NoDup (map f l) → NoDup (map f (List.filter p l)).
Proof.
  induction l as [|x l IH]; simpl; [done|]. intros [Hx Hl]%NoDup_cons.
  destruct (p x); simpl; [|by apply IH]. constructor; [|by apply IH].
  intros (y & Hy & [Hin _]%lfilter_elem)%list_elem_of_fmap. apply Hx, list_elem_of_fmap. eauto.
Qed.
