(* ===== verification/Slices.v ===== *)
(** * Slices

    The searches and groupings of Rust's slices that the replication inventory uses, on lists:
    [binary_search_by], [partition_point], a subslice, and [chunk_by]. The first two are specified
    for slices that are sorted, or split, as the search asks; on such a slice the answer is unique,
    so the scan from the front that stands for them here gives it. *)

From Stdlib Require Import Ascii.
From S2P Require Import Prelude StableSort Text Bytes Order BTree.

(** ** Searching *)

(** [Ok] of the place of an element that compares equal, or [Err] of where one would go. *)
Fixpoint binary_search_by {A} (f : A → comparison) (l : list A) : result nat nat :=
  match l with
  | [] => Err 0
  | x :: l' =>
      match f x with
      | Eq => Ok 0
      | Gt => Err 0
      | Lt => match binary_search_by f l' with Ok i => Ok (S i) | Err i => Err (S i) end
      end
  end.

Fixpoint partition_point {A} (p : A → bool) (l : list A) : nat :=
  match l with
  | [] => 0
  | x :: l' => if p x then S (partition_point p l') else 0
  end.

(** [&l[from..to]], for [from <= to <= l.len()]. *)
Definition subslice {A} (from to : nat) (l : list A) : list A := take (to - from) (drop from l).

Fixpoint chunk_by {A} (same : A → A → bool) (l : list A) : list (list A) :=
  match l with
  | [] => []
  | x :: l' =>
      match chunk_by same l' with
      | (y :: c) :: cs => if same x y then (x :: y :: c) :: cs else [x] :: (y :: c) :: cs
      | cs => [x] :: cs
      end
  end.

Definition is_ok {E A} (r : result E A) : bool := match r with Ok _ => true | Err _ => false end.

(** Strictly increasing lists. *)
Local Abbreviation increasing cmp := (StronglySorted (λ a b, cmp a b = Lt)).

Lemma binary_search_by_map {A B} (h : A → B) (f : A → comparison) (g : B → comparison) l :
  (∀ y, y ∈ l → f y = g (h y)) → binary_search_by f l = binary_search_by g (map h l).
Proof.
  induction l as [|x l IH]; intros Hf; simpl; [done|]. rewrite Hf, IH; [done| |by left].
  intros y Hy. apply Hf. by right.
Qed.

Lemma binary_search_by_Ok {A} (f : A → comparison) l i :
  binary_search_by f l = Ok i → ∃ x, l !! i = Some x ∧ f x = Eq.
Proof.
  revert i; induction l as [|x l IH]; intros i; simpl; [done|].
  destruct (f x) eqn:E; [intros [= <-]; by exists x| |done].
  destruct (binary_search_by f l) as [j|j]; [|done]. intros [= <-]. by apply IH.
Qed.

Lemma binary_search_by_Err {A} (f : A → comparison) l i :
  binary_search_by f l = Err i →
  i ≤ length l ∧ (∀ y, y ∈ take i l → f y = Lt) ∧ (∀ y, l !! i = Some y → f y = Gt).
Proof.
  revert i; induction l as [|x l IH]; intros i; simpl.
  { intros [= <-]. split_and!; [done|by intros y ?%elem_of_nil|done]. }
  destruct (f x) eqn:E; [done| |].
  - destruct (binary_search_by f l) as [j|j]; [done|]. intros [= <-].
    destruct (IH j eq_refl) as (H1 & H2 & H3). split_and!; [lia| |done].
    cbn [take]. intros y [->|Hy]%elem_of_cons; [done|by apply H2].
  - intros [= <-]. split_and!; [lia|by intros y ?%elem_of_nil|]. by intros y [= <-].
Qed.

Section search.
Context {A : Type} (cmp : A → A → comparison) `{!cmp_order cmp, !cmp_exact cmp}.

Lemma increasing_app l k :
  increasing cmp (l ++ k) ↔
  increasing cmp l ∧ increasing cmp k ∧ ∀ x y, x ∈ l → y ∈ k → cmp x y = Lt.
Proof.
  induction l as [|a l IH]; simpl.
  - split; [intros H; split_and!; [constructor|done|by intros x y ?%elem_of_nil]|by intros (_ & ? & _)].
  - split.
    + intros Hs. inversion Hs as [|? ? Hs' Ha]; subst. apply IH in Hs' as (H1 & H2 & H3).
      rewrite List.Forall_forall in Ha. split_and!; [|done|].
      * constructor; [done|]. rewrite List.Forall_forall. intros x Hx.
        apply Ha, List.in_or_app. by left.
      * intros x y [->|Hx]%elem_of_cons Hy; [|by apply H3].
        apply Ha, list_elem_of_In. set_solver.
    + intros (H1 & H2 & H3). inversion H1 as [|? ? H1' Ha]; subst.
      constructor; [apply IH; split_and!; [done..|]; intros; apply H3; set_solver|].
      rewrite List.Forall_forall in *. intros x [Hx|Hx]%List.in_app_or; [by apply Ha|].
      apply H3; [left|by apply list_elem_of_In].
Qed.

Lemma binary_search_found x l i :
  binary_search_by (λ y, cmp y x) l = Ok i → l !! i = Some x.
Proof. intros (y & Hy & E)%binary_search_by_Ok. by apply cmp_eq in E as <-. Qed.

Lemma binary_search_place x l i :
  increasing cmp l → binary_search_by (λ y, cmp y x) l = Err i →
  i ≤ length l ∧ increasing cmp (take i l ++ x :: drop i l) ∧ x ∉ l.
Proof.
  intros Hs (Hi & Hlo & Hhi)%binary_search_by_Err.
  assert (Hup : ∀ y, y ∈ drop i l → cmp x y = Lt).
  { destruct (drop i l) as [|z t] eqn:Ed; [by intros y ?%elem_of_nil|].
    assert (Hz : l !! i = Some z)
      by (pose proof (lookup_drop l i 0) as Hd; rewrite Ed, Nat.add_0_r in Hd; done).
    apply Hhi in Hz. apply cmp_gt_lt in Hz; [|done].
    rewrite <- (take_drop i l), Ed in Hs. apply increasing_app in Hs as (_ & Hs & _).
    inversion Hs as [|? ? _ Hf]; subst. rewrite List.Forall_forall in Hf.
    intros y [->|Hy]%elem_of_cons; [done|]. eapply (cmp_lt_trans cmp); [done|].
    by apply Hf, list_elem_of_In. }
  pose proof Hs as Hs0. rewrite <- (take_drop i l) in Hs0. apply increasing_app in Hs0 as (H1 & H2 & H3).
  split_and!; [done| |].
  - apply increasing_app. split_and!; [done| |].
    + constructor; [done|]. rewrite List.Forall_forall. intros y Hy. by apply Hup, list_elem_of_In.
    + intros a b Ha [->|Hb]%elem_of_cons; [by apply Hlo|by apply H3].
  - rewrite <- (take_drop i l). intros [Hx|Hx]%elem_of_app.
    + apply Hlo in Hx. by rewrite (cmp_order_refl cmp) in Hx.
    + apply Hup in Hx. by rewrite (cmp_order_refl cmp) in Hx.
Qed.

Lemma binary_search_is_ok x l :
  increasing cmp l → is_ok (binary_search_by (λ y, cmp y x) l) = true ↔ x ∈ l.
Proof.
  intros Hs. destruct (binary_search_by _ l) as [i|i] eqn:E; simpl.
  - split; [|done]. intros _. apply binary_search_found in E. by eapply list_elem_of_lookup_2.
  - split; [done|]. intros Hx. by apply binary_search_place in E as (_ & _ & ?).
Qed.

Lemma increasing_insert x l i :
  increasing cmp l → binary_search_by (λ y, cmp y x) l = Err i →
  take i l ++ x :: drop i l = bt_set cmp (x :: l).
Proof.
  intros Hs E. apply binary_search_place in E as (Hi & Hs' & _); [|done].
  apply (sorted_ext cmp); [done|apply (bt_set_sorted cmp)|]. intros y.
  rewrite (elem_of_bt_set cmp), elem_of_cons. rewrite <- (take_drop i l) at 3. set_solver.
Qed.

Lemma increasing_found x l : increasing cmp l → x ∈ l → bt_set cmp (x :: l) = l.
Proof.
  intros Hs Hx. apply (sorted_ext cmp); [apply (bt_set_sorted cmp)|done|]. intros y.
  rewrite (elem_of_bt_set cmp). set_solver.
Qed.

(** Places in an increasing list compare as what they hold. *)
Lemma increasing_compare l i j x y :
  increasing cmp l → l !! i = Some x → l !! j = Some y → Nat.compare i j = cmp x y.
Proof.
  intros Hs Hi Hj. revert i j Hi Hj. induction Hs as [|a l _ IH Ha]; intros i j Hi Hj; [done|].
  rewrite List.Forall_forall in Ha. destruct i as [|i], j as [|j]; simpl in *; simplify_eq.
  - by rewrite (cmp_order_refl cmp).
  - symmetry. by apply Ha, list_elem_of_In, (list_elem_of_lookup_2 _ j).
  - symmetry. apply cmp_gt_lt; [done|]. by apply Ha, list_elem_of_In, (list_elem_of_lookup_2 _ i).
  - by apply IH.
Qed.

Lemma increasing_last l x :
  increasing cmp l → (∀ y, y ∈ l → cmp y x ≠ Gt) → x ∈ l → last l = Some x.
Proof.
  intros Hs Hle Hx. induction Hs as [|a l Hs IH Ha]; [by apply elem_of_nil in Hx|].
  rewrite List.Forall_forall in Ha. destruct l as [|b l].
  - by apply list_elem_of_singleton in Hx as ->.
  - rewrite last_cons_cons. apply IH; [intros; apply Hle; by right|].
    apply elem_of_cons in Hx as [->|Hx]; [|done]. exfalso. apply (Hle b); [right; left|].
    apply cmp_gt_lt; [done|]. apply Ha. by left.
Qed.
End search.

(** ** Splitting a sorted slice *)

Lemma subslice_map {A B} (h : A → B) from to l : map h (subslice from to l) = subslice from to (map h l).
Proof. unfold subslice. by rewrite <- firstn_map, <- skipn_map. Qed.

Lemma sorted_filter {A} (R : A → A → Prop) (p : A → bool) l :
  StronglySorted R l → StronglySorted R (List.filter p l).
Proof.
  induction 1 as [|x l _ IH Hx]; simpl; [constructor|]. destruct (p x); [|done].
  constructor; [done|]. rewrite List.Forall_forall in *. intros y [Hy _]%filter_In. by apply Hx.
Qed.

Lemma lfilter_map {A B} (h : A → B) (p : B → bool) l :
  List.filter p (map h l) = map h (List.filter (λ x, p (h x)) l).
Proof. induction l as [|x l IH]; simpl; [done|]. destruct (p (h x)); simpl; by rewrite IH. Qed.

Section split.
Context {A : Type} (lt : A → A → Prop).
Implicit Types (p q : A → bool) (l : list A).

Lemma partition_point_take p l :
  StronglySorted lt l → (∀ x y, lt x y → p y = true → p x = true) →
  take (partition_point p l) l = List.filter p l ∧
  drop (partition_point p l) l = List.filter (λ x, negb (p x)) l.
Proof.
  intros Hs Hdown. induction Hs as [|x l _ IH Hx]; simpl; [done|].
  destruct (p x) eqn:E; simpl; [destruct IH as [-> ->]; done|].
  assert (Hall : ∀ y, y ∈ l → p y = false).
  { rewrite List.Forall_forall in Hx. intros y Hy. apply not_true_iff_false. intros Hp.
    apply (Hdown x y) in Hp; [congruence|]. by apply Hx, list_elem_of_In. }
  clear - Hall. split.
  - induction l as [|y l IH]; simpl; [done|]. rewrite Hall by left. apply IH. set_solver.
  - f_equal. induction l as [|y l IH]; simpl; [done|]. rewrite Hall by left. simpl. f_equal.
    apply IH. set_solver.
Qed.

Lemma lfilter_filter p q l : List.filter p (List.filter q l) = List.filter (λ x, q x && p x) l.
Proof.
  induction l as [|x l IH]; simpl; [done|]. destruct (q x); simpl; [|done].
  destruct (p x); by rewrite IH.
Qed.

Lemma partition_point_mono p q l :
  (∀ x, x ∈ l → p x = true → q x = true) → partition_point p l ≤ partition_point q l.
Proof.
  induction l as [|x l IH]; intros H; simpl; [done|]. destruct (p x) eqn:E; [|lia].
  rewrite (H x) by (done || left). apply le_n_S, IH. intros; apply H; [by right|done].
Qed.

Lemma partition_point_le p l : partition_point p l ≤ length l.
Proof. induction l as [|x l IH]; simpl; [done|]. destruct (p x); lia. Qed.

Lemma subslice_app (a b c : list A) : subslice (length a) (length a + length b) (a ++ b ++ c) = b.
Proof. unfold subslice. by rewrite drop_app_length, Nat.add_comm, Nat.add_sub, take_app_length. Qed.

(** The slice between two split points holds what lies between them. *)
Lemma subslice_filter p q l :
  StronglySorted lt l → (∀ x y, lt x y → p y = true → p x = true) →
  (∀ x y, lt x y → q y = true → q x = true) → (∀ x, x ∈ l → p x = true → q x = true) →
  subslice (partition_point p l) (partition_point q l) l = List.filter (λ x, negb (p x) && q x) l.
Proof.
  intros Hs Hp Hq Hpq. unfold subslice.
  rewrite take_drop_commute.
  replace (partition_point p l + (partition_point q l - partition_point p l)) with (partition_point q l)
    by (pose proof (partition_point_mono p q l Hpq); lia).
  destruct (partition_point_take q l Hs Hq) as [Eq _].
  pose proof (sorted_filter lt q l Hs) as Hs'.
  assert (Epp : partition_point p (List.filter q l) = partition_point p l).
  { rewrite <- Eq. clear - Hpq. induction l as [|x l IH]; simpl; [done|].
    destruct (q x) eqn:Eqx; simpl.
    - destruct (p x); [|done]. f_equal. apply IH. intros; apply Hpq; [by right|done].
    - destruct (p x) eqn:Epx; [|done]. rewrite (Hpq x) in Eqx by (done || left). done. }
  rewrite Eq, <- Epp. destruct (partition_point_take p (List.filter q l) Hs' Hp) as [_ ->].
  rewrite lfilter_filter. clear. induction l as [|x l IH]; simpl; [done|].
  rewrite andb_comm. destruct (negb (p x) && q x); by rewrite IH.
Qed.
End split.

(** ** Chunks of a sorted slice *)

Lemma concat_chunk_by {A} (same : A → A → bool) l : concat (chunk_by same l) = l.
Proof.
  induction l as [|x l IH]; simpl; [done|].
  destruct (chunk_by same l) as [|[|y c] cs] eqn:E; simpl in *; [by rewrite <- IH..|].
  destruct (same x y); simpl; by rewrite <- IH.
Qed.

Lemma chunk_by_map {A B} (h : A → B) (same : A → A → bool) (same' : B → B → bool) l :
  (∀ x y, x ∈ l → y ∈ l → same x y = same' (h x) (h y)) →
  chunk_by same' (map h l) = map (map h) (chunk_by same l).
Proof.
  induction l as [|x l IH]; intros Hs; simpl; [done|].
  rewrite IH by (intros; apply Hs; by right).
  pose proof (concat_chunk_by same l) as Hc.
  destruct (chunk_by same l) as [|[|y c] cs]; simpl in *; [done..|].
  rewrite <- Hs; [by destruct (same x y)|by left|]. right. rewrite <- Hc. by left.
Qed.

Section chunks.
Context {A K : Type} (kcmp : K → K → comparison) (key : A → K) `{!EqDecision K}.
Context `{!cmp_order kcmp, !cmp_exact kcmp}.

Definition with_key (k : K) (l : list A) : list A := List.filter (λ x, bool_decide (key x = k)) l.

Definition keys_ascend (l : list A) : Prop := StronglySorted (λ x y, kcmp (key x) (key y) ≠ Gt) l.

Lemma elem_of_with_key k l x : x ∈ with_key k l ↔ x ∈ l ∧ key x = k.
Proof. unfold with_key. by rewrite lfilter_elem, bool_decide_eq_true. Qed.

Lemma with_key_cons_ne k x l : key x ≠ k → with_key k (x :: l) = with_key k l.
Proof. intros H. unfold with_key. simpl. by rewrite bool_decide_false. Qed.

Lemma with_key_cons_eq x l : with_key (key x) (x :: l) = x :: with_key (key x) l.
Proof. unfold with_key. simpl. by rewrite bool_decide_true. Qed.

Lemma with_key_nil k l : k ∉ map key l → with_key k l = [].
Proof.
  intros Hk. destruct (with_key k l) as [|x t] eqn:E; [done|]. exfalso. apply Hk.
  assert (Hx : x ∈ with_key k l) by (rewrite E; left). apply elem_of_with_key in Hx as [Hx <-].
  apply list_elem_of_fmap. eauto.
Qed.

Lemma with_key_nonempty k l : k ∈ map key l → ∃ x t, with_key k l = x :: t ∧ key x = k.
Proof.
  intros (x & -> & Hx)%list_elem_of_fmap. destruct (with_key (key x) l) as [|z t] eqn:E.
  - exfalso. apply (elem_of_nil x). rewrite <- E. by apply elem_of_with_key.
  - exists z, t. split; [done|]. assert (Hz : z ∈ with_key (key x) l) by (rewrite E; left).
    by apply elem_of_with_key in Hz as [_ ?].
Qed.

(** One chunk for each key, in key order, of everything that has it. *)
Lemma chunk_by_keys l (same : A → A → bool) :
  (∀ x y, same x y = bool_decide (key x = key y)) → keys_ascend l →
  chunk_by same l = map (λ k, with_key k l) (bt_set kcmp (map key l)).
Proof.
  intros Hsame Hs.
  assert (∃ ks, increasing kcmp ks ∧ (∀ k, k ∈ ks ↔ k ∈ map key l) ∧
                chunk_by same l = map (λ k, with_key k l) ks) as (ks & Hks & Hin & ->).
  { induction Hs as [|x l _ IH Hx].
    { exists []. split_and!; [constructor|done|done]. }
    destruct IH as (ks & Hks & Hin & E). cbn [chunk_by]. rewrite E. rewrite List.Forall_forall in Hx.
    assert (Hle : ∀ k, k ∈ ks → kcmp (key x) k ≠ Gt).
    { intros k (y & -> & Hy)%Hin%list_elem_of_fmap. by apply Hx, list_elem_of_In. }
    destruct ks as [|k0 ks].
    { destruct l as [|y l]; [|exfalso; apply (elem_of_nil (key y)), Hin; by left].
      exists [key x]. split_and!; [repeat constructor|done|].
      unfold with_key. simpl. by rewrite bool_decide_true. }
    destruct (with_key_nonempty k0 l) as (z & t & Ez & <-); [apply Hin; by left|].
    cbn [map]. rewrite Ez, Hsame. case_bool_decide as Hk.
    - exists (key z :: ks). split_and!; [done| |].
      + intros k. rewrite Hin. cbn [map]. rewrite elem_of_cons, Hk.
        split; [by right|]. intros [->|?]; [|done]. apply Hin. by left.
      + cbn [map]. f_equal.
        * rewrite <- Hk, with_key_cons_eq, Hk. by rewrite Ez.
        * apply map_ext_in. intros k Hk'. rewrite with_key_cons_ne; [done|]. rewrite Hk. intros <-.
          inversion Hks as [|? ? _ Hf]; subst. rewrite List.Forall_forall in Hf.
          apply Hf in Hk'. by rewrite (cmp_order_refl kcmp) in Hk'.
    - exists (key x :: key z :: ks).
      assert (Hlt : kcmp (key x) (key z) = Lt).
      { specialize (Hle (key z)). destruct (kcmp (key x) (key z)) eqn:Ec; [|done|].
        - by apply cmp_eq in Ec.
        - exfalso. by apply Hle; [left|]. }
      assert (Hall : ∀ k, k ∈ key z :: ks → kcmp (key x) k = Lt).
      { intros k [->|Hk']%elem_of_cons; [done|]. inversion Hks as [|? ? _ Hf]; subst.
        rewrite List.Forall_forall in Hf. eapply (cmp_lt_trans kcmp); [done|].
        by apply Hf, list_elem_of_In. }
      assert (Hne : ∀ k, k ∈ key z :: ks → key x ≠ k).
      { intros k Hk' <-. apply Hall in Hk'. by rewrite (cmp_order_refl kcmp) in Hk'. }
      split_and!.
      + constructor; [done|]. rewrite List.Forall_forall. intros k Hk'. by apply Hall, list_elem_of_In.
      + intros k. rewrite elem_of_cons, Hin. cbn [map]. by rewrite elem_of_cons.
      + cbn [map]. f_equal; [|f_equal].
        * rewrite with_key_cons_eq, with_key_nil; [done|]. intros Hin'%Hin. by apply (Hne (key x)).
        * rewrite with_key_cons_ne; [by rewrite Ez|]. apply Hne. by left.
        * apply map_ext_in. intros k Hk'. rewrite with_key_cons_ne; [done|].
          apply Hne. right. by apply list_elem_of_In. }
  f_equal. apply (sorted_ext kcmp); [done|apply (bt_set_sorted kcmp)|]. intros k.
  by rewrite (elem_of_bt_set kcmp).
Qed.
End chunks.
