(* ===== verification/Framing.v ===== *)
(** * Prefix codes

    The digests of this program hash a concatenation of encoded fields. [prefix_code] says that an
    encoding can be read back from the front of any byte string, whatever follows it, so that a
    concatenation of such encodings determines its parts. *)

From Stdlib Require Import Ascii.
From S2P Require Import Prelude Text Bytes.

Definition prefix_code {A} (enc : A → list ascii) (P : A → Prop) : Prop :=
  ∀ a b x y, P a → P b → enc a ++ x = enc b ++ y → a = b ∧ x = y.

Lemma prefix_code_inj {A} (enc : A → list ascii) P a b :
  prefix_code enc P → P a → P b → enc a = enc b → a = b.
Proof. intros H Ha Hb E. apply (H a b [] []); [done..|]. by rewrite E. Qed.

Lemma prefix_code_map {A B} (f : A → B) (enc : B → list ascii) (P : B → Prop) (Q : A → Prop) :
  prefix_code enc P → (∀ a, Q a → P (f a)) → (∀ a b, Q a → Q b → f a = f b → a = b) →
  prefix_code (λ a, enc (f a)) Q.
Proof.
  intros He HQ Hf a b x y Ha Hb E. apply He in E as [E ->]; [|by apply HQ..]. by apply Hf in E.
Qed.

(** One field after another. *)
Lemma prefix_code_app {A B C} (f : C → A) (g : C → B) (ea : A → list ascii) (eb : B → list ascii)
    (PA : A → Prop) (PB : B → Prop) (P : C → Prop) :
  prefix_code ea PA → prefix_code eb PB → (∀ c, P c → PA (f c)) → (∀ c, P c → PB (g c)) →
  (∀ c d, f c = f d → g c = g d → c = d) →
  prefix_code (λ c, ea (f c) ++ eb (g c)) P.
Proof.
  intros Ha Hb HA HB Hinj c d x y Hc Hd E. rewrite <- !app_assoc in E.
  apply Ha in E as [E1 E]; [|by apply HA..]. apply Hb in E as [E2 ->]; [|by apply HB..].
  split; [by apply Hinj|done].
Qed.

(** Two sequences of one length. *)
Lemma prefix_code_concat {A} (enc : A → list ascii) P : prefix_code enc P →
  ∀ l l' x y, length l = length l' → Forall P l → Forall P l' →
  concat (map enc l) ++ x = concat (map enc l') ++ y → l = l' ∧ x = y.
Proof.
  intros He l. induction l as [|a l IH]; intros [|b l'] x y Hlen Hl Hl' E; try done.
  cbn [map concat] in E. rewrite <- !app_assoc in E.
  apply Forall_cons_iff in Hl as [Ha Hl]. apply Forall_cons_iff in Hl' as [Hb Hl'].
  apply He in E as [-> E]; [|done..]. simpl in Hlen. apply IH in E as [-> ->]; [done|lia|done..].
Qed.

(** Sequences of any length, when no element is empty. *)
Lemma prefix_code_lists {A} (enc : A → list ascii) P : prefix_code enc P → (∀ a, enc a ≠ []) →
  ∀ l l', Forall P l → Forall P l' → concat (map enc l) = concat (map enc l') → l = l'.
Proof.
  intros He Hne l. induction l as [|a l IH]; intros [|b l'] Hl Hl' E; simpl in E; [done|..].
  - symmetry in E. apply app_eq_nil in E as [E _]. by apply Hne in E.
  - apply app_eq_nil in E as [E _]. by apply Hne in E.
  - apply Forall_cons_iff in Hl as [Ha Hl]. apply Forall_cons_iff in Hl' as [Hb Hl'].
    apply He in E as [-> E]; [|done..]. f_equal. by apply IH.
Qed.

(** A big-endian integer of a fixed width. *)
Lemma prefix_code_be n : prefix_code (be_bytes n) (λ z, (0 ≤ z < 256 ^ Z.of_nat n)%Z).
Proof.
  intros a b x y Ha Hb E. apply app_inj_1 in E as [E ->]; [|by rewrite !length_be_bytes].
  by apply be_bytes_inj in E.
Qed.

(** A count and then that many elements. *)
Definition counted {A} (enc : A → list ascii) (l : list A) : list ascii :=
  be_bytes 8 (Z.of_nat (length l)) ++ concat (map enc l).

Lemma prefix_code_counted {A} (enc : A → list ascii) P :
  prefix_code enc P →
  prefix_code (counted enc) (λ l, (Z.of_nat (length l) ≤ u64_max)%Z ∧ Forall P l).
Proof.
  intros He l l' x y [Hn Hl] [Hn' Hl'] E. unfold counted in E. rewrite <- !app_assoc in E.
  unfold u64_max in *. apply prefix_code_be in E as [E0 E]; [|simpl; lia..].
  eapply prefix_code_concat in E as [-> ->]; eauto. lia.
Qed.
