(* ===== verification/Canonical.v ===== *)
(** * The canonical claim order

    Models [crates/smallclaims/src/store/canonical.rs]: the key that totally orders the claims
    every shared projection folds, its byte encoding for SQLite BLOB columns, and the row the SQL
    [ORDER BY] clause compares. The encoding is proved to preserve the order exactly, and the SQL
    row order to be the key order. *)

From Stdlib Require Import Ascii.
From S2P Require Import Prelude StableSort Text Bytes.

(** [ClaimKey]: the tuple (accepted_at_unix_ms, writer, sequence, batch_id, position, id). *)
Record ClaimKey := mkClaimKey {
  ck_time : Z;
  ck_writer : string;
  ck_sequence : Z;
  ck_batch : string;
  ck_position : Z;
  ck_id : string
}.

(** The widths of the tuple's integers: u128, u64, u64. *)
Definition ClaimKey_wf (k : ClaimKey) : Prop :=
  (0 ≤ ck_time k < 256 ^ Z.of_nat 16)%Z ∧
  (0 ≤ ck_sequence k < 256 ^ Z.of_nat 8)%Z ∧
  (0 ≤ ck_position k < 256 ^ Z.of_nat 8)%Z.

(** The derived [Ord] of the tuple. *)
Definition key_compare (a b : ClaimKey) : comparison :=
  then_with (ck_time a ?= ck_time b)%Z
    (then_with (String.compare (ck_writer a) (ck_writer b))
      (then_with (ck_sequence a ?= ck_sequence b)%Z
        (then_with (String.compare (ck_batch a) (ck_batch b))
          (then_with (ck_position a ?= ck_position b)%Z
            (String.compare (ck_id a) (ck_id b)))))).

(** ** [sortable_key] *)

Definition zero_byte : ascii := "000"%char.

(** The inner function [string]: a zero byte is followed by 255, and two zero bytes end it. *)
Fixpoint escape_string (value : string) : list ascii :=
  match value with
  | EmptyString => [zero_byte; zero_byte]
  | String byte rest =>
      if decide (byte = zero_byte) then byte :: "255"%char :: escape_string rest
      else byte :: escape_string rest
  end.

Definition sortable_key (k : ClaimKey) : list ascii :=
  be_bytes 16 (ck_time k)
  ++ escape_string (ck_writer k)
  ++ be_bytes 8 (ck_sequence k)
  ++ escape_string (ck_batch k)
  ++ be_bytes 8 (ck_position k)
  ++ escape_string (ck_id k).

Lemma str_compare_cons a b s t :
  String.compare (String a s) (String b t) = then_with (byte_val a ?= byte_val b)%Z (String.compare s t).
Proof. simpl. unfold Ascii.compare, byte_val. rewrite N2Z.inj_compare. by destruct (_ ?= _)%N. Qed.

Lemma nonzero_byte_pos a : a ≠ zero_byte → (byte_val zero_byte < byte_val a)%Z.
Proof.
  change (byte_val zero_byte) with 0%Z.
  intros Ha. pose proof (byte_val_range a). destruct (decide (byte_val a = 0)%Z) as [E|]; [|lia].
  exfalso. apply Ha, byte_val_inj. by rewrite E.
Qed.

(** Escaped strings compare as the strings do, whatever follows them. *)
Lemma escape_string_order_exact : order_exact String.compare escape_string (λ _, True).
Proof.
  intros x; induction x as [|a x IH]; intros [|b y] s t _ _.
  - done.
  - cbn [escape_string]. case_decide as Hb; cbn [app bytes_compare].
    + subst. done.
    + pose proof (nonzero_byte_pos b Hb). by rewrite (proj2 (Z.compare_lt_iff _ _)).
  - cbn [escape_string]. case_decide as Ha; cbn [app bytes_compare].
    + subst. done.
    + pose proof (nonzero_byte_pos a Ha). by rewrite (proj2 (Z.compare_gt_iff _ _)).
  - rewrite str_compare_cons, then_with_assoc. cbn [escape_string].
    destruct (decide (a = zero_byte)) as [->|Ha], (decide (b = zero_byte)) as [->|Hb];
      cbn [app bytes_compare]; rewrite ?Z.compare_refl; cbn [then_with].
    + by apply IH.
    + pose proof (nonzero_byte_pos b Hb). by rewrite (proj2 (Z.compare_lt_iff _ _)).
    + pose proof (nonzero_byte_pos a Ha). by rewrite (proj2 (Z.compare_gt_iff _ _)).
    + destruct (byte_val a ?= byte_val b)%Z; cbn [then_with]; [|done..]. by apply IH.
Qed.

(** C37. Ordering claims by their BLOB key orders them by their key: SQLite's byte-wise comparison
    of [sortable_key a] and [sortable_key b] is the tuple comparison of [a] and [b], for every key
    whose integers have their widths. In particular the encoding is injective. *)
Theorem sortable_key_preserves_order (a b : ClaimKey) :
  ClaimKey_wf a → ClaimKey_wf b →
  bytes_compare (sortable_key a) (sortable_key b) = key_compare a b.
Proof.
  intros (Ha1 & Ha2 & Ha3) (Hb1 & Hb2 & Hb3). unfold sortable_key, key_compare.
  rewrite (be_bytes_order_exact 16) by done.
  rewrite escape_string_order_exact, (be_bytes_order_exact 8) by done.
  rewrite escape_string_order_exact, (be_bytes_order_exact 8) by done.
  rewrite <- (app_nil_r (escape_string (ck_id a))), <- (app_nil_r (escape_string (ck_id b))).
  rewrite escape_string_order_exact by done. simpl.
  by destruct (String.compare (ck_id a) (ck_id b)).
Qed.

Definition key_early : ClaimKey := mkClaimKey 9 "host/a" 2 "batch/1" 0 "c1".
Definition key_late : ClaimKey := mkClaimKey 10 "host/a" 1 "batch/0" 0 "c0".

Lemma sortable_key_witness :
  key_compare key_early key_late = Lt ∧
  bytes_compare (sortable_key key_early) (sortable_key key_late) = Lt.
Proof.
  split; [reflexivity|].
  rewrite (sortable_key_preserves_order key_early key_late); [reflexivity| |];
    unfold ClaimKey_wf; simpl; lia.
Defined.

(** ** The SQL order

    [components] lists the expressions the [ORDER BY] clause compares, for one claim row. The row
    here is what those expressions read: the claim's columns, its batch's columns, the positions
    its replica records carry, and the arrival indexes of its batch's claims. *)

Record ClaimRow := mkClaimRow {
  row_id : string;
  row_batch : string;
  row_store_index : Z;
  row_accepted_at : Z;
  row_origin : string;
  row_sequence : Z;
  (** [position] of the replica records of this claim *)
  row_record_positions : list Z;
  (** [store_index] of every claim of the same batch *)
  row_batch_indexes : list Z
}.

Definition list_min (l : list Z) : option Z :=
  match l with
  | [] => None
  | x :: l' => Some (fold_left Z.min l' x)
  end.

(** The sixth component: [COALESCE(MIN(position), COUNT of earlier claims in the batch)]. *)
Definition row_position (r : ClaimRow) : Z :=
  match list_min (row_record_positions r) with
  | Some p => p
  | None => Z.of_nat (length (List.filter (λ i, (i <? row_store_index r)%Z) (row_batch_indexes r)))
  end.

(** The seven components in their order; times are decimal text columns. *)
Definition components_compare (a b : ClaimRow) : comparison :=
  then_with (Nat.compare (String.length (u_to_string (row_accepted_at a)))
                         (String.length (u_to_string (row_accepted_at b))))
    (then_with (String.compare (u_to_string (row_accepted_at a)) (u_to_string (row_accepted_at b)))
      (then_with (String.compare (row_origin a) (row_origin b))
        (then_with (row_sequence a ?= row_sequence b)%Z
          (then_with (String.compare (row_batch a) (row_batch b))
            (then_with (row_position a ?= row_position b)%Z
              (String.compare (row_id a) (row_id b))))))).

(** [claim_key]: the key of a stored row. *)
Definition claim_key (r : ClaimRow) : ClaimKey :=
  mkClaimKey (row_accepted_at r) (row_origin r) (row_sequence r) (row_batch r) (row_position r) (row_id r).

Lemma str_compare_app_len (p q s t : string) :
  String.length p = String.length q →
  String.compare (p +:+ s) (q +:+ t) = then_with (String.compare p q) (String.compare s t).
Proof.
  revert q; induction p as [|a p IH]; intros [|b q] Hlen; try done.
  change (String a p +:+ s) with (String a (p +:+ s)). change (String b q +:+ t) with (String b (q +:+ t)).
  rewrite !str_compare_cons, IH by (simpl in Hlen; lia). by rewrite then_with_assoc.
Qed.

Lemma digit_compare x y : (x < 10)%N → (y < 10)%N →
  String.compare (String (pretty_N_char x) "") (String (pretty_N_char y) "") = (x ?= y)%N.
Proof.
  intros Hx Hy. rewrite str_compare_cons. cbn [String.compare].
  assert (Hd : ∀ z, (z < 10)%N → byte_val (pretty_N_char z) = (48 + Z.of_N z)%Z).
  { intros z Hz.
    assert (z = 0 ∨ z = 1 ∨ z = 2 ∨ z = 3 ∨ z = 4 ∨ z = 5 ∨ z = 6 ∨ z = 7 ∨ z = 8 ∨ z = 9)%N
      as H by lia. by destruct_or! H; subst. }
  rewrite !Hd by done.
  destruct (N.compare_spec x y) as [->|Hlt|Hgt].
  - by rewrite Z.compare_refl.
  - by rewrite (proj2 (Z.compare_lt_iff _ _)) by lia.
  - by rewrite (proj2 (Z.compare_gt_iff _ _)) by lia.
Qed.

Definition shortlex (a b : string) : comparison :=
  then_with (Nat.compare (String.length a) (String.length b)) (String.compare a b).

Lemma shortlex_snoc (p q s t : string) :
  String.length s = String.length t →
  shortlex (p +:+ s) (q +:+ t) = then_with (shortlex p q) (String.compare s t).
Proof.
  intros Hst. unfold shortlex. rewrite !str_length_app, Hst.
  destruct (Nat.compare_spec (String.length p) (String.length q)) as [E|E|E]; simpl.
  - rewrite E, Nat.compare_refl. simpl. by apply str_compare_app_len.
  - by rewrite (proj2 (Nat.compare_lt_iff _ _)) by lia.
  - by rewrite (proj2 (Nat.compare_gt_iff _ _)) by lia.
Qed.

Lemma N_compare_div_mod x y :
  ((x ?= y) = then_with (x `div` 10 ?= y `div` 10) (x `mod` 10 ?= y `mod` 10))%N.
Proof.
  rewrite <- !N2Z.inj_compare, !N2Z.inj_div, !N2Z.inj_mod. by apply Z_compare_div_mod.
Qed.

Lemma shortlex_digits x : ∀ y, shortlex (digits x) (digits y) = (x ?= y)%N.
Proof.
  induction (N.lt_wf_0 x) as [x _ IH]; intros y.
  destruct (decide (x = 0)%N) as [->|Hx], (decide (y = 0)%N) as [->|Hy].
  - done.
  - rewrite (digits_step y) by lia. unfold shortlex. rewrite str_length_app, Nat.add_comm.
    symmetry. apply (N.compare_lt_iff 0 y). lia.
  - rewrite (digits_step x) by lia. unfold shortlex. rewrite str_length_app, Nat.add_comm.
    symmetry. apply (N.compare_gt_iff x 0). lia.
  - rewrite (digits_step x), (digits_step y), shortlex_snoc, IH by (try done; try apply N.div_lt; lia).
    rewrite digit_compare by (apply N.mod_lt; lia). symmetry. apply N_compare_div_mod.
Qed.

(** Comparing decimal text by length and then byte by byte compares the numbers. *)
Lemma shortlex_decimal a b : (0 ≤ a)%Z → (0 ≤ b)%Z →
  shortlex (u_to_string a) (u_to_string b) = (a ?= b)%Z.
Proof.
  intros Ha Hb. unfold u_to_string.
  replace (a ?= b)%Z with (Z.to_N a ?= Z.to_N b)%N by (rewrite <- N2Z.inj_compare; f_equal; lia).
  generalize (Z.to_N a) (Z.to_N b). clear. intros x y. unfold pretty, pretty_N.
  destruct (decide (x = 0)%N) as [->|Hx], (decide (y = 0)%N) as [->|Hy].
  - done.
  - change "0" with ("" +:+ String (pretty_N_char 0) "").
    fold (digits y). rewrite (digits_step y), shortlex_snoc, digit_compare by (try done; try apply N.mod_lt; lia).
    change "" with (digits 0). rewrite shortlex_digits, (N_compare_div_mod 0 y). done.
  - change "0" with ("" +:+ String (pretty_N_char 0) "").
    fold (digits x). rewrite (digits_step x), shortlex_snoc, digit_compare by (try done; try apply N.mod_lt; lia).
    change "" with (digits 0). rewrite shortlex_digits, (N_compare_div_mod x 0). done.
  - apply shortlex_digits.
Qed.

(** The SQL [ORDER BY] over [components] is the canonical key order: two rows with
    non-negative times compare as their [claim_key]s do, so the database, the BLOB index and the
    in-memory key agree on one order. *)
Theorem sql_order_is_key_order (a b : ClaimRow) :
  (0 ≤ row_accepted_at a)%Z → (0 ≤ row_accepted_at b)%Z →
  components_compare a b = key_compare (claim_key a) (claim_key b).
Proof.
  intros Ha Hb. unfold components_compare, key_compare. simpl.
  rewrite <- (shortlex_decimal (row_accepted_at a) (row_accepted_at b)) by done. unfold shortlex. by rewrite then_with_assoc.
Qed.

Definition row_nine : ClaimRow := mkClaimRow "c1" "batch/1" 7 999 "host/a" 2 [] [6; 7]%Z.
Definition row_ten : ClaimRow := mkClaimRow "c0" "batch/0" 3 1000 "host/a" 1 [4; 2]%Z [3]%Z.

Lemma sql_order_witness :
  String.compare (u_to_string 999) (u_to_string 1000) = Gt ∧
  row_position row_nine = 1%Z ∧ row_position row_ten = 2%Z ∧
  components_compare row_nine row_ten = Lt.
Proof.
  split_and!; [reflexivity..|].
  rewrite (sql_order_is_key_order row_nine row_ten); [reflexivity|simpl; lia..].
Defined.
