(* ===== verification/Claim.v ===== *)
(** * Claims, batches and envelopes

    The records of [crates/smallclaims/src/claim.rs]: a claim as it is written ([ClaimInput]) and
    as it is stored ([ClaimRecord]), the batch that carries claims, and the envelope that
    replicates a batch. Field names keep the source's, with a prefix per record. *)

From S2P Require Import Prelude Json.

Section claims.
Context `{NumberApi}.

Record ClaimInput := mkClaimInput {
  ci_subject : string;
  ci_kind : string;
  ci_actor : option string;
  ci_fields : list (string * Value);
  ci_evidence : list string;
  ci_expected_subject : option (option string);
  ci_idempotency_key : option string
}.

Record ClaimRecord := mkClaimRecord {
  cr_id : string;
  cr_store_index : Z;
  cr_batch_id : string;
  cr_subject : string;
  cr_kind : string;
  cr_origin : string;
  cr_actor : option string;
  cr_operation_id : option string;
  cr_request_digest : option string;
  cr_body : Value;
  cr_predecessors : list string;
  cr_accepted_at_unix_ms : Z
}.

Record ReplicaBatch := mkReplicaBatch {
  rb_id : string;
  rb_origin : string;
  rb_replica_sequence : Z;
  rb_previous_hash : option string;
  rb_hash : string;
  rb_accepted_at_unix_ms : Z;
  rb_claims : list ClaimRecord
}.

(** [Error]: a stable code, a message and details. *)
Record Error := mkErrorRecord {
  err_code : string;
  err_message : string;
  err_details : list (string * Value)
}.

(** [Error::new]. *)
Definition mkError (code message : string) : Error := mkErrorRecord code message [].

(** [Error::with_detail]: inserting into an ordered map keeps the place of a key it holds. *)
Definition with_detail (name : string) (value : Value) (e : Error) : Error :=
  mkErrorRecord (err_code e) (err_message e)
    (if existsb (λ d, str_eqb d.1 name) (err_details e)
     then map (λ d, if str_eqb d.1 name then (name, value) else d) (err_details e)
     else err_details e ++ [(name, value)]).
End claims.

Record ReplicaEnvelopeId := mkReplicaEnvelopeId {
  eid_writer : string;
  eid_sequence : Z;
  eid_hash : string
}.

Record ReplicaEnvelope := mkReplicaEnvelope {
  env_writer : string;
  env_sequence : Z;
  env_previous_hash : option string;
  env_hash : string;
  env_accepted_at_unix_ms : Z;
  env_payload : string;
  env_member_key : option string;
  env_signature : option string
}.
