(* ===== verification/Hash.v ===== *)
(** * Content hashes

    Models [crates/smallclaims/src/hash.rs]. SHA-256, hexadecimal and CBOR come from other crates
    and are parameters: [sha256], [hex], and [canonical_hash] on the data the code serializes
    ([Item]). What is proved holds for every choice of them: a claim's hash does not depend on the
    insertion order of its body's fields, and an envelope's hash binds its header and payload up
    to a hash collision. *)

From Stdlib Require Import Ascii.
From S2P Require Import Prelude StableSort Text Json Bytes Claim.

Section hash.
Context `{NumberApi}.

(** The serializable tuples passed to [canonical_hash]. *)
Inductive Item :=
| IText (s : string)
| IUint (z : Z)
| IOption (o : option string)
| ITexts (l : list string)
| IJson (v : Value)
| ITuple (l : list Item).

Context (canonical_hash : Item → string).
Context (sha256 : list ascii → list ascii) (hex : list ascii → string).

Definition batch_header_hash (origin : string) (sequence : Z) (previous_hash : option string)
    (accepted_at_unix_ms : Z) : string :=
  canonical_hash (ITuple [IText "st3.replica-batch.v1"; IText origin; IUint sequence;
                          IOption previous_hash; IText (u_to_string accepted_at_unix_ms)]).

Definition claim_item (batch_id subject kind origin : string) (actor : option string)
    (body : Value) (predecessors : list string) : Item :=
  ITuple [IText batch_id; IText subject; IText kind; IText origin; IOption actor; IJson body;
          ITexts predecessors].

Definition claim_hash (batch_id subject kind origin : string) (actor : option string)
    (body : Value) (predecessors : list string) : string :=
  canonical_hash (claim_item batch_id subject kind origin actor (canonical_json_value body)
                    predecessors).

Definition claim_id_is_content_hash (c : ClaimRecord) : bool :=
  let canonical := claim_hash (cr_batch_id c) (cr_subject c) (cr_kind c) (cr_origin c)
                     (cr_actor c) (cr_body c) (cr_predecessors c) in
  if str_eqb canonical (cr_id c) then true
  else
    let insertion_order :=
      canonical_hash (claim_item (cr_batch_id c) (cr_subject c) (cr_kind c) (cr_origin c)
                        (cr_actor c) (cr_body c) (cr_predecessors c)) in
    str_eqb insertion_order (cr_id c).

(** One length-prefixed field of an envelope hash. *)
Definition frame (field : string) : list ascii :=
  be_bytes 8 (Z.of_nat (String.length field)) ++ bytes_of field.

Definition envelope_domain : list ascii := bytes_of "st3-replica-envelope-v1" ++ ["000"%char].

Definition envelope_preimage (writer : string) (sequence : Z) (previous_hash : option string)
    (accepted_at_unix_ms : Z) (payload_digest : string) : list ascii :=
  envelope_domain
  ++ concat (map frame [writer; u_to_string sequence; default "" previous_hash;
                        u_to_string accepted_at_unix_ms; payload_digest]).

Definition replica_envelope_hash (writer : string) (sequence : Z) (previous_hash : option string)
    (accepted_at_unix_ms : Z) (payload : list ascii) : string :=
  hex (sha256 (envelope_preimage writer sequence previous_hash accepted_at_unix_ms
                 (hex (sha256 payload)))).

Definition nul : string := String "000"%char "".

Definition replica_record_ref (writer : string) (sequence : Z) (envelope_hash : string)
    (position : Z) : string :=
  "record/" +:+ hex (sha256 (bytes_of
    ("st3-replica-record-v1" +:+ nul +:+ writer +:+ nul +:+ u_to_string sequence +:+ nul
     +:+ envelope_hash +:+ nul +:+ u_to_string position))).

Definition verify_replica_batch_header (batch : ReplicaBatch) : result Error unit :=
  let expected_batch := batch_header_hash (rb_origin batch) (rb_replica_sequence batch)
                          (rb_previous_hash batch) (rb_accepted_at_unix_ms batch) in
  if negb (str_eqb expected_batch (rb_hash batch))
     || negb (str_eqb (rb_id batch)
                ("batch/" +:+ rb_origin batch +:+ "/" +:+ u_to_string (rb_replica_sequence batch)
                 +:+ "/" +:+ rb_hash batch))
  then Err (mkError "batch-hash-mismatch"
              ("replicated batch `" +:+ rb_id batch +:+ "` failed verification"))
  else Ok tt.

(** A claim's content hash does not depend on the order its body's JSON fields were inserted
    in: two bodies that differ only in field order, at any depth, give one hash. *)
Theorem claim_hash_ignores_field_order batch_id subject kind origin actor body body' preds :
  unique_keys body → same_json body body' →
  claim_hash batch_id subject kind origin actor body preds =
  claim_hash batch_id subject kind origin actor body' preds.
Proof. intros Hu Hs. unfold claim_hash. by rewrite (canonical_same body body' Hu Hs). Qed.

(** A claim hashed in either order, canonical or as inserted, is accepted as genuine; any other
    ID is refused. *)
Lemma claim_id_is_content_hash_spec c :
  claim_id_is_content_hash c = true ↔
  cr_id c = canonical_hash (claim_item (cr_batch_id c) (cr_subject c) (cr_kind c) (cr_origin c)
              (cr_actor c) (canonical_json_value (cr_body c)) (cr_predecessors c)) ∨
  cr_id c = canonical_hash (claim_item (cr_batch_id c) (cr_subject c) (cr_kind c) (cr_origin c)
              (cr_actor c) (cr_body c) (cr_predecessors c)).
Proof.
  unfold claim_id_is_content_hash, claim_hash.
  destruct (str_eqb _ (cr_id c)) eqn:E; str_cases; [naive_solver|].
  rewrite str_eqb_true. naive_solver.
Qed.

Lemma frame_inj x y s t :
  (Z.of_nat (String.length x) ≤ u64_max)%Z → (Z.of_nat (String.length y) ≤ u64_max)%Z →
  frame x ++ s = frame y ++ t → x = y ∧ s = t.
Proof.
  unfold frame, u64_max. intros Hx Hy E. rewrite <- !app_assoc in E.
  apply app_inj_1 in E as [Hl E]; [|by rewrite !length_be_bytes].
  apply be_bytes_inj in Hl; [|simpl; lia..].
  apply app_inj_1 in E as [E ->]; [|rewrite !length_bytes_of; lia].
  by apply bytes_of_inj in E as ->.
Qed.

Lemma envelope_preimage_inj w s p t d w' s' p' t' d' :
  (Z.of_nat (String.length w) ≤ u64_max)%Z → (Z.of_nat (String.length w') ≤ u64_max)%Z →
  (Z.of_nat (String.length (default "" p)) ≤ u64_max)%Z →
  (Z.of_nat (String.length (default "" p')) ≤ u64_max)%Z →
  (Z.of_nat (String.length d) ≤ u64_max)%Z → (Z.of_nat (String.length d') ≤ u64_max)%Z →
  is_u64 s → is_u64 s' → is_u128 t → is_u128 t' →
  envelope_preimage w s p t d = envelope_preimage w' s' p' t' d' →
  w = w' ∧ s = s' ∧ default "" p = default "" p' ∧ t = t' ∧ d = d'.
Proof.
  unfold is_u64, is_u128. intros Hw Hw' Hp Hp' Hd Hd' Hs Hs' Ht Ht' E.
  assert (Hn : ∀ z, (0 ≤ z ≤ u128_max)%Z →
                    (Z.of_nat (String.length (u_to_string z)) ≤ u64_max)%Z).
  { intros z Hz%length_u_to_string. unfold u64_max. lia. }
  assert (u64_max ≤ u128_max)%Z by (unfold u64_max, u128_max; lia).
  unfold envelope_preimage in E. apply app_inv_head in E. cbn [map concat] in E.
  apply frame_inj in E as [-> E]; [|done..].
  apply frame_inj in E as [Es E]; [|apply Hn; lia..].
  apply frame_inj in E as [Ep E]; [|done..].
  apply frame_inj in E as [Et E]; [|by apply Hn..].
  apply frame_inj in E as [-> _]; [|done..].
  apply u_to_string_inj in Es; [|lia..]. apply u_to_string_inj in Et; [|lia..]. done.
Qed.

(** An envelope hash binds what it covers: two envelopes with one hash have the same writer,
    sequence, accept time and payload, and the same previous hash (an absent one hashes as the
    empty text), unless the two payloads, or the two texts that are hashed, are different inputs with
    one SHA-256 digest. *)
Theorem envelope_hash_binds w s p t d w' s' p' t' d' :
  (Z.of_nat (String.length w) ≤ u64_max)%Z → (Z.of_nat (String.length w') ≤ u64_max)%Z →
  (Z.of_nat (String.length (default "" p)) ≤ u64_max)%Z →
  (Z.of_nat (String.length (default "" p')) ≤ u64_max)%Z →
  (∀ x, Z.of_nat (String.length (hex (sha256 x))) ≤ u64_max)%Z →
  is_u64 s → is_u64 s' → is_u128 t → is_u128 t' →
  replica_envelope_hash w s p t d = replica_envelope_hash w' s' p' t' d' →
  (w = w' ∧ s = s' ∧ default "" p = default "" p' ∧ t = t' ∧ d = d') ∨
  collide (λ x, hex (sha256 x)) d d' ∨
  collide (λ x, hex (sha256 x)) (envelope_preimage w s p t (hex (sha256 d)))
    (envelope_preimage w' s' p' t' (hex (sha256 d'))).
Proof.
  intros Hw Hw' Hp Hp' Hh Hs Hs' Ht Ht' E. unfold replica_envelope_hash in E.
  set (pre := envelope_preimage w s p t (hex (sha256 d))) in *.
  set (pre' := envelope_preimage w' s' p' t' (hex (sha256 d'))) in *.
  destruct (decide (pre = pre')) as [Epre|Hne]; [|right; right; by split].
  destruct (decide (d = d')) as [->|Hd]; [left|].
  - apply envelope_preimage_inj in Epre; naive_solver.
  - right; left. split; [done|]. apply envelope_preimage_inj in Epre; naive_solver.
Qed.
End hash.

(** ** Examples *)

(** A stand-in for the CBOR digest that shows a body's first key. *)
Definition first_key_hash (i : Item (H := integer_numbers)) : string :=
  match i with
  | ITuple (_ :: _ :: _ :: _ :: _ :: IJson (Object ((k, _) :: _)) :: _) => k
  | _ => ""
  end.

Definition body_ab : Value (H := integer_numbers) :=
  Object [("a", Str "x"); ("b", Object [("d", Bool true); ("c", Null)])].
Definition body_ba : Value (H := integer_numbers) :=
  Object [("b", Object [("c", Null); ("d", Bool true)]); ("a", Str "x")].

Lemma claim_hash_witness :
  first_key_hash (claim_item "b" "s" "k" "o" None body_ab []) ≠
  first_key_hash (claim_item "b" "s" "k" "o" None body_ba []) ∧
  claim_hash first_key_hash "b" "s" "k" "o" None body_ab [] =
  claim_hash first_key_hash "b" "s" "k" "o" None body_ba [].
Proof.
  split; [done|].
  apply (claim_hash_ignores_field_order first_key_hash "b" "s" "k" "o" None body_ab body_ba []).
  - simpl. repeat split; repeat constructor; simpl;
      repeat first [apply not_elem_of_nil | rewrite not_elem_of_cons; split; [done|]].
  - apply same_object with (gs := [("b", Object [("d", Bool true); ("c", Null)]); ("a", Str "x")]).
    + constructor.
    + repeat constructor. simpl.
      apply same_object with (gs := [("c", Null); ("d", Bool true)]); [constructor|].
      repeat constructor.
Defined.

Lemma envelope_hash_witness :
  let sha (x : list ascii) := be_bytes 4 (Z.of_nat (length x)) in
  replica_envelope_hash sha str_of "host/a" 1 None 5 (bytes_of "p") =
    replica_envelope_hash sha str_of "host/a" 1 (Some "") 5 (bytes_of "p") ∧
  ((("host/a" = "host/a") ∧ 1%Z = 1%Z ∧ default "" (@None string) = default "" (Some "") ∧ 5%Z = 5%Z ∧
     bytes_of "p" = bytes_of "p") ∨
   collide (λ x, str_of (sha x)) (bytes_of "p") (bytes_of "p") ∨
   collide (λ x, str_of (sha x)) (envelope_preimage "host/a" 1 None 5 (str_of (sha (bytes_of "p"))))
     (envelope_preimage "host/a" 1 (Some "") 5 (str_of (sha (bytes_of "p"))))).
Proof.
  intros sha. split; [reflexivity|].
  apply (envelope_hash_binds sha str_of "host/a" 1 None 5 (bytes_of "p")
           "host/a" 1 (Some "") 5 (bytes_of "p")); try (by vm_compute); try reflexivity.
Defined.
