(* ===== verification/Checkpoint.v ===== *)
(** * Checkpoints: tombstones, digests and manifests

    Models the data of [crates/smallclaims/src/store/checkpoint.rs] and
    [store/checkpoint/tombstones.rs]: what a checkpoint seals and drops, the digests that name a
    sealed set and a drop, and the manifest a node that did not take part adopts, with its check
    and its pages. The two tombstone tables are lists of rows. SHA-256 and hexadecimal come from
    other crates and are parameters. *)

From Stdlib Require Import Ascii.
From S2P Require Import Prelude StableSort Text Json Bytes Order BTree Framing Claim Hash.

Definition DAY_MS : Z := 86400000.

(** [now / DAY_MS] is a u128 division, and [saturating_sub] stops at zero. *)
Definition newest_due_cut (now_unix_ms : Z) : Z := sat_sub (now_unix_ms / DAY_MS) 2 * DAY_MS.

(** ** Identities and tombstones *)

Record EnvelopeKey := mkEnvelopeKey {
  ek_writer : string;
  ek_sequence : Z;
  ek_envelope_hash : string
}.
#[export] Instance EnvelopeKey_eq_dec : EqDecision EnvelopeKey.
Proof. solve_decision. Defined.

Record EnvelopeTombstone := mkEnvelopeTombstone {
  et_writer : string;
  et_sequence : Z;
  et_envelope_hash : string;
  et_accepted_at_unix_ms : Z
}.
#[export] Instance EnvelopeTombstone_eq_dec : EqDecision EnvelopeTombstone.
Proof. solve_decision. Defined.

Record ClaimTombstone := mkClaimTombstone {
  tb_id : string;
  tb_writer : string;
  tb_sequence : Z;
  tb_envelope_hash : string;
  tb_subject : string;
  tb_kind : string;
  tb_actor : option string;
  tb_predecessors : list string;
  tb_operation_id : option string;
  tb_request_digest : option string;
  tb_accepted_at_unix_ms : Z
}.
#[export] Instance ClaimTombstone_eq_dec : EqDecision ClaimTombstone.
Proof. solve_decision. Defined.

Definition et_key (t : EnvelopeTombstone) : EnvelopeKey :=
  mkEnvelopeKey (et_writer t) (et_sequence t) (et_envelope_hash t).
Definition tb_key (t : ClaimTombstone) : EnvelopeKey :=
  mkEnvelopeKey (tb_writer t) (tb_sequence t) (tb_envelope_hash t).

(** The derived orders, field by field. *)
Definition EnvelopeKey_compare (a b : EnvelopeKey) : comparison :=
  then_with (String.compare (ek_writer a) (ek_writer b))
  (then_with (Z.compare (ek_sequence a) (ek_sequence b))
             (String.compare (ek_envelope_hash a) (ek_envelope_hash b))).

Definition EnvelopeTombstone_compare (a b : EnvelopeTombstone) : comparison :=
  then_with (String.compare (et_writer a) (et_writer b))
  (then_with (Z.compare (et_sequence a) (et_sequence b))
  (then_with (String.compare (et_envelope_hash a) (et_envelope_hash b))
             (Z.compare (et_accepted_at_unix_ms a) (et_accepted_at_unix_ms b)))).

Definition ClaimTombstone_compare (a b : ClaimTombstone) : comparison :=
  then_with (String.compare (tb_id a) (tb_id b))
  (then_with (String.compare (tb_writer a) (tb_writer b))
  (then_with (Z.compare (tb_sequence a) (tb_sequence b))
  (then_with (String.compare (tb_envelope_hash a) (tb_envelope_hash b))
  (then_with (String.compare (tb_subject a) (tb_subject b))
  (then_with (String.compare (tb_kind a) (tb_kind b))
  (then_with (option_compare String.compare (tb_actor a) (tb_actor b))
  (then_with (list_compare String.compare (tb_predecessors a) (tb_predecessors b))
  (then_with (option_compare String.compare (tb_operation_id a) (tb_operation_id b))
  (then_with (option_compare String.compare (tb_request_digest a) (tb_request_digest b))
             (Z.compare (tb_accepted_at_unix_ms a) (tb_accepted_at_unix_ms b))))))))))).

(** ** The sealed set and its drop *)

Section sealed.
Context `{NumberApi}.

Record SealedClaim := mkSealedClaim {
  sl_claim : ClaimRecord;
  sl_envelope : EnvelopeKey;
  sl_valid : bool;
  sl_protected : bool
}.

Record SealedEnvelope := mkSealedEnvelope {
  se_key : EnvelopeKey;
  se_accepted_at_unix_ms : Z;
  se_records : nat
}.

Record SealedSet := mkSealedSet {
  ss_cut_unix_ms : Z;
  ss_envelopes : list SealedEnvelope;
  ss_claims : list SealedClaim;
  ss_seal_rowid : Z;
  ss_envelope_tombstones : list EnvelopeTombstone;
  ss_claim_tombstones : list ClaimTombstone
}.

Record SealedIdentities := mkSealedIdentities {
  si_digest : string;
  si_count : nat;
  si_seal_rowid : Z
}.

Record DropCount := mkDropCount { dc_sealed : nat; dc_dropped : nat }.

Record DropPlan := mkDropPlan {
  dp_cut_unix_ms : Z;
  dp_rules_digest : string;
  dp_sealed_envelopes : nat;
  dp_sealed_claims : nat;
  dp_sealed_digest : string;
  dp_envelopes : list EnvelopeTombstone;
  dp_claims : list ClaimTombstone;
  dp_by_kind : list (string * DropCount);
  dp_drop_digest : string;
  dp_retained_digest : string
}.

(** The operation a claim's body records: both parts, or neither. *)
Definition operation_parts (body : Value) : option (string * string) :=
  match pointer2 "_operation" "id" body ≫= as_str,
        pointer2 "_operation" "request_digest" body ≫= as_str with
  | Some id, Some digest => Some (id, digest)
  | _, _ => None
  end.

Definition claim_tombstone (sealed_claim : SealedClaim) : ClaimTombstone :=
  let claim := sl_claim sealed_claim in
  let operation := operation_parts (cr_body claim) in
  mkClaimTombstone (cr_id claim) (ek_writer (sl_envelope sealed_claim))
    (ek_sequence (sl_envelope sealed_claim)) (ek_envelope_hash (sl_envelope sealed_claim))
    (cr_subject claim) (cr_kind claim) (cr_actor claim) (cr_predecessors claim)
    (fst <$> operation) (snd <$> operation) (cr_accepted_at_unix_ms claim).
End sealed.

(** ** Digests *)

Definition identity_bytes (key : EnvelopeKey) : list ascii :=
  concat (map frame [ek_writer key; u_to_string (ek_sequence key); ek_envelope_hash key]).

Definition nul_byte : ascii := "000"%char.

Definition sealed_preimage (keys : list EnvelopeKey) : list ascii :=
  bytes_of "st3-checkpoint-sealed-v1" ++ nul_byte
  :: concat (map identity_bytes (bt_set EnvelopeKey_compare keys)).

(** [digest_field]. *)
Definition field_bytes (value : option string) : list ascii :=
  match value with
  | Some value => byte_of 1 :: frame value
  | None => [byte_of 0]
  end.

Definition envelope_tombstone_bytes (t : EnvelopeTombstone) : list ascii :=
  field_bytes (Some (et_writer t)) ++ field_bytes (Some (u_to_string (et_sequence t)))
  ++ field_bytes (Some (et_envelope_hash t))
  ++ field_bytes (Some (u_to_string (et_accepted_at_unix_ms t))).

Definition claim_tombstone_bytes (t : ClaimTombstone) : list ascii :=
  field_bytes (Some (tb_id t)) ++ field_bytes (Some (tb_writer t))
  ++ field_bytes (Some (u_to_string (tb_sequence t))) ++ field_bytes (Some (tb_envelope_hash t))
  ++ field_bytes (Some (tb_subject t)) ++ field_bytes (Some (tb_kind t))
  ++ field_bytes (tb_actor t)
  ++ counted (λ p, field_bytes (Some p)) (tb_predecessors t)
  ++ field_bytes (tb_operation_id t) ++ field_bytes (tb_request_digest t)
  ++ field_bytes (Some (u_to_string (tb_accepted_at_unix_ms t))).

Definition drop_preimage (envelopes : list EnvelopeTombstone) (claims : list ClaimTombstone)
    : list ascii :=
  bytes_of "st3-checkpoint-drop-v1" ++ nul_byte
  :: counted envelope_tombstone_bytes (bt_set EnvelopeTombstone_compare envelopes)
  ++ counted claim_tombstone_bytes (bt_set ClaimTombstone_compare claims).

Definition retained_preimage (ids : list string) : list ascii :=
  bytes_of "st3-checkpoint-retained-v1" ++ nul_byte
  :: concat (map (λ id, field_bytes (Some id)) (bt_set String.compare ids)).

(** ** Manifests *)

Record CheckpointManifest := mkCheckpointManifest {
  mf_checkpoint : string;
  mf_cut_unix_ms : Z;
  mf_envelopes : list EnvelopeTombstone;
  mf_claims : list ClaimTombstone
}.

Inductive CheckpointManifestCursor :=
| EnvelopeCursor (after : EnvelopeKey)
| ClaimCursor (after : string).

Record CheckpointManifestRequest := mkCheckpointManifestRequest {
  mr_checkpoint : string;
  mr_cut_unix_ms : Z;
  mr_after : option CheckpointManifestCursor
}.

Record CheckpointManifestPage := mkCheckpointManifestPage {
  mp_checkpoint : string;
  mp_cut_unix_ms : Z;
  mp_envelopes : list EnvelopeTombstone;
  mp_claims : list ClaimTombstone;
  mp_next : option CheckpointManifestCursor
}.

Section digests.
Context `{NumberApi}.
Context (sha256 : list ascii → list ascii) (hex : list ascii → string).

Definition sealed_digest (sealed : SealedSet) : string :=
  hex (sha256 (sealed_preimage (map se_key (ss_envelopes sealed)))).

Definition drop_digest (envelopes : list EnvelopeTombstone) (claims : list ClaimTombstone) : string :=
  hex (sha256 (drop_preimage envelopes claims)).

Definition retained_digest (ids : list string) : string := hex (sha256 (retained_preimage ids)).

Definition SealedIdentities_of (sealed : SealedSet) : SealedIdentities :=
  mkSealedIdentities (sealed_digest sealed) (length (ss_envelopes sealed)) (ss_seal_rowid sealed).

(** [CheckpointManifest::append]: the manifest with the page, and where the next one starts. *)
Definition manifest_append (self : CheckpointManifest) (page : CheckpointManifestPage)
    : result Error (CheckpointManifest * option CheckpointManifestCursor) :=
  if negb (str_eqb (mp_checkpoint page) (mf_checkpoint self))
     || negb (mp_cut_unix_ms page =? mf_cut_unix_ms self)%Z
  then Err (mkError "checkpoint-manifest-invalid"
              ("a manifest page for `" +:+ mp_checkpoint page +:+ "` does not continue `"
               +:+ mf_checkpoint self +:+ "`"))
  else Ok (mkCheckpointManifest (mf_checkpoint self) (mf_cut_unix_ms self)
             (mf_envelopes self ++ mp_envelopes page) (mf_claims self ++ mp_claims page),
           mp_next page).

Definition invalid_manifest (message : string) : Error :=
  mkError "checkpoint-manifest-invalid" message.

(** The first loop: the envelope identities seen so far. *)
Fixpoint check_envelopes (cut : Z) (l : list EnvelopeTombstone) (seen : list EnvelopeKey)
    : result Error (list EnvelopeKey) :=
  match l with
  | [] => Ok seen
  | t :: l' =>
      let name := et_writer t +:+ "/" +:+ u_to_string (et_sequence t) in
      if (cut <=? et_accepted_at_unix_ms t)%Z
      then Err (invalid_manifest ("envelope " +:+ name +:+ " is not before the cut"))
      else if bool_decide (et_key t ∈ seen)
      then Err (invalid_manifest ("envelope " +:+ name +:+ " is listed twice"))
      else check_envelopes cut l' (et_key t :: seen)
  end.

(** The second loop: the claim IDs seen so far. *)
Fixpoint check_claims (cut : Z) (envelopes : list EnvelopeKey) (l : list ClaimTombstone)
    (seen : list string) : result Error unit :=
  match l with
  | [] => Ok tt
  | t :: l' =>
      if negb (bool_decide (tb_key t ∈ envelopes))
      then Err (invalid_manifest ("claim `" +:+ tb_id t +:+ "` names an envelope the manifest keeps"))
      else if (cut <=? tb_accepted_at_unix_ms t)%Z
      then Err (invalid_manifest ("claim `" +:+ tb_id t +:+ "` is not before the cut"))
      else if bool_decide (tb_id t ∈ seen)
      then Err (invalid_manifest ("claim `" +:+ tb_id t +:+ "` is listed twice"))
      else check_claims cut envelopes l' (tb_id t :: seen)
  end.

Definition verify_checkpoint_manifest (manifest : CheckpointManifest) (expected_drop_digest : string)
    : result Error unit :=
  let? envelopes := check_envelopes (mf_cut_unix_ms manifest) (mf_envelopes manifest) [] in
  let? _ := check_claims (mf_cut_unix_ms manifest) envelopes (mf_claims manifest) [] in
  let digest := drop_digest (mf_envelopes manifest) (mf_claims manifest) in
  if negb (str_eqb digest expected_drop_digest)
  then Err (with_detail "expected_drop_digest" (Str expected_drop_digest)
             (with_detail "drop_digest" (Str digest)
               (mkError "checkpoint-manifest-mismatch"
                  ("the manifest of `" +:+ mf_checkpoint manifest
                   +:+ "` does not match the drop its participants verified"))))
  else Ok tt.
End digests.

(** ** The orders and the encodings are exact *)

#[export] Instance EnvelopeKey_order : cmp_order EnvelopeKey_compare.
Proof. unfold EnvelopeKey_compare. derive_order. Qed.
#[export] Instance EnvelopeKey_exact : cmp_exact EnvelopeKey_compare.
Proof. unfold EnvelopeKey_compare. derive_exact. Qed.
#[export] Instance EnvelopeTombstone_order : cmp_order EnvelopeTombstone_compare.
Proof. unfold EnvelopeTombstone_compare. derive_order. Qed.
#[export] Instance EnvelopeTombstone_exact : cmp_exact EnvelopeTombstone_compare.
Proof. unfold EnvelopeTombstone_compare. derive_exact. Qed.
#[export] Instance ClaimTombstone_order : cmp_order ClaimTombstone_compare.
Proof. unfold ClaimTombstone_compare. derive_order. Qed.
#[export] Instance ClaimTombstone_exact : cmp_exact ClaimTombstone_compare.
Proof. unfold ClaimTombstone_compare. derive_exact. Qed.

(** Text that fits a machine's memory. *)
Definition short (s : string) : Prop := (Z.of_nat (String.length s) ≤ u64_max)%Z.
Definition oshort (o : option string) : Prop := match o with Some s => short s | None => True end.

Lemma short_number z : is_u128 z → short (u_to_string z).
Proof. intros Hz%length_u_to_string. unfold short, u64_max. lia. Qed.

Lemma is_u64_u128 z : is_u64 z → is_u128 z.
Proof. unfold is_u64, is_u128, u64_max, u128_max. lia. Qed.
#[export] Hint Resolve short_number is_u64_u128 : st.

Lemma field_bytes_code : prefix_code field_bytes oshort.
Proof.
  intros [a|] [b|] x y Ha Hb E; simpl in E; try discriminate E.
  - apply (f_equal tail) in E. change (frame a ++ x = frame b ++ y) in E.
    by apply frame_inj in E as [-> ->].
  - by injection E as ->.
Qed.

Lemma some_field_code : prefix_code (λ s, field_bytes (Some s)) short.
Proof. by apply (prefix_code_map Some field_bytes oshort short field_bytes_code); naive_solver. Qed.

Lemma some_field_inj a b x y :
  short a → short b → field_bytes (Some a) ++ x = field_bytes (Some b) ++ y → a = b ∧ x = y.
Proof. apply some_field_code. Qed.
Lemma field_inj a b x y :
  oshort a → oshort b → field_bytes a ++ x = field_bytes b ++ y → a = b ∧ x = y.
Proof. apply field_bytes_code. Qed.
#[local] Arguments field_bytes : simpl never.
#[local] Arguments u_to_string : simpl never.

Definition EnvelopeTombstone_ok (t : EnvelopeTombstone) : Prop :=
  short (et_writer t) ∧ is_u64 (et_sequence t) ∧ short (et_envelope_hash t) ∧
  is_u128 (et_accepted_at_unix_ms t).

Definition ClaimTombstone_ok (t : ClaimTombstone) : Prop :=
  Forall short [tb_id t; tb_writer t; tb_envelope_hash t; tb_subject t; tb_kind t] ∧
  Forall oshort [tb_actor t; tb_operation_id t; tb_request_digest t] ∧
  is_u64 (tb_sequence t) ∧ is_u128 (tb_accepted_at_unix_ms t) ∧
  (Z.of_nat (length (tb_predecessors t)) ≤ u64_max)%Z ∧ Forall short (tb_predecessors t).

(** Reading one encoded field off the front of an equation between byte strings. *)
Ltac next_field E :=
  rewrite <- ?app_assoc in E;
  match type of E with
  | field_bytes (Some _) ++ _ = _ => apply some_field_inj in E as [? E]; [|by eauto with st..]
  | _ => apply field_inj in E as [? E]; [|by eauto with st..]
  end.

Lemma envelope_tombstone_code : prefix_code envelope_tombstone_bytes EnvelopeTombstone_ok.
Proof.
  intros [w s h a] [w' s' h' a'] x y (?&Hs&?&Ha) (?&Hs'&?&Ha') E.
  unfold envelope_tombstone_bytes in E. cbn in *.
  do 4 next_field E. unfold is_u64, is_u128 in *.
  repeat match goal with H : u_to_string _ = _ |- _ => apply u_to_string_inj in H; [|lia..] end.
  by subst.
Qed.

Lemma claim_tombstone_code : prefix_code claim_tombstone_bytes ClaimTombstone_ok.
Proof.
  intros [] [] x y (H1&H2&?&?&?&?) (H1'&H2'&?&?&?&?) E.
  unfold claim_tombstone_bytes in E. cbn in *.
  repeat match goal with H : Forall _ (_ :: _) |- _ => apply Forall_cons_iff in H as [? H] end.
  do 7 next_field E. rewrite <- ?app_assoc in E.
  apply (prefix_code_counted _ _ some_field_code) in E as [? E]; [|done..].
  do 3 next_field E. unfold is_u64, is_u128 in *.
  repeat match goal with H : u_to_string _ = _ |- _ => apply u_to_string_inj in H; [|lia..] end.
  by subst.
Qed.

(** A drop as the digest sees it: two sets of tombstones that fit a machine. *)
Definition drop_ok (envelopes : list EnvelopeTombstone) (claims : list ClaimTombstone) : Prop :=
  Forall EnvelopeTombstone_ok envelopes ∧ (Z.of_nat (length envelopes) ≤ u64_max)%Z ∧
  Forall ClaimTombstone_ok claims ∧ (Z.of_nat (length claims) ≤ u64_max)%Z.

Lemma bt_set_code {A} (cmp : A → A → comparison) `{!cmp_order cmp, !cmp_exact cmp} P l :
  Forall P l → (Z.of_nat (length l) ≤ u64_max)%Z →
  (Z.of_nat (length (bt_set cmp l)) ≤ u64_max)%Z ∧ Forall P (bt_set cmp l).
Proof.
  intros Hl Hn. split.
  - assert (length (bt_set cmp l) ≤ length l); [|lia].
    apply NoDup_incl_length; [apply NoDup_ListNoDup, (bt_set_NoDup cmp)|].
    intros x. by rewrite <- !list_elem_of_In, (elem_of_bt_set cmp).
  - rewrite List.Forall_forall in *.
    intros x Hx. rewrite <- list_elem_of_In, (elem_of_bt_set cmp), list_elem_of_In in Hx. by apply Hl.
Qed.

Lemma drop_preimage_inj es cs es' cs' :
  drop_ok es cs → drop_ok es' cs' → drop_preimage es cs = drop_preimage es' cs' →
  (∀ t, t ∈ es ↔ t ∈ es') ∧ (∀ t, t ∈ cs ↔ t ∈ cs').
Proof.
  intros (He & Hne & Hc & Hnc) (He' & Hne' & Hc' & Hnc') E. unfold drop_preimage in E.
  apply app_inv_head in E. apply (f_equal tail) in E. cbn [tail] in E.
  apply (prefix_code_counted _ _ envelope_tombstone_code) in E as [Ee E];
    [|by apply (bt_set_code EnvelopeTombstone_compare)..].
  assert (Ec : bt_set ClaimTombstone_compare cs = bt_set ClaimTombstone_compare cs').
  { eapply prefix_code_inj; [apply (prefix_code_counted _ _ claim_tombstone_code)|..|exact E];
      by apply (bt_set_code ClaimTombstone_compare). }
  split; intros t.
  - by rewrite <- (elem_of_bt_set EnvelopeTombstone_compare t es), Ee, (elem_of_bt_set EnvelopeTombstone_compare).
  - by rewrite <- (elem_of_bt_set ClaimTombstone_compare t cs), Ec, (elem_of_bt_set ClaimTombstone_compare).
Qed.

(** ** What a manifest's check accepts *)

Section manifests.
Context `{NumberApi}.
Context (sha256 : list ascii → list ascii) (hex : list ascii → string).

Lemma check_envelopes_spec cut l seen keys :
  check_envelopes cut l seen = Ok keys ↔
  Forall (λ t, et_accepted_at_unix_ms t < cut)%Z l ∧ NoDup (map et_key l) ∧
  (∀ t, t ∈ l → et_key t ∉ seen) ∧ keys = rev (map et_key l) ++ seen.
Proof.
  revert seen. induction l as [|t l IH]; intros seen; simpl.
  - split; [intros [= ->]; split_and!; try constructor; by intros ? ?%elem_of_nil | naive_solver].
  - rewrite Forall_cons_iff, NoDup_cons. setoid_rewrite elem_of_cons.
    destruct (Z.leb_spec cut (et_accepted_at_unix_ms t)); [naive_solver lia|].
    case_bool_decide as Hin; [naive_solver|]. rewrite IH, list_elem_of_fmap, <- app_assoc. simpl.
    setoid_rewrite elem_of_cons. split.
    + intros (?&?&Hn&->). split_and!; try done.
      * intros (t' & E & Ht'). apply (Hn t' Ht'). by left.
      * intros t' [->|Ht']; [done|]. intros Hs. apply (Hn t' Ht'). by right.
    + intros ((?&?)&(Hn1&?)&Hn&->). split_and!; try done. intros t' Ht' [E|Hs].
      * apply Hn1. by exists t'.
      * by apply (Hn t' (or_intror Ht')).
Qed.

Lemma check_claims_spec cut keys l seen :
  check_claims cut keys l seen = Ok tt ↔
  Forall (λ t, tb_key t ∈ keys ∧ (tb_accepted_at_unix_ms t < cut)%Z) l ∧ NoDup (map tb_id l) ∧
  (∀ t, t ∈ l → tb_id t ∉ seen).
Proof.
  revert seen. induction l as [|t l IH]; intros seen; simpl.
  - split; [intros _; split_and!; try constructor; by intros ? ?%elem_of_nil | done].
  - rewrite Forall_cons_iff, NoDup_cons. setoid_rewrite elem_of_cons.
    case_bool_decide as Hk; simpl; [|naive_solver].
    destruct (Z.leb_spec cut (tb_accepted_at_unix_ms t)); [naive_solver lia|].
    case_bool_decide as Hin; [naive_solver|]. rewrite IH, list_elem_of_fmap.
    setoid_rewrite elem_of_cons. split.
    + intros (?&?&Hn). split_and!; try done.
      * intros (t' & E & Ht'). apply (Hn t' Ht'). by left.
      * intros t' [->|Ht']; [done|]. intros Hs. apply (Hn t' Ht'). by right.
    + intros ((?&?)&(Hn1&?)&Hn). split_and!; try done. intros t' Ht' [E|Hs].
      * apply Hn1. by exists t'.
      * by apply (Hn t' (or_intror Ht')).
Qed.

(** What is well formed in a manifest, its digest apart. *)
Definition manifest_well_formed (m : CheckpointManifest) : Prop :=
  Forall (λ t, et_accepted_at_unix_ms t < mf_cut_unix_ms m)%Z (mf_envelopes m) ∧
  NoDup (map et_key (mf_envelopes m)) ∧
  Forall (λ t, tb_key t ∈ map et_key (mf_envelopes m) ∧
               (tb_accepted_at_unix_ms t < mf_cut_unix_ms m)%Z) (mf_claims m) ∧
  NoDup (map tb_id (mf_claims m)).

Lemma manifest_checks_spec m :
  (let? envelopes := check_envelopes (mf_cut_unix_ms m) (mf_envelopes m) [] in
   check_claims (mf_cut_unix_ms m) envelopes (mf_claims m) []) = Ok tt ↔ manifest_well_formed m.
Proof.
  unfold manifest_well_formed. pose proof (check_envelopes_spec (mf_cut_unix_ms m) (mf_envelopes m) []) as He.
  destruct (check_envelopes _ _ _) as [keys|e] eqn:E; simpl.
  - destruct (proj1 (He keys) eq_refl) as (?&?&_&->). rewrite check_claims_spec, app_nil_r.
    assert (Hrev : ∀ k, k ∈ rev (map et_key (mf_envelopes m)) ↔ k ∈ map et_key (mf_envelopes m)).
    { intros k. by rewrite !list_elem_of_In, <- in_rev. }
    setoid_rewrite Hrev. split; [tauto|]. intros (_&_&?&?).
    split_and!; [done..|]. by intros ? _ ?%elem_of_nil.
  - split; [done|]. intros (?&?&_). specialize (He (rev (map et_key (mf_envelopes m)) ++ [])).
    destruct He as [_ He]. discriminate He. split_and!; try done. by intros ? _ ?%elem_of_nil.
Qed.

Lemma check_envelopes_error cut l seen e :
  check_envelopes cut l seen = Err e → err_code e = "checkpoint-manifest-invalid".
Proof.
  revert seen. induction l as [|t l IH]; intros seen; simpl; [done|].
  destruct (_ <=? _)%Z; [by intros [= <-]|]. case_bool_decide; [by intros [= <-]|]. apply IH.
Qed.

Lemma check_claims_error cut keys l seen e :
  check_claims cut keys l seen = Err e → err_code e = "checkpoint-manifest-invalid".
Proof.
  revert seen. induction l as [|t l IH]; intros seen; simpl; [done|].
  case_bool_decide; simpl; [|by intros [= <-]]. destruct (_ <=? _)%Z; [by intros [= <-]|].
  case_bool_decide; [by intros [= <-]|]. apply IH.
Qed.

Lemma verify_manifest_cases m expected :
  match verify_checkpoint_manifest sha256 hex m expected with
  | Ok _ => manifest_well_formed m ∧
            drop_digest sha256 hex (mf_envelopes m) (mf_claims m) = expected
  | Err e => (err_code e = "checkpoint-manifest-invalid" ∧ ¬ manifest_well_formed m) ∨
             (err_code e = "checkpoint-manifest-mismatch" ∧ manifest_well_formed m ∧
              drop_digest sha256 hex (mf_envelopes m) (mf_claims m) ≠ expected)
  end.
Proof.
  pose proof (manifest_checks_spec m) as Hspec. unfold verify_checkpoint_manifest.
  destruct (check_envelopes _ _ _) as [keys|e] eqn:Ee; simpl in *.
  - destruct (check_claims _ _ _ _) as [[]|e] eqn:Ec; simpl in *.
    + destruct (str_eqb _ _) eqn:Ed; str_cases; simpl; naive_solver.
    + left. split; [by eapply check_claims_error|]. naive_solver.
  - left. split; [by eapply check_envelopes_error|]. naive_solver.
Qed.

(** A manifest accepted against the digest of a drop lists exactly the drop's envelope and claim
    tombstones, or the two texts that are hashed are different inputs with one SHA-256 digest. *)
Theorem accepted_manifest_is_the_drop m es cs :
  drop_ok es cs → drop_ok (mf_envelopes m) (mf_claims m) →
  verify_checkpoint_manifest sha256 hex m (drop_digest sha256 hex es cs) = Ok tt →
  manifest_well_formed m ∧
  (((∀ t, t ∈ mf_envelopes m ↔ t ∈ es) ∧ (∀ t, t ∈ mf_claims m ↔ t ∈ cs)) ∨
   collide (λ x, hex (sha256 x)) (drop_preimage (mf_envelopes m) (mf_claims m)) (drop_preimage es cs)).
Proof.
  intros Hok Hok' Hv. pose proof (verify_manifest_cases m (drop_digest sha256 hex es cs)) as H0.
  rewrite Hv in H0. destruct H0 as [Hwf Hd]. split; [done|].
  destruct (decide (drop_preimage (mf_envelopes m) (mf_claims m) = drop_preimage es cs)) as [E|E].
  - left. by apply drop_preimage_inj in E.
  - by right.
Qed.

(** A manifest is accepted exactly when every tombstone is dated before the cut, no envelope and
    no claim is listed twice, every claim goes with an envelope the manifest drops, and its digest
    is the expected one; each refusal names its reason, the digest only for a manifest that is
    otherwise well formed. *)
Theorem manifest_check_is_exact m expected :
  match verify_checkpoint_manifest sha256 hex m expected with
  | Ok _ => manifest_well_formed m ∧
            drop_digest sha256 hex (mf_envelopes m) (mf_claims m) = expected
  | Err e => (err_code e = "checkpoint-manifest-invalid" ∧ ¬ manifest_well_formed m) ∨
             (err_code e = "checkpoint-manifest-mismatch" ∧ manifest_well_formed m ∧
              drop_digest sha256 hex (mf_envelopes m) (mf_claims m) ≠ expected)
  end.
Proof. apply verify_manifest_cases. Qed.
End manifests.

(** ** Manifest pages

    The tombstone tables: each row with the checkpoint that dropped it. *)

Record TombstoneTables := mkTombstoneTables {
  checkpoint_envelopes : list (EnvelopeTombstone * string);
  checkpoint_claims : list (ClaimTombstone * string)
}.

Definition i64_min : Z := - 2 ^ 63.
Definition i64_max : Z := 2 ^ 63 - 1.

(** The rows of checkpoints up to one, which names sort in the order of. *)
Definition through {A} (checkpoint : string) (rows : list (A * string)) : list A :=
  map fst (List.filter (λ row, String.leb row.2 checkpoint) rows).

Definition envelope_rows (tables : TombstoneTables) (checkpoint : string) (after : EnvelopeKey)
    : list EnvelopeTombstone :=
  rows_after EnvelopeKey_compare et_key (through checkpoint (checkpoint_envelopes tables)) after.

Definition claim_rows (tables : TombstoneTables) (checkpoint after : string) : list ClaimTombstone :=
  rows_after String.compare tb_id (through checkpoint (checkpoint_claims tables)) after.

(** The second part of a page: claims after an ID, as many as the envelopes leave room for. *)
Definition claims_page (tables : TombstoneTables) (request : CheckpointManifestRequest)
    (limit : nat) (envelopes : list EnvelopeTombstone) (after_claim : string)
    : CheckpointManifestPage :=
  let room := limit - length envelopes in
  let rows := take (room + 1) (claim_rows tables (mr_checkpoint request) after_claim) in
  let page := mkCheckpointManifestPage (mr_checkpoint request) (mr_cut_unix_ms request) envelopes in
  if room <? length rows then
    match last (take room rows) with
    | Some t => page (take room rows) (Some (ClaimCursor (tb_id t)))
    | None => page (take room rows) (Some (ClaimCursor after_claim))
    end
  else page rows None.

(** The key the first query starts after. *)
Definition start_key (after : option EnvelopeKey) : EnvelopeKey :=
  match after with
  | Some k => mkEnvelopeKey (ek_writer k) (Z.min (ek_sequence k) i64_max) (ek_envelope_hash k)
  | None => mkEnvelopeKey "" i64_min ""
  end.

(** A page that starts with envelopes. A page limit of zero with envelopes to list panics. *)
Definition envelopes_page (tables : TombstoneTables) (request : CheckpointManifestRequest)
    (limit : nat) (after : option EnvelopeKey) : option CheckpointManifestPage :=
  let rows := take (limit + 1) (envelope_rows tables (mr_checkpoint request) (start_key after)) in
  if limit <? length rows then
    match last (take limit rows) with
    | Some t =>
        Some (mkCheckpointManifestPage (mr_checkpoint request) (mr_cut_unix_ms request)
                (take limit rows) [] (Some (EnvelopeCursor (et_key t))))
    | None => None
    end
  else Some (claims_page tables request limit rows "").

Definition manifest_page (tables : TombstoneTables) (request : CheckpointManifestRequest)
    (limit : nat) : option CheckpointManifestPage :=
  match mr_after request with
  | None => envelopes_page tables request limit None
  | Some (EnvelopeCursor key) => envelopes_page tables request limit (Some key)
  | Some (ClaimCursor after) => Some (claims_page tables request limit [] after)
  end.

(** The outcome of reading a manifest page by page: the manifest, an error, a panic, or more
    pages than the reader was allowed to read. *)
Inductive read_outcome `{NumberApi} :=
| Read (m : CheckpointManifest)
| ReadError (e : Error)
| ReadPanic
| ReadUnfinished.

(** [read_manifest], of at most [pages] pages. *)
Fixpoint read_pages `{NumberApi} (pages : nat) (tables : TombstoneTables) (limit : nat)
    (manifest : CheckpointManifest) (after : option CheckpointManifestCursor) : read_outcome :=
  match pages with
  | O => ReadUnfinished
  | S pages' =>
      match manifest_page tables (mkCheckpointManifestRequest (mf_checkpoint manifest)
                                    (mf_cut_unix_ms manifest) after) limit with
      | None => ReadPanic
      | Some page =>
          match manifest_append manifest page with
          | Err e => ReadError e
          | Ok (manifest', None) => Read manifest'
          | Ok (manifest', after') => read_pages pages' tables limit manifest' after'
          end
      end
  end.

Definition read_manifest `{NumberApi} (pages : nat) (tables : TombstoneTables)
    (checkpoint : string) (cut_unix_ms : Z) (limit : nat) : read_outcome :=
  read_pages pages tables limit (mkCheckpointManifest checkpoint cut_unix_ms [] []) None.

(** The primary keys of the two tables, and the ranges of the columns. *)
Definition tables_ok (tables : TombstoneTables) : Prop :=
  NoDup (map (λ row, et_key row.1) (checkpoint_envelopes tables)) ∧
  NoDup (map (λ row, tb_id row.1) (checkpoint_claims tables)) ∧
  Forall (λ row, (0 ≤ et_sequence row.1 ≤ i64_max)%Z) (checkpoint_envelopes tables) ∧
  Forall (λ row, tb_id row.1 ≠ "") (checkpoint_claims tables).

Lemma elem_of_through {A} checkpoint (rows : list (A * string)) x :
  x ∈ through checkpoint rows ↔ ∃ c, (x, c) ∈ rows ∧ String.leb c checkpoint = true.
Proof.
  unfold through. rewrite list_elem_of_fmap. split.
  - intros ([y c] & -> & [? ?]%lfilter_elem). by exists c.
  - intros (c & Hin & Hc). exists (x, c). split; [done|]. by apply lfilter_elem.
Qed.

Lemma through_NoDup {A K} (key : A → K) checkpoint (rows : list (A * string)) :
  NoDup (map (λ row, key row.1) rows) → NoDup (map key (through checkpoint rows)).
Proof.
  unfold through. induction rows as [|r rows IH]; simpl; [constructor|].
  intros [Hr Hnd]%NoDup_cons. destruct (String.leb r.2 checkpoint); simpl; [|by apply IH].
  constructor; [|by apply IH]. rewrite !list_elem_of_fmap in *.
  intros (y & E & (r' & -> & [Hr' _]%lfilter_elem)%list_elem_of_fmap). apply Hr. by exists r'.
Qed.

Section paging.
Context `{NumberApi} (tables : TombstoneTables) (Hok : tables_ok tables).
Context (limit : nat) (Hlimit : 0 < limit).

Lemma page_last {A} n (l : list A) :
  0 < n → n < length l →
  ∃ q t rest, take n l = q ++ [t] ∧ l = q ++ t :: rest ∧ length rest < length l.
Proof.
  intros Hn Hl. destruct (last (take n l)) as [t|] eqn:E.
  - apply last_Some in E as [q E]. exists q, t, (drop n l). split_and!; [done| |].
    + rewrite <- (take_drop n l) at 1. rewrite E, <- app_assoc. done.
    + rewrite length_drop. lia.
  - apply last_None in E. apply (f_equal length) in E. rewrite length_take in E. simpl in E. lia.
Qed.

Lemma append_own m es cs next :
  manifest_append m (mkCheckpointManifestPage (mf_checkpoint m) (mf_cut_unix_ms m) es cs next) =
  Ok (mkCheckpointManifest (mf_checkpoint m) (mf_cut_unix_ms m) (mf_envelopes m ++ es)
        (mf_claims m ++ cs), next).
Proof. unfold manifest_append. cbn. by rewrite str_eqb_refl, Z.eqb_refl. Qed.

(** The tombstones a checkpoint's manifest lists. *)
Definition listed_claims (checkpoint : string) : list ClaimTombstone :=
  rows_in_order String.compare tb_id (through checkpoint (checkpoint_claims tables)).
Definition listed_envelopes (checkpoint : string) : list EnvelopeTombstone :=
  rows_in_order EnvelopeKey_compare et_key (through checkpoint (checkpoint_envelopes tables)).

#[local] Arguments listed_claims : simpl never.
#[local] Arguments listed_envelopes : simpl never.

(** What a page of claims holds, and that the rest follows its cursor. *)
Lemma claims_page_spec m after es a pre post :
  listed_claims (mf_checkpoint m) = pre ++ post → claim_rows tables (mf_checkpoint m) a = post →
  length es ≤ limit →
  let request := mkCheckpointManifestRequest (mf_checkpoint m) (mf_cut_unix_ms m) after in
  (claims_page tables request limit es a =
     mkCheckpointManifestPage (mf_checkpoint m) (mf_cut_unix_ms m) es post None) ∨
  ∃ q rest a', post = q ++ rest ∧ claim_rows tables (mf_checkpoint m) a' = rest ∧
    length es + length q = limit ∧
    claims_page tables request limit es a =
      mkCheckpointManifestPage (mf_checkpoint m) (mf_cut_unix_ms m) es q (Some (ClaimCursor a')).
Proof.
  intros Hrows Ha Hes request. unfold claims_page, request. cbn [mr_checkpoint mr_cut_unix_ms].
  rewrite Ha. set (room := limit - length es).
  destruct (decide (room < length post)) as [Hlt|Hge].
  - right. rewrite (proj2 (Nat.ltb_lt _ _)) by (rewrite length_take; lia).
    rewrite take_take, Nat.min_l by lia. destruct (decide (room = 0)) as [Hz|Hz].
    + exists [], post, a. rewrite Hz. cbn. split_and!; [done|done|lia|done].
    + destruct (page_last room post) as (q & t & rest & Hq & Hpost & _); [lia..|].
      exists (q ++ [t]), rest, (tb_id t). rewrite Hq, last_snoc. split_and!; [|
        |rewrite <- Hq, length_take; lia|done].
      * by rewrite Hpost, <- app_assoc.
      * rewrite Hpost, app_assoc in Hrows. eapply rows_after_last; [apply _..| |exact Hrows].
        apply through_NoDup, Hok.
  - left. rewrite take_ge by lia. by rewrite (proj2 (Nat.ltb_ge _ _)) by lia.
Qed.

(** Reading on from a claim cursor. *)
Lemma read_claim_pages pages m a pre post :
  listed_claims (mf_checkpoint m) = pre ++ post → claim_rows tables (mf_checkpoint m) a = post → length post < pages →
  read_pages pages tables limit m (Some (ClaimCursor a)) =
  Read (mkCheckpointManifest (mf_checkpoint m) (mf_cut_unix_ms m) (mf_envelopes m)
          (mf_claims m ++ post)).
Proof.
  revert m a pre post. induction pages as [|pages IH]; intros m a pre post Hrows Ha Hp; [lia|].
  cbn [read_pages]. unfold manifest_page. cbn [mr_after].
  destruct (claims_page_spec m (Some (ClaimCursor a)) [] a pre post Hrows Ha (Nat.le_0_l _))
    as [->|(q & rest & a' & -> & Ha' & Hq & ->)]; rewrite append_own, app_nil_r.
  - done.
  - rewrite (IH _ a' (pre ++ q) rest); cbn.
    + by rewrite <- app_assoc.
    + by rewrite Hrows, <- app_assoc.
    + done.
    + rewrite length_app in Hp. simpl in Hq. lia.
Qed.

Lemma claim_rows_start m : claim_rows tables (mf_checkpoint m) "" = listed_claims (mf_checkpoint m).
Proof.
  apply rows_after_low. intros r (c & Hin & _)%elem_of_through. unfold is_after.
  destruct Hok as (_&_&_&Hid). rewrite List.Forall_forall in Hid.
  apply list_elem_of_In, Hid in Hin. simpl in Hin. by destruct (tb_id r).
Qed.

Lemma envelope_rows_start m : envelope_rows tables (mf_checkpoint m) (start_key None) = listed_envelopes (mf_checkpoint m).
Proof.
  apply rows_after_low. intros r (c & Hin & _)%elem_of_through. unfold is_after.
  destruct Hok as (_&_&Hs&_). rewrite List.Forall_forall in Hs.
  apply list_elem_of_In, Hs in Hin. simpl in Hin. unfold EnvelopeKey_compare. cbn.
  destruct (et_writer r); simpl; [|done].
  destruct (Z.compare_spec (et_sequence r) i64_min); simpl; unfold i64_min in *; (lia || done).
Qed.

(** Reading on from an envelope cursor, or from the start. *)
Lemma read_envelope_pages pages m (after : option EnvelopeKey) pre post :
  listed_envelopes (mf_checkpoint m) = pre ++ post →
  envelope_rows tables (mf_checkpoint m) (start_key after) = post →
  length post + length (listed_claims (mf_checkpoint m)) < pages →
  read_pages pages tables limit m (EnvelopeCursor <$> after) =
  Read (mkCheckpointManifest (mf_checkpoint m) (mf_cut_unix_ms m) (mf_envelopes m ++ post)
          (mf_claims m ++ listed_claims (mf_checkpoint m))).
Proof.
  revert m after pre post. induction pages as [|pages IH]; intros m after pre post Hrows Ha Hp; [lia|].
  cbn [read_pages].
  assert (Hpage : manifest_page tables (mkCheckpointManifestRequest (mf_checkpoint m)
            (mf_cut_unix_ms m) (EnvelopeCursor <$> after)) limit =
          envelopes_page tables (mkCheckpointManifestRequest (mf_checkpoint m)
            (mf_cut_unix_ms m) (EnvelopeCursor <$> after)) limit after) by by destruct after.
  rewrite Hpage. unfold envelopes_page. cbn [mr_checkpoint mr_cut_unix_ms]. rewrite Ha.
  destruct (decide (limit < length post)) as [Hlt|Hge].
  - rewrite (proj2 (Nat.ltb_lt _ _)) by (rewrite length_take; lia).
    rewrite take_take, Nat.min_l by lia.
    destruct (page_last limit post Hlimit Hlt) as (q & t & rest & Hq & Hpost & Hrest).
    rewrite Hq, last_snoc, append_own. rewrite Hpost, app_assoc in Hrows.
    assert (Ht : (et_sequence t ≤ i64_max)%Z).
    { destruct Hok as (_&_&Hs&_). assert (Hin : t ∈ listed_envelopes (mf_checkpoint m)) by (rewrite Hrows; set_solver).
      unfold listed_envelopes, rows_in_order in Hin. rewrite elem_of_sort_by, elem_of_through in Hin.
      destruct Hin as (c & Hin & _). rewrite List.Forall_forall in Hs.
      apply list_elem_of_In, Hs in Hin. simpl in Hin. lia. }
    assert (Hk : start_key (Some (et_key t)) = et_key t) by (unfold start_key; by rewrite Z.min_l).
    rewrite (IH _ (Some (et_key t)) ((pre ++ q) ++ [t]) rest);
      cbn [mf_checkpoint mf_cut_unix_ms mf_envelopes mf_claims].
    + by rewrite app_nil_r, <- app_assoc, Hpost, <- app_assoc.
    + by rewrite <- app_assoc.
    + rewrite Hk. eapply rows_after_last; [apply _..| |exact Hrows].
      apply through_NoDup, Hok.
    + lia.
  - rewrite take_ge by lia. rewrite (proj2 (Nat.ltb_ge _ _)) by lia.
    destruct (claims_page_spec m (EnvelopeCursor <$> after) post "" [] (listed_claims (mf_checkpoint m)) eq_refl
                (claim_rows_start m)) as [->|(q & rest & a' & Hall & Ha' & Hq & ->)]; [lia| |];
      rewrite append_own; [done|].
    rewrite (read_claim_pages _ _ a' q rest); cbn.
    + by rewrite <- app_assoc, Hall.
    + exact Hall.
    + done.
    + rewrite Hall, length_app in Hp. lia.
Qed.
End paging.

(** Reading a manifest page by page ends, within one page more than there are tombstones,
    whatever the page size; it never panics, and it lists every tombstone of the checkpoint and
    the ones before it, envelopes in key order and claims in ID order, each once. *)
Theorem manifest_pages_add_up `{NumberApi} tables checkpoint cut limit pages :
  tables_ok tables → 0 < limit →
  length (checkpoint_envelopes tables) + length (checkpoint_claims tables) < pages →
  ∃ m, read_manifest pages tables checkpoint cut limit = Read m ∧
    mf_checkpoint m = checkpoint ∧ mf_cut_unix_ms m = cut ∧
    StronglySorted (λ a b, EnvelopeKey_compare (et_key a) (et_key b) = Lt) (mf_envelopes m) ∧
    StronglySorted (λ a b, String.compare (tb_id a) (tb_id b) = Lt) (mf_claims m) ∧
    (∀ t, t ∈ mf_envelopes m ↔
       ∃ c, (t, c) ∈ checkpoint_envelopes tables ∧ String.leb c checkpoint = true) ∧
    (∀ t, t ∈ mf_claims m ↔
       ∃ c, (t, c) ∈ checkpoint_claims tables ∧ String.leb c checkpoint = true).
Proof.
  intros Hok Hlimit Hpages. unfold read_manifest.
  set (m0 := mkCheckpointManifest checkpoint cut [] []).
  assert (Hstart : envelope_rows tables checkpoint (start_key None) = listed_envelopes tables checkpoint)
    by exact (envelope_rows_start tables Hok limit Hlimit m0).
  pose proof (read_envelope_pages tables Hok limit Hlimit pages m0 None [] _ eq_refl Hstart) as Hread.
  assert (Hlen : ∀ A (rows : list (A * string)), length (through checkpoint rows) ≤ length rows).
  { intros A rows. unfold through. rewrite length_map. apply List.filter_length_le. }
  eexists. split; [apply Hread|].
  - cbn [mf_checkpoint m0]. unfold listed_envelopes, listed_claims, rows_in_order.
    rewrite !length_sort_by.
    pose proof (Hlen _ (checkpoint_envelopes tables)). pose proof (Hlen _ (checkpoint_claims tables)).
    lia.
  - cbn. destruct Hok as (He & Hc & _). split_and!; [done..| | | |].
    + apply (rows_in_order_sorted EnvelopeKey_compare et_key), through_NoDup, He.
    + apply (rows_in_order_sorted String.compare tb_id), through_NoDup, Hc.
    + intros t. unfold listed_envelopes, rows_in_order. by rewrite elem_of_sort_by, elem_of_through.
    + intros t. unfold listed_claims, rows_in_order. by rewrite elem_of_sort_by, elem_of_through.
Qed.

(** ** Witnesses *)

Definition one_envelope : EnvelopeTombstone := mkEnvelopeTombstone "amy" 1 "e1" 10.
Definition one_claim : ClaimTombstone :=
  mkClaimTombstone "c1" "amy" 1 "e1" "observer/a" "observer.observed" None [] None None 10.

Lemma accepted_manifest_witness :
  let m := mkCheckpointManifest "checkpoint/a" 20 [one_envelope] [one_claim] in
  (∀ t, t ∈ mf_envelopes m ↔ t ∈ [one_envelope]) ∧ (∀ t, t ∈ mf_claims m ↔ t ∈ [one_claim])
  ∨ collide String.string_of_list_ascii (drop_preimage (mf_envelopes m) (mf_claims m))
      (drop_preimage [one_envelope] [one_claim]).
Proof.
  set (N := integer_numbers).
  apply (accepted_manifest_is_the_drop (λ x, x) String.string_of_list_ascii
           (mkCheckpointManifest "checkpoint/a" 20 [one_envelope] [one_claim]) [one_envelope] [one_claim]).
  - split_and!; repeat constructor; vm_compute; congruence.
  - split_and!; repeat constructor; vm_compute; congruence.
  - unfold verify_checkpoint_manifest. cbn -[drop_digest]. by rewrite str_eqb_refl.
Defined.

Lemma manifest_pages_witness :
  let tables := mkTombstoneTables [(one_envelope, "checkpoint/a")] [(one_claim, "checkpoint/a")] in
  ∃ m, @read_manifest integer_numbers 3 tables "checkpoint/a" 20 1 = Read m.
Proof.
  intros tables.
  destruct (@manifest_pages_add_up integer_numbers tables "checkpoint/a" 20 1 3) as (m & Hm & _).
  - split_and!; repeat constructor; try (vm_compute; congruence); set_solver.
  - lia.
  - vm_compute. lia.
  - by exists m.
Defined.
