(* ===== verification/CheckpointPlan.v ===== *)
(** * What a checkpoint drops

    Models [crates/st3/src/store/checkpoint_rules.rs]: the slot and rule of a claim, which claims
    of a slot each rule keeps, and [plan_drops], which marks claims to drop, guards some, and then
    keeps more until every drop is witnessed by a later kept claim and no envelope or operation is
    dropped in part. The readers whose answers a drop must preserve are modelled from
    [subject_answers] of the same file. The schema registry is data of [st3-schema] and an
    argument, as are SHA-256, hexadecimal and the text of a JSON value. *)

From Stdlib Require Import Ascii.
From S2P Require Import Prelude StableSort Text Json Bytes Order BTree Framing Claim Hash Checkpoint.

Definition RULES_VERSION : Z := 7.
Definition LOCAL_KIND_MIN_AGE_MS : Z := 5 * DAY_MS.
Definition USAGE_WINDOW_MS : Z := 7 * DAY_MS.
Definition HOUR_MS : Z := 60 * 60 * 1000.

Definition HARNESS_OPTIONAL_FIELDS : list string :=
  ["driver"; "transport"; "reason"; "blocked_on"; "ask"; "input_buffer"; "exit"].

Definition REQUEST_CLOSERS : list string :=
  ["subscription.mission-started"; "subscription.mission-failed";
   "subscription.mission-request-cancelled"].

Definition RULES_DESCRIPTION : string :=
"harness.observed slot=subject,incarnation_id keep=first,first-ready,first-ready-not-provider-auth,newest,newest-not-working,every-working-after,newest-carrier-of-each-optional-field
harness.timeline slot=subject,incarnation_id keep=newest min-age-before-cut=5d
loop.state slot=subject keep=first-and-last-of-each-run-of-status-and-round,first-with-items
subscription.mission-deferred slot=subject,request keep=all-while-open,newest
observer.observed slot=subject keep=newest,newest-carrier-of-each-field
daemon.diagnostic slot=subject,code keep=newest,newest-carrier-of-each-field
transport.observed slot=subject,origin keep=newest,newest-carrier-of-each-field
runtime.action.requested actor=null slot=subject,action,incarnation_id,operation_status keep=newest min-age-before-cut=5d
runtime.action.succeeded actor=null slot=subject,action,incarnation_id,operation_status keep=newest min-age-before-cut=5d
runtime.action.failed actor=null slot=subject,action,incarnation_id,operation_status keep=newest min-age-before-cut=5d
runtime.action.deadline-reached actor=null slot=subject,action,incarnation_id,operation_status keep=newest min-age-before-cut=5d
harness.usage semantics=response_rollup slot=subject,incarnation_id,model,account,owner_run,owner_step,host keep=newest,last-of-each-utc-hour-by-observed_at-within-7d-before-cut,newest-before-that
harness.usage semantics=session_cumulative slot=subject,incarnation_id keep=newest,largest-total_tokens
harness.usage semantics=context_occupancy slot=subject,incarnation_id keep=newest
harness.limits slot=subject keep=newest
resource.observed actor=null observer=set slot=subject keep=newest
render.applied slot=subject keep=newest min-age-before-cut=5d
runtime.readiness-deadline-reached slot=subject keep=newest min-age-before-cut=5d
sealed=every-admitted-claim-of-an-envelope-before-the-cut-but-repaired-originals
proof=the-sealed-claims-and-the-blobs-they-reference
guards=person-actor,once-cardinality,record-not-valid,repair-replacement,projection-reference,claim-in-two-envelopes,cited-as-evidence,mission-run-input,shared-operation,writer-newest-envelope,whole-envelope
witness=every-field-set-again-by-a-later-kept-claim-of-the-slot
carriers=every-rule-but-loop.state-keeps-the-newest-carrier-of-each-field".

(** How often a kind may be claimed, from the schema. *)
Inductive Cardinality := Append | Once | OncePerActor | OncePerAttempt | StateTransition.
#[export] Instance Cardinality_eq_dec : EqDecision Cardinality.
Proof. solve_decision. Defined.

(** The members of a kind's schema the planner reads. *)
Record ClaimSpec := mkClaimSpec {
  spec_cardinality : Cardinality;
  spec_fields : gset string
}.

Inductive Rule :=
| Newest | NewestAged | HarnessObserved | LoopState | Deferral | UsageSeries | UsageCumulative.
#[export] Instance Rule_eq_dec : EqDecision Rule.
Proof. solve_decision. Defined.

(** The derived order: by declaration. *)
Definition Rule_index (r : Rule) : nat :=
  match r with
  | Newest => 0 | NewestAged => 1 | HarnessObserved => 2 | LoopState => 3 | Deferral => 4
  | UsageSeries => 5 | UsageCumulative => 6
  end.

Definition slot_key : Type := Rule * list string.

Definition slot_compare (a b : slot_key) : comparison :=
  then_with (Nat.compare (Rule_index a.1) (Rule_index b.1)) (list_compare String.compare a.2 b.2).

#[export] Instance slot_compare_order : cmp_order slot_compare.
Proof.
  unfold slot_compare. apply cmp_order_then.
  - apply (cmp_order_by_key Nat.compare (λ k : slot_key, Rule_index k.1)). apply _.
  - apply (cmp_order_by_key (list_compare String.compare) (λ k : slot_key, k.2)). apply _.
Qed.
#[export] Instance slot_compare_exact : cmp_exact slot_compare.
Proof.
  intros [r s] [r' s']. unfold slot_compare. cbn. rewrite then_with_Eq, !cmp_eq. split.
  - intros [E ->]. f_equal. by destruct r, r'.
  - by intros [= -> ->].
Qed.

Section plan.
Context `{NumberApi}.
Context (registry : string → option ClaimSpec) (json_to_string : Value → string).
Context (sha256 : list ascii → list ascii) (hex : list ascii → string).

(** ** Reading a claim *)

Definition fields (claim : ClaimRecord) : option (list (string * Value)) :=
  match get "fields" (cr_body claim) with Some (Object fs) => Some fs | _ => None end.

Definition field_names (claim : ClaimRecord) : list string := map fst (default [] (fields claim)).

Definition carries (name : string) (claim : ClaimRecord) : bool :=
  bool_decide (name ∈ field_names claim).

Definition field_value (claim : ClaimRecord) (name : string) : option Value :=
  fields claim ≫= field_get name.

Definition field_text (claim : ClaimRecord) (name : string) : string :=
  match field_value claim name with
  | Some (Str text) => text
  | Some value => json_to_string value
  | None => ""
  end.

Definition field_str (claim : ClaimRecord) (name : string) : option string :=
  field_value claim name ≫= as_str.

Definition slot_of (claim : ClaimRecord) : option slot_key :=
  let slot extra := cr_subject claim :: cr_kind claim :: map (field_text claim) extra in
  let kind := cr_kind claim in
  if str_eqb kind "harness.observed" then
    (λ _, (HarnessObserved, slot ["incarnation_id"])) <$> field_str claim "incarnation_id"
  else if str_eqb kind "harness.timeline" then Some (NewestAged, slot ["incarnation_id"])
  else if str_eqb kind "loop.state" then Some (LoopState, slot [])
  else if str_eqb kind "subscription.mission-deferred" then Some (Deferral, slot ["request"])
  else if str_eqb kind "observer.observed" then Some (Newest, slot [])
  else if str_eqb kind "daemon.diagnostic" then Some (Newest, slot ["code"])
  else if str_eqb kind "transport.observed" then Some (Newest, slot [] ++ [cr_origin claim])
  else if bool_decide (kind ∈ ["runtime.action.requested"; "runtime.action.succeeded";
                               "runtime.action.failed"; "runtime.action.deadline-reached"])
          && is_none (cr_actor claim)
  then Some (NewestAged, slot ["action"; "incarnation_id"; "operation_status"])
  else if bool_decide (kind ∈ ["render.applied"; "runtime.readiness-deadline-reached"])
  then Some (NewestAged, slot [])
  else if str_eqb kind "harness.limits" then Some (Newest, slot [])
  else if str_eqb kind "harness.todo.observed" then Some (Newest, slot [])
  else if str_eqb kind "resource.observed" && is_none (cr_actor claim)
          && is_some_and (fields claim) (λ fs, bool_decide ("observer" ∈ map fst fs))
  then Some (Newest, slot [])
  else if str_eqb kind "harness.usage" then
    match field_str claim "semantics" with
    | None => None
    | Some semantics =>
        if str_eqb semantics "response_rollup" then
          Some (UsageSeries, slot ["incarnation_id"; "model"; "account"; "owner_run"; "owner_step"; "host"])
        else if str_eqb semantics "session_cumulative" then
          Some (UsageCumulative, slot ["semantics"; "incarnation_id"])
        else if str_eqb semantics "context_occupancy" then
          Some (Newest, slot ["semantics"; "incarnation_id"])
        else None
    end
  else None.

Definition witnessed (claim : ClaimRecord) (later : gset string) (later_claims : nat) : bool :=
  let own := field_names claim in
  ((0 <? later_claims)
   && match registry (cr_kind claim) with
      | Some spec => bool_decide (spec_cardinality spec = StateTransition)
                     && forallb (λ name, bool_decide (name ∈ spec_fields spec)) own
      | None => false
      end)
  || ((0 <? later_claims) && forallb (λ name, bool_decide (name ∈ later)) own).

(** ** What each rule keeps of a slot

    A set of positions in the slot, which lists its claims in canonical order. *)

(** [Iterator::rposition]. *)
Definition rposition {A} (p : A → bool) (l : list A) : option nat :=
  (λ i, length l - 1 - i) <$> position p (reverse l).

(** One claim of [field_carriers]'s loop, newest first: the names seen and the positions kept. *)
Definition carry_step (acc : gset string * gset nat) (entry : nat * ClaimRecord)
    : gset string * gset nat :=
  fold_left (λ '(seen, keep) name,
    if bool_decide (name ∈ seen) then (seen, keep)
    else ({[name]} ∪ seen, {[entry.1]} ∪ keep)) (field_names entry.2) acc.

Definition enumerate {A} (l : list A) : list (nat * A) := imap (λ i x, (i, x)) l.

Definition field_carriers (claims : list ClaimRecord) : gset nat :=
  (fold_left carry_step (reverse (enumerate claims)) (∅, ∅)).2.

Definition harness_state (claim : ClaimRecord) : option string := field_str claim "state".
Definition harness_ready (claim : ClaimRecord) : bool :=
  is_some_and (harness_state claim) (λ s, bool_decide (s ∈ ["ready"; "working"; "idle"])).
Definition harness_ready_without_login (claim : ClaimRecord) : bool :=
  harness_ready claim && negb (ostr_eqb (field_str claim "reason") (Some "providerAuth")).
Definition harness_other (claim : ClaimRecord) : bool :=
  is_some_and (harness_state claim) (λ s, negb (str_eqb s "working")).
Definition harness_working (claim : ClaimRecord) : bool :=
  ostr_eqb (harness_state claim) (Some "working").

(** The positions of a list that satisfy a test. *)
Definition positions {A} (p : A → bool) (l : list A) : gset nat :=
  list_to_set (map fst (List.filter (λ e, p e.2) (enumerate l))).

Definition of_option (o : option nat) : gset nat := match o with Some i => {[i]} | None => ∅ end.

Definition harness_keep (claims : list ClaimRecord) : gset nat :=
  let last_other := rposition harness_other claims in
  let after := match last_other with Some i => S i | None => 0 end in
  {[0]} ∪ {[length claims - 1]}
  ∪ of_option (position harness_ready claims)
  ∪ of_option (position harness_ready_without_login claims)
  ∪ of_option last_other
  ∪ set_map (λ offset, after + offset) (positions harness_working (drop after claims))
  ∪ ⋃ map (λ name, of_option (rposition (carries name) claims)) HARNESS_OPTIONAL_FIELDS.

Definition usage_observed_at (claim : ClaimRecord) : Z :=
  default (cr_accepted_at_unix_ms claim) (field_value claim "observed_at_unix_ms" ≫= as_u64).

(** The loop of [usage_series_keep]: the last position of each hour, and the newest before the
    window. *)
Definition usage_step (window : Z) (acc : gmap Z nat * option nat) (entry : nat * ClaimRecord)
    : gmap Z nat * option nat :=
  let at_ms := usage_observed_at entry.2 in
  if (at_ms <? window)%Z then (acc.1, Some entry.1)
  else (<[(at_ms / HOUR_MS)%Z := entry.1]> acc.1, acc.2).

(** [checked_sub(1)] of a length: the last position, if any. *)
Definition last_position {A} (l : list A) : gset nat :=
  match l with [] => ∅ | _ :: _ => {[length l - 1]} end.

Definition usage_series_keep (claims : list ClaimRecord) (cut : Z) : gset nat :=
  let '(last_of_hour, newest_before_window) :=
    fold_left (usage_step (sat_sub cut USAGE_WINDOW_MS)) (enumerate claims) (∅, None) in
  list_to_set (map snd (map_to_list last_of_hour)) ∪ of_option newest_before_window
  ∪ last_position claims.

Definition usage_total (claim : ClaimRecord) : Z :=
  default 0%Z (field_value claim "total_tokens" ≫= as_u64).

(** [Iterator::max] of a list of integers, or 0. *)
Definition max_or_zero (l : list Z) : Z :=
  match l with [] => 0 | x :: l' => fold_left Z.max l' x end%Z.

Definition usage_cumulative_keep (claims : list ClaimRecord) : gset nat :=
  let largest := max_or_zero (map usage_total claims) in
  last_position claims ∪ of_option (rposition (λ claim, (usage_total claim =? largest)%Z) claims).

Definition loop_run_key (claim : ClaimRecord) : string * string :=
  (field_text claim "status", field_text claim "round").

Definition loop_boundary (claims : list ClaimRecord) (entry : nat * ClaimRecord) : bool :=
  let key := Some (loop_run_key entry.2) in
  let neighbour i := loop_run_key <$> (claims !! i) in
  let starts := (entry.1 =? 0) || negb (bool_decide (neighbour (entry.1 - 1) = key)) in
  let ends := (entry.1 + 1 =? length claims) || negb (bool_decide (neighbour (entry.1 + 1) = key)) in
  starts || ends.

Definition loop_keep (claims : list ClaimRecord) : gset nat :=
  list_to_set (map fst (List.filter (loop_boundary claims) (enumerate claims)))
  ∪ of_option (position (carries "items") claims).

(** The positions a slot keeps, by its rule. *)
Definition rule_keep (cut : Z) (closed_requests : list (string * string)) (key : slot_key)
    (claims : list ClaimRecord) : gset nat :=
  let newest : gset nat := {[length claims - 1]} in
  match key.1 with
  | Newest | NewestAged => newest
  | HarnessObserved => harness_keep claims
  | UsageSeries => usage_series_keep claims cut
  | UsageCumulative => usage_cumulative_keep claims
  | LoopState => loop_keep claims
  | Deferral =>
      let request := default "" (last key.2) in
      if bool_decide ((default "" (head key.2), request) ∈ closed_requests) then newest
      else list_to_set (seq 0 (length claims))
  end
  ∪ (if bool_decide (key.1 = LoopState) then ∅ else field_carriers claims).

(** ** [plan_drops] *)

Definition sealed_ids (sealed : SealedSet) : list string := map (λ c, cr_id (sl_claim c)) (ss_claims sealed).

(** [occurrences]: how many envelopes hold a claim. *)
Definition occurrences (sealed : SealedSet) (id : string) : nat :=
  length (List.filter (str_eqb id) (sealed_ids sealed)).

(** The first occurrence of each claim, in order. *)
Definition first_occurrences (sealed : SealedSet) : list nat :=
  map fst (List.filter (λ e, negb (bool_decide (cr_id (sl_claim e.2) ∈ take e.1 (sealed_ids sealed))))
             (enumerate (ss_claims sealed))).

Definition claim_at (sealed : SealedSet) (i : nat) : option ClaimRecord :=
  sl_claim <$> (ss_claims sealed !! i).

Definition slots_of (sealed : SealedSet) : list (slot_key * list nat) :=
  bt_group slot_compare (λ i, claim_at sealed i ≫= slot_of) (first_occurrences sealed).

Definition closed_requests (sealed : SealedSet) : list (string * string) :=
  omap (λ c, let claim := sl_claim c in
             if bool_decide (cr_kind claim ∈ REQUEST_CLOSERS)
             then (λ request, (cr_subject claim, request)) <$> field_str claim "request"
             else None) (ss_claims sealed).

Definition slot_claims (sealed : SealedSet) (members : list nat) : list ClaimRecord :=
  omap (claim_at sealed) members.

Definition old_enough (cut : Z) (rule : Rule) (claim : ClaimRecord) : bool :=
  negb (bool_decide (rule = NewestAged))
  || (cr_accepted_at_unix_ms claim <? sat_sub cut LOCAL_KIND_MIN_AGE_MS)%Z.

(** The drops one slot's rule marks. *)
Definition mark_slot (sealed : SealedSet) (dropped : list bool) (slot : slot_key * list nat)
    : list bool :=
  let cut := ss_cut_unix_ms sealed in
  let keep := rule_keep cut (closed_requests sealed) slot.1 (slot_claims sealed slot.2) in
  fold_left (λ dropped e,
    if negb (bool_decide (e.1 ∈ keep))
       && is_some_and (claim_at sealed e.2) (old_enough cut slot.1.1)
    then <[e.2 := true]> dropped else dropped) (enumerate slot.2) dropped.

(** The claims others read by ID: cited as evidence, or pinned as a mission run's input. *)
Definition cited (sealed : SealedSet) : list string :=
  flat_map (λ c,
    let body := cr_body (sl_claim c) in
    omap as_str (default [] (get "evidence" body ≫= as_array))
    ++ (if str_eqb (cr_kind (sl_claim c)) "mission-run.created"
        then match pointer2 "fields" "inputs" body with
             | Some (Object inputs) => omap (λ i, get "claim_id" i.2 ≫= as_str) inputs
             | _ => []
             end
        else [])) (ss_claims sealed).

(** [newest_envelope]: each writer's greatest sequence. *)
Definition newest_envelope (sealed : SealedSet) : gmap string Z :=
  fold_left (λ newest e,
    <[ek_writer (se_key e) := Z.max (default 0%Z (newest !! ek_writer (se_key e)))
                                 (ek_sequence (se_key e))]> newest) (ss_envelopes sealed) ∅.

Definition guarded (sealed : SealedSet) (c : SealedClaim) : bool :=
  let claim := sl_claim c in
  is_some_and (cr_actor claim) (starts_with "person/")
  || negb (is_some_and (registry (cr_kind claim))
             (λ spec, bool_decide (spec_cardinality spec = Append)
                      || bool_decide (spec_cardinality spec = StateTransition)))
  || negb (sl_valid c)
  || sl_protected c
  || (1 <? occurrences sealed (cr_id claim))
  || bool_decide (cr_id claim ∈ cited sealed)
  || bool_decide (newest_envelope sealed !! ek_writer (sl_envelope c) = Some (ek_sequence (sl_envelope c))).

Definition guard_drops (sealed : SealedSet) (dropped : list bool) : list bool :=
  fold_left (λ dropped e, if guarded sealed e.2 then <[e.1 := false]> dropped else dropped)
    (enumerate (ss_claims sealed)) dropped.

Definition is_dropped (dropped : list bool) (i : nat) : bool := default false (dropped !! i).

(** The newest-first walk of one slot: unwitnessed drops are kept back. *)
Fixpoint witness_slot (sealed : SealedSet) (members : list nat) (later : gset string)
    (later_claims : nat) (dropped : list bool) (changed : bool) : list bool * bool :=
  match members with
  | [] => (dropped, changed)
  | i :: rest =>
      match claim_at sealed i with
      | None => witness_slot sealed rest later later_claims dropped changed
      | Some claim =>
          let keep_back := is_dropped dropped i && negb (witnessed claim later later_claims) in
          let dropped' := if keep_back then <[i := false]> dropped else dropped in
          let changed' := changed || keep_back in
          if is_dropped dropped' i
          then witness_slot sealed rest later later_claims dropped' changed'
          else witness_slot sealed rest (list_to_set (field_names claim) ∪ later) (S later_claims)
                 dropped' changed'
      end
  end.

Definition keep_all (members : list nat) (dropped : list bool) : list bool :=
  fold_left (λ dropped i, <[i := false]> dropped) members dropped.

(** A group that may be dropped only whole. *)
Definition whole_group (acc : list bool * bool) (members : list nat) : list bool * bool :=
  let '(dropped, changed) := acc in
  if existsb (is_dropped dropped) members && existsb (λ i, negb (is_dropped dropped i)) members
  then (keep_all members dropped, true) else acc.

(** An envelope with records that are not among the sealed claims is not dropped. *)
Definition whole_records (records : EnvelopeKey → option nat) (acc : list bool * bool)
    (entry : EnvelopeKey * list nat) : list bool * bool :=
  let '(dropped, changed) := acc in
  if negb (bool_decide (records entry.1 = Some (length entry.2)))
     && existsb (is_dropped dropped) entry.2
  then (keep_all entry.2 dropped, true) else acc.

Definition operations_of (sealed : SealedSet) : list (string * list nat) :=
  bt_group String.compare (λ i, claim_at sealed i ≫= cr_operation_id)
    (seq 0 (length (ss_claims sealed))).

Definition envelope_claims_of (sealed : SealedSet) : list (EnvelopeKey * list nat) :=
  bt_group EnvelopeKey_compare (λ i, sl_envelope <$> (ss_claims sealed !! i))
    (seq 0 (length (ss_claims sealed))).

(** Collecting into a map keeps the last value of a key. *)
Definition records_of (sealed : SealedSet) (key : EnvelopeKey) : option nat :=
  se_records <$> last (List.filter (λ e, bool_decide (se_key e = key)) (ss_envelopes sealed)).

(** One turn of the loop: what is dropped after it, and whether it kept anything back. *)
Definition sweep (sealed : SealedSet) (dropped : list bool) : list bool * bool :=
  let witness acc slot := witness_slot sealed (reverse slot.2) ∅ 0 acc.1 acc.2 in
  let acc := fold_left witness (slots_of sealed) (dropped, false) in
  let acc := fold_left whole_group
               (map snd (operations_of sealed) ++ map snd (envelope_claims_of sealed)) acc in
  fold_left (whole_records (records_of sealed)) (envelope_claims_of sealed) acc.

(** The loop, with the turns it may take. *)
Fixpoint settle (turns : nat) (sealed : SealedSet) (dropped : list bool) : list bool :=
  match turns with
  | O => dropped
  | S turns' =>
      let '(dropped', changed) := sweep sealed dropped in
      if changed then settle turns' sealed dropped' else dropped'
  end.

(** What the rules and the guards drop before the loop, and what is dropped after it. *)
Definition marked_drops (sealed : SealedSet) : list bool :=
  guard_drops sealed
    (fold_left (mark_slot sealed) (slots_of sealed) (replicate (length (ss_claims sealed)) false)).

Definition final_drops (sealed : SealedSet) : list bool :=
  settle (S (length (ss_claims sealed))) sealed (marked_drops sealed).

Definition count_kind (dropped : list bool) (sealed : SealedSet) (counts : list (string * DropCount))
    (i : nat) : list (string * DropCount) :=
  match claim_at sealed i with
  | None => counts
  | Some claim =>
      bt_update String.compare (cr_kind claim) (λ o,
        let c := default (mkDropCount 0 0) o in
        mkDropCount (S (dc_sealed c)) (if is_dropped dropped i then S (dc_dropped c) else dc_dropped c))
        counts
  end.

Definition rules_digest : string :=
  hex (sha256 (bytes_of "st3-checkpoint-rules-v1" ++ nul_byte
               :: be_bytes 4 RULES_VERSION ++ bytes_of RULES_DESCRIPTION)).

Definition plan_drops (sealed : SealedSet) : DropPlan :=
  let dropped := final_drops sealed in
  let first := first_occurrences sealed in
  let dropped_envelopes :=
    map fst (List.filter (λ e, forallb (is_dropped dropped) e.2) (envelope_claims_of sealed)) in
  let envelopes :=
    bt_set EnvelopeTombstone_compare
      (map (λ e, mkEnvelopeTombstone (ek_writer (se_key e)) (ek_sequence (se_key e))
                   (ek_envelope_hash (se_key e)) (se_accepted_at_unix_ms e))
         (List.filter (λ e, bool_decide (se_key e ∈ dropped_envelopes)) (ss_envelopes sealed))) in
  let tombstones :=
    bt_set ClaimTombstone_compare
      (omap (λ i, claim_tombstone <$> (ss_claims sealed !! i))
         (List.filter (is_dropped dropped) first)) in
  let retained :=
    omap (λ i, cr_id <$> claim_at sealed i) (List.filter (λ i, negb (is_dropped dropped i)) first) in
  mkDropPlan (ss_cut_unix_ms sealed) rules_digest (length (ss_envelopes sealed))
    (length first) (sealed_digest sha256 hex sealed) envelopes tombstones
    (List.filter (λ e, 0 <? dc_dropped e.2) (fold_left (count_kind dropped sealed) first []))
    (drop_digest sha256 hex (ss_envelope_tombstones sealed ++ envelopes)
       (ss_claim_tombstones sealed ++ tombstones))
    (retained_digest sha256 hex (bt_set String.compare retained)).
End plan.

(** ** Keeping back only ever removes drops *)

Definition drop_count (dropped : list bool) : nat := length (List.filter id dropped).
#[local] Arguments drop_count : simpl never.

Definition fewer_drops (d' d : list bool) : Prop :=
  length d' = length d ∧ ∀ i, is_dropped d' i = true → is_dropped d i = true.

Lemma is_dropped_insert d i j b :
  is_dropped (<[i := b]> d) j = if decide (i = j) then (if decide (i < length d) then b else false)
                                else is_dropped d j.
Proof.
  unfold is_dropped. case_decide as E; [subst|by rewrite list_lookup_insert_ne].
  case_decide as Hl; [by rewrite list_lookup_insert_eq|].
  rewrite lookup_ge_None_2; [done|]. rewrite length_insert. lia.
Qed.

Lemma fewer_drops_refl d : fewer_drops d d.
Proof. by split. Qed.
Lemma fewer_drops_trans a b c : fewer_drops a b → fewer_drops b c → fewer_drops a c.
Proof. intros [E H] [E' H']. split; [congruence|auto]. Qed.
Lemma fewer_drops_keep i d : fewer_drops (<[i := false]> d) d.
Proof.
  split; [by rewrite length_insert|]. intros j. rewrite is_dropped_insert.
  case_decide; [by case_decide|done].
Qed.

Lemma drop_count_keep i d :
  is_dropped d i = true → drop_count d = S (drop_count (<[i := false]> d)).
Proof.
  unfold drop_count, is_dropped. revert i. induction d as [|b d IH]; intros [|i]; simpl; try done.
  - by intros ->.
  - intros Hi. specialize (IH i Hi). destruct b; simpl; lia.
Qed.

Lemma drop_count_le d' d : fewer_drops d' d → drop_count d' ≤ drop_count d.
Proof.
  unfold drop_count. revert d. induction d' as [|b d' IH]; intros [|c d] [E H]; simpl in *; try lia.
  assert (fewer_drops d' d) as Hd.
  { split; [lia|]. intros i. apply (H (S i)). }
  specialize (IH d Hd). specialize (H 0). unfold is_dropped in H. simpl in H.
  destruct b, c; simpl; lia.
Qed.

(** A step of the loop leaves everything alone, or keeps something back and says so. *)
Definition keeps_back (acc acc' : list bool * bool) : Prop :=
  fewer_drops acc'.1 acc.1 ∧
  (acc' = acc ∨ (acc'.2 = true ∧ drop_count acc'.1 < drop_count acc.1)).

Lemma keeps_back_refl acc : keeps_back acc acc.
Proof. split; [apply fewer_drops_refl|by left]. Qed.
Lemma keeps_back_trans a b c : keeps_back a b → keeps_back b c → keeps_back a c.
Proof.
  intros [H1 H2] [H3 H4]. pose proof (drop_count_le _ _ H3). split; [by eapply fewer_drops_trans|].
  destruct H2 as [->|[? ?]]; [done|]. right. destruct H4 as [->|[? ?]]; [done|]. split; [done|lia].
Qed.

Lemma keeps_back_fold {A} (f : list bool * bool → A → list bool * bool) l acc :
  (∀ acc x, keeps_back acc (f acc x)) → keeps_back acc (fold_left f l acc).
Proof.
  intros Hf. revert acc. induction l as [|x l IH]; intros acc; simpl; [apply keeps_back_refl|].
  eapply keeps_back_trans; [apply Hf|apply IH].
Qed.

(** A pass that ends where it started changed nothing on the way. *)
Lemma keeps_back_unchanged a b c : keeps_back a b → keeps_back b c → c = a → b = a.
Proof.
  intros [_ [->|[_ Hlt]]] [Hf _] ->; [done|]. apply drop_count_le in Hf. lia.
Qed.

Lemma fold_unchanged {A} (f : list bool * bool → A → list bool * bool) l acc :
  (∀ acc x, keeps_back acc (f acc x)) → fold_left f l acc = acc → ∀ x, x ∈ l → f acc x = acc.
Proof.
  intros Hf. revert acc. induction l as [|y l IH]; intros acc; simpl.
  - intros _ x Hx. by apply elem_of_nil in Hx.
  - intros E x Hx. assert (Ey : f acc y = acc).
    { eapply keeps_back_unchanged; [apply Hf|apply (keeps_back_fold f l), Hf|done]. }
    rewrite Ey in E. apply elem_of_cons in Hx as [->|Hx]; [done|]. by apply IH.
Qed.

Lemma keep_all_fewer members d : fewer_drops (keep_all members d) d.
Proof.
  unfold keep_all. revert d. induction members as [|i ms IH]; intros d; simpl; [apply fewer_drops_refl|].
  eapply fewer_drops_trans; [apply IH|apply fewer_drops_keep].
Qed.

Lemma keep_all_count members d :
  existsb (is_dropped d) members = true → drop_count (keep_all members d) < drop_count d.
Proof.
  intros (i & Hi & Hd)%existsb_true_elem. unfold keep_all. revert d Hd.
  induction members as [|j ms IH]; intros d Hd; simpl; [by apply elem_of_nil in Hi|].
  destruct (is_dropped d j) eqn:Hj.
  - pose proof (drop_count_keep j d Hj). pose proof (drop_count_le _ _ (keep_all_fewer ms (<[j:=false]> d))).
    unfold keep_all in *. lia.
  - apply elem_of_cons in Hi as [->|Hi]; [congruence|].
    assert (E : <[j := false]> d = d).
    { apply list_eq. intros k. destruct (decide (j = k)) as [->|Hne]; [|by rewrite list_lookup_insert_ne].
      destruct (d !! k) as [b|] eqn:Hk.
      - rewrite list_lookup_insert_eq by by eapply lookup_lt_Some. unfold is_dropped in Hj.
        rewrite Hk in Hj. simpl in Hj. by subst.
      - apply lookup_ge_None_2. rewrite length_insert. by apply lookup_ge_None. }
    rewrite E. by apply IH.
Qed.

Section settling.
Context `{NumberApi}.
Context (registry : string → option ClaimSpec) (json_to_string : Value → string).
Context (sealed : SealedSet).

(** ** The loop ends, at a set of drops it would leave alone *)

Lemma witness_slot_keeps_back members later n d changed :
  keeps_back (d, changed) (witness_slot registry sealed members later n d changed).
Proof.
  revert later n d changed. induction members as [|i ms IH]; intros later n d changed;
    cbn -[witnessed]; [apply keeps_back_refl|].
  destruct (claim_at sealed i) as [claim|]; [|apply IH].
  destruct (is_dropped d i && negb (witnessed registry claim later n)) eqn:E; cbn -[witnessed].
  - apply andb_prop in E as [Hd _].
    assert (keeps_back (d, changed) (<[i := false]> d, changed || true)) as Hk.
    { split; [apply fewer_drops_keep|]. right. rewrite orb_true_r. split; [done|]. cbn.
      rewrite (drop_count_keep i d Hd). lia. }
    destruct (is_dropped (<[i := false]> d) i); (eapply keeps_back_trans; [exact Hk|apply IH]).
  - rewrite orb_false_r. by destruct (is_dropped d i).
Qed.

Lemma keep_all_keeps_back members d changed :
  existsb (is_dropped d) members = true → keeps_back (d, changed) (keep_all members d, true).
Proof.
  intros Hd. split; [apply keep_all_fewer|]. right. split; [done|]. by apply keep_all_count.
Qed.

Lemma whole_group_keeps_back acc members : keeps_back acc (whole_group acc members).
Proof.
  destruct acc as [d changed]. unfold whole_group. destruct (_ && _) eqn:E; [|apply keeps_back_refl].
  apply andb_prop in E as [Hd _]. by apply keep_all_keeps_back.
Qed.

Lemma whole_records_keeps_back records acc entry : keeps_back acc (whole_records records acc entry).
Proof.
  destruct acc as [d changed]. unfold whole_records. destruct (_ && _) eqn:E; [|apply keeps_back_refl].
  apply andb_prop in E as [_ Hd]. by apply keep_all_keeps_back.
Qed.

Lemma sweep_keeps_back d : keeps_back (d, false) (sweep registry json_to_string sealed d).
Proof.
  unfold sweep. cbv zeta.
  eapply keeps_back_trans; [|apply keeps_back_fold; intros; apply whole_records_keeps_back].
  eapply keeps_back_trans; [|apply keeps_back_fold, whole_group_keeps_back].
  apply (keeps_back_fold (λ (acc : list bool * bool) (slot : slot_key * list nat),
    witness_slot registry sealed (reverse slot.2) ∅ 0 acc.1 acc.2)).
  intros [d' changed] slot. apply witness_slot_keeps_back.
Qed.

(** A turn of the loop would change nothing. *)
Definition settled (d : list bool) : Prop := sweep registry json_to_string sealed d = (d, false).

Lemma settle_settled turns d :
  drop_count d < turns →
  settled (settle registry json_to_string turns sealed d)
  ∧ fewer_drops (settle registry json_to_string turns sealed d) d.
Proof.
  revert d. induction turns as [|turns IH]; intros d Hd; [lia|]. simpl.
  destruct (sweep registry json_to_string sealed d) as [d' changed] eqn:E.
  destruct (sweep_keeps_back d) as [Hf Hc]. rewrite E in Hf, Hc. simpl in *.
  destruct changed.
  - destruct Hc as [[=]|[_ Hlt]]. destruct (IH d') as [Hs Hf']; [lia|].
    split; [done|]. by eapply fewer_drops_trans.
  - destruct Hc as [[= ->]|[[=] _]]. split; [done|apply fewer_drops_refl].
Qed.

(** More turns than there are drops come to the same end. *)
Lemma settle_turns turns turns' d : drop_count d < turns → drop_count d < turns' →
  settle registry json_to_string turns sealed d = settle registry json_to_string turns' sealed d.
Proof.
  revert turns' d. induction turns as [|turns IH]; intros [|turns'] d Ht Ht'; [lia..|]. simpl.
  pose proof (sweep_keeps_back d) as [_ Hc].
  destruct (sweep registry json_to_string sealed d) as [d' []]; [|done].
  destruct Hc as [[=]|[_ Hlt]]. simpl in Hlt. apply IH; lia.
Qed.

(** What a turn that changes nothing says of each of its three passes. *)
Lemma settled_passes d : settled d →
  (∀ slot, slot ∈ slots_of json_to_string sealed →
     witness_slot registry sealed (reverse slot.2) ∅ 0 d false = (d, false)) ∧
  (∀ members, members ∈ map snd (operations_of sealed) ++ map snd (envelope_claims_of sealed) →
     whole_group (d, false) members = (d, false)) ∧
  (∀ entry, entry ∈ envelope_claims_of sealed →
     whole_records (records_of sealed) (d, false) entry = (d, false)).
Proof.
  intros Hs. unfold settled, sweep in Hs. cbv zeta in Hs.
  set (witness := λ (acc : list bool * bool) (slot : slot_key * list nat),
         witness_slot registry sealed (reverse slot.2) ∅ 0 acc.1 acc.2) in *.
  assert (Hw : ∀ acc slot, keeps_back acc (witness acc slot)).
  { intros [d' c] slot. apply witness_slot_keeps_back. }
  set (a := fold_left witness _ _) in *. set (b := fold_left whole_group _ _) in *.
  assert (Ha : keeps_back (d, false) a) by by apply keeps_back_fold.
  assert (Hb : keeps_back a b) by apply keeps_back_fold, whole_group_keeps_back.
  assert (Hc : ∀ acc, keeps_back acc (fold_left (whole_records (records_of sealed)) (envelope_claims_of sealed) acc)).
  { intros acc. apply keeps_back_fold. intros. apply whole_records_keeps_back. }
  assert (Ea : a = (d, false)).
  { eapply keeps_back_unchanged; [done| |exact Hs]. eapply keeps_back_trans; [done|apply Hc]. }
  assert (Eb : b = (d, false)).
  { rewrite Ea in Hb. eapply keeps_back_unchanged; [done|apply Hc|exact Hs]. }
  rewrite Eb in Hs. unfold b in Eb. rewrite Ea in Eb. repeat split; intros.
  - by apply (fold_unchanged witness (slots_of json_to_string sealed) (d, false) Hw Ea slot).
  - by eapply fold_unchanged; [apply whole_group_keeps_back|apply Eb|].
  - eapply fold_unchanged; [|apply Hs|done]. intros. apply whole_records_keeps_back.
Qed.

(** A group that may be dropped only whole is. *)
Lemma whole_group_settled d members : whole_group (d, false) members = (d, false) →
  ∀ i j, i ∈ members → j ∈ members → is_dropped d i = is_dropped d j.
Proof.
  unfold whole_group. destruct (_ && _) eqn:E; [by intros [=]|]. intros _ i j Hi Hj.
  apply andb_false_iff in E.
  assert (∀ i j, i ∈ members → j ∈ members → is_dropped d i = true → is_dropped d j = true) as Hall.
  { intros i' j' Hi' Hj' Hd. destruct E as [E|E]; rewrite existsb_false_elem in E.
    - specialize (E i' Hi'). congruence.
    - specialize (E j' Hj'). by destruct (is_dropped d j'). }
  destruct (is_dropped d i) eqn:Ei, (is_dropped d j) eqn:Ej; try done.
  - rewrite (Hall i j) in Ej; done.
  - rewrite (Hall j i) in Ei; done.
Qed.

(** ** Every drop is replaced by newer claims that stay *)

(** A claim that any later claim of its kind clears. *)
Definition cleared (claim : ClaimRecord) : Prop :=
  ∃ spec, registry (cr_kind claim) = Some spec ∧ spec_cardinality spec = StateTransition
          ∧ ∀ name, name ∈ field_names claim → name ∈ spec_fields spec.

Definition replaced_by (claim : ClaimRecord) (newer : list ClaimRecord) : Prop :=
  newer ≠ [] ∧
  (cleared claim ∨ ∀ name, name ∈ field_names claim → ∃ c, c ∈ newer ∧ name ∈ field_names c).

Lemma forallb_in {A} (p : A → bool) l : forallb p l = true ↔ ∀ x, x ∈ l → p x = true.
Proof.
  rewrite forallb_forall. split; intros Hp x Hx; apply Hp; by apply list_elem_of_In.
Qed.

Lemma witnessed_replaced claim later newer :
  (∀ name, name ∈ later → ∃ c, c ∈ newer ∧ name ∈ field_names c) →
  witnessed registry claim later (length newer) = true → replaced_by claim newer.
Proof.
  intros Hl Hw. unfold witnessed in Hw. apply orb_prop in Hw as [Hw|Hw];
    apply andb_prop in Hw as [Hn Hw]; (split; [by destruct newer|]).
  - left. destruct (registry (cr_kind claim)) as [spec|] eqn:Er; [|done]. exists spec.
    apply andb_prop in Hw as [Hc%bool_decide_eq_true Hw]. repeat split; [done..|].
    rewrite forallb_in in Hw. intros name Hname. by apply Hw in Hname as ?%bool_decide_eq_true.
  - right. rewrite forallb_in in Hw. intros name Hname.
    apply Hl. by apply Hw in Hname as ?%bool_decide_eq_true.
Qed.

Lemma replaced_by_incl claim newer newer' :
  (∀ c, c ∈ newer → c ∈ newer') → replaced_by claim newer → replaced_by claim newer'.
Proof.
  intros Hin [Hne Hr]. split.
  - destruct newer as [|c newer]; [done|]. intros ->. eapply elem_of_nil, Hin. left.
  - destruct Hr as [?|Hr]; [by left|]. right. intros name Hname.
    destruct (Hr name Hname) as (c & Hc & ?). eauto.
Qed.

Definition kept (d : list bool) (i : nat) : bool := negb (is_dropped d i).

(** Newest first: each dropped claim of a settled slot is replaced by the kept ones before it. *)
Lemma witness_slot_settled d ms later newer :
  (∀ name, name ∈ later → ∃ c, c ∈ newer ∧ name ∈ field_names c) →
  witness_slot registry sealed ms later (length newer) d false = (d, false) →
  ∀ pre i post claim, ms = pre ++ i :: post → claim_at sealed i = Some claim →
    is_dropped d i = true →
    replaced_by claim (slot_claims sealed (List.filter (kept d) pre) ++ newer).
Proof.
  revert later newer. induction ms as [|j ms IH]; intros later newer Hl Hw pre i post claim Hms Hi Hd;
    [by destruct pre|].
  cbn -[witnessed] in Hw.
  assert (Hback : is_dropped d j && negb (match claim_at sealed j with
            Some c => witnessed registry c later (length newer) | None => true end) = false
          ∧ witness_slot registry sealed ms
              (if is_dropped d j then later else match claim_at sealed j with
                 Some c => list_to_set (field_names c) ∪ later | None => later end)
              (length (slot_claims sealed (List.filter (kept d) [j]) ++ newer)) d false = (d, false)).
  { unfold kept. cbn -[witnessed]. destruct (claim_at sealed j) as [c|] eqn:Hj.
    - destruct (is_dropped d j && negb (witnessed registry c later (length newer))) eqn:E;
        cbn -[witnessed] in Hw.
      + exfalso. apply andb_prop in E as [E _]. destruct (is_dropped (<[j:=false]> d) j).
        * destruct (witness_slot_keeps_back ms later (length newer) (<[j:=false]> d) true) as [Hf _].
          rewrite Hw in Hf. apply drop_count_le in Hf. cbn in Hf. rewrite (drop_count_keep j d E) in Hf. lia.
        * destruct (witness_slot_keeps_back ms (list_to_set (field_names c) ∪ later)
                      (S (length newer)) (<[j:=false]> d) true) as [Hf _].
          rewrite Hw in Hf. apply drop_count_le in Hf. cbn in Hf. rewrite (drop_count_keep j d E) in Hf. lia.
      + split; [done|]. destruct (is_dropped d j); cbn; [done|].
        unfold slot_claims. cbn. by rewrite Hj.
    - split; [by rewrite andb_false_r|]. destruct (is_dropped d j); cbn; [done|].
      unfold slot_claims. cbn. by rewrite Hj. }
  clear Hw. destruct Hback as [Hb Hw]. destruct pre as [|j' pre]; injection Hms as <- ->.
  - rewrite Hi, Hd in Hb. cbn -[witnessed] in Hb. apply negb_false_iff in Hb.
    by apply (witnessed_replaced _ later).
  - eapply (replaced_by_incl _ (slot_claims sealed (List.filter (kept d) pre)
              ++ slot_claims sealed (List.filter (kept d) [j]) ++ newer)).
    { intros c. change (j :: pre) with ([j] ++ pre). unfold slot_claims.
      rewrite List.filter_app, omap_app, !elem_of_app. tauto. }
    eapply IH; [|exact Hw|done..]. intros name. unfold kept, slot_claims. cbn.
    destruct (is_dropped d j); cbn; [by apply Hl|].
    destruct (claim_at sealed j) as [c|]; cbn; [|by apply Hl].
    rewrite elem_of_union, elem_of_list_to_set. intros [Hn|Hn%Hl]; [exists c; split; [left|done]|].
    destruct Hn as (c' & ? & ?). exists c'. split; [by right|done].
Qed.
End settling.

Section final.
Context `{NumberApi}.
Context (registry : string → option ClaimSpec) (json_to_string : Value → string).
Context (sealed : SealedSet).

Lemma length_fold_insert {A} (f : list bool → A → list bool) l d :
  (∀ d e, length (f d e) = length d) → length (fold_left f l d) = length d.
Proof.
  intros Hf. revert d. induction l as [|e l IH]; intros d; simpl; [done|]. by rewrite IH.
Qed.

Lemma length_marked_drops :
  length (marked_drops registry json_to_string sealed) = length (ss_claims sealed).
Proof.
  unfold marked_drops, guard_drops.
  rewrite length_fold_insert by (intros; case_match; rewrite ?length_insert; done).
  rewrite length_fold_insert; [apply length_replicate|]. intros d slot. unfold mark_slot.
  apply length_fold_insert. intros. case_match; rewrite ?length_insert; done.
Qed.

Lemma final_drops_settled :
  settled registry json_to_string sealed (final_drops registry json_to_string sealed)
  ∧ fewer_drops (final_drops registry json_to_string sealed) (marked_drops registry json_to_string sealed).
Proof.
  apply settle_settled. rewrite <- length_marked_drops. unfold drop_count.
  pose proof (filter_length_le id (marked_drops registry json_to_string sealed)). lia.
Qed.
End final.

(** ** The loop ends *)

Section loop.
Context `{NumberApi}.
Context (registry : string → option ClaimSpec) (json_to_string : Value → string).

(** The loop of [plan_drops] ends: with any number of turns above the number of sealed claims it
    comes to the same drops, and another turn would change nothing. *)
Theorem plan_loop_ends sealed turns :
  length (ss_claims sealed) < turns →
  settle registry json_to_string turns sealed (marked_drops registry json_to_string sealed)
  = final_drops registry json_to_string sealed
  ∧ sweep registry json_to_string sealed (final_drops registry json_to_string sealed)
    = (final_drops registry json_to_string sealed, false).
Proof.
  intros Hturns. split; [|apply final_drops_settled]. unfold final_drops.
  pose proof (filter_length_le id (marked_drops registry json_to_string sealed)) as Hle.
  rewrite length_marked_drops in Hle. apply settle_turns; unfold drop_count; lia.
Qed.
End loop.

(** *** Three observations of one subject by one writer: the newest stays, the two before it are
    dropped. *)

Section witnesses.
#[local] Existing Instance integer_numbers.

Definition example_registry (kind : string) : option ClaimSpec :=
  if str_eqb kind "observer.observed" then Some (mkClaimSpec Append {["state"]}) else None.

Definition example_text (v : Value) : string := "".

Definition observation (n : Z) (id state : string) : SealedClaim :=
  mkSealedClaim
    (mkClaimRecord id n "b" "observer/a" "observer.observed" "amy" None None None
       (Object [("fields", Object [("state", Str state)])]) [] n)
    (mkEnvelopeKey "amy" n "h") true false.

Definition example_sealed : SealedSet :=
  mkSealedSet DAY_MS
    [mkSealedEnvelope (mkEnvelopeKey "amy" 1 "h") 1 1; mkSealedEnvelope (mkEnvelopeKey "amy" 2 "h") 2 1;
     mkSealedEnvelope (mkEnvelopeKey "amy" 3 "h") 3 1]
    [observation 1 "c1" "up"; observation 2 "c2" "down"; observation 3 "c3" "up"] 3 [] [].

Lemma plan_loop_ends_witness :
  settle example_registry example_text 9 example_sealed
    (marked_drops example_registry example_text example_sealed) = [true; true; false].
Proof.
  rewrite (proj1 (plan_loop_ends example_registry example_text example_sealed 9 ltac:(vm_compute; lia))).
  vm_compute. reflexivity.
Defined.
End witnesses.
