(* ===== verification/CheckpointReaders.v ===== *)
(** * What a checkpoint's drops leave unchanged

    The drops [plan_drops] decides ([crates/st3/src/store/checkpoint_rules.rs]), and the answers
    [subject_answers] of the same file compares before and after them. First which claims can be
    dropped at all, then that every answer read from the claims that stay is the answer read from
    all of them. *)

From Stdlib Require Import Ascii.
From S2P Require Import Prelude StableSort Text Json Bytes Order BTree Framing Claim Hash Checkpoint CheckpointPlan.

(** ** Reading the claims of a subject *)

Section answers.
Context `{NumberApi}.
Context (json_to_string : Value → string).

(** [claims_of_kind_in_order]: the rows of a subject and kind, in canonical order. *)
Definition of_kind (subject kind : string) (claims : list ClaimRecord) : list ClaimRecord :=
  List.filter (λ c, str_eqb (cr_subject c) subject && str_eqb (cr_kind c) kind) claims.

Definition latest_answer (subject kind : string) (claims : list ClaimRecord) : option string :=
  cr_id <$> last (of_kind subject kind claims).

Record HarnessAnswer := mkHarnessAnswer {
  ha_ready : bool;
  ha_ready_without_login : bool;
  ha_working_since : option Z
}.

(** [rposition(..).map_or(0, |position| position + 1)]. *)
Definition after_last {A} (p : A → bool) (l : list A) : nat :=
  match rposition p l with Some i => S i | None => 0 end.

Definition harness_answer (claims : list ClaimRecord) : HarnessAnswer :=
  mkHarnessAnswer (existsb harness_ready claims) (existsb harness_ready_without_login claims)
    (cr_accepted_at_unix_ms
       <$> List.find harness_working (drop (after_last harness_other claims) claims)).

Definition incarnation_answer (subject incarnation : string) (claims : list ClaimRecord)
    : HarnessAnswer :=
  harness_answer (List.filter (λ c, ostr_eqb (field_str c "incarnation_id") (Some incarnation))
                    (of_kind subject "harness.observed" claims)).

Definition loop_answer (subject : string) (claims : list ClaimRecord)
    : option Value * option Value :=
  let claims := of_kind subject "loop.state" claims in
  (cr_body <$> last claims, cr_body <$> List.find (carries "items") claims).

Definition deferral_answer (subject request : string) (claims : list ClaimRecord)
    : nat * option string :=
  let own := List.filter (λ c, ostr_eqb (field_str c "request") (Some request))
               (of_kind subject "subscription.mission-deferred" claims) in
  (length own, (λ c, field_text json_to_string c "not_before_unix_ms") <$> last own).

(** The session reading of [usage_summary_from_rows]: a claim without a total is passed over, and
    one at least as large replaces the reading. *)
Definition cumulative_total (claim : ClaimRecord) : option Z :=
  field_value claim "total_tokens" ≫= as_u64.

Definition cumulative_step (reading : option ClaimRecord) (claim : ClaimRecord)
    : option ClaimRecord :=
  match cumulative_total claim with
  | None => reading
  | Some total =>
      if is_none_or reading (λ current, (default 0 (cumulative_total current) <=? total)%Z)
      then Some claim else reading
  end.

Definition cumulative_reading (claims : list ClaimRecord) : option ClaimRecord :=
  fold_left cumulative_step claims None.

(** The newest value of a field, as a last-writer-wins fold reads it. *)
Definition newest_field (name : string) (claims : list ClaimRecord) : option Value :=
  List.find (carries name) (reverse claims) ≫= (λ c, field_value c name).

(** The claims of one slot. *)
Definition of_slot (key : slot_key) (claims : list ClaimRecord) : list ClaimRecord :=
  List.filter (λ c, bool_decide (slot_of json_to_string c = Some key)) claims.
End answers.

(** ** Positions, searches and filters *)

Section lists.
Context {A : Type}.
Implicit Types (p q k : A → bool) (l : list A).

Lemma find_filter_kept q k l :
  (∀ x, List.find q l = Some x → k x = true) → List.find q (List.filter k l) = List.find q l.
Proof.
  induction l as [|x l IH]; simpl; [done|]. intros Hk. destruct (q x) eqn:Hq.
  - rewrite (Hk x eq_refl). simpl. by rewrite Hq.
  - destruct (k x); simpl; [rewrite Hq|]; by apply IH.
Qed.

Lemma find_position q l x :
  List.find q l = Some x → ∃ i, position q l = Some i ∧ l !! i = Some x.
Proof.
  induction l as [|y l IH]; simpl; [done|]. destruct (q y).
  - intros [= ->]. by exists 0.
  - intros (i & -> & Hx)%IH. by exists (S i).
Qed.

Lemma lfilter_reverse k l : List.filter k (reverse l) = reverse (List.filter k l).
Proof.
  induction l as [|x l IH]; simpl; [done|]. rewrite reverse_cons, List.filter_app, IH. simpl.
  destruct (k x); [by rewrite reverse_cons|by rewrite app_nil_r].
Qed.

Lemma last_find l : last l = List.find (λ _, true) (reverse l).
Proof. rewrite <- head_reverse. by destruct (reverse l). Qed.

Lemma existsb_find q l : existsb q l = is_some (List.find q l).
Proof. induction l as [|x l IH]; simpl; [done|]. by destruct (q x). Qed.

Lemma find_app_none q l l' :
  (∀ x, x ∈ l → q x = false) → List.find q (l ++ l') = List.find q l'.
Proof.
  induction l as [|x l IH]; simpl; [done|]. intros Hq. rewrite (Hq x) by left. apply IH.
  intros y Hy. apply Hq. by right.
Qed.

(** The last position that satisfies a test splits the list. *)
Lemma rposition_Some q l i : rposition q l = Some i →
  ∃ x, l !! i = Some x ∧ q x = true ∧ ∀ y, y ∈ drop (S i) l → q y = false.
Proof.
  unfold rposition. destruct (position q (reverse l)) as [j|] eqn:Hj; simpl; [|done]. intros [= <-].
  apply position_Some in Hj as (x & Hx & Hq & Hbefore). exists x.
  pose proof (lookup_lt_Some _ _ _ Hx) as Hlt. rewrite length_reverse in Hlt.
  assert (Hi : l !! (length l - 1 - j) = Some x).
  { rewrite reverse_lookup in Hx by done. by replace (length l - 1 - j) with (length l - S j) by lia. }
  repeat split; [done..|]. intros y (m & Hm)%list_elem_of_lookup. rewrite lookup_drop in Hm.
  pose proof (lookup_lt_Some _ _ _ Hm).
  apply (Hbefore (length l - S (S (length l - 1 - j) + m))); [lia|].
  rewrite reverse_lookup by lia. rewrite <- Hm. f_equal. lia.
Qed.

Lemma rposition_None q l : rposition q l = None → ∀ x, x ∈ l → q x = false.
Proof.
  unfold rposition. destruct (position q (reverse l)) as [j|] eqn:Hj; simpl; [done|]. intros _ x Hx.
  by apply (proj1 (position_None q (reverse l)) Hj), elem_of_reverse.
Qed.

Lemma after_last_split q pre x post :
  q x = true → (∀ y, y ∈ post → q y = false) →
  drop (after_last q (pre ++ x :: post)) (pre ++ x :: post) = post.
Proof.
  intros Hx Hpost. unfold after_last. destruct (rposition q (pre ++ x :: post)) as [i|] eqn:Hi.
  - apply rposition_Some in Hi as (y & Hy & Hqy & Hafter).
    assert (i = length pre) as ->.
    { destruct (Nat.lt_trichotomy i (length pre)) as [Hlt|[->|Hgt]]; [|done|]; exfalso.
      - assert (q x = false) as Hf; [|congruence]. apply Hafter.
        rewrite drop_app_le by lia. apply elem_of_app. right. left.
      - rewrite lookup_app_r in Hy by lia.
        destruct (i - length pre) as [|m] eqn:E; [lia|]. simpl in Hy.
        apply list_elem_of_lookup_2 in Hy. rewrite Hpost in Hqy; done. }
    by rewrite drop_app_ge, (Nat.sub_succ_l (length pre)), Nat.sub_diag by lia.
  - exfalso. assert (q x = false); [|congruence]. apply (rposition_None q _ Hi).
    apply elem_of_app. right. left.
Qed.

Lemma after_last_none q l : (∀ x, x ∈ l → q x = false) → after_last q l = 0.
Proof.
  intros Hq. unfold after_last. destruct (rposition q l) as [i|] eqn:Hi; [|done].
  apply rposition_Some in Hi as (x & Hx & Hqx & _). apply list_elem_of_lookup_2 in Hx.
  rewrite Hq in Hqx; done.
Qed.

Lemma NoDup_split_unique (a a' b b' : list A) x :
  NoDup (a ++ x :: b) → a ++ x :: b = a' ++ x :: b' → b = b'.
Proof.
  revert a'. induction a as [|y a IH]; intros [|y' a']; simpl; intros Hnd E.
  - by injection E.
  - injection E as <- ->. apply NoDup_cons in Hnd as [Hn _]. destruct Hn.
    apply elem_of_app. right. left.
  - injection E as -> <-. apply NoDup_cons in Hnd as [Hn _]. destruct Hn.
    apply elem_of_app. right. left.
  - injection E as -> E. apply NoDup_cons in Hnd as [_ Hnd]. by eapply IH.
Qed.

Lemma elem_of_positions q l i : i ∈ positions q l ↔ ∃ x, l !! i = Some x ∧ q x = true.
Proof.
  unfold positions, enumerate. rewrite elem_of_list_to_set, list_elem_of_fmap. split.
  - intros ([j x] & -> & Hin). apply lfilter_elem in Hin as [Hin Hq].
    apply elem_of_lookup_imap in Hin as (m & y & [= -> ->] & Hy). by exists y.
  - intros (x & Hx & Hq). exists (i, x). split; [done|]. apply lfilter_elem. split; [|done].
    apply elem_of_lookup_imap. by exists i, x.
Qed.
End lists.

(** ** Which claims can be dropped *)

Section drops.
Context `{NumberApi}.
Context (registry : string → option ClaimSpec) (json_to_string : Value → string).
Context (sealed : SealedSet).

(** One group's marks: [mark_slot] drops only what its slot's rule does not keep. *)
Definition marked_by (slot : slot_key * list nat) (i : nat) : Prop :=
  ∃ p claim, slot.2 !! p = Some i ∧ claim_at sealed i = Some claim ∧
    (p ∉ rule_keep json_to_string (ss_cut_unix_ms sealed) (closed_requests sealed) slot.1
           (slot_claims sealed slot.2)) ∧
    old_enough (ss_cut_unix_ms sealed) slot.1.1 claim = true.

Lemma is_dropped_set d i j : is_dropped (<[i := true]> d) j = true → j = i ∨ is_dropped d j = true.
Proof. rewrite is_dropped_insert. case_decide; [by left|by right]. Qed.

(** A fold of conditional insertions drops only what some entry asked for. *)
Lemma fold_drops {A} (cond : A → bool) (at_ : A → nat) l d i :
  is_dropped (fold_left (λ d e, if cond e then <[at_ e := true]> d else d) l d) i = true →
  is_dropped d i = true ∨ ∃ e, e ∈ l ∧ cond e = true ∧ at_ e = i.
Proof.
  revert d. induction l as [|e l IH]; intros d; simpl; [by left|].
  intros [Hd|(e' & He' & Hc & Ha)]%IH.
  - destruct (cond e) eqn:Hc; [|by left].
    apply is_dropped_set in Hd as [->|Hd]; [|by left]. right. exists e. split; [left|done].
  - right. exists e'. split; [by right|done].
Qed.

Lemma mark_slot_marks d slot i :
  is_dropped (mark_slot json_to_string sealed d slot) i = true →
  is_dropped d i = true ∨ marked_by slot i.
Proof.
  unfold mark_slot. cbv zeta.
  intros [Hd|([p j] & He & Hc & Ha)]%(fold_drops (λ e : nat * nat, _) snd); [by left|].
  right. simpl in *. subst j. unfold enumerate in He.
  apply elem_of_lookup_imap in He as (m & y & [= -> ->] & Hy).
  apply andb_prop in Hc as [Hk Ho].
  destruct (claim_at sealed y) as [claim|] eqn:Hclaim; [|done]. simpl in Ho.
  exists m, claim. repeat split; [done..| |done].
  apply negb_true_iff in Hk. by apply bool_decide_eq_false in Hk.
Qed.

Lemma mark_slots_marks slots d i :
  is_dropped (fold_left (mark_slot json_to_string sealed) slots d) i = true →
  is_dropped d i = true ∨ ∃ slot, slot ∈ slots ∧ marked_by slot i.
Proof.
  revert d. induction slots as [|slot slots IH]; intros d; simpl; [by left|].
  intros [Hd|(slot' & Hin & Hm)]%IH.
  - apply mark_slot_marks in Hd as [Hd|Hm]; [by left|]. right. exists slot. split; [left|done].
  - right. exists slot'. split; [by right|done].
Qed.

(** The guards undo the drop of whatever they guard. *)
Lemma fold_keeps {A} (cond : A → bool) (at_ : A → nat) l d i :
  is_dropped (fold_left (λ d e, if cond e then <[at_ e := false]> d else d) l d) i = true →
  is_dropped d i = true ∧ ∀ e, e ∈ l → at_ e = i → cond e = false.
Proof.
  revert d. induction l as [|e l IH]; intros d; simpl.
  - intros Hd. split; [done|]. by intros e ?%elem_of_nil.
  - intros [Hd Hl]%IH. assert (is_dropped d i = true ∧ (at_ e = i → cond e = false)) as [Hd' He].
    { destruct (cond e); [|done]. rewrite is_dropped_insert in Hd.
      case_decide as E; [by case_decide|]. split; [done|]. by intros ?%E. }
    split; [done|]. intros e' [->|He']%elem_of_cons; [done|]. by apply Hl.
Qed.

Lemma guard_drops_guards d i : is_dropped (guard_drops registry sealed d) i = true →
  is_dropped d i = true ∧ ∀ c, ss_claims sealed !! i = Some c → guarded registry sealed c = false.
Proof.
  unfold guard_drops. intros [Hd Hg]%(fold_keeps (λ e : nat * SealedClaim, guarded registry sealed e.2) fst).
  split; [done|]. intros c Hc. apply (Hg (i, c)); [|done]. unfold enumerate.
  apply elem_of_lookup_imap. by exists i, c.
Qed.

(** Everything that is said of a dropped claim by the marks and the guards. *)
Lemma marked_drops_reason i : is_dropped (marked_drops registry json_to_string sealed) i = true →
  (∃ slot, slot ∈ slots_of json_to_string sealed ∧ marked_by slot i)
  ∧ ∀ c, ss_claims sealed !! i = Some c → guarded registry sealed c = false.
Proof.
  unfold marked_drops. intros [Hd Hg]%guard_drops_guards. split; [|done].
  apply mark_slots_marks in Hd as [Hd|Hd]; [|done]. unfold is_dropped in Hd.
  destruct (replicate _ false !! i) as [b|] eqn:E; [|done]. apply lookup_replicate in E as [-> _]. done.
Qed.

(** ** The slots *)

Lemma first_occurrences_elem i : i ∈ first_occurrences sealed →
  ∃ c, ss_claims sealed !! i = Some c ∧ cr_id (sl_claim c) ∉ take i (sealed_ids sealed).
Proof.
  unfold first_occurrences, enumerate. intros ([j c] & -> & Hin)%list_elem_of_fmap.
  apply lfilter_elem in Hin as [Hin Hn]. apply elem_of_lookup_imap in Hin as (m & y & [= -> ->] & Hy).
  exists y. split; [done|]. simpl in Hn. apply negb_true_iff in Hn. by apply bool_decide_eq_false in Hn.
Qed.

Lemma NoDup_lfilter {A} (p : A → bool) l : NoDup l → NoDup (List.filter p l).
Proof.
  induction 1 as [|x l Hx _ IH]; simpl; [constructor|]. destruct (p x); [|done].
  constructor; [|done]. rewrite lfilter_elem. tauto.
Qed.

Lemma NoDup_enumerate_filter {A} (p : nat * A → bool) (l : list A) :
  NoDup (map fst (List.filter p (enumerate l))).
Proof.
  unfold enumerate. assert (∀ n, NoDup (map fst (List.filter p (imap (λ i x, (n + i, x)) l)))
    ∧ ∀ i, i ∈ map fst (List.filter p (imap (λ i x, (n + i, x)) l)) → n ≤ i) as Hn.
  { induction l as [|x l IH]; intros n; simpl; [split; [constructor|by intros i ?%elem_of_nil]|].
    rewrite (imap_ext _ (λ i x, (S n + i, x))) by (intros; simpl; f_equal; lia).
    destruct (IH (S n)) as [Hd Hb]. destruct (p _); simpl.
    - split.
      + constructor; [|done]. rewrite Nat.add_0_r. intros Hin%Hb. lia.
      + intros i [->|Hi%Hb]%elem_of_cons; lia.
    - split; [done|]. intros i Hi%Hb. lia. }
  apply (Hn 0).
Qed.

Lemma slot_members key ms : (key, ms) ∈ slots_of json_to_string sealed →
  NoDup ms ∧ (∀ i, i ∈ ms → is_Some (claim_at sealed i)) ∧
  ∀ i, i ∈ ms ↔ i ∈ first_occurrences sealed ∧ claim_at sealed i ≫= slot_of json_to_string = Some key.
Proof.
  unfold slots_of. intros Hin. destruct (proj1 (elem_of_bt_group slot_compare _ _ _ _) Hin) as [-> _].
  unfold group_of.
  assert (∀ i, i ∈ List.filter (λ x, bool_decide (claim_at sealed x ≫= slot_of json_to_string = Some key))
              (first_occurrences sealed)
            ↔ i ∈ first_occurrences sealed ∧ claim_at sealed i ≫= slot_of json_to_string = Some key) as He.
  { intros i. by rewrite lfilter_elem, bool_decide_eq_true. }
  repeat split.
  - apply NoDup_lfilter, NoDup_enumerate_filter.
  - intros i [_ Hk]%He. by destruct (claim_at sealed i).
  - by apply He.
  - by apply He.
  - by apply He.
Qed.

(** The positions a slot's rule keeps stay. *)
Lemma rule_keep_stays key ms p i :
  (key, ms) ∈ slots_of json_to_string sealed → ms !! p = Some i →
  p ∈ rule_keep json_to_string (ss_cut_unix_ms sealed) (closed_requests sealed) key (slot_claims sealed ms) →
  kept (final_drops registry json_to_string sealed) i = true.
Proof.
  intros Hslot Hp Hkeep. unfold kept. apply negb_true_iff.
  destruct (is_dropped _ i) eqn:Hd; [|done]. exfalso.
  apply (proj2 (proj2 (final_drops_settled registry json_to_string sealed))) in Hd.
  apply marked_drops_reason in Hd as [([key' ms'] & Hslot' & (p' & claim & Hp' & Hclaim & Hnot & _)) _].
  simpl in *. pose proof (slot_members _ _ Hslot) as (Hnd & _ & He).
  pose proof (slot_members _ _ Hslot') as (_ & _ & He').
  assert (key' = key) as ->.
  { apply list_elem_of_lookup_2 in Hp, Hp'. apply He in Hp as [_ ?]. apply He' in Hp' as [_ ?]. congruence. }
  assert (ms' = ms) as ->.
  { unfold slots_of in *. destruct (proj1 (elem_of_bt_group slot_compare _ _ _ _) Hslot) as [-> _].
    by destruct (proj1 (elem_of_bt_group slot_compare _ _ _ _) Hslot') as [-> _]. }
  by rewrite (NoDup_lookup _ _ _ _ Hnd Hp Hp') in Hkeep.
Qed.

(** ** Envelopes and operations are dropped whole *)

Lemma group_member {K} (cmp : K → K → comparison) `{!EqDecision K, !cmp_order cmp, !cmp_exact cmp}
    (f : nat → option K) n k i :
  i < n → f i = Some k →
  (k, group_of f k (seq 0 n)) ∈ bt_group cmp f (seq 0 n) ∧ i ∈ group_of f k (seq 0 n).
Proof.
  intros Hi Hk. assert (i ∈ group_of f k (seq 0 n)) as Hin.
  { apply lfilter_elem. split; [apply elem_of_seq; lia|by apply bool_decide_eq_true]. }
  split; [|done]. apply (proj2 (elem_of_bt_group cmp _ _ _ _)). split; [done|].
  intros E. rewrite E in Hin. by apply elem_of_nil in Hin.
Qed.

Lemma same_group {K} (cmp : K → K → comparison) `{!EqDecision K, !cmp_order cmp, !cmp_exact cmp}
    (f : nat → option K) k i j :
  (∀ members, members ∈ map snd (bt_group cmp f (seq 0 (length (ss_claims sealed)))) →
     whole_group (final_drops registry json_to_string sealed, false) members
     = (final_drops registry json_to_string sealed, false)) →
  i < length (ss_claims sealed) → j < length (ss_claims sealed) → f i = Some k → f j = Some k →
  is_dropped (final_drops registry json_to_string sealed) i = true →
  is_dropped (final_drops registry json_to_string sealed) j = true.
Proof.
  intros Hw Hi Hj Hfi Hfj <-. destruct (group_member cmp f _ k i Hi Hfi) as [Hg Hgi].
  destruct (group_member cmp f _ k j Hj Hfj) as [_ Hgj].
  eapply whole_group_settled; [|exact Hgj|exact Hgi]. apply Hw.
  apply list_elem_of_fmap. by eexists (_, _).
Qed.

Lemma envelope_whole i j c c' :
  ss_claims sealed !! i = Some c → ss_claims sealed !! j = Some c' → sl_envelope c' = sl_envelope c →
  is_dropped (final_drops registry json_to_string sealed) i = true →
  is_dropped (final_drops registry json_to_string sealed) j = true.
Proof.
  intros Hi Hj He. destruct (final_drops_settled registry json_to_string sealed) as [Hs _].
  destruct (settled_passes _ _ _ _ Hs) as (_ & Hg & _).
  apply (same_group EnvelopeKey_compare (λ i, sl_envelope <$> (ss_claims sealed !! i)) (sl_envelope c)).
  - intros members Hm. apply Hg. apply elem_of_app. by right.
  - by eapply lookup_lt_Some.
  - by eapply lookup_lt_Some.
  - by rewrite Hi.
  - by rewrite Hj, <- He.
Qed.

Lemma operation_whole i j c c' operation :
  ss_claims sealed !! i = Some c → ss_claims sealed !! j = Some c' →
  cr_operation_id (sl_claim c) = Some operation → cr_operation_id (sl_claim c') = Some operation →
  is_dropped (final_drops registry json_to_string sealed) i = true →
  is_dropped (final_drops registry json_to_string sealed) j = true.
Proof.
  intros Hi Hj Ho Ho'. destruct (final_drops_settled registry json_to_string sealed) as [Hs _].
  destruct (settled_passes _ _ _ _ Hs) as (_ & Hg & _).
  apply (same_group String.compare (λ i, claim_at sealed i ≫= cr_operation_id) operation).
  - intros members Hm. apply Hg. apply elem_of_app. by left.
  - by eapply lookup_lt_Some.
  - by eapply lookup_lt_Some.
  - unfold claim_at. by rewrite Hi.
  - unfold claim_at. by rewrite Hj.
Qed.

Lemma length_filter_seq {A} (q : A → bool) (l : list A) n :
  length (List.filter (λ i, match l !! (i - n) with Some x => q x | None => false end) (seq n (length l)))
  = length (List.filter q l).
Proof.
  revert n. induction l as [|x l IH]; intros n; simpl; [done|]. rewrite Nat.sub_diag. simpl.
  rewrite (List.filter_ext_in _ (λ i, match l !! (i - S n) with Some x => q x | None => false end)).
  - destruct (q x); simpl; by rewrite IH.
  - intros i [Hi _]%in_seq. replace (i - n) with (S (i - S n)) by lia. done.
Qed.

Lemma envelope_records i c :
  ss_claims sealed !! i = Some c →
  is_dropped (final_drops registry json_to_string sealed) i = true →
  records_of sealed (sl_envelope c)
  = Some (length (List.filter (λ c', bool_decide (sl_envelope c' = sl_envelope c)) (ss_claims sealed))).
Proof.
  intros Hi Hd. destruct (final_drops_settled registry json_to_string sealed) as [Hs _].
  destruct (settled_passes _ _ _ _ Hs) as (_ & _ & Hr).
  destruct (group_member EnvelopeKey_compare (λ i, sl_envelope <$> (ss_claims sealed !! i))
              (length (ss_claims sealed)) (sl_envelope c) i) as [Hg Hgi];
    [by eapply lookup_lt_Some|by rewrite Hi|].
  specialize (Hr _ Hg). unfold whole_records in Hr. simpl in Hr.
  destruct (existsb _ _) eqn:Hex.
  - rewrite andb_true_r in Hr. case_bool_decide as Hrec; [|by injection Hr].
    rewrite Hrec. f_equal. unfold group_of.
    rewrite <- (length_filter_seq (λ c', bool_decide (sl_envelope c' = sl_envelope c)) (ss_claims sealed) 0).
    f_equal.
    apply List.filter_ext. intros j. rewrite Nat.sub_0_r. destruct (ss_claims sealed !! j); simpl.
    + apply bool_decide_ext. split; [by intros [= ->]|by intros ->].
    + done.
  - rewrite existsb_false_elem in Hex. by rewrite (Hex i Hgi) in Hd.
Qed.
End drops.

(** ** What each rule keeps *)

Section rules.
Context `{NumberApi}.
Context (json_to_string : Value → string).

Lemma carry_step_spec acc e :
  let acc' := carry_step acc e in
  acc.2 ⊆ acc'.2 ∧ (∀ name, name ∈ acc'.1 ↔ name ∈ acc.1 ∨ name ∈ field_names e.2) ∧
  ∀ name, name ∈ field_names e.2 → name ∉ acc.1 → e.1 ∈ acc'.2.
Proof.
  unfold carry_step. generalize (field_names e.2) as names. intros names. revert acc.
  induction names as [|n names IH]; intros [seen keep]; simpl.
  - repeat split; [done|by left| |].
    + intros [?|?%elem_of_nil]; done.
    + by intros name ?%elem_of_nil.
  - set (acc1 := if bool_decide (n ∈ seen) then (seen, keep) else ({[n]} ∪ seen, {[e.1]} ∪ keep)).
    destruct (IH acc1) as (Hsub & Hseen & Hkeep).
    assert (H1 : keep ⊆ acc1.2 ∧ (∀ m, m ∈ acc1.1 ↔ m ∈ seen ∨ m = n) ∧ (n ∉ seen → e.1 ∈ acc1.2)).
    { unfold acc1. case_bool_decide; simpl; set_solver. }
    destruct H1 as (Hk & Hs & Hn). repeat split; [set_solver| | |].
    + intros Hm%Hseen. rewrite elem_of_cons. destruct Hm as [Hm|?]; [apply Hs in Hm|]; tauto.
    + rewrite elem_of_cons. intros Hm. apply Hseen. rewrite Hs. tauto.
    + intros name [->|Hin]%elem_of_cons Hns; [by apply Hsub, Hn|].
      destruct (decide (name = n)) as [->|Hne]; [by apply Hsub, Hn|].
      apply (Hkeep name); [done|]. rewrite Hs. tauto.
Qed.

Lemma carriers_spec l acc name :
  let acc' := fold_left carry_step l acc in
  acc.2 ⊆ acc'.2 ∧
  (name ∉ acc.1 → ∀ e, List.find (λ e, carries name e.2) l = Some e → e.1 ∈ acc'.2).
Proof.
  revert acc. induction l as [|e l IH]; intros acc; simpl; [done|].
  destruct (carry_step_spec acc e) as (Hsub & Hseen & Hkeep).
  destruct (IH (carry_step acc e)) as [Hsub' Hfind]. split; [set_solver|].
  intros Hn e'. unfold carries at 1. case_bool_decide as Hc.
  - intros [= <-]. by apply Hsub', (Hkeep name).
  - apply Hfind. rewrite Hseen. tauto.
Qed.

Lemma enumerate_reverse_find {A} (q : A → bool) (l : list A) p :
  rposition q l = Some p →
  ∃ x, List.find (λ e, q e.2) (reverse (enumerate l)) = Some (p, x).
Proof.
  unfold rposition, enumerate. induction l as [|x l IH] using rev_ind; simpl; [done|].
  rewrite imap_app, !reverse_app. simpl. rewrite Nat.add_0_r.
  destruct (q x) eqn:Hq; simpl.
  - intros [= <-]. rewrite length_app. simpl. exists x. do 2 f_equal. lia.
  - destruct (position q (reverse l)) as [j|]; simpl in *; [|done]. intros [= <-].
    apply IH. f_equal. rewrite length_app. simpl. lia.
Qed.

Lemma field_carriers_newest name claims p :
  rposition (carries name) claims = Some p → p ∈ field_carriers claims.
Proof.
  intros [c Hc]%enumerate_reverse_find. unfold field_carriers.
  destruct (carriers_spec (reverse (enumerate claims)) (∅, ∅) name) as [_ Hf].
  apply (Hf ltac:(set_solver) _ Hc).
Qed.

Lemma rule_keep_carriers cut closed key claims name p :
  key.1 ≠ LoopState → rposition (carries name) claims = Some p →
  p ∈ rule_keep json_to_string cut closed key claims.
Proof.
  intros Hk Hp. unfold rule_keep. rewrite (bool_decide_false (key.1 = LoopState)) by done.
  apply elem_of_union_r. by eapply field_carriers_newest.
Qed.

(** What [usage_series_keep]'s loop remembers: the last position of each hour of the window, and
    the last before it. *)
Lemma usage_fold_spec window l acc :
  let acc' := fold_left (usage_step window) l acc in
  (∀ h, acc'.1 !! h = match List.find (λ e, (window <=? usage_observed_at e.2)%Z
                             && (usage_observed_at e.2 / HOUR_MS =? h)%Z) (reverse l) with
                      | Some e => Some e.1 | None => acc.1 !! h end) ∧
  acc'.2 = match List.find (λ e, (usage_observed_at e.2 <? window)%Z) (reverse l) with
           | Some e => Some e.1 | None => acc.2 end.
Proof.
  induction l as [|e l IH] using rev_ind; simpl; [done|].
  rewrite fold_left_app, reverse_app. simpl. unfold usage_step at 1 3. destruct IH as [IH1 IH2].
  destruct (Z.ltb_spec (usage_observed_at e.2) window) as [Hw|Hw]; simpl.
  - rewrite (proj2 (Z.leb_gt window (usage_observed_at e.2))) by done. done.
  - rewrite (proj2 (Z.leb_le window (usage_observed_at e.2))) by done. split; [|done].
    intros h. simpl. destruct (Z.eqb_spec (usage_observed_at e.2 / HOUR_MS) h) as [->|Hne].
    + by rewrite lookup_insert_eq.
    + by rewrite lookup_insert_ne.
Qed.

Lemma usage_series_keeps_hours claims cut h p :
  rposition (λ c, (sat_sub cut USAGE_WINDOW_MS <=? usage_observed_at c)%Z
                  && (usage_observed_at c / HOUR_MS =? h)%Z) claims = Some p →
  p ∈ usage_series_keep claims cut.
Proof.
  intros [c Hc]%enumerate_reverse_find. unfold usage_series_keep.
  destruct (usage_fold_spec (sat_sub cut USAGE_WINDOW_MS) (enumerate claims) (∅, None)) as [Hh _].
  destruct (fold_left _ _ _) as [hours before]. simpl in *. specialize (Hh h). rewrite Hc in Hh.
  do 2 apply elem_of_union_l. apply elem_of_list_to_set, list_elem_of_fmap.
  exists (h, p). split; [done|]. by apply elem_of_map_to_list.
Qed.

Lemma usage_series_keeps_baseline claims cut p :
  rposition (λ c, (usage_observed_at c <? sat_sub cut USAGE_WINDOW_MS)%Z) claims = Some p →
  p ∈ usage_series_keep claims cut.
Proof.
  intros [c Hc]%enumerate_reverse_find. unfold usage_series_keep.
  destruct (usage_fold_spec (sat_sub cut USAGE_WINDOW_MS) (enumerate claims) (∅, None)) as [_ Hb].
  destruct (fold_left _ _ _) as [hours before]. simpl in *. rewrite Hc in Hb. subst before.
  apply elem_of_union_l, elem_of_union_r. simpl. by apply elem_of_singleton.
Qed.
(** The session reading: the last of the largest totals. *)
Definition reads_at (cs : list ClaimRecord) (pre : list ClaimRecord) (c : ClaimRecord)
    (post : list ClaimRecord) (t : Z) : Prop :=
  cs = pre ++ c :: post ∧ cumulative_total c = Some t ∧
  (∀ x t', x ∈ pre → cumulative_total x = Some t' → (t' ≤ t)%Z) ∧
  (∀ x t', x ∈ post → cumulative_total x = Some t' → (t' < t)%Z).

Lemma cumulative_none cs : (∀ x, x ∈ cs → cumulative_total x = None) → cumulative_reading cs = None.
Proof.
  unfold cumulative_reading. induction cs as [|c cs IH]; simpl; [done|]. intros Hn.
  unfold cumulative_step at 2. rewrite (Hn c) by left. apply IH. intros x Hx. apply Hn. by right.
Qed.

Lemma cumulative_snoc cs c :
  cumulative_reading (cs ++ [c]) = cumulative_step (cumulative_reading cs) c.
Proof. unfold cumulative_reading. by rewrite fold_left_app. Qed.

Lemma cumulative_reading_None cs :
  cumulative_reading cs = None → ∀ x, x ∈ cs → cumulative_total x = None.
Proof.
  induction cs as [|c cs IH] using rev_ind; [by intros _ x ?%elem_of_nil|].
  rewrite cumulative_snoc. unfold cumulative_step.
  destruct (cumulative_total c) as [t|] eqn:Ht; [case_match; [done|]|];
    intros Hr x [Hx|Hx%list_elem_of_singleton]%elem_of_app; subst; auto.
  by rewrite Hr in *.
Qed.

Lemma cumulative_reading_Some cs c :
  cumulative_reading cs = Some c → ∃ pre post t, reads_at cs pre c post t.
Proof.
  revert c. induction cs as [|c cs IH] using rev_ind; intros c0; [done|].
  rewrite cumulative_snoc. unfold cumulative_step.
  destruct (cumulative_total c) as [t|] eqn:Ht.
  - destruct (is_none_or _ _) eqn:Hle.
    + intros [= <-]. exists cs, [], t. repeat split; [done| |by intros x t' ?%elem_of_nil].
      intros x t' Hx Hxt. destruct (cumulative_reading cs) as [c'|] eqn:Hr.
      * destruct (IH c' eq_refl) as (pre & post & t1 & -> & Ht1 & Hpre & Hpost).
        simpl in Hle. rewrite Ht1 in Hle. simpl in Hle. apply Z.leb_le in Hle.
        apply elem_of_app in Hx as [Hx|[->|Hx]%elem_of_cons].
        -- specialize (Hpre x t' Hx Hxt). lia.
        -- rewrite Ht1 in Hxt. injection Hxt as <-. done.
        -- specialize (Hpost x t' Hx Hxt). lia.
      * rewrite (cumulative_reading_None cs Hr x Hx) in Hxt. done.
    + intros Hr. destruct (IH c0 Hr) as (pre & post & t1 & -> & Ht1 & Hpre & Hpost).
      rewrite Hr in Hle. simpl in Hle. rewrite Ht1 in Hle. simpl in Hle. apply Z.leb_gt in Hle.
      exists pre, (post ++ [c]), t1. repeat split; [by rewrite <- app_assoc|done..|].
      intros x t' [Hx|Hx%list_elem_of_singleton]%elem_of_app; [by apply Hpost|subst x].
      rewrite Ht. intros [= <-]. done.
  - intros Hr. destruct (IH c0 Hr) as (pre & post & t1 & -> & Ht1 & Hpre & Hpost).
    exists pre, (post ++ [c]), t1. repeat split; [by rewrite <- app_assoc|done..|].
    intros x t' [Hx|Hx%list_elem_of_singleton]%elem_of_app; [by apply Hpost|subst x]. by rewrite Ht.
Qed.

Lemma reads_at_reading cs pre c post t :
  reads_at cs pre c post t → cumulative_reading cs = Some c.
Proof.
  intros (-> & Ht & Hpre & Hpost). induction post as [|x post IH] using rev_ind.
  - rewrite cumulative_snoc. unfold cumulative_step. rewrite Ht.
    destruct (cumulative_reading pre) as [c'|] eqn:Hr; [simpl|done].
    apply cumulative_reading_Some in Hr as (pre' & post' & t' & -> & Ht' & _).
    rewrite Ht'. simpl. rewrite (proj2 (Z.leb_le t' t)); [done|].
    apply (Hpre c'); [|done]. apply elem_of_app. right. left.
  - rewrite app_comm_cons, app_assoc, cumulative_snoc, IH.
    2:{ intros y t' Hy. apply Hpost. apply elem_of_app. by left. }
    unfold cumulative_step. destruct (cumulative_total x) as [t'|] eqn:Hx; [|done].
    simpl. rewrite Ht. simpl. rewrite (proj2 (Z.leb_gt t t')); [done|].
    apply (Hpost x); [|done]. apply elem_of_app. right. left.
Qed.

Lemma max_or_zero_ge l x : x ∈ l → (x ≤ max_or_zero l)%Z.
Proof.
  destruct l as [|y l]; [by intros ?%elem_of_nil|]. simpl.
  assert (∀ l y, y ≤ fold_left Z.max l y ∧ ∀ x, x ∈ l → x ≤ fold_left Z.max l y)%Z as Hf.
  { clear. induction l as [|z l IH]; intros y; simpl; [split; [lia|by intros x ?%elem_of_nil]|].
    destruct (IH (Z.max y z)) as [H1 H2]. split; [lia|].
    intros x [->|Hx]%elem_of_cons; [lia|by apply H2]. }
  destruct (Hf l y) as [H1 H2]. intros [->|Hx]%elem_of_cons; [done|by apply H2].
Qed.

Lemma max_or_zero_le l m : (0 ≤ m)%Z → (∀ x, x ∈ l → (x ≤ m)%Z) → (max_or_zero l ≤ m)%Z.
Proof.
  intros Hm Hl. destruct l as [|y l]; [done|]. simpl.
  assert (y ≤ m)%Z as Hy by (apply Hl; left).
  assert (∀ x, x ∈ l → (x ≤ m)%Z) as Hl' by (intros x Hx; apply Hl; by right).
  clear Hl. revert y Hy. induction l as [|z l IH]; intros y Hy; simpl; [done|].
  apply IH; [intros x Hx; apply Hl'; by right|]. specialize (Hl' z ltac:(left)). lia.
Qed.

Lemma rposition_split {A} (q : A → bool) pre x post :
  q x = true → (∀ y, y ∈ post → q y = false) → rposition q (pre ++ x :: post) = Some (length pre).
Proof.
  intros Hx Hpost. pose proof (after_last_split q pre x post Hx Hpost) as Hd.
  unfold after_last in Hd. destruct (rposition q _) as [i|] eqn:Hi.
  - pose proof Hi as (y & Hy & _)%rposition_Some. apply lookup_lt_Some in Hy.
    apply (f_equal length) in Hd. rewrite length_drop, length_app in Hd. rewrite length_app in Hy.
    simpl in *. f_equal. lia.
  - exfalso. assert (q x = false); [|congruence]. apply (rposition_None q _ Hi).
    apply elem_of_app. right. left.
Qed.

Lemma usage_total_of c t : cumulative_total c = Some t → usage_total c = t.
Proof. unfold usage_total, cumulative_total. by intros ->. Qed.

Lemma largest_total pre c post t :
  (0 ≤ t)%Z → reads_at (pre ++ c :: post) pre c post t →
  max_or_zero (map usage_total (pre ++ c :: post)) = t.
Proof.
  intros H0 (_ & Ht & Hpre & Hpost). apply Z.le_antisymm.
  - apply max_or_zero_le; [done|]. intros z (x & -> & Hx)%list_elem_of_fmap.
    unfold usage_total. fold (cumulative_total x).
    destruct (cumulative_total x) as [u|] eqn:Hu; simpl; [|done].
    apply elem_of_app in Hx as [Hx|[->|Hx]%elem_of_cons].
    + by apply (Hpre x).
    + rewrite Ht in Hu. by injection Hu as ->.
    + specialize (Hpost x u Hx Hu). lia.
  - apply max_or_zero_ge, list_elem_of_fmap. exists c.
    split; [by rewrite (usage_total_of c t)|]. apply elem_of_app. right. left.
Qed.

(** The position of the session reading is kept: by its total, or when that is zero as the newest
    carrier of a total. *)
Lemma cumulative_keep cut closed key pre c post t :
  key.1 = UsageCumulative →
  (∀ x, x ∈ pre ++ c :: post → carries "total_tokens" x = true → is_Some (cumulative_total x)) →
  reads_at (pre ++ c :: post) pre c post t →
  length pre ∈ rule_keep json_to_string cut closed key (pre ++ c :: post).
Proof.
  intros Hk Htyped Hreads. pose proof Hreads as (_ & Ht & Hpre & Hpost).
  assert (Hnn : ∀ x u, cumulative_total x = Some u → (0 ≤ u)%Z).
  { intros x u Hu. unfold cumulative_total in Hu.
    destruct (field_value x "total_tokens") as [[]|]; simpl in Hu; try done.
    by apply num_as_u64_range in Hu as [? _]. }
  destruct (decide (t = 0%Z)) as [->|Hne].
  - eapply (rule_keep_carriers _ _ _ _ "total_tokens"); [by rewrite Hk|]. apply rposition_split.
    + unfold carries. apply bool_decide_eq_true. unfold cumulative_total, field_value in Ht.
      unfold field_names. destruct (fields c) as [fs|]; [|done]. simpl in Ht |- *.
      destruct (field_get "total_tokens" fs) as [v|] eqn:Hg; [|done].
      unfold field_get in Hg. apply fmap_Some in Hg as ([n w] & Hf & ->).
      apply find_Some_elem in Hf as [Hin Heq]. apply list_elem_of_fmap. exists (n, w).
      split; [|done]. simpl in *. symmetry. by apply str_eqb_true.
    + intros y Hy. destruct (carries "total_tokens" y) eqn:Hc; [|done]. exfalso.
      destruct (Htyped y) as [u Hu]; [apply elem_of_app; right; by right|done|].
      specialize (Hpost y u Hy Hu). specialize (Hnn y u Hu). lia.
  - unfold rule_keep. rewrite Hk. apply elem_of_union_l. unfold usage_cumulative_keep.
    apply elem_of_union_r. rewrite (largest_total pre c post t) by eauto.
    rewrite (rposition_split _ pre c post); [simpl; by apply elem_of_singleton| |].
    + rewrite (usage_total_of c t Ht). apply Z.eqb_refl.
    + intros y Hy. apply Z.eqb_neq. unfold usage_total. fold (cumulative_total y).
      destruct (cumulative_total y) as [u|] eqn:Hu; simpl; [|congruence].
      specialize (Hpost y u Hy Hu). lia.
Qed.
End rules.

(** ** Reading what stays *)

Section preserved.
Context `{NumberApi}.
Context (registry : string → option ClaimSpec) (json_to_string : Value → string).
Context (sealed : SealedSet).

Definition stays (i : nat) : bool := kept (final_drops registry json_to_string sealed) i.

(** The claims a reader finds before the drops and after them, each claim once. *)
Definition claims_before : list ClaimRecord := slot_claims sealed (first_occurrences sealed).
Definition claims_after : list ClaimRecord :=
  slot_claims sealed (List.filter stays (first_occurrences sealed)).

Definition on_claim (q : ClaimRecord → bool) (i : nat) : bool := is_some_and (claim_at sealed i) q.

Lemma slot_claims_filter q l :
  List.filter q (slot_claims sealed l) = slot_claims sealed (List.filter (on_claim q) l).
Proof.
  unfold slot_claims, on_claim. induction l as [|i l IH]; csimpl; [done|].
  destruct (claim_at sealed i) as [c|] eqn:E; csimpl; [|done].
  destruct (q c); csimpl; rewrite ?E, IH; done.
Qed.

Lemma slot_claims_find q l :
  List.find q (slot_claims sealed l) = List.find (on_claim q) l ≫= claim_at sealed.
Proof.
  unfold slot_claims, on_claim. induction l as [|i l IH]; csimpl; [done|].
  destruct (claim_at sealed i) as [c|] eqn:E; csimpl; [|done].
  destruct (q c); csimpl; rewrite ?E; done.
Qed.

Lemma slot_claims_reverse l : reverse (slot_claims sealed l) = slot_claims sealed (reverse l).
Proof.
  unfold slot_claims. induction l as [|i l IH]; csimpl; [done|]. rewrite reverse_cons, omap_app.
  csimpl. destruct (claim_at sealed i); csimpl; [by rewrite reverse_cons, IH|by rewrite IH, app_nil_r].
Qed.

Lemma slot_claims_all l : (∀ i, i ∈ l → is_Some (claim_at sealed i)) →
  Forall2 (λ i c, claim_at sealed i = Some c) l (slot_claims sealed l).
Proof.
  unfold slot_claims. induction l as [|i l IH]; intros Hl; csimpl; [constructor|].
  destruct (Hl i) as [c Hc]; [left|]. rewrite Hc. constructor; [done|]. apply IH.
  intros j Hj. apply Hl. by right.
Qed.

Lemma filter_comm {A} (p q : A → bool) l :
  List.filter p (List.filter q l) = List.filter q (List.filter p l).
Proof.
  induction l as [|x l IH]; simpl; [done|].
  destruct (p x) eqn:Hp, (q x) eqn:Hq; simpl; rewrite ?Hp, ?Hq, IH; done.
Qed.

(** A slot, before and after: empty both times, or the members of a slot and those that stay. *)
Lemma of_slot_cases key (P : list ClaimRecord → list ClaimRecord → Prop) :
  P [] [] →
  (∀ ms, (key, ms) ∈ slots_of json_to_string sealed →
     P (slot_claims sealed (List.filter stays ms)) (slot_claims sealed ms)) →
  P (of_slot json_to_string key claims_after) (of_slot json_to_string key claims_before).
Proof.
  intros Hnil Hslot. unfold of_slot, claims_after, claims_before.
  rewrite !slot_claims_filter, filter_comm.
  assert (E : ∀ i, on_claim (λ c, bool_decide (slot_of json_to_string c = Some key)) i
              = bool_decide (claim_at sealed i ≫= slot_of json_to_string = Some key)).
  { intros i. unfold on_claim. destruct (claim_at sealed i); done. }
  rewrite !(List.filter_ext _ _ E).
  set (ms := List.filter _ (first_occurrences sealed)).
  destruct ms as [|i ms'] eqn:Em; [done|]. rewrite <- Em. apply Hslot.
  apply (proj2 (elem_of_bt_group slot_compare _ _ _ _)). split; [done|]. by rewrite Em.
Qed.

(** The position a search of a slot finds, as a member of the slot. *)
Lemma slot_position q ms i : (∀ i, i ∈ ms → is_Some (claim_at sealed i)) →
  List.find (on_claim q) ms = Some i →
  ∃ p, position q (slot_claims sealed ms) = Some p ∧ ms !! p = Some i.
Proof.
  intros Hall Hi. pose proof (slot_claims_all ms Hall) as Hf.
  apply find_position in Hi as (p & Hp & Hi). exists p. split; [|done].
  rewrite <- Hp. clear -Hf. induction Hf as [|i c ms cs Hc _ IH]; simpl; [done|].
  unfold on_claim at 1. rewrite Hc, IH. done.
Qed.

Section slot.
Context (key : slot_key) (ms : list nat).
Hypothesis (Hslot : (key, ms) ∈ slots_of json_to_string sealed).
Let keep := rule_keep json_to_string (ss_cut_unix_ms sealed) (closed_requests sealed) key
              (slot_claims sealed ms).

Lemma slot_all i : i ∈ ms → is_Some (claim_at sealed i).
Proof. apply (slot_members _ _ _ _ Hslot). Qed.

Lemma length_slot_claims : length (slot_claims sealed ms) = length ms.
Proof. symmetry. eapply Forall2_length, slot_claims_all, slot_all. Qed.

Lemma keep_stays p i : ms !! p = Some i → p ∈ keep → stays i = true.
Proof. intros. by eapply rule_keep_stays. Qed.

(** A search finds the same claim when the rule keeps the position it finds. *)
Lemma slot_find q :
  (∀ p, position q (slot_claims sealed ms) = Some p → p ∈ keep) →
  List.find q (slot_claims sealed (List.filter stays ms)) = List.find q (slot_claims sealed ms).
Proof.
  intros Hkeep. rewrite !slot_claims_find, find_filter_kept; [done|]. intros i Hi.
  apply slot_position in Hi as (p & Hp & Hi); [|apply slot_all]. eapply keep_stays; [apply Hi|by apply Hkeep].
Qed.

Lemma slot_rfind q :
  (∀ p, rposition q (slot_claims sealed ms) = Some p → p ∈ keep) →
  List.find q (reverse (slot_claims sealed (List.filter stays ms)))
  = List.find q (reverse (slot_claims sealed ms)).
Proof.
  intros Hkeep. rewrite !slot_claims_reverse, <- lfilter_reverse, !slot_claims_find, find_filter_kept;
    [done|]. intros i Hi.
  apply slot_position in Hi as (p & Hp & Hi); [|intros j Hj; by apply slot_all, elem_of_reverse].
  pose proof (lookup_lt_Some _ _ _ Hi) as Hlt. rewrite length_reverse in Hlt.
  rewrite reverse_lookup in Hi by done. eapply keep_stays; [apply Hi|]. apply Hkeep.
  unfold rposition. rewrite slot_claims_reverse, Hp. simpl. rewrite length_slot_claims. f_equal. lia.
Qed.

(** The newest claim of a slot always stays. *)
Lemma newest_kept : length (slot_claims sealed ms) - 1 ∈ keep.
Proof.
  assert (0 < length (slot_claims sealed ms)) as Hpos.
  { rewrite length_slot_claims. unfold slots_of in Hslot.
    destruct (proj1 (elem_of_bt_group slot_compare _ _ _ _) Hslot) as [_ Hne].
    destruct ms; [done|simpl; lia]. }
  unfold keep, rule_keep. apply elem_of_union_l. set (cs := slot_claims sealed ms) in *.
  assert (last_position cs = {[length cs - 1]}) as El.
  { clearbody cs. destruct cs; [simpl in Hpos; lia|done]. }
  destruct (key.1); try by apply elem_of_singleton.
  - unfold harness_keep. set_solver.
  - unfold loop_keep. apply elem_of_union_l, elem_of_list_to_set, list_elem_of_fmap.
    destruct (lookup_lt_is_Some_2 cs (length cs - 1)) as [c Hc]; [lia|].
    exists (length cs - 1, c). split; [done|]. apply lfilter_elem. split.
    + unfold enumerate. apply elem_of_lookup_imap. by exists (length cs - 1), c.
    + unfold loop_boundary. simpl. rewrite (proj2 (Nat.eqb_eq (length cs - 1 + 1) (length cs))) by lia.
      simpl. by rewrite orb_true_r.
  - case_bool_decide; [by apply elem_of_singleton|]. apply elem_of_list_to_set, elem_of_seq. lia.
  - unfold usage_series_keep. destruct (fold_left _ _ _). rewrite El. set_solver.
  - unfold usage_cumulative_keep. rewrite El. set_solver.
Qed.

Lemma slot_last : last (slot_claims sealed (List.filter stays ms)) = last (slot_claims sealed ms).
Proof.
  rewrite !last_find. apply slot_rfind. intros p Hp.
  assert (p = length (slot_claims sealed ms) - 1) as ->; [|apply newest_kept].
  unfold rposition in Hp. destruct (reverse (slot_claims sealed ms)) as [|c l]; [done|].
  simpl in Hp. injection Hp as <-. lia.
Qed.
End slot.
(** ** The answers *)

Lemma slot_of_head claim r slot : slot_of json_to_string claim = Some (r, slot) →
  ∃ rest, slot = cr_subject claim :: cr_kind claim :: rest.
Proof.
  unfold slot_of. cbv zeta. intros Hs.
  assert (∀ (rule : Rule) extra, Some (rule, cr_subject claim :: cr_kind claim :: extra) = Some (r, slot) →
    ∃ rest, slot = cr_subject claim :: cr_kind claim :: rest) as Hhead.
  { intros rule extra [= _ <-]. by exists extra. }
  destruct (str_eqb _ "harness.observed").
  { apply fmap_Some in Hs as (x & _ & Hs). by apply (Hhead _ _ (eq_sym (f_equal Some Hs))). }
  repeat match type of Hs with
  | (if ?b then _ else _) = _ => destruct b; [try by apply Hhead in Hs|]
  end; [|discriminate].
  destruct (field_str claim "semantics"); [|discriminate].
  repeat match type of Hs with
  | (if ?b then _ else _) = _ => destruct b; [by apply Hhead in Hs|]
  end. discriminate.
Qed.
(** Why a claim is dropped: no guard holds it, it is old enough, and newer claims of its slot that
    stay replace it. *)
Lemma drop_reason i : is_dropped (final_drops registry json_to_string sealed) i = true →
  ∃ key older newer c, (key, older ++ i :: newer) ∈ slots_of json_to_string sealed ∧
    ss_claims sealed !! i = Some c ∧ guarded registry sealed c = false ∧
    old_enough (ss_cut_unix_ms sealed) key.1 (sl_claim c) = true ∧
    replaced_by registry (sl_claim c) (slot_claims sealed (List.filter stays newer)).
Proof.
  intros Hd. destruct (final_drops_settled registry json_to_string sealed) as [Hset [_ Hfewer]].
  destruct (marked_drops_reason _ _ _ _ (Hfewer i Hd)) as [([key ms] & Hslot & p & claim & Hp & Hc & _ & Hold) Hg].
  simpl in *. unfold claim_at in Hc. destruct (ss_claims sealed !! i) as [c|] eqn:Hci; [|done].
  injection Hc as <-. apply list_elem_of_split_length in Hp as (older & newer & -> & _).
  exists key, older, newer, c.
  refine (conj Hslot (conj eq_refl (conj (Hg c eq_refl) (conj Hold _)))).
  destruct (settled_passes _ _ _ _ Hset) as (Hw & _ & _). specialize (Hw _ Hslot). simpl in Hw.
  rewrite reverse_app, reverse_cons, <- app_assoc in Hw. simpl in Hw.
  eapply (replaced_by_incl _ _ (slot_claims sealed (List.filter stays (reverse newer)) ++ [])).
  { intros c'. rewrite app_nil_r, lfilter_reverse, <- slot_claims_reverse. by rewrite elem_of_reverse. }
  eapply (witness_slot_settled _ _ _ _ ∅ []); [set_solver|exact Hw|reflexivity| |exact Hd].
  unfold claim_at. by rewrite Hci.
Qed.

(** A search from the newest claim by something a slot fixes finds a claim that stays. *)
Lemma newest_stays (q : ClaimRecord → bool) :
  (∀ c c' k, slot_of json_to_string c = Some k → slot_of json_to_string c' = Some k → q c = q c') →
  List.find q (reverse claims_after) = List.find q (reverse claims_before).
Proof.
  intros Hq. unfold claims_after, claims_before.
  rewrite !slot_claims_reverse, <- lfilter_reverse, !slot_claims_find, find_filter_kept; [done|].
  intros i Hi. unfold stays, kept. apply negb_true_iff. destruct (is_dropped _ i) eqn:Hd; [exfalso|done].
  apply drop_reason in Hd as (key & older & newer & c & Hslot & Hc & _ & _ & [Hne _]).
  destruct (slot_claims sealed (List.filter stays newer)) as [|c' l] eqn:En; [done|].
  assert (c' ∈ slot_claims sealed (List.filter stays newer)) as Hc' by (rewrite En; left).
  apply list_elem_of_omap in Hc' as (j & Hj & Hc'). apply lfilter_elem in Hj as [Hj _].
  pose proof (slot_members _ _ _ _ Hslot) as (Hnd & _ & He).
  destruct (proj1 (He i)) as [_ Hki]; [apply elem_of_app; right; left|].
  destruct (proj1 (He j)) as [_ Hkj]; [apply elem_of_app; right; by right|].
  apply find_position in Hi as (p & Hp & Hi).
  pose proof Hp as (x & Hx & Hqx & Hbefore)%position_Some. rewrite Hi in Hx. injection Hx as <-.
  assert (on_claim q j = true) as Hqj.
  { unfold on_claim in *. rewrite Hc' in *. unfold claim_at in Hki, Hqx. rewrite Hc in Hki, Hqx.
    simpl in *. by rewrite <- (Hq (sl_claim c) c' key). }
  assert (j ∈ take p (reverse (first_occurrences sealed))) as Hjp.
  { apply take_drop_middle, (f_equal reverse) in Hi. rewrite reverse_involutive, reverse_app, reverse_cons,
      <- app_assoc in Hi. simpl in Hi.
    unfold slots_of in Hslot. destruct (proj1 (elem_of_bt_group slot_compare _ _ _ _) Hslot) as [Hms _].
    unfold group_of in Hms. rewrite <- Hi, List.filter_app in Hms. simpl in Hms.
    rewrite (bool_decide_true _ Hki) in Hms.
    apply NoDup_split_unique in Hms; [|done]. subst newer.
    apply lfilter_elem in Hj as [Hj _]. by rewrite elem_of_reverse in Hj. }
  apply list_elem_of_lookup in Hjp as (m & Hm). apply lookup_take_Some in Hm as [Hm Hlt].
  by rewrite (Hbefore m j Hlt Hm) in Hqj.
Qed.
Lemma filter_filter {A} (p q : A → bool) l :
  List.filter p (List.filter q l) = List.filter (λ x, q x && p x) l.
Proof.
  induction l as [|x l IH]; simpl; [done|].
  destruct (q x); simpl; [destruct (p x)|]; by rewrite IH.
Qed.

Lemma latest_preserved subject kind :
  last (of_kind subject kind claims_after) = last (of_kind subject kind claims_before).
Proof.
  assert (∀ {A} (q : A → bool) l, last (List.filter q l) = List.find q (reverse l)) as Hl.
  { intros A q l. rewrite last_find, <- lfilter_reverse. induction (reverse l) as [|x l' IH]; simpl; [done|].
    by destruct (q x). }
  unfold of_kind. rewrite !Hl. apply newest_stays. intros c c' [r slot] Hc Hc'.
  apply slot_of_head in Hc as [rest ->]. apply slot_of_head in Hc' as [rest' [= -> -> _]]. done.
Qed.

(** The claims of an incarnation's observations are a slot, and a loop's states are one. *)
Lemma incarnation_slot subject incarnation claims :
  List.filter (λ c, ostr_eqb (field_str c "incarnation_id") (Some incarnation))
    (of_kind subject "harness.observed" claims)
  = of_slot json_to_string (HarnessObserved, [subject; "harness.observed"; incarnation]) claims.
Proof.
  unfold of_kind, of_slot. rewrite filter_filter. apply List.filter_ext. intros c.
  apply eq_bool_prop_intro. rewrite !Is_true_true, !andb_true_iff, !str_eqb_true, ostr_eqb_true,
    bool_decide_eq_true. split.
  - intros [[<- Hk] Hi]. unfold slot_of, field_text. rewrite Hk, str_eqb_refl, Hi. simpl.
    unfold field_str in Hi. destruct (field_value c "incarnation_id") as [[]|]; try done.
    simpl in Hi. by injection Hi as ->.
  - intros Hs. pose proof Hs as [rest [= -> Hk _]]%slot_of_head. symmetry in Hk.
    split; [by rewrite Hk|]. unfold slot_of, field_text in Hs. rewrite Hk, str_eqb_refl in Hs.
    destruct (field_str c "incarnation_id") as [i|] eqn:Hi; [|done]. simpl in Hs.
    unfold field_str in Hi. destruct (field_value c "incarnation_id") as [[]|]; try done.
    simpl in Hi. injection Hi as ->. by injection Hs as ->.
Qed.

Lemma loop_slot subject claims :
  of_kind subject "loop.state" claims
  = of_slot json_to_string (LoopState, [subject; "loop.state"]) claims.
Proof.
  unfold of_kind, of_slot. apply List.filter_ext. intros c.
  apply eq_bool_prop_intro. rewrite !Is_true_true, !andb_true_iff, !str_eqb_true, bool_decide_eq_true.
  split.
  - intros [<- Hk]. unfold slot_of. rewrite Hk. done.
  - intros [rest [= -> Hk _]]%slot_of_head. done.
Qed.
Lemma position_in_option {A} (q : A → bool) l p :
  position q l = Some p → p ∈ of_option (position q l).
Proof. intros ->. simpl. by apply elem_of_singleton. Qed.

(** [agent_working_since]: the last other state stays, and every [working] after it. *)
Lemma working_since_preserved key ms :
  (key, ms) ∈ slots_of json_to_string sealed → key.1 = HarnessObserved →
  let cs := slot_claims sealed ms in
  let cs' := slot_claims sealed (List.filter stays ms) in
  List.find harness_working (drop (after_last harness_other cs') cs')
  = List.find harness_working (drop (after_last harness_other cs) cs).
Proof.
  intros Hslot Hkey cs cs'.
  set (keep := rule_keep json_to_string (ss_cut_unix_ms sealed) (closed_requests sealed) key cs).
  assert (Hafter : ∀ p c, after_last harness_other cs ≤ p → cs !! p = Some c → harness_working c = true → p ∈ keep).
  { intros p c Hp Hc Hw. unfold keep, rule_keep. rewrite Hkey. apply elem_of_union_l. unfold harness_keep.
    apply elem_of_union_l, elem_of_union_r, elem_of_map. fold (after_last harness_other cs).
    exists (p - after_last harness_other cs). split; [lia|]. apply elem_of_positions. exists c.
    rewrite lookup_drop. by replace (after_last harness_other cs + (p - after_last harness_other cs)) with p by lia. }
  assert (Hall : ∀ i, i ∈ ms → is_Some (claim_at sealed i)) by (intros; by eapply slot_all).
  assert (Hpart : ∀ n, after_last harness_other cs ≤ n →
    List.find harness_working (slot_claims sealed (List.filter stays (drop n ms)))
    = List.find harness_working (slot_claims sealed (drop n ms))).
  { intros n Hn. rewrite !slot_claims_find, find_filter_kept; [done|]. intros i Hi.
    pose proof Hi as [Hin Hw]%find_Some_elem.
    apply list_elem_of_lookup in Hin as (m & Hm). rewrite lookup_drop in Hm.
    pose proof (slot_claims_all ms Hall) as Hf. destruct (Forall2_lookup_l _ _ _ _ _ Hf Hm) as (c & Hc & Hci).
    eapply keep_stays; [done|exact Hm|]. eapply Hafter; [|exact Hc|]; [lia|].
    unfold on_claim in Hw. by rewrite Hci in Hw. }
  assert (Hdrop : ∀ n, slot_claims sealed (drop n ms) = drop n cs).
  { intros n. unfold cs. pose proof (slot_claims_all ms Hall) as Hf. clear -Hf. revert n.
    induction Hf as [|i c l cs Hc _ IH]; intros [|n]; simpl; [done..| |apply IH].
    unfold slot_claims. csimpl. rewrite Hc. f_equal. apply (IH 0). }
  destruct (rposition harness_other cs) as [p|] eqn:Hp.
  - pose proof Hp as (x & Hx & Hox & Hnone)%rposition_Some.
    pose proof (slot_claims_all ms Hall) as Hf. destruct (Forall2_lookup_r _ _ _ _ _ Hf Hx) as (i & Hi & Hci).
    assert (stays i = true) as Hst.
    { eapply keep_stays; [done|exact Hi|]. unfold rule_keep. rewrite Hkey.
      apply elem_of_union_l. unfold harness_keep. fold cs. rewrite Hp.
      apply elem_of_union_l, elem_of_union_l, elem_of_union_r. simpl. by apply elem_of_singleton. }
    assert (Ea : after_last harness_other cs = S p) by (unfold after_last; by rewrite Hp).
    assert (Ecs' : cs' = slot_claims sealed (List.filter stays (take p ms)) ++ x
              :: slot_claims sealed (List.filter stays (drop (S p) ms))).
    { unfold cs', slot_claims. rewrite <- (take_drop_middle ms p i Hi) at 1.
      rewrite List.filter_app. simpl. rewrite Hst, omap_app. csimpl. by rewrite Hci. }
    rewrite Ecs', after_last_split; [|done|].
    + rewrite Hpart, Hdrop, Ea by lia. done.
    + intros y Hy. apply Hnone. rewrite <- Hdrop. unfold slot_claims in *.
      apply list_elem_of_omap in Hy as (j & [Hj _]%lfilter_elem & Hjy).
      apply list_elem_of_omap. eauto.
  - assert (Ea : after_last harness_other cs = 0) by (unfold after_last; by rewrite Hp).
    rewrite Ea, (after_last_none harness_other cs').
    + specialize (Hpart 0 ltac:(lia)). by rewrite !drop_0 in *.
    + intros x Hx. apply (rposition_None _ _ Hp). unfold cs, cs', slot_claims in *.
      apply list_elem_of_omap in Hx as (j & [Hj _]%lfilter_elem & Hjx). apply list_elem_of_omap. eauto.
Qed.

Lemma harness_answer_preserved key ms :
  (key, ms) ∈ slots_of json_to_string sealed → key.1 = HarnessObserved →
  harness_answer (slot_claims sealed (List.filter stays ms)) = harness_answer (slot_claims sealed ms).
Proof.
  intros Hslot Hkey. unfold harness_answer.
  rewrite (working_since_preserved key ms Hslot Hkey), !existsb_find.
  rewrite !(slot_find key ms Hslot); [done|..].
  all: intros p Hp; unfold rule_keep; rewrite Hkey; apply elem_of_union_l; unfold harness_keep.
  - do 3 apply elem_of_union_l. apply elem_of_union_r. by apply position_in_option.
  - do 4 apply elem_of_union_l. apply elem_of_union_r. by apply position_in_option.
Qed.

Lemma open_deferrals_stay key ms :
  (key, ms) ∈ slots_of json_to_string sealed → key.1 = Deferral →
  (default "" (head key.2), default "" (last key.2)) ∉ closed_requests sealed →
  List.filter stays ms = ms.
Proof.
  intros Hslot Hkey Hopen.
  assert (∀ i, i ∈ ms → stays i = true) as Hall.
  { intros i (p & Hp)%list_elem_of_lookup. eapply keep_stays; [done|exact Hp|].
    unfold rule_keep. rewrite Hkey, bool_decide_false by done. apply elem_of_union_l.
    apply elem_of_list_to_set, elem_of_seq. erewrite length_slot_claims by done.
    apply lookup_lt_Some in Hp. lia. }
  clear -Hall. induction ms as [|i ms IH]; simpl; [done|].
  rewrite (Hall i) by left. f_equal. apply IH. intros j Hj. apply Hall. by right.
Qed.

Lemma cumulative_preserved key ms :
  (key, ms) ∈ slots_of json_to_string sealed → key.1 = UsageCumulative →
  (∀ x, x ∈ slot_claims sealed ms → carries "total_tokens" x = true → is_Some (cumulative_total x)) →
  cumulative_reading (slot_claims sealed (List.filter stays ms)) = cumulative_reading (slot_claims sealed ms).
Proof.
  intros Hslot Hkey Htyped.
  assert (Hsub : ∀ l, ∀ x, x ∈ slot_claims sealed (List.filter stays l) → x ∈ slot_claims sealed l).
  { intros l x (j & [Hj _]%lfilter_elem & Hjx)%list_elem_of_omap. apply list_elem_of_omap. eauto. }
  destruct (cumulative_reading (slot_claims sealed ms)) as [c|] eqn:Hr.
  - apply cumulative_reading_Some in Hr as (pre & post & t & Hreads).
    pose proof Hreads as (Ecs & Ht & Hpre & Hpost). rewrite Ecs in Hreads, Htyped.
    assert (Hall : ∀ i, i ∈ ms → is_Some (claim_at sealed i)) by (intros; by eapply slot_all).
    pose proof (slot_claims_all ms Hall) as Hf. rewrite Ecs in Hf.
    apply Forall2_app_inv_r in Hf as (mpre & mrest & Hfp & Hfr & Ems).
    apply Forall2_cons_inv_r in Hfr as (i & mpost & Hi & Hfpost & ->).
    assert (∀ l cs, Forall2 (λ i c, claim_at sealed i = Some c) l cs → slot_claims sealed l = cs) as Hsl.
    { unfold slot_claims. clear. induction 1 as [|j x l cs Hj _ IH]; csimpl; [done|]. by rewrite Hj, IH. }
    assert (stays i = true) as Hst.
    { eapply (keep_stays _ _ Hslot (length mpre)).
      - rewrite Ems. by rewrite lookup_app_r, Nat.sub_diag.
      - rewrite (Forall2_length _ _ _ Hfp), Ecs. by apply (cumulative_keep _ _ _ _ _ _ _ t). }
    eapply (reads_at_reading _ (slot_claims sealed (List.filter stays mpre)) c
              (slot_claims sealed (List.filter stays mpost)) t). repeat split.
    + rewrite Ems, List.filter_app. simpl. rewrite Hst. unfold slot_claims. rewrite omap_app. csimpl.
      by rewrite Hi.
    + done.
    + intros x t' Hx. apply Hpre. rewrite <- (Hsl mpre pre Hfp). by apply Hsub.
    + intros x t' Hx. apply Hpost. rewrite <- (Hsl mpost post Hfpost). by apply Hsub.
  - apply cumulative_none. intros x Hx%Hsub. by eapply cumulative_reading_None.
Qed.
Lemma newest_field_preserved key name : key.1 ≠ LoopState →
  newest_field name (of_slot json_to_string key claims_after)
  = newest_field name (of_slot json_to_string key claims_before).
Proof.
  intros Hkey. apply of_slot_cases; [done|]. intros ms Hslot. unfold newest_field. f_equal.
  apply (slot_rfind key ms Hslot). intros p Hp. by eapply rule_keep_carriers.
Qed.

Lemma deferral_preserved subject request : (subject, request) ∉ closed_requests sealed →
  deferral_answer json_to_string subject request claims_after
  = deferral_answer json_to_string subject request claims_before.
Proof.
  intros Hopen. unfold deferral_answer.
  assert (Hown : ∀ claims,
    List.filter (λ c, ostr_eqb (field_str c "request") (Some request))
      (of_kind subject "subscription.mission-deferred" claims)
    = List.filter (λ c, ostr_eqb (field_str c "request") (Some request))
        (of_slot json_to_string (Deferral, [subject; "subscription.mission-deferred"; request]) claims)).
  { intros claims. unfold of_kind, of_slot. rewrite !filter_filter. apply List.filter_ext. intros c.
    apply eq_bool_prop_intro. rewrite !Is_true_true, !andb_true_iff, !str_eqb_true, bool_decide_eq_true.
    split; intros [Hs Hr]; (split; [|done]).
    - destruct Hs as [<- Hk]. apply ostr_eqb_true in Hr. unfold slot_of. rewrite Hk.
      change (Some (Deferral, [cr_subject c; "subscription.mission-deferred"; field_text json_to_string c "request"])
              = Some (Deferral, [cr_subject c; "subscription.mission-deferred"; request])).
      unfold field_text. unfold field_str in Hr.
      destruct (field_value c "request") as [[]|]; try done. simpl in Hr. by injection Hr as ->.
    - apply slot_of_head in Hs as [rest [= -> -> _]]. done. }
  rewrite !Hown.
  assert (of_slot json_to_string (Deferral, [subject; "subscription.mission-deferred"; request]) claims_after
          = of_slot json_to_string (Deferral, [subject; "subscription.mission-deferred"; request]) claims_before)
    as ->; [|done].
  apply (of_slot_cases _ (λ a b, a = b)); [done|]. intros ms Hslot.
  by rewrite (open_deferrals_stay _ _ Hslot).
Qed.

Lemma loop_preserved subject : loop_answer subject claims_after = loop_answer subject claims_before.
Proof.
  unfold loop_answer. rewrite latest_preserved. f_equal. f_equal. rewrite !loop_slot.
  apply (of_slot_cases _ (λ a b, List.find _ a = List.find _ b)); [done|]. intros ms Hslot.
  apply (slot_find _ ms Hslot). intros p Hp. unfold rule_keep, loop_keep. simpl.
  apply elem_of_union_l, elem_of_union_r. by apply position_in_option.
Qed.
End preserved.

(** ** A plan's tombstones *)

Section tombstones.
Context `{NumberApi}.
Context (registry : string → option ClaimSpec) (json_to_string : Value → string).
Context (sha256 : list ascii → list ascii) (hex : list ascii → string).
Context (sealed : SealedSet).

(** What holds of a sealed set read from the store once every earlier trim has finished: its rows
    are before the cut and distinct, and no claim in it, nor its envelope, has a tombstone already.
    The envelopes include those an earlier checkpoint dropped, which hold no claims. *)
Definition sealed_ok : Prop :=
  let cut := ss_cut_unix_ms sealed in
  (∀ e, e ∈ ss_envelopes sealed → (se_accepted_at_unix_ms e < cut)%Z) ∧
  NoDup (map se_key (ss_envelopes sealed)) ∧
  (∀ c, c ∈ ss_claims sealed → (cr_accepted_at_unix_ms (sl_claim c) < cut)%Z ∧
     (cr_id (sl_claim c) ∉ map tb_id (ss_claim_tombstones sealed)) ∧
     sl_envelope c ∉ map et_key (ss_envelope_tombstones sealed)) ∧
  manifest_well_formed
    (mkCheckpointManifest "" cut (ss_envelope_tombstones sealed) (ss_claim_tombstones sealed)).

Let plan := plan_drops registry json_to_string sha256 hex sealed.
Let d := final_drops registry json_to_string sealed.

Definition tombstone_of (e : SealedEnvelope) : EnvelopeTombstone :=
  mkEnvelopeTombstone (ek_writer (se_key e)) (ek_sequence (se_key e))
    (ek_envelope_hash (se_key e)) (se_accepted_at_unix_ms e).

Lemma tombstone_of_key e : et_key (tombstone_of e) = se_key e.
Proof. by destruct e as [[] ? ?]. Qed.

Lemma plan_claim t : t ∈ dp_claims plan ↔
  ∃ i c, i ∈ first_occurrences sealed ∧ is_dropped d i = true ∧ ss_claims sealed !! i = Some c
         ∧ t = claim_tombstone c.
Proof.
  unfold plan, plan_drops. cbn [dp_claims]. rewrite (elem_of_bt_set ClaimTombstone_compare).
  rewrite list_elem_of_omap. split.
  - intros (i & [Hi Hd]%lfilter_elem & (c & Hc & ->)%fmap_Some). by exists i, c.
  - intros (i & c & Hi & Hd & Hc & ->). exists i. rewrite lfilter_elem, Hc. done.
Qed.

Lemma plan_envelope_of t : t ∈ dp_envelopes plan →
  ∃ e c, e ∈ ss_envelopes sealed ∧ t = tombstone_of e ∧ c ∈ ss_claims sealed ∧ sl_envelope c = se_key e.
Proof.
  unfold plan, plan_drops. cbn [dp_envelopes]. rewrite (elem_of_bt_set EnvelopeTombstone_compare).
  intros (e & -> & [He Hk%bool_decide_eq_true]%lfilter_elem)%list_elem_of_fmap.
  apply list_elem_of_fmap in Hk as ([k ms] & Hk & [Hg _]%lfilter_elem). cbn in Hk. subst k.
  unfold envelope_claims_of in Hg. destruct (proj1 (elem_of_bt_group EnvelopeKey_compare _ _ _ _) Hg) as [-> Hne].
  destruct (group_of _ _ _) as [|i ms] eqn:Eg; [done|].
  assert (i ∈ group_of (λ i, sl_envelope <$> (ss_claims sealed !! i)) (se_key e)
            (seq 0 (length (ss_claims sealed)))) as Hi by (rewrite Eg; left).
  apply lfilter_elem in Hi as [_ Hi%bool_decide_eq_true]. apply fmap_Some in Hi as (c & Hc & Hi).
  exists e, c. split_and!; [done..|by eapply list_elem_of_lookup_2|done].
Qed.

(** The envelope of a dropped claim is dropped. *)
Lemma dropped_claim_envelope i c :
  ss_claims sealed !! i = Some c → is_dropped d i = true →
  sl_envelope c ∈ map et_key (dp_envelopes plan).
Proof.
  intros Hc Hd. pose proof (envelope_records registry json_to_string sealed i c Hc Hd) as Hr.
  unfold records_of in Hr. apply fmap_Some in Hr as (e & He & _).
  apply last_Some_elem_of, lfilter_elem in He as [He Hk%bool_decide_eq_true].
  apply list_elem_of_fmap. exists (tombstone_of e). rewrite tombstone_of_key. split; [done|].
  unfold plan, plan_drops. cbn [dp_envelopes].
  apply (elem_of_bt_set EnvelopeTombstone_compare), list_elem_of_fmap.
  exists e. split; [done|]. apply lfilter_elem. split; [done|]. apply bool_decide_eq_true.
  rewrite Hk. apply list_elem_of_fmap.
  destruct (group_member EnvelopeKey_compare (λ i, sl_envelope <$> (ss_claims sealed !! i))
              (length (ss_claims sealed)) (sl_envelope c) i) as [Hg _];
    [by eapply lookup_lt_Some|by rewrite Hc|].
  eexists (_, _). split; [reflexivity|]. apply lfilter_elem. split; [exact Hg|].
  apply forallb_in. intros j [Hj Hjk%bool_decide_eq_true]%lfilter_elem.
  destruct (ss_claims sealed !! j) as [c'|] eqn:Hj'; [|done]. injection Hjk as Hjk.
  by apply (envelope_whole registry json_to_string sealed i j c c').
Qed.

Lemma first_occurrences_distinct i j c c' :
  i ∈ first_occurrences sealed → j ∈ first_occurrences sealed →
  ss_claims sealed !! i = Some c → ss_claims sealed !! j = Some c' →
  cr_id (sl_claim c) = cr_id (sl_claim c') → i = j.
Proof.
  assert (∀ i j c c', j ∈ first_occurrences sealed → i < j → ss_claims sealed !! i = Some c →
    ss_claims sealed !! j = Some c' → cr_id (sl_claim c) ≠ cr_id (sl_claim c')) as Hlt.
  { clear. intros i j c c' Hj Hlt Hc Hc' E.
    apply first_occurrences_elem in Hj as (c0 & Hc0 & Hn). rewrite Hc' in Hc0. injection Hc0 as <-.
    apply Hn. rewrite <- E. apply (list_elem_of_lookup_2 _ i). rewrite lookup_take_lt by done.
    unfold sealed_ids. by rewrite list_lookup_fmap, Hc. }
  intros Hi Hj Hc Hc' E. destruct (Nat.lt_trichotomy i j) as [H1|[?|H1]]; [|done|]; exfalso.
  - by eapply (Hlt i j).
  - by eapply (Hlt j i).
Qed.

Lemma plan_manifest_well_formed checkpoint : sealed_ok →
  manifest_well_formed (mkCheckpointManifest checkpoint (ss_cut_unix_ms sealed)
    (ss_envelope_tombstones sealed ++ dp_envelopes plan) (ss_claim_tombstones sealed ++ dp_claims plan)).
Proof.
  intros (Henv & Hkeys & Hclaims & He & Hne & Hc & Hnc). cbn in He, Hne, Hc, Hnc.
  rewrite List.Forall_forall in He, Hc. setoid_rewrite <- list_elem_of_In in He.
  setoid_rewrite <- list_elem_of_In in Hc.
  split_and!; cbn; rewrite ?map_app.
  - apply List.Forall_forall. intros t [Ht|Ht]%list_elem_of_In%elem_of_app; [by apply He|].
    apply plan_envelope_of in Ht as (e & c & Hin & -> & _). by apply Henv.
  - apply NoDup_app. split; [done|]. split.
    + intros k Hk (t & -> & Ht)%list_elem_of_fmap.
      apply plan_envelope_of in Ht as (e & c & _ & -> & Hcin & Hce).
      rewrite tombstone_of_key, <- Hce in Hk. destruct (Hclaims c Hcin) as (_ & _ & Hn). by apply Hn.
    + apply NoDup_fmap_2_strong; [|apply bt_set_NoDup; apply _].
      intros t t' (e & c & Hin & -> & _)%plan_envelope_of (e' & c' & Hin' & -> & _)%plan_envelope_of.
      rewrite !tombstone_of_key. intros E. f_equal.
      apply list_elem_of_lookup in Hin as (i & Hi). apply list_elem_of_lookup in Hin' as (j & Hj).
      assert (i = j) as ->; [|congruence].
      eapply (NoDup_lookup _ i j (se_key e)); [exact Hkeys|..]; rewrite list_lookup_fmap.
      * by rewrite Hi.
      * rewrite Hj. simpl. by rewrite E.
  - apply List.Forall_forall. intros t [Ht|Ht]%list_elem_of_In%elem_of_app.
    + destruct (Hc t Ht). split; [|done]. apply elem_of_app. by left.
    + apply plan_claim in Ht as (i & c & Hi & Hd & Hci & ->). split.
      * apply elem_of_app. right. change (tb_key (claim_tombstone c)) with (mkEnvelopeKey
          (ek_writer (sl_envelope c)) (ek_sequence (sl_envelope c)) (ek_envelope_hash (sl_envelope c))).
        replace (mkEnvelopeKey _ _ _) with (sl_envelope c) by by destruct (sl_envelope c).
        by eapply dropped_claim_envelope.
      * apply (Hclaims c). by eapply list_elem_of_lookup_2.
  - apply NoDup_app. split; [done|]. split.
    + intros id Hid (t & -> & Ht)%list_elem_of_fmap. apply plan_claim in Ht as (i & c & _ & _ & Hci & ->).
      destruct (Hclaims c (list_elem_of_lookup_2 _ _ _ Hci)) as (_ & Hn & _). by apply Hn.
    + apply NoDup_fmap_2_strong; [|apply bt_set_NoDup; apply _].
      intros t t' (i & c & Hi & _ & Hci & ->)%plan_claim (j & c' & Hj & _ & Hcj & ->)%plan_claim E.
      assert (i = j) as -> by by eapply first_occurrences_distinct. congruence.
Qed.
End tombstones.

(** ** The properties of a plan *)

Section properties.
Context `{NumberApi}.
Context (registry : string → option ClaimSpec) (json_to_string : Value → string).

(** C10. A claim is dropped only when no guard holds it, it is old enough for its rule, and claims of
    its slot that stay and are newer in canonical order set every field it sets again (or clear
    them, for a state transition); and then every claim of its envelope and of its operation is
    dropped with it, and the envelope has no record but those. *)
Theorem drops_are_replaced_and_whole sealed i :
  is_dropped (final_drops registry json_to_string sealed) i = true →
  ∃ key older newer c,
    (key, older ++ i :: newer) ∈ slots_of json_to_string sealed ∧
    ss_claims sealed !! i = Some c ∧ guarded registry sealed c = false ∧
    old_enough (ss_cut_unix_ms sealed) key.1 (sl_claim c) = true ∧
    replaced_by registry (sl_claim c)
      (slot_claims sealed (List.filter (stays registry json_to_string sealed) newer)) ∧
    (∀ j c', ss_claims sealed !! j = Some c' → sl_envelope c' = sl_envelope c →
       is_dropped (final_drops registry json_to_string sealed) j = true) ∧
    (∀ j c' operation, ss_claims sealed !! j = Some c' →
       cr_operation_id (sl_claim c) = Some operation → cr_operation_id (sl_claim c') = Some operation →
       is_dropped (final_drops registry json_to_string sealed) j = true) ∧
    records_of sealed (sl_envelope c)
    = Some (length (List.filter (λ c', bool_decide (sl_envelope c' = sl_envelope c)) (ss_claims sealed))).
Proof.
  intros Hd. destruct (drop_reason _ _ _ i Hd) as (key & older & newer & c & Hslot & Hc & Hg & Hold & Hr).
  exists key, older, newer, c. do 5 (split; [done|]). split; [|split].
  - intros j c' Hj He. eapply envelope_whole; [exact Hc|exact Hj|exact He|exact Hd].
  - intros j c' operation Hj Ho Ho'. eapply operation_whole; [exact Hc|exact Hj|exact Ho|exact Ho'|exact Hd].
  - by eapply envelope_records.
Qed.

(** C9. No answer about a subject that is read from the claims changes with the drops: the newest
    claim of every kind; whether each incarnation was ever ready and since when it works; a loop's
    newest state and items; an open request's deferrals; the newest claim of every slot and, but
    for loop states, the newest value of each of its fields. *)
Theorem plan_preserves_answers sealed subject :
  let before := claims_before sealed in
  let after := claims_after registry json_to_string sealed in
  (∀ kind, latest_answer subject kind after = latest_answer subject kind before) ∧
  (∀ incarnation, incarnation_answer subject incarnation after
                  = incarnation_answer subject incarnation before) ∧
  loop_answer subject after = loop_answer subject before ∧
  (∀ request, (subject, request) ∉ closed_requests sealed →
     deferral_answer json_to_string subject request after
     = deferral_answer json_to_string subject request before) ∧
  (∀ key, last (of_slot json_to_string key after) = last (of_slot json_to_string key before)) ∧
  (∀ key name, key.1 ≠ LoopState →
     newest_field name (of_slot json_to_string key after)
     = newest_field name (of_slot json_to_string key before)).
Proof.
  split_and!.
  - intros kind. unfold latest_answer. by rewrite latest_preserved.
  - intros incarnation. unfold incarnation_answer. rewrite !(incarnation_slot json_to_string).
    apply (of_slot_cases registry json_to_string sealed _ (λ a b, harness_answer a = harness_answer b));
      [done|]. intros ms Hslot. by eapply harness_answer_preserved.
  - apply loop_preserved.
  - intros request. apply deferral_preserved.
  - intros key. apply (of_slot_cases registry json_to_string sealed key (λ a b, last a = last b)); [done|].
    intros ms Hslot. by eapply slot_last.
  - intros key name. apply newest_field_preserved.
Qed.

(** A usage period read from what stays has the same ends: of each rollup series, the last snapshot
    of every hour of the window and the newest before it; of a session's cumulative usage, the
    reading itself, when a claim's total is a number. *)
Theorem plan_preserves_usage sealed key :
  let before := of_slot json_to_string key (claims_before sealed) in
  let after := of_slot json_to_string key (claims_after registry json_to_string sealed) in
  let window := sat_sub (ss_cut_unix_ms sealed) USAGE_WINDOW_MS in
  match key.1 with
  | UsageSeries =>
      (∀ hour, List.find (λ c, (window <=? usage_observed_at c)%Z
                               && (usage_observed_at c / HOUR_MS =? hour)%Z) (reverse after)
               = List.find (λ c, (window <=? usage_observed_at c)%Z
                               && (usage_observed_at c / HOUR_MS =? hour)%Z) (reverse before)) ∧
      List.find (λ c, (usage_observed_at c <? window)%Z) (reverse after)
      = List.find (λ c, (usage_observed_at c <? window)%Z) (reverse before)
  | UsageCumulative =>
      (∀ x, x ∈ before → carries "total_tokens" x = true → is_Some (cumulative_total x)) →
      cumulative_reading after = cumulative_reading before
  | _ => True
  end.
Proof.
  cbv zeta. destruct (key.1) eqn:Hkey; try done.
  - apply (of_slot_cases registry json_to_string sealed key (λ a b, (∀ hour, List.find _ (reverse a)
      = List.find _ (reverse b)) ∧ List.find _ (reverse a) = List.find _ (reverse b))); [done|].
    intros ms Hslot. split; [intros hour|]; apply (slot_rfind _ _ _ key ms Hslot); intros p Hp;
      unfold rule_keep; rewrite Hkey; apply elem_of_union_l.
    + by eapply usage_series_keeps_hours.
    + by eapply usage_series_keeps_baseline.
  - apply (of_slot_cases registry json_to_string sealed key (λ a b,
      (∀ x, x ∈ b → carries "total_tokens" x = true → is_Some (cumulative_total x)) →
      cumulative_reading a = cumulative_reading b)); [done|].
    intros ms Hslot. by eapply cumulative_preserved.
Qed.

(** A plan agrees with the check every other node makes: the manifest of what it drops, with what
    earlier checkpoints dropped, is accepted against the plan's drop digest. *)
Lemma accepted_plan sha256 hex sealed checkpoint :
  sealed_ok sealed →
  let plan := plan_drops registry json_to_string sha256 hex sealed in
  verify_checkpoint_manifest sha256 hex
    (mkCheckpointManifest checkpoint (dp_cut_unix_ms plan)
       (ss_envelope_tombstones sealed ++ dp_envelopes plan)
       (ss_claim_tombstones sealed ++ dp_claims plan)) (dp_drop_digest plan) = Ok tt.
Proof.
  intros Hok plan. pose proof (plan_manifest_well_formed registry json_to_string sha256 hex sealed
    checkpoint Hok) as Hwf. fold plan in Hwf.
  change (ss_cut_unix_ms sealed) with (dp_cut_unix_ms plan) in Hwf. set (m := mkCheckpointManifest _ _ _ _) in *.
  pose proof (verify_manifest_cases sha256 hex m (dp_drop_digest plan)) as Hv.
  destruct (verify_checkpoint_manifest _ _ _ _) as [[]|e]; [done|].
  destruct Hv as [[_ Hn]|(_ & _ & Hn)]; [done|]. by destruct Hn.
Qed.
End properties.

(** ** Witnesses *)

Section witnesses.
#[local] Existing Instance integer_numbers.

Lemma drops_are_replaced_witness :
  ∃ key older newer c,
    (key, older ++ 0 :: newer) ∈ slots_of example_text example_sealed ∧
    ss_claims example_sealed !! 0 = Some c ∧ guarded example_registry example_sealed c = false.
Proof.
  destruct (drops_are_replaced_and_whole example_registry example_text example_sealed 0)
    as (key & older & newer & c & H1 & H2 & H3 & _); [vm_compute; reflexivity|].
  by exists key, older, newer, c.
Defined.

End witnesses.
