(* ===== verification/Membership.v ===== *)
(** * The membership fold

    Models [crates/smallclaims/src/fleet/membership.rs]: admitted [fleet.*] claims become
    incarnations of member keys and writer windows. The fold iterates "which claims count" from the
    pinned anchor until it reaches a fixed point, gives up on an alternation, or runs out of its
    iteration limit. Maps and sets are the source's [BTreeMap]s and [BTreeSet]s. *)

From S2P Require Import Prelude StableSort Text Json.

Definition MEMBER_ADMITTED : string := "fleet.member-admitted".
Definition MEMBER_ENDPOINTS : string := "fleet.member-endpoints".
Definition MEMBER_LEFT : string := "fleet.member-left".
Definition MEMBER_REMOVED : string := "fleet.member-removed".

Section membership.
Context `{NumberApi}.

Record FleetClaim := mkFleetClaim {
  fc_id : string;
  fc_kind : string;
  fc_subject : string;
  fc_fields : gmap string Value;
  fc_writer : string;
  fc_sequence : Z;
  fc_signers : gset string
}.

Definition claim_name (c : FleetClaim) : option string := strip_prefix "host/" (fc_subject c).
Definition claim_text (c : FleetClaim) (field : string) : option string :=
  fc_fields c !! field ≫= as_str.
Definition claim_number (c : FleetClaim) (field : string) : option Z :=
  fc_fields c !! field ≫= as_u64.

(** One member key under one node name, and the window of that writer's sequences it signs. *)
Record Incarnation := mkIncarnation {
  inc_name : string;
  inc_member_key : string;
  inc_via : string;
  inc_mode : string;
  inc_sponsor : option string;
  inc_admitted_claim : string;
  inc_start : Z;
  inc_end : option Z;
  inc_ended : option string;
  inc_removed_by : option string;
  inc_removal_reason : option string;
  inc_endpoints : list Value;
  inc_endpoints_sequence : option Z
}.

Definition holds (i : Incarnation) (sequence : Z) : bool :=
  (inc_start i <=? sequence)%Z && is_none_or (inc_end i) (λ e, (sequence <=? e)%Z).

Inductive Window :=
| Legacy
| Keyed (keys : gset string)
| Fenced.

Inductive MemberState :=
| Current (i : Incarnation)
| Conflicted (l : list Incarnation)
| Ended (i : Incarnation)
| LegacyRemoved (high_water : Z)
| NotMember.

Record Membership := mkMembership {
  anchor : option string;
  incarnations : gmap string (list Incarnation);
  legacy_ends : gmap string Z;
  valid : gset string
}.

Definition no_membership : Membership := mkMembership None ∅ ∅ ∅.

(** ** Reading a membership *)

Definition writer_incarnations (m : Membership) (writer : string) : list Incarnation :=
  default [] (incarnations m !! writer).

Definition keys_for (m : Membership) (writer : string) (sequence : Z) : gset string :=
  list_to_set (map inc_member_key
    (List.filter (λ i, holds i sequence) (writer_incarnations m writer))).

Definition counts (m : Membership) (claim_id : string) : bool := bool_decide (claim_id ∈ valid m).

Definition is_keyed_writer (m : Membership) (writer : string) : bool :=
  match incarnations m !! writer with
  | Some (_ :: _) => true
  | _ => false
  end.

(** [Iterator::min] over integers. *)
Definition iter_min (l : list Z) : option Z :=
  match l with
  | [] => None
  | x :: l' => Some (fold_left Z.min l' x)
  end.

Definition window (m : Membership) (writer : string) (sequence : Z) : Window :=
  let keys := keys_for m writer sequence in
  if negb (bool_decide (keys = ∅)) then Keyed keys
  else if existsb (λ i, (inc_start i <=? 1)%Z) (writer_incarnations m writer) then Fenced
  else
    let legacy_end :=
      iter_min (option_list (legacy_ends m !! writer)
                ++ option_list ((λ start, sat_sub start 1)
                     <$> iter_min (map inc_start (writer_incarnations m writer)))) in
    match legacy_end with
    | Some e => if (e <? sequence)%Z then Fenced else Legacy
    | None => Legacy
    end.

(** [Iterator::max_by_key]: the last of the greatest. *)
Definition max_by_start (l : list Incarnation) : option Incarnation :=
  match l with
  | [] => None
  | x :: l' => Some (fold_left (λ best i, if (inc_start best <=? inc_start i)%Z then i else best) l' x)
  end.

Definition state (m : Membership) (name : string) : MemberState :=
  let all := writer_incarnations m name in
  match List.filter (λ i, is_none (inc_end i)) all with
  | [i] => Current i
  | [] =>
      match max_by_start all with
      | Some latest => Ended latest
      | None =>
          match legacy_ends m !! name with
          | Some high_water => LegacyRemoved high_water
          | None => NotMember
          end
      end
  | current => Conflicted current
  end.

(** ** Building a membership from the claims that count *)

(** Applying [f] to the first incarnation with [key] ([iter_mut().find]). *)
Fixpoint update_first (key : string) (f : Incarnation → Incarnation) (l : list Incarnation)
    : list Incarnation :=
  match l with
  | [] => []
  | i :: l' => if str_eqb (inc_member_key i) key then f i :: l' else i :: update_first key f l'
  end.

Definition with_incarnations (m : Membership) (g : gmap string (list Incarnation)) : Membership :=
  mkMembership (anchor m) g (legacy_ends m) (valid m).

Definition update_incarnation (m : Membership) (name key : string)
    (f : Incarnation → Incarnation) : Membership :=
  with_incarnations m (alter (update_first key f) name (incarnations m)).

Definition writer_start (c : FleetClaim) : Z :=
  sat_add64 (default 0%Z (claim_number c "writer_floor")) 1.

(** One admission of the first loop of [build]. *)
Definition admit_claim (m : Membership) (c : FleetClaim) : Membership :=
  match claim_name c, claim_text c "member_key" with
  | Some name, Some key =>
      let known := default [] (incarnations m !! name) in
      if existsb (λ i, str_eqb (inc_member_key i) key) known
      then with_incarnations m (<[name := known]> (incarnations m))
      else
        let i := mkIncarnation name key
                   (default "" (claim_text c "via"))
                   (default "listening" (claim_text c "mode"))
                   (claim_text c "sponsor")
                   (fc_id c)
                   (writer_start c)
                   None None None None [] None in
        with_incarnations m (<[name := known ++ [i]]> (incarnations m))
  | _, _ => m
  end.

Definition end_incarnation (c : FleetClaim) (high_water : Z) (i : Incarnation) : Incarnation :=
  let ended := if str_eqb (fc_kind c) MEMBER_LEFT then "left" else "removed" in
  let new_end := Some (match inc_end i with None => high_water | Some e => Z.max e high_water end) in
  if negb (ostr_eqb (inc_ended i) (Some "removed")) then
    let removed := str_eqb ended "removed" in
    mkIncarnation (inc_name i) (inc_member_key i) (inc_via i) (inc_mode i) (inc_sponsor i)
      (inc_admitted_claim i) (inc_start i) new_end (Some ended)
      (if removed then claim_text c "removed_by" else inc_removed_by i)
      (if removed then claim_text c "reason" else inc_removal_reason i)
      (inc_endpoints i) (inc_endpoints_sequence i)
  else
    mkIncarnation (inc_name i) (inc_member_key i) (inc_via i) (inc_mode i) (inc_sponsor i)
      (inc_admitted_claim i) (inc_start i) new_end (inc_ended i) (inc_removed_by i)
      (inc_removal_reason i) (inc_endpoints i) (inc_endpoints_sequence i).

Definition set_endpoints (c : FleetClaim) (i : Incarnation) : Incarnation :=
  if is_none_or (inc_endpoints_sequence i) (λ s, (s <? fc_sequence c)%Z) then
    mkIncarnation (inc_name i) (inc_member_key i) (inc_via i)
      (default (inc_mode i) (claim_text c "mode")) (inc_sponsor i)
      (inc_admitted_claim i) (inc_start i) (inc_end i) (inc_ended i) (inc_removed_by i)
      (inc_removal_reason i)
      (default [] (fc_fields c !! "endpoints" ≫= as_array))
      (Some (fc_sequence c))
  else i.

(** One claim of the second loop of [build]: removals, leaves and endpoints. *)
Definition update_claim (m : Membership) (c : FleetClaim) : Membership :=
  match claim_name c with
  | None => m
  | Some name =>
      if str_eqb (fc_kind c) MEMBER_REMOVED || str_eqb (fc_kind c) MEMBER_LEFT then
        match claim_number c "high_water" with
        | None => m
        | Some high_water =>
            match claim_text c "member_key" with
            | Some key => update_incarnation m name key (end_incarnation c high_water)
            | None =>
                mkMembership (anchor m) (incarnations m)
                  (<[name := Z.max (default 0%Z (legacy_ends m !! name)) high_water]> (legacy_ends m))
                  (valid m)
            end
        end
      else if str_eqb (fc_kind c) MEMBER_ENDPOINTS then
        match claim_text c "member_key" with
        | None => m
        | Some key => update_incarnation m name key (set_endpoints c)
        end
      else m
  end.

Definition build (root : string) (claims : list FleetClaim) (counted_ids : gset string) : Membership :=
  let counted := List.filter (λ c, bool_decide (fc_id c ∈ counted_ids)) claims in
  let admitted :=
    fold_left admit_claim (List.filter (λ c, str_eqb (fc_kind c) MEMBER_ADMITTED) counted)
      (mkMembership (Some root) ∅ ∅ counted_ids) in
  fold_left update_claim counted admitted.

(** ** Which claims count *)

Definition claim_counts (root : string) (c : FleetClaim) (m : Membership) : bool :=
  let name := claim_name c in
  if str_eqb (fc_kind c) MEMBER_ADMITTED && ostr_eqb (claim_text c "via") (Some "anchor") then
    let start := writer_start c in
    let e := List.find (λ i, str_eqb (inc_member_key i) root) (writer_incarnations m (fc_writer c))
               ≫= inc_end in
    ostr_eqb (claim_text c "member_key") (Some root)
    && ostr_eqb name (Some (fc_writer c))
    && bool_decide (root ∈ fc_signers c)
    && (start <=? fc_sequence c)%Z
    && is_none_or e (λ e, (fc_sequence c <=? e)%Z)
  else
    let keys := keys_for m (fc_writer c) (fc_sequence c) in
    let signed := negb (bool_decide (fc_signers c ∩ keys = ∅)) in
    if negb signed then false
    else if str_eqb (fc_kind c) MEMBER_ENDPOINTS || str_eqb (fc_kind c) MEMBER_LEFT then
      is_some_and (claim_text c "member_key") (λ key,
        ostr_eqb name (Some (fc_writer c)) && bool_decide (key ∈ keys)
        && bool_decide (key ∈ fc_signers c))
    else if str_eqb (fc_kind c) MEMBER_ADMITTED then
      is_some_and name (λ name, negb (str_eqb name (fc_writer c)))
    else true.

Definition valid_claims (root : string) (claims : list FleetClaim) (m : Membership) : gset string :=
  list_to_set (map fc_id (List.filter (λ c, claim_counts root c m) claims)).

(** ** The fixed-point iteration *)

(** How the loop of [fold] ends: at a fixed point, or with the last two sets. *)
Inductive loop_end :=
| Converged (current : gset string)
| Alternating (previous : option (gset string)) (current : gset string).

Fixpoint iterate (limit : nat) (root : string) (claims : list FleetClaim)
    (previous : option (gset string)) (current : gset string) : loop_end :=
  match limit with
  | O => Alternating previous current
  | S limit' =>
      let next := valid_claims root claims (build root claims current) in
      if decide (next = current) then Converged current
      else if decide (previous = Some next) then Alternating previous current
      else iterate limit' root claims (Some current) next
  end.

Definition iteration_limit (claims : list FleetClaim) : nat := 2 * length claims + 4.

Definition fold_claims (claims : list FleetClaim) : list FleetClaim :=
  sort_by (key_leb String.leb fc_id) (List.filter (λ c, starts_with "fleet." (fc_kind c)) claims).

Definition fold (root : option string) (all : list FleetClaim) : Membership :=
  let claims := fold_claims all in
  match root with
  | None => no_membership
  | Some root =>
      match iterate (iteration_limit claims) root claims None ∅ with
      | Converged current => build root claims current
      | Alternating (Some previous) current => build root claims (current ∩ previous)
      | Alternating None current => build root claims current
      end
  end.

(** ** The fold depends on the set of claims alone *)

Lemma fold_claims_perm l1 l2 :
  NoDup (map fc_id l1) → l1 ≡ₚ l2 → fold_claims l1 = fold_claims l2.
Proof.
  intros Hnd Hp. unfold fold_claims. apply sort_by_str_key_perm_eq; [|by rewrite Hp].
  clear Hp. induction l1 as [|c l1 IH]; simpl in *; [constructor|].
  apply NoDup_cons in Hnd as [Hc Hnd]. destruct (starts_with _ _); [|by apply IH].
  apply NoDup_cons. split; [|by apply IH]. intros Hin. apply Hc.
  apply list_elem_of_fmap in Hin as (c' & -> & Hc'%lfilter_elem).
  apply list_elem_of_fmap. naive_solver.
Qed.

(** C1. The membership a node folds depends only on the set of claims and the anchor, never on
    the order the claims were received in: for claims with distinct IDs, every permutation of
    the list folds to the same membership. *)
Theorem fold_ignores_receipt_order root l1 l2 :
  NoDup (map fc_id l1) → l1 ≡ₚ l2 → fold root l1 = fold root l2.
Proof. intros Hnd Hp. unfold fold. by rewrite (fold_claims_perm l1 l2). Qed.

(** ** What the iteration returns *)

Lemma iterate_converged n root claims prev cur S :
  iterate n root claims prev cur = Converged S →
  valid_claims root claims (build root claims S) = S.
Proof.
  revert prev cur; induction n as [|n IH]; intros prev cur; simpl; [done|].
  case_decide as Hc; [by intros [= <-]|]. case_decide; [done|]. apply IH.
Qed.

(** Every set the loop ends with, after the empty one, was computed by [valid_claims]. *)
Lemma iterate_alternating n root claims prev cur prev' cur' :
  iterate n root claims prev cur = Alternating prev' cur' →
  (cur = ∅ ∨ ∃ S, cur = valid_claims root claims (build root claims S)) →
  cur' = ∅ ∨ ∃ S, cur' = valid_claims root claims (build root claims S).
Proof.
  revert prev cur; induction n as [|n IH]; intros prev cur; simpl; [by intros [= <- <-]|].
  case_decide; [done|]. case_decide; [by intros [= <- <-]|].
  intros Hi _. eapply IH; [exact Hi|]. right. by exists cur.
Qed.

Lemma build_valid root claims S : valid (build root claims S) = S.
Proof.
  unfold build.
  assert (Hu : ∀ l m, valid (fold_left update_claim l m) = valid m).
  { induction l as [|c l IH]; intros m; simpl; [done|]. rewrite IH. unfold update_claim.
    repeat case_match; done. }
  assert (Ha : ∀ l m, valid (fold_left admit_claim l m) = valid m).
  { induction l as [|c l IH]; intros m; simpl; [done|]. rewrite IH. unfold admit_claim.
    repeat case_match; done. }
  by rewrite Hu, Ha.
Qed.

Lemma elem_of_valid_claims root claims m id :
  id ∈ valid_claims root claims m ↔
  ∃ c, c ∈ claims ∧ fc_id c = id ∧ claim_counts root c m = true.
Proof.
  unfold valid_claims. rewrite elem_of_list_to_set. split.
  - intros (c & -> & Hc%lfilter_elem)%list_elem_of_fmap. naive_solver.
  - intros (c & Hc & <- & Hcount). apply list_elem_of_fmap. exists c.
    rewrite lfilter_elem. done.
Qed.

(** A claim that counts in the folded membership was judged to count in some view the fold
    built from the same claims and the same anchor. *)
Lemma fold_counts_judged root all id :
  counts (fold (Some root) all) id = true →
  ∃ c S, c ∈ all ∧ fc_id c = id ∧ starts_with "fleet." (fc_kind c) = true ∧
         claim_counts root c (build root (fold_claims all) S) = true.
Proof.
  unfold counts. rewrite bool_decide_eq_true. unfold fold.
  destruct (iterate _ _ _ _ _) as [cur|prev cur] eqn:Hi.
  - rewrite build_valid. intros Hid. rewrite <- (iterate_converged _ _ _ _ _ _ Hi) in Hid.
    apply elem_of_valid_claims in Hid as (c & Hc & <- & Hcount).
    apply elem_of_sort_by, lfilter_elem in Hc. naive_solver.
  - intros Hid. assert (id ∈ cur) as Hcur.
    { destruct prev; rewrite build_valid in Hid; set_solver. }
    apply iterate_alternating in Hi as [->|[S ->]]; [set_solver| |by left].
    apply elem_of_valid_claims in Hcur as (c & Hc & <- & Hcount).
    apply elem_of_sort_by, lfilter_elem in Hc. naive_solver.
Qed.

(** The two ways a claim can count: as the anchor's own admission, or signed by a key whose
    window holds its envelope. *)
Definition root_admission (root : string) (c : FleetClaim) : Prop :=
  fc_kind c = MEMBER_ADMITTED ∧ claim_text c "via" = Some "anchor" ∧
  claim_text c "member_key" = Some root ∧ claim_name c = Some (fc_writer c) ∧
  root ∈ fc_signers c ∧ (writer_start c ≤ fc_sequence c)%Z.

Definition signed_in_window (m : Membership) (c : FleetClaim) : Prop :=
  ∃ i, i ∈ writer_incarnations m (fc_writer c) ∧ holds i (fc_sequence c) = true ∧
       inc_member_key i ∈ fc_signers c.

Lemma elem_of_keys_for m writer sequence key :
  key ∈ keys_for m writer sequence ↔
  ∃ i, i ∈ writer_incarnations m writer ∧ holds i sequence = true ∧ inc_member_key i = key.
Proof.
  unfold keys_for. rewrite elem_of_list_to_set. split.
  - intros (i & -> & Hi%lfilter_elem)%list_elem_of_fmap. naive_solver.
  - intros (i & Hi & Hh & <-). apply list_elem_of_fmap. exists i. by rewrite lfilter_elem.
Qed.

Lemma claim_counts_authorised root c m :
  claim_counts root c m = true →
  root_admission root c ∨
  (signed_in_window m c ∧ (fc_kind c = MEMBER_ADMITTED → claim_name c ≠ Some (fc_writer c))).
Proof.
  unfold claim_counts. destruct (_ && ostr_eqb (claim_text c "via") _) eqn:Hroot.
  - intros Hc. left. bool_cases. str_cases.
    repeat match goal with H : bool_decide _ = true |- _ => apply bool_decide_eq_true in H end.
    unfold root_admission. split_and!; auto. by apply Z.leb_le.
  - destruct (bool_decide (_ ∩ _ = ∅)) eqn:Hs; simpl; [done|]. intros Hc. right.
    apply bool_decide_eq_false in Hs. split.
    + apply set_choose_L in Hs as [key [Hk1 Hk2]%elem_of_intersection].
      apply elem_of_keys_for in Hk2 as (i & Hi & Hh & <-). by exists i.
    + intros Hk Hn. rewrite Hk, Hn in Hc. simpl in Hc. by rewrite str_eqb_refl in Hc.
Qed.

(** C2. Nothing counts on its own word. Every claim that counts after the fold is a [fleet.*]
    claim of the input that is either the anchor's own admission, signed by the pinned anchor
    key, or signed by a member key whose window held the claim's envelope in a view the fold
    built; and an admission that counts without being the anchor's admits another writer, never
    the one that wrote it. *)
Theorem counted_claims_are_authorised root all id :
  counts (fold (Some root) all) id = true →
  ∃ c S, c ∈ all ∧ fc_id c = id ∧ starts_with "fleet." (fc_kind c) = true ∧
    (root_admission root c ∨
     (signed_in_window (build root (fold_claims all) S) c ∧
      (fc_kind c = MEMBER_ADMITTED → claim_name c ≠ Some (fc_writer c)))).
Proof.
  intros (c & S & Hc & Hid & Hk & Hcount)%fold_counts_judged. exists c, S.
  split_and!; auto using claim_counts_authorised.
Qed.

(** ** Well-formed incarnations *)

Definition incarnation_ok (name : string) (i : Incarnation) : Prop :=
  inc_name i = name ∧ (1 ≤ inc_start i ≤ u64_max)%Z.

(** Every name's incarnations carry that name, start at a positive sequence, and hold distinct
    member keys. *)
Definition membership_ok (m : Membership) : Prop :=
  ∀ name, Forall (incarnation_ok name) (writer_incarnations m name) ∧
          NoDup (map inc_member_key (writer_incarnations m name)).

Lemma writer_start_range c : (1 ≤ writer_start c ≤ u64_max)%Z.
Proof.
  unfold writer_start, sat_add64. assert (0 < u64_max)%Z by (unfold u64_max; lia).
  destruct (claim_number c "writer_floor") as [z|] eqn:E; simpl; [|lia].
  unfold claim_number in E. apply bind_Some in E as (v & _ & E).
  destruct v; simpl in E; try done. apply num_as_u64_range in E. unfold is_u64 in E. lia.
Qed.

Lemma writer_incarnations_insert m g l name name' :
  g = <[name := l]> (incarnations m) →
  writer_incarnations (with_incarnations m g) name' =
  if decide (name = name') then l else writer_incarnations m name'.
Proof.
  intros ->. unfold writer_incarnations, with_incarnations. simpl. rewrite lookup_insert.
  by case_decide.
Qed.

Lemma admit_claim_ok m c : membership_ok m → membership_ok (admit_claim m c).
Proof.
  intros Hm. unfold admit_claim.
  destruct (claim_name c) as [name|]; [|done]. destruct (claim_text c "member_key") as [key|]; [|done].
  change (default [] (incarnations m !! name)) with (writer_incarnations m name).
  destruct (Hm name) as [Hok Hnd].
  destruct (existsb _ _) eqn:Hknown; intros name';
    rewrite (writer_incarnations_insert m _ _ name) by done; case_decide; subst; auto.
  rewrite existsb_false_elem in Hknown. split.
  - apply Forall_app. split; [done|]. constructor; [|done]. split; [done|]. apply writer_start_range.
  - rewrite map_app. apply NoDup_app. split_and!; [done| |apply NoDup_singleton].
    intros k (i & -> & Hi)%list_elem_of_fmap. simpl. rewrite list_elem_of_singleton.
    specialize (Hknown i Hi). str_cases. done.
Qed.

(** ** The second loop changes each incarnation on its own *)

Definition upd_incarnation (name : string) (c : FleetClaim) (i : Incarnation) : Incarnation :=
  if ostr_eqb (claim_name c) (Some name) && ostr_eqb (claim_text c "member_key") (Some (inc_member_key i))
  then
    if str_eqb (fc_kind c) MEMBER_REMOVED || str_eqb (fc_kind c) MEMBER_LEFT then
      match claim_number c "high_water" with
      | None => i
      | Some high_water => end_incarnation c high_water i
      end
    else if str_eqb (fc_kind c) MEMBER_ENDPOINTS then set_endpoints c i
    else i
  else i.

Lemma end_incarnation_fixed c h i :
  inc_name (end_incarnation c h i) = inc_name i ∧
  inc_member_key (end_incarnation c h i) = inc_member_key i ∧
  inc_start (end_incarnation c h i) = inc_start i.
Proof. unfold end_incarnation. by destruct (negb _). Qed.

Lemma set_endpoints_fixed c i :
  inc_name (set_endpoints c i) = inc_name i ∧
  inc_member_key (set_endpoints c i) = inc_member_key i ∧
  inc_start (set_endpoints c i) = inc_start i ∧ inc_end (set_endpoints c i) = inc_end i.
Proof. unfold set_endpoints. by destruct (is_none_or _ _). Qed.

Lemma upd_incarnation_fixed name c i :
  inc_name (upd_incarnation name c i) = inc_name i ∧
  inc_member_key (upd_incarnation name c i) = inc_member_key i ∧
  inc_start (upd_incarnation name c i) = inc_start i.
Proof.
  unfold upd_incarnation. destruct (_ && _); [|done]. destruct (_ || _).
  - destruct (claim_number c _); [apply end_incarnation_fixed|done].
  - destruct (str_eqb _ _); [|done]. pose proof (set_endpoints_fixed c i). tauto.
Qed.

Lemma update_first_map key f l :
  NoDup (map inc_member_key l) →
  update_first key f l = map (λ i, if str_eqb (inc_member_key i) key then f i else i) l.
Proof.
  induction l as [|i l IH]; simpl; [done|]. rewrite NoDup_cons. intros [Hi Hnd].
  destruct (str_eqb (inc_member_key i) key) eqn:Hk; [|by rewrite IH].
  f_equal. str_cases. symmetry. rewrite <- (map_id l) at 2. apply map_ext_in.
  intros j Hj. destruct (str_eqb (inc_member_key j) key) eqn:Hjk; [|done]. str_cases. exfalso.
  apply Hi. apply list_elem_of_fmap. exists j. rewrite list_elem_of_In. split; [congruence|done].
Qed.

Lemma writer_incarnations_update m name key f name' :
  writer_incarnations (update_incarnation m name key f) name' =
  if decide (name = name') then update_first key f (writer_incarnations m name')
  else writer_incarnations m name'.
Proof.
  unfold writer_incarnations, update_incarnation, with_incarnations. simpl. rewrite lookup_alter.
  case_decide as Hn; [|done]. subst name'. by destruct (incarnations m !! name).
Qed.

Lemma map_id_ext {A} (f : A → A) l : (∀ x, f x = x) → map f l = l.
Proof. intros Hf. rewrite <- (map_id l) at 2. by apply map_ext. Qed.

(** How one claim with a key acts on the incarnations of a name. *)
Lemma update_matching m name key f name' g c :
  NoDup (map inc_member_key (writer_incarnations m name')) →
  claim_name c = Some name → claim_text c "member_key" = Some key →
  (∀ i, g i = if ostr_eqb (claim_name c) (Some name') &&
                 ostr_eqb (claim_text c "member_key") (Some (inc_member_key i)) then f i else i) →
  writer_incarnations (update_incarnation m name key f) name' =
  map g (writer_incarnations m name').
Proof.
  intros Hnd Hname Hkey Hg. rewrite writer_incarnations_update. case_decide as Hn.
  - subst name'. rewrite update_first_map by done. apply map_ext. intros i.
    rewrite Hg, Hname, Hkey. unfold ostr_eqb, str_eqb.
    rewrite (bool_decide_eq_true_2 (Some name = Some name)) by done. simpl.
    rewrite (bool_decide_ext (Some key = Some (inc_member_key i)) (inc_member_key i = key))
      by (split; congruence). done.
  - rewrite map_id_ext; [done|]. intros i. rewrite Hg, Hname.
    unfold ostr_eqb. rewrite (bool_decide_eq_false_2 (Some name = Some name')) by congruence. done.
Qed.

Lemma update_claim_incarnations m c name :
  NoDup (map inc_member_key (writer_incarnations m name)) →
  writer_incarnations (update_claim m c) name =
  map (upd_incarnation name c) (writer_incarnations m name).
Proof.
  intros Hnd.
  assert (Hsame : (∀ i, upd_incarnation name c i = i) →
                  writer_incarnations m name = map (upd_incarnation name c) (writer_incarnations m name)).
  { intros Hs. by rewrite map_id_ext. }
  unfold update_claim. destruct (claim_name c) as [cn|] eqn:Hname.
  2: { apply Hsame. intros i. unfold upd_incarnation. by rewrite Hname. }
  destruct (_ || _) eqn:Hkind.
  - destruct (claim_number c "high_water") as [h|] eqn:Hh.
    2: { apply Hsame. intros i. unfold upd_incarnation. rewrite Hkind, Hh. by destruct (_ && _). }
    destruct (claim_text c "member_key") as [key|] eqn:Hkey.
    + eapply update_matching; eauto. intros i. unfold upd_incarnation. by rewrite Hkind, Hh.
    + apply Hsame. intros i. unfold upd_incarnation. rewrite Hkey. by rewrite andb_false_r.
  - destruct (str_eqb (fc_kind c) MEMBER_ENDPOINTS) eqn:He.
    + destruct (claim_text c "member_key") as [key|] eqn:Hkey.
      * eapply update_matching; eauto. intros i. unfold upd_incarnation. by rewrite Hkind, He.
      * apply Hsame. intros i. unfold upd_incarnation. rewrite Hkey. by rewrite andb_false_r.
    + apply Hsame. intros i. unfold upd_incarnation. rewrite Hkind, He. by destruct (_ && _).
Qed.

Lemma map_upd_ok name c l :
  Forall (incarnation_ok name) l ∧ NoDup (map inc_member_key l) →
  Forall (incarnation_ok name) (map (upd_incarnation name c) l) ∧
  NoDup (map inc_member_key (map (upd_incarnation name c) l)).
Proof.
  intros [Hok Hnd]. split.
  - apply Forall_map. eapply Forall_impl; [exact Hok|]. intros i [Hn Hs].
    destruct (upd_incarnation_fixed name c i) as (E1 & E2 & E3). split; congruence.
  - rewrite map_map. erewrite map_ext; [exact Hnd|]. intros i. apply upd_incarnation_fixed.
Qed.

Lemma update_claim_ok m c : membership_ok m → membership_ok (update_claim m c).
Proof.
  intros Hm name. destruct (Hm name) as [Hok Hnd].
  rewrite update_claim_incarnations by done. by apply map_upd_ok.
Qed.

Lemma fold_left_inv {A B} (P : A → Prop) (f : A → B → A) l : ∀ a,
  P a → (∀ a b, P a → P (f a b)) → P (fold_left f l a).
Proof. induction l as [|b l IH]; intros a Ha Hf; simpl; auto. Qed.

Lemma admitted_ok root S l :
  membership_ok (fold_left admit_claim l (mkMembership (Some root) ∅ ∅ S)).
Proof.
  apply fold_left_inv; [|intros; by apply admit_claim_ok].
  intros name. unfold writer_incarnations. simpl. rewrite lookup_empty. by repeat constructor.
Qed.

Lemma build_ok root claims S : membership_ok (build root claims S).
Proof. unfold build. apply fold_left_inv; [apply admitted_ok|]. intros; by apply update_claim_ok. Qed.

Lemma no_membership_ok : membership_ok no_membership.
Proof. intros name. unfold writer_incarnations. simpl. rewrite lookup_empty. by repeat constructor. Qed.

Lemma fold_ok root all : membership_ok (fold root all).
Proof.
  unfold fold. destruct root as [root|]; [|apply no_membership_ok].
  destruct (iterate _ _ _ _ _) as [?|[?|] ?]; apply build_ok.
Qed.

(** ** Windows *)

Lemma fold_min_le l : ∀ x y, y ∈ x :: l → (fold_left Z.min l x ≤ y)%Z.
Proof.
  induction l as [|z l IH]; intros x y Hy; simpl.
  - apply list_elem_of_singleton in Hy. lia.
  - rewrite !elem_of_cons in Hy. destruct Hy as [->|[->|Hy]].
    + specialize (IH (Z.min x z) (Z.min x z)). rewrite elem_of_cons in IH. lia.
    + specialize (IH (Z.min x z) (Z.min x z)). rewrite elem_of_cons in IH. lia.
    + apply IH. rewrite elem_of_cons. by right.
Qed.

Lemma iter_min_le l z y : iter_min l = Some z → y ∈ l → (z ≤ y)%Z.
Proof. destruct l as [|x l]; [done|]. intros [= <-]. apply fold_min_le. Qed.

Lemma iter_min_Some l : l ≠ [] → is_Some (iter_min l).
Proof. destruct l; [done|]. intros _. simpl. eauto. Qed.

(** Where an envelope without a signature is admitted. *)
Lemma window_legacy m writer sequence :
  membership_ok m → window m writer sequence = Legacy →
  (∀ i, i ∈ writer_incarnations m writer → (sequence < inc_start i)%Z) ∧
  (∀ h, legacy_ends m !! writer = Some h → (sequence ≤ h)%Z).
Proof.
  intros Hm. unfold window. destruct (bool_decide _); simpl; [|done].
  destruct (existsb _ _) eqn:Hone; [done|]. rewrite existsb_false_elem in Hone.
  set (starts := option_list _). set (floors := option_list (_ <$> _)).
  assert (Hb : ∀ e, e ∈ starts ++ floors →
    (match iter_min (starts ++ floors) with
     | Some e => if (e <? sequence)%Z then Fenced else Legacy
     | None => Legacy end = Legacy) → (sequence ≤ e)%Z).
  { intros e He Hw. destruct (iter_min (starts ++ floors)) as [z|] eqn:Hz.
    - assert (z ≤ e)%Z by (eapply iter_min_le; [exact Hz|exact He]). destruct (z <? sequence)%Z eqn:Hlt; [done|].
      apply Z.ltb_ge in Hlt. lia.
    - destruct (iter_min_Some (starts ++ floors)) as [? ?]; [|congruence].
      intros Hnil. rewrite Hnil in He. by apply not_elem_of_nil in He. }
  intros Hw. split.
  - intros i Hi. destruct (iter_min_Some (map inc_start (writer_incarnations m writer))) as [z Hz].
    { intros Hnil%map_eq_nil. rewrite Hnil in Hi. by apply not_elem_of_nil in Hi. }
    assert (z ≤ inc_start i)%Z.
    { eapply iter_min_le; [exact Hz|]. apply list_elem_of_fmap. eauto. }
    assert (sequence ≤ sat_sub z 1)%Z.
    { apply Hb; [|done]. unfold floors. rewrite Hz. simpl. apply elem_of_app. right. left. }
    assert (1 < inc_start i)%Z by (specialize (Hone i Hi); apply Z.leb_gt in Hone; lia).
    unfold sat_sub in *. lia.
  - intros h Hh. apply Hb; [|done]. unfold starts. rewrite Hh. simpl. left.
Qed.

(** No downgrade. In a folded membership, an envelope is admitted unsigned only before
    every window the writer ever had a key for, and not past the high water at which a keyless
    peer of that name was removed. So once a writer has a key, no sequence from its first
    window's start on is admitted without a signature by one of its keys. *)
Theorem unsigned_only_before_membership root all writer sequence :
  window (fold root all) writer sequence = Legacy →
  (∀ i, i ∈ writer_incarnations (fold root all) writer → (sequence < inc_start i)%Z) ∧
  (∀ h, legacy_ends (fold root all) !! writer = Some h → (sequence ≤ h)%Z).
Proof. apply window_legacy, fold_ok. Qed.

(** ** Where a window ends *)

Definition ends_window (name key : string) (c : FleetClaim) : option Z :=
  if (str_eqb (fc_kind c) MEMBER_REMOVED || str_eqb (fc_kind c) MEMBER_LEFT)
     && ostr_eqb (claim_name c) (Some name) && ostr_eqb (claim_text c "member_key") (Some key)
  then claim_number c "high_water" else None.

Definition max_end (e : option Z) (h : Z) : option Z :=
  Some (match e with None => h | Some e => Z.max e h end).

Lemma upd_incarnation_end name c i :
  inc_end (upd_incarnation name c i) =
  match ends_window name (inc_member_key i) c with
  | Some h => max_end (inc_end i) h
  | None => inc_end i
  end.
Proof.
  unfold upd_incarnation, ends_window.
  destruct (ostr_eqb (claim_name c) (Some name)), (ostr_eqb (claim_text c "member_key") _); simpl;
    rewrite ?andb_false_r; try done.
  destruct (_ || _); simpl.
  - destruct (claim_number c _); [|done]. unfold end_incarnation. by destruct (negb _).
  - destruct (str_eqb _ _); [|done]. apply set_endpoints_fixed.
Qed.

Lemma fold_upd_incarnation name l : ∀ i,
  let i' := fold_left (λ i c, upd_incarnation name c i) l i in
  inc_member_key i' = inc_member_key i ∧
  inc_end i' = fold_left (λ e c, match ends_window name (inc_member_key i) c with
                                 | Some h => max_end e h
                                 | None => e end) l (inc_end i).
Proof.
  induction l as [|c l IH]; intros i; simpl; [done|].
  destruct (IH (upd_incarnation name c i)) as [Hk He].
  destruct (upd_incarnation_fixed name c i) as (_ & Hk' & _). rewrite Hk' in *.
  split; [done|]. by rewrite He, upd_incarnation_end.
Qed.

Lemma fold_update_claims l name : ∀ m, membership_ok m →
  writer_incarnations (fold_left update_claim l m) name =
  map (λ i, fold_left (λ i c, upd_incarnation name c i) l i) (writer_incarnations m name).
Proof.
  induction l as [|c l IH]; intros m Hm; simpl; [by rewrite map_id|].
  rewrite IH by (by apply update_claim_ok). rewrite update_claim_incarnations by apply Hm.
  by rewrite map_map.
Qed.

(** [e] is the greatest of the values [f] takes on [l], or there are none. *)
Definition greatest_end (f : FleetClaim → option Z) (l : list FleetClaim) (e : option Z) : Prop :=
  match e with
  | None => ∀ c, c ∈ l → f c = None
  | Some z => (∃ c, c ∈ l ∧ f c = Some z) ∧ ∀ c h, c ∈ l → f c = Some h → (h ≤ z)%Z
  end.

Lemma greatest_end_snoc f l e c :
  greatest_end f l e →
  greatest_end f (l ++ [c]) (match f c with Some h => max_end e h | None => e end).
Proof.
  assert (Hin : ∀ d, d ∈ l ++ [c] ↔ d ∈ l ∨ d = c).
  { intros d. by rewrite elem_of_app, list_elem_of_singleton. }
  destruct (f c) as [h|] eqn:Hfc, e as [z|]; simpl; setoid_rewrite Hin.
  - intros [(d & Hd & Hz) Hmax]. split.
    + destruct (Z.max_spec z h) as [[_ ->]|[_ ->]]; eauto.
    + intros d' h' [Hd'| ->] Hh'; [specialize (Hmax _ _ Hd' Hh'); lia|]. simplify_eq. lia.
  - intros Hnone. split; [eauto|]. intros d h' [Hd| ->] Hh'; [|by simplify_eq].
    by rewrite Hnone in Hh'.
  - intros [(d & Hd & Hz) Hmax]. split; [eauto|]. intros d' h' [Hd'| ->] Hh'; [eauto|congruence].
  - intros Hnone d [Hd| ->]; auto.
Qed.

Lemma fold_greatest_end f l : ∀ l0 e, greatest_end f l0 e →
  greatest_end f (l0 ++ l)
    (fold_left (λ e c, match f c with Some h => max_end e h | None => e end) l e).
Proof.
  induction l as [|c l IH]; intros l0 e He; simpl; [by rewrite app_nil_r|].
  specialize (IH (l0 ++ [c])). rewrite <- app_assoc in IH. apply IH. by apply greatest_end_snoc.
Qed.

(** Admission leaves every window open. *)
Lemma admitted_open root S l name i :
  i ∈ writer_incarnations (fold_left admit_claim l (mkMembership (Some root) ∅ ∅ S)) name →
  inc_end i = None.
Proof.
  revert name i. apply (fold_left_inv (λ m, ∀ name i, i ∈ writer_incarnations m name → inc_end i = None)).
  - intros name i. unfold writer_incarnations. simpl. rewrite lookup_empty.
    intros Hi. by apply not_elem_of_nil in Hi.
  - intros m c Hm name i. unfold admit_claim.
    destruct (claim_name c) as [cn|]; [|apply Hm]. destruct (claim_text c "member_key"); [|apply Hm].
    destruct (existsb _ _); rewrite (writer_incarnations_insert m _ _ cn) by done;
      case_decide; subst; try apply Hm.
    rewrite elem_of_app, list_elem_of_singleton. intros [Hi| ->]; [by eapply Hm|done].
Qed.

Definition counted_claims (claims : list FleetClaim) (S : gset string) : list FleetClaim :=
  List.filter (λ c, bool_decide (fc_id c ∈ S)) claims.

Lemma build_window_end root claims S name i :
  i ∈ writer_incarnations (build root claims S) name →
  greatest_end (ends_window name (inc_member_key i)) (counted_claims claims S) (inc_end i).
Proof.
  unfold build. rewrite fold_update_claims by apply admitted_ok.
  intros (i0 & -> & Hi0)%list_elem_of_fmap.
  destruct (fold_upd_incarnation name (counted_claims claims S) i0) as [Hk He].
  fold (counted_claims claims S). rewrite Hk, He, (admitted_open _ _ _ _ _ Hi0).
  apply (fold_greatest_end _ _ []). intros c Hc. by apply not_elem_of_nil in Hc.
Qed.

Lemma fold_is_build root all :
  fold (Some root) all = build root (fold_claims all) (valid (fold (Some root) all)).
Proof.
  unfold fold. destruct (iterate _ _ _ _ _) as [?|[?|] ?]; by rewrite build_valid.
Qed.

(** A member key's window ends exactly where the fleet says: in a folded membership, an
    incarnation has no end when no counted removal or leave names it, and otherwise its end is
    the greatest high water a counted removal or leave of that name and key records, so a later
    report can extend what was received but never reopen the window. *)
Theorem window_end_is_greatest_high_water root all name i :
  i ∈ writer_incarnations (fold (Some root) all) name →
  greatest_end (ends_window name (inc_member_key i))
    (counted_claims (fold_claims all) (valid (fold (Some root) all))) (inc_end i).
Proof. rewrite (fold_is_build root all) at 1. apply build_window_end. Qed.

(** When the iteration converges, the membership is a fixed point: a claim of the input
    counts in it exactly when the rules for counting, read in that same membership, say so. *)
Theorem converged_fold_is_fixed_point root all S :
  iterate (iteration_limit (fold_claims all)) root (fold_claims all) None ∅ = Converged S →
  let m := fold (Some root) all in
  ∀ id, counts m id = true ↔
    ∃ c, c ∈ fold_claims all ∧ fc_id c = id ∧ claim_counts root c m = true.
Proof.
  intros Hi m id. subst m. unfold fold. rewrite Hi. unfold counts.
  rewrite bool_decide_eq_true, build_valid, <- elem_of_valid_claims.
  by rewrite (iterate_converged _ _ _ _ _ _ Hi).
Qed.
End membership.

(** ** Examples

    A fleet anchored at host [r], which admits [a]; [a] admits [b]; [b] admits [c]. *)

Section examples.
#[local] Existing Instance integer_numbers.

Definition example_admission (id name key via writer : string) (floor sequence : Z)
    (signer : string) : FleetClaim :=
  mkFleetClaim id MEMBER_ADMITTED ("host/" +:+ name)
    (list_to_map [("member_key", Str key); ("via", Str via); ("writer_floor", Num floor)])
    writer sequence {[signer]}.

Definition example_removal (id name key writer : string) (high_water sequence : Z)
    (signer : string) : FleetClaim :=
  mkFleetClaim id MEMBER_REMOVED ("host/" +:+ name)
    (list_to_map [("member_key", Str key); ("high_water", Num high_water)])
    writer sequence {[signer]}.

Definition chain_fleet : list FleetClaim :=
  [ example_admission "00" "r" "kr" "anchor" "r" 0 1 "kr";
    example_admission "01" "a" "ka" "invite" "r" 4 2 "kr";
    example_admission "02" "b" "kb" "invite" "a" 0 7 "ka";
    example_admission "03" "c" "kc" "invite" "b" 0 2 "kb" ].

Definition removed_fleet : list FleetClaim :=
  chain_fleet ++ [example_removal "10" "b" "kb" "r" 5 9 "kr"].

Lemma fold_order_witness :
  fold (Some "kr") removed_fleet = fold (Some "kr") (rev removed_fleet).
Proof.
  apply (fold_ignores_receipt_order (Some "kr") removed_fleet (rev removed_fleet)).
  - apply (bool_decide_unpack _). by vm_compute.
  - apply Permutation_rev.
Defined.

Lemma counted_claims_witness :
  counts (fold (Some "kr") removed_fleet) "03" = true ∧
  ∃ c S, c ∈ removed_fleet ∧ fc_id c = "03" ∧ starts_with "fleet." (fc_kind c) = true ∧
    (root_admission "kr" c ∨
     (signed_in_window (build "kr" (fold_claims removed_fleet) S) c ∧
      (fc_kind c = MEMBER_ADMITTED → claim_name c ≠ Some (fc_writer c)))).
Proof.
  split; [by vm_compute|].
  apply (counted_claims_are_authorised "kr" removed_fleet "03"). by vm_compute.
Defined.

Lemma unsigned_window_witness :
  window (fold (Some "kr") removed_fleet) "a" 4 = Legacy ∧
  (∀ i, i ∈ writer_incarnations (fold (Some "kr") removed_fleet) "a" → (4 < inc_start i)%Z) ∧
  (∀ h, legacy_ends (fold (Some "kr") removed_fleet) !! "a" = Some h → (4 ≤ h)%Z).
Proof.
  assert (Hw : window (fold (Some "kr") removed_fleet) "a" 4 = Legacy) by (by vm_compute).
  split; [exact Hw|]. exact (unsigned_only_before_membership (Some "kr") removed_fleet "a" 4 Hw).
Defined.

Definition removed_b : Incarnation :=
  mkIncarnation "b" "kb" "invite" "listening" None "02" 1 (Some 5%Z) (Some "removed") None None [] None.

Lemma window_end_witness :
  removed_b ∈ writer_incarnations (fold (Some "kr") removed_fleet) "b" ∧
  greatest_end (ends_window "b" "kb")
    (counted_claims (fold_claims removed_fleet) (valid (fold (Some "kr") removed_fleet))) (Some 5%Z).
Proof.
  assert (Hin : removed_b ∈ writer_incarnations (fold (Some "kr") removed_fleet) "b").
  { assert (E : writer_incarnations (fold (Some "kr") removed_fleet) "b" = [removed_b])
      by (vm_cast_no_check (eq_refl [removed_b])).
    rewrite E. left. }
  split; [exact Hin|].
  exact (window_end_is_greatest_high_water "kr" removed_fleet "b" removed_b Hin).
Defined.

Lemma converged_witness :
  counts (fold (Some "kr") chain_fleet) "03" = true ↔
  ∃ c, c ∈ fold_claims chain_fleet ∧ fc_id c = "03" ∧
       claim_counts "kr" c (fold (Some "kr") chain_fleet) = true.
Proof.
  apply (converged_fold_is_fixed_point "kr" chain_fleet {["00"; "01"; "02"; "03"]}).
  vm_compute. reflexivity.
Defined.

(** Three members that remove each other in a ring, [a] removing [b], [b] removing [c] and [c]
    removing [a], each past the high water the other would leave it. *)
Definition removal_ring : list FleetClaim :=
  [ example_admission "00" "r" "kr" "anchor" "r" 0 1 "kr";
    example_admission "01" "a" "ka" "invite" "r" 0 2 "kr";
    example_admission "02" "b" "kb" "invite" "a" 0 2 "ka";
    example_admission "03" "c" "kc" "invite" "b" 0 2 "kb";
    example_removal "10" "b" "kb" "a" 5 10 "ka";
    example_removal "11" "c" "kc" "b" 5 10 "kb";
    example_removal "12" "a" "ka" "c" 5 10 "kc" ].

(** A claim by a writer that is no member: it counts for nothing. *)
Definition stranger_claim : FleetClaim :=
  mkFleetClaim "20" "fleet.note" "host/stranger" ∅ "stranger" 1 ∅.

Definition is_current (s : MemberState) : bool := match s with Current _ => true | _ => false end.
Definition is_ended (s : MemberState) : bool := match s with Ended _ => true | _ => false end.

(** Removals in a ring: the sets the iteration visits repeat with period six, so no two
    consecutive steps alternate and the loop stops only at its limit, which grows with the number
    of claims. Which member the ring removes then depends on that number: with one more claim
    that counts for nothing, [a] is a current member and [c] is removed, while without it [a] is
    removed and [c] is a current member. *)
Theorem removal_ring_depends_on_uncounted_claims :
  counts (fold (Some "kr") (removal_ring ++ [stranger_claim])) "20" = false ∧
  is_ended (state (fold (Some "kr") removal_ring) "a") = true ∧
  is_current (state (fold (Some "kr") removal_ring) "c") = true ∧
  is_current (state (fold (Some "kr") (removal_ring ++ [stranger_claim])) "a") = true ∧
  is_ended (state (fold (Some "kr") (removal_ring ++ [stranger_claim])) "c") = true.
Proof. split_and!; by vm_compute. Qed.
End examples.
