(* ===== verification/FleetView.v ===== *)
(** * The fleet view and who may exchange

    Models [crates/smallclaims/src/fleet/view.rs]: the flat view of a membership the replication
    worker reads, and the acceptance table for the sender of a signed message. The client's theorems
    are stated against the membership: they relate what [accept] answers on
    [from_membership m] to the [state] the fold gives the sender's name. *)

From S2P Require Import Prelude StableSort Text Json Membership.

(** A [BTreeSet] or a [BTreeMap]'s keys, iterated in order. *)
Definition in_order (s : gset string) : list string := sort_by String.leb (elements s).

Lemma elem_of_in_order s x : x ∈ in_order s ↔ x ∈ s.
Proof. unfold in_order. by rewrite elem_of_sort_by, elem_of_elements. Qed.

Lemma in_order_nodup s : NoDup (in_order s).
Proof. unfold in_order. rewrite sort_by_perm. apply NoDup_elements. Qed.

Section view.
Context `{NumberApi}.

Record MemberView := mkMemberView {
  mv_name : string;
  mv_member_key : string;
  mv_state : string;
  mv_mode : string;
  mv_endpoints : list Value;
  mv_start : Z;
  mv_end : option Z;
  mv_ended : option string;
  mv_removed_by : option string;
  mv_removal_reason : option string
}.

Record FleetView := mkFleetView {
  fv_anchor : option string;
  fv_members : list MemberView;
  fv_legacy_removed : list string
}.

(** [Membership::incarnations]: every incarnation, by name. *)
Definition all_incarnations (m : Membership) : list Incarnation :=
  concat (map (writer_incarnations m) (in_order (dom (incarnations m)))).

Definition view_names (m : Membership) : gset string :=
  list_to_set (map inc_name (all_incarnations m)).

Definition member_label (st : MemberState) (i : Incarnation) : string :=
  let unlabelled := if is_none (inc_end i) then "current" else "ended" in
  match st with
  | Conflicted current =>
      if existsb (λ j, str_eqb (inc_member_key j) (inc_member_key i)) current
      then "conflicted" else unlabelled
  | _ => unlabelled
  end.

Definition member_view (st : MemberState) (name : string) (i : Incarnation) : MemberView :=
  mkMemberView name (inc_member_key i) (member_label st i) (inc_mode i) (inc_endpoints i)
    (inc_start i) (inc_end i) (inc_ended i) (inc_removed_by i) (inc_removal_reason i).

Definition from_membership (m : Membership) : FleetView :=
  let names := view_names m in
  mkFleetView (anchor m)
    (concat (map (λ name,
       map (member_view (state m name) name)
         (List.filter (λ i, str_eqb (inc_name i) name) (all_incarnations m))) (in_order names)))
    (List.filter (λ name, negb (bool_decide (name ∈ names))) (in_order (dom (legacy_ends m)))).

Definition view_current (v : FleetView) (name : string) : list MemberView :=
  List.filter (λ x, str_eqb (mv_name x) name && negb (str_eqb (mv_state x) "ended")) (fv_members v).

Definition ended_keys (v : FleetView) (name : string) : list MemberView :=
  List.filter (λ x, str_eqb (mv_name x) name && str_eqb (mv_state x) "ended") (fv_members v).

Record Sender := mkSender {
  sender_name : string;
  sender_member_key : option string;
  member_signature_valid : bool
}.

Inductive Acceptance := Member | LegacyPeer.

Record Refusal := mkRefusal {
  refusal_status : Z;
  refusal_code : string;
  refusal_message : string;
  refusal_member_key : option string
}.

Definition quoted (name : string) : string := "`" +:+ name +:+ "`".

Definition ended_refusal (sender : Sender) (x : MemberView) : Refusal :=
  let left := ostr_eqb (mv_ended x) (Some "left") in
  mkRefusal 403 (if left then "member-left" else "member-removed")
    (match mv_removed_by x, mv_removal_reason x with
     | Some by_whom, Some reason =>
         if negb left
         then quoted (sender_name sender) +:+ " was removed from this fleet by " +:+ by_whom
              +:+ ": " +:+ reason
         else quoted (sender_name sender) +:+ " is no longer a member of this fleet"
     | _, _ => quoted (sender_name sender) +:+ " is no longer a member of this fleet"
     end)
    (Some (mv_member_key x)).

Definition accept (v : FleetView) (sender : Sender) (config_peer legacy : bool)
    : result Refusal Acceptance :=
  let current := view_current v (sender_name sender) in
  if 1 <? length current then
    Err (mkRefusal 409 "member-conflicted"
           (quoted (sender_name sender) +:+ " has more than one current member key") None)
  else
    match current with
    | x :: _ =>
        if member_signature_valid sender
           && ostr_eqb (sender_member_key sender) (Some (mv_member_key x))
        then Ok Member
        else if legacy && config_peer then Ok LegacyPeer
        else Err (mkRefusal 401 "member-signature-required"
                    (quoted (sender_name sender) +:+ " must sign with its member key") None)
    | [] =>
        let ended := ended_keys v (sender_name sender) in
        let removed_legacy := bool_decide (sender_name sender ∈ fv_legacy_removed v) in
        let ended_match :=
          match sender_member_key sender with
          | Some key => List.find (λ x, str_eqb (mv_member_key x) key) ended
          | None => last ended
          end in
        match ended_match with
        | Some x => Err (ended_refusal sender x)
        | None =>
            if removed_legacy && is_none (sender_member_key sender) then
              Err (mkRefusal 403 "member-removed"
                     (quoted (sender_name sender) +:+ " was removed from this fleet") None)
            else if config_peer && legacy && (match ended with [] => true | _ => false end)
                    && negb removed_legacy
            then Ok LegacyPeer
            else Err (mkRefusal 403 "not-a-member"
                        (quoted (sender_name sender) +:+ " is not a member of this fleet") None)
        end
    end.

(** ** The view of one name *)

Lemma lfilter_concat {A B} (p : B → bool) (f : A → list B) ks :
  List.filter p (concat (map f ks)) = concat (map (λ k, List.filter p (f k)) ks).
Proof. induction ks as [|k ks IH]; simpl; [done|]. by rewrite List.filter_app, IH. Qed.

Lemma concat_only {A B} `{EqDecision A} (f : A → list B) ks n :
  NoDup ks → (∀ k, k ∈ ks → k ≠ n → f k = []) → (n ∉ ks → f n = []) →
  concat (map f ks) = f n.
Proof.
  intros Hnd Hnil Hn. induction ks as [|k ks IH]; simpl.
  { symmetry. apply Hn, not_elem_of_nil. }
  apply NoDup_cons in Hnd as [Hk Hnd]. destruct (decide (k = n)) as [->|Hne].
  - enough (concat (map f ks) = []) as -> by apply app_nil_r.
    assert (Hall : ∀ k', k' ∈ ks → f k' = []).
    { intros k' Hk'. apply Hnil; [by right|]. intros ->. done. }
    clear -Hall. induction ks as [|k' ks IH]; simpl; [done|].
    rewrite Hall by left. apply IH. intros. apply Hall. by right.
  - rewrite Hnil; [|by left|done]. simpl. apply IH; auto.
    + intros k' Hk'. apply Hnil. by right.
    + intros Hn'. apply Hn. rewrite elem_of_cons. intros [->|]; done.
Qed.

Lemma lfilter_none {A} (p : A → bool) l : (∀ x, x ∈ l → p x = false) → List.filter p l = [].
Proof.
  induction l as [|x l IH]; intros Hp; simpl; [done|]. rewrite Hp by left.
  apply IH. intros. apply Hp. by right.
Qed.

Lemma lfilter_all {A} (p : A → bool) l : (∀ x, x ∈ l → p x = true) → List.filter p l = l.
Proof.
  induction l as [|x l IH]; intros Hp; simpl; [done|]. rewrite Hp by left. f_equal.
  apply IH. intros. apply Hp. by right.
Qed.

Section ok.
Context (m : Membership) (Hm : membership_ok m).

Lemma incarnation_named name i : i ∈ writer_incarnations m name → inc_name i = name.
Proof.
  intros Hi. destruct (Hm name) as [Hok _]. rewrite Forall_forall in Hok. by apply Hok.
Qed.

Lemma filter_all_incarnations name :
  List.filter (λ i, str_eqb (inc_name i) name) (all_incarnations m) = writer_incarnations m name.
Proof.
  unfold all_incarnations. rewrite lfilter_concat.
  rewrite (concat_only _ _ name (in_order_nodup _)).
  - apply lfilter_all. intros i Hi. apply str_eqb_true. by apply incarnation_named.
  - intros k _ Hk. apply lfilter_none. intros i Hi. apply str_eqb_false.
    rewrite (incarnation_named k i Hi). done.
  - intros Hn. apply lfilter_none. intros i Hi. exfalso. apply Hn.
    rewrite elem_of_in_order, elem_of_dom. unfold writer_incarnations in Hi.
    destruct (incarnations m !! name); [done|]. by apply not_elem_of_nil in Hi.
Qed.

Lemma elem_of_view_names name : name ∈ view_names m ↔ writer_incarnations m name ≠ [].
Proof.
  unfold view_names. rewrite elem_of_list_to_set. split.
  - intros (i & -> & Hi)%list_elem_of_fmap Hnil.
    assert (Hf : i ∈ List.filter (λ j, str_eqb (inc_name j) (inc_name i)) (all_incarnations m)).
    { apply lfilter_elem. by rewrite str_eqb_refl. }
    rewrite filter_all_incarnations, Hnil in Hf. by apply not_elem_of_nil in Hf.
  - rewrite <- filter_all_incarnations. intros Hne.
    destruct (List.filter _ _) as [|i l] eqn:Hf; [done|].
    assert (Hi : i ∈ List.filter (λ i, str_eqb (inc_name i) name) (all_incarnations m))
      by (rewrite Hf; left).
    apply lfilter_elem in Hi as [Hi Hn]. apply str_eqb_true in Hn as <-.
    apply list_elem_of_fmap. eauto.
Qed.

(** The members a view shows under [name], with any further condition. *)
Lemma view_members (p : MemberView → bool) name :
  List.filter (λ x, str_eqb (mv_name x) name && p x) (fv_members (from_membership m)) =
  List.filter p (map (member_view (state m name) name) (writer_incarnations m name)).
Proof.
  unfold from_membership. simpl. rewrite lfilter_concat.
  rewrite (concat_only _ _ name (in_order_nodup _)).
  - rewrite filter_all_incarnations. induction (writer_incarnations m name) as [|i l IH]; simpl; [done|].
    rewrite str_eqb_refl. simpl. by rewrite IH.
  - intros k _ Hk. apply lfilter_none. intros x (i & -> & _)%list_elem_of_fmap. simpl.
    apply andb_false_intro1, str_eqb_false. done.
  - rewrite elem_of_in_order, elem_of_view_names, filter_all_incarnations. intros Hn.
    destruct (writer_incarnations m name); [done|]. by destruct Hn.
Qed.

Lemma state_cases name :
  match List.filter (λ i, is_none (inc_end i)) (writer_incarnations m name) with
  | [] => ∀ c, state m name ≠ Conflicted c
  | [i] => state m name = Current i
  | l => state m name = Conflicted l
  end.
Proof.
  unfold state. destruct (List.filter _ _) as [|i [|j l]]; try done.
  intros c. repeat case_match; done.
Qed.

Lemma label_ended name i : i ∈ writer_incarnations m name →
  str_eqb (member_label (state m name) i) "ended" = negb (is_none (inc_end i)).
Proof.
  intros Hi. unfold member_label.
  assert (Hplain : str_eqb (if is_none (inc_end i) then "current" else "ended") "ended"
                   = negb (is_none (inc_end i))) by (by destruct (is_none _)).
  pose proof (state_cases name) as Hs.
  destruct (List.filter _ _) as [|i1 [|i2 l]] eqn:Hf.
  - destruct (state m name) eqn:Hst; try done. by destruct (Hs l).
  - rewrite Hs. done.
  - rewrite Hs. rewrite <- Hf. destruct (existsb _ _) eqn:He; [|done].
    apply existsb_true_elem in He as (j & Hj & Hk). apply str_eqb_true in Hk.
    apply lfilter_elem in Hj as [Hj Hopen].
    assert (i = j) as ->; [|by rewrite Hopen].
    destruct (Hm name) as [_ Hnd].
    apply list_elem_of_lookup in Hi as [a Ha]. apply list_elem_of_lookup in Hj as [b Hb].
    assert (a = b); [|congruence].
    apply (NoDup_lookup _ a b (inc_member_key i) Hnd); rewrite list_lookup_fmap.
    + by rewrite Ha.
    + rewrite Hb. simpl. congruence.
Qed.

Lemma lfilter_map_ext {A B} (p : B → bool) (q : A → bool) (f : A → B) l :
  (∀ x, x ∈ l → p (f x) = q x) → List.filter p (map f l) = map f (List.filter q l).
Proof.
  induction l as [|x l IH]; intros Hpq; simpl; [done|]. rewrite Hpq by left.
  destruct (q x); simpl; rewrite IH; auto; intros; apply Hpq; by right.
Qed.

Lemma view_current_spec name :
  view_current (from_membership m) name =
  map (member_view (state m name) name)
    (List.filter (λ i, is_none (inc_end i)) (writer_incarnations m name)).
Proof.
  unfold view_current. rewrite (view_members (λ x, negb (str_eqb (mv_state x) "ended"))).
  apply lfilter_map_ext. intros i Hi. simpl. by rewrite label_ended, negb_involutive.
Qed.

Lemma ended_keys_spec name :
  ended_keys (from_membership m) name =
  map (member_view (state m name) name)
    (List.filter (λ i, negb (is_none (inc_end i))) (writer_incarnations m name)).
Proof.
  unfold ended_keys. rewrite (view_members (λ x, str_eqb (mv_state x) "ended")).
  apply lfilter_map_ext. intros i Hi. simpl. by rewrite label_ended.
Qed.

Lemma legacy_removed_spec name :
  name ∈ fv_legacy_removed (from_membership m) ↔
  is_Some (legacy_ends m !! name) ∧ writer_incarnations m name = [].
Proof.
  simpl. rewrite lfilter_elem, elem_of_in_order, elem_of_dom, negb_true_iff, bool_decide_eq_false.
  rewrite elem_of_view_names. destruct (writer_incarnations m name); naive_solver.
Qed.
End ok.

(** ** The acceptance table, read in the membership *)

Definition proves_key (sender : Sender) (i : Incarnation) : bool :=
  member_signature_valid sender && ostr_eqb (sender_member_key sender) (Some (inc_member_key i)).

(** What the table answers for each state of the sender's name. *)
Definition accept_spec (m : Membership) (sender : Sender) (config_peer legacy : bool)
    (answer : result Refusal Acceptance) : Prop :=
  match state m (sender_name sender) with
  | Current i =>
      if proves_key sender i then answer = Ok Member
      else if legacy && config_peer then answer = Ok LegacyPeer
      else ∃ r, answer = Err r ∧ refusal_status r = 401%Z
  | Conflicted _ => ∃ r, answer = Err r ∧ refusal_status r = 409%Z
  | Ended _ => ∃ r, answer = Err r ∧ refusal_status r = 403%Z
  | LegacyRemoved _ => ∃ r, answer = Err r ∧ refusal_status r = 403%Z
  | NotMember =>
      if config_peer && legacy then answer = Ok LegacyPeer
      else ∃ r, answer = Err r ∧ refusal_status r = 403%Z
  end.

Lemma max_by_start_nil l : max_by_start l = None → l = [].
Proof. by destruct l. Qed.

(** Only ended incarnations: nothing is accepted. *)
Lemma accept_ended m sender config_peer legacy :
  membership_ok m →
  List.filter (λ i, is_none (inc_end i)) (writer_incarnations m (sender_name sender)) = [] →
  writer_incarnations m (sender_name sender) ≠ [] →
  ∃ r, accept (from_membership m) sender config_peer legacy = Err r ∧ refusal_status r = 403%Z.
Proof.
  intros Hm Hopen Hne. unfold accept. rewrite view_current_spec, Hopen by done. simpl.
  rewrite ended_keys_spec by done. set (ended := map _ _).
  assert (Hended : ended ≠ []).
  { unfold ended. rewrite lfilter_all.
    - by destruct (writer_incarnations m (sender_name sender)).
    - intros i Hi. destruct (is_none (inc_end i)) eqn:E; [|done].
      assert (Hin : i ∈ List.filter (λ i, is_none (inc_end i))
                          (writer_incarnations m (sender_name sender))) by (by apply lfilter_elem).
      rewrite Hopen in Hin. by apply not_elem_of_nil in Hin. }
  destruct (match sender_member_key sender with Some _ => _ | None => _ end) as [x|];
    [eexists; split; [reflexivity|done]|].
  destruct (_ && is_none _); [eexists; split; [reflexivity|done]|].
  destruct ended; [done|]. rewrite andb_false_r. simpl. eexists; split; [reflexivity|done].
Qed.

(** No incarnation: a config peer in legacy mode, unless it was removed. *)
Lemma accept_unknown m sender config_peer legacy :
  membership_ok m → writer_incarnations m (sender_name sender) = [] →
  match legacy_ends m !! sender_name sender with
  | Some _ => ∃ r, accept (from_membership m) sender config_peer legacy = Err r ∧ refusal_status r = 403%Z
  | None =>
      if config_peer && legacy
      then accept (from_membership m) sender config_peer legacy = Ok LegacyPeer
      else ∃ r, accept (from_membership m) sender config_peer legacy = Err r ∧ refusal_status r = 403%Z
  end.
Proof.
  intros Hm Hnil. unfold accept. rewrite view_current_spec, ended_keys_spec, Hnil by done. simpl.
  assert (Hrem := legacy_removed_spec m Hm (sender_name sender)). rewrite Hnil in Hrem.
  simpl in Hrem. destruct (legacy_ends m !! sender_name sender) as [h|].
  - rewrite bool_decide_eq_true_2 by (apply Hrem; eauto). simpl. rewrite andb_false_r.
    destruct (sender_member_key sender); simpl; eauto.
  - rewrite bool_decide_eq_false_2 by (intros [[? ?] _]%Hrem; done). simpl. rewrite !andb_true_r.
    destruct (sender_member_key sender); simpl; destruct (config_peer && legacy); eauto.
Qed.

(** C3. The acceptance table implements the membership. For the view of any folded membership,
    what [accept] answers is determined by the state the fold gives the sender's name: a current
    member is accepted as a member exactly when it proves its current key and otherwise needs
    both legacy mode and a config entry; a conflicted name is refused with 409; an ended or
    removed name is always refused with 403, whatever key, config or legacy mode it presents; and
    an unknown name passes only as a config peer in legacy mode. *)
Theorem accept_implements_membership root all sender config_peer legacy :
  accept_spec (fold root all) sender config_peer legacy
    (accept (from_membership (fold root all)) sender config_peer legacy).
Proof.
  assert (Hm := fold_ok root all). set (m := fold root all) in *. unfold accept_spec.
  pose proof (state_cases m (sender_name sender)) as Hs.
  destruct (List.filter _ _) as [|i [|j l]] eqn:Hf.
  - assert (He := accept_ended m sender config_peer legacy Hm Hf).
    assert (Hu := accept_unknown m sender config_peer legacy Hm).
    unfold state in *. rewrite Hf in *.
    destruct (max_by_start _) as [latest|] eqn:Hmax.
    + apply He. intros Hnil. by rewrite Hnil in Hmax.
    + apply max_by_start_nil in Hmax. specialize (Hu Hmax).
      by destruct (legacy_ends m !! sender_name sender).
  - rewrite Hs. unfold accept, proves_key. rewrite view_current_spec, Hf by done. simpl.
    destruct (_ && ostr_eqb _ _); [done|]. destruct (legacy && config_peer); eauto.
  - rewrite Hs. unfold accept. rewrite view_current_spec, Hf by done. simpl. eauto.
Qed.
End view.
