(* ===== verification/CheckpointAgreement.v ===== *)
(** * Agreement on checkpoints

    Models [crates/smallclaims/src/store/checkpoint_agreement.rs]: the terms a seal and a
    verification carry, the participants of a checkpoint, its certificates and the one every node
    applies, one pass of a node's checkpoint work with the writes it makes, and the time a node
    dates its writes by. A node's reads of its store are a record of inputs ([StepReads]) and its
    writes are values ([Effect]). The calendar name of a cut is [chrono]'s and an argument, as are
    JSON numbers and the digest of seal terms. The fleet is a step relation: nodes run passes, of
    which any prefix of the writes may take effect, and receive each other's claims in any order. *)

From Stdlib Require Import Ascii.
From stdpp Require Import pretty.
From S2P Require Import Prelude StableSort Text Json Bytes Order BTree Framing Claim Hash Checkpoint Membership FleetView.

Definition CHECKPOINT_SEALED : string := "checkpoint.sealed".
Definition CHECKPOINT_VERIFIED : string := "checkpoint.verified".
Definition CHECKPOINT_EXCUSED : string := "checkpoint.excused".
Definition CHECKPOINT_PROTOCOL : Z := 1.
Definition CHECKPOINT_ATTENTION_AFTER_MS : Z := 3 * DAY_MS.

(** A [BTreeSet<String>]: its names in order. *)
Definition names_set : list string → list string := bt_set String.compare.

Record SealTerms := mkSealTerms {
  st_cut_unix_ms : Z;
  st_participants : list string;
  st_sealed_digest : string;
  st_rules_digest : string
}.
#[export] Instance SealTerms_eq_dec : EqDecision SealTerms.
Proof. solve_decision. Defined.

Record VerifiedTerms := mkVerifiedTerms {
  vt_cut_unix_ms : Z;
  vt_participants : list string;
  vt_sealed_digest : string;
  vt_rules_digest : string;
  vt_drop_digest : string;
  vt_retained_digest : string;
  vt_graph_digest : string;
  vt_reader_digest : string
}.
#[export] Instance VerifiedTerms_eq_dec : EqDecision VerifiedTerms.
Proof. solve_decision. Defined.

(** The derived order. *)
Definition VerifiedTerms_compare (a b : VerifiedTerms) : comparison :=
  then_with (Z.compare (vt_cut_unix_ms a) (vt_cut_unix_ms b))
  (then_with (list_compare String.compare (vt_participants a) (vt_participants b))
  (then_with (String.compare (vt_sealed_digest a) (vt_sealed_digest b))
  (then_with (String.compare (vt_rules_digest a) (vt_rules_digest b))
  (then_with (String.compare (vt_drop_digest a) (vt_drop_digest b))
  (then_with (String.compare (vt_retained_digest a) (vt_retained_digest b))
  (then_with (String.compare (vt_graph_digest a) (vt_graph_digest b))
             (String.compare (vt_reader_digest a) (vt_reader_digest b)))))))).

#[export] Instance VerifiedTerms_order : cmp_order VerifiedTerms_compare.
Proof. unfold VerifiedTerms_compare. derive_order. Qed.
#[export] Instance VerifiedTerms_exact : cmp_exact VerifiedTerms_compare.
Proof. unfold VerifiedTerms_compare. derive_exact. Qed.

Record Certificate := mkCertificate {
  ct_checkpoint : string;
  ct_terms : VerifiedTerms;
  ct_verifications : gmap string string
}.

(** ** Certificates *)

Section claims.
Context `{NumberApi}.
Context (checkpoint_name : Z → string).

Record CheckpointClaim := mkCheckpointClaim {
  cc_id : string;
  cc_kind : string;
  cc_subject : string;
  cc_writer : string;
  cc_actor : option string;
  cc_fields : list (string * Value)
}.

Definition text (c : CheckpointClaim) (name : string) : option string :=
  field_get name (cc_fields c) ≫= as_str.

Definition number (c : CheckpointClaim) (name : string) : option Z :=
  field_get name (cc_fields c) ≫= as_u64.

Definition names (c : CheckpointClaim) (name : string) : option (list string) :=
  names_set <$> ((field_get name (cc_fields c) ≫= as_array) ≫= mapM (M:=option) as_str).

Definition cut (c : CheckpointClaim) : option Z :=
  cut ← number c "cut_unix_ms";
  if str_eqb (checkpoint_name cut) (cc_subject c) then Some cut else None.

Definition seal_terms (c : CheckpointClaim) : option SealTerms :=
  if negb (str_eqb (cc_kind c) CHECKPOINT_SEALED) then None
  else
    cut ← cut c;
    participants ← names c "participants";
    sealed_digest ← text c "sealed_digest";
    rules_digest ← text c "rules_digest";
    Some (mkSealTerms cut participants sealed_digest rules_digest).

Definition verified_terms (c : CheckpointClaim) : option VerifiedTerms :=
  if negb (str_eqb (cc_kind c) CHECKPOINT_VERIFIED) then None
  else
    cut ← cut c;
    participants ← names c "participants";
    sealed_digest ← text c "sealed_digest";
    rules_digest ← text c "rules_digest";
    drop_digest ← text c "drop_digest";
    retained_digest ← text c "retained_digest";
    graph_digest ← text c "graph_digest";
    reader_digest ← text c "reader_digest";
    Some (mkVerifiedTerms cut participants sealed_digest rules_digest drop_digest retained_digest
            graph_digest reader_digest).

Definition is_checkpoint_work (c : CheckpointClaim) : bool :=
  str_eqb (cc_kind c) CHECKPOINT_SEALED || str_eqb (cc_kind c) CHECKPOINT_VERIFIED.

Definition excuse_step (excused : gset string) (c : CheckpointClaim) : gset string :=
  if str_eqb (cc_kind c) CHECKPOINT_EXCUSED then
    if is_some_and (cc_actor c) (starts_with "person/")
    then match text c "writer" with Some writer => {[writer]} ∪ excused | None => excused end
    else excused
  else if is_checkpoint_work c then excused ∖ {[cc_writer c]} else excused.

Definition excused_writers (claims : list CheckpointClaim) : gset string :=
  fold_left excuse_step claims ∅.

Definition participants (known left : gset string) (claims : list CheckpointClaim) : list string :=
  let excused := excused_writers claims in
  let named := concat (omap (λ c, names c "participants") (List.filter is_checkpoint_work claims)) in
  names_set (List.filter (λ writer, negb (bool_decide (writer ∈ left))
                                    && negb (bool_decide (writer ∈ excused)))
               (elements known ++ named)).

Definition of_checkpoint (claims : list CheckpointClaim) (checkpoint : string) : list CheckpointClaim :=
  List.filter (λ c, str_eqb (cc_subject c) checkpoint) claims.

Definition seal_insert (seals : gmap string SealTerms) (c : CheckpointClaim) : gmap string SealTerms :=
  match seal_terms c with
  | Some terms => <[cc_writer c := terms]> seals
  | None => seals
  end.

Definition newest_seals (claims : list CheckpointClaim) (checkpoint : string) : gmap string SealTerms :=
  fold_left seal_insert (of_checkpoint claims checkpoint) ∅.

Definition verify_insert (verifications : gmap string (string * VerifiedTerms)) (c : CheckpointClaim)
    : gmap string (string * VerifiedTerms) :=
  match verified_terms c with
  | Some terms =>
      match verifications !! cc_writer c with
      | Some _ => verifications
      | None => <[cc_writer c := (cc_id c, terms)]> verifications
      end
  | None => verifications
  end.

Definition first_verifications (claims : list CheckpointClaim) (checkpoint : string)
    : gmap string (string * VerifiedTerms) :=
  fold_left verify_insert (of_checkpoint claims checkpoint) ∅.

(** The certificate of a group of identical verifications, when every participant is in it. *)
Definition certificate_of (checkpoint : string) (group : VerifiedTerms * list (string * string))
    : option Certificate :=
  let '(terms, verified) := group in
  let verifications : gmap string string :=
    list_to_map (List.filter (λ e, bool_decide (e.1 ∈ vt_participants terms)) verified) in
  if negb (bool_decide (vt_participants terms = []))
     && forallb (λ writer, is_some (verifications !! writer)) (vt_participants terms)
  then Some (mkCertificate checkpoint terms verifications) else None.

(** The groups, each with its writers and their claims' IDs in key order. *)
Definition verification_groups (claims : list CheckpointClaim) (checkpoint : string)
    : list (VerifiedTerms * list (string * (string * VerifiedTerms))) :=
  bt_group VerifiedTerms_compare (λ e : string * (string * VerifiedTerms), Some e.2.2)
    (in_key_order (first_verifications claims checkpoint)).

Definition certificates (claims : list CheckpointClaim) (checkpoint : string) : list Certificate :=
  omap (λ group, certificate_of checkpoint (group.1, map (λ e, (e.1, e.2.1)) group.2))
    (verification_groups claims checkpoint).

(** Every stable checkpoint by cut: collecting keeps the last of equal cuts. *)
Definition stable_checkpoints (claims : list CheckpointClaim) : list (Z * list Certificate) :=
  fold_left (λ stable checkpoint,
    let certs := certificates claims checkpoint in
    match certs with
    | [] => stable
    | first :: _ => bt_insert Z.compare (vt_cut_unix_ms (ct_terms first)) certs stable
    end)
    (names_set (map cc_subject (List.filter (λ c, str_eqb (cc_kind c) CHECKPOINT_VERIFIED) claims))) [].
End claims.

(** ** The certificate every node applies *)

Definition Certificate_compare (l r : Certificate) : comparison :=
  then_with (Nat.compare (length (vt_participants (ct_terms r))) (length (vt_participants (ct_terms l))))
  (then_with (String.compare (vt_drop_digest (ct_terms l)) (vt_drop_digest (ct_terms r)))
             (VerifiedTerms_compare (ct_terms l) (ct_terms r))).

(** [Iterator::min_by]: the first of the least. *)
Definition min_by {A} (cmp : A → A → comparison) (l : list A) : option A :=
  match l with
  | [] => None
  | x :: l' => Some (fold_left (λ best y, match cmp best y with Gt => y | _ => best end) l' x)
  end.

Definition chosen_certificate (l : list Certificate) : option Certificate :=
  min_by Certificate_compare l.

Definition seal_difference (ours theirs : SealTerms) : string :=
  join ", "
    ((if str_eqb (st_sealed_digest ours) (st_sealed_digest theirs) then [] else ["sealed envelopes"])
     ++ (if bool_decide (st_participants ours = st_participants theirs) then [] else ["participants"])
     ++ (if str_eqb (st_rules_digest ours) (st_rules_digest theirs) then [] else ["rules"])).

Definition verification_difference (ours theirs : VerifiedTerms) : string :=
  join ", " (omap (λ e : bool * string, if e.1 then Some e.2 else None)
    [(negb (bool_decide (vt_participants ours = vt_participants theirs)), "participants");
     (negb (str_eqb (vt_sealed_digest ours) (vt_sealed_digest theirs)), "sealed envelopes");
     (negb (str_eqb (vt_rules_digest ours) (vt_rules_digest theirs)), "rules");
     (negb (str_eqb (vt_drop_digest ours) (vt_drop_digest theirs)), "drops");
     (negb (str_eqb (vt_retained_digest ours) (vt_retained_digest theirs)), "retained claims");
     (negb (str_eqb (vt_graph_digest ours) (vt_graph_digest theirs)), "graph");
     (negb (str_eqb (vt_reader_digest ours) (vt_reader_digest theirs)), "reader answers")]).

(** ** One pass of checkpoint work *)

Inductive CheckpointAction :=
| Sealed (checkpoint sealed_digest : string) (participants : list string)
| Verified (checkpoint drop_digest : string) (dropped_claims : nat)
| ProofFailed (checkpoint : string) (mismatches : list string)
| AttentionRequested (checkpoint : string) (waiting_for : list string)
| AttentionWithdrawn (attention : string)
| Trimmed (checkpoint : string) (envelopes claims : nat)
| ManifestNeeded (checkpoint : string) (cut_unix_ms : Z)
| TrimGraphChanged (checkpoint : string).

(** The members of a proof a pass reads. *)
Record CheckpointProof := mkCheckpointProof {
  pf_graph_digest : string;
  pf_reader_digest : string;
  pf_passed : bool;
  pf_mismatches : list string
}.

Section step.
Context `{NumberApi}.
Context (checkpoint_name : Z → string) (number_of : Z → Number).
Context (build : string) (terms_key : SealTerms → string).

(** What a pass writes, in order. *)
Inductive Effect :=
| RecordState (checkpoint : string) (cut_unix_ms : Z) (state : string) (sealed : SealedIdentities)
    (drop_digest : option string)
| AppendClaim (subject kind : string) (actor : option string) (fields : list (string * Value))
    (idempotency_key : option string).

(** What a pass reads: the clock, the node's name and state, the claims and writers it holds, the
    outcome of applying the newest stable checkpoint, and what sealing and planning read. *)
Record StepReads := mkStepReads {
  sr_now_unix_ms : Z;
  sr_origin : string;
  sr_catching_up : bool;
  sr_claims : list CheckpointClaim;
  sr_applied : list CheckpointAction * option (string * Z);
  sr_halted : bool;
  sr_envelope_writers : gset string;
  sr_configured_peers : list string;
  sr_membership : Membership;
  sr_sealed_identities : Z → SealedIdentities;
  sr_rules_digest : string;
  sr_plan : Z → Z → SealedSet * DropPlan * CheckpointProof;
  sr_identities_of : SealedSet → SealedIdentities
}.

Definition checkpoint_known_writers (r : StepReads) : gset string :=
  sr_envelope_writers r ∪ {[sr_origin r]} ∪ list_to_set (sr_configured_peers r)
  ∪ list_to_set (map inc_name (all_incarnations (sr_membership r))).

Definition checkpoint_left_writers (r : StepReads) : gset string :=
  list_to_set (List.filter (λ name,
      match state (sr_membership r) name with
      | Ended i => ostr_eqb (inc_ended i) (Some "left")
      | _ => false
      end) (map inc_name (all_incarnations (sr_membership r)))).

(** [BTreeMap::from] of named fields. *)
Definition named_fields (l : list (string * Value)) : list (string * Value) :=
  fold_left (λ m e, bt_insert String.compare e.1 e.2 m) l [].

Definition names_value (l : list string) : Value := Array (map Str l).
Definition count_value (n : nat) : Value := Num (number_of (Z.of_nat n)).

Definition seal_fields (terms : SealTerms) (sealed : SealedIdentities) : list (string * Value) :=
  named_fields
    [("cut_unix_ms", Num (number_of (st_cut_unix_ms terms)));
     ("participants", names_value (st_participants terms));
     ("sealed_digest", Str (st_sealed_digest terms));
     ("sealed_count", count_value (si_count sealed));
     ("rules_digest", Str (st_rules_digest terms));
     ("checkpoint_protocol", Num (number_of CHECKPOINT_PROTOCOL));
     ("build", Str build)].

Definition publish_seal (origin checkpoint : string) (terms : SealTerms) (sealed : SealedIdentities)
    (replaces : option string) : list Effect :=
  [RecordState checkpoint (st_cut_unix_ms terms) "sealed" sealed None;
   AppendClaim checkpoint CHECKPOINT_SEALED None (seal_fields terms sealed)
     (Some ("checkpoint-sealed:" +:+ origin +:+ ":" +:+ checkpoint +:+ ":" +:+ terms_key terms
            +:+ ":" +:+ default "first" replaces))].

Definition verification_fields (terms : SealTerms) (plan : DropPlan) (proof : CheckpointProof)
    : list (string * Value) :=
  named_fields
    [("cut_unix_ms", Num (number_of (st_cut_unix_ms terms)));
     ("participants", names_value (st_participants terms));
     ("sealed_digest", Str (st_sealed_digest terms));
     ("rules_digest", Str (st_rules_digest terms));
     ("drop_digest", Str (dp_drop_digest plan));
     ("dropped_envelopes", count_value (length (dp_envelopes plan)));
     ("dropped_claims", count_value (length (dp_claims plan)));
     ("retained_digest", Str (dp_retained_digest plan));
     ("graph_digest", Str (pf_graph_digest proof));
     ("reader_digest", Str (pf_reader_digest proof));
     ("checkpoint_protocol", Num (number_of CHECKPOINT_PROTOCOL));
     ("build", Str build)].

Definition publish_verification (origin checkpoint : string) (terms : SealTerms) (plan : DropPlan)
    (proof : CheckpointProof) : Effect :=
  AppendClaim checkpoint CHECKPOINT_VERIFIED None (verification_fields terms plan proof)
    (Some ("checkpoint-verified:" +:+ origin +:+ ":" +:+ checkpoint)).

Definition verify_checkpoint (r : StepReads) (checkpoint : string) (terms : SealTerms) (seal_rowid : Z)
    : list Effect * list CheckpointAction :=
  let '(sealed, plan, proof) := sr_plan r (st_cut_unix_ms terms) seal_rowid in
  if negb (str_eqb (dp_sealed_digest plan) (st_sealed_digest terms)) then ([], [])
  else if negb (pf_passed proof) then
    ([AppendClaim ("daemon/" +:+ sr_origin r) "daemon.diagnostic" None
        (named_fields
           [("severity", Str "error"); ("code", Str "checkpoint-proof-failed");
            ("reason", Str ("dropping " +:+ u_to_string (Z.of_nat (length (dp_claims plan)))
                            +:+ " claims before " +:+ checkpoint +:+ " would change "
                            +:+ join "; " (pf_mismatches proof)))])
        (Some ("checkpoint-proof-failed:" +:+ sr_origin r +:+ ":" +:+ checkpoint +:+ ":"
               +:+ dp_drop_digest plan))],
     [ProofFailed checkpoint (pf_mismatches proof)])
  else
    ([RecordState checkpoint (st_cut_unix_ms terms) "verified" (sr_identities_of r sealed)
        (Some (dp_drop_digest plan));
      publish_verification (sr_origin r) checkpoint terms plan proof],
     [Verified checkpoint (dp_drop_digest plan) (length (dp_claims plan))]).

(** The seal a new one replaces: this node's newest of the checkpoint. *)
Definition replaced_seal (r : StepReads) (checkpoint : string) : option string :=
  cc_id <$> last (List.filter (λ c, str_eqb (cc_subject c) checkpoint && str_eqb (cc_writer c) (sr_origin r)
                                    && is_some (seal_terms checkpoint_name c)) (sr_claims r)).

Definition newest_stable_cut (claims : list CheckpointClaim) : option Z :=
  fst <$> last (stable_checkpoints checkpoint_name claims).

Definition step_terms (r : StepReads) (cut : Z) : SealTerms :=
  mkSealTerms cut
    (names_set (sr_origin r
       :: participants (checkpoint_known_writers r) (checkpoint_left_writers r) (sr_claims r)))
    (si_digest (sr_sealed_identities r cut)) (sr_rules_digest r).

Definition checkpoint_step (r : StepReads) : list Effect * list CheckpointAction :=
  if sr_catching_up r then ([], [])
  else
    let '(actions, need) := sr_applied r in
    match need with
    | Some (checkpoint, cut) => ([], actions ++ [ManifestNeeded checkpoint cut])
    | None =>
        let claims := sr_claims r in
        let cut := newest_due_cut (sr_now_unix_ms r) in
        if sr_halted r then ([], actions)
        else if (cut =? 0)%Z || is_some_and (newest_stable_cut claims) (λ stable, (cut <=? stable)%Z)
        then ([], actions)
        else if bool_decide (sr_origin r ∈ checkpoint_left_writers r) then ([], actions)
        else
          let checkpoint := checkpoint_name cut in
          let seals := newest_seals checkpoint_name claims checkpoint in
          if is_some (first_verifications checkpoint_name claims checkpoint !! sr_origin r)
          then ([], actions)
          else
            let sealed := sr_sealed_identities r cut in
            let terms := step_terms r cut in
            if negb (bool_decide (seals !! sr_origin r = Some terms)) then
              (publish_seal (sr_origin r) checkpoint terms sealed (replaced_seal r checkpoint),
               actions ++ [Sealed checkpoint (st_sealed_digest terms) (st_participants terms)])
            else if forallb (λ writer, bool_decide (seals !! writer = Some terms)) (st_participants terms)
            then let '(effects, more) := verify_checkpoint r checkpoint terms (si_seal_rowid sealed) in
                 (effects, actions ++ more)
            else ([], actions)
    end.
End step.

(** ** The time of a write *)

(** The rows [write_time] reads: the cuts of the checkpoints this node holds, the time of the
    writer's newest batch as text, and the simulated clock. *)
Record ClockReads := mkClockReads {
  ck_cuts : list Z;
  ck_newest_own : option string;
  ck_write_clock : option (Z * option Z);
  ck_now_ms : Z
}.

Definition i128_max : Z := 2 ^ 127 - 1.

(** [str::parse::<u128>]: an optional plus sign and at least one digit, in range. *)
Definition digit_of (c : ascii) : option Z :=
  let n := Z.of_nat (nat_of_ascii c) in
  if (48 <=? n)%Z && (n <=? 57)%Z then Some (n - 48)%Z else None.

Fixpoint parse_digits (acc : Z) (s : string) : option Z :=
  match s with
  | EmptyString => Some acc
  | String c s' => d ← digit_of c; parse_digits (acc * 10 + d) s'
  end.

Definition parse_u128 (s : string) : option Z :=
  let digits := match s with String "+"%char s' => s' | _ => s end in
  match digits with
  | EmptyString => None
  | _ => z ← parse_digits 0 digits; if (z <=? u128_max)%Z then Some z else None
  end.

Definition write_time (r : ClockReads) : Z :=
  (let floor := match ck_cuts r with [] => 0 | c :: cs => Z.max 0 (fold_left Z.max cs c) end in
   let '(offset, at_ms) := default (0, None) (ck_write_clock r) in
   let now := match at_ms with
              | Some at_ms => at_ms
              | None => Z.min i128_max (ck_now_ms r) + offset
              end in
   let newest_own := default 0 (ck_newest_own r ≫= parse_u128) in
   Z.max (Z.max (Z.max now 0) floor) newest_own)%Z.

Lemma digit_of_pretty d : (d < 10)%N → digit_of (pretty_N_char d) = Some (Z.of_N d).
Proof.
  intros Hd. assert (d = 0 ∨ d = 1 ∨ d = 2 ∨ d = 3 ∨ d = 4 ∨ d = 5 ∨ d = 6 ∨ d = 7 ∨ d = 8 ∨ d = 9)%N
    as Hcase by lia.
  by repeat destruct Hcase as [->|Hcase]; [reflexivity..|subst].
Qed.

Lemma parse_digits_pretty x s : parse_digits 0 (pretty_N_go x s) = parse_digits (Z.of_N x) s.
Proof.
  revert s. induction (N.lt_wf_0 x) as [x _ IH]; intros s.
  destruct (decide (x = 0)%N) as [->|Hx]; [by rewrite pretty_N_go_0|].
  rewrite pretty_N_go_step by lia. rewrite IH by (apply N.div_lt; lia). cbn.
  rewrite digit_of_pretty by (apply N.mod_lt; lia). cbn. f_equal.
  rewrite N2Z.inj_div, N2Z.inj_mod. pose proof (Z_div_mod_eq_full (Z.of_N x) 10). lia.
Qed.

Lemma pretty_head x s : ∃ c s', pretty_N_go (N.succ x) s = String c s' ∧ c ≠ "+"%char.
Proof.
  revert s. induction (N.lt_wf_0 x) as [x _ IH]; intros s. rewrite pretty_N_go_step by lia.
  destruct (decide (N.succ x < 10)%N) as [Hlt|Hge].
  - rewrite N.div_small, N.mod_small, pretty_N_go_0 by done. do 2 eexists. split; [done|].
    intros E. pose proof (digit_of_pretty _ Hlt) as Hd. by rewrite E in Hd.
  - assert (N.succ x / 10 ≠ 0)%N as Hne.
    { intros E. apply N.div_small_iff in E; lia. }
    destruct (N.succ x / 10)%N as [|y] eqn:Ey; [done|]. rewrite <- (N.succ_pred (N.pos y)) by done.
    apply IH. assert (N.succ x / 10 < N.succ x)%N by (apply N.div_lt; lia). lia.
Qed.

(** A number's text is read back as the number. *)
Lemma parse_u128_text z : is_u128 z → parse_u128 (u_to_string z) = Some z.
Proof.
  intros [H0 Hmax]. unfold u_to_string. destruct (decide (z = 0)%Z) as [->|Hne]; [done|].
  assert (pretty (Z.to_N z) = pretty_N_go (Z.to_N z) "") as ->.
  { unfold pretty, pretty_N. rewrite decide_False; [done|]. lia. }
  destruct (pretty_head (N.pred (Z.to_N z)) "") as (c & s & E & Hc).
  rewrite N.succ_pred in E by lia. pose proof (parse_digits_pretty (Z.to_N z) "") as Hp.
  unfold parse_u128. rewrite E in *. rewrite Z2N.id in Hp by done.
  assert (match String c s with String "+"%char s' => s' | _ => String c s end = String c s) as ->.
  { destruct c as [[] [] [] [] [] [] [] []]; done. }
  rewrite Hp. cbn. by rewrite (proj2 (Z.leb_le z u128_max)).
Qed.

(** ** What the certificates of a list of claims are *)

Section certificates_spec.
Context `{NumberApi}.
Context (checkpoint_name : Z → string).

Definition verifies (checkpoint writer : string) (c : CheckpointClaim) : bool :=
  str_eqb (cc_subject c) checkpoint && str_eqb (cc_writer c) writer
  && is_some (verified_terms checkpoint_name c).

Definition entry_of (c : CheckpointClaim) : option (string * VerifiedTerms) :=
  pair (cc_id c) <$> verified_terms checkpoint_name c.

Lemma fold_verify_insert l m w :
  fold_left (verify_insert checkpoint_name) l m !! w
  = match m !! w with
    | Some e => Some e
    | None => List.find (λ c, str_eqb (cc_writer c) w && is_some (verified_terms checkpoint_name c)) l
              ≫= entry_of
    end.
Proof.
  revert m. induction l as [|c l IH]; intros m; simpl; [by destruct (m !! w)|].
  rewrite IH. unfold verify_insert, entry_of.
  destruct (verified_terms checkpoint_name c) as [t|] eqn:Ht; [|by rewrite andb_false_r].
  rewrite andb_true_r. destruct (str_eqb (cc_writer c) w) eqn:Ew; str_cases; subst.
  - destruct (m !! cc_writer c) as [e|] eqn:Hm; [by rewrite Hm|].
    rewrite lookup_insert_eq. simpl. by rewrite Ht.
  - destruct (m !! cc_writer c); [done|]. by rewrite lookup_insert_ne.
Qed.

Lemma first_verification claims checkpoint w :
  first_verifications checkpoint_name claims checkpoint !! w
  = List.find (verifies checkpoint w) claims ≫= entry_of.
Proof.
  unfold first_verifications. rewrite fold_verify_insert, lookup_empty. f_equal.
  unfold of_checkpoint, verifies. induction claims as [|c claims IH]; simpl; [done|].
  destruct (str_eqb (cc_subject c) checkpoint); simpl; [|done].
  by destruct (_ && is_some _).
Qed.

Lemma newest_seal_claim claims checkpoint w terms :
  newest_seals checkpoint_name claims checkpoint !! w = Some terms →
  ∃ c, c ∈ claims ∧ cc_subject c = checkpoint ∧ cc_writer c = w
       ∧ seal_terms checkpoint_name c = Some terms.
Proof.
  unfold newest_seals. intros Hf.
  assert (∀ l m, fold_left (seal_insert checkpoint_name) l m !! w = Some terms →
    m !! w = Some terms ∨ ∃ c, c ∈ l ∧ cc_writer c = w ∧ seal_terms checkpoint_name c = Some terms) as Hfold.
  { induction l as [|c l IH]; intros m; simpl; [by left|].
    intros [Hm|(c' & ? & ? & ?)]%IH; [|right; exists c'; split; [by right|done]].
    unfold seal_insert in Hm. destruct (seal_terms checkpoint_name c) as [t|] eqn:Ht; [|by left].
    destruct (decide (cc_writer c = w)) as [Ew|Ew]; [|left; by rewrite lookup_insert_ne in Hm].
    rewrite Ew, lookup_insert_eq in Hm. injection Hm as ->. right. exists c. split; [left|done]. }
  apply Hfold in Hf as [Hf|(c & [Hc Hs%str_eqb_true]%lfilter_elem & ? & ?)]; [by rewrite lookup_empty in Hf|].
  by exists c.
Qed.

(** Every participant's first verification carries these terms. *)
Definition certified (claims : list CheckpointClaim) (checkpoint : string) (terms : VerifiedTerms) : Prop :=
  vt_participants terms ≠ [] ∧
  ∀ w, w ∈ vt_participants terms →
    snd <$> first_verifications checkpoint_name claims checkpoint !! w = Some terms.

Lemma group_lookup claims checkpoint terms w :
  (list_to_map (List.filter (λ e, bool_decide (e.1 ∈ vt_participants terms))
     (map (λ e : string * (string * VerifiedTerms), (e.1, e.2.1))
        (group_of (λ e : string * (string * VerifiedTerms), Some e.2.2) terms
           (in_key_order (first_verifications checkpoint_name claims checkpoint)))))
   : gmap string string) !! w
  = if bool_decide (w ∈ vt_participants terms)
    then match first_verifications checkpoint_name claims checkpoint !! w with
         | Some (id, t) => if bool_decide (t = terms) then Some id else None
         | None => None
         end
    else None.
Proof.
  set (m := first_verifications checkpoint_name claims checkpoint).
  set (l := List.filter _ _).
  assert (Hnd : NoDup (map fst l)).
  { unfold l. apply (NoDup_map_filter fst). rewrite map_map. simpl.
    apply (NoDup_map_filter fst), in_key_order_NoDup. }
  assert (Hin : ∀ id, (w, id) ∈ l ↔ w ∈ vt_participants terms ∧ m !! w = Some (id, terms)).
  { intros id. unfold l. rewrite lfilter_elem, bool_decide_eq_true, list_elem_of_fmap. simpl. split.
    - intros [([w' [id' t]] & [= -> ->] & [He Ht]%lfilter_elem) Hp]. split; [done|].
      apply bool_decide_eq_true in Ht. simpl in Ht. injection Ht as ->. by apply in_key_order_elem in He.
    - intros [Hp Hm]. split; [|done]. exists (w, (id, terms)). split; [done|]. apply lfilter_elem.
      split; [by apply in_key_order_elem|by apply bool_decide_eq_true]. }
  apply option_eq. intros id. rewrite <- elem_of_list_to_map by done. rewrite Hin.
  case_bool_decide as Hp; [|naive_solver]. destruct (m !! w) as [[id' t]|]; [|naive_solver].
  case_bool_decide; naive_solver.
Qed.

Lemma elem_of_certificates claims checkpoint cert :
  cert ∈ certificates checkpoint_name claims checkpoint ↔
  ct_checkpoint cert = checkpoint ∧ certified claims checkpoint (ct_terms cert) ∧
  ∀ w, ct_verifications cert !! w
       = if bool_decide (w ∈ vt_participants (ct_terms cert))
         then fst <$> first_verifications checkpoint_name claims checkpoint !! w else None.
Proof.
  unfold certificates, certified. rewrite list_elem_of_omap. split.
  - intros ([terms ms] & Hg & Hcert). unfold verification_groups in Hg.
    destruct (proj1 (elem_of_bt_group VerifiedTerms_compare _ _ _ _) Hg) as [-> _].
    unfold certificate_of in Hcert. simpl in Hcert.
    destruct (_ && _) eqn:Hok; [|done]. injection Hcert as <-. simpl.
    apply andb_prop in Hok as [Hne Hall]. rewrite negb_true_iff, bool_decide_eq_false in Hne.
    assert (Hvs : ∀ w, w ∈ vt_participants terms →
      ∃ id, first_verifications checkpoint_name claims checkpoint !! w = Some (id, terms)).
    { intros w Hw. rewrite forallb_forall in Hall. specialize (Hall w (proj1 (list_elem_of_In _ _) Hw)).
      rewrite group_lookup, bool_decide_true in Hall by done.
      destruct (first_verifications _ _ _ !! w) as [[id t]|]; [|done].
      case_bool_decide; [|done]. subst. by exists id. }
    split_and!; [done|done| |].
    + intros w [id ->]%Hvs. done.
    + intros w. rewrite group_lookup. case_bool_decide as Hw; [|done].
      destruct (Hvs w Hw) as [id ->]. by rewrite bool_decide_true.
  - intros (<- & [Hne Hall] & Hv). destruct cert as [k terms vs]. simpl in *.
    set (g := group_of (λ e : string * (string * VerifiedTerms), Some e.2.2) terms
                (in_key_order (first_verifications checkpoint_name claims k))).
    exists (terms, g). split.
    + apply (proj2 (elem_of_bt_group VerifiedTerms_compare _ _ _ _)). split; [done|].
      destruct (vt_participants terms) as [|w ps]; [done|].
      specialize (Hall w ltac:(left)). apply fmap_Some in Hall as ([id t] & Hm & E). simpl in E. subst t.
      intros E. assert ((w, (id, terms)) ∈ g) as Hin.
      { apply lfilter_elem. split; [by apply in_key_order_elem|by apply bool_decide_eq_true]. }
      rewrite E in Hin. by apply elem_of_nil in Hin.
    + unfold certificate_of. simpl.
      assert (Ht : ∀ w, w ∈ vt_participants terms → ∃ id,
        first_verifications checkpoint_name claims k !! w = Some (id, terms)).
      { intros w Hw. specialize (Hall w Hw). apply fmap_Some in Hall as ([id t] & Hm & E).
        simpl in E. subst t. by exists id. }
      rewrite bool_decide_false by done. simpl.
      assert (Hforall : forallb (λ w, is_some ((list_to_map (List.filter (λ e, bool_decide (e.1 ∈ vt_participants terms))
        (map (λ e : string * (string * VerifiedTerms), (e.1, e.2.1)) g)) : gmap string string) !! w))
        (vt_participants terms) = true).
      { apply forallb_forall. intros w Hw%list_elem_of_In. unfold g. rewrite group_lookup, bool_decide_true by done.
        destruct (Ht w Hw) as [id ->]. by rewrite bool_decide_true. }
      rewrite Hforall. do 2 f_equal. apply map_eq. intros w. unfold g. rewrite group_lookup, Hv.
      case_bool_decide as Hw; [|done]. destruct (Ht w Hw) as [id ->]. by rewrite bool_decide_true.
Qed.
End certificates_spec.

(** ** The certificate applied *)

Lemma fold_min_spec {A} (cmp : A → A → comparison) `{!cmp_order cmp} l x :
  let best := fold_left (λ best y, match cmp best y with Gt => y | _ => best end) l x in
  (best = x ∨ best ∈ l) ∧ cmp best x ≠ Gt ∧ ∀ y, y ∈ l → cmp best y ≠ Gt.
Proof.
  revert x. induction l as [|y l IH]; intros x; simpl.
  - split_and!; [by left|by rewrite (cmp_order_refl cmp)|by intros y ?%elem_of_nil].
  - destruct (IH (match cmp x y with Gt => y | _ => x end)) as (Hin & Hx & Hl).
    destruct (cmp x y) eqn:E; (split_and!; [rewrite elem_of_cons; tauto| |]).
    all: try (intros z [->|Hz]%elem_of_cons; [|by apply Hl]).
    all: try done.
    + apply (cmp_trans cmp _ x); [done|by rewrite E].
    + apply (cmp_trans cmp _ x); [done|by rewrite E].
    + apply (cmp_trans cmp _ y); [done|]. rewrite (cmp_opp cmp x y), E. done.
Qed.

Lemma min_by_spec {A} (cmp : A → A → comparison) `{!cmp_order cmp} l best :
  min_by cmp l = Some best → best ∈ l ∧ ∀ y, y ∈ l → cmp best y ≠ Gt.
Proof.
  destruct l as [|x l]; [done|]. intros [= <-].
  destruct (fold_min_spec cmp l x) as (Hin & Hx & Hl). rewrite elem_of_cons. split; [tauto|].
  intros y [->|Hy]%elem_of_cons; [done|by apply Hl].
Qed.

#[export] Instance Certificate_compare_order : cmp_order Certificate_compare.
Proof.
  unfold Certificate_compare.
  apply (cmp_order_then (λ l r, Nat.compare (length (vt_participants (ct_terms r)))
                                  (length (vt_participants (ct_terms l))))).
  - split.
    + intros x y. apply Nat.compare_antisym.
    + intros x y z. rewrite !Nat.compare_ngt_iff. lia.
  - apply cmp_order_then.
    + apply (cmp_order_by_key String.compare (λ c, vt_drop_digest (ct_terms c))). apply _.
    + apply (cmp_order_by_key VerifiedTerms_compare ct_terms). apply _.
Qed.

(** ** The terms a node publishes are the terms others read *)

Lemma names_set_idem l : names_set (names_set l) = names_set l.
Proof.
  unfold names_set. apply (bt_set_ext String.compare). intros x. apply (elem_of_bt_set String.compare).
Qed.

(** The value a name has in a map built from a list: its last one. *)
Lemma field_get_named `{NumberApi} name l :
  field_get name (named_fields l) = snd <$> List.find (λ e, str_eqb e.1 name) (reverse l).
Proof.
  unfold named_fields. assert (bt_wf String.compare (fold_left (λ m e, bt_insert String.compare e.1 e.2 m) l [])
    ∧ bt_get String.compare name (fold_left (λ m e, bt_insert String.compare e.1 e.2 m) l [])
      = snd <$> List.find (λ e, str_eqb e.1 name) (reverse l)) as [Hwf Hget].
  { induction l as [|[n v] l [Hwf IH]] using rev_ind; [split; [constructor|done]|].
    rewrite fold_left_app, reverse_app. simpl.
    split; [exact (bt_update_wf String.compare n (λ _, v) _ Hwf)|].
    unfold bt_insert at 1. rewrite (bt_get_update String.compare) by exact Hwf. destruct (str_eqb n name) eqn:E; str_cases.
    - subst n. by rewrite (cmp_refl String.compare).
    - destruct (String.compare name n) eqn:Ec; [|done..]. apply cmp_eq in Ec. congruence. }
  rewrite <- Hget. unfold field_get, bt_get. f_equal. clear.
  induction (fold_left _ l []) as [|e m IH]; simpl; [done|]. rewrite IH.
  destruct (str_eqb e.1 name) eqn:E; str_cases.
  - rewrite E. by rewrite (cmp_refl String.compare).
  - destruct (String.compare name e.1) eqn:Ec; [|done..]. apply cmp_eq in Ec. congruence.
Qed.

(** Compares the texts of a goal that are literals. *)
Ltac eval_str_eqb :=
  repeat match goal with
  | |- context [str_eqb ?a ?b] =>
      let v := eval vm_compute in (str_eqb a b) in
      match v with true => idtac | false => idtac end; change (str_eqb a b) with v; cbn match
  end.

Section published.
Context `{NumberApi}.
Context (checkpoint_name : Z → string) (number_of : Z → Number) (build : string).
Hypothesis number_of_u64 : ∀ z, is_u64 z → num_as_u64 (number_of z) = Some z.

Lemma mapM_names l : mapM (M:=option) as_str (map Str l) = Some l.
Proof. induction l as [|x l IH]; [done|]. cbn. by rewrite IH. Qed.

Definition claim_of (id kind checkpoint writer : string) (fields : list (string * Value)) : CheckpointClaim :=
  mkCheckpointClaim id kind checkpoint writer None fields.

(** The terms of a verification: the seal's, with what the plan drops and the proof found. *)
Definition verified_of (terms : SealTerms) (plan : DropPlan) (proof : CheckpointProof) : VerifiedTerms :=
  mkVerifiedTerms (st_cut_unix_ms terms) (st_participants terms) (st_sealed_digest terms)
    (st_rules_digest terms) (dp_drop_digest plan) (dp_retained_digest plan) (pf_graph_digest proof)
    (pf_reader_digest proof).

Definition seal_of (t : VerifiedTerms) : SealTerms :=
  mkSealTerms (vt_cut_unix_ms t) (vt_participants t) (vt_sealed_digest t) (vt_rules_digest t).

Lemma published_seal id writer terms sealed :
  is_u64 (st_cut_unix_ms terms) → names_set (st_participants terms) = st_participants terms →
  seal_terms checkpoint_name
    (claim_of id CHECKPOINT_SEALED (checkpoint_name (st_cut_unix_ms terms)) writer
       (seal_fields number_of build terms sealed)) = Some terms.
Proof.
  intros Hcut Hnames. unfold seal_terms, cut, names, number, text, claim_of, seal_fields.
  cbn [cc_fields cc_kind cc_subject]. rewrite !field_get_named, str_eqb_refl.
  cbn [reverse rev_append List.find fst negb]. eval_str_eqb. cbn -[names_set mapM str_eqb].
  rewrite number_of_u64 by done. cbn -[names_set mapM str_eqb]. rewrite str_eqb_refl, mapM_names.
  cbn -[names_set]. rewrite Hnames. by destruct terms.
Qed.

Lemma published_verification id writer terms plan proof :
  is_u64 (st_cut_unix_ms terms) → names_set (st_participants terms) = st_participants terms →
  verified_terms checkpoint_name
    (claim_of id CHECKPOINT_VERIFIED (checkpoint_name (st_cut_unix_ms terms)) writer
       (verification_fields number_of build terms plan proof)) = Some (verified_of terms plan proof).
Proof.
  intros Hcut Hnames. unfold verified_terms, cut, names, number, text, claim_of, verification_fields.
  cbn [cc_fields cc_kind cc_subject]. rewrite !field_get_named, str_eqb_refl.
  cbn [reverse rev_append List.find fst negb]. eval_str_eqb. cbn -[names_set mapM str_eqb].
  rewrite number_of_u64 by done. cbn -[names_set mapM str_eqb]. rewrite str_eqb_refl, mapM_names.
  cbn -[names_set]. by rewrite Hnames.
Qed.

(** The terms of the seal and of the verification a node publishes are the terms every reader of
    those claims recovers. *)
Theorem published_terms_read_back id writer terms sealed plan proof :
  is_u64 (st_cut_unix_ms terms) → names_set (st_participants terms) = st_participants terms →
  let checkpoint := checkpoint_name (st_cut_unix_ms terms) in
  seal_terms checkpoint_name
    (claim_of id CHECKPOINT_SEALED checkpoint writer (seal_fields number_of build terms sealed))
  = Some terms ∧
  verified_terms checkpoint_name
    (claim_of id CHECKPOINT_VERIFIED checkpoint writer (verification_fields number_of build terms plan proof))
  = Some (verified_of terms plan proof).
Proof. intros Hcut Hnames. split; [by apply published_seal|by apply published_verification]. Qed.
End published.

(** ** The fleet

    Each node holds checkpoint claims in its own order. A pass runs on what the node holds, and a
    crash or a failed write leaves any prefix of its writes done; an append under a key the store
    already has writes nothing. A person's excusal is a claim like any other. *)

Section fleet.
Context `{NumberApi}.
Context (checkpoint_name : Z → string) (number_of : Z → Number).
Context (build : string) (terms_key : SealTerms → string).

Definition fleet : Type := string → list CheckpointClaim.

Definition with_node (f : fleet) (node : string) (held : list CheckpointClaim) : fleet :=
  λ n, if decide (n = node) then held else f n.

Definition agreement_kinds : list string := [CHECKPOINT_SEALED; CHECKPOINT_VERIFIED; CHECKPOINT_EXCUSED].

(** The claims a sequence of writes adds to the node that makes them. *)
Inductive appended (node : string) : list Effect → list CheckpointClaim → Prop :=
| appended_nil : appended node [] []
| appended_record c cut st ids d es cs :
    appended node es cs → appended node (RecordState c cut st ids d :: es) cs
| appended_held s k a fs key es cs :
    appended node es cs → appended node (AppendClaim s k a fs key :: es) cs
| appended_new id s k a fs key es cs :
    k ∈ agreement_kinds → appended node es cs →
    appended node (AppendClaim s k a fs key :: es) (mkCheckpointClaim id k s node a fs :: cs).

Inductive fleet_step (f : fleet) : fleet → Prop :=
| pass_step node r actions done_ rest new held' :
    sr_origin r = node → sr_claims r = f node → is_u64 (sr_now_unix_ms r) →
    checkpoint_step checkpoint_name number_of build terms_key r = (done_ ++ rest, actions) →
    appended node done_ new → held' ≡ₚ f node ++ new →
    fleet_step f (with_node f node held')
| excuse_fleet node c held' :
    cc_kind c = CHECKPOINT_EXCUSED → cc_writer c = node → held' ≡ₚ f node ++ [c] →
    fleet_step f (with_node f node held')
| receive_step node from c held' :
    c ∈ f from → held' ≡ₚ f node ++ [c] → fleet_step f (with_node f node held').

Definition reachable : fleet → Prop := rtc fleet_step (λ _, []).

Hypothesis number_of_u64 : ∀ z, is_u64 z → num_as_u64 (number_of z) = Some z.

(** What a pass may append: a seal, or a verification of a checkpoint this node has not verified
    and all of whose participants' newest seals carry its terms. *)
Definition may_append (r : StepReads) (e : Effect) : Prop :=
  match e with
  | RecordState _ _ _ _ _ => True
  | AppendClaim s k a fs _ =>
      (k = CHECKPOINT_SEALED ∨ k = "daemon.diagnostic") ∨
      (k = CHECKPOINT_VERIFIED ∧ a = None ∧
       ∃ terms plan proof, s = checkpoint_name (st_cut_unix_ms terms) ∧
         fs = verification_fields number_of build terms plan proof ∧
         is_u64 (st_cut_unix_ms terms) ∧ names_set (st_participants terms) = st_participants terms ∧
         first_verifications checkpoint_name (sr_claims r) s !! sr_origin r = None ∧
         ∀ w, w ∈ st_participants terms → newest_seals checkpoint_name (sr_claims r) s !! w = Some terms)
  end.

Lemma newest_due_cut_u64 now : is_u64 now → is_u64 (newest_due_cut now).
Proof.
  unfold is_u64, newest_due_cut, sat_sub, DAY_MS. intros [H0 H1].
  pose proof (Z.mul_div_le now 86400000 ltac:(lia)). pose proof (Z.div_pos now 86400000 ltac:(lia) ltac:(lia)).
  split; [lia|]. destruct (Z.max_spec 0 (now / 86400000 - 2)) as [[_ ->]|[_ ->]]; lia.
Qed.

Lemma only_last (records : list Effect) last_ pre s k a fs key post :
  (∀ e, e ∈ records → match e with RecordState _ _ _ _ _ => True | _ => False end) →
  records ++ [last_] = pre ++ AppendClaim s k a fs key :: post → post = [].
Proof.
  revert pre. induction records as [|r records IH]; intros [|e pre] Hr E; simpl in E.
  - by injection E.
  - injection E as _ E. by destruct pre.
  - injection E as -> _. exfalso. apply (Hr _ ltac:(left)).
  - injection E as _ E. eapply IH; [|exact E]. intros e' He'. apply Hr. by right.
Qed.

(** A pass appends at most one verification, as its last write. *)
Lemma checkpoint_step_appends r : is_u64 (sr_now_unix_ms r) →
  let effects := (checkpoint_step checkpoint_name number_of build terms_key r).1 in
  Forall (may_append r) effects ∧
  (∀ pre s k a fs key post, effects = pre ++ AppendClaim s k a fs key :: post → post = []).
Proof.
  intros Hnow. unfold checkpoint_step.
  assert (Hnone : Forall (may_append r) [] ∧ ∀ (pre : list Effect) s k a fs key post,
    [] = pre ++ AppendClaim s k a fs key :: post → post = []).
  { split; [constructor|]. by intros [|]. }
  destruct (sr_catching_up r); [done|]. destruct (sr_applied r) as [actions [[? ?]|]]; [done|].
  destruct (sr_halted r); [done|]. destruct (_ || _); [done|]. case_bool_decide; [done|].
  set (cut := newest_due_cut (sr_now_unix_ms r)). destruct (is_some _) eqn:Hv; [done|].
  assert (Hu : is_u64 cut) by by apply newest_due_cut_u64.
  case_bool_decide as Hs; simpl.
  - destruct (forallb _ _) eqn:Hall; [|done]. unfold verify_checkpoint.
    destruct (sr_plan r _ _) as [[sealed plan] proof]. destruct (negb (str_eqb _ _)); [done|].
    destruct (negb (pf_passed proof)); cbn [fst].
    + split; [constructor; [by left; right|constructor]|].
      intros pre s k a fs key post. apply (only_last []). by intros e ?%elem_of_nil.
    + split.
      * constructor; [done|]. constructor; [|constructor]. simpl. right. split; [done|]. split; [done|].
        exists (step_terms r cut), plan, proof. cbn [st_cut_unix_ms step_terms st_participants].
        split_and!; [done..|apply names_set_idem| |].
        { by destruct (first_verifications _ _ _ !! _). }
        intros w Hw. rewrite forallb_forall in Hall. apply list_elem_of_In in Hw.
        by apply Hall, bool_decide_eq_true in Hw.
      * intros pre s k a fs key post. apply (only_last [_]). intros e He%list_elem_of_singleton. by subst e.
  - split.
    + constructor; [done|]. constructor; [by left; left|constructor].
    + intros pre s k a fs key post. apply (only_last [_]). intros e He%list_elem_of_singleton. by subst e.
Qed.
Lemma appended_cases node es cs :
  appended node es cs →
  (∀ pre s k a fs key post, es = pre ++ AppendClaim s k a fs key :: post → post = []) →
  cs = [] ∨ ∃ id s k a fs key, AppendClaim s k a fs key ∈ es ∧ k ∈ agreement_kinds
    ∧ cs = [mkCheckpointClaim id k s node a fs].
Proof.
  induction 1 as [|c cut st ids d es cs _ IH|s k a fs key es cs _ IH|id s k a fs key es cs Hk Ha IH];
    intros Hlast; [by left|..].
  - destruct IH as [->|(id & s & k & a & fs & key & Hin & ?)]; [|by left|].
    + intros pre s k a fs key post ->. by apply (Hlast (RecordState c cut st ids d :: pre) s k a fs key).
    + right. exists id, s, k, a, fs, key. split; [by right|done].
  - specialize (Hlast [] s k a fs key es eq_refl). subst es.
    destruct IH as [->|(? & ? & ? & ? & ? & ? & Hin & _)]; [by intros [|]|by left|by apply elem_of_nil in Hin].
  - specialize (Hlast [] s k a fs key es eq_refl). subst es. right. exists id, s, k, a, fs, key.
    split; [left|]. split; [done|]. by inversion Ha.
Qed.

(** What one pass adds: nothing, one claim that verifies nothing, or this node's one verification
    of a checkpoint, each of whose participants' newest seals it holds with the same terms. *)
Lemma pass_adds r effects rest actions new :
  is_u64 (sr_now_unix_ms r) →
  checkpoint_step checkpoint_name number_of build terms_key r = (effects ++ rest, actions) →
  appended (sr_origin r) effects new →
  ∀ c, c ∈ new → new = [c] ∧ cc_writer c = sr_origin r ∧
    ∀ t, verified_terms checkpoint_name c = Some t →
      first_verifications checkpoint_name (sr_claims r) (cc_subject c) !! sr_origin r = None ∧
      ∀ w, w ∈ vt_participants t →
        newest_seals checkpoint_name (sr_claims r) (cc_subject c) !! w = Some (seal_of t).
Proof.
  intros Hnow Hstep Happ c Hc. destruct (checkpoint_step_appends r Hnow) as [Hmay Hlast].
  rewrite Hstep in Hmay, Hlast. cbn [fst] in *.
  destruct (appended_cases _ _ _ Happ) as [->|(id & s & k & a & fs & key & Hin & Hk & ->)].
  - intros pre s k a fs key post ->. specialize (Hlast pre s k a fs key (post ++ rest)).
    rewrite <- app_assoc in Hlast. specialize (Hlast eq_refl). by apply app_eq_nil in Hlast as [-> _].
  - by apply elem_of_nil in Hc.
  - apply list_elem_of_singleton in Hc as ->. split; [done|]. split; [done|]. cbn [cc_subject].
    intros t Ht. rewrite List.Forall_forall in Hmay.
    specialize (Hmay (AppendClaim s k a fs key)). destruct Hmay as [[->| ->]|(-> & -> & Hv)].
    + apply list_elem_of_In, elem_of_app. by left.
    + done.
    + done.
    + destruct Hv as (terms & plan & proof & -> & -> & Hu & Hn & Hfirst & Hseals).
      unfold claim_of in *. pose proof (published_verification checkpoint_name number_of build number_of_u64
        id (sr_origin r) terms plan proof Hu Hn) as Hpub. unfold claim_of in Hpub. rewrite Hpub in Ht.
      injection Ht as <-. split; [done|]. cbn [vt_participants verified_of]. intros w Hw.
      rewrite (Hseals w Hw). by destruct terms.
Qed.

Record fleet_ok (f : fleet) : Prop := mkFleetOk {
  own_held : ∀ n c, c ∈ f n → c ∈ f (cc_writer c);
  verifies_once : ∀ n c c', c ∈ f n → c' ∈ f n → cc_writer c = n → cc_writer c' = n →
    cc_subject c = cc_subject c' → is_Some (verified_terms checkpoint_name c) →
    is_Some (verified_terms checkpoint_name c') → c = c';
  sealed_first : ∀ n c t, c ∈ f n → cc_writer c = n → verified_terms checkpoint_name c = Some t →
    ∀ p, p ∈ vt_participants t →
      ∃ s, s ∈ f n ∧ cc_subject s = cc_subject c ∧ cc_writer s = p
           ∧ seal_terms checkpoint_name s = Some (seal_of t)
}.

Lemma with_node_held f node held' new n c : held' ≡ₚ f node ++ new →
  c ∈ with_node f node held' n ↔ c ∈ f n ∨ (n = node ∧ c ∈ new).
Proof.
  intros Hp. unfold with_node. case_decide as E; [subst; rewrite Hp, elem_of_app; naive_solver|naive_solver].
Qed.

(** A claim a node writes itself that keeps its promises. *)
Definition keeps_promises (f : fleet) (node : string) (new : list CheckpointClaim) (c : CheckpointClaim)
    : Prop :=
  cc_writer c = node ∧ new = [c] ∧
  ∀ t, verified_terms checkpoint_name c = Some t →
    first_verifications checkpoint_name (f node) (cc_subject c) !! node = None ∧
    ∀ w, w ∈ vt_participants t →
      newest_seals checkpoint_name (f node) (cc_subject c) !! w = Some (seal_of t).

Lemma promises_fresh f node new c c' :
  keeps_promises f node new c → c' ∈ f node → cc_writer c' = node → cc_subject c = cc_subject c' →
  is_Some (verified_terms checkpoint_name c) → is_Some (verified_terms checkpoint_name c') → False.
Proof.
  intros (_ & _ & Hv) Hc' Hw Hs [t Ht] [t' Ht']. destruct (Hv t Ht) as [Hf _].
  rewrite first_verification in Hf. destruct (List.find _ _) as [c0|] eqn:Hfind.
  - apply find_Some_elem in Hfind as [_ H0]. unfold verifies in H0. apply andb_prop in H0 as [_ H0].
    unfold entry_of in Hf. cbn in Hf. by destruct (verified_terms checkpoint_name c0).
  - eapply find_None_elem in Hfind; [|exact Hc']. unfold verifies in Hfind.
    by rewrite Hs, Hw, !str_eqb_refl, Ht' in Hfind.
Qed.

(** Adding to a node what others hold, or a claim of its own that keeps its promises. *)
Lemma adding_keeps_ok f node held' new :
  fleet_ok f → held' ≡ₚ f node ++ new →
  (∀ c, c ∈ new → c ∈ f (cc_writer c) ∨ keeps_promises f node new c) →
  fleet_ok (with_node f node held').
Proof.
  intros [Hown Honce Hsealed] Hheld Hnew.
  assert (Hin : ∀ n c, c ∈ with_node f node held' n ↔ c ∈ f n ∨ (n = node ∧ c ∈ new))
    by (intros; by apply with_node_held).
  assert (Hcase : ∀ n c, c ∈ with_node f node held' n → cc_writer c = n →
    c ∈ f n ∨ (n = node ∧ c ∈ new ∧ keeps_promises f node new c)).
  { intros n c [Hc|[-> Hc]]%Hin Hw; [by left|]. destruct (Hnew c Hc) as [Hc'|Hk]; [|by right].
    left. by rewrite Hw in Hc'. }
  split.
  - intros n c Hc%Hin. apply Hin. destruct Hc as [Hc|[-> Hc]]; [left; by eapply Hown|].
    destruct (Hnew c Hc) as [?|(-> & _)]; [by left|by right].
  - intros n c c' Hc Hc' Hw Hw' Hs Hv Hv'.
    destruct (Hcase n c Hc Hw) as [Hc1|(-> & Hc1 & Hk1)], (Hcase _ c' Hc' Hw') as [Hc2|(E & Hc2 & Hk2)].
    + by eapply (Honce n).
    + subst node. exfalso. by eapply (promises_fresh f n new c' c Hk2).
    + exfalso. by eapply (promises_fresh f node new c c' Hk1).
    + destruct Hk1 as (_ & -> & _). by apply list_elem_of_singleton in Hc2.
  - intros n c t Hc Hw Ht p Hp. destruct (Hcase n c Hc Hw) as [Hc1|(-> & _ & (_ & _ & Hv))].
    + destruct (Hsealed n c t Hc1 Hw Ht p Hp) as (s & Hs & ?). exists s. split; [apply Hin; by left|done].
    + destruct (Hv t Ht) as [_ Hseals]. specialize (Hseals p Hp).
      apply newest_seal_claim in Hseals as (s & Hs & ? & ? & ?). exists s.
      split; [apply Hin; by left|done].
Qed.

Lemma step_keeps_ok f f' : fleet_ok f → fleet_step f f' → fleet_ok f'.
Proof.
  intros Hok Hstep. destruct Hstep as
    [node r actions effects rest new held' Ho Hr Hnow Hs Ha Hheld|node c held' Hk Hw Hheld|node from c held' Hc Hheld].
  - eapply adding_keeps_ok; [done|exact Hheld|]. intros c Hc. right. subst node.
    destruct (pass_adds r effects rest actions new Hnow Hs Ha c Hc) as (Hn & Hw & Hv).
    split; [done|]. split; [done|]. by rewrite <- Hr.
  - eapply adding_keeps_ok; [done|exact Hheld|]. intros c' ->%list_elem_of_singleton. right.
    split; [done|]. split; [done|]. intros t. unfold verified_terms. by rewrite Hk.
  - eapply adding_keeps_ok; [done|exact Hheld|]. intros c' ->%list_elem_of_singleton. left.
    by eapply own_held.
Qed.

Lemma reachable_ok f : reachable f → fleet_ok f.
Proof.
  intros Hr. assert (fleet_ok (λ _, [])) as H0.
  { split; intros n c; [by intros ?%elem_of_nil|by intros c' ?%elem_of_nil|by intros t ?%elem_of_nil]. }
  revert H0. unfold reachable in Hr. induction Hr as [|f1 f2 f3 Hs _ IH]; [done|].
  intros Hok. apply IH. by eapply step_keeps_ok.
Qed.

(** Wherever it is read, a writer's verification of a checkpoint is the same claim. *)
Lemma one_verification f n n' checkpoint w e e' : fleet_ok f →
  first_verifications checkpoint_name (f n) checkpoint !! w = Some e →
  first_verifications checkpoint_name (f n') checkpoint !! w = Some e' → e = e'.
Proof.
  intros Hok. assert (∀ m x, first_verifications checkpoint_name (f m) checkpoint !! w = Some x →
    ∃ c, c ∈ f w ∧ cc_writer c = w ∧ cc_subject c = checkpoint ∧ entry_of checkpoint_name c = Some x) as Hclaim.
  { intros m x. rewrite first_verification. destruct (List.find _ _) as [c|] eqn:Hf; [|done]. cbn. intros Hx.
    apply find_Some_elem in Hf as [Hc Hv]. unfold verifies in Hv. rewrite !andb_true_iff, !str_eqb_true in Hv.
    destruct Hv as [[Hs Hw] _]. exists c. split_and!; [|done..]. rewrite <- Hw. by eapply own_held. }
  intros (c & Hc & Hw & Hs & Hx)%Hclaim (c' & Hc' & Hw' & Hs' & Hx')%Hclaim.
  assert (∀ y z, entry_of checkpoint_name y = Some z → is_Some (verified_terms checkpoint_name y)) as Hv.
  { intros y z. unfold entry_of. by destruct (verified_terms checkpoint_name y). }
  assert (c = c') as ->; [|congruence].
  eapply (verifies_once f Hok w); try done; [congruence|by eapply Hv..].
Qed.
Lemma verification_found f n checkpoint w c : fleet_ok f →
  c ∈ f n → verifies checkpoint_name checkpoint w c = true →
  first_verifications checkpoint_name (f n) checkpoint !! w = entry_of checkpoint_name c.
Proof.
  intros Hok Hc Hv. rewrite first_verification. destruct (List.find _ _) as [c'|] eqn:Hf.
  - cbn. apply find_Some_elem in Hf as [Hc' Hv']. unfold verifies in Hv, Hv'.
    rewrite !andb_true_iff, !str_eqb_true in Hv, Hv'. destruct Hv as [[Hs Hw] Hi], Hv' as [[Hs' Hw'] Hi'].
    assert (c' = c) as ->; [|done].
    assert (∀ o : option VerifiedTerms, is_some o = true → is_Some o) as His by by intros [].
    eapply (verifies_once f Hok w); try by apply His.
    + rewrite <- Hw'. by eapply own_held.
    + rewrite <- Hw. by eapply own_held.
    + done.
    + done.
    + congruence.
  - eapply find_None_elem in Hf; [|exact Hc]. congruence.
Qed.

(** C8. Two certificates of a checkpoint with a participant in common are the same certificate,
    whichever nodes hold them and however claims travelled. *)
Theorem certificates_agree f n n' checkpoint cert cert' w :
  reachable f → cert ∈ certificates checkpoint_name (f n) checkpoint →
  cert' ∈ certificates checkpoint_name (f n') checkpoint →
  w ∈ vt_participants (ct_terms cert) → w ∈ vt_participants (ct_terms cert') → cert = cert'.
Proof.
  intros Hr%reachable_ok (Hk & [_ Hall] & Hv)%elem_of_certificates (Hk' & [_ Hall'] & Hv')%elem_of_certificates
    Hw Hw'.
  destruct cert as [k terms vs], cert' as [k' terms' vs']. cbn in *. subst k k'.
  assert (terms' = terms) as ->.
  { specialize (Hall w Hw). specialize (Hall' w Hw').
    apply fmap_Some in Hall as (e & He & ->), Hall' as (e' & He' & ->).
    by rewrite (one_verification _ _ _ _ _ _ _ Hr He He'). }
  f_equal. apply map_eq. intros p. rewrite Hv, Hv'. case_bool_decide as Hp; [|done].
  destruct (proj1 (fmap_Some _ _ _) (Hall p Hp)) as (e & He & _).
  destruct (proj1 (fmap_Some _ _ _) (Hall' p Hp)) as (e' & He' & _).
  by rewrite He, He', (one_verification _ _ _ _ _ _ _ Hr He He').
Qed.

(** A certificate a node holds it holds for good, whatever it writes or receives next. *)
Theorem certificates_last f f' n checkpoint cert :
  reachable f → fleet_step f f' → cert ∈ certificates checkpoint_name (f n) checkpoint →
  cert ∈ certificates checkpoint_name (f' n) checkpoint.
Proof.
  intros Hr%reachable_ok Hstep (Hk & [Hne Hall] & Hv)%elem_of_certificates.
  pose proof (step_keeps_ok f f' Hr Hstep) as Hr'.
  assert (Hgrow : ∀ c, c ∈ f n → c ∈ f' n).
  { intros c Hc. destruct Hstep as [node r actions effects rest new held' Ho Hrd Hnow Hs Ha Hheld
      |node c' held' Hkd Hw Hheld|node from c' held' Hc' Hheld]; by eapply with_node_held; [|left]. }
  assert (Hsame : ∀ w e, first_verifications checkpoint_name (f n) checkpoint !! w = Some e →
    first_verifications checkpoint_name (f' n) checkpoint !! w = Some e).
  { intros w e. rewrite first_verification. destruct (List.find _ _) as [c|] eqn:Hf; [|done]. cbn. intros He.
    apply find_Some_elem in Hf as [Hc Hvc]. by rewrite (verification_found f' n checkpoint w c Hr' (Hgrow c Hc) Hvc). }
  apply elem_of_certificates. split; [done|]. split.
  - split; [done|]. intros w Hw. specialize (Hall w Hw). apply fmap_Some in Hall as (e & He & ->).
    by rewrite (Hsame w e He).
  - intros w. rewrite Hv. case_bool_decide as Hw; [|done].
    destruct (proj1 (fmap_Some _ _ _) (Hall w Hw)) as (e & He & _). by rewrite He, (Hsame w e He).
Qed.

(** Behind a certificate, every participant holds a seal by every participant with the terms it
    certifies: the cut, the participants, the sealed identities and the rules. *)
Theorem certified_after_all_sealed f n checkpoint cert w p :
  reachable f → cert ∈ certificates checkpoint_name (f n) checkpoint →
  w ∈ vt_participants (ct_terms cert) → p ∈ vt_participants (ct_terms cert) →
  ∃ seal, seal ∈ f w ∧ cc_subject seal = checkpoint ∧ cc_writer seal = p ∧
    seal_terms checkpoint_name seal = Some (seal_of (ct_terms cert)).
Proof.
  intros Hr%reachable_ok (_ & [_ Hall] & _)%elem_of_certificates Hw Hp. specialize (Hall w Hw).
  apply fmap_Some in Hall as (e & He & Ht). rewrite first_verification in He.
  destruct (List.find _ _) as [c|] eqn:Hf; [|done]. cbn in He. unfold entry_of in He.
  apply fmap_Some in He as (t & Hvt & ->). cbn in Ht. subst t.
  apply find_Some_elem in Hf as [Hc Hv]. unfold verifies in Hv. rewrite !andb_true_iff, !str_eqb_true in Hv.
  destruct Hv as [[Hs Hwc] _]. apply (own_held f Hr) in Hc. rewrite Hwc in Hc.
  destruct (sealed_first f Hr w c _ Hc Hwc Hvt p Hp) as (seal & ? & ? & ? & ?). exists seal.
  split_and!; try done. congruence.
Qed.
End fleet.

Section choice.
(** Every node applies the same certificate of a cut: the choice does not depend on the order of
    the certificates, and none has more participants. *)
Theorem chosen_certificate_is_shared certs certs' cert :
  (∀ a b, a ∈ certs → b ∈ certs → ct_terms a = ct_terms b → a = b) →
  certs ≡ₚ certs' → chosen_certificate certs = Some cert →
  chosen_certificate certs' = Some cert ∧ cert ∈ certs ∧
  ∀ c, c ∈ certs → length (vt_participants (ct_terms c)) ≤ length (vt_participants (ct_terms cert)).
Proof.
  intros Hterms Hperm Hc. unfold chosen_certificate in *.
  destruct (min_by_spec Certificate_compare _ _ Hc) as [Hin Hmin]. split_and!; [|done|].
  - destruct (min_by Certificate_compare certs') as [cert'|] eqn:Hc'.
    + destruct (min_by_spec Certificate_compare _ _ Hc') as [Hin' Hmin']. f_equal.
      rewrite <- Hperm in Hin'. symmetry. apply Hterms; [done..|].
      specialize (Hmin cert' Hin'). rewrite Hperm in Hin. specialize (Hmin' cert Hin).
      rewrite (cmp_opp Certificate_compare cert cert') in Hmin'.
      destruct (Certificate_compare cert cert') eqn:E; try done.
      unfold Certificate_compare in E. rewrite !then_with_Eq in E. destruct E as (_ & _ & E).
      by apply cmp_eq in E.
    + destruct certs'; [|done]. apply Permutation_nil_r in Hperm. by subst.
  - intros c Hc0. specialize (Hmin c Hc0). unfold Certificate_compare in Hmin.
    destruct (Nat.compare_spec (length (vt_participants (ct_terms c))) (length (vt_participants (ct_terms cert))));
      [lia|lia|]. by destruct Hmin.
Qed.
End choice.

(** ** The promise of a seal

    A writer's life: it seals cuts and writes batches, each dated by [write_time] from what it
    holds then, on a clock that may jump anywhere. *)

Inductive WriterEvent :=
| SealCut (cut : Z)
| WriteBatch (write_clock : option (Z * option Z)) (now_ms : Z).

Record Writer := mkWriter { wr_cuts : list Z; wr_batches : list Z }.

Definition batch_time (w : Writer) (clock : option (Z * option Z)) (now_ms : Z) : Z :=
  write_time (mkClockReads (wr_cuts w) (u_to_string <$> last (wr_batches w)) clock now_ms).

Definition writer_step (w : Writer) (e : WriterEvent) : Writer :=
  match e with
  | SealCut cut => mkWriter (cut :: wr_cuts w) (wr_batches w)
  | WriteBatch clock now_ms => mkWriter (wr_cuts w) (wr_batches w ++ [batch_time w clock now_ms])
  end.

Definition is_i64 (z : Z) : Prop := (i64_min ≤ z ≤ i64_max)%Z.

Definition event_ok (e : WriterEvent) : Prop :=
  match e with
  | SealCut cut => is_i64 cut
  | WriteBatch clock now_ms =>
      is_u128 now_ms ∧ match clock with
                       | Some (offset, at_ms) => is_i64 offset ∧ match at_ms with Some a => is_i64 a | None => True end
                       | None => True
                       end
  end.

Lemma fold_max_bounds l x :
  (x ≤ fold_left Z.max l x)%Z ∧ (∀ y, y ∈ l → (y ≤ fold_left Z.max l x)%Z) ∧
  (fold_left Z.max l x = x ∨ fold_left Z.max l x ∈ l).
Proof.
  revert x. induction l as [|y l IH]; intros x; cbn.
  - split_and!; [lia|by intros y ?%elem_of_nil|by left].
  - destruct (IH (Z.max x y)) as (H1 & H2 & H3). split_and!; [lia| |].
    + intros z [->|Hz]%elem_of_cons; [lia|by apply H2].
    + rewrite elem_of_cons. destruct H3 as [H3|H3]; [|tauto].
      destruct (Z.max_spec x y) as [[_ E]|[_ E]]; rewrite E in *; tauto.
Qed.

(** A write is dated at or after every cut sealed and the writer's newest batch, and fits. *)
Lemma write_time_bounds r :
  (∀ c, c ∈ ck_cuts r → (c ≤ write_time r)%Z) ∧
  (∀ own, is_u128 own → ck_newest_own r = Some (u_to_string own) → (own ≤ write_time r)%Z).
Proof.
  unfold write_time. destruct (default (0, None)%Z (ck_write_clock r)) as [offset at_ms]. split.
  - intros c Hc. destruct (ck_cuts r) as [|c0 cs]; [by apply elem_of_nil in Hc|].
    destruct (fold_max_bounds cs c0) as (H1 & H2 & _).
    apply elem_of_cons in Hc as [->|Hc]; [lia|]. specialize (H2 c Hc). lia.
  - intros own Hown ->. cbn [mbind option_bind]. rewrite parse_u128_text by done. cbn. lia.
Qed.

Lemma batch_time_fits w clock now_ms :
  Forall is_i64 (wr_cuts w) → Forall is_u128 (wr_batches w) → event_ok (WriteBatch clock now_ms) →
  is_u128 (batch_time w clock now_ms).
Proof.
  intros Hcuts Hb [[Hn0 Hn1] Hclock]. unfold batch_time, write_time. cbn [ck_cuts ck_newest_own ck_write_clock ck_now_ms].
  assert (Hfloor : (0 ≤ match wr_cuts w with [] => 0 | c :: cs => Z.max 0 (fold_left Z.max cs c) end ≤ i64_max)%Z).
  { destruct (wr_cuts w) as [|c cs]; [by unfold i64_max|]. rewrite List.Forall_forall in Hcuts.
    destruct (fold_max_bounds cs c) as (_ & _ & Hin).
    assert (is_i64 (fold_left Z.max cs c)) as [_ Hi].
    { apply Hcuts, list_elem_of_In. rewrite elem_of_cons. destruct Hin as [->|?]; tauto. }
    unfold i64_max in *. lia. }
  assert (Hown : is_u128 (default 0%Z ((u_to_string <$> last (wr_batches w)) ≫= parse_u128))).
  { destruct (last (wr_batches w)) as [own|] eqn:Hl; cbn; [|by vm_compute].
    rewrite List.Forall_forall in Hb. assert (is_u128 own) as Ho.
    { apply Hb, list_elem_of_In. by apply last_Some_elem_of. }
    by rewrite parse_u128_text. }
  unfold is_u128, is_i64, i64_min, i64_max, i128_max, u128_max in *.
  destruct clock as [[offset [at_ms|]]|]; cbn; lia.
Qed.

Definition writer_ok (w : Writer) : Prop :=
  Forall is_i64 (wr_cuts w) ∧ Forall is_u128 (wr_batches w) ∧ StronglySorted Z.le (wr_batches w).

Lemma sorted_snoc l x :
  StronglySorted Z.le l → (∀ y, last l = Some y → (y ≤ x)%Z) → StronglySorted Z.le (l ++ [x]).
Proof.
  induction 1 as [|y l Hl IH Hy]; intros Hlast; cbn; [by repeat constructor|]. constructor.
  - apply IH. intros z Hz. apply Hlast. by destruct l.
  - apply Forall_app. split; [done|]. constructor; [|constructor].
    destruct (last l) as [z|] eqn:Hz.
    + assert (z ≤ x)%Z by (apply Hlast; by destruct l).
      rewrite List.Forall_forall in Hy. specialize (Hy z).
      apply last_Some_elem_of, list_elem_of_In in Hz. specialize (Hy Hz). lia.
    + destruct l; [|by apply last_None in Hz]. by apply Hlast.
Qed.

Lemma writer_step_ok w e : writer_ok w → event_ok e → writer_ok (writer_step w e).
Proof.
  intros (Hc & Hb & Hs) He. destruct e as [cut|clock now_ms]; cbn.
  - split_and!; [by constructor|done..].
  - split_and!; [done| |].
    + apply Forall_app. split; [done|]. constructor; [by apply batch_time_fits|constructor].
    + apply sorted_snoc; [done|]. intros y Hy.
      eapply (proj2 (write_time_bounds _)); [|cbn; by rewrite Hy].
      rewrite List.Forall_forall in Hb. apply Hb, list_elem_of_In. by apply last_Some_elem_of.
Qed.

Lemma writer_run_ok w es : writer_ok w → Forall event_ok es → writer_ok (fold_left writer_step es w).
Proof.
  revert w. induction es as [|e es IH]; intros w Hw Hes; cbn; [done|].
  inversion Hes; subst. apply IH; [|done]. by apply writer_step_ok.
Qed.

Lemma writer_run_after w es cut :
  cut ∈ wr_cuts w → writer_ok w → Forall event_ok es →
  ∃ later, wr_batches (fold_left writer_step es w) = wr_batches w ++ later ∧ Forall (Z.le cut) later.
Proof.
  revert w. induction es as [|e es IH]; intros w Hcut Hw Hes; cbn.
  - exists []. rewrite app_nil_r. by split; [|constructor].
  - inversion Hes as [|? ? He Hes']; subst.
    destruct (IH (writer_step w e)) as (later & Hb & Hl); [|by apply writer_step_ok|done|].
    { destruct e; cbn; [by right|done]. }
    rewrite Hb. destruct e as [c|clock now_ms]; cbn.
    + by exists later.
    + exists (batch_time w clock now_ms :: later). rewrite <- app_assoc. split; [done|].
      constructor; [|done]. unfold batch_time. by apply (proj1 (write_time_bounds _)).
Qed.

(** The promise a seal makes, whatever the clock does: what a writer dates never goes back, and
    nothing it writes after sealing a cut is dated before the cut. *)
Theorem writes_after_a_seal_stay_after_its_cut before cut after :
  Forall event_ok before → is_i64 cut → Forall event_ok after →
  let w := fold_left writer_step (before ++ SealCut cut :: after) (mkWriter [] []) in
  StronglySorted Z.le (wr_batches w) ∧
  ∃ later, wr_batches w = wr_batches (fold_left writer_step before (mkWriter [] [])) ++ later
           ∧ Forall (Z.le cut) later.
Proof.
  intros Hb Hcut Ha. cbv zeta. rewrite fold_left_app. cbn [fold_left].
  set (w0 := fold_left writer_step before _).
  assert (writer_ok w0) as Hw0.
  { apply writer_run_ok; [|done]. split_and!; constructor. }
  assert (writer_ok (writer_step w0 (SealCut cut))) as Hw1 by by apply writer_step_ok.
  split; [by apply writer_run_ok|].
  by apply (writer_run_after (writer_step w0 (SealCut cut))); [left|..].
Qed.

(** ** Witnesses

    A fleet of one node seals a checkpoint and then verifies it. *)

Section witnesses.
#[local] Existing Instance integer_numbers.

Definition example_name (cut : Z) : string := "checkpoint/" +:+ u_to_string cut.
Definition example_number (z : Z) : @Number integer_numbers := z.
Definition example_key (t : SealTerms) : string := "terms".

Lemma example_number_u64 z : is_u64 z → num_as_u64 (example_number z) = Some z.
Proof. intros Hz. cbn. unfold example_number. by rewrite decide_True. Qed.

Definition example_identities : SealedIdentities := mkSealedIdentities "digest" 0 0.
Definition example_set : SealedSet := mkSealedSet DAY_MS [] [] 0 [] [].
Definition example_plan : DropPlan := mkDropPlan DAY_MS "rules" 0 0 "digest" [] [] [] "drop" "retained".
Definition example_proof : CheckpointProof := mkCheckpointProof "graph" "reader" true [].

Definition example_reads (claims : list CheckpointClaim) : StepReads :=
  mkStepReads (3 * DAY_MS) "amy" false claims ([], None) false {["amy"]} [] no_membership
    (λ _, example_identities) "rules" (λ _ _, (example_set, example_plan, example_proof))
    (λ _, example_identities).

Definition example_terms : SealTerms := mkSealTerms DAY_MS ["amy"] "digest" "rules".

Definition example_seal : CheckpointClaim :=
  claim_of "s1" CHECKPOINT_SEALED (example_name DAY_MS) "amy"
    (seal_fields example_number "b" example_terms example_identities).

Definition example_verification : CheckpointClaim :=
  claim_of "v1" CHECKPOINT_VERIFIED (example_name DAY_MS) "amy"
    (verification_fields example_number "b" example_terms example_plan example_proof).

Lemma example_seal_pass :
  (checkpoint_step example_name example_number "b" example_key (example_reads [])).1
  = publish_seal example_number "b" example_key "amy" (example_name DAY_MS) example_terms example_identities None.
Proof. reflexivity. Qed.

Lemma example_seal_terms : seal_terms example_name example_seal = Some example_terms.
Proof.
  apply (published_seal example_name example_number "b" example_number_u64 "s1" "amy" example_terms).
  - vm_compute. split; congruence.
  - reflexivity.
Qed.

Lemma example_verified_terms :
  verified_terms example_name example_verification = Some (verified_of example_terms example_plan example_proof).
Proof.
  apply (published_verification example_name example_number "b" example_number_u64 "v1" "amy" example_terms).
  - vm_compute. split; congruence.
  - reflexivity.
Qed.

Lemma example_verify_pass :
  (checkpoint_step example_name example_number "b" example_key (example_reads [example_seal])).1
  = [RecordState (example_name DAY_MS) DAY_MS "verified" example_identities (Some "drop");
     publish_verification example_number "b" "amy" (example_name DAY_MS) example_terms example_plan example_proof].
Proof. reflexivity. Qed.

Definition example_fleet (held : list CheckpointClaim) : fleet :=
  with_node (λ _, []) "amy" held.

Lemma example_pass held effects c key :
  (checkpoint_step example_name example_number "b" example_key (example_reads held)).1
    = [effects; AppendClaim (cc_subject c) (cc_kind c) (cc_actor c) (cc_fields c) key] →
  match effects with RecordState _ _ _ _ _ => True | _ => False end →
  cc_kind c ∈ agreement_kinds → cc_writer c = "amy" →
  ∀ f, f "amy" = held →
  fleet_step example_name example_number "b" example_key f (with_node f "amy" (held ++ [c])).
Proof.
  intros Hs He Hk Hw f Hf.
  destruct (checkpoint_step _ _ _ _ (example_reads held)) as [es actions] eqn:E. cbn in Hs. subst es.
  eapply (pass_step _ _ _ _ f "amy" (example_reads held) actions _ [] [c]); [done|by rewrite Hf| | | |by rewrite Hf].
  - vm_compute. split; congruence.
  - rewrite app_nil_r. exact E.
  - destruct effects; [|done]. constructor. destruct c. cbn in *. subst. constructor; [done|constructor].
Qed.

Definition sealed_fleet : fleet := with_node (λ _, []) "amy" [example_seal].
Definition certified_fleet : fleet := with_node sealed_fleet "amy" [example_seal; example_verification].

Lemma sealed_fleet_step :
  fleet_step example_name example_number "b" example_key (λ _, []) sealed_fleet.
Proof.
  apply (example_pass [] _ example_seal _ example_seal_pass); [done|left|done|done].
Qed.

Lemma certified_fleet_step :
  fleet_step example_name example_number "b" example_key sealed_fleet certified_fleet.
Proof.
  apply (example_pass [example_seal] _ example_verification _ example_verify_pass); [done|right; left|done|done].
Qed.

Lemma certified_fleet_reachable : reachable example_name example_number "b" example_key certified_fleet.
Proof. eapply rtc_l; [apply sealed_fleet_step|]. eapply rtc_l; [apply certified_fleet_step|]. constructor. Qed.

Definition example_certificate : Certificate :=
  mkCertificate (example_name DAY_MS) (verified_of example_terms example_plan example_proof) {["amy" := "v1"]}.

Lemma example_certified :
  example_certificate ∈ certificates example_name (certified_fleet "amy") (example_name DAY_MS).
Proof.
  assert (Hf : first_verifications example_name (certified_fleet "amy") (example_name DAY_MS) !! "amy"
               = Some ("v1", verified_of example_terms example_plan example_proof)) by reflexivity.
  apply elem_of_certificates. split; [done|]. split.
  - split; [done|]. intros w ->%list_elem_of_singleton. by rewrite Hf.
  - intros w. cbn [ct_verifications ct_terms example_certificate verified_of vt_participants example_terms st_participants].
    case_bool_decide as Hw.
    + apply list_elem_of_singleton in Hw as ->. by rewrite Hf.
    + rewrite list_elem_of_singleton in Hw. by rewrite lookup_singleton_ne.
Qed.

Lemma published_terms_witness :
  seal_terms example_name example_seal = Some example_terms.
Proof.
  apply (published_terms_read_back example_name example_number "b" example_number_u64 "s1" "amy"
           example_terms example_identities example_plan example_proof).
  - vm_compute. split; congruence.
  - reflexivity.
Defined.

Lemma certificates_agree_witness : example_certificate = example_certificate.
Proof.
  apply (certificates_agree example_name example_number "b" example_key example_number_u64
           certified_fleet "amy" "amy" (example_name DAY_MS) example_certificate example_certificate "amy");
    [apply certified_fleet_reachable|apply example_certified..|left|left].
Defined.

Lemma certificates_last_witness :
  example_certificate ∈ certificates example_name
    (with_node certified_fleet "amy" [example_seal; example_verification; example_seal] "amy") (example_name DAY_MS).
Proof.
  apply (certificates_last example_name example_number "b" example_key example_number_u64
           certified_fleet _ "amy" (example_name DAY_MS) example_certificate).
  - apply certified_fleet_reachable.
  - by apply (receive_step _ _ _ _ certified_fleet "amy" "amy" example_seal); [left|].
  - apply example_certified.
Defined.

Lemma certified_after_all_sealed_witness :
  ∃ seal, seal ∈ certified_fleet "amy" ∧ cc_subject seal = example_name DAY_MS ∧ cc_writer seal = "amy" ∧
    seal_terms example_name seal = Some (seal_of (ct_terms example_certificate)).
Proof.
  apply (certified_after_all_sealed example_name example_number "b" example_key example_number_u64
           certified_fleet "amy" (example_name DAY_MS) example_certificate "amy" "amy");
    [apply certified_fleet_reachable|apply example_certified|left|left].
Defined.

Lemma chosen_certificate_witness : chosen_certificate [example_certificate] = Some example_certificate.
Proof.
  apply (chosen_certificate_is_shared [example_certificate] [example_certificate] example_certificate).
  - intros a b Ha Hb _. apply list_elem_of_singleton in Ha as ->. by apply list_elem_of_singleton in Hb as ->.
  - done.
  - reflexivity.
Defined.

(** The clock steps back a day after the seal, and the batch is dated at the cut. *)
Lemma writes_after_a_seal_witness :
  wr_batches (fold_left writer_step [WriteBatch None 5; SealCut 100; WriteBatch None 3] (mkWriter [] []))
  = [5; 100]%Z ∧
  StronglySorted Z.le (wr_batches (fold_left writer_step
    [WriteBatch None 5; SealCut 100; WriteBatch None 3] (mkWriter [] []))).
Proof.
  split; [reflexivity|].
  apply (writes_after_a_seal_stay_after_its_cut [WriteBatch None 5] 100 [WriteBatch None 3]).
  - repeat constructor; vm_compute; congruence.
  - split; vm_compute; congruence.
  - repeat constructor; vm_compute; congruence.
Defined.
End witnesses.
