(* ===== verification/CheckpointSeal.v ===== *)
(** * What a checkpoint seals

    Models the reads of [crates/smallclaims/src/store/checkpoint.rs] that a seal and a plan start
    from: [checkpoint_sealed_set_through], the envelopes and claims before a cut, and
    [checkpoint_sealed_identities], the shorter query for the digest of the same set. Rows are
    inputs: the tables' columns these statements read, and the claims as the canonical order lists
    them. *)

From Stdlib Require Import Ascii.
From S2P Require Import Prelude StableSort Text Json Bytes Order BTree Framing Claim Hash Checkpoint CheckpointPlan CheckpointReaders Membership FleetView CheckpointAgreement.

Section seal.
Context `{NumberApi}.

Record HeldEnvelope := mkHeldEnvelope { he_rowid : Z; he_key : EnvelopeKey; he_accepted_at : string }.
Record HeldRecord := mkHeldRecord { hr_key : EnvelopeKey; hr_claim_id : option string; hr_state : string }.

(** A claim's row: the claim but for its time, and the time's text. *)
Record HeldClaim := mkHeldClaim { hc_claim : ClaimRecord; hc_accepted_at : string }.

Record SealReads := mkSealReads {
  sq_envelopes : list HeldEnvelope;
  sq_records : list HeldRecord;
  sq_claims : list HeldClaim;
  sq_protected : list (option string);
  sq_tombstones : TombstoneTables
}.

(** [claim_from_row]: a time that does not parse is zero. *)
Definition claim_from_row (row : HeldClaim) : ClaimRecord :=
  let c := hc_claim row in
  mkClaimRecord (cr_id c) (cr_store_index c) (cr_batch_id c) (cr_subject c) (cr_kind c) (cr_origin c)
    (cr_actor c) (fst <$> operation_parts (cr_body c)) (snd <$> operation_parts (cr_body c)) (cr_body c)
    (cr_predecessors c) (default 0%Z (parse_u128 (hc_accepted_at row))).

(** [COALESCE(MAX(rowid), 0)], and no further than asked. *)
Definition seal_rowid (r : SealReads) (through_rowid : option Z) : Z :=
  let newest := match map he_rowid (sq_envelopes r) with [] => 0 | x :: l => fold_left Z.max l x end%Z in
  match through_rowid with Some through => Z.min through newest | None => newest end.

(** The join of claims in canonical order with their records, repaired originals left out. *)
Definition admitted_records (r : SealReads) : list (ClaimRecord * EnvelopeKey * bool) :=
  flat_map (λ row,
    map (λ rec, (claim_from_row row, hr_key rec, str_eqb (hr_state rec) "valid"))
      (List.filter (λ rec, ostr_eqb (hr_claim_id rec) (Some (cr_id (hc_claim row)))
                           && negb (str_eqb (hr_state rec) "repaired")) (sq_records r)))
    (sq_claims r).

(** Each held envelope up to the row, with how many records it has; one dated before the cut, none
    of whose admitted claims is dated at or after it. *)
Definition sealed_envelopes (r : SealReads) (cut rowid : Z) : list SealedEnvelope :=
  let late := map (λ e, e.1.2)
                (List.filter (λ e, (cut <=? cr_accepted_at_unix_ms e.1.1)%Z) (admitted_records r)) in
  List.filter (λ e, negb (bool_decide (se_key e ∈ late)))
    (List.filter (λ e, (se_accepted_at_unix_ms e <? cut)%Z)
       (map (λ e, mkSealedEnvelope (he_key e) (default u128_max (parse_u128 (he_accepted_at e)))
                    (length (List.filter (λ rec, bool_decide (hr_key rec = he_key e)) (sq_records r))))
          (List.filter (λ e, (he_rowid e <=? rowid)%Z) (sq_envelopes r)))).

Definition tombstones_before {A} (time : A → Z) (cut : Z) (rows : list (A * string)) : list A :=
  map fst (List.filter (λ row, (time row.1 <? cut)%Z) rows).

Definition checkpoint_sealed_set_through (r : SealReads) (cut : Z) (through_rowid : option Z) : SealedSet :=
  let rowid := seal_rowid r through_rowid in
  let envelopes := sealed_envelopes r cut rowid in
  let before := map se_key envelopes in
  let protected := omap id (sq_protected r) in
  let envelope_tombstones := tombstones_before et_accepted_at_unix_ms cut (checkpoint_envelopes (sq_tombstones r)) in
  mkSealedSet cut
    (sort_by (cmp_leb (λ a b, EnvelopeKey_compare (se_key a) (se_key b)))
       (envelopes ++ map (λ t, mkSealedEnvelope (et_key t) (et_accepted_at_unix_ms t) 0)
                       (List.filter (λ t, negb (bool_decide (et_key t ∈ before))) envelope_tombstones)))
    (map (λ e, mkSealedClaim e.1.1 e.1.2 e.2 (bool_decide (cr_id e.1.1 ∈ protected)))
       (List.filter (λ e, bool_decide (e.1.2 ∈ before)) (admitted_records r)))
    rowid envelope_tombstones
    (tombstones_before tb_accepted_at_unix_ms cut (checkpoint_claims (sq_tombstones r))).

(** [CAST(text AS INTEGER)]: the digits the text starts with, after spaces and a sign, held to the
    range of an integer. *)
Fixpoint leading_digits (acc : Z) (s : string) : Z :=
  match s with
  | EmptyString => acc
  | String c s' => match digit_of c with Some d => leading_digits (acc * 10 + d) s' | None => acc end
  end.

Fixpoint skip_spaces (s : string) : string :=
  match s with
  | String c s' => if bool_decide (nat_of_ascii c ∈ [9; 10; 11; 12; 13; 32]) then skip_spaces s' else s
  | EmptyString => s
  end.

Definition cast_integer (s : string) : Z :=
  match skip_spaces s with
  | String "-"%char s' => Z.max i64_min (- leading_digits 0 s')
  | String "+"%char s' => Z.min i64_max (leading_digits 0 s')
  | s' => Z.min i64_max (leading_digits 0 s')
  end.

Definition sealed_identities (r : SealReads) (cut rowid : Z) : list EnvelopeKey :=
  let late key :=
    existsb (λ rec, bool_decide (hr_key rec = key) && negb (str_eqb (hr_state rec) "repaired")
                    && existsb (λ row, ostr_eqb (hr_claim_id rec) (Some (cr_id (hc_claim row)))
                                       && (cut <=? cast_integer (hc_accepted_at row))%Z) (sq_claims r))
      (sq_records r) in
  map he_key (List.filter (λ e, (he_rowid e <=? rowid)%Z && (cast_integer (he_accepted_at e) <? cut)%Z
                                && negb (late (he_key e))) (sq_envelopes r))
  ++ map et_key (tombstones_before et_accepted_at_unix_ms cut (checkpoint_envelopes (sq_tombstones r))).

Definition checkpoint_sealed_identities (sha256 : list ascii → list ascii) (hex : list ascii → string)
    (r : SealReads) (cut : Z) (through_rowid : option Z) : SealedIdentities :=
  let rowid := seal_rowid r through_rowid in
  let identities := sealed_identities r cut rowid in
  mkSealedIdentities (hex (sha256 (sealed_preimage identities)))
    (length (bt_set EnvelopeKey_compare identities)) rowid.

(** ** The two reads agree *)

(** Times as the store writes them. *)
Definition written_time (s : string) : Prop := ∃ z, (0 ≤ z ≤ i64_max)%Z ∧ s = u_to_string z.

Definition reads_ok (r : SealReads) : Prop :=
  NoDup (map he_key (sq_envelopes r)) ∧ NoDup (map (λ row, et_key row.1) (checkpoint_envelopes (sq_tombstones r))) ∧
  (∀ e, e ∈ sq_envelopes r → written_time (he_accepted_at e)) ∧
  (∀ row, row ∈ sq_claims r → written_time (hc_accepted_at row)).

Lemma leading_digits_parse acc s z : parse_digits acc s = Some z → leading_digits acc s = z.
Proof.
  revert acc. induction s as [|c s IH]; intros acc; cbn; [by intros [= ->]|].
  destruct (digit_of c); cbn; [apply IH|done].
Qed.

Lemma cast_written z : (0 ≤ z ≤ i64_max)%Z → cast_integer (u_to_string z) = z ∧ parse_u128 (u_to_string z) = Some z.
Proof.
  intros Hz. assert (is_u128 z) as Hu by (unfold is_u128, u128_max, i64_max in *; lia).
  split; [|by apply parse_u128_text].
  destruct (decide (z = 0)%Z) as [->|Hne]; [done|]. unfold u_to_string.
  assert (pretty (Z.to_N z) = pretty_N_go (Z.to_N z) "") as ->.
  { unfold pretty, pretty_N. rewrite decide_False; [done|]. lia. }
  pose proof (parse_digits_pretty (Z.to_N z) "") as Hp. rewrite Z2N.id in Hp by lia.
  destruct (pretty_head (N.pred (Z.to_N z)) "") as (c & s & E & Hc). rewrite N.succ_pred in E by lia.
  rewrite E in *. assert (is_Some (digit_of c)) as [d Hd].
  { cbn in Hp. destruct (digit_of c); [by eexists|done]. }
  assert (skip_spaces (String c s) = String c s) as Hskip.
  { cbn. unfold digit_of in Hd. case_bool_decide as Hin; [|done]. exfalso.
    rewrite !elem_of_cons, elem_of_nil in Hin. destruct Hin as [E0|[E0|[E0|[E0|[E0|[E0|[]]]]]]]; by rewrite E0 in Hd. }
  unfold cast_integer. rewrite Hskip. apply leading_digits_parse in Hp. cbn in Hp.
  assert (match String c s with
          | String "-"%char s' => Z.max i64_min (- leading_digits 0 s')
          | String "+"%char s' => Z.min i64_max (leading_digits 0 s')
          | s' => Z.min i64_max (leading_digits 0 s')
          end = Z.min i64_max (leading_digits 0 (String c s))) as ->.
  { destruct c as [[] [] [] [] [] [] [] []]; done. }
  change (leading_digits 0 (String c s)) with
    (match digit_of c with Some d => leading_digits (0 * 10 + d) s | None => 0%Z end).
  rewrite Hd in *. cbn in Hp |- *. lia.
Qed.
Lemma elem_of_admitted r e : e ∈ admitted_records r ↔
  ∃ row rec, row ∈ sq_claims r ∧ rec ∈ sq_records r ∧ hr_claim_id rec = Some (cr_id (hc_claim row)) ∧
    hr_state rec ≠ "repaired" ∧ e = (claim_from_row row, hr_key rec, str_eqb (hr_state rec) "valid").
Proof.
  unfold admitted_records. rewrite list_elem_of_In, in_flat_map. split.
  - intros (row & Hrow & Hin). apply list_elem_of_In, list_elem_of_fmap in Hin as (rec & -> & Hrec).
    apply lfilter_elem in Hrec as [Hrec Hq]. apply andb_prop in Hq as [Hid%ostr_eqb_true Hst%negb_true_iff].
    exists row, rec. split_and!; [by apply list_elem_of_In|done..|by apply str_eqb_false|done].
  - intros (row & rec & Hrow & Hrec & Hid & Hst & ->). exists row. split; [by apply list_elem_of_In|].
    apply list_elem_of_In, list_elem_of_fmap. exists rec. split; [done|]. apply lfilter_elem. split; [done|].
    by rewrite Hid, (proj2 (ostr_eqb_true _ _) eq_refl), (proj2 (str_eqb_false _ _) Hst).
Qed.

Lemma elem_of_sealed_envelopes r cut rowid x : x ∈ sealed_envelopes r cut rowid ↔
  ∃ e, e ∈ sq_envelopes r ∧ (he_rowid e ≤ rowid)%Z ∧
    x = mkSealedEnvelope (he_key e) (default u128_max (parse_u128 (he_accepted_at e)))
          (length (List.filter (λ rec, bool_decide (hr_key rec = he_key e)) (sq_records r))) ∧
    (se_accepted_at_unix_ms x < cut)%Z ∧
    ∀ a, a ∈ admitted_records r → a.1.2 = se_key x → (cr_accepted_at_unix_ms a.1.1 < cut)%Z.
Proof.
  unfold sealed_envelopes. rewrite !lfilter_elem, negb_true_iff, bool_decide_eq_false, Z.ltb_lt, list_elem_of_fmap.
  split.
  - intros [[(e & -> & [He Hr]%lfilter_elem) Hlt] Hlate]. exists e. apply Z.leb_le in Hr.
    split_and!; try done. intros a Ha Hk. apply Z.lt_nge. intros Hge. apply Hlate.
    apply list_elem_of_fmap. exists a. split; [done|]. apply lfilter_elem. split; [done|]. by apply Z.leb_le.
  - intros (e & He & Hr & -> & Hlt & Hlate). split; [split; [|done]|].
    + exists e. split; [done|]. apply lfilter_elem. split; [done|]. by apply Z.leb_le.
    + intros (a & Hk & [Ha Hge]%lfilter_elem)%list_elem_of_fmap. apply Z.leb_le in Hge.
      specialize (Hlate a Ha (eq_sym Hk)). lia.
Qed.

(** The short query finds the keys of the long one. *)
Lemma identities_match r cut rowid k : reads_ok r →
  k ∈ map he_key (List.filter (λ e, (he_rowid e <=? rowid)%Z && (cast_integer (he_accepted_at e) <? cut)%Z
      && negb (existsb (λ rec, bool_decide (hr_key rec = he_key e) && negb (str_eqb (hr_state rec) "repaired")
                    && existsb (λ row, ostr_eqb (hr_claim_id rec) (Some (cr_id (hc_claim row)))
                                       && (cut <=? cast_integer (hc_accepted_at row))%Z) (sq_claims r))
                 (sq_records r))) (sq_envelopes r))
  ↔ k ∈ map se_key (sealed_envelopes r cut rowid).
Proof.
  intros (_ & _ & Htimes & Hctimes). rewrite !list_elem_of_fmap.
  assert (Henv : ∀ e, e ∈ sq_envelopes r →
    cast_integer (he_accepted_at e) = default u128_max (parse_u128 (he_accepted_at e))).
  { intros e He. destruct (Htimes e He) as (z & Hz & ->). destruct (cast_written z Hz) as [-> ->]. done. }
  assert (Hclaim : ∀ row, row ∈ sq_claims r →
    cast_integer (hc_accepted_at row) = cr_accepted_at_unix_ms (claim_from_row row)).
  { intros row Hrow. destruct (Hctimes row Hrow) as (z & Hz & Hw). cbn. rewrite Hw.
    destruct (cast_written z Hz) as [-> ->]. done. }
  assert (Hlate : ∀ key, existsb (λ rec, bool_decide (hr_key rec = key) && negb (str_eqb (hr_state rec) "repaired")
      && existsb (λ row, ostr_eqb (hr_claim_id rec) (Some (cr_id (hc_claim row)))
                         && (cut <=? cast_integer (hc_accepted_at row))%Z) (sq_claims r)) (sq_records r) = false ↔
    ∀ a, a ∈ admitted_records r → a.1.2 = key → (cr_accepted_at_unix_ms a.1.1 < cut)%Z).
  { intros key. rewrite existsb_false_elem. split.
    - intros Hf a (row & rec & Hrow & Hrec & Hid & Hst & ->)%elem_of_admitted Hk. cbn [fst snd] in *. apply Z.lt_nge. intros Hge.
      specialize (Hf rec Hrec). rewrite bool_decide_true, (proj2 (str_eqb_false _ _) Hst) in Hf by done. cbn in Hf.
      rewrite existsb_false_elem in Hf. specialize (Hf row Hrow).
      rewrite Hid, (proj2 (ostr_eqb_true _ _) eq_refl), Hclaim in Hf by done. cbn [andb] in Hf.
      apply Z.leb_gt in Hf. lia.
    - intros Ha rec Hrec. apply not_true_is_false. rewrite !andb_true_iff, bool_decide_eq_true, negb_true_iff, str_eqb_false.
      intros [[Hk Hst] (row & Hrow & [Hid%ostr_eqb_true Hge%Z.leb_le]%andb_prop)%existsb_true_elem].
      rewrite Hclaim in Hge by done. specialize (Ha (claim_from_row row, hr_key rec, str_eqb (hr_state rec) "valid")).
      cbn [fst snd] in Ha. assert (cr_accepted_at_unix_ms (claim_from_row row) < cut)%Z; [|lia].
      apply Ha; [|done]. apply elem_of_admitted. by exists row, rec. }
  split.
  - intros (e & -> & [He Hq]%lfilter_elem). rewrite !andb_true_iff, negb_true_iff, Z.leb_le, Z.ltb_lt in Hq.
    destruct Hq as [[Hr Hlt] Hl]. rewrite Henv in Hlt by done.
    exists (mkSealedEnvelope (he_key e) (default u128_max (parse_u128 (he_accepted_at e)))
      (length (List.filter (λ rec, bool_decide (hr_key rec = he_key e)) (sq_records r)))).
    split; [done|]. apply elem_of_sealed_envelopes. exists e. split_and!; try done. by apply Hlate.
  - intros (x & -> & (e & He & Hr & -> & Hlt & Hl)%elem_of_sealed_envelopes). exists e. split; [done|].
    apply lfilter_elem. split; [done|]. rewrite !andb_true_iff, negb_true_iff, Z.leb_le, Z.ltb_lt.
    rewrite Henv by done. split_and!; try done. by apply Hlate.
Qed.

Lemma sealed_set_keys r cut through k : reads_ok r →
  k ∈ map se_key (ss_envelopes (checkpoint_sealed_set_through r cut through)) ↔
  k ∈ sealed_identities r cut (seal_rowid r through).
Proof.
  intros Hok. unfold checkpoint_sealed_set_through, sealed_identities. cbv zeta. cbn [ss_envelopes].
  rewrite elem_of_app, (identities_match r cut (seal_rowid r through) k Hok), !list_elem_of_fmap.
  setoid_rewrite elem_of_sort_by. setoid_rewrite elem_of_app. split.
  - intros (x & -> & [Hx|(t & -> & [Ht _]%lfilter_elem)%list_elem_of_fmap]); [left; eauto|right; eauto].
  - intros [(x & -> & Hx)|(t & -> & Ht)]; [eauto|].
    destruct (decide (et_key t ∈ map se_key (sealed_envelopes r cut (seal_rowid r through)))) as [Hin|Hin].
    + apply list_elem_of_fmap in Hin as (x & E & Hx). exists x. split; [done|by left].
    + eexists. split; [|right; apply list_elem_of_fmap; exists t; split; [reflexivity|]]; [done|].
      apply lfilter_elem. split; [done|]. by rewrite bool_decide_false.
Qed.

Lemma sealed_set_NoDup r cut through : reads_ok r →
  NoDup (map se_key (ss_envelopes (checkpoint_sealed_set_through r cut through))).
Proof.
  intros (Hk & Ht & _). unfold checkpoint_sealed_set_through. cbv zeta. cbn [ss_envelopes].
  rewrite (Permutation_map se_key (sort_by_perm _ _)), map_app. apply NoDup_app. split_and!.
  - unfold sealed_envelopes. do 2 apply NoDup_map_filter. rewrite map_map. cbn. by apply NoDup_map_filter.
  - intros k Hin Hin'. rewrite map_map in Hin'. cbn in Hin'.
    apply list_elem_of_fmap in Hin' as (t & -> & [_ Hn%negb_true_iff%bool_decide_eq_false]%lfilter_elem). done.
  - rewrite map_map. cbn. apply (NoDup_map_filter et_key). unfold tombstones_before. rewrite map_map.
    apply (NoDup_map_filter (λ row : EnvelopeTombstone * string, et_key row.1)). done.
Qed.

Lemma length_bt_set l l' : NoDup l' → (∀ k, k ∈ l' ↔ k ∈ l) → length (bt_set EnvelopeKey_compare l) = length l'.
Proof.
  intros Hnd Hext. apply Permutation_length, NoDup_Permutation; [apply bt_set_NoDup; apply _|done|].
  intros k. by rewrite (elem_of_bt_set EnvelopeKey_compare), Hext.
Qed.

(** The digest, count and row a seal takes from the short query are those of the whole set a plan
    reads: sealing without the claims promises what verifying with them will find. *)
Theorem identities_are_the_sealed_set sha256 hex r cut through : reads_ok r →
  checkpoint_sealed_identities sha256 hex r cut through
  = SealedIdentities_of sha256 hex (checkpoint_sealed_set_through r cut through).
Proof.
  intros Hok. unfold checkpoint_sealed_identities, SealedIdentities_of, sealed_digest. cbv zeta.
  change (ss_seal_rowid (checkpoint_sealed_set_through r cut through)) with (seal_rowid r through). f_equal.
  - do 2 f_equal. unfold sealed_preimage. do 4 f_equal. apply (bt_set_ext EnvelopeKey_compare). intros k.
    by rewrite sealed_set_keys.
  - rewrite (length_bt_set _ (map se_key (ss_envelopes (checkpoint_sealed_set_through r cut through)))).
    + apply length_map.
    + by apply sealed_set_NoDup.
    + intros k. by apply sealed_set_keys.
Qed.
(** ** Reading a set that can be planned

    Once every earlier trim has finished, nothing held has a tombstone; and tombstones come from
    checked manifests, so a claim's goes with its envelope's. *)
Definition trims_finished (r : SealReads) : Prop :=
  let envelopes := checkpoint_envelopes (sq_tombstones r) in
  let claims := checkpoint_claims (sq_tombstones r) in
  (∀ e, e ∈ sq_envelopes r → he_key e ∉ map (λ row, et_key row.1) envelopes) ∧
  (∀ row, row ∈ sq_claims r → cr_id (hc_claim row) ∉ map (λ row, tb_id row.1) claims) ∧
  NoDup (map (λ row, tb_id row.1) claims) ∧
  ∀ row, row ∈ claims → ∃ e, e ∈ envelopes ∧ et_key e.1 = tb_key row.1 ∧
    (et_accepted_at_unix_ms e.1 ≤ tb_accepted_at_unix_ms row.1)%Z.

Lemma tombstones_before_elem {A} (time : A → Z) cut rows t :
  t ∈ tombstones_before time cut rows ↔ (time t < cut)%Z ∧ ∃ c, (t, c) ∈ rows.
Proof.
  unfold tombstones_before. rewrite list_elem_of_fmap. split.
  - intros ([x c] & -> & [Hin Hlt%Z.ltb_lt]%lfilter_elem). eauto.
  - intros [Hlt [c Hin]]. exists (t, c). split; [done|]. apply lfilter_elem. split; [done|]. by apply Z.ltb_lt.
Qed.

Lemma sealed_set_ok r cut through : reads_ok r → trims_finished r →
  sealed_ok (checkpoint_sealed_set_through r cut through).
Proof.
  intros Hok (Hhe & Hhc & Hids & Hwhole). pose proof Hok as (_ & Htk & _).
  unfold sealed_ok, manifest_well_formed. cbn [ss_cut_unix_ms].
  split_and!.
  - intros e He. unfold checkpoint_sealed_set_through in He. cbv zeta in He. cbn [ss_envelopes] in He.
    apply elem_of_sort_by, elem_of_app in He as [(e0 & _ & _ & _ & Hlt & _)%elem_of_sealed_envelopes|He]; [done|].
    apply list_elem_of_fmap in He as (t & -> & [Ht _]%lfilter_elem). by apply tombstones_before_elem in Ht as [? _].
  - by apply sealed_set_NoDup.
  - intros c Hc. cbn [ss_claims checkpoint_sealed_set_through] in Hc. apply list_elem_of_fmap in Hc as (a & -> & Ha).
    apply lfilter_elem in Ha as [Ha Hb%bool_decide_eq_true]. cbn [sl_claim sl_envelope].
    pose proof Hb as (x & Hx & Hin)%list_elem_of_fmap.
    apply elem_of_sealed_envelopes in Hin as (e & He & _ & -> & _ & Hl).
    pose proof Ha as (row & rec & Hrow & _ & _ & _ & ->)%elem_of_admitted. cbn [fst snd] in *. split_and!.
    + apply (Hl _ Ha Hx).
    + intros (t & E & Ht)%list_elem_of_fmap. apply tombstones_before_elem in Ht as [_ [c Ht]].
      apply (Hhc row Hrow). apply list_elem_of_fmap. by exists (t, c).
    + rewrite Hx. cbn. intros (t & E & Ht)%list_elem_of_fmap. apply tombstones_before_elem in Ht as [_ [c Ht]].
      apply (Hhe e He). apply list_elem_of_fmap. by exists (t, c).
  - apply List.Forall_forall. intros t Ht%list_elem_of_In. by apply tombstones_before_elem in Ht as [? _].
  - change (NoDup (map et_key (tombstones_before et_accepted_at_unix_ms cut (checkpoint_envelopes (sq_tombstones r))))).
    unfold tombstones_before. rewrite map_map.
    by apply (NoDup_map_filter (λ row : EnvelopeTombstone * string, et_key row.1)).
  - apply List.Forall_forall. intros t Ht%list_elem_of_In. apply tombstones_before_elem in Ht as [Hlt [c Ht]].
    split; [|done]. destruct (Hwhole (t, c) Ht) as ([e c'] & He & Hk & Hle). cbn in *.
    apply list_elem_of_fmap. exists e. split; [done|]. apply tombstones_before_elem. split; [lia|eauto].
  - change (NoDup (map tb_id (tombstones_before tb_accepted_at_unix_ms cut (checkpoint_claims (sq_tombstones r))))).
    unfold tombstones_before. rewrite map_map.
    by apply (NoDup_map_filter (λ row : ClaimTombstone * string, tb_id row.1)).
Qed.

(** From the rows to what peers check: the plan of the set a node reads, with what it dropped
    before, is a manifest that every node's check accepts. *)
Theorem planned_manifest_is_accepted registry json_to_string sha256 hex r cut through checkpoint :
  reads_ok r → trims_finished r →
  let sealed := checkpoint_sealed_set_through r cut through in
  let plan := plan_drops registry json_to_string sha256 hex sealed in
  verify_checkpoint_manifest sha256 hex
    (mkCheckpointManifest checkpoint cut (ss_envelope_tombstones sealed ++ dp_envelopes plan)
       (ss_claim_tombstones sealed ++ dp_claims plan)) (dp_drop_digest plan) = Ok tt.
Proof.
  intros Hok Hdone sealed plan. change cut with (dp_cut_unix_ms plan).
  apply (accepted_plan registry json_to_string sha256 hex sealed checkpoint). by apply sealed_set_ok.
Qed.
End seal.

(** ** Witnesses *)

Section witnesses.
#[local] Existing Instance integer_numbers.

Definition example_row (n : Z) (id state : string) : HeldClaim :=
  mkHeldClaim (sl_claim (observation n id state)) (u_to_string n).

Definition example_seal_reads : SealReads :=
  mkSealReads
    [mkHeldEnvelope 1 (mkEnvelopeKey "amy" 1 "h") "1"; mkHeldEnvelope 2 (mkEnvelopeKey "amy" 2 "h") "2";
     mkHeldEnvelope 3 (mkEnvelopeKey "amy" 3 "h") "86400001"]
    [mkHeldRecord (mkEnvelopeKey "amy" 1 "h") (Some "c1") "valid"; mkHeldRecord (mkEnvelopeKey "amy" 2 "h") (Some "c2") "valid";
     mkHeldRecord (mkEnvelopeKey "amy" 3 "h") (Some "c3") "valid"]
    [example_row 1 "c1" "up"; example_row 2 "c2" "down"; example_row 86400001 "c3" "up"] []
    (mkTombstoneTables [] []).

Lemma example_reads_ok : reads_ok example_seal_reads.
Proof.
  split_and!.
  - apply (bool_decide_unpack _). vm_compute. exact I.
  - constructor.
  - intros e [<-|[<-|[<-|[]]]]%list_elem_of_In; cbn;
      [exists 1%Z|exists 2%Z|exists 86400001%Z]; (split; [vm_compute; split; congruence|reflexivity]).
  - intros e [<-|[<-|[<-|[]]]]%list_elem_of_In; cbn;
      [exists 1%Z|exists 2%Z|exists 86400001%Z]; (split; [vm_compute; split; congruence|reflexivity]).
Qed.

Lemma example_trims_finished : trims_finished example_seal_reads.
Proof. split_and!; [by intros ? _ ?%elem_of_nil|by intros ? _ ?%elem_of_nil|constructor|by intros ? ?%elem_of_nil]. Qed.

Lemma identities_witness :
  si_count (checkpoint_sealed_identities (λ x, x) String.string_of_list_ascii example_seal_reads DAY_MS None) = 2 ∧
  checkpoint_sealed_identities (λ x, x) String.string_of_list_ascii example_seal_reads DAY_MS None
  = SealedIdentities_of (λ x, x) String.string_of_list_ascii
      (checkpoint_sealed_set_through example_seal_reads DAY_MS None).
Proof.
  split; [reflexivity|].
  apply (identities_are_the_sealed_set (λ x, x) String.string_of_list_ascii example_seal_reads DAY_MS None).
  apply example_reads_ok.
Defined.

Lemma planned_manifest_witness :
  let sealed := checkpoint_sealed_set_through example_seal_reads DAY_MS None in
  let plan := plan_drops example_registry example_text (λ x, x) String.string_of_list_ascii sealed in
  map tb_id (dp_claims plan) = ["c1"] ∧
  verify_checkpoint_manifest (λ x, x) String.string_of_list_ascii
    (mkCheckpointManifest "checkpoint/a" DAY_MS (ss_envelope_tombstones sealed ++ dp_envelopes plan)
       (ss_claim_tombstones sealed ++ dp_claims plan)) (dp_drop_digest plan) = Ok tt.
Proof.
  split; [vm_compute; reflexivity|].
  exact (planned_manifest_is_accepted example_registry example_text (λ x, x) String.string_of_list_ascii
           example_seal_reads DAY_MS None "checkpoint/a" example_reads_ok example_trims_finished).
Defined.
End witnesses.
