(* ===== verification/CheckpointTrim.v ===== *)
(** * Trimming a checkpoint

    Models [crates/smallclaims/src/store/checkpoint_trim.rs] and the two transactions of
    [store/checkpoint.rs] it uses: recording tombstones, deleting in chunks what they stand for,
    finishing a trim a crash interrupted, choosing how to apply the newest stable checkpoint, and
    adopting one from a peer's manifest. The tables are lists of rows with the columns these
    statements read. What a chunk meets from outside is an input of it: how many rows the clock
    allows, whether the graph would change, and whether the process stops. *)

From Stdlib Require Import Ascii.
From S2P Require Import Prelude StableSort Text Json Bytes Order BTree Framing Claim Hash Checkpoint Membership FleetView CheckpointAgreement.

Record ClaimRow := mkClaimRow { row_id : string; row_batch : string; row_store_index : Z }.
Record EnvelopeRow := mkEnvelopeRow { er_key : EnvelopeKey; er_batch : option string }.
Record OperationRow := mkOperationRow { op_id : string; op_canonical_claim_id : string }.

Record CheckpointRow := mkCheckpointRow {
  ck_id : string;
  ck_cut_unix_ms : Z;
  ck_state : string;
  ck_seal_rowid : option Z;
  ck_drop_digest : option string
}.

Record Store := mkStore {
  t_claims : list ClaimRow;
  t_operations : list OperationRow;
  t_events : list Z;
  t_batches : list string;
  t_envelopes : list EnvelopeRow;
  t_records : list EnvelopeKey;
  t_signatures : list EnvelopeKey;
  t_holds : list EnvelopeKey;
  t_tombstones : TombstoneTables;
  t_checkpoints : list CheckpointRow;
  t_claim_sequence : Z
}.

(** ** Tombstones *)

(** [INSERT OR IGNORE] on a primary key. *)
Definition insert_or_ignore {A K} `{EqDecision K} (key : A → K) (rows : list A) (row : A) : list A :=
  if bool_decide (key row ∈ map key rows) then rows else rows ++ [row].

Definition record_checkpoint_tombstones (checkpoint : string) (envelopes : list EnvelopeTombstone)
    (claims : list ClaimTombstone) (t : TombstoneTables) : TombstoneTables :=
  mkTombstoneTables
    (fold_left (insert_or_ignore (λ row, et_key row.1)) (map (λ e, (e, checkpoint)) envelopes)
       (checkpoint_envelopes t))
    (fold_left (insert_or_ignore (λ row, tb_id row.1)) (map (λ c, (c, checkpoint)) claims)
       (checkpoint_claims t)).

Definition keep_only_tombstones (envelopes : list EnvelopeTombstone) (claims : list ClaimTombstone)
    (t : TombstoneTables) : TombstoneTables :=
  mkTombstoneTables
    (List.filter (λ row, bool_decide (et_key row.1 ∈ map et_key envelopes)) (checkpoint_envelopes t))
    (List.filter (λ row, bool_decide (tb_id row.1 ∈ map tb_id claims)) (checkpoint_claims t)).

(** ** Deleting *)

Definition delete_claim (s : Store) (t : ClaimTombstone) : Store :=
  let indexes := map row_store_index (List.filter (λ r, str_eqb (row_id r) (tb_id t)) (t_claims s)) in
  mkStore (List.filter (λ r, negb (str_eqb (row_id r) (tb_id t))) (t_claims s))
    (match tb_operation_id t with
     | Some operation =>
         List.filter (λ o, negb (str_eqb (op_id o) operation
                                 && str_eqb (op_canonical_claim_id o) (tb_id t))) (t_operations s)
     | None => t_operations s
     end)
    (List.filter (λ i, negb (bool_decide (i ∈ indexes))) (t_events s))
    (t_batches s) (t_envelopes s) (t_records s) (t_signatures s) (t_holds s) (t_tombstones s)
    (t_checkpoints s) (t_claim_sequence s).

Definition delete_envelope (s : Store) (t : EnvelopeTombstone) : Store :=
  let batch := List.find (λ r, bool_decide (er_key r = et_key t)) (t_envelopes s) ≫= er_batch in
  let without : list EnvelopeKey → list EnvelopeKey :=
    List.filter (λ k, negb (bool_decide (k = et_key t))) in
  let envelopes := List.filter (λ r, negb (bool_decide (er_key r = et_key t))) (t_envelopes s) in
  mkStore (t_claims s) (t_operations s) (t_events s)
    (match batch with
     | Some b =>
         List.filter (λ b', negb (str_eqb b' b && negb (existsb (λ r, str_eqb (row_batch r) b) (t_claims s))
                                  && negb (existsb (λ r, ostr_eqb (er_batch r) (Some b)) envelopes)))
           (t_batches s)
     | None => t_batches s
     end)
    envelopes (without (t_records s)) (without (t_signatures s)) (without (t_holds s)) (t_tombstones s)
    (t_checkpoints s) (t_claim_sequence s).

Definition delete_dropped_rows (envelopes : list EnvelopeTombstone) (claims : list ClaimTombstone)
    (s : Store) : Store :=
  fold_left delete_envelope envelopes (fold_left delete_claim claims s).

(** ** Where a trim goes on from *)

Record TrimCursor := mkTrimCursor {
  cu_envelope : EnvelopeKey;
  cu_envelopes_done : bool;
  cu_claim : string
}.

Definition default_cursor : TrimCursor := mkTrimCursor (mkEnvelopeKey "" 0 "") false "".

Definition holds_envelope (s : Store) (k : EnvelopeKey) : bool :=
  existsb (λ r, bool_decide (er_key r = k)) (t_envelopes s).
Definition holds_claim (s : Store) (id : string) : bool :=
  existsb (λ r, str_eqb (row_id r) id) (t_claims s).

Definition deletable_claim (id : string) (operation_id : option string) : ClaimTombstone :=
  mkClaimTombstone id "" 0 "" "" "" None [] operation_id None 0.

(** [WHERE key > ? AND … ORDER BY key LIMIT 1] over the tombstones. *)
Definition next_envelope (s : Store) (after : EnvelopeKey) : option EnvelopeTombstone :=
  head (List.filter (λ t, holds_envelope s (et_key t))
          (rows_after EnvelopeKey_compare et_key (map fst (checkpoint_envelopes (t_tombstones s))) after)).

Definition envelope_claims (s : Store) (k : EnvelopeKey) : list ClaimTombstone :=
  map (λ t, deletable_claim (tb_id t) (tb_operation_id t))
    (List.filter (λ t, bool_decide (tb_key t = k) && holds_claim s (tb_id t))
       (map fst (checkpoint_claims (t_tombstones s)))).

Definition next_claim (s : Store) (after : string) : option ClaimTombstone :=
  head (List.filter (λ t, holds_claim s (tb_id t))
          (rows_after String.compare tb_id (map fst (checkpoint_claims (t_tombstones s))) after)).

Definition next_trim_rows (s : Store) (cursor : TrimCursor)
    : option EnvelopeTombstone * list ClaimTombstone * TrimCursor :=
  let envelope := if cu_envelopes_done cursor then None else next_envelope s (cu_envelope cursor) in
  match envelope with
  | Some e => (Some e, envelope_claims s (et_key e),
               mkTrimCursor (et_key e) (cu_envelopes_done cursor) (cu_claim cursor))
  | None =>
      match next_claim s (cu_claim cursor) with
      | Some c => (None, [deletable_claim (tb_id c) (tb_operation_id c)],
                   mkTrimCursor (cu_envelope cursor) true (tb_id c))
      | None => (None, [], mkTrimCursor (cu_envelope cursor) true (cu_claim cursor))
      end
  end.

(** ** Chunks

    The inner loop: as many steps as the chunk may take, and what it deleted. *)
Fixpoint chunk_steps (steps : nat) (s : Store) (cursor : TrimCursor)
    : Store * TrimCursor * list EnvelopeTombstone * list ClaimTombstone * nat :=
  match steps with
  | O => (s, cursor, [], [], 0)
  | S steps' =>
      let '(envelope, claims, cursor') := next_trim_rows s cursor in
      match envelope, claims with
      | None, [] => (s, cursor', [], [], 0)
      | _, _ =>
          let s' := delete_dropped_rows (option_list envelope) claims s in
          let '(s'', cursor'', envelopes, more, n) := chunk_steps steps' s' cursor' in
          (s'', cursor'', option_list envelope ++ envelopes, claims ++ more, S n)
      end
  end.

(** What a chunk meets: how many rows the clock lets it start, whether deleting them would change
    the graph, and whether the process stops after its commit. *)
Record ChunkWeather := mkChunkWeather {
  cw_in_budget : nat;
  cw_graph_changed : bool;
  cw_stops_after : bool
}.

Definition set_checkpoint_state (checkpoint : string) (cut : Z) (state : string) (s : Store) : Store :=
  let rows := t_checkpoints s in
  let rows' :=
    if existsb (λ r, str_eqb (ck_id r) checkpoint) rows
    then map (λ r, if str_eqb (ck_id r) checkpoint
                   then mkCheckpointRow (ck_id r) (ck_cut_unix_ms r) state (ck_seal_rowid r) (ck_drop_digest r)
                   else r) rows
    else rows ++ [mkCheckpointRow checkpoint cut state None None] in
  mkStore (t_claims s) (t_operations s) (t_events s) (t_batches s) (t_envelopes s) (t_records s)
    (t_signatures s) (t_holds s) (t_tombstones s) rows' (t_claim_sequence s).

(** The last transaction: mark the checkpoint trimmed and expire every snapshot. *)
Definition mark_trimmed (checkpoint : string) (s : Store) : Store :=
  mkStore (t_claims s) (t_operations s) (t_events s) (t_batches s) (t_envelopes s) (t_records s)
    (t_signatures s) (t_holds s) (t_tombstones s)
    (map (λ r, if str_eqb (ck_id r) checkpoint
               then mkCheckpointRow (ck_id r) (ck_cut_unix_ms r) "trimmed" (ck_seal_rowid r) (ck_drop_digest r)
               else r) (t_checkpoints s))
    (t_claim_sequence s + 1)%Z.

Inductive TrimEnd :=
| TrimEnds (s : Store) (action : CheckpointAction)
| TrimStops (s : Store).

Fixpoint trim_chunks (weather : list ChunkWeather) (most : nat) (stops_before_finish : bool)
    (checkpoint : string) (s : Store) (cursor : TrimCursor) (envelopes claims : nat) : TrimEnd :=
  match weather with
  | [] => TrimStops s
  | w :: weather' =>
      let '(s', cursor', es, cs, steps) := chunk_steps (min most (cw_in_budget w)) s cursor in
      if steps =? 0
      then if stops_before_finish then TrimStops s
           else TrimEnds (mark_trimmed checkpoint s) (Trimmed checkpoint envelopes claims)
      else if cw_graph_changed w
      then TrimEnds (set_checkpoint_state checkpoint 0 "graph-changed" s) (TrimGraphChanged checkpoint)
      else if cw_stops_after w then TrimStops s'
      else trim_chunks weather' most stops_before_finish checkpoint s' cursor'
             (envelopes + length es) (claims + length cs)
  end.

Definition finish_trim (weather : list ChunkWeather) (most : nat) (stops_before_finish : bool)
    (checkpoint : string) (s : Store) : TrimEnd :=
  trim_chunks weather most stops_before_finish checkpoint s default_cursor 0 0.

(** The first transaction of a trim: every tombstone, and the checkpoint marked [trimming]. *)
Definition begin_trim (checkpoint : string) (cut : Z) (drop_digest : string)
    (envelopes : list EnvelopeTombstone) (claims : list ClaimTombstone) (exact : bool) (s : Store) : Store :=
  let tombstones := if exact then keep_only_tombstones envelopes claims (t_tombstones s)
                    else t_tombstones s in
  let rows := t_checkpoints s in
  let rows' :=
    if existsb (λ r, str_eqb (ck_id r) checkpoint) rows
    then map (λ r, if str_eqb (ck_id r) checkpoint
                   then mkCheckpointRow (ck_id r) (ck_cut_unix_ms r) "trimming" (ck_seal_rowid r) (Some drop_digest)
                   else r) rows
    else rows ++ [mkCheckpointRow checkpoint cut "trimming" None (Some drop_digest)] in
  mkStore (t_claims s) (t_operations s) (t_events s) (t_batches s) (t_envelopes s) (t_records s)
    (t_signatures s) (t_holds s) (record_checkpoint_tombstones checkpoint envelopes claims tombstones)
    rows' (t_claim_sequence s).

Definition trim_checkpoint (weather : list ChunkWeather) (most : nat)
    (stops_after_tombstones stops_before_finish : bool) (checkpoint : string) (cut : Z)
    (drop_digest : string) (envelopes : list EnvelopeTombstone) (claims : list ClaimTombstone)
    (exact : bool) (s : Store) : TrimEnd :=
  let s' := begin_trim checkpoint cut drop_digest envelopes claims exact s in
  if stops_after_tombstones then TrimStops s'
  else finish_trim weather most stops_before_finish checkpoint s'.

(** [full_compact_replication_inventory]: the identities a node tells its peers, in order. *)
Definition inventory (s : Store) : list EnvelopeKey :=
  sort_by (cmp_leb EnvelopeKey_compare)
    (map er_key (t_envelopes s)
     ++ List.filter (λ k, negb (holds_envelope s k)) (map (λ row, et_key row.1) (checkpoint_envelopes (t_tombstones s)))).

(** ** Applying the newest stable checkpoint *)

Record CheckpointManifestNeed := mkCheckpointManifestNeed {
  mn_checkpoint : string;
  mn_cut_unix_ms : Z;
  mn_drop_digest : string
}.

Definition local_checkpoint (rows : list CheckpointRow) (checkpoint : string)
    : option (string * option Z) :=
  (λ r, (ck_state r, ck_seal_rowid r)) <$> List.find (λ r, str_eqb (ck_id r) checkpoint) rows.

Definition applied (rows : list CheckpointRow) (cut : Z) (drop_digest : string) : bool :=
  existsb (λ r,
    (str_eqb (ck_state r) "trimmed"
     && ((cut <? ck_cut_unix_ms r)%Z
         || ((ck_cut_unix_ms r =? cut)%Z && ostr_eqb (ck_drop_digest r) (Some drop_digest))))
    || (bool_decide (ck_state r ∈ ["set-aside"; "graph-changed"]) && (cut <=? ck_cut_unix_ms r)%Z)) rows.

Inductive Application :=
| ApplicationDone
| OwnPlan (checkpoint : string) (certificate : Certificate) (seal_rowid : Z)
| NeedsManifest (need : CheckpointManifestNeed).

Section apply.
Context `{NumberApi}.
Context (checkpoint_name : Z → string).

(** A stable checkpoint has a certificate, so the last case cannot be. *)
Definition newest_application (origin : string) (claims : list CheckpointClaim) (rows : list CheckpointRow)
    : option Application :=
  match last (stable_checkpoints checkpoint_name claims) with
  | None => None
  | Some (cut, certs) =>
      match chosen_certificate certs with
      | Some certificate =>
          let checkpoint := checkpoint_name cut in
          let digest := vt_drop_digest (ct_terms certificate) in
          if applied rows cut digest then Some ApplicationDone
          else
            let manifest := Some (NeedsManifest (mkCheckpointManifestNeed checkpoint cut digest)) in
            match ct_verifications certificate !! origin, local_checkpoint rows checkpoint with
            | Some _, Some (state, Some seal_rowid) =>
                if negb (str_eqb state "plan-changed") then Some (OwnPlan checkpoint certificate seal_rowid)
                else manifest
            | _, _ => manifest
            end
      | None => None
      end
  end.

Inductive ApplyEnd :=
| Applied (s : Store) (actions : list CheckpointAction) (need : option CheckpointManifestNeed)
| ApplyStops (s : Store).

(** Finishing each trim a crash interrupted. *)
Fixpoint finish_interrupted (run : string → Store → TrimEnd) (interrupted : list string) (s : Store)
    (actions : list CheckpointAction) : ApplyEnd :=
  match interrupted with
  | [] => Applied s actions None
  | checkpoint :: rest =>
      match run checkpoint s with
      | TrimEnds s' action => finish_interrupted run rest s' (actions ++ [action])
      | TrimStops s' => ApplyStops s'
      end
  end.

Definition trimming (s : Store) : list string :=
  sort_by String.leb (map ck_id (List.filter (λ r, str_eqb (ck_state r) "trimming") (t_checkpoints s))).

(** [weather] gives what each trim of this pass meets; [plan_through] is the plan from the node's
    own rows, up to the envelope its seal ended at. *)
Definition apply_stable_checkpoints (weather : string → list ChunkWeather) (most : nat)
    (plan_through : Store → Z → Z → DropPlan) (origin : string) (claims : list CheckpointClaim)
    (s : Store) : ApplyEnd :=
  match finish_interrupted (λ c s, finish_trim (weather c) most false c s) (trimming s) s [] with
  | ApplyStops s' => ApplyStops s'
  | Applied s' actions _ =>
      match newest_application origin claims (t_checkpoints s') with
      | None | Some ApplicationDone => Applied s' actions None
      | Some (NeedsManifest need) => Applied s' actions (Some need)
      | Some (OwnPlan checkpoint certificate seal_rowid) =>
          let terms := ct_terms certificate in
          let cut := vt_cut_unix_ms terms in
          let plan := plan_through s' cut seal_rowid in
          if str_eqb (dp_sealed_digest plan) (vt_sealed_digest terms)
             && str_eqb (dp_drop_digest plan) (vt_drop_digest terms)
          then match trim_checkpoint (weather checkpoint) most false false checkpoint cut (dp_drop_digest plan)
                       (dp_envelopes plan) (dp_claims plan) false s' with
               | TrimEnds s'' action => Applied s'' (actions ++ [action]) None
               | TrimStops s'' => ApplyStops s''
               end
          else Applied (set_checkpoint_state checkpoint cut "plan-changed" s') actions
                 (Some (mkCheckpointManifestNeed checkpoint cut (vt_drop_digest terms)))
      end
  end.

(** ** Adopting a manifest *)

Context (sha256 : list ascii → list ascii) (hex : list ascii → string).

Inductive AdoptEnd :=
| AdoptRefused (error : Error)
| Adopted (s : Store) (actions : list CheckpointAction)
| AdoptStops (s : Store).

Definition adopt_checkpoint_checked (weather : list ChunkWeather) (most : nat)
    (claims : list CheckpointClaim) (manifest : CheckpointManifest) (require_newest : bool) (s : Store)
    : AdoptEnd :=
  let name := mf_checkpoint manifest in
  if require_newest
     && is_some_and (newest_stable_cut checkpoint_name claims) (λ newest, (mf_cut_unix_ms manifest <? newest)%Z)
  then AdoptRefused (mkError "checkpoint-superseded"
         ("`" +:+ name +:+ "` is older than the newest stable checkpoint here; a node adopts only the newest"))
  else
    match chosen_certificate (certificates checkpoint_name claims name) with
    | None => AdoptRefused (mkError "checkpoint-not-stable"
         ("`" +:+ name +:+ "` is not stable on this node; it adopts a checkpoint once it holds every participant's verification"))
    | Some certificate =>
        let terms := ct_terms certificate in
        if negb (vt_cut_unix_ms terms =? mf_cut_unix_ms manifest)%Z
        then AdoptRefused (mkError "checkpoint-manifest-invalid" "the manifest's cut is not the certified one")
        else
          match verify_checkpoint_manifest sha256 hex manifest (vt_drop_digest terms) with
          | Err error => AdoptRefused error
          | Ok _ =>
              if applied (t_checkpoints s) (mf_cut_unix_ms manifest) (vt_drop_digest terms)
              then Adopted s []
              else match trim_checkpoint weather most false false name (mf_cut_unix_ms manifest)
                           (vt_drop_digest terms) (mf_envelopes manifest) (mf_claims manifest) true s with
                   | TrimEnds s' action => Adopted s' [action]
                   | TrimStops s' => AdoptStops s'
                   end
          end
    end.

Definition adopt_checkpoint weather most claims manifest s :=
  adopt_checkpoint_checked weather most claims manifest true s.

Definition restore_checkpoint_history (weather : list ChunkWeather) (most : nat)
    (claims : list CheckpointClaim) (manifest : CheckpointManifest) (s : Store) : AdoptEnd :=
  match t_checkpoints s, checkpoint_envelopes (t_tombstones s), checkpoint_claims (t_tombstones s) with
  | [], [], [] => adopt_checkpoint_checked weather most claims manifest false s
  | _, _, _ => AdoptRefused (mkError "checkpoint-history-exists"
                 "checkpoint restore requires empty checkpoint state")
  end.
End apply.

(** [trimmed_checkpoint]: what a node's inventory advertises. *)
Definition trimmed_checkpoint (rows : list CheckpointRow) : option (string * Z * string) :=
  match sort_by (λ a b, (ck_cut_unix_ms b <=? ck_cut_unix_ms a)%Z)
          (List.filter (λ r, str_eqb (ck_state r) "trimmed" && is_some (ck_drop_digest r)) rows) with
  | r :: _ => (λ d, (ck_id r, Z.max 0 (ck_cut_unix_ms r), d)) <$> ck_drop_digest r
  | [] => None
  end.

(** ** A trim deletes only what a tombstone stands for *)

Definition tombstoned_keys (s : Store) : list EnvelopeKey :=
  map (λ row, et_key row.1) (checkpoint_envelopes (t_tombstones s)).
Definition tombstoned_ids (s : Store) : list string :=
  map (λ row, tb_id row.1) (checkpoint_claims (t_tombstones s)).

(** A batch some claim or envelope still names. *)
Definition named_batch (s : Store) (b : string) : Prop :=
  (∃ r, r ∈ t_claims s ∧ row_batch r = b) ∨ (∃ r, r ∈ t_envelopes s ∧ er_batch r = Some b).

(** [s] is [s0] less claims and envelopes that tombstones stand for: envelopes go with their
    records, signatures and holds, and no batch that is still named goes. *)
Definition trims (s0 s : Store) : Prop :=
  t_tombstones s = t_tombstones s0 ∧ t_checkpoints s = t_checkpoints s0 ∧
  t_claim_sequence s = t_claim_sequence s0 ∧
  (∀ b, b ∈ t_batches s0 → named_batch s b → b ∈ t_batches s) ∧
  ∃ (pc : string → bool) (pe : EnvelopeKey → bool),
    t_claims s = List.filter (λ r, pc (row_id r)) (t_claims s0) ∧
    t_envelopes s = List.filter (λ r, pe (er_key r)) (t_envelopes s0) ∧
    t_records s = List.filter pe (t_records s0) ∧ t_signatures s = List.filter pe (t_signatures s0) ∧
    t_holds s = List.filter pe (t_holds s0) ∧
    (∀ id, pc id = false → id ∈ tombstoned_ids s0) ∧
    (∀ k, pe k = false → k ∈ tombstoned_keys s0 ∧ holds_envelope s0 k = true).

Lemma filter_true {A} (l : list A) : List.filter (λ _, true) l = l.
Proof. induction l as [|x l IH]; simpl; [done|]. by rewrite IH. Qed.

Lemma filter_both {A} (p q : A → bool) l :
  List.filter q (List.filter p l) = List.filter (λ x, p x && q x) l.
Proof.
  induction l as [|x l IH]; simpl; [done|]. destruct (p x); simpl; [destruct (q x)|]; by rewrite IH.
Qed.

Lemma trims_refl s : trims s s.
Proof.
  split_and!; [done..|]. exists (λ _, true), (λ _, true). rewrite !filter_true. by split_and!.
Qed.

Lemma holds_envelope_spec s k : holds_envelope s k = true ↔ k ∈ map er_key (t_envelopes s).
Proof.
  unfold holds_envelope. rewrite existsb_true_elem, list_elem_of_fmap.
  setoid_rewrite bool_decide_eq_true. naive_solver.
Qed.

Lemma holds_claim_spec s id : holds_claim s id = true ↔ id ∈ map row_id (t_claims s).
Proof.
  unfold holds_claim. rewrite existsb_true_elem, list_elem_of_fmap.
  setoid_rewrite str_eqb_true. naive_solver.
Qed.

Lemma trims_named s0 s b : trims s0 s → named_batch s b → named_batch s0 b.
Proof.
  intros (_ & _ & _ & _ & pc & pe & Hc & He & _) [(r & Hr & Hb)|(r & Hr & Hb)].
  - left. rewrite Hc in Hr. apply lfilter_elem in Hr as [Hr _]. eauto.
  - right. rewrite He in Hr. apply lfilter_elem in Hr as [Hr _]. eauto.
Qed.

Lemma trims_holds s0 s k : trims s0 s → holds_envelope s k = true → holds_envelope s0 k = true.
Proof.
  intros (_ & _ & _ & _ & pc & pe & _ & He & _). rewrite !holds_envelope_spec, He, !list_elem_of_fmap.
  intros (r & -> & [Hr _]%lfilter_elem). eauto.
Qed.

Lemma trims_trans a b c : trims a b → trims b c → trims a c.
Proof.
  intros H1 H2. pose proof H1 as (Ht & Hk & Hs & Hb & pc & pe & Ec & Ee & Er & Eg & Eh & Hpc & Hpe).
  pose proof H2 as (Ht' & Hk' & Hs' & Hb' & pc' & pe' & Ec' & Ee' & Er' & Eg' & Eh' & Hpc' & Hpe').
  split_and!; try congruence.
  - intros x Hx Hn. apply Hb'; [|done]. apply Hb; [done|]. by eapply trims_named.
  - exists (λ id, pc id && pc' id), (λ k, pe k && pe' k).
    rewrite Ec', Ec, Ee', Ee, Er', Er, Eg', Eg, Eh', Eh, !filter_both. split_and!; try done.
    + intros id [Hf|Hf]%andb_false_iff; [by apply Hpc|]. apply Hpc' in Hf. unfold tombstoned_ids in *.
      by rewrite Ht in Hf.
    + intros k [Hf|Hf]%andb_false_iff; [by apply Hpe|]. apply Hpe' in Hf as [Hf Hh].
      unfold tombstoned_keys in *. rewrite Ht in Hf. split; [done|]. by eapply trims_holds.
Qed.

Lemma delete_claim_trims s t : tb_id t ∈ tombstoned_ids s → trims s (delete_claim s t).
Proof.
  intros Ht. split_and!; [done..|]. exists (λ id, negb (str_eqb id (tb_id t))), (λ _, true).
  cbn. rewrite !filter_true. split_and!; try done.
  intros id Hf%negb_false_iff%str_eqb_true. by subst.
Qed.

Lemma delete_envelope_trims s t :
  et_key t ∈ tombstoned_keys s → holds_envelope s (et_key t) = true → trims s (delete_envelope s t).
Proof.
  intros Ht Hh. split_and!; [done..| |].
  - intros b Hb Hn. cbn. destruct (_ ≫= er_batch) as [b0|]; [|done]. apply lfilter_elem. split; [done|].
    apply negb_true_iff. destruct (str_eqb b b0) eqn:Eb; [|done]. str_cases. subst b0. simpl.
    destruct Hn as [(r & Hr & Hrb)|(r & Hr & Hrb)].
    + assert (existsb (λ r, str_eqb (row_batch r) b) (t_claims s) = true) as ->; [|done].
      apply existsb_true_elem. exists r. by rewrite str_eqb_true.
    + cbn in Hr. match goal with |- context [existsb ?q ?l] =>
        match l with List.filter _ _ => assert (existsb q l = true) as -> end end.
      { apply existsb_true_elem. exists r. by rewrite ostr_eqb_true. }
      by rewrite andb_false_r.
  - exists (λ _, true), (λ k, negb (bool_decide (k = et_key t))). cbn. rewrite !filter_true.
    split_and!; try done. intros k Hf%negb_false_iff%bool_decide_eq_true. by subst.
Qed.

Lemma delete_claims_trims cs s :
  (∀ t, t ∈ cs → tb_id t ∈ tombstoned_ids s) → trims s (fold_left delete_claim cs s).
Proof.
  revert s. induction cs as [|t cs IH]; intros s Hcs; simpl; [apply trims_refl|].
  eapply trims_trans; [apply delete_claim_trims, Hcs; left|]. apply IH.
  intros t' Ht'. apply (Hcs t'). by right.
Qed.

(** ** What a step finds *)

Section next.
Context (s : Store).

Lemma next_envelope_spec after e : next_envelope s after = Some e →
  et_key e ∈ tombstoned_keys s ∧ holds_envelope s (et_key e) = true ∧
  EnvelopeKey_compare after (et_key e) = Lt.
Proof.
  unfold next_envelope. intros Hh. apply head_Some_elem_of, lfilter_elem in Hh as [Hin Hheld].
  unfold rows_after, rows_in_order in Hin. rewrite elem_of_sort_by, lfilter_elem in Hin.
  destruct Hin as [Hin Ha]. split_and!; [|done|].
  - unfold tombstoned_keys. apply list_elem_of_fmap in Hin as (row & -> & Hrow).
    apply list_elem_of_fmap. eauto.
  - unfold is_after in Ha. rewrite (cmp_opp EnvelopeKey_compare (et_key e) after).
    by destruct (EnvelopeKey_compare (et_key e) after).
Qed.

Lemma next_claim_spec after c : next_claim s after = Some c →
  tb_id c ∈ tombstoned_ids s ∧ holds_claim s (tb_id c) = true ∧ String.compare after (tb_id c) = Lt.
Proof.
  unfold next_claim. intros Hh. apply head_Some_elem_of, lfilter_elem in Hh as [Hin Hheld].
  unfold rows_after, rows_in_order in Hin. rewrite elem_of_sort_by, lfilter_elem in Hin.
  destruct Hin as [Hin Ha]. split_and!; [|done|].
  - unfold tombstoned_ids. apply list_elem_of_fmap in Hin as (row & -> & Hrow).
    apply list_elem_of_fmap. eauto.
  - unfold is_after in Ha. rewrite (cmp_opp String.compare (tb_id c) after).
    by destruct (String.compare (tb_id c) after).
Qed.

(** The least: whatever else qualifies comes after it. *)
Lemma head_filter_least {A K} (cmp : K → K → comparison) (key : A → K) `{!cmp_order cmp, !cmp_exact cmp}
    (q : A → bool) l after x :
  head (List.filter q (rows_after cmp key l after)) = Some x →
  ∀ y, y ∈ l → q y = true → cmp after (key y) = Lt → key y = key x ∨ cmp (key x) (key y) = Lt.
Proof.
  intros Hh y Hy Hq Ha.
  assert (Hin : y ∈ List.filter q (rows_after cmp key l after)).
  { apply lfilter_elem. split; [|done]. unfold rows_after, rows_in_order.
    rewrite elem_of_sort_by, lfilter_elem. split; [done|]. unfold is_after.
    by rewrite (cmp_opp cmp after (key y)), Ha. }
  assert (Hs : StronglySorted (λ a b, cmp_leb (by_row_key cmp key) a b = true) (rows_after cmp key l after)).
  { apply sort_by_sorted; [apply (cmp_leb_total (by_row_key cmp key))|apply (cmp_leb_trans (by_row_key cmp key))]. }
  revert Hh Hin. induction Hs as [|z l' _ IH Hz]; simpl; [done|]. destruct (q z) eqn:Hqz; [|done].
  simpl. intros [= ->] [->|[Hin _]%lfilter_elem]%elem_of_cons; [by left|].
  rewrite List.Forall_forall in Hz. apply list_elem_of_In, Hz in Hin. apply cmp_leb_true in Hin.
  unfold by_row_key in Hin. destruct (cmp (key x) (key y)) eqn:E; [left; symmetry; by apply cmp_eq in E|by right|done].
Qed.

Lemma next_envelope_None after : next_envelope s after = None →
  ∀ k, k ∈ tombstoned_keys s → holds_envelope s k = true → EnvelopeKey_compare after k ≠ Lt.
Proof.
  unfold next_envelope. intros Hh k (row & -> & Hrow)%list_elem_of_fmap Hheld Ha.
  assert (row.1 ∈ List.filter (λ t, holds_envelope s (et_key t))
    (rows_after EnvelopeKey_compare et_key (map fst (checkpoint_envelopes (t_tombstones s))) after)) as Hin.
  { apply lfilter_elem. split; [|done]. unfold rows_after, rows_in_order.
    rewrite elem_of_sort_by, lfilter_elem. split; [apply list_elem_of_fmap; eauto|]. unfold is_after.
    by rewrite (cmp_opp EnvelopeKey_compare after (et_key row.1)), Ha. }
  destruct (List.filter _ _); [by apply elem_of_nil in Hin|done].
Qed.

Lemma next_claim_None after : next_claim s after = None →
  ∀ id, id ∈ tombstoned_ids s → holds_claim s id = true → String.compare after id ≠ Lt.
Proof.
  unfold next_claim. intros Hh id (row & -> & Hrow)%list_elem_of_fmap Hheld Ha.
  assert (row.1 ∈ List.filter (λ t, holds_claim s (tb_id t))
    (rows_after String.compare tb_id (map fst (checkpoint_claims (t_tombstones s))) after)) as Hin.
  { apply lfilter_elem. split; [|done]. unfold rows_after, rows_in_order.
    rewrite elem_of_sort_by, lfilter_elem. split; [apply list_elem_of_fmap; eauto|]. unfold is_after.
    by rewrite (cmp_opp String.compare after (tb_id row.1)), Ha. }
  destruct (List.filter _ _); [by apply elem_of_nil in Hin|done].
Qed.

Lemma envelope_claims_tombstoned k t : t ∈ envelope_claims s k → tb_id t ∈ tombstoned_ids s.
Proof.
  intros (t' & -> & [Hin _]%lfilter_elem)%list_elem_of_fmap. cbn.
  apply list_elem_of_fmap in Hin as (row & -> & Hrow). apply list_elem_of_fmap. eauto.
Qed.
End next.

(** ** Every step trims, and leaves nothing behind its cursor *)

(** What the cursor has passed is gone. *)
Definition passed (s : Store) (cursor : TrimCursor) : Prop :=
  (∀ k, k ∈ tombstoned_keys s → holds_envelope s k = true →
     cu_envelopes_done cursor = false ∧ EnvelopeKey_compare (cu_envelope cursor) k = Lt) ∧
  (∀ id, id ∈ tombstoned_ids s → holds_claim s id = true → String.compare (cu_claim cursor) id = Lt).

(** How many rows tombstones stand for are still held. *)
Definition left_to_trim (s : Store) : nat :=
  length (List.filter (λ r, bool_decide (er_key r ∈ tombstoned_keys s)) (t_envelopes s))
  + length (List.filter (λ r, bool_decide (row_id r ∈ tombstoned_ids s)) (t_claims s)).

Lemma holds_after_filter_claims s s' pc id :
  t_claims s' = List.filter (λ r, pc (row_id r)) (t_claims s) →
  holds_claim s' id = holds_claim s id && pc id.
Proof.
  intros E. apply eq_bool_prop_intro. rewrite !Is_true_true, andb_true_iff, !holds_claim_spec, E, !list_elem_of_fmap.
  split.
  - intros (r & -> & [Hr Hp]%lfilter_elem). eauto.
  - intros [(r & -> & Hr) Hp]. exists r. split; [done|]. by apply lfilter_elem.
Qed.

Lemma trims_left s0 s : trims s0 s → left_to_trim s ≤ left_to_trim s0.
Proof.
  intros (Ht & _ & _ & _ & pc & pe & Ec & Ee & _). unfold left_to_trim, tombstoned_keys, tombstoned_ids.
  rewrite Ht, Ec, Ee, !filter_both.
  assert (∀ A (p q : A → bool) l, length (List.filter (λ x, p x && q x) l) ≤ length (List.filter q l)) as Hle.
  { clear. intros A p q l. induction l as [|x l IH]; simpl; [lia|]. destruct (p x), (q x); simpl; lia. }
  apply Nat.add_le_mono; apply Hle.
Qed.

Lemma filter_filter_lt {A} (p q : A → bool) l x :
  x ∈ l → q x = true → p x = false →
  length (List.filter q (List.filter p l)) < length (List.filter q l).
Proof.
  intros Hx Hq Hp. rewrite filter_both.
  assert (∀ l', length (List.filter (λ x, p x && q x) l') ≤ length (List.filter q l')) as Hle.
  { clear. induction l' as [|x l IH]; simpl; [lia|]. destruct (p x), (q x); simpl; lia. }
  induction l as [|y l IH]; simpl; [by apply elem_of_nil in Hx|].
  apply elem_of_cons in Hx as [->|Hx].
  - rewrite Hp, Hq. simpl. specialize (Hle l). lia.
  - specialize (IH Hx). destruct (p y), (q y); simpl; lia.
Qed.

Lemma left_zero s : left_to_trim s = 0 ↔
  (∀ k, k ∈ tombstoned_keys s → holds_envelope s k = false) ∧
  (∀ id, id ∈ tombstoned_ids s → holds_claim s id = false).
Proof.
  unfold left_to_trim. rewrite Nat.eq_add_0.
  assert (∀ A (q : A → bool) l, length (List.filter q l) = 0 ↔ ∀ x, x ∈ l → q x = false) as Hl.
  { intros A q l. induction l as [|x l IH]; simpl; [split; [by intros _ x ?%elem_of_nil|done]|].
    setoid_rewrite elem_of_cons. destruct (q x) eqn:Hq; simpl; [|rewrite IH; naive_solver].
    split; [done|]. intros Hall. by rewrite (Hall x (or_introl eq_refl)) in Hq. }
  rewrite !Hl. split; intros [He Hc]; split.
  - intros k Hk. apply not_true_is_false. intros (r & -> & Hr)%holds_envelope_spec%list_elem_of_fmap.
    specialize (He r Hr). by rewrite bool_decide_true in He.
  - intros id Hid. apply not_true_is_false. intros (r & -> & Hr)%holds_claim_spec%list_elem_of_fmap.
    specialize (Hc r Hr). by rewrite bool_decide_true in Hc.
  - intros r Hr. apply bool_decide_eq_false. intros Hk. specialize (He _ Hk).
    apply not_true_iff_false in He. apply He, holds_envelope_spec, list_elem_of_fmap. eauto.
  - intros r Hr. apply bool_decide_eq_false. intros Hk. specialize (Hc _ Hk).
    apply not_true_iff_false in Hc. apply Hc, holds_claim_spec, list_elem_of_fmap. eauto.
Qed.

Lemma envelope_step s cursor e :
  passed s cursor → cu_envelopes_done cursor = false → next_envelope s (cu_envelope cursor) = Some e →
  let s' := delete_dropped_rows [e] (envelope_claims s (et_key e)) s in
  trims s s' ∧ passed s' (mkTrimCursor (et_key e) (cu_envelopes_done cursor) (cu_claim cursor))
  ∧ left_to_trim s' < left_to_trim s.
Proof.
  intros [Hpe Hpc] Hdone Hn s'. pose proof (next_envelope_spec _ _ _ Hn) as (Ht & Hh & _).
  set (s1 := fold_left delete_claim (envelope_claims s (et_key e)) s).
  assert (H1 : trims s s1) by (apply delete_claims_trims; intros t; apply envelope_claims_tombstoned).
  pose proof H1 as (Htomb & _ & _ & _ & pc & pe & Ec & Ee & _).
  assert (Hsame : t_envelopes s1 = t_envelopes s).
  { unfold s1. generalize (envelope_claims s (et_key e)). intros l. clear. revert s.
    induction l as [|t l IH]; intros s; simpl; [done|]. by rewrite IH. }
  assert (H2 : trims s1 s').
  { change s' with (delete_envelope s1 e). apply delete_envelope_trims.
    - unfold tombstoned_keys. by rewrite Htomb.
    - unfold holds_envelope. by rewrite Hsame. }
  pose proof (trims_trans _ _ _ H1 H2) as H3. split; [done|]. split.
  - assert (Htomb' : t_tombstones s' = t_tombstones s) by by destruct H3.
    split; cbn [cu_envelope cu_envelopes_done cu_claim].
    + unfold tombstoned_keys. rewrite Htomb'. intros k Hk Hk'. split; [done|].
      change s' with (delete_envelope s1 e) in Hk'. rewrite holds_envelope_spec in Hk'.
      cbn [t_envelopes delete_envelope] in Hk'. rewrite Hsame in Hk'.
      apply list_elem_of_fmap in Hk' as (r & -> & [Hr Hne]%lfilter_elem).
      rewrite negb_true_iff, bool_decide_eq_false in Hne.
      assert (Hheld : holds_envelope s (er_key r) = true)
        by (apply holds_envelope_spec, list_elem_of_fmap; eauto).
      apply list_elem_of_fmap in Hk as (row & Hrow & Hin). rewrite Hrow in *.
      destruct (head_filter_least EnvelopeKey_compare et_key _ _ _ _ Hn row.1) as [E|E]; [| | |done|done].
      * apply list_elem_of_fmap. eauto.
      * done.
      * apply Hpe; [apply list_elem_of_fmap; eauto|done].
    + unfold tombstoned_ids. rewrite Htomb'. intros id Hid Hheld. apply Hpc; [done|].
      destruct H3 as (_ & _ & _ & _ & pc' & pe' & Ec' & _).
      rewrite (holds_after_filter_claims s s' pc' id Ec') in Hheld. by apply andb_prop in Hheld as [? _].
  - pose proof (trims_left _ _ H1) as Hle. eapply Nat.lt_le_trans; [|exact Hle].
    change s' with (delete_envelope s1 e). unfold left_to_trim. apply Nat.add_lt_le_mono; [|done].
    apply holds_envelope_spec, list_elem_of_fmap in Hh as (r & Hr & Hin).
    eapply (filter_filter_lt _ _ _ r).
    + by rewrite Hsame.
    + apply bool_decide_eq_true. unfold tombstoned_keys. cbn [t_tombstones delete_envelope].
      rewrite Htomb, <- Hr. exact Ht.
    + apply negb_false_iff, bool_decide_eq_true. by rewrite Hr.
Qed.

Lemma claim_step s cursor c :
  passed s cursor → (∀ k, k ∈ tombstoned_keys s → holds_envelope s k = false) →
  next_claim s (cu_claim cursor) = Some c →
  let s' := delete_dropped_rows [] [deletable_claim (tb_id c) (tb_operation_id c)] s in
  trims s s' ∧ passed s' (mkTrimCursor (cu_envelope cursor) true (tb_id c))
  ∧ left_to_trim s' < left_to_trim s.
Proof.
  intros [Hpe Hpc] Hnone Hn s'. pose proof (next_claim_spec _ _ _ Hn) as (Ht & Hh & _).
  assert (H1 : trims s s') by by apply delete_claim_trims. split; [done|]. split.
  - split; cbn [cu_envelope cu_envelopes_done cu_claim].
    + intros k Hk Hk'. exfalso. specialize (Hnone k Hk).
      change (holds_envelope s k = true) in Hk'. congruence.
    + intros id Hid Hheld. change (id ∈ tombstoned_ids s) in Hid.
      rewrite (holds_after_filter_claims s s' (λ i, negb (str_eqb i (tb_id c))) id eq_refl) in Hheld.
      apply andb_prop in Hheld as [Hheld Hne%negb_true_iff%str_eqb_false].
      pose proof Hid as (row & Hrow & Hin)%list_elem_of_fmap. rewrite Hrow in *.
      destruct (head_filter_least String.compare tb_id _ _ _ _ Hn row.1) as [E|E]; [| | |done|done].
      * apply list_elem_of_fmap. eauto.
      * done.
      * by apply Hpc.
  - unfold left_to_trim. apply Nat.add_le_lt_mono; [done|].
    apply holds_claim_spec, list_elem_of_fmap in Hh as (r & Hr & Hin).
    eapply (filter_filter_lt _ _ _ r); [done| |].
    + apply bool_decide_eq_true. by rewrite <- Hr.
    + apply negb_false_iff, str_eqb_true. by rewrite Hr.
Qed.

(** A step finds a row and deletes it, or nothing is left. *)
Lemma trim_step s cursor : passed s cursor →
  let '(e, cs, cursor') := next_trim_rows s cursor in
  (e = None ∧ cs = [] ∧ left_to_trim s = 0 ∧ passed s cursor') ∨
  (match e, cs with None, [] => False | _, _ => True end ∧
   let s' := delete_dropped_rows (option_list e) cs s in
   trims s s' ∧ passed s' cursor' ∧ left_to_trim s' < left_to_trim s).
Proof.
  intros Hp. unfold next_trim_rows.
  destruct (cu_envelopes_done cursor) eqn:Hdone; [|destruct (next_envelope s (cu_envelope cursor)) as [e|] eqn:He].
  2: { right. split; [done|]. rewrite <- Hdone. by apply envelope_step. }
  all: assert (Hnone : ∀ k, k ∈ tombstoned_keys s → holds_envelope s k = false).
  1, 3: intros k Hk; apply not_true_is_false; intros Hh; destruct (proj1 Hp k Hk Hh) as [Hd Hlt];
    first [congruence|by eapply next_envelope_None].
  all: destruct (next_claim s (cu_claim cursor)) as [c|] eqn:Hc.
  1, 3: right; split; [done|]; by apply claim_step.
  all: left; split_and!; try done.
  1, 3: apply left_zero; split; [done|]; intros id Hid; apply not_true_is_false; intros Hh;
    by eapply next_claim_None; [..|apply Hp].
  all: split; cbn [cu_envelope cu_envelopes_done cu_claim]; [|apply Hp].
  all: intros k Hk Hh; rewrite Hnone in Hh; done.
Qed.

Lemma chunk_steps_trim n s cursor : passed s cursor →
  let '(s', cursor', es, cs, steps) := chunk_steps n s cursor in
  trims s s' ∧ passed s' cursor' ∧ left_to_trim s' + steps ≤ left_to_trim s ∧
  (steps = 0 → n = 0 ∨ left_to_trim s = 0).
Proof.
  revert s cursor. induction n as [|n IH]; intros s cursor Hp; simpl.
  - split_and!; [apply trims_refl|done|lia|by left].
  - pose proof (trim_step s cursor Hp) as Hstep. destruct (next_trim_rows s cursor) as [[e cs] cursor'].
    destruct Hstep as [(-> & -> & Hz & Hp')|(Hsome & Ht & Hp' & Hlt)].
    + split_and!; [apply trims_refl|done|lia|by right].
    + set (s1 := delete_dropped_rows (option_list e) cs s) in *.
      specialize (IH s1 cursor' Hp').
      assert (Hgoal : let '(s'', cursor'', envelopes, more, m) := chunk_steps n s1 cursor' in
        trims s s'' ∧ passed s'' cursor'' ∧ left_to_trim s'' + S m ≤ left_to_trim s ∧ (S m = 0 → S n = 0 ∨ left_to_trim s = 0)).
      { destruct (chunk_steps n s1 cursor') as [[[[s'' cursor''] es] more] m].
        destruct IH as (H1 & H2 & H3 & _). split_and!; [by eapply trims_trans|done|lia|done]. }
      destruct (chunk_steps n s1 cursor') as [[[[s'' cursor''] es] more] m].
      destruct e as [e|], cs as [|c cs]; done.
Qed.

(** Deleting rows touches neither tombstones nor the checkpoints' rows. *)
Definition same_books (s s' : Store) : Prop :=
  t_tombstones s' = t_tombstones s ∧ t_checkpoints s' = t_checkpoints s.

Lemma delete_same_books es cs s : same_books s (delete_dropped_rows es cs s).
Proof.
  unfold delete_dropped_rows, same_books. revert s. induction cs as [|c cs IH]; intros s; simpl;
    [|by destruct (IH (delete_claim s c)) as [-> ->]].
  revert s. induction es as [|e es IH]; intros s; simpl; [done|].
  by destruct (IH (delete_envelope s e)) as [-> ->].
Qed.

Lemma chunk_same_books n s cursor : same_books s (chunk_steps n s cursor).1.1.1.1.
Proof.
  revert s cursor. induction n as [|n IH]; intros s cursor; simpl; [done|].
  destruct (next_trim_rows s cursor) as [[e cs] cursor'].
  assert (Hgo : same_books s (let '(s'', cursor'', es, more, m) :=
    chunk_steps n (delete_dropped_rows (option_list e) cs s) cursor' in
    (s'', cursor'', option_list e ++ es, cs ++ more, S m)).1.1.1.1).
  { specialize (IH (delete_dropped_rows (option_list e) cs s) cursor').
    destruct (chunk_steps n _ cursor') as [[[[? ?] ?] ?] ?]. cbn in *.
    destruct (delete_same_books (option_list e) cs s) as [E1 E2], IH as [E3 E4]. split; congruence. }
  destruct e, cs; done.
Qed.

Lemma trim_chunks_books weather most before checkpoint s cursor ne nc :
  let r := trim_chunks weather most before checkpoint s cursor ne nc in
  ∃ s1, same_books s s1 ∧
    (r = TrimStops s1 ∨ (∃ a, r = TrimEnds (mark_trimmed checkpoint s1) a)
     ∨ ∃ a, r = TrimEnds (set_checkpoint_state checkpoint 0 "graph-changed" s1) a).
Proof.
  revert s cursor ne nc. induction weather as [|w weather IH]; intros s cursor ne nc; simpl.
  - exists s. split; [done|by left].
  - pose proof (chunk_same_books (most `min` cw_in_budget w) s cursor) as Hb.
    destruct (chunk_steps _ s cursor) as [[[[s' cursor'] es] cs] steps]. cbn in Hb.
    destruct (steps =? 0); [|destruct (cw_graph_changed w)].
    + exists s. split; [done|]. destruct before; eauto.
    + exists s. split; [done|]. eauto.
    + destruct (cw_stops_after w); [exists s'; by eauto|].
      destruct (IH s' cursor' (ne + length es) (nc + length cs)) as (s1 & [E1 E2] & Hr).
      exists s1. destruct Hb as [E3 E4]. split; [split; congruence|done].
Qed.

(** ** Whole trims *)

Definition end_store (e : TrimEnd) : Store := match e with TrimEnds s _ => s | TrimStops s => s end.

(** Whatever a trim meets, it has deleted only what tombstones stand for. *)
Lemma trim_chunks_trim weather most before checkpoint s cursor ne nc :
  passed s cursor →
  let r := trim_chunks weather most before checkpoint s cursor ne nc in
  ∃ s1, trims s s1 ∧
    (r = TrimStops s1 ∨ (∃ a, r = TrimEnds (mark_trimmed checkpoint s1) a)
     ∨ ∃ a, r = TrimEnds (set_checkpoint_state checkpoint 0 "graph-changed" s1) a).
Proof.
  revert s cursor ne nc. induction weather as [|w weather IH]; intros s cursor ne nc Hp; simpl.
  - exists s. split; [apply trims_refl|by left].
  - pose proof (chunk_steps_trim (most `min` cw_in_budget w) s cursor Hp) as Hc.
    destruct (chunk_steps _ s cursor) as [[[[s' cursor'] es] cs] steps].
    destruct Hc as (Ht & Hp' & _ & _). destruct (steps =? 0); [|destruct (cw_graph_changed w)].
    + exists s. split; [apply trims_refl|]. destruct before; eauto.
    + exists s. split; [apply trims_refl|]. eauto.
    + destruct (cw_stops_after w); [exists s'; by eauto|].
      destruct (IH s' cursor' (ne + length es) (nc + length cs) Hp') as (s1 & Ht1 & Hr).
      exists s1. split; [by eapply trims_trans|done].
Qed.

(** Weather in which every chunk can start a row and nothing goes wrong. *)
Definition fair (w : ChunkWeather) : Prop :=
  0 < cw_in_budget w ∧ cw_graph_changed w = false ∧ cw_stops_after w = false.

Lemma trim_chunks_complete weather most checkpoint s cursor ne nc :
  0 < most → Forall fair weather → left_to_trim s < length weather → passed s cursor →
  ∃ s1 ne' nc', trims s s1 ∧ left_to_trim s1 = 0 ∧
    trim_chunks weather most false checkpoint s cursor ne nc
    = TrimEnds (mark_trimmed checkpoint s1) (Trimmed checkpoint ne' nc').
Proof.
  intros Hmost Hfair. revert s cursor ne nc.
  induction Hfair as [|w weather (Hb & Hg & Hs) _ IH]; intros s cursor ne nc Hlen Hp; simpl in *; [lia|].
  pose proof (chunk_steps_trim (most `min` cw_in_budget w) s cursor Hp) as Hc.
  destruct (chunk_steps _ s cursor) as [[[[s' cursor'] es] cs] steps].
  destruct Hc as (Ht & Hp' & Hle & Hz). destruct (Nat.eqb_spec steps 0) as [E|E].
  - exists s, ne, nc. split_and!; [apply trims_refl| |done]. destruct (Hz E); [lia|done].
  - rewrite Hg, Hs. destruct (IH s' cursor' (ne + length es) (nc + length cs)) as (s1 & ne' & nc' & Ht1 & Hz1 & Hr);
      [lia|done|]. exists s1, ne', nc'. split_and!; [by eapply trims_trans|done..].
Qed.

(** The rows of [s] without those its tombstones stand for. *)
Definition trimmed_rows (s s' : Store) : Prop :=
  let gone k := bool_decide (k ∈ tombstoned_keys s) && holds_envelope s k in
  t_claims s' = List.filter (λ r, negb (bool_decide (row_id r ∈ tombstoned_ids s))) (t_claims s) ∧
  t_envelopes s' = List.filter (λ r, negb (bool_decide (er_key r ∈ tombstoned_keys s))) (t_envelopes s) ∧
  t_records s' = List.filter (λ k, negb (gone k)) (t_records s) ∧
  t_signatures s' = List.filter (λ k, negb (gone k)) (t_signatures s) ∧
  t_holds s' = List.filter (λ k, negb (gone k)) (t_holds s) ∧
  t_tombstones s' = t_tombstones s ∧
  ∀ b, b ∈ t_batches s → named_batch s' b → b ∈ t_batches s'.

Lemma trims_complete s s1 : trims s s1 → left_to_trim s1 = 0 → trimmed_rows s s1.
Proof.
  intros (Ht & _ & _ & Hb & pc & pe & Ec & Ee & Er & Es & Eh & Hpc & Hpe) [Hke Hkc]%left_zero.
  unfold tombstoned_keys, tombstoned_ids in Hke, Hkc. rewrite Ht in Hke, Hkc.
  assert (Hc : ∀ r, r ∈ t_claims s → pc (row_id r) = negb (bool_decide (row_id r ∈ tombstoned_ids s))).
  { intros r Hr. case_bool_decide as Hin; simpl.
    - destruct (pc (row_id r)) eqn:E; [|done]. specialize (Hkc _ Hin).
      rewrite (holds_after_filter_claims s s1 pc _ Ec), E, andb_true_r in Hkc.
      apply not_true_iff_false in Hkc. destruct Hkc. apply holds_claim_spec, list_elem_of_fmap. eauto.
    - apply not_false_is_true. intros E. by apply Hin, Hpc. }
  assert (Hk : ∀ k, pe k = negb (bool_decide (k ∈ tombstoned_keys s) && holds_envelope s k)).
  { intros k. destruct (pe k) eqn:E.
    - destruct (bool_decide (k ∈ tombstoned_keys s)) eqn:Hin; [|done]. apply bool_decide_eq_true in Hin.
      destruct (holds_envelope s k) eqn:Hh; [|done]. specialize (Hke k Hin).
      apply not_true_iff_false in Hke. destruct Hke. rewrite holds_envelope_spec, Ee in *.
      apply list_elem_of_fmap in Hh as (r & -> & Hr). apply list_elem_of_fmap. exists r.
      split; [done|]. by apply lfilter_elem.
    - destruct (Hpe k E) as [Hin Hh]. by rewrite bool_decide_true, Hh. }
  unfold trimmed_rows. rewrite Ec, Ee, Er, Es, Eh. split_and!; try done.
  - apply List.filter_ext_in. intros r Hr. apply Hc. by apply list_elem_of_In.
  - apply List.filter_ext_in. intros r Hr. rewrite Hk.
    assert (holds_envelope s (er_key r) = true) as ->; [|by rewrite andb_true_r].
    apply holds_envelope_spec, list_elem_of_fmap. exists r. split; [done|by apply list_elem_of_In].
  - apply List.filter_ext. apply Hk.
  - apply List.filter_ext. apply Hk.
  - apply List.filter_ext. apply Hk.
Qed.

(** Tombstones as the store writes them: each once, of a named writer and claim. *)
Definition store_ok (s : Store) : Prop :=
  NoDup (map er_key (t_envelopes s)) ∧ NoDup (tombstoned_keys s) ∧
  (∀ k, k ∈ tombstoned_keys s → ek_writer k ≠ "") ∧ (∀ id, id ∈ tombstoned_ids s → id ≠ "").

Lemma empty_least x : x ≠ "" → String.compare "" x = Lt.
Proof. by destruct x. Qed.

Lemma default_cursor_passed s : store_ok s → passed s default_cursor.
Proof.
  intros (_ & _ & Hk & Hid). split.
  - intros k Hin _. split; [done|]. specialize (Hk k Hin). unfold EnvelopeKey_compare. cbn.
    by destruct (ek_writer k).
  - intros id Hin _. by apply empty_least, Hid.
Qed.

Lemma trims_ok s0 s : store_ok s0 → trims s0 s → store_ok s.
Proof.
  intros (H1 & H2 & H3 & H4) (Ht & _ & _ & _ & pc & pe & _ & Ee & _).
  unfold store_ok, tombstoned_keys, tombstoned_ids in *. rewrite Ht, Ee. split_and!; try done.
  by apply (NoDup_map_filter er_key).
Qed.

(** ** The inventory *)

Lemma elem_of_inventory s k :
  k ∈ inventory s ↔ k ∈ map er_key (t_envelopes s) ∨ k ∈ tombstoned_keys s.
Proof.
  unfold inventory. rewrite elem_of_sort_by, elem_of_app, lfilter_elem, negb_true_iff.
  rewrite <- holds_envelope_spec. unfold tombstoned_keys.
  destruct (holds_envelope s k); naive_solver.
Qed.

Lemma inventory_sorted s : store_ok s →
  StronglySorted (λ a b, EnvelopeKey_compare a b = Lt) (inventory s).
Proof.
  intros (H1 & H2 & _). unfold inventory.
  apply (rows_in_order_sorted EnvelopeKey_compare (λ k, k)). rewrite map_id. apply NoDup_app.
  split_and!; [done| |].
  - intros k Hk [_ Hn]%lfilter_elem. apply negb_true_iff in Hn. by rewrite (proj2 (holds_envelope_spec s k) Hk) in Hn.
  - rewrite <- (map_id (List.filter _ _)). apply (NoDup_map_filter (λ k, k)). by rewrite map_id.
Qed.

Lemma inventory_ext s s' : store_ok s → store_ok s' →
  (∀ k, k ∈ map er_key (t_envelopes s') ∨ k ∈ tombstoned_keys s' ↔
        k ∈ map er_key (t_envelopes s) ∨ k ∈ tombstoned_keys s) → inventory s' = inventory s.
Proof.
  intros Hok Hok' Hext. apply (sorted_ext EnvelopeKey_compare); [by apply inventory_sorted..|].
  intros k. by rewrite !elem_of_inventory.
Qed.

Lemma trims_inventory s0 s : store_ok s0 → trims s0 s → inventory s = inventory s0.
Proof.
  intros Hok Ht. apply inventory_ext; [done|by eapply trims_ok|].
  destruct Ht as (Etomb & _ & _ & _ & pc & pe & _ & Ee & _ & _ & _ & _ & Hpe).
  unfold tombstoned_keys in *. intros k. rewrite Etomb, Ee. split.
  - intros [(r & -> & [Hr _]%lfilter_elem)%list_elem_of_fmap|?]; [|by right].
    left. apply list_elem_of_fmap. eauto.
  - intros [(r & -> & Hr)%list_elem_of_fmap|?]; [|by right].
    destruct (pe (er_key r)) eqn:E; [|right; by apply Hpe].
    left. apply list_elem_of_fmap. exists r. split; [done|]. by apply lfilter_elem.
Qed.

Lemma insert_or_ignore_fold {A K} `{EqDecision K} (key : A → K) new rows :
  (∀ k, k ∈ map key (fold_left (insert_or_ignore key) new rows) ↔ k ∈ map key rows ∨ k ∈ map key new) ∧
  (NoDup (map key rows) → NoDup (map key (fold_left (insert_or_ignore key) new rows))).
Proof.
  revert rows. induction new as [|x new IH]; intros rows; simpl.
  - split; [|done]. intros k. split; [by left|]. intros [?|?%elem_of_nil]; done.
  - destruct (IH (insert_or_ignore key rows x)) as [Hin Hnd]. unfold insert_or_ignore in *.
    case_bool_decide as Hx.
    + split; [|done]. intros k. rewrite Hin, elem_of_cons. naive_solver.
    + rewrite map_app in *. simpl in *. split.
      * intros k. rewrite Hin, elem_of_app, list_elem_of_singleton, elem_of_cons. tauto.
      * intros Hrows. apply Hnd, NoDup_app. split_and!; [done| |apply NoDup_singleton].
        intros k Hk ->%list_elem_of_singleton. done.
Qed.

Lemma begin_trim_keys checkpoint cut digest es cs s k :
  k ∈ tombstoned_keys (begin_trim checkpoint cut digest es cs false s) ↔
  k ∈ tombstoned_keys s ∨ k ∈ map et_key es.
Proof.
  unfold tombstoned_keys. cbn.
  rewrite (proj1 (insert_or_ignore_fold (λ row : EnvelopeTombstone * string, et_key row.1) _ _)).
  by rewrite map_map.
Qed.

Lemma begin_trim_ids checkpoint cut digest es cs s id :
  id ∈ tombstoned_ids (begin_trim checkpoint cut digest es cs false s) ↔
  id ∈ tombstoned_ids s ∨ id ∈ map tb_id cs.
Proof.
  unfold tombstoned_ids. cbn.
  rewrite (proj1 (insert_or_ignore_fold (λ row : ClaimTombstone * string, tb_id row.1) _ _)).
  by rewrite map_map.
Qed.

Lemma begin_trim_ok checkpoint cut digest es cs s :
  store_ok s → (∀ k, k ∈ map et_key es → ek_writer k ≠ "") → (∀ id, id ∈ map tb_id cs → id ≠ "") →
  store_ok (begin_trim checkpoint cut digest es cs false s).
Proof.
  intros (H1 & H2 & H3 & H4) He Hc. split_and!; [done| | |].
  - unfold tombstoned_keys. cbn. by apply insert_or_ignore_fold.
  - intros k [?|?]%begin_trim_keys; [by apply H3|by apply He].
  - intros id [?|?]%begin_trim_ids; [by apply H4|by apply Hc].
Qed.

Lemma keep_only_NoDup {A K} (key : A → K) keep (rows : list A) :
  NoDup (map key rows) → NoDup (map key (List.filter keep rows)).
Proof.
  induction rows as [|x rows IH]; [done|]. cbn. intros [Hx Hnd]%NoDup_cons. destruct (keep x); [|by apply IH].
  cbn. apply NoDup_cons. split; [|by apply IH]. intros (y & E & [Hy _]%lfilter_elem)%list_elem_of_fmap. apply Hx.
  rewrite E. apply list_elem_of_fmap. by exists y.
Qed.

(** Adoption leaves no tombstones but the given ones. *)
Lemma begin_exact_trim_keys checkpoint cut digest es cs s k :
  k ∈ tombstoned_keys (begin_trim checkpoint cut digest es cs true s) ↔ k ∈ map et_key es.
Proof.
  unfold tombstoned_keys. cbn.
  rewrite (proj1 (insert_or_ignore_fold (λ row : EnvelopeTombstone * string, et_key row.1) _ _)).
  rewrite map_map. cbn [fst]. split; [|by right]. intros [(row & -> & [_ Hk%bool_decide_eq_true]%lfilter_elem)%list_elem_of_fmap|?]; done.
Qed.

Lemma begin_exact_trim_ok checkpoint cut digest es cs s :
  store_ok s → (∀ k, k ∈ map et_key es → ek_writer k ≠ "") → (∀ id, id ∈ map tb_id cs → id ≠ "") →
  store_ok (begin_trim checkpoint cut digest es cs true s).
Proof.
  intros (H1 & H2 & H3 & H4) He Hc. split_and!; [done| | |].
  - unfold tombstoned_keys. cbn. by apply insert_or_ignore_fold, keep_only_NoDup.
  - intros k Hk%begin_exact_trim_keys. by apply He.
  - intros id. unfold tombstoned_ids. cbn.
    rewrite (proj1 (insert_or_ignore_fold (λ row : ClaimTombstone * string, tb_id row.1) _ _)), map_map. cbn [fst].
    intros [(row & -> & [_ Hid%bool_decide_eq_true]%lfilter_elem)%list_elem_of_fmap|?]; by apply Hc.
Qed.

(** What a trim leaves of the inventory, settled when it begins. *)
Lemma begun_inventory checkpoint cut digest es cs exact s k :
  k ∈ inventory (begin_trim checkpoint cut digest es cs exact s) ↔
  k ∈ map er_key (t_envelopes s) ∨ k ∈ map et_key es ∨ (exact = false ∧ k ∈ tombstoned_keys s).
Proof.
  rewrite elem_of_inventory. change (t_envelopes (begin_trim _ _ _ _ _ _ _)) with (t_envelopes s).
  destruct exact; [rewrite begin_exact_trim_keys|rewrite begin_trim_keys]; naive_solver.
Qed.

Lemma end_store_rows (P : Store → Prop) s r checkpoint :
  (∀ a b, t_envelopes a = t_envelopes b → t_tombstones a = t_tombstones b → P a → P b) →
  (∃ s1, trims s s1 ∧ (r = TrimStops s1 ∨ (∃ a, r = TrimEnds (mark_trimmed checkpoint s1) a)
     ∨ ∃ a, r = TrimEnds (set_checkpoint_state checkpoint 0 "graph-changed" s1) a)) →
  (∀ s1, trims s s1 → P s1) → P (end_store r).
Proof.
  intros Hext (s1 & Ht & [->|[[a ->]|[a ->]]]) HP; cbn; [by apply HP|..];
    (apply (Hext s1); [done|done|by apply HP]).
Qed.

(** The tables a trim goes on from once begun, and the inventory it keeps from there to its end. *)
Lemma trimmed_inventory weather most after_tombstones before_finish checkpoint cut digest es cs exact s :
  store_ok s → (∀ k, k ∈ map et_key es → ek_writer k ≠ "") → (∀ id, id ∈ map tb_id cs → id ≠ "") →
  let s1 := begin_trim checkpoint cut digest es cs exact s in
  store_ok s1 ∧
  inventory (end_store (trim_checkpoint weather most after_tombstones before_finish checkpoint cut digest es cs exact s))
  = inventory s1.
Proof.
  intros Hok He Hc s1.
  assert (Hok1 : store_ok s1) by (unfold s1; destruct exact; [by apply begin_exact_trim_ok|by apply begin_trim_ok]).
  split; [done|]. unfold trim_checkpoint. fold s1. destruct after_tombstones; [done|].
  apply (end_store_rows (λ x, inventory x = inventory s1) s1 _ checkpoint).
  - intros a b Hr Ht <-. unfold inventory, holds_envelope. by rewrite Hr, Ht.
  - apply trim_chunks_trim, default_cursor_passed, Hok1.
  - intros s2 Ht. by apply trims_inventory.
Qed.

(** ** The properties of a trim *)

(** C11. In a store with one row and one tombstone at most for an envelope, and no unnamed writers or claims, the inventory of a
    trim is settled when it begins: whatever the clock allows each chunk, wherever the process stops
    and however the trim ends, it lists exactly the envelopes stored before, those the trim
    drops and, in a trim of the node's own plan, those with a tombstone already; so when such a trim drops
    only what was listed, the inventory is the same as before and peers cannot tell. A trim that adopts
    another node's checkpoint forgets every tombstone that is not the checkpoint's, and what only
    those listed leaves the inventory. *)
Theorem trim_keeps_the_inventory weather most after_tombstones before_finish checkpoint cut digest
    envelopes claims exact s :
  store_ok s → (∀ t, t ∈ envelopes → et_writer t ≠ "") → (∀ t, t ∈ claims → tb_id t ≠ "") →
  let s' := end_store (trim_checkpoint weather most after_tombstones before_finish checkpoint cut digest
                         envelopes claims exact s) in
  (∀ k, k ∈ inventory s' ↔
        k ∈ map er_key (t_envelopes s) ∨ k ∈ map et_key envelopes ∨ (exact = false ∧ k ∈ tombstoned_keys s)) ∧
  (exact = false → (∀ t, t ∈ envelopes → et_key t ∈ inventory s) → inventory s' = inventory s).
Proof.
  intros Hok Henv Hclaims.
  destruct (trimmed_inventory weather most after_tombstones before_finish checkpoint cut digest envelopes claims exact s)
    as [Hok1 E]; [done|by intros k (t & -> & ?%Henv)%list_elem_of_fmap|by intros id (t & -> & ?%Hclaims)%list_elem_of_fmap|].
  cbv zeta. rewrite E. split; [intros k; apply begun_inventory|]. intros -> Hin.
  apply inventory_ext; [done..|]. intros k. rewrite <- !elem_of_inventory, begun_inventory, elem_of_inventory. split; [|tauto].
  intros [?|[(t & -> & Ht)%list_elem_of_fmap|[_ ?]]]; [by left|by apply elem_of_inventory, Hin|by right].
Qed.

(** C15. A trim ends, and ends the same wherever it was interrupted: from any point a crash leaves it,
    enough chunks that can each start a row leave exactly the rows no tombstone stands for, with
    the batches they name, and the checkpoint marked trimmed. *)
Theorem interrupted_trims_finish before most before_finish checkpoint s s1 weather :
  store_ok s → 0 < most →
  finish_trim before most before_finish checkpoint s = TrimStops s1 →
  Forall fair weather → left_to_trim s1 < length weather →
  ∃ s2 envelopes claims,
    finish_trim weather most false checkpoint s1
    = TrimEnds (mark_trimmed checkpoint s2) (Trimmed checkpoint envelopes claims) ∧
    trimmed_rows s s2.
Proof.
  intros Hok Hmost Hstop Hfair Hlen.
  destruct (trim_chunks_trim before most before_finish checkpoint s default_cursor 0 0
              (default_cursor_passed s Hok)) as (s0 & Ht & Hr).
  unfold finish_trim in Hstop. rewrite Hstop in Hr.
  assert (s0 = s1) as -> by (destruct Hr as [[= ->]|[[a [=]]|[a [=]]]]; done).
  pose proof (trims_ok _ _ Hok Ht) as Hok1.
  destruct (trim_chunks_complete weather most checkpoint s1 default_cursor 0 0 Hmost Hfair Hlen
              (default_cursor_passed s1 Hok1)) as (s2 & ne & nc & Ht2 & Hz & Hr2).
  exists s2, ne, nc. split; [done|]. apply trims_complete; [|done]. by eapply trims_trans.
Qed.

(** [finish_trim] measures a chunk's time from before it reads the graph's generation, and takes a
    chunk that deleted nothing for the end. A chunk that finds its time spent before its first row
    marks the checkpoint trimmed with every row still there. *)
Theorem spent_budget_ends_a_trim most before_weather checkpoint s :
  finish_trim (mkChunkWeather 0 false false :: before_weather) most false checkpoint s
  = TrimEnds (mark_trimmed checkpoint s) (Trimmed checkpoint 0 0).
Proof. unfold finish_trim. simpl. by rewrite Nat.min_0_r. Qed.

(** ** The properties of applying and adopting *)

Section applying.
Context `{NumberApi}.
Context (checkpoint_name : Z → string).
Context (sha256 : list ascii → list ascii) (hex : list ascii → string).

Lemma keep_only_then_record_keys checkpoint es cs t k :
  k ∈ map (λ row, et_key row.1)
        (checkpoint_envelopes (record_checkpoint_tombstones checkpoint es cs (keep_only_tombstones es cs t)))
  ↔ k ∈ map et_key es.
Proof.
  cbn. rewrite (proj1 (insert_or_ignore_fold (λ row : EnvelopeTombstone * string, et_key row.1) _ _)).
  rewrite map_map. simpl. split; [|by right].
  intros [(row & -> & [_ Hin%bool_decide_eq_true]%lfilter_elem)%list_elem_of_fmap|?]; done.
Qed.

Lemma keep_only_then_record_ids checkpoint es cs t id :
  id ∈ map (λ row, tb_id row.1)
         (checkpoint_claims (record_checkpoint_tombstones checkpoint es cs (keep_only_tombstones es cs t)))
  ↔ id ∈ map tb_id cs.
Proof.
  cbn. rewrite (proj1 (insert_or_ignore_fold (λ row : ClaimTombstone * string, tb_id row.1) _ _)).
  rewrite map_map. simpl. split; [|by right].
  intros [(row & -> & [_ Hin%bool_decide_eq_true]%lfilter_elem)%list_elem_of_fmap|?]; done.
Qed.
(** A manifest reaches the store only past every check: it is the newest stable checkpoint, at the
    cut and with the drop digest of the certificate every node applies, well formed; and then, as
    far as the trim gets, the node's tombstones are exactly the manifest's. Every refusal leaves
    the store alone and says which check failed. *)
Theorem adoption_is_checked weather most claims manifest s :
  match adopt_checkpoint checkpoint_name sha256 hex weather most claims manifest s with
  | AdoptRefused e =>
      (err_code e = "checkpoint-superseded" ∧
       ∃ newest, newest_stable_cut checkpoint_name claims = Some newest ∧ (mf_cut_unix_ms manifest < newest)%Z) ∨
      (err_code e = "checkpoint-not-stable" ∧ certificates checkpoint_name claims (mf_checkpoint manifest) = []) ∨
      ∃ cert, chosen_certificate (certificates checkpoint_name claims (mf_checkpoint manifest)) = Some cert ∧
        ((err_code e = "checkpoint-manifest-invalid" ∧
          (vt_cut_unix_ms (ct_terms cert) ≠ mf_cut_unix_ms manifest ∨ ¬ manifest_well_formed manifest)) ∨
         (err_code e = "checkpoint-manifest-mismatch" ∧
          drop_digest sha256 hex (mf_envelopes manifest) (mf_claims manifest) ≠ vt_drop_digest (ct_terms cert)))
  | Adopted s' _ | AdoptStops s' =>
      ∃ cert, chosen_certificate (certificates checkpoint_name claims (mf_checkpoint manifest)) = Some cert ∧
        vt_cut_unix_ms (ct_terms cert) = mf_cut_unix_ms manifest ∧ manifest_well_formed manifest ∧
        drop_digest sha256 hex (mf_envelopes manifest) (mf_claims manifest) = vt_drop_digest (ct_terms cert) ∧
        ((s' = s ∧ applied (t_checkpoints s) (mf_cut_unix_ms manifest) (vt_drop_digest (ct_terms cert)) = true) ∨
         ((∀ k, k ∈ tombstoned_keys s' ↔ k ∈ map et_key (mf_envelopes manifest)) ∧
          (∀ id, id ∈ tombstoned_ids s' ↔ id ∈ map tb_id (mf_claims manifest))))
  end.
Proof.
  unfold adopt_checkpoint, adopt_checkpoint_checked. simpl andb.
  destruct (newest_stable_cut checkpoint_name claims) as [newest|] eqn:Hn; cbn [is_some_and].
  1: destruct (Z.ltb_spec (mf_cut_unix_ms manifest) newest) as [Hlt|_]; [left; eauto|].
  all: destruct (chosen_certificate _) as [cert|] eqn:Hc;
    [|right; left; split; [done|]; by destruct (certificates _ _ _)].
  all: destruct (Z.eqb_spec (vt_cut_unix_ms (ct_terms cert)) (mf_cut_unix_ms manifest)) as [Hcut|Hcut]; simpl negb; cbn match;
    [|do 2 right; exists cert; split; [done|]; left; split; [done|by left]].
  all: pose proof (verify_manifest_cases sha256 hex manifest (vt_drop_digest (ct_terms cert))) as Hv.
  all: destruct (verify_checkpoint_manifest _ _ _ _) as [[]|e];
    [|do 2 right; exists cert; split; [done|]; destruct Hv as [[? ?]|(? & _ & ?)]; [left; split; [done|by right]|by right]].
  all: destruct Hv as [Hwf Hd]; destruct (applied _ _ _) eqn:Ha; [exists cert; split_and!; try done; by left|].
  all: unfold trim_checkpoint, finish_trim.
  all: set (s1 := begin_trim _ _ _ _ _ true s).
  all: destruct (trim_chunks_books weather most false (mf_checkpoint manifest) s1 default_cursor 0 0)
    as (s2 & [Et _] & Hr).
  all: assert (Hkeys : (∀ k, k ∈ tombstoned_keys s2 ↔ k ∈ map et_key (mf_envelopes manifest)) ∧
    (∀ id, id ∈ tombstoned_ids s2 ↔ id ∈ map tb_id (mf_claims manifest)))
    by (unfold tombstoned_keys, tombstoned_ids; rewrite Et; split; intros x;
        [apply keep_only_then_record_keys|apply keep_only_then_record_ids]).
  all: destruct Hr as [->|[[a ->]|[a ->]]]; exists cert; split_and!; try done; right; exact Hkeys.
Qed.

Lemma find_trimming_row checkpoint cut digest es cs exact s :
  (∀ r, r ∈ t_checkpoints s → ck_id r = checkpoint → ck_cut_unix_ms r = cut) →
  ∃ r, r ∈ t_checkpoints (begin_trim checkpoint cut digest es cs exact s) ∧ ck_id r = checkpoint ∧
       ck_cut_unix_ms r = cut ∧ ck_drop_digest r = Some digest.
Proof.
  intros Hcut. cbn. destruct (existsb _ _) eqn:Hex.
  - apply existsb_true_elem in Hex as (r & Hr & Hid). pose proof Hid as Hid'. apply str_eqb_true in Hid'.
    eexists. split; [apply list_elem_of_fmap; exists r; split; [reflexivity|done]|]. rewrite Hid. cbn. auto.
  - eexists. split; [apply elem_of_app; right; left|]. done.
Qed.

(** A trim that ends has applied its checkpoint, or stopped checkpoints until a person looks. *)
Lemma ended_trim_applied weather most checkpoint cut digest es cs exact s s' a :
  (∀ r, r ∈ t_checkpoints s → ck_id r = checkpoint → ck_cut_unix_ms r = cut) →
  trim_checkpoint weather most false false checkpoint cut digest es cs exact s = TrimEnds s' a →
  applied (t_checkpoints s') cut digest = true.
Proof.
  intros Hcut. unfold trim_checkpoint, finish_trim.
  destruct (find_trimming_row checkpoint cut digest es cs exact s Hcut) as (r & Hr & Hid & Hrc & Hrd).
  destruct (trim_chunks_books weather most false checkpoint (begin_trim checkpoint cut digest es cs exact s)
    default_cursor 0 0) as (s1 & [_ Ec] & [->|[[a' ->]|[a' ->]]]); [done|..]; intros [= <- <-];
    rewrite <- Ec in Hr; apply existsb_true_elem.
  - eexists. split; [apply list_elem_of_fmap; exists r; split; [reflexivity|done]|].
    rewrite (proj2 (str_eqb_true _ _) Hid). cbn. rewrite Hrc, Hrd, Z.eqb_refl.
    rewrite (proj2 (ostr_eqb_true _ _) eq_refl). by rewrite !orb_true_r.
  - cbn. assert (existsb (λ r, str_eqb (ck_id r) checkpoint) (t_checkpoints s1) = true) as ->.
    { apply existsb_true_elem. exists r. by rewrite str_eqb_true. }
    eexists. split; [apply list_elem_of_fmap; exists r; split; [reflexivity|done]|].
    rewrite (proj2 (str_eqb_true _ _) Hid). cbn. rewrite Hrc, Z.leb_refl. by rewrite orb_true_r.
Qed.
Definition names_and_cuts (s : Store) : list (string * Z) :=
  map (λ r, (ck_id r, ck_cut_unix_ms r)) (t_checkpoints s).

Lemma finish_names_and_cuts weather most checkpoint s :
  checkpoint ∈ map ck_id (t_checkpoints s) →
  names_and_cuts (end_store (finish_trim weather most false checkpoint s)) = names_and_cuts s.
Proof.
  intros Hin. unfold finish_trim.
  destruct (trim_chunks_books weather most false checkpoint s default_cursor 0 0)
    as (s1 & [_ Ec] & [->|[[a ->]|[a ->]]]); unfold names_and_cuts; cbn; rewrite Ec; [done|..].
  - rewrite map_map. apply map_ext. intros r. by destruct (str_eqb (ck_id r) checkpoint).
  - assert (existsb (λ r, str_eqb (ck_id r) checkpoint) (t_checkpoints s) = true) as ->.
    { apply existsb_true_elem. apply list_elem_of_fmap in Hin as (r & -> & Hr). exists r.
      by rewrite str_eqb_refl. }
    rewrite map_map. apply map_ext. intros r. by destruct (str_eqb (ck_id r) checkpoint).
Qed.

Lemma interrupted_names_and_cuts weather most names s actions s' actions' need :
  (∀ c, c ∈ names → c ∈ map ck_id (t_checkpoints s)) →
  finish_interrupted (λ c s, finish_trim (weather c) most false c s) names s actions = Applied s' actions' need →
  names_and_cuts s' = names_and_cuts s.
Proof.
  revert s actions. induction names as [|c names IH]; intros s actions Hn; simpl; [by intros [= -> _ _]|].
  pose proof (finish_names_and_cuts (weather c) most c s (Hn c ltac:(left))) as Hf.
  destruct (finish_trim (weather c) most false c s) as [s1 a|s1]; [|done]. cbn in Hf. intros Hr.
  rewrite (IH s1 _ ltac:(intros c' Hc'; assert (map ck_id (t_checkpoints s1) = map ck_id (t_checkpoints s)) as ->
    by (apply (f_equal (map fst)) in Hf; unfold names_and_cuts in Hf; by rewrite !map_map in Hf);
    apply Hn; by right) Hr). done.
Qed.

(** A pass that goes on to seal or verify has applied the newest stable checkpoint: when applying
    ends without asking for a manifest, the certificate every node applies is applied here, or a
    stopped trim holds checkpoints up. *)
Theorem newest_checkpoint_is_applied_first weather most plan_through origin claims s s' actions cut certs cert :
  last (stable_checkpoints checkpoint_name claims) = Some (cut, certs) →
  chosen_certificate certs = Some cert → vt_cut_unix_ms (ct_terms cert) = cut →
  (∀ r, r ∈ t_checkpoints s → ck_id r = checkpoint_name cut → ck_cut_unix_ms r = cut) →
  apply_stable_checkpoints checkpoint_name weather most plan_through origin claims s = Applied s' actions None →
  applied (t_checkpoints s') cut (vt_drop_digest (ct_terms cert)) = true.
Proof.
  intros Hlast Hcert Hcut Hrows. unfold apply_stable_checkpoints.
  destruct (finish_interrupted _ (trimming s) s []) as [s1 actions1 need1|s1] eqn:Hint; [|done].
  assert (Hnames : names_and_cuts s1 = names_and_cuts s).
  { eapply interrupted_names_and_cuts; [|exact Hint]. intros c. unfold trimming.
    rewrite elem_of_sort_by. intros (r & -> & [Hr _]%lfilter_elem)%list_elem_of_fmap.
    apply list_elem_of_fmap. eauto. }
  assert (Hrows1 : ∀ r, r ∈ t_checkpoints s1 → ck_id r = checkpoint_name cut → ck_cut_unix_ms r = cut).
  { intros r Hr Hid. assert ((ck_id r, ck_cut_unix_ms r) ∈ names_and_cuts s) as Hin.
    { rewrite <- Hnames. apply list_elem_of_fmap. eauto. }
    apply list_elem_of_fmap in Hin as (r0 & [= E1 E2] & Hr0). rewrite E2. apply Hrows; [done|congruence]. }
  unfold newest_application. rewrite Hlast, Hcert.
  destruct (applied (t_checkpoints s1) cut _) eqn:Ha; [by intros [= <- _ ]|].
  destruct (ct_verifications cert !! origin); [|done].
  destruct (local_checkpoint _ _) as [[state [seal_rowid|]]|]; [|done..].
  destruct (negb (str_eqb state "plan-changed")); [|done].
  destruct (str_eqb _ _ && str_eqb _ _) eqn:Hd; [|done]. apply andb_prop in Hd as [_ Hd%str_eqb_true].
  rewrite Hd, Hcut. destruct (trim_checkpoint _ _ _ _ _ _ _ _ _ _ _) as [s2 a|s2] eqn:Ht; [|done].
  intros [= <- _]. by eapply ended_trim_applied.
Qed.
End applying.

(** ** Witnesses

    A store that holds two envelopes, one of which a checkpoint drops. *)

Definition example_store : Store :=
  mkStore [mkClaimRow "c1" "b1" 1; mkClaimRow "c2" "b2" 2] [mkOperationRow "o1" "c1"] [1; 2]%Z ["b1"; "b2"]
    [mkEnvelopeRow (mkEnvelopeKey "amy" 1 "e1") (Some "b1"); mkEnvelopeRow (mkEnvelopeKey "amy" 2 "e2") (Some "b2")]
    [mkEnvelopeKey "amy" 1 "e1"; mkEnvelopeKey "amy" 2 "e2"] [] [] (mkTombstoneTables [] []) [] 7.

Lemma example_store_ok : store_ok example_store.
Proof.
  split_and!; try (intros ? ?%elem_of_nil; done).
  - apply (bool_decide_unpack _). vm_compute. exact I.
  - constructor.
Qed.

Definition example_trim (weather : list ChunkWeather) (stops_after_tombstones : bool) : TrimEnd :=
  trim_checkpoint weather 2 stops_after_tombstones false "checkpoint/a" 20 "drop" [one_envelope] [one_claim]
    false example_store.

(** A store with a tombstone of its own adopts a checkpoint that has another. *)
Definition adopting_store : Store :=
  mkStore (t_claims example_store) (t_operations example_store) (t_events example_store) (t_batches example_store)
    (t_envelopes example_store) (t_records example_store) [] []
    (mkTombstoneTables [(mkEnvelopeTombstone "zoe" 9 "e9" 5, "checkpoint/old")] []) [] 7.

Lemma trim_keeps_the_inventory_witness :
  inventory (end_store (example_trim [mkChunkWeather 1 false true] false))
  = [mkEnvelopeKey "amy" 1 "e1"; mkEnvelopeKey "amy" 2 "e2"] ∧
  map er_key (t_envelopes (end_store (example_trim [mkChunkWeather 1 false true] false)))
  = [mkEnvelopeKey "amy" 2 "e2"] ∧
  mkEnvelopeKey "zoe" 9 "e9" ∈ inventory adopting_store ∧
  mkEnvelopeKey "zoe" 9 "e9" ∉ inventory (end_store (trim_checkpoint [mkChunkWeather 1 false true] 2 false false "checkpoint/a" 20
    "drop" [one_envelope] [one_claim] true adopting_store)).
Proof.
  assert (Hnames : (∀ t, t ∈ [one_envelope] → et_writer t ≠ "") ∧ (∀ t, t ∈ [one_claim] → tb_id t ≠ ""))
    by (split; by intros t ->%list_elem_of_singleton).
  destruct Hnames as [He Hc]. split_and!; [|reflexivity|apply (bool_decide_unpack _); vm_compute; exact I|].
  - unfold example_trim.
    rewrite (proj2 (trim_keeps_the_inventory [mkChunkWeather 1 false true] 2 false false "checkpoint/a" 20 "drop"
               [one_envelope] [one_claim] false example_store example_store_ok He Hc) eq_refl); [reflexivity|].
    intros t ->%list_elem_of_singleton. apply elem_of_inventory. left. left.
  - assert (Hok : store_ok adopting_store).
    { split_and!; [apply example_store_ok|apply NoDup_singleton|by intros k ->%list_elem_of_singleton|by intros id ?%elem_of_nil]. }
    rewrite (proj1 (trim_keeps_the_inventory [mkChunkWeather 1 false true] 2 false false "checkpoint/a" 20 "drop"
               [one_envelope] [one_claim] true adopting_store Hok He Hc)).
    intros [H|[H|[H _]]]; [..|done]; revert H; apply (bool_decide_unpack _); vm_compute; exact I.
Defined.

Definition example_begun : Store :=
  begin_trim "checkpoint/a" 20 "drop" [one_envelope] [one_claim] false example_store.

Lemma interrupted_trims_finish_witness :
  ∃ s2 envelopes claims,
    finish_trim [mkChunkWeather 9 false false; mkChunkWeather 9 false false; mkChunkWeather 9 false false]
      2 false "checkpoint/a" example_begun
    = TrimEnds (mark_trimmed "checkpoint/a" s2) (Trimmed "checkpoint/a" envelopes claims) ∧
    trimmed_rows example_begun s2.
Proof.
  apply (interrupted_trims_finish [] 2 false "checkpoint/a" example_begun example_begun).
  - apply begin_trim_ok; [apply example_store_ok| |]; by intros ? ->%list_elem_of_singleton.
  - lia.
  - reflexivity.
  - repeat constructor.
  - vm_compute. lia.
Defined.

(** After the spent chunk the dropped claim is still there, and nothing trims the checkpoint again. *)
Example spent_budget_leaves_rows :
  let s := end_store (example_trim [mkChunkWeather 0 false false] false) in
  map row_id (t_claims s) = ["c1"; "c2"] ∧ left_to_trim s = 2 ∧ trimming s = [] ∧
  applied (t_checkpoints s) 20 "drop" = true.
Proof. vm_compute. done. Qed.

Lemma newest_checkpoint_is_applied_witness :
  applied (t_checkpoints (mark_trimmed (example_name DAY_MS) (begin_trim (example_name DAY_MS) DAY_MS "drop" [] [] false
    example_store))) DAY_MS "drop" = true.
Proof.
  set (N := integer_numbers).
  set (s := begin_trim (example_name DAY_MS) DAY_MS "drop" [] [] false example_store).
  apply (newest_checkpoint_is_applied_first example_name (λ _, [mkChunkWeather 1 false false]) 2
    (λ _ _ _, example_plan) "amy" (certified_fleet "amy") s _
    [Trimmed (example_name DAY_MS) 0 0] DAY_MS [example_certificate] example_certificate).
  - reflexivity.
  - reflexivity.
  - reflexivity.
  - by intros r ->%list_elem_of_singleton.
  - reflexivity.
Defined.
