(* ===== verification/CheckpointOps.v ===== *)
(** * Around a checkpoint: evidence, stops, excusals and status

    The remaining operations of [crates/smallclaims/src/store/checkpoint_agreement.rs] and
    [store/checkpoint/tombstones.rs]: recording a checkpoint's state, what stopped checkpoints and
    a person letting them go on, excusing a writer, the view [st replication checkpoint status]
    shows, dropping in one transaction, and whether evidence may still cite a claim. *)

From Stdlib Require Import Ascii.
From S2P Require Import Prelude StableSort Text Json Bytes Order BTree Framing Claim Hash Checkpoint Membership FleetView CheckpointAgreement CheckpointTrim.

(** [normalize_actor]. *)
Definition normalize_actor (value default_kind : string) : string :=
  if contains_char "/" value then value else default_kind +:+ "/" +:+ value.

(** [str::trim] leaves nothing: every character is Unicode white space, in its UTF-8 bytes. *)
Fixpoint is_blank (s : string) : bool :=
  match s with
  | EmptyString => true
  | String a rest =>
      let white (n m : N) := bool_decide (N_of_ascii a = n) &&
        match rest with String b _ => bool_decide (N_of_ascii b = m) | _ => false end in
      if bool_decide (9 ≤ N_of_ascii a ≤ 13)%N || bool_decide (N_of_ascii a = 32)%N then is_blank rest
      else match rest with
      | String b rest' =>
          if bool_decide (N_of_ascii a = 194)%N
             && (bool_decide (N_of_ascii b = 133)%N || bool_decide (N_of_ascii b = 160)%N)
          then is_blank rest'
          else match rest' with
          | String c rest'' =>
              if (white 225 154 && bool_decide (N_of_ascii c = 128))%N
                 || (white 226 128 && (bool_decide (128 ≤ N_of_ascii c ≤ 138)%N
                                       || bool_decide (N_of_ascii c ∈ [168; 169; 175]%N)))%N
                 || (white 226 129 && bool_decide (N_of_ascii c = 159))%N
                 || (white 227 128 && bool_decide (N_of_ascii c = 128))%N
              then is_blank rest''
              else false
          | EmptyString => false
          end
      | EmptyString => false
      end
  end.

(** ** Checkpoint rows *)

Definition with_checkpoints (s : Store) (rows : list CheckpointRow) : Store :=
  mkStore (t_claims s) (t_operations s) (t_events s) (t_batches s) (t_envelopes s) (t_records s)
    (t_signatures s) (t_holds s) (t_tombstones s) rows (t_claim_sequence s).

Definition record_checkpoint_state (checkpoint : string) (cut_unix_ms : Z) (state : string)
    (sealed : SealedIdentities) (drop_digest : option string) (s : Store) : Store :=
  let rows := t_checkpoints s in
  with_checkpoints s
    (if existsb (λ r, str_eqb (ck_id r) checkpoint) rows
     then map (λ r, if str_eqb (ck_id r) checkpoint
                    then mkCheckpointRow (ck_id r) (ck_cut_unix_ms r) state (Some (si_seal_rowid sealed)) drop_digest
                    else r) rows
     else rows ++ [mkCheckpointRow checkpoint cut_unix_ms state (Some (si_seal_rowid sealed)) drop_digest]).

Definition checkpoint_halted (s : Store) : bool :=
  existsb (λ r, str_eqb (ck_state r) "graph-changed") (t_checkpoints s).

Definition resume_checkpoints `{NumberApi} (actor reason : string) (s : Store) : result Error Store :=
  let actor := normalize_actor actor "person" in
  if negb (starts_with "person/" actor) || is_blank reason
  then Err (mkError "invalid-checkpoint-resume" "a person resumes checkpoints, with a reason")
  else Ok (with_checkpoints s
    (map (λ r, if str_eqb (ck_state r) "graph-changed"
               then mkCheckpointRow (ck_id r) (ck_cut_unix_ms r) "set-aside" (ck_seal_rowid r) (ck_drop_digest r)
               else r) (t_checkpoints s))).

(** ** The simulated clock

    The one row of [temp.write_clock], as [write_time] reads it: an offset and a fixed time. *)
Definition set_write_clock_offset (offset_ms : Z) : option (Z * option Z) := Some (offset_ms, None).
Definition set_write_clock_at (at_unix_ms : Z) : option (Z * option Z) := Some (0%Z, Some at_unix_ms).

(** ** Excusing a writer *)

Record CheckpointExcuseRequest := mkCheckpointExcuseRequest {
  xr_writer : string;
  xr_reason : string;
  xr_actor : string
}.

(** The claim the store is asked to append. *)
Definition excuse_checkpoint_writer `{NumberApi} (sha256_hex : string → string) (origin : string)
    (request : CheckpointExcuseRequest) : result Error ClaimInput :=
  let actor := normalize_actor (xr_actor request) "person" in
  if negb (starts_with "person/" actor)
  then Err (mkError "invalid-checkpoint-excusal" "only a person can excuse a writer from checkpoints")
  else if is_blank (xr_writer request) || is_blank (xr_reason request)
  then Err (mkError "invalid-checkpoint-excusal" "an excusal needs a writer and a reason")
  else if str_eqb (xr_writer request) origin
  then Err (mkError "invalid-checkpoint-excusal" "a node cannot excuse itself; excuse it from another machine")
  else Ok (mkClaimInput ("checkpoint-excusal/" +:+ String.substring 0 16 (sha256_hex (xr_writer request)))
             CHECKPOINT_EXCUSED (Some actor)
             (named_fields [("writer", Str (xr_writer request)); ("reason", Str (xr_reason request))])
             [] None None).

(** ** Evidence and dropping at once *)

(** [claim_or_tombstone_exists], which [evidence_exists] reads. *)
Definition evidence_exists (s : Store) (id : string) : bool :=
  holds_claim s id || existsb (λ row, str_eqb (tb_id row.1) id) (checkpoint_claims (t_tombstones s)).

Definition claim_tombstoned (s : Store) (id : string) : bool :=
  existsb (λ row, str_eqb (tb_id row.1) id) (checkpoint_claims (t_tombstones s)).

Definition envelope_tombstoned (s : Store) (key : EnvelopeKey) : bool :=
  existsb (λ row, bool_decide (et_key row.1 = key)) (checkpoint_envelopes (t_tombstones s)).

Definition checkpointed_envelopes (s : Store) : nat := length (checkpoint_envelopes (t_tombstones s)).

Definition apply_checkpoint_drop (checkpoint : string) (envelopes : list EnvelopeTombstone)
    (claims : list ClaimTombstone) (s : Store) : Store :=
  delete_dropped_rows envelopes claims
    (mkStore (t_claims s) (t_operations s) (t_events s) (t_batches s) (t_envelopes s) (t_records s)
       (t_signatures s) (t_holds s)
       (record_checkpoint_tombstones checkpoint envelopes claims (t_tombstones s))
       (t_checkpoints s) (t_claim_sequence s)).

(** ** The status view *)

Record PendingCheckpointView := mkPendingCheckpointView {
  pv_checkpoint : string;
  pv_cut_unix_ms : Z;
  pv_due_at_unix_ms : Z;
  pv_terms : SealTerms;
  pv_sealed : list string;
  pv_disagreeing : list (string * string);
  pv_unsealed : list string;
  pv_verified : gset string;
  pv_verifications_agree : bool;
  pv_verifications_differ : list (string * string);
  pv_builds : list (string * string)
}.

Record CheckpointStatusView := mkCheckpointStatusView {
  sv_node : string;
  sv_newest_stable : option Certificate;
  sv_trimmed : option string;
  sv_halted : bool;
  sv_pending : option PendingCheckpointView;
  sv_participants : list string;
  sv_excused : gset string;
  sv_left : gset string
}.

Section status.
Context `{NumberApi}.
Context (checkpoint_name : Z → string).

Definition pending_checkpoint (r : StepReads) (parts : list string) (cut : Z) : PendingCheckpointView :=
  let claims := sr_claims r in
  let checkpoint := checkpoint_name cut in
  let verified := first_verifications checkpoint_name claims checkpoint in
  let terms :=
    match verified !! sr_origin r with
    | Some (_, ours) => seal_of ours
    | None => mkSealTerms cut parts (si_digest (sr_sealed_identities r cut)) (sr_rules_digest r)
    end in
  let seals := newest_seals checkpoint_name claims checkpoint in
  let reference :=
    match verified !! sr_origin r with
    | Some (_, terms) => Some terms
    | None => (λ e, e.2.2) <$> head (in_key_order verified)
    end in
  mkPendingCheckpointView checkpoint cut (cut + 2 * DAY_MS) terms
    (List.filter (λ writer, bool_decide (seals !! writer = Some terms)) parts)
    (omap (λ writer,
      match seals !! writer with
      | Some theirs => if bool_decide (theirs = terms) then None
                       else Some (writer, seal_difference terms theirs)
      | None => None
      end) parts)
    (List.filter (λ writer, negb (is_some (seals !! writer))) parts)
    (dom verified)
    (length (bt_set VerifiedTerms_compare (map (λ e, e.2.2) (in_key_order verified))) <=? 1)
    (omap (λ e,
      match reference with
      | Some ours => if bool_decide (e.2.2 = ours) then None
                     else Some (e.1, verification_difference ours e.2.2)
      | None => None
      end) (in_key_order verified))
    (fold_left (λ m c,
      if str_eqb (cc_subject c) checkpoint && str_eqb (cc_kind c) CHECKPOINT_SEALED
      then match text c "build" with
           | Some build => bt_insert String.compare (cc_writer c) build m
           | None => m
           end
      else m) claims []).

(** The newest trimmed checkpoint, by its cut. *)
Definition trimmed_name (rows : list CheckpointRow) : option string :=
  (λ r, ck_id r) <$> min_by (λ a b, (ck_cut_unix_ms b ?= ck_cut_unix_ms a)%Z)
    (List.filter (λ r, str_eqb (ck_state r) "trimmed") rows).

Definition checkpoint_status (r : StepReads) (s : Store) : CheckpointStatusView :=
  let claims := sr_claims r in
  let stable := stable_checkpoints checkpoint_name claims in
  let newest_stable := last stable ≫= (λ e, head e.2) in
  let left := checkpoint_left_writers r in
  let parts := names_set (sr_origin r :: participants (checkpoint_known_writers r) left claims) in
  let cut := newest_due_cut (sr_now_unix_ms r) in
  let due := (0 <? cut)%Z
             && match newest_stable with
                | Some stable => (vt_cut_unix_ms (ct_terms stable) <? cut)%Z
                | None => true
                end in
  mkCheckpointStatusView (sr_origin r) newest_stable (trimmed_name (t_checkpoints s))
    (checkpoint_halted s) (if due then Some (pending_checkpoint r parts cut) else None)
    parts (excused_writers claims) left.
End status.

(** ** Evidence outlives a trim *)

Lemma evidence_exists_spec s id :
  evidence_exists s id = true ↔ id ∈ map row_id (t_claims s) ∨ id ∈ tombstoned_ids s.
Proof.
  unfold evidence_exists, tombstoned_ids. rewrite orb_true_iff, holds_claim_spec.
  apply or_iff_compat_l. rewrite existsb_true_elem, list_elem_of_fmap. split.
  - intros (r & Hr & E%str_eqb_true). eauto.
  - intros (r & -> & Hr). exists r. split; [done|]. by apply str_eqb_true.
Qed.

Lemma trims_evidence s0 s id : trims s0 s →
  evidence_exists s id = true ↔ evidence_exists s0 id = true.
Proof.
  intros (Et & _ & _ & _ & pc & pe & Ec & _ & _ & _ & _ & Hpc & _).
  rewrite !evidence_exists_spec. unfold tombstoned_ids in *. rewrite Et, Ec. split.
  - intros [(r & -> & [Hr _]%lfilter_elem)%list_elem_of_fmap|?]; [|by right].
    left. apply list_elem_of_fmap. eauto.
  - intros [(r & -> & Hr)%list_elem_of_fmap|?]; [|by right].
    destruct (pc (row_id r)) eqn:E; [|right; by apply Hpc].
    left. apply list_elem_of_fmap. exists r. split; [done|]. by apply lfilter_elem.
Qed.

(** Wherever a trim stops or ends, evidence may cite exactly the claims it could cite before and
    the ones the trim's tombstones name: a claim written later may rest on a dropped one, whether
    its writer dropped it yet or not. *)
Theorem trims_keep_evidence weather most after_tombstones before_finish checkpoint cut digest
    envelopes claims s id :
  store_ok s → (∀ t, t ∈ envelopes → et_writer t ≠ "") → (∀ t, t ∈ claims → tb_id t ≠ "") →
  evidence_exists (end_store (trim_checkpoint weather most after_tombstones before_finish checkpoint cut
                                digest envelopes claims false s)) id
  = evidence_exists s id || bool_decide (id ∈ map tb_id claims).
Proof.
  intros Hok He Hc. set (s1 := begin_trim checkpoint cut digest envelopes claims false s).
  assert (Hok1 : store_ok s1).
  { apply begin_trim_ok; [done| |]; intros k (t & -> & Ht)%list_elem_of_fmap; [by apply He|by apply Hc]. }
  assert (Hs1 : evidence_exists s1 id = evidence_exists s id || bool_decide (id ∈ map tb_id claims)).
  { apply eq_true_iff_eq. rewrite orb_true_iff, bool_decide_eq_true, !evidence_exists_spec.
    unfold s1. rewrite begin_trim_ids. cbn [begin_trim t_claims]. tauto. }
  rewrite <- Hs1. unfold trim_checkpoint. fold s1. destruct after_tombstones; [done|].
  destruct (trim_chunks_trim weather most before_finish checkpoint s1 default_cursor 0 0
    (default_cursor_passed s1 Hok1)) as (s2 & Ht & Hr).
  apply eq_true_iff_eq. rewrite <- (trims_evidence s1 s2 id Ht). unfold finish_trim.
  destruct Hr as [->|[[a ->]|[a ->]]]; done.
Qed.

(** ** A stopped checkpoint *)

(** Only a person with a reason lets checkpoints go on. Then nothing is halted any more, only the
    stopped checkpoints changed, and each counts as applied with every earlier cut, so that the
    next pass goes on to a newer one. *)
Theorem resuming_ends_the_halt `{NumberApi} actor reason s :
  match resume_checkpoints actor reason s with
  | Err e => err_code e = "invalid-checkpoint-resume" ∧
             (starts_with "person/" (normalize_actor actor "person") = false ∨ is_blank reason = true)
  | Ok s' => checkpoint_halted s' = false ∧ inventory s' = inventory s ∧
      (∀ id, evidence_exists s' id = evidence_exists s id) ∧
      (∀ r, r ∈ t_checkpoints s → ck_state r ≠ "graph-changed" → r ∈ t_checkpoints s') ∧
      (∀ r cut digest, r ∈ t_checkpoints s → ck_state r = "graph-changed" → (cut <= ck_cut_unix_ms r)%Z →
         applied (t_checkpoints s') cut digest = true)
  end.
Proof.
  unfold resume_checkpoints. destruct (starts_with _ _) eqn:Ep; simpl; [|auto].
  destruct (is_blank reason) eqn:Er; simpl; [auto|]. split_and!; try done.
  - unfold checkpoint_halted. cbn. apply not_true_iff_false. rewrite existsb_true_elem.
    intros (r' & (r & -> & Hr)%list_elem_of_fmap & Hs).
    destruct (str_eqb (ck_state r) "graph-changed") eqn:E; [done|congruence].
  - intros r Hr Hne. cbn. apply list_elem_of_fmap. exists r. split; [|done].
    by rewrite (proj2 (str_eqb_false _ _) Hne).
  - intros r cut digest Hr Hs Hcut. unfold applied. cbn. apply existsb_true_elem.
    exists (mkCheckpointRow (ck_id r) (ck_cut_unix_ms r) "set-aside" (ck_seal_rowid r) (ck_drop_digest r)).
    split.
    + apply list_elem_of_fmap. exists r. split; [|done]. by rewrite (proj2 (str_eqb_true _ _) Hs).
    + cbn. by apply Z.leb_le.
Qed.

(** ** The status says what the next pass does *)

Section status_theorem.
Context `{NumberApi}.
Context (checkpoint_name : Z → string) (number_of : Z → Number).
Context (build : string) (terms_key : SealTerms → string).

Lemma bt_insert_elem {K V} (cmp : K → K → comparison) `{!cmp_exact cmp} k (v : V) m e :
  e ∈ bt_insert cmp k v m → e ∈ m ∨ e = (k, v).
Proof.
  unfold bt_insert. induction m as [|[k' v'] m IH]; simpl.
  - intros ->%list_elem_of_singleton. by right.
  - destruct (cmp k k') eqn:E.
    + apply cmp_eq in E as ->. intros [->|?]%elem_of_cons; [by right|]. left. by right.
    + intros [->|?]%elem_of_cons; [by right|by left].
    + intros [->|Hm]%elem_of_cons; [left; left|]. destruct (IH Hm) as [?|?]; [left; by right|by right].
Qed.

(** A stable checkpoint is listed under the cut of its first certificate. *)
Lemma stable_cut claims cut certs :
  (cut, certs) ∈ stable_checkpoints checkpoint_name claims →
  ∃ first rest, certs = first :: rest ∧ vt_cut_unix_ms (ct_terms first) = cut.
Proof.
  unfold stable_checkpoints. generalize (names_set (map cc_subject
    (List.filter (λ c, str_eqb (cc_kind c) CHECKPOINT_VERIFIED) claims))).
  intros l. assert (Hfold : ∀ stable,
    (∀ e, e ∈ stable → ∃ first rest, e.2 = first :: rest ∧ vt_cut_unix_ms (ct_terms first) = e.1) →
    ∀ e, e ∈ fold_left (λ stable checkpoint,
        let certs := certificates checkpoint_name claims checkpoint in
        match certs with
        | [] => stable
        | first :: _ => bt_insert Z.compare (vt_cut_unix_ms (ct_terms first)) certs stable
        end) l stable →
      ∃ first rest, e.2 = first :: rest ∧ vt_cut_unix_ms (ct_terms first) = e.1).
  { induction l as [|x l IH]; intros stable Hs; [done|]. cbn [fold_left]. apply IH. cbn zeta.
    destruct (certificates checkpoint_name claims x) as [|first rest]; [done|].
    intros e He. apply (bt_insert_elem Z.compare) in He as [He| ->]; [by apply Hs|].
    by exists first, rest. }
  intros Hin. by destruct (Hfold [] ltac:(by intros e ?%elem_of_nil) _ Hin) as (first & rest & E1 & E2);
    exists first, rest.
Qed.

Lemma newest_stable_cut_first claims :
  newest_stable_cut checkpoint_name claims
  = (λ c, vt_cut_unix_ms (ct_terms c)) <$> (last (stable_checkpoints checkpoint_name claims) ≫= (λ e, head e.2)).
Proof.
  unfold newest_stable_cut.
  destruct (last (stable_checkpoints checkpoint_name claims)) as [[cut certs]|] eqn:E; [|done].
  apply last_Some_elem_of, stable_cut in E as (first & rest & -> & E2). cbn. by rewrite E2.
Qed.

(** Sealed, disagreeing and unsealed participants are all of them. *)
Lemma participants_split (seals : gmap string SealTerms) terms parts :
  List.filter (λ writer, bool_decide (seals !! writer = Some terms)) parts
  ++ map fst (omap (λ writer,
       match seals !! writer with
       | Some theirs => if bool_decide (theirs = terms) then None
                        else Some (writer, seal_difference terms theirs)
       | None => None
       end) parts)
  ++ List.filter (λ writer, negb (is_some (seals !! writer))) parts ≡ₚ parts.
Proof.
  induction parts as [|x parts IH]; [done|]. cbn [List.filter omap list_omap].
  destruct (seals !! x) as [theirs|] eqn:E; cbn.
  - destruct (decide (theirs = terms)) as [->|Hne].
    + rewrite !bool_decide_eq_true_2 by done. cbn. by constructor.
    + rewrite (bool_decide_eq_false_2 (theirs = terms)) by done.
      rewrite (bool_decide_eq_false_2 (Some theirs = Some terms)) by congruence. cbn.
      etransitivity; [symmetry; apply Permutation_middle|]. by constructor.
  - rewrite bool_decide_eq_false_2 by done. cbn.
    rewrite app_assoc. etransitivity; [symmetry; apply Permutation_middle|].
    constructor. by rewrite <- app_assoc.
Qed.

Lemma filter_head_nil {A} (p : A → bool) l : List.filter p l = [] ↔ ∀ x, x ∈ l → p x = false.
Proof.
  split.
  - intros E x Hx. destruct (p x) eqn:Ep; [|done]. assert (Hin : x ∈ List.filter p l) by by apply lfilter_elem.
    rewrite E in Hin. by apply elem_of_nil in Hin.
  - intros Hall. destruct (List.filter p l) as [|x l'] eqn:E; [done|].
    assert (Hin : x ∈ List.filter p l) by (rewrite E; left). apply lfilter_elem in Hin as [Hx Hp].
    by rewrite Hall in Hp.
Qed.

(** Nobody disagrees and nobody is missing exactly when every participant sealed these terms. *)
Lemma all_sealed (seals : gmap string SealTerms) terms parts :
  forallb (λ writer, bool_decide (seals !! writer = Some terms)) parts = true ↔
  omap (λ writer,
    match seals !! writer with
    | Some theirs => if bool_decide (theirs = terms) then None
                     else Some (writer, seal_difference terms theirs)
    | None => None
    end) parts = [] ∧ List.filter (λ writer, negb (is_some (seals !! writer))) parts = [].
Proof.
  induction parts as [|x parts IH]; [done|]. cbn [forallb List.filter omap list_omap].
  rewrite andb_true_iff, bool_decide_eq_true.
  destruct (seals !! x) as [theirs|] eqn:E; cbn; [|naive_solver].
  destruct (decide (theirs = terms)) as [->|Hne].
  - rewrite bool_decide_eq_true_2 by done. rewrite IH. naive_solver.
  - rewrite bool_decide_eq_false_2 by done. naive_solver.
Qed.

(** What the status shows is what the next pass goes by: every participant is listed once, as
    sealed with this node's terms, as disagreeing or as missing; a node that is not among the
    sealed seals, and one that is verifies exactly when nobody disagrees and nobody is missing. *)
Theorem status_predicts_the_step r s p :
  let view := checkpoint_status checkpoint_name r s in
  sv_pending view = Some p → sr_origin r ∉ pv_verified p →
  sr_catching_up r = false → snd (sr_applied r) = None → sr_halted r = false →
  sr_origin r ∉ sv_left view →
  pv_sealed p ++ map fst (pv_disagreeing p) ++ pv_unsealed p ≡ₚ sv_participants view ∧
  let sealed := sr_sealed_identities r (pv_cut_unix_ms p) in
  let '(effects, actions) :=
    if bool_decide (sr_origin r ∈ pv_sealed p)
    then if bool_decide (pv_disagreeing p = []) && bool_decide (pv_unsealed p = [])
         then verify_checkpoint number_of build r (pv_checkpoint p) (pv_terms p) (si_seal_rowid sealed)
         else ([], [])
    else (publish_seal number_of build terms_key (sr_origin r) (pv_checkpoint p) (pv_terms p) sealed
            (replaced_seal checkpoint_name r (pv_checkpoint p)),
          [Sealed (pv_checkpoint p) (st_sealed_digest (pv_terms p)) (sv_participants view)]) in
  checkpoint_step checkpoint_name number_of build terms_key r
  = (effects, fst (sr_applied r) ++ actions).
Proof.
  cbn zeta. unfold checkpoint_status. cbn [sv_pending sv_participants sv_left].
  destruct ((0 <? _)%Z && _) eqn:Hdue; [|done]. intros [= <-].
  apply andb_true_iff in Hdue as [Hcut%Z.ltb_lt Hstable]. unfold pending_checkpoint.
  set (cut := newest_due_cut (sr_now_unix_ms r)) in *.
  set (parts := names_set _). cbn [pv_verified pv_sealed pv_disagreeing pv_unsealed pv_checkpoint pv_terms
    pv_cut_unix_ms]. intros Hver Hcatch Hneed Hhalt Hleft.
  apply not_elem_of_dom in Hver. rewrite Hver. cbn [st_sealed_digest].
  split; [apply participants_split|].
  unfold checkpoint_step. rewrite Hcatch. destruct (sr_applied r) as [actions need].
  simpl in Hneed. subst need. cbn [fst]. fold cut. rewrite Hhalt.
  assert (((cut =? 0)%Z || is_some_and (newest_stable_cut checkpoint_name (sr_claims r))
             (λ stable, (cut <=? stable)%Z)) = false) as ->.
  { apply orb_false_iff. split; [apply Z.eqb_neq; lia|]. rewrite newest_stable_cut_first.
    destruct (_ ≫= _); [|done]. cbn. apply Z.leb_gt. by apply Z.ltb_lt. }
  rewrite (bool_decide_eq_false_2 (sr_origin r ∈ checkpoint_left_writers r)) by done. rewrite Hver. cbn [is_some].
  unfold step_terms. fold parts. set (terms := mkSealTerms cut parts _ _).
  set (seals := newest_seals _ _ _). change (st_participants terms) with parts.
  assert (Horigin : sr_origin r ∈ parts) by (apply (elem_of_bt_set String.compare); left).
  destruct (decide (seals !! sr_origin r = Some terms)) as [Hs|Hs].
  - rewrite (bool_decide_eq_true_2 (seals !! _ = _)) by done. cbn [negb].
    rewrite (bool_decide_eq_true_2 (sr_origin r ∈ _))
      by (apply lfilter_elem; split; [done|by apply bool_decide_eq_true]).
    pose proof (all_sealed seals terms parts) as Hall.
    destruct (forallb _ parts).
    + destruct (proj1 Hall eq_refl) as [-> ->]. rewrite !bool_decide_eq_true_2 by done. cbn [andb].
      by destruct (verify_checkpoint _ _ _ _ _ _).
    + destruct (bool_decide _ && bool_decide _) eqn:E; [|by rewrite app_nil_r].
      apply andb_true_iff in E as [E1%bool_decide_eq_true E2%bool_decide_eq_true].
      discriminate (proj2 Hall (conj E1 E2)).
  - rewrite (bool_decide_eq_false_2 (seals !! _ = _)) by done. cbn [negb].
    rewrite (bool_decide_eq_false_2 (sr_origin r ∈ _)); [done|].
    intros [_ ?%bool_decide_eq_true]%lfilter_elem. done.
Qed.
End status_theorem.
