(* ===== verification/Utf8.v ===== *)
(** * UTF-8

    [String::from_utf8], [str::chars] and [char::is_whitespace] on byte strings, and the ASCII case
    functions. *)

From Stdlib Require Import Ascii.
From S2P Require Import Prelude Text Bytes.

Definition in_range (lo hi : Z) (b : ascii) : bool := ((lo <=? byte_val b) && (byte_val b <=? hi))%Z.

Definition is_continuation (b : ascii) : bool := in_range 128 191 b.

(** Whether bytes are well-formed UTF-8, by the table of the Unicode standard that
    [String::from_utf8] follows: no overlong forms, no surrogates, nothing past U+10FFFF. *)
Fixpoint utf8_valid (l : list ascii) : bool :=
  match l with
  | [] => true
  | b :: l1 =>
      if in_range 0 127 b then utf8_valid l1
      else
        match l1 with
        | [] => false
        | c1 :: l2 =>
            if in_range 194 223 b then is_continuation c1 && utf8_valid l2
            else
              match l2 with
              | [] => false
              | c2 :: l3 =>
                  if in_range 224 239 b then
                    in_range (if in_range 224 224 b then 160 else 128)
                             (if in_range 237 237 b then 159 else 191) c1
                    && is_continuation c2 && utf8_valid l3
                  else
                    match l3 with
                    | [] => false
                    | c3 :: l4 =>
                        if in_range 240 244 b then
                          in_range (if in_range 240 240 b then 144 else 128)
                                   (if in_range 244 244 b then 143 else 191) c1
                          && is_continuation c2 && is_continuation c3 && utf8_valid l4
                        else false
                    end
              end
        end
  end.

(** The characters of well-formed bytes, each as its bytes: a lead byte with the continuation
    bytes after it. *)
Fixpoint chars (l : list ascii) : list (list ascii) :=
  match l with
  | [] => []
  | b :: l' =>
      match chars l' with
      | (c :: g) :: gs => if is_continuation c then (b :: c :: g) :: gs else [b] :: (c :: g) :: gs
      | gs => [b] :: gs
      end
  end.

(** The scalar value of one character. *)
Definition code_point (g : list ascii) : Z :=
  match map byte_val g with
  | [a] => a
  | [a; b] => (a - 192) * 64 + (b - 128)
  | [a; b; c] => (a - 224) * 4096 + (b - 128) * 64 + (c - 128)
  | [a; b; c; d] => (a - 240) * 262144 + (b - 128) * 4096 + (c - 128) * 64 + (d - 128)
  | _ => 0
  end%Z.

(** [char::is_whitespace]: the Unicode [White_Space] property. *)
Definition is_whitespace (g : list ascii) : bool :=
  let c := code_point g in
  (((9 <=? c) && (c <=? 13)) || (c =? 32) || (c =? 133) || (c =? 160) || (c =? 5760)
   || ((8192 <=? c) && (c <=? 8202)) || (c =? 8232) || (c =? 8233) || (c =? 8239)
   || (c =? 8287) || (c =? 12288))%Z.

(** [u8::to_ascii_lowercase] and [to_ascii_uppercase]. *)
Definition to_lower (b : ascii) : ascii := if in_range 65 90 b then byte_of (byte_val b + 32) else b.
Definition to_upper (b : ascii) : ascii := if in_range 97 122 b then byte_of (byte_val b - 32) else b.

Lemma in_range_spec lo hi b : in_range lo hi b = true ↔ (lo ≤ byte_val b ≤ hi)%Z.
Proof. unfold in_range. rewrite andb_true_iff, !Z.leb_le. done. Qed.

Lemma in_range_false lo hi b : (byte_val b < lo ∨ hi < byte_val b)%Z → in_range lo hi b = false.
Proof. intros Hb. destruct (in_range lo hi b) eqn:E; [|done]. apply in_range_spec in E. lia. Qed.

(** The characters of ASCII text are its bytes. *)
Lemma chars_ascii l : Forall (λ b, (byte_val b < 128)%Z) l → chars l = map (λ b, [b]) l.
Proof.
  induction 1 as [|b l Hb Hl IH]; [done|]. simpl. rewrite IH.
  destruct Hl as [|c l Hc Hl]; [done|]. simpl.
  unfold is_continuation. rewrite in_range_false by lia. done.
Qed.

Lemma concat_singleton_bytes (l : list ascii) : concat (map (λ b, [b]) l) = l.
Proof. induction l as [|b l IH]; simpl; [done|]. by rewrite IH. Qed.

Lemma to_upper_lower b : ¬ (97 ≤ byte_val b ≤ 122)%Z → to_upper (to_lower b) = b.
Proof.
  intros Hb. unfold to_lower. destruct (in_range 65 90 b) eqn:E.
  - apply in_range_spec in E. unfold to_upper.
    assert (Hv : byte_val (byte_of (byte_val b + 32)) = (byte_val b + 32)%Z).
    { rewrite byte_val_of. apply Z.mod_small. lia. }
    assert (in_range 97 122 (byte_of (byte_val b + 32)) = true) as ->.
    { apply in_range_spec. rewrite Hv. lia. }
    rewrite Hv. replace (byte_val b + 32 - 32)%Z with (byte_val b) by lia. apply byte_of_val.
  - unfold to_upper. rewrite in_range_false by lia. done.
Qed.

Lemma byte_val_to_lower b : (byte_val (to_lower b) =
  if in_range 65 90 b then byte_val b + 32 else byte_val b)%Z.
Proof.
  unfold to_lower. destruct (in_range 65 90 b) eqn:E; [|done]. apply in_range_spec in E.
  rewrite byte_val_of. apply Z.mod_small. lia.
Qed.

(** [str::trim]: whitespace characters dropped from both ends. *)
Fixpoint drop_while {A} (p : A → bool) (l : list A) : list A :=
  match l with
  | [] => []
  | x :: l' => if p x then drop_while p l' else l
  end.

Definition trim (s : string) : string :=
  str_of (concat (reverse (drop_while is_whitespace
                             (reverse (drop_while is_whitespace (chars (bytes_of s))))))).
