(* ===== verification/Inventory.v ===== *)
(** * The replication inventory

    Models [CompactReplicationInventory] and the range digests of [crates/smallclaims/src/store.rs].
    A node tells its peers which envelopes it holds. The inventory it keeps has the writers interned
    and SHA-256 hashes as bytes; what peers see are [ReplicaEnvelopeId]s in order, one digest over all
    of them and one for each range of 256 sequences of a writer. The theorems relate the two: every
    operation on the compact form is the operation on the sorted set of identities.

    The streaming SHA-256 of another crate is the bytes it has been given. An index into a vector
    reads the empty text where the code would panic; [inventory_ok] rules that out. Writer and
    irregular indexes are [u32] in the source and [nat] here: a store holds fewer than 2^32 texts. *)

From Stdlib Require Import Ascii.
From S2P Require Import Prelude StableSort Text Json Bytes Order BTree Slices Framing Claim Hash Utf8.

(** ** Identities *)

#[export] Instance ReplicaEnvelopeId_eq_dec : EqDecision ReplicaEnvelopeId.
Proof. solve_decision. Defined.
#[export] Instance ReplicaEnvelopeId_countable : Countable ReplicaEnvelopeId.
Proof.
  apply (inj_countable' (λ i, (eid_writer i, eid_sequence i, eid_hash i))
           (λ p, mkReplicaEnvelopeId p.1.1 p.1.2 p.2)). by intros [].
Defined.

(** The derived order: writer, sequence, hash text. *)
Definition ReplicaEnvelopeId_compare (a b : ReplicaEnvelopeId) : comparison :=
  then_with (String.compare (eid_writer a) (eid_writer b))
  (then_with (Z.compare (eid_sequence a) (eid_sequence b))
             (String.compare (eid_hash a) (eid_hash b))).

#[export] Instance ReplicaEnvelopeId_order : cmp_order ReplicaEnvelopeId_compare.
Proof.
  unfold ReplicaEnvelopeId_compare. apply cmp_order_then; [apply (cmp_order_by_key _ eid_writer), _|].
  apply cmp_order_then; [apply (cmp_order_by_key _ eid_sequence), _|apply (cmp_order_by_key _ eid_hash), _].
Qed.
#[export] Instance ReplicaEnvelopeId_exact : cmp_exact ReplicaEnvelopeId_compare.
Proof.
  intros [w s h] [w' s' h']. unfold ReplicaEnvelopeId_compare. simpl.
  rewrite !then_with_Eq, !cmp_eq. naive_solver.
Qed.

Local Abbreviation sorted := (StronglySorted (λ a b, ReplicaEnvelopeId_compare a b = Lt)).

(** ** Hexadecimal

    What the code relies on of the [hex] crate. *)

Definition is_lower_hex (b : ascii) : bool := in_range 48 57 b || in_range 97 102 b.

(** 64 lowercase hexadecimal digits. *)
Definition sha256_text (s : string) : bool :=
  (String.length s =? 64)%nat && forallb is_lower_hex (bytes_of s).

Class HexApi := {
  hex_encode : list ascii → string;
  hex_decode : string → option (list ascii);
  hex_decode_text s : sha256_text s = true →
    ∃ h, hex_decode s = Some h ∧ length h = 32 ∧ hex_encode h = s;
  hex_encode_text h : length h = 32 → sha256_text (hex_encode h) = true;
  hex_order a b : length a = 32 → length b = 32 →
    String.compare (hex_encode a) (hex_encode b) = bytes_compare a b
}.

(** ** Ranges *)

Definition REPLICATION_EXCHANGE_ENVELOPE_LIMIT : nat := 512.
Definition REPLICATION_PAGE_LIMIT : nat := 4096.
Definition REPLICATION_BUCKET_WIDTH : Z := 256.

Definition replication_bucket_start (sequence : Z) : Z := sequence - sequence mod REPLICATION_BUCKET_WIDTH.

Record ReplicationInventoryBucket := mkBucket {
  bk_writer : string;
  bk_start : Z;
  bk_count : Z;
  bk_digest : string
}.

Definition range_compare (a b : string * Z) : comparison :=
  then_with (String.compare a.1 b.1) (Z.compare a.2 b.2).
#[export] Instance range_compare_order : cmp_order range_compare.
Proof.
  unfold range_compare. apply cmp_order_then; [apply (cmp_order_by_key _ fst), _|apply (cmp_order_by_key _ snd), _].
Qed.
#[export] Instance range_compare_exact : cmp_exact range_compare.
Proof. intros [w s] [w' s']. unfold range_compare. simpl. rewrite then_with_Eq, !cmp_eq. naive_solver. Qed.

Definition bucket_key (b : ReplicationInventoryBucket) : string * Z := (bk_writer b, bk_start b).
Definition range_key (i : ReplicaEnvelopeId) : string * Z :=
  (eid_writer i, replication_bucket_start (eid_sequence i)).

(** A sequence is stored as a non-negative 64-bit signed integer. *)
Definition is_sequence (z : Z) : Prop := (0 ≤ z < 2 ^ 63)%Z.
Definition sequences_ok (l : list ReplicaEnvelopeId) : Prop := ∀ i, i ∈ l → is_sequence (eid_sequence i).

Lemma bucket_start_spec z start :
  replication_bucket_start start = start →
  replication_bucket_start z = start ↔ (start ≤ z < start + REPLICATION_BUCKET_WIDTH)%Z.
Proof.
  unfold replication_bucket_start, REPLICATION_BUCKET_WIDTH. intros Hal.
  pose proof (Z.mod_pos_bound z 256 ltac:(lia)). pose proof (Z.div_mod z 256 ltac:(lia)).
  pose proof (Z.div_mod start 256 ltac:(lia)). split; [lia|]. intros Hz.
  assert (z / 256 = start / 256)%Z by (symmetry; apply (Z.div_unique_pos _ _ _ (z - start)); lia). lia.
Qed.

Lemma bucket_start_idem z : replication_bucket_start (replication_bucket_start z) = replication_bucket_start z.
Proof.
  unfold replication_bucket_start, REPLICATION_BUCKET_WIDTH. pose proof (Z.div_mod z 256 ltac:(lia)) as E.
  replace (z - z mod 256)%Z with ((z / 256) * 256)%Z by lia. rewrite Z.mod_mul by lia. lia.
Qed.

Lemma bucket_start_sequence z : is_sequence z → is_sequence (replication_bucket_start z).
Proof.
  unfold is_sequence, replication_bucket_start, REPLICATION_BUCKET_WIDTH. intros Hz.
  pose proof (Z.mod_pos_bound z 256 ltac:(lia)). pose proof (Z.mod_le z 256 ltac:(lia) ltac:(lia)). lia.
Qed.

(** ** Digests *)

Definition domain_bytes (s : string) : list ascii := bytes_of s ++ ["000"%char].
Definition INVENTORY_DIGEST_DOMAIN : list ascii := domain_bytes "st3-replication-inventory-v1".
Definition BUCKET_DIGEST_DOMAIN : list ascii := domain_bytes "st3-replication-bucket-v1".

Definition update_identity_digest (digest : list ascii) (writer : string) (sequence : Z) (hash : string) :
    list ascii :=
  fold_left (λ d field, d ++ frame field) [writer; u_to_string sequence; hash] digest.

(** ** The compact inventory *)

Record CompactEnvelopeId := mkCompact {
  ce_writer : nat;
  ce_irregular : nat;
  ce_sequence : Z;
  ce_hash : list ascii
}.

Record CompactReplicationInventory := mkInventory {
  ci_digest : string;
  ci_writers : list string;
  ci_irregular_hashes : list string;
  ci_envelopes : list CompactEnvelopeId;
  ci_payloadless : gset (list ascii);
  ci_payloadless_irregular : gset ReplicaEnvelopeId
}.

Definition empty_inventory : CompactReplicationInventory := mkInventory "" [] [] [] ∅ ∅.

Definition same_chunk (left right : CompactEnvelopeId) : bool :=
  (ce_writer left =? ce_writer right)%nat
  && (replication_bucket_start (ce_sequence left) =? replication_bucket_start (ce_sequence right))%Z.

(** What a peer is sent. *)
Record InventoryCheckpoint := mkInventoryCheckpoint {
  ic_id : string;
  ic_cut_unix_ms : Z;
  ic_drop_digest : string
}.

Record ReplicationInventory := mkReplicationInventory {
  ri_digest : string;
  ri_envelopes : list ReplicaEnvelopeId;
  ri_buckets : list ReplicationInventoryBucket;
  ri_accepts : option Z;
  ri_checkpoint : option InventoryCheckpoint
}.

Module Compact.
Section compact.
Context {hex : HexApi} (sha256 : list ascii → list ascii).
Implicit Types (inv : CompactReplicationInventory) (e : CompactEnvelopeId).

Definition finalize (digest : list ascii) : string := hex_encode (sha256 digest).

Definition update_identities (digest : list ascii) (envelopes : list ReplicaEnvelopeId) : list ascii :=
  fold_left (λ d i, update_identity_digest d (eid_writer i) (eid_sequence i) (eid_hash i)) envelopes digest.

Definition replication_identity_digest (domain : list ascii) (envelopes : list ReplicaEnvelopeId) : string :=
  finalize (update_identities domain envelopes).
Definition replication_inventory_digest (envelopes : list ReplicaEnvelopeId) : string :=
  replication_identity_digest INVENTORY_DIGEST_DOMAIN envelopes.
Definition replication_bucket_digest (envelopes : list ReplicaEnvelopeId) : string :=
  replication_identity_digest BUCKET_DIGEST_DOMAIN envelopes.

(** The ranges of a sorted list of identities and their summaries, from the identities alone. *)
Definition range_keys (l : list ReplicaEnvelopeId) : list (string * Z) :=
  bt_set range_compare (map range_key l).
Definition ranges (l : list ReplicaEnvelopeId) : list (list ReplicaEnvelopeId) :=
  map (λ k, with_key range_key k l) (range_keys l).
Definition range_bucket (l : list ReplicaEnvelopeId) (k : string * Z) : ReplicationInventoryBucket :=
  mkBucket k.1 k.2 (Z.of_nat (length (with_key range_key k l)))
    (replication_bucket_digest (with_key range_key k l)).
Definition public_buckets (l : list ReplicaEnvelopeId) : list ReplicationInventoryBucket :=
  map (range_bucket l) (range_keys l).

Definition writer_name inv (i : nat) : string := default "" (ci_writers inv !! i).

Definition hash_text inv e : string :=
  if (ce_irregular e =? 0)%nat then hex_encode (ce_hash e)
  else default "" (ci_irregular_hashes inv !! (ce_irregular e - 1)).

Definition identity inv e : ReplicaEnvelopeId :=
  mkReplicaEnvelopeId (writer_name inv (ce_writer e)) (ce_sequence e) (hash_text inv e).

Definition identities inv (range : list CompactEnvelopeId) : list ReplicaEnvelopeId :=
  map (identity inv) range.

Definition public inv : ReplicationInventory :=
  mkReplicationInventory (ci_digest inv) (identities inv (ci_envelopes inv)) [] None None.

Definition has_payload inv e : bool :=
  if (ce_irregular e =? 0)%nat then negb (bool_decide (ce_hash e ∈ ci_payloadless inv))
  else negb (bool_decide (identity inv e ∈ ci_payloadless_irregular inv)).

Definition mark_last_payloadless inv : CompactReplicationInventory :=
  match last (ci_envelopes inv) with
  | None => inv
  | Some envelope =>
      if (ce_irregular envelope =? 0)%nat
      then mkInventory (ci_digest inv) (ci_writers inv) (ci_irregular_hashes inv) (ci_envelopes inv)
             ({[ce_hash envelope]} ∪ ci_payloadless inv) (ci_payloadless_irregular inv)
      else mkInventory (ci_digest inv) (ci_writers inv) (ci_irregular_hashes inv) (ci_envelopes inv)
             (ci_payloadless inv) ({[identity inv envelope]} ∪ ci_payloadless_irregular inv)
  end.

(** [hash] is zero where it is not decoded. *)
Definition compact inv (writer : nat) (i : ReplicaEnvelopeId) :
    CompactEnvelopeId * CompactReplicationInventory :=
  match (if sha256_text (eid_hash i) then hex_decode (eid_hash i) else None) with
  | Some hash => (mkCompact writer 0 (eid_sequence i) hash, inv)
  | None =>
      let irregular := ci_irregular_hashes inv ++ [eid_hash i] in
      (mkCompact writer (length irregular) (eid_sequence i) (replicate 32 "000"%char),
       mkInventory (ci_digest inv) (ci_writers inv) irregular (ci_envelopes inv)
         (ci_payloadless inv) (ci_payloadless_irregular inv))
  end.

Definition with_envelopes inv (envelopes : list CompactEnvelopeId) : CompactReplicationInventory :=
  mkInventory (ci_digest inv) (ci_writers inv) (ci_irregular_hashes inv) envelopes
    (ci_payloadless inv) (ci_payloadless_irregular inv).

Definition with_writers inv (writers : list string) : CompactReplicationInventory :=
  mkInventory (ci_digest inv) writers (ci_irregular_hashes inv) (ci_envelopes inv)
    (ci_payloadless inv) (ci_payloadless_irregular inv).

Definition with_digest inv (digest : string) : CompactReplicationInventory :=
  mkInventory digest (ci_writers inv) (ci_irregular_hashes inv) (ci_envelopes inv)
    (ci_payloadless inv) (ci_payloadless_irregular inv).

Definition push_sorted inv (i : ReplicaEnvelopeId) : CompactReplicationInventory :=
  let inv := if ostr_eqb (last (ci_writers inv)) (Some (eid_writer i)) then inv
             else with_writers inv (ci_writers inv ++ [eid_writer i]) in
  let writer := (length (ci_writers inv) - 1)%nat in
  let '(envelope, inv) := compact inv writer i in
  with_envelopes inv (ci_envelopes inv ++ [envelope]).

Definition order inv (left right : CompactEnvelopeId) : comparison :=
  then_with (Nat.compare (ce_writer left) (ce_writer right))
  (then_with (Z.compare (ce_sequence left) (ce_sequence right))
     (if (ce_irregular left =? 0)%nat && (ce_irregular right =? 0)%nat
      then bytes_compare (ce_hash left) (ce_hash right)
      else String.compare (hash_text inv left) (hash_text inv right))).

(** A new writer moves the ones after it, and the envelopes that name them. *)
Definition insert_writer inv (at_ : nat) (writer : string) : CompactReplicationInventory :=
  mkInventory (ci_digest inv) (take at_ (ci_writers inv) ++ writer :: drop at_ (ci_writers inv))
    (ci_irregular_hashes inv)
    (map (λ e, if (at_ <=? ce_writer e)%nat
               then mkCompact (S (ce_writer e)) (ce_irregular e) (ce_sequence e) (ce_hash e) else e)
       (ci_envelopes inv))
    (ci_payloadless inv) (ci_payloadless_irregular inv).

(** Where the identity's writer is, or a place made for it. *)
Definition find_writer inv (name : string) : nat * CompactReplicationInventory :=
  match binary_search_by (λ n, String.compare n name) (ci_writers inv) with
  | Ok writer => (writer, inv)
  | Err writer => (writer, insert_writer inv writer name)
  end.

Definition insert inv (i : ReplicaEnvelopeId) : CompactReplicationInventory :=
  let '(writer, inv) := find_writer inv (eid_writer i) in
  let '(envelope, inv) := compact inv writer i in
  match binary_search_by (λ probe, order inv probe envelope) (ci_envelopes inv) with
  | Ok _ =>
      if (ce_irregular envelope =? 0)%nat
      then mkInventory (ci_digest inv) (ci_writers inv) (ci_irregular_hashes inv) (ci_envelopes inv)
             (ci_payloadless inv ∖ {[ce_hash envelope]}) (ci_payloadless_irregular inv)
      else mkInventory (ci_digest inv) (ci_writers inv) (removelast (ci_irregular_hashes inv))
             (ci_envelopes inv) (ci_payloadless inv)
             (ci_payloadless_irregular inv ∖ {[identity inv envelope]})
  | Err position =>
      with_envelopes inv (take position (ci_envelopes inv) ++ envelope :: drop position (ci_envelopes inv))
  end.

Definition update_range inv (digest : list ascii) (range : list CompactEnvelopeId) : list ascii :=
  fold_left (λ d e, update_identity_digest d (writer_name inv (ce_writer e)) (ce_sequence e) (hash_text inv e))
    range digest.

Definition digest_of inv (domain : list ascii) (range : list CompactEnvelopeId) : string :=
  finalize (update_range inv domain range).

Definition refresh_digest inv : CompactReplicationInventory :=
  with_digest inv (digest_of inv INVENTORY_DIGEST_DOMAIN (ci_envelopes inv)).

(** [(envelope.writer, envelope.sequence) < (writer, bound)]. *)
Definition before (writer : nat) (bound : Z) e : bool :=
  (ce_writer e <? writer)%nat || ((ce_writer e =? writer)%nat && (ce_sequence e <? bound)%Z).

Definition range inv (writer : string) (start : Z) : list CompactEnvelopeId :=
  match binary_search_by (λ name, String.compare name writer) (ci_writers inv) with
  | Err _ => []
  | Ok writer =>
      let end_ := sat_add64 start REPLICATION_BUCKET_WIDTH in
      subslice (partition_point (before writer start) (ci_envelopes inv))
        (partition_point (before writer end_) (ci_envelopes inv)) (ci_envelopes inv)
  end.

(** [range[0]] panics on an empty range. *)
Definition bucket inv (range : list CompactEnvelopeId) : option ReplicationInventoryBucket :=
  match range with
  | [] => None
  | first :: _ =>
      Some (mkBucket (writer_name inv (ce_writer first)) (replication_bucket_start (ce_sequence first))
              (Z.of_nat (length range)) (digest_of inv BUCKET_DIGEST_DOMAIN range))
  end.

Definition buckets inv : option (list ReplicationInventoryBucket) :=
  mapM (bucket inv) (chunk_by same_chunk (ci_envelopes inv)).

(** One turn of [resume_digest]: the states before each range so far, the running state and the place
    in the envelopes. *)
Definition resume_turn inv (state : list (list ascii) * list ascii * nat) (b : ReplicationInventoryBucket) :
    list (list ascii) * list ascii * nat :=
  let '(prefixes, digest, position) := state in
  let end_ := (position + Z.to_nat (bk_count b))%nat in
  (prefixes ++ [digest], update_range inv digest (subslice position end_ (ci_envelopes inv)), end_).

Definition resume_digest inv (bs : list ReplicationInventoryBucket) (prefixes : list (list ascii))
    (from : nat) : CompactReplicationInventory * list (list ascii) :=
  let from := Nat.min from (length prefixes - 1) in
  let digest := default INVENTORY_DIGEST_DOMAIN (prefixes !! from) in
  let prefixes := take from prefixes in
  let position := list_sum (map (λ b, Z.to_nat (bk_count b)) (take (Nat.min from (length bs)) bs)) in
  let '(prefixes, digest, _) := fold_left (resume_turn inv) (drop from bs) (prefixes, digest, position) in
  (with_digest inv (finalize digest), prefixes).

(** ** What an inventory says *)

(** The identities in public form. *)
Definition ids inv : list ReplicaEnvelopeId := identities inv (ci_envelopes inv).

Definition entry_ok inv e : Prop :=
  (ce_writer e < length (ci_writers inv))%nat ∧
  if (ce_irregular e =? 0)%nat then length (ce_hash e) = 32
  else ∃ t, ci_irregular_hashes inv !! (ce_irregular e - 1) = Some t ∧ sha256_text t = false.

Record inventory_ok inv : Prop := {
  ok_writers : StronglySorted (λ a b, String.compare a b = Lt) (ci_writers inv);
  ok_entries : ∀ e, e ∈ ci_envelopes inv → entry_ok inv e;
  ok_sorted : sorted (ids inv)
}.

(** Whether an identity's payload is held, from the identity alone. *)
Definition payload_of inv (i : ReplicaEnvelopeId) : bool :=
  if sha256_text (eid_hash i)
  then match hex_decode (eid_hash i) with
       | Some h => negb (bool_decide (h ∈ ci_payloadless inv))
       | None => true
       end
  else negb (bool_decide (i ∈ ci_payloadless_irregular inv)).

(** The identities one mark in the inventory stands for. *)
Definition same_mark (i x : ReplicaEnvelopeId) : bool :=
  if sha256_text (eid_hash i) then str_eqb (eid_hash x) (eid_hash i) else bool_decide (x = i).

Lemma hex_encode_inj a b : length a = 32 → length b = 32 → hex_encode a = hex_encode b → a = b.
Proof.
  intros Ha Hb E. apply bytes_compare_Eq. rewrite <- hex_order, E by done.
  apply (cmp_order_refl String.compare).
Qed.

Lemma hex_decode_encode h : length h = 32 → hex_decode (hex_encode h) = Some h.
Proof.
  intros Hl. destruct (hex_decode_text (hex_encode h)) as (h' & -> & Hl' & E); [by apply hex_encode_text|].
  f_equal. by apply hex_encode_inj.
Qed.

Lemma entry_hash_text inv e : entry_ok inv e → sha256_text (hash_text inv e) = (ce_irregular e =? 0)%nat.
Proof.
  intros [_ He]. unfold hash_text. destruct (ce_irregular e =? 0)%nat; [by apply hex_encode_text|].
  by destruct He as (t & -> & ?).
Qed.

Lemma has_payload_of inv e : entry_ok inv e → has_payload inv e = payload_of inv (identity inv e).
Proof.
  intros He. unfold payload_of, has_payload. cbn [identity eid_hash].
  rewrite (entry_hash_text _ _ He). destruct He as [_ He]. unfold hash_text.
  destruct (ce_irregular e =? 0)%nat; [by rewrite hex_decode_encode|done].
Qed.

Lemma writer_lookup inv i : (i < length (ci_writers inv))%nat → ci_writers inv !! i = Some (writer_name inv i).
Proof. intros [w E]%lookup_lt_is_Some. unfold writer_name. by rewrite E. Qed.

(** Comparing compact identities compares the identities. *)
Lemma order_identity inv a b :
  StronglySorted (λ a b, String.compare a b = Lt) (ci_writers inv) → entry_ok inv a → entry_ok inv b →
  order inv a b = ReplicaEnvelopeId_compare (identity inv a) (identity inv b).
Proof.
  intros Hs [Ha Hha] [Hb Hhb]. unfold order, ReplicaEnvelopeId_compare. cbn [identity eid_writer eid_sequence eid_hash].
  rewrite (increasing_compare String.compare (ci_writers inv) (ce_writer a) (ce_writer b)
             (writer_name inv (ce_writer a)) (writer_name inv (ce_writer b)) Hs) by by apply writer_lookup.
  do 2 f_equal. unfold hash_text in *.
  destruct (ce_irregular a =? 0)%nat, (ce_irregular b =? 0)%nat; simpl; try done. by rewrite hex_order.
Qed.

(** ** Adding an identity *)

(** An inventory with the same writers and more irregular hashes names what it named. *)
Definition names_more inv inv' : Prop :=
  ci_writers inv' = ci_writers inv ∧ ∃ t, ci_irregular_hashes inv' = ci_irregular_hashes inv ++ t.

Lemma names_more_identity inv inv' e :
  names_more inv inv' → entry_ok inv e → entry_ok inv' e ∧ identity inv' e = identity inv e.
Proof.
  intros [Hw [t Hi]] [He Hh]. unfold entry_ok, identity, writer_name, hash_text. rewrite Hw, Hi.
  destruct (ce_irregular e =? 0)%nat; [done|]. destruct Hh as (x & Hx & Hn).
  pose proof (lookup_app_l_Some _ t _ _ Hx) as Hx'. rewrite Hx, Hx'. split; [|done].
  split; [done|]. by exists x.
Qed.

Lemma compact_spec inv w i :
  ci_writers inv !! w = Some (eid_writer i) →
  let '(e, inv') := compact inv w i in
  names_more inv inv' ∧ entry_ok inv' e ∧ identity inv' e = i ∧
  ci_envelopes inv' = ci_envelopes inv ∧ ci_payloadless inv' = ci_payloadless inv ∧
  ci_payloadless_irregular inv' = ci_payloadless_irregular inv ∧
  (if (ce_irregular e =? 0)%nat then inv' = inv ∧ hex_decode (eid_hash i) = Some (ce_hash e)
   else removelast (ci_irregular_hashes inv') = ci_irregular_hashes inv).
Proof.
  intros Hw. pose proof (lookup_lt_Some _ _ _ Hw) as Hlt. unfold compact. destruct i as [wi si hi].
  cbn [eid_writer eid_sequence eid_hash] in *. destruct (sha256_text hi) eqn:Et.
  - destruct (hex_decode_text hi Et) as (h & Hd & Hl & He). rewrite Hd.
    split_and!; [split; [done|exists []; by rewrite app_nil_r]|done| |done..].
    unfold identity, writer_name, hash_text. simpl. by rewrite Hw, He.
  - cbn [ce_irregular ci_irregular_hashes]. rewrite length_app, Nat.add_1_r. simpl.
    split_and!; [split; [done|by eexists]| | |done..|apply removelast_last].
    + split; [done|]. simpl. exists hi. by rewrite Nat.sub_0_r, lookup_app_r, Nat.sub_diag by done.
    + unfold identity, writer_name, hash_text. simpl.
      by rewrite Hw, Nat.sub_0_r, lookup_app_r, Nat.sub_diag by done.
Qed.

Lemma names_more_ids inv inv' es :
  names_more inv inv' → (∀ e, e ∈ es → entry_ok inv e) → identities inv' es = identities inv es.
Proof.
  intros Hn He. apply map_ext_in. intros e Hin%list_elem_of_In. by apply names_more_identity, He.
Qed.

Lemma names_more_ok inv inv' :
  names_more inv inv' → ci_envelopes inv' = ci_envelopes inv → inventory_ok inv → inventory_ok inv'.
Proof.
  intros Hn He [Hw Hok Hs]. split.
  - by destruct Hn as [-> _].
  - intros e Hin. rewrite He in Hin. by eapply names_more_identity, Hok.
  - unfold ids. by rewrite He, (names_more_ids inv inv').
Qed.

Lemma lookup_insert_at {A} (l : list A) (x : A) (at_ i : nat) :
  (at_ ≤ length l)%nat →
  (take at_ l ++ x :: drop at_ l) !! (if (at_ <=? i)%nat then S i else i) = l !! i.
Proof.
  intros Hl. destruct (Nat.leb_spec at_ i) as [Hi|Hi].
  - rewrite lookup_app_r by (rewrite length_take; lia). rewrite length_take, Nat.min_l by done.
    replace (S i - at_)%nat with (S (i - at_)) by lia. simpl. rewrite lookup_drop. f_equal. lia.
  - rewrite lookup_app_l by (rewrite length_take; lia). by rewrite lookup_take_lt.
Qed.

(** Making room for a writer changes no identity. *)
Lemma insert_writer_spec inv w name :
  inventory_ok inv → binary_search_by (λ n, String.compare n name) (ci_writers inv) = Err w →
  let inv' := insert_writer inv w name in
  inventory_ok inv' ∧ ids inv' = ids inv ∧ ci_writers inv' !! w = Some name.
Proof.
  intros [Hw Hok Hs] Hb. apply (binary_search_place String.compare) in Hb as (Hle & Hs' & _); [|done].
  set (inv' := insert_writer inv w name).
  set (shift e := if (w <=? ce_writer e)%nat
                  then mkCompact (S (ce_writer e)) (ce_irregular e) (ce_sequence e) (ce_hash e) else e).
  assert (Hid : ∀ e, identity inv' (shift e) = identity inv e).
  { intros e. unfold identity, writer_name, hash_text. unfold inv'. cbn [insert_writer ci_writers ci_irregular_hashes].
    rewrite <- (lookup_insert_at (ci_writers inv) name w (ce_writer e) Hle). unfold shift.
    by destruct (w <=? ce_writer e)%nat. }
  assert (Hids : ids inv' = ids inv).
  { unfold ids, identities. unfold inv' at 2. cbn [insert_writer ci_envelopes]. rewrite List.map_map.
    apply map_ext. exact Hid. }
  split_and!; [|done|].
  - split; [done| |by rewrite Hids].
    intros e' (e & -> & He)%list_elem_of_fmap. destruct (Hok e He) as [Hlt Hh]. fold (shift e).
    unfold inv'. unfold entry_ok. cbn [insert_writer ci_writers ci_irregular_hashes]. split.
    + rewrite length_app. cbn [length]. rewrite length_take, length_drop. unfold shift.
      destruct (w <=? ce_writer e)%nat; simpl; lia.
    + unfold shift. by destruct (w <=? ce_writer e)%nat.
  - unfold inv'. cbn [insert_writer ci_writers]. rewrite lookup_app_r by (rewrite length_take; lia).
    by rewrite length_take, Nat.min_l, Nat.sub_diag.
Qed.

Lemma find_writer_spec inv name :
  inventory_ok inv →
  let '(w, inv') := find_writer inv name in
  inventory_ok inv' ∧ ids inv' = ids inv ∧ ci_writers inv' !! w = Some name ∧
  ci_payloadless inv' = ci_payloadless inv ∧
  ci_payloadless_irregular inv' = ci_payloadless_irregular inv.
Proof.
  intros Hok. unfold find_writer.
  destruct (binary_search_by _ _) as [w|w] eqn:E.
  - apply (binary_search_found String.compare) in E. done.
  - destruct (insert_writer_spec _ _ _ Hok E) as (? & ? & ?). done.
Qed.

Lemma payload_of_marks inv inv' i :
  ci_payloadless inv' = ci_payloadless inv → ci_payloadless_irregular inv' = ci_payloadless_irregular inv →
  payload_of inv' i = payload_of inv i.
Proof. intros H1 H2. unfold payload_of. by rewrite H1, H2. Qed.

Lemma unmark_regular inv i h digest ws irregular es x :
  sha256_text (eid_hash i) = true → hex_decode (eid_hash i) = Some h →
  payload_of (mkInventory digest ws irregular es (ci_payloadless inv ∖ {[h]}) (ci_payloadless_irregular inv)) x
  = payload_of inv x || same_mark i x.
Proof.
  clear sha256. intros Ht Hd. destruct (hex_decode_text _ Ht) as (h' & Hd' & _ & Hei). simplify_eq.
  unfold payload_of, same_mark, str_eqb. cbn [ci_payloadless ci_payloadless_irregular]. rewrite Ht.
  destruct (sha256_text (eid_hash x)) eqn:Ex.
  - destruct (hex_decode_text _ Ex) as (k & Hdx & _ & Hex). rewrite Hdx.
    destruct (decide (k = h)) as [->|Hne].
    + rewrite (bool_decide_false (h ∈ _ ∖ _)) by set_solver.
      rewrite (bool_decide_true (eid_hash x = _)) by congruence. by rewrite orb_true_r.
    + rewrite (bool_decide_false (eid_hash x = _)) by (intros E; apply Hne; congruence).
      rewrite orb_false_r. f_equal. apply bool_decide_ext. set_solver.
  - rewrite (bool_decide_false (eid_hash x = _)), orb_false_r; [done|]. intros E. congruence.
Qed.

Lemma unmark_irregular inv i digest ws irregular es x :
  sha256_text (eid_hash i) = false →
  payload_of (mkInventory digest ws irregular es (ci_payloadless inv) (ci_payloadless_irregular inv ∖ {[i]})) x
  = payload_of inv x || same_mark i x.
Proof.
  intros Ht. unfold payload_of, same_mark. cbn [ci_payloadless ci_payloadless_irregular]. rewrite Ht.
  destruct (decide (x = i)) as [->|Hne].
  - rewrite Ht, (bool_decide_false (i ∈ _ ∖ _)) by set_solver. by rewrite (bool_decide_true (i = i)), orb_true_r.
  - rewrite (bool_decide_false (x = i)), orb_false_r by done.
    destruct (sha256_text (eid_hash x)); [done|]. f_equal. apply bool_decide_ext. set_solver.
Qed.

(** Inserting refines adding to the sorted set: an identity held already only gets its payload back. *)
Lemma insert_spec inv i :
  inventory_ok inv →
  inventory_ok (insert inv i) ∧
  ids (insert inv i) = bt_set ReplicaEnvelopeId_compare (i :: ids inv) ∧
  ∀ x, payload_of (insert inv i) x = payload_of inv x || (bool_decide (i ∈ ids inv) && same_mark i x).
Proof.
  intros Hok. unfold insert. pose proof (find_writer_spec inv (eid_writer i) Hok) as Hf.
  destruct (find_writer inv (eid_writer i)) as [w inv1]. destruct Hf as (Hok1 & Hids1 & Hw & Hp1 & Hq1).
  pose proof (compact_spec inv1 w i Hw) as Hc. destruct (compact inv1 w i) as [e inv2].
  destruct Hc as (Hn & He & Hid & Henv & Hp2 & Hq2 & Hreg).
  pose proof (names_more_ok _ _ Hn Henv Hok1) as Hok2.
  assert (Hids2 : ids inv2 = ids inv).
  { rewrite <- Hids1. unfold ids. rewrite Henv. apply names_more_ids; [done|]. by apply Hok1. }
  assert (Hpay : ∀ x, payload_of inv2 x = payload_of inv x)
    by (intros x; apply payload_of_marks; congruence).
  destruct Hok2 as [Hws Hes Hs].
  rewrite (binary_search_by_map (identity inv2) _ (λ y, ReplicaEnvelopeId_compare y i)).
  2: { intros y Hy. rewrite order_identity by auto. by rewrite Hid. }
  change (map (identity inv2) (ci_envelopes inv2)) with (ids inv2).
  destruct (binary_search_by _ (ids inv2)) as [pos|pos] eqn:Eb.
  - (* held already *)
    apply (binary_search_found ReplicaEnvelopeId_compare) in Eb.
    apply list_elem_of_lookup_2 in Eb. pose proof Eb as Eb'. rewrite Hids2 in Eb'.
    rewrite (bool_decide_true _ Eb'), (increasing_found ReplicaEnvelopeId_compare) by (by rewrite <- Hids2).
    pose proof (entry_hash_text _ _ He) as Ht. change (hash_text inv2 e) with (eid_hash (identity inv2 e)) in Ht.
    rewrite Hid in Ht. destruct (ce_irregular e =? 0)%nat eqn:Ei.
    + destruct Hreg as [-> Hd]. split_and!; [by split|by rewrite <- Hids2|]. intros x.
      rewrite <- Hpay. by apply unmark_regular.
    + set (inv3 := mkInventory _ _ _ _ _ _).
      assert (Hn3 : names_more inv1 inv3) by (split; [apply Hn|exists []; by rewrite app_nil_r]).
      assert (Henv3 : ci_envelopes inv3 = ci_envelopes inv1) by done.
      pose proof (names_more_ok _ _ Hn3 Henv3 Hok1) as Hok3. split_and!; [done| |].
      * unfold ids. rewrite Henv3, (names_more_ids inv1 inv3); [apply Hids1|done|by apply Hok1].
      * intros x. rewrite <- Hpay. unfold inv3. rewrite Hid. by apply unmark_irregular.
  - (* new *)
    pose proof (binary_search_place ReplicaEnvelopeId_compare _ _ _ Hs Eb) as (Hle & Hs' & Hni).
    rewrite Hids2 in Hni. rewrite (bool_decide_false _ Hni). simpl.
    set (es := take pos _ ++ _).
    assert (Hin : ∀ y, y ∈ es → y = e ∨ y ∈ ci_envelopes inv2).
    { intros y. unfold es. rewrite elem_of_app, elem_of_cons. intros [Hy|[->|Hy]]; [|by left|];
        right; rewrite <- (take_drop pos (ci_envelopes inv2)); set_solver. }
    assert (Hids : ids (with_envelopes inv2 es) = take pos (ids inv2) ++ i :: drop pos (ids inv2)).
    { unfold ids at 1. unfold es. unfold identities at 1. cbn [with_envelopes ci_envelopes].
      rewrite map_app. cbn [map]. rewrite <- firstn_map, <- skipn_map. do 2 f_equal. exact Hid. }
    split_and!.
    + split; [done| |by rewrite Hids]. intros y [->|Hy]%Hin; [done|by apply Hes].
    + rewrite Hids. rewrite (increasing_insert ReplicaEnvelopeId_compare) by done. by rewrite Hids2.
    + intros x. rewrite orb_false_r. by apply Hpay.
Qed.

(** Appending refines appending. *)
Lemma push_sorted_spec inv i :
  inventory_ok inv → (∀ x, x ∈ ids inv → ReplicaEnvelopeId_compare x i = Lt) →
  (∀ w, w ∈ ci_writers inv → String.compare w (eid_writer i) ≠ Gt) →
  inventory_ok (push_sorted inv i) ∧ ids (push_sorted inv i) = ids inv ++ [i] ∧
  (∀ w, w ∈ ci_writers (push_sorted inv i) → w ∈ ci_writers inv ∨ w = eid_writer i) ∧
  (∀ x, payload_of (push_sorted inv i) x = payload_of inv x).
Proof.
  intros Hok Hlast Hwl. unfold push_sorted.
  set (inv1 := if ostr_eqb _ _ then inv else _).
  assert (H1 : inventory_ok inv1 ∧ ids inv1 = ids inv ∧
               ci_writers inv1 !! (length (ci_writers inv1) - 1)%nat = Some (eid_writer i) ∧
               (∀ w, w ∈ ci_writers inv1 → w ∈ ci_writers inv ∨ w = eid_writer i) ∧
               ci_payloadless inv1 = ci_payloadless inv ∧
               ci_payloadless_irregular inv1 = ci_payloadless_irregular inv).
  { unfold inv1. destruct (ostr_eqb _ _) eqn:E; str_cases.
    - split_and!; [done|done| |by left|done|done]. rewrite <- E, last_lookup. f_equal. lia.
    - assert (Hid : ∀ e, entry_ok inv e → entry_ok (with_writers inv (ci_writers inv ++ [eid_writer i])) e
                    ∧ identity (with_writers inv (ci_writers inv ++ [eid_writer i])) e = identity inv e).
      { intros e [Hlt Hh]. unfold entry_ok, identity, writer_name. cbn [with_writers ci_writers].
        rewrite length_app, lookup_app_l by done. split; [split; [lia|done]|done]. }
      assert (Hids : ids (with_writers inv (ci_writers inv ++ [eid_writer i])) = ids inv).
      { apply map_ext_in. intros e He%list_elem_of_In. by apply Hid, Hok. }
      split_and!; [|done| | |done|done].
      + split; [|intros e He; by apply Hid, Hok|rewrite Hids; apply Hok].
        apply (increasing_app String.compare). split_and!; [apply Hok|repeat constructor|].
        intros x y Hx ->%list_elem_of_singleton. pose proof (Hwl x Hx) as Hle.
        destruct (String.compare x (eid_writer i)) eqn:Ec; [|done|done]. exfalso. apply cmp_eq in Ec as ->.
        apply E, (increasing_last String.compare); [apply Hok|done..].
      + cbn [with_writers ci_writers]. rewrite length_app, lookup_app_r by (simpl; lia).
        simpl. by replace (length (ci_writers inv) + 1 - 1 - length (ci_writers inv))%nat with 0 by lia.
      + cbn [with_writers ci_writers]. intros w Hw. set_solver. }
  clearbody inv1. destruct H1 as (Hok1 & Hids1 & Hw & Hwi & Hp1 & Hq1).
  pose proof (compact_spec inv1 _ i Hw) as Hc. destruct (compact inv1 _ i) as [e inv2].
  destruct Hc as (Hn & He & Hid & Henv & Hp2 & Hq2 & _).
  pose proof (names_more_ok _ _ Hn Henv Hok1) as [Hws Hes Hs].
  assert (Hids2 : ids inv2 = ids inv).
  { rewrite <- Hids1. unfold ids. rewrite Henv. apply names_more_ids; [done|]. by apply Hok1. }
  assert (Hids : ids (with_envelopes inv2 (ci_envelopes inv2 ++ [e])) = ids inv ++ [i]).
  { unfold ids at 1. unfold identities at 1. cbn [with_envelopes ci_envelopes]. rewrite map_app.
    rewrite <- Hids2. cbn [map]. f_equal. f_equal. exact Hid. }
  split_and!; [|done| |].
  - split; [done| |].
    + intros y [Hy| ->%list_elem_of_singleton]%elem_of_app; [by apply Hes|done].
    + rewrite Hids. apply (increasing_app ReplicaEnvelopeId_compare).
      split_and!; [apply Hok|repeat constructor|]. intros x y Hx ->%list_elem_of_singleton. by apply Hlast.
  - cbn [with_envelopes ci_writers]. destruct Hn as [-> _]. done.
  - intros x. apply payload_of_marks; simpl; congruence.
Qed.

(** ** Ranges and digests *)

Lemma envelopes_ordered inv :
  inventory_ok inv → StronglySorted (λ a b, order inv a b = Lt) (ci_envelopes inv).
Proof.
  intros [Hw He Hs]. unfold ids, identities in Hs. revert He Hs. generalize (ci_envelopes inv) as es.
  intros es. induction es as [|e es IH]; intros He Hs; [constructor|].
  inversion Hs as [|? ? Hs' Hf]; subst. constructor; [apply IH; [set_solver|done]|].
  rewrite List.Forall_forall in *. intros x Hx. rewrite order_identity; [by apply Hf, in_map|done|..];
    apply He; [left|right; by apply list_elem_of_In].
Qed.

Lemma order_Lt inv a b : order inv a b = Lt →
  (ce_writer a < ce_writer b)%nat ∨ (ce_writer a = ce_writer b ∧ (ce_sequence a ≤ ce_sequence b)%Z).
Proof.
  unfold order. destruct (Nat.compare_spec (ce_writer a) (ce_writer b)); simpl; [|by left|done].
  destruct (Z.compare_spec (ce_sequence a) (ce_sequence b)); simpl; try done; right; split; lia.
Qed.

Lemma before_true w bound e :
  before w bound e = true ↔
  (ce_writer e < w)%nat ∨ (ce_writer e = w ∧ (ce_sequence e < bound)%Z).
Proof. unfold before. rewrite orb_true_iff, andb_true_iff, Nat.ltb_lt, Nat.eqb_eq, Z.ltb_lt. done. Qed.

(** The envelopes from one sequence to another of a writer are exactly the range between. *)
Lemma range_spec inv writer start :
  inventory_ok inv → sequences_ok (ids inv) → is_sequence start → replication_bucket_start start = start →
  identities inv (range inv writer start) = with_key range_key (writer, start) (ids inv).
Proof.
  intros Hok Hseq Hst Hal. unfold range.
  destruct (binary_search_by _ (ci_writers inv)) as [w|w] eqn:Eb.
  2: { apply (binary_search_place String.compare) in Eb as (_ & _ & Hni); [|apply Hok]. symmetry.
       apply with_key_nil. intros (i & Ei & Hi)%list_elem_of_fmap. apply Hni.
       apply list_elem_of_fmap in Hi as (e & -> & He). unfold range_key in Ei. injection Ei as -> _.
       destruct (ok_entries _ Hok e He) as [Hlt _]. cbn [identity eid_writer].
       eapply list_elem_of_lookup_2. by apply writer_lookup. }
  apply (binary_search_found String.compare) in Eb.
  rewrite (subslice_filter (λ a b, order inv a b = Lt)); [|by apply envelopes_ordered|..].
  - unfold with_key, ids, identities. rewrite lfilter_map. f_equal. apply filter_ext_in. intros e He%list_elem_of_In.
    apply eq_bool_prop_intro. rewrite !Is_true_true, andb_true_iff, negb_true_iff, bool_decide_eq_true.
    rewrite <- not_true_iff_false, !before_true.
    assert (Hsq : is_sequence (ce_sequence e)).
    { apply (Hseq (identity inv e)), list_elem_of_fmap. eauto. }
    unfold sat_add64, REPLICATION_BUCKET_WIDTH, u64_max. unfold is_sequence in *.
    rewrite Z.min_r by lia.
    destruct (ok_entries _ Hok e He) as [Hlt _].
    assert (Hwr : ce_writer e = w ↔ writer_name inv (ce_writer e) = writer).
    { pose proof (increasing_compare String.compare _ _ _ _ _ (ok_writers _ Hok) (writer_lookup _ _ Hlt) Eb) as Hc.
      rewrite <- (cmp_eq (cmp := String.compare)), <- Hc. symmetry. apply Nat.compare_eq_iff. }
    pose proof (bucket_start_spec (ce_sequence e) start Hal) as Hb.
    unfold REPLICATION_BUCKET_WIDTH in Hb. unfold range_key. cbn [identity eid_writer eid_sequence].
    split.
    + intros [Hn [Hl|[Hw Hl]]]; [tauto|]. f_equal; [by apply Hwr|]. apply Hb. split; [|lia].
      destruct (Z.le_gt_cases start (ce_sequence e)); [done|]. exfalso. apply Hn. right. split; [done|lia].
    + intros [= Hw Hs]. apply Hwr in Hw. apply Hb in Hs. split; [|right; split; [done|lia]].
      intros [?|[_ ?]]; lia.
  - intros x y Hxy%order_Lt. rewrite !before_true. lia.
  - intros x y Hxy%order_Lt. rewrite !before_true. lia.
  - intros x _. rewrite !before_true. unfold sat_add64, REPLICATION_BUCKET_WIDTH, u64_max, is_sequence in *.
    rewrite Z.min_r by lia. lia.
Qed.

Lemma update_range_spec inv digest r :
  update_range inv digest r = update_identities digest (identities inv r).
Proof.
  unfold update_range, update_identities, identities. revert digest.
  induction r as [|e r IH]; intros digest; simpl; [done|]. by rewrite IH.
Qed.

Lemma digest_of_spec inv domain r :
  digest_of inv domain r = replication_identity_digest domain (identities inv r).
Proof. unfold digest_of, replication_identity_digest. by rewrite update_range_spec. Qed.

Lemma keys_ascend_sorted l : sorted l → keys_ascend range_compare range_key l.
Proof.
  intros Hs. induction Hs as [|x l _ IH Hx]; constructor; [done|]. rewrite List.Forall_forall in *.
  intros y Hy. specialize (Hx y Hy). unfold ReplicaEnvelopeId_compare in Hx. unfold range_compare, range_key.
  cbn [fst snd]. destruct (String.compare (eid_writer x) (eid_writer y)); simpl in *; [|done|done].
  assert (eid_sequence x ≤ eid_sequence y)%Z
    by (destruct (Z.compare_spec (eid_sequence x) (eid_sequence y)); [lia|lia|done]).
  apply (Z.compare_ngt_iff). unfold replication_bucket_start, REPLICATION_BUCKET_WIDTH.
  pose proof (Z.div_mod (eid_sequence x) 256 ltac:(lia)). pose proof (Z.div_mod (eid_sequence y) 256 ltac:(lia)).
  pose proof (Z.div_le_mono (eid_sequence x) (eid_sequence y) 256 ltac:(lia) ltac:(lia)). lia.
Qed.

Definition same_range (a b : ReplicaEnvelopeId) : bool := bool_decide (range_key a = range_key b).

Lemma chunks_are_ranges l : sorted l → chunk_by same_range l = ranges l.
Proof. intros Hs. apply (chunk_by_keys range_compare range_key); [done|by apply keys_ascend_sorted]. Qed.

Lemma concat_ranges l : sorted l → concat (ranges l) = l.
Proof. intros Hs. rewrite <- chunks_are_ranges by done. apply concat_chunk_by. Qed.

Lemma range_keys_elem l k : k ∈ range_keys l ↔ k ∈ map range_key l.
Proof. apply (elem_of_bt_set range_compare). Qed.

Lemma bucket_spec inv r k l :
  identities inv r = with_key range_key k l → k ∈ map range_key l → bucket inv r = Some (range_bucket l k).
Proof.
  intros E Hk. destruct (with_key_nonempty range_key k l Hk) as (x & t & Ex & Hx).
  destruct r as [|e r]; [rewrite Ex in E; done|]. unfold bucket, range_bucket.
  rewrite digest_of_spec, <- E. unfold replication_bucket_digest, identities. rewrite length_map.
  rewrite Ex in E. cbn [identities map] in E. injection E as <- _. subst k. done.
Qed.

(** The ranges of the compact form are those of its identities, and none is empty. *)
Lemma buckets_spec inv : inventory_ok inv → buckets inv = Some (public_buckets (ids inv)).
Proof.
  intros Hok. unfold buckets, public_buckets.
  assert (Hch : map (identities inv) (chunk_by same_chunk (ci_envelopes inv)) = ranges (ids inv)).
  { rewrite <- chunks_are_ranges by apply Hok. symmetry. apply chunk_by_map. intros x y Hx Hy.
    unfold same_chunk, same_range, range_key. cbn [identity eid_writer eid_sequence].
    destruct (ok_entries _ Hok x Hx) as [Hlx _]. destruct (ok_entries _ Hok y Hy) as [Hly _].
    pose proof (increasing_compare String.compare _ _ _ _ _ (ok_writers _ Hok)
                  (writer_lookup _ _ Hlx) (writer_lookup _ _ Hly)) as Hc.
    apply eq_bool_prop_intro. rewrite !Is_true_true, andb_true_iff, bool_decide_eq_true, Nat.eqb_eq, Z.eqb_eq.
    rewrite pair_equal_spec, <- (cmp_eq (cmp := String.compare) (writer_name inv (ce_writer x))), <- Hc.
    by rewrite Nat.compare_eq_iff. }
  apply mapM_Some. unfold ranges in Hch.
  assert (Hk : ∀ k, k ∈ range_keys (ids inv) → k ∈ map range_key (ids inv)) by (intros k; apply range_keys_elem).
  revert Hch Hk. generalize (chunk_by same_chunk (ci_envelopes inv)) as cs. generalize (range_keys (ids inv)) as ks.
  intros ks. induction ks as [|k ks IH]; intros [|c cs] Hch Hk; simpl in *; try done.
  injection Hch as Hc Hcs. constructor; [|apply IH; [done|set_solver]].
  apply bucket_spec; [done|]. apply Hk. by left.
Qed.

(** *** Resuming the digest *)

(** The state of the inventory digest before a range. *)
Definition state_before (l : list ReplicaEnvelopeId) (i : nat) : list ascii :=
  update_identities INVENTORY_DIGEST_DOMAIN (concat (take i (ranges l))).

Definition states (l : list ReplicaEnvelopeId) (n : nat) : list (list ascii) :=
  map (state_before l) (List.seq 0 n).

Lemma update_identities_app d a b : update_identities d (a ++ b) = update_identities (update_identities d a) b.
Proof. unfold update_identities. apply fold_left_app. Qed.

Lemma concat_take_S {A} (rs : list (list A)) j r :
  rs !! j = Some r → concat (take (S j) rs) = concat (take j rs) ++ r.
Proof. intros Hr. by rewrite (take_S_r _ _ _ Hr), concat_app, concat_cons, app_nil_r. Qed.

Lemma state_before_S l j r :
  ranges l !! j = Some r → state_before l (S j) = update_identities (state_before l j) r.
Proof. intros Hr. unfold state_before. by rewrite (concat_take_S _ _ _ Hr), update_identities_app. Qed.

Lemma resume_turn_spec inv j b :
  inventory_ok inv → public_buckets (ids inv) !! j = Some b →
  resume_turn inv (states (ids inv) j, state_before (ids inv) j, length (concat (take j (ranges (ids inv))))) b
  = (states (ids inv) (S j), state_before (ids inv) (S j), length (concat (take (S j) (ranges (ids inv))))).
Proof.
  intros Hok Hb. unfold public_buckets in Hb. apply list_lookup_fmap_Some in Hb as (k & -> & Hk).
  assert (Hr : ranges (ids inv) !! j = Some (with_key range_key k (ids inv)))
    by (unfold ranges; by rewrite (list_lookup_fmap (λ k, with_key range_key k (ids inv))), Hk).
  unfold resume_turn, states. rewrite List.seq_S, map_app. cbn [map Nat.add range_bucket bk_count].
  rewrite Nat2Z.id, update_range_spec. rewrite (concat_take_S _ _ _ Hr), length_app.
  rewrite (state_before_S _ _ _ Hr). do 2 f_equal. f_equal. unfold identities. rewrite subslice_map.
  assert (Eids : ids inv = concat (take j (ranges (ids inv))) ++ with_key range_key k (ids inv)
                             ++ concat (drop (S j) (ranges (ids inv)))).
  { by rewrite <- concat_cons, <- concat_app, (take_drop_middle _ _ _ Hr), concat_ranges by apply Hok. }
  change (map (identity inv) (ci_envelopes inv)) with (ids inv).
  etransitivity; [|apply subslice_app]. f_equal. exact Eids.
Qed.

Lemma resume_loop_spec inv bs j :
  inventory_ok inv → bs = public_buckets (ids inv) → (j ≤ length bs)%nat →
  fold_left (resume_turn inv) (drop j bs)
    (states (ids inv) j, state_before (ids inv) j, length (concat (take j (ranges (ids inv)))))
  = (states (ids inv) (length bs), state_before (ids inv) (length bs), length (ids inv)).
Proof.
  intros Hok -> Hj. remember (length (public_buckets (ids inv)) - j)%nat as n eqn:Hn.
  revert j Hj Hn. induction n as [|n IH]; intros j Hj Hn.
  - assert (j = length (public_buckets (ids inv))) as -> by lia. rewrite drop_all. simpl.
    rewrite (take_ge (ranges _)), concat_ranges; [done|apply Hok|].
    unfold ranges, public_buckets. by rewrite !length_map.
  - destruct (lookup_lt_is_Some_2 (public_buckets (ids inv)) j) as [b Hb]; [lia|].
    rewrite (drop_S _ _ _ Hb). cbn [fold_left]. rewrite (resume_turn_spec _ _ _ Hok Hb). apply IH; lia.
Qed.

Lemma length_public_buckets l : length (public_buckets l) = length (ranges l).
Proof. unfold public_buckets, ranges. by rewrite !length_map. Qed.

Lemma counts_before l j :
  list_sum (map (λ b, Z.to_nat (bk_count b)) (take j (public_buckets l))) = length (concat (take j (ranges l))).
Proof.
  unfold public_buckets, ranges. rewrite !firstn_map, List.map_map. cbn [range_bucket bk_count].
  generalize (take j (range_keys l)) as ks. intros ks.
  induction ks as [|k ks IH]; simpl; [done|]. by rewrite IH, Nat2Z.id, length_app.
Qed.

Lemma states_take l (prefixes : list (list ascii)) n :
  (n ≤ length prefixes)%nat → (∀ i s, (i < n)%nat → prefixes !! i = Some s → s = state_before l i) →
  take n prefixes = states l n.
Proof.
  intros Hn Hp. unfold states. apply list_eq. intros i. rewrite (list_lookup_fmap (state_before l)).
  destruct (decide (i < n)%nat) as [Hi|Hi].
  - rewrite lookup_take_lt by done. destruct (lookup_lt_is_Some_2 prefixes i) as [s Hs]; [lia|].
    rewrite Hs, lookup_seq_lt by done. simpl. f_equal. by apply Hp.
  - rewrite lookup_take_ge by lia. by rewrite lookup_seq_ge by lia.
Qed.

(** Resuming at a range before which nothing changed gives the digest of the whole inventory, and the
    states to resume from next. *)
Lemma resume_digest_spec inv prefixes from :
  inventory_ok inv → (from ≤ length (public_buckets (ids inv)))%nat →
  (∀ i s, (i ≤ from)%nat → prefixes !! i = Some s → s = state_before (ids inv) i) →
  resume_digest inv (public_buckets (ids inv)) prefixes from
  = (refresh_digest inv, states (ids inv) (length (public_buckets (ids inv)))).
Proof.
  intros Hok Hfrom Hp. unfold resume_digest. set (from' := Nat.min from (length prefixes - 1)).
  assert (Hle : (from' ≤ from)%nat) by (unfold from'; lia).
  assert (Hd : default INVENTORY_DIGEST_DOMAIN (prefixes !! from') = state_before (ids inv) from').
  { destruct (prefixes !! from') as [s|] eqn:Es; simpl; [by apply Hp|].
    apply lookup_ge_None in Es. assert (from' = 0%nat) as -> by (unfold from' in *; lia). done. }
  rewrite Hd, (states_take (ids inv)) by
    first [unfold from'; lia | intros i s Hi; apply Hp; lia].
  rewrite (Nat.min_l from') by lia. rewrite counts_before.
  rewrite (resume_loop_spec inv _ from' Hok) by (done || lia).
  f_equal. unfold refresh_digest, digest_of. f_equal. f_equal. rewrite update_range_spec.
  unfold state_before. rewrite length_public_buckets, take_ge by done. by rewrite concat_ranges by apply Hok.
Qed.

(** ** What a digest pins down *)

Definition identity_bytes (i : ReplicaEnvelopeId) : list ascii :=
  frame (eid_writer i) ++ frame (u_to_string (eid_sequence i)) ++ frame (eid_hash i).

Definition identity_ok (i : ReplicaEnvelopeId) : Prop :=
  (Z.of_nat (String.length (eid_writer i)) ≤ u64_max)%Z ∧ is_u64 (eid_sequence i) ∧
  (Z.of_nat (String.length (eid_hash i)) ≤ u64_max)%Z.

(** The digest of two lists is the same though the hashed bytes differ. *)
Definition collides (domain : list ascii) (l l' : list ReplicaEnvelopeId) : Prop :=
  collide finalize (update_identities domain l) (update_identities domain l').

(** A digest that two nodes compare fails to tell them apart: that of their whole inventories, that of
    one of the inventories and of none, or that of one range. *)
Definition confused (a b : list ReplicaEnvelopeId) : Prop :=
  collides INVENTORY_DIGEST_DOMAIN a b ∨ collides INVENTORY_DIGEST_DOMAIN a [] ∨
  collides INVENTORY_DIGEST_DOMAIN b [] ∨
  ∃ k, collides BUCKET_DIGEST_DOMAIN (with_key range_key k a) (with_key range_key k b).

Lemma collides_sym d a b : collides d a b → collides d b a.
Proof. intros [Hne E]. by split; [apply not_eq_sym|]. Qed.

Lemma confused_sym a b : confused a b → confused b a.
Proof.
  intros [?|[?|[?|[k ?]]]]; [left; by apply collides_sym|right; right; by left|right; by left|].
  right; right; right. exists k. by apply collides_sym.
Qed.

Lemma prefix_code_identity : prefix_code identity_bytes identity_ok.
Proof.
  intros [w s h] [w' s' h'] x y (Hw & Hs & Hh) (Hw' & Hs' & Hh') E.
  cbn [eid_writer eid_sequence eid_hash] in *. unfold identity_bytes in E.
  cbn [eid_writer eid_sequence eid_hash] in E. rewrite <- !app_assoc in E. unfold is_u64 in *.
  assert (Hn : ∀ z, (0 ≤ z ≤ u64_max)%Z → (Z.of_nat (String.length (u_to_string z)) ≤ u64_max)%Z).
  { intros z Hz. assert (0 ≤ z ≤ u128_max)%Z as Hl%length_u_to_string by (unfold u64_max, u128_max in *; lia).
    unfold u64_max. lia. }
  apply frame_inj in E as [-> E]; [|done..]. apply frame_inj in E as [Es E]; [|by apply Hn..].
  apply frame_inj in E as [-> ->]; [|done..]. apply u_to_string_inj in Es as ->; [done|lia..].
Qed.

Lemma update_identities_bytes d l : update_identities d l = d ++ concat (map identity_bytes l).
Proof.
  unfold update_identities. revert d. induction l as [|i l IH]; intros d; cbn [fold_left map concat];
    [by rewrite app_nil_r|].
  rewrite IH. unfold update_identity_digest, identity_bytes. cbn [fold_left]. by rewrite <- !app_assoc.
Qed.

Lemma identity_bytes_nonempty i : identity_bytes i ≠ [].
Proof.
  intros E%(f_equal length). unfold identity_bytes, frame in E. rewrite !length_app, !length_be_bytes in E.
  simpl in E. lia.
Qed.

(** A set of identities whose fields fit their frames. *)
Definition framed (l : list ReplicaEnvelopeId) : Prop := sorted l ∧ Forall identity_ok l.

Lemma framed_nil : framed [].
Proof. split; constructor. Qed.

Lemma identity_digest_inj domain l l' :
  Forall identity_ok l → Forall identity_ok l' →
  replication_identity_digest domain l = replication_identity_digest domain l' → l = l' ∨ collides domain l l'.
Proof.
  intros Hl Hl' E. destruct (decide (update_identities domain l = update_identities domain l')) as [Eu|Hne].
  - left. rewrite !update_identities_bytes in Eu. apply app_inv_head in Eu.
    by apply (prefix_code_lists identity_bytes identity_ok); auto using prefix_code_identity, identity_bytes_nonempty.
  - by right.
Qed.

Lemma inventory_digest_inj l l' :
  framed l → framed l' → replication_inventory_digest l = replication_inventory_digest l' →
  l = l' ∨ collides INVENTORY_DIGEST_DOMAIN l l'.
Proof. intros [_ ?] [_ ?]. by apply identity_digest_inj. Qed.

Lemma range_digest_inj k l l' :
  framed l → framed l' →
  replication_bucket_digest (with_key range_key k l) = replication_bucket_digest (with_key range_key k l') →
  with_key range_key k l = with_key range_key k l' ∨
  collides BUCKET_DIGEST_DOMAIN (with_key range_key k l) (with_key range_key k l').
Proof.
  intros [_ Hl] [_ Hl']. rewrite Forall_forall in Hl, Hl'.
  apply identity_digest_inj; apply Forall_forall; intros i [Hi _]%elem_of_with_key; auto.
Qed.

(** Ranges with one digest are equal, unless two inventories are confused. *)
Lemma ranges_or_confused (ks : list (string * Z)) a b :
  framed a → framed b →
  (∀ k, k ∈ ks → replication_bucket_digest (with_key range_key k a) = replication_bucket_digest (with_key range_key k b) →
        with_key range_key k a = with_key range_key k b) ∨ confused a b.
Proof.
  intros Ha Hb. induction ks as [|k ks [IH|?]]; [left; by intros k ?%elem_of_nil| |by right].
  destruct (decide (replication_bucket_digest (with_key range_key k a) = replication_bucket_digest (with_key range_key k b)))
    as [E|Hne].
  - destruct (range_digest_inj k a b Ha Hb E) as [Ek|?]; [left|right; right; right; right; by exists k].
    intros k' [->|Hk']%elem_of_cons; [done|by apply IH].
  - left. intros k' [->|Hk']%elem_of_cons E; [done|by apply IH].
Qed.

Lemma mark_last_spec inv es e i :
  inventory_ok inv → ci_envelopes inv = es ++ [e] → identity inv e = i →
  inventory_ok (mark_last_payloadless inv) ∧ ids (mark_last_payloadless inv) = ids inv ∧
  ci_writers (mark_last_payloadless inv) = ci_writers inv ∧
  ∀ x, payload_of (mark_last_payloadless inv) x = payload_of inv x && negb (same_mark i x).
Proof.
  clear sha256. intros Hok Ees <-. assert (He : entry_ok inv e) by (apply Hok; rewrite Ees; set_solver).
  unfold mark_last_payloadless. rewrite Ees, last_snoc.
  pose proof (entry_hash_text _ _ He) as Ht. destruct He as [_ Hh].
  destruct (ce_irregular e =? 0)%nat eqn:Ei.
  - split_and!; [by destruct Hok as [Hw Hen Hs]; split; [|rewrite Ees in Hen|unfold ids in *; rewrite Ees in Hs]
                |by unfold ids; rewrite Ees|done|].
    intros x. unfold payload_of, same_mark. cbn [ci_payloadless ci_payloadless_irregular identity eid_hash].
    rewrite Ht. unfold hash_text. rewrite Ei. unfold str_eqb.
    destruct (sha256_text (eid_hash x)) eqn:Ex.
    + destruct (hex_decode_text _ Ex) as (k & -> & Hk & Hex). destruct (decide (k = ce_hash e)) as [->|Hne].
      * rewrite bool_decide_true by set_solver. rewrite (bool_decide_true (eid_hash x = _)) by done.
        by rewrite andb_false_r.
      * rewrite (bool_decide_false (eid_hash x = _)) by (intros E; apply Hne; by apply hex_encode_inj; congruence).
        rewrite andb_true_r. f_equal. apply bool_decide_ext. set_solver.
    + rewrite (bool_decide_false (eid_hash x = _)); [by rewrite andb_true_r|].
      intros E. rewrite E, hex_encode_text in Ex by done. done.
  - split_and!; [by destruct Hok as [Hw Hen Hs]; split; [|rewrite Ees in Hen|unfold ids in *; rewrite Ees in Hs]
                |by unfold ids; rewrite Ees|done|].
    intros x. unfold payload_of, same_mark. cbn [ci_payloadless ci_payloadless_irregular].
    change (eid_hash (identity inv e)) with (hash_text inv e). rewrite Ht.
    destruct (decide (x = identity inv e)) as [->|Hne].
    + change (eid_hash (identity inv e)) with (hash_text inv e). rewrite Ht.
      rewrite (bool_decide_true (_ = _)) by done. rewrite bool_decide_true by set_solver. by rewrite andb_false_r.
    + rewrite (bool_decide_false (x = _)) by done. rewrite andb_true_r.
      destruct (sha256_text (eid_hash x)); [done|]. f_equal. apply bool_decide_ext. set_solver.
Qed.
Lemma empty_inventory_ok : inventory_ok empty_inventory.
Proof. split; [constructor|by intros e ?%elem_of_nil|constructor]. Qed.

Lemma inserted_spec l inv :
  inventory_ok inv →
  inventory_ok (fold_left insert l inv) ∧
  ids (fold_left insert l inv) = bt_set ReplicaEnvelopeId_compare (l ++ ids inv).
Proof.
  revert inv. induction l as [|i l IH]; intros inv Hok; cbn [fold_left app].
  { split; [done|]. symmetry. apply (sorted_ext ReplicaEnvelopeId_compare);
      [apply (bt_set_sorted ReplicaEnvelopeId_compare)|by apply Hok|intros x; apply (elem_of_bt_set ReplicaEnvelopeId_compare)]. }
  destruct (insert_spec inv i Hok) as (Hok' & Hids & _). destruct (IH _ Hok') as [? ->]. split; [done|].
  apply (bt_set_ext ReplicaEnvelopeId_compare). intros x. rewrite Hids.
  rewrite elem_of_app, (elem_of_bt_set ReplicaEnvelopeId_compare), !elem_of_cons, elem_of_app. tauto.
Qed.
End compact.
End Compact.
Import Compact.

(** C18. Identities inserted into the compact inventory in any order, twice or not, read back as the
    sorted set of them, whatever writers and hash texts the inventory interned on the way: the public
    form lists that set with its digest, the summaries are those of its ranges, and looking up a range
    gives the identities of it. *)
Theorem inventory_refines_a_set {hex : HexApi} sha256 l :
  sequences_ok l →
  let inv := refresh_digest sha256 (fold_left insert l empty_inventory) in
  let set := bt_set ReplicaEnvelopeId_compare l in
  public inv = mkReplicationInventory (replication_inventory_digest sha256 set) set [] None None ∧
  buckets sha256 inv = Some (public_buckets sha256 set) ∧
  ∀ writer start, is_sequence start → replication_bucket_start start = start →
    identities inv (range inv writer start) = with_key range_key (writer, start) set.
Proof.
  intros Hseq inv0 set. destruct (inserted_spec l empty_inventory empty_inventory_ok) as [Hok Hids].
  rewrite app_nil_r in Hids. fold set in Hids.
  assert (Hok0 : inventory_ok inv0) by (destruct Hok; by split).
  assert (Hids0 : ids inv0 = set) by exact Hids.
  split_and!.
  - unfold public. f_equal; [|exact Hids0]. unfold inv0, refresh_digest. cbn [with_digest ci_digest].
    rewrite digest_of_spec. by rewrite <- Hids.
  - by rewrite buckets_spec, Hids0.
  - intros writer start Hs Ha. rewrite range_spec; rewrite ?Hids0; [done|done| |done|done].
    intros i Hi. apply Hseq. by apply (elem_of_bt_set ReplicaEnvelopeId_compare).
Qed.

(** ** Lowercase hexadecimal

    The encoding [HexApi] describes. *)

Definition nibble (n : Z) : ascii := byte_of (if n <? 10 then 48 + n else 87 + n)%Z.
Definition unnibble (c : ascii) : Z :=
  if in_range 48 57 c then (byte_val c - 48)%Z else (byte_val c - 87)%Z.
Definition hex_digits (b : ascii) : list ascii := [nibble (byte_val b / 16); nibble (byte_val b mod 16)].

Fixpoint pairs (l : list ascii) : list ascii :=
  match l with
  | a :: b :: l' => byte_of (16 * unnibble a + unnibble b) :: pairs l'
  | _ => []
  end.

Lemma lower_hex_digit c : is_lower_hex c = true → nibble (unnibble c) = c ∧ (0 ≤ unnibble c < 16)%Z.
Proof.
  unfold is_lower_hex, nibble, unnibble. rewrite orb_true_iff, !in_range_spec.
  pose proof (byte_val_range c) as Hc. intros H.
  destruct (in_range 48 57 c) eqn:E; [apply in_range_spec in E|].
  - rewrite (proj2 (Z.ltb_lt _ _)) by lia. split; [|lia].
    replace (48 + (byte_val c - 48))%Z with (byte_val c) by lia. apply byte_of_val.
  - assert (97 ≤ byte_val c ≤ 102)%Z.
    { destruct H as [H|H]; [|done]. apply in_range_spec in H. congruence. }
    rewrite (proj2 (Z.ltb_ge _ _)) by lia. split; [|lia].
    replace (87 + (byte_val c - 87))%Z with (byte_val c) by lia. apply byte_of_val.
Qed.

Lemma byte_val_nibble n : (0 ≤ n < 16)%Z →
  byte_val (nibble n) = (if n <? 10 then 48 + n else 87 + n)%Z.
Proof. intros Hn. unfold nibble. rewrite byte_val_of. apply Z.mod_small. destruct (n <? 10)%Z eqn:E; lia. Qed.

Lemma nibble_lower_hex n : (0 ≤ n < 16)%Z → is_lower_hex (nibble n) = true.
Proof.
  intros Hn. unfold is_lower_hex. rewrite orb_true_iff, !in_range_spec, byte_val_nibble by done.
  destruct (n <? 10)%Z eqn:E; [apply Z.ltb_lt in E|apply Z.ltb_ge in E]; lia.
Qed.

Lemma nibble_compare m n : (0 ≤ m < 16)%Z → (0 ≤ n < 16)%Z →
  (byte_val (nibble m) ?= byte_val (nibble n))%Z = (m ?= n)%Z.
Proof.
  intros Hm Hn. rewrite !byte_val_nibble by done.
  destruct (m <? 10)%Z eqn:E; [apply Z.ltb_lt in E|apply Z.ltb_ge in E];
    (destruct (n <? 10)%Z eqn:F; [apply Z.ltb_lt in F|apply Z.ltb_ge in F]);
    destruct (Z.compare_spec m n); first [apply Z.compare_eq_iff|apply Z.compare_lt_iff|apply Z.compare_gt_iff]; lia.
Qed.

Lemma nibbles_range b : (0 ≤ byte_val b / 16 < 16)%Z ∧ (0 ≤ byte_val b mod 16 < 16)%Z.
Proof.
  pose proof (byte_val_range b). split; [|apply Z.mod_pos_bound; lia].
  split; [apply Z.div_pos; lia|apply Z.div_lt_upper_bound; lia].
Qed.

Lemma hex_digits_compare a b :
  length a = length b →
  bytes_compare (concat (map hex_digits a)) (concat (map hex_digits b)) = bytes_compare a b.
Proof.
  revert b. induction a as [|x a IH]; intros [|y b] Hl; try done. injection Hl as Hl.
  destruct (nibbles_range x), (nibbles_range y). cbn [map concat hex_digits app bytes_compare].
  rewrite IH, !nibble_compare by done. rewrite (Z_compare_div_mod 16 (byte_val x) (byte_val y)) by lia.
  by rewrite then_with_assoc.
Qed.

Lemma str_compare_bytes a b : String.compare (str_of a) (str_of b) = bytes_compare a b.
Proof.
  revert b. induction a as [|x a IH]; intros [|y b]; try done. cbn [bytes_compare]. rewrite <- IH.
  unfold str_of. cbn [String.string_of_list_ascii String.compare]. unfold Ascii.compare, byte_val.
  rewrite N2Z.inj_compare. by destruct (N_of_ascii x ?= N_of_ascii y)%N.
Qed.

Lemma pairs_spec n l : length l = (2 * n)%nat → forallb is_lower_hex l = true →
  length (pairs l) = n ∧ concat (map hex_digits (pairs l)) = l.
Proof.
  revert l. induction n as [|n IH]; intros l Hl Hd; [by destruct l|].
  destruct l as [|a [|b l]]; [simpl in Hl; lia..|]. simpl in Hl.
  cbn [forallb] in Hd. apply andb_true_iff in Hd as [Ha [Hb Hd]%andb_true_iff].
  destruct (IH l) as [H1 H2]; [lia|done|]. cbn [pairs map concat length]. rewrite H1, H2. split; [done|].
  apply lower_hex_digit in Ha as [Ea Ra]. apply lower_hex_digit in Hb as [Eb Rb].
  unfold hex_digits. rewrite byte_val_of, Z.mod_small by lia.
  rewrite (Z.mul_comm 16), Z.div_add_l, Z.div_small, Z.add_0_r by lia.
  rewrite Z.add_comm, Z.mod_add, Z.mod_small by lia. by rewrite Ea, Eb.
Qed.

Definition lower_hex_encode (l : list ascii) : string := str_of (concat (map hex_digits l)).

Lemma length_hex_digits l : length (concat (map hex_digits l)) = (2 * length l)%nat.
Proof. induction l as [|b l IH]; [done|]. cbn [map concat hex_digits app length]. rewrite IH. lia. Qed.

Program Definition lower_hex : HexApi := {|
  hex_encode := lower_hex_encode;
  hex_decode s := Some (pairs (bytes_of s))
|}.
Next Obligation.
  intros s [Hl%Nat.eqb_eq Hd]%andb_true_iff. destruct (pairs_spec 32 (bytes_of s)) as [H1 H2]; [|done|].
  - by rewrite length_bytes_of.
  - eexists; split_and!; [done..|]. unfold lower_hex_encode. by rewrite H2, str_of_bytes_of.
Qed.
Next Obligation.
  intros h Hl. unfold sha256_text, lower_hex_encode. rewrite <- length_bytes_of, bytes_of_str_of, length_hex_digits, Hl.
  simpl. clear Hl. induction h as [|b h IH]; [done|]. destruct (nibbles_range b).
  cbn [map concat hex_digits app forallb]. by rewrite !nibble_lower_hex, IH.
Qed.
Next Obligation.
  intros a b Ha Hb. unfold lower_hex_encode. rewrite str_compare_bytes. apply hex_digits_compare. congruence.
Qed.

(** ** Witnesses *)

Definition three_ids : list ReplicaEnvelopeId :=
  [mkReplicaEnvelopeId "host/b" 300 "a"; mkReplicaEnvelopeId "host/a" 5 "b"; mkReplicaEnvelopeId "host/b" 300 "a"].

Lemma inventory_refines_a_set_witness :
  let inv := fold_left (insert (hex := lower_hex)) three_ids empty_inventory in
  ri_envelopes (public (hex := lower_hex) (refresh_digest (hex := lower_hex) (λ x, x) inv))
  = [mkReplicaEnvelopeId "host/a" 5 "b"; mkReplicaEnvelopeId "host/b" 300 "a"].
Proof.
  intros inv. destruct (inventory_refines_a_set (hex := lower_hex) (λ x, x) three_ids) as [E _].
  - intros i Hi. cbn in Hi. repeat (apply elem_of_cons in Hi as [->|Hi]; [done|]). by apply elem_of_nil in Hi.
  - unfold inv. by rewrite E.
Defined.
