(* ===== verification/Snapshot.v ===== *)
(** * Replication snapshots

    Models how [crates/smallclaims/src/store.rs] keeps the inventory it tells peers: the inventory
    read whole from the two tables ([full_compact_replication_inventory]), and the snapshot that
    extends its predecessor by the new rows ([build_replication_snapshot]). The tables are lists of
    rows; rowids are SQLite's, one more than the highest in use. The graph digests a snapshot also
    carries are not modelled. A panic is [None]. *)

From Stdlib Require Import Ascii.
From S2P Require Import Prelude StableSort Text Json Bytes Order BTree Slices Claim Hash Inventory.
Import Compact.

Local Abbreviation sorted := (StronglySorted (λ a b, ReplicaEnvelopeId_compare a b = Lt)).

(** ** The tables *)

Record Tables := mkTables {
  replica_envelopes : list (Z * ReplicaEnvelopeId);
  checkpoint_envelopes : list ReplicaEnvelopeId
}.

Definition stored (t : Tables) : list ReplicaEnvelopeId := map snd (replica_envelopes t).
Definition held (t : Tables) (i : ReplicaEnvelopeId) : bool := bool_decide (i ∈ stored t).

Definition max_rowid (rows : list (Z * ReplicaEnvelopeId)) : Z :=
  fold_left (λ m row, Z.max m row.1) rows 0%Z.

(** The rows of the union, [(rowid, identity, has a payload)], by writer, sequence and hash. *)
Definition inventory_rows (t : Tables) : list (Z * ReplicaEnvelopeId * bool) :=
  rows_in_order ReplicaEnvelopeId_compare (λ row, row.1.2)
    (map (λ row, (row.1, row.2, true)) (replica_envelopes t)
     ++ map (λ i, (0%Z, i, false)) (List.filter (λ i, negb (held t i)) (checkpoint_envelopes t))).

Record ReplicationSnapshot := mkSnapshot {
  sn_max_envelope_rowid : Z;
  sn_envelope_rows : nat;
  sn_tombstone_rows : nat;
  sn_inventory : CompactReplicationInventory;
  sn_buckets : list ReplicationInventoryBucket;
  sn_digest_prefixes : list (list ascii);
  sn_authority_digest : string
}.

(** ** The state of the tables *)

Definition all_ids (t : Tables) : list ReplicaEnvelopeId := stored t ++ checkpoint_envelopes t.

(** What a peer is told, in order. *)
Definition listed (t : Tables) : list ReplicaEnvelopeId := bt_set ReplicaEnvelopeId_compare (all_ids t).

(** The tables' keys, and that an envelope's hash names it. *)
Record tables_ok (t : Tables) : Prop := {
  to_rowids : NoDup (map fst (replica_envelopes t));
  to_positive : ∀ row, row ∈ replica_envelopes t → (0 < row.1)%Z;
  to_stored : NoDup (stored t);
  to_tombstones : NoDup (checkpoint_envelopes t);
  to_sequences : sequences_ok (all_ids t);
  to_hashes : ∀ a b, a ∈ all_ids t → b ∈ all_ids t → eid_hash a = eid_hash b → a = b
}.

(** ** Greatest rowids *)

Lemma fold_max_le {A} (f : A → Z) l m z :
  (fold_left (λ m x, Z.max m (f x)) l m ≤ z ↔ m ≤ z ∧ ∀ x, x ∈ l → f x ≤ z)%Z.
Proof.
  revert m. induction l as [|x l IH]; intros m; simpl.
  - split; [intros; split; [done|by intros x ?%elem_of_nil]|by intros [? _]].
  - rewrite IH, Z.max_lub_iff. setoid_rewrite elem_of_cons. naive_solver.
Qed.

Lemma fold_max_unique {A} (f : A → Z) l m n :
  (m ≤ n)%Z → (∀ x, x ∈ l → (f x ≤ n)%Z) → (n = m ∨ ∃ x, x ∈ l ∧ f x = n) →
  fold_left (λ m x, Z.max m (f x)) l m = n.
Proof.
  intros Hm Hl Hn. apply Z.le_antisymm; [by apply fold_max_le|].
  pose proof (proj1 (fold_max_le f l m _) (Z.le_refl _)) as [H1 H2].
  destruct Hn as [->|(x & Hx & <-)]; [done|by apply H2].
Qed.

Lemma fold_max_attained {A} (f : A → Z) l m :
  let n := fold_left (λ m x, Z.max m (f x)) l m in n = m ∨ ∃ x, x ∈ l ∧ f x = n.
Proof.
  revert m. induction l as [|x l IH]; intros m; simpl; [by left|].
  destruct (IH (Z.max m (f x))) as [E|(y & Hy & E)].
  - rewrite E. destruct (Z.max_spec m (f x)) as [[_ ->]|[_ ->]]; [right; exists x; set_solver|by left].
  - right. exists y. split; [by right|done].
Qed.

Section snapshot.
Context {hex : HexApi} (sha256 : list ascii → list ascii).

Definition push_row (state : CompactReplicationInventory * Z) (row : Z * ReplicaEnvelopeId * bool) :
    CompactReplicationInventory * Z :=
  let '(inv, max) := state in
  let '(rowid, i, payload) := row in
  let inv := push_sorted inv i in
  (if payload : bool then inv else mark_last_payloadless inv, Z.max max rowid).

Definition full_compact_replication_inventory (t : Tables) : CompactReplicationInventory * Z :=
  let '(inv, max) := fold_left push_row (inventory_rows t) (empty_inventory, 0%Z) in
  (refresh_digest sha256 inv, max).

(** [SELECT ... WHERE rowid>?1 ORDER BY rowid]. *)
Definition additions_since (t : Tables) (rowid : Z) : list (Z * ReplicaEnvelopeId) :=
  sort_by (zkey_leb fst) (List.filter (λ row, (rowid <? row.1)%Z) (replica_envelopes t)).

(** A new digest for one range that gained an envelope. *)
Definition renew_bucket (inv : CompactReplicationInventory) (bs : option (list ReplicationInventoryBucket))
    (key : string * Z) : option (list ReplicationInventoryBucket) :=
  bs ← bs; b ← bucket sha256 inv (range inv key.1 key.2);
  Some (match binary_search_by (λ existing, range_compare (bucket_key existing) key) bs with
        | Ok position => <[position := b]> bs
        | Err position => take position bs ++ b :: drop position bs
        end).

Definition range_ltb (a b : string * Z) : bool :=
  match range_compare a b with Lt => true | _ => false end.

(** The first range that gained an envelope. *)
Definition resume_from (bs : list ReplicationInventoryBucket) (touched : list (string * Z)) : nat :=
  match map (λ key, partition_point (λ existing, range_ltb (bucket_key existing) key) bs) touched with
  | [] => length bs
  | p :: ps => fold_left Nat.min ps p
  end.

Definition full_snapshot (t : Tables) :
    option (CompactReplicationInventory * Z * list ReplicationInventoryBucket * list (list ascii) * nat) :=
  let '(inv, max) := full_compact_replication_inventory t in
  bs ← buckets sha256 inv; Some (inv, max, bs, [], 0).

Definition extend_snapshot (previous : ReplicationSnapshot) (additions : list (Z * ReplicaEnvelopeId)) :
    option (CompactReplicationInventory * Z * list ReplicationInventoryBucket * list (list ascii) * nat) :=
  let max := fold_left (λ m row, Z.max m row.1) additions (sn_max_envelope_rowid previous) in
  let touched := bt_set range_compare (map (λ row, range_key row.2) additions) in
  let inv := fold_left (λ inv row, insert inv row.2) additions (sn_inventory previous) in
  bs ← fold_left (renew_bucket inv) touched (Some (sn_buckets previous));
  Some (inv, max, bs, sn_digest_prefixes previous, resume_from bs touched).

Definition build_replication_snapshot (previous : option ReplicationSnapshot) (t : Tables) :
    option ReplicationSnapshot :=
  let envelope_count := length (replica_envelopes t) in
  let tombstone_count := length (checkpoint_envelopes t) in
  '(inv, max, bs, prefixes, from) ←
    match previous with
    | Some previous =>
        let additions := additions_since t (sn_max_envelope_rowid previous) in
        if (envelope_count =? sn_envelope_rows previous + length additions)%nat
           && (tombstone_count =? sn_tombstone_rows previous)%nat
        then extend_snapshot previous additions
        else full_snapshot t
    | None => full_snapshot t
    end;
  let '(inv, prefixes) := resume_digest sha256 inv bs prefixes from in
  Some (mkSnapshot max envelope_count tombstone_count inv bs prefixes (ci_digest inv)).

(** ** Reading the inventory whole *)

(** Which identities are marked as having no payload here. *)
Definition marks_from (unheld : ReplicaEnvelopeId → Prop) (inv : CompactReplicationInventory) : Prop :=
  ∀ x, payload_of inv x = false ↔ ∃ i, unheld i ∧ same_mark i x = true.

Lemma push_sorted_last inv i :
  inventory_ok inv → (∀ x, x ∈ ids inv → ReplicaEnvelopeId_compare x i = Lt) →
  (∀ w, w ∈ ci_writers inv → String.compare w (eid_writer i) ≠ Gt) →
  ∃ es e, ci_envelopes (push_sorted inv i) = es ++ [e] ∧ identity (push_sorted inv i) e = i.
Proof.
  intros Hok Hl Hw. destruct (push_sorted_spec inv i Hok Hl Hw) as (_ & Hids & _).
  unfold ids, identities in Hids. destruct (ci_envelopes (push_sorted inv i)) as [|e es _] eqn:E using rev_ind.
  - by destruct (map _ (ci_envelopes inv)).
  - exists es, e. split; [done|]. rewrite map_app in Hids. by apply app_inj_tail in Hids as [_ ?].
Qed.

Lemma push_row_spec inv max rowid i payload :
  inventory_ok inv → (∀ x, x ∈ ids inv → ReplicaEnvelopeId_compare x i = Lt) →
  (∀ w, w ∈ ci_writers inv → ∃ x, x ∈ ids inv ∧ eid_writer x = w) →
  let '(inv', max') := push_row (inv, max) (rowid, i, payload) in
  inventory_ok inv' ∧ ids inv' = ids inv ++ [i] ∧ max' = Z.max max rowid ∧
  (∀ w, w ∈ ci_writers inv' → ∃ x, x ∈ ids inv' ∧ eid_writer x = w) ∧
  ∀ x, payload_of inv' x = payload_of inv x && (payload || negb (same_mark i x)).
Proof.
  intros Hok Hl Hw. unfold push_row.
  assert (Hwl : ∀ w, w ∈ ci_writers inv → String.compare w (eid_writer i) ≠ Gt).
  { intros w (x & Hx & <-)%Hw. specialize (Hl x Hx). unfold ReplicaEnvelopeId_compare in Hl.
    by destruct (String.compare (eid_writer x) (eid_writer i)). }
  destruct (push_sorted_spec inv i Hok Hl Hwl) as (Hok' & Hids & Hws & Hpay).
  assert (Hws' : ∀ w, w ∈ ci_writers (push_sorted inv i) → ∃ x, x ∈ ids inv ++ [i] ∧ eid_writer x = w).
  { intros w [(x & Hx & <-)%Hw| ->]%Hws; [exists x|exists i]; set_solver. }
  destruct payload; simpl.
  - split_and!; [done|done|done|by rewrite Hids|]. intros x. by rewrite Hpay, andb_true_r.
  - destruct (push_sorted_last inv i Hok Hl Hwl) as (es & e & Ees & Ei).
    destruct (mark_last_spec _ es e i Hok' Ees Ei) as (Hok2 & Hids2 & Hw2 & Hp2).
    rewrite Hids2, Hw2, Hids. split_and!; [done..|]. intros x. by rewrite Hp2, Hpay.
Qed.

Lemma push_rows_spec rows :
  sorted (map (λ row, row.1.2) rows) →
  let '(inv, max) := fold_left push_row rows (empty_inventory, 0%Z) in
  inventory_ok inv ∧ ids inv = map (λ row, row.1.2) rows ∧
  max = fold_left (λ m row, Z.max m row.1.1) rows 0%Z ∧
  (∀ w, w ∈ ci_writers inv → ∃ x, x ∈ ids inv ∧ eid_writer x = w) ∧
  marks_from (λ i, ∃ rowid, (rowid, i, false) ∈ rows) inv.
Proof.
  induction rows as [|[[rowid i] payload] rows IH] using rev_ind; intros Hs.
  - simpl. split_and!; [split; [constructor|by intros e ?%elem_of_nil|constructor]|done|done|by intros w ?%elem_of_nil|].
    intros x. unfold payload_of. simpl. split.
    + destruct (sha256_text _); [destruct (hex_decode _)|]; by rewrite ?bool_decide_false.
    + by intros (i & (r & ?%elem_of_nil) & _).
  - rewrite map_app in Hs. apply (increasing_app ReplicaEnvelopeId_compare) in Hs as (Hs & _ & Hlt).
    rewrite !fold_left_app. cbn [fold_left]. specialize (IH Hs).
    destruct (fold_left push_row rows _) as [inv max]. destruct IH as (Hok & Hids & Hmax & Hw & Hm).
    assert (Hl : ∀ x, x ∈ ids inv → ReplicaEnvelopeId_compare x i = Lt).
    { intros x Hx. rewrite Hids in Hx. apply Hlt; [done|]. by left. }
    pose proof (push_row_spec inv max rowid i payload Hok Hl Hw) as Hp.
    destruct (push_row _ _) as [inv' max']. destruct Hp as (Hok' & Hids' & Hmax' & Hw' & Hp').
    split_and!; [done|by rewrite Hids', Hids, map_app|by rewrite Hmax', Hmax|done|].
    intros x. rewrite Hp', andb_false_iff, (Hm x), orb_false_iff, negb_false_iff. split.
    + intros [(j & (r & Hj) & Hsm)|[-> Hsm]]; [exists j|exists i]; (split; [|done]); [exists r|exists rowid]; set_solver.
    + intros (j & (r & [Hj|Hj]%elem_of_app) & Hsm); [left; by eauto|].
      apply list_elem_of_singleton in Hj. injection Hj as -> -> <-. by right.
Qed.

(** ** What a snapshot says of the tables *)

Definition unheld (t : Tables) (i : ReplicaEnvelopeId) : Prop := i ∈ checkpoint_envelopes t ∧ held t i = false.

(** The inventory read from the tables, before its digest. *)
Record reads_tables (t : Tables) (inv : CompactReplicationInventory) : Prop := {
  rt_ok : inventory_ok inv;
  rt_ids : ids inv = listed t;
  rt_marks : marks_from (unheld t) inv
}.

Record snapshot_of (t : Tables) (sn : ReplicationSnapshot) : Prop := {
  so_max : sn_max_envelope_rowid sn = max_rowid (replica_envelopes t);
  so_rows : sn_envelope_rows sn = length (replica_envelopes t);
  so_tombstones : sn_tombstone_rows sn = length (checkpoint_envelopes t);
  so_inventory : reads_tables t (sn_inventory sn);
  so_digest : ci_digest (sn_inventory sn) = replication_inventory_digest sha256 (listed t);
  so_buckets : sn_buckets sn = public_buckets sha256 (listed t);
  so_prefixes : sn_digest_prefixes sn = states (listed t) (length (sn_buckets sn));
  so_authority : sn_authority_digest sn = replication_inventory_digest sha256 (listed t)
}.

Lemma reads_with_digest t inv d : reads_tables t inv → reads_tables t (with_digest inv d).
Proof. intros [[? ? ?] Hi Hm]. split; [by split|done|done]. Qed.

Lemma inventory_rows_elem t r i b :
  (r, i, b) ∈ inventory_rows t ↔
  (b = true ∧ (r, i) ∈ replica_envelopes t) ∨ (b = false ∧ r = 0%Z ∧ unheld t i).
Proof.
  unfold inventory_rows, rows_in_order. rewrite elem_of_sort_by, elem_of_app, !list_elem_of_fmap. split.
  - intros [([r' i'] & [= -> -> ->] & Hr)|(j & [= -> -> ->] & [Hj Hh%negb_true_iff]%lfilter_elem)]; [by left|by right].
  - intros [[-> Hr]|(-> & -> & Hi & Hh)]; [left; by exists (r, i)|right].
    exists i. split; [done|]. apply lfilter_elem. by rewrite Hh.
Qed.

Lemma inventory_rows_sorted t : tables_ok t → sorted (map (λ row, row.1.2) (inventory_rows t)).
Proof.
  intros Hok.
  assert (Hs : StronglySorted (λ a b, by_row_key ReplicaEnvelopeId_compare (λ row : Z * ReplicaEnvelopeId * bool, row.1.2) a b = Lt)
                 (inventory_rows t)).
  { apply rows_in_order_sorted; [apply _..|]. rewrite map_app, !List.map_map. cbn [fst snd].
    rewrite map_id. apply NoDup_app. split_and!; [apply Hok| |].
    - intros i Hi [_ Hh%negb_true_iff]%lfilter_elem. unfold held in Hh. by rewrite bool_decide_eq_false in Hh.
    - apply NoDup_ListNoDup, List.NoDup_filter, NoDup_ListNoDup, Hok. }
  induction Hs as [|x l _ IH Hx]; simpl; constructor; [done|].
  rewrite List.Forall_forall in *. intros y (z & <- & Hz)%in_map_iff. by apply Hx.
Qed.

Lemma listed_elem t i : i ∈ listed t ↔ i ∈ stored t ∨ i ∈ checkpoint_envelopes t.
Proof. unfold listed, all_ids. by rewrite (elem_of_bt_set ReplicaEnvelopeId_compare), elem_of_app. Qed.

Lemma listed_is_sorted t : sorted (listed t).
Proof. apply (bt_set_sorted ReplicaEnvelopeId_compare). Qed.

Lemma listed_rows t : tables_ok t → map (λ row, row.1.2) (inventory_rows t) = listed t.
Proof.
  intros Hok. apply (sorted_ext ReplicaEnvelopeId_compare);
    [by apply inventory_rows_sorted|apply (bt_set_sorted ReplicaEnvelopeId_compare)|].
  intros i. rewrite listed_elem, list_elem_of_fmap. split.
  - intros ([[r j] b] & -> & [[-> Hr]|(-> & -> & Hi & _)]%inventory_rows_elem); [left|by right].
    apply list_elem_of_fmap. by exists (r, j).
  - intros [(row & -> & Hr)%list_elem_of_fmap|Hi].
    + exists (row.1, row.2, true). split; [done|]. apply inventory_rows_elem. left. by destruct row.
    + destruct (held t i) eqn:Eh.
      * unfold held in Eh. apply bool_decide_eq_true in Eh.
        apply list_elem_of_fmap in Eh as (row & -> & Hr).
        exists (row.1, row.2, true). split; [done|]. apply inventory_rows_elem. left. by destruct row.
      * exists (0%Z, i, false). split; [done|]. apply inventory_rows_elem. by right.
Qed.

Lemma full_inventory_spec t :
  tables_ok t →
  let '(inv, max) := full_compact_replication_inventory t in
  reads_tables t inv ∧ max = max_rowid (replica_envelopes t).
Proof.
  intros Hok. unfold full_compact_replication_inventory.
  pose proof (push_rows_spec (inventory_rows t) (inventory_rows_sorted t Hok)) as Hp.
  destruct (fold_left push_row _ _) as [inv max]. destruct Hp as (Hi & Hids & Hmax & _ & Hm).
  split.
  - apply reads_with_digest. split; [done|by rewrite Hids, listed_rows|]. intros x. rewrite (Hm x).
    split; intros (i & Hi' & Hs); exists i; (split; [|done]).
    + destruct Hi' as (r & [[? _]|(_ & _ & ?)]%inventory_rows_elem); done.
    + exists 0%Z. apply inventory_rows_elem. by right.
  - subst max. apply fold_max_unique.
    + pose proof (proj1 (fold_max_le fst (replica_envelopes t) 0 _) (Z.le_refl _)). tauto.
    + intros [[r i] b] Hr. simpl. apply inventory_rows_elem in Hr.
      pose proof (proj1 (fold_max_le fst (replica_envelopes t) 0 _) (Z.le_refl _)) as [H0 H1].
      destruct Hr as [[_ Hr]|(_ & -> & _)]; [exact (H1 _ Hr)|exact H0].
    + destruct (fold_max_attained fst (replica_envelopes t) 0) as [E|(row & Hr & E)]; [by left|right].
      exists (row.1, row.2, true). split; [|done]. apply inventory_rows_elem. left. by destruct row.
Qed.

(** Finishing a snapshot, whichever way it was read. *)
Lemma finish_spec t inv prefixes from :
  reads_tables t inv → (from ≤ length (public_buckets sha256 (listed t)))%nat →
  (∀ i s, (i ≤ from)%nat → prefixes !! i = Some s → s = state_before (listed t) i) →
  let '(inv', prefixes') := resume_digest sha256 inv (public_buckets sha256 (listed t)) prefixes from in
  snapshot_of t (mkSnapshot (max_rowid (replica_envelopes t)) (length (replica_envelopes t))
                   (length (checkpoint_envelopes t)) inv' (public_buckets sha256 (listed t)) prefixes'
                   (ci_digest inv')).
Proof.
  intros [Hok Hids Hm] Hf Hp. rewrite <- Hids in *.
  rewrite (resume_digest_spec sha256 inv prefixes from Hok Hf Hp).
  assert (Hd : ci_digest (refresh_digest sha256 inv) = replication_inventory_digest sha256 (ids inv))
    by (unfold refresh_digest; cbn [with_digest ci_digest]; by rewrite digest_of_spec).
  split; rewrite <- ?Hids; try done. apply reads_with_digest. by split.
Qed.

Lemma full_snapshot_spec t : tables_ok t →
  ∃ inv, full_snapshot t = Some (inv, max_rowid (replica_envelopes t), public_buckets sha256 (listed t), [], 0%nat)
         ∧ reads_tables t inv.
Proof.
  intros Hok. pose proof (full_inventory_spec t Hok) as Hf. unfold full_snapshot.
  destruct (full_compact_replication_inventory t) as [inv max]. destruct Hf as [Hr ->].
  exists inv. rewrite buckets_spec by apply Hr. by rewrite (rt_ids _ _ Hr).
Qed.

(** ** Extending a snapshot *)

Lemma same_mark_hash i x : same_mark i x = true → eid_hash x = eid_hash i.
Proof.
  unfold same_mark. destruct (sha256_text _); [by intros ?%str_eqb_true|]. by intros ->%bool_decide_eq_true.
Qed.

Lemma same_mark_refl i : same_mark i i = true.
Proof. unfold same_mark. destruct (sha256_text _); [apply str_eqb_refl|by apply bool_decide_eq_true]. Qed.

Lemma insert_all_spec adds inv :
  inventory_ok inv → NoDup (map snd adds) →
  let inv' := fold_left (λ inv (row : Z * ReplicaEnvelopeId), insert inv row.2) adds inv in
  inventory_ok inv' ∧ (∀ i, i ∈ ids inv' ↔ i ∈ map snd adds ∨ i ∈ ids inv) ∧
  ∀ x, payload_of inv' x = true ↔
       payload_of inv x = true ∨ ∃ a, a ∈ map snd adds ∧ a ∈ ids inv ∧ same_mark a x = true.
Proof.
  revert inv. induction adds as [|[r a] adds IH]; intros inv Hok Hnd; simpl.
  { split_and!; [done|intros i; split; [by right|by intros [?%elem_of_nil|?]]|]. intros x. split; [by left|]. intros [?|(a & ?%elem_of_nil & _)]; done. }
  apply NoDup_cons in Hnd as [Hni Hnd]. destruct (insert_spec inv a Hok) as (Hok1 & Hids1 & Hp1).
  destruct (IH (insert inv a) Hok1 Hnd) as (Hok' & Hids' & Hp').
  assert (Hin : ∀ i, i ∈ ids (insert inv a) ↔ i = a ∨ i ∈ ids inv).
  { intros i. rewrite Hids1, (elem_of_bt_set ReplicaEnvelopeId_compare), elem_of_cons. done. }
  split_and!; [done|intros i; rewrite Hids', Hin, elem_of_cons; tauto|].
  intros x. rewrite Hp', Hp1, orb_true_iff, andb_true_iff, bool_decide_eq_true. setoid_rewrite elem_of_cons.
  split.
  - intros [[?|[? ?]]|(b & Hb & [->|Hb']%Hin & Hs)]; [by left|right; exists a; auto|done|right; exists b; auto].
  - intros [?|(b & [->|Hb] & Hb' & Hs)]; [tauto|tauto|]. right. exists b. rewrite Hin. auto.
Qed.

(** New rows on top of the old ones, and the same tombstones. *)
Record extends (t0 t : Tables) (adds : list (Z * ReplicaEnvelopeId)) : Prop := {
  ex_rows : replica_envelopes t ≡ₚ replica_envelopes t0 ++ adds;
  ex_tombstones : ∀ i, i ∈ checkpoint_envelopes t ↔ i ∈ checkpoint_envelopes t0
}.

Lemma extends_stored t0 t adds i : extends t0 t adds → i ∈ stored t ↔ i ∈ stored t0 ∨ i ∈ map snd adds.
Proof. intros [Hr _]. unfold stored. rewrite Hr, map_app. apply elem_of_app. Qed.

Lemma extended_reads t0 t adds inv :
  extends t0 t adds → tables_ok t → reads_tables t0 inv →
  reads_tables t (fold_left (λ inv (row : Z * ReplicaEnvelopeId), insert inv row.2) adds inv).
Proof.
  intros Hex Hok [Hi Hids Hm].
  assert (Hnd : NoDup (map snd adds)).
  { pose proof (to_stored _ Hok) as Hs. unfold stored in Hs. rewrite (ex_rows _ _ _ Hex), map_app in Hs.
    by apply NoDup_app in Hs as (_ & _ & ?). }
  destruct (insert_all_spec adds inv Hi Hnd) as (Hi' & Hids' & Hp). split; [done| |].
  - apply (sorted_ext ReplicaEnvelopeId_compare); [apply Hi'|apply (bt_set_sorted ReplicaEnvelopeId_compare)|].
    intros i. rewrite Hids', Hids, !listed_elem, (extends_stored _ _ _ _ Hex), (ex_tombstones _ _ _ Hex). tauto.
  - intros x. rewrite <- not_true_iff_false, Hp. split.
    + intros Hn. assert (Hx : payload_of inv x = false) by (apply not_true_iff_false; tauto).
      apply Hm in Hx as (i & [Hc Hh] & Hs). exists i. split; [|done].
      split; [by apply (ex_tombstones _ _ _ Hex)|]. unfold held in *.
      apply bool_decide_eq_false in Hh. apply bool_decide_eq_false.
      intros [?|Ha]%(extends_stored _ _ _ _ Hex); [done|]. apply Hn. right. exists i. split_and!; [done| |done].
      rewrite Hids. apply listed_elem. by right.
    + intros (i & [Hc Hh] & Hs). unfold held in Hh. apply bool_decide_eq_false in Hh.
      intros [Hx|(a & Ha & _ & Hs')].
      * apply not_false_iff_true in Hx. apply Hx, Hm. exists i. split; [|done].
        split; [by apply (ex_tombstones _ _ _ Hex)|]. apply bool_decide_eq_false. intros ?.
        apply Hh, (extends_stored _ _ _ _ Hex). by left.
      * apply Hh. assert (i = a) as ->; [|apply (extends_stored _ _ _ _ Hex); by right].
        apply (to_hashes _ Hok); [by apply elem_of_app; right| |].
        -- apply elem_of_app. left. apply (extends_stored _ _ _ _ Hex). by right.
        -- rewrite <- (same_mark_hash _ _ Hs). by apply same_mark_hash.
Qed.

(** Replacing or adding the summary of one range. *)
Lemma renew_map (f f' : string * Z → ReplicationInventoryBucket) ks k :
  StronglySorted (λ a b, range_compare a b = Lt) ks →
  (∀ k', bucket_key (f k') = k') → (∀ k', k' ≠ k → f' k' = f k') →
  match binary_search_by (λ existing, range_compare (bucket_key existing) k) (map f ks) with
  | Ok position => <[position := f' k]> (map f ks)
  | Err position => take position (map f ks) ++ f' k :: drop position (map f ks)
  end = map f' (bt_set range_compare (k :: ks)).
Proof.
  intros Hs Hf Hf'. rewrite <- (binary_search_by_map f (λ k', range_compare k' k)).
  2: { intros y _. by rewrite Hf. }
  destruct (binary_search_by _ ks) as [p|p] eqn:E.
  - apply (binary_search_found range_compare) in E.
    rewrite (increasing_found range_compare) by (done || by eapply list_elem_of_lookup_2).
    apply list_eq. intros i. rewrite (list_lookup_fmap f'). destruct (decide (i = p)) as [->|Hne].
    + rewrite list_lookup_insert_eq by (rewrite length_map; by eapply lookup_lt_Some). by rewrite E.
    + rewrite list_lookup_insert_ne by done. rewrite (list_lookup_fmap f).
      destruct (ks !! i) as [k'|] eqn:Ei; [|done]. simpl. f_equal. symmetry. apply Hf'. intros ->.
      apply Hne. apply (NoDup_lookup ks i p k); [by apply (sorted_NoDup range_compare)|done..].
  - pose proof (binary_search_place range_compare _ _ _ Hs E) as (_ & _ & Hni).
    rewrite <- (increasing_insert range_compare _ _ _ Hs E), map_app. cbn [map].
    rewrite !firstn_map, !skipn_map. f_equal; [|f_equal];
      apply map_ext_in; intros k' Hk'%list_elem_of_In; symmetry; apply Hf'; intros ->; apply Hni;
      rewrite <- (take_drop p ks); set_solver.
Qed.

Section extension.
Context (l0 l news : list ReplicaEnvelopeId).
Context (Hl0 : sorted l0) (Hl : sorted l) (Hel : ∀ i, i ∈ l ↔ i ∈ news ∨ i ∈ l0).

Let touched := bt_set range_compare (map range_key news).

Lemma with_key_sorted k m : sorted m → sorted (with_key range_key k m).
Proof. apply sorted_filter. Qed.

(** A range that gained nothing is as it was. *)
Lemma untouched_range k : k ∉ touched → with_key range_key k l = with_key range_key k l0.
Proof.
  intros Hk. unfold touched in Hk. rewrite (elem_of_bt_set range_compare) in Hk.
  apply (sorted_ext ReplicaEnvelopeId_compare); [by apply with_key_sorted..|].
  intros i. rewrite !elem_of_with_key, Hel. split; [|tauto]. intros [[Hi|Hi] <-]; [|done].
  exfalso. apply Hk, list_elem_of_fmap. eauto.
Qed.

Lemma untouched_bucket k : k ∉ touched → range_bucket sha256 l k = range_bucket sha256 l0 k.
Proof. intros Hk. unfold range_bucket. by rewrite untouched_range. Qed.

Lemma range_keys_extend k : k ∈ range_keys l ↔ k ∈ touched ∨ k ∈ range_keys l0.
Proof.
  unfold range_keys, touched. rewrite !(elem_of_bt_set range_compare), !list_elem_of_fmap.
  setoid_rewrite Hel. naive_solver.
Qed.

(** The summaries with those of some ranges renewed. *)
Definition renewed (done : list (string * Z)) : list ReplicationInventoryBucket :=
  map (λ k, if bool_decide (k ∈ done) then range_bucket sha256 l k else range_bucket sha256 l0 k)
    (bt_set range_compare (range_keys l0 ++ done)).

Lemma renewed_all : renewed touched = public_buckets sha256 l.
Proof.
  unfold renewed, public_buckets.
  replace (bt_set range_compare (range_keys l0 ++ touched)) with (range_keys l).
  - apply map_ext_in. intros k _. case_bool_decide; [done|]. by rewrite untouched_bucket.
  - apply (sorted_ext range_compare); [apply (bt_set_sorted range_compare)..|]. intros k.
    rewrite range_keys_extend, (elem_of_bt_set range_compare), elem_of_app. tauto.
Qed.

Lemma renewed_nil : renewed [] = public_buckets sha256 l0.
Proof.
  unfold renewed, public_buckets. rewrite app_nil_r.
  replace (bt_set range_compare (range_keys l0)) with (range_keys l0); [done|].
  apply (sorted_ext range_compare); [apply (bt_set_sorted range_compare)..|]. intros k.
  by rewrite (elem_of_bt_set range_compare).
Qed.

Lemma renew_step inv done k :
  inventory_ok inv → ids inv = l → sequences_ok l → k ∈ touched →
  renew_bucket inv (Some (renewed done)) k = Some (renewed (done ++ [k])).
Proof.
  intros Hok Hids Hseq Hk.
  assert (Hkl : k ∈ map range_key l) by (apply range_keys_elem, range_keys_extend; by left).
  assert (Hb : bucket sha256 inv (range inv k.1 k.2) = Some (range_bucket sha256 l k)).
  { rewrite <- Hids. apply bucket_spec; [|by rewrite Hids].
    apply list_elem_of_fmap in Hkl as (i & -> & Hi).
    rewrite range_spec; [done|done|by rewrite Hids|by apply bucket_start_sequence, Hseq|apply bucket_start_idem]. }
  unfold renew_bucket. cbn [mbind option_bind]. rewrite Hb. cbn [mbind option_bind]. f_equal.
  set (f' := λ k', if bool_decide (k' ∈ done ++ [k]) then range_bucket sha256 l k' else range_bucket sha256 l0 k').
  assert (Ek : f' k = range_bucket sha256 l k) by (unfold f'; rewrite bool_decide_true; [done|set_solver]).
  rewrite <- Ek. unfold renewed.
  rewrite (renew_map _ f'); [|apply (bt_set_sorted range_compare)| |].
  - unfold f'. f_equal. apply (bt_set_ext range_compare). intros k'.
    rewrite elem_of_cons, (elem_of_bt_set range_compare). set_solver.
  - intros k'. case_bool_decide; by destruct k'.
  - intros k' Hne. unfold f'. rewrite (bool_decide_ext (k' ∈ done ++ [k]) (k' ∈ done)); [done|set_solver].
Qed.

Lemma renew_all inv :
  inventory_ok inv → ids inv = l → sequences_ok l →
  fold_left (renew_bucket inv) touched (Some (public_buckets sha256 l0)) = Some (public_buckets sha256 l).
Proof.
  intros Hok Hids Hseq. rewrite <- renewed_nil, <- renewed_all.
  assert (Hgen : ∀ rest done, (∀ k, k ∈ rest → k ∈ touched) →
    fold_left (renew_bucket inv) rest (Some (renewed done)) = Some (renewed (done ++ rest))).
  { induction rest as [|k rest IH]; intros done Hr; cbn [fold_left]; [by rewrite app_nil_r|].
    rewrite renew_step by (done || (apply Hr; by left)). rewrite IH by (intros; apply Hr; by right).
    by rewrite <- app_assoc. }
  rewrite (Hgen touched []); [done|done].
Qed.

(** *** Where the digest resumes *)

Lemma min_of_fold ps p : (fold_left Nat.min ps p ≤ p ∧ ∀ q, q ∈ ps → fold_left Nat.min ps p ≤ q)%nat.
Proof.
  revert p. induction ps as [|q ps IH]; intros p; simpl; [split; [done|by intros q ?%elem_of_nil]|].
  destruct (IH (Nat.min p q)) as [H1 H2]. split; [lia|]. intros r [->|Hr]%elem_of_cons; [lia|by apply H2].
Qed.

Lemma resume_from_le bs ts k :
  k ∈ ts → (resume_from bs ts ≤ partition_point (λ existing, range_ltb (bucket_key existing) k) bs)%nat.
Proof.
  intros Hk. unfold resume_from. destruct ts as [|k0 ts]; [by apply elem_of_nil in Hk|]. cbn [map].
  destruct (min_of_fold (map (λ key, partition_point (λ existing, range_ltb (bucket_key existing) key) bs) ts)
              (partition_point (λ existing, range_ltb (bucket_key existing) k0) bs)) as [H1 H2].
  apply elem_of_cons in Hk as [->|Hk]; [done|]. apply H2. apply list_elem_of_fmap. eauto.
Qed.

Lemma resume_from_bound bs ts : (resume_from bs ts ≤ length bs)%nat.
Proof.
  destruct ts as [|k ts]; [done|]. etransitivity; [apply (resume_from_le _ _ k); left|]. apply partition_point_le.
Qed.

Lemma before_partition {A} (p : A → bool) m i x : (i < partition_point p m)%nat → m !! i = Some x → p x = true.
Proof.
  revert i. induction m as [|y m IH]; intros i Hi Hx; simpl in *; [lia|].
  destruct (p y) eqn:E; [|lia]. destruct i as [|i]; simpl in *; [congruence|]. apply (IH i); [lia|done].
Qed.

(** The ranges before it gained nothing. *)
Lemma resumed_key i k :
  (i < resume_from (public_buckets sha256 l) touched)%nat → range_keys l !! i = Some k → k ∉ touched.
Proof.
  intros Hi Hk Ht. pose proof (resume_from_le (public_buckets sha256 l) touched k Ht) as Hle.
  assert (Hp : range_ltb (bucket_key (range_bucket sha256 l k)) k = true).
  { eapply (before_partition (λ existing, range_ltb (bucket_key existing) k)); [|].
    - eapply Nat.lt_le_trans; [exact Hi|exact Hle].
    - unfold public_buckets. by rewrite (list_lookup_fmap (range_bucket sha256 l)), Hk. }
  unfold range_ltb, range_bucket, bucket_key in Hp. simpl in Hp. destruct k as [w z]. simpl in Hp.
  by rewrite (cmp_order_refl range_compare) in Hp.
Qed.

Lemma take_filter {A} (p : A → bool) m n :
  (∀ i x, (i < n)%nat → m !! i = Some x → p x = true) → take n (List.filter p m) = take n m.
Proof.
  revert n. induction m as [|x m IH]; intros [|n] Hp; try done; simpl.
  rewrite (Hp 0%nat x) by (done || lia). simpl. f_equal. apply IH. intros i y Hi Hy. apply (Hp (S i)); [lia|done].
Qed.

Lemma resumed_states i :
  (i ≤ resume_from (public_buckets sha256 l) touched)%nat → state_before l0 i = state_before l i.
Proof.
  intros Hi. unfold state_before. do 2 f_equal.
  assert (Hun : ∀ j k, (j < i)%nat → range_keys l !! j = Some k → k ∉ touched)
    by (intros j k Hj; apply resumed_key; lia).
  assert (Ek : range_keys l0 = List.filter (λ k, bool_decide (k ∈ range_keys l0)) (range_keys l)).
  { apply (sorted_ext range_compare); [apply (bt_set_sorted range_compare)| |].
    - apply sorted_filter, (bt_set_sorted range_compare).
    - intros k. rewrite lfilter_elem, bool_decide_eq_true, range_keys_extend. tauto. }
  unfold ranges. rewrite !firstn_map. rewrite Ek, take_filter.
  - apply map_ext_in. intros k Hk%list_elem_of_In. symmetry. apply untouched_range.
    apply list_elem_of_lookup_1 in Hk as [j Hj]. apply lookup_take_Some in Hj as [Hj Hlt]. by apply (Hun j).
  - intros j k Hj Hk. apply bool_decide_eq_true. pose proof (Hun j k Hj Hk) as Hn.
    apply list_elem_of_lookup_2, range_keys_extend in Hk. tauto.
Qed.
End extension.

(** ** How the tables change

    A row gets the next rowid; a checkpoint records tombstones and then deletes rows they stand for.
    The row with the highest rowid is not deleted: SQLite would give its rowid to the next row. *)

Inductive table_step : Tables → Tables → Prop :=
| step_store t i :
    i ∉ stored t →
    table_step t (mkTables (replica_envelopes t ++ [((max_rowid (replica_envelopes t) + 1)%Z, i)])
                    (checkpoint_envelopes t))
| step_tombstone t i :
    i ∉ checkpoint_envelopes t →
    table_step t (mkTables (replica_envelopes t) (checkpoint_envelopes t ++ [i]))
| step_delete t pre r i post :
    replica_envelopes t = pre ++ (r, i) :: post → i ∈ checkpoint_envelopes t →
    (r < max_rowid (replica_envelopes t))%Z →
    table_step t (mkTables (pre ++ post) (checkpoint_envelopes t)).

Lemma max_rowid_le rows z : (0 ≤ z)%Z → (max_rowid rows ≤ z)%Z ↔ ∀ row, row ∈ rows → (row.1 ≤ z)%Z.
Proof. intros Hz. unfold max_rowid. rewrite fold_max_le. tauto. Qed.

Lemma max_rowid_nonneg rows : (0 ≤ max_rowid rows)%Z.
Proof. apply (proj1 (fold_max_le fst rows 0 _) (Z.le_refl _)). Qed.

Lemma max_rowid_elem rows row : row ∈ rows → (row.1 ≤ max_rowid rows)%Z.
Proof. apply (proj1 (max_rowid_le rows _ (max_rowid_nonneg rows)) (Z.le_refl _)). Qed.

Lemma max_rowid_sub rows rows' : (∀ row, row ∈ rows → row ∈ rows') → (max_rowid rows ≤ max_rowid rows')%Z.
Proof.
  intros Hs. apply max_rowid_le; [apply max_rowid_nonneg|]. intros row Hr. by apply max_rowid_elem, Hs.
Qed.

(** Rows at or below an old rowid are old rows, and tombstones stay. *)
Lemma steps_keep_old t0 t :
  rtc table_step t0 t →
  (max_rowid (replica_envelopes t0) ≤ max_rowid (replica_envelopes t))%Z ∧
  (∀ row, row ∈ replica_envelopes t → (row.1 ≤ max_rowid (replica_envelopes t0))%Z → row ∈ replica_envelopes t0) ∧
  ∃ more, checkpoint_envelopes t = checkpoint_envelopes t0 ++ more.
Proof.
  intros Hr. pattern t. eapply rtc_ind_r; [| |exact Hr]; clear t Hr.
  { split_and!; [done|done|]. exists []. by rewrite app_nil_r. }
  intros t1 t2 _ Hs (Hm & Hold & more & Hc).
  destruct Hs as [t i Hi|t i Hi|t pre r i post E Hi Hlt]; simpl.
  - split_and!; [| |by exists more].
    + etransitivity; [exact Hm|]. apply max_rowid_sub. set_solver.
    + intros row [Hrow| ->%list_elem_of_singleton]%elem_of_app; [by apply Hold|]. simpl. lia.
  - split_and!; [done|done|]. exists (more ++ [i]). by rewrite Hc, app_assoc.
  - split_and!; [| |by exists more].
    + etransitivity; [exact Hm|]. apply max_rowid_le; [apply max_rowid_nonneg|]. rewrite E. intros row Hrow.
      destruct (fold_max_attained fst (replica_envelopes t) 0) as [E0|(top & Ht & Et)];
        fold (max_rowid (replica_envelopes t)) in *.
      * pose proof (max_rowid_elem (replica_envelopes t) row) as Hle. rewrite E in Hle. specialize (Hle Hrow).
        rewrite <- E in Hle. pose proof (max_rowid_nonneg (pre ++ post)). lia.
      * assert (Htop : top ∈ pre ++ post).
        { rewrite E in Ht. apply elem_of_app in Ht as [?|[->|?]%elem_of_cons]; [set_solver| |set_solver].
          simpl in Et. lia. }
        apply max_rowid_elem in Htop. rewrite <- E in Hrow. apply max_rowid_elem in Hrow. lia.
    + intros row Hrow. apply Hold. rewrite E. set_solver.
Qed.

Lemma additions_elem t m row : row ∈ additions_since t m ↔ row ∈ replica_envelopes t ∧ (m < row.1)%Z.
Proof. unfold additions_since. by rewrite elem_of_sort_by, lfilter_elem, Z.ltb_lt. Qed.

(** What an extension of a snapshot of [t0] takes for granted of the tables [t]: no row has taken the rowid of
    another since, nor is a tombstone gone. *)
Definition continues (t0 t : Tables) : Prop :=
  (∀ row, row ∈ replica_envelopes t → (row.1 ≤ max_rowid (replica_envelopes t0))%Z → row ∈ replica_envelopes t0) ∧
  (∀ i, i ∈ checkpoint_envelopes t0 → i ∈ checkpoint_envelopes t).

Lemma steps_continue t0 t : rtc table_step t0 t → continues t0 t.
Proof.
  intros Hr. destruct (steps_keep_old t0 t Hr) as (_ & Hold & more & Hc). split; [done|].
  intros i Hi. rewrite Hc. apply elem_of_app. by left.
Qed.

(** The counts say that the new rows are all that changed since an earlier snapshot. *)
Definition counts_match (p : ReplicationSnapshot) (t : Tables) : bool :=
  (length (replica_envelopes t) =? sn_envelope_rows p + length (additions_since t (sn_max_envelope_rowid p)))%nat
  && (length (checkpoint_envelopes t) =? sn_tombstone_rows p)%nat.

(** When both counts moved exactly by the new rows, the old rows are all there. *)
Lemma counts_show_extension t0 t :
  tables_ok t0 → tables_ok t → continues t0 t →
  let adds := additions_since t (max_rowid (replica_envelopes t0)) in
  length (replica_envelopes t) = (length (replica_envelopes t0) + length adds)%nat →
  length (checkpoint_envelopes t) = length (checkpoint_envelopes t0) →
  extends t0 t adds.
Proof.
  intros Hok0 Hok [Hold Hc] adds Hrows Htombs.
  assert (Hnd : ∀ t, tables_ok t → NoDup (replica_envelopes t)) by (intros u Hu; eapply NoDup_fmap_1, (to_rowids _ Hu)).
  set (low := List.filter (λ row, negb (max_rowid (replica_envelopes t0) <? row.1)%Z) (replica_envelopes t)).
  assert (Hsplit : replica_envelopes t ≡ₚ low ++ adds).
  { unfold low, adds, additions_since. rewrite sort_by_perm, Permutation_app_comm.
    generalize (replica_envelopes t) as rows. intros rows. induction rows as [|row rows IH]; simpl; [done|].
    destruct (_ <? row.1)%Z; simpl; [by rewrite IH at 1|]. rewrite <- Permutation_middle. by rewrite IH at 1. }
  assert (Hlow : low ≡ₚ replica_envelopes t0).
  { apply submseteq_length_Permutation.
    - apply NoDup_submseteq.
      + apply NoDup_ListNoDup, List.NoDup_filter, NoDup_ListNoDup, Hnd, Hok.
      + intros row [Hin Hle%negb_true_iff%Z.ltb_ge]%lfilter_elem. by apply Hold.
    - apply Permutation_length in Hsplit. rewrite length_app in Hsplit. lia. }
  split; [by rewrite Hsplit, Hlow|].
  assert (Ht : checkpoint_envelopes t0 ≡ₚ checkpoint_envelopes t).
  { apply submseteq_length_Permutation; [|lia]. apply NoDup_submseteq; [apply (to_tombstones _ Hok0)|done]. }
  intros i. by rewrite Ht.
Qed.

Lemma extended_max t0 t adds :
  extends t0 t adds →
  fold_left (λ m row, Z.max m row.1) adds (max_rowid (replica_envelopes t0)) = max_rowid (replica_envelopes t).
Proof.
  intros Hex. apply fold_max_unique.
  - apply max_rowid_sub. intros row. rewrite (ex_rows _ _ _ Hex). set_solver.
  - intros row Hr. apply max_rowid_elem. rewrite (ex_rows _ _ _ Hex). set_solver.
  - destruct (fold_max_attained fst (replica_envelopes t) 0) as [E|(row & Hr & E)]; fold (max_rowid (replica_envelopes t)) in *.
    + left. pose proof (max_rowid_nonneg (replica_envelopes t0)).
      assert (max_rowid (replica_envelopes t0) ≤ max_rowid (replica_envelopes t))%Z; [|lia].
      apply max_rowid_sub. intros row. rewrite (ex_rows _ _ _ Hex). set_solver.
    + rewrite (ex_rows _ _ _ Hex) in Hr. apply elem_of_app in Hr as [Hr|Hr]; [left|right; eauto].
      apply max_rowid_elem in Hr. apply Z.le_antisymm; [lia|]. apply max_rowid_sub.
      intros row'. rewrite (ex_rows _ _ _ Hex). set_solver.
Qed.

Lemma extend_snapshot_spec t0 t p adds :
  snapshot_of t0 p → extends t0 t adds → tables_ok t →
  ∃ inv from,
    extend_snapshot p adds = Some (inv, max_rowid (replica_envelopes t), public_buckets sha256 (listed t),
                                   sn_digest_prefixes p, from) ∧
    reads_tables t inv ∧ (from ≤ length (public_buckets sha256 (listed t)))%nat ∧
    ∀ i s, (i ≤ from)%nat → sn_digest_prefixes p !! i = Some s → s = state_before (listed t) i.
Proof.
  intros Hp Hex Hok. pose proof (extended_reads t0 t adds _ Hex Hok (so_inventory _ _ Hp)) as Hreads.
  set (inv := fold_left _ adds (sn_inventory p)) in Hreads.
  assert (Hel : ∀ i, i ∈ listed t ↔ i ∈ map snd adds ∨ i ∈ listed t0).
  { intros i. rewrite !listed_elem, (extends_stored _ _ _ _ Hex), (ex_tombstones _ _ _ Hex). tauto. }
  assert (Hsq : sequences_ok (listed t)).
  { intros i Hi. apply (to_sequences _ Hok). apply listed_elem in Hi. by apply elem_of_app. }
  pose proof (bt_set_sorted ReplicaEnvelopeId_compare (all_ids t0)) as Hs0. fold (listed t0) in Hs0.
  pose proof (bt_set_sorted ReplicaEnvelopeId_compare (all_ids t)) as Hs. fold (listed t) in Hs.
  unfold extend_snapshot. rewrite (so_max _ _ Hp), (extended_max _ _ _ Hex), (so_buckets _ _ Hp).
  rewrite <- (List.map_map snd range_key). fold inv.
  rewrite (renew_all (listed t0) (listed t) (map snd adds) Hs0 Hs Hel inv (rt_ok _ _ Hreads) (rt_ids _ _ Hreads) Hsq).
  cbn [mbind option_bind]. eexists _, _. split_and!; [done|done|apply resume_from_bound|].
  intros i st Hi. rewrite (so_prefixes _ _ Hp). unfold states. rewrite (list_lookup_fmap (state_before (listed t0))).
  destruct (List.seq 0 _ !! i) as [j|] eqn:Ej; [|done]. apply lookup_seq in Ej as [-> _]. intros [= <-].
  by apply (resumed_states (listed t0) (listed t) (map snd adds)).
Qed.

(** ** Snapshots read the tables *)

(** The identities whose envelopes an inventory lets this node send. *)
Definition sendable (inv : CompactReplicationInventory) : list ReplicaEnvelopeId :=
  identities inv (List.filter (has_payload inv) (ci_envelopes inv)).

(** All a peer can learn from a snapshot. *)
Definition told (sn : ReplicationSnapshot) :
    ReplicationInventory * list ReplicationInventoryBucket * list ReplicaEnvelopeId * string :=
  (public (sn_inventory sn), sn_buckets sn, sendable (sn_inventory sn), sn_authority_digest sn).

(** A snapshot of the tables as they are, the first of the process or built on an earlier one; where the counts show
    an extension it is one. *)
Inductive built : Tables → ReplicationSnapshot → Prop :=
| built_first t sn : tables_ok t → build_replication_snapshot None t = Some sn → built t sn
| built_next t0 p t sn :
    built t0 p → (counts_match p t = true → continues t0 t) → tables_ok t →
    build_replication_snapshot (Some p) t = Some sn → built t sn.

Lemma build_full_spec t : tables_ok t → ∃ sn, build_replication_snapshot None t = Some sn ∧ snapshot_of t sn.
Proof.
  intros Hok. destruct (full_snapshot_spec t Hok) as (inv & E & Hr). unfold build_replication_snapshot.
  rewrite E. cbn [mbind option_bind]. pose proof (finish_spec t inv [] 0 Hr) as Hf.
  destruct (resume_digest _ _ _ _ _) as [inv' prefixes]. eexists. split; [done|]. apply Hf; [lia|done].
Qed.

Lemma build_next_spec t0 p t :
  tables_ok t0 → snapshot_of t0 p → (counts_match p t = true → continues t0 t) → tables_ok t →
  ∃ sn, build_replication_snapshot (Some p) t = Some sn ∧ snapshot_of t sn.
Proof.
  intros Hok0 Hp Hr Hok. unfold build_replication_snapshot. fold (counts_match p t).
  destruct (counts_match p t) eqn:Eg.
  2: { destruct (build_full_spec t Hok) as (sn & E & Hs). exists sn. by rewrite <- E. }
  specialize (Hr eq_refl). unfold counts_match in Eg. apply andb_true_iff in Eg as [E1%Nat.eqb_eq E2%Nat.eqb_eq].
  rewrite (so_max _ _ Hp), (so_rows _ _ Hp), (so_tombstones _ _ Hp) in *.
  pose proof (counts_show_extension t0 t Hok0 Hok Hr E1 E2) as Hex.
  destruct (extend_snapshot_spec t0 t p _ Hp Hex Hok) as (inv & from & E & Hreads & Hfrom & Hpre).
  rewrite E. cbn [mbind option_bind]. pose proof (finish_spec t inv _ from Hreads Hfrom Hpre) as Hf.
  destruct (resume_digest _ _ _ _ _) as [inv' prefixes]. by eexists.
Qed.

Lemma built_spec t sn : built t sn → tables_ok t ∧ snapshot_of t sn.
Proof.
  induction 1 as [t sn Hok E|t0 p t sn _ [Hok0 Hp] Hr Hok E]; (split; [done|]).
  - destruct (build_full_spec t Hok) as (sn' & E' & ?). congruence.
  - destruct (build_next_spec t0 p t Hok0 Hp Hr Hok) as (sn' & E' & ?). congruence.
Qed.

(** An inventory lets this node send exactly what it stores. *)
Lemma has_payload_held t inv e :
  tables_ok t → reads_tables t inv → e ∈ ci_envelopes inv → has_payload inv e = held t (identity inv e).
Proof.
  intros Hok [Hi Hids Hm] He. rewrite has_payload_of by by apply Hi.
  assert (Hx : identity inv e ∈ listed t) by (rewrite <- Hids; apply list_elem_of_fmap; eauto).
  revert Hx. generalize (identity inv e) as x. intros x Hx.
  assert (Hall : ∀ i, i ∈ listed t → i ∈ all_ids t) by (intros i Hin; apply elem_of_app; by apply listed_elem).
  destruct (payload_of inv x) eqn:Ep.
  - destruct (held t x) eqn:Eh; [done|]. assert (payload_of inv x = false); [|congruence].
    apply Hm. exists x. split; [|apply same_mark_refl]. split; [|done].
    apply listed_elem in Hx as [Hx|?]; [|done]. unfold held in Eh. by apply bool_decide_eq_false in Eh.
  - apply Hm in Ep as (i & [Hc Hh] & Hs). assert (x = i) as ->; [|done].
    apply (to_hashes _ Hok); [by apply Hall|by apply elem_of_app; right|by apply same_mark_hash].
Qed.

Lemma snapshot_told t sn :
  tables_ok t → snapshot_of t sn →
  told sn = (mkReplicationInventory (replication_inventory_digest sha256 (listed t)) (listed t) [] None None,
             public_buckets sha256 (listed t), List.filter (held t) (listed t),
             replication_inventory_digest sha256 (listed t)).
Proof.
  intros Hok [_ _ _ Hr Hd Hb _ Ha]. unfold told, public.
  rewrite Hd, Hb, Ha, <- (rt_ids _ _ Hr). f_equal. f_equal. unfold sendable, ids at 1, identities.
  rewrite lfilter_map. f_equal. apply filter_ext_in. intros e He%list_elem_of_In. by apply has_payload_held.
Qed.

(** A snapshot tells peers exactly what the tables hold: the identities stored and dropped, in order, their digest and
    the digest of each range, and as sendable the envelopes whose rows are there. *)
Definition tells_tables (t : Tables) (sn : ReplicationSnapshot) : Prop :=
  told sn = (mkReplicationInventory (replication_inventory_digest sha256 (listed t)) (listed t) [] None None,
             public_buckets sha256 (listed t), List.filter (held t) (listed t),
             replication_inventory_digest sha256 (listed t)).

(** C12. In tables in which a hash names one envelope, a snapshot that reads the inventory whole tells peers exactly what they hold: the identities stored and
    dropped, in order, their digest and the digest of each range, and as sendable the envelopes whose rows are there. So does
    one built on an earlier snapshot, through any chain of them, and it can always be built, on one
    condition: if the counts of rows and tombstones moved exactly by the rows of greater rowid, so that the earlier snapshot is extended,
    then no row has taken a rowid up to the greatest of the earlier snapshot since it, and no tombstone of that time
    is gone. The condition holds when between the two rows were only stored, tombstones recorded, and rows with a tombstone deleted that
    were not then the newest; deleting the newest row frees its rowid, and breaks it ([reused_rowid_hides_an_envelope]). *)
Theorem snapshots_read_the_tables t :
  tables_ok t →
  (∃ full, build_replication_snapshot None t = Some full ∧ tells_tables t full) ∧
  (∀ t0 p, built t0 p → (counts_match p t = true → continues t0 t) →
     ∃ sn, build_replication_snapshot (Some p) t = Some sn ∧ tells_tables t sn) ∧
  ∀ t0, rtc table_step t0 t → continues t0 t.
Proof.
  intros Hok. split_and!.
  - destruct (build_full_spec t Hok) as (full & E & Hf). exists full. split; [done|]. by apply snapshot_told.
  - intros t0 p [Hok0 Hp]%built_spec Hc. destruct (build_next_spec t0 p t Hok0 Hp Hc Hok) as (sn & E & Hs).
    exists sn. split; [done|]. by apply snapshot_told.
  - intros t0. apply steps_continue.
Qed.
End snapshot.

(** ** Examples *)

(** A stand-in for SHA-256 of its length: 28 zero bytes and the number of bytes hashed. *)
Definition length_digest (l : list ascii) : list ascii :=
  replicate 28 "000"%char ++ be_bytes 4 (Z.of_nat (length l)).

Lemma length_digest_32 x : length (length_digest x) = 32%nat.
Proof. unfold length_digest. by rewrite length_app, length_be_bytes, length_replicate. Qed.

Definition id_a : ReplicaEnvelopeId := mkReplicaEnvelopeId "host/b" 300 "a".
Definition id_b : ReplicaEnvelopeId := mkReplicaEnvelopeId "host/a" 5 "b".

Local Abbreviation build := (build_replication_snapshot (hex := lower_hex) length_digest).

Ltac tables_by_computation :=
  split; [by apply (bool_decide_eq_true _)
         |intros row Hrow; cbn in Hrow; repeat (apply elem_of_cons in Hrow as [->|Hrow]; [done|]);
            by apply elem_of_nil in Hrow
         |by apply (bool_decide_eq_true _)|by apply (bool_decide_eq_true _)
         |intros i Hi; cbn in Hi; repeat (apply elem_of_cons in Hi as [->|Hi]; [done|]); by apply elem_of_nil in Hi
         |intros a b Ha Hb; cbn in Ha, Hb;
            repeat (apply elem_of_cons in Ha as [->|Ha]); try (by apply elem_of_nil in Ha);
            repeat (apply elem_of_cons in Hb as [->|Hb]); try (by apply elem_of_nil in Hb); done].

(** Two snapshots, the second built on the first. *)
Definition two_snapshots (t0 t : Tables) : option ReplicationSnapshot := p ← build None t0; build (Some p) t.

Definition one_row : Tables := mkTables [(1%Z, id_a)] [].
Definition two_rows : Tables := mkTables [(1%Z, id_a); (2%Z, id_b)] [].

Lemma snapshots_read_the_tables_witness :
  ∃ sn, two_snapshots one_row two_rows = Some sn ∧ sendable (hex := lower_hex) (sn_inventory sn) = [id_b; id_a].
Proof.
  unfold two_snapshots. destruct (build None one_row) as [p|] eqn:Ep; [|by vm_compute in Ep].
  assert (Hok1 : tables_ok one_row) by tables_by_computation.
  assert (Hok2 : tables_ok two_rows) by tables_by_computation.
  assert (Hr : rtc table_step one_row two_rows)
    by (apply rtc_once, (step_store one_row id_b), (bool_decide_eq_true _); by vm_compute).
  assert (Hb : built (hex := lower_hex) length_digest one_row p) by by apply built_first.
  destruct (snapshots_read_the_tables (hex := lower_hex) length_digest two_rows Hok2) as (_ & Hnext & Hsteps).
  destruct (Hnext one_row p Hb (λ _, Hsteps one_row Hr)) as (sn & Es & Ht). exists sn. split; [done|].
  injection Ht as _ _ _ Hs _. rewrite Hs. by vm_compute.
Defined.

(** Deleting the newest row lets the next one take its rowid, and the counts then hide both changes: a
    snapshot extended over them tells peers of a deleted envelope as sendable and never of the new one. *)
Theorem reused_rowid_hides_an_envelope :
  let before := mkTables [(1%Z, id_a)] [id_a] in
  let deleted := mkTables [] [id_a] in
  let after := mkTables [((max_rowid (replica_envelopes deleted) + 1)%Z, id_b)] [id_a] in
  tables_ok before ∧ tables_ok after ∧
  ∃ p sn, build None before = Some p ∧ build (Some p) after = Some sn ∧
          (id_b ∈ stored after) ∧ (id_b ∉ ids (hex := lower_hex) (sn_inventory sn)) ∧
          (id_a ∉ stored after) ∧ (id_a ∈ sendable (hex := lower_hex) (sn_inventory sn)).
Proof.
  intros before deleted after. split_and!; [tables_by_computation..|].
  assert (Hc : match build None before with
               | Some p => match build (Some p) after with
                           | Some sn => andb (bool_decide (id_b ∉ ids (hex := lower_hex) (sn_inventory sn)))
                                             (bool_decide (id_a ∈ sendable (hex := lower_hex) (sn_inventory sn)))
                           | None => false
                           end
               | None => false
               end = true) by by vm_compute.
  destruct (build None before) as [p|]; [|done]. exists p. destruct (build (Some p) after) as [sn|]; [|done].
  exists sn. apply andb_true_iff in Hc as [H1%bool_decide_eq_true H2%bool_decide_eq_true].
  split_and!; [done|done|by left|done|by apply (bool_decide_eq_true _)|done].
Qed.
