(* ===== verification/Exchange.v ===== *)
(** * Replication exchanges

    Models how two nodes bring each other up to date, from [crates/smallclaims/src/store.rs]
    ([compact_replication_difference], [export_replication_summary], [export_replication_difference],
    [receive_replication_exchange_asking]) and the worker's round of messages in
    [crates/smallclaims/src/sync/worker.rs] ([exchange], [receive_exchange]). A node is its tables and its last snapshot; an envelope travels as its
    identity. Signatures and graph digests travel in the same messages and are not modelled, except
    that a peer may ask for signatures; adopting a checkpoint after a round is [CheckpointTrim]'s. A
    round here is one whose messages arrive. *)

From Stdlib Require Import Ascii.
From S2P Require Import Prelude StableSort Text Json Bytes Order BTree Slices Claim Hash Inventory Snapshot.
Import Compact.

Local Abbreviation sorted := (StronglySorted (λ a b, ReplicaEnvelopeId_compare a b = Lt)).

(** ** Page sizes *)

(** The page a node asks for: the limit, or what the environment caps it at. *)
Definition replication_accepts (cap : option Z) : Z :=
  match cap with
  | None => Z.of_nat REPLICATION_PAGE_LIMIT
  | Some cap => Z.max 1 (Z.min (Z.of_nat REPLICATION_PAGE_LIMIT) cap)
  end.

Definition replication_page_limit (remote : ReplicationInventory) : nat :=
  match ri_accepts remote with
  | None => REPLICATION_EXCHANGE_ENVELOPE_LIMIT
  | Some accepts => Nat.max 1 (Nat.min REPLICATION_PAGE_LIMIT (Z.to_nat accepts))
  end.

(** ** The difference of two inventories *)

(** A peer's ranges by key; the last of two with one key stands. *)
Definition buckets_by_key (bs : list ReplicationInventoryBucket) :
    list (string * Z * ReplicationInventoryBucket) :=
  fold_left (λ m b, bt_insert range_compare (bucket_key b) b m) bs [].

Definition listed_by_key (l : list ReplicaEnvelopeId) : list (string * Z * list ReplicaEnvelopeId) :=
  bt_group range_compare (λ i, Some (range_key i)) l.

(** [sort_unstable] and [dedup]. *)
Definition sort_dedup_ids (l : list ReplicaEnvelopeId) : list ReplicaEnvelopeId :=
  bt_set ReplicaEnvelopeId_compare l.

Definition knows (known : list ReplicaEnvelopeId) (i : ReplicaEnvelopeId) : bool :=
  is_ok (binary_search_by (λ k, ReplicaEnvelopeId_compare k i) known).

Record Exchange := mkExchange {
  ex_peer : string;
  ex_fleet_id : string;
  ex_inventory : ReplicationInventory;
  ex_envelopes : list ReplicaEnvelopeId
}.

Section exchange.
Context {hex : HexApi} (sha256 : list ascii → list ascii).

(** Whether the peer listed the whole of this range. *)
Definition complete_listing (known : list ReplicaEnvelopeId) (theirs : ReplicationInventoryBucket) : bool :=
  (Z.of_nat (length known) =? bk_count theirs)%Z
  && str_eqb (replication_bucket_digest sha256 known) (bk_digest theirs).

Definition list_range (listing_limit : nat) (local listed : list ReplicaEnvelopeId) (listing_full : bool) :
    list ReplicaEnvelopeId * bool :=
  if negb listing_full && (bool_decide (listed = []) || (length listed + length local <=? listing_limit)%nat)
  then (listed ++ local, listing_full) else (listed, true).

(** One range of this node: what is missing at the peer, what is listed so far, and whether the listing
    is full. *)
Definition difference_turn (inv : CompactReplicationInventory) (remote : ReplicationInventory)
    (listing_limit : nat) (state : list ReplicaEnvelopeId * list ReplicaEnvelopeId * bool)
    (b : ReplicationInventoryBucket) : list ReplicaEnvelopeId * list ReplicaEnvelopeId * bool :=
  let '(missing, listed, listing_full) := state in
  let key := bucket_key b in
  let local := range inv (bk_writer b) (bk_start b) in
  let room := (replication_page_limit remote - length missing)%nat in
  match bt_get range_compare key (buckets_by_key (ri_buckets remote)) with
  | None =>
      (missing ++ map (identity inv) (take room (List.filter (has_payload inv) local)), listed, listing_full)
  | Some theirs =>
      if str_eqb (bk_digest theirs) (bk_digest b) then state
      else
        let compact := local in
        let local := identities inv compact in
        let '(listed, listing_full) := list_range listing_limit local listed listing_full in
        match bt_get range_compare key (listed_by_key (ri_envelopes remote)) with
        | None => (missing, listed, listing_full)
        | Some known =>
            let known := sort_dedup_ids known in
            if negb (complete_listing known theirs) then (missing, listed, listing_full)
            else
              (missing ++ take room (map snd (List.filter (λ p, has_payload inv p.1 && negb (knows known p.2))
                                                (zip compact local))),
               listed, listing_full)
        end
  end.

Definition compact_replication_difference (inv : CompactReplicationInventory)
    (bs : list ReplicationInventoryBucket) (remote : ReplicationInventory) (listing_limit : nat) :
    list ReplicaEnvelopeId * list ReplicaEnvelopeId :=
  let '(missing, listed, _) := fold_left (difference_turn inv remote listing_limit) bs ([], [], false) in
  (missing, listed).

(** ** What a node sends *)

Context (accepts : Z).

Definition export_replication_summary (sn : ReplicationSnapshot) (checkpoint : option InventoryCheckpoint) :
    ReplicationInventory :=
  mkReplicationInventory (ci_digest (sn_inventory sn)) [] (sn_buckets sn) (Some accepts) checkpoint.

(** The envelopes whose rows are still there when they are read. *)
Definition replica_envelopes_for (t : Tables) (missing : list ReplicaEnvelopeId) : list ReplicaEnvelopeId :=
  List.filter (held t) missing.

Definition same_digest (sn : ReplicationSnapshot) (remote : ReplicationInventory) : bool :=
  negb (str_eqb (ri_digest remote) "") && str_eqb (ri_digest remote) (ci_digest (sn_inventory sn)).

(** What a peer that listed its whole inventory lacks. *)
Definition whole_difference (sn : ReplicationSnapshot) (remote : ReplicationInventory) : list ReplicaEnvelopeId :=
  let inv := sn_inventory sn in
  let known := bt_set ReplicaEnvelopeId_compare (ri_envelopes remote) in
  take (replication_page_limit remote)
    (List.filter (λ i, negb (bool_decide (i ∈ known)))
       (map (identity inv) (List.filter (has_payload inv) (ci_envelopes inv)))).

Definition export_replication_difference (sn : ReplicationSnapshot) (t : Tables)
    (checkpoint : option InventoryCheckpoint) (remote : ReplicationInventory) :
    ReplicationInventory * list ReplicaEnvelopeId :=
  let same := same_digest sn remote in
  if negb same && negb (bool_decide (ri_buckets remote = []))
  then
    let '(missing, listed) := compact_replication_difference (sn_inventory sn) (sn_buckets sn) remote
                                REPLICATION_EXCHANGE_ENVELOPE_LIMIT in
    (mkReplicationInventory (ci_digest (sn_inventory sn)) listed (sn_buckets sn) (Some accepts) checkpoint,
     replica_envelopes_for t missing)
  else
    let remote_is_complete :=
      if str_eqb (ri_digest remote) "" then true
      else str_eqb (ri_digest remote) (replication_inventory_digest sha256 (ri_envelopes remote)) in
    let missing := if same || negb remote_is_complete then [] else whole_difference sn remote in
    let inventory := if same then mkReplicationInventory (ci_digest (sn_inventory sn)) [] [] None None
                     else public (sn_inventory sn) in
    (mkReplicationInventory (ri_digest inventory) (ri_envelopes inventory) (ri_buckets inventory)
       (Some accepts) checkpoint,
     replica_envelopes_for t missing).

(** ** What a node takes *)

(** One envelope of an exchange: stored as a new row, or counted as a duplicate. *)
Definition receive_envelope (state : Tables * nat * nat) (i : ReplicaEnvelopeId) : Tables * nat * nat :=
  let '(t, received, duplicate) := state in
  if bool_decide (i ∈ checkpoint_envelopes t) || held t i then (t, received, S duplicate)
  else (mkTables (replica_envelopes t ++ [((max_rowid (replica_envelopes t) + 1)%Z, i)]) (checkpoint_envelopes t),
        S received, duplicate).

Definition receive_envelopes (t : Tables) (envelopes : list ReplicaEnvelopeId) : Tables * nat * nat :=
  fold_left receive_envelope envelopes (t, 0%nat, 0%nat).

(** ** A round between two nodes *)

Record Node := mkNode {
  nd_name : string;
  nd_fleet : string;
  nd_tables : Tables;
  nd_snapshot : option ReplicationSnapshot;
  nd_checkpoint : option InventoryCheckpoint
}.

(** [replication_snapshot]: the snapshot of the tables as they are, kept for the next. *)
Definition replication_snapshot (n : Node) : option (ReplicationSnapshot * Node) :=
  sn ← build_replication_snapshot sha256 (nd_snapshot n) (nd_tables n);
  Some (sn, mkNode (nd_name n) (nd_fleet n) (nd_tables n) (Some sn) (nd_checkpoint n)).

(** [receive_replication_exchange_asking]: the checks, the rows, and the snapshot taken after them. *)
Definition receive_replication_exchange (relay : string) (input : Exchange) (n : Node) :
    option (result string (Node * nat)) :=
  if negb (str_eqb (ex_peer input) relay) then Some (Err "peer-label-mismatch")
  else if negb (str_eqb (ex_fleet_id input) (nd_fleet n)) then Some (Err "fleet-id-mismatch")
  else
    let '(t, received, _) := receive_envelopes (nd_tables n) (ex_envelopes input) in
    '(_, n) ← replication_snapshot (mkNode (nd_name n) (nd_fleet n) t (nd_snapshot n) (nd_checkpoint n));
    Some (Ok (n, received)).

Definition export_for (n : Node) (remote : ReplicationInventory) : option (Node * Exchange) :=
  '(sn, n) ← replication_snapshot n;
  let '(inventory, envelopes) := export_replication_difference sn (nd_tables n) (nd_checkpoint n) remote in
  Some (n, mkExchange (nd_name n) (nd_fleet n) inventory envelopes).

(** [receive_exchange]: the peer stores what it is sent, then answers the inventory it is sent. *)
Definition receive_exchange (sender : string) (request : Exchange) (n : Node) :
    option (result string (Node * Exchange)) :=
  r ← receive_replication_exchange sender request n;
  match r with
  | Err code => Some (Err code)
  | Ok (n, _) => '(n, answer) ← export_for n (ex_inventory request); Some (Ok (n, answer))
  end.

(** [exchange] in the worker: both nodes afterwards, and whether envelopes moved either way. The peer's
    answer may ask for signatures ([asked]). *)
Definition exchange (asked : bool) (me peer : Node) : option (result string (Node * Node * bool)) :=
  '(sn, me) ← replication_snapshot me;
  let first := export_replication_summary sn (nd_checkpoint me) in
  let query := mkExchange (nd_name me) (nd_fleet me) first [] in
  r ← receive_exchange (nd_name me) query peer;
  match r with
  | Err code => Some (Err code)
  | Ok (peer, remote) =>
      let different := negb (str_eqb (ri_digest (ex_inventory remote)) (ri_digest first)) in
      r ← receive_replication_exchange (nd_name peer) remote me;
      match r with
      | Err code => Some (Err code)
      | Ok (me, pulled) =>
          if different || asked then
            '(me, push) ← export_for me (ex_inventory remote);
            r ← receive_exchange (nd_name me) push peer;
            match r with
            | Err code => Some (Err code)
            | Ok (peer, response) =>
                let pushed := negb (bool_decide (ex_envelopes push = []))
                              && negb (str_eqb (ri_digest (ex_inventory response)) (ri_digest (ex_inventory remote))) in
                r ← receive_replication_exchange (nd_name peer) response me;
                match r with
                | Err code => Some (Err code)
                | Ok (me, followed) =>
                    Some (Ok (me, peer, negb (pulled =? 0)%nat || negb (followed =? 0)%nat || pushed))
                end
            end
          else Some (Ok (me, peer, negb (pulled =? 0)%nat))
      end
  end.

(** Rounds one after another, ended by the first that fails. *)
Fixpoint exchanges (asks : list bool) (me peer : Node) : option (result string (Node * Node)) :=
  match asks with
  | [] => Some (Ok (me, peer))
  | asked :: asks =>
      r ← exchange asked me peer;
      match r with
      | Err code => Some (Err code)
      | Ok (me, peer, _) => exchanges asks me peer
      end
  end.
End exchange.

(** ** What only one side holds *)

Definition only (a b : list ReplicaEnvelopeId) : list ReplicaEnvelopeId :=
  List.filter (λ i, negb (bool_decide (i ∈ b))) a.

Lemma elem_of_only a b i : i ∈ only a b ↔ i ∈ a ∧ i ∉ b.
Proof. unfold only. by rewrite lfilter_elem, negb_true_iff, bool_decide_eq_false. Qed.

(** ** Pages, listings and keyed messages *)

Section messages.
Context {hex : HexApi} (sha256 : list ascii → list ascii).

Lemma filter_zip {A B} (f : A → B) (p : A → B → bool) es :
  map snd (List.filter (λ x, p x.1 x.2) (zip es (map f es))) = map f (List.filter (λ e, p e (f e)) es).
Proof. induction es as [|e es IH]; simpl; [done|]. destruct (p e (f e)); simpl; by rewrite IH. Qed.

Lemma knows_elem known i : sorted known → knows known i = bool_decide (i ∈ known).
Proof.
  intros Hs. apply eq_bool_prop_intro. rewrite !Is_true_true, bool_decide_eq_true.
  by apply (binary_search_is_ok ReplicaEnvelopeId_compare).
Qed.

Lemma range_elem inv w z e : e ∈ range inv w z → e ∈ ci_envelopes inv.
Proof.
  unfold range. destruct (binary_search_by _ _); [|by intros ?%elem_of_nil].
  unfold subslice. intros He. apply (list_elem_of_lookup_1 (take _ _)) in He as [j Hj].
  apply lookup_take_Some in Hj as [Hj _]. rewrite lookup_drop in Hj. by eapply list_elem_of_lookup_2.
Qed.

Lemma take_take_app {A} n (a b : list A) : take n (take n a ++ b) = take n (a ++ b).
Proof.
  destruct (decide (length a ≤ n)%nat) as [Hle|Hgt]; [by rewrite (take_ge a)|].
  rewrite !take_app_le by (rewrite ?length_take; lia). rewrite take_take. f_equal. lia.
Qed.

Lemma paged_fold {A K} (f : K → list A) page ks m :
  (length m ≤ page)%nat →
  fold_left (λ m k, m ++ take (page - length m) (f k)) ks m = take page (m ++ concat (map f ks)).
Proof.
  revert m. induction ks as [|k ks IH]; intros m Hm; simpl; [by rewrite app_nil_r, take_ge|].
  assert (E : m ++ take (page - length m) (f k) = take page (m ++ f k)) by (rewrite take_app, (take_ge m); done).
  rewrite E, IH by (rewrite length_take; lia). by rewrite take_take_app, <- app_assoc.
Qed.

Lemma fold_filter {A B} (f : B → A → B) (p : A → bool) ks b :
  fold_left (λ b k, if p k then f b k else b) ks b = fold_left f (List.filter p ks) b.
Proof. revert b. induction ks as [|k ks IH]; intros b; simpl; [done|]. destruct (p k); simpl; apply IH. Qed.

(** Whole ranges, as many as fit, and always the first. *)
Lemma greedy_listing limit (rs : list (list ReplicaEnvelopeId)) :
  [] ∉ rs →
  let '(out, full) := fold_left (λ st r, list_range limit r st.1 st.2) rs ([], false) in
  ∃ n, (n ≤ length rs)%nat ∧ out = concat (take n rs) ∧ (full = false → n = length rs) ∧
       (full = true → 1 ≤ n)%nat ∧ (length out ≤ Nat.max limit (length (default [] (head rs))))%nat.
Proof.
  induction rs as [|r rs IH] using rev_ind; intros Hne; simpl.
  { exists 0%nat. split_and!; [done..|simpl; lia]. }
  rewrite fold_left_app. cbn [fold_left]. specialize (IH ltac:(set_solver)).
  destruct (fold_left _ rs _) as [out full]. destruct IH as (n & Hn & -> & Hfull & Hone & Hlen). cbn [fst snd].
  assert (Hhead : rs ≠ [] → head (rs ++ [r]) = head rs) by by destruct rs.
  unfold list_range. destruct (negb full && _) eqn:E.
  - apply andb_true_iff in E as [->%negb_true_iff E]. specialize (Hfull eq_refl). subst n.
    rewrite (take_ge rs) in * by done. exists (length (rs ++ [r])).
    split_and!; [done|by rewrite take_ge, concat_app, concat_cons, app_nil_r|done|done|].
    rewrite length_app. apply orb_true_iff in E as [E%bool_decide_eq_true|E%Nat.leb_le]; [|lia].
    rewrite E. destruct rs as [|[|x r0] rs]; [simpl; lia|set_solver|done].
  - assert (1 ≤ n)%nat.
    { destruct full; [by apply Hone|]. specialize (Hfull eq_refl). subst n. rewrite take_ge in E by done.
      destruct rs as [|r0 rs]; [done|simpl; lia]. }
    exists n. rewrite length_app, take_app_le by done. split_and!; [lia|done|done|done|].
    rewrite Hhead; [done|]. intros ->. simpl in Hn. lia.
Qed.

Lemma elem_of_page {A} n (m : list A) x : x ∈ take n m → x ∈ m.
Proof. intros Hx. rewrite <- (take_drop n m). apply elem_of_app. by left. Qed.

Lemma page_nil {A} n (m : list A) : (1 ≤ n)%nat → take n m = [] → m = [].
Proof. intros Hn. destruct m, n; simpl; [done|done|lia|done]. Qed.

(** What a message of a node that holds [P] says. *)
Definition inventory_of (P : list ReplicaEnvelopeId) (r : ReplicationInventory) : Prop :=
  ri_digest r = replication_inventory_digest sha256 P ∧
  ((ri_buckets r = public_buckets sha256 P ∧ ∀ i, i ∈ ri_envelopes r → i ∈ P) ∨
   (ri_buckets r = [] ∧ (ri_envelopes r = P ∨ ri_envelopes r = []))).

Lemma buckets_by_key_get (f : string * Z → ReplicationInventoryBucket) ks k :
  (∀ k, bucket_key (f k) = k) →
  bt_wf range_compare (buckets_by_key (map f ks)) ∧
  bt_get range_compare k (buckets_by_key (map f ks)) = (if bool_decide (k ∈ ks) then Some (f k) else None).
Proof.
  intros Hf. unfold buckets_by_key, bt_insert. induction ks as [|k' ks [Hwf IH]] using rev_ind; [split; [constructor|done]|].
  rewrite map_app, fold_left_app. cbn [map fold_left]. rewrite Hf.
  split; [by apply (bt_update_wf range_compare)|]. rewrite (bt_get_update range_compare) by exact Hwf. rewrite IH. destruct (range_compare k k') eqn:E.
  - apply cmp_eq in E as ->. rewrite bool_decide_true; [done|set_solver].
  - rewrite (bool_decide_ext (k ∈ ks ++ [k']) (k ∈ ks)); [done|].
    assert (k ≠ k') by (intros ->; by rewrite (cmp_order_refl range_compare) in E). set_solver.
  - rewrite (bool_decide_ext (k ∈ ks ++ [k']) (k ∈ ks)); [done|].
    assert (k ≠ k') by (intros ->; by rewrite (cmp_order_refl range_compare) in E). set_solver.
Qed.

Lemma public_buckets_get P k :
  bt_get range_compare k (buckets_by_key (public_buckets sha256 P))
  = (if bool_decide (k ∈ range_keys P) then Some (range_bucket sha256 P k) else None).
Proof. apply (proj2 (buckets_by_key_get (range_bucket sha256 P) (range_keys P) k ltac:(by intros []))). Qed.

Lemma listed_by_key_get k r :
  bt_get range_compare k (listed_by_key r)
  = (match with_key range_key k r with [] => None | known => Some known end).
Proof.
  destruct (bt_group_get range_compare (λ i, Some (range_key i)) r) as (_ & Hne & Hget).
  specialize (Hne k). specialize (Hget k). fold (listed_by_key r) in *.
  assert (Eg : group_of (λ i, Some (range_key i)) k r = with_key range_key k r).
  { apply List.filter_ext. intros i. apply bool_decide_ext. naive_solver. }
  rewrite Eg in Hget. destruct (bt_get range_compare k (listed_by_key r)) as [[|x g]|]; simpl in Hget;
    [by destruct Hne|by rewrite <- Hget|by rewrite <- Hget].
Qed.

End messages.

(** ** The difference, range by range *)

Section difference.
Context {hex : HexApi} (sha256 : list ascii → list ascii).
Context (t : Tables) (sn : ReplicationSnapshot) (Hok : tables_ok t) (Hsn : snapshot_of sha256 t sn).
Context (remote : ReplicationInventory).

Let l := listed t.

(** Which identities of a range the message proves the peer lacks, if it proves anything. *)
Definition proves_lacking (k : string * Z) : option (ReplicaEnvelopeId → bool) :=
  match bt_get range_compare k (buckets_by_key (ri_buckets remote)) with
  | None => Some (λ _, true)
  | Some theirs =>
      if str_eqb (bk_digest theirs) (bk_digest (range_bucket sha256 l k)) then None
      else match bt_get range_compare k (listed_by_key (ri_envelopes remote)) with
           | Some known => if complete_listing sha256 (sort_dedup_ids known) theirs
                           then Some (λ i, negb (bool_decide (i ∈ known))) else None
           | None => None
           end
  end.

Definition differs (k : string * Z) : bool :=
  match bt_get range_compare k (buckets_by_key (ri_buckets remote)) with
  | None => false
  | Some theirs => negb (str_eqb (bk_digest theirs) (bk_digest (range_bucket sha256 l k)))
  end.

Definition lacking (k : string * Z) : list ReplicaEnvelopeId :=
  match proves_lacking k with
  | Some p => List.filter (λ i, held t i && p i) (with_key range_key k l)
  | None => []
  end.

(** The listing of the differing ranges, and whether it filled up. *)
Definition list_turn (limit : nat) (state : list ReplicaEnvelopeId * bool) (k : string * Z) :
    list ReplicaEnvelopeId * bool :=
  if differs k then list_range limit (with_key range_key k l) state.1 state.2 else state.

Lemma listed_sequences : sequences_ok l.
Proof. intros i Hi. apply (to_sequences _ Hok). apply listed_elem in Hi. by apply elem_of_app. Qed.

Lemma range_ids k : k ∈ range_keys l →
  identities (sn_inventory sn) (range (sn_inventory sn) k.1 k.2) = with_key range_key k l.
Proof.
  destruct (so_inventory _ _ _ Hsn) as [Hi Hids _]. intros (i & -> & Hin)%range_keys_elem%list_elem_of_fmap.
  rewrite range_spec; rewrite ?Hids; [done|done|apply listed_sequences| |apply bucket_start_idem].
  by apply bucket_start_sequence, listed_sequences.
Qed.

Lemma filter_payload (p : ReplicaEnvelopeId → bool) es :
  (∀ e, e ∈ es → e ∈ ci_envelopes (sn_inventory sn)) →
  map (identity (sn_inventory sn))
    (List.filter (λ e, has_payload (sn_inventory sn) e && p (identity (sn_inventory sn) e)) es)
  = List.filter (λ i, held t i && p i) (identities (sn_inventory sn) es).
Proof.
  intros Hes. unfold identities. rewrite lfilter_map. f_equal. apply filter_ext_in.
  intros e He%list_elem_of_In. by rewrite (has_payload_held t) by first [done|apply Hsn|by apply Hes].
Qed.

(** One turn of the loop adds what the message proves lacking, as far as the page goes, and lists the
    range when it differs. *)
Lemma difference_turn_spec limit missing listed full k :
  k ∈ range_keys l →
  difference_turn sha256 (sn_inventory sn) remote limit (missing, listed, full) (range_bucket sha256 l k)
  = (missing ++ take (replication_page_limit remote - length missing) (lacking k),
     (list_turn limit (listed, full) k).1, (list_turn limit (listed, full) k).2).
Proof.
  intros Hk. unfold difference_turn, lacking, proves_lacking, list_turn, differs.
  cbn [range_bucket bk_writer bk_start bk_digest bucket_key].
  replace (bucket_key _) with k by by destruct k.
  destruct (bt_get range_compare k (buckets_by_key _)) as [theirs|].
  - destruct (str_eqb (bk_digest theirs) _) eqn:Ed; cbn [negb]; [by rewrite take_nil, app_nil_r|].
    rewrite (range_ids k Hk). cbn [fst snd]. destruct (list_range limit _ listed full) as [listed' full'].
    destruct (bt_get range_compare k (listed_by_key _)) as [known|]; [|by rewrite take_nil, app_nil_r].
    destruct (complete_listing _ _ _); cbn [negb]; [|by rewrite take_nil, app_nil_r].
    do 3 f_equal. rewrite <- (range_ids k Hk). unfold identities.
    rewrite (filter_zip _ (λ e i, has_payload (sn_inventory sn) e && negb (knows (sort_dedup_ids known) i))).
    rewrite (filter_payload (λ i, negb (knows (sort_dedup_ids known) i))) by (intros e; apply range_elem).
    f_equal. apply List.filter_ext. intros i. do 2 f_equal. unfold sort_dedup_ids.
    rewrite knows_elem by apply (bt_set_sorted ReplicaEnvelopeId_compare).
    apply bool_decide_ext, (elem_of_bt_set ReplicaEnvelopeId_compare).
  - do 3 f_equal. rewrite <- (range_ids k Hk), <- firstn_map. f_equal.
    rewrite <- (filter_payload (λ _, true)) by (intros e; apply range_elem).
    f_equal. apply List.filter_ext. intros e. by rewrite andb_true_r.
Qed.

Definition differing : list (string * Z) := List.filter differs (range_keys l).

Definition listing (limit : nat) : list ReplicaEnvelopeId :=
  (fold_left (list_turn limit) (range_keys l) ([], false)).1.

(** The loop as a whole: a page of what is lacking, range after range, and the listing. *)
Lemma difference_spec limit :
  compact_replication_difference sha256 (sn_inventory sn) (sn_buckets sn) remote limit
  = (take (replication_page_limit remote) (concat (map lacking (range_keys l))), listing limit).
Proof.
  unfold compact_replication_difference, listing. rewrite (so_buckets _ _ _ Hsn).
  change (public_buckets sha256 (Snapshot.listed t)) with (map (range_bucket sha256 l) (range_keys l)).
  rewrite <- (app_nil_l (concat (map lacking (range_keys l)))).
  rewrite <- (paged_fold lacking) by (simpl; lia).
  assert (Hgen : ∀ ks missing listed full, (∀ k, k ∈ ks → k ∈ range_keys l) →
    fold_left (difference_turn sha256 (sn_inventory sn) remote limit) (map (range_bucket sha256 l) ks) (missing, listed, full)
    = (fold_left (λ m k, m ++ take (replication_page_limit remote - length m) (lacking k)) ks missing,
       (fold_left (list_turn limit) ks (listed, full)).1, (fold_left (list_turn limit) ks (listed, full)).2)).
  { induction ks as [|k ks IH]; intros missing listed full Hks; cbn [map fold_left]; [done|].
    rewrite difference_turn_spec by (apply Hks; by left). rewrite IH by (intros; apply Hks; by right).
    by destruct (list_turn limit (listed, full) k). }
  rewrite (Hgen _ [] [] false) by done. done.
Qed.

Lemma listing_spec limit :
  ∃ n, (n ≤ length differing)%nat ∧ listing limit = concat (map (λ k, with_key range_key k l) (take n differing)) ∧
       (differing ≠ [] → 1 ≤ n)%nat ∧
       (length (listing limit) ≤
        Nat.max limit (length (default [] (head (map (λ k, with_key range_key k l) differing)))))%nat.
Proof.
  unfold listing.
  assert (E : fold_left (list_turn limit) (range_keys l) ([], false)
              = fold_left (λ st r, list_range limit r st.1 st.2) (map (λ k, with_key range_key k l) differing) ([], false)).
  { unfold list_turn, differing.
    rewrite (fold_filter (λ st k, list_range limit (with_key range_key k l) st.1 st.2) differs).
    generalize (@nil ReplicaEnvelopeId, false). induction (List.filter differs _) as [|k ks IH]; intros st; simpl; [done|].
    apply IH. }
  rewrite E. pose proof (greedy_listing limit (map (λ k, with_key range_key k l) differing)) as Hg.
  destruct (fold_left _ (map _ _) _) as [out full]. destruct Hg as (n & Hn & -> & Hfull & Hone & Hlen).
  - intros (k & Ek & [Hk _]%lfilter_elem)%list_elem_of_fmap. apply range_keys_elem in Hk.
    destruct (with_key_nonempty range_key k l Hk) as (x & r & Er & _). by rewrite Er in Ek.
  - rewrite length_map in *. exists n. rewrite <- firstn_map. split_and!; [done|done| |done].
    intros Hd. destruct full; [by apply Hone|]. rewrite Hfull by done.
    destruct differing; [done|simpl; lia].
Qed.

Section honest.
Context (P : list ReplicaEnvelopeId) (HP : sorted P).
Context (Hb : ri_buckets remote = public_buckets sha256 P).
Context (Hl : ∀ i, i ∈ ri_envelopes remote → i ∈ P).

(** A listing as long as the range is the range. *)
Lemma complete_is_range k :
  let known := sort_dedup_ids (with_key range_key k (ri_envelopes remote)) in
  complete_listing sha256 known (range_bucket sha256 P k) = true ↔ known = with_key range_key k P.
Proof.
  intros known. unfold complete_listing. cbn [range_bucket bk_count bk_digest].
  rewrite andb_true_iff, Z.eqb_eq, str_eqb_true. split; [|by intros ->].
  intros [Hlen%Nat2Z.inj _].
  assert (Hs : sorted known) by apply (bt_set_sorted ReplicaEnvelopeId_compare).
  assert (Hsub : ∀ i, i ∈ known → i ∈ with_key range_key k P).
  { intros i. unfold known, sort_dedup_ids. rewrite (elem_of_bt_set ReplicaEnvelopeId_compare), !elem_of_with_key.
    naive_solver. }
  apply (sorted_ext ReplicaEnvelopeId_compare); [done|by apply sorted_filter|]. intros i. split; [by apply Hsub|].
  assert (Hp : known ≡ₚ with_key range_key k P).
  { apply submseteq_length_Permutation; [|by rewrite Hlen].
    apply NoDup_submseteq; [by apply (sorted_NoDup ReplicaEnvelopeId_compare)|done]. }
  by rewrite Hp.
Qed.

Lemma lacking_elem k i :
  i ∈ lacking k → held t i = true ∧ i ∈ l ∧ range_key i = k ∧ i ∉ P.
Proof.
  unfold lacking. destruct (proves_lacking k) as [p|] eqn:Ep; [|by intros ?%elem_of_nil].
  intros [[Hi Hk]%elem_of_with_key [Hh Hp]%andb_true_iff]%lfilter_elem. split_and!; [done..|].
  unfold proves_lacking in Ep. rewrite Hb, public_buckets_get, listed_by_key_get in Ep. intros Hin.
  rewrite bool_decide_true in Ep by (apply range_keys_elem, list_elem_of_fmap; eauto).
  destruct (str_eqb _ _); [done|].
  pose proof (proj1 (complete_is_range k)) as Hc. destruct (with_key range_key k (ri_envelopes remote)) as [|x known]; [done|].
  destruct (complete_listing _ _ _); [|done]. injection Ep as <-. specialize (Hc eq_refl).
  apply negb_true_iff, bool_decide_eq_false in Hp. apply Hp.
  apply (elem_of_bt_set ReplicaEnvelopeId_compare). fold (sort_dedup_ids (x :: known)). rewrite Hc.
  by apply elem_of_with_key.
Qed.
End honest.

(** ** Exports *)

Context (Hsha : ∀ x, length (sha256 x) = 32%nat).
Context (accepts : Z) (checkpoint : option InventoryCheckpoint).

Local Abbreviation digest := (replication_inventory_digest sha256).
Local Abbreviation export := (export_replication_difference sha256 accepts sn t checkpoint remote).

Lemma finalize_nonempty x : finalize sha256 x ≠ "".
Proof.
  unfold finalize. intros E. pose proof (hex_encode_text _ (Hsha x)) as Ht. rewrite E in Ht. by vm_compute in Ht.
Qed.

Lemma page_limit_pos : (1 ≤ replication_page_limit remote)%nat.
Proof. unfold replication_page_limit, REPLICATION_EXCHANGE_ENVELOPE_LIMIT. destruct (ri_accepts remote); lia. Qed.

Lemma held_listed i : held t i = true → i ∈ l.
Proof. intros Hh%bool_decide_eq_true. apply listed_elem. by left. Qed.

Lemma whole_difference_spec :
  whole_difference sn remote
  = take (replication_page_limit remote)
      (List.filter (λ i, negb (bool_decide (i ∈ ri_envelopes remote))) (List.filter (held t) l)).
Proof.
  unfold whole_difference. f_equal.
  pose proof (snapshot_told sha256 t sn Hok Hsn) as Ht. injection Ht as _ _ _ Hs _.
  change (map (identity (sn_inventory sn)) (List.filter (has_payload (sn_inventory sn)) (ci_envelopes (sn_inventory sn))))
    with (sendable (sn_inventory sn)).
  rewrite Hs. apply List.filter_ext. intros i. f_equal.
  apply bool_decide_ext, (elem_of_bt_set ReplicaEnvelopeId_compare).
Qed.

Lemma held_filter_id m : (∀ i, i ∈ m → held t i = true) → replica_envelopes_for t m = m.
Proof.
  unfold replica_envelopes_for. induction m as [|i m IH]; intros Hm; simpl; [done|].
  rewrite Hm by left. f_equal. apply IH. intros; apply Hm; by right.
Qed.

(** An export, by the form of the message it answers. *)
Lemma export_cases :
  export =
  (if same_digest sn remote
   then (mkReplicationInventory (digest l) [] [] (Some accepts) checkpoint, [])
   else if bool_decide (ri_buckets remote = [])
   then (mkReplicationInventory (digest l) l [] (Some accepts) checkpoint,
         if str_eqb (ri_digest remote) "" || str_eqb (ri_digest remote) (digest (ri_envelopes remote))
         then take (replication_page_limit remote)
                (List.filter (λ i, negb (bool_decide (i ∈ ri_envelopes remote))) (List.filter (held t) l))
         else [])
   else (mkReplicationInventory (digest l) (listing REPLICATION_EXCHANGE_ENVELOPE_LIMIT)
           (public_buckets sha256 l) (Some accepts) checkpoint,
         take (replication_page_limit remote) (concat (map lacking (range_keys l))))).
Proof.
  unfold export_replication_difference. rewrite (so_digest _ _ _ Hsn), (so_buckets _ _ _ Hsn). fold l.
  destruct (same_digest sn remote); cbn [negb andb orb].
  { by rewrite held_filter_id by by intros i ?%elem_of_nil. }
  case_bool_decide as Hbk; cbn [negb].
  - unfold public. cbn [ri_digest ri_envelopes ri_buckets]. rewrite (so_digest _ _ _ Hsn).
    fold (ids (sn_inventory sn)). rewrite (rt_ids _ _ (so_inventory _ _ _ Hsn)). fold l. f_equal.
    rewrite whole_difference_spec. set (m := take _ _).
    destruct (str_eqb (ri_digest remote) ""); cbn [orb negb];
      [|destruct (str_eqb (ri_digest remote) _); cbn [negb]]; apply held_filter_id; try by intros i ?%elem_of_nil.
    + intros i [[_ ?]%lfilter_elem _]%elem_of_page%lfilter_elem. done.
    + intros i [[_ ?]%lfilter_elem _]%elem_of_page%lfilter_elem. done.
  - pose proof (difference_spec REPLICATION_EXCHANGE_ENVELOPE_LIMIT) as Hd. rewrite (so_buckets _ _ _ Hsn) in Hd.
    fold l in Hd. rewrite Hd. f_equal. apply held_filter_id. intros i Hi%elem_of_page.
    apply list_elem_of_In, in_concat in Hi as (r & (k & <- & _)%in_map_iff & Hi%list_elem_of_In).
    unfold lacking in Hi. destruct (proves_lacking k); [|by apply elem_of_nil in Hi].
    by apply lfilter_elem in Hi as [_ [? _]%andb_true_iff].
Qed.

Lemma listing_elem limit i : i ∈ listing limit → i ∈ l.
Proof.
  destruct (listing_spec limit) as (n & _ & -> & _ & _).
  intros (r & (k & <- & _)%in_map_iff & Hi%list_elem_of_In)%list_elem_of_In%in_concat.
  by apply elem_of_with_key in Hi as [? _].
Qed.

(** Whatever it answers, an export says what this node holds. *)
Lemma export_is_honest : inventory_of sha256 l export.1.
Proof.
  rewrite export_cases. destruct (same_digest _ _); [|case_bool_decide]; (split; [done|]); simpl.
  - right. by split; [|right].
  - right. by split; [|left].
  - left. split; [done|]. intros i. apply listing_elem.
Qed.

Lemma export_fits : (length export.2 ≤ replication_page_limit remote)%nat.
Proof.
  rewrite export_cases. destruct (same_digest _ _); [simpl; lia|]. case_bool_decide; simpl.
  - destruct (_ || _); [rewrite length_take; lia|simpl; lia].
  - rewrite length_take. lia.
Qed.

Lemma export_is_lacking P i :
  sorted P → Forall identity_ok P → inventory_of sha256 P remote → i ∈ export.2 →
  held t i = true ∧ (i ∉ P ∨ collides sha256 INVENTORY_DIGEST_DOMAIN P []).
Proof.
  intros HP HPok [Hd Hform]. rewrite export_cases. destruct (same_digest _ _); [by intros ?%elem_of_nil|].
  case_bool_decide as Hbk; cbn [snd].
  - assert (Hne : str_eqb (ri_digest remote) "" = false)
      by (apply str_eqb_false; rewrite Hd; apply finalize_nonempty).
    rewrite Hne. cbn [orb]. destruct (str_eqb (ri_digest remote) (digest (ri_envelopes remote))) eqn:Ed; [apply str_eqb_true in Ed|by intros ?%elem_of_nil].
    intros [[_ Hh]%lfilter_elem Hn%negb_true_iff%bool_decide_eq_false]%elem_of_page%lfilter_elem. split; [done|].
    destruct Hform as [[Hb He]|[_ [He|He]]].
    + left. assert (P = []) as ->; [|apply not_elem_of_nil].
      rewrite Hbk in Hb. symmetry in Hb. apply map_eq_nil in Hb. destruct P as [|x P']; [done|].
      exfalso. apply (elem_of_nil (range_key x)). rewrite <- Hb. apply range_keys_elem. by left.
    + left. by rewrite <- He.
    + rewrite He, Hd in Ed. destruct (inventory_digest_inj sha256 P []) as [->|Hc];
        [by split|apply framed_nil|done|left; apply not_elem_of_nil|by right].
  - destruct Hform as [[Hb He]|[Hb _]]; [|done]. intros Hi%elem_of_page.
    apply list_elem_of_In, in_concat in Hi as (r & (k & <- & _)%in_map_iff & Hi%list_elem_of_In).
    apply (lacking_elem P HP Hb He) in Hi as (? & _ & _ & ?). by split; [|left].
Qed.

(** ** When nothing is sent *)

Lemma silent_ranges k :
  same_digest sn remote = false → ri_buckets remote ≠ [] → export.2 = [] → k ∈ range_keys l → lacking k = [].
Proof.
  intros Hs Hb. rewrite export_cases, Hs, bool_decide_false by done. cbn [snd].
  intros He%page_nil Hk; [|apply page_limit_pos].
  destruct (lacking k) as [|x r] eqn:E; [done|]. exfalso. apply (elem_of_nil x). rewrite <- He.
  apply list_elem_of_In, in_concat. exists (lacking k). split; [apply in_map, list_elem_of_In, Hk|]. rewrite E. by left.
Qed.

Lemma silent_whole i :
  same_digest sn remote = false → ri_buckets remote = [] →
  ri_digest remote = digest (ri_envelopes remote) → export.2 = [] → held t i = true → i ∈ ri_envelopes remote.
Proof.
  intros Hs Hb Hd. rewrite export_cases, Hs, (bool_decide_true _ Hb), Hd, str_eqb_refl, orb_true_r. cbn [snd].
  intros He%page_nil Hh; [|apply page_limit_pos].
  destruct (decide (i ∈ ri_envelopes remote)) as [|Hn]; [done|]. exfalso. apply (elem_of_nil i). rewrite <- He.
  rewrite !lfilter_elem, negb_true_iff, bool_decide_eq_false. split_and!; [by apply held_listed|done|done].
Qed.

(** A range the peer lacks wholly is lacking as far as it is held. *)
Lemma silent_new_range P k i :
  ri_buckets remote = public_buckets sha256 P → k ∉ range_keys P → lacking k = [] →
  i ∈ with_key range_key k l → held t i = false.
Proof.
  intros Hb Hk He Hi. apply not_true_iff_false. intros Hh. apply (elem_of_nil i). rewrite <- He.
  unfold lacking, proves_lacking. rewrite Hb, public_buckets_get, bool_decide_false by done.
  apply lfilter_elem. by rewrite Hh.
Qed.

(** A range the peer listed whole is held there as far as it is held here. *)
Lemma silent_listed_range P k i :
  sorted P → ri_buckets remote = public_buckets sha256 P → (∀ i, i ∈ ri_envelopes remote → i ∈ P) →
  k ∈ range_keys P → differs k = true →
  (∀ i, i ∈ with_key range_key k P → i ∈ ri_envelopes remote) → lacking k = [] →
  i ∈ with_key range_key k l → held t i = true → i ∈ P.
Proof.
  intros HP Hb Hl Hk Hdf Hall He Hi Hh. destruct (decide (i ∈ P)) as [|Hn]; [done|]. exfalso.
  apply (elem_of_nil i). rewrite <- He. unfold lacking, proves_lacking. unfold differs in Hdf.
  rewrite Hb, public_buckets_get, bool_decide_true in * by done. apply negb_true_iff in Hdf. rewrite Hdf.
  rewrite listed_by_key_get.
  assert (Hin : ∀ x, x ∈ with_key range_key k (ri_envelopes remote) ↔ x ∈ with_key range_key k P).
  { intros x. split; [rewrite !elem_of_with_key; naive_solver|]. intros Hx. apply elem_of_with_key.
    split; [by apply Hall|]. by apply elem_of_with_key in Hx as [_ ?]. }
  assert (Hc : complete_listing sha256 (sort_dedup_ids (with_key range_key k (ri_envelopes remote)))
                 (range_bucket sha256 P k) = true).
  { apply (complete_is_range P HP Hl k). apply (sorted_ext ReplicaEnvelopeId_compare);
      [apply (bt_set_sorted ReplicaEnvelopeId_compare)|by apply sorted_filter|].
    intros x. unfold sort_dedup_ids. by rewrite (elem_of_bt_set ReplicaEnvelopeId_compare), Hin. }
  destruct (with_key_nonempty range_key k P) as (x & r & Ex & _); [by apply range_keys_elem|].
  destruct (with_key range_key k (ri_envelopes remote)) as [|y m] eqn:Ey.
  { exfalso. apply (elem_of_nil x), Hin. rewrite Ex. by left. }
  rewrite Hc. apply lfilter_elem. split; [done|]. rewrite Hh. cbn [andb]. apply negb_true_iff, bool_decide_eq_false.
  intros Hiy. apply Hn. apply Hin in Hiy. by apply elem_of_with_key in Hiy as [? _].
Qed.

(** The first range that differs is always listed whole. *)
Lemma first_range_listed limit k ks i :
  differing = k :: ks → i ∈ with_key range_key k l → i ∈ listing limit.
Proof.
  intros Hd Hi. destruct (listing_spec limit) as (n & _ & -> & Hn & _). rewrite Hd in *.
  destruct n as [|n]; [specialize (Hn ltac:(done)); lia|]. simpl. apply elem_of_app. by left.
Qed.
End difference.

(** Whatever inventory it answers, an export says truly what its node holds, fits the page the
    reader takes, and sends only envelopes whose payload is stored; and when the inventory it answers
    says truly what the reader holds, only envelopes the reader lacks, unless the reader's inventory has
    the SHA-256 digest of the empty one. *)
Theorem exports_send_what_is_lacking {hex : HexApi} sha256 accepts checkpoint t sn remote :
  (∀ x, length (sha256 x) = 32%nat) → tables_ok t → snapshot_of sha256 t sn →
  let '(inventory, sent) := export_replication_difference sha256 accepts sn t checkpoint remote in
  inventory_of sha256 (listed t) inventory ∧
  (length sent ≤ replication_page_limit remote)%nat ∧
  ∀ P, sorted P → Forall identity_ok P → inventory_of sha256 P remote →
       ∀ i, i ∈ sent → held t i = true ∧ (i ∉ P ∨ collides sha256 INVENTORY_DIGEST_DOMAIN P []).
Proof.
  intros Hsha Hok Hsn.
  pose proof (export_is_honest sha256 t sn Hok Hsn remote accepts checkpoint) as H1.
  pose proof (export_fits sha256 t sn Hok Hsn remote accepts checkpoint) as H2.
  pose proof (λ P i, export_is_lacking sha256 t sn Hok Hsn remote Hsha accepts checkpoint P i) as H3.
  destruct (export_replication_difference _ _ _ _ _ _) as [inventory sent]. cbn [fst snd] in *.
  split_and!; [done|done|]. intros P HP HPi Hr i. by apply H3.
Qed.

(** ** Witnesses *)

(** A peer that holds [id_b] and lists it. *)
Definition peer_with_b : ReplicationInventory :=
  mkReplicationInventory (replication_inventory_digest (hex := lower_hex) length_digest [id_b])
    [id_b] (public_buckets (hex := lower_hex) length_digest [id_b]) (Some 4096%Z) None.

Lemma exports_send_what_is_lacking_witness :
  ∃ sn, build_replication_snapshot (hex := lower_hex) length_digest None one_row = Some sn ∧
    let '(_, sent) := export_replication_difference (hex := lower_hex) length_digest 4096 sn one_row None peer_with_b in
    ∀ i, i ∈ sent → held one_row i = true ∧ (i ∉ [id_b] ∨ collides (hex := lower_hex) length_digest INVENTORY_DIGEST_DOMAIN [id_b] []).
Proof.
  assert (Hok : tables_ok one_row) by tables_by_computation.
  destruct (build_full_spec (hex := lower_hex) length_digest one_row Hok) as (sn & E & Hsn). exists sn. split; [done|].
  pose proof (exports_send_what_is_lacking (hex := lower_hex) length_digest 4096 None one_row sn peer_with_b
                length_digest_32 Hok Hsn) as H.
  destruct (export_replication_difference _ _ _ _ _ _) as [inventory sent]. destruct H as (_ & _ & H).
  apply (H [id_b]); [by repeat constructor|by repeat constructor; vm_compute|].
  split; [done|]. left. split; [done|]. by intros i Hi.
Defined.
