(* ===== verification/Convergence.v ===== *)
(** * Rounds converge

    Two nodes that exchange inventories end up holding the same envelopes. The rounds are those of
    [Exchange]; here they are shown never to fail between nodes of one fleet, to move only what the
    other side lacks, and to settle within as many rounds as there are envelopes only one side holds,
    for nodes that hold the payload of everything they list. The alternative is a round in which a
    SHA-256 digest the two nodes compare, of what they list at that moment, is the same on both sides
    though they list different envelopes. *)

From Stdlib Require Import Ascii.
From S2P Require Import Prelude StableSort Text Json Bytes Order BTree Slices Claim Hash Inventory Snapshot Exchange.
Import Compact.

Local Abbreviation sorted := (StronglySorted (λ a b, ReplicaEnvelopeId_compare a b = Lt)).

Section convergence.
Context {hex : HexApi} (sha256 : list ascii → list ascii) (accepts : Z).
Context (Hsha : ∀ x, length (sha256 x) = 32%nat).

Local Abbreviation digest := (replication_inventory_digest sha256).

(** ** A silent round *)

Section silent.
Context (tA tB : Tables) (HA : tables_ok tA) (HB : tables_ok tB).
Context (HAh : ∀ i, i ∈ listed tA → held tA i = true) (HBh : ∀ i, i ∈ listed tB → held tB i = true).
Context (HAi : framed (listed tA)) (HBi : framed (listed tB)).
Context (cpA cpA' cpB cpB' : option InventoryCheckpoint) (snA snA' snB snB' : ReplicationSnapshot).
Context (HsA : snapshot_of sha256 tA snA) (HsA' : snapshot_of sha256 tA snA').
Context (HsB : snapshot_of sha256 tB snB) (HsB' : snapshot_of sha256 tB snB').

Let A := listed tA.
Let B := listed tB.

Let first := export_replication_summary accepts snA cpA.
Let second := export_replication_difference sha256 accepts snB tB cpB first.
Let third := export_replication_difference sha256 accepts snA' tA cpA' second.1.
Let fourth := export_replication_difference sha256 accepts snB' tB cpB' third.1.

Lemma empty_ranges l : range_keys l = [] → l = [].
Proof.
  destruct l as [|i l]; [done|]. intros E. exfalso. apply (elem_of_nil (range_key i)). rewrite <- E.
  apply range_keys_elem. by left.
Qed.

Lemma no_buckets l : public_buckets sha256 l = [] → l = [].
Proof. intros E. apply map_eq_nil in E. by apply empty_ranges. Qed.

Lemma other_digest t sn r : snapshot_of sha256 t sn → ri_digest r ≠ digest (listed t) → same_digest sn r = false.
Proof.
  intros Hs Hne. unfold same_digest. rewrite (so_digest _ _ _ Hs), (proj2 (str_eqb_false _ _) Hne). apply andb_false_r.
Qed.

(** Nothing new for the first node means it has every range of the second. *)
Lemma silent_first_ranges k :
  A ≠ [] → digest A ≠ digest B → second.2 = [] → k ∈ range_keys B → k ∈ range_keys A.
Proof.
  intros HAne Hd He Hk. destruct (decide (k ∈ range_keys A)) as [|Hn]; [done|]. exfalso.
  assert (Hb : ri_buckets first = public_buckets sha256 A) by apply (so_buckets _ _ _ HsA).
  assert (Hs : same_digest snB first = false).
  { apply (other_digest tB); [done|]. simpl. by rewrite (so_digest _ _ _ HsA). }
  assert (Hl : lacking sha256 tB first k = []).
  { eapply (silent_ranges sha256 tB snB HB HsB first accepts cpB); [done| |exact He|exact Hk].
    rewrite Hb. by intros ?%no_buckets. }
  destruct (with_key_nonempty range_key k B) as (x & r & Ex & _); [by apply range_keys_elem|].
  assert (Hx : x ∈ with_key range_key k B) by (rewrite Ex; left).
  pose proof (silent_new_range sha256 tB first A k x Hb Hn Hl Hx) as Hf.
  rewrite HBh in Hf; [done|]. by apply elem_of_with_key in Hx as [? _].
Qed.

Lemma second_buckets : A ≠ [] → digest A ≠ digest B →
  second.1 = mkReplicationInventory (digest B) (listing sha256 tB first REPLICATION_EXCHANGE_ENVELOPE_LIMIT)
               (public_buckets sha256 B) (Some accepts) cpB.
Proof.
  intros HAne Hd. unfold second. rewrite (export_cases sha256 tB snB HB HsB).
  rewrite (other_digest tB snB first HsB) by (simpl; by rewrite (so_digest _ _ _ HsA)).
  rewrite bool_decide_false; [done|]. simpl. rewrite (so_buckets _ _ _ HsA). by intros ?%no_buckets.
Qed.

(** Nothing new for the second node either means both have the same ranges. *)
Lemma silent_second_ranges k :
  A ≠ [] → B ≠ [] → digest A ≠ digest B → third.2 = [] → k ∈ range_keys A → k ∈ range_keys B.
Proof.
  intros HAne HBne Hd He Hk. destruct (decide (k ∈ range_keys B)) as [|Hn]; [done|]. exfalso.
  assert (Hb : ri_buckets second.1 = public_buckets sha256 B) by by rewrite second_buckets.
  assert (Hs : same_digest snA' second.1 = false)
    by (apply (other_digest tA); [done|]; rewrite second_buckets by done; by apply not_eq_sym).
  assert (Hl : lacking sha256 tA second.1 k = []).
  { eapply (silent_ranges sha256 tA snA' HA HsA' second.1 accepts cpA'); [done| |exact He|exact Hk].
    rewrite Hb. by intros ?%no_buckets. }
  destruct (with_key_nonempty range_key k A) as (x & r & Ex & _); [by apply range_keys_elem|].
  assert (Hx : x ∈ with_key range_key k A) by (rewrite Ex; left).
  pose proof (silent_new_range sha256 tA second.1 B k x Hb Hn Hl Hx) as Hf.
  rewrite HAh in Hf; [done|]. by apply elem_of_with_key in Hx as [? _].
Qed.

Lemma third_buckets : A ≠ [] → B ≠ [] → digest A ≠ digest B →
  third.1 = mkReplicationInventory (digest A) (listing sha256 tA second.1 REPLICATION_EXCHANGE_ENVELOPE_LIMIT)
              (public_buckets sha256 A) (Some accepts) cpA'.
Proof.
  intros HAne HBne Hd. unfold third. rewrite (export_cases sha256 tA snA' HA HsA').
  rewrite (other_digest tA snA' second.1 HsA') by (rewrite second_buckets by done; by apply not_eq_sym).
  rewrite bool_decide_false; [done|]. rewrite second_buckets by done. by intros ?%no_buckets.
Qed.

(** Both sides see the same ranges as different. *)
Lemma differs_buckets t P r k : ri_buckets r = public_buckets sha256 P → k ∈ range_keys P →
  differs sha256 t r k = negb (str_eqb (bk_digest (range_bucket sha256 P k)) (bk_digest (range_bucket sha256 (listed t) k))).
Proof. intros Hb Hk. unfold differs. by rewrite Hb, public_buckets_get, bool_decide_true. Qed.

Lemma str_eqb_sym a b : str_eqb a b = str_eqb b a.
Proof. apply bool_decide_ext. naive_solver. Qed.

(** The first range that differs, and that both sides say so. *)
Lemma first_difference :
  A ≠ B → (∀ k, k ∈ range_keys A ↔ k ∈ range_keys B) → confused sha256 A B ∨
  ∃ k ks, List.filter (λ k, negb (str_eqb (bk_digest (range_bucket sha256 A k)) (bk_digest (range_bucket sha256 B k))))
            (range_keys A) = k :: ks ∧ with_key range_key k A ≠ with_key range_key k B ∧
          k ∈ range_keys A ∧
          str_eqb (bk_digest (range_bucket sha256 A k)) (bk_digest (range_bucket sha256 B k)) = false.
Proof.
  intros Hne Hks. destruct (ranges_or_confused sha256 (range_keys A) A B HAi HBi) as [Hr|?]; [right|by left].
  assert (Ek : range_keys A = range_keys B).
  { apply (sorted_ext range_compare); [apply (bt_set_sorted range_compare)..|done]. }
  destruct (List.filter _ (range_keys A)) as [|k ks] eqn:E.
  - exfalso. apply Hne.
    rewrite <- (concat_ranges A) by apply listed_is_sorted. rewrite <- (concat_ranges B) by apply listed_is_sorted.
    f_equal. unfold ranges. rewrite <- Ek. apply map_ext_in. intros k Hk%list_elem_of_In.
    apply Hr; [done|]. apply str_eqb_true, negb_false_iff, not_true_iff_false. intros Ht.
    apply (elem_of_nil k). rewrite <- E. by apply lfilter_elem.
  - assert (Hin : k ∈ List.filter (λ k, negb (str_eqb (bk_digest (range_bucket sha256 A k))
                                  (bk_digest (range_bucket sha256 B k)))) (range_keys A)) by (rewrite E; left).
    apply lfilter_elem in Hin as [Hin Hn%negb_true_iff]. exists k, ks. split_and!; [done| |done|done]. intros Hk.
    cbn [range_bucket bk_digest] in Hn. by rewrite Hk, str_eqb_refl in Hn.
Qed.

Lemma differing_keys t P r :
  ri_buckets r = public_buckets sha256 P → (∀ k, k ∈ range_keys (listed t) ↔ k ∈ range_keys P) →
  differing sha256 t r
  = List.filter (λ k, negb (str_eqb (bk_digest (range_bucket sha256 P k)) (bk_digest (range_bucket sha256 (listed t) k))))
      (range_keys P).
Proof.
  intros Hb Hks. unfold differing.
  assert (range_keys (listed t) = range_keys P) as ->.
  { apply (sorted_ext range_compare); [apply (bt_set_sorted range_compare)..|done]. }
  apply filter_ext_in. intros k Hk%list_elem_of_In. by apply differs_buckets.
Qed.

Lemma empty_elem (m : list ReplicaEnvelopeId) : (∀ i, i ∉ m) → m = [].
Proof. destruct m as [|i m]; [done|]. intros Hm. destruct (Hm i). by left. Qed.

Lemma silent_empty_first : A = [] → digest A ≠ digest B → second.2 = [] → B = [].
Proof.
  intros EA Hd He. apply empty_elem. intros i Hi. apply (elem_of_nil i).
  apply (silent_whole sha256 tB snB HB HsB first accepts cpB); [| | |exact He|by apply HBh].
  - apply (other_digest tB); [done|]. simpl. by rewrite (so_digest _ _ _ HsA).
  - simpl. rewrite (so_buckets _ _ _ HsA). fold A. by rewrite EA.
  - simpl. rewrite (so_digest _ _ _ HsA). fold A. by rewrite EA.
Qed.

Lemma silent_empty_second : A ≠ [] → B = [] → digest A ≠ digest B → third.2 = [] → A = [].
Proof.
  intros HAne EB Hd He. apply empty_elem. intros i Hi.
  assert (El : ri_envelopes second.1 = []).
  { apply empty_elem. intros j. rewrite second_buckets by done. simpl. intros Hj.
    apply (listing_elem sha256 tB) in Hj. fold B in Hj. rewrite EB in Hj. by apply elem_of_nil in Hj. }
  apply (elem_of_nil i). rewrite <- El.
  apply (silent_whole sha256 tA snA' HA HsA' second.1 accepts cpA'); [| | |exact He|by apply HAh].
  - apply (other_digest tA); [done|]. rewrite second_buckets by done. by apply not_eq_sym.
  - rewrite second_buckets by done. simpl. by rewrite EB.
  - rewrite El, second_buckets by done. simpl. by rewrite EB.
Qed.

(** A round in which nobody is sent anything ends a synchronisation. *)
Lemma silent_round :
  second.2 = [] → third.2 = [] → fourth.2 = [] → digest A = digest B ∨ confused sha256 A B.
Proof.
  intros E2 E3 E4. destruct (decide (digest A = digest B)) as [|Hd]; [by left|].
  destruct (decide (A = [])) as [EA|HAne].
  { left. by rewrite EA, (silent_empty_first EA Hd E2). }
  destruct (decide (B = [])) as [EB|HBne]; [exfalso; by apply HAne, silent_empty_second|].
  assert (Hks : ∀ k, k ∈ range_keys A ↔ k ∈ range_keys B)
    by (intros k; split; [by apply silent_second_ranges|by apply silent_first_ranges]).
  destruct first_difference as [?|(k & ks & Ek & Hk & HkA & Hdk)]; [by intros E; rewrite E in Hd|done|by right|].
  pose proof (proj1 (Hks k) HkA) as HkB.
  assert (Hb1 : ri_buckets first = public_buckets sha256 A) by apply (so_buckets _ _ _ HsA).
  assert (Hb2 : ri_buckets second.1 = public_buckets sha256 B) by by rewrite second_buckets.
  assert (Hb3 : ri_buckets third.1 = public_buckets sha256 A) by by rewrite third_buckets.
  assert (D1 : differing sha256 tB first = k :: ks).
  { rewrite (differing_keys tB A first Hb1); [done|]. intros k'. by rewrite Hks. }
  assert (D2 : differing sha256 tA second.1 = k :: ks).
  { rewrite (differing_keys tA B second.1 Hb2) by done. rewrite <- Ek.
    assert (range_keys B = range_keys A) as -> by
      (apply (sorted_ext range_compare); [apply (bt_set_sorted range_compare)..|intros k'; by rewrite Hks]).
    apply List.filter_ext. intros k'. by rewrite str_eqb_sym. }
  destruct Hk. apply (sorted_ext ReplicaEnvelopeId_compare); [apply sorted_filter, listed_is_sorted..|].
  intros i. rewrite !elem_of_with_key. split; intros [Hi Hik]; (split; [|done]).
  - apply (silent_listed_range sha256 tA second.1 B k i); [apply listed_is_sorted|done| |done| | | | |by apply HAh].
    + rewrite second_buckets by done. intros j. apply (listing_elem sha256 tB).
    + rewrite (differs_buckets tA B), str_eqb_sym by done. fold A. by rewrite Hdk.
    + rewrite second_buckets by done. intros j. by apply (first_range_listed sha256 tB _ _ _ ks).
    + eapply (silent_ranges sha256 tA snA' HA HsA' second.1 accepts cpA'); [|rewrite Hb2; by intros ?%no_buckets|done|done].
      apply (other_digest tA); [done|]. rewrite second_buckets by done. by apply not_eq_sym.
    + by apply elem_of_with_key.
  - apply (silent_listed_range sha256 tB third.1 A k i); [apply listed_is_sorted|done| |done| | | | |by apply HBh].
    + rewrite third_buckets by done. intros j. apply (listing_elem sha256 tA).
    + rewrite (differs_buckets tB A) by done. fold B. by rewrite Hdk.
    + rewrite third_buckets by done. intros j. by apply (first_range_listed sha256 tA _ _ _ ks).
    + eapply (silent_ranges sha256 tB snB' HB HsB' third.1 accepts cpB'); [|rewrite Hb3; by intros ?%no_buckets|done|done].
      apply (other_digest tB); [done|]. by rewrite third_buckets.
    + by apply elem_of_with_key.
Qed.
End silent.

(** ** Nodes that hold what they list *)

(** What the envelopes of a fleet are: their sequences and texts fit, and a hash names one envelope. *)
Record fleet_ids (U : list ReplicaEnvelopeId) : Prop := {
  fi_sequences : sequences_ok U;
  fi_identities : ∀ i, i ∈ U → identity_ok i;
  fi_hashes : ∀ a b, a ∈ U → b ∈ U → eid_hash a = eid_hash b → a = b
}.

Context (U : list ReplicaEnvelopeId) (HU : fleet_ids U).

Record node_in (n : Node) : Prop := {
  ni_tables : tables_ok (nd_tables n);
  ni_snapshot : ∀ p, nd_snapshot n = Some p →
    ∃ t0, tables_ok t0 ∧ snapshot_of sha256 t0 p ∧ rtc table_step t0 (nd_tables n);
  ni_ids : ∀ i, i ∈ stored (nd_tables n) → i ∈ U;
  ni_whole : checkpoint_envelopes (nd_tables n) = []
}.

Lemma whole_listed n i : node_in n → i ∈ listed (nd_tables n) ↔ i ∈ stored (nd_tables n).
Proof. intros Hn. rewrite listed_elem, (ni_whole _ Hn). split; [by intros [?|?%elem_of_nil]|by left]. Qed.

Lemma whole_held n i : node_in n → i ∈ listed (nd_tables n) → held (nd_tables n) i = true.
Proof. intros Hn Hi%whole_listed; [|done]. by apply bool_decide_eq_true. Qed.

Lemma node_framed n : node_in n → framed (listed (nd_tables n)).
Proof.
  intros Hn. assert (Hu : ∀ i, i ∈ listed (nd_tables n) → i ∈ U) by (intros i Hi%whole_listed; [by apply (ni_ids _ Hn)|done]).
  split; [apply listed_is_sorted|]. apply Forall_forall. intros i Hi. by apply (fi_identities _ HU), Hu.
Qed.

Definition same_node (n n' : Node) : Prop := nd_name n' = nd_name n ∧ nd_fleet n' = nd_fleet n.

Lemma node_snapshot n : node_in n →
  ∃ sn n', replication_snapshot sha256 n = Some (sn, n') ∧ snapshot_of sha256 (nd_tables n) sn ∧
           node_in n' ∧ nd_tables n' = nd_tables n ∧ same_node n n'.
Proof.
  intros Hn. unfold replication_snapshot.
  assert (∃ sn, build_replication_snapshot sha256 (nd_snapshot n) (nd_tables n) = Some sn ∧
                snapshot_of sha256 (nd_tables n) sn) as (sn & -> & Hs).
  { destruct (nd_snapshot n) as [p|] eqn:Ep; [|by apply build_full_spec, Hn].
    destruct (ni_snapshot _ Hn p Ep) as (t0 & H0 & Hp & Hr). eapply build_next_spec; [exact H0|done|intros _; by apply steps_continue|apply Hn]. }
  cbn [mbind option_bind]. eexists _, _. split_and!; [done|done| |done|done].
  split; try apply Hn. simpl. intros p [= <-]. exists (nd_tables n). split_and!; [apply Hn|done|done].
Qed.

Lemma store_row t i :
  tables_ok t → (∀ j, j ∈ stored t → j ∈ U) → checkpoint_envelopes t = [] → i ∈ U → i ∉ stored t →
  let t' := mkTables (replica_envelopes t ++ [((max_rowid (replica_envelopes t) + 1)%Z, i)]) (checkpoint_envelopes t) in
  tables_ok t' ∧ (∀ j, j ∈ stored t' ↔ j ∈ stored t ∨ j = i).
Proof.
  intros Hok Hin Hc Hi Hn t'.
  assert (Hst : ∀ j, j ∈ stored t' ↔ j ∈ stored t ∨ j = i).
  { intros j. unfold stored, t'. cbn [replica_envelopes]. rewrite map_app. cbn [map snd].
    by rewrite elem_of_app, list_elem_of_singleton. }
  assert (HinU : ∀ j, j ∈ all_ids t' → j ∈ U).
  { intros j [[?| ->]%Hst|Hj]%elem_of_app; [by apply Hin|done|]. unfold t' in Hj. cbn in Hj. rewrite Hc in Hj.
    by apply elem_of_nil in Hj. }
  split; [|done]. split.
  - unfold t'. cbn [replica_envelopes]. rewrite map_app. apply NoDup_app. split_and!; [apply Hok| |apply NoDup_singleton].
    intros r (row & -> & Hr)%list_elem_of_fmap Hx%list_elem_of_singleton. simpl in Hx.
    apply max_rowid_elem in Hr. lia.
  - intros row. unfold t'. cbn [replica_envelopes]. intros [Hr| ->%list_elem_of_singleton]%elem_of_app; [by apply Hok|].
    simpl. pose proof (max_rowid_nonneg (replica_envelopes t)). lia.
  - unfold stored, t'. cbn [replica_envelopes]. rewrite map_app. apply NoDup_app.
    split_and!; [apply Hok| |apply NoDup_singleton]. intros j Hj ->%list_elem_of_singleton. done.
  - apply Hok.
  - intros j Hj. by apply (fi_sequences _ HU), HinU.
  - intros a b Ha Hb. by apply (fi_hashes _ HU); apply HinU.
Qed.

(** Receiving stores what is new, in new rows, and counts it. *)
Lemma receive_envelopes_spec m t :
  tables_ok t → (∀ j, j ∈ stored t → j ∈ U) → checkpoint_envelopes t = [] → (∀ j, j ∈ m → j ∈ U) →
  ∀ received duplicate, ∃ t' received' duplicate',
    fold_left receive_envelope m (t, received, duplicate) = (t', received', duplicate') ∧
    rtc table_step t t' ∧ tables_ok t' ∧ checkpoint_envelopes t' = [] ∧
    (∀ j, j ∈ stored t' ↔ j ∈ stored t ∨ j ∈ m) ∧ (received ≤ received')%nat ∧
    (received' = received → ∀ j, j ∈ m → j ∈ stored t) ∧
    ((∀ j, j ∈ m → j ∈ stored t) → received' = received).
Proof.
  revert t. induction m as [|i m IH]; intros t Hok Hin Hc Hm received duplicate; cbn [fold_left].
  { exists t, received, duplicate. split_and!; try done; [|by intros _ j ?%elem_of_nil].
    intros j. split; [by left|by intros [?|?%elem_of_nil]]. }
  unfold receive_envelope at 2. rewrite Hc, bool_decide_false by apply not_elem_of_nil. cbn [orb].
  destruct (held t i) eqn:Eh.
  - apply bool_decide_eq_true in Eh.
    destruct (IH t Hok Hin Hc (λ j Hj, Hm j (list_elem_of_further _ _ _ Hj)) received (S duplicate))
      as (t' & r' & d' & E & Hr & Hok' & Hc' & Hst & Hle & Hz & Hs).
    exists t', r', d'. split_and!; [done..| |done| |].
    + intros j. rewrite Hst, elem_of_cons. naive_solver.
    + intros Hz' j [->|Hj]%elem_of_cons; [done|by apply Hz].
    + intros Hall. apply Hs. intros j Hj. apply Hall. by right.
  - apply bool_decide_eq_false in Eh.
    destruct (store_row t i Hok Hin Hc (Hm i ltac:(left)) Eh) as [Hok1 Hst1].
    destruct (IH _ Hok1 ltac:(intros j [?| ->]%Hst1; [by apply Hin|apply Hm; left]) Hc
                (λ j Hj, Hm j (list_elem_of_further _ _ _ Hj)) (S received) duplicate)
      as (t' & r' & d' & E & Hr & Hok' & Hc' & Hst & Hle & Hz & Hs).
    exists t', r', d'. rewrite Hc in E. split_and!; [done|eapply rtc_l; [by apply step_store|done]|done|done| |lia| |].
    + intros j. rewrite Hst, Hst1, elem_of_cons. tauto.
    + intros ->. lia.
    + intros Hall. exfalso. apply Eh, Hall. by left.
Qed.

Local Abbreviation holds n := (stored (nd_tables n)).

Lemma receive_spec relay input n :
  node_in n → ex_peer input = relay → ex_fleet_id input = nd_fleet n → (∀ i, i ∈ ex_envelopes input → i ∈ U) →
  ∃ n' received, receive_replication_exchange sha256 relay input n = Some (Ok (n', received)) ∧
    node_in n' ∧ same_node n n' ∧ (∀ i, i ∈ holds n' ↔ i ∈ holds n ∨ i ∈ ex_envelopes input) ∧
    (received = 0%nat ↔ ∀ i, i ∈ ex_envelopes input → i ∈ holds n) ∧
    (ex_envelopes input = [] → nd_tables n' = nd_tables n).
Proof.
  intros Hn Hp Hf Hm. unfold receive_replication_exchange. rewrite Hp, Hf, !str_eqb_refl. cbn [negb].
  unfold receive_envelopes.
  destruct (receive_envelopes_spec (ex_envelopes input) (nd_tables n) (ni_tables _ Hn) (ni_ids _ Hn) (ni_whole _ Hn)
              Hm 0%nat 0%nat) as (t' & r' & d' & E & Hr & Hok' & Hc' & Hst & _ & Hz & Hs).
  rewrite E. set (n1 := mkNode _ _ _ _ _).
  assert (Hn1 : node_in n1).
  { split; simpl; [done| |intros i [?|?]%Hst; [by apply (ni_ids _ Hn)|by apply Hm]|done].
    intros p Ep. destruct (ni_snapshot _ Hn p Ep) as (t0 & H0 & Hp0 & Hr0). exists t0. split_and!; [done|done|].
    by etransitivity. }
  destruct (node_snapshot n1 Hn1) as (sn & n' & -> & _ & Hn' & Ht & Hsame). cbn [mbind option_bind].
  exists n', r'. split_and!; [done|done|done| | |].
  - intros i. rewrite Ht. apply Hst.
  - split; [by apply Hz|by apply Hs].
  - intros Ei. rewrite Ht. rewrite Ei in E. simpl in E. by injection E as <- _ _.
Qed.

Lemma export_for_spec n remote : node_in n →
  ∃ n' ex sn, export_for sha256 accepts n remote = Some (n', ex) ∧ node_in n' ∧ same_node n n' ∧
    nd_tables n' = nd_tables n ∧ ex_peer ex = nd_name n ∧ ex_fleet_id ex = nd_fleet n ∧
    snapshot_of sha256 (nd_tables n) sn ∧
    (ex_inventory ex, ex_envelopes ex)
    = export_replication_difference sha256 accepts sn (nd_tables n) (nd_checkpoint n) remote.
Proof.
  intros Hn. unfold export_for, replication_snapshot.
  destruct (node_snapshot n Hn) as (sn & n' & E & Hs & Hn' & Ht & Hsame).
  unfold replication_snapshot in E. destruct (build_replication_snapshot _ _ _) as [sn'|]; [|done].
  injection E as -> <-. cbn [mbind option_bind nd_tables nd_checkpoint nd_name nd_fleet].
  destruct (export_replication_difference _ _ _ _ _ _) as [inv env] eqn:Ex.
  eexists _, _, sn. by split_and!.
Qed.

(** What an export sends is held by its sender. *)
Lemma export_held n sn cp remote i :
  node_in n → snapshot_of sha256 (nd_tables n) sn →
  i ∈ (export_replication_difference sha256 accepts sn (nd_tables n) cp remote).2 → i ∈ holds n.
Proof.
  intros Hn Hs. rewrite (export_cases sha256 (nd_tables n) sn (ni_tables _ Hn) Hs).
  destruct (same_digest _ _); [by intros ?%elem_of_nil|]. case_bool_decide; cbn [snd].
  - destruct (_ || _); [|by intros ?%elem_of_nil].
    intros [[_ Hh]%lfilter_elem _]%elem_of_page%lfilter_elem. by apply bool_decide_eq_true in Hh.
  - intros Hi%elem_of_page. apply list_elem_of_In, in_concat in Hi as (r & (k & <- & _)%in_map_iff & Hi%list_elem_of_In).
    unfold lacking in Hi. destruct (proves_lacking _ _ _ _); [|by apply elem_of_nil in Hi].
    apply lfilter_elem in Hi as [_ [Hh _]%andb_true_iff]. by apply bool_decide_eq_true in Hh.
Qed.

Lemma answer_spec sender request n :
  node_in n → ex_peer request = sender → ex_fleet_id request = nd_fleet n → (∀ i, i ∈ ex_envelopes request → i ∈ U) →
  ∃ n' ex sn, receive_exchange sha256 accepts sender request n = Some (Ok (n', ex)) ∧ node_in n' ∧ same_node n n' ∧
    (∀ i, i ∈ holds n' ↔ i ∈ holds n ∨ i ∈ ex_envelopes request) ∧
    (ex_envelopes request = [] → nd_tables n' = nd_tables n) ∧
    ex_peer ex = nd_name n ∧ ex_fleet_id ex = nd_fleet n ∧ snapshot_of sha256 (nd_tables n') sn ∧
    ∃ cp, (ex_inventory ex, ex_envelopes ex)
          = export_replication_difference sha256 accepts sn (nd_tables n') cp (ex_inventory request).
Proof.
  intros Hn Hp Hf Hm. unfold receive_exchange.
  destruct (receive_spec sender request n Hn Hp Hf Hm) as (n1 & r & -> & Hn1 & [Hnm1 Hf1] & Hst & _ & Hsame).
  cbn [mbind option_bind].
  destruct (export_for_spec n1 (ex_inventory request) Hn1) as (n2 & ex & sn & -> & Hn2 & [Hnm2 Hf2] & Ht & Hep & Hef & Hs & Ex).
  cbn [mbind option_bind]. exists n2, ex, sn. split_and!; [done|done|split; congruence| | |congruence|congruence| |].
  - intros i. rewrite Ht. apply Hst.
  - intros Ei. rewrite Ht. by apply Hsame.
  - by rewrite Ht.
  - exists (nd_checkpoint n1). by rewrite Ht.
Qed.

(** ** Rounds *)

(** A digest two nodes compare in a round does not tell what they list apart. *)
Definition misled (me peer : Node) : Prop := confused sha256 (listed (nd_tables me)) (listed (nd_tables peer)).

Lemma misled_sym me peer : misled me peer → misled peer me.
Proof. apply confused_sym. Qed.

Lemma summary_is_honest t sn cp :
  snapshot_of sha256 t sn → inventory_of sha256 (listed t) (export_replication_summary accepts sn cp).
Proof.
  intros Hs. split; [apply (so_digest _ _ _ Hs)|]. left.
  split; [apply (so_buckets _ _ _ Hs)|by intros i ?%elem_of_nil].
Qed.

Lemma digests_agree n n' :
  node_in n → node_in n' → digest (listed (nd_tables n)) = digest (listed (nd_tables n')) →
  (∀ i, i ∈ holds n ↔ i ∈ holds n') ∨ misled n n'.
Proof.
  intros Hn Hn' E.
  destruct (inventory_digest_inj sha256 _ _ (node_framed n Hn) (node_framed n' Hn') E)
    as [El|?]; [left|by right; left].
  intros i. by rewrite <- !whole_listed, El.
Qed.

(** What a round does to what two nodes hold, when it moved something or had nothing to move. *)
Record round (me peer me' peer' : Node) : Prop := {
  rd_me : node_in me';
  rd_peer : node_in peer';
  rd_names : same_node me me' ∧ same_node peer peer';
  rd_me_keeps : ∀ i, i ∈ holds me → i ∈ holds me';
  rd_peer_keeps : ∀ i, i ∈ holds peer → i ∈ holds peer';
  rd_me_from : ∀ i, i ∈ holds me' → i ∈ holds me ∨ i ∈ holds peer;
  rd_peer_from : ∀ i, i ∈ holds peer' → i ∈ holds me ∨ i ∈ holds peer;
  rd_progress : (∀ i, i ∈ holds me ↔ i ∈ holds peer) ∨ misled me peer ∨
    ∃ i, (i ∈ holds me' ∧ i ∉ holds me) ∨ (i ∈ holds peer' ∧ i ∉ holds peer)
}.

(** The export of a node is one of its snapshot. *)
Definition exports (n : Node) (remote : ReplicationInventory) (ex : Exchange) : Prop :=
  ∃ sn cp, snapshot_of sha256 (nd_tables n) sn ∧
    (ex_inventory ex, ex_envelopes ex) = export_replication_difference sha256 accepts sn (nd_tables n) cp remote.

Lemma exports_held n remote ex i : node_in n → exports n remote ex → i ∈ ex_envelopes ex → i ∈ holds n.
Proof. intros Hn (sn & cp & Hs & E) Hi. apply (export_held n sn cp remote); [done|done|]. by rewrite <- E. Qed.

Lemma exports_honest n remote ex :
  node_in n → exports n remote ex → inventory_of sha256 (listed (nd_tables n)) (ex_inventory ex).
Proof.
  intros Hn (sn & cp & Hs & E).
  pose proof (export_is_honest sha256 (nd_tables n) sn (ni_tables _ Hn) Hs remote accepts cp) as Hh. by rewrite <- E in Hh.
Qed.

Lemma exports_new n n' remote ex i :
  node_in n → node_in n' → inventory_of sha256 (listed (nd_tables n')) remote → exports n remote ex →
  i ∈ ex_envelopes ex → i ∉ holds n' ∨ misled n n'.
Proof.
  intros Hn Hn' Hr (sn & cp & Hs & E) Hi. rewrite <- (whole_listed n' i Hn').
  destruct (node_framed n' Hn') as [HP HPi].
  destruct (export_is_lacking sha256 (nd_tables n) sn (ni_tables _ Hn) Hs remote Hsha accepts cp _ i HP HPi Hr)
    as [_ [?|?]]; [by rewrite <- E|by left|right; right; right; by left].
Qed.

(** The first half of a round: the summary, and what the peer answers. *)
Record pulled (me peer me1 peer1 : Node) (first : ReplicationInventory) (remote : Exchange) : Prop := {
  pl_me : node_in me1;
  pl_peer : node_in peer1;
  pl_names : same_node me me1 ∧ same_node peer peer1;
  pl_tables : nd_tables peer1 = nd_tables peer;
  pl_first : ∃ sn cp, snapshot_of sha256 (nd_tables me) sn ∧ first = export_replication_summary accepts sn cp;
  pl_remote : exports peer first remote;
  pl_holds : ∀ i, i ∈ holds me1 ↔ i ∈ holds me ∨ i ∈ ex_envelopes remote;
  pl_keep : ex_envelopes remote = [] → nd_tables me1 = nd_tables me
}.

(** The second half: the push, and what the peer answers to it. *)
Record pushed (me1 peer1 me2 peer2 : Node) (remote push response : Exchange) : Prop := {
  ps_me : node_in me2;
  ps_peer : node_in peer2;
  ps_names : same_node me1 me2 ∧ same_node peer1 peer2;
  ps_push : exports me1 (ex_inventory remote) push;
  ps_peer_holds : ∀ i, i ∈ holds peer2 ↔ i ∈ holds peer1 ∨ i ∈ ex_envelopes push;
  ps_keep : ex_envelopes push = [] → nd_tables peer2 = nd_tables peer1;
  ps_response : exports peer2 (ex_inventory push) response;
  ps_me_holds : ∀ i, i ∈ holds me2 ↔ i ∈ holds me1 ∨ i ∈ ex_envelopes response
}.

Lemma same_node_trans a b c : same_node a b → same_node b c → same_node a c.
Proof. unfold same_node. intros [? ?] [? ?]. split; congruence. Qed.

(** A round between nodes of one fleet runs both halves, the second when the digests differ. *)
Lemma exchange_runs asked me peer :
  node_in me → node_in peer → nd_fleet me = nd_fleet peer →
  ∃ me1 peer1 first remote, pulled me peer me1 peer1 first remote ∧
    ((ri_digest (ex_inventory remote) = ri_digest first ∧
      ∃ moved, exchange sha256 accepts asked me peer = Some (Ok (me1, peer1, moved))) ∨
     ∃ me2 peer2 push response moved, pushed me1 peer1 me2 peer2 remote push response ∧
       exchange sha256 accepts asked me peer = Some (Ok (me2, peer2, moved))).
Proof.
  intros Hme Hpeer Hfl. unfold exchange.
  destruct (node_snapshot me Hme) as (sn0 & me0 & -> & Hs0 & Hme0 & Ht0 & [Hnm0 Hf0]). cbn [mbind option_bind].
  set (first := export_replication_summary accepts sn0 (nd_checkpoint me0)).
  destruct (answer_spec (nd_name me0) (mkExchange (nd_name me0) (nd_fleet me0) first []) peer Hpeer)
    as (peer1 & remote & snB & -> & Hpeer1 & [HnmP1 HfP1] & _ & HtP1 & Hrp & Hrf & HsB & cpB & Er);
    [done|simpl; congruence|by intros i ?%elem_of_nil|]. cbn [mbind option_bind].
  specialize (HtP1 eq_refl). rewrite HtP1 in HsB, Er.
  assert (HE : exports peer first remote) by by exists snB, cpB.
  destruct (receive_spec (nd_name peer1) remote me0 Hme0) as (me1 & n1 & -> & Hme1 & [Hnm1 Hf1] & Hst1 & _ & Hkeep1);
    [congruence|congruence|intros i Hi; by eapply (ni_ids _ Hpeer), exports_held|]. cbn [mbind option_bind].
  rewrite Ht0 in Hst1, Hkeep1. exists me1, peer1, first, remote. split.
  { split; [done|done|by split; split; congruence|done|by exists sn0, (nd_checkpoint me0)|done|done|done]. }
  destruct (negb (str_eqb _ _) || asked) eqn:Ed; [right|left].
  2: { apply orb_false_iff in Ed as [Ed%negb_false_iff%str_eqb_true _]. by eauto. }
  destruct (export_for_spec me1 (ex_inventory remote) Hme1)
    as (me2 & push & snA & -> & Hme2 & [Hnm2 Hf2] & Ht2 & Hpp & Hpf & HsA & Ep). cbn [mbind option_bind].
  assert (HE2 : exports me1 (ex_inventory remote) push) by by exists snA, (nd_checkpoint me1).
  destruct (answer_spec (nd_name me2) push peer1 Hpeer1)
    as (peer2 & response & snB' & -> & Hpeer2 & [HnmP2 HfP2] & HstP2 & HtP2 & Hsp & Hsf & HsB' & cpB' & Es);
    [congruence|congruence|intros i Hi; by eapply (ni_ids _ Hme1), exports_held|]. cbn [mbind option_bind].
  assert (HE3 : exports peer2 (ex_inventory push) response) by by exists snB', cpB'.
  destruct (receive_spec (nd_name peer2) response me2 Hme2) as (me3 & n3 & -> & Hme3 & [Hnm3 Hf3] & Hst3 & _ & _);
    [congruence|congruence|intros i Hi; by eapply (ni_ids _ Hpeer2), exports_held|]. cbn [mbind option_bind].
  rewrite Ht2 in Hst3. eexists me3, peer2, push, response, _. split; [|done].
  split; [done|done|by split; split; congruence|done|done|done|done|done].
Qed.

Lemma first_elem {A} (m : list A) : m = [] ∨ ∃ x, x ∈ m.
Proof. destruct m as [|x m]; [by left|right; exists x; left]. Qed.

(** Both halves together move something, unless there is nothing to move. *)
Lemma halves_progress me peer me1 peer1 me2 peer2 first remote push response :
  node_in me → node_in peer →
  pulled me peer me1 peer1 first remote → pushed me1 peer1 me2 peer2 remote push response →
  (∀ i, i ∈ holds me ↔ i ∈ holds peer) ∨ misled me peer ∨
  ∃ i, (i ∈ holds me2 ∧ i ∉ holds me) ∨ (i ∈ holds peer2 ∧ i ∉ holds peer).
Proof.
  intros Hme Hpeer [Hme1 Hpeer1 _ Ht1 (sn0 & cp0 & Hs0 & ->) HE1 Hh1 Hk1] [Hme2 Hpeer2 _ HE2 HhP Hk2 HE3 Hh2].
  pose proof (summary_is_honest (nd_tables me) sn0 cp0 Hs0) as Hfirst.
  destruct (first_elem (ex_envelopes remote)) as [E1|[x Hx]].
  2: { destruct (exports_new peer me _ remote x Hpeer Hme Hfirst HE1 Hx); [|by right; left; apply misled_sym]. right. right.
       exists x. left. split; [|done]. apply Hh2. left. apply Hh1. by right. }
  assert (HE2' : exports me (ex_inventory remote) push) by (unfold exports in *; by rewrite Hk1 in HE2).
  destruct (first_elem (ex_envelopes push)) as [E2|[x Hx]].
  2: { destruct (exports_new me peer _ push x Hme Hpeer (exports_honest _ _ _ Hpeer HE1) HE2' Hx); [|by right; left].
       right. right. exists x. right. split; [|done]. apply HhP. by right. }
  assert (HE3' : exports peer (ex_inventory push) response)
    by (unfold exports in *; by rewrite (Hk2 E2), Ht1 in HE3).
  destruct (first_elem (ex_envelopes response)) as [E3|[x Hx]].
  2: { destruct (exports_new peer me _ response x Hpeer Hme (exports_honest _ _ _ Hme HE2') HE3' Hx); [|by right; left; apply misled_sym].
       right. right. exists x. left. split; [|done]. apply Hh2. by right. }
  destruct HE1 as (snB & cpB & HsB & Er), HE2' as (snA & cpA & HsA & Ep), HE3' as (snB' & cpB' & HsB' & Es).
  destruct (silent_round (nd_tables me) (nd_tables peer) (ni_tables _ Hme) (ni_tables _ Hpeer)
              (λ i, whole_held me i Hme) (λ i, whole_held peer i Hpeer) (node_framed me Hme)
              (node_framed peer Hpeer) cp0 cpA cpB cpB' sn0 snA snB snB' Hs0 HsA HsB HsB') as [Hd|?];
    [by rewrite <- Er|rewrite <- Er; cbn [fst]; by rewrite <- Ep
    |rewrite <- Er; cbn [fst]; rewrite <- Ep; cbn [fst]; by rewrite <- Es| |by right; left].
  destruct (digests_agree me peer Hme Hpeer Hd) as [?|?]; [by left|by right; left].
Qed.

Lemma round_spec asked me peer :
  node_in me → node_in peer → nd_fleet me = nd_fleet peer →
  ∃ me' peer' moved, exchange sha256 accepts asked me peer = Some (Ok (me', peer', moved)) ∧ round me peer me' peer'.
Proof.
  intros Hme Hpeer Hfl.
  destruct (exchange_runs asked me peer Hme Hpeer Hfl) as (me1 & peer1 & first & remote & Hpl & Hcase).
  pose proof Hpl as [Hme1 Hpeer1 [Hn1 Hn2] Ht1 (sn & cp & Hs & Ef) HE1 Hh1 _].
  assert (Hfrom1 : ∀ i, i ∈ holds me1 → i ∈ holds me ∨ i ∈ holds peer)
    by (intros i [?|Hi]%Hh1; [by left|right; by eapply exports_held]).
  destruct Hcase as [[Hd [moved E]]|(me2 & peer2 & push & response & moved & Hps & E)].
  - exists me1, peer1, moved. split; [done|].
    split; [done|done|done|intros i Hi; apply Hh1; by left|by rewrite Ht1|done|rewrite Ht1; tauto|].
    rewrite Ef in Hd. rewrite (proj1 (exports_honest _ _ _ Hpeer HE1)) in Hd.
    simpl in Hd. rewrite (so_digest _ _ _ Hs) in Hd.
    destruct (digests_agree peer me Hpeer Hme Hd) as [Hag|?]; [left|by right; left; apply misled_sym]. intros i. by rewrite Hag.
  - pose proof Hps as [Hme2 Hpeer2 [Hn3 Hn4] HE2 HhP _ HE3 Hh2].
    assert (Hfrom2 : ∀ i, i ∈ holds peer2 → i ∈ holds me ∨ i ∈ holds peer).
    { intros i [Hi|Hi]%HhP; [right; by rewrite <- Ht1|]. apply Hfrom1. by eapply exports_held. }
    exists me2, peer2, moved. split; [done|].
    split; [done|done|split; by eapply same_node_trans| | | |done|by eapply halves_progress].
    + intros i Hi. apply Hh2. left. apply Hh1. by left.
    + intros i Hi. apply HhP. left. by rewrite Ht1.
    + intros i [Hi|Hi]%Hh2; [by apply Hfrom1|]. apply Hfrom2. by eapply exports_held.
Qed.

(** ** How far apart two nodes are *)

(** The envelopes only one of them holds. *)
Definition apart (me peer : Node) : list ReplicaEnvelopeId :=
  only (holds me) (holds peer) ++ only (holds peer) (holds me).

Lemma elem_of_apart me peer i :
  i ∈ apart me peer ↔ (i ∈ holds me ∧ i ∉ holds peer) ∨ (i ∈ holds peer ∧ i ∉ holds me).
Proof. unfold apart. by rewrite elem_of_app, !elem_of_only. Qed.

Lemma apart_NoDup me peer : node_in me → node_in peer → NoDup (apart me peer).
Proof.
  intros Hme Hpeer. unfold apart. apply NoDup_app. split_and!.
  - apply NoDup_ListNoDup, List.NoDup_filter, NoDup_ListNoDup, (to_stored _ (ni_tables _ Hme)).
  - intros i. rewrite !elem_of_only. tauto.
  - apply NoDup_ListNoDup, List.NoDup_filter, NoDup_ListNoDup, (to_stored _ (ni_tables _ Hpeer)).
Qed.

Lemma apart_nil me peer : apart me peer = [] ↔ ∀ i, i ∈ holds me ↔ i ∈ holds peer.
Proof.
  split.
  - intros E i. destruct (decide (i ∈ holds me)), (decide (i ∈ holds peer)); try done;
      exfalso; apply (elem_of_nil i); rewrite <- E; apply elem_of_apart; tauto.
  - intros Hs. apply empty_elem. intros i. rewrite elem_of_apart, Hs. tauto.
Qed.

(** Every round brings two nodes closer. *)
Lemma round_closer me peer me' peer' :
  node_in me → node_in peer → round me peer me' peer' →
  misled me peer ∨ (length (apart me' peer') ≤ pred (length (apart me peer)))%nat.
Proof.
  intros Hme Hpeer [Hme' Hpeer' _ Hk1 Hk2 Hf1 Hf2 Hp].
  assert (Hsub : ∀ i, i ∈ apart me' peer' → i ∈ apart me peer).
  { intros i. rewrite !elem_of_apart. specialize (Hk1 i). specialize (Hk2 i). specialize (Hf1 i). specialize (Hf2 i). tauto. }
  assert (Hle : ∀ m, NoDup m → (∀ i, i ∈ m → i ∈ apart me peer) → (length m ≤ length (apart me peer))%nat)
    by (intros m Hm Hs; by apply submseteq_length, NoDup_submseteq).
  pose proof (apart_NoDup me' peer' Hme' Hpeer') as Hnd.
  destruct Hp as [Hs|[?|(x & Hx)]]; [right|by left|right].
  - apply apart_nil in Hs. specialize (Hle _ Hnd Hsub). rewrite Hs in *. simpl in *. lia.
  - assert (Hx1 : x ∈ apart me peer).
    { apply elem_of_apart. specialize (Hf1 x). specialize (Hf2 x). tauto. }
    assert (Hx2 : x ∉ apart me' peer').
    { rewrite elem_of_apart. specialize (Hk1 x). specialize (Hk2 x). specialize (Hf1 x). specialize (Hf2 x). tauto. }
    specialize (Hle (x :: apart me' peer') ltac:(by constructor)). simpl in Hle.
    specialize (Hle ltac:(intros i [->|?]%elem_of_cons; [done|by apply Hsub])). lia.
Qed.

(** Some round between two nodes is misled by a digest it compares: one of those before the round
    that would follow them all. *)
Definition some_round_misled (asks : list bool) (me peer : Node) : Prop :=
  ∃ before asked after me1 peer1, asks = before ++ asked :: after ∧
    exchanges sha256 accepts before me peer = Some (Ok (me1, peer1)) ∧ misled me1 peer1.

Lemma misled_at_once asked asks me peer : misled me peer → some_round_misled (asked :: asks) me peer.
Proof. intros Hm. by exists [], asked, asks, me, peer. Qed.

Lemma misled_later asked asks me peer me1 peer1 moved :
  exchange sha256 accepts asked me peer = Some (Ok (me1, peer1, moved)) →
  some_round_misled asks me1 peer1 → some_round_misled (asked :: asks) me peer.
Proof.
  intros E (before & a & after & me2 & peer2 & -> & Hrun & Hm). exists (asked :: before), a, after, me2, peer2.
  split_and!; [done| |done]. cbn [exchanges]. rewrite E. exact Hrun.
Qed.

Lemma exchanges_spec asks : ∀ me peer,
  node_in me → node_in peer → nd_fleet me = nd_fleet peer →
  ∃ me' peer', exchanges sha256 accepts asks me peer = Some (Ok (me', peer')) ∧ node_in me' ∧ node_in peer' ∧
    (∀ i, (i ∈ holds me' ∨ i ∈ holds peer') ↔ (i ∈ holds me ∨ i ∈ holds peer)) ∧
    (some_round_misled asks me peer ∨ (length (apart me' peer') ≤ length (apart me peer) - length asks)%nat).
Proof.
  induction asks as [|asked asks IH]; intros me peer Hme Hpeer Hf.
  { exists me, peer. split_and!; [done..|right; simpl; lia]. }
  destruct (round_spec asked me peer Hme Hpeer Hf) as (me1 & peer1 & moved & E & Hr).
  pose proof Hr as [Hme1 Hpeer1 [[_ Hf1] [_ Hf2]] Hk1 Hk2 Hfr1 Hfr2 _].
  destruct (IH me1 peer1 Hme1 Hpeer1) as (me' & peer' & E' & Hme' & Hpeer' & Hu & Ha); [congruence|].
  exists me', peer'. split_and!; [cbn [exchanges]; by rewrite E|done..| |].
  - intros i. rewrite Hu. specialize (Hk1 i). specialize (Hk2 i). specialize (Hfr1 i). specialize (Hfr2 i). tauto.
  - destruct Ha as [?|Ha]; [left; by eapply misled_later|].
    destruct (round_closer me peer me1 peer1 Hme Hpeer Hr) as [?|Hc]; [left; by apply misled_at_once|].
    right. cbn [length]. lia.
Qed.
End convergence.

(** C7. Two nodes of one fleet, whose envelopes fit their encodings and are told apart by their hashes, and which have trimmed nothing,
    and so hold the payload of everything they list, come to hold the same envelopes, all that either held: no round fails, and as many rounds as there are envelopes only
    one of them holds are enough, whatever the page and listing limits leave for the next round and
    whichever answers ask for signatures. The alternative is a round of this very run that a SHA-256
    digest misled: before it, what one node lists and what the other lists differ in the bytes hashed
    but have the same digest, wholly or in one range, or one of the two has the digest of an empty
    inventory. *)
Theorem exchanges_converge {hex : HexApi} sha256 accepts U me peer asks :
  (∀ x, length (sha256 x) = 32%nat) → fleet_ids U →
  node_in sha256 U me → node_in sha256 U peer → nd_fleet me = nd_fleet peer →
  (length (apart me peer) ≤ length asks)%nat →
  ∃ me' peer', exchanges sha256 accepts asks me peer = Some (Ok (me', peer')) ∧
    (some_round_misled sha256 accepts asks me peer ∨
     ∀ i, (i ∈ stored (nd_tables me') ↔ i ∈ stored (nd_tables me) ∨ i ∈ stored (nd_tables peer)) ∧
          (i ∈ stored (nd_tables peer') ↔ i ∈ stored (nd_tables me) ∨ i ∈ stored (nd_tables peer))).
Proof.
  intros Hsha HU Hme Hpeer Hf Hn.
  destruct (exchanges_spec sha256 accepts Hsha U HU asks me peer Hme Hpeer Hf) as (me' & peer' & E & _ & _ & Hu & Ha).
  exists me', peer'. split; [done|]. destruct Ha as [?|Ha]; [by left|right].
  assert (Hnil : apart me' peer' = []) by (apply nil_length_inv; lia).
  intros i. pose proof (proj1 (apart_nil me' peer') Hnil i). specialize (Hu i). tauto.
Qed.

(** ** Examples *)

Definition node_a : Node := mkNode "a" "fleet" (mkTables [(1%Z, id_a)] []) None None.
Definition node_b : Node := mkNode "b" "fleet" (mkTables [(1%Z, id_b)] []) None None.

(** Two nodes with one envelope each hold both after one round. *)
Lemma one_round_is_enough :
  match exchanges (hex := lower_hex) length_digest 4096 [false] node_a node_b with
  | Some (Ok (me, peer)) => stored (nd_tables me) = [id_a; id_b] ∧ stored (nd_tables peer) = [id_b; id_a]
  | _ => False
  end.
Proof. vm_compute. by split. Qed.

Ltac elems_by_computation H := cbn in H; repeat (apply elem_of_cons in H as [->|H]); try (by apply elem_of_nil in H).

Lemma exchanges_converge_witness :
  ∃ me peer, exchanges (hex := lower_hex) length_digest 4096 [false; true] node_a node_b = Some (Ok (me, peer)) ∧
    (some_round_misled (hex := lower_hex) length_digest 4096 [false; true] node_a node_b ∨
     ∀ i, (i ∈ stored (nd_tables me) ↔ i ∈ stored (nd_tables node_a) ∨ i ∈ stored (nd_tables node_b)) ∧
          (i ∈ stored (nd_tables peer) ↔ i ∈ stored (nd_tables node_a) ∨ i ∈ stored (nd_tables node_b))).
Proof.
  apply (exchanges_converge (hex := lower_hex) length_digest 4096 [id_a; id_b] node_a node_b [false; true] length_digest_32).
  - split; [intros i Hi; by elems_by_computation Hi|intros i Hi; by elems_by_computation Hi|].
    intros a b Ha Hb. by elems_by_computation Ha; elems_by_computation Hb.
  - split; [tables_by_computation|done|intros i Hi; by elems_by_computation Hi; left|done].
  - split; [tables_by_computation|done|intros i Hi; by elems_by_computation Hi; right; left|done].
  - done.
  - by vm_compute; lia.
Defined.
