(* ===== verification/Measure.v ===== *)
(** * How far apart two nodes are

    Models what a node makes of a peer's inventory and graph digests: the envelopes only one side holds
    ([replication_inventory_difference] of [crates/smallclaims/src/store.rs]), whether a peer is up, and
    since when graphs that should be equal differ and whether to heal ([PeerSyncProgress], there and in
    [store/heal.rs]). The rates a node smooths over windows are floating-point and not modelled. *)

From Stdlib Require Import Ascii.
From S2P Require Import Prelude StableSort Text Json Bytes Order BTree Slices Claim Hash Inventory Snapshot Exchange.
Import Compact.

Local Abbreviation sorted := (StronglySorted (λ a b, ReplicaEnvelopeId_compare a b = Lt)).

(** ** Whether a peer is up *)

Definition PEER_UP_MS : Z := 90000.
Definition PEER_QUIET_EXCHANGE_MS : Z := 35000.

Definition peer_up (last_success_at : option Z) (failed_since : bool) (now : Z) : bool :=
  is_some_and last_success_at (λ at_,
    let age := sat_sub now at_ in
    (age <? PEER_UP_MS)%Z && negb (failed_since && (PEER_QUIET_EXCHANGE_MS <=? age)%Z)).

(** ** How far apart two inventories are *)

Section measure.
Context {hex : HexApi} (sha256 : list ascii → list ascii).

(** The ranges the peer sent, in its order: the envelopes only it holds, those only this node holds,
    and the ranges both have. *)
Definition measure_turn (inv : CompactReplicationInventory) (bs : list ReplicationInventoryBucket)
    (remote : ReplicationInventory) (state : Z * Z * list (string * Z)) (theirs : ReplicationInventoryBucket) :
    Z * Z * list (string * Z) :=
  let '(peer_only, local_only, shared) := state in
  let key := bucket_key theirs in
  match bt_get range_compare key (buckets_by_key bs) with
  | None => (peer_only + bk_count theirs, local_only, shared)%Z
  | Some ours =>
      let shared := key :: shared in
      if str_eqb (bk_digest ours) (bk_digest theirs) then (peer_only, local_only, shared)
      else
        let known := match bt_get range_compare key (listed_by_key (ri_envelopes remote)) with
                     | Some known =>
                         let known := sort_dedup_ids known in
                         if complete_listing sha256 known theirs then Some known else None
                     | None => None
                     end in
        match known with
        | Some known =>
            let local := identities inv (range inv (bk_writer ours) (bk_start ours)) in
            (peer_only + Z.of_nat (length (List.filter (λ i, negb (knows local i)) known)),
             local_only + Z.of_nat (length (List.filter (λ i, negb (knows known i)) local)), shared)%Z
        | None => (peer_only + sat_sub (bk_count theirs) (bk_count ours),
                   local_only + sat_sub (bk_count ours) (bk_count theirs), shared)%Z
        end
  end.

(** Whether this node holds an identity, found in its range. *)
Definition holds_identity (inv : CompactReplicationInventory) (i : ReplicaEnvelopeId) : bool :=
  existsb (λ e, (ce_sequence e =? eid_sequence i)%Z && str_eqb (hash_text inv e) (eid_hash i))
    (range inv (eid_writer i) (replication_bucket_start (eid_sequence i))).

Definition replication_inventory_difference (inv : CompactReplicationInventory)
    (bs : list ReplicationInventoryBucket) (remote : ReplicationInventory) : option (Z * Z) :=
  if negb (str_eqb (ri_digest remote) "") && str_eqb (ri_digest remote) (ci_digest inv) then Some (0, 0)%Z
  else if negb (bool_decide (ri_buckets remote = [])) then
    let '(peer_only, local_only, shared) :=
      fold_left (measure_turn inv bs remote) (ri_buckets remote) (0, 0, [])%Z in
    let rest := List.filter (λ b, negb (bool_decide (bucket_key b ∈ shared))) bs in
    Some (peer_only, local_only + fold_right Z.add 0 (map bk_count rest))%Z
  else if negb (str_eqb (ri_digest remote) "")
          && str_eqb (ri_digest remote) (replication_inventory_digest sha256 (ri_envelopes remote)) then
    let shared := length (List.filter (holds_identity inv) (ri_envelopes remote)) in
    Some (Z.of_nat (length (ri_envelopes remote) - shared), Z.of_nat (length (ci_envelopes inv) - shared))
  else None.
End measure.

(** ** Counting what only one side holds *)

Lemma filter_split_length {A} (p : A → bool) m :
  length m = (length (List.filter p m) + length (List.filter (λ x, negb (p x)) m))%nat.
Proof. induction m as [|x m IH]; simpl; [done|]. destruct (p x); simpl; lia. Qed.

Lemma both_length (a b : list ReplicaEnvelopeId) : NoDup a → NoDup b →
  length (List.filter (λ i, bool_decide (i ∈ b)) a) = length (List.filter (λ i, bool_decide (i ∈ a)) b).
Proof.
  intros Ha Hb. apply Permutation_length, NoDup_Permutation.
  - by apply NoDup_ListNoDup, List.NoDup_filter, NoDup_ListNoDup.
  - by apply NoDup_ListNoDup, List.NoDup_filter, NoDup_ListNoDup.
  - intros i. rewrite !lfilter_elem, !bool_decide_eq_true. tauto.
Qed.

Lemma only_balance a b : NoDup a → NoDup b →
  (length (only a b) + length b = length (only b a) + length a)%nat.
Proof.
  intros Ha Hb. unfold only. pose proof (both_length a b Ha Hb).
  pose proof (filter_split_length (λ i, bool_decide (i ∈ b)) a).
  pose proof (filter_split_length (λ i, bool_decide (i ∈ a)) b). lia.
Qed.

Lemma only_self a : only a a = [].
Proof.
  destruct (only a a) as [|x r] eqn:E; [done|]. exfalso.
  assert (Hx : x ∈ only a a) by (rewrite E; left). by apply elem_of_only in Hx as [? ?].
Qed.

(** ** Sums over ranges *)

Definition zsum {K} (f : K → Z) (ks : list K) : Z := fold_right Z.add 0%Z (map f ks).

Lemma zsum_nonneg {K} (f : K → Z) ks : (∀ k, k ∈ ks → 0 ≤ f k)%Z → (0 ≤ zsum f ks)%Z.
Proof.
  unfold zsum. induction ks as [|k ks IH]; intros Hf; simpl; [done|].
  pose proof (Hf k ltac:(left)). specialize (IH (λ k Hk, Hf k (list_elem_of_further _ _ _ Hk))). lia.
Qed.

Lemma zsum_app {K} (f : K → Z) a b : zsum f (a ++ b) = (zsum f a + zsum f b)%Z.
Proof. unfold zsum. induction a as [|k a IH]; simpl; [done|]. lia. Qed.

Lemma zsum_perm {K} (f : K → Z) a b : a ≡ₚ b → zsum f a = zsum f b.
Proof. induction 1; unfold zsum in *; simpl; lia. Qed.

Lemma zsum_ext {K} (f g : K → Z) ks : (∀ k, k ∈ ks → f k = g k) → zsum f ks = zsum g ks.
Proof.
  induction ks as [|k ks IH]; intros H; [done|]. unfold zsum in *. simpl. rewrite (H k) by left.
  f_equal. apply IH. intros; apply H; by right.
Qed.

Lemma zsum_le {K} (f g : K → Z) ks : (∀ k, k ∈ ks → f k ≤ g k)%Z → (zsum f ks ≤ zsum g ks)%Z.
Proof.
  induction ks as [|k ks IH]; intros H; [done|]. unfold zsum in *. simpl.
  pose proof (H k ltac:(left)). specialize (IH (λ k Hk, H k (list_elem_of_further _ _ _ Hk))). lia.
Qed.

Lemma zsum_sub {K} (f g : K → Z) ks : zsum (λ k, f k - g k)%Z ks = (zsum f ks - zsum g ks)%Z.
Proof. unfold zsum. induction ks as [|k ks IH]; simpl; [done|]. lia. Qed.

Lemma zsum_filter {K} (f : K → Z) (p : K → bool) ks :
  (∀ k, k ∈ ks → p k = false → f k = 0%Z) → zsum f (List.filter p ks) = zsum f ks.
Proof.
  induction ks as [|k ks IH]; intros H; [done|]. simpl.
  specialize (IH (λ k Hk, H k (list_elem_of_further _ _ _ Hk))). unfold zsum in *.
  destruct (p k) eqn:E; simpl; [lia|]. rewrite (H k) by (done || left). lia.
Qed.

Section ranges.
Context (P L : list ReplicaEnvelopeId) (HP : sorted P) (HL : sorted L).

Local Abbreviation part m k := (with_key range_key k m).

Lemma part_nodup m k : sorted m → NoDup (part m k).
Proof. intros Hm. apply (sorted_NoDup ReplicaEnvelopeId_compare). by apply sorted_filter. Qed.

Lemma only_part k : only (part P k) L = only (part P k) (part L k).
Proof.
  unfold only. apply filter_ext_in. intros i Hi%list_elem_of_In. f_equal. apply bool_decide_ext.
  apply elem_of_with_key in Hi as [_ Hk]. rewrite elem_of_with_key. naive_solver.
Qed.

Lemma only_ranges : Z.of_nat (length (only P L)) = zsum (λ k, Z.of_nat (length (only (part P k) (part L k)))) (range_keys P).
Proof.
  rewrite <- (concat_ranges P) at 1 by done. unfold ranges.
  generalize (range_keys P) as ks. intros ks. induction ks as [|k ks IH]; [done|].
  cbn [map concat]. unfold only in *. rewrite List.filter_app, length_app, Nat2Z.inj_add, IH.
  fold (only (part P k) L). by rewrite only_part.
Qed.
End ranges.

(** ** What the count says *)

Section measured.
Context {hex : HexApi} (sha256 : list ascii → list ascii).
Context (t : Tables) (sn : ReplicationSnapshot) (Hok : tables_ok t) (Hsn : snapshot_of sha256 t sn).
Context (remote : ReplicationInventory) (P : list ReplicaEnvelopeId) (HP : sorted P).

Let L := listed t.
Local Abbreviation part m k := (with_key range_key k m).
Local Abbreviation exact_peer k := (Z.of_nat (length (only (part P k) (part L k)))).
Local Abbreviation exact_local k := (Z.of_nat (length (only (part L k) (part P k)))).

(** Whether the peer listed the whole of a range. *)
Definition lists_range (k : string * Z) : bool :=
  bool_decide (sort_dedup_ids (part (ri_envelopes remote) k) = part P k).

(** What one range of the peer adds to the two counts. *)
Definition counted_range (k : string * Z) : Z * Z :=
  if negb (bool_decide (k ∈ range_keys L)) then (Z.of_nat (length (part P k)), 0%Z)
  else if str_eqb (replication_bucket_digest sha256 (part L k)) (replication_bucket_digest sha256 (part P k))
  then (0, 0)%Z
  else if lists_range k then (exact_peer k, exact_local k)
  else (sat_sub (Z.of_nat (length (part P k))) (Z.of_nat (length (part L k))),
        sat_sub (Z.of_nat (length (part L k))) (Z.of_nat (length (part P k)))).

Lemma measure_turn_spec p q shared k :
  (∀ i, i ∈ ri_envelopes remote → i ∈ P) → k ∈ range_keys P →
  measure_turn sha256 (sn_inventory sn) (public_buckets sha256 L) remote (p, q, shared) (range_bucket sha256 P k)
  = (p + (counted_range k).1, q + (counted_range k).2,
     if bool_decide (k ∈ range_keys L) then k :: shared else shared)%Z.
Proof.
  intros Hl Hk. unfold measure_turn, counted_range. replace (bucket_key _) with k by by destruct k.
  rewrite public_buckets_get. case_bool_decide as HkL; cbn [negb fst snd]; [|by rewrite Z.add_0_r].
  cbn [range_bucket bk_digest bk_writer bk_start bk_count].
  destruct (str_eqb _ _); cbn [fst snd]; [by rewrite !Z.add_0_r|].
  rewrite listed_by_key_get. rewrite (range_ids sha256 t sn Hok Hsn k HkL). fold L.
  pose proof (complete_is_range sha256 remote P HP Hl k) as Hc. cbv zeta in Hc.
  destruct (with_key_nonempty range_key k P) as (x & r & Ex & _); [by apply range_keys_elem|].
  unfold lists_range. destruct (part (ri_envelopes remote) k) as [|y m] eqn:Ey.
  { rewrite bool_decide_false; [done|]. by rewrite Ex. }
  destruct (complete_listing _ _ _) eqn:Ec.
  - rewrite (proj1 Hc eq_refl) in *. rewrite bool_decide_true by done. cbn [fst snd].
    assert (Hkn : ∀ m m', sorted m → List.filter (λ i, negb (knows m i)) m' = only m' m).
    { intros u u' Hu. apply List.filter_ext. intros i. f_equal. by apply knows_elem. }
    by rewrite !Hkn by first [by apply sorted_filter|apply sorted_filter, listed_is_sorted].
  - rewrite bool_decide_false; [done|]. intros E. apply Hc in E. congruence.
Qed.

Lemma measure_fold ks p q shared :
  (∀ i, i ∈ ri_envelopes remote → i ∈ P) → (∀ k, k ∈ ks → k ∈ range_keys P) →
  ∃ shared', fold_left (measure_turn sha256 (sn_inventory sn) (public_buckets sha256 L) remote)
               (map (range_bucket sha256 P) ks) (p, q, shared)
             = (p + zsum (λ k, (counted_range k).1) ks, q + zsum (λ k, (counted_range k).2) ks, shared')%Z ∧
    ∀ k, k ∈ shared' ↔ k ∈ shared ∨ (k ∈ ks ∧ k ∈ range_keys L).
Proof.
  intros Hl. revert p q shared. induction ks as [|k ks IH]; intros p q shared Hks.
  { exists shared. split; [unfold zsum; simpl; by rewrite !Z.add_0_r|].
    intros k. split; [by left|]. by intros [?|[?%elem_of_nil _]]. }
  cbn [map fold_left]. rewrite measure_turn_spec by (done || (apply Hks; by left)).
  destruct (IH (p + (counted_range k).1)%Z (q + (counted_range k).2)%Z
              (if bool_decide (k ∈ range_keys L) then k :: shared else shared)) as (shared' & E & Hs);
    [intros; apply Hks; by right|].
  exists shared'. split; [rewrite E; unfold zsum; simpl; by rewrite <- !Z.add_assoc|].
  intros k'. rewrite Hs, elem_of_cons. case_bool_decide; [rewrite elem_of_cons|]; naive_solver.
Qed.

(** A range counts exactly when it was listed or is only on one side, and otherwise too little by the
    same on both sides. *)
Lemma counted_range_spec k :
  (∀ k, k ∈ range_keys P → replication_bucket_digest sha256 (part L k) = replication_bucket_digest sha256 (part P k) →
        part L k = part P k) →
  k ∈ range_keys P →
  (0 ≤ (counted_range k).1 ≤ exact_peer k)%Z ∧ (0 ≤ (counted_range k).2 ≤ exact_local k)%Z ∧
  (exact_peer k - (counted_range k).1 = exact_local k - (counted_range k).2)%Z ∧
  (lists_range k = true ∨ k ∉ range_keys L → (counted_range k).1 = exact_peer k).
Proof.
  intros Hd Hk.
  pose proof (only_balance (part P k) (part L k) (part_nodup P k HP) (part_nodup L k (listed_is_sorted t))) as Hbal.
  unfold counted_range. case_bool_decide as HkL; cbn [negb fst snd].
  - destruct (str_eqb _ _) eqn:E; cbn [fst snd].
    + apply str_eqb_true in E. rewrite (Hd k Hk E).
      rewrite only_self. simpl. split_and!; lia.
    + destruct (lists_range k); cbn [fst snd]; [split_and!; lia|].
      unfold sat_sub. split_and!; try lia. intros [?|?]; done.
  - assert (HL0 : part L k = []) by (apply with_key_nil; by rewrite <- range_keys_elem).
    rewrite HL0 in *. simpl in Hbal. rewrite Nat.add_0_r in Hbal. simpl. split_and!; lia.
Qed.

(** What a node may take from the two counts. *)
Definition counts_well (peer_only local_only : Z) : Prop :=
  (0 ≤ peer_only ≤ Z.of_nat (length (only P L)))%Z ∧ (0 ≤ local_only ≤ Z.of_nat (length (only L P)))%Z ∧
  (Z.of_nat (length (only P L)) - peer_only = Z.of_nat (length (only L P)) - local_only)%Z ∧
  ((∀ k, k ∈ range_keys P → k ∈ range_keys L → part P k ≠ part L k → lists_range k = true) →
   peer_only = Z.of_nat (length (only P L))).

(** The ranges only this node has make up the rest of its side. *)
Lemma local_ranges (shared : list (string * Z)) :
  (∀ k, k ∈ shared ↔ k ∈ range_keys P ∧ k ∈ range_keys L) →
  Z.of_nat (length (only L P))
  = (zsum (λ k, exact_local k) (range_keys P)
     + zsum (λ k, Z.of_nat (length (part L k))) (List.filter (λ k, negb (bool_decide (k ∈ shared))) (range_keys L)))%Z.
Proof.
  intros Hs. rewrite (only_ranges L P) by apply listed_is_sorted.
  assert (Hnd : ∀ m, NoDup (range_keys m)) by (intros m; apply (bt_set_NoDup range_compare)).
  rewrite (zsum_perm _ (range_keys L) (List.filter (λ k, bool_decide (k ∈ range_keys L)) (range_keys P)
              ++ List.filter (λ k, negb (bool_decide (k ∈ shared))) (range_keys L))).
  - rewrite zsum_app. f_equal.
    + apply zsum_filter. intros k Hk HkL%bool_decide_eq_false.
      assert (part L k = []) as -> by (apply with_key_nil; by rewrite <- range_keys_elem). done.
    + apply zsum_ext. intros k [Hk Hn%negb_true_iff%bool_decide_eq_false]%lfilter_elem.
      assert (part P k = []) as ->.
      { apply with_key_nil. rewrite <- range_keys_elem. intros HkP. apply Hn, Hs. done. }
      do 2 f_equal. unfold only. induction (part L k) as [|x m IH]; simpl; [done|]. by f_equal.
  - apply NoDup_Permutation; [done| |].
    + apply NoDup_app. split_and!; [by apply NoDup_ListNoDup, List.NoDup_filter, NoDup_ListNoDup| |
        by apply NoDup_ListNoDup, List.NoDup_filter, NoDup_ListNoDup].
      intros k [HkP HkL%bool_decide_eq_true]%lfilter_elem [_ Hn%negb_true_iff%bool_decide_eq_false]%lfilter_elem.
      apply Hn, Hs. done.
    + intros k. rewrite elem_of_app, !lfilter_elem, negb_true_iff, bool_decide_eq_true, bool_decide_eq_false, Hs.
      destruct (decide (k ∈ range_keys P)); tauto.
Qed.

Lemma measured_ranges :
  Forall identity_ok P → Forall identity_ok L →
  ri_buckets remote = public_buckets sha256 P → (∀ i, i ∈ ri_envelopes remote → i ∈ P) →
  let '(peer_only, local_only, shared) :=
    fold_left (measure_turn sha256 (sn_inventory sn) (sn_buckets sn) remote) (ri_buckets remote) (0, 0, [])%Z in
  let rest := List.filter (λ b, negb (bool_decide (bucket_key b ∈ shared))) (sn_buckets sn) in
  counts_well peer_only (local_only + fold_right Z.add 0 (map bk_count rest))%Z ∨ confused sha256 P L.
Proof.
  intros HPi HLi Hb Hl. destruct (ranges_or_confused sha256 (range_keys P) L P) as [Hd|?%confused_sym]; [by split; [apply listed_is_sorted|]|done| |].
  2: { destruct (fold_left _ _ _) as [[? ?] ?]. by right. }
  rewrite Hb, (so_buckets _ _ _ Hsn). fold L.
  destruct (measure_fold (range_keys P) 0 0 [] Hl (λ k Hk, Hk)) as (shared & E & Hs).
  unfold public_buckets at 2. rewrite E. left.
  assert (Hs' : ∀ k, k ∈ shared ↔ k ∈ range_keys P ∧ k ∈ range_keys L)
    by (intros k; rewrite Hs; split; [by intros [?%elem_of_nil|?]|by right]).
  assert (Erest : fold_right Z.add 0%Z (map bk_count (List.filter (λ b, negb (bool_decide (bucket_key b ∈ shared)))
                    (public_buckets sha256 L)))
                  = zsum (λ k, Z.of_nat (length (part L k)))
                      (List.filter (λ k, negb (bool_decide (k ∈ shared))) (range_keys L))).
  { unfold public_buckets, zsum. rewrite lfilter_map, List.map_map. do 2 f_equal. apply List.filter_ext.
    intros k. by destruct k. }
  rewrite Erest. pose proof (local_ranges shared Hs') as HLsum. pose proof (only_ranges P L HP) as HPsum.
  pose proof (counted_range_spec) as Hc. specialize (λ k, Hc k Hd).
  set (c1 := λ k, (counted_range k).1) in *. set (c2 := λ k, (counted_range k).2) in *.
  pose proof (zsum_le c1 (λ k, exact_peer k) (range_keys P) ltac:(intros k Hk; by apply Hc)) as H1.
  pose proof (zsum_le c2 (λ k, exact_local k) (range_keys P) ltac:(intros k Hk; by apply Hc)) as H2.
  pose proof (zsum_nonneg c1 (range_keys P) ltac:(intros k Hk; by apply Hc)) as H3.
  pose proof (zsum_nonneg c2 (range_keys P) ltac:(intros k Hk; by apply Hc)) as H4.
  pose proof (zsum_ext (λ k, exact_peer k - c1 k)%Z (λ k, exact_local k - c2 k)%Z (range_keys P)
                ltac:(intros k Hk; by apply Hc)) as H5. rewrite !zsum_sub in H5.
  pose proof (zsum_nonneg (λ k, Z.of_nat (length (part L k)))
                (List.filter (λ k, negb (bool_decide (k ∈ shared))) (range_keys L)) (λ k _, Nat2Z.is_nonneg _)) as H6.
  split_and!; try lia. intros Hlist. rewrite HPsum, Z.add_0_l. apply zsum_ext. intros k Hk.
  destruct (decide (k ∈ range_keys L)) as [HkL|]; [|apply Hc; auto].
  destruct (decide (part P k = part L k)) as [Eq|Hne]; [|apply Hc; [done|left; by apply Hlist]].
  destruct (Hc k Hk) as ([? ?] & _). unfold c1 in *. rewrite Eq in *.
  rewrite only_self in *. simpl in *. lia.
Qed.

Lemma holds_identity_spec i :
  i ∈ P → sequences_ok P → holds_identity (sn_inventory sn) i = bool_decide (i ∈ L).
Proof.
  intros Hi Hseq. destruct (so_inventory _ _ _ Hsn) as [Hinv Hids _].
  assert (Hr : identities (sn_inventory sn) (range (sn_inventory sn) (eid_writer i) (replication_bucket_start (eid_sequence i)))
               = part L (range_key i)).
  { rewrite range_spec; rewrite ?Hids; [done|done| |by apply bucket_start_sequence, Hseq|apply bucket_start_idem].
    by apply (listed_sequences t Hok). }
  apply eq_bool_prop_intro. rewrite !Is_true_true, bool_decide_eq_true. unfold holds_identity.
  rewrite existsb_true_elem. split.
  - intros (e & He & [Es%Z.eqb_eq Eh%str_eqb_true]%andb_true_iff).
    assert (Hin : identity (sn_inventory sn) e ∈ part L (range_key i))
      by (rewrite <- Hr; apply list_elem_of_fmap; eauto).
    apply elem_of_with_key in Hin as [Hin Hk]. injection Hk as Hw _. simpl in Hw.
    replace i with (identity (sn_inventory sn) e); [done|]. destruct i. unfold identity. simpl in *. congruence.
  - intros HL. assert (Hin : i ∈ part L (range_key i)) by by apply elem_of_with_key.
    rewrite <- Hr in Hin. apply list_elem_of_fmap in Hin as (e & Ee & He). exists e. split; [done|].
    rewrite Ee. simpl. by rewrite Z.eqb_refl, str_eqb_refl.
Qed.

(** An inventory listed whole counts exactly. *)
Lemma measured_whole :
  sequences_ok P →
  let shared := length (List.filter (holds_identity (sn_inventory sn)) P) in
  counts_well (Z.of_nat (length P - shared)) (Z.of_nat (length (ci_envelopes (sn_inventory sn)) - shared)).
Proof.
  intros Hseq shared. destruct (so_inventory _ _ _ Hsn) as [_ Hids _].
  assert (Esh : shared = length (List.filter (λ i, bool_decide (i ∈ L)) P)).
  { unfold shared. f_equal. apply filter_ext_in. intros i Hi%list_elem_of_In. by apply holds_identity_spec. }
  assert (ElL : length (ci_envelopes (sn_inventory sn)) = length L).
  { unfold L. rewrite <- Hids. unfold ids, identities. by rewrite length_map. }
  pose proof (sorted_NoDup ReplicaEnvelopeId_compare P HP) as HPn.
  pose proof (sorted_NoDup ReplicaEnvelopeId_compare L (listed_is_sorted t)) as HLn.
  assert (H1 : length P = (length (List.filter (λ i, bool_decide (i ∈ L)) P) + length (only P L))%nat)
    by apply filter_split_length.
  assert (H2 : length L = (length (List.filter (λ i, bool_decide (i ∈ P)) L) + length (only L P))%nat)
    by apply filter_split_length.
  pose proof (both_length P L HPn HLn) as H3. unfold counts_well. rewrite Esh, ElL. fold L.
  clear -H1 H2 H3. revert H1 H2 H3.
  generalize (length P) (length L) (length (only P L)) (length (only L P))
    (length (List.filter (λ i, bool_decide (i ∈ L)) P)) (length (List.filter (λ i, bool_decide (i ∈ P)) L)).
  intros; subst; split_and!; lia.
Qed.
End measured.

(** From an inventory that says truly what a peer holds, a node never counts more envelopes as
    held by one side only than are; it misses as many on either side, and none when the peer listed
    every range both have differently. Only a bare digest, other than its own, tells it nothing. The
    alternative is that a SHA-256 digest of one of the two inventories, or of one of their ranges, is
    also that of the other, or of no envelopes at all. *)
Theorem difference_is_measured {hex : HexApi} sha256 t sn remote P :
  (∀ x, length (sha256 x) = 32%nat) → tables_ok t → snapshot_of sha256 t sn →
  sorted P → sequences_ok P → Forall identity_ok P → Forall identity_ok (listed t) → inventory_of sha256 P remote →
  match replication_inventory_difference sha256 (sn_inventory sn) (sn_buckets sn) remote with
  | Some (peer_only, local_only) => counts_well t remote P peer_only local_only ∨ confused sha256 P (listed t)
  | None => ri_buckets remote = [] ∧ ri_envelopes remote = []
  end.
Proof.
  intros Hsha Hok Hsn HP Hseq HPi HLi [Hd Hform].
  assert (HwP : framed P) by done. assert (HwL : framed (listed t)) by (split; [apply listed_is_sorted|done]).
  unfold replication_inventory_difference.
  assert (Hne : str_eqb (ri_digest remote) "" = false)
    by (apply str_eqb_false; rewrite Hd; by apply finalize_nonempty).
  rewrite !Hne, (so_digest _ _ _ Hsn). cbn [negb andb].
  destruct (str_eqb (ri_digest remote) (replication_inventory_digest sha256 (listed t))) eqn:Ed.
  { apply str_eqb_true in Ed. rewrite Hd in Ed.
    destruct (inventory_digest_inj sha256 P (listed t) HwP HwL Ed) as [E|?]; [left|by right; left].
    unfold counts_well. rewrite E, only_self. simpl. split_and!; lia. }
  case_bool_decide as Hb; cbn [negb].
  - cbn [negb andb].
    destruct (str_eqb (ri_digest remote) (replication_inventory_digest sha256 (ri_envelopes remote))) eqn:Ew.
    + apply str_eqb_true in Ew. rewrite Hd in Ew.
      assert (HE : ri_envelopes remote = P ∨ confused sha256 P (listed t)).
      { destruct Hform as [[Hb' He]|[_ [He|He]]]; [|by left|].
        - left. rewrite Hb in Hb'. symmetry in Hb'. apply map_eq_nil in Hb'.
          assert (P = []) as ->.
          { destruct P as [|x P']; [done|]. exfalso. apply (elem_of_nil (range_key x)). rewrite <- Hb'.
            apply range_keys_elem. by left. }
          destruct (ri_envelopes remote) as [|x m]; [done|]. specialize (He x ltac:(left)). by apply elem_of_nil in He.
        - rewrite He in *. destruct (inventory_digest_inj sha256 P [] HwP framed_nil Ew)
            as [->|?]; [by left|by right; right; left]. }
      destruct HE as [->|?]; [left|by right]. by apply (measured_whole sha256).
    + apply str_eqb_false in Ew. rewrite Hd in Ew. split; [done|]. destruct Hform as [[Hb' He]|[_ [He|He]]]; [|by rewrite He in Ew|done].
      destruct (ri_envelopes remote) as [|x m] eqn:Ex; [done|]. exfalso. specialize (He x ltac:(left)).
      rewrite Hb in Hb'. symmetry in Hb'. apply map_eq_nil in Hb'. apply (elem_of_nil (range_key x)). rewrite <- Hb'.
      apply range_keys_elem, list_elem_of_fmap. eauto.
  - destruct Hform as [[Hb' He]|[Hb' _]]; [|done].
    pose proof (measured_ranges sha256 t sn Hok Hsn remote P HP HPi HLi Hb' He) as Hm.
    destruct (fold_left _ _ _) as [[p q] shared]. exact Hm.
Qed.

(** ** Witnesses *)

Lemma difference_is_measured_witness :
  ∃ sn, build_replication_snapshot (hex := lower_hex) length_digest None one_row = Some sn ∧
    match replication_inventory_difference (hex := lower_hex) length_digest (sn_inventory sn) (sn_buckets sn)
            peer_with_b with
    | Some (peer_only, local_only) =>
        counts_well one_row peer_with_b [id_b] peer_only local_only ∨
        confused (hex := lower_hex) length_digest [id_b] (listed one_row)
    | None => ri_buckets peer_with_b = [] ∧ ri_envelopes peer_with_b = []
    end.
Proof.
  assert (Hok : tables_ok one_row) by tables_by_computation.
  destruct (build_full_spec (hex := lower_hex) length_digest one_row Hok) as (sn & E & Hsn). exists sn. split; [done|].
  apply (difference_is_measured (hex := lower_hex) length_digest one_row sn peer_with_b [id_b]
           length_digest_32 Hok Hsn).
  - by repeat constructor.
  - intros i Hi. cbn in Hi. by apply list_elem_of_singleton in Hi as ->.
  - by repeat constructor; vm_compute.
  - by repeat constructor; vm_compute.
  - split; [done|]. left. split; [done|]. by intros i Hi.
Defined.
