(* ===== verification/HealClaims.v ===== *)
(** * What a heal compares

    Models the questions of a heal in [crates/smallclaims/src/store/heal.rs] (and their records in
    [replication.rs]): the digests of the claims a node projects by writer range ([claim_ranges]) and by
    subject ([claim_subjects]), the claims themselves ([claims_in]), and the comparison of two such
    lists. The theorem says that narrowing down by range and by subject finds claims that only one side
    projects, and only such, whatever the limits on one question cut off. *)

From Stdlib Require Import Ascii.
From S2P Require Import Prelude StableSort Text Json Bytes Order BTree Slices Framing Claim Hash Inventory.
Import Compact.

Local Abbreviation sorted := (StronglySorted (λ a b, ReplicaEnvelopeId_compare a b = Lt)).

(** ** Data *)

Record ClaimRange := mkClaimRange { cr_writer : string; cr_start : Z }.

Record ClaimRangeDigest := mkClaimRangeDigest {
  rd_writer : string;
  rd_start : Z;
  rd_count : Z;
  rd_digest : string
}.

Record ClaimSubjectDigest := mkClaimSubjectDigest {
  sd_writer : string;
  sd_start : Z;
  sd_subject : string;
  sd_count : Z;
  sd_digest : string
}.

Record HealClaim := mkHealClaim {
  hc_writer : string;
  hc_sequence : Z;
  hc_claim_id : string;
  hc_subject : string;
  hc_envelope_hash : option string
}.

#[export] Instance ClaimRange_eq_dec : EqDecision ClaimRange.
Proof. solve_decision. Defined.
#[export] Instance HealClaim_eq_dec : EqDecision HealClaim.
Proof. solve_decision. Defined.

(** Writer, sequence and claim ID, which order claims the way an envelope's writer, sequence and hash
    order envelopes. *)
Definition place (c : HealClaim) : ReplicaEnvelopeId :=
  mkReplicaEnvelopeId (hc_writer c) (hc_sequence c) (hc_claim_id c).

Definition cr_key (r : ClaimRange) : string * Z := (cr_writer r, cr_start r).

Definition subject_compare (a b : string * Z * string) : comparison :=
  then_with (range_compare a.1 b.1) (String.compare a.2 b.2).
#[export] Instance subject_compare_order : cmp_order subject_compare.
Proof.
  unfold subject_compare. apply cmp_order_then; [apply (cmp_order_by_key _ fst), _|apply (cmp_order_by_key _ snd), _].
Qed.
#[export] Instance subject_compare_exact : cmp_exact subject_compare.
Proof. intros [a b] [a' b']. unfold subject_compare. simpl. rewrite then_with_Eq, !cmp_eq. naive_solver. Qed.

Definition HEAL_RANGE_LIMIT : nat := 64.
Definition HEAL_SUBJECT_LIMIT : nat := 256.
Definition HEAL_ENVELOPE_LIMIT : nat := 512.

Definition CLAIM_RANGE_DOMAIN : list ascii := domain_bytes "st3-heal-claim-range-v1".
Definition CLAIM_SUBJECT_DOMAIN : list ascii := domain_bytes "st3-heal-claim-subject-v1".

Definition digest_claim (digest : list ascii) (sequence : Z) (claim_id : string) : list ascii :=
  digest ++ be_bytes 8 sequence ++ be_bytes 8 (Z.of_nat (String.length claim_id)) ++ bytes_of claim_id.

(** ** Questions and answers *)

Section heal.
Context {hex : HexApi} (sha256 : list ascii → list ascii).

(** The rows a query over the projected claims selects, by writer, sequence and claim ID. *)
Definition projected_rows (rows : list HealClaim) : list HealClaim :=
  rows_in_order ReplicaEnvelopeId_compare place rows.

Definition finish_range (r : string * Z * Z * list ascii) : ClaimRangeDigest :=
  let '(writer, start, count, digest) := r in mkClaimRangeDigest writer start count (finalize sha256 digest).

(** One row of [claim_ranges]: it goes to the range under way or starts one. *)
Definition range_turn (state : list ClaimRangeDigest * option (string * Z * Z * list ascii)) (c : HealClaim) :
    list ClaimRangeDigest * option (string * Z * Z * list ascii) :=
  let '(ranges, current) := state in
  let start := replication_bucket_start (hc_sequence c) in
  let fresh := (hc_writer c, start, 1%Z, digest_claim CLAIM_RANGE_DOMAIN (hc_sequence c) (hc_claim_id c)) in
  match current with
  | Some (current_writer, current_start, count, digest) =>
      if str_eqb current_writer (hc_writer c) && (current_start =? start)%Z
      then (ranges, Some (current_writer, current_start, (count + 1)%Z,
                          digest_claim digest (hc_sequence c) (hc_claim_id c)))
      else (ranges ++ [finish_range (current_writer, current_start, count, digest)], Some fresh)
  | None => (ranges, Some fresh)
  end.

Definition claim_ranges (rows : list HealClaim) : list ClaimRangeDigest :=
  let '(ranges, current) := fold_left range_turn (projected_rows rows) ([], None) in
  ranges ++ match current with Some done => [finish_range done] | None => [] end.

Definition in_claim_range (r : ClaimRange) (c : HealClaim) : bool :=
  str_eqb (hc_writer c) (cr_writer r) && (cr_start r <=? hc_sequence c)%Z
  && (hc_sequence c <? sat_add64 (cr_start r) REPLICATION_BUCKET_WIDTH)%Z.

Definition range_claims (rows : list HealClaim) (r : ClaimRange) : list HealClaim :=
  projected_rows (List.filter (in_claim_range r) rows).

Definition count_claim (m : list (string * (Z * list ascii))) (c : HealClaim) : list (string * (Z * list ascii)) :=
  bt_update String.compare (hc_subject c)
    (λ o, let '(count, digest) := default (0%Z, CLAIM_SUBJECT_DOMAIN) o in
          ((count + 1)%Z, digest_claim digest (hc_sequence c) (hc_claim_id c))) m.

Definition range_subjects (rows : list HealClaim) (r : ClaimRange) : list ClaimSubjectDigest :=
  map (λ e, mkClaimSubjectDigest (cr_writer r) (cr_start r) e.1 e.2.1 (finalize sha256 e.2.2))
    (fold_left count_claim (range_claims rows r) []).

Definition claim_subjects (rows : list HealClaim) (ranges : list ClaimRange) : list ClaimSubjectDigest :=
  concat (map (range_subjects rows) ranges).

Definition claims_in (rows : list HealClaim) (ranges : list ClaimRange) (subjects : list string) : list HealClaim :=
  concat (map (λ r, List.filter (λ c, bool_decide (hc_subject c ∈ subjects)) (range_claims rows r)) ranges).
End heal.

(** Digests by key; the last of two with one key stands. *)
Definition index_ranges (l : list ClaimRangeDigest) : list (string * Z * string) :=
  fold_left (λ m r, bt_insert range_compare (rd_writer r, rd_start r) (rd_digest r) m) l [].

Definition differing_ranges (local peer : list ClaimRangeDigest) : list ClaimRange :=
  let local := index_ranges local in
  let peer := index_ranges peer in
  map (λ k, mkClaimRange k.1 k.2)
    (List.filter (λ k, negb (bool_decide (bt_get range_compare k local = bt_get range_compare k peer)))
       (bt_set range_compare (map fst local ++ map fst peer))).

Definition index_subjects (l : list ClaimSubjectDigest) : list (string * Z * string * string) :=
  fold_left (λ m s, bt_insert subject_compare (sd_writer s, sd_start s, sd_subject s) (sd_digest s) m) l [].

Definition differing_subjects (local peer : list ClaimSubjectDigest) : list string :=
  let local := index_subjects local in
  let peer := index_subjects peer in
  bt_set String.compare
    (map snd (List.filter (λ k, negb (bool_decide (bt_get subject_compare k local = bt_get subject_compare k peer)))
                (map fst local ++ map fst peer))).

(** ** Streams of rows, group by group *)

Section groups.
Context {A : Type} (same : A → A → bool).

Lemma chunk_by_cons a l : chunk_by same (a :: l) =
  match chunk_by same l with
  | (y :: c) :: cs => if same a y then (a :: y :: c) :: cs else [a] :: (y :: c) :: cs
  | cs => [a] :: cs
  end.
Proof. done. Qed.

Lemma chunk_by_head x l : ∃ c cs, chunk_by same (x :: l) = (x :: c) :: cs.
Proof.
  rewrite chunk_by_cons. destruct (chunk_by same l) as [|[|y c] cs]; [by do 2 eexists..|].
  destruct (same x y); by do 2 eexists.
Qed.

Lemma chunk_by_one c : c ≠ [] → (∀ a b, a ∈ c → b ∈ c → same a b = true) → chunk_by same c = [c].
Proof.
  induction c as [|a [|b c] IH]; intros Hne Hs; [done|done|].
  rewrite chunk_by_cons, IH by (done || (intros; apply Hs; by right)).
  rewrite Hs; [done|by left|by right; left].
Qed.

Lemma chunk_by_break c x l :
  c ≠ [] → (∀ a b, a ∈ c → b ∈ c → same a b = true) → (∀ a, a ∈ c → same a x = false) →
  chunk_by same (c ++ x :: l) = c :: chunk_by same (x :: l).
Proof.
  induction c as [|a [|b c] IH]; intros Hne Hs Hx; [done| |]; rewrite <- app_comm_cons, chunk_by_cons.
  - cbn [app]. destruct (chunk_by_head x l) as (c & cs & E). rewrite E, Hx; [done|by left].
  - rewrite IH; [|done|intros; apply Hs; by right|intros; apply Hx; by right].
    rewrite Hs; [done|by left|by right; left].
Qed.
End groups.

(** Ordering the selected rows selects from the ordered ones. *)
Lemma rows_in_order_filter {A K} (cmp : K → K → comparison) `{!cmp_order cmp, !cmp_exact cmp} (key : A → K) p l :
  NoDup (map key l) → rows_in_order cmp key (List.filter p l) = List.filter p (rows_in_order cmp key l).
Proof.
  intros Hnd. apply (sorted_ext (by_row_key cmp key)).
  - apply rows_in_order_sorted; [done..|]. by apply NoDup_map_filter.
  - by apply sorted_filter, rows_in_order_sorted.
  - intros x. unfold rows_in_order. by rewrite elem_of_sort_by, !lfilter_elem, elem_of_sort_by.
Qed.

Lemma only_or {A} `{!EqDecision A} (a b : list A) :
  (∃ p, (p ∈ a ∧ p ∉ b) ∨ (p ∈ b ∧ p ∉ a)) ∨ ∀ p, p ∈ a ↔ p ∈ b.
Proof.
  destruct (decide (Forall (λ p, p ∈ b) a)) as [Ha|Ha].
  - destruct (decide (Forall (λ p, p ∈ a) b)) as [Hb|Hb].
    + right. rewrite Forall_forall in Ha, Hb. intros p. split; auto.
    + left. apply not_Forall_Exists in Hb; [|apply _]. apply Exists_exists in Hb as (p & ? & ?). eauto.
  - left. apply not_Forall_Exists in Ha; [|apply _]. apply Exists_exists in Ha as (p & ? & ?). eauto.
Qed.

(** ** What the answers say *)

Section compare.
Context {hex : HexApi} (sha256 : list ascii → list ascii).

Definition digest_claims (domain : list ascii) (l : list ReplicaEnvelopeId) : list ascii :=
  fold_left (λ d p, digest_claim d (eid_sequence p) (eid_hash p)) l domain.

Lemma digest_claims_snoc domain l p :
  digest_claims domain (l ++ [p]) = digest_claim (digest_claims domain l) (eid_sequence p) (eid_hash p).
Proof. unfold digest_claims. by rewrite fold_left_app. Qed.

(** The digest of the claims of one range. *)
Definition range_digest (l : list ReplicaEnvelopeId) (k : string * Z) : ClaimRangeDigest :=
  mkClaimRangeDigest k.1 k.2 (Z.of_nat (length (with_key range_key k l)))
    (finalize sha256 (digest_claims CLAIM_RANGE_DOMAIN (with_key range_key k l))).

Definition group_digest (g : list ReplicaEnvelopeId) : ClaimRangeDigest :=
  let k := default ("", 0%Z) (range_key <$> head g) in
  mkClaimRangeDigest k.1 k.2 (Z.of_nat (length g)) (finalize sha256 (digest_claims CLAIM_RANGE_DOMAIN g)).

(** The range under way, after the given claims of it. *)
Definition under_way (g : list ReplicaEnvelopeId) : option (string * Z * Z * list ascii) :=
  p ← head g; Some (eid_writer p, replication_bucket_start (eid_sequence p), Z.of_nat (length g),
                    digest_claims CLAIM_RANGE_DOMAIN g).

Lemma finish_under_way p g :
  (∃ r, under_way (p :: g) = Some r ∧ finish_range sha256 r = group_digest (p :: g)).
Proof. by eexists. Qed.

Lemma range_stream rows : ∀ ranges g,
  g ≠ [] → (∀ a b, a ∈ g → b ∈ g → same_range a b = true) →
  let '(out, current) := fold_left (range_turn sha256) rows (ranges, under_way g) in
  out ++ match current with Some done => [finish_range sha256 done] | None => [] end
  = ranges ++ map group_digest (chunk_by same_range (g ++ map place rows)).
Proof.
  induction rows as [|c rows IH]; intros ranges g Hne Hs.
  { cbn [fold_left map]. rewrite app_nil_r, chunk_by_one by done. by destruct g. }
  destruct g as [|p g]; [done|]. cbn [fold_left map].
  destruct (decide (range_key p = range_key (place c))) as [E|E].
  - assert (Et : range_turn sha256 (ranges, under_way (p :: g)) c = (ranges, under_way ((p :: g) ++ [place c]))).
    { unfold range_turn, under_way. cbn [mbind option_bind head app]. injection E as Ew Es. simpl in Ew, Es.
      rewrite Ew, Es, str_eqb_refl, Z.eqb_refl. cbn [andb].
      change (p :: g ++ [place c]) with ((p :: g) ++ [place c]).
      rewrite digest_claims_snoc, length_app. do 2 f_equal. simpl length. repeat f_equal. lia. }
    rewrite Et. specialize (IH ranges ((p :: g) ++ [place c])).
    replace ((p :: g) ++ place c :: map place rows) with (((p :: g) ++ [place c]) ++ map place rows)
      by by rewrite <- app_assoc.
    apply IH; [done|].
    assert (Hk : ∀ a, a ∈ (p :: g) ++ [place c] → range_key a = range_key p).
    { intros a [Ha|Ha]%elem_of_app; [|by apply list_elem_of_singleton in Ha as ->].
      specialize (Hs a p Ha ltac:(by left)). by apply bool_decide_eq_true in Hs. }
    intros a b Ha Hb. apply bool_decide_eq_true. by rewrite (Hk a Ha), (Hk b Hb).
  - assert (Et : range_turn sha256 (ranges, under_way (p :: g)) c
                 = (ranges ++ [group_digest (p :: g)], under_way [place c])).
    { unfold range_turn, under_way. cbn [mbind option_bind head]. destruct (str_eqb _ _ && _) eqn:Eb; [|done].
      apply andb_true_iff in Eb as [Ew%str_eqb_true Es%Z.eqb_eq]. exfalso. apply E. unfold range_key.
      by rewrite Ew, Es. }
    rewrite Et. specialize (IH (ranges ++ [group_digest (p :: g)]) [place c] ltac:(done)).
    rewrite (chunk_by_break same_range (p :: g)); [|done|done|].
    + cbn [map]. rewrite <- app_assoc in IH. apply IH. intros a b Ha Hb.
      apply list_elem_of_singleton in Ha as ->. apply list_elem_of_singleton in Hb as ->. by apply bool_decide_eq_true.
    + intros a Ha. apply bool_decide_eq_false. specialize (Hs a p Ha ltac:(by left)).
      apply bool_decide_eq_true in Hs. by rewrite Hs.
Qed.

Definition places (rows : list HealClaim) : list ReplicaEnvelopeId := map place (projected_rows rows).

Lemma projected_elem rows c : c ∈ projected_rows rows ↔ c ∈ rows.
Proof. apply elem_of_sort_by. Qed.

Lemma places_elem rows p : p ∈ places rows ↔ p ∈ map place rows.
Proof.
  unfold places. rewrite !list_elem_of_fmap. setoid_rewrite projected_elem. done.
Qed.

Lemma places_sorted rows : NoDup (map place rows) → sorted (places rows).
Proof.
  intros Hnd. unfold places. pose proof (rows_in_order_sorted ReplicaEnvelopeId_compare place rows Hnd) as Hs.
  fold (projected_rows rows) in Hs.
  induction Hs as [|x s _ IH Hx]; simpl; constructor; [done|].
  rewrite List.Forall_forall in *. intros y (z & <- & Hz)%in_map_iff. by apply Hx.
Qed.

Lemma claim_ranges_spec rows :
  NoDup (map place rows) → claim_ranges sha256 rows = map (range_digest (places rows)) (range_keys (places rows)).
Proof.
  intros Hnd. pose proof (places_sorted rows Hnd) as Hs.
  assert (E : claim_ranges sha256 rows = map group_digest (chunk_by same_range (places rows))).
  { unfold claim_ranges, places. destruct (projected_rows rows) as [|c l]; [done|]. cbn [fold_left map].
    change (range_turn sha256 ([], None) c) with (@nil ClaimRangeDigest, under_way [place c]).
    pose proof (range_stream l [] [place c] ltac:(done)) as Hst.
    destruct (fold_left (range_turn sha256) l _) as [out current]. apply Hst.
    intros a b Ha Hb. apply list_elem_of_singleton in Ha as ->. apply list_elem_of_singleton in Hb as ->.
    by apply bool_decide_eq_true. }
  rewrite E, chunks_are_ranges by done. unfold ranges. rewrite List.map_map. apply map_ext_in.
  intros k Hk%list_elem_of_In%range_keys_elem. unfold group_digest, range_digest.
  destruct (with_key_nonempty range_key k (places rows) Hk) as (x & t & -> & <-). done.
Qed.

(** ** Looking digests up *)

Lemma index_get {E K V} (cmp : K → K → comparison) `{!EqDecision K, !cmp_order cmp, !cmp_exact cmp}
    (key : E → K) (val : E → V) (F : K → V) l :
  (∀ e, e ∈ l → val e = F (key e)) →
  let m := fold_left (λ m e, bt_insert cmp (key e) (val e) m) l [] in
  bt_wf cmp m ∧ (∀ k, bt_get cmp k m = if bool_decide (k ∈ map key l) then Some (F k) else None) ∧
  ∀ k, k ∈ map fst m ↔ k ∈ map key l.
Proof.
  intros Hv m.
  assert (H : bt_wf cmp m ∧ ∀ k, bt_get cmp k m = if bool_decide (k ∈ map key l) then Some (F k) else None).
  { unfold m. clear m. induction l as [|e l IH] using rev_ind; [split; [constructor|done]|].
    rewrite fold_left_app. cbn [fold_left].
    destruct IH as [Hwf Hg]; [intros e' He'; apply Hv, elem_of_app; by left|].
    split; [by apply bt_update_wf|]. intros k. unfold bt_insert. rewrite (bt_get_update cmp) by done.
    rewrite map_app. cbn [map]. destruct (cmp k (key e)) eqn:Ec.
    - apply cmp_eq in Ec as ->. rewrite bool_decide_true by (apply elem_of_app; by right; left).
      f_equal. apply Hv, elem_of_app. by right; left.
    - rewrite Hg. apply (f_equal (λ b : bool, if b then _ else _)), bool_decide_ext.
      rewrite elem_of_app, list_elem_of_singleton. split; [by left|]. intros [? | ->]; [done|].
      by rewrite (cmp_order_refl cmp) in Ec.
    - rewrite Hg. apply (f_equal (λ b : bool, if b then _ else _)), bool_decide_ext.
      rewrite elem_of_app, list_elem_of_singleton. split; [by left|]. intros [? | ->]; [done|].
      by rewrite (cmp_order_refl cmp) in Ec. }
  destruct H as [Hwf Hg]. split_and!; [done|done|]. intros k. split.
  - intros ([k' v] & -> & Hin)%list_elem_of_fmap. simpl. apply (bt_get_Some cmp) in Hin; [|done].
    rewrite Hg in Hin. by case_bool_decide.
  - intros Hk. specialize (Hg k). rewrite bool_decide_true in Hg by done. apply (bt_get_Some cmp) in Hg; [|done].
    apply list_elem_of_fmap. by exists (k, F k).
Qed.

(** What a node tells of a range. *)
Definition told_range (P : list ReplicaEnvelopeId) (k : string * Z) : option string :=
  if bool_decide (k ∈ range_keys P)
  then Some (finalize sha256 (digest_claims CLAIM_RANGE_DOMAIN (with_key range_key k P))) else None.

Lemma index_ranges_spec rows :
  NoDup (map place rows) →
  (∀ k, bt_get range_compare k (index_ranges (claim_ranges sha256 rows)) = told_range (places rows) k) ∧
  ∀ k, k ∈ map fst (index_ranges (claim_ranges sha256 rows)) ↔ k ∈ range_keys (places rows).
Proof.
  intros Hnd. rewrite claim_ranges_spec by done. unfold index_ranges.
  destruct (index_get range_compare (λ r, (rd_writer r, rd_start r)) rd_digest
              (λ k, finalize sha256 (digest_claims CLAIM_RANGE_DOMAIN (with_key range_key k (places rows))))
              (map (range_digest (places rows)) (range_keys (places rows)))) as (_ & Hg & Hk).
  { intros e (k & -> & _)%list_elem_of_fmap. by destruct k. }
  assert (Ekeys : map (λ r, (rd_writer r, rd_start r)) (map (range_digest (places rows)) (range_keys (places rows)))
                  = range_keys (places rows)).
  { rewrite List.map_map. rewrite <- (List.map_id (range_keys _)) at 2. apply map_ext. by intros []. }
  rewrite Ekeys in Hg, Hk. split; [|done]. intros k. by rewrite Hg.
Qed.

Lemma differing_ranges_elem A B r :
  NoDup (map place A) → NoDup (map place B) →
  r ∈ differing_ranges (claim_ranges sha256 A) (claim_ranges sha256 B) ↔
  told_range (places A) (cr_key r) ≠ told_range (places B) (cr_key r).
Proof.
  intros HA HB. destruct (index_ranges_spec A HA) as [HgA HkA], (index_ranges_spec B HB) as [HgB HkB].
  unfold differing_ranges. rewrite list_elem_of_fmap. split.
  - intros ([w s] & -> & [_ Hn%negb_true_iff%bool_decide_eq_false]%lfilter_elem). by rewrite HgA, HgB in Hn.
  - intros Hn. exists (cr_key r). split; [by destruct r|]. apply lfilter_elem. rewrite (elem_of_bt_set range_compare).
    rewrite elem_of_app, HkA, HkB, negb_true_iff, bool_decide_eq_false, HgA, HgB. split; [|done].
    destruct (decide (cr_key r ∈ range_keys (places A))); [by left|]. right.
    destruct (decide (cr_key r ∈ range_keys (places B))); [done|]. exfalso. apply Hn. unfold told_range.
    by rewrite !bool_decide_false.
Qed.

(** ** Subjects within ranges *)

Definition aligned (r : ClaimRange) : Prop :=
  is_sequence (cr_start r) ∧ replication_bucket_start (cr_start r) = cr_start r.

(** What a store's projected claims are: a place holds one claim, and sequences and IDs fit. *)
Record projected_ok (rows : list HealClaim) : Prop := {
  pk_places : NoDup (map place rows);
  pk_sequences : ∀ c, c ∈ rows → is_sequence (hc_sequence c);
  pk_ids : ∀ c, c ∈ rows → (Z.of_nat (String.length (hc_claim_id c)) ≤ u64_max)%Z
}.

Lemma in_claim_range_key r c :
  aligned r → is_sequence (hc_sequence c) → in_claim_range r c = bool_decide (range_key (place c) = cr_key r).
Proof.
  intros [Hs Ha] Hc. apply eq_bool_prop_intro. unfold in_claim_range.
  rewrite !Is_true_true, !andb_true_iff, bool_decide_eq_true, str_eqb_true, Z.leb_le, Z.ltb_lt.
  unfold range_key, cr_key, place. cbn [eid_writer eid_sequence]. unfold is_sequence in *.
  assert (Es : sat_add64 (cr_start r) REPLICATION_BUCKET_WIDTH = (cr_start r + REPLICATION_BUCKET_WIDTH)%Z)
    by (unfold sat_add64, u64_max, REPLICATION_BUCKET_WIDTH; lia).
  rewrite Es. split.
  - intros [[-> ?] ?]. f_equal. by apply bucket_start_spec.
  - intros [= -> E]. apply bucket_start_spec in E; [|done]. tauto.
Qed.

Lemma range_claims_elem rows r c :
  projected_ok rows → aligned r →
  c ∈ range_claims rows r ↔ c ∈ rows ∧ range_key (place c) = cr_key r.
Proof.
  intros Hok Hr. unfold range_claims. rewrite projected_elem, lfilter_elem. split.
  - intros [Hc Hi]. split; [done|]. rewrite in_claim_range_key in Hi by (done || by apply (pk_sequences _ Hok)).
    by apply bool_decide_eq_true in Hi.
  - intros [Hc Hk]. split; [done|]. rewrite in_claim_range_key by (done || by apply (pk_sequences _ Hok)).
    by apply bool_decide_eq_true.
Qed.

(** The claims of a range about a subject. *)
Definition about (rows : list HealClaim) (r : ClaimRange) (x : string) : list ReplicaEnvelopeId :=
  map place (List.filter (λ c, str_eqb (hc_subject c) x) (range_claims rows r)).

Lemma about_elem rows r x p :
  projected_ok rows → aligned r →
  p ∈ about rows r x ↔ ∃ c, c ∈ rows ∧ place c = p ∧ hc_subject c = x ∧ range_key p = cr_key r.
Proof.
  intros Hok Hr. unfold about. rewrite list_elem_of_fmap. setoid_rewrite lfilter_elem.
  setoid_rewrite (range_claims_elem rows r _ Hok Hr). setoid_rewrite str_eqb_true. naive_solver.
Qed.

Lemma about_sorted rows r x : projected_ok rows → sorted (about rows r x).
Proof.
  intros Hok. unfold about, range_claims, projected_rows.
  rewrite (rows_in_order_filter ReplicaEnvelopeId_compare place) by apply Hok.
  assert (Hs : StronglySorted (λ a b, ReplicaEnvelopeId_compare (place a) (place b) = Lt)
                 (List.filter (λ c, str_eqb (hc_subject c) x)
                    (List.filter (in_claim_range r) (rows_in_order ReplicaEnvelopeId_compare place rows)))).
  { do 2 apply sorted_filter. apply (rows_in_order_sorted ReplicaEnvelopeId_compare place rows), Hok. }
  induction Hs as [|c l _ IH Hc]; simpl; constructor; [done|].
  rewrite List.Forall_forall in *. intros y (z & <- & Hz)%in_map_iff. by apply Hc.
Qed.

Lemma count_claims l x :
  let m := fold_left count_claim l [] in
  bt_wf String.compare m ∧
  bt_get String.compare x m =
    match map place (List.filter (λ c, str_eqb (hc_subject c) x) l) with
    | [] => None
    | g => Some (Z.of_nat (length g), digest_claims CLAIM_SUBJECT_DOMAIN g)
    end.
Proof.
  induction l as [|c l IH] using rev_ind; [split; [constructor|done]|].
  cbv zeta in *. rewrite fold_left_app, List.filter_app, map_app. cbn [fold_left]. destruct IH as [Hwf Hg].
  set (m := fold_left count_claim l []) in *. unfold count_claim.
  split; [by apply (bt_update_wf String.compare)|]. rewrite (bt_get_update String.compare) by done.
  simpl List.filter. destruct (str_eqb (hc_subject c) x) eqn:E.
  - apply str_eqb_true in E as ->. rewrite (cmp_order_refl String.compare), Hg. cbn [map].
    destruct (map place (List.filter _ l)) as [|p g] eqn:Eg; [done|]. cbn [default app].
    change (p :: g ++ [place c]) with ((p :: g) ++ [place c]). rewrite digest_claims_snoc, length_app.
    cbn [default]. do 2 f_equal. simpl length. lia.
  - apply str_eqb_false in E. cbn [map]. rewrite app_nil_r, <- Hg.
    destruct (String.compare x (hc_subject c)) eqn:Ec; [|done..]. exfalso. apply E. symmetry. by apply cmp_eq in Ec.
Qed.

(** What a node tells of a subject in a range. *)
Definition told_subject (rows : list HealClaim) (r : ClaimRange) (x : string) : option string :=
  match about rows r x with
  | [] => None
  | g => Some (finalize sha256 (digest_claims CLAIM_SUBJECT_DOMAIN g))
  end.

Lemma range_subjects_elem rows r e :
  e ∈ range_subjects sha256 rows r →
  sd_writer e = cr_writer r ∧ sd_start e = cr_start r ∧ told_subject rows r (sd_subject e) = Some (sd_digest e).
Proof.
  unfold range_subjects. intros ([x [n d]] & -> & He)%list_elem_of_fmap. cbn. split_and!; [done..|].
  destruct (count_claims (range_claims rows r) x) as [Hwf Hg]. apply (bt_get_Some String.compare) in He; [|done].
  rewrite He in Hg. unfold told_subject, about. destruct (map place _); [done|]. injection Hg as _ ->. done.
Qed.

Lemma range_subjects_all rows r x :
  about rows r x ≠ [] → ∃ e, e ∈ range_subjects sha256 rows r ∧ sd_subject e = x.
Proof.
  unfold about. intros Hne. destruct (count_claims (range_claims rows r) x) as [Hwf Hg].
  destruct (map place _) as [|p g]; [done|]. apply (bt_get_Some String.compare) in Hg; [|done].
  eexists. split; [apply list_elem_of_fmap; by eexists|done].
Qed.

Lemma claim_subjects_elem rows ranges e :
  e ∈ claim_subjects sha256 rows ranges →
  ∃ r, r ∈ ranges ∧ cr_key r = (sd_writer e, sd_start e) ∧ told_subject rows r (sd_subject e) = Some (sd_digest e).
Proof.
  intros (l & (r & <- & Hr%list_elem_of_In)%in_map_iff & He%list_elem_of_In)%list_elem_of_In%in_concat.
  apply range_subjects_elem in He as (E1 & E2 & Ht). exists r. unfold cr_key. by rewrite E1, E2.
Qed.

Lemma index_subjects_spec rows ranges (r : ClaimRange) x :
  r ∈ ranges →
  bt_get subject_compare (cr_key r, x) (index_subjects (claim_subjects sha256 rows ranges)) = told_subject rows r x ∧
  (told_subject rows r x ≠ None → (cr_key r, x) ∈ map fst (index_subjects (claim_subjects sha256 rows ranges))).
Proof.
  intros Hr. unfold index_subjects.
  destruct (index_get subject_compare (λ s, (sd_writer s, sd_start s, sd_subject s)) sd_digest
              (λ k, default "" (told_subject rows (mkClaimRange k.1.1 k.1.2) k.2))
              (claim_subjects sha256 rows ranges)) as (_ & Hg & Hk).
  { intros e He. apply claim_subjects_elem in He as ([w z] & _ & E & Ht). unfold cr_key in E. cbn in *.
    injection E as -> ->. by rewrite Ht. }
  assert (Hin : (cr_key r, x) ∈ map (λ s, (sd_writer s, sd_start s, sd_subject s)) (claim_subjects sha256 rows ranges)
                ↔ told_subject rows r x ≠ None).
  { rewrite list_elem_of_fmap. split.
    - intros (e & E & He). apply claim_subjects_elem in He as (r' & _ & E' & Ht). injection E as E1 E2 ->.
      assert (r' = r) as -> by (destruct r', r; unfold cr_key in *; cbn in *; congruence). congruence.
    - intros Hne. destruct (range_subjects_all rows r x) as (e & He & <-).
      { intros E. apply Hne. unfold told_subject. by rewrite E. }
      exists e. destruct (range_subjects_elem rows r e He) as (E1 & E2 & _). split; [unfold cr_key; congruence|].
      apply list_elem_of_In, in_concat. exists (range_subjects sha256 rows r).
      split; [by apply in_map, list_elem_of_In|by apply list_elem_of_In]. }
  split; [|intros Hne; by apply Hk, Hin].
  rewrite Hg. cbn [fst snd]. replace (mkClaimRange (cr_key r).1 (cr_key r).2) with r by by destruct r.
  case_bool_decide as Hb; [apply Hin in Hb; by destruct (told_subject rows r x)|].
  destruct (told_subject rows r x); [|done]. exfalso. by apply Hb, Hin.
Qed.

Lemma differing_subjects_elem A B ranges x :
  x ∈ differing_subjects (claim_subjects sha256 A ranges) (claim_subjects sha256 B ranges) ↔
  ∃ r, r ∈ ranges ∧ told_subject A r x ≠ told_subject B r x.
Proof.
  unfold differing_subjects. rewrite (elem_of_bt_set String.compare), list_elem_of_fmap. split.
  - intros (k & -> & [Hk Hn%negb_true_iff%bool_decide_eq_false]%lfilter_elem).
    assert (∃ r, r ∈ ranges ∧ cr_key r = k.1) as (r & Hr & E).
    { assert (He : ∃ rows e, e ∈ claim_subjects sha256 rows ranges ∧ (sd_writer e, sd_start e, sd_subject e) = k).
      { apply elem_of_app in Hk as [Hk|Hk]; unfold index_subjects in Hk.
        all: apply (proj2 (proj2 (index_get subject_compare (λ s, (sd_writer s, sd_start s, sd_subject s)) sd_digest
               (λ k, default "" (told_subject _ (mkClaimRange k.1.1 k.1.2) k.2)) _
               ltac:(intros e ([w z] & _ & E & Ht)%claim_subjects_elem; unfold cr_key in E; cbn in *;
                     injection E as -> ->; by rewrite Ht)))) in Hk as (e & -> & He)%list_elem_of_fmap; eauto. }
      destruct He as (rows & e & He & <-). apply claim_subjects_elem in He as (r & Hr & E & _). by exists r. }
    exists r. split; [done|]. destruct k as [k x']. cbn in *. subst k.
    by rewrite !(proj1 (index_subjects_spec _ ranges r x' Hr)) in Hn.
  - intros (r & Hr & Hn). exists (cr_key r, x). split; [done|]. apply lfilter_elem.
    destruct (index_subjects_spec A ranges r x Hr) as [EA HA], (index_subjects_spec B ranges r x Hr) as [EB HB].
    rewrite negb_true_iff, bool_decide_eq_false, EA, EB. split; [|done]. apply elem_of_app.
    destruct (told_subject A r x); [by left; apply HA|]. right. apply HB. congruence.
Qed.

(** ** Digests bind *)

Definition claim_bytes (p : ReplicaEnvelopeId) : list ascii := be_bytes 8 (eid_sequence p) ++ frame (eid_hash p).

Lemma digest_claims_bytes domain l : digest_claims domain l = domain ++ concat (map claim_bytes l).
Proof.
  unfold digest_claims. revert domain. induction l as [|p l IH]; intros domain; cbn [fold_left map concat];
    [by rewrite app_nil_r|].
  rewrite IH. unfold digest_claim, claim_bytes, frame. by rewrite <- !app_assoc.
Qed.

(** The digest of two lists of claims is the same though the hashed bytes differ. *)
Definition claims_collide (domain : list ascii) (a b : list ReplicaEnvelopeId) : Prop :=
  collide (finalize sha256) (digest_claims domain a) (digest_claims domain b).

(** One range of the claims two nodes project, and one subject within a range, whose digests do not tell
    the two nodes apart. *)
Definition range_misread (A B : list HealClaim) (k : string * Z) : Prop :=
  claims_collide CLAIM_RANGE_DOMAIN (with_key range_key k (places A)) (with_key range_key k (places B)).
Definition subject_misread (A B : list HealClaim) (r : ClaimRange) (x : string) : Prop :=
  claims_collide CLAIM_SUBJECT_DOMAIN (about A r x) (about B r x).

(** Claims of one writer whose fields fit. *)
Definition claims_of (w : string) (p : ReplicaEnvelopeId) : Prop :=
  eid_writer p = w ∧ is_sequence (eid_sequence p) ∧ (Z.of_nat (String.length (eid_hash p)) ≤ u64_max)%Z.

Lemma prefix_code_claim w : prefix_code claim_bytes (claims_of w).
Proof.
  intros [w1 s h] [w2 s' h'] x y (Hw & Hs & Hh) (Hw' & Hs' & Hh') E. unfold claim_bytes in E.
  cbn [eid_writer eid_sequence eid_hash] in *. rewrite <- !app_assoc in E. unfold is_sequence in *.
  apply prefix_code_be in E as [-> E]; [|lia..]. apply frame_inj in E as [-> ->]; [|done..].
  split; [congruence|done].
Qed.

Lemma claims_digest_inj w domain l l' :
  (∀ p, p ∈ l → claims_of w p) → (∀ p, p ∈ l' → claims_of w p) →
  finalize sha256 (digest_claims domain l) = finalize sha256 (digest_claims domain l') →
  l = l' ∨ claims_collide domain l l'.
Proof.
  intros Hl Hl' E. destruct (decide (digest_claims domain l = digest_claims domain l')) as [Eb|Hne].
  - left. rewrite !digest_claims_bytes in Eb. apply app_inv_head in Eb.
    apply (prefix_code_lists claim_bytes (claims_of w)); [apply prefix_code_claim| | | |done].
    + intros p En%(f_equal length). unfold claim_bytes in En. rewrite length_app, length_be_bytes in En. simpl in En. lia.
    + apply Forall_forall. intros p Hp. by apply Hl.
    + apply Forall_forall. intros p Hp. by apply Hl'.
  - by right.
Qed.

Section two_sides.
Context (A B : list HealClaim) (HA : projected_ok A) (HB : projected_ok B).

Lemma fits rows c : projected_ok rows → c ∈ rows → claims_of (hc_writer c) (place c).
Proof. intros Hok Hc. split_and!; [done|by apply (pk_sequences _ Hok)|by apply (pk_ids _ Hok)]. Qed.

Lemma part_fits rows k p :
  projected_ok rows → p ∈ with_key range_key k (places rows) → p ∈ map place rows ∧ claims_of k.1 p.
Proof.
  intros Hok [Hp <-]%elem_of_with_key. rewrite places_elem in Hp. split; [done|].
  apply list_elem_of_fmap in Hp as (c & -> & Hc). by apply (fits rows).
Qed.

Lemma told_range_eq k :
  told_range (places A) k = told_range (places B) k →
  with_key range_key k (places A) = with_key range_key k (places B) ∨ range_misread A B k.
Proof.
  unfold told_range. case_bool_decide as Ha; case_bool_decide as Hb; intros E; try done.
  - injection E as E. apply (claims_digest_inj k.1); [| |done]; intros p Hp; [by apply (part_fits A)|by apply (part_fits B)].
  - left. rewrite !with_key_nil; [done|by rewrite <- range_keys_elem..].
Qed.

Lemma about_fits rows r x p :
  projected_ok rows → aligned r → p ∈ about rows r x → p ∈ map place rows ∧ claims_of (cr_writer r) p.
Proof.
  intros Hok Hr (c & Hc & <- & _ & Hk)%about_elem; [|done..]. split; [by apply list_elem_of_fmap; eauto|].
  injection Hk as <- _. by apply (fits rows).
Qed.

Lemma told_subject_eq r x :
  aligned r → told_subject A r x = told_subject B r x → about A r x = about B r x ∨ subject_misread A B r x.
Proof.
  intros Hr. unfold told_subject, subject_misread.
  pose proof (λ p, about_fits A r x p HA Hr) as HfA. pose proof (λ p, about_fits B r x p HB Hr) as HfB.
  destruct (about A r x) as [|p a], (about B r x) as [|q b]; intros E; try done; [by left|].
  injection E as E. apply (claims_digest_inj (cr_writer r)); [| |done]; intros y Hy; [by apply HfA|by apply HfB].
Qed.

Lemma differing_aligned r :
  r ∈ differing_ranges (claim_ranges sha256 A) (claim_ranges sha256 B) → aligned r.
Proof.
  intros Hr%differing_ranges_elem; [|apply HA|apply HB].
  assert (∃ rows c, projected_ok rows ∧ c ∈ rows ∧ range_key (place c) = cr_key r) as (rows & c & Hok & Hc & E).
  { assert (Hin : ∀ rows, cr_key r ∈ range_keys (places rows) → ∃ c, c ∈ rows ∧ range_key (place c) = cr_key r).
    { intros rows (p & -> & Hp)%range_keys_elem%list_elem_of_fmap. rewrite places_elem in Hp.
      apply list_elem_of_fmap in Hp as (c & -> & Hc). by exists c. }
    destruct (decide (cr_key r ∈ range_keys (places A))) as [H|H]; [apply Hin in H as (c & ? & ?); by exists A, c|].
    destruct (decide (cr_key r ∈ range_keys (places B))) as [H'|H']; [apply Hin in H' as (c & ? & ?); by exists B, c|].
    exfalso. apply Hr. unfold told_range. by rewrite !bool_decide_false. }
  injection E as _ E. unfold aligned. rewrite <- E. split; [|apply bucket_start_idem].
  apply bucket_start_sequence. by apply (pk_sequences _ Hok).
Qed.

(** Two sorted lists that differ have an element only one of them has. *)
Lemma sorted_differ (a b : list ReplicaEnvelopeId) :
  sorted a → sorted b → a ≠ b → ∃ p, (p ∈ a ∧ p ∉ b) ∨ (p ∈ b ∧ p ∉ a).
Proof.
  intros Ha Hb Hne. destruct (only_or a b) as [H|H]; [done|]. exfalso. apply Hne.
  by apply (sorted_ext ReplicaEnvelopeId_compare).
Qed.
End two_sides.
End compare.

(** ** Narrowing *)

(** The ranges, the subjects and the two lists of claims that three questions with the given limits
    come to, between a node that projects [A] and one that projects [B]. *)
Definition narrowed_ranges {hex : HexApi} sha256 (A B : list HealClaim) : list ClaimRange :=
  take HEAL_RANGE_LIMIT (differing_ranges (claim_ranges sha256 A) (claim_ranges sha256 B)).
Definition narrowed_subjects {hex : HexApi} sha256 (A B : list HealClaim) : list string :=
  let ranges := narrowed_ranges sha256 A B in
  take HEAL_SUBJECT_LIMIT (differing_subjects (claim_subjects sha256 A ranges) (claim_subjects sha256 B ranges)).
Definition narrowed {hex : HexApi} sha256 (A B rows : list HealClaim) : list HealClaim :=
  claims_in rows (narrowed_ranges sha256 A B) (narrowed_subjects sha256 A B).

(** A claim's place fixes its subject, on both sides. *)
Definition subjects_agree (A B : list HealClaim) : Prop :=
  ∀ a b, a ∈ A → b ∈ B → place a = place b → hc_subject a = hc_subject b.

Lemma elem_of_take {A} n (l : list A) x : x ∈ take n l → x ∈ l.
Proof. intros Hx. rewrite <- (take_drop n l). apply elem_of_app. by left. Qed.

Lemma take_head {A} n (l : list A) x : (0 < n)%nat → x ∈ l → ∃ y, y ∈ take n l.
Proof. destruct n as [|n], l as [|y l]; [lia|lia|by intros _ ?%elem_of_nil|]. intros _ _. exists y. by left. Qed.

Section narrow.
Context {hex : HexApi} (sha256 : list ascii → list ascii).
Context (A B : list HealClaim) (HA : projected_ok A) (HB : projected_ok B) (HAB : subjects_agree A B).

Lemma narrowed_elem rows c :
  projected_ok rows →
  c ∈ narrowed sha256 A B rows ↔
  c ∈ rows ∧ hc_subject c ∈ narrowed_subjects sha256 A B ∧
  ∃ r, r ∈ narrowed_ranges sha256 A B ∧ range_key (place c) = cr_key r.
Proof.
  intros Hok. unfold narrowed, claims_in.
  assert (Hal : ∀ r, r ∈ narrowed_ranges sha256 A B → aligned r)
    by (intros r Hr%elem_of_take; by apply (differing_aligned sha256 A B)).
  split.
  - intros (l & (r & <- & Hr%list_elem_of_In)%in_map_iff & Hc%list_elem_of_In)%list_elem_of_In%in_concat.
    apply lfilter_elem in Hc as [Hc Hs%bool_decide_eq_true]. apply range_claims_elem in Hc as [? ?]; [|by auto..].
    split_and!; [done..|]. by exists r.
  - intros (Hc & Hs & r & Hr & Hk). apply list_elem_of_In, in_concat. eexists.
    split; [apply (in_map (λ r, List.filter _ (range_claims rows r))), list_elem_of_In; exact Hr|].
    apply list_elem_of_In, lfilter_elem. split; [by apply range_claims_elem; auto|by apply bool_decide_eq_true].
Qed.

Lemma narrowed_sound rows other c :
  projected_ok rows → projected_ok other → subjects_agree rows other →
  c ∈ narrowed sha256 A B rows → place c ∉ map place (narrowed sha256 A B other) →
  c ∈ rows ∧ place c ∉ map place other.
Proof.
  intros Hok Hok' Hag Hc Hn. apply narrowed_elem in Hc as (Hc & Hs & r & Hr & Hk); [|done]. split; [done|].
  intros (b & E & Hb)%list_elem_of_fmap. apply Hn. rewrite E. apply list_elem_of_fmap. exists b. split; [done|].
  apply narrowed_elem; [done|]. rewrite <- E, <- (Hag c b Hc Hb E). split_and!; [done..|]. by exists r.
Qed.

(** In a range the nodes are told apart by, the claims about some subject differ. *)
Lemma differing_about r :
  r ∈ narrowed_ranges sha256 A B → aligned r ∧ ∃ x, about A r x ≠ about B r x.
Proof.
  intros Hd%elem_of_take. pose proof (differing_aligned sha256 A B HA HB r Hd) as Hal. split; [done|].
  apply differing_ranges_elem in Hd; [|apply HA|apply HB].
  assert (Hne : with_key range_key (cr_key r) (places A) ≠ with_key range_key (cr_key r) (places B)).
  { intros E. apply Hd. unfold told_range. rewrite E.
    replace (bool_decide (cr_key r ∈ range_keys (places A))) with (bool_decide (cr_key r ∈ range_keys (places B))); [done|].
    assert (Hex : ∀ P, cr_key r ∈ range_keys P ↔ with_key range_key (cr_key r) P ≠ []).
    { intros P. rewrite range_keys_elem. split.
      - intros Hm. destruct (with_key_nonempty range_key _ _ Hm) as (x & t & E' & _). by rewrite E'.
      - intros Hne. destruct (decide (cr_key r ∈ map range_key P)); [done|]. by rewrite with_key_nil in Hne. }
    apply bool_decide_ext. by rewrite !Hex, E. }
  destruct (sorted_differ _ _ ltac:(by apply sorted_filter, places_sorted, HA)
              ltac:(by apply sorted_filter, places_sorted, HB) Hne) as (p & Hp).
  assert (Hc : ∀ rows other, projected_ok rows → projected_ok other →
            p ∈ with_key range_key (cr_key r) (places rows) → p ∉ with_key range_key (cr_key r) (places other) →
            ∃ x, p ∈ about rows r x ∧ p ∉ about other r x).
  { intros rows other Hok Hok' [Hin Hk]%elem_of_with_key Hout. rewrite places_elem in Hin.
    apply list_elem_of_fmap in Hin as (c & -> & Hc). exists (hc_subject c). split.
    - apply about_elem; [done..|]. by exists c.
    - intros (b & Hb & E & _)%about_elem; [|done..]. apply Hout, elem_of_with_key. split; [|done].
      rewrite places_elem, <- E. by apply list_elem_of_fmap; eauto. }
  destruct Hp as [[H1 H2]|[H1 H2]].
  - destruct (Hc A B HA HB H1 H2) as (x & ? & ?). exists x. congruence.
  - destruct (Hc B A HB HA H1 H2) as (x & ? & ?). exists x. congruence.
Qed.

(** When no subject is come to, each range come to has a subject whose digests collide. *)
Lemma no_subject r :
  narrowed_subjects sha256 A B = [] → r ∈ narrowed_ranges sha256 A B → ∃ x, subject_misread sha256 A B r x.
Proof.
  intros Hnil Hr. destruct (differing_about r Hr) as [Hal [x Hx]]. exists x.
  destruct (decide (told_subject sha256 A r x = told_subject sha256 B r x)) as [E|E].
  { by destruct (told_subject_eq sha256 A B HA HB r x Hal E). }
  exfalso. assert (Hy : ∃ y, y ∈ narrowed_subjects sha256 A B).
  { unfold narrowed_subjects. cbv zeta. apply (take_head _ _ x); [unfold HEAL_SUBJECT_LIMIT; lia|].
    apply differing_subjects_elem. eauto. }
  destruct Hy as [y Hy]. rewrite Hnil in Hy. by apply elem_of_nil in Hy.
Qed.

(** When no range is come to, the range of every claim only one node projects has colliding digests. *)
Lemma no_range p :
  narrowed_ranges sha256 A B = [] →
  (p ∈ map place A ∧ p ∉ map place B) ∨ (p ∈ map place B ∧ p ∉ map place A) → range_misread sha256 A B (range_key p).
Proof.
  intros Hnil Hp. set (k := range_key p).
  destruct (decide (told_range sha256 (places A) k = told_range sha256 (places B) k)) as [E|E].
  - destruct (told_range_eq sha256 A B HA HB k E) as [Ek|?]; [exfalso|done].
    assert (Hiff : p ∈ with_key range_key k (places A) ↔ p ∈ with_key range_key k (places B)) by by rewrite Ek.
    rewrite !elem_of_with_key, !places_elem in Hiff. tauto.
  - exfalso. destruct (take_head HEAL_RANGE_LIMIT (differing_ranges (claim_ranges sha256 A) (claim_ranges sha256 B))
              (mkClaimRange k.1 k.2)) as [r Hr]; [unfold HEAL_RANGE_LIMIT; lia| |].
    { apply differing_ranges_elem; [apply HA|apply HB|done]. }
    fold (narrowed_ranges sha256 A B) in Hr. rewrite Hnil in Hr. by apply elem_of_nil in Hr.
Qed.

Lemma differing_claim x :
  x ∈ narrowed_subjects sha256 A B →
  ∃ c, (c ∈ narrowed sha256 A B A ∧ place c ∉ map place (narrowed sha256 A B B)) ∨
       (c ∈ narrowed sha256 A B B ∧ place c ∉ map place (narrowed sha256 A B A)).
Proof.
  intros Hx. pose proof Hx as (r & Hr & Hd)%elem_of_take%differing_subjects_elem.
  assert (Hal : aligned r) by (apply elem_of_take in Hr; by apply (differing_aligned sha256 A B)).
  assert (Hne : about A r x ≠ about B r x) by (intros E; apply Hd; unfold told_subject; by rewrite E).
  destruct (sorted_differ _ _ (about_sorted A r x HA) (about_sorted B r x HB) Hne) as (p & Hp).
  assert (Hc : ∀ rows other, projected_ok rows → projected_ok other → subjects_agree rows other →
            p ∈ about rows r x → p ∉ about other r x →
            ∃ c, c ∈ narrowed sha256 A B rows ∧ place c ∉ map place (narrowed sha256 A B other)).
  { intros rows other Hok Hok' Hag (c & Hc & <- & <- & Hk)%about_elem Hout; [|done..]. exists c. split.
    - apply narrowed_elem; [done|]. split_and!; [done..|]. by exists r.
    - intros (b & E & Hb)%list_elem_of_fmap. apply narrowed_elem in Hb as (Hb & _); [|done].
      apply Hout, about_elem; [done..|]. exists b. split_and!; [done|done|by rewrite (Hag c b)|done]. }
  destruct Hp as [[H1 H2]|[H1 H2]].
  - destruct (Hc A B HA HB HAB H1 H2) as (c & ? & ?). exists c. by left.
  - destruct (Hc B A HB HA ltac:(intros b a Hb Ha E; symmetry; by apply HAB) H1 H2) as (c & ? & ?). exists c. by right.
Qed.
End narrow.

(** C16. Between two nodes on which a claim's place names its subject alike, the three questions of a heal
    come to claims that only one of them projects: what is listed on one side and not on the other is projected by that side only, and when the nodes do not
    project the same claims at least one such claim is listed, whatever the limits cut off. The only
    exceptions are collisions of SHA-256 digests that the heal compared: either no range is come to, and
    the range of every claim only one node projects has the same digest on both sides over different
    bytes; or ranges are and no subject is, and each of those ranges has a subject for which that holds. *)
Theorem narrowing_finds_what_differs {hex : HexApi} sha256 A B :
  projected_ok A → projected_ok B → subjects_agree A B →
  let mine := narrowed sha256 A B A in
  let theirs := narrowed sha256 A B B in
  (∀ c, c ∈ mine → place c ∉ map place theirs → c ∈ A ∧ place c ∉ map place B) ∧
  (∀ c, c ∈ theirs → place c ∉ map place mine → c ∈ B ∧ place c ∉ map place A) ∧
  ((∃ p, (p ∈ map place A ∧ p ∉ map place B) ∨ (p ∈ map place B ∧ p ∉ map place A)) →
   (∃ c, (c ∈ mine ∧ place c ∉ map place theirs) ∨ (c ∈ theirs ∧ place c ∉ map place mine)) ∨
   (narrowed_ranges sha256 A B = [] ∧
    ∀ p, (p ∈ map place A ∧ p ∉ map place B) ∨ (p ∈ map place B ∧ p ∉ map place A) →
         range_misread sha256 A B (range_key p)) ∨
   (narrowed_ranges sha256 A B ≠ [] ∧ narrowed_subjects sha256 A B = [] ∧
    ∀ r, r ∈ narrowed_ranges sha256 A B → ∃ x, subject_misread sha256 A B r x)).
Proof.
  intros HA HB HAB mine theirs.
  assert (HBA : subjects_agree B A) by (intros b a Hb Ha E; symmetry; by apply HAB).
  split_and!; [intros c; by apply narrowed_sound..|]. intros _.
  destruct (decide (narrowed_ranges sha256 A B = [])) as [Hr|Hr].
  { right; left. split; [done|]. intros p. by apply no_range. }
  destruct (narrowed_subjects sha256 A B) as [|x xs] eqn:Hs.
  - right; right. split_and!; [done..|]. intros r. by apply no_subject.
  - left. apply (differing_claim sha256 A B HA HB HAB x). rewrite Hs. by left.
Qed.

(** ** Witnesses *)

Definition claim_one : HealClaim := mkHealClaim "host/a" 5 "c1" "agent/x" (Some "e1").
Definition claim_two : HealClaim := mkHealClaim "host/b" 300 "c2" "agent/y" (Some "e2").

Ltac rows_by_computation :=
  split; [by apply (bool_decide_eq_true _)
         |intros c Hc; cbn in Hc; repeat (apply elem_of_cons in Hc as [->|Hc]; [done|]); by apply elem_of_nil in Hc
         |intros c Hc; cbn in Hc; repeat (apply elem_of_cons in Hc as [->|Hc]; [by vm_compute|]);
            by apply elem_of_nil in Hc].

(** The claim the first node lacks is the one the questions come to. *)
Lemma narrowing_example :
  narrowed (hex := lower_hex) (λ x, x) [claim_one] [claim_two; claim_one] [claim_two; claim_one] = [claim_two].
Proof. by vm_compute. Qed.

Lemma examples_agree : subjects_agree [claim_one] [claim_two; claim_one].
Proof.
  intros a b Ha Hb E. apply list_elem_of_singleton in Ha as ->.
  apply elem_of_cons in Hb as [->|Hb]; [done|]. by apply list_elem_of_singleton in Hb as ->.
Qed.

Lemma narrowing_witness :
  claim_two ∈ [claim_two; claim_one] ∧ place claim_two ∉ map place [claim_one].
Proof.
  apply (proj1 (proj2 (narrowing_finds_what_differs (hex := lower_hex) (λ x, x) [claim_one] [claim_two; claim_one]
           ltac:(rows_by_computation) ltac:(rows_by_computation) examples_agree)) claim_two);
    apply (bool_decide_eq_true _); by vm_compute.
Defined.
