(* ===== verification/Heal.v ===== *)
(** * Healing

    Models [crates/smallclaims/src/store/heal.rs] and the loop that drives it ([heal] in
    [crates/smallclaims/src/sync/worker.rs]): two nodes that hold the same envelopes and project
    different graphs. One asks, the other answers ([heal_answer]); [heal_next] compares an answer with
    this node's own claims, acts on it and says what to ask next. Around it are the backoffs of
    [PeerSyncProgress] (also in [store.rs]) and of replays, and the first sync of a node that joined.

    The tables are lists of rows. Admitting what is pending and replaying a graph are the rest of the
    store, and the class [GraphApi] stands for them. The clock is read once for each answer. Envelope
    signatures, and the rates [PeerSyncProgress] smooths, are not modelled; a SQL statement that fails is
    not either. *)

From Stdlib Require Import Ascii.
From S2P Require Import Prelude StableSort Text Json Bytes Order BTree Slices Framing Claim Hash Inventory HealClaims.
Import Compact.

(** ** Tables *)

Record EnvelopeRow := mkEnvelopeRow {
  ev_envelope : ReplicaEnvelope;
  ev_batch : option string;
  ev_relay : string;
  ev_state : string
}.

Record ClaimRow := mkClaimRow {
  cl_id : string;
  cl_subject : string;
  cl_batch : string;
  cl_origin : string;
  cl_sequence : Z
}.

Record RecordRow := mkRecordRow {
  rr_writer : string;
  rr_sequence : Z;
  rr_hash : string;
  rr_position : Z;
  rr_state : string;
  rr_claim_id : option string;
  rr_kind_hint : option string;
  rr_error_code : option string
}.

Record HealTables := mkHealTables {
  ht_claims : list ClaimRow;
  ht_envelopes : list EnvelopeRow;
  ht_records : list RecordRow;
  ht_dropped_claims : list string;
  ht_dropped_envelopes : list ReplicaEnvelopeId
}.

Definition envelope_id (e : ReplicaEnvelope) : ReplicaEnvelopeId :=
  mkReplicaEnvelopeId (env_writer e) (env_sequence e) (env_hash e).

Definition repaired (t : HealTables) (id : string) : bool :=
  existsb (λ r, ostr_eqb (rr_claim_id r) (Some id) && str_eqb (rr_state r) "repaired") (ht_records t).

(** [SELECT envelope_hash ... WHERE batch_id=... ORDER BY envelope_hash LIMIT 1]. *)
Definition batch_envelope (t : HealTables) (batch : string) : option string :=
  head (bt_set String.compare
          (map (λ e, env_hash (ev_envelope e))
             (List.filter (λ e, ostr_eqb (ev_batch e) (Some batch)) (ht_envelopes t)))).

(** [PROJECTED_CLAIMS]: every claim with its batch, except repaired originals. *)
Definition projected (t : HealTables) : list HealClaim :=
  map (λ c, mkHealClaim (cl_origin c) (cl_sequence c) (cl_id c) (cl_subject c) (batch_envelope t (cl_batch c)))
    (List.filter (λ c, negb (repaired t (cl_id c))) (ht_claims t)).

Definition claim_tombstoned (t : HealTables) (id : string) : bool := bool_decide (id ∈ ht_dropped_claims t).

Definition stored_envelope (t : HealTables) (i : ReplicaEnvelopeId) : option ReplicaEnvelope :=
  ev_envelope <$> List.find (λ e, bool_decide (envelope_id (ev_envelope e) = i)) (ht_envelopes t).

Definition held_envelopes (t : HealTables) (identities : list ReplicaEnvelopeId) : list ReplicaEnvelope :=
  omap (stored_envelope t) identities.

(** ** What a node could not admit *)

Definition describe_claim_counts (counts : list (string * Z)) : option string :=
  let total := fold_right Z.add 0%Z (map snd counts) in
  if (total =? 0)%Z then None
  else Some (u_to_string total +:+ " claim" +:+ (if (total =? 1)%Z then "" else "s") +:+ ": "
             +:+ join ", " (map (λ e, u_to_string e.2 +:+ " " +:+ e.1) counts)).

Definition count_reason (why : string) (m : list (string * Z)) : list (string * Z) :=
  bt_update String.compare why (λ o, (default 0 o + 1)%Z) m.

Definition is_record_of (writer : string) (sequence : Z) (hash : string) (r : RecordRow) : bool :=
  str_eqb (rr_writer r) writer && (rr_sequence r =? sequence)%Z && str_eqb (rr_hash r) hash
  && negb (ostr_eqb (rr_kind_hint r) (Some "blob")).

Definition reason_of (r : RecordRow) : string :=
  rr_state r +:+ " (" +:+ default (rr_state r) (rr_error_code r) +:+ ")".

(** How many claims of the envelopes this node projects, and what it cannot admit, by reason. *)
Definition envelope_claim_states (t : HealTables) (envelopes : list ReplicaEnvelope) : Z * option string :=
  let rows := concat (map (λ e, List.filter (λ r, is_record_of (env_writer e) (env_sequence e) (env_hash e) r
                                                  && negb (str_eqb (rr_state r) "repaired")) (ht_records t)) envelopes) in
  let '(admitted, refused) :=
    fold_left (λ st r, if str_eqb (rr_state r) "valid" then ((st.1 + 1)%Z, st.2)
                       else (st.1, count_reason (reason_of r) st.2)) rows (0%Z, []) in
  (admitted, describe_claim_counts refused).

Definition missing_reason (t : HealTables) (c : HealClaim) : string :=
  default "absent"
    (reason_of <$> head (rows_in_order Z.compare rr_position
       (List.filter (λ r, is_record_of (hc_writer c) (hc_sequence c) (default "" (hc_envelope_hash c)) r
                          && negb (str_eqb (rr_state r) "valid")) (ht_records t)))).

(** How many of the claims this node now projects, and the rest by reason. *)
Definition projected_claims_among (t : HealTables) (claims : list HealClaim) : Z * option string :=
  let '(count, missing) :=
    fold_left (λ st c, if existsb (λ row, str_eqb (cl_id row) (hc_claim_id c)) (ht_claims t)
                          && negb (repaired t (hc_claim_id c))
                       then ((st.1 + 1)%Z, st.2)
                       else (st.1, count_reason (missing_reason t c) st.2)) claims (0%Z, []) in
  (count, describe_claim_counts missing).

(** ** Questions, answers and reports *)

Inductive ReplicationHealQuery :=
| QRanges
| QSubjects (ranges : list ClaimRange)
| QClaims (ranges : list ClaimRange) (subjects : list string)
| QSwap (push : list ReplicaEnvelope) (want : list ReplicaEnvelopeId)
| QReplay.

Inductive ReplicationHealAnswer :=
| ARanges (graph_digest : string) (projection_digests : list (string * string)) (ranges : list ClaimRangeDigest)
| ASubjects (ranges : list ClaimRange) (subjects : list ClaimSubjectDigest)
| AClaims (ranges : list ClaimRange) (subjects : list string) (claims : list HealClaim)
| ASwapped (admitted : Z) (refused : option string) (envelopes : list ReplicaEnvelope)
    (graph_digest : string) (projection_digests : list (string * string))
| AReplayed (replayed : bool) (graph_digest : string) (projection_digests : list (string * string))
| AFailed (message : string).

Record ReplicationHealReport := mkReport {
  hr_at_unix_ms : Z;
  hr_ranges : Z;
  hr_subjects : Z;
  hr_refetched : Z;
  hr_pushed : Z;
  hr_replayed : bool;
  hr_peer_replayed : bool;
  hr_healed : bool;
  hr_unresolved : option string
}.

Definition new_report (now : Z) : ReplicationHealReport := mkReport now 0 0 0 0 false false false None.

Inductive ReplicationHealStep :=
| Ask (query : ReplicationHealQuery)
| Done (report : ReplicationHealReport).

(** ** State *)

Record HealSession := mkSession {
  hs_report : ReplicationHealReport;
  hs_rounds : Z;
  hs_wanted : list HealClaim;
  hs_asked_replay : bool
}.

Definition new_session (now : Z) : HealSession := mkSession (new_report now) 0 [] false.

Record HealState := mkHealState {
  hl_replayed_at_unix_ms : option Z;
  hl_replay_backoff_ms : Z;
  hl_sessions : gmap string HealSession
}.

Record PeerSyncProgress := mkProgress {
  ps_graph_compared_at_unix_ms : option Z;
  ps_graph_differs_since_unix_ms : option Z;
  ps_heal_started_at_unix_ms : option Z;
  ps_heal_backoff_ms : Z;
  ps_heal : option ReplicationHealReport
}.

Definition default_progress : PeerSyncProgress := mkProgress None None None 0 None.

Record ReplicationFirstSync := mkFirstSync {
  fs_state : string;
  fs_started_at_unix_ms : Z;
  fs_ended_at_unix_ms : option Z;
  fs_peer : option string;
  fs_envelopes : option Z;
  fs_graph_digest : option string;
  fs_peer_graph_digest : option string;
  fs_authority_digest : option string;
  fs_healed : bool;
  fs_message : option string
}.

Record HealNode := mkHealNode {
  hn_tables : HealTables;
  hn_heal : HealState;
  hn_sync : gmap string PeerSyncProgress;
  hn_first_sync : option ReplicationFirstSync;
  hn_heal_replay_backoff_ms : Z
}.

Definition HEAL_ROUND_LIMIT : Z := 8.
Definition HEAL_SESSION_STALE_MS : Z := 600000.
Definition HEAL_RETRY_MS : Z := 60000.
Definition HEAL_BACKOFF_MAX_MS : Z := 3600000.
Definition HEAL_REPLAY_BACKOFF_MS : Z := 600000.
Definition HEAL_REPLAY_BACKOFF_MAX_MS : Z := 86400000.
Definition HEAL_QUESTION_LIMIT : nat := 48.
Definition REPLICATION_DIVERGED_AFTER_MS : Z := 60000.

(** ** When a heal is due *)

(** [compare_graphs]: one comparison with the peer's graph, made while both held the same envelopes. *)
Definition compare_graphs (equal : bool) (now : Z) (p : PeerSyncProgress) : PeerSyncProgress :=
  if equal
  then mkProgress (Some now) None (ps_heal_started_at_unix_ms p) 0 (ps_heal p)
  else mkProgress (Some now) (Some (default now (ps_graph_differs_since_unix_ms p))) (ps_heal_started_at_unix_ms p)
         (ps_heal_backoff_ms p) (ps_heal p).

(** Retiring a comparison from before an upgrade or a waiting claim. *)
Definition retire_comparison (p : PeerSyncProgress) : PeerSyncProgress :=
  mkProgress None None (ps_heal_started_at_unix_ms p) (ps_heal_backoff_ms p) None.

(** The part of [view] about the graphs. *)
Definition diverged (p : PeerSyncProgress) : bool :=
  match ps_graph_differs_since_unix_ms p, ps_graph_compared_at_unix_ms p with
  | Some since, Some compared => (REPLICATION_DIVERGED_AFTER_MS <=? sat_sub compared since)%Z
  | _, _ => false
  end.

Definition heal_due (heal_after_ms : Z) (now : Z) (now_or_never : bool) (p : PeerSyncProgress) :
    bool * PeerSyncProgress :=
  match ps_graph_differs_since_unix_ms p with
  | None => (false, p)
  | Some since =>
      if negb now_or_never && (sat_sub now since <? heal_after_ms)%Z then (false, p)
      else if is_some_and (ps_heal_started_at_unix_ms p)
                (λ started, sat_sub now started <? Z.max (ps_heal_backoff_ms p) HEAL_RETRY_MS)%Z then (false, p)
      else (true, mkProgress (ps_graph_compared_at_unix_ms p) (Some since) (Some now) (ps_heal_backoff_ms p) (ps_heal p))
  end.

Definition finish_progress (report : ReplicationHealReport) (p : PeerSyncProgress) : PeerSyncProgress :=
  let moved := negb (hr_refetched report + hr_pushed report =? 0)%Z || hr_replayed report in
  let backoff := if hr_healed report || moved then HEAL_RETRY_MS
                 else Z.min (Z.max (ps_heal_backoff_ms p) HEAL_RETRY_MS * 2) HEAL_BACKOFF_MAX_MS in
  mkProgress (ps_graph_compared_at_unix_ms p) (ps_graph_differs_since_unix_ms p) (ps_heal_started_at_unix_ms p)
    backoff (Some report).

(** ** First sync *)

Definition begin_first_sync (now : Z) (sponsor : string) : ReplicationFirstSync :=
  mkFirstSync "syncing" now None (Some sponsor) None None None None false None.

Definition observe_first_sync_log (now : Z) (peer : string) (envelopes : Z) (authority_digest : string)
    (first : option ReplicationFirstSync) : option ReplicationFirstSync :=
  f ← first;
  if str_eqb (fs_state f) "syncing" || str_eqb (fs_state f) "failed"
  then Some (mkFirstSync "verified" (fs_started_at_unix_ms f) (Some now) (Some peer) (Some envelopes) None None
               (Some authority_digest) false (Some "projection comparison waits for matching builds"))
  else Some f.

(** Once builds match, a log-only verification gives way to the comparison of graphs. *)
Definition reopen (f : ReplicationFirstSync) : ReplicationFirstSync :=
  match fs_authority_digest f with
  | Some _ => mkFirstSync "syncing" (fs_started_at_unix_ms f) None (fs_peer f) (fs_envelopes f) (fs_graph_digest f)
                (fs_peer_graph_digest f) None (fs_healed f) None
  | None => f
  end.

Definition observe_first_sync (now : Z) (peer : string) (equal : bool) (envelopes : Z)
    (graph_digest peer_graph_digest : string) (first : option ReplicationFirstSync) :
    bool * option ReplicationFirstSync :=
  match first with
  | None => (false, None)
  | Some old =>
      let f := reopen old in
      if (str_eqb (fs_state f) "syncing" || str_eqb (fs_state f) "failed") && equal
      then (false, Some (mkFirstSync "verified" (fs_started_at_unix_ms f) (Some now) (Some peer) (Some envelopes)
                           (Some graph_digest) (Some peer_graph_digest) (fs_authority_digest f)
                           (fs_healed f || str_eqb (fs_state f) "failed") None))
      else if str_eqb (fs_state f) "syncing" && negb equal
      then (true, Some (mkFirstSync (fs_state f) (fs_started_at_unix_ms f) (fs_ended_at_unix_ms f) (Some peer)
                          (Some envelopes) (Some graph_digest) (Some peer_graph_digest) (fs_authority_digest f)
                          true (fs_message f)))
      else (false, Some old)
  end.

(** ** Heals *)

Class GraphApi := {
  (** Validating, repairing and projecting what is pending. *)
  admit_backlog : HealTables → HealTables;
  (** Replaying the graph from nothing. *)
  replay_graph : HealTables → HealTables;
  legacy_graph_digest : HealTables → string;
  graph_digest : HealTables → string;
  projection_digests : HealTables → list (string * string)
}.

Definition with_tables (n : HealNode) (t : HealTables) : HealNode :=
  mkHealNode t (hn_heal n) (hn_sync n) (hn_first_sync n) (hn_heal_replay_backoff_ms n).
Definition with_heal (n : HealNode) (s : HealState) : HealNode :=
  mkHealNode (hn_tables n) s (hn_sync n) (hn_first_sync n) (hn_heal_replay_backoff_ms n).

(** [heal_session]: the session with a peer, started anew when there is none or it is stale, updated. *)
Definition heal_session {T} (peer : string) (now : Z) (update : HealSession → HealSession * T) (n : HealNode) :
    HealNode * T :=
  let state := hn_heal n in
  let session := default (mkSession (new_report 0) 0 [] false) (hl_sessions state !! peer) in
  let session := if (HEAL_SESSION_STALE_MS <? sat_sub now (hr_at_unix_ms (hs_report session)))%Z
                 then new_session now else session in
  let '(session, out) := update session in
  (with_heal n (mkHealState (hl_replayed_at_unix_ms state) (hl_replay_backoff_ms state)
                  (<[peer := session]> (hl_sessions state))), out).

Definition set_report (f : ReplicationHealReport → ReplicationHealReport) (s : HealSession) : HealSession :=
  mkSession (f (hs_report s)) (hs_rounds s) (hs_wanted s) (hs_asked_replay s).

Section heal.
Context {hex : HexApi} {graph : GraphApi} (sha256 : list ascii → list ascii) (decode : string → option (list ascii)).

Definition heal_graph_equal (legacy : string) (projections : list (string * string)) (t : HealTables) : bool :=
  match projections with
  | [] => str_eqb (legacy_graph_digest t) legacy
  | _ => bool_decide (projection_digests t = projections)
  end.

(** [finish_heal] on the first sync under way, when a heal was to end it. *)
Definition finish_first_sync (now : Z) (peer : string) (healed : bool) (unresolved : option string) (t : HealTables)
    (f : ReplicationFirstSync) : ReplicationFirstSync :=
  if str_eqb (fs_state f) "syncing" && fs_healed f then
    if healed
    then mkFirstSync "verified" (fs_started_at_unix_ms f) (Some now) (Some peer) (fs_envelopes f)
           (Some (graph_digest t)) (Some (graph_digest t)) (fs_authority_digest f) (fs_healed f) (fs_message f)
    else mkFirstSync "failed" (fs_started_at_unix_ms f) (Some now) (Some peer) (fs_envelopes f)
           (fs_graph_digest f) (fs_peer_graph_digest f) (fs_authority_digest f) (fs_healed f) unresolved
  else f.

Definition finish_heal (now : Z) (peer : string) (healed : bool) (unresolved : option string) (n : HealNode) :
    HealNode * ReplicationHealStep :=
  let state := hn_heal n in
  let report := default (new_report now) (hs_report <$> hl_sessions state !! peer) in
  let unresolved := if healed then None else unresolved in
  let report := mkReport (hr_at_unix_ms report) (hr_ranges report) (hr_subjects report) (hr_refetched report)
                  (hr_pushed report) (hr_replayed report) (hr_peer_replayed report) healed unresolved in
  let state := mkHealState (hl_replayed_at_unix_ms state)
                 (if healed then hn_heal_replay_backoff_ms n else hl_replay_backoff_ms state)
                 (delete peer (hl_sessions state)) in
  let progress := finish_progress report (default default_progress (hn_sync n !! peer)) in
  (mkHealNode (hn_tables n) state (<[peer := progress]> (hn_sync n))
     (finish_first_sync now peer healed unresolved (hn_tables n) <$> hn_first_sync n) (hn_heal_replay_backoff_ms n),
   Done report).

Definition replay_graph_for_heal (now : Z) (n : HealNode) : HealNode * bool :=
  let state := hn_heal n in
  let wait := Z.max (hl_replay_backoff_ms state) (hn_heal_replay_backoff_ms n) in
  if is_some_and (hl_replayed_at_unix_ms state) (λ at_, sat_sub now at_ <? wait)%Z then (n, false)
  else
    let backoff := Z.max (hn_heal_replay_backoff_ms n) (Z.min HEAL_REPLAY_BACKOFF_MAX_MS (wait * 2)) in
    (with_heal (with_tables n (replay_graph (hn_tables n))) (mkHealState (Some now) backoff (hl_sessions state)), true).

(** One envelope of [readmit_envelopes]: stored again as pending when its payload is the one its hash
    names and no tombstone stands for it. *)
Definition readmit_envelope (relay : string) (t : HealTables) (e : ReplicaEnvelope) : HealTables :=
  match decode (env_payload e) with
  | None => t
  | Some bytes =>
      let hash := replica_envelope_hash sha256 hex_encode (env_writer e) (env_sequence e) (env_previous_hash e)
                    (env_accepted_at_unix_ms e) bytes in
      if negb (str_eqb hash (env_hash e)) then t
      else if bool_decide (envelope_id e ∈ ht_dropped_envelopes t) then t
      else
        let rows :=
          if is_some (stored_envelope t (envelope_id e))
          then map (λ row, if bool_decide (envelope_id (ev_envelope row) = envelope_id e)
                           then let o := ev_envelope row in
                                mkEnvelopeRow (mkReplicaEnvelope (env_writer o) (env_sequence o) (env_previous_hash o)
                                                 (env_hash o) (env_accepted_at_unix_ms o) (env_payload e)
                                                 (env_member_key o) (env_signature o))
                                  (ev_batch row) (ev_relay row) "pending"
                           else row) (ht_envelopes t)
          else ht_envelopes t ++ [mkEnvelopeRow e None relay "pending"] in
        mkHealTables (ht_claims t) rows (ht_records t) (ht_dropped_claims t) (ht_dropped_envelopes t)
  end.

Definition readmit_envelopes (relay : string) (envelopes : list ReplicaEnvelope) (n : HealNode) : HealNode :=
  match envelopes with
  | [] => n
  | _ => with_tables n (admit_backlog (fold_left (readmit_envelope relay) envelopes (hn_tables n)))
  end.

Definition heal_answer (peer : string) (now : Z) (query : ReplicationHealQuery) (n : HealNode) :
    HealNode * ReplicationHealAnswer :=
  let t := hn_tables n in
  match query with
  | QRanges => (n, ARanges (legacy_graph_digest t) (projection_digests t) (claim_ranges sha256 (projected t)))
  | QSubjects ranges =>
      let ranges := take HEAL_RANGE_LIMIT ranges in
      (n, ASubjects ranges (claim_subjects sha256 (projected t) ranges))
  | QClaims ranges subjects =>
      let ranges := take HEAL_RANGE_LIMIT ranges in
      let subjects := take HEAL_SUBJECT_LIMIT subjects in
      (n, AClaims ranges subjects (claims_in (projected t) ranges subjects))
  | QSwap push want =>
      let push := take HEAL_ENVELOPE_LIMIT push in
      let n := readmit_envelopes peer push n in
      let t := hn_tables n in
      let '(admitted, refused) := envelope_claim_states t push in
      (n, ASwapped admitted refused (held_envelopes t (take HEAL_ENVELOPE_LIMIT want)) (legacy_graph_digest t)
            (projection_digests t))
  | QReplay =>
      let '(n, replayed) := replay_graph_for_heal now n in
      (n, AReplayed replayed (legacy_graph_digest (hn_tables n)) (projection_digests (hn_tables n)))
  end.

(** ** What to ask next *)

Definition changed_while_comparing (peer : string) : string :=
  "the claims " +:+ peer +:+ " projects changed while this node compared them".

Definition heal_envelope (c : HealClaim) : option ReplicaEnvelopeId :=
  mkReplicaEnvelopeId (hc_writer c) (hc_sequence c) <$> hc_envelope_hash c.

Definition identities_of (claims : list HealClaim) : list ReplicaEnvelopeId :=
  bt_set ReplicaEnvelopeId_compare (omap heal_envelope claims).

(** The claims of the peer this node lacks, in whole: those to fetch, and whether some were dropped
    here. *)
Definition wanted_claims (t : HealTables) (local peer_claims : list HealClaim) : list HealClaim * bool :=
  let lacking := List.filter (λ c, negb (bool_decide (place c ∈ map place local)) && is_some (hc_envelope_hash c))
                   peer_claims in
  (List.filter (λ c, negb (claim_tombstoned t (hc_claim_id c))) lacking,
   existsb (λ c, claim_tombstoned t (hc_claim_id c)) lacking).

(** Claims of this node the peer lacks. *)
Definition pushed_claims (local peer_claims : list HealClaim) : list HealClaim :=
  List.filter (λ c, negb (bool_decide (place c ∈ map place peer_claims))) local.

Definition next_ranges (peer : string) (now : Z) (digest : string) (projections : list (string * string))
    (peer_ranges : list ClaimRangeDigest) (n : HealNode) : HealNode * ReplicationHealStep :=
  let '(n, _) := heal_session peer now (λ s, (s, tt)) n in
  if heal_graph_equal digest projections (hn_tables n) then finish_heal now peer true None n
  else
    let differing := differing_ranges (claim_ranges sha256 (projected (hn_tables n))) peer_ranges in
    match differing with
    | _ :: _ =>
        let '(n, _) := heal_session peer now
          (λ s, (set_report (λ r, mkReport (hr_at_unix_ms r) (hr_ranges r + Z.of_nat (length differing)) (hr_subjects r)
                                    (hr_refetched r) (hr_pushed r) (hr_replayed r) (hr_peer_replayed r) (hr_healed r)
                                    (hr_unresolved r)) s, tt)) n in
        (n, Ask (QSubjects (take HEAL_RANGE_LIMIT differing)))
    | [] =>
        let '(n, replayed) := heal_session peer now (λ s, (s, hr_replayed (hs_report s))) n in
        let '(n, replays) := if replayed then (n, false) else replay_graph_for_heal now n in
        let n := if replays
                 then (heal_session peer now
                         (λ s, (set_report (λ r, mkReport (hr_at_unix_ms r) (hr_ranges r) (hr_subjects r) (hr_refetched r)
                                                   (hr_pushed r) true (hr_peer_replayed r) (hr_healed r)
                                                   (hr_unresolved r)) s, tt)) n).1
                 else n in
        if replays && heal_graph_equal digest projections (hn_tables n) then finish_heal now peer true None n
        else
          let '(n, asked) := heal_session peer now
            (λ s, (mkSession (hs_report s) (hs_rounds s) (hs_wanted s) true, hs_asked_replay s)) n in
          if asked
          then finish_heal now peer false
                 (Some ("this node and " +:+ peer +:+ " project the same claims but different graphs")) n
          else (n, Ask QReplay)
    end.

Definition next_subjects (peer : string) (now : Z) (ranges : list ClaimRange) (peer_subjects : list ClaimSubjectDigest)
    (n : HealNode) : HealNode * ReplicationHealStep :=
  let differing := differing_subjects (claim_subjects sha256 (projected (hn_tables n)) ranges) peer_subjects in
  match differing with
  | [] => finish_heal now peer false (Some (changed_while_comparing peer)) n
  | _ =>
      let '(n, _) := heal_session peer now
        (λ s, (set_report (λ r, mkReport (hr_at_unix_ms r) (hr_ranges r) (hr_subjects r + Z.of_nat (length differing))
                                  (hr_refetched r) (hr_pushed r) (hr_replayed r) (hr_peer_replayed r) (hr_healed r)
                                  (hr_unresolved r)) s, tt)) n in
      (n, Ask (QClaims ranges (take HEAL_SUBJECT_LIMIT differing)))
  end.

Definition next_claims (peer : string) (now : Z) (ranges : list ClaimRange) (subjects : list string)
    (peer_claims : list HealClaim) (n : HealNode) : HealNode * ReplicationHealStep :=
  let t := hn_tables n in
  let local := claims_in (projected t) ranges subjects in
  let '(wanted, dropped_here) := wanted_claims t local peer_claims in
  let want := take HEAL_ENVELOPE_LIMIT (identities_of wanted) in
  let push := identities_of (pushed_claims local peer_claims) in
  match want, push with
  | [], [] =>
      finish_heal now peer false
        (Some (if dropped_here
               then "the only claims " +:+ peer +:+ " projects that this node lacks are ones a checkpoint dropped here"
               else changed_while_comparing peer)) n
  | _, _ =>
      let push := held_envelopes t (take HEAL_ENVELOPE_LIMIT push) in
      let '(n, _) := heal_session peer now
        (λ s, (mkSession (hs_report s) (hs_rounds s) wanted (hs_asked_replay s), tt)) n in
      (n, Ask (QSwap push want))
  end.

Definition next_swapped (peer : string) (now : Z) (admitted : Z) (refused : option string)
    (envelopes : list ReplicaEnvelope) (digest : string) (projections : list (string * string)) (n : HealNode) :
    HealNode * ReplicationHealStep :=
  let n := readmit_envelopes peer envelopes n in
  let '(n, wanted) := heal_session peer now
    (λ s, (mkSession (hs_report s) (hs_rounds s) [] (hs_asked_replay s), hs_wanted s)) n in
  let '(refetched, missing) := projected_claims_among (hn_tables n) wanted in
  let '(n, rounds) := heal_session peer now
    (λ s, let r := hs_report s in
          (mkSession (mkReport (hr_at_unix_ms r) (hr_ranges r) (hr_subjects r) (hr_refetched r + refetched)
                        (hr_pushed r + admitted) (hr_replayed r) (hr_peer_replayed r) (hr_healed r) (hr_unresolved r))
             (hs_rounds s + 1) (hs_wanted s) (hs_asked_replay s), (hs_rounds s + 1)%Z)) n in
  if heal_graph_equal digest projections (hn_tables n) then finish_heal now peer true None n
  else
    let reasons :=
      match missing with Some m => ["this node cannot admit " +:+ m +:+ " that " +:+ peer +:+ " projects"] | None => [] end
      ++ match refused with Some r => [peer +:+ " cannot admit " +:+ r +:+ " that this node projects"] | None => [] end in
    if negb (refetched + admitted =? 0)%Z && (rounds <? HEAL_ROUND_LIMIT)%Z then (n, Ask QRanges)
    else
      finish_heal now peer false
        (Some (match reasons with
               | [] => "the graphs of this node and " +:+ peer +:+ " still differ"
               | _ => join "; " reasons
               end)) n.

Definition next_replayed (peer : string) (now : Z) (replayed : bool) (digest : string)
    (projections : list (string * string)) (n : HealNode) : HealNode * ReplicationHealStep :=
  let '(n, _) := heal_session peer now
    (λ s, (set_report (λ r, mkReport (hr_at_unix_ms r) (hr_ranges r) (hr_subjects r) (hr_refetched r) (hr_pushed r)
                              (hr_replayed r) replayed (hr_healed r) (hr_unresolved r)) s, tt)) n in
  if heal_graph_equal digest projections (hn_tables n) then finish_heal now peer true None n
  else
    finish_heal now peer false
      (Some (if replayed
             then "this node and " +:+ peer +:+ " both replayed from nothing and still project different graphs from the same claims"
             else "this node and " +:+ peer +:+ " project the same claims but different graphs, and " +:+ peer
                  +:+ " waits before it replays from nothing again")) n.

Definition heal_next (peer : string) (now : Z) (answer : ReplicationHealAnswer) (n : HealNode) :
    HealNode * ReplicationHealStep :=
  match answer with
  | AFailed message => finish_heal now peer false (Some message) n
  | ARanges digest projections ranges => next_ranges peer now digest projections ranges n
  | ASubjects ranges subjects => next_subjects peer now ranges subjects n
  | AClaims ranges subjects claims => next_claims peer now ranges subjects claims n
  | ASwapped admitted refused envelopes digest projections =>
      next_swapped peer now admitted refused envelopes digest projections n
  | AReplayed replayed digest projections => next_replayed peer now replayed digest projections n
  end.

(** ** The worker's loop *)

(** One question and its answer: when the peer answered it and when the answer was compared, or why
    the peer could not be asked. *)
Record Turn := mkTurn { tn_asked : Z; tn_compared : Z; tn_failed : option string }.

Fixpoint heal_turns (turns : list Turn) (query : ReplicationHealQuery) (me_name peer_name : string)
    (me peer : HealNode) : HealNode * HealNode * option ReplicationHealReport :=
  match turns with
  | [] => (me, peer, None)
  | turn :: turns =>
      let '(peer, answer) :=
        match tn_failed turn with
        | Some message => (peer, AFailed (peer_name +:+ " could not answer: " +:+ message))
        | None => heal_answer me_name (tn_asked turn) query peer
        end in
      let '(me, step) := heal_next peer_name (tn_compared turn) answer me in
      match step with
      | Ask query => heal_turns turns query me_name peer_name me peer
      | Done report => (me, peer, Some report)
      end
  end.

Definition heal (turns : list Turn) (me_name peer_name : string) (me peer : HealNode) :
    HealNode * HealNode * option ReplicationHealReport :=
  heal_turns (take HEAL_QUESTION_LIMIT turns) QRanges me_name peer_name me peer.
End heal.

(** Turns after the report are not taken. *)
Lemma heal_turns_more {hex : HexApi} {graph : GraphApi} sha256 decode a b me_name peer_name : ∀ q me p me' p' report,
  heal_turns sha256 decode a q me_name peer_name me p = (me', p', Some report) →
  heal_turns sha256 decode (a ++ b) q me_name peer_name me p = (me', p', Some report).
Proof.
  induction a as [|turn a IH]; intros q me p me' p' report; cbn [heal_turns app]; [done|].
  destruct (match tn_failed turn with Some _ => _ | None => _ end) as [p1 answer].
  destruct (heal_next _ _ _ _ _ _) as [me1 [q'|r]]; [apply IH|done].
Qed.

(** ** A heal ends *)

Section ends.
Context {hex : HexApi} {graph : GraphApi} (sha256 : list ascii → list ascii) (decode : string → option (list ascii)).
Context (peer : string) (t0 : Z) (Ht0 : (HEAL_SESSION_STALE_MS < t0)%Z).

Local Abbreviation sessions n := (hl_sessions (hn_heal n)).

Definition in_window (now : Z) : Prop := (t0 ≤ now ≤ t0 + HEAL_SESSION_STALE_MS)%Z.

(** The session with the peer, if any, was started in the window and has made so many rounds. *)
Definition session_at (n : HealNode) (rounds : Z) : Prop :=
  match sessions n !! peer with
  | Some s => in_window (hr_at_unix_ms (hs_report s)) ∧ hs_rounds s = rounds
  | None => rounds = 0%Z
  end.

Lemma heal_session_spec {T} now (update : HealSession → HealSession * T) n rounds :
  in_window now → session_at n rounds →
  (∀ s, hr_at_unix_ms (hs_report (update s).1) = hr_at_unix_ms (hs_report s)) →
  ∃ s n', heal_session peer now update n = (n', (update s).2) ∧ hs_rounds s = rounds ∧
          session_at n' (hs_rounds (update s).1) ∧ hn_tables n' = hn_tables n.
Proof.
  intros Hnow Hs Hat. unfold heal_session. unfold session_at in Hs.
  set (s := if (_ <? _)%Z then _ else _).
  assert (Hw : in_window (hr_at_unix_ms (hs_report s)) ∧ hs_rounds s = rounds).
  { unfold s, in_window, sat_sub in *. destruct (sessions n !! peer) as [s0|]; cbn [from_option id].
    - destruct (Z.ltb_spec HEAL_SESSION_STALE_MS (Z.max 0 (now - hr_at_unix_ms (hs_report s0)))); [|done].
      exfalso. unfold HEAL_SESSION_STALE_MS in *. lia.
    - cbn [new_report hr_at_unix_ms hs_report]. destruct (Z.ltb_spec HEAL_SESSION_STALE_MS (Z.max 0 (now - 0))) as [|Hn];
        [by subst rounds|]. exfalso. lia. }
  specialize (Hat s). destruct (update s) as [s' out] eqn:E. exists s. eexists.
  split; [by rewrite E|]. split; [apply Hw|]. rewrite E. cbn [fst] in *. split; [|done].
  unfold session_at. cbn. rewrite lookup_insert_eq. rewrite Hat. split; [apply Hw|done].
Qed.

(** A report, and what finishing a heal leaves behind. *)
Definition reported (healed : bool) (n n' : HealNode) (report : ReplicationHealReport) : Prop :=
  hn_tables n' = hn_tables n ∧ sessions n' !! peer = None ∧ hr_healed report = healed ∧
  (if healed then hr_unresolved report = None else is_Some (hr_unresolved report)).

Lemma finish_heal_spec now healed why n :
  ∃ n' report, finish_heal now peer healed (if healed then None else Some why) n = (n', Done report) ∧
               reported healed n n' report.
Proof. do 2 eexists. split; [done|]. unfold reported. cbn. rewrite lookup_delete_eq. destruct healed; split_and!; eauto. Qed.

(** How many questions are left, with this one and after so many rounds. *)
Definition questions_left (q : ReplicationHealQuery) (rounds : Z) : Z :=
  match q with
  | QRanges => 4 * (HEAL_ROUND_LIMIT - rounds)
  | QSubjects _ => 4 * (HEAL_ROUND_LIMIT - rounds) - 1
  | QClaims _ _ => 4 * (HEAL_ROUND_LIMIT - rounds) - 2
  | QSwap _ _ => 4 * (HEAL_ROUND_LIMIT - rounds) - 3
  | QReplay => 1
  end.

Definition under_limit (rounds : Z) : Prop := (0 ≤ rounds < HEAL_ROUND_LIMIT)%Z.

(** What an answer leads to: a question that leaves fewer, or a report that is true of the digests. *)
Definition leads_on (left : Z) (equal : HealTables → bool) (n : HealNode) (step : ReplicationHealStep) : Prop :=
  match step with
  | Ask q => ∃ rounds, session_at n rounds ∧ under_limit rounds ∧ (questions_left q rounds < left)%Z
  | Done report =>
      sessions n !! peer = None ∧
      if hr_healed report then equal (hn_tables n) = true ∧ hr_unresolved report = None
      else is_Some (hr_unresolved report)
  end.

Lemma unhealed_leads left equal now why n :
  let '(n', step) := finish_heal now peer false (Some why) n in leads_on left equal n' step.
Proof.
  destruct (finish_heal_spec now false why n) as (n' & report & E & _ & Hs & Hh & Hu).
  simpl in E. rewrite E. simpl. by rewrite Hh.
Qed.

Lemma healed_leads left equal now n :
  equal (hn_tables n) = true → let '(n', step) := finish_heal now peer true None n in leads_on left equal n' step.
Proof.
  intros He. destruct (finish_heal_spec now true "" n) as (n' & report & E & Ht & Hs & Hh & Hu).
  simpl in E. rewrite E. simpl. rewrite Hh. by rewrite Ht.
Qed.

Lemma replay_session now n rounds : session_at n rounds → session_at (replay_graph_for_heal now n).1 rounds.
Proof. intros Hs. unfold replay_graph_for_heal. destruct (is_some_and _ _); [done|]. exact Hs. Qed.

Ltac session_step Hnow Hs :=
  match goal with
  | |- context [heal_session peer ?now ?u ?n] =>
      let s := fresh "s" in let n' := fresh "n" in let E := fresh "E" in let Hr := fresh "Hr" in
      let Hs' := fresh "Hs" in let Ht := fresh "Ht" in
      destruct (heal_session_spec now u n _ Hnow Hs) as (s & n' & E & Hr & Hs' & Ht); [done|];
      rewrite E; cbn [fst snd set_report hs_rounds] in *
  end.

Lemma next_ranges_leads now digest projections ranges n rounds :
  in_window now → session_at n rounds → under_limit rounds →
  let '(n', step) := next_ranges sha256 peer now digest projections ranges n in
  leads_on (questions_left QRanges rounds) (heal_graph_equal digest projections) n' step.
Proof.
  intros Hnow Hs Hr. unfold next_ranges. session_step Hnow Hs.
  rewrite Hr0 in Hs0. destruct (heal_graph_equal digest projections (hn_tables n0)) eqn:Eq; [by apply healed_leads|].
  assert (Hleft : (1 < questions_left QRanges rounds)%Z) by (unfold under_limit, HEAL_ROUND_LIMIT in *; cbn; unfold HEAL_ROUND_LIMIT; lia).
  destruct (differing_ranges _ _) as [|r rs].
  - session_step Hnow Hs0. rewrite Hr1 in Hs1.
    set (replays := if hr_replayed (hs_report s0) then (n1, false) else replay_graph_for_heal now n1).
    assert (Hp : session_at replays.1 rounds).
    { unfold replays. destruct (hr_replayed _); [done|]. by apply replay_session. }
    destruct replays as [n2 replayed]. cbn [fst] in Hp.
    set (n3 := if replayed then _ else _).
    assert (Hp3 : session_at n3 rounds).
    { unfold n3. destruct replayed; [|done]. session_step Hnow Hp. by rewrite Hr2 in Hs2. }
    destruct (replayed && heal_graph_equal digest projections (hn_tables n3)) eqn:Eq3.
    { apply andb_true_iff in Eq3 as [_ Eq3]. by apply healed_leads. }
    session_step Hnow Hp3. destruct (hs_asked_replay s1); [apply unhealed_leads|].
    exists rounds. rewrite Hr2 in Hs2. by split_and!.
  - session_step Hnow Hs0. exists rounds. rewrite Hr1 in Hs1. split_and!; [done..|]. cbn. lia.
Qed.

Lemma next_subjects_leads equal now rs ranges subjects n rounds :
  in_window now → session_at n rounds → under_limit rounds →
  let '(n', step) := next_subjects sha256 peer now ranges subjects n in
  leads_on (questions_left (QSubjects rs) rounds) equal n' step.
Proof.
  intros Hnow Hs Hr. unfold next_subjects. destruct (differing_subjects _ _); [apply unhealed_leads|].
  session_step Hnow Hs. exists rounds. rewrite Hr0 in Hs0. split_and!; [done..|]. cbn. lia.
Qed.

Lemma next_claims_leads equal now qr qs ranges subjects claims n rounds :
  in_window now → session_at n rounds → under_limit rounds →
  let '(n', step) := next_claims peer now ranges subjects claims n in
  leads_on (questions_left (QClaims qr qs) rounds) equal n' step.
Proof.
  intros Hnow Hs Hr. unfold next_claims. destruct (wanted_claims _ _ _) as [wanted dropped].
  destruct (take _ (identities_of wanted)) as [|w want].
  1: destruct (identities_of (pushed_claims _ _)) as [|p push]; [apply unhealed_leads|].
  all: session_step Hnow Hs; exists rounds; rewrite Hr0 in Hs0; split_and!; [done..|]; cbn; lia.
Qed.

Lemma readmit_session envelopes n rounds :
  session_at n rounds → session_at (readmit_envelopes sha256 decode peer envelopes n) rounds.
Proof. by destruct envelopes. Qed.

Lemma next_swapped_leads now push want admitted refused envelopes digest projections n rounds :
  in_window now → session_at n rounds → under_limit rounds →
  let '(n', step) := next_swapped sha256 decode peer now admitted refused envelopes digest projections n in
  leads_on (questions_left (QSwap push want) rounds) (heal_graph_equal digest projections) n' step.
Proof.
  intros Hnow Hs Hr. unfold next_swapped.
  pose proof (readmit_session envelopes n rounds Hs) as Hs'. session_step Hnow Hs'.
  destruct (projected_claims_among _ _) as [refetched missing]. rewrite Hr0 in Hs0. session_step Hnow Hs0.
  destruct (heal_graph_equal digest projections (hn_tables n1)) eqn:Eq; [by apply healed_leads|].
  destruct (negb _ && (_ <? _)%Z) eqn:Ec; [|apply unhealed_leads].
  apply andb_true_iff in Ec as [_ Ec%Z.ltb_lt]. exists (rounds + 1)%Z. rewrite Hr1 in *.
  unfold under_limit in *. split_and!; [done|lia|done|]. cbn. lia.
Qed.

Lemma next_replayed_leads now replayed digest projections n rounds :
  in_window now → session_at n rounds →
  let '(n', step) := next_replayed peer now replayed digest projections n in
  leads_on (questions_left QReplay rounds) (heal_graph_equal digest projections) n' step.
Proof.
  intros Hnow Hs. unfold next_replayed. session_step Hnow Hs.
  destruct (heal_graph_equal digest projections (hn_tables n0)) eqn:Eq; [by apply healed_leads|apply unhealed_leads].
Qed.

(** Whether a node's graph is the one of the given node, by the digests a heal compares. *)
Definition graph_of (n : HealNode) : HealTables → bool :=
  heal_graph_equal (legacy_graph_digest (hn_tables n)) (projection_digests (hn_tables n)).

Lemma turn_leads me_name asked now q me p rounds :
  in_window now → session_at me rounds → under_limit rounds →
  let '(p', answer) := heal_answer sha256 decode me_name asked q p in
  let '(me', step) := heal_next sha256 decode peer now answer me in
  leads_on (questions_left q rounds) (graph_of p') me' step.
Proof.
  intros Hnow Hs Hr. destruct q as [|ranges|ranges subjects|push want|]; cbn [heal_answer].
  - by apply next_ranges_leads.
  - by apply next_subjects_leads.
  - by apply next_claims_leads.
  - destruct (envelope_claim_states _ _) as [admitted refused]. by apply next_swapped_leads.
  - destruct (replay_graph_for_heal asked p) as [p' replayed]. by apply next_replayed_leads.
Qed.

Lemma questions_left_pos q rounds : under_limit rounds → (1 ≤ questions_left q rounds)%Z.
Proof. unfold under_limit. destruct q; cbn; lia. Qed.

Lemma heal_turns_end me_name turns : ∀ q me p rounds,
  session_at me rounds → under_limit rounds → Forall (λ turn, in_window (tn_compared turn)) turns →
  (questions_left q rounds ≤ Z.of_nat (length turns))%Z →
  ∃ me' p' report, heal_turns sha256 decode turns q me_name peer me p = (me', p', Some report) ∧
    leads_on 0 (graph_of p') me' (Done report).
Proof.
  induction turns as [|turn turns IH]; intros q me p rounds Hs Hr Hw Hl.
  { pose proof (questions_left_pos q rounds Hr). cbn [length] in Hl. lia. }
  apply Forall_cons_iff in Hw as [Hnow Hw]. cbn [heal_turns].
  destruct (tn_failed turn) as [why|].
  { pose proof (unhealed_leads 0 (graph_of p) (tn_compared turn) (peer +:+ " could not answer: " +:+ why) me) as Hl'.
    cbn [heal_next]. destruct (finish_heal _ _ _ _ _) as [me' [q'|report]] eqn:E; [done|]. by exists me', p, report. }
  pose proof (turn_leads me_name (tn_asked turn) (tn_compared turn) q me p rounds Hnow Hs Hr) as Hl'.
  destruct (heal_answer _ _ _ _ _ _) as [p1 answer]. destruct (heal_next _ _ _ _ _) as [me1 [q'|report]].
  - destruct Hl' as (rounds' & Hs' & Hr' & Hq). apply (IH q' me1 p1 rounds' Hs' Hr' Hw). cbn [length] in Hl. lia.
  - by exists me1, p1, report.
Qed.
End ends.

(** C17. A heal that starts with no session left over and whose answers all come within the ten minutes
    a session lasts ends with a report after at most 32 questions, whatever the peer's claims and graph
    are and whichever questions fail, and so within the worker's limit of 48. The session is gone
    then; a heal reported as healed left this node with the peer's graph, and any other has a reason. *)
Theorem heals_end {hex : HexApi} {graph : GraphApi} sha256 decode turns me_name peer_name me peer t0 :
  hl_sessions (hn_heal me) !! peer_name = None → (HEAL_SESSION_STALE_MS < t0)%Z →
  Forall (λ turn, t0 ≤ tn_compared turn ≤ t0 + HEAL_SESSION_STALE_MS)%Z turns → (32 ≤ length turns)%nat →
  ∃ me' peer' report,
    heal sha256 decode turns me_name peer_name me peer = (me', peer', Some report) ∧
    heal sha256 decode (take 32 turns) me_name peer_name me peer = (me', peer', Some report) ∧
    hl_sessions (hn_heal me') !! peer_name = None ∧
    if hr_healed report
    then heal_graph_equal (legacy_graph_digest (hn_tables peer')) (projection_digests (hn_tables peer')) (hn_tables me')
         = true ∧ hr_unresolved report = None
    else is_Some (hr_unresolved report).
Proof.
  intros Hs Ht Hw Hl. unfold heal. rewrite take_take.
  assert (H32 : ∃ me' peer' report,
            heal_turns sha256 decode (take 32 turns) QRanges me_name peer_name me peer = (me', peer', Some report) ∧
            leads_on peer_name t0 0 (graph_of peer') me' (Done report)).
  { apply (heal_turns_end sha256 decode peer_name t0 Ht me_name (take 32 turns) QRanges me peer 0).
    - unfold session_at. by rewrite Hs.
    - unfold under_limit, HEAL_ROUND_LIMIT. lia.
    - by apply Forall_take.
    - rewrite length_take, Nat.min_l by done. unfold questions_left, HEAL_ROUND_LIMIT. lia. }
  destruct H32 as (me' & peer' & report & E & Hd). exists me', peer', report. split; [|split; [exact E|exact Hd]].
  replace (take HEAL_QUESTION_LIMIT turns) with (take 32 turns ++ drop 32 (take HEAL_QUESTION_LIMIT turns)).
  - by apply heal_turns_more.
  - rewrite <- (take_drop 32 (take HEAL_QUESTION_LIMIT turns)) at 2. rewrite take_take. f_equal.
Qed.

(** ** Backing off *)

Inductive sync_event :=
| Compared (equal : bool) (now : Z)
| Retired
| Asked (now : Z) (now_or_never : bool)
| Finished (report : ReplicationHealReport).

(** What an event makes of the progress with a peer and of the times heals started, the latest first. *)
Definition sync_turn (heal_after_ms : Z) (st : PeerSyncProgress * list Z) (e : sync_event) :
    PeerSyncProgress * list Z :=
  match e with
  | Compared equal now => (compare_graphs equal now st.1, st.2)
  | Retired => (retire_comparison st.1, st.2)
  | Asked now now_or_never =>
      let '(due, p) := heal_due heal_after_ms now now_or_never st.1 in (p, if due : bool then now :: st.2 else st.2)
  | Finished report => (finish_progress report st.1, st.2)
  end.

Definition sync_turns (heal_after_ms : Z) (st : PeerSyncProgress * list Z) (es : list sync_event) :
    PeerSyncProgress * list Z := fold_left (sync_turn heal_after_ms) es st.

(** A heal that neither healed, moved a claim nor replayed. *)
Definition fruitless (r : ReplicationHealReport) : bool :=
  negb (hr_healed r) && (hr_refetched r + hr_pushed r =? 0)%Z && negb (hr_replayed r).

(** Events after which the graphs still differ: comparisons that find a difference, questions whether a
    heal is due, and fruitless heals. *)
Definition still_differs (e : sync_event) : bool :=
  match e with
  | Compared equal _ => negb equal
  | Retired => false
  | Asked _ _ => true
  | Finished report => fruitless report
  end.

Definition heals_in (es : list sync_event) : nat :=
  length (List.filter (λ e, match e with Finished _ => true | _ => false end) es).

(** The least wait after so many fruitless heals. *)
Definition least_wait (k : nat) : Z := Z.min (HEAL_RETRY_MS * 2 ^ Z.of_nat k) HEAL_BACKOFF_MAX_MS.

Lemma heal_due_spec after now non p p' :
  heal_due after now non p = (true, p') →
  is_Some (ps_graph_differs_since_unix_ms p) ∧ ps_heal_started_at_unix_ms p' = Some now ∧
  ps_heal_backoff_ms p' = ps_heal_backoff_ms p ∧
  (∀ at_, ps_heal_started_at_unix_ms p = Some at_ → (at_ + Z.max (ps_heal_backoff_ms p) HEAL_RETRY_MS ≤ now)%Z) ∧
  (non = false → ∀ since, ps_graph_differs_since_unix_ms p = Some since → 0 < after → since + after ≤ now)%Z.
Proof.
  unfold heal_due. destruct (ps_graph_differs_since_unix_ms p) as [since|]; [|done].
  destruct (negb non && _) eqn:E1; [done|]. destruct (is_some_and _ _) eqn:E2; [done|]. intros [= <-]. cbn.
  split_and!; [done..| |].
  - intros at_ Ha. rewrite Ha in E2. apply Z.ltb_ge in E2. unfold sat_sub, HEAL_RETRY_MS in *. lia.
  - intros -> s [= <-] Ha. apply Z.ltb_ge in E1. unfold sat_sub in *. lia.
Qed.

Lemma heal_due_false after now non p p' : heal_due after now non p = (false, p') → p' = p.
Proof.
  unfold heal_due. destruct (ps_graph_differs_since_unix_ms p) as [since|]; [|congruence].
  destruct (negb non && _); [congruence|]. destruct (is_some_and _ _); congruence.
Qed.

Definition spaced (starts : list Z) : Prop := StronglySorted (λ a b, b + HEAL_RETRY_MS ≤ a)%Z starts.

Lemma sync_turns_spaced after es p starts :
  spaced starts → head starts = ps_heal_started_at_unix_ms p →
  let '(p', starts') := sync_turns after (p, starts) es in
  spaced starts' ∧ head starts' = ps_heal_started_at_unix_ms p'.
Proof.
  revert p starts. induction es as [|e es IH]; intros p starts Hs Hh; [done|].
  unfold sync_turns. cbn [fold_left]. fold (sync_turns after (sync_turn after (p, starts) e) es).
  destruct e as [[] now| |now non|report]; cbn [sync_turn fst snd]; try by apply IH.
  destruct (heal_due after now non p) as [[] p'] eqn:E; [|apply heal_due_false in E as ->; by apply IH].
  apply heal_due_spec in E as (_ & Hst & _ & Hat & _). apply IH; [|by rewrite Hst].
  constructor; [done|]. apply List.Forall_forall. intros b Hb%list_elem_of_In.
  destruct starts as [|a starts]; [by apply elem_of_nil in Hb|]. symmetry in Hh. specialize (Hat a Hh).
  inversion Hs as [|? ? _ Hf]; subst. rewrite List.Forall_forall in Hf.
  apply elem_of_cons in Hb as [->|Hb]; [|apply list_elem_of_In, Hf in Hb]; unfold HEAL_RETRY_MS in *; lia.
Qed.

Lemma least_wait_S k b : (least_wait k ≤ Z.max b HEAL_RETRY_MS)%Z →
  (least_wait (S k) ≤ Z.min (Z.max b HEAL_RETRY_MS * 2) HEAL_BACKOFF_MAX_MS)%Z.
Proof.
  unfold least_wait. rewrite Nat2Z.inj_succ, Z.pow_succ_r by lia. unfold HEAL_RETRY_MS, HEAL_BACKOFF_MAX_MS.
  pose proof (Z.pow_pos_nonneg 2 (Z.of_nat k) ltac:(lia) ltac:(lia)). lia.
Qed.

Lemma sync_turns_backoff after es p starts k :
  forallb still_differs es = true → (least_wait k ≤ Z.max (ps_heal_backoff_ms p) HEAL_RETRY_MS)%Z →
  (least_wait (k + heals_in es) ≤ Z.max (ps_heal_backoff_ms (sync_turns after (p, starts) es).1) HEAL_RETRY_MS)%Z.
Proof.
  revert p starts k. induction es as [|e es IH]; intros p starts k Hd Hk; [by rewrite Nat.add_0_r|].
  cbn [forallb] in Hd. apply andb_true_iff in Hd as [He Hd].
  unfold sync_turns. cbn [fold_left]. fold (sync_turns after (sync_turn after (p, starts) e) es).
  destruct e as [[] now| |now non|report]; cbn [sync_turn fst snd still_differs heals_in] in *; try done.
  - by apply (IH _ _ k).
  - destruct (heal_due after now non p) as [[] p'] eqn:E; [|apply heal_due_false in E as ->; by apply (IH _ _ k)].
    apply heal_due_spec in E as (_ & _ & Hb & _). apply (IH _ _ k); [done|]. by rewrite Hb.
  - unfold heals_in. simpl List.filter. cbn [length]. rewrite Nat.add_succ_r, <- Nat.add_succ_l. apply (IH _ _ (S k)); [done|].
    apply andb_true_iff in He as [[Hh Hm]%andb_true_iff Hr]. unfold finish_progress.
    apply negb_true_iff in Hh, Hr. rewrite Hh, Hm, Hr. cbn. apply least_wait_S in Hk. lia.
Qed.

(** Heals with one peer are rationed: whatever comparisons, retirements and reports come between,
    each starts at least a minute after the one before it, and after [k] heals in a row that changed
    nothing, with the graphs differing throughout, the next starts at least [2^k] minutes, or an hour,
    after the last. No heal starts while the graphs are not known to differ. *)
Theorem heals_are_rationed heal_after_ms before differing now now_or_never :
  let '(_, starts) := sync_turns heal_after_ms (default_progress, []) before in
  spaced starts ∧
  (forallb still_differs differing = true →
   let '(p, starts') := sync_turns heal_after_ms (default_progress, []) (before ++ differing) in
   ∀ p', heal_due heal_after_ms now now_or_never p = (true, p') →
     is_Some (ps_graph_differs_since_unix_ms p) ∧
     ∀ last, head starts' = Some last → (last + Z.max HEAL_RETRY_MS (least_wait (heals_in differing)) ≤ now)%Z).
Proof.
  assert (H0 : spaced []) by constructor.
  pose proof (sync_turns_spaced heal_after_ms before default_progress [] H0 eq_refl) as H1.
  pose proof (sync_turns_spaced heal_after_ms (before ++ differing) default_progress [] H0 eq_refl) as H2.
  assert (Ha : sync_turns heal_after_ms (default_progress, []) (before ++ differing)
               = sync_turns heal_after_ms (sync_turns heal_after_ms (default_progress, []) before) differing)
    by apply fold_left_app.
  destruct (sync_turns heal_after_ms (default_progress, []) before) as [p0 starts0]. destruct H1 as [Hs _].
  split; [done|]. intros Hd. rewrite Ha in *.
  pose proof (sync_turns_backoff heal_after_ms differing p0 starts0 0 Hd) as Hb.
  destruct (sync_turns heal_after_ms (p0, starts0) differing) as [p starts']. destruct H2 as [_ Hh].
  intros p' Hdue%heal_due_spec. destruct Hdue as (Hsome & _ & _ & Hat & _). split; [done|].
  intros last Hl. rewrite Hh in Hl. specialize (Hat last Hl). cbn [fst Nat.add] in Hb.
  specialize (Hb ltac:(unfold least_wait, HEAL_RETRY_MS, HEAL_BACKOFF_MAX_MS; simpl; lia)). lia.
Qed.

(** ** The first sync *)

(** What happens to the record of a first sync. A heal finishes with a reason unless it healed. *)
Inductive first_sync_step {graph : GraphApi} : option ReplicationFirstSync → option ReplicationFirstSync → Prop :=
| fs_begin now sponsor f : first_sync_step f (Some (begin_first_sync now sponsor))
| fs_log now peer envelopes authority f : first_sync_step f (observe_first_sync_log now peer envelopes authority f)
| fs_compare now peer envelopes mine theirs f :
    first_sync_step f (observe_first_sync now peer (str_eqb theirs mine) envelopes mine theirs f).2
| fs_finish now peer healed why t f :
    first_sync_step f (finish_first_sync now peer healed (if healed then None else Some why) t <$> f).

(** What the record says in each state. *)
Definition first_sync_ok (f : ReplicationFirstSync) : Prop :=
  (fs_state f = "syncing" ∧ fs_ended_at_unix_ms f = None ∧ fs_authority_digest f = None) ∨
  (fs_state f = "failed" ∧ is_Some (fs_ended_at_unix_ms f) ∧ fs_authority_digest f = None ∧ is_Some (fs_message f)) ∨
  (fs_state f = "verified" ∧ is_Some (fs_ended_at_unix_ms f) ∧
   ((is_Some (fs_authority_digest f) ∧ fs_graph_digest f = None) ∨
    (fs_authority_digest f = None ∧ is_Some (fs_graph_digest f) ∧ fs_peer_graph_digest f = fs_graph_digest f))).

Lemma reopen_ok f : first_sync_ok f → first_sync_ok (reopen f) ∧ fs_authority_digest (reopen f) = None.
Proof.
  intros H. unfold reopen. destruct (fs_authority_digest f) eqn:E; [|done]. split; [|done]. left. done.
Qed.

Lemma first_sync_step_ok {graph : GraphApi} f f' :
  first_sync_step f f' → (∀ r, f = Some r → first_sync_ok r) → ∀ r, f' = Some r → first_sync_ok r.
Proof.
  intros [now sponsor f0|now peer n a f0|now peer n mine theirs f0|now peer healed why t f0] Hok r E.
  - injection E as <-. by left.
  - destruct f0 as [g|]; [|done]. specialize (Hok g eq_refl). cbn in E.
    destruct (str_eqb _ _ || _); injection E as <-; [|done]. right; right. split_and!; [done|by eexists|].
    left. split; [by eexists|done].
  - destruct f0 as [g|]; [|done]. specialize (Hok g eq_refl). cbn [observe_first_sync] in E.
    destruct (reopen_ok g Hok) as [Hr Ha].
    destruct ((str_eqb (fs_state (reopen g)) "syncing" || _) && _) eqn:E1.
    { apply andb_true_iff in E1 as [_ ->%str_eqb_true]. injection E as <-. right; right. cbn.
      split_and!; [done|by eexists|]. right. split_and!; [done|by eexists|done]. }
    destruct (str_eqb (fs_state (reopen g)) "syncing" && _) eqn:E2; injection E as <-; [|done].
    apply andb_true_iff in E2 as [Es%str_eqb_true _].
    destruct Hr as [(? & ? & ?)|[(? & _)|(? & _)]]; [left; done|congruence|congruence].
  - destruct f0 as [g|]; [|done]. specialize (Hok g eq_refl). injection E as <-. unfold finish_first_sync.
    destruct (str_eqb (fs_state g) "syncing" && fs_healed g) eqn:E; [|done].
    apply andb_true_iff in E as [Es%str_eqb_true _].
    destruct Hok as [(? & ? & ?)|[(? & _)|(? & _)]]; [|congruence|congruence]. right. destruct healed.
    + right. cbn. split_and!; [done|by eexists|]. right. split_and!; [done|by eexists|done].
    + left. cbn. split_and!; [done|by eexists|done|by eexists].
Qed.

(** Whatever exchanges, comparisons and heals a joined node goes through, its record of the first
    sync is in one of three states and says what they mean: while syncing it has not ended; failed
    has an end and a reason; verified has an end, and either the two graph digests it compared are
    the same one or, between builds that cannot be compared, only the log was. *)
Theorem first_sync_says_what_it_saw {graph : GraphApi} f r :
  rtc first_sync_step None f → f = Some r → first_sync_ok r.
Proof.
  intros Hr. revert r. pattern f. eapply rtc_ind_r; [| |exact Hr]; [done|].
  intros g g' _ Hs IH. by eapply first_sync_step_ok.
Qed.

(** ** Witnesses *)

#[local] Instance counting_graph : GraphApi := {|
  admit_backlog t := t;
  replay_graph t := t;
  legacy_graph_digest t := u_to_string (Z.of_nat (length (ht_claims t)));
  graph_digest t := u_to_string (Z.of_nat (length (ht_claims t)));
  projection_digests t := []
|}.

Definition heal_node (claims : list ClaimRow) : HealNode :=
  mkHealNode (mkHealTables claims [] [] [] []) (mkHealState None 0 ∅) ∅ None HEAL_REPLAY_BACKOFF_MS.

Definition row_one : ClaimRow := mkClaimRow "c1" "agent/x" "b1" "host/a" 5.
Definition turns_32 : list Turn := replicate 32 (mkTurn 1000000 1000000 None).

Lemma heals_end_witness :
  ∃ me' peer' report,
    heal (hex := lower_hex) (λ x, x) (λ _, None) turns_32 "a" "b" (heal_node []) (heal_node [row_one])
    = (me', peer', Some report) ∧
    hr_unresolved report = Some (changed_while_comparing "b").
Proof.
  destruct (heals_end (hex := lower_hex) (λ x, x) (λ _, None) turns_32 "a" "b" (heal_node []) (heal_node [row_one])
              1000000) as (me' & peer' & report & E & _).
  - done.
  - done.
  - unfold turns_32. repeat constructor; vm_compute; congruence.
  - done.
  - exists me', peer', report. split; [exact E|]. vm_compute in E. by injection E as <- <- <-.
Defined.

Lemma heals_are_rationed_witness :
  let r := mkReport 0 1 1 0 0 false false false (Some "refused") in
  let '(p, _) := sync_turns 60000 (default_progress, []) [Compared false 0; Asked 60000 false; Finished r] in
  (heal_due 60000 200000 false p).1 = true ∧ (60000 + Z.max HEAL_RETRY_MS (least_wait 1) ≤ 200000)%Z.
Proof.
  intros r.
  destruct (heals_are_rationed 60000 [Compared false 0; Asked 60000 false] [Finished r] 200000 false) as [_ H].
  specialize (H eq_refl). cbn in *. split; [done|]. by eapply (proj2 (H _ eq_refl) 60000%Z).
Defined.

Lemma first_sync_witness :
  let f := observe_first_sync_log 5 "b" 3 "d" (Some (begin_first_sync 1 "b")) in
  ∃ r, f = Some r ∧ first_sync_ok r.
Proof.
  intros f. eexists. split; [done|]. apply (first_sync_says_what_it_saw f); [|done].
  eapply rtc_l; [apply (fs_begin 1 "b")|]. apply rtc_once. apply fs_log.
Defined.

(** ** What the range limit hides *)

(** A peer with a claim in each of 65 ranges, of which this node dropped the first 64 and lacks the
    last. *)
Definition nth_writer (i : nat) : string := "w" +:+ (if (i <? 10)%nat then "0" else "") +:+ pretty i.
Definition nth_row (i : nat) : ClaimRow := mkClaimRow ("c" +:+ pretty i) "agent/x" ("b" +:+ pretty i) (nth_writer i) 1.
Definition nth_envelope (i : nat) : EnvelopeRow :=
  mkEnvelopeRow (mkReplicaEnvelope (nth_writer i) 1 None ("e" +:+ pretty i) 0 "" None None) (Some ("b" +:+ pretty i))
    "b" "validated".

Definition untrimmed_peer : HealNode :=
  mkHealNode (mkHealTables (map nth_row (seq 0 65)) (map nth_envelope (seq 0 65)) [] [] [])
    (mkHealState None 0 ∅) ∅ None HEAL_REPLAY_BACKOFF_MS.
Definition trimmed_node : HealNode :=
  mkHealNode (mkHealTables [] [] [] (map (λ i, "c" +:+ pretty i) (seq 0 64)) [])
    (mkHealState None 0 ∅) ∅ None HEAL_REPLAY_BACKOFF_MS.

(** A heal asks about the first 64 ranges that differ. When all of those differ only by claims a
    checkpoint dropped here, it ends there and reports that no other claim is lacking, although the
    65th range has one. *)
Theorem dropped_ranges_hide_a_difference :
  (match heal (hex := lower_hex) (λ x, x) (λ _, None) turns_32 "a" "b" trimmed_node untrimmed_peer with
  | (_, _, Some report) =>
      hr_unresolved report
      = Some "the only claims b projects that this node lacks are ones a checkpoint dropped here"
  | _ => False
  end) ∧
  "c64" ∈ map hc_claim_id (projected (hn_tables untrimmed_peer)) ∧
  "c64" ∉ map hc_claim_id (projected (hn_tables trimmed_node)) ∧
  claim_tombstoned (hn_tables trimmed_node) "c64" = false.
Proof.
  split_and!; [by vm_compute| | |by vm_compute]; apply (bool_decide_eq_true _); by vm_compute.
Qed.

(** A first comparison that differs and a second that does not leave a first sync that says the graphs
    matched only after a heal, though none was made. *)
Theorem healed_without_a_heal :
  let f := Some (begin_first_sync 1 "b") in
  let differs := (observe_first_sync 2 "b" false 3 "x" "y" f).2 in
  let equal := (observe_first_sync 3 "b" true 3 "x" "x" differs).2 in
  fs_state <$> equal = Some "verified" ∧ fs_healed <$> equal = Some true.
Proof. by split. Qed.
