(* ===== verification/JoinCode.v ===== *)
(** * Join codes

    Models [crates/smallclaims/src/fleet/code.rs]: the record a join code carries, its binary
    encoding with a checksum, and the decoder with its reader. Base32 and SHA-256 come from other
    crates and are parameters, with the behaviour their documentation states as hypotheses: decoding
    inverts encoding, the alphabet is [A-Z2-7], and a digest has 32 bytes. *)

From Stdlib Require Import Ascii.
From S2P Require Import Prelude Text Bytes Utf8.

Definition PREFIX : string := "stj1-".
Definition VERSION : Z := 1.
Definition FLAG_MIGRATE : Z := 1.

Inductive CodeEndpoint :=
| Tailscale (address : string)
| Fabric (node protocol : string)
| Loopback (address : string).

Record JoinCode := mkJoinCode {
  fleet_id : list ascii;
  invite : list ascii;
  token : list ascii;
  fingerprint : list ascii;
  expires_at : Z;
  name : option string;
  migrate : bool;
  endpoints : list CodeEndpoint
}.

(** Fallible steps, with the source's messages. *)
Abbreviation outcome := (result string).

Definition damaged : string := "this join code is damaged".

(** ** The encoder *)

Definition put_text (record : list ascii) (text : string) : outcome (list ascii) :=
  if (Z.of_nat (String.length text) <=? u16_max)%Z
  then Ok (record ++ be_bytes 2 (Z.of_nat (String.length text)) ++ bytes_of text)
  else Err "a join code field is too long".

Definition put_endpoint (record : list ascii) (e : CodeEndpoint) : outcome (list ascii) :=
  match e with
  | Tailscale address => put_text (record ++ [byte_of 1]) address
  | Fabric node protocol =>
      let? record := put_text (record ++ [byte_of 2]) node in
      put_text record protocol
  | Loopback address => put_text (record ++ [byte_of 3]) address
  end.

Fixpoint put_endpoints (record : list ascii) (l : list CodeEndpoint) : outcome (list ascii) :=
  match l with
  | [] => Ok record
  | e :: l' => let? record := put_endpoint record e in put_endpoints record l'
  end.

Definition put_name (record : list ascii) (name : option string) : outcome (list ascii) :=
  match name with
  | Some name =>
      if (Z.of_nat (String.length name) <=? u8_max)%Z
      then Ok (record ++ [byte_of (Z.of_nat (String.length name))] ++ bytes_of name)
      else Err "the pinned name is too long"
  | None => Ok (record ++ [byte_of 0])
  end.

Definition fixed_record (c : JoinCode) : list ascii :=
  [byte_of VERSION; byte_of (if migrate c then FLAG_MIGRATE else 0)]
  ++ fleet_id c ++ invite c ++ token c ++ fingerprint c ++ be_bytes 8 (expires_at c).

Definition encode_record (c : JoinCode) : outcome (list ascii) :=
  let? record := put_name (fixed_record c) (name c) in
  if (Z.of_nat (length (endpoints c)) <=? u8_max)%Z
  then put_endpoints (record ++ [byte_of (Z.of_nat (length (endpoints c)))]) (endpoints c)
  else Err "too many endpoints for a join code".

(** ** The reader *)

Definition read_take (length_ : nat) (bytes : list ascii) : outcome (list ascii * list ascii) :=
  if decide (length_ ≤ length bytes) then Ok (take length_ bytes, drop length_ bytes) else Err damaged.

Definition read_byte (bytes : list ascii) : outcome (Z * list ascii) :=
  let? (taken, rest) := read_take 1 bytes in Ok (be_value taken, rest).

Definition read_utf8 (length_ : nat) (bytes : list ascii) : outcome (string * list ascii) :=
  let? (taken, rest) := read_take length_ bytes in
  if utf8_valid taken then Ok (str_of taken, rest) else Err damaged.

Definition read_text (bytes : list ascii) : outcome (string * list ascii) :=
  let? (len, rest) := read_take 2 bytes in read_utf8 (Z.to_nat (be_value len)) rest.

Definition read_endpoint (bytes : list ascii) : outcome (CodeEndpoint * list ascii) :=
  let? (kind, bytes) := read_byte bytes in
  if (kind =? 1)%Z then
    let? (address, bytes) := read_text bytes in Ok (Tailscale address, bytes)
  else if (kind =? 2)%Z then
    let? (node, bytes) := read_text bytes in
    let? (protocol, bytes) := read_text bytes in Ok (Fabric node protocol, bytes)
  else if (kind =? 3)%Z then
    let? (address, bytes) := read_text bytes in Ok (Loopback address, bytes)
  else Err ("this join code has an unknown endpoint kind " +:+ u_to_string kind).

Fixpoint read_endpoints (count : nat) (bytes : list ascii) : outcome (list CodeEndpoint * list ascii) :=
  match count with
  | O => Ok ([], bytes)
  | S count' =>
      let? (e, bytes) := read_endpoint bytes in
      let? (l, bytes) := read_endpoints count' bytes in
      Ok (e :: l, bytes)
  end.

Definition read_name (bytes : list ascii) : outcome (option string * list ascii) :=
  let? (len, bytes) := read_byte bytes in
  if (len =? 0)%Z then Ok (None, bytes)
  else let? (text, bytes) := read_utf8 (Z.to_nat len) bytes in Ok (Some text, bytes).

Definition decode_record (record : list ascii) : outcome JoinCode :=
  let? (version, bytes) := read_byte record in
  if negb (version =? VERSION)%Z
  then Err ("this join code needs a newer st (code version " +:+ u_to_string version +:+ ")")
  else
    let? (flags, bytes) := read_byte bytes in
    let? (fleet_id, bytes) := read_take 16 bytes in
    let? (invite, bytes) := read_take 16 bytes in
    let? (token, bytes) := read_take 16 bytes in
    let? (fingerprint, bytes) := read_take 16 bytes in
    let? (expires, bytes) := read_take 8 bytes in
    let? (name, bytes) := read_name bytes in
    let? (count, bytes) := read_byte bytes in
    let? (endpoints, bytes) := read_endpoints (Z.to_nat count) bytes in
    if negb (bool_decide (bytes = [])) then Err damaged
    else Ok (mkJoinCode fleet_id invite token fingerprint (be_value expires) name
               (negb (Z.land flags FLAG_MIGRATE =? 0)%Z) endpoints).

(** [compact]: the text without its white space characters. *)
Definition compact_text (text : string) : list ascii :=
  concat (List.filter (λ c, negb (is_whitespace c)) (chars (bytes_of text))).

(** [eq_ignore_ascii_case]. *)
Definition eq_ignore_case (a b : list ascii) : bool := bool_decide (map to_lower a = map to_lower b).

Section code.
Context (sha256 : list ascii → list ascii).
Context (b32_encode : list ascii → string) (b32_decode : list ascii → option (list ascii)).

Definition encode (c : JoinCode) : outcome string :=
  let? record := encode_record c in
  Ok (PREFIX +:+ str_of (map to_lower (bytes_of
        (b32_encode (record ++ take 4 (sha256 record)))))).

(** [decode]. The prefix is compared on the first five bytes; when they are ASCII, the sixth
    byte starts a character, so [str::get] returns them. *)
Definition decode (text : string) : outcome JoinCode :=
  let compact := compact_text text in
  if negb (eq_ignore_case (take 5 compact) (bytes_of PREFIX)) then
    Err "this is not an st fleet join code"
  else
    match b32_decode (map to_upper (drop 5 compact)) with
    | None => Err damaged
    | Some bytes =>
        if negb (4 <? length bytes) then Err damaged
        else
          let record := take (length bytes - 4) bytes in
          let checksum := drop (length bytes - 4) bytes in
          if negb (bool_decide (take 4 (sha256 record) = checksum))
          then Err "this join code is damaged: check that it was copied whole"
          else decode_record record
    end.
End code.

(** ** What a code must satisfy to be encoded

    A pinned name is not empty: the encoder writes an empty name and no name alike. *)

Definition text_ok (limit : Z) (s : string) : Prop :=
  (Z.of_nat (String.length s) ≤ limit)%Z ∧ utf8_valid (bytes_of s) = true.

Definition endpoint_ok (e : CodeEndpoint) : Prop :=
  match e with
  | Tailscale address => text_ok u16_max address
  | Fabric node protocol => text_ok u16_max node ∧ text_ok u16_max protocol
  | Loopback address => text_ok u16_max address
  end.

Definition JoinCode_ok (c : JoinCode) : Prop :=
  length (fleet_id c) = 16 ∧ length (invite c) = 16 ∧ length (token c) = 16 ∧
  length (fingerprint c) = 16 ∧ is_u64 (expires_at c) ∧
  match name c with None => True | Some n => n ≠ "" ∧ text_ok u8_max n end ∧
  (Z.of_nat (length (endpoints c)) ≤ u8_max)%Z ∧ Forall endpoint_ok (endpoints c).

(** ** Each field's encoding is read back *)

Definition text_bytes (s : string) : list ascii :=
  be_bytes 2 (Z.of_nat (String.length s)) ++ bytes_of s.

Definition endpoint_bytes (e : CodeEndpoint) : list ascii :=
  match e with
  | Tailscale address => byte_of 1 :: text_bytes address
  | Fabric node protocol => byte_of 2 :: text_bytes node ++ text_bytes protocol
  | Loopback address => byte_of 3 :: text_bytes address
  end.

Definition name_bytes (n : option string) : list ascii :=
  match n with
  | Some n => byte_of (Z.of_nat (String.length n)) :: bytes_of n
  | None => [byte_of 0]
  end.

Lemma read_take_app n a b : length a = n → read_take n (a ++ b) = Ok (a, b).
Proof.
  intros <-. unfold read_take. rewrite decide_True by (rewrite length_app; lia).
  by rewrite take_app_length, drop_app_length.
Qed.

Lemma be_value_single b : be_value [b] = byte_val b.
Proof. unfold be_value. simpl. lia. Qed.

Lemma read_byte_app z rest : (0 ≤ z ≤ u8_max)%Z → read_byte (byte_of z :: rest) = Ok (z, rest).
Proof.
  unfold u8_max. intros Hz. unfold read_byte.
  change (byte_of z :: rest) with ([byte_of z] ++ rest). rewrite (read_take_app 1) by done. simpl.
  rewrite be_value_single, byte_val_of, Z.mod_small by lia. done.
Qed.

Lemma read_utf8_app s rest :
  utf8_valid (bytes_of s) = true →
  read_utf8 (String.length s) (bytes_of s ++ rest) = Ok (s, rest).
Proof.
  intros Hs. unfold read_utf8. rewrite read_take_app by apply length_bytes_of. simpl.
  by rewrite Hs, str_of_bytes_of.
Qed.

Lemma put_text_bytes r s : text_ok u16_max s → put_text r s = Ok (r ++ text_bytes s).
Proof. intros [Hl _]. unfold put_text. by rewrite (proj2 (Z.leb_le _ _) Hl). Qed.

Lemma read_text_app s rest : text_ok u16_max s → read_text (text_bytes s ++ rest) = Ok (s, rest).
Proof.
  intros [Hl Hs]. unfold read_text, text_bytes, u16_max in *. rewrite <- app_assoc.
  rewrite read_take_app by apply length_be_bytes. cbn [result_bind].
  rewrite be_bytes_value_id by (simpl; lia). rewrite Nat2Z.id. by apply read_utf8_app.
Qed.

Lemma put_endpoint_bytes r e : endpoint_ok e → put_endpoint r e = Ok (r ++ endpoint_bytes e).
Proof.
  destruct e as [a|n p|a]; simpl.
  - intros Ha. rewrite put_text_bytes by done. by rewrite <- app_assoc.
  - intros [Hn Hp]. rewrite put_text_bytes by done. simpl. rewrite put_text_bytes by done.
    by rewrite <- !app_assoc.
  - intros Ha. rewrite put_text_bytes by done. by rewrite <- app_assoc.
Qed.

Lemma read_endpoint_app e rest : endpoint_ok e → read_endpoint (endpoint_bytes e ++ rest) = Ok (e, rest).
Proof.
  unfold read_endpoint. destruct e as [a|n p|a]; cbn [endpoint_ok endpoint_bytes app].
  - intros Ha. rewrite (read_byte_app 1) by (unfold u8_max; lia). cbn. by rewrite read_text_app.
  - intros [Hn Hp]. rewrite (read_byte_app 2) by (unfold u8_max; lia). cbn.
    rewrite <- app_assoc, read_text_app by done. cbn. by rewrite read_text_app.
  - intros Ha. rewrite (read_byte_app 3) by (unfold u8_max; lia). cbn. by rewrite read_text_app.
Qed.

Lemma put_endpoints_bytes l : ∀ r, Forall endpoint_ok l →
  put_endpoints r l = Ok (r ++ concat (map endpoint_bytes l)).
Proof.
  induction l as [|e l IH]; intros r Hl; simpl; [by rewrite app_nil_r|].
  apply Forall_cons_iff in Hl as [He Hl]. rewrite put_endpoint_bytes by done. simpl.
  rewrite IH by done. by rewrite <- app_assoc.
Qed.

Lemma read_endpoints_app l rest : Forall endpoint_ok l →
  read_endpoints (length l) (concat (map endpoint_bytes l) ++ rest) = Ok (l, rest).
Proof.
  induction l as [|e l IH]; intros Hl; [done|]. apply Forall_cons_iff in Hl as [He Hl].
  cbn [length read_endpoints map concat].
  rewrite <- app_assoc, read_endpoint_app by done. cbn [result_bind]. by rewrite IH.
Qed.

Definition name_ok (n : option string) : Prop :=
  match n with None => True | Some n => n ≠ "" ∧ text_ok u8_max n end.

Lemma put_name_bytes r n : name_ok n → put_name r n = Ok (r ++ name_bytes n).
Proof.
  destruct n as [n|]; simpl; [|done]. intros [_ [Hl _]]. by rewrite (proj2 (Z.leb_le _ _) Hl).
Qed.

Lemma read_name_app n rest : name_ok n → read_name (name_bytes n ++ rest) = Ok (n, rest).
Proof.
  unfold read_name. destruct n as [n|]; cbn [name_ok name_bytes app].
  - intros [Hne [Hl Hs]]. rewrite read_byte_app by lia. cbn [result_bind].
    assert (Hlen : String.length n ≠ 0) by (by destruct n).
    rewrite (proj2 (Z.eqb_neq _ _)) by lia. by rewrite Nat2Z.id, read_utf8_app.
  - intros _. by rewrite (read_byte_app 0).
Qed.

Definition record_bytes (c : JoinCode) : list ascii :=
  fixed_record c ++ name_bytes (name c) ++ byte_of (Z.of_nat (length (endpoints c)))
  :: concat (map endpoint_bytes (endpoints c)).

Lemma encode_record_bytes c : JoinCode_ok c → encode_record c = Ok (record_bytes c).
Proof.
  intros (_ & _ & _ & _ & _ & Hn & Hc & He). unfold encode_record.
  rewrite (put_name_bytes _ (name c)) by done. cbn [result_bind].
  rewrite (proj2 (Z.leb_le _ _) Hc).
  rewrite put_endpoints_bytes by done. unfold record_bytes. by rewrite <- !app_assoc.
Qed.

Lemma decode_record_bytes c : JoinCode_ok c → decode_record (record_bytes c) = Ok c.
Proof.
  intros (Hf & Hi & Ht & Hp & Hx & Hn & Hc & He). unfold decode_record, record_bytes, fixed_record.
  rewrite <- !app_assoc. cbn [app].
  rewrite (read_byte_app VERSION) by (unfold VERSION, u8_max; lia). cbn [result_bind].
  change (negb (VERSION =? VERSION)%Z) with false. cbv iota.
  rewrite read_byte_app by (unfold FLAG_MIGRATE, u8_max; destruct (migrate c); lia).
  cbn [result_bind]. do 4 (rewrite read_take_app by done; cbn [result_bind]).
  rewrite read_take_app by apply length_be_bytes. cbn [result_bind].
  rewrite (read_name_app (name c)) by done. cbn [result_bind].
  rewrite read_byte_app by lia. cbn [result_bind].
  rewrite Nat2Z.id. rewrite <- (app_nil_r (concat _)), read_endpoints_app by done. cbn [result_bind].
  unfold is_u64, u64_max in Hx. rewrite be_bytes_value_id by (simpl; lia).
  destruct c as [? ? ? ? ? ? [] ?]; done.
Qed.

(** ** The text layer *)

Definition base32_byte (b : ascii) : Prop := (65 ≤ byte_val b ≤ 90 ∨ 50 ≤ byte_val b ≤ 55)%Z.

Lemma graphic_not_whitespace b : (33 ≤ byte_val b < 128)%Z → is_whitespace [b] = false.
Proof.
  intros Hb. unfold is_whitespace, code_point. simpl.
  repeat match goal with |- context [(?x <=? ?y)%Z] => destruct (Z.leb_spec x y); simpl; try lia end;
  repeat match goal with |- context [(?x =? ?y)%Z] => destruct (Z.eqb_spec x y); simpl; try lia end;
  done.
Qed.

Lemma compact_id (l : list ascii) :
  Forall (λ b, 33 ≤ byte_val b < 128)%Z l → compact_text (str_of l) = l.
Proof.
  intros Hl. unfold compact_text. rewrite bytes_of_str_of, chars_ascii.
  2: { rewrite Forall_forall in *. intros b Hb. specialize (Hl b Hb). lia. }
  assert (List.filter (λ c, negb (is_whitespace c)) (map (λ b, [b]) l) = map (λ b, [b]) l) as ->;
    [|apply concat_singleton_bytes].
  induction Hl as [|b l Hb Hl IH]; simpl; [done|]. rewrite IH. by rewrite graphic_not_whitespace.
Qed.

Lemma lower_base32 b : base32_byte b → (33 ≤ byte_val (to_lower b) < 128)%Z.
Proof.
  intros Hb. rewrite byte_val_to_lower. destruct (in_range 65 90 b) eqn:E.
  - apply in_range_spec in E. lia.
  - destruct Hb as [Hb|Hb]; [|lia]. apply in_range_spec in Hb. congruence.
Qed.

Section roundtrip.
Context (sha256 : list ascii → list ascii).
Context (b32_encode : list ascii → string) (b32_decode : list ascii → option (list ascii)).
Hypothesis sha256_length : ∀ x, length (sha256 x) = 32.
Hypothesis b32_decode_encode : ∀ x, b32_decode (bytes_of (b32_encode x)) = Some x.
Hypothesis b32_alphabet : ∀ x, Forall base32_byte (bytes_of (b32_encode x)).

Lemma compact_encoded x :
  compact_text (PREFIX +:+ str_of (map to_lower (bytes_of (b32_encode x)))) =
  bytes_of PREFIX ++ map to_lower (bytes_of (b32_encode x)).
Proof.
  rewrite <- (compact_id (bytes_of PREFIX ++ map to_lower (bytes_of (b32_encode x)))).
  - by f_equal.
  - apply Forall_app. split; [repeat constructor; by vm_compute|].
    apply Forall_map. pose proof (b32_alphabet x) as Ha. rewrite Forall_forall in *.
    intros b Hb. apply lower_base32. by apply Ha.
Qed.

Lemma upper_encoded x :
  map to_upper (map to_lower (bytes_of (b32_encode x))) = bytes_of (b32_encode x).
Proof.
  rewrite map_map. rewrite <- (map_id (bytes_of _)) at 2. apply map_ext_in.
  intros b Hb%list_elem_of_In. apply to_upper_lower.
  pose proof (b32_alphabet x) as Ha. rewrite Forall_forall in Ha. specialize (Ha b Hb).
  unfold base32_byte in Ha. lia.
Qed.

(** A join code survives the trip: every well-formed code encodes, and decoding its text
    gives the code back, whatever SHA-256 and a base32 codec with the documented behaviour
    compute. *)
Theorem join_code_roundtrip c :
  JoinCode_ok c →
  ∃ text, encode sha256 b32_encode c = Ok text ∧ decode sha256 b32_decode text = Ok c.
Proof.
  intros Hc. unfold encode. rewrite encode_record_bytes by done. cbn [result_bind].
  eexists. split; [done|]. set (record := record_bytes c). set (bytes := record ++ take 4 (sha256 record)).
  assert (Hsum : length (take 4 (sha256 record)) = 4) by (rewrite length_take, sha256_length; lia).
  assert (Hlen : length bytes = length record + 4) by (unfold bytes; rewrite length_app; lia).
  unfold decode. rewrite compact_encoded. change 5 with (length (bytes_of PREFIX)).
  rewrite take_app_length, drop_app_length. unfold eq_ignore_case.
  rewrite bool_decide_eq_true_2 by done. cbn [negb]. rewrite upper_encoded, b32_decode_encode.
  replace (4 <? length bytes) with true.
  2: { symmetry. apply Nat.ltb_lt. rewrite Hlen. unfold record, record_bytes, fixed_record.
       rewrite length_app. simpl. lia. }
  cbn [negb]. rewrite Hlen, Nat.add_sub. unfold bytes.
  rewrite take_app_length, drop_app_length, bool_decide_eq_true_2 by done. cbn [negb].
  by apply decode_record_bytes.
Qed.
End roundtrip.

(** ** Example

    A codec over sixteen letters of the base32 alphabet and a constant digest, which behave as the
    parameters are documented to. *)

Definition toy_sha256 (x : list ascii) : list ascii := be_bytes 32 (Z.of_nat (length x)).

Fixpoint toy_letters (l : list ascii) : list ascii :=
  match l with
  | [] => []
  | b :: l' => byte_of (65 + byte_val b / 16) :: byte_of (65 + byte_val b mod 16) :: toy_letters l'
  end.

Definition toy_encode (l : list ascii) : string := str_of (toy_letters l).

Fixpoint toy_decode_letters (l : list ascii) : option (list ascii) :=
  match l with
  | [] => Some []
  | a :: b :: l' =>
      (λ rest, byte_of ((byte_val a - 65) * 16 + (byte_val b - 65)) :: rest) <$> toy_decode_letters l'
  | _ => None
  end.

Lemma toy_nibbles b :
  (byte_val (byte_of (65 + byte_val b / 16)) = 65 + byte_val b / 16 ∧
   byte_val (byte_of (65 + byte_val b mod 16)) = 65 + byte_val b mod 16 ∧
   0 ≤ byte_val b / 16 < 16 ∧ 0 ≤ byte_val b mod 16 < 16)%Z.
Proof.
  pose proof (byte_val_range b). pose proof (Z.mod_pos_bound (byte_val b) 16 ltac:(lia)).
  assert (0 ≤ byte_val b / 16 < 16)%Z
    by (split; [apply Z.div_pos; lia|apply Z.div_lt_upper_bound; lia]).
  rewrite !byte_val_of, !Z.mod_small by lia. lia.
Qed.

Lemma toy_decode_encode x : toy_decode_letters (bytes_of (toy_encode x)) = Some x.
Proof.
  unfold toy_encode. rewrite bytes_of_str_of. induction x as [|b x IH]; [done|].
  cbn [toy_letters toy_decode_letters]. rewrite IH. cbn.
  destruct (toy_nibbles b) as (-> & -> & _). do 2 f_equal.
  replace ((65 + byte_val b / 16 - 65) * 16 + (65 + byte_val b mod 16 - 65))%Z with (byte_val b)
    by (pose proof (Z.div_mod (byte_val b) 16 ltac:(lia)); lia).
  apply byte_of_val.
Qed.

Lemma toy_alphabet x : Forall base32_byte (bytes_of (toy_encode x)).
Proof.
  unfold toy_encode. rewrite bytes_of_str_of. induction x as [|b x IH]; [constructor|].
  destruct (toy_nibbles b) as (E1 & E2 & H1 & H2).
  cbn [toy_letters]. constructor; [unfold base32_byte; lia|].
  constructor; [unfold base32_byte; lia|done].
Qed.

Definition example_code : JoinCode :=
  mkJoinCode (be_bytes 16 1) (be_bytes 16 2) (be_bytes 16 3) (be_bytes 16 4) 1700000000
    (Some "laptop") true [Tailscale "100.64.0.1:4000"; Fabric "n0de" "st/1"; Loopback "127.0.0.1:4000"].

Lemma join_code_witness :
  ∃ text, encode toy_sha256 toy_encode example_code = Ok text ∧
          decode toy_sha256 toy_decode_letters text = Ok example_code.
Proof.
  apply (join_code_roundtrip toy_sha256 toy_encode toy_decode_letters
           (λ x, length_be_bytes 32 _) toy_decode_encode toy_alphabet example_code).
  unfold JoinCode_ok. split_and!; try reflexivity; try done.
  repeat constructor; by vm_compute.
Defined.
