(* ===== verification/Handshake.v ===== *)
(** * The join handshake

    Models [crates/smallclaims/src/fleet/handshake.rs]: a joiner proves that it holds an invite's token
    and signs its request; the sponsor checks both, seals the fleet secret for the joiner alone and
    signs its answer; the joiner checks the sponsor against the fingerprint in its code before it opens
    anything.

    The primitives are other crates' and the class [JoinCrypto] stands for them, with what their
    documentation says: base64 decodes what it encodes and has no line breaks, compact JSON is one line
    and tells values apart, both sides of an agreement derive one secret, authenticated decryption
    inverts encryption, and a key verifies its own signatures. A random value is an argument. *)

From Stdlib Require Import Ascii.
From S2P Require Import Prelude Text Json Bytes JoinCode.

Definition PROTOCOL : string := "st3-join-v1".
Definition SEAL_INFO : list ascii := bytes_of "st3-join-v1 seal".

Definition newline : ascii := "010"%char.

Record WriterHead := mkWriterHead { wh_sequence : Z; wh_hash : string }.

Record JoinRequest := mkJoinRequest {
  jr_protocol : string;
  jr_invite : string;
  jr_name : string;
  jr_mode : string;
  jr_member_key : string;
  jr_ephemeral : string;
  jr_writer_head : option WriterHead;
  jr_build : string;
  jr_migrate : bool;
  jr_proof : string;
  jr_signature : string
}.

Record SealedJoin := mkSealedJoin {
  sj_fleet_id : string;
  sj_secret : option string;
  sj_anchor_key : string;
  sj_sponsor : string;
  sj_writer_floor : option Z;
  sj_fabric_protocol : option string;
  sj_admitted_claim : option string
}.

Record JoinResponse := mkJoinResponse {
  rs_protocol : string;
  rs_sponsor : string;
  rs_sponsor_key : string;
  rs_ephemeral : string;
  rs_nonce : string;
  rs_sealed : string;
  rs_signature : string
}.

Class JoinCrypto `{NumberApi} := {
  encode : list ascii → string;
  decode : string → option (list ascii);
  sha256 : list ascii → list ascii;
  hex_text : list ascii → string;
  hex_bytes : string → option (list ascii);
  hmac : list ascii → list ascii → list ascii;
  (** X25519: the public key of a private one, and the agreement with a peer's. *)
  x_public : list ascii → list ascii;
  x_agree : list ascii → list ascii → option (list ascii);
  (** HKDF-SHA256: salt, secret, the parts of the info. *)
  hkdf : list ascii → list ascii → list (list ascii) → list ascii;
  (** ChaCha20-Poly1305: key, nonce, associated data. *)
  aead_seal : list ascii → list ascii → list ascii → list ascii → list ascii;
  aead_open : list ascii → list ascii → list ascii → list ascii → option (list ascii);
  (** A member key's public half and signatures. *)
  member_public : list ascii → string;
  member_sign : list ascii → list ascii → string;
  verify_signature : string → list ascii → string → bool;
  (** The text of a JSON value, and of what is sealed. *)
  number_of : Z → Number;
  json_text : Value → list ascii;
  sealed_text : SealedJoin → list ascii;
  sealed_parse : list ascii → option SealedJoin;
  decode_encode b : decode (encode b) = Some b;
  hex_bytes_text b : hex_bytes (hex_text b) = Some b;
  number_of_u64 z : is_u64 z → num_as_u64 (number_of z) = Some z;
  decode_line s b : decode s = Some b → newline ∉ bytes_of s;
  member_public_line m : newline ∉ bytes_of (member_public m);
  json_text_line v : newline ∉ json_text v;
  json_text_inj v w : json_text v = json_text w → v = w;
  x_agree_both a b : ∃ s, x_agree a (x_public b) = Some s ∧ x_agree b (x_public a) = Some s;
  aead_open_seal key nonce aad plain : aead_open key nonce aad (aead_seal key nonce aad plain) = Some plain;
  verify_sign m message : verify_signature (member_public m) message (member_sign m message) = true;
  sealed_parse_text s : sealed_parse (sealed_text s) = Some s
}.

Inductive RequestFault := FaultProtocol | FaultProof | FaultSignature.

Section handshake.
Context `{crypto : JoinCrypto}.

Definition head_value (head : option WriterHead) : Value :=
  match head with
  | None => Null
  | Some h => Object [("sequence", Num (number_of (wh_sequence h))); ("hash", Str (wh_hash h))]
  end.

(** Every field except the proof and the signature. *)
Definition transcript (r : JoinRequest) : list ascii :=
  json_text (Object [("build", Str (jr_build r)); ("ephemeral", Str (jr_ephemeral r)); ("invite", Str (jr_invite r));
                     ("member_key", Str (jr_member_key r)); ("migrate", Bool (jr_migrate r)); ("mode", Str (jr_mode r));
                     ("name", Str (jr_name r)); ("protocol", Str (jr_protocol r));
                     ("writer_head", head_value (jr_writer_head r))]).

Definition signed_bytes (rs : JoinResponse) (r : JoinRequest) : list ascii :=
  fold_left (λ bytes part, bytes ++ newline :: bytes_of part)
    [jr_proof r; rs_sponsor rs; rs_sponsor_key rs; rs_ephemeral rs; rs_nonce rs; rs_sealed rs] (transcript r).

Definition fingerprint_of (member_key : string) : list ascii :=
  take 16 (sha256 (default (bytes_of member_key) (decode member_key))).

Definition aad (transcript : list ascii) (sponsor_key : string) (sponsor_ephemeral : list ascii) : list ascii :=
  sha256 (transcript ++ bytes_of sponsor_key ++ sponsor_ephemeral).

Definition seal_key (shared token aad : list ascii) : list ascii := hkdf token shared [SEAL_INFO; aad].

(** ** The joiner *)

Record Joiner := mkJoiner {
  jn_ephemeral : list ascii;
  jn_token : list ascii;
  jn_fingerprint : list ascii;
  jn_request : JoinRequest
}.

Definition with_proof (r : JoinRequest) (proof signature : string) : JoinRequest :=
  mkJoinRequest (jr_protocol r) (jr_invite r) (jr_name r) (jr_mode r) (jr_member_key r) (jr_ephemeral r)
    (jr_writer_head r) (jr_build r) (jr_migrate r) proof signature.

Definition start (code : JoinCode) (member : list ascii) (name mode : string) (writer_head : option WriterHead)
    (build : string) (ephemeral : list ascii) : Joiner :=
  let request := mkJoinRequest PROTOCOL (hex_text (invite code)) name mode (member_public member)
                   (encode (x_public ephemeral)) writer_head build (migrate code) "" "" in
  let t := transcript request in
  mkJoiner ephemeral (token code) (fingerprint code)
    (with_proof request (encode (hmac (token code) t)) (member_sign member t)).

Definition open (j : Joiner) (rs : JoinResponse) : outcome SealedJoin :=
  if negb (str_eqb (rs_protocol rs) PROTOCOL) then Err "the sponsor speaks another join protocol"
  else if negb (bool_decide (fingerprint_of (rs_sponsor_key rs) = jn_fingerprint j))
  then Err "the sponsor's key does not match the join code; this is not the machine that made it"
  else if negb (verify_signature (rs_sponsor_key rs) (signed_bytes rs (jn_request j)) (rs_signature rs))
  then Err "the sponsor's answer is not signed by its key"
  else
    match decode (rs_ephemeral rs) with
    | None => Err "the join message has invalid base64"
    | Some sponsor_ephemeral =>
        let a := aad (transcript (jn_request j)) (rs_sponsor_key rs) sponsor_ephemeral in
        match x_agree (jn_ephemeral j) sponsor_ephemeral with
        | None => Err "the sponsor's ephemeral key is invalid"
        | Some shared =>
            let key := seal_key shared (jn_token j) a in
            match decode (rs_nonce rs) with
            | None => Err "the join message has invalid base64"
            | Some nonce =>
                if negb (length nonce =? 12)%nat then Err "the join nonce is invalid"
                else
                  match decode (rs_sealed rs) with
                  | None => Err "the join message has invalid base64"
                  | Some sealed =>
                      match aead_open key nonce a sealed with
                      | None => Err "the sealed join answer does not open"
                      | Some opened =>
                          match sealed_parse opened with
                          | None => Err "decode the sealed join answer"
                          | Some join => Ok join
                          end
                      end
                  end
            end
        end
    end.

(** ** The sponsor *)

Definition verify_request (r : JoinRequest) (token : list ascii) : result RequestFault unit :=
  if negb (str_eqb (jr_protocol r) PROTOCOL) then Err FaultProtocol
  else
    let t := transcript r in
    match decode (jr_proof r) with
    | None => Err FaultProof
    | Some expected =>
        if negb (bool_decide (hmac token t = expected)) then Err FaultProof
        else if negb (verify_signature (jr_member_key r) t (jr_signature r)) then Err FaultSignature
        else Ok tt
    end.

Definition with_signature (rs : JoinResponse) (signature : string) : JoinResponse :=
  mkJoinResponse (rs_protocol rs) (rs_sponsor rs) (rs_sponsor_key rs) (rs_ephemeral rs) (rs_nonce rs) (rs_sealed rs)
    signature.

Definition seal_response (r : JoinRequest) (token : list ascii) (sponsor : string) (sponsor_key : list ascii)
    (payload : SealedJoin) (ephemeral nonce : list ascii) : outcome JoinResponse :=
  match decode (jr_ephemeral r) with
  | None => Err "the join message has invalid base64"
  | Some joiner_ephemeral =>
      let public := x_public ephemeral in
      let a := aad (transcript r) (member_public sponsor_key) public in
      match x_agree ephemeral joiner_ephemeral with
      | None => Err "the joiner's ephemeral key is invalid"
      | Some shared =>
          let sealed := aead_seal (seal_key shared token a) nonce a (sealed_text payload) in
          let response := mkJoinResponse PROTOCOL sponsor (member_public sponsor_key) (encode public) (encode nonce)
                            (encode sealed) "" in
          Ok (with_signature response (member_sign sponsor_key (signed_bytes response r)))
      end
  end.

(** ** Honest handshakes succeed *)

Lemma transcript_with_proof r proof signature : transcript (with_proof r proof signature) = transcript r.
Proof. done. Qed.

Lemma signed_bytes_with_signature rs signature r : signed_bytes (with_signature rs signature) r = signed_bytes rs r.
Proof. done. Qed.

Lemma started_request_verifies code member name mode head build e :
  verify_request (jn_request (start code member name mode head build e)) (token code) = Ok tt.
Proof.
  unfold verify_request, start. cbn [jn_request with_proof jr_protocol jr_proof jr_member_key jr_signature].
  rewrite str_eqb_refl, decode_encode, !transcript_with_proof. cbn [negb].
  rewrite bool_decide_true by done. cbn [negb jr_member_key]. by rewrite verify_sign.
Qed.

(** A handshake between a joiner that holds a code and the sponsor that made it succeeds: the
    sponsor accepts the request, and the joiner opens exactly what the sponsor sealed. *)
Lemma honest_join_opens code member name mode head build e sponsor sponsor_key payload se nonce :
  fingerprint code = fingerprint_of (member_public sponsor_key) → length nonce = 12%nat →
  let joiner := start code member name mode head build e in
  verify_request (jn_request joiner) (token code) = Ok tt ∧
  ∃ response, seal_response (jn_request joiner) (token code) sponsor sponsor_key payload se nonce = Ok response ∧
              open joiner response = Ok payload.
Proof.
  intros Hf Hn joiner. destruct (x_agree_both e se) as (shared & Hj & Hs). split; [apply started_request_verifies|].
  unfold seal_response, joiner, start. cbn [jn_request with_proof jr_ephemeral]. rewrite decode_encode, Hs.
  eexists. split; [done|]. unfold open.
  cbn [with_signature rs_protocol rs_sponsor_key rs_ephemeral rs_nonce rs_sealed rs_signature jn_fingerprint jn_ephemeral
       jn_token jn_request].
  rewrite str_eqb_refl, bool_decide_true by done. cbn [negb].
  rewrite signed_bytes_with_signature, verify_sign, !decode_encode, Hj, Hn. cbn [negb Nat.eqb].
  by rewrite aead_open_seal, sealed_parse_text.
Qed.
(** ** What is opened was sealed for this request *)

(** One answer of the sponsor: the request it answers, the token it holds for the invite, what it
    seals, and the randomness it draws. *)
Record Answer := mkAnswer {
  an_request : JoinRequest;
  an_token : list ascii;
  an_payload : SealedJoin;
  an_ephemeral : list ascii;
  an_nonce : list ascii
}.

Definition answer (sponsor : string) (sponsor_key : list ascii) (a : Answer) : outcome JoinResponse :=
  seal_response (an_request a) (an_token a) sponsor sponsor_key (an_payload a) (an_ephemeral a) (an_nonce a).

(** The sponsor answers a request whose proof and signature it checked against the token it holds for
    the invite the request names. *)
Definition answered_properly (tokens : string → option (list ascii)) (a : Answer) : Prop :=
  tokens (jr_invite (an_request a)) = Some (an_token a) ∧ verify_request (an_request a) (an_token a) = Ok tt.

(** A signature by the sponsor's key on an answer is one the sponsor made. *)
Definition unforged (sponsor : string) (sponsor_key : list ascii) (answers : list Answer) (rs : JoinResponse) (r : JoinRequest) :
    Prop :=
  verify_signature (member_public sponsor_key) (signed_bytes rs r) (rs_signature rs) = true →
  ∃ a made, a ∈ answers ∧ answer sponsor sponsor_key a = Ok made ∧ signed_bytes rs r = signed_bytes made (an_request a).

Definition joined (parts : list string) : list ascii := concat (map (λ part, newline :: bytes_of part) parts).

Lemma fold_joined parts : ∀ first,
  fold_left (λ bytes part, bytes ++ newline :: bytes_of part) parts first = first ++ joined parts.
Proof.
  induction parts as [|p parts IH]; intros first; [by rewrite app_nil_r|].
  cbn [fold_left]. rewrite IH. unfold joined. simpl. by rewrite <- app_assoc.
Qed.

Lemma line_split (p q r s : list ascii) :
  newline ∉ p → newline ∉ q → p ++ newline :: r = q ++ newline :: s → p = q ∧ r = s.
Proof.
  revert q. induction p as [|a p IH]; intros [|b q] Hp Hq E; simpl in *; injection E as E; subst; try done.
  - exfalso. apply Hq. left.
  - exfalso. apply Hp. left.
  - apply not_elem_of_cons in Hp as [_ Hp], Hq as [_ Hq]. by destruct (IH q Hp Hq) as [-> ->].
Qed.

Abbreviation lines l := (count_occ ascii_dec l newline).

Lemma lines_joined parts : lines (joined parts) = (length parts + sum_list_with (λ p, lines (bytes_of p)) parts)%nat.
Proof.
  induction parts as [|p parts IH]; [done|]. unfold joined in *. cbn [map concat length sum_list_with].
  rewrite count_occ_app, IH. cbn [count_occ]. destruct (ascii_dec newline newline); [lia|done].
Qed.

Lemma lines_zero l : lines l = 0%nat ↔ newline ∉ l.
Proof. rewrite <- count_occ_not_In. by rewrite list_elem_of_In. Qed.

Lemma joined_lines_inj ps : ∀ qs,
  length ps = length qs → Forall (λ p, newline ∉ bytes_of p) ps → Forall (λ q, newline ∉ bytes_of q) qs →
  joined ps = joined qs → ps = qs.
Proof.
  induction ps as [|p ps IH]; intros [|q qs] Hl Hp Hq E; try done.
  apply Forall_cons_1 in Hp as [Hp Hps], Hq as [Hq Hqs]. unfold joined in E. simpl in E. injection E as E.
  assert (Hcut : bytes_of p = bytes_of q ∧ joined ps = joined qs).
  { destruct ps as [|p' ps], qs as [|q' qs]; try done; [by rewrite !app_nil_r in E|].
    apply line_split in E as [-> E]; [|done..]. split; [done|]. unfold joined. simpl. by f_equal. }
  destruct Hcut as [Hpq E']. f_equal; [by apply bytes_of_inj|]. apply IH; [by injection Hl|done..].
Qed.

(** Only the parts of one side must be known to have no line break: the other side has as many. *)
Lemma joined_inj ps qs :
  length ps = length qs → Forall (λ q, newline ∉ bytes_of q) qs → joined ps = joined qs → ps = qs.
Proof.
  intros Hl Hq E. apply joined_lines_inj; [done| |done|done].
  assert (Hs : ∀ l : list string, Forall (λ p, newline ∉ bytes_of p) l ↔ sum_list_with (λ p, lines (bytes_of p)) l = 0%nat).
  { induction l as [|p l IH]; [done|]. rewrite Forall_cons, IH, <- lines_zero. simpl. lia. }
  apply Hs. apply Hs in Hq. pose proof (f_equal (λ l, lines l) E) as Hc. simpl in Hc. rewrite !lines_joined in Hc. lia.
Qed.

(** One signed text names one request and one answer. *)
Lemma signed_bytes_inj rs r made r' :
  newline ∉ bytes_of (jr_proof r') → newline ∉ bytes_of (rs_sponsor made) → newline ∉ bytes_of (rs_sponsor_key made) →
  newline ∉ bytes_of (rs_ephemeral made) → newline ∉ bytes_of (rs_nonce made) → newline ∉ bytes_of (rs_sealed made) →
  signed_bytes rs r = signed_bytes made r' →
  transcript r = transcript r' ∧ rs_sponsor_key rs = rs_sponsor_key made ∧ rs_ephemeral rs = rs_ephemeral made ∧
  rs_nonce rs = rs_nonce made ∧ rs_sealed rs = rs_sealed made.
Proof.
  intros. unfold signed_bytes in *. rewrite !fold_joined in *.
  unfold joined in *. cbn [map concat] in *. rewrite <- !app_comm_cons in *.
  match goal with E : _ = _ |- _ => apply line_split in E as [Ht E]; [|apply json_text_line..] end.
  split; [done|].
  assert (Hj : joined [jr_proof r; rs_sponsor rs; rs_sponsor_key rs; rs_ephemeral rs; rs_nonce rs; rs_sealed rs]
             = joined [jr_proof r'; rs_sponsor made; rs_sponsor_key made; rs_ephemeral made; rs_nonce made; rs_sealed made]).
  { unfold joined. cbn [map concat]. rewrite <- !app_comm_cons. by f_equal. }
  apply joined_inj in Hj; [by injection Hj|done|]. repeat (constructor; [done|]). constructor.
Qed.

Lemma transcript_fields r r' :
  transcript r = transcript r' →
  jr_invite r = jr_invite r' ∧ jr_name r = jr_name r' ∧ jr_mode r = jr_mode r' ∧ jr_member_key r = jr_member_key r' ∧
  jr_ephemeral r = jr_ephemeral r' ∧ jr_migrate r = jr_migrate r'.
Proof. intros E. apply json_text_inj in E. injection E. naive_solver. Qed.

Lemma encode_line b : newline ∉ bytes_of (encode b).
Proof. eapply decode_line, decode_encode. Qed.

Lemma verified_proof_line r t : verify_request r t = Ok tt → newline ∉ bytes_of (jr_proof r).
Proof.
  unfold verify_request. destruct (negb _); [done|]. destruct (decode (jr_proof r)) eqn:E; [|done].
  intros _. by eapply decode_line.
Qed.

(** The fields of an answer the sponsor made. *)
Lemma answer_fields sponsor sponsor_key a made :
  answer sponsor sponsor_key a = Ok made →
  ∃ je shared, decode (jr_ephemeral (an_request a)) = Some je ∧ x_agree (an_ephemeral a) je = Some shared ∧
    let ad := aad (transcript (an_request a)) (member_public sponsor_key) (x_public (an_ephemeral a)) in
    rs_sponsor made = sponsor ∧ rs_sponsor_key made = member_public sponsor_key ∧
    rs_ephemeral made = encode (x_public (an_ephemeral a)) ∧ rs_nonce made = encode (an_nonce a) ∧
    rs_sealed made = encode (aead_seal (seal_key shared (an_token a) ad) (an_nonce a) ad (sealed_text (an_payload a))).
Proof.
  unfold answer, seal_response. destruct (decode _) as [je|] eqn:Ed; [|done].
  destruct (x_agree _ _) as [shared|] eqn:Es; [|done]. intros [= <-]. exists je, shared. done.
Qed.

Lemma open_inv j rs payload :
  open j rs = Ok payload →
  fingerprint_of (rs_sponsor_key rs) = jn_fingerprint j ∧
  verify_signature (rs_sponsor_key rs) (signed_bytes rs (jn_request j)) (rs_signature rs) = true ∧
  ∃ se shared nonce sealed opened,
    let a := aad (transcript (jn_request j)) (rs_sponsor_key rs) se in
    decode (rs_ephemeral rs) = Some se ∧ x_agree (jn_ephemeral j) se = Some shared ∧ decode (rs_nonce rs) = Some nonce ∧
    decode (rs_sealed rs) = Some sealed ∧ aead_open (seal_key shared (jn_token j) a) nonce a sealed = Some opened ∧
    sealed_parse opened = Some payload.
Proof.
  unfold open. destruct (negb (str_eqb _ _)); [done|]. case_bool_decide as Hf; [|done]. cbn [negb].
  destruct (verify_signature _ _ _) eqn:Hv; [|done]. cbn [negb].
  destruct (decode (rs_ephemeral rs)) as [se|] eqn:E1; [|done]. destruct (x_agree _ _) as [shared|] eqn:E2; [|done].
  destruct (decode (rs_nonce rs)) as [nonce|] eqn:E3; [|done]. destruct (negb _); [done|].
  destruct (decode (rs_sealed rs)) as [sealed|] eqn:E4; [|done]. destruct (aead_open _ _ _ _) as [opened|] eqn:E5; [|done].
  destruct (sealed_parse opened) eqn:E6; [|done]. intros [= ->]. split_and!; [done..|].
  by exists se, shared, nonce, sealed, opened.
Qed.

(** C5. What a joiner opens is what the sponsor sealed in answer to this joiner's own request: the same
    invite, name, mode and member key. An answer to another request, from another machine, or changed
    on the way does not open, unless the signature is forged or another key has the fingerprint in the
    code. *)
Theorem opened_answers_were_sealed_for_the_joiner tokens sponsor sponsor_key answers code member name mode head build e rs payload :
  let joiner := start code member name mode head build e in
  newline ∉ bytes_of sponsor →
  fingerprint code = fingerprint_of (member_public sponsor_key) →
  tokens (hex_text (invite code)) = Some (token code) →
  Forall (answered_properly tokens) answers →
  unforged sponsor sponsor_key answers rs (jn_request joiner) →
  open joiner rs = Ok payload →
  (∃ a, a ∈ answers ∧ an_payload a = payload ∧ jr_name (an_request a) = name ∧ jr_mode (an_request a) = mode ∧
        jr_member_key (an_request a) = member_public member ∧ jr_invite (an_request a) = hex_text (invite code)) ∨
  collide fingerprint_of (rs_sponsor_key rs) (member_public sponsor_key).
Proof.
  intros joiner Hline Hf Htok Hans Hun Ho.
  apply open_inv in Ho as (Hfp & Hv & se & shared & nonce & sealed & opened & E1 & E2 & E3 & E4 & E5 & E6).
  destruct (decide (rs_sponsor_key rs = member_public sponsor_key)) as [Hk|Hk];
    [left|right; split; [done|rewrite Hfp, <- Hf; done]].
  rewrite Hk in *. destruct (Hun Hv) as (a & made & Ha & Hm & Hs).
  destruct (proj1 (Forall_forall _ _) Hans a Ha) as [Hat Hap].
  apply answer_fields in Hm as (je & shared' & D1 & D2 & Ms & Mk & Me & Mn & Md).
  apply signed_bytes_inj in Hs as (Ht & _ & He & Hn & Hd);
    [|by eapply verified_proof_line|rewrite ?Ms, ?Mk, ?Me, ?Mn, ?Md; auto using encode_line, member_public_line..].
  pose proof (transcript_fields _ _ Ht) as (Fi & Fn & Fm & Fk & Fe & _).
  cbn in Fi, Fn, Fm, Fk, Fe. exists a. split_and!; [done| |done..].
  rewrite He, Me, decode_encode in E1. injection E1 as <-. rewrite Hn, Mn, decode_encode in E3. injection E3 as <-.
  rewrite Hd, Md, decode_encode in E4. injection E4 as <-.
  rewrite <- Fe, decode_encode in D1. injection D1 as <-.
  destruct (x_agree_both e (an_ephemeral a)) as (s & S1 & S2). cbn in E2. rewrite S1 in E2. injection E2 as <-.
  rewrite S2 in D2. injection D2 as <-.
  rewrite <- Fi, Htok in Hat. injection Hat as Hat. cbn [joiner start jn_token] in E5.
  rewrite Ht, <- Hat, aead_open_seal in E5. injection E5 as <-.
  rewrite sealed_parse_text in E6. by injection E6.
Qed.
End handshake.

(** ** A concrete instance *)

#[export] Instance SealedJoin_eq_dec : EqDecision SealedJoin.
Proof. solve_decision. Defined.
#[export] Instance SealedJoin_countable : Countable SealedJoin.
Proof.
  apply (inj_countable' (λ s, (sj_fleet_id s, sj_secret s, sj_anchor_key s, sj_sponsor s, sj_writer_floor s,
                               sj_fabric_protocol s, sj_admitted_claim s))
           (λ '(a, b, c, d, e, f, g), mkSealedJoin a b c d e f g)). by intros [].
Defined.

Fixpoint pos_bytes (p : positive) : list ascii :=
  match p with
  | xH => []
  | xO p => "0"%char :: pos_bytes p
  | xI p => "1"%char :: pos_bytes p
  end.

Definition bytes_pos (l : list ascii) : positive :=
  fold_right (λ c p, if bool_decide (c = "0"%char) then xO p else xI p) xH l.

Lemma bytes_pos_bytes p : bytes_pos (pos_bytes p) = p.
Proof. induction p as [p IH|p IH|]; [|by simpl; f_equal..]. cbn [pos_bytes]. unfold bytes_pos in *. simpl. by rewrite IH. Qed.

Lemma pos_bytes_line p : newline ∉ pos_bytes p.
Proof. induction p; simpl; rewrite ?not_elem_of_cons; try (split; [done|assumption]). apply not_elem_of_nil. Qed.

Definition plain_encode {A} `{Countable A} (x : A) : list ascii := pos_bytes (countable.encode x).
Definition plain_decode {A} `{Countable A} (l : list ascii) : option A := countable.decode (bytes_pos l).

Lemma plain_decode_encode {A} `{Countable A} (x : A) : plain_decode (plain_encode x) = Some x.
Proof.
  unfold plain_decode, plain_encode. rewrite bytes_pos_bytes. apply countable.decode_encode.
Qed.

(** Bytes as text without line breaks: a break and the escape itself are escaped. *)
Fixpoint escape (l : list ascii) : list ascii :=
  match l with
  | [] => []
  | c :: l' =>
      if decide (c = newline) then "\"%char :: "n"%char :: escape l'
      else if decide (c = "\"%char) then "\"%char :: "\"%char :: escape l'
      else c :: escape l'
  end.

Fixpoint unescape (l : list ascii) : option (list ascii) :=
  match l with
  | [] => Some []
  | c :: l' =>
      if decide (c = newline) then None
      else if decide (c = "\"%char) then
        match l' with
        | [] => None
        | d :: l'' =>
            if decide (d = newline) then None
            else cons (if decide (d = "n"%char) then newline else d) <$> unescape l''
        end
      else cons c <$> unescape l'
  end.

Lemma unescape_escape l : unescape (escape l) = Some l.
Proof.
  induction l as [|c l IH]; [done|]. cbn [escape].
  destruct (decide (c = newline)) as [->|Hn]; [cbn; by rewrite IH|].
  destruct (decide (c = "\"%char)) as [->|Hb]; [cbn; by rewrite IH|].
  cbn [unescape]. rewrite decide_False, decide_False by done. by rewrite IH.
Qed.

Lemma unescape_line n : ∀ l b, (length l ≤ n)%nat → unescape l = Some b → newline ∉ l.
Proof.
  induction n as [|n IH]; intros [|c l] b Hl E; simpl in Hl; try lia; try apply not_elem_of_nil.
  cbn [unescape] in E. destruct (decide (c = newline)) as [|Hn]; [done|]. apply not_elem_of_cons. split; [done|].
  destruct (decide (c = "\"%char)) as [->|Hb].
  - destruct l as [|d l]; [done|]. simpl in Hl. destruct (decide (d = newline)); [done|].
    apply fmap_Some in E as (b' & E & _). apply not_elem_of_cons. split; [done|]. eapply IH; [|exact E]. lia.
  - apply fmap_Some in E as (b' & E & _). eapply IH; [|exact E]. lia.
Qed.

(** JSON values as trees. *)
Definition Leaf : Type := bool + Z + string.

Fixpoint tree_of (v : Value (H := integer_numbers)) : gen_tree Leaf :=
  match v with
  | Null => GenNode 0 []
  | Bool b => GenLeaf (inl (inl b))
  | Num n => GenLeaf (inl (inr n))
  | Str s => GenLeaf (inr s)
  | Array l => GenNode 1 (map tree_of l)
  | Object fs => GenNode 2 (map (λ f, GenNode 3 [GenLeaf (inr f.1); tree_of f.2]) fs)
  end.

Lemma tree_of_inj v : ∀ w, tree_of v = tree_of w → v = w.
Proof.
  induction v as [| | | |l IH|fs IH] using (Value_strong_ind (H := integer_numbers)); intros [| | | |l'|fs'] E;
    simpl in E; simplify_eq; try done.
  - f_equal. match goal with E : map _ _ = map _ _ |- _ => revert l' E end.
    induction IH as [|x l Hx _ IHl]; intros [|y l'] E; simplify_eq/=; [done|].
    f_equal; [by apply Hx|]. by apply IHl.
  - f_equal. match goal with E : map _ _ = map _ _ |- _ => revert fs' E end.
    induction IH as [|[k x] fs Hx _ IHl]; intros [|[k' y] fs'] E; simplify_eq/=; [done|].
    f_equal; [|by apply IHl]. f_equal. by apply Hx.
Qed.

(** Primitives that satisfy the laws and hide nothing. *)
Program Definition plain_crypto : JoinCrypto (H := integer_numbers) := {|
  Handshake.encode b := str_of (escape b);
  Handshake.decode s := unescape (bytes_of s);
  sha256 x := x;
  hex_text := str_of;
  hex_bytes s := Some (bytes_of s);
  hmac key message := key ++ message;
  x_public x := x;
  x_agree _ _ := Some [];
  hkdf salt secret info := salt ++ secret ++ concat info;
  aead_seal _ _ _ plain := plain;
  aead_open _ _ _ sealed := Some sealed;
  member_public m := str_of (escape m);
  member_sign m message := str_of (escape m ++ message);
  verify_signature key message signature := str_eqb signature (str_of (bytes_of key ++ message));
  number_of z := z;
  json_text v := plain_encode (tree_of v);
  sealed_text s := plain_encode s;
  sealed_parse l := plain_decode l
|}.
Next Obligation. intros b. cbn. rewrite bytes_of_str_of. apply unescape_escape. Qed.
Next Obligation. intros b. cbn. by rewrite bytes_of_str_of. Qed.
Next Obligation. intros z Hz. cbn. by rewrite decide_True. Qed.
Next Obligation. intros s b. cbn. by apply (unescape_line (length (bytes_of s))). Qed.
Next Obligation. intros m. cbn. rewrite bytes_of_str_of. eapply unescape_line, unescape_escape. done. Qed.
Next Obligation. intros v. cbn. apply pos_bytes_line. Qed.
Next Obligation.
  intros v w E. cbn in E. apply tree_of_inj. apply (f_equal (plain_decode (A := gen_tree Leaf))) in E.
  rewrite !plain_decode_encode in E. by injection E.
Qed.
Next Obligation. intros. eauto. Qed.
Next Obligation. done. Qed.
Next Obligation. intros m message. cbn. rewrite bytes_of_str_of. apply str_eqb_refl. Qed.
Next Obligation. intros s. cbn. apply plain_decode_encode. Qed.

Definition handshake_code : JoinCode :=
  mkJoinCode [] [] (bytes_of "token") (fingerprint_of (crypto := plain_crypto) (member_public (JoinCrypto := plain_crypto) (bytes_of "s")))
    0 None false [].
Definition example_payload : SealedJoin := mkSealedJoin "fleet" (Some "secret") "anchor" "b" None None None.
Definition example_joiner : Joiner := start (crypto := plain_crypto) handshake_code (bytes_of "m") "a" "listening" None "1" [].
Definition example_nonce : list ascii := replicate 12 "000"%char.

Lemma honest_join_witness :
  ∃ response, seal_response (crypto := plain_crypto) (jn_request example_joiner) (token handshake_code) "b" (bytes_of "s")
                example_payload [] example_nonce = Ok response ∧
              open (crypto := plain_crypto) example_joiner response = Ok example_payload.
Proof.
  apply (honest_join_opens (crypto := plain_crypto) handshake_code (bytes_of "m") "a" "listening" None "1" [] "b"
           (bytes_of "s") example_payload [] example_nonce); done.
Defined.

(** An answer made for the joiner, as the sponsor logs it. *)
Definition example_answer : Answer :=
  mkAnswer (jn_request example_joiner) (token handshake_code) example_payload [] example_nonce.
Definition example_response : JoinResponse :=
  match answer (crypto := plain_crypto) "b" (bytes_of "s") example_answer with
  | Ok made => made
  | Err _ => mkJoinResponse "" "" "" "" "" "" ""
  end.

Lemma opened_answers_witness :
  (∃ a, a ∈ [example_answer] ∧ an_payload a = example_payload ∧ jr_name (an_request a) = "a" ∧
        jr_mode (an_request a) = "listening" ∧ jr_member_key (an_request a) = member_public (JoinCrypto := plain_crypto) (bytes_of "m") ∧
        jr_invite (an_request a) = "") ∨
  collide (fingerprint_of (crypto := plain_crypto)) (rs_sponsor_key example_response)
    (member_public (JoinCrypto := plain_crypto) (bytes_of "s")).
Proof.
  apply (opened_answers_were_sealed_for_the_joiner (crypto := plain_crypto) (λ _, Some (token handshake_code)) "b" (bytes_of "s")
           [example_answer] handshake_code (bytes_of "m") "a" "listening" None "1" [] example_response example_payload).
  - apply (bool_decide_eq_true _). by vm_compute.
  - done.
  - done.
  - repeat constructor.
  - intros _. exists example_answer, example_response. split; [left|]. split; [vm_compute; reflexivity|].
    change (an_request example_answer) with (jn_request example_joiner). reflexivity.
  - by vm_compute.
Defined.
