(* ===== verification/Invites.v ===== *)
(** * Invites

    Models the invites of [crates/smallclaims/src/store.rs] and the join route that serves them
    ([sync/worker.rs], [sync/backend.rs]): a sponsor makes an invite with a secret token, a joiner
    redeems it with a request that proves the token, and the sponsor binds the invite to that
    joiner's key and name and writes the claims that admit it. Requests are served in parallel, so a
    redemption is a sequence of steps, one for each read or write of the store, and the steps of
    different requests interleave.

    The runtime that appends claims is the class [StoreRuntime], after the [Runtime] trait; [plain] is
    the runtime of [store/runtime.rs] that accepts every claim. A claim is a [FleetClaim] of the
    membership fold with the time it was accepted. *)

From Stdlib Require Import Ascii.
From S2P Require Import Prelude StableSort Text Json Claim Bytes Membership JoinCode Handshake.

Definition FLEET_INVITE_FAILURE_LIMIT : Z := 5.

Definition FLEET_CLAIM_KINDS : list string :=
  [MEMBER_ADMITTED; MEMBER_ENDPOINTS; MEMBER_LEFT; MEMBER_REMOVED; "fleet.invite-created"; "fleet.invite-redeemed";
   "fleet.invite-revoked"].

Definition is_ascii_alphanumeric (b : ascii) : bool :=
  let v := byte_val b in
  ((48 <=? v) && (v <=? 57))%Z || ((65 <=? v) && (v <=? 90))%Z || ((97 <=? v) && (v <=? 122))%Z.

Definition valid_fleet_node_name (name : string) : bool :=
  match bytes_of name with
  | [] => false
  | first :: _ =>
      (Z.of_nat (length (bytes_of name)) <=? 63)%Z && negb (str_eqb name "local") && is_ascii_alphanumeric first
      && forallb (λ b, is_ascii_alphanumeric b || bool_decide (b ∈ bytes_of "._-")) (bytes_of name)
  end.

(** A row of [fleet_invite_tokens]; the key is the invite's ID. *)
Record TokenRow := mkTokenRow {
  tk_token : option string;
  tk_expires_at_unix_ms : Z;
  tk_name : option string;
  tk_migrate : bool;
  tk_bound_key : option string;
  tk_bound_name : option string;
  tk_failures : Z;
  tk_admitted_claim : option string;
  tk_writer_floor : option Z;
  tk_created_by : option string
}.

(** [AdmittedJoin] is the source's [Admitted]. *)
Inductive FleetRedemption :=
| Closed
| Refused (reason : string)
| AdmittedJoin (token : list ascii) (writer_floor : option Z) (admitted_claim : option string) (first : bool).

Record CreatedFleetInvite := mkCreated {
  cf_invite : string;
  cf_token : list ascii;
  cf_expires_at_unix_ms : Z
}.

Section store.
Context `{NumberApi}.

Record StoredClaim := mkStored { sc_claim : FleetClaim; sc_accepted_at : Z }.

(** What is asked of a claim written for an input. *)
Definition says (input : ClaimInput) (c : FleetClaim) : Prop :=
  fc_subject c = ci_subject input ∧ fc_kind c = ci_kind input ∧ fc_fields c = list_to_map (ci_fields input).

(** [Runtime::append_claim]: it answers with a claim that says what the input says, the new one or the
    one an earlier append of the same request wrote. What it adds to the log is that claim, with
    this node as the writer, and claims of other kinds. *)
Class StoreRuntime := {
  append_claim : Z → string → ClaimInput → list StoredClaim → outcome (FleetClaim * list StoredClaim);
  append_claim_ok now origin input log c log' :
    append_claim now origin input log = Ok (c, log') →
    says input c ∧ c ∈ map sc_claim log' ∧
    ∃ new, log' = log ++ new ∧
      ∀ d, d ∈ map sc_claim new → (says input d ∧ fc_writer d = origin) ∨ starts_with "fleet." (fc_kind d) = false
}.

(** [Plain::append_claim]: every claim is new. The store gives it a sequence above every one of its own
    and an ID; here the ID is the position in the log. *)
Definition next_sequence (origin : string) (log : list StoredClaim) : Z :=
  1 + fold_right (λ c n, if str_eqb (fc_writer (sc_claim c)) origin then Z.max (fc_sequence (sc_claim c)) n else n) 0%Z log.

Definition plain_append (now : Z) (origin : string) (input : ClaimInput) (log : list StoredClaim) :
    outcome (FleetClaim * list StoredClaim) :=
  let c := mkFleetClaim (u_to_string (Z.of_nat (length log))) (ci_kind input) (ci_subject input) (list_to_map (ci_fields input))
             origin (next_sequence origin log) ∅ in
  Ok (c, log ++ [mkStored c now]).

Program Definition plain : StoreRuntime := {| append_claim := plain_append |}.
Next Obligation.
  intros now origin input log c log' [= <- <-]. split; [done|]. split.
  - rewrite map_app. apply elem_of_app. right. left.
  - eexists. split; [done|]. intros d Hd. apply list_elem_of_singleton in Hd as ->. by left.
Qed.

(** The tables of a sponsor's store that invites read and write. *)
Record Sponsor := mkSponsor {
  sp_origin : string;
  sp_fleet_id : option string;
  sp_anchor : option string;
  sp_tokens : gmap string TokenRow;
  sp_claims : list StoredClaim;
  sp_envelopes : list (string * Z);
  sp_dropped_envelopes : list (string * Z)
}.

Definition with_tokens (s : Sponsor) (t : gmap string TokenRow) : Sponsor :=
  mkSponsor (sp_origin s) (sp_fleet_id s) (sp_anchor s) t (sp_claims s) (sp_envelopes s) (sp_dropped_envelopes s).
Definition with_claims (s : Sponsor) (l : list StoredClaim) : Sponsor :=
  mkSponsor (sp_origin s) (sp_fleet_id s) (sp_anchor s) (sp_tokens s) l (sp_envelopes s) (sp_dropped_envelopes s).

Definition claims_of (s : Sponsor) : list FleetClaim := map sc_claim (sp_claims s).

(** [fleet_membership]: the fold of the fleet claims from the pinned anchor. *)
Definition fleet_membership (s : Sponsor) : Membership :=
  Membership.fold (sp_anchor s) (List.filter (λ c, bool_decide (fc_kind c ∈ FLEET_CLAIM_KINDS)) (claims_of s)).

Definition max_sequence (writer : string) (rows : list (string * Z)) : option Z :=
  fold_right (λ row m, if str_eqb row.1 writer then Some (match m with None => row.2 | Some n => Z.max row.2 n end) else m)
    None rows.

Definition writer_high_water (s : Sponsor) (writer : string) : option Z :=
  match max_sequence writer (sp_envelopes s), max_sequence writer (sp_dropped_envelopes s) with
  | Some a, Some b => Some (Z.max a b)
  | Some a, None => Some a
  | None, b => b
  end.

(** ** Tokens *)

Definition set_token (row : TokenRow) (token : option string) : TokenRow :=
  mkTokenRow token (tk_expires_at_unix_ms row) (tk_name row) (tk_migrate row) (tk_bound_key row) (tk_bound_name row)
    (tk_failures row) (tk_admitted_claim row) (tk_writer_floor row) (tk_created_by row).
Definition set_failures (row : TokenRow) (failures : Z) : TokenRow :=
  mkTokenRow (tk_token row) (tk_expires_at_unix_ms row) (tk_name row) (tk_migrate row) (tk_bound_key row) (tk_bound_name row)
    failures (tk_admitted_claim row) (tk_writer_floor row) (tk_created_by row).
Definition set_bound (row : TokenRow) (key name : string) (floor : option Z) : TokenRow :=
  mkTokenRow (tk_token row) (tk_expires_at_unix_ms row) (tk_name row) (tk_migrate row) (Some key) (Some name)
    (tk_failures row) (tk_admitted_claim row) floor (tk_created_by row).
Definition set_admitted (row : TokenRow) (claim : string) : TokenRow :=
  mkTokenRow (tk_token row) (tk_expires_at_unix_ms row) (tk_name row) (tk_migrate row) (tk_bound_key row) (tk_bound_name row)
    (tk_failures row) (Some claim) (tk_writer_floor row) (tk_created_by row).

Definition invite_subject (invite : string) : string := "fleet-invite/" +:+ invite.

Definition revoked (s : Sponsor) (invite : string) : bool :=
  existsb (λ c, str_eqb (fc_subject c) (invite_subject invite) && str_eqb (fc_kind c) "fleet.invite-revoked") (claims_of s).

Definition sweep_row (now : Z) (s : Sponsor) (invite : string) (row : TokenRow) : TokenRow :=
  if is_some (tk_token row) && ((tk_expires_at_unix_ms row <=? now)%Z || revoked s invite)
  then set_token row None else row.

Definition sweep_fleet_invites (now : Z) (s : Sponsor) : Sponsor :=
  with_tokens s (map_imap (λ invite row, Some (sweep_row now s invite row)) (sp_tokens s)).

Definition any_open (s : Sponsor) : bool := existsb (λ kv, is_some (tk_token kv.2)) (map_to_list (sp_tokens s)).

(** Replacing a row, when there is one. *)
Definition update_row (s : Sponsor) (invite : string) (f : TokenRow → TokenRow) : Sponsor :=
  with_tokens s (alter f invite (sp_tokens s)).
End store.

Section invites.
Context `{crypto : JoinCrypto} {runtime : StoreRuntime}.

(** ** Making an invite *)

Definition append (now : Z) (s : Sponsor) (input : ClaimInput) : outcome (FleetClaim * Sponsor) :=
  let? (c, log) := append_claim now (sp_origin s) input (sp_claims s) in
  Ok (c, with_claims s log).

Definition created_fields (s : Sponsor) (name : option string) (expires_at : Z) (transports : list string) (person : string) :
    list (string * Value) :=
  [("sponsor", Str ("host/" +:+ sp_origin s)); ("expires_at_unix_ms", Num (number_of expires_at));
   ("transports", Array (map Str transports)); ("created_by", Str person)]
  ++ match name with Some name => [("name", Str name)] | None => [] end.

(** [lifetime] is in milliseconds; [invite] and [token] are random. An error is its code. *)
Definition create_fleet_invite (now : Z) (name : option string) (lifetime : Z) (transports : list string) (person : string)
    (migrate : bool) (invite token : list ascii) (s : Sponsor) : Sponsor * outcome CreatedFleetInvite :=
  if is_some_and name (λ name, negb (valid_fleet_node_name name)) then (s, Err "invalid-node-name")
  else if negb ((10 <=? lifetime / 1000) && (lifetime / 1000 <=? 86400))%Z then (s, Err "invalid-invite-lifetime")
  else
    match state (fleet_membership s) (sp_origin s) with
    | Current own =>
        if negb (str_eqb (inc_mode own) "listening") then (s, Err "dial-out-cannot-sponsor")
        else
          let invite := hex_text invite in
          let expires_at := (now + lifetime)%Z in
          if (u64_max <? expires_at)%Z then (s, Err "internal")
          else
            match append now s (mkClaimInput (invite_subject invite) "fleet.invite-created" (Some person)
                                  (created_fields s name expires_at transports person) [] None None) with
            | Err e => (s, Err e)
            | Ok (_, s) =>
                if is_some (sp_tokens s !! invite) then (s, Err "internal")
                else
                  let row := mkTokenRow (Some (hex_text token)) expires_at name migrate None None 0 None None (Some person) in
                  (with_tokens s (<[invite := row]> (sp_tokens s)), Ok (mkCreated invite token expires_at))
            end
    | _ => (s, Err "not-a-member")
    end.

(** ** Revoking an invite *)

Definition revoke_input (invite reason : string) (person : option string) : ClaimInput :=
  mkClaimInput (invite_subject invite) "fleet.invite-revoked" person
    (("reason", Str reason) :: match person with Some person => [("revoked_by", Str person)] | None => [] end)
    [] None (Some ("fleet-invite-revoked:" +:+ invite)).

Definition revoke_fleet_invite (now : Z) (invite reason : string) (person : option string) (s : Sponsor) :
    Sponsor * outcome unit :=
  match append now s (revoke_input invite reason person) with
  | Err e => (s, Err e)
  | Ok (_, s) => (sweep_fleet_invites now s, Ok tt)
  end.

(** ** The name rules *)

Definition max_end_of (m : Membership) (name : string) : option Z :=
  fold_right (λ i best, match inc_end i, best with
                        | Some e, Some b => Some (Z.max e b)
                        | Some e, None => Some e
                        | None, b => b
                        end) None (writer_incarnations m name).

Definition fleet_name_floor (name : string) (joiner_wrote_as_name migrate : bool) (s : Sponsor) : result string (option Z) :=
  let membership := fleet_membership s in
  match state membership name with
  | Current _ | Conflicted _ => Err "name-in-use"
  | st =>
      let ended_end := match st with
                       | Ended _ => max_end_of membership name
                       | LegacyRemoved high_water => Some high_water
                       | _ => None
                       end in
      if migrate then (if is_some ended_end then Err "name-was-removed" else Ok None)
      else
        let held := writer_high_water s name in
        let claimed := existsb (λ c, str_eqb (fc_subject c) ("host/" +:+ name) && bool_decide (fc_kind c ∈ FLEET_CLAIM_KINDS))
                         (claims_of s) in
        if is_none held && negb claimed then Ok None
        else
          match ended_end with
          | None => Err "name-has-unremoved-history"
          | Some ended_end =>
              if joiner_wrote_as_name then Err "store-already-wrote-as-name"
              else Ok (Some (Z.max (default 0%Z held) ended_end))
          end
  end.

(** ** Redeeming an invite, step by step *)

(** An admission that is being written. *)
Record Admission := mkAdmission {
  am_migrate : bool;
  am_floor : option Z;
  am_created_by : option string;
  am_token : list ascii;
  am_first : bool
}.

Inductive Redeeming :=
| Sweeping (r : JoinRequest)
| Counting (r : JoinRequest)
| Reading (r : JoinRequest)
| Failing (r : JoinRequest) (failures : Z)
| Revoking (invite reason : string) (person : option string) (answer : option FleetRedemption)
| Erasing (answer : option FleetRedemption)
| Naming (r : JoinRequest) (row : TokenRow) (token : list ascii)
| Binding (r : JoinRequest) (row : TokenRow) (token : list ascii) (floor : option Z)
| WritingRedeemed (r : JoinRequest) (a : Admission)
| WritingAdmitted (r : JoinRequest) (a : Admission) (fleet_id : string)
| Recording (r : JoinRequest) (a : Admission) (claim : string)
| Finished (answer : outcome (option FleetRedemption)).

Definition answered (r : FleetRedemption) : Redeeming := Finished (Ok (Some r)).

(** What the row decides once it is read. *)
Definition judge_row (r : JoinRequest) (row : TokenRow) (hex : string) : Redeeming :=
  match hex_bytes hex with
  | Some token =>
      if negb (length token =? 16)%nat then Finished (Err "a stored invite token is damaged")
      else
        match verify_request r token with
        | Err FaultProof => Failing r (tk_failures row + 1)
        | Err _ => answered (Refused "request")
        | Ok _ =>
            if negb (Bool.eqb (jr_migrate r) (tk_migrate row)) then answered (Refused "kind")
            else if is_some_and (tk_name row) (λ pinned, negb (str_eqb pinned (jr_name r)))
                    || negb (valid_fleet_node_name (jr_name r))
                    || negb (str_eqb (jr_mode r) "listening" || str_eqb (jr_mode r) "dial-out")
            then answered (Refused "name")
            else
              match tk_bound_key row with
              | Some bound =>
                  if negb (str_eqb bound (jr_member_key r)) || negb (ostr_eqb (tk_bound_name row) (Some (jr_name r)))
                  then answered (Refused "bound-to-another-key")
                  else
                    match tk_admitted_claim row with
                    | Some claim => answered (AdmittedJoin token (tk_writer_floor row) (Some claim) false)
                    | None => WritingRedeemed r (mkAdmission (tk_migrate row) (tk_writer_floor row) (tk_created_by row) token false)
                    end
              | None => Naming r row token
              end
        end
  | None => Finished (Err "a stored invite token is damaged")
  end.

Definition redeemed_input (r : JoinRequest) : ClaimInput :=
  mkClaimInput (invite_subject (jr_invite r)) "fleet.invite-redeemed" None
    [("name", Str (jr_name r)); ("member_key", Str (jr_member_key r))] [] None
    (Some ("fleet-invite-redeemed:" +:+ jr_invite r)).

Definition admitted_input (s : Sponsor) (r : JoinRequest) (a : Admission) (fleet_id : string) : ClaimInput :=
  mkClaimInput ("host/" +:+ jr_name r) MEMBER_ADMITTED (am_created_by a)
    ([("fleet_id", Str fleet_id); ("member_key", Str (jr_member_key r));
      ("via", Str (if am_migrate a then "migration" else "invite")); ("sponsor", Str ("host/" +:+ sp_origin s));
      ("invite", Str (invite_subject (jr_invite r))); ("mode", Str (jr_mode r))]
     ++ match am_floor a with Some floor => [("writer_floor", Num (number_of floor))] | None => [] end
     ++ match am_created_by a with Some person => [("admitted_by", Str person)] | None => [] end)
    [] None (Some ("fleet-invite-admitted:" +:+ jr_invite r)).

(** The row that [WHERE invite_id=? AND token IS NOT NULL] finds, with its token. *)
Definition open_row (s : Sponsor) (invite : string) : option (TokenRow * string) :=
  match sp_tokens s !! invite with
  | Some row => (λ token, (row, token)) <$> tk_token row
  | None => None
  end.

(** One read or write of [redeem_fleet_invite], with [append_fleet_admission] and
    [revoke_fleet_invite] in it. *)
Definition redeem_step (now : Z) (s : Sponsor) (p : Redeeming) : Sponsor * Redeeming :=
  match p with
  | Sweeping r => (sweep_fleet_invites now s, Counting r)
  | Counting r => (s, if any_open s then Reading r else answered Closed)
  | Reading r =>
      (s, match open_row s (jr_invite r) with
          | Some (row, token) => judge_row r row token
          | None => answered (Refused "unknown-invite")
          end)
  | Failing r failures =>
      (update_row s (jr_invite r) (λ row, set_failures row failures),
       if (FLEET_INVITE_FAILURE_LIMIT <=? failures)%Z
       then Revoking (jr_invite r) "too-many-failures" None (Some (Refused "proof"))
       else answered (Refused "proof"))
  | Revoking invite reason person answer =>
      match append now s (revoke_input invite reason person) with
      | Ok (_, s) => (s, Erasing answer)
      | Err e => (s, Finished (Err e))
      end
  | Erasing answer => (sweep_fleet_invites now s, Finished (Ok answer))
  | Naming r row token =>
      (s, match fleet_name_floor (jr_name r) (is_some (jr_writer_head r)) (tk_migrate row) s with
          | Ok floor => Binding r row token floor
          | Err reason => answered (Refused reason)
          end)
  | Binding r row token floor =>
      match open_row s (jr_invite r) with
      | Some (now_row, _) =>
          if is_none (tk_bound_key now_row)
          then (update_row s (jr_invite r) (λ row, set_bound row (jr_member_key r) (jr_name r) floor),
                WritingRedeemed r (mkAdmission (tk_migrate row) floor (tk_created_by row) token true))
          else (s, answered (Refused "bound-to-another-key"))
      | None => (s, answered (Refused "bound-to-another-key"))
      end
  | WritingRedeemed r a =>
      match sp_fleet_id s with
      | None => (s, Finished (Err "this store is not in a fleet"))
      | Some fleet_id =>
          match append now s (redeemed_input r) with
          | Ok (_, s) => (s, WritingAdmitted r a fleet_id)
          | Err e => (s, Finished (Err e))
          end
      end
  | WritingAdmitted r a fleet_id =>
      match append now s (admitted_input s r a fleet_id) with
      | Ok (c, s) => (s, Recording r a (fc_id c))
      | Err e => (s, Finished (Err e))
      end
  | Recording r a claim =>
      (update_row s (jr_invite r) (λ row, set_admitted row claim),
       answered (AdmittedJoin (am_token a) (am_floor a) (Some claim) (am_first a)))
  | Finished _ => (s, p)
  end.

(** A redemption that nothing interrupts. *)
Fixpoint redeem_run (fuel : nat) (now : Z) (s : Sponsor) (p : Redeeming) : Sponsor * Redeeming :=
  match fuel with
  | O => (s, p)
  | S fuel => let '(s, p) := redeem_step now s p in redeem_run fuel now s p
  end.

(** No redemption takes more than eight steps ([redeem_run_finishes]). *)
Definition redeem_fleet_invite (now : Z) (s : Sponsor) (r : JoinRequest) : Sponsor * outcome FleetRedemption :=
  match redeem_run 8 now s (Sweeping r) with
  | (s, Finished (Ok (Some answer))) => (s, Ok answer)
  | (s, Finished (Err e)) => (s, Err e)
  | (s, _) => (s, Err "unfinished")
  end.

(** ** Every redemption ends *)

Definition rank (p : Redeeming) : nat :=
  match p with
  | Sweeping _ => 8 | Counting _ => 7 | Reading _ => 6 | Naming _ _ _ => 5 | Binding _ _ _ _ => 4
  | WritingRedeemed _ _ => 3 | WritingAdmitted _ _ _ => 2 | Recording _ _ _ => 1
  | Failing _ _ => 3 | Revoking _ _ _ _ => 2 | Erasing _ => 1 | Finished _ => 0
  end.

(** A redemption that answers a request. *)
Definition asks (p : Redeeming) : bool :=
  match p with
  | Revoking _ _ _ answer | Erasing answer | Finished (Ok answer) => is_some answer
  | _ => true
  end.

Lemma judge_row_next r row hex : (rank (judge_row r row hex) ≤ 5)%nat ∧ asks (judge_row r row hex) = true.
Proof. unfold judge_row. repeat (case_match; try (simpl; split; [lia|done])). Qed.

Lemma redeem_step_next now s p :
  asks p = true →
  (rank (redeem_step now s p).2 ≤ pred (rank p))%nat ∧ asks (redeem_step now s p).2 = true.
Proof.
  intros Ha. destruct p; cbn [redeem_step]; simpl in Ha;
    repeat (case_match; simpl in *; simplify_eq; try (split; [lia|done]); try apply judge_row_next); simpl; auto with lia.
Qed.

Lemma redeem_run_finishes n : ∀ now s p, (rank p ≤ n)%nat → asks p = true →
  ∃ s' answer, redeem_run n now s p = (s', Finished answer) ∧ asks (Finished answer) = true.
Proof.
  induction n as [|n IH]; intros now s p Hr Ha.
  - destruct p; simpl in Hr; try lia. simpl. eauto.
  - simpl. pose proof (redeem_step_next now s p Ha) as [Hn Ha']. destruct (redeem_step now s p) as [s' p'].
    apply IH; [simpl in *; lia|done].
Qed.

Lemma redeem_is_run now s r :
  ∃ s' answer, redeem_run 8 now s (Sweeping r) = (s', Finished answer) ∧
    redeem_fleet_invite now s r = (s', match answer with Ok a => Ok (default Closed a) | Err e => Err e end) ∧
    asks (Finished answer) = true.
Proof.
  destruct (redeem_run_finishes 8 now s (Sweeping r)) as (s' & answer & E & Ha); [done..|]. exists s', answer.
  split_and!; [done| |done]. unfold redeem_fleet_invite. rewrite E. destruct answer as [[a|]|]; done.
Qed.

(** ** What steps leave alone *)

Definition bound (row : TokenRow) : option (string * string) :=
  match tk_bound_key row, tk_bound_name row with
  | Some key, Some name => Some (key, name)
  | _, _ => None
  end.

Lemma sweep_lookup now s i :
  sp_tokens (sweep_fleet_invites now s) !! i = sweep_row now s i <$> sp_tokens s !! i.
Proof. unfold sweep_fleet_invites, with_tokens. cbn [sp_tokens]. rewrite map_lookup_imap. by destruct (sp_tokens s !! i). Qed.

Lemma update_row_lookup s i f j :
  sp_tokens (update_row s i f) !! j = if decide (i = j) then f <$> sp_tokens s !! j else sp_tokens s !! j.
Proof. unfold update_row, with_tokens. cbn [sp_tokens]. case_decide; subst; by simplify_map_eq. Qed.

Lemma append_spec now s input c s' :
  append now s input = Ok (c, s') →
  says input c ∧ c ∈ claims_of s' ∧ sp_tokens s' = sp_tokens s ∧ sp_origin s' = sp_origin s ∧ sp_fleet_id s' = sp_fleet_id s ∧
  ∃ new, claims_of s' = claims_of s ++ new ∧
    ∀ d, d ∈ new → (says input d ∧ fc_writer d = sp_origin s) ∨ starts_with "fleet." (fc_kind d) = false.
Proof.
  unfold append. destruct (append_claim _ _ _ _) as [[c' log]|] eqn:E; [|done]. simpl. intros [= <- <-].
  apply append_claim_ok in E as (Hs & Hc & new & -> & Hn). unfold claims_of, with_claims. simpl.
  split_and!; [done..|]. exists (map sc_claim new). by rewrite map_app.
Qed.

(** ** Redemptions in parallel *)

(** The sponsor with its clock, the requests in progress, and the codes it has given out: the token of
    each invite. *)
Record Desk := mkDesk {
  dk_now : Z;
  dk_store : Sponsor;
  dk_jobs : list Redeeming;
  dk_codes : gmap string (list ascii)
}.

(** An admission that this node wrote for an invite. *)
Definition admits_through (origin invite : string) (c : FleetClaim) : Prop :=
  fc_kind c = MEMBER_ADMITTED ∧ fc_writer c = origin ∧ claim_text c "invite" = Some (invite_subject invite).

Inductive desk_step : Desk → Desk → Prop :=
| desk_create now s jobs codes name lifetime transports person migrate invite token s' created :
    create_fleet_invite now name lifetime transports person migrate invite token s = (s', Ok created) →
    desk_step (mkDesk now s jobs codes) (mkDesk now s' jobs (<[cf_invite created := cf_token created]> codes))
| desk_create_failed now s jobs codes name lifetime transports person migrate invite token s' e :
    create_fleet_invite now name lifetime transports person migrate invite token s = (s', Err e) →
    desk_step (mkDesk now s jobs codes) (mkDesk now s' jobs codes)
| desk_request now s jobs codes r :
    desk_step (mkDesk now s jobs codes) (mkDesk now s (jobs ++ [Sweeping r]) codes)
| desk_revoke now s jobs codes invite reason person :
    desk_step (mkDesk now s jobs codes) (mkDesk now s (jobs ++ [Revoking invite reason person None]) codes)
| desk_run now s jobs codes k p s' p' :
    jobs !! k = Some p → redeem_step now s p = (s', p') →
    desk_step (mkDesk now s jobs codes) (mkDesk now s' (<[k := p']> jobs) codes)
| desk_claim now s jobs codes c :
    (∀ invite, ¬ admits_through (sp_origin s) invite (sc_claim c)) →
    desk_step (mkDesk now s jobs codes) (mkDesk now (with_claims s (sp_claims s ++ [c])) jobs codes)
| desk_time now now' s jobs codes :
    (now ≤ now')%Z → desk_step (mkDesk now s jobs codes) (mkDesk now' s jobs codes).

Definition desk_start (d : Desk) : Prop :=
  sp_tokens (dk_store d) = ∅ ∧ dk_jobs d = [] ∧ dk_codes d = ∅ ∧
  ∀ c invite, c ∈ claims_of (dk_store d) → ¬ admits_through (sp_origin (dk_store d)) invite c.

(** A request that proves the token of its invite. *)
Definition proves (codes : gmap string (list ascii)) (r : JoinRequest) : Prop :=
  ∃ token, codes !! jr_invite r = Some token ∧ verify_request r token = Ok tt ∧ valid_fleet_node_name (jr_name r) = true.

Definition row_ok (codes : gmap string (list ascii)) (i : string) (row : TokenRow) : Prop :=
  ∃ token, codes !! i = Some token ∧
    (∀ hex, tk_token row = Some hex → hex = hex_text token) ∧
    (is_some (tk_bound_key row) = is_some (tk_bound_name row)) ∧
    ∀ key name, bound row = Some (key, name) →
      ∃ r, proves codes r ∧ jr_invite r = i ∧ jr_member_key r = key ∧ jr_name r = name.

Definition bound_to (tokens : gmap string TokenRow) (r : JoinRequest) : Prop :=
  ∃ row, tokens !! jr_invite r = Some row ∧ bound row = Some (jr_member_key r, jr_name r).

Definition job_ok (codes : gmap string (list ascii)) (tokens : gmap string TokenRow) (p : Redeeming) : Prop :=
  match p with
  | Naming r _ _ | Binding r _ _ _ => proves codes r
  | WritingRedeemed r _ | WritingAdmitted r _ _ | Recording r _ _ => bound_to tokens r
  | _ => True
  end.

Definition claims_ok (s : Sponsor) : Prop :=
  ∀ c i, c ∈ claims_of s → admits_through (sp_origin s) i c →
    ∃ row key name, sp_tokens s !! i = Some row ∧ bound row = Some (key, name) ∧
      fc_subject c = "host/" +:+ name ∧ claim_text c "member_key" = Some key.

Definition store_ok (codes : gmap string (list ascii)) (s : Sponsor) : Prop :=
  map_Forall (row_ok codes) (sp_tokens s) ∧ (∀ i, is_Some (codes !! i) → is_Some (sp_tokens s !! i)) ∧ claims_ok s.

Definition desk_ok (d : Desk) : Prop :=
  store_ok (dk_codes d) (dk_store d) ∧ Forall (job_ok (dk_codes d) (sp_tokens (dk_store d))) (dk_jobs d).

(** Rows keep what they are bound to. *)
Definition rows_kept (tokens tokens' : gmap string TokenRow) : Prop :=
  ∀ i row, tokens !! i = Some row → ∃ row', tokens' !! i = Some row' ∧ (is_Some (bound row) → bound row' = bound row).

Lemma bound_to_kept tokens tokens' r : rows_kept tokens tokens' → bound_to tokens r → bound_to tokens' r.
Proof. intros Hk (row & Hr & Hb). destruct (Hk _ _ Hr) as (row' & Hr' & E). exists row'. rewrite E by eauto. done. Qed.

Lemma job_ok_kept codes tokens tokens' p : rows_kept tokens tokens' → job_ok codes tokens p → job_ok codes tokens' p.
Proof. intros Hk. destruct p; simpl; eauto using bound_to_kept. Qed.

Lemma rows_kept_refl tokens : rows_kept tokens tokens.
Proof. intros i row Hr. eauto. Qed.

Lemma rows_kept_sweep now s : rows_kept (sp_tokens s) (sp_tokens (sweep_fleet_invites now s)).
Proof.
  intros i row Hr. exists (sweep_row now s i row). rewrite sweep_lookup, Hr. split; [done|].
  intros _. unfold sweep_row. by case_match.
Qed.

Lemma rows_kept_update s i f :
  (∀ row, sp_tokens s !! i = Some row → is_Some (bound row) → bound (f row) = bound row) →
  rows_kept (sp_tokens s) (sp_tokens (update_row s i f)).
Proof.
  intros Hf j row Hr. rewrite update_row_lookup. case_decide as E; subst; rewrite Hr; simpl; eauto.
Qed.

Lemma rows_ok_update codes s i f :
  map_Forall (row_ok codes) (sp_tokens s) →
  (∀ row, sp_tokens s !! i = Some row → row_ok codes i row → row_ok codes i (f row)) →
  map_Forall (row_ok codes) (sp_tokens (update_row s i f)).
Proof.
  intros Hs Hf j row Hr. rewrite update_row_lookup in Hr. case_decide as E; subst; [|by apply Hs].
  apply fmap_Some in Hr as (row0 & Hr & ->). apply Hf; [done|]. by apply Hs.
Qed.

Lemma rows_ok_sweep codes now s :
  map_Forall (row_ok codes) (sp_tokens s) → map_Forall (row_ok codes) (sp_tokens (sweep_fleet_invites now s)).
Proof.
  intros Hs i row Hr. rewrite sweep_lookup in Hr. apply fmap_Some in Hr as (row0 & Hr & ->).
  destruct (Hs _ _ Hr) as (token & Ht & Hx & Hb). exists token. unfold sweep_row. split; [done|].
  case_match; [|by split]. split; [done|]. exact Hb.
Qed.

Lemma rows_kept_dom tokens tokens' (codes : gmap string (list ascii)) :
  rows_kept tokens tokens' → (∀ i, is_Some (codes !! i) → is_Some (tokens !! i)) →
  ∀ i, is_Some (codes !! i) → is_Some (tokens' !! i).
Proof. intros Hk Hd i Hi. destruct (Hd i Hi) as [row Hr]. destruct (Hk _ _ Hr) as (row' & -> & _). eauto. Qed.

(** A change of rows alone. *)
Lemma store_ok_rows codes s tokens' :
  store_ok codes s → rows_kept (sp_tokens s) tokens' → map_Forall (row_ok codes) tokens' → store_ok codes (with_tokens s tokens').
Proof.
  intros (_ & Hd & Hc) Hk Hr. split; [done|]. split; [by eapply rows_kept_dom|].
  intros c i Hin Ha. destruct (Hc c i Hin Ha) as (row & key & name & E & Hb & Hs & Hm).
  destruct (Hk _ _ E) as (row' & E' & Hb'). exists row', key, name. rewrite Hb' by eauto. done.
Qed.

Lemma says_text input c field v :
  says input c → (list_to_map (ci_fields input) : gmap string Value) !! field = Some (Str v) → claim_text c field = Some v.
Proof. intros (_ & _ & E) Hv. unfold claim_text. by rewrite E, Hv. Qed.

(** Appending a claim. *)
Lemma store_ok_append codes now s input c s' :
  append now s input = Ok (c, s') → store_ok codes s →
  (∀ d i, says input d → admits_through (sp_origin s) i d →
     ∃ row key name, sp_tokens s !! i = Some row ∧ bound row = Some (key, name) ∧
       fc_subject d = "host/" +:+ name ∧ claim_text d "member_key" = Some key) →
  store_ok codes s' ∧ sp_tokens s' = sp_tokens s ∧ sp_origin s' = sp_origin s.
Proof.
  intros Ha (Hr & Hd & Hc) Hnew. apply append_spec in Ha as (_ & _ & Ht & Ho & _ & new & Hcl & Hn).
  split; [|done]. unfold store_ok. rewrite Ht. split_and!; [done..|]. intros d i Hin Hadm. rewrite Hcl in Hin.
  rewrite Ht. rewrite Ho in Hadm. apply elem_of_app in Hin as [Hin|Hin]; [by apply Hc|].
  destruct (Hn d Hin) as [[Hs _]|Hf]; [by apply Hnew|]. destruct Hadm as (Hk & _). by rewrite Hk in Hf.
Qed.

Lemma other_kind_ok origin (input : ClaimInput) (P : FleetClaim → string → Prop) :
  ci_kind input ≠ MEMBER_ADMITTED → ∀ d i, says input d → admits_through origin i d → P d i.
Proof. intros Hk d i (_ & E & _) (E' & _). congruence. Qed.

Lemma invite_subject_inj a b : invite_subject a = invite_subject b → a = b.
Proof. unfold invite_subject. intros E. by injection E. Qed.

Lemma verified_row codes s r row hex :
  map_Forall (row_ok codes) (sp_tokens s) → open_row s (jr_invite r) = Some (row, hex) →
  job_ok codes (sp_tokens s) (judge_row r row hex).
Proof.
  unfold open_row. intros Hr Ho. destruct (sp_tokens s !! jr_invite r) as [row'|] eqn:Er; [|done].
  destruct (tk_token row') as [hex'|] eqn:Et; [|done]. simpl in Ho. injection Ho as -> ->.
  destruct (Hr _ _ Er) as (token & Hc & Hh & Hb & _). specialize (Hh _ Et) as ->.
  unfold judge_row. rewrite hex_bytes_text. case_match; [done|].
  destruct (verify_request r token) as [[]|[]] eqn:Hv; try done. case_match; [done|].
  destruct (is_some_and _ _ || _ || _) eqn:Hn; [done|]. apply orb_false_iff in Hn as [[_ Hn]%orb_false_iff _].
  apply negb_false_iff in Hn. destruct (tk_bound_key row) as [key|] eqn:Hk; [|by exists token].
  destruct (negb _ || negb _) eqn:Hbn; [done|]. apply orb_false_iff in Hbn as [Hb1%negb_false_iff Hb2%negb_false_iff].
  apply str_eqb_true in Hb1. apply ostr_eqb_true in Hb2. case_match; [done|]. exists row. unfold bound. by rewrite Hk, Hb2, Hb1.
Qed.

(** The fields that tie an admission to its invite and its member. *)
Lemma admitted_input_fields s r a fleet_id d :
  says (admitted_input s r a fleet_id) d →
  fc_subject d = "host/" +:+ jr_name r ∧ claim_text d "invite" = Some (invite_subject (jr_invite r)) ∧
  claim_text d "member_key" = Some (jr_member_key r).
Proof.
  intros Hs. split; [by destruct Hs as (-> & _)|].
  split; apply (says_text _ _ _ _ Hs); unfold admitted_input; cbn [ci_fields app list_to_map foldr fst snd]; by simplify_map_eq.
Qed.

(** What a step of a redemption has to keep. *)
Definition kept (codes : gmap string (list ascii)) (s s' : Sponsor) (p' : Redeeming) : Prop :=
  store_ok codes s' ∧ job_ok codes (sp_tokens s') p' ∧ rows_kept (sp_tokens s) (sp_tokens s').

Lemma kept_same codes s p' : store_ok codes s → job_ok codes (sp_tokens s) p' → kept codes s s p'.
Proof. intros ??. split_and!; [done..|apply rows_kept_refl]. Qed.

Lemma kept_rows codes s tokens' p' :
  store_ok codes s → map_Forall (row_ok codes) tokens' → rows_kept (sp_tokens s) tokens' → job_ok codes tokens' p' →
  kept codes s (with_tokens s tokens') p'.
Proof. intros ????. split_and!; [by apply store_ok_rows|done..]. Qed.

Lemma kept_append codes now s input c s' p' :
  append now s input = Ok (c, s') → store_ok codes s → job_ok codes (sp_tokens s) p' →
  (∀ d i, says input d → admits_through (sp_origin s) i d →
     ∃ row key name, sp_tokens s !! i = Some row ∧ bound row = Some (key, name) ∧
       fc_subject d = "host/" +:+ name ∧ claim_text d "member_key" = Some key) →
  kept codes s s' p'.
Proof.
  intros Ha Hs Hj Hnew. eapply store_ok_append in Ha as (Hs' & Ht & _); [|done..].
  unfold kept. rewrite Ht. split_and!; [done..|apply rows_kept_refl].
Qed.

Lemma kept_sweep codes now s p' : store_ok codes s → (∀ tokens, job_ok codes tokens p') → kept codes s (sweep_fleet_invites now s) p'.
Proof. intros Hs Hj. apply kept_rows; [done|apply rows_ok_sweep, Hs|apply rows_kept_sweep|done]. Qed.

(** Changing a row without its token and what it is bound to. *)
Lemma kept_update codes s i f p' :
  store_ok codes s → (∀ row, tk_token (f row) = tk_token row ∧ tk_bound_key (f row) = tk_bound_key row ∧ tk_bound_name (f row) = tk_bound_name row) →
  (∀ tokens, job_ok codes tokens p') → kept codes s (update_row s i f) p'.
Proof.
  intros Hs Hf Hj. pose proof Hs as (Hr & _). assert (Hb : ∀ row, bound (f row) = bound row)
    by (intros row; unfold bound; destruct (Hf row) as (_ & -> & ->); done).
  apply kept_rows; [done| | |done].
  - apply rows_ok_update; [done|]. intros row _ (t & Ht & Hh & Hbn & Hp). exists t. rewrite Hb.
    destruct (Hf row) as (-> & -> & ->). done.
  - by apply rows_kept_update.
Qed.

Lemma kept_binding codes s r row hex floor a :
  store_ok codes s → proves codes r → open_row s (jr_invite r) = Some (row, hex) → is_none (tk_bound_key row) = true →
  kept codes s (update_row s (jr_invite r) (λ row, set_bound row (jr_member_key r) (jr_name r) floor)) (WritingRedeemed r a).
Proof.
  intros Hs Hp Ho Hn. pose proof Hs as (Hr & _). unfold open_row in Ho.
  destruct (sp_tokens s !! jr_invite r) as [row'|] eqn:Er; [|done]. destruct (tk_token row') eqn:Et; [|done].
  simpl in Ho. injection Ho as -> ->. apply kept_rows; [done| | |].
  - apply rows_ok_update; [done|]. intros row0 _ (token & Ht & Hh & _ & _). exists token. split_and!; [done..|].
    intros key name [= <- <-]. by exists r.
  - apply rows_kept_update. intros row0 E0 [x Hx]. simplify_eq. unfold bound in Hx. by destruct (tk_bound_key row).
  - exists (set_bound row (jr_member_key r) (jr_name r) floor). split; [|done].
    change (alter _ _ _) with (sp_tokens (update_row s (jr_invite r) (λ row, set_bound row (jr_member_key r) (jr_name r) floor))).
    by rewrite update_row_lookup, decide_True, Er by done.
Qed.

(** Every step of a redemption keeps the store right. *)
Lemma redeem_step_ok codes now s p :
  store_ok codes s → job_ok codes (sp_tokens s) p → let '(s', p') := redeem_step now s p in kept codes s s' p'.
Proof.
  intros Hs Hj. destruct p as [r|r|r|r f|i reason person ans|ans|r row t|r row t floor|r a|r a fid|r a cid|ans]; cbn [redeem_step].
  - by apply kept_sweep.
  - apply kept_same; [done|]. by destruct (any_open s).
  - apply kept_same; [done|]. destruct (open_row s (jr_invite r)) as [[row hex]|] eqn:Ho; [by apply verified_row; [apply Hs|]|done].
  - apply kept_update; [done|done|]. by case_match.
  - destruct (append now s _) as [[c s1]|] eqn:Ha; [|by apply kept_same].
    eapply kept_append; [exact Ha|done..|by apply other_kind_ok].
  - by apply kept_sweep.
  - apply kept_same; [done|]. by case_match.
  - destruct (open_row s (jr_invite r)) as [[row' hex]|] eqn:Ho; [|by apply kept_same].
    destruct (is_none (tk_bound_key row')) eqn:Hn; [by eapply kept_binding|by apply kept_same].
  - destruct (sp_fleet_id s); [|by apply kept_same]. destruct (append now s _) as [[c s1]|] eqn:Ha; [|by apply kept_same].
    eapply kept_append; [exact Ha|done..|by apply other_kind_ok].
  - destruct (append now s _) as [[c s1]|] eqn:Ha; [|by apply kept_same]. eapply kept_append; [exact Ha|done..|].
    intros d i Hsay (_ & _ & Hinv). destruct Hj as (row & Hrow & Hb).
    apply admitted_input_fields in Hsay as (Hsub & Hi & Hm). rewrite Hi in Hinv.
    apply (inj Some) in Hinv. apply invite_subject_inj in Hinv as <-. by exists row, (jr_member_key r), (jr_name r).
  - by apply kept_update.
  - by apply kept_same.
Qed.

(** ** Making an invite keeps the store right *)

Lemma proves_mono codes codes' r : codes ⊆ codes' → proves codes r → proves codes' r.
Proof. intros Hsub (t & Ht & Hv). exists t. split; [by eapply lookup_weaken|done]. Qed.

Lemma row_ok_mono codes codes' i row : codes ⊆ codes' → row_ok codes i row → row_ok codes' i row.
Proof.
  intros Hsub (t & Ht & Hh & Hb & Hp). exists t. split_and!; [by eapply lookup_weaken|done..|].
  intros key name E. destruct (Hp key name E) as (r & Hr & ?). eauto using proves_mono.
Qed.

Lemma job_ok_mono codes codes' tokens p : codes ⊆ codes' → job_ok codes tokens p → job_ok codes' tokens p.
Proof. intros Hsub. destruct p; simpl; eauto using proves_mono. Qed.

Lemma create_spec now name lifetime transports person migrate invite token s s' res :
  create_fleet_invite now name lifetime transports person migrate invite token s = (s', res) →
  (s' = s ∧ ∃ e, res = Err e) ∨
  ∃ input c s1, append now s input = Ok (c, s1) ∧ ci_kind input = "fleet.invite-created" ∧
    ((s' = s1 ∧ ∃ e, res = Err e) ∨
     (sp_tokens s1 !! hex_text invite = None ∧ res = Ok (mkCreated (hex_text invite) token (now + lifetime)) ∧
      s' = with_tokens s1 (<[hex_text invite := mkTokenRow (Some (hex_text token)) (now + lifetime) name migrate None None 0
                                                  None None (Some person)]> (sp_tokens s1)))).
Proof.
  unfold create_fleet_invite. case_match; [intros [= <- <-]; left; eauto|]. case_match; [intros [= <- <-]; left; eauto|].
  destruct (state _ _); try (intros [= <- <-]; left; by eauto). case_match; [intros [= <- <-]; left; eauto|].
  case_match; [intros [= <- <-]; left; eauto|].
  destruct (append _ _ _) as [[c s1]|e] eqn:Ha; [|intros [= <- <-]; left; by eauto].
  intros E. right. eexists _, c, s1. split; [exact Ha|]. split; [done|].
  destruct (sp_tokens s1 !! hex_text invite); simpl in E; injection E as <- <-; [left; eauto|by right].
Qed.

Lemma store_ok_create codes s i row token :
  store_ok codes s → sp_tokens s !! i = None → tk_token row = Some (hex_text token) → tk_bound_key row = None →
  tk_bound_name row = None →
  let s' := with_tokens s (<[i := row]> (sp_tokens s)) in
  store_ok (<[i := token]> codes) s' ∧ rows_kept (sp_tokens s) (sp_tokens s') ∧ codes ⊆ <[i := token]> codes.
Proof.
  intros (Hr & Hd & Hc) Hn Ht Hk Hname s'.
  assert (Hcn : codes !! i = None).
  { destruct (codes !! i) eqn:E; [|done]. destruct (Hd i) as [? E']; [by rewrite E|]. congruence. }
  assert (Hsub : codes ⊆ <[i := token]> codes) by by apply insert_subseteq.
  assert (Hkept : rows_kept (sp_tokens s) (<[i := row]> (sp_tokens s))).
  { intros j row' Hj. exists row'. by rewrite lookup_insert_ne by congruence. }
  split_and!; [|done|done]. split_and!.
  - apply map_Forall_insert_2; [|by eapply map_Forall_impl; [|intros; eapply row_ok_mono]].
    exists token. rewrite lookup_insert_eq, Ht, Hk, Hname. split_and!; [done|by intros ? [= <-]|done|].
    unfold bound. by rewrite Hk.
  - intros j. destruct (decide (i = j)) as [<-|Hne]; [intros _; cbn; rewrite lookup_insert_eq; eauto|].
    cbn. rewrite !lookup_insert_ne by done. apply Hd.
  - intros c j Hin Ha. destruct (Hc c j Hin Ha) as (row' & key & name & E & Hb & ?).
    exists row', key, name. split; [|done]. cbn. by rewrite lookup_insert_ne by congruence.
Qed.

Lemma desk_step_ok d d' : desk_step d d' → desk_ok d → desk_ok d'.
Proof.
  intros Hst [Hs Hj].
  destruct Hst as [now s jobs codes name lifetime transports person migrate invite token s' created E
                  |now s jobs codes name lifetime transports person migrate invite token s' e E
                  |now s jobs codes r|now s jobs codes invite reason person|now s jobs codes k p s' p' Hk E
                  |now s jobs codes c Hc|now now' s jobs codes Ht]; cbn in *.
  - apply create_spec in E as [[_ (e & [=])]|(input & c & s1 & Ha & Hkind & [[_ (e & [=])]|(Hn & [= ->] & ->)])].
    eapply store_ok_append in Ha as (Hs1 & Htk & _); [|done|apply other_kind_ok; by rewrite Hkind].
    destruct (store_ok_create codes s1 (hex_text invite)
                (mkTokenRow (Some (hex_text token)) (now + lifetime) name migrate None None 0 None None (Some person)) token)
      as (Hs2 & Hkept & Hsub); [done..|].
    split; [done|]. rewrite <- Htk in Hj. cbn in *. eapply Forall_impl; [exact Hj|].
    intros p Hp. eapply job_ok_kept; [exact Hkept|]. by eapply job_ok_mono.
  - apply create_spec in E as [[-> _]|(input & c & s1 & Ha & Hkind & [[-> _]|(_ & [=] & _)])]; [by split|].
    eapply store_ok_append in Ha as (Hs1 & Htk & _); [|done|apply other_kind_ok; by rewrite Hkind].
    split; [done|]. cbn. by rewrite Htk.
  - split; [done|]. apply Forall_app. split; [done|]. by repeat constructor.
  - split; [done|]. apply Forall_app. split; [done|]. by repeat constructor.
  - pose proof (redeem_step_ok codes now s p Hs) as Hstep. rewrite E in Hstep.
    destruct Hstep as (Hs' & Hp' & Hkept); [by eapply Forall_lookup_1|].
    split; [done|]. apply Forall_insert; [|done]. eapply Forall_impl; [exact Hj|]. intros. by eapply job_ok_kept.
  - split; [|done]. destruct Hs as (Hr & Hd & Hcl). split_and!; [done..|]. intros c' i Hin Ha.
    unfold claims_of, with_claims in Hin. cbn in Hin. rewrite map_app in Hin. apply elem_of_app in Hin as [Hin|Hin]; [by apply Hcl|].
    apply list_elem_of_singleton in Hin as ->. by destruct (Hc i).
  - by split.
Qed.

Lemma desk_start_ok d : desk_start d → desk_ok d.
Proof.
  intros (Ht & Hj & Hcode & Hc). unfold desk_ok, store_ok, claims_ok. rewrite Ht, Hj, Hcode.
  split_and!; [apply map_Forall_empty| | |done].
  - intros i [? E]. by rewrite lookup_empty in E.
  - intros c i Hin Ha. by destruct (Hc c i Hin).
Qed.

Lemma desk_reach_ok d0 d : desk_start d0 → rtc desk_step d0 d → desk_ok d.
Proof. intros Hst%desk_start_ok Hr. induction Hr; eauto using desk_step_ok. Qed.

(** C4. An invite admits one member. However requests for it interleave, with revocations, claims from
    other nodes and other invites, every admission this node writes through the invite names one
    node and one member key, those of a request that proved the invite's token. *)
Theorem an_invite_admits_one_member d0 d i c :
  desk_start d0 → rtc desk_step d0 d → c ∈ claims_of (dk_store d) → admits_through (sp_origin (dk_store d)) i c →
  ∃ r, proves (dk_codes d) r ∧ jr_invite r = i ∧
    ∀ c', c' ∈ claims_of (dk_store d) → admits_through (sp_origin (dk_store d)) i c' →
      fc_subject c' = "host/" +:+ jr_name r ∧ claim_text c' "member_key" = Some (jr_member_key r).
Proof.
  intros Hst Hr Hin Ha. destruct (desk_reach_ok d0 d Hst Hr) as [(Hrows & _ & Hc) _].
  destruct (Hc c i Hin Ha) as (row & key & name & Erow & Hb & _).
  destruct (Hrows _ _ Erow) as (token & _ & _ & _ & Hp). destruct (Hp key name Hb) as (r & Hpr & Hi & Hk & Hn).
  exists r. split_and!; [done..|]. intros c' Hin' Ha'. destruct (Hc c' i Hin' Ha') as (row' & key' & name' & Erow' & Hb' & Hs & Hm).
  rewrite Erow in Erow'. injection Erow' as <-. rewrite Hb in Hb'. injection Hb' as <- <-. by subst.
Qed.

(** ** One request at a time *)

Inductive DeskEvent :=
| Requested (now : Z) (r : JoinRequest)
| Revoked (now : Z) (invite reason : string) (person : option string)
| Created (now : Z) (name : option string) (lifetime : Z) (transports : list string) (person : string) (migrate : bool)
    (invite token : list ascii)
| Arrived (cs : list StoredClaim).

(** Whether a request for [invite] was refused for its proof. *)
Definition bad_proof (invite : string) (r : JoinRequest) (answer : outcome FleetRedemption) : bool :=
  str_eqb (jr_invite r) invite && match answer with Ok (Refused reason) => str_eqb reason "proof" | _ => false end.

(** One event, and how many requests for [invite] it refused for their proof. *)
Definition serve (invite : string) (s : Sponsor) (e : DeskEvent) : Sponsor * nat :=
  match e with
  | Requested now r =>
      let '(s, answer) := redeem_fleet_invite now s r in (s, if bad_proof invite r answer then 1 else 0)%nat
  | Revoked now i reason person => ((revoke_fleet_invite now i reason person s).1, 0%nat)
  | Created now name lifetime transports person migrate i token =>
      ((create_fleet_invite now name lifetime transports person migrate i token s).1, 0%nat)
  | Arrived cs => (with_claims s (sp_claims s ++ cs), 0%nat)
  end.

Definition serve_all (invite : string) (s : Sponsor) (es : list DeskEvent) : Sponsor * nat :=
  fold_left (λ '(s, n) e, let '(s, m) := serve invite s e in (s, n + m)%nat) es (s, 0%nat).

Definition burnt (s : Sponsor) (invite : string) : Prop :=
  ∃ row, sp_tokens s !! invite = Some row ∧ tk_token row = None.

(** With [n] proofs refused so far. *)
Definition counted (n : nat) (row : TokenRow) : Prop :=
  (n ≤ 5)%nat ∧ (is_some (tk_token row) = true → (n ≤ 4)%nat ∧ (Z.of_nat n ≤ tk_failures row)%Z).

Definition counted_in (i : string) (n : nat) (s : Sponsor) : Prop := ∃ row, sp_tokens s !! i = Some row ∧ counted n row.

Lemma counted_sweep i n now s : counted_in i n s → counted_in i n (sweep_fleet_invites now s).
Proof.
  intros (row & E & Hn & Hc). exists (sweep_row now s i row). rewrite sweep_lookup, E. split; [done|].
  unfold sweep_row. case_match; [|done]. split; [done|]. by cbn.
Qed.

Lemma counted_update i j n s f :
  (∀ row, sp_tokens s !! i = Some row → counted n row → counted n (f row)) → counted_in i n s → counted_in i n (update_row s j f).
Proof.
  intros Hf (row & E & Hc). unfold counted_in. rewrite update_row_lookup. case_decide as Hj; [subst j|]; rewrite E; simpl; eauto.
Qed.

Lemma counted_append i n now s input c s' : append now s input = Ok (c, s') → counted_in i n s → counted_in i n s'.
Proof. intros Ha%append_spec. unfold counted_in. by destruct Ha as (_ & _ & -> & _). Qed.

(** The request a redemption serves, and what is known of the row of [i] in between. *)
Definition serves (i : string) (n : nat) (r : JoinRequest) (s : Sponsor) (p : Redeeming) : Prop :=
  match p with
  | Sweeping r' | Counting r' | Reading r' | Naming r' _ _ | Binding r' _ _ _ | WritingRedeemed r' _ | WritingAdmitted r' _ _
  | Recording r' _ _ => r' = r ∧ counted_in i n s
  | Failing r' f => r' = r ∧ counted_in i n s ∧
      (jr_invite r = i → ∃ row, sp_tokens s !! i = Some row ∧ is_some (tk_token row) = true ∧ f = (tk_failures row + 1)%Z)
  | Revoking j _ _ a => a = Some (Refused "proof") ∧ j = jr_invite r ∧ counted_in i n s ∧ (j = i → (n ≤ 4)%nat)
  | Erasing a => a = Some (Refused "proof") ∧ counted_in i n s ∧ (jr_invite r = i → (n ≤ 4)%nat ∧ revoked s i = true)
  | Finished (Ok (Some (Refused reason))) =>
      counted_in i (n + if str_eqb (jr_invite r) i && str_eqb reason "proof" then 1 else 0) s
  | Finished _ => counted_in i n s
  end.

Lemma serves_judge i n r s row hex :
  counted_in i n s → open_row s (jr_invite r) = Some (row, hex) → serves i n r s (judge_row r row hex).
Proof.
  intros Hc Ho. unfold open_row in Ho. destruct (sp_tokens s !! jr_invite r) as [row'|] eqn:E; [|done].
  destruct (tk_token row') eqn:Et; [|done]. simpl in Ho. injection Ho as -> ->.
  unfold judge_row. repeat (case_match; simpl; rewrite ?andb_false_r, ?Nat.add_0_r; try done).
  split_and!; [done..|]. intros <-. exists row. by rewrite Et.
Qed.

Lemma floor_reason name wrote migrate s reason :
  fleet_name_floor name wrote migrate s = Err reason → str_eqb reason "proof" = false.
Proof. unfold fleet_name_floor. repeat (case_match; try done); by intros [= <-]. Qed.

Lemma append_revokes now s invite reason person c s' :
  append now s (revoke_input invite reason person) = Ok (c, s') → revoked s' invite = true.
Proof.
  intros Ha%append_spec. destruct Ha as ((Hs & Hk & _) & Hin & _). apply existsb_exists. exists c.
  split; [by apply list_elem_of_In|]. by rewrite Hs, Hk, !str_eqb_refl.
Qed.

Lemma counted_burn i n now s :
  counted_in i n s → (n ≤ 4)%nat → revoked s i = true →
  counted_in i (S n) (sweep_fleet_invites now s) ∧ burnt (sweep_fleet_invites now s) i.
Proof.
  intros (row & E & _) Hn Hr. unfold counted_in, burnt. rewrite sweep_lookup, E. cbn [fmap option_fmap option_map].
  assert (Ht : tk_token (sweep_row now s i row) = None).
  { unfold sweep_row. rewrite Hr, orb_true_r, andb_true_r. by destruct (tk_token row) eqn:Et. }
  split; eexists; (split; [done|]); [|done]. split; [lia|]. by rewrite Ht.
Qed.

Lemma not_refused i n r s (answer : FleetRedemption) :
  (∀ reason, answer = Refused reason → str_eqb reason "proof" = false) → counted_in i n s → serves i n r s (answered answer).
Proof.
  intros Ha Hc. destruct answer as [|reason|]; simpl; [done| |done]. by rewrite (Ha reason), andb_false_r, Nat.add_0_r.
Qed.

(** Counting a bad proof, below the limit or at it. *)
Lemma serves_failing i n r now s f :
  serves i n r s (Failing r f) → let '(s', p') := redeem_step now s (Failing r f) in serves i n r s' p'.
Proof.
  intros (_ & Hc & Hf). cbn [redeem_step].
  destruct (decide (jr_invite r = i)) as [Hi|Hi].
  - destruct (Hf Hi) as (row & E & Ht & ->). destruct Hc as (row' & E' & Hn & Hc). rewrite E in E'. injection E' as <-.
    destruct (Hc Ht) as [Hn4 Hle].
    assert (Hin : ∀ m, (m ≤ 4)%nat → (Z.of_nat m ≤ tk_failures row + 1)%Z →
                  counted_in i m (update_row s (jr_invite r) (λ row0, set_failures row0 (tk_failures row + 1)))).
    { intros m Hm Hmf. exists (set_failures row (tk_failures row + 1)). rewrite update_row_lookup, decide_True, E by done.
      split; [done|]. split; [lia|]. intros _. split; [done|]. cbn. lia. }
    case_match eqn:Hlim; simpl.
    + split_and!; [done..|apply Hin; lia|done].
    + apply Z.leb_gt in Hlim. unfold FLEET_INVITE_FAILURE_LIMIT in Hlim. apply str_eqb_true in Hi as ->. simpl. apply Hin; lia.
  - assert (Hin : counted_in i n (update_row s (jr_invite r) (λ row, set_failures row f))).
    { destruct Hc as (row & E & Hc). exists row. by rewrite update_row_lookup, decide_False by done. }
    case_match; simpl; [by split_and!|]. apply str_eqb_false in Hi as ->. simpl. by rewrite Nat.add_0_r.
Qed.

Lemma serves_step i n r now s p :
  serves i n r s p → let '(s', p') := redeem_step now s p in serves i n r s' p'.
Proof.
  intros Hs. destruct p as [r'|r'|r'|r' f|j reason person a|a|r' row t|r' row t floor|r' a|r' a fid|r' a cid|ans];
    [| | | |destruct Hs as (-> & -> & Hc & Hn)|destruct Hs as (-> & Hc & Hn)| | | | | |done];
    try destruct Hs as (-> & Hc); cbn [redeem_step].
  - split; [done|]. by apply counted_sweep.
  - case_match; [by split|]. by apply not_refused.
  - destruct (open_row _ _) as [[row hex]|] eqn:Ho; [by apply serves_judge|]. apply not_refused; [|done]. by intros ? [= <-].
  - by apply (serves_failing i n r now s f).
  - destruct (append _ _ _) as [[c s']|] eqn:Ha; [|done].
    simpl. split_and!; [done|by eapply counted_append|]. intros <-. split; [by apply Hn|by eapply append_revokes].
  - simpl. destruct (decide (jr_invite r = i)) as [Hi|Hi].
    + destruct (Hn Hi) as [Hn4 Hr]. rewrite Hi, str_eqb_refl, Nat.add_1_r. by apply counted_burn.
    + apply str_eqb_false in Hi as ->. rewrite Nat.add_0_r. by apply counted_sweep.
  - destruct (fleet_name_floor _ _ _ _) eqn:Hf; [by split|]. apply not_refused; [|done].
    intros ? [= <-]. by eapply floor_reason.
  - destruct (open_row _ _) as [[row' hex]|] eqn:Ho; [|apply not_refused; [by intros ? [= <-]|done]].
    destruct (is_none _); [|apply not_refused; [by intros ? [= <-]|done]]. split; [done|]. by apply counted_update.
  - destruct (sp_fleet_id s); [|done]. destruct (append _ _ _) as [[c s']|] eqn:Ha; [|done]. split; [done|]. by eapply counted_append.
  - destruct (append _ _ _) as [[c s']|] eqn:Ha; [|done]. split; [done|]. by eapply counted_append.
  - apply not_refused; [done|]. by apply counted_update.
Qed.

Lemma serves_run i n r now m : ∀ s p,
  serves i n r s p → let '(s', p') := redeem_run m now s p in serves i n r s' p'.
Proof.
  induction m as [|m IH]; intros s p Hs; [done|]. simpl. pose proof (serves_step i n r now s p Hs) as Hs'.
  destruct (redeem_step now s p) as [s' p']. by apply IH.
Qed.

Lemma counted_serve i n s e : counted_in i n s → let '(s', m) := serve i s e in counted_in i (n + m) s'.
Proof.
  intros Hc. destruct e as [now r|now j reason person|now name lifetime transports person migrate j token|cs]; cbn [serve].
  - destruct (redeem_is_run now s r) as (s' & answer & E & -> & _).
    pose proof (serves_run i n r now 8 s (Sweeping r)) as Hr. rewrite E in Hr. specialize (Hr (conj eq_refl Hc)).
    unfold bad_proof. destruct answer as [[[|reason|]|]|]; simpl in *; rewrite ?andb_false_r, ?Nat.add_0_r; done.
  - rewrite Nat.add_0_r. unfold revoke_fleet_invite. destruct (append _ _ _) as [[c s']|] eqn:Ha; [|done].
    apply counted_sweep. by eapply counted_append.
  - rewrite Nat.add_0_r. destruct (create_fleet_invite _ _ _ _ _ _ _ _ _) as [s' res] eqn:E. cbn [fst].
    apply create_spec in E as [[-> _]|(input & c & s1 & Ha & _ & [[-> _]|(Hn & _ & ->)])]; [done|by eapply counted_append|].
    pose proof (counted_append i n _ _ _ _ _ Ha Hc) as (row & Er & Hrow). exists row. cbn.
    by rewrite lookup_insert_ne by congruence.
  - by rewrite Nat.add_0_r.
Qed.

Lemma counted_serve_all i es : ∀ n s, counted_in i n s →
  let '(s', m) := fold_left (λ '(s, n) e, let '(s, m) := serve i s e in (s, n + m)%nat) es (s, n) in counted_in i m s'.
Proof.
  induction es as [|e es IH]; intros n s Hc; [done|]. simpl. pose proof (counted_serve i n s e Hc) as H1.
  destruct (serve i s e) as [s' m]. by apply IH.
Qed.

(** A burnt invite admits nobody. *)
Lemma burnt_refuses now s r :
  burnt s (jr_invite r) → (redeem_fleet_invite now s r).2 ∈ [Ok Closed; Ok (Refused "unknown-invite")].
Proof.
  intros (row & E & Ht). unfold redeem_fleet_invite. cbn [redeem_run redeem_step]. set (s1 := sweep_fleet_invites now s).
  assert (Ho : open_row s1 (jr_invite r) = None).
  { unfold open_row, s1. rewrite sweep_lookup, E. simpl. unfold sweep_row. rewrite Ht. simpl. by rewrite Ht. }
  destruct (any_open s1); cbn [redeem_step answered]; [|by left]. rewrite Ho. by right; left.
Qed.

(** Served one at a time, at most five requests for an invite are refused for a proof that does not
    match its token, whatever else happens; with the fifth the invite is burnt, and no later request
    for it is admitted, not even one with the right token. *)
Theorem bad_proofs_burn_the_invite i s es row :
  sp_tokens s !! i = Some row → tk_failures row = 0%Z →
  let '(s', n) := serve_all i s es in
  (n ≤ 5)%nat ∧
  (n = 5%nat → ∀ now r, jr_invite r = i →
     (redeem_fleet_invite now s' r).2 ∈ [Ok Closed; Ok (Refused "unknown-invite")]).
Proof.
  intros E Hf. assert (H0 : counted_in i 0 s) by (exists row; split; [done|split; lia]).
  apply (counted_serve_all i es) in H0. unfold serve_all. destruct (fold_left _ _ _) as [s' n].
  destruct H0 as (row' & E' & Hn & Hc). split; [done|]. intros -> now r <-. apply burnt_refuses. exists row'. split; [done|].
  destruct (tk_token row') eqn:Et; [|done]. destruct Hc; [done|lia].
Qed.
End invites.

(** ** A sponsor and a joiner *)

Local Existing Instances integer_numbers plain_crypto plain.

Definition sponsor_secret : list ascii := bytes_of "s".
Definition sponsor_key : string := member_public sponsor_secret.

(** The anchor of a fleet with itself as its only member. *)
Definition anchor_claim : FleetClaim :=
  mkFleetClaim "c0" MEMBER_ADMITTED "host/b"
    (list_to_map [("member_key", Str sponsor_key); ("via", Str "anchor"); ("mode", Str "listening")]) "b" 1 {[ sponsor_key ]}.
Definition lone_sponsor : Sponsor := mkSponsor "b" (Some "fleet") (Some sponsor_key) ∅ [mkStored anchor_claim 0] [("b", 1%Z)] [].

Definition invite_bytes : list ascii := bytes_of "i".
Definition token_bytes : list ascii := replicate 16 "t"%char.

Definition with_invite : Sponsor :=
  (create_fleet_invite 0 None 60000 [] "person" false invite_bytes token_bytes lone_sponsor).1.

Lemma with_invite_created :
  create_fleet_invite 0 None 60000 [] "person" false invite_bytes token_bytes lone_sponsor =
  (with_invite, Ok (mkCreated "i" token_bytes 60000)).
Proof.
  assert (E : (create_fleet_invite 0 None 60000 [] "person" false invite_bytes token_bytes lone_sponsor).2 =
              Ok (mkCreated "i" token_bytes 60000)) by by vm_compute.
  rewrite <- E. unfold with_invite. by destruct (create_fleet_invite _ _ _ _ _ _ _ _ _).
Qed.

Definition desk_code (secret : list ascii) : JoinCode :=
  mkJoinCode [] invite_bytes secret (fingerprint_of sponsor_key) 60000 None false [].
Definition desk_joiner (secret : list ascii) : JoinRequest :=
  jn_request (start (desk_code secret) (bytes_of "m") "a" "listening" None "1" []).

Lemma desk_run_job now codes n : ∀ s p,
  rtc desk_step (mkDesk now s [p] codes) (let '(s', p') := redeem_run n now s p in mkDesk now s' [p'] codes).
Proof.
  induction n as [|n IH]; intros s p; [done|]. cbn [redeem_run]. destruct (redeem_step now s p) as [s' p'] eqn:E.
  eapply rtc_l; [by apply (desk_run now s [p] codes 0 p s' p')|]. apply IH.
Qed.

Definition joined_sponsor : Sponsor := (redeem_run 8 0 with_invite (Sweeping (desk_joiner token_bytes))).1.
Definition final_desk : Desk :=
  let '(s', p') := redeem_run 8 0 with_invite (Sweeping (desk_joiner token_bytes)) in mkDesk 0 s' [p'] {[ "i" := token_bytes ]}.
Definition admission_claim : FleetClaim := default anchor_claim (claims_of (dk_store final_desk) !! 3%nat).

Lemma an_invite_admits_one_witness :
  ∃ r, proves (dk_codes final_desk) r ∧ jr_invite r = "i" ∧
    ∀ c', c' ∈ claims_of (dk_store final_desk) → admits_through (sp_origin (dk_store final_desk)) "i" c' →
      fc_subject c' = "host/" +:+ jr_name r ∧ claim_text c' "member_key" = Some (jr_member_key r).
Proof.
  apply (an_invite_admits_one_member (mkDesk 0 lone_sponsor [] ∅) final_desk "i" admission_claim).
  - split_and!; [done..|]. intros c i Hc (_ & _ & Hi). apply list_elem_of_singleton in Hc as ->. by vm_compute in Hi.
  - eapply rtc_l; [apply (desk_create _ _ _ _ _ _ _ _ _ _ _ _ _ with_invite_created)|].
    eapply rtc_l; [apply (desk_request _ _ _ _ (desk_joiner token_bytes))|]. cbn [app cf_invite cf_token]. apply desk_run_job.
  - assert (Hs : is_some (claims_of (dk_store final_desk) !! 3%nat) = true) by by vm_compute.
    apply (list_elem_of_lookup_2 _ 3%nat). unfold admission_claim. by destruct (claims_of _ !! 3%nat).
  - split_and!; by vm_compute.
Defined.

(** A request with another token. *)
Definition bad_request : JoinRequest := desk_joiner (replicate 16 "x"%char).

Lemma bad_proofs_example :
  (serve_all "i" with_invite (replicate 7 (Requested 0 bad_request))).2 = 5%nat.
Proof. by vm_compute. Qed.

Lemma bad_proofs_witness :
  let '(s', n) := serve_all "i" with_invite (replicate 5 (Requested 0 bad_request)) in
  n = 5%nat ∧ (redeem_fleet_invite 0 s' (desk_joiner token_bytes)).2 ∈ [Ok Closed; Ok (Refused "unknown-invite")].
Proof.
  pose proof (bad_proofs_burn_the_invite "i" with_invite (replicate 5 (Requested 0 bad_request))
                (mkTokenRow (Some (str_of token_bytes)) 60000 None false None None 0 None None (Some "person"))) as H.
  assert (Hn : (serve_all "i" with_invite (replicate 5 (Requested 0 bad_request))).2 = 5%nat) by by vm_compute.
  destruct (serve_all _ _ _) as [s' n]. cbn in Hn. split; [done|]. destruct H as [_ H]; [by vm_compute|done|]. by apply H.
Defined.

(** ** Requests in parallel are counted once

    Each of the requests reads the count of failures before any of them writes it, so each writes
    one: six bad proofs are refused, and the invite is as open as after a single one. *)

Definition six_requests : Desk := mkDesk 0 with_invite (replicate 6 (Sweeping bad_request)) {[ "i" := token_bytes ]}.

(** Every job takes a step, in turn. *)
Definition run_turn (d : Desk) : Desk :=
  fold_left (λ d k, match dk_jobs d !! k with
                    | Some p => let '(s', p') := redeem_step (dk_now d) (dk_store d) p in
                                mkDesk (dk_now d) s' (<[k := p']> (dk_jobs d)) (dk_codes d)
                    | None => d
                    end) (seq 0 (length (dk_jobs d))) d.

Lemma run_turn_reach d : rtc desk_step d (run_turn d).
Proof.
  unfold run_turn. generalize (seq 0 (length (dk_jobs d))). intros l. revert d.
  induction l as [|k l IH]; intros d; [done|]. simpl. destruct d as [now s jobs codes]. cbn.
  destruct (jobs !! k) as [p|] eqn:E; [|apply IH]. destruct (redeem_step now s p) as [s' p'] eqn:Es.
  eapply rtc_l; [by eapply desk_run|]. apply IH.
Qed.

Definition after_six : Desk := run_turn (run_turn (run_turn (run_turn six_requests))).

Theorem parallel_bad_proofs_count_once :
  rtc desk_step six_requests after_six ∧
  (∀ p, p ∈ dk_jobs after_six → p = answered (Refused "proof")) ∧ length (dk_jobs after_six) = 6%nat ∧
  ∃ row, sp_tokens (dk_store after_six) !! "i" = Some row ∧ is_some (tk_token row) = true ∧ tk_failures row = 1%Z.
Proof.
  split; [unfold after_six; do 3 (etransitivity; [|apply run_turn_reach]); apply run_turn_reach|].
  assert (Hj : dk_jobs after_six = replicate 6 (answered (Refused "proof"))) by by vm_compute.
  rewrite Hj. split_and!; [|done|].
  - intros p Hp. by apply elem_of_replicate in Hp as [-> _].
  - assert (E : (λ row, (is_some (tk_token row), tk_failures row)) <$> sp_tokens (dk_store after_six) !! "i" = Some (true, 1%Z))
      by by vm_compute.
    clear Hj. revert E. generalize (sp_tokens (dk_store after_six) !! "i"). intros [row|] [= ? ?]. by exists row.
Qed.
