(* ===== verification/JoinRoute.v ===== *)
(** * The join route

    The rest of joining and leaving a fleet in [crates/smallclaims/src/store.rs]: the invites as the
    fleet knows them, removing a member, leaving, and the anchor's own admission; and the join
    route that serves a redemption ([sync/worker.rs], [sync/backend.rs]) from the request to the
    sealed answer. What a name's history means for a new member is proved here, and that an honest
    join goes through.

    The random values of an answer are arguments, and a request that does not parse is [None]. *)

From Stdlib Require Import Ascii.
From S2P Require Import Prelude StableSort Text Json Claim Bytes Membership JoinCode Handshake Invites.

Record FleetInviteView := mkInviteView {
  iv_invite : string;
  iv_sponsor : string;
  iv_name : option string;
  iv_expires_at_unix_ms : Z;
  iv_created_by : option string;
  iv_state : string;
  iv_redeemed_name : option string;
  iv_redeemed_key : option string;
  iv_redeemed_at_unix_ms : option Z;
  iv_revoked_reason : option string
}.

Record FleetRemoval := mkRemoval {
  fr_name : string;
  fr_keys : list string;
  fr_high_water : Z;
  fr_revoked_invites : list string
}.

(** The status of an answer, with the body of a success. *)
Inductive HttpAnswer :=
| Forbidden
| NotFound
| ServiceUnavailable
| Answered (response : JoinResponse).

Section route.
Context `{crypto : JoinCrypto} {runtime : StoreRuntime}.

(** ** Invites as their claims tell them *)

Definition redeem_view (c : StoredClaim) (v : FleetInviteView) : FleetInviteView :=
  mkInviteView (iv_invite v) (iv_sponsor v) (iv_name v) (iv_expires_at_unix_ms v) (iv_created_by v) "redeemed"
    (claim_text (sc_claim c) "name") (claim_text (sc_claim c) "member_key") (Some (sc_accepted_at c)) (iv_revoked_reason v).

Definition revoke_view (c : StoredClaim) (v : FleetInviteView) : FleetInviteView :=
  if str_eqb (iv_state v) "open"
  then mkInviteView (iv_invite v) (iv_sponsor v) (iv_name v) (iv_expires_at_unix_ms v) (iv_created_by v) "revoked"
         (iv_redeemed_name v) (iv_redeemed_key v) (iv_redeemed_at_unix_ms v) (claim_text (sc_claim c) "reason")
  else v.

Definition view_claim (invites : gmap string FleetInviteView) (c : StoredClaim) : gmap string FleetInviteView :=
  match strip_prefix "fleet-invite/" (fc_subject (sc_claim c)) with
  | None => invites
  | Some invite =>
      if str_eqb (fc_kind (sc_claim c)) "fleet.invite-created" then
        <[invite := mkInviteView (fc_subject (sc_claim c)) (default "" (claim_text (sc_claim c) "sponsor"))
                      (claim_text (sc_claim c) "name") (default 0%Z (claim_number (sc_claim c) "expires_at_unix_ms"))
                      (claim_text (sc_claim c) "created_by") "open" None None None None]> invites
      else if str_eqb (fc_kind (sc_claim c)) "fleet.invite-redeemed" then alter (redeem_view c) invite invites
      else if str_eqb (fc_kind (sc_claim c)) "fleet.invite-revoked" then alter (revoke_view c) invite invites
      else invites
  end.

Definition expire_view (now : Z) (v : FleetInviteView) : FleetInviteView :=
  if str_eqb (iv_state v) "open" && (iv_expires_at_unix_ms v <=? now)%Z
  then mkInviteView (iv_invite v) (iv_sponsor v) (iv_name v) (iv_expires_at_unix_ms v) (iv_created_by v) "expired"
         (iv_redeemed_name v) (iv_redeemed_key v) (iv_redeemed_at_unix_ms v) (iv_revoked_reason v)
  else v.

(** [claims] are the store's claims in canonical order. *)
Definition fleet_invites (now : Z) (all : bool) (claims : list StoredClaim) : list FleetInviteView :=
  let invites := fold_left view_claim
                   (List.filter (λ c, bool_decide (fc_kind (sc_claim c) ∈ ["fleet.invite-created"; "fleet.invite-redeemed";
                                                                          "fleet.invite-revoked"])) claims) ∅ in
  let views := map (expire_view now) (map snd (sort_by (key_leb String.leb fst) (map_to_list invites))) in
  if all then views else List.filter (λ v, str_eqb (iv_state v) "open" || str_eqb (iv_state v) "redeemed") views.

(** ** Removing a member, leaving, and the anchor *)

Definition removed_input (name : string) (key : option string) (high_water : Z) (reason person : string) : ClaimInput :=
  mkClaimInput ("host/" +:+ name) MEMBER_REMOVED (Some person)
    ([("high_water", Num (number_of high_water)); ("reason", Str reason); ("removed_by", Str person)]
     ++ match key with Some key => [("member_key", Str key)] | None => [] end) [] None None.

Fixpoint append_removals (now : Z) (name : string) (keys : list (option string)) (high_water : Z) (reason person : string)
    (s : Sponsor) : Sponsor * outcome unit :=
  match keys with
  | [] => (s, Ok tt)
  | key :: keys =>
      match append now s (removed_input name key high_water reason person) with
      | Err e => (s, Err e)
      | Ok (_, s) => append_removals now name keys high_water reason person s
      end
  end.

(** [str::trim_start_matches]; each match shortens the text. *)
Fixpoint trim_matches (fuel : nat) (p s : string) : string :=
  match fuel with
  | O => s
  | S fuel => match strip_prefix p s with Some rest => trim_matches fuel p rest | None => s end
  end.
Definition trim_start_matches (p s : string) : string := trim_matches (String.length s) p s.

Fixpoint revoke_all (now : Z) (invites : list FleetInviteView) (person : string) (s : Sponsor) : Sponsor * outcome unit :=
  match invites with
  | [] => (s, Ok tt)
  | v :: invites =>
      match revoke_fleet_invite now (trim_start_matches "fleet-invite/" (iv_invite v)) "sponsor-removed"
              (Some person) s with
      | (s, Ok _) => revoke_all now invites person s
      | (s, Err e) => (s, Err e)
      end
  end.

Context (canonical : list StoredClaim → list StoredClaim).

Definition sponsored_by (now : Z) (name : string) (s : Sponsor) : list FleetInviteView :=
  List.filter (λ v, str_eqb (iv_state v) "open" && str_eqb (iv_sponsor v) ("host/" +:+ name))
    (fleet_invites now false (canonical (sp_claims s))).

Definition remove_fleet_member (now : Z) (name reason person : string) (own_key : option string) (s : Sponsor) :
    Sponsor * outcome FleetRemoval :=
  if str_eqb name (sp_origin s) then (s, Err "cannot-remove-self")
  else
    match own_key with
    | None => (s, Err "not-a-member")
    | Some own_key =>
        let membership := fleet_membership s in
        match state membership (sp_origin s) with
        | Current own =>
            if negb (str_eqb (inc_member_key own) own_key) then (s, Err "not-a-member")
            else
              let keys := match state membership name with
                          | Current i => Some [Some (inc_member_key i)]
                          | Conflicted current => Some (map (λ i, Some (inc_member_key i)) current)
                          | Ended _ | LegacyRemoved _ => None
                          | NotMember => Some [None]
                          end in
              match keys with
              | None => (s, Err "already-removed")
              | Some keys =>
                  let high_water := default 0%Z (writer_high_water s name) in
                  if bool_decide (keys = [None]) && (high_water =? 0)%Z then (s, Err "unknown-member")
                  else
                    match append_removals now name keys high_water reason person s with
                    | (s, Err e) => (s, Err e)
                    | (s, Ok _) =>
                        let sponsored := sponsored_by now name s in
                        match revoke_all now sponsored person s with
                        | (s, Err e) => (s, Err e)
                        | (s, Ok _) => (s, Ok (mkRemoval name (omap id keys) high_water (map iv_invite sponsored)))
                        end
                    end
              end
        | _ => (s, Err "not-a-member")
        end
    end.

Definition anchor_input (s : Sponsor) (fleet_id member_key mode : string) : ClaimInput :=
  mkClaimInput ("host/" +:+ sp_origin s) MEMBER_ADMITTED None
    [("fleet_id", Str fleet_id); ("member_key", Str member_key); ("via", Str "anchor"); ("mode", Str mode)] [] None
    (Some ("fleet-anchor:" +:+ member_key)).

Definition admit_fleet_anchor (now : Z) (fleet_id member_key mode : string) (s : Sponsor) : Sponsor * outcome unit :=
  match append now s (anchor_input s fleet_id member_key mode) with
  | Ok (_, s) => (s, Ok tt)
  | Err e => (s, Err e)
  end.

Definition left_input (s : Sponsor) (key person : string) : ClaimInput :=
  mkClaimInput ("host/" +:+ sp_origin s) MEMBER_LEFT (Some person)
    [("member_key", Str key); ("high_water", Num (number_of 0))] [] None None.

(** [latest_claim]: the last in canonical order of a subject and kind. *)
Definition latest_claim (s : Sponsor) (subject kind : string) : option FleetClaim :=
  last (List.filter (λ c, str_eqb (fc_subject c) subject && str_eqb (fc_kind c) kind) (map sc_claim (canonical (sp_claims s)))).

Definition leave_fleet (now : Z) (person : string) (own_key : option string) (s : Sponsor) : Sponsor * outcome FleetClaim :=
  match own_key with
  | None => (s, Err "not-a-member")
  | Some key =>
      let written := match latest_claim s ("host/" +:+ sp_origin s) MEMBER_LEFT with
                     | Some c => if ostr_eqb (claim_text c "member_key") (Some key) then Some c else None
                     | None => None
                     end in
      match written with
      | Some c => (s, Ok c)
      | None =>
          match append now s (left_input s key person) with
          | Ok (c, s) => (s, Ok c)
          | Err e => (s, Err e)
          end
      end
  end.

(** ** The join route *)

Definition opt_str (o : option string) : Value := match o with Some s => Str s | None => Null end.
Definition opt_num (o : option Z) : Value := match o with Some z => Num (number_of z) | None => Null end.

Definition redemption_answer (s : Sponsor) (redemption : FleetRedemption) : Value :=
  match redemption with
  | Closed => Object [("status", Str "closed")]
  | Refused reason => Object [("status", Str "refused"); ("reason", Str reason)]
  | AdmittedJoin token writer_floor admitted_claim _ =>
      Object [("status", Str "admitted"); ("token", Str (hex_text token)); ("writer_floor", opt_num writer_floor);
              ("admitted_claim", opt_str admitted_claim); ("anchor_key", opt_str (sp_anchor s));
              ("fleet_id", opt_str (sp_fleet_id s)); ("fabric_protocol", Null)]
  end.

(** What the route knows of this node: its name, its member key, the fleet's ID and secret. *)
Record PeerAuth := mkPeerAuth {
  pa_node : string;
  pa_member : option (list ascii);
  pa_fleet_id : string;
  pa_secret_hex : string
}.

Definition text_field (answer : Value) (field : string) : option string := get field answer ≫= as_str.

Definition sealed_payload (auth : PeerAuth) (r : JoinRequest) (answer : Value) : SealedJoin :=
  let text := text_field answer in
  mkSealedJoin (default (pa_fleet_id auth) (text "fleet_id")) (if jr_migrate r then None else Some (pa_secret_hex auth))
    (default "" (text "anchor_key")) (pa_node auth) (get "writer_floor" answer ≫= as_u64) (text "fabric_protocol")
    (text "admitted_claim").

Definition receive_join (now : Z) (auth : PeerAuth) (ephemeral nonce : list ascii) (body : option JoinRequest) (s : Sponsor) :
    Sponsor * HttpAnswer :=
  match body, pa_member auth with
  | None, _ => (s, Forbidden)
  | Some _, None => (s, NotFound)
  | Some r, Some member =>
      match redeem_fleet_invite now s r with
      | (s, Err _) => (s, ServiceUnavailable)
      | (s, Ok redemption) =>
          let answer := redemption_answer s redemption in
          let status := text_field answer "status" in
          if ostr_eqb status (Some "admitted") then
            match text_field answer "token" ≫= hex_bytes with
            | None => (s, ServiceUnavailable)
            | Some token =>
                match seal_response r token (pa_node auth) member (sealed_payload auth r answer) ephemeral nonce with
                | Ok response => (s, Answered response)
                | Err _ => (s, ServiceUnavailable)
                end
            end
          else if ostr_eqb status (Some "closed") then (s, NotFound)
          else (s, Forbidden)
      end
  end.

(** ** Names with a history *)

(** Only a claim about a name makes the fold know it. *)
Definition knows (m : Membership) (name : string) : Prop :=
  writer_incarnations m name ≠ [] ∨ is_Some (legacy_ends m !! name).

Lemma admit_knows m c name : knows (admit_claim m c) name → knows m name ∨ claim_name c = Some name.
Proof.
  unfold admit_claim. destruct (claim_name c) as [cn|]; [|by left]. destruct (claim_text c "member_key"); [|by left].
  destruct (decide (cn = name)) as [->|Hne]; [by right|].
  destruct (existsb _ _); intros [Hk|Hk]; left; try (by right); left; revert Hk;
    rewrite (writer_incarnations_insert m _ _ cn) by done; by rewrite decide_False.
Qed.

Lemma update_knows m c name : knows (update_claim m c) name → knows m name ∨ claim_name c = Some name.
Proof.
  unfold update_claim. destruct (claim_name c) as [cn|]; [|by left].
  destruct (decide (cn = name)) as [->|Hne]; [by right|].
  assert (Hu : ∀ key f, knows (update_incarnation m cn key f) name → knows m name).
  { intros key f [Hk|Hk]; [|by right]. rewrite writer_incarnations_update, decide_False in Hk by done. by left. }
  repeat (case_match; try (intros Hk; left; by eauto)).
  intros [Hk|Hk]; left; [by left|]. cbn in Hk. rewrite lookup_insert_ne in Hk by done. by right.
Qed.

Lemma fold_left_knows (f : Membership → FleetClaim → Membership) name :
  (∀ m c, knows (f m c) name → knows m name ∨ claim_name c = Some name) →
  ∀ l m, knows (fold_left f l m) name → knows m name ∨ ∃ c, c ∈ l ∧ claim_name c = Some name.
Proof.
  intros Hf. induction l as [|c l IH]; intros m Hk; [by left|]. simpl in Hk.
  destruct (IH _ Hk) as [Hk'|(d & Hd & E)]; [|right; exists d; split; [by right|done]].
  destruct (Hf _ _ Hk') as [?|?]; [by left|right; exists c; split; [left|done]].
Qed.

Lemma knows_nothing a S name : ¬ knows (mkMembership a ∅ ∅ S) name.
Proof. intros [Hk|[x Hk]]; [apply Hk; unfold writer_incarnations; simpl; by rewrite lookup_empty|simpl in Hk; by rewrite lookup_empty in Hk]. Qed.

Lemma fold_knows root all name : knows (Membership.fold root all) name → ∃ c, c ∈ all ∧ fc_subject c = "host/" +:+ name.
Proof.
  destruct root as [root|]; [|intros Hk; by apply knows_nothing in Hk]. rewrite fold_is_build. unfold build.
  assert (Hall : ∀ P c, c ∈ List.filter P (fold_claims all) → c ∈ all).
  { intros P c [Hc _]%lfilter_elem. unfold fold_claims in Hc. rewrite sort_by_perm in Hc. by apply lfilter_elem in Hc as [? _]. }
  intros Hk. apply (fold_left_knows _ _ (λ m c, update_knows m c name)) in Hk as [Hk|(c & Hc & E)].
  - apply (fold_left_knows _ _ (λ m c, admit_knows m c name)) in Hk as [Hk|(c & Hc & E)]; [by apply knows_nothing in Hk|].
    apply lfilter_elem in Hc as [Hc _]. exists c. split; [by eapply Hall|by apply strip_prefix_Some].
  - exists c. split; [by eapply Hall|by apply strip_prefix_Some].
Qed.

(** A claim that makes the fold know a name is one the name rules see. *)
Definition name_claimed (s : Sponsor) (name : string) : bool :=
  existsb (λ c, str_eqb (fc_subject c) ("host/" +:+ name) && bool_decide (fc_kind c ∈ FLEET_CLAIM_KINDS)) (claims_of s).

Lemma known_is_claimed s name : knows (fleet_membership s) name → name_claimed s name = true.
Proof.
  intros (c & Hc & E)%fold_knows. apply lfilter_elem in Hc as [Hc Hk]. apply existsb_exists. exists c.
  split; [by apply list_elem_of_In|]. by rewrite E, str_eqb_refl.
Qed.

(** What the state of a name says of its incarnations. *)
Lemma state_ended m name i :
  state m name = Ended i → writer_incarnations m name ≠ [] ∧ ∀ j, j ∈ writer_incarnations m name → is_Some (inc_end j).
Proof.
  unfold state. destruct (List.filter _ _) as [|? []] eqn:Ef; [|done..]. intros E. split.
  - intros Hn. by rewrite Hn in E; simpl in E; case_match.
  - intros j Hj. destruct (inc_end j) eqn:He; [eauto|].
    assert (Hin : j ∈ List.filter (λ i, is_none (inc_end i)) (writer_incarnations m name)) by (apply lfilter_elem; by rewrite He).
    rewrite Ef in Hin. by apply elem_of_nil in Hin.
Qed.

Lemma max_by_start_None l : max_by_start l = None → l = [].
Proof. by destruct l. Qed.

Lemma state_no_incarnation m name :
  (∃ h, state m name = LegacyRemoved h) ∨ state m name = NotMember → writer_incarnations m name = [].
Proof.
  unfold state. destruct (List.filter _ _) as [|? []]; [|naive_solver..].
  destruct (max_by_start _) eqn:Em; [naive_solver|]. intros _. by apply max_by_start_None.
Qed.

Lemma state_not_member m name : state m name = NotMember → ¬ knows m name.
Proof.
  intros Hs. assert (Hn : writer_incarnations m name = []) by (apply state_no_incarnation; by right).
  intros [Hk|Hk]; [done|]. revert Hs. unfold state. rewrite Hn. simpl. destruct Hk as [h ->]. done.
Qed.

Lemma state_legacy m name h : state m name = LegacyRemoved h → legacy_ends m !! name = Some h.
Proof.
  unfold state. destruct (List.filter _ _) as [|? []]; [|done..]. destruct (max_by_start _); [done|].
  destruct (legacy_ends m !! name); [|done]. by intros [= ->].
Qed.

Lemma max_end_spec m name :
  (∀ j e, j ∈ writer_incarnations m name → inc_end j = Some e → ∃ b, max_end_of m name = Some b ∧ (e ≤ b)%Z).
Proof.
  unfold max_end_of. induction (writer_incarnations m name) as [|i l IH]; intros j e Hj He; [by apply elem_of_nil in Hj|].
  apply elem_of_cons in Hj as [->|Hj]; simpl.
  - rewrite He. destruct (fold_right _ _ _); eexists; (split; [done|lia]).
  - destruct (IH j e Hj He) as (b & -> & Hb). destruct (inc_end i); eexists; (split; [done|lia]).
Qed.

(** What the name rules answer, on every branch that admits. *)
Lemma name_floor_spec name wrote migrate s floor :
  fleet_name_floor name wrote migrate s = Ok floor →
  let m := fleet_membership s in
  match floor with
  | None => ¬ knows m name ∧ (migrate = false → writer_high_water s name = None)
  | Some f =>
      migrate = false ∧ wrote = false ∧
      (∀ i, i ∈ writer_incarnations m name → ∃ e, inc_end i = Some e ∧ (e ≤ f)%Z) ∧
      (∀ h, legacy_ends m !! name = Some h → writer_incarnations m name = [] → (h ≤ f)%Z) ∧
      ∀ h, writer_high_water s name = Some h → (h ≤ f)%Z
  end.
Proof.
  intros E m. unfold fleet_name_floor in E. fold m in E. fold (name_claimed s name) in E.
  pose proof (known_is_claimed s name) as Hkc. fold m in Hkc.
  destruct (state m name) as [i|l|i|h|] eqn:Hs; try done.
  - apply state_ended in Hs as [Hne Hend]. assert (Hk : knows m name) by by left. rewrite (Hkc Hk), andb_false_r in E.
    destruct (writer_incarnations m name) as [|i0 l0] eqn:Hl; [done|]. destruct (Hend i0 ltac:(left)) as [e0 He0].
    destruct (max_end_spec m name i0 e0) as (b & Hb & _); [rewrite Hl; left|done|]. rewrite Hb in E. simpl in E.
    destruct migrate; [done|]. destruct wrote; [done|]. injection E as <-. split_and!; [done..| | |].
    + intros j Hj. destruct (Hend j Hj) as [e He]. exists e. split; [done|]. rewrite <- Hl in Hj.
      destruct (max_end_spec m name j e Hj He) as (b' & Hb' & ?). rewrite Hb in Hb'. injection Hb' as <-. lia.
    + done.
    + intros h ->. simpl. lia.
  - pose proof (state_legacy _ _ _ Hs) as Hleg. assert (Hk : knows m name) by (right; rewrite Hleg; eauto).
    rewrite (Hkc Hk), andb_false_r in E. simpl in E. destruct migrate; [done|]. destruct wrote; [done|]. injection E as <-.
    split_and!; [done..| | |].
    + intros j Hj. rewrite (state_no_incarnation m name) in Hj by eauto. by apply elem_of_nil in Hj.
    + intros h' Hh' _. rewrite Hleg in Hh'. injection Hh' as <-. lia.
    + intros h' ->. simpl. lia.
  - apply state_not_member in Hs. simpl in E. destruct migrate; [by injection E as <-|].
    destruct (is_none _ && _) eqn:Hn; [|done]. injection E as <-. apply andb_true_iff in Hn as [Hn _].
    split; [done|]. intros _. by destruct (writer_high_water s name).
Qed.

(** The floor an admission carries is where its member's window starts. *)
Lemma admitted_floor s r a fleet_id d f :
  says (admitted_input s r a fleet_id) d → am_floor a = Some f → (0 ≤ f < u64_max)%Z → writer_start d = (f + 1)%Z.
Proof.
  intros (_ & _ & Hf) Ha Hr. unfold writer_start, claim_number. rewrite Hf. unfold admitted_input. cbn [ci_fields].
  rewrite Ha. cbn [app list_to_map foldr fst snd]. simplify_map_eq. rewrite number_of_u64 by (unfold is_u64; lia).
  cbn. unfold sat_add64. lia.
Qed.

(** A name joins again only above its history. When the name rules let a request for a name
    through, no incarnation of the name is open, and the window of the new admission starts above
    every sequence an earlier incarnation signed and, for a join that is not a migration, above
    every sequence of that name this node holds. *)
Theorem rejoined_names_start_above_their_history s r a fleet_id floor d :
  fleet_name_floor (jr_name r) (is_some (jr_writer_head r)) (jr_migrate r) s = Ok floor →
  am_floor a = floor → (∀ f, floor = Some f → (0 ≤ f < u64_max)%Z) →
  says (admitted_input s r a fleet_id) d →
  (∀ i sequence, i ∈ writer_incarnations (fleet_membership s) (jr_name r) →
     is_Some (inc_end i) ∧ (holds i sequence = true → (sequence < writer_start d)%Z)) ∧
  (jr_migrate r = false → ∀ high_water, writer_high_water s (jr_name r) = Some high_water → (high_water < writer_start d)%Z).
Proof.
  intros Hn Ha Hrange Hd. apply name_floor_spec in Hn. destruct floor as [f|].
  - destruct Hn as (_ & _ & Hi & _ & Hh). rewrite (admitted_floor s r a fleet_id d f Hd Ha (Hrange f eq_refl)). split.
    + intros i q Hin. destruct (Hi i Hin) as (e & He & Hle). rewrite He. split; [eauto|]. unfold holds. rewrite He. simpl.
      intros [_ Hq%Z.leb_le]%andb_true_iff. lia.
    + intros _ h Hw. specialize (Hh h Hw). lia.
  - destruct Hn as [Hk Hh]. split.
    + intros i q Hin. destruct Hk. left. intros Hn. rewrite Hn in Hin. by apply elem_of_nil in Hin.
    + intros Hm h Hw. by rewrite (Hh Hm) in Hw.
Qed.

(** ** An honest join goes through *)

(** What an invite has to be for a joiner with its code. *)
Definition redeemable (now : Z) (s : Sponsor) (code : JoinCode) (name : string) (row : TokenRow) : Prop :=
  sp_tokens s !! hex_text (invite code) = Some row ∧ tk_token row = Some (hex_text (token code)) ∧ length (token code) = 16%nat ∧
  (now < tk_expires_at_unix_ms row)%Z ∧ revoked s (hex_text (invite code)) = false ∧ tk_migrate row = migrate code ∧
  (tk_name row = None ∨ tk_name row = Some name).

Lemma redeemable_swept now s code name row :
  redeemable now s code name row →
  open_row (sweep_fleet_invites now s) (hex_text (invite code)) = Some (row, hex_text (token code)) ∧
  any_open (sweep_fleet_invites now s) = true.
Proof.
  intros (Hrow & Ht & _ & Hexp & Hrev & _).
  assert (Hl : sp_tokens (sweep_fleet_invites now s) !! hex_text (invite code) = Some row).
  { rewrite sweep_lookup, Hrow. simpl. unfold sweep_row. rewrite Hrev. apply Z.leb_gt in Hexp as ->. by rewrite andb_false_r. }
  split; [unfold open_row; by rewrite Hl, Ht|]. apply existsb_exists. exists (hex_text (invite code), row).
  split; [by apply list_elem_of_In, elem_of_map_to_list|]. cbn. by rewrite Ht.
Qed.

Definition mode_ok (mode : string) : bool := str_eqb mode "listening" || str_eqb mode "dial-out".

(** What the row decides about an honest request. *)
Lemma honest_judged now s code member name mode head build e row :
  redeemable now s code name row → valid_fleet_node_name name = true → mode_ok mode = true →
  let r := jn_request (start code member name mode head build e) in
  judge_row r row (hex_text (token code)) =
  match tk_bound_key row with
  | Some bound =>
      if negb (str_eqb bound (member_public member)) || negb (ostr_eqb (tk_bound_name row) (Some name))
      then answered (Refused "bound-to-another-key")
      else
        match tk_admitted_claim row with
        | Some claim => answered (AdmittedJoin (token code) (tk_writer_floor row) (Some claim) false)
        | None => WritingRedeemed r (mkAdmission (tk_migrate row) (tk_writer_floor row) (tk_created_by row) (token code) false)
        end
  | None => Naming r row (token code)
  end.
Proof.
  intros (_ & _ & Hlen & _ & _ & Hmig & Hname) Hv Hm r. unfold judge_row. rewrite hex_bytes_text, Hlen. cbn [Nat.eqb negb].
  assert (Hver : verify_request r (token code) = Ok tt) by apply started_request_verifies.
  rewrite Hver. cbn [r start jn_request with_proof jr_migrate jr_name jr_mode jr_member_key]. rewrite Hmig, eqb_reflx. cbn [negb].
  unfold mode_ok in Hm. rewrite Hv, Hm. cbn [negb]. rewrite !orb_false_r.
  assert (Hp : is_some_and (tk_name row) (λ pinned, negb (str_eqb pinned name)) = false).
  { destruct Hname as [->| ->]; [done|]. simpl. by rewrite str_eqb_refl. }
  by rewrite Hp.
Qed.

Definition appends_succeed : Prop := ∀ now origin input log, ∃ c log', append_claim now origin input log = Ok (c, log').

Lemma append_succeeds now s input :
  appends_succeed → ∃ c log, append now s input = Ok (c, with_claims s log) ∧ says input c ∧ c ∈ map sc_claim log.
Proof.
  intros Happ. destruct (Happ now (sp_origin s) input (sp_claims s)) as (c & log & E). exists c, log. unfold append. rewrite E.
  split; [done|]. apply append_claim_ok in E as (? & ? & _). done.
Qed.

(** The first redemption of an invite by a joiner that holds its code. *)
Lemma honest_redeem now s code member name mode head build e row floor fleet_id :
  redeemable now s code name row → valid_fleet_node_name name = true → mode_ok mode = true → tk_bound_key row = None →
  fleet_name_floor name (is_some head) (migrate code) s = Ok floor → sp_fleet_id s = Some fleet_id → appends_succeed →
  let r := jn_request (start code member name mode head build e) in
  ∃ s' c, redeem_fleet_invite now s r = (s', Ok (AdmittedJoin (token code) floor (Some (fc_id c)) true)) ∧
    says (admitted_input s r (mkAdmission (tk_migrate row) floor (tk_created_by row) (token code) true) fleet_id) c ∧
    c ∈ claims_of s' ∧ sp_anchor s' = sp_anchor s ∧ sp_fleet_id s' = Some fleet_id ∧
    sp_tokens s' !! hex_text (invite code) = Some (set_admitted (set_bound row (member_public member) name floor) (fc_id c)).
Proof.
  intros Hred Hv Hm Hb Hf Hid Happ r. destruct (redeemable_swept _ _ _ _ _ Hred) as [Ho Hany].
  unfold redeem_fleet_invite. set (s1 := sweep_fleet_invites now s) in *.
  assert (Hinv : jr_invite r = hex_text (invite code)) by done.
  cbn [redeem_run redeem_step]. fold s1. rewrite Hany. cbn [redeem_step]. rewrite Hinv, Ho.
  unfold r in *. rewrite (honest_judged now s) by done. fold r in Hinv |- *. rewrite Hb. cbn [redeem_step].
  assert (Hmig : tk_migrate row = migrate code) by apply Hred. rewrite Hmig.
  change (fleet_name_floor _ _ _ s1) with (fleet_name_floor name (is_some head) (migrate code) s). rewrite Hf.
  cbn [redeem_step]. rewrite Hinv, Ho, Hb. cbn [is_none is_some negb redeem_step]. rewrite Hmig.
  set (s2 := update_row s1 _ _). change (sp_fleet_id s2) with (sp_fleet_id s). rewrite Hid.
  destruct (append_succeeds now s2 (redeemed_input r) Happ) as (c1 & log1 & -> & _).
  cbn [redeem_step]. set (a := mkAdmission _ _ _ _ _).
  change (admitted_input (with_claims s2 log1) r a fleet_id) with (admitted_input s r a fleet_id).
  destruct (append_succeeds now (with_claims s2 log1) (admitted_input s r a fleet_id) Happ) as (c & log & -> & Hsays & Hc).
  cbn [redeem_step answered]. eexists _, c. split; [done|]. split_and!; [done..|].
  rewrite Hinv, update_row_lookup, decide_True by done. cbn [sp_tokens with_claims]. unfold s2.
  rewrite update_row_lookup, decide_True by done. cbn [sp_tokens with_claims].
  unfold open_row in Ho. destruct (sp_tokens s1 !! hex_text (invite code)) as [row'|]; [|done].
  destruct (tk_token row'); [|done]. simpl in Ho. by injection Ho as -> ->.
Qed.

(** C6. An honest join goes through. A joiner that holds the code of an open invite and asks for a name
    the rules allow is answered, and opens in the answer the fleet's ID, anchor and secret with the
    floor its sequences start above; the sponsor's store then holds the claim that admits its key
    under that name, and the invite is bound to it. *)
Theorem honest_joins_go_through now s auth key code member name mode head build e row floor fleet_id se nonce :
  redeemable now s code name row → tk_bound_key row = None → valid_fleet_node_name name = true → mode_ok mode = true →
  fleet_name_floor name (is_some head) (migrate code) s = Ok floor → (∀ f, floor = Some f → is_u64 f) →
  sp_fleet_id s = Some fleet_id → pa_member auth = Some key → fingerprint code = fingerprint_of (member_public key) →
  length nonce = 12%nat → appends_succeed →
  let joiner := start code member name mode head build e in
  ∃ s' response c,
    receive_join now auth se nonce (Some (jn_request joiner)) s = (s', Answered response) ∧
    open joiner response =
      Ok (mkSealedJoin fleet_id (if migrate code then None else Some (pa_secret_hex auth)) (default "" (sp_anchor s))
            (pa_node auth) floor None (Some (fc_id c))) ∧
    c ∈ claims_of s' ∧ fc_kind c = MEMBER_ADMITTED ∧ fc_subject c = "host/" +:+ name ∧
    claim_text c "member_key" = Some (member_public member) ∧
    ∃ row', sp_tokens s' !! hex_text (invite code) = Some row' ∧ bound row' = Some (member_public member, name).
Proof.
  intros Hred Hb Hv Hm Hf Hrange Hid Hkey Hfp Hn Happ joiner.
  destruct (honest_redeem now s code member name mode head build e row floor fleet_id) as (s' & c & E & Hsays & Hc & Ha & Hid' & Hrow);
    [done..|].
  set (payload := mkSealedJoin fleet_id (if migrate code then None else Some (pa_secret_hex auth)) (default "" (sp_anchor s))
                    (pa_node auth) floor None (Some (fc_id c))).
  destruct (honest_join_opens code member name mode head build e (pa_node auth) key payload se nonce Hfp Hn)
    as [_ (response & Hseal & Hopen)].
  exists s', response, c. unfold receive_join. rewrite Hkey. fold joiner in E. rewrite E.
  assert (Hpay : sealed_payload auth (jn_request joiner) (redemption_answer s' (AdmittedJoin (token code) floor (Some (fc_id c)) true)) = payload).
  { unfold sealed_payload, payload, text_field. cbn. rewrite Ha, Hid'. cbn. f_equal; [by destruct (sp_anchor s)|].
    destruct floor as [f|]; [|done]. cbn. apply number_of_u64. by apply Hrange. }
  rewrite Hpay.
  assert (Hst : ∀ fl cl, text_field (redemption_answer s' (AdmittedJoin (token code) fl cl true)) "status" = Some "admitted" ∧
                         text_field (redemption_answer s' (AdmittedJoin (token code) fl cl true)) "token" = Some (hex_text (token code)))
    by done.
  destruct (Hst floor (Some (fc_id c))) as [-> ->]. cbn [mbind option_bind].
  rewrite hex_bytes_text. fold joiner in Hseal. rewrite Hseal. split; [done|]. split; [exact Hopen|].
  pose proof (admitted_input_fields _ _ _ _ _ Hsays) as (Hsub & _ & Hmk). split_and!; [done|by apply Hsays|done|done|].
  eexists. split; [exact Hrow|]. done.
Qed.

(** A joiner that lost its answer is admitted again, with the same floor and claim, and nothing is
    written; the invite is refused to any other key or name. *)
Lemma lost_answers_are_answered_again now s code member name mode head build e row key bound_name claim :
  redeemable now s code name row → valid_fleet_node_name name = true → mode_ok mode = true →
  tk_bound_key row = Some key → tk_bound_name row = Some bound_name → tk_admitted_claim row = Some claim →
  let r := jn_request (start code member name mode head build e) in
  redeem_fleet_invite now s r =
  (sweep_fleet_invites now s,
   Ok (if str_eqb key (member_public member) && str_eqb bound_name name
       then AdmittedJoin (token code) (tk_writer_floor row) (Some claim) false else Refused "bound-to-another-key")).
Proof.
  intros Hred Hv Hm Hk Hbn Hcl r. destruct (redeemable_swept _ _ _ _ _ Hred) as [Ho Hany].
  unfold redeem_fleet_invite. cbn [redeem_run redeem_step]. rewrite Hany. cbn [redeem_step].
  change (jr_invite r) with (hex_text (invite code)). rewrite Ho. unfold r. rewrite (honest_judged now s) by done.
  rewrite Hk, Hbn, Hcl. assert (Hon : ostr_eqb (Some bound_name) (Some name) = str_eqb bound_name name).
  { unfold ostr_eqb, str_eqb. apply bool_decide_ext. split; [by intros [= ->]|by intros ->]. }
  rewrite Hon. destruct (str_eqb key _), (str_eqb bound_name name); done.
Qed.

(** ** Removing a member *)

Lemma append_grows now s input c s' d : append now s input = Ok (c, s') → d ∈ claims_of s → d ∈ claims_of s'.
Proof. intros Ha%append_spec Hd. destruct Ha as (_ & _ & _ & _ & _ & new & -> & _). apply elem_of_app. by left. Qed.

Lemma append_removals_spec now name keys high_water reason person : ∀ s s',
  append_removals now name keys high_water reason person s = (s', Ok tt) →
  (∀ d, d ∈ claims_of s → d ∈ claims_of s') ∧
  ∀ key, key ∈ keys → ∃ c, c ∈ claims_of s' ∧ says (removed_input name key high_water reason person) c.
Proof.
  induction keys as [|key keys IH]; intros s s' E; simpl in E.
  - injection E as <-. split; [done|]. intros key Hk. by apply elem_of_nil in Hk.
  - destruct (append _ _ _) as [[c s1]|] eqn:Ha; [|done]. destruct (IH _ _ E) as [Hg Hk]. split.
    + intros d Hd. apply Hg. by eapply append_grows.
    + intros key' Hin. apply elem_of_cons in Hin as [->|Hin]; [|by apply Hk].
      apply append_spec in Ha as (Hs & Hc & _). eauto.
Qed.

Lemma revoked_claim s i :
  revoked s i = true ↔ ∃ c, c ∈ claims_of s ∧ fc_subject c = invite_subject i ∧ fc_kind c = "fleet.invite-revoked".
Proof.
  unfold revoked. rewrite existsb_exists. setoid_rewrite andb_true_iff. setoid_rewrite str_eqb_true.
  by setoid_rewrite <- list_elem_of_In.
Qed.

Lemma revoke_all_spec now invites person : ∀ s s',
  revoke_all now invites person s = (s', Ok tt) →
  (∀ d, d ∈ claims_of s → d ∈ claims_of s') ∧
  ∀ v, v ∈ invites → revoked s' (trim_start_matches "fleet-invite/" (iv_invite v)) = true.
Proof.
  induction invites as [|v invites IH]; intros s s' E; simpl in E.
  - injection E as <-. split; [done|]. intros v Hv. by apply elem_of_nil in Hv.
  - unfold revoke_fleet_invite in E. destruct (append _ _ _) as [[c s1]|] eqn:Ha; [|done]. destruct (IH _ _ E) as [Hg Hk]. split.
    + intros d Hd. apply Hg. change (d ∈ claims_of s1). by eapply append_grows.
    + intros v' Hin. apply elem_of_cons in Hin as [->|Hin]; [|by apply Hk].
      apply append_revokes, revoked_claim in Ha as (d & Hd & ?). apply revoked_claim. exists d. split; [by apply Hg|done].
Qed.

(** The keys a removal names are those of the open incarnations. *)
Lemma state_open_keys m name i :
  i ∈ writer_incarnations m name → inc_end i = None →
  match state m name with
  | Current j => j = i
  | Conflicted l => i ∈ l
  | _ => False
  end.
Proof.
  intros Hin He. assert (Hf : i ∈ List.filter (λ i, is_none (inc_end i)) (writer_incarnations m name))
    by (apply lfilter_elem; by rewrite He).
  unfold state. destruct (List.filter _ _) as [|j []]; [by apply elem_of_nil in Hf|by apply list_elem_of_singleton in Hf|done].
Qed.

(** Removing a member closes its ways in. After a removal that succeeds, a removal claim with the
    highest sequence this node holds of the name stands against every open incarnation of it, and
    every invite the removal lists, the open ones the name sponsored, is revoked. *)
Theorem removal_ends_every_incarnation now name reason person own_key s s' removal :
  remove_fleet_member now name reason person own_key s = (s', Ok removal) →
  fr_high_water removal = default 0%Z (writer_high_water s name) ∧
  (∀ i, i ∈ writer_incarnations (fleet_membership s) name → inc_end i = None →
     ∃ c, c ∈ claims_of s' ∧ says (removed_input name (Some (inc_member_key i)) (fr_high_water removal) reason person) c) ∧
  (∀ invite, invite ∈ fr_revoked_invites removal → revoked s' (trim_start_matches "fleet-invite/" invite) = true).
Proof.
  unfold remove_fleet_member. case_match; [done|]. destruct own_key as [own_key|]; [|done].
  destruct (state _ (sp_origin s)) as [own| | | |]; try done. case_match; [done|].
  set (m := fleet_membership s). set (keys := match state m name with Current _ => _ | _ => _ end).
  assert (Hkeys : ∀ i, i ∈ writer_incarnations m name → inc_end i = None → ∃ l, keys = Some l ∧ Some (inc_member_key i) ∈ l).
  { intros i Hi He. pose proof (state_open_keys m name i Hi He) as Hs. unfold keys. destruct (state m name); try done.
    - subst. eexists. split; [done|left].
    - eexists. split; [done|]. apply list_elem_of_fmap. eauto. }
  destruct keys as [keys'|]; [|done]. case_match; [done|].
  destruct (append_removals _ _ _ _ _ _ _) as [s1 [[]|]] eqn:E1; [|done].
  destruct (revoke_all _ _ _ _) as [s2 [[]|]] eqn:E2; [|done]. intros [= <- <-]. cbn.
  apply append_removals_spec in E1 as [_ Hrem]. apply revoke_all_spec in E2 as [Hg Hrev]. split_and!; [done| |].
  - intros i Hi He. destruct (Hkeys i Hi He) as (l & [= <-] & Hl). destruct (Hrem _ Hl) as (c & Hc & Hsays). eauto.
  - intros invite (v & -> & Hv)%list_elem_of_fmap. by apply Hrev.
Qed.
End route.

(** ** Witnesses *)

Local Existing Instances integer_numbers plain_crypto plain.

Lemma plain_appends_succeed : appends_succeed (runtime := plain).
Proof. intros now origin input log. by eexists _, _. Qed.

Definition route_auth : PeerAuth := mkPeerAuth "b" (Some sponsor_secret) "fleet" "secret".

Lemma honest_joins_witness :
  let joiner := start (desk_code token_bytes) (bytes_of "m") "a" "listening" None "1" [] in
  ∃ s' response c,
    receive_join 0 route_auth [] example_nonce (Some (jn_request joiner)) with_invite = (s', Answered response) ∧
    open joiner response = Ok (mkSealedJoin "fleet" (if migrate (desk_code token_bytes) then None else Some (pa_secret_hex route_auth))
                                 (default "" (sp_anchor with_invite)) (pa_node route_auth) None None (Some (fc_id c))) ∧
    c ∈ claims_of s' ∧ fc_kind c = MEMBER_ADMITTED ∧ fc_subject c = "host/" +:+ "a" ∧
    claim_text c "member_key" = Some (member_public (bytes_of "m")) ∧
    ∃ row', sp_tokens s' !! hex_text (invite (desk_code token_bytes)) = Some row' ∧
      bound row' = Some (member_public (bytes_of "m"), "a").
Proof.
  apply (honest_joins_go_through 0 with_invite route_auth sponsor_secret (desk_code token_bytes) (bytes_of "m") "a" "listening" None
           "1" [] (mkTokenRow (Some (str_of token_bytes)) 60000 None false None None 0 None None (Some "person")) None "fleet"
           [] example_nonce).
  - unfold redeemable. split_and!; [by vm_compute..|by left].
  - done.
  - by vm_compute.
  - by vm_compute.
  - by vm_compute.
  - done.
  - by vm_compute.
  - done.
  - done.
  - done.
  - apply plain_appends_succeed.
Defined.

(** The fleet of the membership examples: [b] was removed with its sequences up to 5, and this node holds
    one more. *)
Definition root_sponsor : Sponsor :=
  mkSponsor "r" (Some "fleet") (Some "kr") ∅ (map (λ c, mkStored c 0) removed_fleet) [("b", 6%Z); ("r", 9%Z)] [].
Definition rejoin_request : JoinRequest :=
  mkJoinRequest PROTOCOL "i" "b" "listening" "kb2" "" None "1" false "" "".
Definition rejoin_admission : Admission := mkAdmission false (Some 6%Z) None [] true.
Definition rejoin_claim : FleetClaim :=
  mkFleetClaim "20" MEMBER_ADMITTED "host/b"
    (list_to_map (ci_fields (admitted_input root_sponsor rejoin_request rejoin_admission "fleet"))) "r" 10 {["kr"]}.

Lemma rejoined_names_witness :
  (∀ i sequence, i ∈ writer_incarnations (fleet_membership root_sponsor) "b" →
     is_Some (inc_end i) ∧ (holds i sequence = true → (sequence < 7)%Z)) ∧
  (false = false → ∀ high_water, writer_high_water root_sponsor "b" = Some high_water → (high_water < 7)%Z).
Proof.
  assert (E : writer_start rejoin_claim = 7%Z) by by vm_compute. rewrite <- E.
  apply (rejoined_names_start_above_their_history root_sponsor rejoin_request rejoin_admission "fleet" (Some 6%Z)).
  - by vm_compute.
  - done.
  - intros f [= <-]. by vm_compute.
  - done.
Defined.

(** Host [r] removes [c], which sponsored an invite. *)
Definition c_invite : FleetClaim :=
  mkFleetClaim "30" "fleet.invite-created" "fleet-invite/x"
    (list_to_map [("sponsor", Str "host/c"); ("expires_at_unix_ms", Num (number_of 100))]) "c" 3 {["kc"]}.
Definition before_removal : Sponsor :=
  mkSponsor "r" (Some "fleet") (Some "kr") ∅ (map (λ c, mkStored c 0) (chain_fleet ++ [c_invite])) [("c", 3%Z)] [].

Lemma removal_witness :
  let s' := (remove_fleet_member (λ l, l) 0 "c" "lost" "person" (Some "kr") before_removal).1 in
  revoked s' "x" = true.
Proof.
  set (res := remove_fleet_member (λ l, l) 0 "c" "lost" "person" (Some "kr") before_removal).
  assert (E : res.2 = Ok (mkRemoval "c" ["kc"] 3 ["fleet-invite/x"])) by by vm_compute.
  pose proof (removal_ends_every_incarnation (λ l, l) 0 "c" "lost" "person" (Some "kr") before_removal res.1
                (mkRemoval "c" ["kc"] 3 ["fleet-invite/x"])) as H.
  apply (proj2 (proj2 (H ltac:(fold res; rewrite <- E; by destruct res))) "fleet-invite/x"). left.
Defined.
