(* ===== verification/Principal.v ===== *)
(** * Principals: keys, delegations and claim verdicts

    Models [crates/smallclaims/src/principal.rs]: the principal families and key roles, the bytes
    a claim signature covers, the keyring, and [judge], which decides a claim's verdict from facts
    the store looks up. The signature schemes, base64 and serde are other crates' and are
    parameters: [decode] (base64url), [ed25519] and [p256] (verification of a signature over a
    message), [json_to_string] (compact JSON text) and [grant_from_fields] (deserializing a key
    grant). *)

From Stdlib Require Import Ascii.
From S2P Require Import Prelude StableSort Text Json Claim Hash.

Definition KEY_GRANTED : string := "principal.key-granted".
Definition CLAIM_SIGNATURE_DOMAIN : string := "smallclaims-claim-v1".
Definition CONTENT_DOMAIN : string := "smallclaims.claim-content.v1".
Definition FIELDS_FORMAT : string := "fields-v1".
Definition FIELDS_DOMAIN : string := "smallclaims-claim-fields-v1".

(** ** Families and roles *)

Inductive Role := RoleRoot | RoleDevice | RoleAgent | RolePlugin.
Inductive Family := Node | Person | Agent | Plugin.

#[export] Instance Role_eq_dec : EqDecision Role.
Proof. solve_decision. Defined.
#[export] Instance Family_eq_dec : EqDecision Family.
Proof. solve_decision. Defined.

Definition Family_of (subject : string) : option Family :=
  match split_once "/" subject with
  | None => None
  | Some (prefix, rest) =>
      if str_eqb rest "" then None
      else if str_eqb prefix "host" then Some Node
      else if str_eqb prefix "person" then Some Person
      else if str_eqb prefix "agent" then Some Agent
      else if str_eqb prefix "plugin" then Some Plugin
      else None
  end.

Definition accepts (self : Family) (role : Role) (issuer : Family) (same_principal : bool) : bool :=
  match self, role with
  | Person, RoleRoot => bool_decide (issuer = Node)
  | Person, RoleDevice => bool_decide (issuer = Person) && same_principal
  | Agent, RoleAgent => bool_decide (issuer = Node)
  | Plugin, RolePlugin => bool_decide (issuer = Node)
  | _, _ => false
  end.

Definition signs_with (self : Family) (role : Role) : bool :=
  match self, role with
  | Person, RoleDevice | Agent, RoleAgent | Plugin, RolePlugin => true
  | _, _ => false
  end.

(** The names [{:?}] prints. *)
Definition Family_debug (f : Family) : string :=
  match f with Node => "Node" | Person => "Person" | Agent => "Agent" | Plugin => "Plugin" end.
Definition Role_debug (r : Role) : string :=
  match r with
  | RoleRoot => "Root" | RoleDevice => "Device" | RoleAgent => "Agent" | RolePlugin => "Plugin"
  end.

Record KeyGrant := mkKeyGrant {
  kg_key : string;
  kg_role : Role;
  kg_issuer : string;
  kg_issuer_key : string;
  kg_label : option string
}.

Record ClaimSignature := mkClaimSignature {
  cs_signer : string;
  cs_on_behalf : option string;
  cs_key : string;
  cs_chain : list string;
  cs_nonce : string;
  cs_signed_at_unix_ms : Z;
  cs_signature : string;
  cs_format : option string;
  cs_signed_fields : list string
}.

(** ** Verdicts and the facts they rest on *)

Inductive Verdict :=
| Verified
| Unsigned
| Held (reason : string)
| Invalid (reason : string).

#[export] Instance Verdict_eq_dec : EqDecision Verdict.
Proof. solve_decision. Defined.

Definition Verdict_name (v : Verdict) : string :=
  match v with
  | Verified => "verified" | Unsigned => "unsigned" | Held _ => "held" | Invalid _ => "invalid"
  end.

Definition Verdict_reason (v : Verdict) : option string :=
  match v with Held reason | Invalid reason => Some reason | _ => None end.

Record Delegation := mkDelegation {
  dl_subject : string;
  dl_grant : KeyGrant;
  dl_verdict : Verdict
}.

(** What [judge] asks the store. *)
Class Facts := mkFacts {
  delegation : string → option Delegation;
  is_root : string → string → bool;
  revoked_before : string → string → bool;
  nonce_used_before : string → string → bool
}.

(** ** Signed bytes *)

Definition newline : string := String "010"%char "".
Definition lines (l : list string) : string := join newline l.

Definition signing_bytes (content signer : string) (on_behalf : option string) (key : string)
    (chain : list string) (nonce : string) (signed_at_unix_ms : Z) : list ascii :=
  bytes_of (lines [CLAIM_SIGNATURE_DOMAIN; content; signer; default "" on_behalf; key;
                   join "," chain; nonce; u_to_string signed_at_unix_ms]).

Section signing.
Context `{NumberApi}.
Context (canonical_hash : Item → string) (json_to_string : Value → string).
Context (decode : string → option (list ascii)).
Context (ed25519 p256 : list ascii → list ascii → list ascii → bool).
Context (grant_from_fields : Value → option KeyGrant).

Record Judged := mkJudged {
  jd_id : string;
  jd_subject : string;
  jd_kind : string;
  jd_actor : option string;
  jd_content : string;
  jd_fields : Value
}.

Definition fields_signing_bytes (subject kind : string) (actor : option string) (fields : Value)
    (signed_fields : list string) (signer : string) (on_behalf : option string) (key : string)
    (chain : list string) (nonce : string) (signed_at_unix_ms : Z) : list ascii :=
  let names := sort_dedup signed_fields in
  let text := FIELDS_DOMAIN +:+ newline +:+ subject +:+ newline +:+ kind +:+ newline
              +:+ default "" actor +:+ newline in
  let text := foldl (λ text name,
      let value := canonical_json_value (default Null (get name fields)) in
      text +:+ name +:+ "=" +:+ json_to_string value +:+ newline) text names in
  bytes_of (text +:+ lines [signer; default "" on_behalf; key; join "," chain; nonce;
                            u_to_string signed_at_unix_ms]).

(** [fleet::verify_signature]. *)
Definition verify_signature (public : string) (message : list ascii) (signature : string) : bool :=
  match decode public, decode signature with
  | Some public, Some signature => (length public =? 32) && ed25519 public message signature
  | _, _ => false
  end.

Definition verify_key_signature (key : string) (message : list ascii) (signature : string) : bool :=
  match strip_prefix "p256:" key with
  | None => verify_signature key message signature
  | Some point =>
      match decode point, decode signature with
      | Some point, Some signature => (length point =? 65) && p256 point message signature
      | _, _ => false
      end
  end.

Definition content_digest (subject kind : string) (actor : option string) (body : Value) : string :=
  canonical_hash (ITuple [IText CONTENT_DOMAIN; IText subject; IText kind; IOption actor;
                          IJson (canonical_json_value body)]).

(** A key pair: its public key, and the signature it makes over a message. *)
Record MemberKey := mkMemberKey {
  mk_public : string;
  mk_sign : list ascii → string
}.

(** [ClaimSignature::sign], with the nonce it drew. *)
Definition sign (nonce : string) (key : MemberKey) (content signer : string)
    (on_behalf : option string) (chain : list string) (signed_at_unix_ms : Z) : ClaimSignature :=
  mkClaimSignature signer on_behalf (mk_public key) chain nonce signed_at_unix_ms
    (mk_sign key (signing_bytes content signer on_behalf (mk_public key) chain nonce
                    signed_at_unix_ms))
    None [].

Definition verifies (self : ClaimSignature) (claim : Judged) : bool :=
  match cs_format self with
  | None =>
      verify_key_signature (cs_key self)
        (signing_bytes (jd_content claim) (cs_signer self) (cs_on_behalf self) (cs_key self)
           (cs_chain self) (cs_nonce self) (cs_signed_at_unix_ms self))
        (cs_signature self)
  | Some format =>
      if str_eqb format FIELDS_FORMAT && negb (bool_decide (cs_signed_fields self = []))
      then verify_key_signature (cs_key self)
             (fields_signing_bytes (jd_subject claim) (jd_kind claim) (jd_actor claim)
                (jd_fields claim) (cs_signed_fields self) (cs_signer self) (cs_on_behalf self)
                (cs_key self) (cs_chain self) (cs_nonce self) (cs_signed_at_unix_ms self))
             (cs_signature self)
      else false
  end.

(** ** Judging *)

Section judging.
Context `{Facts}.

(** The walk up the chain. [index] counts the delegations already passed. *)
Fixpoint walk_chain (claim : Judged) (family : Family) (index : nat) (principal key : string)
    (chain : list string) : Verdict :=
  match chain with
  | [] => Invalid "the chain does not reach a node"
  | id :: rest =>
      match delegation id with
      | None => Held ("delegation " +:+ id +:+ " has not arrived")
      | Some d =>
          let grant := dl_grant d in
          if negb (str_eqb (dl_subject d) principal) || negb (str_eqb (kg_key grant) key)
          then Invalid ("delegation " +:+ id +:+ " does not grant the key the chain needs")
          else if (index =? 0) && (negb (str_eqb (jd_kind claim) KEY_GRANTED)
                                   && negb (signs_with family (kg_role grant)))
          then Invalid ("a " +:+ Role_debug (kg_role grant) +:+ " key does not sign claims")
          else if negb (index =? 0) && negb (bool_decide (kg_role grant = RoleRoot))
          then Invalid ("delegation " +:+ id +:+ " cannot issue keys")
          else if revoked_before principal key
          then Invalid ("the key of `" +:+ principal +:+ "` in the chain was revoked")
          else match dl_verdict d with
          | Held reason => Held reason
          | Unsigned => Invalid ("delegation " +:+ id +:+ " is unsigned")
          | Invalid reason => Invalid ("delegation " +:+ id +:+ " is invalid: " +:+ reason)
          | Verified =>
              if bool_decide (Family_of (kg_issuer grant) = Some Node)
              then if bool_decide (rest = []) then Verified
                   else Invalid "the chain goes on past a node"
              else walk_chain claim family (S index) (kg_issuer grant) (kg_issuer_key grant) rest
          end
      end
  end.

Definition judge_chain (claim : Judged) (signature : ClaimSignature) (family : Family) : Verdict :=
  if bool_decide (cs_chain signature = [])
  then Invalid "the signature names no delegation for its key"
  else walk_chain claim family 0 (cs_signer signature) (cs_key signature) (cs_chain signature).

(** What a key grant adds: the reason to refuse it, if any. *)
Definition judge_grant (claim : Judged) (signature : ClaimSignature) (family : Family)
    : option string :=
  match grant_from_fields (jd_fields claim) with
  | Some grant =>
      if str_eqb (kg_issuer grant) (cs_signer signature)
         && str_eqb (kg_issuer_key grant) (cs_key signature)
      then match Family_of (jd_subject claim) with
      | None => Some ("`" +:+ jd_subject claim +:+ "` cannot hold keys")
      | Some subject_family =>
          if accepts subject_family (kg_role grant) family
               (str_eqb (jd_subject claim) (kg_issuer grant))
          then None
          else Some ("a " +:+ Family_debug family +:+ " cannot grant a "
                     +:+ Role_debug (kg_role grant) +:+ " key to `" +:+ jd_subject claim +:+ "`")
      end
      else Some "a key grant must be signed by its issuer's key"
  | None => Some "the key grant's fields are malformed"
  end.

Definition judge (claim : Judged) (signature : option ClaimSignature) : Verdict :=
  match signature with
  | None => Unsigned
  | Some signature =>
      if negb (verifies signature claim)
      then Invalid "the signature does not match the claim"
      else if nonce_used_before (cs_key signature) (cs_nonce signature)
      then Invalid "the signature was used by an earlier claim"
      else if is_some_and (cs_on_behalf signature) (λ o, str_eqb o (cs_signer signature))
      then Invalid "a signer cannot act on its own behalf"
      else match Family_of (cs_signer signature) with
      | None => Invalid ("`" +:+ cs_signer signature +:+ "` is not a principal")
      | Some family =>
          match (if str_eqb (jd_kind claim) KEY_GRANTED
                 then judge_grant claim signature family else None) with
          | Some reason => Invalid reason
          | None =>
              if bool_decide (family = Node)
              then if negb (bool_decide (cs_chain signature = []))
                   then Invalid "a node key needs no chain"
                   else if is_root (cs_signer signature) (cs_key signature)
                   then Verified
                   else Held ("fleet membership admits no such key for `"
                              +:+ cs_signer signature +:+ "`")
              else judge_chain claim signature family
          end
      end
  end.

(** ** The specification of a verified chain *)

(** One delegation of a chain stands: it has arrived, grants [key] to [principal] in an
    accepted role, is itself verified, and the key was not revoked before the claim. *)
Definition link_stands (role_ok : Role → bool) (principal key id : string) (d : Delegation)
    : Prop :=
  delegation id = Some d ∧ dl_subject d = principal ∧ kg_key (dl_grant d) = key ∧
  role_ok (kg_role (dl_grant d)) = true ∧ revoked_before principal key = false ∧
  dl_verdict d = Verified.

Definition only_root (r : Role) : bool := bool_decide (r = RoleRoot).

Inductive chain_to_node : (Role → bool) → string → string → list string → Prop :=
| chain_last role_ok principal key id d :
    link_stands role_ok principal key id d →
    Family_of (kg_issuer (dl_grant d)) = Some Node →
    chain_to_node role_ok principal key [id]
| chain_more role_ok principal key id d rest :
    link_stands role_ok principal key id d →
    Family_of (kg_issuer (dl_grant d)) ≠ Some Node →
    chain_to_node only_root (kg_issuer (dl_grant d)) (kg_issuer_key (dl_grant d)) rest →
    chain_to_node role_ok principal key (id :: rest).

(** The roles a chain's first delegation may have: any for a grant, a signing one otherwise. *)
Definition first_role_ok (claim : Judged) (family : Family) (r : Role) : bool :=
  str_eqb (jd_kind claim) KEY_GRANTED || signs_with family r.

(** What a key grant must satisfy to be accepted from [signature]. *)
Definition grant_is_proper (claim : Judged) (signature : ClaimSignature) (family : Family)
    : Prop :=
  ∃ grant subject_family,
    grant_from_fields (jd_fields claim) = Some grant ∧
    kg_issuer grant = cs_signer signature ∧ kg_issuer_key grant = cs_key signature ∧
    Family_of (jd_subject claim) = Some subject_family ∧
    accepts subject_family (kg_role grant) family
      (str_eqb (jd_subject claim) (kg_issuer grant)) = true.

Definition signer_speaks (claim : Judged) (signature : ClaimSignature) : Prop :=
  ∃ family,
    Family_of (cs_signer signature) = Some family ∧
    (jd_kind claim = KEY_GRANTED → grant_is_proper claim signature family) ∧
    (family = Node → cs_chain signature = [] ∧
       is_root (cs_signer signature) (cs_key signature) = true) ∧
    (family ≠ Node → chain_to_node (first_role_ok claim family) (cs_signer signature)
       (cs_key signature) (cs_chain signature)).

Lemma walk_chain_first claim family index principal key chain :
  walk_chain claim family index principal key chain = Verified ↔
  chain_to_node (if index =? 0 then first_role_ok claim family else only_root)
    principal key chain.
Proof.
  revert index principal key; induction chain as [|id rest IH]; intros index principal key; simpl.
  { split; [done | inversion 1]. }
  set (role_ok := if index =? 0 then _ else _).
  assert (Hlink : ∀ d, delegation id = Some d →
    link_stands role_ok principal key id d ↔
    (negb (str_eqb (dl_subject d) principal) || negb (str_eqb (kg_key (dl_grant d)) key) = false ∧
     (index =? 0) && (negb (str_eqb (jd_kind claim) KEY_GRANTED)
        && negb (signs_with family (kg_role (dl_grant d)))) = false ∧
     negb (index =? 0) && negb (bool_decide (kg_role (dl_grant d) = RoleRoot)) = false ∧
     revoked_before principal key = false ∧ dl_verdict d = Verified)).
  { intros d Hd. unfold link_stands, role_ok, first_role_ok, only_root.
    rewrite orb_false_iff, !negb_false_iff, !str_eqb_true.
    destruct (index =? 0), (str_eqb (jd_kind claim) KEY_GRANTED),
      (signs_with family _), (bool_decide _); simpl; intuition congruence. }
  assert (Hinv : chain_to_node role_ok principal key (id :: rest) ↔
    ∃ d, delegation id = Some d ∧ link_stands role_ok principal key id d ∧
         ((Family_of (kg_issuer (dl_grant d)) = Some Node ∧ rest = []) ∨
          (Family_of (kg_issuer (dl_grant d)) ≠ Some Node ∧
           chain_to_node only_root (kg_issuer (dl_grant d)) (kg_issuer_key (dl_grant d)) rest))).
  { split.
    - inversion 1 as [? ? ? ? d Hl|? ? ? ? d ? Hl]; subst; exists d;
        split_and!; try done; [by destruct Hl | by left | by destruct Hl | by right].
    - intros (d & _ & Hl & [[Hn ->]|[Hn Hr]]); [by eapply chain_last | by eapply chain_more]. }
  rewrite Hinv. clear Hinv.
  destruct (delegation id) as [d|]; [|split; [done | naive_solver]].
  specialize (Hlink d eq_refl). transitivity
    (link_stands role_ok principal key id d ∧
     ((Family_of (kg_issuer (dl_grant d)) = Some Node ∧ rest = []) ∨
      (Family_of (kg_issuer (dl_grant d)) ≠ Some Node ∧
       chain_to_node only_root (kg_issuer (dl_grant d)) (kg_issuer_key (dl_grant d)) rest)));
    [|naive_solver].
  rewrite Hlink. clear Hlink.
  assert (Hno : ∀ v P Q, v ≠ Verified → ¬ P → v = Verified ↔ P ∧ Q) by tauto.
  destruct (negb (str_eqb (dl_subject d) principal) || _); [apply Hno; [done | by intros []]|].
  destruct ((index =? 0) && _); [apply Hno; [done | by intros (_ & ? & _)]|].
  destruct (negb (index =? 0) && _); [apply Hno; [done | by intros (_ & _ & ? & _)]|].
  destruct (revoked_before principal key); [apply Hno; [done | by intros (_ & _ & _ & ? & _)]|].
  destruct (dl_verdict d); try (apply Hno; [done | by intros (_ & _ & _ & _ & ?)]).
  case_bool_decide as Hn; [case_bool_decide as Hr; naive_solver|].
  rewrite IH. simpl. naive_solver.
Qed.

Lemma judge_grant_None claim signature family :
  judge_grant claim signature family = None ↔ grant_is_proper claim signature family.
Proof.
  unfold judge_grant, grant_is_proper.
  destruct (grant_from_fields _) as [g|]; [|naive_solver].
  destruct (str_eqb (kg_issuer g) _) eqn:E1, (str_eqb (kg_issuer_key g) _) eqn:E2; str_cases;
    simpl; [|naive_solver..].
  destruct (Family_of (jd_subject claim)) as [f|]; [|naive_solver].
  destruct (accepts _ _ _ _) eqn:E3.
  - split; [intros _; by exists g, f | done].
  - split; [done | intros (? & ? & ? & ? & ? & ? & ?); simplify_eq; congruence].
Qed.

Lemma judge_chain_Verified claim signature family :
  judge_chain claim signature family = Verified ↔
  chain_to_node (first_role_ok claim family) (cs_signer signature) (cs_key signature)
    (cs_chain signature).
Proof.
  unfold judge_chain. case_bool_decide as E.
  - rewrite E. split; [done | inversion 1].
  - by rewrite walk_chain_first.
Qed.

Lemma judge_Verified claim signature :
  judge claim signature = Verified ↔
  ∃ s, signature = Some s ∧ verifies s claim = true ∧
       nonce_used_before (cs_key s) (cs_nonce s) = false ∧
       cs_on_behalf s ≠ Some (cs_signer s) ∧ signer_speaks claim s.
Proof.
  unfold judge. destruct signature as [s|]; [|split; [done | by intros (? & ? & _)]].
  transitivity (verifies s claim = true ∧
    nonce_used_before (cs_key s) (cs_nonce s) = false ∧
    cs_on_behalf s ≠ Some (cs_signer s) ∧ signer_speaks claim s);
    [|split; [intros Hs; by exists s | by intros (? & [= <-] & Hs)]].
  destruct (verifies s claim); simpl; [|intuition discriminate].
  destruct (nonce_used_before _ _); [intuition discriminate|].
  assert (Hob : is_some_and (cs_on_behalf s) (λ o, str_eqb o (cs_signer s)) = false ↔
                cs_on_behalf s ≠ Some (cs_signer s)).
  { destruct (cs_on_behalf s) as [o|]; simpl; [rewrite str_eqb_false|done].
    split; [by intros ? [= ->] | by intros Hn ->]. }
  destruct (is_some_and _ _); [intuition discriminate|]. unfold signer_speaks.
  destruct (Family_of (cs_signer s)) as [f|]; [|naive_solver].
  transitivity (((if str_eqb (jd_kind claim) KEY_GRANTED then judge_grant claim s f else None) = None) ∧
     (f = Node → cs_chain s = [] ∧ is_root (cs_signer s) (cs_key s) = true) ∧
     (f ≠ Node → judge_chain claim s f = Verified)).
  - destruct (if str_eqb _ _ then _ else _); [naive_solver|].
    destruct (decide (f = Node)) as [Hf|Hf].
    + rewrite bool_decide_eq_true_2 by done.
      case_bool_decide; destruct (is_root _ _); simpl; intuition (discriminate || congruence).
    + rewrite bool_decide_eq_false_2 by done. tauto.
  - rewrite judge_chain_Verified. destruct (str_eqb (jd_kind claim) KEY_GRANTED) eqn:Ek;
      str_cases; rewrite ?judge_grant_None; naive_solver.
Qed.

(** C14. [judge] verifies a claim exactly when it carries a genuine signature whose nonce is
    fresh, whose signer does not act on its own behalf, and whose signer speaks with that key: a
    node with a trust root and no chain, or another principal whose chain of standing, verified
    delegations ends at a node, every one above the first granting a root key; a key grant is
    also signed by its issuer's key, in a role that issuer may grant. *)
Theorem judge_verifies_exactly claim signature :
  judge claim signature = Verified ↔
  ∃ s, signature = Some s ∧ verifies s claim = true ∧
       nonce_used_before (cs_key s) (cs_nonce s) = false ∧
       cs_on_behalf s ≠ Some (cs_signer s) ∧ signer_speaks claim s.
Proof. apply judge_Verified. Qed.

Lemma walk_chain_Held claim family index principal key chain reason :
  walk_chain claim family index principal key chain = Held reason →
  ∃ id, id ∈ chain ∧ (delegation id = None ∨
    ∃ d, delegation id = Some d ∧ dl_verdict d = Held reason).
Proof.
  revert index principal key; induction chain as [|id rest IH]; intros index principal key;
    simpl; [done|].
  destruct (delegation id) as [d|] eqn:Hd; [|exists id; split; [left | by left]].
  do 4 (match goal with |- context [if ?b then _ else _] => destruct b; [done|] end).
  destruct (dl_verdict d) eqn:Hv; try done.
  - repeat case_bool_decide; try done. intros (id' & Hin & Hid)%IH.
    exists id'. split; [by right | done].
  - intros [= ->]. exists id. split; [left|]. right. by exists d.
Qed.

(** A claim is held only while information is missing: its signature is genuine, and
    either its signer is a node whose key is no trust root yet, or a delegation its chain names
    has not arrived or is itself held for the reason given. *)
Theorem held_only_while_information_is_missing claim signature reason :
  judge claim signature = Held reason →
  ∃ s, signature = Some s ∧ verifies s claim = true ∧
    ((Family_of (cs_signer s) = Some Node ∧ is_root (cs_signer s) (cs_key s) = false) ∨
     ∃ id, id ∈ cs_chain s ∧ (delegation id = None ∨
       ∃ d, delegation id = Some d ∧ dl_verdict d = Held reason)).
Proof.
  unfold judge. destruct signature as [s|]; [|done].
  destruct (verifies s claim) eqn:Hv; simpl; [|done].
  destruct (nonce_used_before _ _); [done|]. destruct (is_some_and _ _); [done|].
  destruct (Family_of (cs_signer s)) as [f|] eqn:Hf; [|done].
  case_match; [done|]. intros Hj. exists s. split_and!; [done|done|].
  revert Hj. case_bool_decide as Hn; intros Hj; subst.
  - left. destruct (negb _); [done|]. destruct (is_root _ _); [done|]. by rewrite Hf.
  - right. unfold judge_chain in Hj. case_bool_decide; [done|]. by eapply walk_chain_Held.
Qed.
End judging.

(** ** Sound facts

    The verdicts the store gives [judge] for delegations come from [judge] itself: a verified
    delegation is a key grant that was judged verified, against the facts of its own time. *)
Definition facts_sound (F : Facts) : Prop :=
  ∀ id d, @delegation F id = Some d → dl_verdict d = Verified →
  ∃ F' claim signature,
    jd_kind claim = KEY_GRANTED ∧ jd_subject claim = dl_subject d ∧
    grant_from_fields (jd_fields claim) = Some (dl_grant d) ∧
    @judge F' claim (Some signature) = Verified.

Lemma sound_delegation_accepted (F : Facts) id d :
  facts_sound F → @delegation F id = Some d → dl_verdict d = Verified →
  ∃ family issuer,
    Family_of (dl_subject d) = Some family ∧ Family_of (kg_issuer (dl_grant d)) = Some issuer ∧
    accepts family (kg_role (dl_grant d)) issuer
      (str_eqb (dl_subject d) (kg_issuer (dl_grant d))) = true.
Proof.
  intros HF Hd Hv. destruct (HF _ _ Hd Hv) as (F' & claim & s & Hk & Hs & Hg & Hj).
  apply judge_Verified in Hj as (? & [= <-] & _ & _ & _ & f & Hf & Hgrant & _ & _).
  destruct (Hgrant Hk) as (g & fs & Hg' & Hi & _ & Hfs & Ha).
  rewrite Hg in Hg'. injection Hg' as <-. exists fs, f. rewrite <- Hs, Hi. by rewrite Hi in Ha.
Qed.

(** A standing root-key link was issued by a node, so a chain never climbs past it. *)
Lemma sound_root_link (F : Facts) principal key chain :
  facts_sound F → @chain_to_node F only_root principal key chain →
  ∃ id d, chain = [id] ∧ link_stands only_root principal key id d ∧
    Family_of principal = Some Person ∧
    Family_of (kg_issuer (dl_grant d)) = Some Node.
Proof.
  intros HF Hc. inversion Hc as [? ? ? id d Hl Hn|? ? ? id d rest Hl Hn _]; subst;
    pose proof Hl as (Hd & Hs & Hk & Hr & _ & Hv);
    apply bool_decide_eq_true in Hr;
    destruct (sound_delegation_accepted F id d HF Hd Hv) as (f & fi & Hf & Hfi & Ha);
    rewrite Hr in Ha; subst;
    (destruct f; try done); simpl in Ha; apply bool_decide_eq_true in Ha; subst.
  - by exists id, d.
  - congruence.
Qed.

(** How an ordinary claim's signer descends from a node. *)
Definition descends_from_a_node (F : Facts) (s : ClaimSignature) (family : Family) : Prop :=
  let grants principal key role id d :=
    @delegation F id = Some d ∧ dl_verdict d = Verified ∧ dl_subject d = principal ∧
    kg_key (dl_grant d) = key ∧ kg_role (dl_grant d) = role ∧
    @revoked_before F principal key = false in
  let by_node d := Family_of (kg_issuer (dl_grant d)) = Some Node in
  match family with
  | Node => cs_chain s = [] ∧ @is_root F (cs_signer s) (cs_key s) = true
  | Agent => ∃ id d, cs_chain s = [id] ∧ grants (cs_signer s) (cs_key s) RoleAgent id d ∧ by_node d
  | Plugin => ∃ id d, cs_chain s = [id] ∧ grants (cs_signer s) (cs_key s) RolePlugin id d ∧ by_node d
  | Person =>
      ∃ id d id' d', cs_chain s = [id; id'] ∧
        grants (cs_signer s) (cs_key s) RoleDevice id d ∧
        kg_issuer (dl_grant d) = cs_signer s ∧
        grants (cs_signer s) (kg_issuer_key (dl_grant d)) RoleRoot id' d' ∧ by_node d'
  end.

Lemma descends_ext (F F' : Facts) s family :
  (∀ id, @delegation F id = @delegation F' id) → (∀ p k, @is_root F p k = @is_root F' p k) →
  (∀ p k, @revoked_before F p k = @revoked_before F' p k) →
  descends_from_a_node F s family → descends_from_a_node F' s family.
Proof.
  intros Hd Hr Hrev. unfold descends_from_a_node. destruct family.
  - by rewrite Hr.
  - intros (id & d & id' & d' & H1 & H2 & H3 & H4 & H5). exists id, d, id', d'.
    rewrite <- !Hd, <- !Hrev. done.
  - intros (id & d & H1 & H2 & H3). exists id, d. rewrite <- Hd, <- Hrev. done.
  - intros (id & d & H1 & H2 & H3). exists id, d. rewrite <- Hd, <- Hrev. done.
Qed.

Lemma verified_descends (F : Facts) claim s :
  facts_sound F → jd_kind claim ≠ KEY_GRANTED → @judge F claim (Some s) = Verified →
  ∃ family, Family_of (cs_signer s) = Some family ∧ descends_from_a_node F s family.
Proof.
  intros HF Hk Hj.
  apply judge_Verified in Hj as (? & [= <-] & _ & _ & _ & f & Hf & _ & Hnode & Hchain).
  exists f. split; [done|].
  destruct (decide (f = Node)) as [->|Hn]; [by apply Hnode|]. specialize (Hchain Hn).
  assert (Hrole : ∀ r, first_role_ok claim f r = true → signs_with f r = true).
  { intros r. unfold first_role_ok. by rewrite (proj2 (str_eqb_false _ _) Hk). }
  inversion Hchain as [? ? ? id d Hl Hi E1 E2 E3 E4|? ? ? id d rest Hl Hi Hrest E1 E2 E3 E4]; subst;
    pose proof Hl as (Hd & Hs & Hkey & Hr & Hrev & Hv); apply Hrole in Hr;
    destruct (sound_delegation_accepted F id d HF Hd Hv) as (f' & fi & Hf' & Hfi & Ha);
    rewrite Hs, Hf in Hf'; injection Hf' as <-.
  - destruct f, (kg_role (dl_grant d)) eqn:Er; try done; simpl in Ha; simpl.
    + apply andb_true_iff in Ha as [Ha _]. apply bool_decide_eq_true in Ha. congruence.
    + by exists id, d.
    + by exists id, d.
  - destruct f, (kg_role (dl_grant d)) eqn:Er; try done; simpl in Ha; simpl.
    2,3: apply bool_decide_eq_true in Ha; congruence.
    apply andb_true_iff in Ha as [_ Hsame]. apply str_eqb_true in Hsame.
    destruct (sound_root_link F _ _ _ HF Hrest) as (id' & d' & -> & Hl' & _ & Hi').
    rewrite <- Hsame, Hs in Hl'. destruct Hl' as (? & ? & ? & ?%bool_decide_eq_true & ? & ?).
    exists id, d, id', d'. split_and!; try done. congruence.
Qed.

(** Over facts whose delegation verdicts are [judge]'s own, every verified claim that is not
    itself a key grant descends from a node in the one way its signer's family allows: a node's
    own trust root; one unrevoked grant from a node for an agent or a plugin; for a person, the
    unrevoked grant of a device key by that same person's root key, and the unrevoked grant of
    that root key by a node. So a root key never signs such a claim, no other person can issue a
    device key, and revoking either of a person's keys cuts the device off. *)
Theorem verified_claims_descend_from_a_node (F : Facts) claim s :
  facts_sound F → jd_kind claim ≠ KEY_GRANTED → @judge F claim (Some s) = Verified →
  ∃ family, Family_of (cs_signer s) = Some family ∧ descends_from_a_node F s family.
Proof. apply verified_descends. Qed.
End signing.

(** ** The keyring *)

Record HeldKey := mkHeldKey {
  hk_principal : string;
  hk_role : Role;
  hk_key : MemberKey;
  hk_chain : list string
}.

Record Keyring := mkKeyring {
  kr_node : option MemberKey;
  kr_keys : gmap string HeldKey;
  kr_signing : gmap string string
}.

Definition Keyring_default : Keyring := mkKeyring None ∅ ∅.

Definition set_node (self : Keyring) (key : option MemberKey) : Keyring :=
  mkKeyring key (kr_keys self) (kr_signing self).

Definition by_public (self : Keyring) (public : string) : option HeldKey := kr_keys self !! public.

Definition signing (self : Keyring) (principal : string) : option HeldKey :=
  match kr_signing self !! principal with
  | Some public => by_public self public
  | None => None
  end.

Definition keyring_insert (self : Keyring) (held : HeldKey) : Keyring :=
  let public := mk_public (hk_key held) in
  let signing :=
    if bool_decide (hk_role held = RoleRoot) then kr_signing self
    else <[hk_principal held := public]> (kr_signing self) in
  mkKeyring (kr_node self) (<[public := held]> (kr_keys self)) signing.

(** A principal's signing key is held, is its own, and is never a root key. *)
Definition keyring_ok (self : Keyring) : Prop :=
  ∀ principal public, kr_signing self !! principal = Some public →
  ∃ held, kr_keys self !! public = Some held ∧ hk_principal held = principal ∧
          hk_role held ≠ RoleRoot.

Lemma keyring_default_ok : keyring_ok Keyring_default.
Proof. intros p k Hp. simpl in Hp. by rewrite lookup_empty in Hp. Qed.

(** Holding a new key keeps the keyring in order and changes only its own principal's signing
    key. *)
Lemma keyring_insert_ok self held :
  keyring_ok self → kr_keys self !! mk_public (hk_key held) = None →
  keyring_ok (keyring_insert self held).
Proof.
  intros Hok Hnew p k. simpl. case_bool_decide as Hr.
  - intros Hk. destruct (Hok p k Hk) as (h & Hh & ?). exists h.
    rewrite lookup_insert_ne; [done|congruence].
  - intros [[<- <-]|[Hp Hk]]%lookup_insert_Some.
    + exists held. by rewrite lookup_insert_eq.
    + destruct (Hok p k Hk) as (h & Hh & ?). exists h.
      rewrite lookup_insert_ne; [done|congruence].
Qed.

Lemma keyring_insert_signing self held principal :
  keyring_ok self → kr_keys self !! mk_public (hk_key held) = None →
  signing (keyring_insert self held) principal =
    if bool_decide (hk_role held ≠ RoleRoot ∧ hk_principal held = principal) then Some held
    else signing self principal.
Proof.
  intros Hok Hnew. unfold signing, by_public. simpl.
  assert (Hold : ∀ k, kr_signing self !! principal = Some k →
            <[mk_public (hk_key held):=held]> (kr_keys self) !! k = kr_keys self !! k).
  { intros k Hk. destruct (Hok _ _ Hk) as (h & Hh & _). rewrite lookup_insert_ne; congruence. }
  destruct (decide (hk_role held = RoleRoot)) as [Hr|Hr].
  - rewrite (bool_decide_eq_true_2 (_ = RoleRoot)), bool_decide_eq_false_2 by naive_solver.
    destruct (kr_signing self !! principal) eqn:E; [|done]. by apply Hold.
  - rewrite (bool_decide_eq_false_2 (_ = RoleRoot)) by done.
    destruct (decide (hk_principal held = principal)) as [<-|Hp].
    + rewrite bool_decide_eq_true_2, !lookup_insert_eq by done. done.
    + rewrite bool_decide_eq_false_2, lookup_insert_ne by naive_solver.
      destruct (kr_signing self !! principal) eqn:E; [|done]. by apply Hold.
Qed.

(** ** What a signature binds *)

Definition newline_char : ascii := "010"%char.
Definition one_line (s : string) : Prop := contains_char newline_char s = false.
Definition chain_entry (s : string) : Prop :=
  contains_char newline_char s = false ∧ contains_char "," s = false ∧ s ≠ "".

Lemma contains_char_pretty_char x : contains_char newline_char (String (pretty_N_char x) "") = false.
Proof. simpl. unfold pretty_N_char. repeat case_match; done. Qed.

Lemma one_line_digits x : one_line (digits x).
Proof.
  unfold one_line. induction (N.lt_wf_0 x) as [x _ IH].
  destruct (decide (x = 0)%N) as [->|Hx]; [done|].
  rewrite digits_step, contains_char_app, contains_char_pretty_char, IH;
    [done | apply N.div_lt; lia | lia].
Qed.

Lemma one_line_u_to_string z : one_line (u_to_string z).
Proof.
  unfold u_to_string, pretty, pretty_N. case_decide; [done | apply one_line_digits].
Qed.

Lemma one_line_chain l : Forall chain_entry l → one_line (join "," l).
Proof.
  unfold one_line. induction 1 as [|x l Hx Hl IH]; [done|]. destruct l as [|y l]; [by destruct Hx|].
  change (join "," (x :: y :: l)) with (x +:+ "," +:+ join "," (y :: l)).
  rewrite !contains_char_app, IH. destruct Hx as [-> _]. done.
Qed.

Lemma chain_text_inj l l' :
  Forall chain_entry l → Forall chain_entry l' → join "," l = join "," l' → l = l'.
Proof.
  intros Hl Hl' E.
  assert (Hempty : ∀ x k, chain_entry x → join "," (x :: k) ≠ "").
  { intros x k (_ & _ & Hx). destruct x as [|c x]; [done|]. by destruct k. }
  destruct l as [|x l], l' as [|x' l']; [done| | |].
  - inversion Hl'; subst. symmetry in E. by apply Hempty in E.
  - inversion Hl; subst. by apply Hempty in E.
  - apply (join_char_inj "," (x :: l) (x' :: l')); try done.
    + eapply Forall_impl; [exact Hl|]. by intros ? (_ & ? & _).
    + eapply Forall_impl; [exact Hl'|]. by intros ? (_ & ? & _).
Qed.

(** The bytes a signature covers determine everything it vouches for: two signatures over the
    same bytes cover the same content, signer, key, chain, nonce and signing time, and the same
    party on whose behalf (none is written as the empty text), whenever no part contains a line
    break and the chain's claim IDs are not empty and contain no comma. *)
Theorem signing_bytes_bind content signer on_behalf key chain nonce at_ms
    content' signer' on_behalf' key' chain' nonce' at_ms' :
  Forall one_line [content; signer; default "" on_behalf; key; nonce] →
  Forall one_line [content'; signer'; default "" on_behalf'; key'; nonce'] →
  Forall chain_entry chain → Forall chain_entry chain' → is_u64 at_ms → is_u64 at_ms' →
  signing_bytes content signer on_behalf key chain nonce at_ms =
    signing_bytes content' signer' on_behalf' key' chain' nonce' at_ms' →
  content = content' ∧ signer = signer' ∧ default "" on_behalf = default "" on_behalf' ∧
  key = key' ∧ chain = chain' ∧ nonce = nonce' ∧ at_ms = at_ms'.
Proof.
  unfold is_u64. intros H H' Hc Hc' Ht Ht' E. unfold signing_bytes, lines in E.
  apply bytes_of_inj in E.
  assert (Hlines : ∀ c s o k l n t, Forall one_line [c; s; o; k; n] → Forall chain_entry l →
    Forall one_line [CLAIM_SIGNATURE_DOMAIN; c; s; o; k; join "," l; n; u_to_string t]).
  { intros c s o k l n t Hf Hl. rewrite !Forall_cons_iff in Hf. rewrite !Forall_cons_iff.
    pose proof (one_line_chain l Hl). pose proof (one_line_u_to_string t).
    split_and!; try done; naive_solver. }
  apply join_char_inj in E; [|by apply Hlines..|done|done].
  injection E as -> -> -> -> Ech -> Et.
  apply chain_text_inj in Ech; [|done..]. apply u_to_string_inj in Et; [|lia..]. done.
Qed.

(** ** Examples

    A person with a root key vouched for by a node, and one device. The toy signature scheme's
    signature of a message is the public key followed by the message. *)

Definition toy_verify (public message signature : list ascii) : bool :=
  bool_decide (signature = public ++ message).
Definition toy_key (public : string) : MemberKey :=
  mkMemberKey public (λ message, public +:+ str_of message).

Definition key_n : MemberKey := toy_key "node-key------------------------".
Definition key_r : MemberKey := toy_key "root-key------------------------".
Definition key_d : MemberKey := toy_key "device-key----------------------".

Definition root_grant : KeyGrant :=
  mkKeyGrant (mk_public key_r) RoleRoot "host/n" (mk_public key_n) None.
Definition device_grant : KeyGrant :=
  mkKeyGrant (mk_public key_d) RoleDevice "person/mara" (mk_public key_r) (Some "phone").

Definition toy_grant (fields : Value (H := integer_numbers)) : option KeyGrant :=
  match fields with
  | Str "root" => Some root_grant
  | Str "device" => Some device_grant
  | _ => None
  end.

Definition mara_facts : Facts := {|
  delegation id :=
    if str_eqb id "claim/root" then Some (mkDelegation "person/mara" root_grant Verified)
    else if str_eqb id "claim/device" then Some (mkDelegation "person/mara" device_grant Verified)
    else None;
  is_root subject key := str_eqb subject "host/n" && str_eqb key (mk_public key_n);
  revoked_before _ _ := false;
  nonce_used_before _ _ := false
|}.

Definition judge_mara := @judge integer_numbers (λ _, "") (λ s, Some (bytes_of s))
  toy_verify toy_verify toy_grant mara_facts.

Definition note_claim : Judged (H := integer_numbers) :=
  mkJudged "claim/note" "note/1" "note.written" None "digest" Null.
Definition note_signature : ClaimSignature :=
  sign "01" key_d "digest" "person/mara" None ["claim/device"; "claim/root"] 5.

Definition grant_claim (name : string) : Judged (H := integer_numbers) :=
  mkJudged "claim/grant" "person/mara" KEY_GRANTED None "digest" (Str name).

Lemma mara_facts_sound :
  facts_sound (λ _, "") (λ s, Some (bytes_of s)) toy_verify toy_verify toy_grant mara_facts.
Proof.
  intros id d Hd Hv. simpl in Hd. exists mara_facts.
  destruct (str_eqb id "claim/root"); [|destruct (str_eqb id "claim/device"); [|done]];
    injection Hd as <-.
  - exists (grant_claim "root"), (sign "02" key_n "digest" "host/n" None [] 1).
    split_and!; [reflexivity..|by vm_compute].
  - exists (grant_claim "device"), (sign "03" key_r "digest" "person/mara" None ["claim/root"] 2).
    split_and!; [reflexivity..|by vm_compute].
Qed.

Lemma descends_witness :
  judge_mara note_claim (Some note_signature) = Verified ∧
  ∃ family, Family_of "person/mara" = Some family ∧
            descends_from_a_node mara_facts note_signature family.
Proof.
  assert (Hj : judge_mara note_claim (Some note_signature) = Verified) by by vm_compute.
  split; [exact Hj|].
  apply (verified_claims_descend_from_a_node (H := integer_numbers) (λ _, "") (λ s, Some (bytes_of s))
           toy_verify toy_verify toy_grant mara_facts note_claim note_signature);
    [exact mara_facts_sound | by vm_compute | exact Hj].
Defined.

Definition early_signature : ClaimSignature :=
  sign "01" key_d "digest" "person/mara" None ["claim/later"] 5.

Lemma held_witness :
  ∃ s, Some early_signature = Some s ∧
    verifies (H := integer_numbers) (λ _, "") (λ s, Some (bytes_of s)) toy_verify toy_verify s
      note_claim = true ∧
    ((Family_of (cs_signer s) = Some Node ∧ @is_root mara_facts (cs_signer s) (cs_key s) = false) ∨
     ∃ id, id ∈ cs_chain s ∧ (@delegation mara_facts id = None ∨
       ∃ d, @delegation mara_facts id = Some d ∧
            dl_verdict d = Held "delegation claim/later has not arrived")).
Proof.
  apply (held_only_while_information_is_missing (H := integer_numbers) (λ _, "")
           (λ s, Some (bytes_of s)) toy_verify toy_verify toy_grant note_claim
           (Some early_signature) "delegation claim/later has not arrived").
  by vm_compute.
Defined.

Lemma signing_bytes_witness :
  "digest" = "digest" ∧ "host/n" = "host/n" ∧ default "" (@None string) = default "" (Some "") ∧
  "k" = "k" ∧ ["claim/1"] = ["claim/1"] ∧ "01" = "01" ∧ 5%Z = 5%Z.
Proof.
  apply (signing_bytes_bind "digest" "host/n" None "k" ["claim/1"] "01" 5
           "digest" "host/n" (Some "") "k" ["claim/1"] "01" 5);
    try reflexivity; try (repeat constructor; done); done.
Defined.
