(* ===== verification/Verdicts.v ===== *)
(** * The verdict pipeline

    Models the store's side of verdicts, [crates/smallclaims/src/store/principals.rs]: the facts
    the store gives [judge], the cache of verdicts with what each relied on, the queue of claims
    to judge again, and the passes over it. [judge] asks its questions of a store that remembers
    verdicts it works out on the way, so it is translated once more here as a computation over
    what a pass has seen, and proved to give the verdict of [Principal.judge] whenever every
    answer is the one [Principal.judge] would get. A failing SQL statement is not modelled. *)

From Stdlib Require Import Ascii.
From S2P Require Import Prelude StableSort Text Json Bytes Order BTree Claim Hash Canonical Membership Principal.

Definition KEY_REVOKED : string := "principal.key-revoked".
Definition JUDGE_CHUNK : nat := 256.
Definition MAX_CHAIN_DEPTH : nat := 8.

(** ** Positions *)

(** The values of a canonical position, as [rusqlite] reads them. *)
Inductive SqlValue := SqlNull | SqlInteger (i : Z) | SqlText (t : string) | SqlOther.

Definition value_compare (a b : SqlValue) : comparison :=
  match a, b with
  | SqlInteger i, SqlInteger j => (i ?= j)%Z
  | SqlText s, SqlText t => String.compare s t
  | SqlNull, SqlNull => Eq
  | SqlNull, _ => Lt
  | _, SqlNull => Gt
  | SqlInteger _, _ => Lt
  | _, SqlInteger _ => Gt
  | _, _ => Eq
  end.

(** [Position::compare]: the first difference of the zipped values. *)
Fixpoint position_compare (a b : list SqlValue) : comparison :=
  match a, b with
  | x :: a, y :: b => match value_compare x y with Eq => position_compare a b | c => c end
  | _, _ => Eq
  end.

(** The row of [canonical::components]. *)
Definition position (r : Canonical.ClaimRow) : list SqlValue :=
  [SqlInteger (Z.of_nat (String.length (u_to_string (row_accepted_at r))));
   SqlText (u_to_string (row_accepted_at r)); SqlText (row_origin r); SqlInteger (row_sequence r);
   SqlText (row_batch r); SqlInteger (row_position r); SqlText (Canonical.row_id r)].

(** Comparing positions value by value is the canonical order of the rows. *)
Lemma position_is_canonical a b :
  position_compare (position a) (position b) = components_compare a b.
Proof.
  unfold position, components_compare. cbn [position_compare value_compare].
  rewrite <- Nat2Z.inj_compare.
  repeat (destruct (_ ?= _)%nat || destruct (String.compare _ _) || destruct (_ ?= _)%Z; try done).
Qed.

(** ** What a pass has seen *)

Record Seen := mkSeen {
  (** verdicts worked out during this pass for claims not yet cached *)
  seen_memo : gmap string Verdict;
  (** what the verdict relied on *)
  seen_links : gset string
}.

Definition Looking (A : Type) : Type := Seen → A * Seen.
#[export] Instance Looking_ret : MRet Looking := λ A a s, (a, s).
#[export] Instance Looking_bind : MBind Looking := λ A B f m s, let '(a, s') := m s in f a s'.

Definition note_link (link : string) : Looking unit :=
  λ s, (tt, mkSeen (seen_memo s) ({[link]} ∪ seen_links s)).

(** [Iterator::any] over answers that are looked up. *)
Fixpoint any_of {A} (f : A → Looking bool) (l : list A) : Looking bool :=
  match l with
  | [] => mret false
  | x :: l => b ← f x; if b : bool then mret true else any_of f l
  end.

(** A computation that keeps [I] and gives [a]. *)
Definition yields {A} (I : Seen → Prop) (m : Looking A) (a : A) : Prop :=
  ∀ s, I s → (m s).1 = a ∧ I (m s).2.

Lemma yields_ret {A} I (a : A) : yields I (mret a) a.
Proof. by intros s Hs. Qed.

Lemma yields_bind {A B} I (m : Looking A) (f : A → Looking B) a b :
  yields I m a → yields I (f a) b → yields I (m ≫= f) b.
Proof.
  intros Hm Hf s Hs. destruct (Hm s Hs) as [E HI]. unfold mbind, Looking_bind.
  destruct (m s) as [a' s']. simpl in *. subst. by apply Hf.
Qed.

Lemma yields_any {A} I (f : A → Looking bool) p l :
  (∀ x, x ∈ l → yields I (f x) (p x)) → yields I (any_of f l) (existsb p l).
Proof.
  induction l as [|x l IH]; intros Hf; cbn [any_of existsb]; [apply yields_ret|].
  eapply yields_bind; [apply Hf; left|]. destruct (p x); cbn [orb]; [apply yields_ret|].
  apply IH. intros y Hy. apply Hf. by right.
Qed.

Lemma existsb_ext_in {A} (p q : A → bool) l : (∀ x, x ∈ l → p x = q x) → existsb p l = existsb q l.
Proof.
  induction l as [|x l IH]; intros Hpq; [done|]. cbn [existsb]. rewrite (Hpq x) by left. f_equal.
  apply IH. intros y Hy. apply Hpq. by right.
Qed.

(** The questions of [Facts], asked of a store. *)
Record StoreFacts := mkStoreFacts {
  ask_delegation : string → Looking (option Delegation);
  ask_is_root : string → string → Looking bool;
  ask_revoked_before : string → string → Looking bool;
  ask_nonce_used_before : string → string → Looking bool
}.

Section verdicts.
Context `{NumberApi}.
Context (canonical_hash : Item → string) (json_to_string : Value → string).
Context (decode : string → option (list ascii)).
Context (ed25519 p256 : list ascii → list ascii → list ascii → bool).
Context (grant_from_fields : Value → option KeyGrant).

(** ** [judge], asking a store *)

Section asking.
Context (F : StoreFacts).

Fixpoint ask_chain (claim : Judged) (family : Family) (index : nat) (principal key : string)
    (chain : list string) : Looking Verdict :=
  match chain with
  | [] => mret (Invalid "the chain does not reach a node")
  | id :: rest =>
      answer ← ask_delegation F id;
      match answer with
      | None => mret (Held ("delegation " +:+ id +:+ " has not arrived"))
      | Some d =>
          let grant := dl_grant d in
          if negb (str_eqb (dl_subject d) principal) || negb (str_eqb (kg_key grant) key)
          then mret (Invalid ("delegation " +:+ id +:+ " does not grant the key the chain needs"))
          else if (index =? 0) && (negb (str_eqb (jd_kind claim) KEY_GRANTED)
                                   && negb (signs_with family (kg_role grant)))
          then mret (Invalid ("a " +:+ Role_debug (kg_role grant) +:+ " key does not sign claims"))
          else if negb (index =? 0) && negb (bool_decide (kg_role grant = RoleRoot))
          then mret (Invalid ("delegation " +:+ id +:+ " cannot issue keys"))
          else
            revoked ← ask_revoked_before F principal key;
            if revoked : bool
            then mret (Invalid ("the key of `" +:+ principal +:+ "` in the chain was revoked"))
            else match dl_verdict d with
            | Held reason => mret (Held reason)
            | Unsigned => mret (Invalid ("delegation " +:+ id +:+ " is unsigned"))
            | Invalid reason => mret (Invalid ("delegation " +:+ id +:+ " is invalid: " +:+ reason))
            | Verified =>
                if bool_decide (Family_of (kg_issuer grant) = Some Node)
                then if bool_decide (rest = []) then mret Verified
                     else mret (Invalid "the chain goes on past a node")
                else ask_chain claim family (S index) (kg_issuer grant) (kg_issuer_key grant) rest
            end
      end
  end.

Definition ask_signer (claim : Judged) (signature : ClaimSignature) (family : Family) : Looking Verdict :=
  if bool_decide (family = Node)
  then if negb (bool_decide (cs_chain signature = []))
       then mret (Invalid "a node key needs no chain")
       else root ← ask_is_root F (cs_signer signature) (cs_key signature);
            if root : bool then mret Verified
            else mret (Held ("fleet membership admits no such key for `" +:+ cs_signer signature +:+ "`"))
  else if bool_decide (cs_chain signature = [])
       then mret (Invalid "the signature names no delegation for its key")
       else ask_chain claim family 0 (cs_signer signature) (cs_key signature) (cs_chain signature).

Definition ask_judge (claim : Judged) (signature : option ClaimSignature) : Looking Verdict :=
  match signature with
  | None => mret Unsigned
  | Some signature =>
      if negb (verifies json_to_string decode ed25519 p256 signature claim)
      then mret (Invalid "the signature does not match the claim")
      else
        used ← ask_nonce_used_before F (cs_key signature) (cs_nonce signature);
        if used : bool then mret (Invalid "the signature was used by an earlier claim")
        else if is_some_and (cs_on_behalf signature) (λ o, str_eqb o (cs_signer signature))
        then mret (Invalid "a signer cannot act on its own behalf")
        else match Family_of (cs_signer signature) with
        | None => mret (Invalid ("`" +:+ cs_signer signature +:+ "` is not a principal"))
        | Some family =>
            match (if str_eqb (jd_kind claim) KEY_GRANTED
                   then judge_grant grant_from_fields claim signature family else None) with
            | Some reason => mret (Invalid reason)
            | None => ask_signer claim signature family
            end
        end
  end.
End asking.

(** ** Asking gives the verdict of [judge] *)

Section answers.
Context (F : StoreFacts) (G : Facts) (I : Seen → Prop) (asks : string → string → Prop).

(** Every question about a claim signed by [s] gets the answer of [G]. *)
Record answers_as (s : ClaimSignature) : Prop := mkAnswersAs {
  answers_delegation id : id ∈ cs_chain s → yields I (ask_delegation F id) (delegation id);
  answers_root : yields I (ask_is_root F (cs_signer s) (cs_key s)) (is_root (cs_signer s) (cs_key s));
  answers_revoked p k : asks p k → yields I (ask_revoked_before F p k) (revoked_before p k);
  answers_nonce : yields I (ask_nonce_used_before F (cs_key s) (cs_nonce s))
                    (nonce_used_before (cs_key s) (cs_nonce s));
  asks_signer : asks (cs_signer s) (cs_key s);
  asks_issuer id d : id ∈ cs_chain s → delegation id = Some d →
    asks (kg_issuer (dl_grant d)) (kg_issuer_key (dl_grant d))
}.

Lemma ask_chain_yields claim s family chain : answers_as s → ∀ index principal key,
  (∀ id, id ∈ chain → id ∈ cs_chain s) → asks principal key →
  yields I (ask_chain F claim family index principal key chain)
    (walk_chain claim family index principal key chain).
Proof.
  intros Hs. induction chain as [|id rest IH]; intros index principal key Hin Hask;
    cbn [ask_chain walk_chain]; [apply yields_ret|].
  eapply yields_bind; [apply (answers_delegation s Hs), Hin; left|].
  destruct (delegation id) as [d|] eqn:Hd; [|apply yields_ret]. cbn zeta.
  do 3 (match goal with |- yields _ (if ?b then _ else _) _ => destruct b; [apply yields_ret|] end).
  eapply yields_bind; [by apply (answers_revoked s Hs)|].
  destruct (revoked_before principal key); [apply yields_ret|].
  destruct (dl_verdict d); try apply yields_ret.
  destruct (bool_decide _); [destruct (bool_decide _); apply yields_ret|].
  apply IH; [intros; apply Hin; by right|]. eapply asks_issuer; [done| |done]. apply Hin. left.
Qed.

Lemma ask_judge_yields claim signature :
  (∀ s, signature = Some s → answers_as s) →
  yields I (ask_judge F claim signature)
    (judge json_to_string decode ed25519 p256 grant_from_fields claim signature).
Proof.
  intros Hs. destruct signature as [s|]; cbn [ask_judge judge]; [|apply yields_ret].
  specialize (Hs s eq_refl). destruct (negb (verifies _ _ _ _ _ _)); [apply yields_ret|].
  eapply yields_bind; [apply (answers_nonce s Hs)|].
  destruct (nonce_used_before _ _); [apply yields_ret|].
  destruct (is_some_and _ _); [apply yields_ret|].
  destruct (Family_of (cs_signer s)) as [f|]; [|apply yields_ret].
  destruct (if str_eqb _ _ then _ else _); [apply yields_ret|].
  unfold ask_signer, judge_chain. destruct (bool_decide (f = Node)).
  - destruct (negb _); [apply yields_ret|]. eapply yields_bind; [apply (answers_root s Hs)|].
    destruct (is_root _ _); apply yields_ret.
  - destruct (bool_decide _); [apply yields_ret|].
    apply (ask_chain_yields claim s); [done | done | by apply asks_signer].
Qed.
End answers.

(** Facts that agree on what [judge] asks give the same verdict. *)
Lemma judge_agrees (G G' : Facts) (asks : string → string → Prop) claim signature :
  (∀ s, signature = Some s →
     asks (cs_signer s) (cs_key s) ∧
     (∀ id, id ∈ cs_chain s → @delegation G id = @delegation G' id ∧
        ∀ d, @delegation G id = Some d → asks (kg_issuer (dl_grant d)) (kg_issuer_key (dl_grant d))) ∧
     @is_root G (cs_signer s) (cs_key s) = @is_root G' (cs_signer s) (cs_key s) ∧
     @nonce_used_before G (cs_key s) (cs_nonce s) = @nonce_used_before G' (cs_key s) (cs_nonce s) ∧
     ∀ p k, asks p k → @revoked_before G p k = @revoked_before G' p k) →
  @judge _ json_to_string decode ed25519 p256 grant_from_fields G claim signature
  = @judge _ json_to_string decode ed25519 p256 grant_from_fields G' claim signature.
Proof.
  intros Hs.
  pose (F := mkStoreFacts (λ id, mret (@delegation G id)) (λ p k, mret (@is_root G p k))
               (λ p k, mret (@revoked_before G p k)) (λ p k, mret (@nonce_used_before G p k))).
  pose (start := mkSeen ∅ ∅).
  transitivity (ask_judge F claim signature start).1; [symmetry|].
  - apply (ask_judge_yields F G (λ _, True) asks claim signature); [|done].
    intros s E. destruct (Hs s E) as (? & Hd & _). split; try done; intros; try apply yields_ret.
    by eapply Hd.
  - apply (ask_judge_yields F G' (λ _, True) asks claim signature); [|done].
    intros s E. destruct (Hs s E) as (Hask & Hd & Hr & Hn & Hrev).
    split; [intros id Hid | | intros p k Hpk | | done | intros id d Hid Hg]; cbn [F ask_delegation
      ask_is_root ask_revoked_before ask_nonce_used_before].
    + destruct (Hd id Hid) as [-> _]. apply yields_ret.
    + rewrite Hr. apply yields_ret.
    + rewrite (Hrev p k Hpk). apply yields_ret.
    + rewrite Hn. apply yields_ret.
    + destruct (Hd id Hid) as [Heq Hi]. apply Hi. by rewrite Heq.
Qed.

(** ** The store *)

(** A claim as the judge reads it, with its place in the canonical order. *)
Record ClaimRow := mkVerdictClaimRow {
  vc_subject : string;
  vc_kind : string;
  vc_actor : option string;
  vc_body : Value;
  vc_place : Canonical.ClaimRow
}.

(** What the judge reads and never writes: the claims, their signatures and the trust roots. *)
Record Db := mkDb {
  db_claims : gmap string ClaimRow;
  db_signatures : gmap string ClaimSignature;
  db_roots : list (string * string)
}.

(** A row of [claim_verdicts]. *)
Record VerdictRow := mkVerdictRow {
  vr_verdict : string;
  vr_reason : option string;
  vr_signer : string;
  vr_on_behalf : option string
}.

#[export] Instance VerdictRow_eq_dec : EqDecision VerdictRow.
Proof. solve_decision. Defined.

Definition verdict_from (name : string) (reason : option string) : Verdict :=
  let reason := default "" reason in
  if str_eqb name "verified" then Verified
  else if str_eqb name "unsigned" then Unsigned
  else if str_eqb name "held" then Held reason
  else Invalid reason.

Definition cached_verdict (cache : gmap string VerdictRow) (claim_id : string) : option Verdict :=
  (λ row, verdict_from (vr_verdict row) (vr_reason row)) <$> cache !! claim_id.

Section facts.
Context (db : Db).

(** [StoreFacts::before]: whether [other] comes before the claim at [place]. *)
Definition before (place : Canonical.ClaimRow) (other : string) : bool :=
  match db_claims db !! other with
  | Some row => bool_decide (position_compare (position (vc_place row)) (position place) = Lt)
  | None => false
  end.

(** The signed revocations of [key] on [principal]. *)
Definition revocations (principal key : string) : list string :=
  map fst (List.filter (λ '(id, row),
    bool_decide (is_Some (db_signatures db !! id)) && str_eqb (vc_subject row) principal
    && str_eqb (vc_kind row) KEY_REVOKED
    && bool_decide (pointer2 "fields" "key" (vc_body row) ≫= as_str = Some key))
    (map_to_list (db_claims db))).

(** The claims signed by [key] with [nonce], other than [claim_id]. *)
Definition same_nonce (claim_id key nonce : string) : list string :=
  map fst (List.filter (λ '(id, signature),
    str_eqb (cs_key signature) key && str_eqb (cs_nonce signature) nonce && negb (str_eqb id claim_id))
    (map_to_list (db_signatures db))).

(** Whether a revocation by [signature] of a key of [principal] counts. *)
Definition may_revoke (principal : string) (signature : option ClaimSignature) : bool :=
  is_some_and signature (λ s,
    str_eqb (cs_signer s) principal || bool_decide (Family_of (cs_signer s) = Some Node)).

(** The subject and the grant of a key grant's claim. *)
Definition granted (claim_id : string) : option (string * KeyGrant) :=
  match db_claims db !! claim_id with
  | Some row =>
      if str_eqb (vc_kind row) KEY_GRANTED
      then (λ grant, (vc_subject row, grant)) <$> (get "fields" (vc_body row) ≫= grant_from_fields)
      else None
  | None => None
  end.

(** [impl Facts for StoreFacts], over the function that gives the verdict of a claim. *)
Definition store_facts (verdict_of : string → Looking Verdict) (claim_id : string)
    (place : Canonical.ClaimRow) : StoreFacts :=
  mkStoreFacts
    (λ id,
      _ ← note_link ("delegation:" +:+ id);
      match granted id with
      | Some (subject, grant) =>
          _ ← note_link ("key:" +:+ subject +:+ "|" +:+ kg_key grant);
          verdict ← verdict_of id;
          mret (Some (mkDelegation subject grant verdict))
      | None => mret None
      end)
    (λ subject key,
      _ ← note_link "root";
      mret (bool_decide ((subject, key) ∈ db_roots db)))
    (λ principal key,
      _ ← note_link ("key:" +:+ principal +:+ "|" +:+ key);
      any_of (λ revocation,
        if negb (str_eqb revocation claim_id) && before place revocation
        then verdict ← verdict_of revocation;
             mret (bool_decide (verdict = Verified)
                   && may_revoke principal (db_signatures db !! revocation))
        else mret false) (revocations principal key))
    (λ key nonce,
      _ ← note_link ("nonce:" +:+ key +:+ "|" +:+ nonce);
      mret (existsb (before place) (same_nonce claim_id key nonce))).

Definition Memo : Type := gmap string Verdict.

Definition not_here (claim_id : string) : Verdict := Held ("claim " +:+ claim_id +:+ " is not here").

Definition judged_of (claim_id : string) (row : ClaimRow) : Judged :=
  mkJudged claim_id (vc_subject row) (vc_kind row) (vc_actor row)
    (content_digest canonical_hash (vc_subject row) (vc_kind row) (vc_actor row) (vc_body row))
    (default Null (get "fields" (vc_body row))).

(** One claim judged over a way to get the verdicts of others: its verdict, what it relied on,
    and the memo. *)
Definition judge_with (verdict_of : string → Looking Verdict) (claim_id : string) (memo : Memo)
    : Verdict * gset string * Memo :=
  match db_claims db !! claim_id with
  | None => (not_here claim_id, ∅, memo)
  | Some row =>
      let '(verdict, seen) :=
        ask_judge (store_facts verdict_of claim_id (vc_place row)) (judged_of claim_id row)
          (db_signatures db !! claim_id) (mkSeen memo ∅) in
      (verdict, seen_links seen, seen_memo seen)
  end.

(** [StoreFacts::verdict_of]: the memo, then the cache, then judging the claim itself, unless the
    chain is too deep. *)
Definition verdict_of (cache : gmap string VerdictRow)
    (deeper : option (string → Memo → Verdict * gset string * Memo)) (claim_id : string)
    : Looking Verdict := λ s,
  match seen_memo s !! claim_id with
  | Some verdict => (verdict, s)
  | None =>
      match cached_verdict cache claim_id with
      | Some verdict => (verdict, s)
      | None =>
          match deeper with
          | None => (Invalid "the chain is too deep or loops", s)
          | Some judge_claim =>
              let '(verdict, _, memo) := judge_claim claim_id (seen_memo s) in
              (verdict, mkSeen (<[claim_id := verdict]> memo) (seen_links s))
          end
      end
  end.

(** [judge_claim] at depth [MAX_CHAIN_DEPTH - left]. *)
Fixpoint judge_claim (cache : gmap string VerdictRow) (left : nat) (claim_id : string) (memo : Memo)
    : Verdict * gset string * Memo :=
  judge_with
    (verdict_of cache (match left with 0 => None | S n => Some (judge_claim cache n) end))
    claim_id memo.

(** ** The fold the verdicts are

    The facts at a claim's place when [vf] gives the verdict of every claim, and the verdict
    those facts give. *)

Definition fold_facts (vf : string → Verdict) (claim_id : string) (place : Canonical.ClaimRow) : Facts := {|
  delegation id := (λ '(subject, grant), mkDelegation subject grant (vf id)) <$> granted id;
  is_root subject key := bool_decide ((subject, key) ∈ db_roots db);
  revoked_before principal key :=
    existsb (λ revocation,
      negb (str_eqb revocation claim_id) && before place revocation
      && (bool_decide (vf revocation = Verified)
          && may_revoke principal (db_signatures db !! revocation))) (revocations principal key);
  nonce_used_before key nonce := existsb (before place) (same_nonce claim_id key nonce)
|}.

Definition verdict_step (vf : string → Verdict) (claim_id : string) : Verdict :=
  match db_claims db !! claim_id with
  | None => not_here claim_id
  | Some row =>
      @judge _ json_to_string decode ed25519 p256 grant_from_fields
        (fold_facts vf claim_id (vc_place row)) (judged_of claim_id row) (db_signatures db !! claim_id)
  end.

Fixpoint fold_verdict (turns : nat) (claim_id : string) : Verdict :=
  match turns with
  | 0 => not_here claim_id
  | S turns => verdict_step (fold_verdict turns) claim_id
  end.

(** The keys a claim's judge asks about, and the claims whose verdicts its verdict uses. *)
Definition asks_key (claim_id principal key : string) : Prop :=
  ∃ s, db_signatures db !! claim_id = Some s ∧
    ((principal, key) = (cs_signer s, cs_key s) ∨
     ∃ id subject grant, id ∈ cs_chain s ∧ granted id = Some (subject, grant) ∧
       (principal, key) = (kg_issuer grant, kg_issuer_key grant)).

Definition depends (claim_id other : string) : Prop :=
  (∃ s, db_signatures db !! claim_id = Some s ∧ other ∈ cs_chain s ∧ granted other ≠ None) ∨
  (∃ principal key row, asks_key claim_id principal key ∧ other ∈ revocations principal key ∧
     db_claims db !! claim_id = Some row ∧ other ≠ claim_id ∧ before (vc_place row) other = true).

(** Verdicts rest on one another in at most [MAX_CHAIN_DEPTH] steps, without a loop. *)
Definition bounded_depth (rank : string → nat) : Prop :=
  (∀ id, rank id ≤ MAX_CHAIN_DEPTH) ∧ ∀ id other, depends id other → rank other < rank id.

(** No chain of claims, each of whose verdicts uses that of the next, is longer than [MAX_CHAIN_DEPTH]; so none
    is a loop. *)
Definition shallow : Prop := ∀ id other, ¬ nsteps depends (S MAX_CHAIN_DEPTH) id other.

Lemma bounded_shallow rank : bounded_depth rank → shallow.
Proof.
  intros [Hmax Hdep] id other Hn. assert (Hle : ∀ n a b, nsteps depends n a b → n + rank b ≤ rank a).
  { induction 1 as [|n a b c Hab _ IH]; [done|]. pose proof (Hdep _ _ Hab). lia. }
  apply Hle in Hn. pose proof (Hmax id). lia.
Qed.

Definition asked_keys (claim_id : string) : list (string * string) :=
  match db_signatures db !! claim_id with
  | Some s => (cs_signer s, cs_key s)
              :: omap (λ id, (λ x, (kg_issuer x.2, kg_issuer_key x.2)) <$> granted id) (cs_chain s)
  | None => []
  end.

(** The claims a verdict uses, as a list. *)
Definition dependencies (claim_id : string) : list string :=
  match db_signatures db !! claim_id with
  | Some s => List.filter (λ id, is_some (granted id)) (cs_chain s)
  | None => []
  end ++
  match db_claims db !! claim_id with
  | Some row => List.filter (λ r, negb (str_eqb r claim_id) && before (vc_place row) r)
                  (flat_map (λ k, revocations k.1 k.2) (asked_keys claim_id))
  | None => []
  end.

Lemma asked_keys_elem claim_id principal key :
  (principal, key) ∈ asked_keys claim_id ↔ asks_key claim_id principal key.
Proof.
  unfold asked_keys, asks_key. destruct (db_signatures db !! claim_id) as [s|].
  2: { split; [by intros ?%elem_of_nil|by intros (? & ? & _)]. }
  rewrite elem_of_cons, list_elem_of_omap. split.
  - intros [E|(id & Hid & Eg)]; exists s; (split; [done|]); [by left|right].
    destruct (granted id) as [[subject grant]|] eqn:Hg; [|done]. injection Eg as <- <-. by exists id, subject, grant.
  - intros (s' & [= <-] & [E|(id & subject & grant & Hid & Hg & E)]); [by left|right]. exists id. split; [done|].
    rewrite Hg. by rewrite E.
Qed.

Lemma dependencies_elem claim_id other : other ∈ dependencies claim_id ↔ depends claim_id other.
Proof.
  unfold dependencies, depends. rewrite elem_of_app. match goal with |- ?P ∨ ?Q ↔ ?P' ∨ ?Q' => enough ((P ↔ P') ∧ (Q ↔ Q')) by tauto end. split.
  - destruct (db_signatures db !! claim_id) as [s|].
    2: { split; [by intros ?%elem_of_nil|by intros (? & ? & _)]. }
    rewrite lfilter_elem. split.
    + intros [Hin Hg]. exists s. split_and!; [done..|]. by destruct (granted other).
    + intros (s' & [= <-] & Hin & Hg). split; [done|]. by destruct (granted other).
  - destruct (db_claims db !! claim_id) as [row|].
    2: { split; [by intros ?%elem_of_nil|by intros (? & ? & ? & _ & _ & ? & _)]. }
    rewrite lfilter_elem, list_elem_of_In, in_flat_map, andb_true_iff, negb_true_iff, str_eqb_false. split.
    + intros (([principal key] & Hk%list_elem_of_In%asked_keys_elem & Hr%list_elem_of_In) & Hne & Hb). by exists principal, key, row.
    + intros (principal & key & row' & Hk & Hr & [= <-] & Hne & Hb). split; [|done].
      exists (principal, key). split; [by apply list_elem_of_In, asked_keys_elem|by apply list_elem_of_In].
Qed.

(** How long a chain of at most [n] verdicts there is from a claim. *)
Fixpoint height (n : nat) (claim_id : string) : nat :=
  match n with
  | O => O
  | S n => fold_right Nat.max 0 (map (λ other, S (height n other)) (dependencies claim_id))
  end.

Lemma height_chain n : ∀ id, ∃ other, nsteps depends (height n id) id other.
Proof.
  induction n as [|n IH]; intros id; [by exists id; constructor|]. cbn [height].
  assert (Hall : ∀ l, (∀ x, x ∈ l → depends id x) →
    ∃ other, nsteps depends (fold_right Nat.max 0 (map (λ other, S (height n other)) l)) id other).
  { induction l as [|x l IHl]; intros Hl; [by exists id; constructor|]. cbn [map fold_right].
    destruct IHl as [o Ho]; [by intros y Hy; apply Hl; right|].
    destruct (Nat.max_spec (S (height n x)) (fold_right Nat.max 0 (map (λ other, S (height n other)) l))) as [[_ ->]|[_ ->]];
      [by exists o|].
    destruct (IH x) as [o' Ho']. exists o'. econstructor; [apply Hl; by left|done]. }
  apply Hall. intros x. apply dependencies_elem.
Qed.

Lemma chain_height k : ∀ n id other, nsteps depends k id other → k ≤ n → k ≤ height n id.
Proof.
  induction k as [|k IH]; intros [|n] id other Hk Hle; try lia. inversion Hk as [|? ? x ? Hx Hrest]; subst.
  specialize (IH n x other Hrest ltac:(lia)). cbn [height].
  apply dependencies_elem in Hx. induction (dependencies id) as [|y l IHl]; [by apply elem_of_nil in Hx|].
  cbn [map fold_right]. apply elem_of_cons in Hx as [<-|Hx]; [lia|]. specialize (IHl Hx). lia.
Qed.

Lemma shallow_bounded : shallow → ∃ rank, bounded_depth rank.
Proof.
  intros Hs. assert (Hlen : ∀ n id other, nsteps depends n id other → n ≤ MAX_CHAIN_DEPTH).
  { intros n id other Hn. destruct (decide (n ≤ MAX_CHAIN_DEPTH)) as [|Hgt]; [done|]. exfalso.
    replace n with (S MAX_CHAIN_DEPTH + (n - S MAX_CHAIN_DEPTH)) in Hn by lia.
    apply nsteps_add_inv in Hn as (x & Hx & _). by apply (Hs id x). }
  assert (Hh : ∀ id, height (S MAX_CHAIN_DEPTH) id ≤ MAX_CHAIN_DEPTH).
  { intros id. destruct (height_chain (S MAX_CHAIN_DEPTH) id) as [o Ho]. by eapply Hlen. }
  exists (height (S MAX_CHAIN_DEPTH)). split; [done|]. intros id other Ho.
  destruct (height_chain (S MAX_CHAIN_DEPTH) other) as [o Hc].
  assert (Hn : nsteps depends (S (height (S MAX_CHAIN_DEPTH) other)) id o) by by econstructor.
  pose proof (Hlen _ _ _ Hn). apply (chain_height _ (S MAX_CHAIN_DEPTH)) in Hn; lia.
Qed.

Lemma verdict_roundtrip v : verdict_from (Verdict_name v) (Verdict_reason v) = v.
Proof. by destruct v. Qed.

(** *** Judging gives the step of the fold *)

Section right.
Context (vf : string → Verdict).

Definition memo_right (memo : Memo) : Prop := ∀ id v, memo !! id = Some v → v = vf id.
Definition cache_right (cache : gmap string VerdictRow) : Prop :=
  ∀ id v, cached_verdict cache id = Some v → v = vf id.
Definition seen_right (s : Seen) : Prop := memo_right (seen_memo s).

Lemma note_link_yields link : yields seen_right (note_link link) tt.
Proof. by intros s Hs. Qed.

Lemma store_facts_answer vof claim_id row s :
  db_claims db !! claim_id = Some row → db_signatures db !! claim_id = Some s →
  (∀ other, depends claim_id other → yields seen_right (vof other) (vf other)) →
  answers_as (store_facts vof claim_id (vc_place row)) (fold_facts vf claim_id (vc_place row))
    seen_right (asks_key claim_id) s.
Proof.
  intros Hrow Hs Hvof. split; cbn [store_facts ask_delegation ask_is_root ask_revoked_before
    ask_nonce_used_before fold_facts delegation is_root revoked_before nonce_used_before].
  - intros id Hid. eapply yields_bind; [apply note_link_yields|].
    destruct (granted id) as [[subject grant]|] eqn:Hg; [|apply yields_ret].
    eapply yields_bind; [apply note_link_yields|].
    eapply yields_bind; [|apply yields_ret]. apply Hvof. left. exists s.
    split; [done|]. split; [done|]. by rewrite Hg.
  - eapply yields_bind; [apply note_link_yields|apply yields_ret].
  - intros p k Hask. eapply yields_bind; [apply note_link_yields|].
    apply yields_any. intros r Hr.
    destruct (negb (str_eqb r claim_id) && before (vc_place row) r) eqn:E; cbn [andb]; [|apply yields_ret].
    eapply yields_bind; [|apply yields_ret]. apply Hvof. right. exists p, k, row.
    apply andb_true_iff in E as [E1 E2]. apply negb_true_iff in E1. str_cases. done.
  - eapply yields_bind; [apply note_link_yields|apply yields_ret].
  - exists s. by split; [|left].
  - intros id d Hid Hd. destruct (granted id) as [[subject grant]|] eqn:Hg; [|done].
    simpl in Hd. injection Hd as <-. exists s. split; [done|]. right. by exists id, subject, grant.
Qed.

Lemma judge_with_right vof claim_id memo :
  (∀ other, depends claim_id other → yields seen_right (vof other) (vf other)) →
  memo_right memo →
  ∃ links memo', judge_with vof claim_id memo = (verdict_step vf claim_id, links, memo') ∧
    memo_right memo'.
Proof.
  intros Hvof Hm. unfold judge_with, verdict_step.
  destruct (db_claims db !! claim_id) as [row|] eqn:Hrow; [|by exists ∅, memo].
  destruct (ask_judge_yields (store_facts vof claim_id (vc_place row))
    (fold_facts vf claim_id (vc_place row)) seen_right (asks_key claim_id)
    (judged_of claim_id row) (db_signatures db !! claim_id)) with (mkSeen memo ∅) as [E HI].
  - intros s Hs. by apply store_facts_answer.
  - done.
  - destruct (ask_judge _ _ _ _) as [v seen]. simpl in *. subst. by exists (seen_links seen), (seen_memo seen).
Qed.
End right.

Lemma verdict_step_ext vf vf' claim_id :
  (∀ other, depends claim_id other → vf other = vf' other) →
  verdict_step vf claim_id = verdict_step vf' claim_id.
Proof.
  intros Heq.
  destruct (judge_with_right vf (λ other, mret (vf other)) claim_id ∅) as (l & m & E & _);
    [intros; apply yields_ret | done |].
  destruct (judge_with_right vf' (λ other, mret (vf other)) claim_id ∅) as (l' & m' & E' & _); [|done|].
  - intros other Ho. rewrite (Heq other Ho). apply yields_ret.
  - congruence.
Qed.

Section bounded.
Context (rank : string → nat) (Hrank : bounded_depth rank).

Lemma fold_verdict_stable turns turns' id :
  rank id < turns → rank id < turns' → fold_verdict turns id = fold_verdict turns' id.
Proof.
  revert turns' id. induction turns as [|n IH]; intros [|n'] id Hn Hn'; try lia.
  cbn [fold_verdict]. apply verdict_step_ext. intros other Ho.
  pose proof (proj2 Hrank _ _ Ho). apply IH; lia.
Qed.

(** The verdicts, as one function of the claims. *)
Definition verdicts : string → Verdict := fold_verdict (S MAX_CHAIN_DEPTH).

Lemma verdicts_solve id : verdicts id = verdict_step verdicts id.
Proof.
  unfold verdicts at 1. cbn [fold_verdict]. apply verdict_step_ext. intros other Ho.
  pose proof (proj2 Hrank _ _ Ho). pose proof (proj1 Hrank id).
  apply fold_verdict_stable; lia.
Qed.

Lemma verdicts_unique vf : (∀ id, vf id = verdict_step vf id) → ∀ id, vf id = verdicts id.
Proof.
  intros Hvf id. remember (rank id) as n eqn:En. revert id En.
  induction (lt_wf n) as [n _ IH]. intros id ->. rewrite Hvf, verdicts_solve.
  apply verdict_step_ext. intros other Ho. by eapply IH; [apply (proj2 Hrank)|].
Qed.

Lemma judge_claim_right cache left claim_id memo :
  cache_right verdicts cache → memo_right verdicts memo → rank claim_id ≤ left →
  ∃ links memo', judge_claim cache left claim_id memo = (verdicts claim_id, links, memo') ∧
    memo_right verdicts memo'.
Proof.
  intros Hc. revert claim_id memo. induction left as [|left IH]; intros claim_id memo Hm Hr;
    cbn [judge_claim]; rewrite (verdicts_solve claim_id); apply judge_with_right; try done;
    intros other Ho; pose proof (proj2 Hrank _ _ Ho); [lia|].
  intros s Hs. unfold verdict_of.
  destruct (seen_memo s !! other) as [v|] eqn:Em; [split; [by apply Hs|done]|].
  destruct (cached_verdict cache other) as [v|] eqn:Ec; [split; [by apply Hc|done]|].
  destruct (IH other (seen_memo s)) as (links & memo' & -> & Hm'); [done|lia|].
  split; [done|]. intros id v Hv. cbn [snd seen_memo] in Hv.
  apply lookup_insert_Some in Hv as [[<- <-]|[_ Hv]]; [done|].
  by apply Hm'.
Qed.
End bounded.

(** ** The passes *)

(** The tables a pass writes, and the digest of the roots the last pass saw. *)
Record Books := mkBooks {
  bk_verdicts : gmap string VerdictRow;
  bk_links : gset (string * string);
  bk_queue : gset string;
  bk_fresh : gset string;
  bk_roots : option string
}.

#[export] Instance Books_eq_dec : EqDecision Books.
Proof. solve_decision. Defined.

(** [SELECT claim_id ... LIMIT JUDGE_CHUNK] from a table stored in the order of its key. *)
Definition first_rows (table : gset string) : list string :=
  take JUDGE_CHUNK (bt_set String.compare (elements table)).

Definition queue_claims (ids : gset string) (b : Books) : Books :=
  mkBooks (bk_verdicts b) (bk_links b) (ids ∪ bk_queue b) (bk_fresh b) (bk_roots b).

Definition linked (link : string) (b : Books) : gset string :=
  list_to_set (map snd (List.filter (λ row, str_eqb row.1 link) (elements (bk_links b)))).

Definition queue_linked (link : string) (b : Books) : Books := queue_claims (linked link b) b.

Definition queue_affected_by (claim_id : string) (b : Books) : Books :=
  match db_claims db !! claim_id, db_signatures db !! claim_id with
  | Some row, Some signature =>
      let b := queue_linked ("nonce:" +:+ cs_key signature +:+ "|" +:+ cs_nonce signature) b in
      if str_eqb (vc_kind row) KEY_GRANTED then queue_linked ("delegation:" +:+ claim_id) b
      else if str_eqb (vc_kind row) KEY_REVOKED
      then match pointer2 "fields" "key" (vc_body row) ≫= as_str with
           | Some key => queue_linked ("key:" +:+ vc_subject row +:+ "|" +:+ key) b
           | None => b
           end
      else b
  | _, _ => b
  end.

Definition row_of (signature : ClaimSignature) (verdict : Verdict) : VerdictRow :=
  mkVerdictRow (Verdict_name verdict) (Verdict_reason verdict) (cs_signer signature) (cs_on_behalf signature).

(** The tables after writing a verdict, and whether it differs from the one it replaces. *)
Definition write_verdict (claim_id : string) (signature : ClaimSignature) (verdict : Verdict)
    (links : gset string) (b : Books) : Books * bool :=
  (mkBooks (<[claim_id := row_of signature verdict]> (bk_verdicts b))
     (set_map (λ link, (link, claim_id)) links
      ∪ filter (λ row, row.2 ≠ claim_id) (bk_links b))
     (bk_queue b) (bk_fresh b) (bk_roots b),
   negb (bool_decide (cached_verdict (bk_verdicts b) claim_id = Some verdict))).

Definition unqueue (claim_id : string) (b : Books) : Books :=
  mkBooks (bk_verdicts b) (bk_links b) (bk_queue b ∖ {[claim_id]}) (bk_fresh b) (bk_roots b).

(** A fresh claim: what it can change is queued, and so is the claim. *)
Definition take_fresh (b : Books) (claim_id : string) : Books :=
  let b := mkBooks (bk_verdicts b) (bk_links b) (bk_queue b) (bk_fresh b ∖ {[claim_id]}) (bk_roots b) in
  queue_claims {[claim_id]} (queue_affected_by claim_id b).

(** A queued claim, judged when it is signed and here. *)
Definition judge_queued (acc : Books * Memo * nat) (claim_id : string) : Books * Memo * nat :=
  let '(b, memo, judged) := acc in
  let b := unqueue claim_id b in
  match db_signatures db !! claim_id, db_claims db !! claim_id with
  | Some signature, Some _ =>
      let '(verdict, links, memo) := judge_claim (bk_verdicts b) MAX_CHAIN_DEPTH claim_id memo in
      let '(b, changed) := write_verdict claim_id signature verdict links b in
      (if changed : bool then queue_affected_by claim_id b else b, memo, S judged)
  | _, _ => (b, memo, judged)
  end.

(** One turn of the loop of [judge_claims]: the tables, how many claims it judged, and whether
    there was nothing to do. *)
Definition judge_turn (b : Books) : Books * nat * bool :=
  let fresh := first_rows (bk_fresh b) in
  let b := fold_left take_fresh fresh b in
  let queued := first_rows (bk_queue b) in
  let '(b, _, judged) := fold_left judge_queued queued (b, ∅, 0) in
  (b, judged, bool_decide (fresh = []) && bool_decide (queued = [])).

(** The loop, for at most [turns] turns: nothing when it would go on. *)
Fixpoint judge_loop (turns : nat) (judged : nat) (b : Books) : option (Books * nat) :=
  match turns with
  | 0 => None
  | S turns =>
      let '(b, n, finished) := judge_turn b in
      if finished : bool then Some (b, judged + n) else judge_loop turns (judged + n) b
  end.

Lemma judge_loop_goes_on turns judged b : snd (judge_turn b) = false →
  judge_loop (S turns) judged b = judge_loop turns (judged + (judge_turn b).1.2) (judge_turn b).1.1.
Proof. cbn [judge_loop]. destruct (judge_turn b) as [[b' n] fin]. simpl. by intros ->. Qed.

(** Tables that a turn does not finish and that lead to ones that never finish never finish. *)
Lemma judge_loop_never b : snd (judge_turn b) = false →
  (∀ turns judged, judge_loop turns judged (judge_turn b).1.1 = None) →
  ∀ turns judged, judge_loop turns judged b = None.
Proof. intros Hf Hnext [|turns] judged; [done|]. by rewrite judge_loop_goes_on. Qed.

(** Nor do tables that come back after two turns. *)
Lemma judge_loop_circles b : snd (judge_turn b) = false → snd (judge_turn (judge_turn b).1.1) = false →
  (judge_turn (judge_turn b).1.1).1.1 = b → ∀ turns judged, judge_loop turns judged b = None.
Proof.
  intros Hf Hf' Hb turns. induction (lt_wf turns) as [turns _ IH]. intros judged.
  destruct turns as [|[|turns]]; [done| |]; rewrite judge_loop_goes_on by done; [done|].
  rewrite judge_loop_goes_on, Hb by done. apply IH. lia.
Qed.

(** The first step of a pass that checks the roots. *)
Definition roots_digest : string :=
  canonical_hash (ITuple (map (λ '(subject, key), ITuple [IText subject; IText key]) (db_roots db))).

Definition check_trust_roots (b : Books) : Books :=
  if bool_decide (bk_roots b = Some roots_digest) then b
  else let b := queue_linked "root" b in
       mkBooks (bk_verdicts b) (bk_links b) (bk_queue b) (bk_fresh b) (Some roots_digest).

Definition judge_claims (turns : nat) (check_roots : bool) (b : Books) : option (Books * nat) :=
  let b := if check_roots then check_trust_roots b else b in
  if bool_decide (bk_fresh b = ∅) && bool_decide (bk_queue b = ∅) then Some (b, 0)
  else judge_loop turns 0 b.

(** [Store::claim_verdict]. *)
Definition claim_verdict (b : Books) (claim_id : string) : Verdict :=
  default Unsigned (cached_verdict (bk_verdicts b) claim_id).

Record VerdictMismatch := mkVerdictMismatch {
  vm_claim_id : string;
  vm_cached : option string;
  vm_recomputed : string
}.

(** Every verdict forgotten and every signed claim fresh again. *)
Definition forget_verdicts (b : Books) : Books :=
  mkBooks ∅ ∅ ∅ (dom (db_signatures db) ∪ bk_fresh b) None.

Definition mismatches (before after : gmap string VerdictRow) : list VerdictMismatch :=
  omap (λ id,
    let cached := vr_verdict <$> before !! id in
    let recomputed := default "unsigned" (vr_verdict <$> after !! id) in
    if str_eqb (default "unsigned" cached) recomputed then None
    else Some (mkVerdictMismatch id cached recomputed))
    (bt_set String.compare (elements (dom before ∪ dom after))).

Definition recheck_claim_verdicts (turns : nat) (b : Books) : option (Books * list VerdictMismatch) :=
  '(b', _) ← judge_claims turns true (forget_verdicts b);
  Some (b', mismatches (bk_verdicts b) (bk_verdicts b')).

(** *** A pass over right books ends with every verdict of the fold *)

Section passes.
Context (rank : string → nat) (Hrank : bounded_depth rank).

(** The claims that get a verdict. *)
Definition judgeable : gset string := dom (db_signatures db) ∩ dom (db_claims db).

Definition right_row (id : string) : option VerdictRow :=
  match db_signatures db !! id, db_claims db !! id with
  | Some s, Some _ => Some (row_of s (verdicts id))
  | _, _ => None
  end.

Record books_right (b : Books) : Prop := mkBooksRight {
  rows_right id row : bk_verdicts b !! id = Some row → right_row id = Some row;
  links_right link id : (link, id) ∈ bk_links b → id ∈ judgeable;
  none_missed id : id ∈ judgeable → id ∈ bk_fresh b ∪ bk_queue b ∪ dom (bk_verdicts b)
}.

Lemma judgeable_right id : id ∈ judgeable ↔ is_Some (right_row id).
Proof.
  unfold judgeable, right_row. rewrite elem_of_intersection, !elem_of_dom.
  destruct (db_signatures db !! id), (db_claims db !! id); split; try done;
    try (by intros [? ?]); naive_solver.
Qed.

(** How much is left: a fresh claim or one without a verdict can queue every judgeable claim. *)
Definition left_to_judge (b : Books) : nat :=
  (size (bk_fresh b) + size (judgeable ∖ dom (bk_verdicts b))) * (size judgeable + 2)
  + size (bk_queue b).

Lemma size_queue_more (X q : gset string) : X ⊆ judgeable → size (X ∪ q) ≤ size judgeable + size q.
Proof.
  intros HX. rewrite size_union_alt. pose proof (subseteq_size _ _ HX).
  pose proof (subseteq_size (q ∖ X) q ltac:(set_solver)). lia.
Qed.

Lemma size_remove (x : string) (X : gset string) :
  size (X ∖ {[x]}) ≤ size X ∧ (x ∈ X → S (size (X ∖ {[x]})) = size X).
Proof.
  split; [apply subseteq_size; set_solver|]. intros Hx.
  rewrite size_difference by set_solver. rewrite size_singleton.
  pose proof (subseteq_size {[x]} X ltac:(set_solver)) as Hs. rewrite size_singleton in Hs. lia.
Qed.

Lemma linked_judgeable link b : (∀ link id, (link, id) ∈ bk_links b → id ∈ judgeable) →
  linked link b ⊆ judgeable.
Proof.
  intros Hb x. unfold linked. rewrite elem_of_list_to_set, list_elem_of_fmap.
  intros ([l y] & -> & [Hy _]%lfilter_elem). apply (Hb l), elem_of_elements, Hy.
Qed.

Lemma queue_linked_claims link X b :
  queue_linked link (queue_claims X b) = queue_claims (linked link b ∪ X) b.
Proof. unfold queue_linked, queue_claims, linked. cbn. f_equal. set_solver. Qed.

Lemma queue_affected_shape id b : (∀ link id, (link, id) ∈ bk_links b → id ∈ judgeable) →
  ∃ X, X ⊆ judgeable ∧ queue_affected_by id b = queue_claims X b.
Proof.
  intros Hb. unfold queue_affected_by.
  assert (Hnone : ∃ X, X ⊆ judgeable ∧ b = queue_claims X b).
  { exists ∅. split; [set_solver|]. destruct b. unfold queue_claims. cbn. f_equal. set_solver. }
  destruct (db_claims db !! id) as [row|]; [|done].
  destruct (db_signatures db !! id) as [s|]; [|done]. cbn zeta.
  set (nonce := "nonce:" +:+ _).
  assert (Htwo : ∀ link, ∃ X, X ⊆ judgeable ∧
    queue_linked link (queue_linked nonce b) = queue_claims X b).
  { intros link. exists (linked link b ∪ linked nonce b). split; [|apply queue_linked_claims].
    pose proof (linked_judgeable link b Hb). pose proof (linked_judgeable nonce b Hb). set_solver. }
  assert (Hone : ∃ X, X ⊆ judgeable ∧ queue_linked nonce b = queue_claims X b).
  { exists (linked nonce b). split; [by apply linked_judgeable|done]. }
  destruct (str_eqb _ KEY_GRANTED); [apply Htwo|].
  destruct (str_eqb _ KEY_REVOKED); [|done].
  destruct (_ ≫= as_str); [apply Htwo|done].
Qed.

Lemma queue_claims_right X b : X ⊆ judgeable → books_right b → books_right (queue_claims X b).
Proof.
  intros HX [Hr Hl Hm]. split; [done|done|]. intros id Hid. specialize (Hm id Hid).
  cbn [queue_claims bk_fresh bk_queue bk_verdicts]. set_solver.
Qed.

Lemma queue_claims_left X b : X ⊆ judgeable →
  left_to_judge (queue_claims X b) ≤ left_to_judge b + size judgeable.
Proof. intros HX. unfold left_to_judge. cbn. pose proof (size_queue_more X (bk_queue b) HX). lia. Qed.

Lemma take_fresh_right b id : books_right b → id ∈ bk_fresh b →
  books_right (take_fresh b id) ∧ left_to_judge (take_fresh b id) < left_to_judge b ∧
  bk_fresh (take_fresh b id) = bk_fresh b ∖ {[id]}.
Proof.
  intros [Hr Hl Hm] Hid. unfold take_fresh.
  set (b1 := mkBooks (bk_verdicts b) (bk_links b) (bk_queue b) (bk_fresh b ∖ {[id]}) (bk_roots b)).
  destruct (queue_affected_shape id b1 Hl) as (X & HX & ->). split_and!.
  - split; [done|done|]. intros x Hx. specialize (Hm x Hx).
    cbn [b1 queue_claims bk_fresh bk_queue bk_verdicts].
    destruct (decide (x = id)) as [->|]; set_solver.
  - unfold left_to_judge. cbn [b1 queue_claims bk_fresh bk_queue bk_verdicts].
    pose proof (proj2 (size_remove id (bk_fresh b)) Hid).
    pose proof (size_queue_more X (bk_queue b) HX).
    pose proof (size_union_alt {[id]} (X ∪ bk_queue b)) as Hu. rewrite size_singleton in Hu.
    pose proof (subseteq_size ((X ∪ bk_queue b) ∖ {[id]}) (X ∪ bk_queue b) ltac:(set_solver)).
    nia.
  - done.
Qed.

Lemma take_all_fresh l : ∀ b, books_right b → NoDup l → (∀ x, x ∈ l → x ∈ bk_fresh b) →
  books_right (fold_left take_fresh l b) ∧
  left_to_judge (fold_left take_fresh l b) + length l ≤ left_to_judge b.
Proof.
  induction l as [|x l IH]; intros b Hb Hnd Hin; cbn [fold_left length]; [split; [done|lia]|].
  apply NoDup_cons in Hnd as [Hx Hnd].
  destruct (take_fresh_right b x Hb) as (Hb1 & Hlt & Hf); [apply Hin; left|].
  destruct (IH (take_fresh b x)) as [Hb2 Hle]; [done|done| |split; [done|lia]].
  intros y Hy. rewrite Hf. assert (y ≠ x) by congruence. assert (y ∈ bk_fresh b) by (apply Hin; by right).
  set_solver.
Qed.

Lemma right_row_cached id row b : books_right b → bk_verdicts b !! id = Some row →
  cached_verdict (bk_verdicts b) id = Some (verdicts id).
Proof.
  intros Hb Hrow. unfold cached_verdict. rewrite Hrow. simpl. f_equal.
  pose proof (rows_right b Hb id row Hrow) as Hr. unfold right_row in Hr.
  destruct (db_signatures db !! id), (db_claims db !! id); try done.
  injection Hr as <-. apply verdict_roundtrip.
Qed.

Lemma books_cache_right b : books_right b → cache_right verdicts (bk_verdicts b).
Proof.
  intros Hb id v Hv. pose proof Hv as Hv'. unfold cached_verdict in Hv'.
  destruct (bk_verdicts b !! id) as [row|] eqn:Hrow; [|done].
  rewrite (right_row_cached id row b Hb Hrow) in Hv. by injection Hv.
Qed.

Lemma unqueue_left id b :
  left_to_judge (unqueue id b) ≤ left_to_judge b ∧
  (id ∈ bk_queue b → left_to_judge (unqueue id b) < left_to_judge b).
Proof.
  unfold left_to_judge, unqueue. cbn. destruct (size_remove id (bk_queue b)) as [Hle Hlt].
  split; [lia|]. intros Hin. specialize (Hlt Hin). lia.
Qed.

(** Writing a right verdict keeps the books right, and either changes nothing that matters or
    leaves one claim less without a verdict. *)
Lemma write_verdict_right id s links b b' changed :
  (∀ id row, bk_verdicts b !! id = Some row → right_row id = Some row) →
  (∀ link id, (link, id) ∈ bk_links b → id ∈ judgeable) →
  (∀ x, x ∈ judgeable → x ≠ id → x ∈ bk_fresh b ∪ bk_queue b ∪ dom (bk_verdicts b)) →
  right_row id = Some (row_of s (verdicts id)) →
  write_verdict id s (verdicts id) links b = (b', changed) →
  books_right b' ∧
  left_to_judge b' + (if changed : bool then size judgeable + 2 else 0) ≤ left_to_judge b.
Proof.
  intros Hr Hl Hm Hid. unfold write_verdict. intros [= <- <-].
  assert (Hj : id ∈ judgeable) by (apply judgeable_right; by rewrite Hid). split.
  - split; cbn [bk_verdicts bk_links bk_fresh bk_queue].
    + intros x row. rewrite lookup_insert_Some. intros [[<- <-]|[_ ?]]; [done|by apply Hr].
    + intros link x. rewrite elem_of_union, elem_of_map, elem_of_filter.
      intros [(? & [= -> ->] & _)|[_ ?]]; [done|by eapply Hl].
    + intros x Hx. rewrite dom_insert. destruct (decide (x = id)) as [->|]; [set_solver|].
      specialize (Hm x Hx). set_solver.
  - unfold left_to_judge. cbn [bk_verdicts bk_queue bk_fresh]. rewrite dom_insert_L.
    replace (judgeable ∖ ({[id]} ∪ dom (bk_verdicts b)))
      with ((judgeable ∖ dom (bk_verdicts b)) ∖ {[id]}) by set_solver.
    destruct (size_remove id (judgeable ∖ dom (bk_verdicts b))) as [Hle Hlt].
    case_bool_decide as Hc; cbn [negb]; [nia|].
    assert (id ∈ judgeable ∖ dom (bk_verdicts b)) as Hin.
    { apply elem_of_difference. split; [done|]. intros [row Hrow]%elem_of_dom. apply Hc.
      unfold cached_verdict. rewrite Hrow. simpl. f_equal.
      pose proof (Hr id row Hrow) as E. rewrite Hid in E. injection E as <-. apply verdict_roundtrip. }
    specialize (Hlt Hin). nia.
Qed.

Lemma judge_queued_right b memo n id : books_right b → memo_right verdicts memo →
  ∃ b' memo' n', judge_queued (b, memo, n) id = (b', memo', n') ∧
    books_right b' ∧ memo_right verdicts memo' ∧
    left_to_judge b' ≤ left_to_judge b ∧ (id ∈ bk_queue b → left_to_judge b' < left_to_judge b).
Proof.
  intros Hb Hm. unfold judge_queued. destruct (unqueue_left id b) as [Hle Hlt].
  destruct Hb as [Hr Hl Hmiss] eqn:E. clear E.
  assert (Hskip : right_row id = None → books_right (unqueue id b)).
  { intros Hnone. split; [done|done|]. intros x Hx. specialize (Hmiss x Hx). cbn.
    assert (x ≠ id) by (intros ->; apply judgeable_right in Hx as [? ?]; congruence). set_solver. }
  destruct (db_signatures db !! id) as [s|] eqn:Hs;
    [destruct (db_claims db !! id) as [row|] eqn:Hrow|].
  2-3: exists (unqueue id b), memo, n; split_and!; try done; apply Hskip; unfold right_row; rewrite Hs;
    by rewrite ?Hrow.
  destruct (judge_claim_right rank Hrank (bk_verdicts (unqueue id b)) MAX_CHAIN_DEPTH id memo)
    as (links & memo' & -> & Hm'); [apply (books_cache_right b Hb)|done|apply (proj1 Hrank)|].
  destruct (write_verdict id s (verdicts id) links (unqueue id b)) as [b1 changed] eqn:Hw.
  apply write_verdict_right in Hw as [Hb1 Hle1]; try done.
  2:{ intros x Hx Hne. specialize (Hmiss x Hx). cbn. set_solver. }
  2:{ unfold right_row. by rewrite Hs, Hrow. }
  destruct changed.
  - destruct (queue_affected_shape id b1 (links_right _ Hb1)) as (X & HX & ->).
    pose proof (queue_claims_left X b1 HX).
    exists (queue_claims X b1), memo', (S n). split_and!; [done|by apply queue_claims_right|done|lia|lia].
  - exists b1, memo', (S n). split_and!; [done..|lia|]. intros Hin. specialize (Hlt Hin). lia.
Qed.

Lemma judge_all_queued l : ∀ b memo n, books_right b → memo_right verdicts memo →
  ∃ b' memo' n', fold_left judge_queued l (b, memo, n) = (b', memo', n') ∧ books_right b' ∧
    left_to_judge b' ≤ left_to_judge b ∧
    (∀ x, head l = Some x → x ∈ bk_queue b → left_to_judge b' < left_to_judge b).
Proof.
  induction l as [|x l IH]; intros b memo n Hb Hm; cbn [fold_left head]; [by exists b, memo, n|].
  destruct (judge_queued_right b memo n x Hb Hm) as (b1 & memo1 & n1 & -> & Hb1 & Hm1 & Hle1 & Hlt1).
  destruct (IH b1 memo1 n1 Hb1 Hm1) as (b2 & memo2 & n2 & -> & Hb2 & Hle2 & _).
  exists b2, memo2, n2. split_and!; [done|done|lia|]. intros y [= <-] Hy. specialize (Hlt1 Hy). lia.
Qed.

Lemma elem_of_first_rows x table : x ∈ first_rows table → x ∈ table.
Proof.
  unfold first_rows. intros Hx%subseteq_take. apply elem_of_elements.
  by apply (elem_of_bt_set String.compare).
Qed.

Lemma first_rows_NoDup table : NoDup (first_rows table).
Proof. unfold first_rows. eapply sublist_NoDup; [apply (bt_set_NoDup String.compare)|apply sublist_take]. Qed.

Lemma first_rows_nil table : first_rows table = [] ↔ table = ∅.
Proof.
  split; [|intros ->; done]. unfold first_rows, JUDGE_CHUNK. intros E.
  destruct (bt_set String.compare (elements table)) as [|x l] eqn:Ebt; [|done].
  apply elem_of_equiv_empty_L. intros y Hy. apply elem_of_elements in Hy.
  apply (elem_of_bt_set String.compare) in Hy. rewrite Ebt in Hy. by apply elem_of_nil in Hy.
Qed.

Lemma judge_turn_right b : books_right b →
  ∃ b' n finished, judge_turn b = (b', n, finished) ∧ books_right b' ∧
    if finished : bool then b' = b ∧ n = 0 ∧ bk_fresh b = ∅ ∧ bk_queue b = ∅
    else left_to_judge b' < left_to_judge b.
Proof.
  intros Hb. unfold judge_turn. set (fresh := first_rows (bk_fresh b)).
  destruct (take_all_fresh fresh b Hb) as [Hb1 Hle1];
    [apply first_rows_NoDup | intros x; apply elem_of_first_rows |].
  set (b1 := fold_left take_fresh fresh b) in *. set (queued := first_rows (bk_queue b1)).
  destruct (judge_all_queued queued b1 ∅ 0 Hb1) as (b2 & memo & n & E & Hb2 & Hle2 & Hlt2); [done|].
  rewrite E. exists b2, n, (bool_decide (fresh = []) && bool_decide (queued = [])).
  split; [done|]. split; [done|].
  destruct (decide (fresh = [])) as [Hf|Hf].
  - rewrite bool_decide_eq_true_2 by done. cbn [andb]. case_bool_decide as Hq.
    + assert (b1 = b) as Hb1b by (unfold b1; by rewrite Hf). rewrite Hq in E. injection E as <- _ <-.
      split_and!; [done|done|by apply first_rows_nil|]. apply first_rows_nil. by rewrite <- Hb1b.
    + destruct queued as [|x l] eqn:Hqe; [done|].
      assert (x ∈ bk_queue b1) by (apply elem_of_first_rows; fold queued; rewrite Hqe; left).
      specialize (Hlt2 x eq_refl ltac:(done)). lia.
  - rewrite bool_decide_eq_false_2 by done. cbn [andb].
    destruct fresh as [|x l]; [done|]. cbn [length] in Hle1. lia.
Qed.

Lemma judge_loop_right turns : ∀ judged b, books_right b → left_to_judge b < turns →
  ∃ b' n, judge_loop turns judged b = Some (b', n) ∧ books_right b' ∧
    bk_fresh b' = ∅ ∧ bk_queue b' = ∅.
Proof.
  induction turns as [|turns IH]; intros judged b Hb Hlt; [lia|]. cbn [judge_loop].
  destruct (judge_turn_right b Hb) as (b' & n & finished & -> & Hb' & Hfin). destruct finished.
  - destruct Hfin as (-> & -> & ? & ?). by exists b, (judged + 0).
  - apply IH; [done|lia].
Qed.

Lemma forgotten_right b : books_right (check_trust_roots (forget_verdicts b)).
Proof.
  unfold check_trust_roots. rewrite bool_decide_eq_false_2 by done.
  split; cbn; [done|set_solver|]. unfold judgeable. set_solver.
Qed.

Lemma recheck_ends b turns :
  (let n := size (dom (db_signatures db) ∪ bk_fresh b) in 2 * n * (n + 2) < turns) →
  ∃ b', recheck_claim_verdicts turns b = Some (b', mismatches (bk_verdicts b) (bk_verdicts b')) ∧
    (∀ id, bk_verdicts b' !! id = right_row id) ∧ bk_fresh b' = ∅ ∧ bk_queue b' = ∅.
Proof.
  cbn zeta. intros Hturns. pose proof (forgotten_right b) as Hb.
  unfold recheck_claim_verdicts, judge_claims.
  assert (Hend : ∀ b', books_right b' → bk_fresh b' = ∅ → bk_queue b' = ∅ →
    ∀ id, bk_verdicts b' !! id = right_row id).
  { intros b' Hb' Hf Hq id. destruct (bk_verdicts b' !! id) as [row|] eqn:E;
      [symmetry; by apply (rows_right b')|].
    destruct (right_row id) as [row|] eqn:Hr; [|done]. exfalso.
    assert (Hj : id ∈ judgeable) by (apply judgeable_right; by rewrite Hr).
    apply (none_missed b' Hb') in Hj. rewrite Hf, Hq in Hj.
    apply not_elem_of_dom in E. set_solver. }
  destruct (bool_decide (bk_fresh _ = ∅) && bool_decide (bk_queue _ = ∅)) eqn:Hnone.
  - apply andb_true_iff in Hnone as [Hf%bool_decide_eq_true Hq%bool_decide_eq_true].
    exists (check_trust_roots (forget_verdicts b)). split_and!; [done|by apply Hend|done|done].
  - destruct (judge_loop_right turns 0 _ Hb) as (b' & n & -> & Hb' & Hf & Hq).
    + unfold left_to_judge, check_trust_roots. rewrite bool_decide_eq_false_2 by done.
      cbn [queue_linked queue_claims forget_verdicts bk_fresh bk_queue bk_verdicts bk_links].
      replace (judgeable ∖ dom (∅ : gmap string VerdictRow)) with judgeable by set_solver.
      replace (linked "root" _ ∪ ∅) with (∅ : gset string) by done. rewrite size_empty.
      pose proof (subseteq_size judgeable (dom (db_signatures db) ∪ bk_fresh b)) as Hs.
      unfold judgeable in Hs at 1. specialize (Hs ltac:(set_solver)).
      nia.
    + exists b'. split_and!; [done|by apply Hend|done|done].
Qed.

(** The facts of the fold are sound: a verified delegation was judged verified itself. *)
Lemma fold_facts_sound id place :
  facts_sound json_to_string decode ed25519 p256 grant_from_fields (fold_facts verdicts id place).
Proof.
  intros other d Hd Hv. cbn [fold_facts delegation] in Hd.
  destruct (granted other) as [[subject grant]|] eqn:Hg; [|done]. simpl in Hd. injection Hd as <-.
  simpl in Hv. pose proof (verdicts_solve rank Hrank other) as Hsolve.
  rewrite Hv in Hsolve. unfold verdict_step in Hsolve. unfold granted in Hg.
  destruct (db_claims db !! other) as [row|]; [|done].
  destruct (str_eqb (vc_kind row) KEY_GRANTED) eqn:Hk; [|done]. str_cases.
  destruct (get "fields" (vc_body row)) as [f|] eqn:Hf; [|done]. simpl in Hg.
  destruct (grant_from_fields f) as [g|] eqn:Hgf; [|done]. injection Hg as <- <-.
  destruct (db_signatures db !! other) as [s|]; [|done].
  exists (fold_facts verdicts other (vc_place row)), (judged_of other row), s.
  split_and!; [done|done| |done]. cbn. by rewrite Hf.
Qed.

(** Whether a claim is revoked asks only about claims the store holds. *)
Lemma revocation_held r principal key : r ∈ revocations principal key → is_Some (db_claims db !! r).
Proof.
  unfold revocations. intros ([r' row] & -> & [Hin _]%lfilter_elem)%list_elem_of_fmap.
  apply elem_of_map_to_list in Hin. by exists row.
Qed.

(** For a claim the store holds, a right cache answers with the verdict of the fold. *)
Lemma cached_is_verdicts b : (∀ id, bk_verdicts b !! id = right_row id) →
  ∀ id, is_Some (db_claims db !! id) → claim_verdict b id = verdicts id.
Proof.
  intros Hrows id [row Hrow]. unfold claim_verdict, cached_verdict. rewrite Hrows. unfold right_row.
  rewrite Hrow. destruct (db_signatures db !! id) as [s|] eqn:Hs; simpl; [apply verdict_roundtrip|].
  rewrite (verdicts_solve rank Hrank id). unfold verdict_step. by rewrite Hrow, Hs.
Qed.

(** After a recheck, every claim the cache says is verified carries a genuine signature, and when
    it is not itself a key grant its signer descends from a trust root of this node in the one way
    its family allows, each delegation of that descent verified in the same cache. *)
Theorem rechecked_claims_descend_from_a_node b turns :
  (let n := size (dom (db_signatures db) ∪ bk_fresh b) in 2 * n * (n + 2) < turns) →
  ∃ b' report, recheck_claim_verdicts turns b = Some (b', report) ∧
    ∀ id, claim_verdict b' id = Verified →
    ∃ row s, db_claims db !! id = Some row ∧ db_signatures db !! id = Some s ∧
      verifies json_to_string decode ed25519 p256 s (judged_of id row) = true ∧
      (vc_kind row ≠ KEY_GRANTED →
       ∃ family, Family_of (cs_signer s) = Some family ∧
         descends_from_a_node (fold_facts (claim_verdict b') id (vc_place row)) s family).
Proof.
  intros Hturns. destruct (recheck_ends b turns Hturns) as (b' & -> & Hrows & _).
  exists b', (mismatches (bk_verdicts b) (bk_verdicts b')). split; [done|].
  intros id Hv. unfold claim_verdict, cached_verdict in Hv. rewrite Hrows in Hv. unfold right_row in Hv.
  destruct (db_signatures db !! id) as [s|] eqn:Hs; [|done].
  destruct (db_claims db !! id) as [row|] eqn:Hrow; [|done]. simpl in Hv. rewrite verdict_roundtrip in Hv.
  exists row, s. split; [done|]. split; [done|].
  rewrite (verdicts_solve rank Hrank id) in Hv. unfold verdict_step in Hv. rewrite Hrow, Hs in Hv.
  split; [by apply judge_Verified in Hv as (? & [= <-] & ? & _)|].
  intros Hk. destruct (verified_descends json_to_string decode ed25519 p256 grant_from_fields
    (fold_facts verdicts id (vc_place row)) (judged_of id row) s) as (f & Hf & Hdesc);
    [apply fold_facts_sound|done|done|].
  exists f. split; [done|]. eapply descends_ext; [| | |exact Hdesc]; [|done|].
  - intros other. cbn [fold_facts delegation]. destruct (granted other) as [[sub g]|] eqn:Hg; [|done].
    simpl. do 2 f_equal. symmetry. apply (cached_is_verdicts b' Hrows).
    unfold granted in Hg. by destruct (db_claims db !! other).
  - intros p k. cbn [fold_facts revoked_before]. apply existsb_ext_in. intros r Hr.
    rewrite (cached_is_verdicts b' Hrows r); [done|]. by eapply revocation_held.
Qed.
End passes.

(** C13. In a store in which the verdicts of claims rest on one another in chains of at most eight steps, and so without
    loops, rechecking ends, and ends with the verdict of the fold for every signed claim the store
    holds and no other row, whatever the verdict tables held before: a row edited, deleted or added by
    hand does not survive, and the mismatches reported are the rows whose verdict was another. In a store
    with a loop it need not end ([judging_can_run_forever]). *)
Theorem recheck_restores_the_fold b turns :
  shallow → (let n := size (dom (db_signatures db) ∪ bk_fresh b) in 2 * n * (n + 2) < turns) →
  ∃ b', recheck_claim_verdicts turns b = Some (b', mismatches (bk_verdicts b) (bk_verdicts b')) ∧
    (∀ id, bk_verdicts b' !! id = right_row id) ∧ bk_fresh b' = ∅ ∧ bk_queue b' = ∅.
Proof. intros [rank Hrank]%shallow_bounded Hturns. by apply (recheck_ends rank). Qed.
End facts.

(** [store_claim_signature_tx]: the first signature of a claim is kept, and the claim is fresh. *)
Definition store_claim_signature (claim_id : string) (signature : ClaimSignature) (db : Db) (b : Books)
    : Db * Books :=
  match db_signatures db !! claim_id with
  | Some _ => (db, b)
  | None =>
      (mkDb (db_claims db) (<[claim_id := signature]> (db_signatures db)) (db_roots db),
       mkBooks (bk_verdicts b) (bk_links b) (bk_queue b) ({[claim_id]} ∪ bk_fresh b) (bk_roots b))
  end.
End verdicts.

(** [roots]: a trust root per incarnation fleet membership admits, and this node's own key. *)
Definition root_compare (a b : string * string) : comparison :=
  then_with (String.compare a.1 b.1) (String.compare a.2 b.2).

Definition roots `{NumberApi} (incarnations : list Incarnation) (origin : string) (own : option string)
    : list (string * string) :=
  bt_set root_compare
    (map (λ incarnation, ("host/" +:+ inc_name incarnation, inc_member_key incarnation)) incarnations
     ++ match own with Some key => [("host/" +:+ origin, key)] | None => [] end).

(** ** Example stores

    The keys, grants and signature scheme are those of [Principal]'s examples. *)

Definition toy_hash (i : Item (H := integer_numbers)) : string :=
  match i with ITuple [] => "none" | _ => "digest" end.
Definition toy_text (v : Value (H := integer_numbers)) : string := "".
Definition toy_decode (s : string) : option (list ascii) := Some (bytes_of s).

Definition toy_row (id subject kind : string) (fields : Value (H := integer_numbers)) (at_ms : Z)
    : ClaimRow :=
  mkVerdictClaimRow subject kind None (Object [("fields", fields)])
    (Canonical.mkClaimRow id "batch" 0 at_ms "n" 1 [] []).

(** A node vouches for mara's root key, which grants her phone's key, which signs a note. *)
Definition mara_claims : list (string * ClaimRow (H := integer_numbers)) :=
  [("claim/root", toy_row "claim/root" "person/mara" KEY_GRANTED (Str "root") 1);
   ("claim/phone", toy_row "claim/phone" "person/mara" KEY_GRANTED (Str "device") 2);
   ("claim/note", toy_row "claim/note" "note/1" "note.written" Null 3)].
Definition mara_signatures : list (string * ClaimSignature) :=
  [("claim/root", sign "01" key_n "digest" "host/n" None [] 1);
   ("claim/phone", sign "02" key_r "digest" "person/mara" None ["claim/root"] 2);
   ("claim/note", sign "03" key_d "digest" "person/mara" None ["claim/phone"; "claim/root"] 3)].
Definition mara_db : Db (H := integer_numbers) :=
  mkDb (list_to_map mara_claims) (list_to_map mara_signatures) [("host/n", mk_public key_n)].

Definition mara_rank (id : string) : nat :=
  if str_eqb id "claim/note" then 2 else if str_eqb id "claim/phone" then 1 else 0.

Lemma no_revocations `{NumberApi} (db : Db) principal key :
  (∀ id row, db_claims db !! id = Some row → vc_kind row ≠ KEY_REVOKED) →
  revocations db principal key = [].
Proof.
  intros Hno. destruct (revocations db principal key) as [|r l] eqn:E; [done|]. exfalso.
  assert (Hr : r ∈ revocations db principal key) by (rewrite E; left).
  unfold revocations in Hr. apply list_elem_of_fmap in Hr as ([r' row] & -> & [Hin Hf]%lfilter_elem).
  apply elem_of_map_to_list in Hin. apply andb_true_iff in Hf as [[_ Hk]%andb_true_iff _].
  apply str_eqb_true in Hk. by apply (Hno r' row).
Qed.

Lemma mara_bounded : bounded_depth toy_grant mara_db mara_rank.
Proof.
  split.
  - intros id. unfold mara_rank, MAX_CHAIN_DEPTH. repeat case_match; lia.
  - intros id other [(s & Hs & Hin & _)|(p & k & row & _ & Hr & _)].
    + apply elem_of_list_to_map_2 in Hs. unfold mara_signatures in Hs.
      repeat (apply elem_of_cons in Hs as [Hs|Hs]; [injection Hs as -> ->; simpl in Hin;
        repeat (apply elem_of_cons in Hin as [->|Hin]; [vm_compute; lia|]); by apply elem_of_nil in Hin|]).
      by apply elem_of_nil in Hs.
    + rewrite no_revocations in Hr; [by apply elem_of_nil in Hr|].
      intros id' row' Hrow. apply elem_of_list_to_map_2 in Hrow. unfold mara_claims in Hrow.
      repeat (apply elem_of_cons in Hrow as [Hrow|Hrow]; [by injection Hrow as -> ->|]).
      by apply elem_of_nil in Hrow.
Qed.

(** Books someone edited: the note is said to be invalid, and a claim that is not here verified. *)
Definition edited_books : Books :=
  mkBooks (list_to_map [("claim/note", mkVerdictRow "invalid" None "person/eve" None);
                        ("claim/gone", mkVerdictRow "verified" None "person/eve" None)])
    ∅ ∅ ∅ (Some "digest").

Lemma recheck_restores_witness :
  ∃ b', recheck_claim_verdicts toy_hash toy_text toy_decode toy_verify toy_verify toy_grant mara_db 31
          edited_books
        = Some (b', mismatches (bk_verdicts edited_books) (bk_verdicts b')) ∧
    (∀ id, bk_verdicts b' !! id
           = right_row toy_hash toy_text toy_decode toy_verify toy_verify toy_grant mara_db id) ∧
    bk_fresh b' = ∅ ∧ bk_queue b' = ∅.
Proof.
  apply (recheck_restores_the_fold toy_hash toy_text toy_decode toy_verify toy_verify toy_grant mara_db
           edited_books 31); [by apply (bounded_shallow _ _ mara_rank), mara_bounded|].
  apply Nat.ltb_lt. vm_compute. reflexivity.
Defined.

Lemma rechecked_claims_witness :
  ∃ b' report, recheck_claim_verdicts toy_hash toy_text toy_decode toy_verify toy_verify toy_grant
                 mara_db 31 edited_books = Some (b', report) ∧
    ∀ id, claim_verdict b' id = Verified →
    ∃ row s, db_claims mara_db !! id = Some row ∧ db_signatures mara_db !! id = Some s ∧
      verifies toy_text toy_decode toy_verify toy_verify s (judged_of toy_hash id row) = true ∧
      (vc_kind row ≠ KEY_GRANTED →
       ∃ family, Family_of (cs_signer s) = Some family ∧
         descends_from_a_node (fold_facts toy_grant mara_db (claim_verdict b') id (vc_place row)) s family).
Proof.
  apply (rechecked_claims_descend_from_a_node toy_hash toy_text toy_decode toy_verify toy_verify
           toy_grant mara_db mara_rank mara_bounded edited_books 31).
  apply Nat.ltb_lt. vm_compute. reflexivity.
Defined.

(** The recheck of the edited books reports the two rows that were wrong and the two that were
    missing. *)
Example recheck_reports :
  snd <$> recheck_claim_verdicts toy_hash toy_text toy_decode toy_verify toy_verify toy_grant mara_db 31
            edited_books
  = Some [mkVerdictMismatch "claim/gone" (Some "verified") "unsigned";
          mkVerdictMismatch "claim/note" (Some "invalid") "verified";
          mkVerdictMismatch "claim/phone" None "verified";
          mkVerdictMismatch "claim/root" None "verified"].
Proof. vm_compute. reflexivity. Qed.

(** *** Verdicts that rest on each other

    A phone's key revokes the root key that granted it, in a claim dated before that grant. The
    grant is then invalid when the revocation is verified, and the revocation is invalid when the
    grant is: [delegation] gives [judge] delegations that come after the claim, so the verdicts
    are no fold in the canonical order, and no assignment of them is consistent. *)
Definition torn_db : Db (H := integer_numbers) := mkDb
  (list_to_map
    [("claim/root", toy_row "claim/root" "person/mara" KEY_GRANTED (Str "root") 1);
     ("claim/phone", toy_row "claim/phone" "person/mara" KEY_GRANTED (Str "device") 9);
     ("claim/revoked", toy_row "claim/revoked" "person/mara" KEY_REVOKED
                         (Object [("key", Str (mk_public key_r))]) 5)])
  (list_to_map
    [("claim/root", sign "01" key_n "digest" "host/n" None [] 1);
     ("claim/phone", sign "02" key_r "digest" "person/mara" None ["claim/root"] 9);
     ("claim/revoked", sign "03" key_d "digest" "person/mara" None ["claim/phone"; "claim/root"] 5)])
  [("host/n", mk_public key_n)].

Local Abbreviation torn_turn b :=
  (judge_turn toy_hash toy_text toy_decode toy_verify toy_verify toy_grant torn_db b).
Local Abbreviation next b := (fst (fst (torn_turn b))).
Definition torn_start : Books := mkBooks ∅ ∅ ∅ (dom (db_signatures torn_db)) None.

Lemma torn_turns :
  snd (torn_turn torn_start) = false ∧ snd (torn_turn (next torn_start)) = false ∧
  snd (torn_turn (next (next torn_start))) = false ∧
  snd (torn_turn (next (next (next torn_start)))) = false ∧
  next (next (next (next torn_start))) = next (next torn_start).
Proof. split_and!; [by vm_compute..|]. apply (bool_decide_eq_true _). by vm_compute. Qed.

(** The pass over those three claims never ends: after two turns its tables repeat every other
    turn, the two verdicts changing each other, so [judge_claims] goes on however many turns it
    is given. *)
Theorem judging_can_run_forever turns judged :
  judge_loop toy_hash toy_text toy_decode toy_verify toy_verify toy_grant torn_db turns judged torn_start
  = None.
Proof.
  destruct torn_turns as (H0 & H1 & H2 & H3 & Hcycle). revert turns judged.
  apply judge_loop_never; [exact H0|]. apply judge_loop_never; [exact H1|].
  apply judge_loop_circles; [exact H2|exact H3|exact Hcycle].
Qed.
