(* ===== verification/RulesGate.v ===== *)
(** * The write gate

    Models [current_rules_tx], [rules_gate_tx] and [set_rule] of
    [crates/smallclaims/src/store/principals.rs]: the rules in force are, for each [rule/NAME], its
    latest [rule.set] claim in canonical order, and every local write with an actor is checked
    against them in its own transaction. The claims table is a list of rows in arrival order; the
    query's [ORDER BY] is the order of [Canonical.components_compare]. Parsing a claim's body and
    deserializing a rule are serde's and are parameters. *)

From Stdlib Require Import Ascii.
From S2P Require Import Prelude StableSort Text Rules Json Bytes Order BTree Slices Canonical Claim Principal.

(** A row of the claims table: the columns that place it in canonical order, and the rest. *)
Record StoredClaim := mkStoredClaim {
  sc_row : ClaimRow;
  sc_subject : string;
  sc_kind : string;
  sc_body : string
}.

(** The audit record a gate appends: [append_claim_record_tx] of the node's own claim. *)
Record AuditRecord := mkAuditRecord {
  ar_origin : string;
  ar_subject : string;
  ar_kind : string;
  ar_rule : string;
  ar_actor : string;
  ar_action : string;
  ar_target : string
}.

#[export] Instance components_compare_order : cmp_order components_compare.
Proof. unfold components_compare. apply _. Qed.

Definition stored_compare (a b : StoredClaim) : comparison :=
  components_compare (sc_row a) (sc_row b).

Section gate.
Context `{NumberApi}.
Context (from_str : string → option Value) (rule_from_fields : Value → option Rule).

(** The rows the query returns, in its order. *)
Definition rule_rows (claims : list StoredClaim) : list StoredClaim :=
  sort_by (cmp_leb stored_compare) (List.filter (λ c, str_eqb (sc_kind c) RULE_SET) claims).

(** The [BTreeMap] the loop fills: later rows replace earlier ones. *)
Definition latest_rules (rows : list StoredClaim) : gmap string StoredClaim :=
  fold_left (λ latest c, <[sc_subject c := c]> latest) rows ∅.

Definition named_rule (entry : string * StoredClaim) : option NamedRule :=
  let (subject, c) := entry in
  match from_str (sc_body c) with
  | None => None
  | Some body =>
      match strip_prefix "rule/" subject with
      | None => None
      | Some name =>
          match get "fields" body with
          | None => None
          | Some fields =>
              match rule_from_fields fields with
              | None => None
              | Some rule => Some (mkNamedRule name (row_id (sc_row c)) rule)
              end
          end
      end
  end.

Definition current_rules (claims : list StoredClaim) : list NamedRule :=
  omap named_rule (in_key_order (latest_rules (rule_rows claims))).

Definition rules_gate (claims : list StoredClaim) (origin actor kind subject : string)
    : result Error (list AuditRecord) :=
  if str_eqb kind RULE_SET
  then if bool_decide (Family_of actor = Some Person) then Ok []
       else Err (mkError "rule-denied" ("only a person sets rules, not " +:+ actor))
  else if str_eqb kind RULE_AUDITED then Ok []
  else if negb (existsb (λ c, str_eqb (sc_kind c) RULE_SET) claims) then Ok []
  else
    let decision := decide_write (current_rules claims) actor kind subject in
    match denied decision with
    | Some r =>
        Err (mkError "rule-denied"
               ("rule `" +:+ nr_name r +:+ "` refuses " +:+ actor +:+ " writing " +:+ kind
                +:+ " on " +:+ subject
                +:+ (if str_eqb (description (nr_rule r)) "" then ""
                     else ": " +:+ description (nr_rule r))))
    | None =>
        Ok (map (λ r, mkAuditRecord origin ("rule/" +:+ nr_name r) RULE_AUDITED (nr_claim_id r)
                        actor kind subject) (audited decision))
    end.

(** [set_rule] up to [append_claim]: the claim it writes, or its refusal. *)
Definition set_rule (rule_fields : Rule → list (string * Value)) (name : string) (rule : Rule)
    (person : string) : result Error ClaimInput :=
  if str_eqb name "" || contains_char "/" name
  then Err (mkError "invalid-rule-name" "a rule name is one path segment")
  else Ok (mkClaimInput ("rule/" +:+ name) RULE_SET (Some person) (rule_fields rule) [] None None).

(** ** The rules in force *)

(** The claim that decides [rule/NAME]: a [rule.set] no other of its subject comes after. *)
Definition is_latest (claims : list StoredClaim) (c : StoredClaim) : Prop :=
  c ∈ claims ∧ sc_kind c = RULE_SET ∧
  ∀ c', c' ∈ claims → sc_kind c' = RULE_SET → sc_subject c' = sc_subject c →
        stored_compare c' c ≠ Gt.

Definition in_force (claims : list StoredClaim) (r : NamedRule) : Prop :=
  ∃ c, is_latest claims c ∧ named_rule (sc_subject c, c) = Some r.

Definition unique_ids (claims : list StoredClaim) : Prop :=
  NoDup ((row_id ∘ sc_row) <$> claims).

Lemma latest_rules_lookup rows subject :
  latest_rules rows !! subject = last (List.filter (λ c, str_eqb (sc_subject c) subject) rows).
Proof.
  unfold latest_rules. induction rows as [|c rows IH] using rev_ind; [done|].
  rewrite fold_left_app, List.filter_app. simpl.
  destruct (str_eqb (sc_subject c) subject) eqn:E; str_cases.
  - subst. by rewrite lookup_insert_eq, last_snoc.
  - by rewrite lookup_insert_ne, IH, app_nil_r.
Qed.

#[local] Instance stored_compare_order : cmp_order stored_compare.
Proof. unfold stored_compare. apply _. Qed.

Lemma rule_rows_elem claims c : c ∈ rule_rows claims ↔ c ∈ claims ∧ sc_kind c = RULE_SET.
Proof. unfold rule_rows. by rewrite elem_of_sort_by, lfilter_elem, str_eqb_true. Qed.

Lemma rule_rows_sorted claims :
  StronglySorted (λ a b, cmp_leb stored_compare a b = true) (rule_rows claims).
Proof. apply sort_by_sorted; [apply cmp_leb_total, _ | apply cmp_leb_trans, _]. Qed.

Lemma stored_compare_Eq claims a b :
  unique_ids claims → a ∈ claims → b ∈ claims → stored_compare a b = Eq → a = b.
Proof.
  intros Hnd [i Hi]%list_elem_of_lookup [j Hj]%list_elem_of_lookup E.
  unfold stored_compare, components_compare, then_with in E. repeat case_match; try done.
  apply String.compare_eq_iff in E.
  assert (i = j) as ->; [|congruence].
  eapply (NoDup_lookup _ i j (row_id (sc_row a)) Hnd); rewrite list_lookup_fmap.
  - by rewrite Hi.
  - rewrite Hj. simpl. by rewrite E.
Qed.

Lemma last_of_sorted (l : list StoredClaim) c :
  StronglySorted (λ a b, cmp_leb stored_compare a b = true) l → last l = Some c →
  c ∈ l ∧ ∀ c', c' ∈ l → stored_compare c' c ≠ Gt.
Proof.
  intros Hs Hl. apply last_Some in Hl as [l' ->]. split; [apply elem_of_app; right; left|].
  intros c' Hc'. apply cmp_leb_true. apply elem_of_app in Hc' as [Hc'|Hc'].
  - apply (StronglySorted_app_1_elem_of (λ a b, cmp_leb stored_compare a b = true) l' [c]);
      [exact Hs | done | left].
  - apply list_elem_of_singleton in Hc' as ->. destruct (cmp_leb_total stored_compare c c); done.
Qed.

Lemma latest_rules_spec claims subject c :
  unique_ids claims →
  latest_rules (rule_rows claims) !! subject = Some c ↔
  is_latest claims c ∧ sc_subject c = subject.
Proof.
  intros Hu. rewrite latest_rules_lookup.
  set (l := List.filter _ _).
  assert (Hl : ∀ x, x ∈ l ↔ x ∈ claims ∧ sc_kind x = RULE_SET ∧ sc_subject x = subject).
  { intros x. unfold l. rewrite lfilter_elem, rule_rows_elem, str_eqb_true. tauto. }
  assert (Hs : StronglySorted (λ a b, cmp_leb stored_compare a b = true) l)
    by apply sorted_filter, rule_rows_sorted.
  split.
  - intros [Hc Hmax]%last_of_sorted; [|done]. apply Hl in Hc as (? & ? & Hsub).
    split; [|done]. split_and!; [done..|]. intros c' ???. apply Hmax, Hl. by rewrite <- Hsub.
  - intros [(Hin & Hk & Hmax) Hsub].
    destruct (last l) as [x|] eqn:E.
    + destruct (last_of_sorted l x Hs E) as [Hx Hxmax]. f_equal.
      apply Hl in Hx as (Hx & Hxk & Hxs).
      apply (stored_compare_Eq claims); [done..|].
      apply (cmp_leb_both stored_compare); apply cmp_leb_true.
      * apply Hmax; [done..|congruence].
      * apply Hxmax, Hl. done.
    + apply last_None in E. exfalso. apply (not_elem_of_nil c). rewrite <- E. by apply Hl.
Qed.

Lemma current_rules_elem claims r :
  unique_ids claims → r ∈ current_rules claims ↔ in_force claims r.
Proof.
  intros Hu. unfold current_rules, in_force, in_key_order.
  rewrite list_elem_of_omap. split.
  - intros ([subject c] & Hin & Hr). rewrite elem_of_sort_by in Hin.
    apply elem_of_map_to_list, latest_rules_spec in Hin as [Hl <-]; [|done]. by exists c.
  - intros (c & Hl & Hr). exists (sc_subject c, c). split; [|done].
    rewrite elem_of_sort_by. by apply elem_of_map_to_list, latest_rules_spec.
Qed.

Lemma current_rules_perm claims claims' :
  unique_ids claims → claims ≡ₚ claims' → current_rules claims = current_rules claims'.
Proof.
  intros Hu Hp. unfold current_rules. f_equal. unfold in_key_order. do 3 f_equal. unfold rule_rows.
  apply sort_by_perm_eq;
    [by apply cmp_leb_total; apply _ | intros ???; apply cmp_leb_trans; apply _ |
     |by apply lfilter_perm].
  intros x y [Hx _]%lfilter_elem [Hy _]%lfilter_elem Hxy Hyx.
  apply (stored_compare_Eq claims); [done..|]. apply cmp_leb_both; [apply _|done..].
Qed.

Lemma no_rule_set_no_rules claims :
  existsb (λ c, str_eqb (sc_kind c) RULE_SET) claims = false → current_rules claims = [].
Proof.
  intros Hno. unfold current_rules, rule_rows.
  enough (List.filter (λ c, str_eqb (sc_kind c) RULE_SET) claims = []) as -> by done.
  apply elem_of_nil_inv. intros x [Hx Hk]%lfilter_elem.
  rewrite existsb_false_elem in Hno. by rewrite (Hno x Hx) in Hk.
Qed.

(** The gate without its probe for any rule. *)
Lemma rules_gate_eq claims origin actor kind subject :
  kind ≠ RULE_SET → kind ≠ RULE_AUDITED →
  rules_gate claims origin actor kind subject =
  match List.find (enforced actor kind subject) (current_rules claims) with
  | Some r =>
      Err (mkError "rule-denied"
             ("rule `" +:+ nr_name r +:+ "` refuses " +:+ actor +:+ " writing " +:+ kind
              +:+ " on " +:+ subject
              +:+ (if str_eqb (description (nr_rule r)) "" then ""
                   else ": " +:+ description (nr_rule r))))
  | None =>
      Ok (map (λ r, mkAuditRecord origin ("rule/" +:+ nr_name r) RULE_AUDITED (nr_claim_id r)
                      actor kind subject)
            (List.filter (audits actor kind subject) (current_rules claims)))
  end.
Proof.
  intros Hs%str_eqb_false Ha%str_eqb_false. unfold rules_gate. rewrite Hs, Ha.
  destruct (existsb _ claims) eqn:E; simpl.
  - unfold decide_write. rewrite decide_loop. simpl. by destruct (List.find _ _).
  - by rewrite no_rule_set_no_rules.
Qed.

(** What the gate lets through: only a person sets a rule, and no rule can stop them; the
    node's own audit records pass; any other write passes exactly when no rule in force in
    enforce mode restricts it, where the rule in force under a name is its latest [rule.set]
    claim in canonical order. A write that passes leaves one audit record for each rule in force
    in audit mode that restricts it, and no others. *)
Theorem rules_gate_admits claims origin actor kind subject :
  unique_ids claims →
  (∃ records, rules_gate claims origin actor kind subject = Ok records ∧
     ∀ record, record ∈ records ↔
       kind ≠ RULE_SET ∧ kind ≠ RULE_AUDITED ∧
       ∃ r, in_force claims r ∧ audits actor kind subject r = true ∧
            record = mkAuditRecord origin ("rule/" +:+ nr_name r) RULE_AUDITED (nr_claim_id r)
                       actor kind subject) ↔
  (kind = RULE_SET → Family_of actor = Some Person) ∧
  (kind ≠ RULE_SET → kind ≠ RULE_AUDITED →
   ∀ r, in_force claims r → enforced actor kind subject r = false).
Proof.
  intros Hu. assert (Hnil : ∀ (P : AuditRecord → Prop),
    (∀ x, ¬ P x) → ∀ x, x ∈ @nil AuditRecord ↔ P x).
  { intros P HP x. rewrite elem_of_nil. naive_solver. }
  destruct (decide (kind = RULE_SET)) as [->|Hs].
  { unfold rules_gate. simpl. case_bool_decide as Hf; [|naive_solver].
    split; [naive_solver|]. intros _. exists []. split; [done|]. apply Hnil. naive_solver. }
  destruct (decide (kind = RULE_AUDITED)) as [->|Ha].
  { unfold rules_gate. simpl. split; [naive_solver|]. intros _. exists []. split; [done|].
    apply Hnil. naive_solver. }
  rewrite rules_gate_eq by done.
  assert (Hrules : (∀ r, in_force claims r → enforced actor kind subject r = false) ↔
                   List.find (enforced actor kind subject) (current_rules claims) = None).
  { split.
    - intros Hall. destruct (List.find _ _) as [r|] eqn:E; [|done].
      apply find_Some_elem in E as [Hr He]. apply current_rules_elem, Hall in Hr; congruence.
    - intros Hno r Hr%current_rules_elem; [|done]. by eapply find_None_elem in Hno. }
  split.
  - intros (records & Hok & _). split; [done|]. intros _ _. apply Hrules.
    by destruct (List.find _ _).
  - intros [_ Hall]. specialize (Hall Hs Ha). apply Hrules in Hall. rewrite Hall.
    eexists. split; [done|]. intros record. rewrite list_elem_of_In, in_map_iff.
    setoid_rewrite <- list_elem_of_In. setoid_rewrite lfilter_elem.
    setoid_rewrite current_rules_elem; [|done]. naive_solver.
Qed.

(** The gate's answer, its refusals and its audit records do not depend on the order claims
    arrived in: two stores with the same claims answer every write alike. *)
Theorem rules_gate_ignores_arrival_order claims claims' origin actor kind subject :
  unique_ids claims → claims ≡ₚ claims' →
  rules_gate claims origin actor kind subject = rules_gate claims' origin actor kind subject.
Proof.
  intros Hu Hp.
  destruct (decide (kind = RULE_SET)) as [->|Hs]; [done|].
  destruct (decide (kind = RULE_AUDITED)) as [->|Ha]; [done|].
  by rewrite !rules_gate_eq, (current_rules_perm claims claims').
Qed.
End gate.

(** ** Examples *)

Definition deny_all : Rule := mkRule Enforce "locked" ["agent/*"] [] ["*"] ["**"] [].
Definition audit_all : Rule := mkRule Audit "" ["agent/*"] [] ["*"] ["**"] [].
Definition toy_rule (fields : Value (H := integer_numbers)) : option Rule :=
  match fields with Str "deny" => Some deny_all | Str "audit" => Some audit_all | _ => None end.
Definition toy_body (text : string) : option (Value (H := integer_numbers)) :=
  Some (Object [("fields", Str text)]).

Definition rule_claim (id : string) (time : Z) (text : string) : StoredClaim :=
  mkStoredClaim (mkClaimRow id "batch/1" 1 time "host/a" 1 [0%Z] [1%Z]) "rule/lock" RULE_SET text.

(** The newer claim arrived first. *)
Definition two_rule_claims : list StoredClaim :=
  [rule_claim "c2" 20 "audit"; rule_claim "c1" 10 "deny"].

Lemma two_rule_claims_unique : unique_ids two_rule_claims.
Proof. apply (bool_decide_unpack _). by vm_compute. Qed.

Lemma gate_admits_witness :
  ∃ records, rules_gate toy_body toy_rule two_rule_claims "host/a" "agent/x" "note" "n/1" = Ok records
    ∧ ∀ record, record ∈ records ↔
         "note" ≠ RULE_SET ∧ "note" ≠ RULE_AUDITED ∧
         ∃ r, in_force toy_body toy_rule two_rule_claims r ∧ audits "agent/x" "note" "n/1" r = true ∧
              record = mkAuditRecord "host/a" ("rule/" +:+ nr_name r) RULE_AUDITED (nr_claim_id r)
                         "agent/x" "note" "n/1".
Proof.
  apply (rules_gate_admits toy_body toy_rule two_rule_claims "host/a" "agent/x" "note" "n/1"
           two_rule_claims_unique).
  split; [done|]. intros _ _ r Hr.
  apply (current_rules_elem toy_body toy_rule two_rule_claims r two_rule_claims_unique) in Hr.
  assert (Hc : current_rules toy_body toy_rule two_rule_claims = [mkNamedRule "lock" "c2" audit_all])
    by by vm_compute.
  rewrite Hc in Hr. apply list_elem_of_singleton in Hr as ->. done.
Defined.

Lemma gate_order_witness :
  rules_gate toy_body toy_rule two_rule_claims "host/a" "agent/x" "note" "n/1" =
    rules_gate toy_body toy_rule (rev two_rule_claims) "host/a" "agent/x" "note" "n/1" ∧
  match rules_gate toy_body toy_rule [rule_claim "c1" 10 "deny"] "host/a" "agent/x" "note" "n/1" with
  | Ok _ => None
  | Err e => Some (err_code e, err_message e)
  end = Some ("rule-denied", "rule `lock` refuses agent/x writing note on n/1: locked").
Proof.
  split; [|by vm_compute].
  apply (rules_gate_ignores_arrival_order toy_body toy_rule two_rule_claims (rev two_rule_claims)
           "host/a" "agent/x" "note" "n/1" two_rule_claims_unique).
  apply Permutation_rev.
Defined.
