(* ===== verification/SeatQueue.v ===== *)
(** * The seat queue

    Models [crates/st3/src/seat_queue.rs]: the order of mission runs for one agent seat, rebuilt
    from its joins and its moves, and the selector of the seat's next work. A panic ([expect],
    [unreachable!], an index out of range) is [None]; [replay_never_panics] and the theorems built
    on it show none is reached. *)

From Stdlib Require Import Ascii.
From S2P Require Import Prelude StableSort Text Bytes Order.

Inductive Placement := Top | Bottom | Before | After.

#[export] Instance Placement_eq_dec : EqDecision Placement.
Proof. solve_decision. Defined.

Definition Placement_parse (value : string) : option Placement :=
  if str_eqb value "top" then Some Top
  else if str_eqb value "bottom" then Some Bottom
  else if str_eqb value "before" then Some Before
  else if str_eqb value "after" then Some After
  else None.

Definition Placement_as_str (p : Placement) : string :=
  match p with Top => "top" | Bottom => "bottom" | Before => "before" | After => "after" end.

Definition needs_anchor (p : Placement) : bool :=
  match p with Before | After => true | _ => false end.

Record QueueJoin := mkQueueJoin { qj_run : string; qj_at_unix_ms : Z }.

Record QueueMove := mkQueueMove {
  qm_run : string;
  qm_placement : Placement;
  qm_anchor : option string;
  qm_at_unix_ms : Z
}.

(** ** Moving one element of a list

    The steps [seat_queue::apply_move] and [lane::move_entry] share: the checked anchor, and the
    removal and insertion that follow. *)
Section relocate.
Context {A : Type} (name : A → string).

Definition named (s : string) (x : A) : bool := str_eqb (name x) s.

(** The anchor a placement needs, [None] to refuse the move. *)
Definition checked_anchor (run : string) (placement : Placement) (anchor : option string)
    (l : list A) : option (option string) :=
  if needs_anchor placement
  then match anchor with
       | Some a => if negb (str_eqb a run) && existsb (named a) l then Some (Some a) else None
       | None => None
       end
  else Some None.

Definition relocate (from : nat) (placement : Placement) (anchor : option string) (l : list A)
    : option (list A) :=
  match vec_remove from l with
  | None => None
  | Some (moved, rest) =>
      let to :=
        match placement, anchor with
        | Top, _ => Some 0
        | Bottom, _ => Some (length rest)
        | Before, Some a => position (named a) rest
        | After, Some a => S <$> position (named a) rest
        | (Before | After), None => None
        end in
      match to with None => None | Some to => vec_insert to moved rest end
  end.

(** Where a moved element ends up among the others, which keep their order. *)
Inductive relocated (x : A) : Placement → option string → list A → list A → Prop :=
| relocated_top a pre post :
    relocated x Top a (pre ++ x :: post) (x :: pre ++ post)
| relocated_bottom a pre post :
    relocated x Bottom a (pre ++ x :: post) (pre ++ post ++ [x])
| relocated_before a y pre post u v :
    pre ++ post = u ++ y :: v → name y = a →
    relocated x Before (Some a) (pre ++ x :: post) (u ++ x :: y :: v)
| relocated_after a y pre post u v :
    pre ++ post = u ++ y :: v → name y = a →
    relocated x After (Some a) (pre ++ x :: post) (u ++ y :: x :: v).

Lemma relocated_perm x p a l l' : relocated x p a l l' → l' ≡ₚ l.
Proof.
  destruct 1 as [a pre post|a pre post|a y pre post u v E _|a y pre post u v E _];
    rewrite <- (Permutation_middle pre post x).
  - done.
  - by rewrite app_assoc, <- Permutation_cons_append.
  - by rewrite E, <- Permutation_middle.
  - rewrite E. change (u ++ y :: x :: v) with (u ++ [y] ++ x :: v).
    by rewrite app_assoc, <- Permutation_middle, <- app_assoc.
Qed.

Lemma relocate_spec from x p a anchor l :
  l !! from = Some x → checked_anchor (name x) p anchor l = Some a →
  ∃ l', relocate from p a l = Some l' ∧ relocated x p anchor l l'.
Proof.
  intros Hx Ha. unfold relocate. rewrite (vec_remove_Some from l x Hx).
  assert (Hl : l = take from l ++ x :: drop (S from) l) by by rewrite take_drop_middle.
  set (pre := take from l) in *. set (post := drop (S from) l) in *.
  assert (Hpos : ∀ b, b ≠ name x → existsb (named b) l = true →
    ∃ i y, position (named b) (pre ++ post) = Some i ∧ name y = b ∧
           pre ++ post = take i (pre ++ post) ++ y :: drop (S i) (pre ++ post)
           ∧ i < length (pre ++ post)).
  { intros b Hb Hex. rewrite Hl, existsb_app in Hex. simpl in Hex.
    unfold named at 2 in Hex. rewrite (proj2 (str_eqb_false (name x) b)) in Hex by done. simpl in Hex.
    rewrite <- existsb_app, <- position_existsb in Hex.
    destruct (position (named b) (pre ++ post)) as [i|] eqn:E; [|done].
    apply position_split in E as (y & Hy & Hn & Hi). apply str_eqb_true in Hn. by exists i, y. }
  unfold checked_anchor in Ha.
  destruct p; simpl in Ha.
  - injection Ha as <-. rewrite vec_insert_le by lia. simpl. eexists. split; [done|].
    rewrite Hl at 1. constructor.
  - injection Ha as <-. rewrite vec_insert_le by lia. eexists. split; [done|].
    rewrite take_ge, drop_ge, <- app_assoc by lia. rewrite Hl at 1. constructor.
  - destruct anchor as [b|]; [|done].
    destruct (negb (str_eqb b (name x))) eqn:Hb, (existsb (named b) l) eqn:Hex; try done.
    injection Ha as <-. apply negb_true_iff, str_eqb_false in Hb.
    destruct (Hpos b Hb Hex) as (i & y & -> & Hn & Hs & Hi).
    rewrite vec_insert_le by lia. eexists. split; [done|]. rewrite Hl at 1.
    assert (drop i (pre ++ post) = y :: drop (S i) (pre ++ post)) as ->.
    { rewrite Hs at 1. rewrite drop_app_ge, length_take_le by (rewrite ?length_take; lia).
      by rewrite Nat.sub_diag. }
    by econstructor.
  - destruct anchor as [b|]; [|done].
    destruct (negb (str_eqb b (name x))) eqn:Hb, (existsb (named b) l) eqn:Hex; try done.
    injection Ha as <-. apply negb_true_iff, str_eqb_false in Hb.
    destruct (Hpos b Hb Hex) as (i & y & -> & Hn & Hs & Hi). simpl.
    rewrite vec_insert_le by lia. eexists. split; [done|]. rewrite Hl at 1.
    assert (take (S i) (pre ++ post) = take i (pre ++ post) ++ [y]) as ->.
    { rewrite Hs at 1. rewrite (cons_middle y), app_assoc.
      rewrite take_app_length'; [done|]. rewrite length_app, length_take. simpl. lia. }
    rewrite <- app_assoc. by econstructor.
Qed.
End relocate.

(** ** The queue *)

Definition join_compare (left right : QueueJoin) : comparison :=
  then_with (qj_at_unix_ms left ?= qj_at_unix_ms right)%Z
            (String.compare (qj_run left) (qj_run right)).

Definition join_run (order : list string) (run : string) : list string :=
  if existsb (named id run) order then order else order ++ [run].

Definition apply_move (order : list string) (m : QueueMove) : option (list string) :=
  match position (named id (qm_run m)) order with
  | None => Some order
  | Some from =>
      match checked_anchor id (qm_run m) (qm_placement m) (qm_anchor m) order with
      | None => Some order
      | Some anchor => relocate id from (qm_placement m) anchor order
      end
  end.

(** [next_if] in a loop: the joins at or before [at_ms] leave [pending]. *)
Fixpoint join_due (at_ms : Z) (pending : list QueueJoin) (order : list string)
    : list QueueJoin * list string :=
  match pending with
  | [] => ([], order)
  | join :: rest =>
      if (qj_at_unix_ms join <=? at_ms)%Z
      then join_due at_ms rest (join_run order (qj_run join))
      else (pending, order)
  end.

Definition join_named (known : list string) (order : list string) (m : QueueMove) : list string :=
  fold_left (λ order run, if existsb (named id run) known then join_run order run else order)
    (qm_run m :: option_list (qm_anchor m)) order.

Fixpoint replay_moves (known : list string) (moves : list QueueMove) (pending : list QueueJoin)
    (order : list string) : option (list string) :=
  match moves with
  | [] => Some (fold_left (λ order join, join_run order (qj_run join)) pending order)
  | m :: moves' =>
      let (pending, order) := join_due (qm_at_unix_ms m) pending order in
      match apply_move (join_named known order m) m with
      | None => None
      | Some order => replay_moves known moves' pending order
      end
  end.

Definition replay (joins : list QueueJoin) (moves : list QueueMove) : option (list string) :=
  let joins := sort_by (cmp_leb join_compare) joins in
  replay_moves (map qj_run joins) moves joins [].

(** ** The queue's invariant *)

Lemma join_run_elem order run r : r ∈ join_run order run ↔ r ∈ order ∨ r = run.
Proof.
  unfold join_run. destruct (existsb _ _) eqn:E.
  - apply existsb_true_elem in E as (x & Hx & Hn). unfold named in Hn. apply str_eqb_true in Hn.
    simpl in Hn. subst. naive_solver.
  - by rewrite elem_of_app, list_elem_of_singleton.
Qed.

Lemma join_run_NoDup order run : NoDup order → NoDup (join_run order run).
Proof.
  unfold join_run. destruct (existsb _ _) eqn:E; [done|]. intros Hnd. apply NoDup_app.
  split_and!; [done| |apply NoDup_singleton].
  intros x Hx ->%list_elem_of_singleton. rewrite existsb_false_elem in E.
  specialize (E run Hx). apply str_eqb_false in E. by apply E.
Qed.

(** What one move does: it places its run as it says when the run is queued and the anchor it
    needs is another queued run, and otherwise changes nothing. *)
Lemma apply_move_cases order m :
  ∃ order', apply_move order m = Some order' ∧
    ((qm_run m ∈ order ∧
      (needs_anchor (qm_placement m) = true →
         ∃ a, qm_anchor m = Some a ∧ a ≠ qm_run m ∧ a ∈ order) ∧
      relocated id (qm_run m) (qm_placement m) (qm_anchor m) order order') ∨
     (order' = order ∧
      (qm_run m ∉ order ∨
       needs_anchor (qm_placement m) = true ∧
       ∀ a, qm_anchor m = Some a → a = qm_run m ∨ a ∉ order))).
Proof.
  unfold apply_move.
  assert (Hnamed : ∀ a l, existsb (named id a) l = true ↔ a ∈ l).
  { intros a l. rewrite existsb_true_elem. unfold named. setoid_rewrite str_eqb_true. naive_solver. }
  destruct (position _ order) as [from|] eqn:Hp.
  - apply position_Some in Hp as (x & Hx & Hn & _). unfold named in Hn. apply str_eqb_true in Hn.
    simpl in Hn. subst x.
    destruct (checked_anchor _ _ _ _ _) as [a|] eqn:Ha.
    + destruct (relocate_spec id from (qm_run m) (qm_placement m) a (qm_anchor m) order Hx Ha)
        as (order' & Hr & Hrel). exists order'. split; [done|]. left.
      split_and!; [by eapply list_elem_of_lookup_2| |done].
      intros Hneed. unfold checked_anchor in Ha. rewrite Hneed in Ha.
      destruct (qm_anchor m) as [b|]; [|done].
      destruct (str_eqb b (qm_run m)) eqn:Hb; [done|]. str_cases.
      destruct (existsb (named id b) order) eqn:Hex; [|done]. apply Hnamed in Hex. by exists b.
    + exists order. split; [done|]. right. split; [done|]. right.
      unfold checked_anchor in Ha. destruct (needs_anchor _); [|done]. split; [done|].
      intros b Hb. rewrite Hb in Ha. destruct (str_eqb b (qm_run m)) eqn:Hbr; str_cases; [by left|].
      right. rewrite <- Hnamed. by destruct (existsb (named id b) order).
  - exists order. split; [done|]. right. split; [done|]. left. rewrite <- Hnamed.
    rewrite <- position_existsb, Hp. done.
Qed.

Lemma apply_move_perm order m : ∃ order', apply_move order m = Some order' ∧ order' ≡ₚ order.
Proof.
  destruct (apply_move_cases order m) as (order' & H & [(_ & _ & Hr)|[-> _]]).
  - exists order'. split; [done|]. by eapply relocated_perm.
  - by exists order.
Qed.

Lemma join_due_spec at_ms pending : ∀ order,
  ∃ done_, pending = done_ ++ (join_due at_ms pending order).1 ∧
    (join_due at_ms pending order).2 = fold_left (λ o j, join_run o (qj_run j)) done_ order.
Proof.
  induction pending as [|j pending IH]; intros order; simpl; [by exists []|].
  destruct (_ <=? _)%Z; [|by exists []].
  destruct (IH (join_run order (qj_run j))) as (d & Hp & Ho). exists (j :: d). simpl.
  split; [by f_equal | done].
Qed.

Lemma fold_joins_elem joins : ∀ order r,
  r ∈ fold_left (λ o j, join_run o (qj_run j)) joins order ↔ r ∈ order ∨ r ∈ map qj_run joins.
Proof.
  induction joins as [|j joins IH]; intros order r; simpl.
  - rewrite elem_of_nil. tauto.
  - rewrite IH, join_run_elem, elem_of_cons. tauto.
Qed.

Lemma fold_joins_NoDup joins : ∀ order,
  NoDup order → NoDup (fold_left (λ o j, join_run o (qj_run j)) joins order).
Proof.
  induction joins as [|j joins IH]; intros order Hnd; simpl; [done|]. by apply IH, join_run_NoDup.
Qed.

Lemma join_named_spec known order m :
  NoDup order → NoDup (join_named known order m) ∧
  (∀ r, r ∈ order → r ∈ join_named known order m) ∧
  (∀ r, r ∈ join_named known order m → r ∈ order ∨ r ∈ known).
Proof.
  unfold join_named. generalize (qm_run m :: option_list (qm_anchor m)). intros runs.
  revert order. induction runs as [|run runs IH]; intros order Hnd; simpl; [naive_solver|].
  destruct (existsb _ known) eqn:E; [|by apply IH].
  apply existsb_true_elem in E as (k & Hk & Hn). apply str_eqb_true in Hn. simpl in Hn. subst k.
  destruct (IH (join_run order run) (join_run_NoDup order run Hnd)) as (H1 & H2 & H3).
  split_and!; [done| |].
  - intros r Hr. apply H2, join_run_elem. by left.
  - intros r [Hr%join_run_elem|Hr]%H3; naive_solver.
Qed.

Lemma replay_moves_ok known moves : ∀ pending order,
  NoDup order → (∀ r, r ∈ order → r ∈ known) → (∀ r, r ∈ map qj_run pending → r ∈ known) →
  ∃ result, replay_moves known moves pending order = Some result ∧ NoDup result ∧
    ∀ r, (r ∈ result → r ∈ known) ∧ (r ∈ order ∨ r ∈ map qj_run pending → r ∈ result).
Proof.
  induction moves as [|m moves IH]; intros pending order Hnd Ho Hp; simpl.
  - eexists. split; [done|]. split; [by apply fold_joins_NoDup|].
    intros r. rewrite fold_joins_elem. naive_solver.
  - destruct (join_due_spec (qm_at_unix_ms m) pending order) as (d & Hpd & Hord).
    destruct (join_due (qm_at_unix_ms m) pending order) as [pending' order1]. simpl in *. subst.
    rewrite map_app in *.
    set (order1 := fold_left _ d order).
    assert (Hnd1 : NoDup order1) by by apply fold_joins_NoDup.
    assert (Hin1 : ∀ r, r ∈ order1 ↔ r ∈ order ∨ r ∈ map qj_run d) by (intros; apply fold_joins_elem).
    destruct (join_named_spec known order1 m Hnd1) as (Hnd2 & Hsub & Hsup).
    destruct (apply_move_perm (join_named known order1 m) m) as (order2 & -> & Hperm).
    setoid_rewrite elem_of_app in Hp. setoid_rewrite elem_of_app.
    destruct (IH pending' order2) as (result & -> & Hndr & Hres).
    + by rewrite Hperm.
    + intros r. rewrite Hperm. intros [Hr%Hin1|]%Hsup; naive_solver.
    + naive_solver.
    + exists result. split_and!; [done..|]. intros r. split; [apply Hres|].
      intros Hr. apply Hres. rewrite Hperm. destruct Hr as [Hr|[Hr|Hr]]; [left|left|by right];
        apply Hsub, Hin1; naive_solver.
Qed.

(** Rebuilding a seat's queue never panics, whatever joins and moves were recorded: every run
    that ever joined is queued exactly once, and nothing else is. *)
Theorem seat_queue_holds_every_joined_run joins moves :
  ∃ order, replay joins moves = Some order ∧ NoDup order ∧
    ∀ run, run ∈ order ↔ run ∈ map qj_run joins.
Proof.
  unfold replay.
  assert (Hmap : map qj_run (sort_by (cmp_leb join_compare) joins) ≡ₚ map qj_run joins)
    by (apply Permutation_map, sort_by_perm).
  destruct (replay_moves_ok (map qj_run (sort_by (cmp_leb join_compare) joins)) moves
              (sort_by (cmp_leb join_compare) joins) []) as (order & -> & Hnd & Hin).
  - constructor.
  - intros r Hr. by apply not_elem_of_nil in Hr.
  - done.
  - exists order. split_and!; [done..|]. intros run. rewrite <- Hmap. split; [apply Hin|].
    intros Hr. apply Hin. by right.
Qed.

(** Every move recorded has the effect it names: when its run is queued, and the anchor a
    before or after placement needs is another queued run, the run ends up first, last, or right
    before or after its anchor, and the other runs keep their order. Otherwise the queue is
    unchanged. No move panics. *)
Theorem seat_move_places_its_run order m :
  ∃ order', apply_move order m = Some order' ∧
    ((qm_run m ∈ order ∧
      (needs_anchor (qm_placement m) = true →
         ∃ a, qm_anchor m = Some a ∧ a ≠ qm_run m ∧ a ∈ order) ∧
      relocated id (qm_run m) (qm_placement m) (qm_anchor m) order order') ∨
     (order' = order ∧
      (qm_run m ∉ order ∨
       needs_anchor (qm_placement m) = true ∧
       ∀ a, qm_anchor m = Some a → a = qm_run m ∨ a ∉ order))).
Proof. apply apply_move_cases. Qed.

#[export] Instance join_compare_order : cmp_order join_compare.
Proof. unfold join_compare. apply _. Qed.

(** Joins may be listed in any order. *)
Lemma replay_joins_perm joins joins' moves : joins ≡ₚ joins' → replay joins moves = replay joins' moves.
Proof.
  intros Hp. unfold replay.
  assert (sort_by (cmp_leb join_compare) joins = sort_by (cmp_leb join_compare) joins') as ->; [|done].
  apply sort_by_perm_eq; [apply cmp_leb_total, _ | apply cmp_leb_trans, _ | |done].
  intros [r t] [r' t'] _ _ H1 H2. pose proof (cmp_leb_both join_compare _ _ H1 H2) as E.
  unfold join_compare in E. simpl in E. destruct (t ?= t')%Z eqn:Et; try done. simpl in E.
  apply Z.compare_eq_iff in Et. apply String.compare_eq_iff in E. by subst.
Qed.

(** ** The selector *)

Record SeatStep := mkSeatStep {
  ss_subject : string;
  ss_run : string;
  ss_step : string;
  ss_status : string;
  ss_assignee : option string;
  ss_claimant : option string;
  ss_available_to : list string;
  ss_created_at_unix_ms : Z;
  ss_carried_claimant : option string
}.

Record SeatSelection := mkSeatSelection {
  held : list string;
  ready : list string
}.

Definition selection_next (self : SeatSelection) : option string := head (ready self).

Definition wake (self : SeatSelection) : option string :=
  match held self with [] => selection_next self | _ => None end.

(** The byte at an index of a text. *)
Definition byte_at (i : nat) (s : string) : option ascii := bytes_of s !! i.

Definition nests_under (ancestor step : SeatStep) : bool :=
  str_eqb (ss_run ancestor) (ss_run step)
  && ostr_eqb (ss_assignee ancestor) (ss_assignee step)
  && bool_decide (ss_available_to ancestor = ss_available_to step)
  && (String.length (ss_step ancestor) <? String.length (ss_step step))
  && starts_with (ss_step ancestor) (ss_step step)
  && bool_decide (byte_at (String.length (ss_step ancestor)) (ss_step step) = Some "/"%char).

Definition reached_through_parent (step : SeatStep) (steps : list SeatStep) : bool :=
  existsb (λ candidate, nests_under candidate step
                        && negb (str_eqb (ss_status candidate) "verifying")) steps.

Definition submitted_with_ready_nested_work (parent : SeatStep) (steps : list SeatStep) : bool :=
  str_eqb (ss_status parent) "verifying"
  && existsb (λ step, str_eqb (ss_status step) "ready" && nests_under parent step) steps.

Definition holds_seat (agent : string) (steps : list SeatStep) (step : SeatStep) : bool :=
  existsb (str_eqb (ss_status step)) ["claimed"; "working"; "verifying"]
  && (ostr_eqb (ss_claimant step) (Some agent) || ostr_eqb (ss_assignee step) (Some agent))
  && negb (submitted_with_ready_nested_work step steps).

Definition is_ready_for (agent : string) (steps : list SeatStep) (step : SeatStep) : bool :=
  str_eqb (ss_status step) "ready" && ostr_eqb (ss_assignee step) (Some agent)
  && negb (reached_through_parent step steps).

(** [usize::MAX] for a run that is not queued. *)
Definition rank (run_order : list string) (run : string) : Z :=
  match position (named id run) run_order with
  | Some i => Z.of_nat i
  | None => u64_max
  end.

Definition waits_its_turn (agent : string) (step : SeatStep) : bool :=
  negb (ostr_eqb (ss_carried_claimant step) (Some agent)).

(** [bool::cmp]: false before true. *)
Definition bool_compare (a b : bool) : comparison :=
  match a, b with false, true => Lt | true, false => Gt | _, _ => Eq end.

Definition step_compare (agent : string) (run_order : list string) (left right : SeatStep)
    : comparison :=
  then_with (bool_compare (waits_its_turn agent left) (waits_its_turn agent right))
    (then_with (rank run_order (ss_run left) ?= rank run_order (ss_run right))%Z
      (then_with (ss_created_at_unix_ms left ?= ss_created_at_unix_ms right)%Z
        (String.compare (ss_subject left) (ss_subject right)))).

Definition select (agent : string) (steps : list SeatStep) (run_order : list string)
    : SeatSelection :=
  mkSeatSelection
    (map ss_subject (List.filter (holds_seat agent steps) steps))
    (map ss_subject (sort_by (cmp_leb (step_compare agent run_order))
                       (List.filter (is_ready_for agent steps) steps))).

#[export] Instance cmp_order_bool : cmp_order bool_compare.
Proof. split; [by intros [] [] | by intros [] [] []]. Qed.

#[export] Instance step_compare_order agent run_order : cmp_order (step_compare agent run_order).
Proof. unfold step_compare. apply _. Qed.

Lemma sort_by_head {A} (cmp : A → A → comparison) `{!cmp_order cmp} l x :
  head (sort_by (cmp_leb cmp) l) = Some x → x ∈ l ∧ ∀ y, y ∈ l → cmp x y ≠ Gt.
Proof.
  intros Hh.
  assert (Hs : StronglySorted (λ a b, cmp_leb cmp a b = true) (sort_by (cmp_leb cmp) l))
    by (apply sort_by_sorted; [apply cmp_leb_total, _ | apply cmp_leb_trans, _]).
  destruct (sort_by (cmp_leb cmp) l) as [|z r] eqn:E; [done|]. injection Hh as ->.
  assert (Hin : ∀ y, y ∈ l ↔ y ∈ x :: r) by (intros y; by rewrite <- E, elem_of_sort_by).
  split; [apply Hin; left|]. intros y [->|Hy]%Hin%elem_of_cons; apply cmp_leb_true.
  - destruct (cmp_leb_total cmp x x); done.
  - inversion Hs as [|? ? _ Hall]; subst. rewrite Forall_forall in Hall. by apply Hall.
Qed.

(** The seat's next work is its least ready step, by carried claim first, then the run's place
    in the queue, then creation time and subject; there is none exactly when no step is ready for
    the seat. Work is woken only while the seat holds nothing, and then it is the next work. *)
Theorem select_takes_the_first_ready_step agent steps run_order :
  match selection_next (select agent steps run_order) with
  | Some s => ∃ step, step ∈ steps ∧ is_ready_for agent steps step = true ∧ ss_subject step = s ∧
                ∀ other, other ∈ steps → is_ready_for agent steps other = true →
                         step_compare agent run_order step other ≠ Gt
  | None => ∀ step, step ∈ steps → is_ready_for agent steps step = false
  end ∧
  wake (select agent steps run_order) =
    (if existsb (holds_seat agent steps) steps then None
     else selection_next (select agent steps run_order)).
Proof.
  split.
  - unfold selection_next, select. simpl.
    set (l := List.filter (is_ready_for agent steps) steps).
    destruct (sort_by (cmp_leb (step_compare agent run_order)) l) as [|x r] eqn:E; simpl.
    + intros step Hs. apply not_true_iff_false. intros Hr. apply (not_elem_of_nil step).
      rewrite <- E. apply elem_of_sort_by, lfilter_elem. done.
    + assert (Hh : head (sort_by (cmp_leb (step_compare agent run_order)) l) = Some x) by by rewrite E.
      pose proof (sort_by_head _ _ _ Hh) as [Hx Hmin]. apply lfilter_elem in Hx as [Hx Hr].
      exists x. split_and!; [done..|]. intros y Hy Hyr. apply Hmin, lfilter_elem. done.
  - unfold wake. simpl. destruct (existsb _ steps) eqn:E.
    + apply existsb_true_elem in E as (x & Hx & Hh).
      destruct (List.filter _ steps) as [|y l] eqn:El; [|done]. exfalso.
      apply (not_elem_of_nil x). rewrite <- El. by apply lfilter_elem.
    + assert (List.filter (holds_seat agent steps) steps = []) as ->; [|done].
      apply elem_of_nil_inv. intros x [Hx Hh]%lfilter_elem.
      rewrite existsb_false_elem in E. by rewrite (E x Hx) in Hh.
Qed.

(** A step nests under another when its path extends the other's by a slash and more. *)
Lemma nests_under_path ancestor step :
  nests_under ancestor step = true →
  ∃ rest, ss_step step = ss_step ancestor +:+ String "/" rest.
Proof.
  unfold nests_under. intros H. bool_cases.
  repeat match goal with H : starts_with _ _ = true |- _ => apply starts_with_true in H as [r Hr] end.
  match goal with H : bool_decide (byte_at _ _ = _) = true |- _ =>
    apply bool_decide_eq_true in H as Hb end.
  rewrite Hr in *. unfold byte_at in Hb. rewrite bytes_of_app, lookup_app_r in Hb
    by (rewrite length_bytes_of; lia).
  rewrite length_bytes_of, Nat.sub_diag in Hb. destruct r as [|c r]; [done|].
  injection Hb as ->. by exists r.
Qed.

(** ** Examples *)

Lemma placements_example :
  replay [mkQueueJoin "c" 30; mkQueueJoin "a" 10; mkQueueJoin "b" 20]
    [mkQueueMove "a" Bottom None 25; mkQueueMove "c" Before (Some "b") 26] = Some ["c"; "b"; "a"].
Proof. reflexivity. Qed.
