(* ===== verification/Lane.v ===== *)
(** * Lanes

    Models [crates/st3/src/lane.rs]: one ordered line of entries that a mission run works through,
    rebuilt from the claims on the lane's subject. The loop body of [replay] is [apply_event]; a
    panic (an index out of range, [expect], [unreachable!]) is [None]. Each entry's own record is
    proved to follow from the claims that name it alone ([track]), whatever else is in the lane. *)

From Stdlib Require Import Ascii.
From S2P Require Import Prelude StableSort Text Bytes Order Utf8 SeatQueue.

Inductive Change :=
| Joined
| Left (outcome : string)
| Moved (placement : Placement) (anchor : option string)
| Marked (state : string) (detail head : option string)
| Approved.

Definition Change_kind (c : Change) : string :=
  match c with
  | Joined => "joined" | Left _ => "left" | Moved _ _ => "moved" | Marked _ _ _ => "marked"
  | Approved => "approved"
  end.

Record Event := mkEvent {
  ev_claim_id : string;
  ev_at_unix_ms : Z;
  ev_actor : string;
  ev_entry : string;
  ev_reason : option string;
  ev_change : Change
}.

Record Entry := mkEntry {
  en_position : nat;
  en_entry : string;
  en_state : string;
  en_detail : option string;
  en_head : option string;
  en_marked_by : option string;
  en_marked_at_unix_ms : option Z;
  en_joined_by : string;
  en_joined_at_unix_ms : Z;
  en_join_reason : option string;
  en_approved_by : option string;
  en_approved_at_unix_ms : option Z
}.

Record Recent := mkRecent {
  rc_kind : string;
  rc_entry : string;
  rc_actor : string;
  rc_at_unix_ms : Z;
  rc_outcome : option string;
  rc_placement : option string;
  rc_anchor : option string;
  rc_reason : option string
}.

Record Replayed := mkReplayed {
  rp_entries : list Entry;
  rp_recent : list Recent
}.

(** ** One event *)

Definition joined_entry (e : Event) : Entry :=
  mkEntry 0 (ev_entry e) "waiting" None None None None (ev_actor e) (ev_at_unix_ms e) (ev_reason e)
    None None.

Definition mark_entry (e : Event) (state : string) (detail head : option string) (en : Entry)
    : Entry :=
  mkEntry (en_position en) (en_entry en) state detail head (Some (ev_actor e))
    (Some (ev_at_unix_ms e)) (en_joined_by en) (en_joined_at_unix_ms en) (en_join_reason en)
    (en_approved_by en) (en_approved_at_unix_ms en).

Definition approve_entry (e : Event) (en : Entry) : Entry :=
  mkEntry (en_position en) (en_entry en) (en_state en) (en_detail en) (en_head en)
    (en_marked_by en) (en_marked_at_unix_ms en) (en_joined_by en) (en_joined_at_unix_ms en)
    (en_join_reason en) (Some (ev_actor e)) (Some (ev_at_unix_ms e)).

Definition at_position (p : nat) (en : Entry) : Entry :=
  mkEntry p (en_entry en) (en_state en) (en_detail en) (en_head en)
    (en_marked_by en) (en_marked_at_unix_ms en) (en_joined_by en) (en_joined_at_unix_ms en)
    (en_join_reason en) (en_approved_by en) (en_approved_at_unix_ms en).

(** [entries[index]] updated in place. *)
Definition update_at (index : nat) (f : Entry → Entry) (entries : list Entry)
    : option (list Entry) :=
  match entries !! index with
  | Some en => Some (<[index := f en]> entries)
  | None => None
  end.

(** [move_entry]: whether it moved, and the entries. *)
Definition move_entry (entries : list Entry) (from : nat) (placement : Placement)
    (anchor : option string) : option (bool * list Entry) :=
  match entries !! from with
  | None => None
  | Some moved =>
      match checked_anchor en_entry (en_entry moved) placement anchor entries with
      | None => Some (false, entries)
      | Some anchor => (λ l, (true, l)) <$> relocate en_entry from placement anchor entries
      end
  end.

Definition apply_event (entries : list Entry) (e : Event) : option (bool * list Entry) :=
  let at_ := position (named en_entry (ev_entry e)) entries in
  match ev_change e, at_ with
  | Joined, None => Some (true, entries ++ [joined_entry e])
  | Joined, Some _ => Some (false, entries)
  | Left _, Some index => (λ r, (true, r.2)) <$> vec_remove index entries
  | Moved placement anchor, Some index => move_entry entries index placement anchor
  | Marked state detail head, Some index =>
      (λ l, (true, l)) <$> update_at index (mark_entry e state detail head) entries
  | Approved, Some index => (λ l, (true, l)) <$> update_at index (approve_entry e) entries
  | _, None => Some (false, entries)
  end.

Definition recent_record (e : Event) : Recent :=
  let '(outcome, placement, anchor) :=
    match ev_change e with
    | Left outcome => (Some outcome, None, None)
    | Moved placement anchor => (None, Some (Placement_as_str placement), anchor)
    | _ => (None, None, None)
    end in
  mkRecent (Change_kind (ev_change e)) (ev_entry e) (ev_actor e) (ev_at_unix_ms e)
    outcome placement anchor (ev_reason e).

Definition is_marked (c : Change) : bool := match c with Marked _ _ _ => true | _ => false end.

(** ** The replay *)

Fixpoint replay_events (events : list Event) (entries : list Entry) (recent : list Recent)
    : option (list Entry * list Recent) :=
  match events with
  | [] => Some (entries, recent)
  | e :: events' =>
      match apply_event entries e with
      | None => None
      | Some (applied, entries) =>
          let recent :=
            if applied && negb (is_marked (ev_change e)) then recent ++ [recent_record e]
            else recent in
          replay_events events' entries recent
      end
  end.

Definition number_entries (entries : list Entry) : list Entry :=
  imap (λ index en, at_position (index + 1) en) entries.

Definition in_graph_time (events : list Event) : list Event :=
  sort_by (zkey_leb ev_at_unix_ms) events.

Definition replay (events : list Event) (recent_limit : nat) : option Replayed :=
  match replay_events (in_graph_time events) [] [] with
  | None => None
  | Some (entries, recent) =>
      Some (mkReplayed (number_entries entries) (take recent_limit (reverse recent)))
  end.

Definition subject (run name : string) : string :=
  "lane/" +:+ default run (strip_prefix "mission-run/" run) +:+ "/" +:+ name.

Definition short_entry (prefix : option string) (entry : string) : string :=
  match prefix with
  | Some prefix =>
      match strip_prefix prefix entry with
      | Some rest => if str_eqb rest "" then entry else rest
      | None => entry
      end
  | None => entry
  end.

Definition entry_subject (prefix : option string) (argument : string) : string :=
  let argument := trim argument in
  let short := default argument (strip_prefix "#" argument) in
  match prefix with
  | Some prefix =>
      if negb (str_eqb short "") && negb (starts_with prefix short) && negb (contains_char "/" short)
      then prefix +:+ short else argument
  | None => argument
  end.

(** ** The reference for one entry

    What the claims that name an entry make of it, one at a time. *)
Definition track (name : string) (current : option Entry) (e : Event) : option Entry :=
  if negb (str_eqb (ev_entry e) name) then current
  else match ev_change e, current with
  | Joined, None => Some (joined_entry e)
  | Left _, Some _ => None
  | Marked state detail head, Some en => Some (mark_entry e state detail head en)
  | Approved, Some en => Some (approve_entry e en)
  | _, _ => current
  end.

Definition names (entries : list Entry) : list string := map en_entry entries.

#[export] Instance names_proper : Proper ((≡ₚ) ==> (≡ₚ)) names.
Proof. intros l l' Hp. by apply Permutation_map. Qed.

Definition entry_named (name : string) (entries : list Entry) : option Entry :=
  List.find (named en_entry name) entries.

(** *** Looking an entry up by name in a lane without repeats *)

Lemma entry_named_Some name entries en :
  NoDup (names entries) →
  entry_named name entries = Some en ↔ en ∈ entries ∧ en_entry en = name.
Proof.
  intros Hnd. unfold entry_named. split.
  - intros [Hin Hn]%find_Some_elem. by apply str_eqb_true in Hn.
  - intros [Hin Hn]. destruct (List.find _ _) as [x|] eqn:E.
    + apply find_Some_elem in E as [Hx Hxn]. apply str_eqb_true in Hxn. f_equal.
      apply list_elem_of_lookup in Hx as [i Hi], Hin as [j Hj].
      assert (i = j) as ->; [|congruence].
      apply (NoDup_lookup (names entries) i j (en_entry x)); [done|unfold names..];
        rewrite list_lookup_fmap, ?Hi, ?Hj; simpl; congruence.
    + eapply find_None_elem in E; [|done]. apply str_eqb_false in E. done.
Qed.

Lemma entry_named_None name entries : entry_named name entries = None ↔ name ∉ names entries.
Proof.
  unfold entry_named. split.
  - intros Hf (en & -> & Hin)%list_elem_of_fmap. eapply find_None_elem in Hf; [|done].
    by apply str_eqb_false in Hf.
  - intros Hn. destruct (List.find _ _) as [x|] eqn:E; [|done].
    apply find_Some_elem in E as [Hx Hxn]. apply str_eqb_true in Hxn. exfalso. apply Hn.
    apply list_elem_of_fmap. exists x. done.
Qed.

Lemma entry_named_perm name l l' :
  NoDup (names l) → l ≡ₚ l' → entry_named name l = entry_named name l'.
Proof.
  intros Hnd Hp. assert (Hnd' : NoDup (names l')) by by rewrite <- Hp.
  destruct (entry_named name l) as [en|] eqn:E.
  - apply entry_named_Some in E as [? ?]; [|done]. symmetry. apply entry_named_Some; [done|].
    by rewrite <- Hp.
  - apply entry_named_None in E. symmetry. apply entry_named_None. by rewrite <- Hp.
Qed.

Lemma entry_named_middle name pre x post :
  NoDup (names (pre ++ x :: post)) →
  entry_named name (pre ++ x :: post) =
    if str_eqb (en_entry x) name then Some x else entry_named name (pre ++ post).
Proof.
  intros Hnd. rewrite (entry_named_perm name _ (x :: pre ++ post));
    [done|done|by rewrite Permutation_middle].
Qed.

Lemma entry_named_absent name pre x post :
  NoDup (names (pre ++ x :: post)) → en_entry x = name → entry_named name (pre ++ post) = None.
Proof.
  intros Hnd <-. apply entry_named_None. unfold names in *.
  rewrite map_app in *. simpl in Hnd. rewrite <- Permutation_middle in Hnd.
  by apply NoDup_cons in Hnd as [? _].
Qed.

(** *** One event *)

(** Where the event's entry is, when it is in the lane. *)
Lemma position_entry name entries i :
  position (named en_entry name) entries = Some i →
  ∃ x, entries !! i = Some x ∧ en_entry x = name ∧
       entries = take i entries ++ x :: drop (S i) entries.
Proof.
  intros (x & Hx & Hn & _)%position_Some. apply str_eqb_true in Hn.
  exists x. split_and!; [done..|]. by rewrite take_drop_middle.
Qed.

Lemma position_absent name entries :
  position (named en_entry name) entries = None → name ∉ names entries.
Proof.
  intros Hp. rewrite <- entry_named_None. unfold entry_named.
  destruct (List.find _ _) as [x|] eqn:E; [|done]. apply find_Some_elem in E as [Hx Hn].
  rewrite position_None in Hp. by rewrite (Hp x Hx) in Hn.
Qed.

(** An event in place keeps its entry's name and everything else. *)
Lemma update_middle f pre x post name :
  en_entry (f x) = en_entry x → NoDup (names (pre ++ x :: post)) →
  NoDup (names (pre ++ f x :: post)) ∧
  entry_named name (pre ++ f x :: post) =
    if str_eqb (en_entry x) name then Some (f x) else entry_named name (pre ++ x :: post).
Proof.
  intros Hf Hnd.
  assert (Hnd' : NoDup (names (pre ++ f x :: post))).
  { unfold names in *. rewrite map_app in *. simpl in *. by rewrite Hf. }
  split; [done|]. rewrite !entry_named_middle, Hf by done. by destruct (str_eqb _ name).
Qed.

(** What [apply_event] must give: no panic, no repeats, and every entry as [track] has it. *)
Definition event_ok (entries : list Entry) (e : Event) : Prop :=
  ∃ applied entries', apply_event entries e = Some (applied, entries') ∧
    NoDup (names entries') ∧
    ∀ name, entry_named name entries' = track name (entry_named name entries) e.

Lemma event_absent_ok entries e :
  NoDup (names entries) → position (named en_entry (ev_entry e)) entries = None → event_ok entries e.
Proof.
  intros Hnd Hp. unfold event_ok, apply_event, track. rewrite Hp. apply position_absent in Hp.
  assert (Hnone : entry_named (ev_entry e) entries = None) by by apply entry_named_None.
  destruct (ev_change e) as [|outcome|placement anchor|state detail hd|].
  2-5: exists false, entries; split_and!; [done..|]; intros name;
       destruct (str_eqb (ev_entry e) name) eqn:E; [|done]; str_cases; subst name; simpl;
       by rewrite Hnone.
  eexists true, _. split; [done|].
  assert (Hnd' : NoDup (names (entries ++ [joined_entry e]))).
  { rewrite <- Permutation_middle, app_nil_r. by apply NoDup_cons. }
  split; [done|]. intros name. rewrite entry_named_middle, app_nil_r by done. simpl.
  destruct (str_eqb (ev_entry e) name) eqn:E; [|done]. str_cases. subst name. by rewrite Hnone.
Qed.

Lemma update_at_ok i f entries x :
  NoDup (names entries) → entries !! i = Some x → (∀ en, en_entry (f en) = en_entry en) →
  ∃ l, update_at i f entries = Some l ∧ NoDup (names l) ∧
    ∀ name, entry_named name l =
      if str_eqb (en_entry x) name then Some (f x) else entry_named name entries.
Proof.
  intros Hnd Hx Hf. unfold update_at. rewrite Hx. eexists. split; [done|].
  rewrite (insert_take_drop entries i (f x)) by by eapply lookup_lt_Some.
  rewrite <- (take_drop_middle entries i x Hx) in Hnd.
  split; [by apply (update_middle f _ x _ "")|].
  intros name. rewrite <- (take_drop_middle entries i x Hx) at 3. by apply update_middle.
Qed.

Lemma event_present_ok entries e i :
  NoDup (names entries) → position (named en_entry (ev_entry e)) entries = Some i →
  event_ok entries e.
Proof.
  intros Hnd Hp. unfold event_ok, apply_event, track. rewrite Hp.
  destruct (position_entry _ _ _ Hp) as (x & Hx & Hn & Hs).
  assert (Hnd' := Hnd). rewrite Hs in Hnd'.
  assert (Hlook : ∀ name, entry_named name entries =
            if str_eqb (ev_entry e) name then Some x
            else entry_named name (take i entries ++ drop (S i) entries)).
  { intros name. rewrite Hs at 1. rewrite <- Hn. by apply entry_named_middle. }
  destruct (ev_change e) as [|outcome|placement anchor|state detail hd|].
  - exists false, entries. split_and!; [done..|]. intros name.
    rewrite Hlook. by destruct (str_eqb (ev_entry e) name).
  - rewrite (vec_remove_Some i entries x Hx). eexists _, _. split; [done|]. simpl.
    split; [rewrite <- Permutation_middle in Hnd'; by apply NoDup_cons in Hnd' as [_ ?]|].
    intros name. rewrite Hlook. destruct (str_eqb (ev_entry e) name) eqn:E; [|done].
    str_cases. by eapply entry_named_absent; [exact Hnd'|congruence].
  - unfold move_entry. rewrite Hx. destruct (checked_anchor _ _ _ _ _) as [a|] eqn:Ha.
    + destruct (relocate_spec en_entry i x placement a anchor entries Hx Ha) as (l' & -> & Hrel).
      apply relocated_perm in Hrel. eexists _, l'. split; [done|]. split; [by rewrite Hrel|].
      intros name. rewrite (entry_named_perm name l' entries) by (try done; by rewrite Hrel).
      rewrite Hlook. by destruct (str_eqb (ev_entry e) name).
    + exists false, entries. split_and!; [done..|]. intros name.
      rewrite Hlook. by destruct (str_eqb (ev_entry e) name).
  - destruct (update_at_ok i (mark_entry e state detail hd) entries x) as (l & -> & Hndl & Hl);
      [done..|]. eexists _, l. split_and!; [done..|]. intros name. rewrite Hl, Hlook, Hn.
    by destruct (str_eqb (ev_entry e) name).
  - destruct (update_at_ok i (approve_entry e) entries x) as (l & -> & Hndl & Hl);
      [done..|]. eexists _, l. split_and!; [done..|]. intros name. rewrite Hl, Hlook, Hn.
    by destruct (str_eqb (ev_entry e) name).
Qed.

Lemma apply_event_ok entries e : NoDup (names entries) → event_ok entries e.
Proof.
  intros Hnd. destruct (position (named en_entry (ev_entry e)) entries) eqn:Hp;
    [by eapply event_present_ok | by apply event_absent_ok].
Qed.

(** *** The whole replay *)

Lemma replay_events_ok events : ∀ entries recent,
  NoDup (names entries) →
  ∃ entries' recent', replay_events events entries recent = Some (entries', recent') ∧
    NoDup (names entries') ∧
    ∀ name, entry_named name entries' = fold_left (track name) events (entry_named name entries).
Proof.
  induction events as [|e events IH]; intros entries recent Hnd; simpl; [eauto|].
  destruct (apply_event_ok entries e Hnd) as (applied & entries1 & -> & Hnd1 & Htrack).
  destruct (IH entries1 (if applied && negb (is_marked (ev_change e)) then recent ++ [recent_record e]
                         else recent) Hnd1) as (entries' & recent' & -> & Hnd' & Hfold).
  exists entries', recent'. split_and!; [done..|]. intros name. by rewrite Hfold, Htrack.
Qed.

Lemma names_number entries : names (number_entries entries) = names entries.
Proof.
  unfold names, number_entries. apply list_eq. intros i.
  rewrite !list_lookup_fmap, list_lookup_imap. by destruct (entries !! i).
Qed.

Lemma number_entries_lookup entries i en :
  number_entries entries !! i = Some en ↔
  ∃ en', entries !! i = Some en' ∧ en = at_position (i + 1) en'.
Proof.
  unfold number_entries. rewrite list_lookup_imap.
  destruct (entries !! i) as [en'|]; simpl; naive_solver.
Qed.

(** Rebuilding a lane never panics, whatever claims it holds; no entry is in the lane twice,
    the entries are numbered from 1 in lane order, and the history keeps to its limit. *)
Theorem lane_replay_well_formed events recent_limit :
  ∃ lane, replay events recent_limit = Some lane ∧
    NoDup (names (rp_entries lane)) ∧
    (∀ i en, rp_entries lane !! i = Some en → en_position en = i + 1) ∧
    length (rp_recent lane) ≤ recent_limit.
Proof.
  unfold replay.
  destruct (replay_events_ok (in_graph_time events) [] []) as (entries & recent & -> & Hnd & _);
    [constructor|].
  eexists. split; [done|]. simpl. split_and!.
  - by rewrite names_number.
  - intros i en (en' & _ & ->)%number_entries_lookup. done.
  - rewrite length_take. lia.
Qed.

(** An entry is in the rebuilt lane exactly when its own claims leave it there, in graph time,
    and carries exactly what they say: the join that started its present membership, and the last
    mark and approval since. Claims about other entries, moves included, change nothing of it but
    its position. *)
Theorem lane_entry_follows_its_own_claims events recent_limit name :
  ∃ lane, replay events recent_limit = Some lane ∧
    at_position 0 <$> entry_named name (rp_entries lane) =
    at_position 0 <$> fold_left (track name) (in_graph_time events) None.
Proof.
  unfold replay.
  destruct (replay_events_ok (in_graph_time events) [] []) as (entries & recent & -> & Hnd & Hfold);
    [constructor|].
  eexists. split; [done|]. simpl. change None with (entry_named name []). rewrite <- Hfold.
  destruct (entry_named name entries) as [en|] eqn:E.
  - apply entry_named_Some in E as [[i Hi]%list_elem_of_lookup Hn]; [|done].
    assert (entry_named name (number_entries entries) = Some (at_position (i + 1) en)) as ->; [|done].
    apply entry_named_Some; [by rewrite names_number|]. split; [|done].
    apply list_elem_of_lookup. exists i. apply number_entries_lookup. by exists en.
  - apply entry_named_None in E. rewrite <- names_number in E.
    by apply entry_named_None in E as ->.
Qed.

(** Two replicas that list the same claims show the same lane and the same history, however
    the lists interleave different times: it is enough that claims of one time are listed in the
    same order. *)
Theorem lane_same_on_every_replica events events' recent_limit :
  (∀ t, at_key ev_at_unix_ms t events = at_key ev_at_unix_ms t events') →
  replay events recent_limit = replay events' recent_limit.
Proof.
  intros Ht. unfold replay, in_graph_time. by rewrite (sort_by_at_key_eq ev_at_unix_ms events events' Ht).
Qed.

(** ** Examples *)

Definition lane_event (id : string) (t : Z) (entry : string) (c : Change) : Event :=
  mkEvent id t "agent/driver" entry None c.

Definition lane_events : list Event :=
  [lane_event "c1" 10 "pr/1" Joined; lane_event "c2" 20 "pr/2" Joined;
   lane_event "c3" 30 "pr/2" (Moved Before (Some "pr/1"));
   lane_event "c4" 30 "pr/1" (Marked "ready" None (Some "abc"))].

Definition lane_events_interleaved : list Event :=
  [lane_event "c3" 30 "pr/2" (Moved Before (Some "pr/1"));
   lane_event "c2" 20 "pr/2" Joined;
   lane_event "c4" 30 "pr/1" (Marked "ready" None (Some "abc"));
   lane_event "c1" 10 "pr/1" Joined].

Lemma lane_same_witness :
  replay lane_events 5 = replay lane_events_interleaved 5 ∧
  (names ∘ rp_entries <$> replay lane_events 5) = Some ["pr/2"; "pr/1"].
Proof.
  split; [|reflexivity].
  apply (lane_same_on_every_replica lane_events lane_events_interleaved 5).
  intros t. unfold at_key, lane_events, lane_events_interleaved, lane_event.
  cbn [List.filter ev_at_unix_ms].
  destruct (10 =? t)%Z eqn:E1, (20 =? t)%Z eqn:E2, (30 =? t)%Z eqn:E3; try reflexivity; lia.
Defined.

Lemma entry_subject_example :
  entry_subject (Some "pr/") " #12 " = "pr/12" ∧ entry_subject (Some "pr/") "pr/12" = "pr/12" ∧
  short_entry (Some "pr/") "pr/12" = "12" ∧ subject "mission-run/r1" "merge" = "lane/r1/merge".
Proof. done. Qed.
