(* ===== verification/Suspension.v ===== *)
(** * Suspended seats

    Models [crates/st3/src/suspension.rs]: where a seat's latest suspend or resume stands, derived
    from the claims that record its phases; what keeps a running seat from being suspended; and
    the native session a relaunch continues. The claim store is an interface ([SeatStore]) with
    the queries this code makes; a failed database read is not modelled. *)

From Stdlib Require Import Ascii.
From S2P Require Import Prelude StableSort Text Json Claim.

Definition VERIFY_TIMEOUT_MS : Z := 180000.

Definition suspend_failed_key (request : string) : string := "agent-suspend-failed:" +:+ request.
Definition suspend_snapshot_key (request : string) : string := "agent-suspend-snapshot:" +:+ request.
Definition suspend_completed_key (request : string) : string :=
  "agent-suspend-completed:" +:+ request.
Definition resume_failed_key (request : string) : string := "agent-resume-failed:" +:+ request.
Definition resume_started_key (request : string) : string := "agent-resume-started:" +:+ request.
Definition resume_completed_key (request : string) : string :=
  "agent-resume-completed:" +:+ request.
Definition continue_unavailable_key (subject session : string) : string :=
  "native-continue-unavailable:" +:+ subject +:+ ":" +:+ session.

Record Suspension := mkSuspension {
  su_action : string;
  su_phase : string;
  su_operation_id : string;
  su_requested_by : option string;
  su_suspend_operation_id : option string;
  su_harness : option string;
  su_native_session_id : option string;
  su_incarnation_id : option string;
  su_suspended_at_unix_ms : option Z;
  su_code : option string;
  su_reason : option string;
  su_blocking : list string;
  su_updated_at_unix_ms : Z;
  su_requested_at_unix_ms : Z
}.

Definition holds_seat (self : Suspension) : bool :=
  existsb (str_eqb (su_phase self))
    ["quiescing"; "snapshotting"; "suspended"; "restoring"; "verifying"].

Record WorkStep := mkWorkStep { ws_claimant : option string; ws_status : string }.

(** The store as this code reads it. *)
Class SeatStore `{NumberApi} := {
  claims_for : string → string → list ClaimRecord;
  operation_claim : string → option ClaimRecord;
  selected_desired_kind : string → option string;
  launch_lineage : string → list string;
  latest_observation : string → string → option ClaimRecord;
  work_for_reconcile : string → list WorkStep;
  open_subagents : string → list string
}.

Section suspension.
Context `{NumberApi}.

Definition claim_fields (claim : ClaimRecord) : Value :=
  default (cr_body claim) (get "fields" (cr_body claim)).

Definition field (name : string) (claim : ClaimRecord) : option string :=
  match get name (claim_fields claim) with Some v => as_str v | None => None end.

Definition action (claim : ClaimRecord) : option string := field "action" claim.

Definition evidence (index : nat) (claim : ClaimRecord) : option string :=
  match get "evidence" (cr_body claim) with
  | Some evidence => match get_index index evidence with Some v => as_str v | None => None end
  | None => None
  end.

Context `{!SeatStore}.

Definition requests (subject : string) : list ClaimRecord :=
  List.filter (λ claim, is_some (cr_actor claim)
                        && (ostr_eqb (action claim) (Some "suspend")
                            || ostr_eqb (action claim) (Some "resume")))
    (claims_for subject "runtime.action.requested").

Definition apply_failure (state : Suspension) (claim : ClaimRecord) : Suspension :=
  let blocking :=
    match get "fields" (cr_body claim) with
    | Some fields =>
        match get "blocking" fields with
        | Some items => match as_array items with Some l => omap as_str l | None => [] end
        | None => []
        end
    | None => []
    end in
  mkSuspension (su_action state) (su_phase state) (su_operation_id state) (su_requested_by state)
    (su_suspend_operation_id state) (su_harness state) (su_native_session_id state)
    (su_incarnation_id state) (su_suspended_at_unix_ms state) (field "code" claim)
    (field "reason" claim) blocking (cr_accepted_at_unix_ms claim) (su_requested_at_unix_ms state).

Definition set_phase (phase : string) (s : Suspension) : Suspension :=
  mkSuspension (su_action s) phase (su_operation_id s) (su_requested_by s)
    (su_suspend_operation_id s) (su_harness s) (su_native_session_id s) (su_incarnation_id s)
    (su_suspended_at_unix_ms s) (su_code s) (su_reason s) (su_blocking s)
    (su_updated_at_unix_ms s) (su_requested_at_unix_ms s).

Definition set_updated (at_ms : Z) (s : Suspension) : Suspension :=
  mkSuspension (su_action s) (su_phase s) (su_operation_id s) (su_requested_by s)
    (su_suspend_operation_id s) (su_harness s) (su_native_session_id s) (su_incarnation_id s)
    (su_suspended_at_unix_ms s) (su_code s) (su_reason s) (su_blocking s)
    at_ms (su_requested_at_unix_ms s).

Definition suspend_state (request : ClaimRecord) : Suspension :=
  let at_ms := cr_accepted_at_unix_ms request in
  let state :=
    mkSuspension "suspend" "quiescing" (cr_id request) (cr_actor request) (Some (cr_id request))
      None None (field "incarnation_id" request) None None None [] at_ms at_ms in
  match operation_claim (suspend_failed_key (cr_id request)) with
  | Some failed => apply_failure (set_phase "failed" state) failed
  | None =>
      let state :=
        match operation_claim (suspend_snapshot_key (cr_id request)) with
        | Some snapshot =>
            mkSuspension "suspend" "snapshotting" (su_operation_id state) (su_requested_by state)
              (su_suspend_operation_id state) (field "harness" snapshot)
              (field "native_session_id" snapshot) (su_incarnation_id state) None None None []
              (cr_accepted_at_unix_ms snapshot) at_ms
        | None => state
        end in
      match operation_claim (suspend_completed_key (cr_id request)) with
      | Some completed =>
          mkSuspension "suspend" "suspended" (su_operation_id state) (su_requested_by state)
            (su_suspend_operation_id state) (su_harness state) (su_native_session_id state)
            (su_incarnation_id state) (Some (cr_accepted_at_unix_ms completed)) None None []
            (cr_accepted_at_unix_ms completed) at_ms
      | None => state
      end
  end.

(** The resume part of [current], on the state of the suspend it names. *)
Definition resume_state (state : Suspension) (request : ClaimRecord) : Suspension :=
  let at_ms := cr_accepted_at_unix_ms request in
  let state :=
    mkSuspension "resume" "restoring" (cr_id request) (cr_actor request)
      (su_suspend_operation_id state) (su_harness state) (su_native_session_id state)
      (su_incarnation_id state) (su_suspended_at_unix_ms state) (su_code state) (su_reason state)
      (su_blocking state) at_ms at_ms in
  match operation_claim (resume_failed_key (cr_id request)) with
  | Some failed => apply_failure (set_phase "suspended" state) failed
  | None =>
      let state :=
        match operation_claim (resume_started_key (cr_id request)) with
        | Some started =>
            set_updated (cr_accepted_at_unix_ms started) (set_phase "verifying" state)
        | None => state
        end in
      match operation_claim (resume_completed_key (cr_id request)) with
      | Some completed =>
          mkSuspension (su_action state) "resumed" (su_operation_id state) (su_requested_by state)
            (su_suspend_operation_id state) (su_harness state) (su_native_session_id state)
            (field "incarnation_id" completed) (su_suspended_at_unix_ms state) (su_code state)
            (su_reason state) (su_blocking state) (cr_accepted_at_unix_ms completed)
            (su_requested_at_unix_ms state)
      | None => state
      end
  end.

Definition current (subject : string) : option Suspension :=
  match last (requests subject) with
  | None => None
  | Some request =>
      if negb (ostr_eqb (selected_desired_kind subject) (Some "agent")) then None
      else if negb (is_some_and (evidence 0 request)
                      (λ token, existsb (str_eqb token) (launch_lineage subject))) then None
      else if ostr_eqb (action request) (Some "suspend") then Some (suspend_state request)
      else
        match (match evidence 1 request with
               | Some id => List.find (λ claim, str_eqb (cr_id claim) id) (requests subject)
               | None => None
               end) with
        | None => None
        | Some suspend =>
            let state := suspend_state suspend in
            if negb (str_eqb (su_phase state) "suspended") then None
            else Some (resume_state state request)
        end
  end.

Definition bound_session (subject incarnation : string) : option (string * string) :=
  match List.find (λ claim, ostr_eqb (field "incarnation_id" claim) (Some incarnation))
          (reverse (claims_for subject "harness.session-file")) with
  | None => None
  | Some claim =>
      match field "harness" claim, field "session_id" claim with
      | Some harness, Some session => Some (harness, session)
      | _, _ => None
      end
  end.

Definition continue_session (subject harness : string) (account : option string)
    : option (string * option string) :=
  match List.find (λ claim, ostr_eqb (field "harness" claim) (Some harness))
          (reverse (claims_for subject "harness.session-file")) with
  | None => None
  | Some bound =>
      if negb (ostr_eqb (field "account_ref" bound) account) then None
      else match field "session_id" bound with
      | None => None
      | Some session =>
          let fresh_since :=
            existsb (λ claim, (cr_store_index bound <? cr_store_index claim)%Z
                              && ostr_eqb (field "action" claim) (Some "fresh-context"))
              (claims_for subject "runtime.action.requested") in
          let refused := is_some (operation_claim (continue_unavailable_key subject session)) in
          if fresh_since || refused then None else Some (session, field "path" bound)
      end
  end.

(** The blockers a driver's report gives: the [match harness] of [blockers]. *)
Definition reported_blockers (fields : Value) : list string :=
  match (match get "quiescent" fields with Some v => as_bool v | None => None end) with
  | Some true => []
  | Some false =>
      let reported :=
        match get "blocking" fields with
        | Some v => match as_array v with Some l => omap as_str l | None => [] end
        | None => []
        end in
      (if bool_decide (reported = []) then ["harness-busy"] else []) ++ reported
  | None => ["quiescence-unreported"]
  end.

Definition observed (subject incarnation : string) : option ClaimRecord :=
  match latest_observation subject "harness.observed" with
  | Some claim =>
      if ostr_eqb (field "incarnation_id" claim) (Some incarnation) then Some claim else None
  | None => None
  end.

Definition holds_work (subject : string) : bool :=
  existsb (λ step, ostr_eqb (ws_claimant step) (Some subject)
                   && existsb (str_eqb (ws_status step)) ["claimed"; "working"; "verifying"])
    (work_for_reconcile subject).

Definition blockers (subject incarnation : string) : list string :=
  let blocking :=
    match observed subject incarnation with
    | None => ["harness-unobserved"]
    | Some claim => reported_blockers (claim_fields claim)
    end in
  let blocking := if holds_work subject then blocking ++ ["claimed-work"] else blocking in
  let blocking :=
    if negb (bool_decide (open_subagents subject = [])) then blocking ++ ["subagent-running"]
    else blocking in
  let blocking :=
    if is_none (bound_session subject incarnation) then blocking ++ ["native-session-unbound"]
    else blocking in
  sort_dedup blocking.

Definition harness_quiescence (state blocked_on ask input_buffer : string)
    : bool * list string :=
  let blocking :=
    if str_eqb state "idle" || str_eqb state "ready" then []
    else if str_eqb state "working" then ["turn-in-flight"]
    else if str_eqb state "starting" then ["starting"]
    else ["harness-indeterminate"] in
  let blocking :=
    if str_eqb blocked_on "human" || negb (existsb (str_eqb ask) [""; "none"; "unknown"])
    then blocking ++ ["pending-ask"] else blocking in
  let blocking :=
    if str_eqb input_buffer "nonempty" then blocking ++ ["unsent-input"] else blocking in
  (bool_decide (blocking = []), blocking).

Definition annotate_quiescence (fields : gmap string Value) : gmap string Value :=
  let text name := match fields !! name with Some v => default "" (as_str v) | None => "" end in
  let (quiescent, blocking) :=
    harness_quiescence (text "state") (text "blocked_on") (text "ask") (text "input_buffer") in
  <["blocking" := Array (map Str blocking)]> (<["quiescent" := Bool quiescent]> fields).

(** ** Phases *)

Lemma suspend_state_phase request :
  su_operation_id (suspend_state request) = cr_id request ∧
  su_action (suspend_state request) = "suspend" ∧
  su_phase (suspend_state request) =
    if is_some (operation_claim (suspend_failed_key (cr_id request))) then "failed"
    else if is_some (operation_claim (suspend_completed_key (cr_id request))) then "suspended"
    else if is_some (operation_claim (suspend_snapshot_key (cr_id request))) then "snapshotting"
    else "quiescing".
Proof. unfold suspend_state. repeat case_match; done. Qed.

Lemma resume_state_phase state request :
  su_operation_id (resume_state state request) = cr_id request ∧
  su_action (resume_state state request) = "resume" ∧
  su_phase (resume_state state request) =
    if is_some (operation_claim (resume_failed_key (cr_id request))) then "suspended"
    else if is_some (operation_claim (resume_completed_key (cr_id request))) then "resumed"
    else if is_some (operation_claim (resume_started_key (cr_id request))) then "verifying"
    else "restoring".
Proof. unfold resume_state. repeat case_match; done. Qed.

Lemma resume_state_snapshot state request :
  su_harness (resume_state state request) = su_harness state ∧
  su_native_session_id (resume_state state request) = su_native_session_id state ∧
  su_suspend_operation_id (resume_state state request) = su_suspend_operation_id state ∧
  su_suspended_at_unix_ms (resume_state state request) = su_suspended_at_unix_ms state.
Proof. unfold resume_state. repeat case_match; done. Qed.

(** A suspension that applies belongs to the latest request, and is that suspend's state or the
    resume of a suspend that had completed. *)
Lemma current_cases subject state :
  current subject = Some state →
  ∃ request, last (requests subject) = Some request ∧
    ((action request = Some "suspend" ∧ state = suspend_state request) ∨
     (action request = Some "resume" ∧ ∃ suspend, suspend ∈ requests subject ∧
        su_phase (suspend_state suspend) = "suspended" ∧
        state = resume_state (suspend_state suspend) request)).
Proof.
  unfold current. destruct (last (requests subject)) as [request|] eqn:Hlast; [|done].
  destruct (negb (ostr_eqb (selected_desired_kind subject) _)); [done|].
  destruct (negb (is_some_and _ _)); [done|].
  destruct (ostr_eqb (action request) (Some "suspend")) eqn:Ha; str_cases.
  { intros [= <-]. exists request. split; [done|]. by left. }
  assert (Har : action request = Some "resume").
  { apply last_Some_elem_of in Hlast. unfold requests in Hlast.
    apply lfilter_elem in Hlast as [_ Hf]. apply andb_true_iff in Hf as [_ Hf].
    apply orb_true_iff in Hf as [Hf|Hf]; by apply ostr_eqb_true in Hf. }
  destruct (evidence 1 request) as [id|]; [|done].
  destruct (List.find _ _) as [suspend|] eqn:Hfind; [|done].
  apply find_Some_elem in Hfind as [Hin _].
  destruct (str_eqb (su_phase (suspend_state suspend)) "suspended") eqn:Hp; [|done]. str_cases.
  intros [= <-]. exists request. split; [done|]. right. split; [done|]. by exists suspend.
Qed.

(** A suspension holds its seat, so nothing else may start it, from the request until it
    ends, and it ends in one of two ways only: the latest request is a suspend that was refused
    (the seat keeps running), or a resume that completed and did not fail. *)
Theorem seat_is_held_until_refused_or_resumed subject state :
  current subject = Some state →
  ∃ request, last (requests subject) = Some request ∧ su_operation_id state = cr_id request ∧
    (holds_seat state = false ↔
     (action request = Some "suspend" ∧
        is_some (operation_claim (suspend_failed_key (cr_id request))) = true) ∨
     (action request = Some "resume" ∧
        is_some (operation_claim (resume_failed_key (cr_id request))) = false ∧
        is_some (operation_claim (resume_completed_key (cr_id request))) = true)).
Proof.
  intros (request & Hlast & [[Ha ->]|[Ha (suspend & Hin & Hp & ->)]])%current_cases;
    exists request; split; try done; unfold holds_seat.
  - destruct (suspend_state_phase request) as (-> & _ & ->). split; [done|]. rewrite Ha.
    destruct (is_some (operation_claim (suspend_failed_key (cr_id request)))),
      (is_some (operation_claim (suspend_completed_key (cr_id request)))),
      (is_some (operation_claim (suspend_snapshot_key (cr_id request)))); simpl; naive_solver.
  - destruct (resume_state_phase (suspend_state suspend) request) as (-> & _ & ->).
    split; [done|]. rewrite Ha.
    destruct (is_some (operation_claim (resume_failed_key (cr_id request)))),
      (is_some (operation_claim (resume_completed_key (cr_id request)))),
      (is_some (operation_claim (resume_started_key (cr_id request)))); simpl; naive_solver.
Qed.

(** A resume, at every phase, is of a suspend that had completed, and carries that suspend's
    own snapshot: its harness, its native session and when it was taken. A resume that failed
    leaves the seat suspended on it. *)
Theorem resume_keeps_the_suspended_snapshot subject state :
  current subject = Some state → su_action state = "resume" →
  ∃ suspend, suspend ∈ requests subject ∧
    su_phase (suspend_state suspend) = "suspended" ∧
    su_suspend_operation_id state = Some (cr_id suspend) ∧
    su_harness state = su_harness (suspend_state suspend) ∧
    su_native_session_id state = su_native_session_id (suspend_state suspend) ∧
    is_some (su_suspended_at_unix_ms state) = true ∧
    (is_some (operation_claim (resume_failed_key (su_operation_id state))) = true →
     su_phase state = "suspended" ∧ holds_seat state = true).
Proof.
  intros (request & Hlast & [[Ha ->]|[Ha (suspend & Hin & Hp & ->)]])%current_cases Hact.
  { destruct (suspend_state_phase request) as (_ & E & _). congruence. }
  exists suspend. destruct (resume_state_snapshot (suspend_state suspend) request)
    as (-> & -> & -> & ->). split_and!; [done|done| |done|done| |].
  - unfold suspend_state. repeat case_match; done.
  - revert Hp. unfold suspend_state. repeat case_match; done.
  - unfold holds_seat. destruct (resume_state_phase (suspend_state suspend) request)
      as (-> & _ & ->). by intros ->.
Qed.

(** ** Quiescence *)

Lemma if_push_nil (b : bool) (l : list string) x :
  (if b then l ++ [x] else l) = [] ↔ b = false ∧ l = [].
Proof. destruct b; [|naive_solver]. split; [by intros [_ ?]%app_nil | naive_solver]. Qed.

Lemma blockers_nil subject incarnation :
  blockers subject incarnation = [] ↔
  (∃ claim, observed subject incarnation = Some claim ∧ reported_blockers (claim_fields claim) = [])
  ∧ holds_work subject = false ∧ open_subagents subject = []
  ∧ is_some (bound_session subject incarnation) = true.
Proof.
  unfold blockers. rewrite sort_dedup_nil. unfold is_none.
  rewrite !if_push_nil, !negb_false_iff, bool_decide_eq_true.
  destruct (observed subject incarnation) as [claim|]; naive_solver.
Qed.

Lemma reported_blockers_nil fields :
  reported_blockers fields = [] ↔ get "quiescent" fields = Some (Bool true).
Proof.
  unfold reported_blockers. destruct (get "quiescent" fields) as [[| [] | | | |]|]; simpl; try done.
  split; [|done]. case_bool_decide as E; [done|]. simpl. intros. done.
Qed.

(** A running seat may be suspended exactly when its driver's latest report for that
    incarnation says it is quiescent, the seat holds no claimed step, no subagent is open, and
    the driver bound a native session for the incarnation; otherwise the blockers are listed
    once each, in order. *)
Theorem suspend_allowed_exactly_when_quiet subject incarnation :
  (blockers subject incarnation = [] ↔
   (∃ claim, latest_observation subject "harness.observed" = Some claim ∧
      field "incarnation_id" claim = Some incarnation ∧
      get "quiescent" (claim_fields claim) = Some (Bool true)) ∧
   (∀ step, step ∈ work_for_reconcile subject → ws_claimant step = Some subject →
      ws_status step ∉ ["claimed"; "working"; "verifying"]) ∧
   open_subagents subject = [] ∧
   ∃ session, bound_session subject incarnation = Some session) ∧
  StronglySorted (λ a b, String.leb a b = true ∧ a ≠ b) (blockers subject incarnation).
Proof.
  split; [|apply sort_dedup_strict]. rewrite blockers_nil. setoid_rewrite reported_blockers_nil.
  assert (Hobs : ∀ claim, observed subject incarnation = Some claim ↔
    latest_observation subject "harness.observed" = Some claim ∧
    field "incarnation_id" claim = Some incarnation).
  { intros claim. unfold observed. destruct (latest_observation _ _) as [c|]; [|naive_solver].
    destruct (ostr_eqb _ _) eqn:E; str_cases; naive_solver. }
  setoid_rewrite Hobs.
  assert (Hwork : holds_work subject = false ↔
    ∀ step, step ∈ work_for_reconcile subject → ws_claimant step = Some subject →
      ws_status step ∉ ["claimed"; "working"; "verifying"]).
  { unfold holds_work. rewrite existsb_false_elem. apply forall_proper. intros step.
    destruct (ostr_eqb (ws_claimant step) (Some subject)) eqn:E; str_cases; simpl; [|naive_solver].
    rewrite E, !elem_of_cons, elem_of_nil, !orb_false_iff, !str_eqb_false. naive_solver. }
  rewrite Hwork. destruct (bound_session subject incarnation); simpl; naive_solver.
Qed.

Lemma field_get_in_key_order (m : gmap string Value) name :
  field_get name (in_key_order m) = m !! name.
Proof.
  unfold field_get. destruct (List.find _ _) as [[k v]|] eqn:E; simpl.
  - apply find_Some_elem in E as [Hin Hk]. apply in_key_order_elem in Hin.
    apply str_eqb_true in Hk. simpl in Hk. by subst.
  - destruct (m !! name) as [v|] eqn:Hv; [|done]. apply in_key_order_elem in Hv.
    eapply find_None_elem in E; [|done]. simpl in E. by rewrite str_eqb_refl in E.
Qed.

Lemma omap_as_str_Str l : omap as_str (map Str l) = l.
Proof. induction l as [|x l IH]; [done|]. cbn. f_equal. exact IH. Qed.

(** What a driver publishes is what the suspend check reads: the fields annotated with the
    driver's quiescence report are read back as exactly its blocking reasons, and there are none
    exactly when the harness is idle or ready with nothing pending: no person asked for, no open
    question, and no unsent input. *)
Theorem quiescence_report_is_read_back (fields : gmap string Value) :
  let text name := match fields !! name with Some v => default "" (as_str v) | None => "" end in
  reported_blockers (Object (in_key_order (annotate_quiescence fields))) =
    (harness_quiescence (text "state") (text "blocked_on") (text "ask") (text "input_buffer")).2 ∧
  (reported_blockers (Object (in_key_order (annotate_quiescence fields))) = [] ↔
   text "state" ∈ ["idle"; "ready"] ∧ text "blocked_on" ≠ "human" ∧
   text "ask" ∈ [""; "none"; "unknown"] ∧ text "input_buffer" ≠ "nonempty").
Proof.
  intros text.
  assert (Hread : reported_blockers (Object (in_key_order (annotate_quiescence fields))) =
    (harness_quiescence (text "state") (text "blocked_on") (text "ask") (text "input_buffer")).2).
  { unfold annotate_quiescence, text. cbv beta zeta.
    destruct (harness_quiescence _ _ _ _) as [q blocking] eqn:E.
    unfold reported_blockers. cbn [get snd]. rewrite !field_get_in_key_order.
    rewrite lookup_insert_eq, lookup_insert_ne, lookup_insert_eq by done. cbn [as_bool as_array].
    rewrite omap_as_str_Str. unfold harness_quiescence in E. injection E as Eq Eb.
    rewrite <- Eq, Eb. by destruct blocking. }
  split; [exact Hread|]. rewrite Hread. unfold harness_quiescence. cbn [snd].
  rewrite !if_push_nil, !elem_of_cons, !elem_of_nil, orb_false_iff, negb_false_iff, !str_eqb_false.
  generalize (text "state"), (text "blocked_on"), (text "ask"), (text "input_buffer").
  clear. intros state blocked_on ask input_buffer.
  assert (Hask : existsb (str_eqb ask) [""; "none"; "unknown"] = true ↔
                 ask = "" ∨ ask = "none" ∨ ask = "unknown" ∨ False).
  { simpl. rewrite !orb_true_iff, !str_eqb_true. intuition done. }
  rewrite Hask.
  destruct (str_eqb state "idle") eqn:E1, (str_eqb state "ready") eqn:E2; str_cases; simpl;
    [tauto..|]. repeat case_match; intuition congruence.
Qed.

(** A relaunch continues a native session exactly when the last session the seat's driver
    bound on that harness was bound on the same account, no later fresh context was requested,
    and no driver has refused it; it is then that session and its path. A transcript is never
    carried to another account. *)
Theorem continue_session_spec subject harness account session path :
  continue_session subject harness account = Some (session, path) ↔
  ∃ bound,
    List.find (λ claim, ostr_eqb (field "harness" claim) (Some harness))
      (reverse (claims_for subject "harness.session-file")) = Some bound ∧
    field "account_ref" bound = account ∧ field "session_id" bound = Some session ∧
    field "path" bound = path ∧
    (∀ claim, claim ∈ claims_for subject "runtime.action.requested" →
       (cr_store_index bound < cr_store_index claim)%Z →
       field "action" claim ≠ Some "fresh-context") ∧
    operation_claim (continue_unavailable_key subject session) = None.
Proof.
  unfold continue_session. destruct (List.find _ _) as [b|]; [|split; [done | by intros (? & ? & _)]].
  set (spec := λ bound, field "account_ref" bound = account ∧
    field "session_id" bound = Some session ∧ field "path" bound = path ∧
    (∀ claim, claim ∈ claims_for subject "runtime.action.requested" →
       (cr_store_index bound < cr_store_index claim)%Z →
       field "action" claim ≠ Some "fresh-context") ∧
    operation_claim (continue_unavailable_key subject session) = None).
  transitivity (spec b);
    [|split; [intros Hs; exists b; split; [done | exact Hs] | by intros (? & [= <-] & Hs)]].
  unfold spec.
  destruct (ostr_eqb (field "account_ref" b) account) eqn:E1; str_cases; simpl; [|intuition done].
  destruct (field "session_id" b) as [s|]; [|intuition done].
  assert (Hfresh : existsb (λ claim, (cr_store_index b <? cr_store_index claim)%Z
                     && ostr_eqb (field "action" claim) (Some "fresh-context"))
                     (claims_for subject "runtime.action.requested") = false ↔
    ∀ claim, claim ∈ claims_for subject "runtime.action.requested" →
       (cr_store_index b < cr_store_index claim)%Z → field "action" claim ≠ Some "fresh-context").
  { rewrite existsb_false_elem. apply forall_proper. intros claim.
    rewrite andb_false_iff, Z.ltb_ge, ostr_eqb_false.
    destruct (decide (cr_store_index b < cr_store_index claim)%Z); [|naive_solver lia].
    split; [intros H1 H2 _; destruct (H1 H2); [lia|done] | naive_solver]. }
  rewrite <- Hfresh. destruct (existsb _ _); simpl; [intuition done|].
  destruct (decide (s = session)) as [->|Hne]; [|destruct (is_some _); intuition congruence].
  destruct (operation_claim _); simpl; intuition congruence.
Qed.
End suspension.

(** ** Examples

    A seat whose suspend completed and whose resume failed. *)

Definition seat_claim (id : string) (fields : list (string * Value (H := integer_numbers)))
    (evidence : list string) : ClaimRecord (H := integer_numbers) :=
  mkClaimRecord id 1 "batch/1" "agent/a" "runtime.action.requested" "host/n" (Some "person/mara")
    None None (Object [("fields", Object fields); ("evidence", Array (map Str evidence))]) [] 7.

Definition suspend_request := seat_claim "c1" [("action", Str "suspend")] ["launch/1"].
Definition resume_request := seat_claim "c2" [("action", Str "resume")] ["launch/1"; "c1"].

Definition failed_resume_store : SeatStore (H := integer_numbers) := {|
  claims_for _ kind :=
    if str_eqb kind "runtime.action.requested" then [suspend_request; resume_request] else [];
  operation_claim key :=
    if str_eqb key "agent-suspend-snapshot:c1"
    then Some (seat_claim "c3" [("harness", Str "claude"); ("native_session_id", Str "s1")] [])
    else if str_eqb key "agent-suspend-completed:c1" then Some (seat_claim "c4" [] [])
    else if str_eqb key "agent-resume-failed:c2"
    then Some (seat_claim "c5" [("code", Str "native-resume-unavailable")] [])
    else None;
  selected_desired_kind _ := Some "agent";
  launch_lineage _ := ["launch/1"];
  latest_observation _ _ := None;
  work_for_reconcile _ := [];
  open_subagents _ := []
|}.

Definition failed_resume_state : Suspension :=
  mkSuspension "resume" "suspended" "c2" (Some "person/mara") (Some "c1") (Some "claude") (Some "s1")
    None (Some 7%Z) (Some "native-resume-unavailable") None [] 7 7.

Lemma seat_held_witness :
  holds_seat failed_resume_state = true ∧
  ∃ request, last (@requests _ failed_resume_store "agent/a") = Some request ∧
    su_operation_id failed_resume_state = cr_id request ∧
    (holds_seat failed_resume_state = false ↔
     (action request = Some "suspend" ∧
        is_some (@operation_claim _ failed_resume_store (suspend_failed_key (cr_id request))) = true) ∨
     (action request = Some "resume" ∧
        is_some (@operation_claim _ failed_resume_store (resume_failed_key (cr_id request))) = false ∧
        is_some (@operation_claim _ failed_resume_store (resume_completed_key (cr_id request))) = true)).
Proof.
  split; [reflexivity|].
  apply (@seat_is_held_until_refused_or_resumed _ failed_resume_store "agent/a" failed_resume_state).
  reflexivity.
Defined.

Lemma resume_snapshot_witness :
  ∃ suspend, suspend ∈ @requests _ failed_resume_store "agent/a" ∧
    su_phase (@suspend_state _ failed_resume_store suspend) = "suspended" ∧
    su_suspend_operation_id failed_resume_state = Some (cr_id suspend) ∧
    su_harness failed_resume_state = su_harness (@suspend_state _ failed_resume_store suspend) ∧
    su_native_session_id failed_resume_state =
      su_native_session_id (@suspend_state _ failed_resume_store suspend) ∧
    is_some (su_suspended_at_unix_ms failed_resume_state) = true ∧
    (is_some (@operation_claim _ failed_resume_store
                (resume_failed_key (su_operation_id failed_resume_state))) = true →
     su_phase failed_resume_state = "suspended" ∧ holds_seat failed_resume_state = true).
Proof.
  apply (@resume_keeps_the_suspended_snapshot _ failed_resume_store "agent/a" failed_resume_state);
    reflexivity.
Defined.
