(* ===== verification/Touched.v ===== *)
(** * What a piece of work touched

    Models [crates/smallclaims/src/touched.rs]: the per-thread recordings of the subjects work
    reads, the entries it writes, and the time it must run again by. The thread's cells are the
    state, a computation may panic ([None], with the cells as the panic left them), and a [Scope]'s
    [Drop] runs on both ways out. [work] is the code a recording runs, as far as recordings can
    see it; the theorems are about every such program. *)

From S2P Require Import Prelude.

Record Thread := mkThread {
  READS : option (gset string);
  WRITES : Z;
  DUE : option Z;
  WROTE : option (list string)
}.

Definition set_READS (r : option (gset string)) (t : Thread) : Thread :=
  mkThread r (WRITES t) (DUE t) (WROTE t).
Definition set_DUE (d : option Z) (t : Thread) : Thread :=
  mkThread (READS t) (WRITES t) d (WROTE t).
Definition set_WROTE (w : option (list string)) (t : Thread) : Thread :=
  mkThread (READS t) (WRITES t) (DUE t) w.

(** A computation on the thread: its value, or [None] when it panics. *)
Definition comp (A : Type) : Type := Thread → option A * Thread.

Definition ret {A} (a : A) : comp A := λ t, (Some a, t).
Definition panic {A} : comp A := λ t, (None, t).
Definition bind {A B} (m : comp A) (k : A → comp B) : comp B :=
  λ t, match m t with (Some a, t') => k a t' | (None, t') => (None, t') end.

(** ** The notes *)

Definition note_wrote (entry : string) : comp unit := λ t,
  (Some tt, match WROTE t with Some l => set_WROTE (Some (l ++ [entry])) t | None => t end).

Definition wrote_len (t : Thread) : nat := match WROTE t with Some l => length l | None => 0 end.

Definition wrote_since (mark : nat) (t : Thread) : list string :=
  match WROTE t with
  | Some l => if decide (mark ≤ length l) then drop mark l else []
  | None => []
  end.

Definition recording_wrote (t : Thread) : bool := is_some (WROTE t).

Definition note_due (at_ms : Z) : comp unit := λ t,
  (Some tt, set_DUE (Some (match DUE t with Some current => Z.min current at_ms | None => at_ms end)) t).

Definition note_read (key : string) : comp unit := λ t,
  (Some tt, match READS t with Some set => set_READS (Some ({[key]} ∪ set)) t | None => t end).

Definition writes (t : Thread) : Z := WRITES t.

Definition note_writes (rows : Z) : comp unit := λ t,
  (Some tt, if (0 <? rows)%Z
            then mkThread (READS t) (sat_add64 (WRITES t) rows) (DUE t) (WROTE t) else t).

(** ** The recordings *)

(** [record_wrote]'s [Scope::drop]. *)
Definition close_wrote (outer : option (list string)) (t : Thread) : Thread :=
  let inner := default [] (WROTE t) in
  set_WROTE ((λ outer, outer ++ inner) <$> outer) t.

Definition record_wrote {A} (work : comp A) : comp (A * list string) := λ t,
  let outer := WROTE t in
  match work (set_WROTE (Some []) t) with
  | (Some result, t) => (Some (result, default [] (WROTE t)), close_wrote outer t)
  | (None, t) => (None, close_wrote outer t)
  end.

(** [record]'s [Scope::drop]. *)
Definition close_reads (outer : option (gset string)) (t : Thread) : Thread :=
  let inner := default ∅ (READS t) in
  set_READS ((λ outer, outer ∪ inner) <$> outer) t.

Definition record {A} (work : comp A) : comp (A * gset string) := λ t,
  let outer := READS t in
  match work (set_READS (Some ∅) t) with
  | (Some result, t) => (Some (result, default ∅ (READS t)), close_reads outer t)
  | (None, t) => (None, close_reads outer t)
  end.

(** [record_due] has no scope: a panic leaves the cell as the work left it. *)
Definition record_due {A} (work : comp A) : comp (A * option Z) := λ t,
  let outer := DUE t in
  match work (set_DUE None t) with
  | (Some result, t) =>
      let inner := DUE t in
      let t := set_DUE outer t in
      let t := match inner, outer with Some at_ms, Some _ => (note_due at_ms t).2 | _, _ => t end in
      (Some (result, inner), t)
  | (None, t) => (None, t)
  end.

(** ** Work *)

Inductive work :=
| Return
| Panic
| NoteRead (key : string)
| NoteWrote (entry : string)
| NoteDue (at_ms : Z)
| NoteWrites (rows : Z)
| Then (first second : work)
| Record (inner : work)
| RecordWrote (inner : work)
| RecordDue (inner : work)
| Caught (inner : work).

Definition discard {A} (m : comp A) : comp unit := bind m (λ _, ret tt).

(** [catch_unwind] around a piece of work. *)
Definition caught (m : comp unit) : comp unit := λ t, (Some tt, (m t).2).

Fixpoint run (w : work) : comp unit :=
  match w with
  | Return => ret tt
  | Panic => panic
  | NoteRead key => note_read key
  | NoteWrote entry => note_wrote entry
  | NoteDue at_ms => note_due at_ms
  | NoteWrites rows => note_writes rows
  | Then first second => bind (run first) (λ _, run second)
  | Record inner => discard (record (run inner))
  | RecordWrote inner => discard (record_wrote (run inner))
  | RecordDue inner => discard (record_due (run inner))
  | Caught inner => caught (run inner)
  end.

(** Whether a piece of work panics, and what it reads, writes and is due by up to then, however
    it is recorded. *)
Fixpoint panics (w : work) : bool :=
  match w with
  | Panic => true
  | Then first second => panics first || panics second
  | Record inner | RecordWrote inner | RecordDue inner => panics inner
  | _ => false
  end.

Fixpoint touched_reads (w : work) : gset string :=
  match w with
  | NoteRead key => {[key]}
  | Then first second =>
      touched_reads first ∪ (if panics first then ∅ else touched_reads second)
  | Record inner | RecordWrote inner | RecordDue inner | Caught inner => touched_reads inner
  | _ => ∅
  end.

Fixpoint touched_writes (w : work) : list string :=
  match w with
  | NoteWrote entry => [entry]
  | Then first second =>
      touched_writes first ++ (if panics first then [] else touched_writes second)
  | Record inner | RecordWrote inner | RecordDue inner | Caught inner => touched_writes inner
  | _ => []
  end.

Fixpoint touched_due (w : work) : list Z :=
  match w with
  | NoteDue at_ms => [at_ms]
  | Then first second => touched_due first ++ (if panics first then [] else touched_due second)
  | Record inner | RecordWrote inner | RecordDue inner | Caught inner => touched_due inner
  | _ => []
  end.

(** The thread's three recordings after a piece of work. *)
Lemma run_spec w : ∀ t,
  (run w t).1 = (if panics w then None else Some tt) ∧
  READS (run w t).2 = (λ s, s ∪ touched_reads w) <$> READS t ∧
  WROTE (run w t).2 = (λ l, l ++ touched_writes w) <$> WROTE t.
Proof.
  assert (Hr : ∀ o : option (gset string), o = (λ s, s ∪ ∅) <$> o).
  { intros [s|]; simpl; [|done]. f_equal. set_solver. }
  assert (Hw : ∀ o : option (list string), o = (λ l, l ++ []) <$> o).
  { intros [l|]; simpl; [|done]. by rewrite app_nil_r. }
  induction w as [| | key | entry | at_ms | rows | w1 IH1 w2 IH2 | w IH | w IH | w IH | w IH]; intros t;
    simpl.
  - auto.
  - auto.
  - unfold note_read. simpl. destruct (READS t) as [s|] eqn:E; simpl; rewrite ?E; split_and!; auto.
    simpl. f_equal. set_solver.
  - unfold note_wrote. destruct (WROTE t) as [l|] eqn:E; simpl; rewrite ?E; auto.
  - auto.
  - unfold note_writes. simpl. destruct (0 <? rows)%Z; auto.
  - unfold bind. destruct (IH1 t) as (H1 & H2 & H3). destruct (run w1 t) as [o t1]. simpl in *.
    subst o. destruct (panics w1); simpl.
    + rewrite H2, H3. split_and!; [done| |]; [destruct (READS t) | destruct (WROTE t)]; simpl; auto;
        f_equal; rewrite ?app_nil_r; set_solver.
    + destruct (IH2 t1) as (-> & -> & ->). rewrite H2, H3. split_and!; [done| |];
        [destruct (READS t) | destruct (WROTE t)]; simpl; auto; f_equal; rewrite ?app_assoc; set_solver.
  - unfold discard, bind, record. destruct (IH (set_READS (Some ∅) t)) as (H1 & H2 & H3).
    destruct (run w (set_READS (Some ∅) t)) as [o t1]. simpl in *. subst o.
    destruct (panics w); simpl; rewrite H2; simpl; split_and!; auto; destruct (READS t); simpl; auto;
      f_equal; set_solver.
  - unfold discard, bind, record_wrote. destruct (IH (set_WROTE (Some []) t)) as (H1 & H2 & H3).
    destruct (run w (set_WROTE (Some []) t)) as [o t1]. simpl in *. subst o.
    destruct (panics w); simpl; rewrite H3; simpl; auto.
  - unfold discard, bind, record_due. destruct (IH (set_DUE None t)) as (H1 & H2 & H3).
    destruct (run w (set_DUE None t)) as [o t1]. simpl in *. subst o.
    destruct (panics w); simpl; [auto|]. destruct (DUE t1), (DUE t); simpl; auto.
  - unfold caught. destruct (IH t) as (_ & H2 & H3). simpl. auto.
Qed.

(** Recordings nest, of reads and of writes: a recording returns exactly what its work touched,
    however deep the recordings inside it and whatever panics they caught; whether the work returns
    or panics, every enclosing recording also gets it, and nothing is recorded where no recording
    encloses it. *)
Theorem recordings_nest w t :
  (record (run w) t).1 = (if panics w then None else Some (tt, touched_reads w)) ∧
  READS (record (run w) t).2 = (λ s, s ∪ touched_reads w) <$> READS t ∧
  (record_wrote (run w) t).1 = (if panics w then None else Some (tt, touched_writes w)) ∧
  WROTE (record_wrote (run w) t).2 = (λ l, l ++ touched_writes w) <$> WROTE t.
Proof.
  unfold record, record_wrote.
  destruct (run_spec w (set_READS (Some ∅) t)) as (H1 & H2 & _).
  destruct (run_spec w (set_WROTE (Some []) t)) as (H3 & _ & H4).
  destruct (run w (set_READS (Some ∅) t)) as [o1 t1], (run w (set_WROTE (Some []) t)) as [o2 t2].
  simpl in *. subst o1 o2.
  assert (He : ∅ ∪ touched_reads w = touched_reads w) by set_solver.
  destruct (panics w); simpl; rewrite H2, H4; simpl; rewrite He; auto.
Qed.

(** A recorder that starts inside an enclosing one, with what it had written so far as a mark,
    reads back exactly what came after. *)
Lemma wrote_since_mark w t l :
  WROTE t = Some l → wrote_since (wrote_len t) (run w t).2 = touched_writes w.
Proof.
  intros Hl. destruct (run_spec w t) as (_ & _ & Hw). unfold wrote_since, wrote_len.
  rewrite Hw, Hl. simpl. rewrite decide_True by (rewrite length_app; lia).
  by rewrite drop_app_length.
Qed.

(** ** When work is due *)

Definition earliest (due : option Z) (l : list Z) : option Z :=
  fold_left (λ o at_ms, Some (match o with Some c => Z.min c at_ms | None => at_ms end)) l due.

Lemma earliest_app due l l' : earliest due (l ++ l') = earliest (earliest due l) l'.
Proof. apply fold_left_app. Qed.

(** The earliest of the times noted is the least of them. *)
Lemma earliest_spec l due at_ms :
  earliest due l = Some at_ms ↔
  (at_ms ∈ option_list due ++ l ∧ ∀ x, x ∈ option_list due ++ l → (at_ms ≤ x)%Z).
Proof.
  revert due; induction l as [|y l IH]; intros due; simpl.
  - rewrite app_nil_r. destruct due as [d|]; simpl.
    + setoid_rewrite list_elem_of_singleton. split; [intros [= ->]; split; [done | by intros ? ->]|].
      intros [-> _]. done.
    + split; [done|]. intros [H _]. by apply not_elem_of_nil in H.
  - rewrite IH. destruct due as [d|]; simpl; [|done].
    repeat setoid_rewrite elem_of_cons. split.
    + intros [Hin Hle]. pose proof (Hle (Z.min d y) (or_introl eq_refl)). split.
      * destruct Hin as [->|Hin]; [|by right; right].
        destruct (Z.min_dec d y) as [E|E]; [by left | by right; left].
      * intros x [->|[->|Hx]]; [lia..|]. apply Hle. by right.
    + intros [Hin Hle]. pose proof (Hle d (or_introl eq_refl)).
      pose proof (Hle y (or_intror (or_introl eq_refl))). split.
      * destruct Hin as [->|[->|Hin]]; [left; lia|left; lia|by right].
      * intros x [->|Hx]; [lia|]. apply Hle. auto.
Qed.

(** Work without a [record_due] of its own. *)
Fixpoint flat (w : work) : bool :=
  match w with
  | RecordDue _ => false
  | Then first second => flat first && flat second
  | Record inner | RecordWrote inner | Caught inner => flat inner
  | _ => true
  end.

Lemma run_due w : ∀ t, flat w = true → DUE (run w t).2 = earliest (DUE t) (touched_due w).
Proof.
  induction w as [| | key | entry | at_ms | rows | w1 IH1 w2 IH2 | w IH | w IH | w IH | w IH];
    intros t Hf; simpl in *; try done.
  - unfold note_read. simpl. by destruct (READS t).
  - unfold note_wrote. simpl. by destruct (WROTE t).
  - unfold note_writes. simpl. by destruct (0 <? rows)%Z.
  - apply andb_true_iff in Hf as [Hf1 Hf2]. unfold bind.
    destruct (run_spec w1 t) as [H1 _]. specialize (IH1 t Hf1). rewrite earliest_app, <- IH1.
    destruct (run w1 t) as [o t1]. simpl in *. subst o.
    destruct (panics w1); simpl; [done|]. by apply IH2.
  - unfold discard, bind, record. specialize (IH (set_READS (Some ∅) t) Hf).
    destruct (run w _) as [[]  t1]; done.
  - unfold discard, bind, record_wrote. specialize (IH (set_WROTE (Some []) t) Hf).
    destruct (run w _) as [[] t1]; done.
  - unfold caught. by apply IH.
Qed.

(** Work that opens no [record_due] of its own is due by the earliest time it noted, and not
    due at all when it noted none; and when the enclosing work had already noted a time, it becomes
    due by the earlier of the two. *)
Theorem record_due_returns_the_earliest w t :
  flat w = true → panics w = false →
  ∃ due, (record_due (run w) t).1 = Some (tt, due) ∧
    (∀ at_ms, due = Some at_ms ↔
       at_ms ∈ touched_due w ∧ ∀ x, x ∈ touched_due w → (at_ms ≤ x)%Z) ∧
    (is_some (DUE t) = true →
     DUE (record_due (run w) t).2 = earliest (DUE t) (option_list due)).
Proof.
  intros Hf Hp. unfold record_due.
  destruct (run_spec w (set_DUE None t)) as [H1 _]. pose proof (run_due w (set_DUE None t) Hf) as Hd.
  destruct (run w (set_DUE None t)) as [o t1]. simpl in *. rewrite Hp in H1. subst o.
  exists (DUE t1). split_and!; [done| |].
  - intros at_ms. rewrite Hd. apply (earliest_spec (touched_due w) None).
  - intros Ht. destruct (DUE t) as [d|]; [|done]. simpl. by destruct (DUE t1).
Qed.

Lemma record_due_witness :
  let t := mkThread None 0 None None in
  let w := Then (NoteDue 9) (Record (Then (NoteDue 5) (NoteRead "agent/a"))) in
  ∃ due, (record_due (run w) t).1 = Some (tt, due) ∧
    (∀ at_ms, due = Some at_ms ↔
       at_ms ∈ touched_due w ∧ ∀ x, x ∈ touched_due w → (at_ms ≤ x)%Z) ∧
    (is_some (DUE t) = true → DUE (record_due (run w) t).2 = earliest (DUE t) (option_list due)).
Proof.
  intros t w. apply (record_due_returns_the_earliest w t); reflexivity.
Defined.

(** A due time noted under a nested [record_due] does not reach an enclosing one that has
    noted none yet: the cell cannot tell an enclosing recording that holds no time from no
    recording at all. The same work whose enclosing recording noted any time first is due by the
    earlier of the two. *)
Theorem nested_due_is_lost t :
  (record_due (run (RecordDue (NoteDue 5))) t).1 = Some (tt, None) ∧
  (record_due (run (Then (NoteDue 9) (RecordDue (NoteDue 5)))) t).1 = Some (tt, Some 5%Z).
Proof. done. Qed.
