(* ===== verification/Contracts.v ===== *)
(** * Record schemas

    Models [schema_matches] and [schema_for_owner] of [crates/st-drivers/src/contracts.rs]: the
    spelling of a durable record's schema before and after the program's rename. *)

From Stdlib Require Import Ascii.
From S2P Require Import Prelude Text.

(** The current spelling, or the one before the rename. *)
Definition schema_matches (actual current : string) : bool :=
  str_eqb actual current
  || is_some_and (strip_prefix "st." current)
       (λ suffix, ostr_eqb (strip_prefix "st2." actual) (Some suffix)).

(** [str::replacen] of the first match of a non-empty pattern. *)
Fixpoint replace_first (pat rep s : string) : string :=
  match strip_prefix pat s with
  | Some rest => rep +:+ rest
  | None => match s with EmptyString => EmptyString | String a s' => String a (replace_first pat rep s') end
  end.

Definition schema_for_owner (owner current : string) : string :=
  if starts_with "st2." owner then replace_first "st." "st2." current else current.

(** A schema in the spelling an owner uses is one its reader accepts. *)
Lemma schema_for_owner_matches owner suffix :
  schema_matches (schema_for_owner owner ("st." +:+ suffix)) ("st." +:+ suffix) = true.
Proof.
  unfold schema_for_owner, schema_matches. destruct (starts_with "st2." owner).
  - change (replace_first "st." "st2." ("st." +:+ suffix)) with ("st2." +:+ suffix).
    apply orb_true_iff. right.
    assert (strip_prefix "st." ("st." +:+ suffix) = Some suffix) as -> by by apply strip_prefix_Some.
    simpl. by apply ostr_eqb_true.
  - by rewrite str_eqb_refl.
Qed.
