(* ===== verification/Residency.v ===== *)
(** * On-demand residency

    Models [crates/st-drivers/src/residency.rs]: the durable ledger of one agent's on-demand
    residency, its validity, the action each state calls for, and the transition each event makes.
    A generation is a u64; the checked additions that fence generations are written out. Reading
    and writing the ledger's file is the filesystem's and serde's; [store_ledger] and [loaded] are
    what is decided on either side of it. *)

From Stdlib Require Import Ascii.
From S2P Require Import Prelude Text Bytes Contracts.

Definition LEDGER_SCHEMA : string := "st.residency-ledger.v1".

Definition checked_add64 (a b : Z) : option Z := if (a + b <=? u64_max)%Z then Some (a + b)%Z else None.

Inductive SessionDriver := Claude | Codex | Pi | OpenCode | Omp.
Inductive RuntimePresence := Present | Absent | Indeterminate.
Inductive StopStep := StopOwnedGroup | VerifyAbsent.
Inductive StartStep := PrepareNativeResume | LaunchOwnedGroup | VerifyNativeSession.
Inductive RefusalReason :=
| UnsupportedNativeResume | InvalidFence | RuntimeIndeterminate | GenerationExhausted.

Inductive RuntimeResidency :=
| Active
| Quiescing (resume : Z)
| Stopping (step : StopStep) (resume : Z)
| Cold (resume : Z)
| Starting (step : StartStep) (source : Z)
| Refused (reason : RefusalReason) (presence : RuntimePresence).

#[export] Instance SessionDriver_eq_dec : EqDecision SessionDriver.
Proof. solve_decision. Defined.
#[export] Instance RuntimePresence_eq_dec : EqDecision RuntimePresence.
Proof. solve_decision. Defined.
#[export] Instance StopStep_eq_dec : EqDecision StopStep.
Proof. solve_decision. Defined.
#[export] Instance StartStep_eq_dec : EqDecision StartStep.
Proof. solve_decision. Defined.
#[export] Instance RefusalReason_eq_dec : EqDecision RefusalReason.
Proof. solve_decision. Defined.
#[export] Instance RuntimeResidency_eq_dec : EqDecision RuntimeResidency.
Proof. solve_decision. Defined.

Definition RuntimeResidency_as_str (r : RuntimeResidency) : string :=
  match r with
  | Active => "active" | Quiescing _ => "quiescing" | Stopping _ _ => "stopping"
  | Cold _ => "cold" | Starting _ _ => "starting" | Refused _ _ => "refused"
  end.

Record Ledger := mkLedger {
  schema : string;
  agent_id : string;
  host : string;
  driver : SessionDriver;
  generation : Z;
  runtime_residency : RuntimeResidency;
  wake_pending : bool
}.

Record InventoryProjection := mkInventoryProjection {
  ip_state : string;
  ip_generation : Z;
  ip_wake_pending : bool;
  ip_refusal_reason : option RefusalReason;
  ip_presence : option RuntimePresence
}.

Definition inventory_projection (self : Ledger) : InventoryProjection :=
  let (refusal_reason, presence) :=
    match runtime_residency self with
    | Refused reason presence => (Some reason, Some presence)
    | _ => (None, None)
    end in
  mkInventoryProjection (RuntimeResidency_as_str (runtime_residency self)) (generation self)
    (wake_pending self) refusal_reason presence.

Inductive ValidationError :=
| UnsupportedSchema (schema : string)
| InvalidLedger (reason : string)
| OwnershipMismatch.

Definition validate (self : Ledger) : result ValidationError unit :=
  if negb (schema_matches (schema self) LEDGER_SCHEMA) then Err (UnsupportedSchema (schema self))
  else if str_eqb (agent_id self) "" then Err (InvalidLedger "agent ID is empty")
  else if str_eqb (host self) "" then Err (InvalidLedger "host is empty")
  else if (generation self =? 0)%Z then Err (InvalidLedger "generation must be positive")
  else if (match runtime_residency self with Cold _ => true | _ => false end) && wake_pending self
  then Err (InvalidLedger "cold residency cannot have pending wake demand")
  else
    match runtime_residency self with
    | Quiescing resume | Stopping _ resume | Cold resume =>
        if bool_decide (checked_add64 (generation self) 1 = Some resume) then Ok tt
        else Err (InvalidLedger "invalid resume generation fence")
    | Starting _ source =>
        if bool_decide (checked_add64 source 1 = Some (generation self)) then Ok tt
        else Err (InvalidLedger "invalid starting generation fence")
    | Active | Refused _ _ => Ok tt
    end.

(** [Ledger::active]. *)
Definition active (agent_id host : string) (driver : SessionDriver) (generation : Z)
    : result ValidationError Ledger :=
  let ledger := mkLedger LEDGER_SCHEMA agent_id host driver generation Active false in
  let? _ := validate ledger in Ok ledger.

(** ** Events and actions *)

Inductive Event :=
| WakeDemandObserved
| IdleConfirmed (generation : Z)
| CheckpointStored (source resume : Z)
| OwnedGroupStopped (generation : Z)
| AbsenceVerified (generation : Z)
| NativeResumePrepared (generation : Z)
| OwnedGroupLaunched (generation : Z)
| NativeSessionVerified (generation : Z)
| RefusedEvent (generation : Z) (reason : RefusalReason) (presence : RuntimePresence).

Inductive Action :=
| DoCheckpointNativeSession (source resume : Z)
| DoStopOwnedGroup (generation : Z)
| DoVerifyAbsent (generation : Z)
| DoPrepareNativeResume (generation : Z)
| DoLaunchOwnedGroup (generation : Z)
| DoVerifyNativeSession (generation : Z).

Inductive Outcome :=
| Applied | Duplicate | Ignored | Stale | OutcomeRefused (reason : RefusalReason).

Record Transition := mkTransition { outcome : Outcome; tr_action : option Action }.

Definition applied (action : option Action) : Transition := mkTransition Applied action.
Definition without_action (o : Outcome) : Transition := mkTransition o None.

Definition next_action (self : Ledger) : option Action :=
  match runtime_residency self with
  | Quiescing resume => Some (DoCheckpointNativeSession (generation self) resume)
  | Stopping StopOwnedGroup _ => Some (DoStopOwnedGroup (generation self))
  | Stopping VerifyAbsent _ => Some (DoVerifyAbsent (generation self))
  | Starting PrepareNativeResume _ => Some (DoPrepareNativeResume (generation self))
  | Starting LaunchOwnedGroup _ => Some (DoLaunchOwnedGroup (generation self))
  | Starting VerifyNativeSession _ => Some (DoVerifyNativeSession (generation self))
  | Active | Cold _ | Refused _ _ => None
  end.

Definition inert (self : Ledger) (g : Z) : Transition :=
  without_action (if (g =? generation self)%Z then Ignored else Stale).

Definition set_residency (r : RuntimeResidency) (l : Ledger) : Ledger :=
  mkLedger (schema l) (agent_id l) (host l) (driver l) (generation l) r (wake_pending l).
Definition set_wake_pending (w : bool) (l : Ledger) : Ledger :=
  mkLedger (schema l) (agent_id l) (host l) (driver l) (generation l) (runtime_residency l) w.

(** The move to the resumed generation that a wake and a verified absence share. *)
Definition start_resume (resume : Z) (l : Ledger) : Ledger :=
  mkLedger (schema l) (agent_id l) (host l) (driver l) resume
    (Starting PrepareNativeResume (generation l)) (wake_pending l).

(** A step to [r], with the action [r] calls for. *)
Definition advance (r : RuntimeResidency) (l : Ledger) : Ledger * Transition :=
  let l := set_residency r l in (l, applied (next_action l)).

Definition apply (self : Ledger) (event : Event) : Ledger * Transition :=
  match event with
  | WakeDemandObserved =>
      if bool_decide (runtime_residency self = Active) then (self, without_action Ignored)
      else if wake_pending self then (self, without_action Duplicate)
      else
        let self := set_wake_pending true self in
        match runtime_residency self with
        | Cold resume =>
            let self := start_resume resume self in (self, applied (next_action self))
        | _ => (self, applied None)
        end
  | IdleConfirmed g =>
      if negb (g =? generation self)%Z then (self, inert self g)
      else if negb (bool_decide (runtime_residency self = Active)) || wake_pending self
      then (self, without_action Ignored)
      else
        match checked_add64 g 1 with
        | None => (set_residency (Refused GenerationExhausted Present) self,
                   without_action (OutcomeRefused GenerationExhausted))
        | Some resume => advance (Quiescing resume) self
        end
  | CheckpointStored source resume =>
      if negb (source =? generation self)%Z then (self, inert self source)
      else if negb (bool_decide (runtime_residency self = Quiescing resume))
      then (self, without_action Ignored)
      else advance (Stopping StopOwnedGroup resume) self
  | OwnedGroupStopped g =>
      if negb (g =? generation self)%Z then (self, inert self g)
      else match runtime_residency self with
           | Stopping StopOwnedGroup resume => advance (Stopping VerifyAbsent resume) self
           | _ => (self, without_action Ignored)
           end
  | AbsenceVerified g =>
      if negb (g =? generation self)%Z then (self, inert self g)
      else match runtime_residency self with
           | Stopping VerifyAbsent resume =>
               if wake_pending self
               then let self := start_resume resume self in (self, applied (next_action self))
               else (set_residency (Cold resume) self, applied None)
           | _ => (self, without_action Ignored)
           end
  | NativeResumePrepared g =>
      if negb (g =? generation self)%Z then (self, inert self g)
      else match runtime_residency self with
           | Starting PrepareNativeResume source => advance (Starting LaunchOwnedGroup source) self
           | _ => (self, without_action Ignored)
           end
  | OwnedGroupLaunched g =>
      if negb (g =? generation self)%Z then (self, inert self g)
      else match runtime_residency self with
           | Starting LaunchOwnedGroup source => advance (Starting VerifyNativeSession source) self
           | _ => (self, without_action Ignored)
           end
  | NativeSessionVerified g =>
      if negb (g =? generation self)%Z then (self, inert self g)
      else match runtime_residency self with
           | Starting VerifyNativeSession _ =>
               (set_wake_pending false (set_residency Active self), applied None)
           | _ => (self, without_action Ignored)
           end
  | RefusedEvent g reason presence =>
      if negb (g =? generation self)%Z || is_none (next_action self) then (self, inert self g)
      else (set_residency (Refused reason presence) self, without_action (OutcomeRefused reason))
  end.

Inductive AgentDesiredState :=
| Running | DesiredSuspended (reason : string) | Retired (reason : option string).
Inductive ResidencyPolicy := Always | OnDemand.

Definition enabled (desired : AgentDesiredState) (policy : ResidencyPolicy) : bool :=
  match desired, policy with Running, OnDemand => true | _, _ => false end.

(** What [store] writes, and what [load] makes of a decoded ledger. *)
Definition store_ledger (ledger : Ledger) : result ValidationError Ledger :=
  let? _ := validate ledger in
  Ok (mkLedger LEDGER_SCHEMA (agent_id ledger) (host ledger) (driver ledger) (generation ledger)
        (runtime_residency ledger) (wake_pending ledger)).

Definition loaded (ledger : Ledger) (expected_agent_id expected_host : string)
    (expected_driver : SessionDriver) : result ValidationError Ledger :=
  let? _ := validate ledger in
  if negb (str_eqb (agent_id ledger) expected_agent_id) || negb (str_eqb (host ledger) expected_host)
     || negb (bool_decide (driver ledger = expected_driver))
  then Err OwnershipMismatch
  else Ok ledger.

Section ledger_path.
Context (sha256_hex : list ascii → string).

(** The file name of a ledger: a digest of the length-prefixed host and agent ID. *)
Definition ledger_file (host agent_id : string) : string :=
  sha256_hex (concat (map (λ value, be_bytes 8 (Z.of_nat (String.length value)) ++ bytes_of value)
                        [host; agent_id])) +:+ ".json".
End ledger_path.

(** ** The invariant *)

Definition fences_hold (l : Ledger) : Prop :=
  match runtime_residency l with
  | Quiescing resume | Stopping _ resume => resume = (generation l + 1)%Z ∧ (resume ≤ u64_max)%Z
  | Cold resume => resume = (generation l + 1)%Z ∧ (resume ≤ u64_max)%Z ∧ wake_pending l = false
  | Starting _ source => generation l = (source + 1)%Z ∧ (generation l ≤ u64_max)%Z
  | Active => wake_pending l = false
  | Refused _ _ => True
  end.

Definition ledger_inv (l : Ledger) : Prop :=
  schema_matches (schema l) LEDGER_SCHEMA = true ∧ agent_id l ≠ "" ∧ host l ≠ "" ∧
  (0 < generation l ≤ u64_max)%Z ∧ fences_hold l.

Lemma checked_add64_Some a b c : checked_add64 a b = Some c ↔ c = (a + b)%Z ∧ (c ≤ u64_max)%Z.
Proof.
  unfold checked_add64. destruct (Z.leb_spec (a + b) u64_max); split.
  - by intros [= <-].
  - by intros [-> _].
  - done.
  - intros [-> ?]. lia.
Qed.

(** The invariant includes the code's own validity check. *)
Lemma ledger_inv_valid l : ledger_inv l → validate l = Ok tt.
Proof.
  intros (Hs & Ha & Hh & Hg & Hf). unfold validate. rewrite Hs. simpl.
  rewrite (proj2 (str_eqb_false _ _) Ha), (proj2 (str_eqb_false _ _) Hh).
  destruct (Z.eqb_spec (generation l) 0); [lia|]. unfold fences_hold in Hf.
  destruct (runtime_residency l); simpl; try done;
    try (rewrite bool_decide_eq_true_2; [done|]; apply checked_add64_Some; naive_solver).
  destruct Hf as (? & ? & ->). rewrite bool_decide_eq_true_2; [done|]. by apply checked_add64_Some.
Qed.

Ltac residency_cases :=
  repeat match goal with
  | |- context [if ?b then _ else _] => destruct b eqn:?
  | |- context [match ?x with _ => _ end] => destruct x eqn:?
  end.

Lemma apply_inv l e : ledger_inv l → ledger_inv (apply l e).1.
Proof.
  intros Hinv. pose proof Hinv as (Hs & Ha & Hh & Hg & Hf). unfold fences_hold in Hf.
  unfold apply, advance.
  destruct e; residency_cases; simpl; try done;
    repeat match goal with
    | H : bool_decide _ = true |- _ => apply bool_decide_eq_true in H
    | H : negb (bool_decide _) = false |- _ => apply negb_false_iff, bool_decide_eq_true in H
    | H : negb (_ =? _)%Z = false |- _ => apply negb_false_iff, Z.eqb_eq in H
    | H : checked_add64 _ _ = Some _ |- _ => apply checked_add64_Some in H as [-> ?]
    | H : _ || _ = false |- _ => apply orb_false_iff in H as [? ?]
    end; simpl in *;
    repeat match goal with
    | H : runtime_residency l = _ |- _ => rewrite H in *
    end; unfold ledger_inv, fences_hold; simpl in *;
    repeat match goal with
    | H : runtime_residency l = _ |- _ => rewrite H in *
    end; destruct_and?; split_and?; try done; try congruence; lia.
Qed.

(** ** Reachable ledgers *)

Inductive reachable : Ledger → Prop :=
| reachable_active agent host driver g l :
    is_u64 g → active agent host driver g = Ok l → reachable l
| reachable_apply l e : reachable l → reachable (apply l e).1.

Lemma active_inv agent h d g l : is_u64 g → active agent h d g = Ok l → ledger_inv l.
Proof.
  unfold is_u64, active, validate. intros Hg H. simpl in H.
  destruct (str_eqb agent "") eqn:Ea; [done|]. destruct (str_eqb h "") eqn:Eh; [done|].
  destruct (Z.eqb_spec g 0); [done|]. simpl in H. injection H as <-. str_cases.
  unfold ledger_inv, fences_hold. simpl. split_and!; try done; lia.
Qed.

Lemma reachable_inv l : reachable l → ledger_inv l.
Proof. induction 1; [by eapply active_inv | by apply apply_inv]. Qed.

(** C39. Every ledger reached from a fresh one by any sequence of events passes its own validity
    check, so it can be stored and loaded again: generations stay positive and in range, every
    resume and start is fenced to the next generation, a cold seat has no wake pending, and an
    active one neither. *)
Theorem reachable_ledgers_are_valid l :
  reachable l → validate l = Ok tt ∧ fences_hold l ∧ (0 < generation l ≤ u64_max)%Z.
Proof.
  intros Hr%reachable_inv. split; [by apply ledger_inv_valid|].
  destruct Hr as (_ & _ & _ & ? & ?). done.
Qed.

(** The generation an event is about. *)
Definition event_generation (e : Event) : option Z :=
  match e with
  | WakeDemandObserved => None
  | IdleConfirmed g | CheckpointStored g _ | OwnedGroupStopped g | AbsenceVerified g
  | NativeResumePrepared g | OwnedGroupLaunched g | NativeSessionVerified g
  | RefusedEvent g _ _ => Some g
  end.

(** Late and repeated reports are harmless: an event about another generation changes nothing
    and is reported stale, an event applied again leaves the ledger as its first application did,
    and no event moves a refused residency. *)
Theorem late_and_repeated_events_change_nothing l e :
  (∀ g, event_generation e = Some g → g ≠ generation l → apply l e = (l, without_action Stale)) ∧
  (apply (apply l e).1 e).1 = (apply l e).1 ∧
  (∀ reason presence, runtime_residency l = Refused reason presence →
     runtime_residency (apply l e).1 = Refused reason presence).
Proof.
  split_and!.
  - intros g He Hg%Z.eqb_neq. destruct e; simpl in He; simplify_eq; simpl; rewrite Hg; simpl;
      unfold inert; by rewrite Hg.
  - destruct l as [sch ag h d g r w]. unfold apply, advance, inert.
    destruct e; simpl; residency_cases; simpl in *; simplify_eq; try done;
      repeat match goal with H : negb _ = false |- _ => apply negb_false_iff in H end;
      rewrite ?Z.eqb_refl; simpl; try done; residency_cases; try done; simpl in *; simplify_eq;
      bool_cases; repeat match goal with
      | H : _ || _ = true |- _ => apply orb_true_iff in H as [H|H]; bool_cases
      end; try congruence; try done.
  - intros reason presence Hr. unfold apply, advance.
    destruct e; rewrite ?Hr; simpl; residency_cases; simpl; try done;
      repeat match goal with
      | H : negb (bool_decide _) || _ = false |- _ => apply orb_false_iff in H as [H _]
      | H : negb (bool_decide _) = false |- _ => apply negb_false_iff, bool_decide_eq_true in H
      | H : _ || is_none _ = false |- _ => apply orb_false_iff in H as [_ H]
      end; unfold next_action in *; rewrite ?Hr in *; done.
Qed.

(** ** Serving a wake *)

(** The event an action reports when it succeeds. *)
Definition succeeded (a : Action) : Event :=
  match a with
  | DoCheckpointNativeSession source resume => CheckpointStored source resume
  | DoStopOwnedGroup g => OwnedGroupStopped g
  | DoVerifyAbsent g => AbsenceVerified g
  | DoPrepareNativeResume g => NativeResumePrepared g
  | DoLaunchOwnedGroup g => OwnedGroupLaunched g
  | DoVerifyNativeSession g => NativeSessionVerified g
  end.

(** Carrying out the action the ledger calls for, successfully. *)
Definition drive (l : Ledger) : Ledger :=
  match next_action l with Some a => (apply l (succeeded a)).1 | None => l end.

Fixpoint drive_n (n : nat) (l : Ledger) : Ledger :=
  match n with O => l | S n => drive_n n (drive l) end.

Definition is_refused (r : RuntimeResidency) : bool :=
  match r with Refused _ _ => true | _ => false end.

(** Where driving leads, by state. *)
Definition driven (l : Ledger) : Ledger :=
  match runtime_residency l with
  | Quiescing resume => set_residency (Stopping StopOwnedGroup resume) l
  | Stopping StopOwnedGroup resume => set_residency (Stopping VerifyAbsent resume) l
  | Stopping VerifyAbsent resume =>
      if wake_pending l then start_resume resume l else set_residency (Cold resume) l
  | Starting PrepareNativeResume source => set_residency (Starting LaunchOwnedGroup source) l
  | Starting LaunchOwnedGroup source => set_residency (Starting VerifyNativeSession source) l
  | Starting VerifyNativeSession _ => set_wake_pending false (set_residency Active l)
  | Active | Cold _ | Refused _ _ => l
  end.

Lemma drive_eq l : drive l = driven l.
Proof.
  unfold drive, driven, next_action. destruct (runtime_residency l) as [|resume|[] resume|resume|[] source|] eqn:Hr;
    unfold apply, advance; simpl;
    rewrite ?Z.eqb_refl, ?Hr; simpl; rewrite ?bool_decide_eq_true_2 by done; try done.
  by destruct (wake_pending l).
Qed.

Lemma drive_n_eq n l : drive_n n l = Nat.iter n driven l.
Proof.
  revert l; induction n as [|n IH]; intros l; [done|].
  by rewrite Nat.iter_succ_r, <- drive_eq, <- IH.
Qed.

(** C40. A wake is served: once demand for a seat that was not refused is observed, carrying out
    the actions the ledger calls for makes it active in at most six steps, in the generation it
    was starting or in the one right after, with no demand left pending. *)
Theorem wake_demand_is_served l :
  reachable l → is_refused (runtime_residency l) = false →
  let l' := drive_n 6 (apply l WakeDemandObserved).1 in
  runtime_residency l' = Active ∧ wake_pending l' = false ∧
  generation l' =
    match runtime_residency l with
    | Active | Starting _ _ | Refused _ _ => generation l
    | Quiescing _ | Stopping _ _ | Cold _ => (generation l + 1)%Z
    end.
Proof.
  intros (_ & _ & _ & _ & Hf)%reachable_inv Hr. unfold fences_hold in Hf.
  rewrite drive_n_eq. destruct l as [sch ag h d g r w]. simpl in Hr, Hf.
  destruct r as [|resume|[] resume|resume|[] source|]; try done; destruct w; try done;
    destruct_and?; try done; subst; cbn; split_and!; try done; lia.
Qed.

(** ** Examples *)

Definition fresh_ledger : Ledger := mkLedger LEDGER_SCHEMA "agent-1" "host-a" Codex 1 Active false.

Lemma fresh_reachable : reachable fresh_ledger.
Proof. apply (reachable_active "agent-1" "host-a" Codex 1); [by split | reflexivity]. Qed.

Definition quiescing_ledger : Ledger := (apply fresh_ledger (IdleConfirmed 1)).1.

Lemma quiescing_reachable : reachable quiescing_ledger.
Proof. apply reachable_apply, fresh_reachable. Qed.

Lemma reachable_valid_witness :
  runtime_residency quiescing_ledger = Quiescing 2 ∧
  validate quiescing_ledger = Ok tt ∧ fences_hold quiescing_ledger ∧
  (0 < generation quiescing_ledger ≤ u64_max)%Z.
Proof.
  split; [reflexivity|]. apply (reachable_ledgers_are_valid quiescing_ledger quiescing_reachable).
Defined.

Lemma wake_witness :
  let l' := drive_n 6 (apply quiescing_ledger WakeDemandObserved).1 in
  runtime_residency l' = Active ∧ wake_pending l' = false ∧ generation l' = 2%Z.
Proof.
  apply (wake_demand_is_served quiescing_ledger quiescing_reachable). reflexivity.
Defined.

Lemma schema_example :
  schema_matches "st2.residency-ledger.v1" LEDGER_SCHEMA = true ∧
  schema_matches "st2.residency-ledger.v2" LEDGER_SCHEMA = false.
Proof. done. Qed.
