(* ===== verification/DeliveryLedger.v ===== *)
(** * The native delivery ledger

    Models [crates/st-drivers/src/delivery_ledger.rs]: the durable evidence of what a harness did
    with each inbox file, the grading of evidence by what the harness can prove, and the decision
    whether a file may be transported again. The state is the ledger in memory together with the
    record its file holds; every operation takes whether its write of the file succeeds, since the
    code goes on in memory when it does not. The correlation a transport derives, and the recovery
    of records left by earlier releases, are arguments. *)

From Stdlib Require Import Ascii.
From S2P Require Import Prelude Text Bytes Utf8 Contracts.

Definition LEDGER_SCHEMA : string := "st.delivery-ledger.v1".

Inductive Harness := HClaude | HCodex | HOpenCode.

#[export] Instance Harness_eq_dec : EqDecision Harness.
Proof. solve_decision. Defined.

Definition Harness_as_str (h : Harness) : string :=
  match h with HClaude => "claude" | HCodex => "codex" | HOpenCode => "opencode" end.

Definition Harness_parse (name : string) : result string Harness :=
  if str_eqb name "claude" then Ok HClaude
  else if str_eqb name "codex" then Ok HCodex
  else if str_eqb name "opencode" then Ok HOpenCode
  else Err ("unknown native delivery harness '" +:+ name +:+ "'").

(** [Phase]: the declaration order is the order. *)
Inductive Phase := Attempted | TransportAccepted | Persisted | Consumed.

#[export] Instance Phase_eq_dec : EqDecision Phase.
Proof. solve_decision. Defined.

Definition Phase_rank (p : Phase) : nat :=
  match p with Attempted => 0 | TransportAccepted => 1 | Persisted => 2 | Consumed => 3 end.
Definition Phase_le (a b : Phase) : bool := Phase_rank a <=? Phase_rank b.
Definition Phase_max (a b : Phase) : Phase := if Phase_le a b then b else a.

Inductive NegativeReceipt := ReceiptAbsent | ReceiptRejected | RetryAfterAbandonedIncarnation.
#[export] Instance NegativeReceipt_eq_dec : EqDecision NegativeReceipt.
Proof. solve_decision. Defined.

Inductive Evidence := EvTransportAccepted | EvPersisted | EvConsumed.
Inductive Attestation := Observed | Asserted.

Definition Phase_debug (p : Phase) : string :=
  match p with
  | Attempted => "Attempted" | TransportAccepted => "TransportAccepted"
  | Persisted => "Persisted" | Consumed => "Consumed"
  end.

(** What one harness can prove. *)
Definition proves (h : Harness) (phase : Phase) : bool :=
  match h, phase with
  | HClaude, (Attempted | Consumed) => true
  | HCodex, (Attempted | TransportAccepted | Consumed) => true
  | HOpenCode, _ => true
  | _, _ => false
  end.

Definition graded (h : Harness) (evidence : Evidence) : result string Phase :=
  let phase :=
    match evidence with
    | EvTransportAccepted => TransportAccepted | EvPersisted => Persisted | EvConsumed => Consumed
    end in
  if proves h phase then Ok phase
  else Err (Harness_as_str h +:+ " delivery evidence cannot prove phase " +:+ Phase_debug phase).

Definition releases (phase : Phase) : bool := Phase_le Consumed phase.

Record Entry := mkEntry {
  e_filename : string;
  e_binding : string;
  e_correlation : string;
  e_phase : Phase;
  e_attestation : Attestation;
  e_incarnation : option string;
  e_accepted_turn_id : option string;
  e_negative : option NegativeReceipt
}.

Record LedgerRecord := mkRecord {
  r_schema : string;
  r_harness : string;
  r_agent : string;
  r_runtime_id : string;
  r_entries : list Entry
}.

Inductive HoldReason := AmbiguousAttempt | UnreadReceipt | NegativeReceiptHeld | Quarantined | Settled.
Inductive Retention := Release | Hold (reason : HoldReason).
Inductive RetryDecision := Retry | RetryHold (reason : HoldReason).

#[export] Instance HoldReason_eq_dec : EqDecision HoldReason.
Proof. solve_decision. Defined.
#[export] Instance Retention_eq_dec : EqDecision Retention.
Proof. solve_decision. Defined.

Record Begin := mkBegin {
  b_filename : string;
  b_binding : string;
  b_correlation : string;
  b_incarnation : option string
}.

(** The ledger, and the record its file holds. *)
Record Ledger := mkDeliveryLedger {
  l_harness : Harness;
  l_record : LedgerRecord;
  l_quarantine : option string;
  l_disk : option LedgerRecord
}.

(** ** Delivery keys *)

Definition is_digit (b : ascii) : bool := in_range 48 57 b.
Definition is_lower (b : ascii) : bool := in_range 97 122 b.
Definition is_upper (b : ascii) : bool := in_range 65 90 b.

(** [message::is_message_filename]. *)
Definition is_message_filename (name : string) : bool :=
  match strip_suffix ".md" name with
  | None => false
  | Some stem =>
      match split_once "-" stem with
      | None => false
      | Some (ts, rand) =>
          (String.length ts =? 13) && forallb is_digit (bytes_of ts)
          && (String.length rand =? 6) && forallb (λ b, is_digit b || is_lower b) (bytes_of rand)
      end
  end.

(** [push_mailbox::is_delivery_key]. *)
Definition is_delivery_key (key : string) : bool :=
  is_message_filename key
  || is_some_and (strip_prefix "message/" key) (λ id,
       negb (str_eqb id "") && (String.length id <=? 256)
       && forallb (λ b, is_digit b || is_lower b || is_upper b
                        || existsb (λ c, bool_decide (b = c)) ["/"; "-"; "_"; "."]%char)
            (bytes_of id)).

(** ** Entries from outside *)

Definition ensure (b : bool) (message : string) : result string unit :=
  if b then Ok tt else Err message.

Section validation.
Context (correlate : string → string → string).

Definition validate_entry (h : Harness) (entry : Entry) : result string unit :=
  let? _ := ensure (is_delivery_key (e_filename entry) && negb (str_eqb (e_binding entry) ""))
              "delivery ledger entry has an invalid binding or filename" in
  let? _ := ensure (str_eqb (e_correlation entry) (correlate (e_binding entry) (e_filename entry)))
              "delivery ledger entry correlation does not match its binding" in
  let? _ := ensure (proves h (e_phase entry))
              ("delivery ledger entry records a phase " +:+ Harness_as_str h +:+ " cannot prove") in
  ensure (is_none_or (e_accepted_turn_id entry) (λ turn_id,
            bool_decide (h = HCodex) && Phase_le TransportAccepted (e_phase entry)
            && negb (str_eqb turn_id "")))
    "delivery ledger entry has an invalid accepted turn".

Fixpoint validate_all (h : Harness) (entries : list Entry) : result string unit :=
  match entries with
  | [] => Ok tt
  | entry :: rest => let? _ := validate_entry h entry in validate_all h rest
  end.

(** [windows(2)]: neighbours share a binding. *)
Fixpoint one_binding (entries : list Entry) : bool :=
  match entries with
  | a :: (b :: _) as rest => str_eqb (e_binding a) (e_binding b) && one_binding rest
  | _ => true
  end.

Definition accept (h : Harness) (entries : list Entry) : result string unit :=
  let? _ := validate_all h entries in
  ensure (one_binding entries) "delivery ledger holds entries from more than one binding".

(** [load], on the decoded record. *)
Definition load (self : Ledger) (record : LedgerRecord) : result string Ledger :=
  let? _ := ensure (schema_matches (r_schema record) LEDGER_SCHEMA)
              ("delivery ledger has unsupported schema '" +:+ r_schema record +:+ "'") in
  let? harness := Harness_parse (r_harness record) in
  let? _ := ensure (bool_decide (harness = l_harness self))
              ("delivery ledger belongs to harness '" +:+ r_harness record +:+ "'") in
  let? _ := ensure (str_eqb (r_agent record) (r_agent (l_record self)))
              "delivery ledger belongs to a different agent" in
  let? _ := accept (l_harness self) (r_entries record) in
  Ok (mkDeliveryLedger (l_harness self)
        (mkRecord LEDGER_SCHEMA (r_harness record) (r_agent record)
           (r_runtime_id (l_record self)) (r_entries record))
        (l_quarantine self) (l_disk self)).
End validation.

(** ** Operations

    An operation gives the ledger it leaves and its result. *)

Definition op (A : Type) : Type := Ledger * result string A.

Definition with_entries (entries : list Entry) (self : Ledger) : Ledger :=
  let r := l_record self in
  mkDeliveryLedger (l_harness self)
    (mkRecord (r_schema r) (r_harness r) (r_agent r) (r_runtime_id r) entries)
    (l_quarantine self) (l_disk self).

(** [persist]: [written] says whether the file was replaced. *)
Definition persist (written : bool) (self : Ledger) : op unit :=
  if written
  then (mkDeliveryLedger (l_harness self) (l_record self) (l_quarantine self) (Some (l_record self)),
        Ok tt)
  else (self, Err "writing delivery ledger").

(** An operation's result after [persist()?]. *)
Definition persisting {A} (written : bool) (self : Ledger) (a : A) : op A :=
  match persist written self with
  | (self, Ok _) => (self, Ok a)
  | (self, Err e) => (self, Err e)
  end.

Definition ensure_writable (self : Ledger) : result string unit :=
  match l_quarantine self with
  | None => Ok tt
  | Some reason => Err ("delivery ledger is quarantined: " +:+ reason)
  end.

(** [seed]: accept recovered entries and make them durable. *)
Definition seed (correlate : string → string → string) (written : bool) (entries : list Entry)
    (self : Ledger) : op unit :=
  match entries with
  | [] => (self, Ok tt)
  | _ =>
      match accept correlate (l_harness self) entries with
      | Err e => (self, Err e)
      | Ok _ => persist written (with_entries entries self)
      end
  end.

(** The ledger file as it is read. *)
Inductive DiskFile :=
| FileMissing
| FileUnreadable (error : string)
| FileMalformed (error : string)
| FileRecord (record : LedgerRecord).

Definition open (file : DiskFile) (h : Harness) (agent runtime_id : string)
    (correlate : string → string → string) (recovered : result string (list Entry))
    (written : bool) : Ledger :=
  let disk := match file with FileRecord r => Some r | _ => None end in
  let ledger := mkDeliveryLedger h (mkRecord LEDGER_SCHEMA (Harness_as_str h) agent runtime_id [])
                  None disk in
  let '(ledger, outcome) :=
    match file with
    | FileRecord record =>
        match load correlate ledger record with
        | Ok ledger => (ledger, Ok tt)
        | Err e => (ledger, Err e)
        end
    | FileMalformed e => (ledger, Err e)
    | FileMissing =>
        match recovered with
        | Ok entries => seed correlate written entries ledger
        | Err e => (ledger, Err e)
        end
    | FileUnreadable e => (ledger, Err e)
    end in
  match outcome with
  | Ok _ => ledger
  | Err e =>
      let ledger := with_entries [] ledger in
      mkDeliveryLedger (l_harness ledger) (l_record ledger) (Some e) (l_disk ledger)
  end.

Definition entries (self : Ledger) : list Entry := r_entries (l_record self).

Definition is_file (filename : string) (e : Entry) : bool := str_eqb (e_filename e) filename.

Definition entry (self : Ledger) (filename : string) : option Entry :=
  List.find (is_file filename) (entries self).

Definition ledger_binding (self : Ledger) : option string := e_binding <$> head (entries self).

Definition correlated (self : Ledger) (value : string) : list string :=
  map e_filename (List.filter (λ e, str_eqb (e_correlation e) value) (entries self)).

(** The first entry of a file, updated in place. *)
Fixpoint update_file (filename : string) (f : Entry → Entry) (l : list Entry) : list Entry :=
  match l with
  | [] => []
  | e :: l' => if is_file filename e then f e :: l' else e :: update_file filename f l'
  end.

Definition update_entry (filename : string) (f : Entry → Entry) (self : Ledger) : Ledger :=
  with_entries (update_file filename f (entries self)) self.

Definition begun (b : Begin) : Entry :=
  mkEntry (b_filename b) (b_binding b) (b_correlation b) Attempted Observed (b_incarnation b) None None.

Definition begin_again (b : Begin) (e : Entry) : Entry :=
  mkEntry (e_filename e) (b_binding b) (b_correlation b) (Phase_max (e_phase e) Attempted) Observed
    (b_incarnation b)
    (if is_some (e_negative e) then None else e_accepted_turn_id e) None.

Definition begin (written : bool) (b : Begin) (self : Ledger) : op Entry :=
  match ensure_writable self with
  | Err e => (self, Err e)
  | Ok _ =>
      match ensure (is_delivery_key (b_filename b) && negb (str_eqb (b_binding b) ""))
              "delivery attempt has an invalid binding or filename" with
      | Err e => (self, Err e)
      | Ok _ =>
          match entry self (b_filename b) with
          | Some e =>
              persisting written (update_entry (b_filename b) (begin_again b) self) (begin_again b e)
          | None =>
              persisting written (with_entries (entries self ++ [begun b]) self) (begun b)
          end
      end
  end.

Definition set_evidence (phase : Phase) (e : Entry) : Entry :=
  mkEntry (e_filename e) (e_binding e) (e_correlation e) phase Observed (e_incarnation e)
    (e_accepted_turn_id e) None.

Definition record (written : bool) (filename : string) (evidence : Evidence) (self : Ledger)
    : op (option Phase) :=
  match ensure_writable self with
  | Err e => (self, Err e)
  | Ok _ =>
      match graded (l_harness self) evidence with
      | Err e => (self, Err e)
      | Ok phase =>
          match entry self filename with
          | None => (self, Ok None)
          | Some e =>
              if Phase_le phase (e_phase e) then (self, Ok (Some (e_phase e)))
              else persisting written (update_entry filename (set_evidence phase) self) (Some phase)
          end
      end
  end.

Definition accept_turn (turn_id : string) (e : Entry) : Entry :=
  mkEntry (e_filename e) (e_binding e) (e_correlation e) (Phase_max (e_phase e) TransportAccepted)
    Observed (e_incarnation e) (Some turn_id) None.

Definition accept_codex_turn (written : bool) (filename turn_id : string) (self : Ledger)
    : op (option Phase) :=
  match ensure_writable self with
  | Err e => (self, Err e)
  | Ok _ =>
      match ensure (bool_decide (l_harness self = HCodex) && negb (str_eqb turn_id ""))
              "only Codex can bind a non-empty accepted turn" with
      | Err e => (self, Err e)
      | Ok _ =>
          match entry self filename with
          | None => (self, Ok None)
          | Some e =>
              if is_some_and (e_accepted_turn_id e) (λ existing, negb (str_eqb existing turn_id))
              then (self, Err "Codex delivery is already bound to a different accepted turn")
              else
                let e' := accept_turn turn_id e in
                let changed := negb (bool_decide (e_phase e = e_phase e'
                                                  ∧ e_accepted_turn_id e = e_accepted_turn_id e')) in
                let self := update_entry filename (accept_turn turn_id) self in
                if changed then persisting written self (Some (e_phase e'))
                else (self, Ok (Some (e_phase e')))
          end
      end
  end.

Definition retention (self : Ledger) (filename : string) : Retention :=
  if is_some (l_quarantine self) then Hold Quarantined
  else match entry self filename with
  | None => Release
  | Some e =>
      if is_some (e_negative e) then Hold NegativeReceiptHeld
      else if releases (e_phase e) then Release
      else if Phase_le Persisted (e_phase e) then Hold UnreadReceipt
      else Hold AmbiguousAttempt
  end.

Definition set_negative (receipt : NegativeReceipt) (e : Entry) : Entry :=
  mkEntry (e_filename e) (e_binding e) (e_correlation e) (e_phase e) Observed (e_incarnation e)
    (e_accepted_turn_id e) (Some receipt).

Definition negative (written : bool) (filename : string) (receipt : NegativeReceipt)
    (self : Ledger) : op Retention :=
  match ensure_writable self with
  | Err e => (self, Err e)
  | Ok _ =>
      let kept := retention self filename in
      if bool_decide (kept = Release) then (self, Ok kept)
      else match entry self filename with
      | None => (self, Ok kept)
      | Some e =>
          if bool_decide (e_negative e = Some receipt) then (self, Ok (Hold NegativeReceiptHeld))
          else persisting written (update_entry filename (set_negative receipt) self)
                 (Hold NegativeReceiptHeld)
      end
  end.

Definition settled (self : Ledger) (filename : string) : bool :=
  is_some (entry self filename) && bool_decide (retention self filename = Release).

Definition holds_other_than (self : Ledger) (filename : string) : bool :=
  existsb (λ e, negb (str_eqb (e_filename e) filename)
                && negb (bool_decide (retention self (e_filename e) = Release))) (entries self).

Definition retry (self : Ledger) (filename : string) : RetryDecision :=
  if is_some (l_quarantine self) then RetryHold Quarantined
  else match entry self filename with
  | None => Retry
  | Some _ =>
      match retention self filename with
      | Release => RetryHold Settled
      | Hold NegativeReceiptHeld => Retry
      | Hold reason => RetryHold reason
      end
  end.

(** [rebind] and [prune] keep some of the entries, and write only when one went. *)
Definition retain_entries (written : bool) (keep : Entry → bool) (self : Ledger) : op unit :=
  let kept := List.filter keep (entries self) in
  let changed := negb (length kept =? length (entries self)) in
  let self := with_entries kept self in
  if changed then persist written self else (self, Ok tt).

Definition rebind (written : bool) (binding : string) (self : Ledger) : op unit :=
  retain_entries written (λ e, str_eqb (e_binding e) binding) self.

Definition prune (written : bool) (is_unread : string → bool) (self : Ledger) : op unit :=
  retain_entries written (λ e, is_unread (e_filename e)) self.

Definition with_owner_schema (owner : string) (self : Ledger) : Ledger :=
  let r := l_record self in
  mkDeliveryLedger (l_harness self)
    (mkRecord (schema_for_owner owner LEDGER_SCHEMA) (r_harness r) (r_agent r) (r_runtime_id r)
       (r_entries r))
    (l_quarantine self) (l_disk self).

Definition asserted (filename binding correlation : string) (phase : Phase)
    (incarnation : option string) : Entry :=
  mkEntry filename binding correlation phase Asserted incarnation None None.

(** ** Facts about entries *)

Lemma entries_with l self : entries (with_entries l self) = l.
Proof. done. Qed.

Lemma find_update_file f g l f' :
  (∀ e, e_filename (g e) = e_filename e) →
  List.find (is_file f') (update_file f g l) =
  if str_eqb f f' then g <$> List.find (is_file f') l else List.find (is_file f') l.
Proof.
  intros Hg. induction l as [|e l IH]; simpl; [by destruct (str_eqb f f')|].
  unfold is_file in *. destruct (str_eqb (e_filename e) f) eqn:Ef; simpl; rewrite ?Hg, ?IH;
    destruct (str_eqb f f') eqn:Eff, (str_eqb (e_filename e) f') eqn:Ef'; str_cases; subst; done.
Qed.

Lemma entry_update f g self f' :
  (∀ e, e_filename (g e) = e_filename e) →
  entry (update_entry f g self) f' =
  if str_eqb f f' then g <$> entry self f' else entry self f'.
Proof. intros Hg. by apply find_update_file. Qed.

Lemma entry_begun b self f :
  entry self (b_filename b) = None →
  entry (with_entries (entries self ++ [begun b]) self) f =
  if str_eqb (b_filename b) f then Some (begun b) else entry self f.
Proof.
  intros Hnone. unfold entry in *. rewrite entries_with.
  destruct (str_eqb (b_filename b) f) eqn:E; str_cases; subst.
  - induction (entries self) as [|e l IH]; simpl in *; [unfold is_file; simpl; by rewrite str_eqb_refl|].
    destruct (is_file (b_filename b) e); [done|]. by apply IH.
  - induction (entries self) as [|e l IH]; simpl in *.
    + unfold is_file. simpl. by rewrite (proj2 (str_eqb_false _ _) E).
    + destruct (is_file f e); [done|]. apply IH. by destruct (is_file (b_filename b) e).
Qed.

Lemma persisting_state {A} w self (a : A) :
  l_record (persisting w self a).1 = l_record self ∧
  l_quarantine (persisting w self a).1 = l_quarantine self ∧
  l_harness (persisting w self a).1 = l_harness self ∧
  (l_disk (persisting w self a).1 = l_disk self ∨
   l_disk (persisting w self a).1 = Some (l_record self)).
Proof. unfold persisting, persist. destruct w; simpl; auto. Qed.

Lemma Phase_le_refl p : Phase_le p p = true.
Proof. by destruct p. Qed.
Lemma Phase_le_trans a b c : Phase_le a b = true → Phase_le b c = true → Phase_le a c = true.
Proof. by destruct a, b, c. Qed.
Lemma Phase_le_max_l a b : Phase_le a (Phase_max a b) = true.
Proof. by destruct a, b. Qed.
Lemma Phase_max_Attempted p : Phase_max p Attempted = p.
Proof. by destruct p. Qed.
#[export] Hint Rewrite Phase_max_Attempted : st.

(** ** Transport is authorised once *)

Lemma retry_spec self f :
  retry self f = Retry ↔
  l_quarantine self = None ∧
  (entry self f = None ∨ ∃ e, entry self f = Some e ∧ is_some (e_negative e) = true).
Proof.
  unfold retry, retention. destruct (l_quarantine self); simpl; [naive_solver|].
  destruct (entry self f) as [e|]; simpl; [|naive_solver].
  destruct (e_negative e) eqn:En; simpl.
  - split; [|done]. intros _. split; [done|]. right. exists e. by rewrite En.
  - transitivity False;
      [|split; [done | intros (_ & [?|(e' & [= <-] & He)]); [done | by rewrite En in He]]].
    destruct (releases (e_phase e)); [done|]. by destruct (Phase_le Persisted (e_phase e)).
Qed.

(** A file is transported again only on authority: it may be sent exactly when the ledger is
    not quarantined and either holds nothing about the file or holds a negative receipt for its
    last attempt. An attempt is durable before it is made, and once begun the file may not be sent
    again until such a receipt. *)
Theorem transport_needs_authority self f :
  (retry self f = Retry ↔
   l_quarantine self = None ∧
   (entry self f = None ∨ ∃ e, entry self f = Some e ∧ is_some (e_negative e) = true)) ∧
  (∀ written b self' e,
     begin written b self = (self', Ok e) →
     l_disk self' = Some (l_record self') ∧ entry self' (b_filename b) = Some e ∧
     retry self' (b_filename b) ≠ Retry).
Proof.
  split; [apply retry_spec|]. intros written b self' e Hb. unfold begin in Hb.
  destruct (ensure_writable self); [|done]. destruct (ensure _ _); [|done].
  rewrite retry_spec.
  destruct (entry self (b_filename b)) as [e0|] eqn:Ee; destruct written;
    unfold persisting, persist in Hb; simplify_eq; simpl; split; try done.
  - change (entry (mkDeliveryLedger _ _ _ _) ?f) with
      (entry (update_entry (b_filename b) (begin_again b) self) f).
    rewrite entry_update, str_eqb_refl, Ee by done. simpl. split; [done|].
    intros (_ & [?|(e & [= <-] & ?)]); done.
  - change (entry (mkDeliveryLedger _ _ _ _) ?f) with
      (entry (with_entries (entries self ++ [begun b]) self) f).
    rewrite entry_begun, str_eqb_refl by done. split; [done|].
    intros (_ & [?|(e & [= <-] & ?)]); done.
Qed.

(** ** Operations as a sequence *)

Inductive Operation :=
| OpBegin (written : bool) (b : Begin)
| OpRecord (written : bool) (filename : string) (evidence : Evidence)
| OpTurn (written : bool) (filename turn_id : string)
| OpNegative (written : bool) (filename : string) (receipt : NegativeReceipt).

Definition run_op (self : Ledger) (o : Operation) : Ledger :=
  match o with
  | OpBegin w b => (begin w b self).1
  | OpRecord w f ev => (record w f ev self).1
  | OpTurn w f t => (accept_codex_turn w f t self).1
  | OpNegative w f r => (negative w f r self).1
  end.

(** What one operation does to the ledger in memory: nothing, an update of one file's entry that
    keeps or raises its phase, or a new entry. *)
Inductive changed (self : Ledger) (o : Operation) : list Entry → Prop :=
| changed_not : changed self o (entries self)
| changed_update f g e :
    entry self f = Some e →
    ((∃ w b, o = OpBegin w b ∧ f = b_filename b ∧ g = begin_again b ∧
        is_delivery_key f && negb (str_eqb (b_binding b) "") = true) ∨
     (∃ w ev phase, o = OpRecord w f ev ∧ graded (l_harness self) ev = Ok phase ∧
        Phase_le phase (e_phase e) = false ∧ g = set_evidence phase) ∨
     (∃ w t, o = OpTurn w f t ∧ l_harness self = HCodex ∧ t ≠ "" ∧ g = accept_turn t) ∨
     (∃ w r, o = OpNegative w f r ∧ settled self f = false ∧ g = set_negative r)) →
    changed self o (update_file f g (entries self))
| changed_begun w b :
    o = OpBegin w b → is_delivery_key (b_filename b) && negb (str_eqb (b_binding b) "") = true →
    entry self (b_filename b) = None → changed self o (entries self ++ [begun b]).

Definition same_but_entries (self self' : Ledger) : Prop :=
  l_harness self' = l_harness self ∧ l_quarantine self' = l_quarantine self ∧
  l_record self' = l_record (with_entries (entries self') self) ∧
  (l_disk self' = l_disk self ∨ l_disk self' = Some (l_record self')).

Lemma same_refl self : same_but_entries self self.
Proof. unfold same_but_entries. destruct self as [h [] q d]; simpl; auto. Qed.

Lemma same_update self l : same_but_entries self (with_entries l self).
Proof. unfold same_but_entries. destruct self as [h [] q d]; simpl; auto. Qed.

Lemma same_persisting {A} w self l (a : A) :
  same_but_entries self (persisting w (with_entries l self) a).1 ∧
  entries (persisting w (with_entries l self) a).1 = l.
Proof. unfold persisting, persist. destruct w; (split; [|done]); split_and!; simpl; auto. Qed.

Lemma run_op_changed self o :
  same_but_entries self (run_op self o) ∧ changed self o (entries (run_op self o)).
Proof.
  assert (Hno : same_but_entries self self ∧ changed self o (entries self))
    by (split; [apply same_refl | constructor]).
  destruct o as [w b|w f ev|w f t|w f r]; simpl.
  - unfold begin. destruct (ensure_writable self); [|done].
    destruct (ensure _ _) eqn:Ek; [|done].
    assert (Hk : is_delivery_key (b_filename b) && negb (str_eqb (b_binding b) "") = true)
      by (unfold ensure in Ek; by destruct (_ && _)).
    destruct (entry self (b_filename b)) as [e|] eqn:Ee.
    + destruct (same_persisting w self (update_file (b_filename b) (begin_again b) (entries self))
                  (begin_again b e)) as [Hs He]. split; [exact Hs|].
      unfold update_entry. rewrite He. eapply changed_update; [done|]. left. by exists w, b.
    + destruct (same_persisting w self (entries self ++ [begun b]) (begun b)) as [Hs He].
      split; [exact Hs|]. rewrite He. by eapply changed_begun.
  - unfold record. destruct (ensure_writable self); [|done].
    destruct (graded _ _) as [phase|] eqn:Eg; [|done].
    destruct (entry self f) as [e|] eqn:Ee; [|done].
    destruct (Phase_le phase (e_phase e)) eqn:El; [done|].
    destruct (same_persisting w self (update_file f (set_evidence phase) (entries self))
                (Some phase)) as [Hs He]. split; [exact Hs|]. unfold update_entry. rewrite He.
    eapply changed_update; [done|]. right; left. by exists w, ev, phase.
  - unfold accept_codex_turn. destruct (ensure_writable self); [|done].
    destruct (ensure _ _) eqn:Ek; [|done]. unfold ensure in Ek.
    destruct (bool_decide _ && _) eqn:Eb; [|done]. apply andb_true_iff in Eb as [Eh Et].
    apply bool_decide_eq_true in Eh. apply negb_true_iff, str_eqb_false in Et.
    destruct (entry self f) as [e|] eqn:Ee; [|done].
    destruct (is_some_and _ _); [done|].
    assert (Hc : changed self (OpTurn w f t) (update_file f (accept_turn t) (entries self))).
    { eapply changed_update; [done|]. right; right; left. by exists w, t. }
    destruct (negb _); [|by split; [apply same_update|]].
    destruct (same_persisting w self (update_file f (accept_turn t) (entries self))
                (Some (e_phase (accept_turn t e)))) as [Hs He].
    split; [exact Hs|]. unfold update_entry. by rewrite He.
  - unfold negative. destruct (ensure_writable self); [|done].
    destruct (bool_decide (retention self f = Release)) eqn:Er; [done|].
    destruct (entry self f) as [e|] eqn:Ee; [|done].
    destruct (bool_decide (e_negative e = Some r)); [done|].
    destruct (same_persisting w self (update_file f (set_negative r) (entries self))
                (Hold NegativeReceiptHeld)) as [Hs He]. split; [exact Hs|].
    unfold update_entry. rewrite He. eapply changed_update; [done|]. right; right; right.
    exists w, r. split_and!; [done| |done]. unfold settled. by rewrite Ee, Er.
Qed.

(** A settled file: consumed, with no receipt against it. *)
Lemma settled_spec self f :
  settled self f = true ↔
  l_quarantine self = None ∧
  ∃ e, entry self f = Some e ∧ e_negative e = None ∧ e_phase e = Consumed.
Proof.
  unfold settled, retention. destruct (l_quarantine self); simpl.
  { rewrite andb_false_r. naive_solver. }
  destruct (entry self f) as [e|]; simpl; [|naive_solver].
  rewrite bool_decide_eq_true. destruct (e_negative e) eqn:En, (e_phase e) eqn:Ep; simpl;
    (split; [intros H; first [done | split; [done|]; by exists e]|
             intros (_ & e' & [= <-] & ? & ?); congruence]).
Qed.

(** Evidence only accumulates: no attempt, evidence, accepted turn or negative receipt lowers
    the phase of any file or drops its entry, and a file whose message was consumed stays settled,
    so nothing sends it again. *)
Theorem evidence_never_regresses self o f e :
  entry self f = Some e →
  (∃ e', entry (run_op self o) f = Some e' ∧ Phase_le (e_phase e) (e_phase e') = true) ∧
  (settled self f = true → settled (run_op self o) f = true).
Proof.
  intros He. destruct (run_op_changed self o) as [(_ & Hq & _) Hc].
  rewrite !settled_spec, Hq.
  assert (Hup : ∃ e', entry (run_op self o) f = Some e' ∧ Phase_le (e_phase e) (e_phase e') = true ∧
                      (settled self f = true → e_negative e' = None)).
  { unfold entry at 1. destruct Hc as [|f0 g e0 He0 Hg|w b Ho Hk Hnone].
    - exists e. split_and!; [done|apply Phase_le_refl|].
      intros (_ & e1 & He1 & Hn & _)%settled_spec. congruence.
    - assert (Hname : ∀ e, e_filename (g e) = e_filename e)
        by (naive_solver).
      rewrite find_update_file by done. fold (entry self f). rewrite He.
      destruct (str_eqb f0 f) eqn:Ef; str_cases; simpl.
      + subst f0. assert (e0 = e) as -> by congruence. exists (g e). split; [done|].
        destruct Hg as [(w & b & -> & -> & -> & _)|[(w & ev & phase & -> & _ & Hl & ->)|
                       [(w & t & -> & _ & _ & ->)|(w & r & -> & Hs & ->)]]]; simpl.
        * split; [apply Phase_le_max_l | done].
        * split; [destruct phase, (e_phase e); done | done].
        * split; [apply Phase_le_max_l | done].
        * split; [apply Phase_le_refl | congruence].
      + exists e. split_and!; [done|apply Phase_le_refl|].
        intros (_ & e1 & He1 & Hn & _)%settled_spec. congruence.
    - exists e. split_and!; [|apply Phase_le_refl|].
      + pose proof (entry_begun b self f Hnone) as Hb. unfold entry at 1 in Hb.
        rewrite entries_with in Hb. rewrite Hb.
        destruct (str_eqb (b_filename b) f) eqn:Ef; str_cases; [congruence|done].
      + intros (_ & e1 & He1 & Hn & _)%settled_spec. congruence. }
  destruct Hup as (e' & He' & Hle & Hneg). split; [by exists e'|].
  intros Hset. assert (Hs : settled self f = true) by by apply settled_spec.
  destruct Hset as (? & e1 & He1 & _ & Hp). split; [done|]. exists e'. split_and!; [done|by apply Hneg|].
  assert (e1 = e) as -> by congruence. rewrite Hp in Hle. by destruct (e_phase e').
Qed.

(** ** Reopening

    The entries a process leaves behind are the ones [load] accepts. *)
Section reopening.
Context (correlate : string → string → string) (h : Harness) (agent binding : string).

Definition entry_ok (e : Entry) : Prop :=
  validate_entry correlate h e = Ok tt ∧ e_binding e = binding.

Definition record_ok (r : LedgerRecord) : Prop :=
  schema_matches (r_schema r) LEDGER_SCHEMA = true ∧ r_harness r = Harness_as_str h ∧
  r_agent r = agent ∧ Forall entry_ok (r_entries r).

Definition ledger_ok (self : Ledger) : Prop :=
  l_harness self = h ∧ record_ok (l_record self) ∧
  ∀ r, l_disk self = Some r → record_ok r.

(** Attempts are made for the one session the ledger is bound to, with its own correlation. *)
Definition op_ok (o : Operation) : Prop :=
  match o with
  | OpBegin _ b => b_binding b = binding ∧ b_correlation b = correlate binding (b_filename b)
  | _ => True
  end.

Lemma validate_entry_spec e :
  validate_entry correlate h e = Ok tt ↔
  is_delivery_key (e_filename e) = true ∧ e_binding e ≠ "" ∧
  e_correlation e = correlate (e_binding e) (e_filename e) ∧ proves h (e_phase e) = true ∧
  (∀ t, e_accepted_turn_id e = Some t →
     h = HCodex ∧ Phase_le TransportAccepted (e_phase e) = true ∧ t ≠ "").
Proof.
  unfold validate_entry, ensure.
  destruct (is_delivery_key (e_filename e)); simpl; [|naive_solver].
  destruct (str_eqb (e_binding e) "") eqn:Eb; str_cases; simpl; [naive_solver|].
  destruct (str_eqb (e_correlation e) _) eqn:Ec; str_cases; simpl; [|naive_solver].
  destruct (proves h (e_phase e)); simpl; [|naive_solver].
  destruct (e_accepted_turn_id e) as [t|]; simpl; [|naive_solver].
  case_bool_decide; simpl; [|naive_solver].
  destruct (Phase_le TransportAccepted (e_phase e)); simpl; [|naive_solver].
  destruct (str_eqb t "") eqn:Et; str_cases; naive_solver.
Qed.

Lemma graded_proves ev phase : graded h ev = Ok phase → proves h phase = true.
Proof. unfold graded. by destruct h, ev; simpl; intros; simplify_eq. Qed.

Lemma changed_ok self o l :
  l_harness self = h → op_ok o → Forall entry_ok (entries self) → changed self o l →
  Forall entry_ok l.
Proof.
  intros Hh Hop Hall Hc. destruct Hc as [|f g e He Hg|w b -> Hk Hnone]; [done| |].
  - assert (Hgok : entry_ok e → entry_ok (g e)).
    { unfold entry_ok. rewrite !validate_entry_spec. intros [(Hd & Hb & Hc & Hp & Ht) Hbind].
      destruct Hg as [(w & b & -> & -> & -> & Hk)|[(w & ev & phase & -> & Hgr & Hl & ->)|
                     [(w & t & -> & Hcx & Hte & ->)|(w & r & -> & Hs & ->)]]]; simpl in *.
      - apply find_Some_elem in He as [_ Hf]. apply str_eqb_true in Hf.
        destruct Hop as [Hob Hoc]. apply andb_true_iff in Hk as [Hk Hbe].
        rewrite Phase_max_Attempted. split_and!; try done; [by rewrite Hob, <- Hbind|congruence|].
        intros t. destruct (e_negative e); simpl; [done|apply Ht].
      - rewrite Hh in Hgr. apply graded_proves in Hgr. split_and!; try done.
        intros t (? & ? & ?)%Ht. split_and!; try done. by destruct (e_phase e), phase.
      - split_and!; try done; [|intros t' [= <-]; split_and!; [congruence| |done]].
        + rewrite <- Hh, Hcx in Hp |- *. by destruct (e_phase e).
        + by destruct (e_phase e).
      - split_and!; try done; apply Ht. }
    unfold entry in He. clear Hg. induction (entries self) as [|x l IH]; simpl in *; [done|].
    inversion Hall as [|? ? Hx Hl]; subst.
    destruct (is_file f x) eqn:Ef; [injection He as ->; constructor; auto|].
    constructor; [done|]. by apply IH.
  - destruct Hop as [Hob Hoc]. apply andb_true_iff in Hk as [Hk Hbe].
    apply Forall_app. split; [done|]. constructor; [|done]. split; [|done].
    apply validate_entry_spec. simpl. apply negb_true_iff, str_eqb_false in Hbe.
    split_and!; try done; [congruence|by destruct h].
Qed.

Lemma run_op_ok self o : ledger_ok self → op_ok o → ledger_ok (run_op self o).
Proof.
  intros (Hh & Hr & Hd) Hop. destruct (run_op_changed self o) as [(Hh' & _ & Hrec & Hdisk) Hc].
  assert (Hr' : record_ok (l_record (run_op self o))).
  { rewrite Hrec. destruct Hr as (Hs & Hha & Ha & He). split_and!; simpl; try done.
    by eapply changed_ok. }
  split_and!; [congruence|done|]. intros r Hrd. destruct Hdisk as [E|E]; rewrite E in Hrd.
  - by apply Hd.
  - by injection Hrd as <-.
Qed.

Lemma run_ops_ok ops : ∀ self,
  ledger_ok self → Forall op_ok ops → ledger_ok (fold_left run_op ops self).
Proof.
  induction ops as [|o ops IH]; intros self Hok Hops; simpl; [done|].
  apply Forall_cons_iff in Hops as [Ho Hops]. by apply IH; [apply run_op_ok|].
Qed.

Lemma accept_ok l : Forall entry_ok l → accept correlate h l = Ok tt.
Proof.
  intros Hl. unfold accept.
  assert (validate_all correlate h l = Ok tt) as ->.
  { induction Hl as [|e l [He _] Hl IH]; simpl; [done|]. by rewrite He. }
  simpl. assert (one_binding l = true) as ->; [|done].
  induction Hl as [|e l [_ He] Hl IH]; [done|]. destruct Hl as [|e' l [_ He'] Hl]; [done|].
  change (str_eqb (e_binding e) (e_binding e') && one_binding (e' :: l) = true).
  by rewrite IH, andb_true_r, He, He', str_eqb_refl.
Qed.

Lemma load_ok self r :
  l_harness self = h → r_agent (l_record self) = agent → record_ok r →
  ∃ self', load correlate self r = Ok self' ∧ entries self' = r_entries r ∧
           l_quarantine self' = l_quarantine self.
Proof.
  intros Hh Ha (Hs & Hha & Hra & He). unfold load, ensure. rewrite Hs. cbn [result_bind].
  rewrite Hha. assert (Harness_parse (Harness_as_str h) = Ok h) as -> by by destruct h.
  cbn [result_bind]. rewrite bool_decide_eq_true_2 by done. cbn [result_bind].
  rewrite Hra, Ha, str_eqb_refl. cbn [result_bind]. rewrite Hh, accept_ok by done.
  cbn [result_bind]. eexists. split; [done|]. done.
Qed.

(** C38. A ledger a process writes is never quarantined by the next: starting on a fresh seat,
    whatever attempts, evidence, turns and receipts are recorded for one session, and whichever
    of the writes failed, the record the file holds at any point is accepted when it is opened
    again, with the entries it holds. *)
Theorem written_ledger_reopens runtime_id runtime_id' ops r recovered written :
  Forall op_ok ops →
  l_disk (fold_left run_op ops
            (open FileMissing h agent runtime_id correlate (Ok []) true)) = Some r →
  let reopened := open (FileRecord r) h agent runtime_id' correlate recovered written in
  l_quarantine reopened = None ∧ entries reopened = r_entries r.
Proof.
  intros Hops Hdisk reopened.
  assert (Hstart : ledger_ok (open FileMissing h agent runtime_id correlate (Ok []) true))
    by (split_and!; simpl; done).
  destruct (run_ops_ok ops _ Hstart Hops) as (_ & _ & Hd). specialize (Hd r Hdisk).
  unfold reopened, open.
  destruct (load_ok (mkDeliveryLedger h (mkRecord LEDGER_SCHEMA (Harness_as_str h) agent runtime_id' [])
                       None (Some r)) r) as (self' & -> & He & Hq); try done.
Qed.
End reopening.

(** ** What a failed write leaves *)

Definition codex_ledger (e : Entry) : Ledger :=
  let r := mkRecord LEDGER_SCHEMA "codex" "a" "r" [e] in mkDeliveryLedger HCodex r None (Some r).

Definition first_file : string := "message/1".
Definition attempt : Begin := mkBegin first_file "t" ("t:" +:+ first_file) None.

(** Evidence whose write failed is acknowledged when it is reported again, although the file still
    lacks it: after a failed write of a consumption receipt the call fails, the same receipt then
    succeeds without writing anything, and the record on disk still says the message was only
    attempted, so the next process holds a message that was consumed. *)
Theorem unwritten_evidence_is_acknowledged :
  let l0 := codex_ledger (begun attempt) in
  let '(l1, first) := record false first_file EvConsumed l0 in
  let '(l2, second) := record true first_file EvConsumed l1 in
  first = Err "writing delivery ledger" ∧ second = Ok (Some Consumed) ∧
  settled l2 first_file = true ∧
  (e_phase <$> (l_disk l2 ≫= λ r, head (r_entries r))) = Some Attempted.
Proof. done. Qed.

(** A repeated accepted turn clears a negative receipt in memory only: the turn and the phase are
    unchanged, so nothing is written, and the record on disk still authorises another transport of
    a message this process holds. *)
Theorem cleared_receipt_is_not_durable :
  let e := set_negative ReceiptRejected (accept_turn "turn-1" (begun attempt)) in
  let l0 := codex_ledger e in
  let '(l1, outcome) := accept_codex_turn true first_file "turn-1" l0 in
  outcome = Ok (Some TransportAccepted) ∧
  retry l1 first_file = RetryHold AmbiguousAttempt ∧
  l_disk l1 = Some (l_record l0) ∧ retry l0 first_file = Retry.
Proof. done. Qed.

(** ** Examples *)

Definition toy_correlate (binding filename : string) : string := binding +:+ ":" +:+ filename.

Definition toy_ops : list Operation :=
  [OpBegin true attempt; OpTurn true first_file "turn-1"; OpRecord false first_file EvConsumed].

Lemma regress_witness :
  let l0 := codex_ledger (begun attempt) in
  (∃ e', entry (run_op l0 (OpRecord true first_file EvConsumed)) first_file = Some e' ∧
         Phase_le (e_phase (begun attempt)) (e_phase e') = true) ∧
  (settled l0 first_file = true →
   settled (run_op l0 (OpRecord true first_file EvConsumed)) first_file = true).
Proof.
  apply (evidence_never_regresses (codex_ledger (begun attempt))
           (OpRecord true first_file EvConsumed) first_file (begun attempt)).
  reflexivity.
Defined.

Lemma reopen_witness :
  let r := mkRecord LEDGER_SCHEMA "codex" "a" "r" [accept_turn "turn-1" (begun attempt)] in
  let reopened := open (FileRecord r) HCodex "a" "r2" toy_correlate (Ok []) true in
  l_quarantine reopened = None ∧ entries reopened = r_entries r.
Proof.
  apply (written_ledger_reopens toy_correlate HCodex "a" "t" "r" "r2" toy_ops
           (mkRecord LEDGER_SCHEMA "codex" "a" "r" [accept_turn "turn-1" (begun attempt)]) (Ok []) true).
  - repeat constructor.
  - reflexivity.
Defined.
