(* ===== verification/Flapping.v ===== *)
(** * The restart cap

    Models [crates/st-drivers/src/flapping.rs]: the crash-loop guard the supervisor consults before
    each (re)launch. Instants are integers and [duration_since] saturates at zero. [consecutive] is
    a u32 in the source; it is a [nat] here, since it only counts launches. [runs] is the way the
    supervisor drives the cap, with a log of what happened, newest first. *)

From S2P Require Import Prelude.

Inductive RestartMode := ModeFail | ModeDelay.

Record Restart := mkRestart {
  attempts : nat;
  interval : Z;
  delay : Z;
  restart_mode : RestartMode
}.

Inductive RestartDecision := Allow | Delaying | RateLimited | GaveUp.

#[export] Instance RestartDecision_eq_dec : EqDecision RestartDecision.
Proof. solve_decision. Defined.

Record FlappingCap := mkFlappingCap {
  launches : gmap string (list Z);
  last_launch : gmap string Z;
  parked : gset string;
  consecutive : gmap string nat;
  healthy_since : gmap string Z;
  decided_this_pass : gset string
}.

Definition new : FlappingCap := mkFlappingCap ∅ ∅ ∅ ∅ ∅ ∅.

Definition duration_since (now t : Z) : Z := Z.max 0 (now - t).

Definition is_parked (self : FlappingCap) (id : string) : bool := bool_decide (id ∈ parked self).

Definition unpark (self : FlappingCap) (id : string) : FlappingCap * bool :=
  if is_parked self id
  then (mkFlappingCap (delete id (launches self)) (delete id (last_launch self))
          (parked self ∖ {[id]}) (delete id (consecutive self)) (delete id (healthy_since self))
          (decided_this_pass self), true)
  else (self, false).

(** [recent_count]: prunes the launches out of the window and counts the rest. *)
Definition recent_count (self : FlappingCap) (id : string) (now : Z) (policy : Restart)
    : FlappingCap * nat :=
  match launches self !! id with
  | None => (self, 0)
  | Some times =>
      let kept := List.filter (λ t, (duration_since now t <? interval policy)%Z) times in
      (mkFlappingCap (<[id := kept]> (launches self)) (last_launch self) (parked self)
         (consecutive self) (healthy_since self) (decided_this_pass self), length kept)
  end.

(** The state as [decide] has it before its first return: the task is marked decided and its
    accrued uptime is taken. *)
Definition begin_decide (self : FlappingCap) (id : string) : FlappingCap :=
  mkFlappingCap (launches self) (last_launch self) (parked self) (consecutive self)
    (delete id (healthy_since self)) ({[id]} ∪ decided_this_pass self).

Definition forgive (self : FlappingCap) (id : string) : FlappingCap :=
  mkFlappingCap (launches self) (last_launch self) (parked self) (delete id (consecutive self))
    (healthy_since self) (decided_this_pass self).

Definition park (self : FlappingCap) (id : string) : FlappingCap :=
  mkFlappingCap (launches self) (last_launch self) ({[id]} ∪ parked self) (consecutive self)
    (healthy_since self) (decided_this_pass self).

Definition decide_restart (self : FlappingCap) (id : string) (now : Z) (policy : Restart)
    : FlappingCap * RestartDecision :=
  let survived := healthy_since self !! id in
  let self := begin_decide self id in
  if is_parked self id then (self, GaveUp)
  else
    let self :=
      if is_some_and survived (λ since, (interval policy <=? duration_since now since)%Z)
      then forgive self id else self in
    if is_some_and (last_launch self !! id) (λ last, (duration_since now last <? delay policy)%Z)
    then (self, Delaying)
    else
      match restart_mode policy with
      | ModeFail =>
          if attempts policy <=? default 0 (consecutive self !! id) then (park self id, GaveUp)
          else (self, Allow)
      | ModeDelay =>
          let (self, count) := recent_count self id now policy in
          if attempts policy <=? count then (self, RateLimited) else (self, Allow)
      end.

Definition record (self : FlappingCap) (id : string) (now : Z) : FlappingCap :=
  mkFlappingCap (<[id := default [] (launches self !! id) ++ [now]]> (launches self))
    (<[id := now]> (last_launch self)) (parked self)
    (<[id := S (default 0 (consecutive self !! id))]> (consecutive self))
    (healthy_since self) (decided_this_pass self).

Definition end_pass (self : FlappingCap) (now : Z) (observed_live : list string) : FlappingCap :=
  let decided := decided_this_pass self in
  let healthy :=
    fold_left (λ healthy id,
        if negb (bool_decide (id ∈ decided)) && bool_decide (id ∈ observed_live)
        then (match healthy !! id with Some _ => healthy | None => <[id := now]> healthy end)
        else delete id healthy)
      (map fst (map_to_list (consecutive self))) (healthy_since self) in
  mkFlappingCap (launches self) (last_launch self) (parked self) (consecutive self) healthy ∅.

(** ** Driving the cap *)

Inductive LogEvent :=
| EvDecide (id : string) (now : Z)
| EvLaunch (id : string) (now : Z)
| EvPass (now : Z) (live : list string)
| EvUnpark (id : string).

(** Each task has the policy of its agent. *)
Inductive runs (policy : string → Restart) : list LogEvent → FlappingCap → Prop :=
| runs_new : runs policy [] new
| runs_decide log c id now c' d :
    runs policy log c → decide_restart c id now (policy id) = (c', d) →
    runs policy (EvDecide id now :: log) c'
| runs_launch log c id now c' :
    runs policy log c → decide_restart c id now (policy id) = (c', Allow) →
    runs policy (EvLaunch id now :: EvDecide id now :: log) (record c' id now)
| runs_pass log c now live :
    runs policy log c → runs policy (EvPass now live :: log) (end_pass c now live)
| runs_unpark log c id :
    runs policy log c → runs policy (EvUnpark id :: log) (unpark c id).1.

Definition is_launch (id : string) (e : LogEvent) : bool :=
  match e with EvLaunch id' _ => str_eqb id' id | _ => false end.

Definition launch_count (id : string) (log : list LogEvent) : nat :=
  length (List.filter (is_launch id) log).

(** *** What a pass does to one task *)

Lemma end_pass_healthy c now live id :
  (healthy_since (end_pass c now live)) !! id =
  if bool_decide (is_Some (consecutive c !! id))
  then if bool_decide ((id ∉ decided_this_pass c) ∧ id ∈ live)
       then Some (default now (healthy_since c !! id)) else None
  else healthy_since c !! id.
Proof.
  unfold end_pass. simpl.
  set (f := λ healthy id0, if negb (bool_decide (id0 ∈ decided_this_pass c)) && bool_decide (id0 ∈ live)
        then (match healthy !! id0 with Some _ => healthy | None => <[id0 := now]> healthy end)
        else delete id0 healthy).
  set (ids := map fst (map_to_list (consecutive c))).
  assert (Hids : id ∈ ids ↔ is_Some (consecutive c !! id)).
  { unfold ids. rewrite list_elem_of_fmap. split.
    - intros ([k n] & -> & Hin). apply elem_of_map_to_list in Hin. simpl. by exists n.
    - intros [n Hn]. exists (id, n). split; [done|]. by apply elem_of_map_to_list. }
  assert (Hnd : NoDup ids) by apply NoDup_fst_map_to_list.
  assert (Hone : ∀ (h : gmap string Z) k, k ≠ id → (f h k) !! id = h !! id).
  { intros h k Hk. unfold f. destruct (_ && _); [|by rewrite lookup_delete_ne].
    destruct (h !! k); [done|]. by rewrite lookup_insert_ne. }
  assert (Hself : ∀ h : gmap string Z, (f h id) !! id =
    if bool_decide ((id ∉ decided_this_pass c) ∧ id ∈ live) then Some (default now (h !! id)) else None).
  { intros h. unfold f. repeat case_bool_decide; simpl; try naive_solver; try (by rewrite lookup_delete_eq).
    destruct (h !! id) eqn:E; simpl; [done|]. by rewrite lookup_insert_eq. }
  clearbody f ids. clear -Hids Hnd Hone Hself.
  assert (Hgen : ∀ h, (fold_left f ids h) !! id =
    if bool_decide (id ∈ ids) then (f h id) !! id else h !! id).
  { clear Hids. induction ids as [|k ids IH]; intros h; simpl; [done|].
    inversion Hnd as [|? ? Hk Hnd']; subst. rewrite IH by done.
    destruct (decide (k = id)) as [->|Hne].
    - rewrite bool_decide_eq_false_2, bool_decide_eq_true_2; [done | left | done].
    - rewrite !Hself, Hone by done.
      rewrite (bool_decide_ext (id ∈ k :: ids) (id ∈ ids)); [done|]. set_solver. }
  rewrite Hgen, Hself. by rewrite (bool_decide_ext _ _ Hids).
Qed.

(** *** What a decision does *)

Definition in_window (policy : Restart) (now t : Z) : bool :=
  (duration_since now t <? interval policy)%Z.

(** The tasks a decision is not about keep everything; the one it is about loses its accrued
    uptime, and its failure count only when that uptime spans the interval. *)
Lemma decide_facts c id now policy c' d :
  decide_restart c id now policy = (c', d) →
  (∀ x, x ≠ id → healthy_since c' !! x = healthy_since c !! x ∧
                 consecutive c' !! x = consecutive c !! x ∧
                 launches c' !! x = launches c !! x ∧ (x ∈ parked c' ↔ x ∈ parked c)) ∧
  healthy_since c' !! id = None ∧
  (consecutive c' !! id = consecutive c !! id ∨
   consecutive c' !! id = None ∧
   ∃ since, healthy_since c !! id = Some since ∧ (interval policy ≤ duration_since now since)%Z) ∧
  (launches c' !! id = launches c !! id ∨
   launches c' !! id = List.filter (in_window policy now) <$> launches c !! id) ∧
  (id ∈ parked c → id ∈ parked c' ∧ d = GaveUp) ∧
  (restart_mode policy = ModeDelay → parked c' = parked c) ∧
  (d = Allow → restart_mode policy = ModeFail → default 0 (consecutive c' !! id) < attempts policy) ∧
  (d = Allow → restart_mode policy = ModeDelay →
   length (List.filter (in_window policy now) (default [] (launches c !! id))) < attempts policy ∧
   default [] (launches c' !! id) =
     List.filter (in_window policy now) (default [] (launches c !! id))).
Proof.
  unfold decide_restart.
  assert (Hb : is_parked (begin_decide c id) id = bool_decide (id ∈ parked c)) by done.
  rewrite Hb. case_bool_decide as Hp.
  { intros [= <- <-]. simpl. rewrite lookup_delete_eq. split_and!; auto; try done.
    intros x Hx. by rewrite lookup_delete_ne. }
  set (c1 := if is_some_and (healthy_since c !! id) _ then forgive (begin_decide c id) id
             else begin_decide c id).
  assert (H1 : launches c1 = launches c ∧ parked c1 = parked c ∧ last_launch c1 = last_launch c ∧
               healthy_since c1 = delete id (healthy_since c) ∧
               (∀ x, x ≠ id → consecutive c1 !! x = consecutive c !! x) ∧
               (consecutive c1 !! id = consecutive c !! id ∨ consecutive c1 !! id = None ∧
                 ∃ since, healthy_since c !! id = Some since ∧
                          (interval policy ≤ duration_since now since)%Z)).
  { unfold c1. destruct (healthy_since c !! id) as [since|]; simpl; [|by auto 10].
    destruct (Z.leb_spec (interval policy) (duration_since now since)); simpl; [|by auto 10].
    rewrite lookup_delete_eq. split_and!; auto; [|right; eauto].
    intros x Hx. by rewrite lookup_delete_ne. }
  clearbody c1. clear Hb. destruct H1 as (Hl & Hpk & _ & Hh & Hco & Hci).
  assert (Hhx : ∀ x, x ≠ id → healthy_since c1 !! x = healthy_since c !! x)
    by (intros x Hx; by rewrite Hh, lookup_delete_ne).
  assert (Hhid : healthy_since c1 !! id = None) by by rewrite Hh, lookup_delete_eq.
  destruct (is_some_and _ _).
  { intros [= <- <-]. rewrite Hl, Hpk. split_and!; auto; done. }
  destruct (restart_mode policy) eqn:Hm.
  - destruct (Nat.leb_spec (attempts policy) (default 0 (consecutive c1 !! id))); intros [= <- <-]; simpl;
      rewrite Hl, ?Hpk; split_and!; auto; try done.
    intros x Hx. split_and!; auto. set_solver.
  - unfold recent_count. rewrite Hl. fold (in_window policy now).
    destruct (launches c !! id) as [times|] eqn:El; simpl.
    + destruct (Nat.leb_spec (attempts policy) (length (List.filter (in_window policy now) times)));
        intros [= <- <-]; simpl; rewrite lookup_insert_eq, ?Hpk; split_and!; auto; try done;
        intros x Hx; rewrite lookup_insert_ne by done; rewrite ?Hl; split_and!; auto.
    + destruct (Nat.leb_spec (attempts policy) 0); intros [= <- <-]; rewrite ?Hl, ?Hpk, ?El;
        split_and!; auto; try done; intros x Hx; rewrite ?Hl; split_and!; auto.
Qed.

(** ** The failure budget *)

(** A task no pass ever saw alive and no operator unparked. *)
Definition never_up (id : string) (log : list LogEvent) : Prop :=
  Forall (λ e, match e with
               | EvPass _ live => id ∉ live
               | EvUnpark id' => id' ≠ id
               | _ => True
               end) log.

Lemma fail_budget_inv policy log c id :
  restart_mode (policy id) = ModeFail → runs policy log c → never_up id log →
  healthy_since c !! id = None ∧ default 0 (consecutive c !! id) = launch_count id log ∧
  launch_count id log ≤ attempts (policy id).
Proof.
  intros Hm Hr. induction Hr as [|log c x now c' d Hr IH Hd|log c x now c' Hr IH Hd|log c now live Hr IH
                                |log c x Hr IH]; intros Hup.
  - simpl. rewrite !lookup_empty. unfold launch_count. simpl. split_and!; [done..|lia].
  - apply Forall_cons_iff in Hup as [_ Hup]. destruct (IH Hup) as (Hh & Hc & Hle).
    apply decide_facts in Hd as (Hx & Hid & Hcons & _). destruct (decide (x = id)) as [->|Hne].
    + destruct Hcons as [->|(_ & s & Hs & _)]; [|congruence]. done.
    + destruct (Hx id) as (-> & -> & _); [congruence|]. done.
  - apply Forall_cons_iff in Hup as [_ Hup]. apply Forall_cons_iff in Hup as [_ Hup].
    destruct (IH Hup) as (Hh & Hc & Hle).
    apply decide_facts in Hd as (Hx & Hid & Hcons & _ & _ & _ & Hbudget & _).
    unfold launch_count in *. simpl.
    destruct (decide (x = id)) as [->|Hne].
    + specialize (Hbudget eq_refl Hm). rewrite str_eqb_refl, lookup_insert_eq. simpl.
      destruct Hcons as [E|(_ & s & Hs & _)]; [|congruence]. rewrite E, Hc in *.
      split_and!; [done..|lia].
    + rewrite (proj2 (str_eqb_false x id) Hne). rewrite lookup_insert_ne by done.
      destruct (Hx id) as (-> & -> & _); [congruence|]. done.
  - apply Forall_cons_iff in Hup as [Hlive Hup]. destruct (IH Hup) as (Hh & Hc & Hle).
    rewrite end_pass_healthy. split_and!; [|done|done].
    case_bool_decide; [|done]. rewrite bool_decide_eq_false_2 by naive_solver. done.
  - apply Forall_cons_iff in Hup as [Hne Hup]. destruct (IH Hup) as (Hh & Hc & Hle).
    unfold unpark. destruct (is_parked c x); simpl; [|done]. by rewrite !lookup_delete_ne.
Qed.

(** Under a fail policy a crash loop ends: a task that no pass ever observes alive, and that
    no operator unparks, is launched at most the policy's number of attempts, whatever the times
    of the decisions and passes. *)
Theorem crash_loop_is_bounded policy log c id :
  restart_mode (policy id) = ModeFail → runs policy log c → never_up id log →
  launch_count id log ≤ attempts (policy id).
Proof. intros Hm Hr Hup. by apply (fail_budget_inv policy log c id). Qed.

(** ** Forgiveness *)

(** Since a pass at [since] that saw the task alive, every later pass saw it alive and nothing
    decided about it. *)
Definition observed_up (id : string) (since : Z) (log : list LogEvent) : Prop :=
  ∃ newer live older,
    log = newer ++ EvPass since live :: older ∧ id ∈ live ∧
    Forall (λ e, match e with
                 | EvPass _ live' => id ∈ live'
                 | EvDecide id' _ | EvLaunch id' _ => id' ≠ id
                 | EvUnpark _ => True
                 end) newer.

Lemma observed_up_cons id since e log :
  observed_up id since log →
  (match e with
   | EvPass _ live' => id ∈ live'
   | EvDecide id' _ | EvLaunch id' _ => id' ≠ id
   | EvUnpark _ => True
   end) → observed_up id since (e :: log).
Proof.
  intros (newer & live & older & -> & Hl & Hn) He. exists (e :: newer), live, older.
  split_and!; [done..|]. by constructor.
Qed.

Lemma healthy_is_observed policy log c :
  runs policy log c →
  ∀ id since, healthy_since c !! id = Some since →
    is_Some (consecutive c !! id) ∧ observed_up id since log.
Proof.
  induction 1 as [|log c x now c' d Hr IH Hd|log c x now c' Hr IH Hd|log c now live Hr IH
                 |log c x Hr IH]; intros id since Hs.
  - simpl in Hs. by rewrite lookup_empty in Hs.
  - apply decide_facts in Hd as (Hx & Hid & _). destruct (decide (id = x)) as [->|Hne]; [congruence|].
    destruct (Hx id Hne) as (E & E' & _). rewrite E in Hs. rewrite E'.
    destruct (IH id since Hs) as [? Hup]. split; [done|]. apply observed_up_cons; [done|congruence].
  - apply decide_facts in Hd as (Hx & Hid & _). simpl in Hs.
    destruct (decide (id = x)) as [->|Hne]; [congruence|].
    destruct (Hx id Hne) as (E & E' & _). rewrite E in Hs. simpl. rewrite lookup_insert_ne, E' by done.
    destruct (IH id since Hs) as [? Hup]. split; [done|].
    apply observed_up_cons; [apply observed_up_cons; [done|congruence]|congruence].
  - rewrite end_pass_healthy in Hs. case_bool_decide as Ht.
    + split; [done|]. case_bool_decide as Hl; [|done]. destruct Hl as [_ Hl].
      destruct (healthy_since c !! id) as [s|] eqn:E; simpl in Hs; injection Hs as <-.
      * apply observed_up_cons; [by apply IH|done].
      * by exists [], live, log.
    + destruct (IH id since Hs) as [? _]. done.
  - unfold unpark in Hs |- *. destruct (is_parked c x); simpl in Hs |- *;
      [|destruct (IH id since Hs) as [? Hup]; split; [done|by apply observed_up_cons]].
    apply lookup_delete_Some in Hs as [Hne Hs]. rewrite lookup_delete_ne by done.
    destruct (IH id since Hs) as [? Hup]. split; [done|by apply observed_up_cons].
Qed.

(** A failure history is forgiven only for observed uptime: a decision that clears a task's
    count follows a stretch of at least the policy's interval that began with a pass that saw the
    task alive, in which every pass saw it alive and no decision about it was made. Time during
    which nobody looked, or in which the task was relaunched, never counts. *)
Theorem forgiveness_needs_observed_uptime policy log c id now c' d n :
  runs policy log c → decide_restart c id now (policy id) = (c', d) →
  consecutive c !! id = Some n → consecutive c' !! id = None →
  ∃ since, (interval (policy id) ≤ duration_since now since)%Z ∧ observed_up id since log.
Proof.
  intros Hr (_ & _ & [E|(_ & since & Hs & Hi)] & _)%decide_facts Hn Hn'; [congruence|].
  exists since. split; [done|]. by apply (healthy_is_observed policy log c Hr id since).
Qed.

(** ** The launch rate *)

Definition event_time (e : LogEvent) : option Z :=
  match e with
  | EvDecide _ now | EvLaunch _ now | EvPass now _ => Some now
  | EvUnpark _ => None
  end.

Definition after_all (now : Z) (log : list LogEvent) : Prop :=
  Forall (λ e, is_none_or (event_time e) (λ t, (t <=? now)%Z) = true) log.

(** Times never go back. *)
Fixpoint in_time (log : list LogEvent) : Prop :=
  match log with
  | [] => True
  | e :: log' =>
      (match event_time e with Some now => after_all now log' | None => True end) ∧ in_time log'
  end.

(** The launches of a task, oldest first. *)
Fixpoint launch_times (id : string) (log : list LogEvent) : list Z :=
  match log with
  | [] => []
  | EvLaunch id' t :: log' => launch_times id log' ++ (if str_eqb id' id then [t] else [])
  | _ :: log' => launch_times id log'
  end.

Lemma filter_window policy now now' (l : list Z) :
  (now ≤ now')%Z →
  List.filter (in_window policy now') (List.filter (in_window policy now) l) =
  List.filter (in_window policy now') l.
Proof.
  intros Hle. induction l as [|t l IH]; simpl; [done|].
  unfold in_window, duration_since in *. destruct (Z.ltb_spec (Z.max 0 (now - t)) (interval policy)); simpl.
  - by rewrite IH.
  - destruct (Z.ltb_spec (Z.max 0 (now' - t)) (interval policy)); [lia|done].
Qed.

Lemma launches_in_window policy log c id :
  restart_mode (policy id) = ModeDelay → runs policy log c → in_time log →
  (id ∉ parked c) ∧ ∀ now, after_all now log →
    List.filter (in_window (policy id) now) (default [] (launches c !! id)) =
    List.filter (in_window (policy id) now) (launch_times id log).
Proof.
  intros Hm Hr. induction Hr as [|log c x t c' d Hr IH Hd|log c x t c' Hr IH Hd|log c t live Hr IH
                                |log c x Hr IH]; intros Ht; simpl in Ht.
  - simpl. rewrite lookup_empty. split; [set_solver|done].
  - destruct Ht as [Hat Ht]. destruct (IH Ht) as [Hp Hw].
    apply decide_facts in Hd as (Hx & _ & _ & Hl & _ & Hpk & _).
    destruct (decide (id = x)) as [->|Hne].
    + split; [by rewrite Hpk|]. intros now [Hnow Hall]%Forall_cons_iff. simpl in *. rewrite <- (Hw now Hall).
      destruct Hl as [->| ->]; [done|]. destruct (launches c !! x); simpl; [|done]. apply filter_window. lia.
    + destruct (Hx id Hne) as (_ & _ & -> & ->). split; [done|]. intros now [_ Hall]%Forall_cons_iff. by apply Hw.
  - destruct Ht as [_ [Hat Ht]]. destruct (IH Ht) as [Hp Hw].
    apply decide_facts in Hd as (Hx & _ & _ & _ & _ & Hpk & _ & Hl). cbn [record parked launches].
    destruct (decide (id = x)) as [->|Hne].
    + split; [by rewrite Hpk|]. intros now [_ [Hnow Hall]%Forall_cons_iff]%Forall_cons_iff. simpl in *.
      rewrite lookup_insert_eq, str_eqb_refl. simpl. rewrite !List.filter_app, <- (Hw now Hall). f_equal.
      destruct (Hl eq_refl Hm) as [_ ->]. apply filter_window. lia.
    + destruct (Hx id Hne) as (_ & _ & El & ->). split; [done|].
      intros now [_ [_ Hall]%Forall_cons_iff]%Forall_cons_iff. simpl.
      rewrite lookup_insert_ne, (proj2 (str_eqb_false x id)), app_nil_r, El by done. by apply Hw.
  - destruct Ht as [_ Ht]. destruct (IH Ht) as [Hp Hw]. split; [done|].
    intros now [_ Hall]%Forall_cons_iff. by apply Hw.
  - destruct Ht as [_ Ht]. destruct (IH Ht) as [Hp Hw].
    unfold unpark, is_parked. case_bool_decide as Hx; simpl.
    + rewrite lookup_delete_ne by (intros ->; done). split; [set_solver|]. intros now [_ Hall]%Forall_cons_iff. by apply Hw.
    + split; [done|]. intros now [_ Hall]%Forall_cons_iff. by apply Hw.
Qed.

(** Under a delay policy launches are rate limited: whenever a launch is allowed, fewer than
    the policy's attempts of that task were launched within the interval before it, counting every
    launch ever recorded; so no interval holds more than the attempts. *)
Theorem launch_rate_is_bounded policy log c id now c' :
  restart_mode (policy id) = ModeDelay → runs policy log c → in_time log → after_all now log →
  decide_restart c id now (policy id) = (c', Allow) →
  length (List.filter (in_window (policy id) now) (launch_times id log)) < attempts (policy id).
Proof.
  intros Hm Hr Ht Hnow (_ & _ & _ & _ & _ & _ & _ & Hl)%decide_facts.
  destruct (launches_in_window policy log c id Hm Hr Ht) as [_ Hw].
  rewrite <- (Hw now Hnow). by apply Hl.
Qed.

(** ** Examples *)

Definition fail_twice : Restart := mkRestart 2 60 0 ModeFail.
Definition delay_once : Restart := mkRestart 1 60 0 ModeDelay.

Definition launch_at (c : FlappingCap) (id : string) (now : Z) (policy : Restart) : FlappingCap :=
  record (decide_restart c id now policy).1 id now.

Definition crash_log : list LogEvent :=
  [EvDecide "p" 3; EvLaunch "p" 2; EvDecide "p" 2; EvLaunch "p" 1; EvDecide "p" 1].

Lemma crash_witness :
  launch_count "p" crash_log = 2 ∧ launch_count "p" crash_log ≤ attempts fail_twice ∧
  (decide_restart (launch_at (launch_at new "p" 1 fail_twice) "p" 2 fail_twice) "p" 3 fail_twice).2
    = GaveUp.
Proof.
  split_and!; [reflexivity| |reflexivity].
  set (c1 := launch_at new "p" 1 fail_twice). set (c2 := launch_at c1 "p" 2 fail_twice).
  apply (crash_loop_is_bounded (const fail_twice) crash_log (decide_restart c2 "p" 3 fail_twice).1 "p").
  - reflexivity.
  - apply (runs_decide _ _ c2 _ _ _ GaveUp); [|reflexivity].
    apply (runs_launch _ _ c1 _ _ (decide_restart c1 "p" 2 fail_twice).1); [|reflexivity].
    apply (runs_launch _ _ new _ _ (decide_restart new "p" 1 fail_twice).1); [|reflexivity].
    constructor.
  - repeat constructor.
Defined.

Lemma forgiveness_witness :
  let log := [EvPass 70 ["p"]; EvPass 5 ["p"]; EvPass 2 []; EvLaunch "p" 1; EvDecide "p" 1] in
  ∃ since, (interval fail_twice ≤ duration_since 71 since)%Z ∧ observed_up "p" since log.
Proof.
  intros log. set (c1 := launch_at new "p" 1 fail_twice).
  set (c := end_pass (end_pass (end_pass c1 2 []) 5 ["p"]) 70 ["p"]).
  apply (forgiveness_needs_observed_uptime (const fail_twice) log c "p" 71
           (decide_restart c "p" 71 fail_twice).1 Allow 1).
  - repeat apply runs_pass.
    apply (runs_launch _ _ new _ _ (decide_restart new "p" 1 fail_twice).1); [constructor|reflexivity].
  - reflexivity.
  - reflexivity.
  - reflexivity.
Defined.

Lemma rate_witness :
  let log := [EvLaunch "p" 1; EvDecide "p" 1] in
  let c := launch_at new "p" 1 delay_once in
  (decide_restart c "p" 30 delay_once).2 = RateLimited ∧
  length (List.filter (in_window delay_once 61) (launch_times "p" log)) < attempts delay_once.
Proof.
  intros log c. split; [reflexivity|].
  apply (launch_rate_is_bounded (const delay_once) log c "p" 61 (decide_restart c "p" 61 delay_once).1).
  - reflexivity.
  - apply (runs_launch _ _ new _ _ (decide_restart new "p" 1 delay_once).1); [constructor|reflexivity].
  - repeat constructor.
  - repeat constructor.
  - reflexivity.
Defined.
