(* ===== verification/SupervisorChain.v ===== *)
(** * The supervisor chain

    Models [crates/st-drivers/src/supervisor_chain.rs] and the identity functions of
    [crates/agent-spec/src/spec.rs] it calls: the walk of the declared [supervisor] edge from an
    agent to its root, with its cycle guard and its depth bound. The loop of at most
    [SUPERVISOR_CHAIN_LIMIT] steps is a recursion on the steps left. *)

From Stdlib Require Import Ascii.
From S2P Require Import Prelude Text.

Definition SUPERVISOR_CHAIN_LIMIT : nat := 64.

Inductive SupervisorChainError := Cycle | MissingSupervisor | DepthLimit.

(** The fields of a declaration this code reads. *)
Record AgentSpec := mkAgentSpec {
  identity : string;
  spec_host : option string;
  supervisor : option string;
  retired : bool
}.

Definition bus_id (self : AgentSpec) (this_host : string) : string :=
  default this_host (spec_host self) +:+ "." +:+ identity self.

Definition resolved_host (self : AgentSpec) (this_host : string) : string :=
  default this_host (spec_host self).

Definition resolve_spec (specs : list AgentSpec) (reference local_host : string) : option AgentSpec :=
  match List.filter (λ spec, str_eqb (bus_id spec local_host) reference
                             || (str_eqb (resolved_host spec local_host) local_host
                                 && str_eqb (identity spec) reference)) specs with
  | [first] => Some first
  | _ => None
  end.

Definition is_counted_root (spec : AgentSpec) : bool := is_none (supervisor spec) && negb (retired spec).

Fixpoint walk (specs : list AgentSpec) (this_host : string) (steps : nat) (visited : list string)
    (found : list AgentSpec) (current : AgentSpec) : result SupervisorChainError (list AgentSpec) :=
  match steps with
  | O => Err DepthLimit
  | S steps =>
      if bool_decide (bus_id current this_host ∈ visited) then Err Cycle
      else
        let visited := bus_id current this_host :: visited in
        let found := found ++ [current] in
        match supervisor current with
        | None => Ok found
        | Some reference =>
            match resolve_spec specs reference (resolved_host current this_host) with
            | None => Err MissingSupervisor
            | Some next => walk specs this_host steps visited found next
            end
        end
  end.

Definition chain (specs : list AgentSpec) (start : AgentSpec) (this_host : string)
    : result SupervisorChainError (list AgentSpec) :=
  walk specs this_host SUPERVISOR_CHAIN_LIMIT [] [] start.

Definition chain_bus_ids (specs : list AgentSpec) (start : AgentSpec) (this_host : string)
    : result SupervisorChainError (list string) :=
  let? l := chain specs start this_host in Ok (map (λ spec, bus_id spec this_host) l).

(** [ancestors]: the chain without its first; [None] where [remove(0)] would panic. *)
Definition ancestors (specs : list AgentSpec) (start : AgentSpec) (this_host : string)
    : option (result SupervisorChainError (list AgentSpec)) :=
  match chain specs start this_host with
  | Err e => Some (Err e)
  | Ok l => match vec_remove 0 l with Some (_, rest) => Some (Ok rest) | None => None end
  end.

(** ** The specification *)

Section path.
Context (specs : list AgentSpec) (this_host : string).

(** [next] is the one declaration [current]'s supervisor reference names. *)
Definition supervised_by (current next : AgentSpec) : Prop :=
  ∃ reference, supervisor current = Some reference ∧
    resolve_spec specs reference (resolved_host current this_host) = Some next.

(** A path of supervisors that ends at a root. *)
Inductive path_to_root : AgentSpec → list AgentSpec → Prop :=
| path_root current : supervisor current = None → path_to_root current [current]
| path_step current next l :
    supervised_by current next → path_to_root next l → path_to_root current (current :: l).

Definition ids (l : list AgentSpec) : list string := map (λ spec, bus_id spec this_host) l.

Lemma walk_Ok steps visited found current l :
  walk specs this_host steps visited found current = Ok l ↔
  ∃ p, path_to_root current p ∧ l = found ++ p ∧ length p ≤ steps ∧
       NoDup (ids p) ∧ ∀ id, id ∈ ids p → id ∉ visited.
Proof.
  revert visited found current; induction steps as [|steps IH]; intros visited found current; simpl.
  { split; [done|]. intros (p & Hp & _ & Hlen & _). destruct Hp; simpl in Hlen; lia. }
  case_bool_decide as Hv.
  { split; [done|]. intros (p & Hp & _ & _ & _ & Hnot). exfalso.
    apply (Hnot (bus_id current this_host)); [|done]. destruct Hp; left. }
  destruct (supervisor current) as [reference|] eqn:Es.
  2: { split.
       - intros [= <-]. exists [current]. split_and!; [by constructor|done|simpl; lia| |].
         + apply NoDup_singleton.
         + intros id ->%list_elem_of_singleton. done.
       - intros (p & Hp & -> & _). inversion Hp as [|? ? ? (r & Hr & _)]; subst; [done|congruence]. }
  destruct (resolve_spec specs reference (resolved_host current this_host)) as [next|] eqn:Er.
  2: { split; [done|]. intros (p & Hp & _).
       inversion Hp as [|? ? ? (r & Hr & Hr')]; subst; congruence. }
  assert (Hby : supervised_by current next) by by exists reference.
  rewrite IH. split.
  - intros (p & Hp & -> & Hlen & Hnd & Hnot). exists (current :: p).
    split_and!; [by econstructor|by rewrite <- app_assoc|simpl; lia| |].
    + constructor; [|done]. intros Hin. apply (Hnot _ Hin). left.
    + intros id [->|Hid]%elem_of_cons; [done|]. intros Hin. apply (Hnot id Hid). by right.
  - intros (p & Hp & -> & Hlen & Hnd & Hnot).
    inversion Hp as [? Hs|? next' p' (r & Hr & Hr') Hp']; subst; [congruence|].
    assert (next' = next) as -> by congruence. simpl in *.
    inversion Hnd as [|? ? Hcur Hnd']; subst. exists p'.
    split_and!; [done|by rewrite <- app_assoc|lia|done|].
    intros id Hid [->|Hin]%elem_of_cons; [done|]. apply (Hnot id); [by right|done].
Qed.
End path.

(** The chain is exactly the path of declared supervisors from an agent to its root: it is
    returned when there is one, of at most 64 declarations with no bus ID twice, and it is that
    path; a malformed catalog gives an error instead of a hang. Its ancestors are the same path
    without the agent itself, and taking them never panics. *)
Theorem chain_is_the_path_to_the_root specs start this_host l :
  (chain specs start this_host = Ok l ↔
   path_to_root specs this_host start l ∧ length l ≤ SUPERVISOR_CHAIN_LIMIT ∧
   NoDup (ids this_host l)) ∧
  (∃ r, ancestors specs start this_host = Some r ∧
        (chain specs start this_host = Ok l → l = start :: (match r with Ok a => a | Err _ => [] end))).
Proof.
  assert (Hchain : ∀ l, chain specs start this_host = Ok l ↔
    path_to_root specs this_host start l ∧ length l ≤ SUPERVISOR_CHAIN_LIMIT ∧ NoDup (ids this_host l)).
  { intros l'. unfold chain. rewrite walk_Ok. split.
    - intros (p & ? & -> & ? & ? & _). done.
    - intros (? & ? & ?). exists l'. split_and!; try done. intros id _ Hin.
      by apply not_elem_of_nil in Hin. }
  split; [apply Hchain|]. unfold ancestors.
  destruct (chain specs start this_host) as [l'|e] eqn:E; [|by exists (Err e)].
  destruct (proj1 (Hchain l') eq_refl) as (Hp & _).
  destruct Hp as [|? next l' Hby Hp]; simpl; eexists; (split; [done|]); by intros [= <-].
Qed.

(** ** Examples *)

Definition org : list AgentSpec :=
  [mkAgentSpec "worker" None (Some "lead") false; mkAgentSpec "lead" None (Some "hub.root") false;
   mkAgentSpec "root" (Some "hub") None false].

Lemma chain_example :
  chain_bus_ids org (mkAgentSpec "worker" None (Some "lead") false) "studio" =
    Ok ["studio.worker"; "studio.lead"; "hub.root"].
Proof. reflexivity. Qed.

Lemma cycle_example :
  chain [mkAgentSpec "a" None (Some "b") false; mkAgentSpec "b" None (Some "a") false]
    (mkAgentSpec "a" None (Some "b") false) "h" = Err Cycle.
Proof. reflexivity. Qed.
