(* ===== verification/TaskReconcile.v ===== *)
(** * Reconciling tasks

    Models the plan of [crates/st-drivers/src/reconcile.rs]: what is declared for this host against the
    sessions that are observed, and which tasks to launch, stop, reap, hold or adopt. The fields of a
    declaration are those of [crates/agent-spec/src/spec.rs] that the plan reads.

    A [BTreeMap] or [HashMap] whose order is not observed is a [gmap]. [unreachable!] is [None]. *)

From Stdlib Require Import Ascii.
From S2P Require Import Prelude Text Flapping.

Inductive TaskKind := Pty | Exec.
Inductive TaskLifecycle := Service | AdoptOnly.
Inductive AgentDesiredState := Running | Suspended (reason : string) | Retired (reason : option string).

#[export] Instance TaskKind_eq_dec : EqDecision TaskKind.
Proof. solve_decision. Defined.
#[export] Instance TaskLifecycle_eq_dec : EqDecision TaskLifecycle.
Proof. solve_decision. Defined.

Record Task := mkTask {
  t_kind : TaskKind;
  t_derived : bool;
  t_name : string;
  t_id : option string;
  t_command : option string;
  t_argv : option (list string);
  t_cwd : option string;
  t_tags : gmap string string;
  t_env : gmap string string;
  t_keep : bool;
  t_lifecycle : TaskLifecycle
}.

Record AgentSpec := mkAgentSpec {
  a_identity : string;
  a_name : option string;
  a_description : option string;
  a_host : option string;
  a_workspace : option string;
  a_supervisor : option string;
  a_desired_state : AgentDesiredState;
  a_keep : bool;
  a_restart : option Restart;
  a_tasks : list Task;
  a_path : string
}.

Definition is_running (s : AgentDesiredState) : bool := match s with Running => true | _ => false end.
Definition is_suspended (s : AgentDesiredState) : bool := match s with Suspended _ => true | _ => false end.
Definition is_retired (s : AgentDesiredState) : bool := match s with Retired _ => true | _ => false end.

Definition bus_id (spec : AgentSpec) (this_host : string) : string :=
  default this_host (a_host spec) +:+ "." +:+ a_identity spec.
Definition resolved_host (spec : AgentSpec) (this_host : string) : string := default this_host (a_host spec).
Definition default_restart : Restart := mkRestart 3 60 0 ModeDelay.
Definition restart_policy (spec : AgentSpec) : Restart := default default_restart (a_restart spec).
Definition is_runnable (spec : AgentSpec) : bool :=
  existsb (λ t, negb (t_derived t) && (is_some (t_command t) || is_some (t_argv t))) (a_tasks spec).

(** ** What is observed and what is planned *)

Record ObservedPtyPresentation := mkObserved { op_display_name : option string; op_tags : gmap string string }.

Record Session := mkSession {
  s_pty_id : string;
  s_alive : bool;
  s_exit_code : option Z;
  s_presentation : option ObservedPtyPresentation
}.

Inductive TaskLaunch := Shell (source : string) | Argv (args : list string).

Record PtyPresentation := mkPresentation {
  pp_pty_id : string;
  pp_display_name : option (option string);
  pp_tags : list (string * option string)
}.

Record TaskTarget := mkTarget {
  tt_kind : TaskKind;
  tt_pty_id : string;
  tt_bus_id : string;
  tt_name : string;
  tt_derived : bool;
  tt_launch : TaskLaunch;
  tt_cwd : option string;
  tt_workspace : option string;
  tt_tags : gmap string string;
  tt_env : gmap string string;
  tt_keep : bool;
  tt_presentation : option PtyPresentation
}.

Record Launch := mkLaunch { l_spec : AgentSpec; l_tasks : list TaskTarget; l_live_derived : list string }.
Record Teardown := mkTeardown { td_spec : AgentSpec; td_pty_ids : list string }.

Record ReconcilePlan := mkPlan {
  p_launch : list Launch;
  p_teardown : list Teardown;
  p_settle_retirement : list AgentSpec;
  p_adopt : list AgentSpec;
  p_other_host : list AgentSpec;
  p_unrunnable : list AgentSpec;
  p_gc : list string;
  p_held : list string;
  p_presentation : list PtyPresentation;
  p_live : list string
}.

Definition no_plan : ReconcilePlan := mkPlan [] [] [] [] [] [] [] [] [] [].

(** Two plans, one after the other. *)
Definition plan_app (p q : ReconcilePlan) : ReconcilePlan :=
  mkPlan (p_launch p ++ p_launch q) (p_teardown p ++ p_teardown q) (p_settle_retirement p ++ p_settle_retirement q)
    (p_adopt p ++ p_adopt q) (p_other_host p ++ p_other_host q) (p_unrunnable p ++ p_unrunnable q) (p_gc p ++ p_gc q)
    (p_held p ++ p_held q) (p_presentation p ++ p_presentation q) (p_live p ++ p_live q).

(** [Conflict]: the agent, the task and what it declares. *)
Record TaskIdentityConflict := mkConflict { cf_bus_id : string; cf_task : string; cf_declared : string }.

Definition validate_task (bus_id : string) (t : Task) : result TaskIdentityConflict unit :=
  match t_env t !! "ST_AGENT" with
  | Some declared => if str_eqb declared bus_id then Ok tt else Err (mkConflict bus_id (t_name t) declared)
  | None => Ok tt
  end.

Fixpoint validate_tasks (bus_id : string) (tasks : list Task) : result TaskIdentityConflict unit :=
  match tasks with
  | [] => Ok tt
  | t :: tasks => let? _ := validate_task bus_id t in validate_tasks bus_id tasks
  end.

Fixpoint validate_task_identities (specs : list AgentSpec) (this_host : string) : result TaskIdentityConflict unit :=
  match specs with
  | [] => Ok tt
  | spec :: specs =>
      if negb (is_running (a_desired_state spec)) || negb (str_eqb (resolved_host spec this_host) this_host)
      then validate_task_identities specs this_host
      else
        let? _ := validate_tasks (bus_id spec this_host) (a_tasks spec) in
        validate_task_identities specs this_host
  end.

Definition runner_task_env (spec : AgentSpec) (t : Task) (bus_id : string) : gmap string string :=
  let env := <["ST_AGENT" := bus_id]> (t_env t) in
  match a_supervisor spec with
  | Some supervisor => <["ST_SUPERVISOR" := supervisor]> env
  | None => delete "ST_SUPERVISOR" env
  end.

(** The tags in the order of the map's keys. *)
Definition pty_presentation (spec : AgentSpec) (t : Task) (pty_id bus_id : string) : option PtyPresentation :=
  if negb (bool_decide (t_kind t = Pty)) then None
  else
    let canonical_agent := str_eqb (t_name t) "agent" && str_eqb pty_id bus_id in
    Some (mkPresentation pty_id
            (if str_eqb (t_name t) "agent"
             then Some (match a_name spec with
                        | Some name => if str_eqb name pty_id then None else a_name spec
                        | None => a_name spec
                        end)
             else None)
            [("agent.actor.path", Some bus_id); ("agent.presentation.description", a_description spec);
             ("agent.presentation.schema", Some "1"); ("role", if canonical_agent then Some "agent" else None)]).

Definition presentation_matches (desired : PtyPresentation) (observed : ObservedPtyPresentation) : bool :=
  is_none_or (pp_display_name desired) (λ display_name, ostr_eqb display_name (op_display_name observed))
  && forallb (λ kv, ostr_eqb (op_tags observed !! kv.1) kv.2) (pp_tags desired).

Inductive SessionState := Alive | Dead | Absent.

#[export] Instance SessionState_eq_dec : EqDecision SessionState.
Proof. solve_decision. Defined.

Definition by_id (sessions : list Session) : gmap string Session :=
  fold_left (λ m s, <[s_pty_id s := s]> m) sessions ∅.

Definition session_state (m : gmap string Session) (pty_id : string) : SessionState :=
  match m !! pty_id with
  | Some s => if s_alive s then Alive else Dead
  | None => Absent
  end.

Definition resolve_task_id (bus_id name : string) (explicit : option string) : string :=
  match explicit with Some id => id | None => bus_id +:+ "." +:+ name end.

Definition task_id (spec : AgentSpec) (this_host : string) (t : Task) : string :=
  resolve_task_id (bus_id spec this_host) (t_name t) (t_id t).

(** [None] is [unreachable!], and [Some None] a task without a launch. *)
Definition task_launch (t : Task) : option (option TaskLaunch) :=
  match t_command t, t_argv t with
  | Some command, None => Some (Some (Shell command))
  | None, Some argv => Some (Some (Argv argv))
  | None, None => Some None
  | Some _, Some _ => None
  end.

Definition task_target (spec : AgentSpec) (this_host : string) (t : Task) (launch : TaskLaunch) : TaskTarget :=
  let bus_id := bus_id spec this_host in
  let pty_id := task_id spec this_host t in
  mkTarget (t_kind t) pty_id bus_id (t_name t) (t_derived t) launch (t_cwd t) (a_workspace spec) (t_tags t)
    (runner_task_env spec t bus_id) (t_keep t || a_keep spec) (pty_presentation spec t pty_id bus_id).

(** ** The plan *)

(** An agent that is not to run. *)
Definition stop_task (m : gmap string Session) (spec : AgentSpec) (this_host : string) (acc : list string * list string) (t : Task) :
    list string * list string :=
  let '(teardown_ids, gc) := acc in
  let id := task_id spec this_host t in
  let retain_dead := is_suspended (a_desired_state spec) && (t_keep t || a_keep spec) in
  match session_state m id with
  | Alive => (teardown_ids ++ [id], gc)
  | Dead => if retain_dead then (teardown_ids, gc) else (teardown_ids, gc ++ [id])
  | Absent => (teardown_ids, gc)
  end.

Definition reconcile_stopped (m : gmap string Session) (this_host : string) (spec : AgentSpec) : ReconcilePlan :=
  let '(teardown_ids, gc) := fold_left (stop_task m spec this_host) (a_tasks spec) ([], []) in
  mkPlan [] (match teardown_ids with [] => [] | _ => [mkTeardown spec teardown_ids] end)
    (if is_retired (a_desired_state spec) then [spec] else []) [] [] [] gc [] [] [].

(** The targets of an agent that is to run; [None] when a task has two launches. *)
Fixpoint targets (spec : AgentSpec) (this_host : string) (tasks : list Task) : option (list (TaskTarget * TaskLifecycle)) :=
  match tasks with
  | [] => Some []
  | t :: tasks =>
      match task_launch t with
      | None => None
      | Some None => targets spec this_host tasks
      | Some (Some launch) =>
          (λ rest, (task_target spec this_host t launch, t_lifecycle t) :: rest) <$> targets spec this_host tasks
      end
  end.

Definition agent_eligible (m : gmap string Session) (targets : list (TaskTarget * TaskLifecycle)) : bool :=
  match List.find (λ tl, str_eqb (tt_name tl.1) "agent" && negb (tt_derived tl.1)) targets with
  | Some (target, lifecycle) =>
      match session_state m (tt_pty_id target) with
      | Alive => true
      | Dead => negb (tt_keep target) && bool_decide (lifecycle = Service)
      | Absent => bool_decide (lifecycle = Service)
      end
  | None => false
  end.

(** What the loop over an agent's targets collects. *)
Record Pass := mkPass {
  ps_launch : list TaskTarget;
  ps_live_derived : list string;
  ps_ineligible : list string;
  ps_cleanup : bool;
  ps_gc : list string;
  ps_held : list string;
  ps_presentation : list PtyPresentation;
  ps_live : list string
}.

(** A healthy terminal whose presentation differs. *)
Definition present (m : gmap string Session) (target : TaskTarget) : list PtyPresentation :=
  match tt_presentation target with
  | Some presentation =>
      match m !! tt_pty_id target ≫= s_presentation with
      | Some observed => if presentation_matches presentation observed then [] else [presentation]
      | None => [presentation]
      end
  | None => []
  end.

Definition target_step (m : gmap string Session) (eligible : bool) (a : Pass) (tl : TaskTarget * TaskLifecycle) : Pass :=
  let '(target, lifecycle) := tl in
  let id := tt_pty_id target in
  if tt_derived target && negb eligible then
    match session_state m id with
    | Alive => mkPass (ps_launch a) (ps_live_derived a) (ps_ineligible a ++ [id]) true (ps_gc a) (ps_held a) (ps_presentation a) (ps_live a)
    | Dead =>
        if tt_keep target then a
        else mkPass (ps_launch a) (ps_live_derived a) (ps_ineligible a) true (ps_gc a ++ [id]) (ps_held a) (ps_presentation a) (ps_live a)
    | Absent => a
    end
  else
    match session_state m id with
    | Alive =>
        mkPass (ps_launch a) (ps_live_derived a ++ if tt_derived target then [id] else []) (ps_ineligible a) (ps_cleanup a)
          (ps_gc a) (ps_held a) (ps_presentation a ++ present m target) (ps_live a ++ [id])
    | state =>
        if bool_decide (lifecycle = AdoptOnly)
        then mkPass (ps_launch a) (ps_live_derived a) (ps_ineligible a) (ps_cleanup a) (ps_gc a) (ps_held a ++ [id])
               (ps_presentation a) (ps_live a)
        else
          match state with
          | Dead =>
              if tt_keep target then a
              else mkPass (ps_launch a ++ [target]) (ps_live_derived a) (ps_ineligible a) (ps_cleanup a) (ps_gc a ++ [id]) (ps_held a)
                     (ps_presentation a) (ps_live a)
          | _ => mkPass (ps_launch a ++ [target]) (ps_live_derived a) (ps_ineligible a) (ps_cleanup a) (ps_gc a) (ps_held a)
                   (ps_presentation a) (ps_live a)
          end
    end.

Definition no_pass : Pass := mkPass [] [] [] false [] [] [] [].

Definition reconcile_running (m : gmap string Session) (spec : AgentSpec) (targets : list (TaskTarget * TaskLifecycle)) : ReconcilePlan :=
  let a := fold_left (target_step m (agent_eligible m targets)) targets no_pass in
  let adopt := match ps_launch a, ps_held a with [], [] => negb (ps_cleanup a) | _, _ => false end in
  mkPlan (match ps_launch a with [] => [] | tasks => [mkLaunch spec tasks (ps_live_derived a)] end)
    (match ps_ineligible a with [] => [] | ids => [mkTeardown spec ids] end)
    [] (if adopt then [spec] else []) [] [] (ps_gc a) (ps_held a) (ps_presentation a) (ps_live a).

Definition reconcile_spec (m : gmap string Session) (this_host : string) (spec : AgentSpec) : option ReconcilePlan :=
  if negb (str_eqb (resolved_host spec this_host) this_host) then Some (mkPlan [] [] [] [] [spec] [] [] [] [] [])
  else if negb (is_running (a_desired_state spec)) then Some (reconcile_stopped m this_host spec)
  else if negb (is_runnable spec) then Some (mkPlan [] [] [] [] [] [spec] [] [] [] [])
  else reconcile_running m spec <$> targets spec this_host (a_tasks spec).

Fixpoint reconcile_specs (m : gmap string Session) (this_host : string) (specs : list AgentSpec) (plan : ReconcilePlan) :
    option ReconcilePlan :=
  match specs with
  | [] => Some plan
  | spec :: specs =>
      match reconcile_spec m this_host spec with
      | None => None
      | Some p => reconcile_specs m this_host specs (plan_app plan p)
      end
  end.

Definition reconcile (specs : list AgentSpec) (sessions : list Session) (this_host : string) :
    option (result TaskIdentityConflict ReconcilePlan) :=
  match validate_task_identities specs this_host with
  | Err e => Some (Err e)
  | Ok _ => Ok <$> reconcile_specs (by_id sessions) this_host specs no_plan
  end.

(** ** One task on request *)

Definition local_tasks (specs : list AgentSpec) (this_host : string) : list (AgentSpec * Task) :=
  flat_map (λ spec, map (pair spec) (a_tasks spec)) (List.filter (λ spec, str_eqb (resolved_host spec this_host) this_host) specs).

(** The two messages of the error. *)
Inductive ResolveError := Unresolved | Ambiguous.

Definition resolve_task (specs : list AgentSpec) (selector this_host : string) : result ResolveError (AgentSpec * Task * string) :=
  match List.filter (λ st, str_eqb selector (task_id st.1 this_host st.2)
                           || str_eqb selector (bus_id st.1 this_host +:+ "." +:+ t_name st.2)) (local_tasks specs this_host) with
  | [(spec, t)] => Ok (spec, t, task_id spec this_host t)
  | [] => Err Unresolved
  | _ => Err Ambiguous
  end.

Inductive SelectError := SelectConflict (c : TaskIdentityConflict) | SelectUnresolved (reason : ResolveError).

(** [sessions.iter().find]: the first session with the ID. *)
Definition find_session (sessions : list Session) (id : string) : option Session :=
  List.find (λ s, str_eqb (s_pty_id s) id) sessions.

Definition selected_stopped (owner : AgentSpec) (t : Task) (runtime : string) (actual : option Session) : ReconcilePlan :=
  let retire := if is_retired (a_desired_state owner) then [owner] else [] in
  match actual with
  | Some s =>
      if s_alive s then mkPlan [] [mkTeardown owner [runtime]] retire [] [] [] [] [] [] []
      else if is_retired (a_desired_state owner) || negb (t_keep t || a_keep owner)
      then mkPlan [] [] retire [] [] [] [runtime] [] [] []
      else mkPlan [] [] retire [] [] [] [] [] [] []
  | None => mkPlan [] [] retire [] [] [] [] [] [] []
  end.

Definition selected_running (owner : AgentSpec) (t : Task) (target : TaskTarget) (runtime : string) (actual : option Session) : ReconcilePlan :=
  let start := [mkLaunch owner [target] []] in
  match actual with
  | Some s =>
      if s_alive s then
        let presentation :=
          match tt_presentation target with
          | Some presentation =>
              if is_some_and (s_presentation s) (presentation_matches presentation) then [] else [presentation]
          | None => []
          end in
        mkPlan [] [] [] [owner] [] [] [] [] presentation [runtime]
      else if bool_decide (t_lifecycle t = AdoptOnly) then mkPlan [] [] [] [] [] [] [] [runtime] [] []
      else if tt_keep target then mkPlan [] [] [] [owner] [] [] [] [] [] []
      else mkPlan start [] [] [] [] [] [runtime] [] [] []
  | None =>
      if bool_decide (t_lifecycle t = AdoptOnly) then mkPlan [] [] [] [] [] [] [] [runtime] [] []
      else mkPlan start [] [] [] [] [] [] [] [] []
  end.

Definition reconcile_selected (specs : list AgentSpec) (sessions : list Session) (this_host selector : string) :
    option (result SelectError ReconcilePlan) :=
  match validate_task_identities specs this_host with
  | Err e => Some (Err (SelectConflict e))
  | Ok _ =>
      match resolve_task specs selector this_host with
      | Err reason => Some (Err (SelectUnresolved reason))
      | Ok (owner, t, runtime) =>
          let actual := find_session sessions runtime in
          if negb (is_running (a_desired_state owner)) then Some (Ok (selected_stopped owner t runtime actual))
          else if t_derived t && negb (is_some_and actual s_alive) then Some (Ok (mkPlan [] [] [] [] [] [] [] [runtime] [] []))
          else
            match task_launch t with
            | None => None
            | Some None => Some (Ok (mkPlan [] [] [] [] [] [owner] [] [] [] []))
            | Some (Some launch) => Some (Ok (selected_running owner t (task_target owner this_host t launch) runtime actual))
            end
      end
  end.

(** ** What is decided for each task

    The plan as a table: each declared task of this host has one decision, from its own session and
    whether its agent is to be there. *)

Inductive Decision := Live | Stop | Reap | Replace | Start | Hold | Leave.

#[export] Instance Decision_eq_dec : EqDecision Decision.
Proof. solve_decision. Defined.

Definition stopped_decision (m : gmap string Session) (this_host : string) (spec : AgentSpec) (t : Task) : Decision :=
  match session_state m (task_id spec this_host t) with
  | Alive => Stop
  | Dead => if is_suspended (a_desired_state spec) && (t_keep t || a_keep spec) then Leave else Reap
  | Absent => Leave
  end.

Definition running_decision (derived keep eligible : bool) (lifecycle : TaskLifecycle) (state : SessionState) : Decision :=
  if derived && negb eligible then
    match state with
    | Alive => Stop
    | Dead => if keep then Leave else Reap
    | Absent => Leave
    end
  else
    match state, lifecycle with
    | Alive, _ => Live
    | _, AdoptOnly => Hold
    | Dead, Service => if keep then Leave else Replace
    | Absent, Service => Start
    end.

(** Whether an agent's canonical task is there or is to be started. *)
Definition has_agent (m : gmap string Session) (this_host : string) (spec : AgentSpec) : bool :=
  match List.find (λ t, str_eqb (t_name t) "agent" && negb (t_derived t) && (is_some (t_command t) || is_some (t_argv t))) (a_tasks spec) with
  | Some t =>
      match session_state m (task_id spec this_host t) with
      | Alive => true
      | Dead => negb (t_keep t || a_keep spec) && bool_decide (t_lifecycle t = Service)
      | Absent => bool_decide (t_lifecycle t = Service)
      end
  | None => false
  end.

Definition decision (m : gmap string Session) (this_host : string) (spec : AgentSpec) (t : Task) : Decision :=
  if negb (is_running (a_desired_state spec)) then stopped_decision m this_host spec t
  else if negb (is_runnable spec) || negb (is_some (t_command t) || is_some (t_argv t)) then Leave
  else running_decision (t_derived t) (t_keep t || a_keep spec) (has_agent m this_host spec) (t_lifecycle t)
         (session_state m (task_id spec this_host t)).

(** The IDs of this host's tasks with one of the decisions. *)
Definition decided (m : gmap string Session) (this_host : string) (ds : list Decision) (sts : list (AgentSpec * Task)) : list string :=
  map (λ st, task_id st.1 this_host st.2) (List.filter (λ st, bool_decide (decision m this_host st.1 st.2 ∈ ds)) sts).

Definition launched (p : ReconcilePlan) : list string := flat_map (λ l, map tt_pty_id (l_tasks l)) (p_launch p).
Definition torn_down (p : ReconcilePlan) : list string := flat_map td_pty_ids (p_teardown p).

(** ** The plan is the table *)

#[local] Arguments task_id : simpl never.

Section plan.
Context (m : gmap string Session) (this_host : string).

Lemma decided_app ds l1 l2 : decided m this_host ds (l1 ++ l2) = decided m this_host ds l1 ++ decided m this_host ds l2.
Proof. unfold decided. by rewrite List.filter_app, map_app. Qed.

Lemma decided_cons ds st l :
  decided m this_host ds (st :: l) =
  (if bool_decide (decision m this_host st.1 st.2 ∈ ds) then [task_id st.1 this_host st.2] else []) ++ decided m this_host ds l.
Proof. unfold decided. simpl. by case_bool_decide. Qed.

(** What a plan says of a list of tasks. *)
Definition tells (p : ReconcilePlan) (sts : list (AgentSpec * Task)) : Prop :=
  launched p = decided m this_host [Start; Replace] sts ∧ torn_down p = decided m this_host [Stop] sts ∧
  p_gc p = decided m this_host [Reap; Replace] sts ∧ p_held p = decided m this_host [Hold] sts ∧
  p_live p = decided m this_host [Live] sts.

Lemma tells_app p q l1 l2 : tells p l1 → tells q l2 → tells (plan_app p q) (l1 ++ l2).
Proof.
  intros (A1 & A2 & A3 & A4 & A5) (B1 & B2 & B3 & B4 & B5). unfold tells, launched, torn_down in *. cbn.
  rewrite !flat_map_app, !decided_app, A1, A2, A3, A4, A5, B1, B2, B3, B4, B5. done.
Qed.

(** A task on which the decisions of a list rest only on one decision. *)
Lemma decided_single ds spec t d :
  decision m this_host spec t = d →
  decided m this_host ds [(spec, t)] = if bool_decide (d ∈ ds) then [task_id spec this_host t] else [].
Proof. intros <-. rewrite decided_cons. cbn. by rewrite app_nil_r. Qed.

Lemma stop_task_decision spec td gc t :
  is_running (a_desired_state spec) = false →
  stop_task m spec this_host (td, gc) t =
  (td ++ decided m this_host [Stop] [(spec, t)], gc ++ decided m this_host [Reap; Replace] [(spec, t)]) ∧
  (decision m this_host spec t = Stop ∨ decision m this_host spec t = Reap ∨ decision m this_host spec t = Leave).
Proof.
  intros Hr. assert (Hd : decision m this_host spec t = stopped_decision m this_host spec t) by (unfold decision; by rewrite Hr).
  rewrite !(decided_single _ _ _ _ Hd), Hd. unfold stopped_decision, stop_task.
  destruct (session_state m _); [|destruct (is_suspended _ && _)|]; cbn; rewrite ?app_nil_r; auto.
Qed.

Lemma stopped_tells spec :
  is_running (a_desired_state spec) = false → tells (reconcile_stopped m this_host spec) (map (pair spec) (a_tasks spec)).
Proof.
  intros Hr. unfold reconcile_stopped.
  assert (Hg : ∀ tasks td gc, fold_left (stop_task m spec this_host) tasks (td, gc) =
            (td ++ decided m this_host [Stop] (map (pair spec) tasks), gc ++ decided m this_host [Reap; Replace] (map (pair spec) tasks)) ∧
            decided m this_host [Start; Replace] (map (pair spec) tasks) = [] ∧ decided m this_host [Hold] (map (pair spec) tasks) = [] ∧
            decided m this_host [Live] (map (pair spec) tasks) = []).
  { induction tasks as [|t tasks IH]; intros td gc; [unfold decided; by rewrite !app_nil_r|]. cbn [fold_left map].
    destruct (stop_task_decision spec td gc t Hr) as [-> Hd].
    match goal with |- context [fold_left _ tasks (?x, ?y)] => destruct (IH x y) as (-> & H1 & H2 & H3) end.
    change ((spec, t) :: map (pair spec) tasks) with ([(spec, t)] ++ map (pair spec) tasks).
    rewrite !decided_app, H1, H2, H3, <- !app_assoc, !app_nil_r.
    split; [done|]. by destruct Hd as [Hd|[Hd|Hd]]; rewrite !(decided_single _ _ _ _ Hd). }
  destruct (Hg (a_tasks spec) [] []) as (-> & H1 & H2 & H3). unfold tells, launched, torn_down. cbn [p_launch p_teardown p_gc p_held p_live flat_map].
  rewrite H1, H2, H3. split_and!; [done| |done..]. cbn. destruct (decided m this_host [Stop] _); [done|]. cbn. by rewrite app_nil_r.
Qed.

Lemma task_launch_some t launch : task_launch t = Some (Some launch) → is_some (t_command t) || is_some (t_argv t) = true.
Proof. unfold task_launch. by destruct (t_command t), (t_argv t). Qed.
Lemma task_launch_none t : task_launch t = Some None → is_some (t_command t) || is_some (t_argv t) = false.
Proof. unfold task_launch. by destruct (t_command t), (t_argv t). Qed.

Lemma eligible_is_agent spec ts :
  targets spec this_host (a_tasks spec) = Some ts → agent_eligible m ts = has_agent m this_host spec.
Proof.
  unfold has_agent, agent_eligible. generalize (a_tasks spec). intros tasks. revert ts.
  induction tasks as [|t tasks IH]; intros ts E; simpl in E; [by injection E as <-|].
  destruct (task_launch t) as [[launch|]|] eqn:El; [| |done].
  - apply fmap_Some in E as (rest & Er & ->). cbn [List.find fst tt_name tt_derived task_target]. rewrite (task_launch_some t launch El), andb_true_r.
    destruct (str_eqb _ _ && _); [done|]. by apply IH.
  - cbn [List.find]. rewrite (task_launch_none t El), andb_false_r. by apply IH.
Qed.

(** What one target adds to a pass. *)
Lemma target_step_adds e a target lifecycle :
  let d := running_decision (tt_derived target) (tt_keep target) e lifecycle (session_state m (tt_pty_id target)) in
  let add ds := if bool_decide (d ∈ ds) then [tt_pty_id target] else [] in
  let r := target_step m e a (target, lifecycle) in
  map tt_pty_id (ps_launch r) = map tt_pty_id (ps_launch a) ++ add [Start; Replace] ∧ ps_ineligible r = ps_ineligible a ++ add [Stop] ∧
  ps_gc r = ps_gc a ++ add [Reap; Replace] ∧ ps_held r = ps_held a ++ add [Hold] ∧ ps_live r = ps_live a ++ add [Live].
Proof.
  cbn zeta. unfold target_step, running_decision.
  destruct (tt_derived target && negb e); destruct (session_state m _); destruct lifecycle; try destruct (tt_keep target);
    try change (bool_decide (Service = AdoptOnly)) with false; cbn; rewrite ?map_app, ?app_nil_r; split_and!; done.
Qed.

Lemma pass_tells spec tasks : ∀ ts a,
  is_running (a_desired_state spec) = true → is_runnable spec = true → targets spec this_host tasks = Some ts →
  let r := fold_left (target_step m (has_agent m this_host spec)) ts a in
  let sts := map (pair spec) tasks in
  map tt_pty_id (ps_launch r) = map tt_pty_id (ps_launch a) ++ decided m this_host [Start; Replace] sts ∧
  ps_ineligible r = ps_ineligible a ++ decided m this_host [Stop] sts ∧ ps_gc r = ps_gc a ++ decided m this_host [Reap; Replace] sts ∧
  ps_held r = ps_held a ++ decided m this_host [Hold] sts ∧ ps_live r = ps_live a ++ decided m this_host [Live] sts.
Proof.
  induction tasks as [|t tasks IH]; intros ts a Hrun Hok E; simpl in E.
  { injection E as <-. unfold decided. simpl. by rewrite !app_nil_r. }
  cbn [map]. change ((spec, t) :: map (pair spec) tasks) with ([(spec, t)] ++ map (pair spec) tasks). rewrite !decided_app.
  destruct (task_launch t) as [[launch|]|] eqn:El; [| |done].
  - apply fmap_Some in E as (rest & Er & ->). cbn [fold_left].
    assert (Hd : decision m this_host spec t = running_decision (t_derived t) (t_keep t || a_keep spec) (has_agent m this_host spec)
                   (t_lifecycle t) (session_state m (task_id spec this_host t)))
      by (unfold decision; by rewrite Hrun, Hok, (task_launch_some t launch El)).
    pose proof (target_step_adds (has_agent m this_host spec) a (task_target spec this_host t launch) (t_lifecycle t)) as Hadd.
    cbn [tt_derived tt_keep tt_pty_id task_target] in Hadd. rewrite <- Hd in Hadd. cbn zeta in Hadd.
    destruct Hadd as (A1 & A2 & A3 & A4 & A5).
    destruct (IH rest (target_step m (has_agent m this_host spec) a (task_target spec this_host t launch, t_lifecycle t)) Hrun Hok Er)
      as (B1 & B2 & B3 & B4 & B5).
    rewrite !(decided_single _ _ _ _ eq_refl). rewrite B1, B2, B3, B4, B5, A1, A2, A3, A4, A5, <- !app_assoc. done.
  - assert (Hd : decision m this_host spec t = Leave) by (unfold decision; by rewrite Hrun, Hok, (task_launch_none t El)).
    rewrite !(decided_single _ _ _ _ Hd). cbn. by apply IH.
Qed.

Lemma running_tells spec ts :
  is_running (a_desired_state spec) = true → is_runnable spec = true → targets spec this_host (a_tasks spec) = Some ts →
  tells (reconcile_running m spec ts) (map (pair spec) (a_tasks spec)).
Proof.
  intros Hrun Hok E. unfold reconcile_running. rewrite (eligible_is_agent spec ts E).
  destruct (pass_tells spec (a_tasks spec) ts no_pass Hrun Hok E) as (B1 & B2 & B3 & B4 & B5). cbn in B1, B2, B3, B4, B5.
  unfold tells, launched, torn_down. cbn. rewrite <- B1, <- B2, <- B3, <- B4, <- B5. split_and!; try done.
  - destruct (ps_launch _); [done|]. cbn. by rewrite app_nil_r.
  - destruct (ps_ineligible _); [done|]. cbn. by rewrite app_nil_r.
Qed.

(** The tasks of a declaration, when it is this host's. *)
Definition tasks_here (spec : AgentSpec) : list (AgentSpec * Task) :=
  if str_eqb (resolved_host spec this_host) this_host then map (pair spec) (a_tasks spec) else [].

Lemma unrunnable_tells spec :
  is_running (a_desired_state spec) = true → is_runnable spec = false →
  ∀ ds, Leave ∉ ds → decided m this_host ds (map (pair spec) (a_tasks spec)) = [].
Proof.
  intros Hrun Hok ds Hds. generalize (a_tasks spec). intros tasks.
  assert (Hd : ∀ t, decision m this_host spec t = Leave) by (intros t; unfold decision; by rewrite Hrun, Hok).
  induction tasks as [|t tasks IH]; [done|]. cbn [map]. rewrite decided_cons. cbn [fst snd]. rewrite Hd, bool_decide_false by done. done.
Qed.

Lemma spec_tells spec p : reconcile_spec m this_host spec = Some p → tells p (tasks_here spec).
Proof.
  unfold reconcile_spec, tasks_here. destruct (str_eqb _ _); cbn [negb]; [|by intros [= <-]].
  destruct (is_running _) eqn:Hrun; cbn [negb]; [|intros [= <-]; by apply stopped_tells].
  destruct (is_runnable spec) eqn:Hok; cbn [negb].
  - intros (ts & E & ->)%fmap_Some. by apply running_tells.
  - intros [= <-]. unfold tells. rewrite !(unrunnable_tells spec Hrun Hok) by (apply (bool_decide_eq_true _); done). done.
Qed.

Lemma specs_tell specs : ∀ plan p sts,
  reconcile_specs m this_host specs plan = Some p → tells plan sts → tells p (sts ++ flat_map tasks_here specs).
Proof.
  induction specs as [|spec specs IH]; intros plan p sts E Ht; simpl in E.
  - injection E as <-. simpl. by rewrite app_nil_r.
  - destruct (reconcile_spec m this_host spec) as [q|] eqn:Eq; [|done]. simpl. rewrite app_assoc. eapply IH; [exact E|].
    apply tells_app; [done|]. by apply spec_tells.
Qed.

Lemma local_tasks_flat specs : local_tasks specs this_host = flat_map tasks_here specs.
Proof.
  unfold local_tasks. induction specs as [|spec specs IH]; [done|]. simpl. unfold tasks_here at 1.
  destruct (str_eqb _ _); simpl; by rewrite IH.
Qed.
End plan.

Lemma reconcile_tells specs sessions this_host p :
  reconcile specs sessions this_host = Some (Ok p) → tells (by_id sessions) this_host p (local_tasks specs this_host).
Proof.
  unfold reconcile. intros E. destruct (validate_task_identities _ _); [|done].
  apply fmap_Some in E as (q & E & [= ->]). rewrite local_tasks_flat. by apply (specs_tell (by_id sessions) this_host specs no_plan q [] E).
Qed.

(** C19. The plan is the table of decisions: for every declared task of this host, and for no other, the
    plan launches, stops, reaps, holds or counts as live exactly the tasks whose own session, with
    the state of their agent's canonical task, decides so. *)
Theorem plans_follow_the_table specs sessions this_host p :
  reconcile specs sessions this_host = Some (Ok p) →
  let m := by_id sessions in
  let tasks := local_tasks specs this_host in
  launched p = decided m this_host [Start; Replace] tasks ∧
  torn_down p = decided m this_host [Stop] tasks ∧
  p_gc p = decided m this_host [Reap; Replace] tasks ∧
  p_held p = decided m this_host [Hold] tasks ∧
  p_live p = decided m this_host [Live] tasks.
Proof. intros E m tasks. exact (reconcile_tells specs sessions this_host p E). Qed.

(** ** One selected task *)

Lemma by_id_lookup sessions : ∀ (m : gmap string Session) id,
  NoDup (map s_pty_id sessions) →
  fold_left (λ m s, <[s_pty_id s := s]> m) sessions m !! id =
  match find_session sessions id with Some s => Some s | None => m !! id end.
Proof.
  induction sessions as [|s sessions IH]; intros m id Hnd; [done|]. simpl in *. inversion Hnd as [|? ? Hn Hnd']; subst.
  rewrite IH by done. destruct (str_eqb (s_pty_id s) id) eqn:E.
  - apply str_eqb_true in E as <-. destruct (find_session sessions (s_pty_id s)) as [s'|] eqn:Ef.
    + apply List.find_some in Ef as [Hin E%str_eqb_true]. destruct Hn. rewrite <- E. apply list_elem_of_fmap. exists s'.
      by apply list_elem_of_In in Hin.
    + by rewrite lookup_insert_eq.
  - apply str_eqb_false in E. by rewrite lookup_insert_ne.
Qed.

Lemma found_state sessions id :
  NoDup (map s_pty_id sessions) →
  session_state (by_id sessions) id =
  match find_session sessions id with Some s => if s_alive s then Alive else Dead | None => Absent end.
Proof. intros Hnd. unfold session_state, by_id. rewrite by_id_lookup by done. by destruct (find_session sessions id). Qed.

Lemma resolve_task_Ok specs selector this_host owner t runtime :
  resolve_task specs selector this_host = Ok (owner, t, runtime) →
  (owner, t) ∈ local_tasks specs this_host ∧ runtime = task_id owner this_host t ∧ t ∈ a_tasks owner ∧
  resolved_host owner this_host = this_host.
Proof.
  unfold resolve_task. intros E.
  assert (Hin : (owner, t) ∈ local_tasks specs this_host ∧ runtime = task_id owner this_host t).
  { destruct (List.filter _ _) as [|[spec t'] [|]] eqn:Ef; try done. injection E as <- <- <-. split; [|done].
    assert (Hin : (spec, t') ∈ [(spec, t')]) by (apply list_elem_of_singleton; done).
    rewrite <- Ef in Hin. by apply lfilter_elem in Hin as [? _]. }
  destruct Hin as [Hin ->]. split_and!; [done|done| |].
  all: unfold local_tasks in Hin; apply list_elem_of_In, in_flat_map in Hin as (spec & Hs & Ht);
    apply in_map_iff in Ht as (t' & [= -> ->] & Ht); apply List.filter_In in Hs as [Hs Hh].
  - by apply list_elem_of_In.
  - by apply str_eqb_true.
Qed.

Lemma launchable_is_runnable spec t :
  t ∈ a_tasks spec → t_derived t = false → is_some (t_command t) || is_some (t_argv t) = true → is_runnable spec = true.
Proof.
  intros Hin Hd Hl. unfold is_runnable. apply existsb_exists. exists t. rewrite Hd, Hl. split; [|done]. by apply list_elem_of_In.
Qed.

Section one.
Context (sessions : list Session) (this_host : string) (owner : AgentSpec) (t : Task).
Context (Hnd : NoDup (map s_pty_id sessions)).
Let m := by_id sessions.
Let id := task_id owner this_host t.

Lemma selected_stopped_tells :
  is_running (a_desired_state owner) = false →
  tells m this_host (selected_stopped owner t id (find_session sessions id)) [(owner, t)].
Proof.
  intros Hr. assert (Hd : decision m this_host owner t = stopped_decision m this_host owner t) by (unfold decision; by rewrite Hr).
  unfold tells. rewrite !(decided_single _ _ _ _ _ _ Hd). unfold stopped_decision, m. rewrite (found_state _ _ Hnd). fold id.
  unfold selected_stopped. destruct (find_session sessions id) as [s|]; [|by cbn].
  destruct (s_alive s); [by cbn|]. destruct (a_desired_state owner); [done|..]; by destruct (t_keep t || a_keep owner).
Qed.

Lemma selected_running_tells launch :
  is_running (a_desired_state owner) = true → t ∈ a_tasks owner → t_derived t = false → task_launch t = Some (Some launch) →
  tells m this_host (selected_running owner t (task_target owner this_host t launch) id (find_session sessions id)) [(owner, t)].
Proof.
  intros Hr Hin Hder Hl. pose proof (task_launch_some t launch Hl) as Hc.
  assert (Hd : decision m this_host owner t =
    running_decision false (t_keep t || a_keep owner) (has_agent m this_host owner) (t_lifecycle t) (session_state m id)).
  { unfold decision. rewrite Hr, (launchable_is_runnable owner t Hin Hder Hc), Hc, Hder. done. }
  unfold tells. rewrite !(decided_single _ _ _ _ _ _ Hd). unfold running_decision, m. rewrite (found_state _ _ Hnd). cbn [andb].
  unfold selected_running. cbn [tt_keep task_target tt_presentation]. fold id.
  destruct (find_session sessions id) as [s|]; [destruct (s_alive s)|]; destruct (t_lifecycle t); try destruct (t_keep t || a_keep owner);
    try change (bool_decide (Service = AdoptOnly)) with false; done.
Qed.
End one.

(** A request for one task decides as the whole plan would: for a task that is declared in its own
    right, the selected plan launches, stops, reaps, holds or counts as live that task exactly as
    the table does, and says nothing of any other. A generated task that is not alive is held: only its
    agent's pass may start it. *)
Theorem selected_plans_follow_the_table specs sessions this_host selector owner t id p :
  NoDup (map s_pty_id sessions) →
  resolve_task specs selector this_host = Ok (owner, t, id) →
  reconcile_selected specs sessions this_host selector = Some (Ok p) →
  (t_derived t = false → tells (by_id sessions) this_host p [(owner, t)]) ∧
  (t_derived t = true → is_running (a_desired_state owner) = true →
   launched p = [] ∧ torn_down p = [] ∧ p_gc p = [] ∧ (session_state (by_id sessions) id ≠ Alive → p_held p = [id])).
Proof.
  intros Hnd Hres. unfold reconcile_selected. destruct (validate_task_identities _ _); [|done]. rewrite Hres.
  apply resolve_task_Ok in Hres as (_ & -> & Hin & _). destruct (is_running (a_desired_state owner)) eqn:Hr; cbn [negb].
  2: { intros [= <-]. split; [|done]. intros _. by apply selected_stopped_tells. }
  destruct (t_derived t) eqn:Hder; cbn [andb].
  - intros E. split; [done|]. intros _ _. rewrite (found_state _ _ Hnd).
    destruct (find_session sessions (task_id owner this_host t)) as [s|] eqn:Ef; cbn [is_some_and] in E; [|by injection E as <-].
    destruct (s_alive s) eqn:Ea; cbn [negb] in E; [|by injection E as <-].
    destruct (task_launch t) as [[launch|]|]; [| |done]; injection E as <-; [|done].
    unfold selected_running. rewrite Ea. done.
  - destruct (task_launch t) as [[launch|]|] eqn:El; [| |done]; intros [= <-]; (split; [intros _|done]).
    + by apply selected_running_tells.
    + assert (Hd : decision (by_id sessions) this_host owner t = Leave)
        by (unfold decision; rewrite Hr, (task_launch_none t El); cbn; by rewrite orb_true_r).
      unfold tells. by rewrite !(decided_single _ _ _ _ _ _ Hd).
Qed.

(** ** Settling *)

(** What a session becomes when the decision about it is carried out. *)
Definition effect (d : Decision) (s : SessionState) : SessionState :=
  match d with
  | Start | Replace => Alive
  | Stop => Dead
  | Reap => Absent
  | Live | Hold | Leave => s
  end.

Definition active (d : Decision) : bool := match d with Start | Replace | Stop | Reap => true | _ => false end.

(** The sessions after a pass in which everything that was decided has happened, and nothing else. *)
Definition carried_out (specs : list AgentSpec) (this_host : string) (before after : gmap string Session) : Prop :=
  ∀ spec t, (spec, t) ∈ local_tasks specs this_host →
    session_state after (task_id spec this_host t) =
    effect (decision before this_host spec t) (session_state before (task_id spec this_host t)).

Lemma local_tasks_elem specs this_host spec t :
  (spec, t) ∈ local_tasks specs this_host ↔ spec ∈ specs ∧ resolved_host spec this_host = this_host ∧ t ∈ a_tasks spec.
Proof.
  unfold local_tasks. rewrite list_elem_of_In, in_flat_map. split.
  - intros (spec' & Hs & Ht). apply in_map_iff in Ht as (t' & [= -> ->] & Ht). apply List.filter_In in Hs as [Hs Hh].
    apply str_eqb_true in Hh. rewrite !list_elem_of_In. done.
  - intros (Hs & Hh & Ht). exists spec. rewrite List.filter_In, str_eqb_true. rewrite !list_elem_of_In in *. split; [done|].
    apply in_map_iff. by exists t.
Qed.

(** Whether an agent is to be there does not change by carrying out what was decided. *)
Lemma has_agent_stable specs this_host before after spec :
  carried_out specs this_host before after → spec ∈ specs → resolved_host spec this_host = this_host →
  is_running (a_desired_state spec) = true →
  has_agent after this_host spec = has_agent before this_host spec.
Proof.
  intros Hc Hs Hh Hr. unfold has_agent. destruct (List.find _ _) as [t|] eqn:Ef; [|done].
  apply List.find_some in Ef as [Hin Ht]. apply andb_true_iff in Ht as [[_ Hder%negb_true_iff]%andb_true_iff Hl].
  apply list_elem_of_In in Hin. rewrite (Hc spec t) by (by apply local_tasks_elem).
  unfold decision. rewrite Hr, (launchable_is_runnable spec t Hin Hder Hl), Hl, Hder. cbn [negb orb].
  unfold running_decision. cbn [andb].
  destruct (session_state before _), (t_lifecycle t), (t_keep t || a_keep spec); done.
Qed.

(** Nothing is left to do for a task after two passes. *)
Lemma running_settles derived keep e lifecycle s :
  let step s := effect (running_decision derived keep e lifecycle s) s in
  active (running_decision derived keep e lifecycle (step (step s))) = false.
Proof. by destruct derived, keep, e, lifecycle, s. Qed.

Lemma stopped_settles keep s :
  let d s := match s with Alive => Stop | Dead => if keep : bool then Leave else Reap | Absent => Leave end in
  let step s := effect (d s) s in active (d (step (step s))) = false.
Proof. by destruct keep, s. Qed.

Lemma decisions_settle specs this_host m0 m1 m2 spec t :
  carried_out specs this_host m0 m1 → carried_out specs this_host m1 m2 → (spec, t) ∈ local_tasks specs this_host →
  active (decision m2 this_host spec t) = false.
Proof.
  intros H1 H2 Hin. pose proof (H1 spec t Hin) as E1. pose proof (H2 spec t Hin) as E2.
  apply local_tasks_elem in Hin as (Hs & Hh & Ht). unfold decision in *.
  destruct (is_running (a_desired_state spec)) eqn:Hr; cbn [negb] in *.
  - destruct (negb (is_runnable spec) || _); [done|].
    rewrite (has_agent_stable specs this_host m1 m2 spec), (has_agent_stable specs this_host m0 m1 spec) in * by done.
    rewrite E2, E1. apply running_settles.
  - unfold stopped_decision in *. rewrite E2, E1. apply stopped_settles.
Qed.

Lemma decided_active m this_host ds sts :
  Forall (λ d, active d = true) ds → (∀ spec t, (spec, t) ∈ sts → active (decision m this_host spec t) = false) →
  decided m this_host ds sts = [].
Proof.
  intros Hds H. induction sts as [|[spec t] sts IH]; [done|]. rewrite decided_cons, IH.
  - rewrite bool_decide_false; [done|]. intros Hin. rewrite Forall_forall in Hds. apply Hds in Hin. cbn in Hin.
    rewrite H in Hin by left. done.
  - intros spec' t' Hin. apply H. by right.
Qed.

(** Reconciliation converges: when two passes in a row do what they decided and nothing else happens,
    the third plans no launch, no stop and no reaping. An agent's companions are neither started and
    stopped in turn, nor is a stopped task's session ever reaped and started again. *)
Theorem two_passes_settle specs this_host s0 s1 s2 p :
  carried_out specs this_host (by_id s0) (by_id s1) → carried_out specs this_host (by_id s1) (by_id s2) →
  reconcile specs s2 this_host = Some (Ok p) →
  launched p = [] ∧ torn_down p = [] ∧ p_gc p = [].
Proof.
  intros H1 H2 E. destruct (reconcile_tells specs s2 this_host p E) as (-> & -> & -> & _).
  split_and!; (apply decided_active; [by repeat constructor|]); intros spec t; by apply (decisions_settle specs this_host (by_id s0) (by_id s1)).
Qed.

(** ** What is launched *)

(** A launch of declared tasks of an agent that is to run here, beside companions that are live. *)
Definition launch_ok (m : gmap string Session) (specs : list AgentSpec) (this_host : string) (l : Launch) : Prop :=
  l_spec l ∈ specs ∧ resolved_host (l_spec l) this_host = this_host ∧ is_running (a_desired_state (l_spec l)) = true ∧
  (∀ target, target ∈ l_tasks l → ∃ t launch,
    t ∈ a_tasks (l_spec l) ∧ task_launch t = Some (Some launch) ∧ target = task_target (l_spec l) this_host t launch) ∧
  (∀ id, id ∈ l_live_derived l → session_state m id = Alive ∧
    ∃ t, t ∈ a_tasks (l_spec l) ∧ t_derived t = true ∧ task_id (l_spec l) this_host t = id).

Lemma targets_elem spec this_host tasks : ∀ ts target lifecycle,
  targets spec this_host tasks = Some ts → (target, lifecycle) ∈ ts →
  ∃ t launch, t ∈ tasks ∧ task_launch t = Some (Some launch) ∧ target = task_target spec this_host t launch.
Proof.
  induction tasks as [|t tasks IH]; intros ts target lifecycle E Hin; simpl in E.
  { injection E as <-. by apply elem_of_nil in Hin. }
  assert (Hrest : ∀ ts', targets spec this_host tasks = Some ts' → (target, lifecycle) ∈ ts' →
            ∃ t' launch, t' ∈ t :: tasks ∧ task_launch t' = Some (Some launch) ∧ target = task_target spec this_host t' launch).
  { intros ts' E' Hin'. destruct (IH ts' target lifecycle E' Hin') as (t' & launch & ? & ?). exists t', launch. by split; [right|]. }
  destruct (task_launch t) as [[launch|]|] eqn:El; [|by apply (Hrest ts)|done].
  apply fmap_Some in E as (rest & E & ->). apply elem_of_cons in Hin as [[= -> _]|Hin]; [|by apply (Hrest rest)].
  exists t, launch. by split; [left|].
Qed.

Lemma pass_launch m e ts : ∀ a target,
  target ∈ ps_launch (fold_left (target_step m e) ts a) → target ∈ ps_launch a ∨ ∃ lifecycle, (target, lifecycle) ∈ ts.
Proof.
  induction ts as [|[x lifecycle] ts IH]; intros a target Hin; [by left|]. cbn [fold_left] in Hin. apply IH in Hin as [Hin|[l Hin]].
  - assert (Hx : ps_launch (target_step m e a (x, lifecycle)) = ps_launch a ∨ ps_launch (target_step m e a (x, lifecycle)) = ps_launch a ++ [x]).
    { unfold target_step. destruct (tt_derived x && negb e), (session_state m _); try destruct (bool_decide (lifecycle = AdoptOnly));
        try destruct (tt_keep x); auto. }
    destruct Hx as [Hx|Hx]; rewrite Hx in Hin; [by left|]. apply elem_of_app in Hin as [Hin|Hin%list_elem_of_singleton]; [by left|].
    subst. right. exists lifecycle. left.
  - right. exists l. by right.
Qed.

Lemma pass_live_derived m e ts : ∀ a id,
  id ∈ ps_live_derived (fold_left (target_step m e) ts a) →
  id ∈ ps_live_derived a ∨ ∃ target lifecycle, (target, lifecycle) ∈ ts ∧ tt_derived target = true ∧ tt_pty_id target = id ∧ session_state m id = Alive.
Proof.
  induction ts as [|[x lifecycle] ts IH]; intros a id Hin; [by left|]. cbn [fold_left] in Hin. apply IH in Hin as [Hin|(y & l & Hy & H)].
  - assert (Hx : id ∈ ps_live_derived a ∨ tt_derived x = true ∧ tt_pty_id x = id ∧ session_state m id = Alive).
    { unfold target_step in Hin. destruct (tt_derived x) eqn:Ed; cbn [andb] in Hin; [destruct (negb e)|];
        (destruct (session_state m (tt_pty_id x)) eqn:Es; try destruct (bool_decide (lifecycle = AdoptOnly)); try destruct (tt_keep x)); cbn in Hin;
        rewrite ?app_nil_r in Hin; try (by left).
      all: apply elem_of_app in Hin as [Hin|Hin%list_elem_of_singleton]; [by left|right; by rewrite Hin]. }
    destruct Hx as [Hx|Hx]; [by left|]. right. exists x, lifecycle. by split; [left|].
  - right. exists y, l. by split; [right|].
Qed.

Lemma spec_launches m this_host spec p l :
  reconcile_spec m this_host spec = Some p → l ∈ p_launch p → launch_ok m [spec] this_host l.
Proof.
  unfold reconcile_spec. destruct (str_eqb _ _) eqn:Eh; cbn [negb]; [|by intros [= <-] ?%elem_of_nil].
  destruct (is_running _) eqn:Hr; cbn [negb].
  2: { intros [= <-]. unfold reconcile_stopped. destruct (fold_left _ _ _). by intros ?%elem_of_nil. }
  destruct (is_runnable spec); cbn [negb]; [|by intros [= <-] ?%elem_of_nil].
  intros (ts & E & ->)%fmap_Some. unfold reconcile_running. cbn [p_launch].
  destruct (ps_launch _) as [|x xs] eqn:El; [by intros ?%elem_of_nil|]. intros ->%list_elem_of_singleton.
  unfold launch_ok. cbn [l_spec l_tasks l_live_derived]. rewrite <- El. split_and!; [left|by apply str_eqb_true|done|..].
  - intros target Hin. apply pass_launch in Hin as [Hin|[lifecycle Hin]]; [by apply elem_of_nil in Hin|].
    by apply (targets_elem spec this_host (a_tasks spec) ts target lifecycle).
  - intros id Hin. apply pass_live_derived in Hin as [Hin|(target & lifecycle & Hin & Hd & <- & Hs)]; [by apply elem_of_nil in Hin|].
    split; [done|]. destruct (targets_elem spec this_host (a_tasks spec) ts target lifecycle E Hin) as (t & launch & Ht & _ & ->).
    by exists t.
Qed.

Lemma specs_launch m this_host specs : ∀ plan p l,
  reconcile_specs m this_host specs plan = Some p → l ∈ p_launch p → l ∈ p_launch plan ∨ launch_ok m specs this_host l.
Proof.
  induction specs as [|spec specs IH]; intros plan p l E Hin; simpl in E; [injection E as <-; by left|].
  destruct (reconcile_spec m this_host spec) as [q|] eqn:Eq; [|done]. destruct (IH _ _ l E Hin) as [Hl|(Hs & Hl)].
  - cbn [p_launch plan_app] in Hl. apply elem_of_app in Hl as [Hl|Hl]; [by left|]. right.
    destruct (spec_launches m this_host spec q l Eq Hl) as (Hs%list_elem_of_singleton & H). split; [rewrite Hs; left|done].
  - right. split; [by right|done].
Qed.

Lemma reconcile_launches specs sessions this_host p l :
  reconcile specs sessions this_host = Some (Ok p) → l ∈ p_launch p → launch_ok (by_id sessions) specs this_host l.
Proof.
  unfold reconcile. intros E Hin. destruct (validate_task_identities _ _); [|done]. apply fmap_Some in E as (q & E & [= ->]).
  destruct (specs_launch (by_id sessions) this_host specs no_plan q l E Hin) as [?%elem_of_nil|?]; done.
Qed.

(** Every launched task runs as its own agent: its declaration is one of this host's that is to run, and its
    environment names that agent and its supervisor whatever the task declares. A declaration that
    names another agent is refused before anything is planned. *)
Theorem launched_tasks_run_as_their_agent specs sessions this_host p l target :
  reconcile specs sessions this_host = Some (Ok p) → l ∈ p_launch p → target ∈ l_tasks l →
  l_spec l ∈ specs ∧ is_running (a_desired_state (l_spec l)) = true ∧
  tt_bus_id target = this_host +:+ "." +:+ a_identity (l_spec l) ∧
  tt_env target !! "ST_AGENT" = Some (tt_bus_id target) ∧ tt_env target !! "ST_SUPERVISOR" = a_supervisor (l_spec l).
Proof.
  intros E Hl Ht. destruct (reconcile_launches specs sessions this_host p l E Hl) as (Hs & Hh & Hr & Hts & _).
  destruct (Hts target Ht) as (t & launch & _ & _ & ->). split_and!; [done..| | |].
  - cbn [tt_bus_id task_target]. unfold bus_id, resolved_host in *. by rewrite Hh.
  - cbn [tt_env tt_bus_id task_target]. unfold runner_task_env. destruct (a_supervisor _);
      [rewrite lookup_insert_ne by done|rewrite lookup_delete_ne by done]; by rewrite lookup_insert_eq.
  - cbn [tt_env task_target]. unfold runner_task_env. destruct (a_supervisor _); [by rewrite lookup_insert_eq|by rewrite lookup_delete_eq].
Qed.

(** ** Examples *)

Definition service (name command : string) : Task := mkTask Pty false name None (Some command) None None ∅ ∅ false Service.
Definition companion (name : string) : Task := mkTask Exec true name None None (Some ["st2"; name]) None ∅ ∅ false Service.
Definition adopted (name : string) : Task := mkTask Pty false name None (Some name) None None ∅ ∅ false AdoptOnly.

Definition worker : AgentSpec :=
  mkAgentSpec "worker" (Some "Worker") None None None (Some "lead") Running false (Some (mkRestart 2 60 0 ModeFail))
    [service "agent" "run"; companion "watch"; adopted "shell"] "agents/worker/agent.kdl".
Definition old : AgentSpec :=
  mkAgentSpec "old" None None (Some "h") None None (Retired None) false None [service "agent" "run"] "agents/old/agent.kdl".
Definition away : AgentSpec :=
  mkAgentSpec "away" None None (Some "other") None None Running false None [service "agent" "run"] "agents/away/agent.kdl".
Definition team : list AgentSpec := [worker; old; away].

Definition alive (id : string) : Session := mkSession id true None None.
Definition exited (id : string) : Session := mkSession id false (Some 1%Z) None.

(** The worker has died beside its companion, and the retired agent still runs. *)
Definition crashed : list Session := [exited "h.worker.agent"; alive "h.worker.watch"; alive "h.old.agent"; alive "stranger"].
Definition repaired : list Session := [alive "h.worker.agent"; alive "h.worker.watch"; exited "h.old.agent"; alive "stranger"].
Definition settled : list Session := [alive "h.worker.agent"; alive "h.worker.watch"; alive "stranger"].

Definition planned (r : option (result TaskIdentityConflict ReconcilePlan)) : ReconcilePlan :=
  match r with Some (Ok p) => p | _ => no_plan end.

Definition has_plan {E} (r : option (result E ReconcilePlan)) : bool := match r with Some (Ok _) => true | _ => false end.

Lemma planned_Ok r : has_plan r = true → r = Some (Ok (planned r)).
Proof. by destruct r as [[p|]|]. Qed.

Definition crashed_plan : ReconcilePlan := planned (reconcile team crashed "h").
Lemma crashed_plan_Ok : reconcile team crashed "h" = Some (Ok crashed_plan).
Proof. apply planned_Ok. vm_compute. reflexivity. Qed.

Lemma plan_witness :
  launched crashed_plan = ["h.worker.agent"] ∧ torn_down crashed_plan = ["h.old.agent"] ∧ p_gc crashed_plan = ["h.worker.agent"] ∧
  p_held crashed_plan = ["h.worker.shell"] ∧ p_live crashed_plan = ["h.worker.watch"].
Proof.
  destruct (plans_follow_the_table team crashed "h" crashed_plan crashed_plan_Ok) as (-> & -> & -> & -> & ->).
  split_and!; vm_compute; reflexivity.
Defined.

Lemma selected_witness :
  let p := match reconcile_selected team crashed "h" "h.worker.agent" with Some (Ok p) => p | _ => no_plan end in
  tells (by_id crashed) "h" p [(worker, service "agent" "run")] ∧ launched p = ["h.worker.agent"].
Proof.
  intros p.
  assert (E : reconcile_selected team crashed "h" "h.worker.agent" = Some (Ok p)).
  { unfold p. destruct (reconcile_selected team crashed "h" "h.worker.agent") as [[q|e]|] eqn:E; [done|..];
      exfalso; apply (f_equal has_plan) in E; vm_compute in E; done. }
  destruct (selected_plans_follow_the_table team crashed "h" "h.worker.agent" worker (service "agent" "run") "h.worker.agent" p) as [H _].
  - apply (bool_decide_eq_true _). by vm_compute.
  - reflexivity.
  - exact E.
  - split; [by apply H|]. by vm_compute.
Defined.

Lemma settle_witness :
  let p := planned (reconcile team settled "h") in
  launched p = [] ∧ torn_down p = [] ∧ p_gc p = [] ∧ p_live p = ["h.worker.agent"; "h.worker.watch"].
Proof.
  intros p.
  assert (Hc : ∀ before after,
    forallb (λ st, bool_decide (session_state (by_id after) (task_id st.1 "h" st.2) =
       effect (decision (by_id before) "h" st.1 st.2) (session_state (by_id before) (task_id st.1 "h" st.2)))) (local_tasks team "h") = true →
    carried_out team "h" (by_id before) (by_id after)).
  { intros before after H spec t Hin. rewrite forallb_forall in H. apply list_elem_of_In in Hin. apply H in Hin. by apply bool_decide_eq_true in Hin. }
  destruct (two_passes_settle team "h" crashed repaired settled p) as (H1 & H2 & H3).
  - apply Hc. by vm_compute.
  - apply Hc. by vm_compute.
  - apply planned_Ok. by vm_compute.
  - split_and!; [done..|]. by vm_compute.
Defined.

(** A task that claims to be another agent stops the whole plan. *)
Example impostors_are_refused :
  reconcile [mkAgentSpec "a" None None None None None Running false None
               [mkTask Pty false "agent" None (Some "run") None None ∅ {["ST_AGENT" := "h.b"]} false Service] "p"] [] "h" =
  Some (Err (mkConflict "h.a" "agent" "h.b")).
Proof. reflexivity. Qed.

(** A dead session behind the migration fence is reaped once its agent is suspended, and a live companion
    behind it is stopped when its agent is held. *)
Example fenced_sessions_are_not_held :
  let fenced derived name := mkTask Pty derived name None (Some name) None None ∅ ∅ false AdoptOnly in
  let agent state tasks := mkAgentSpec "a" None None None None None state false None tasks "p" in
  p_gc (planned (reconcile [agent (Suspended "quota") [fenced false "agent"]] [exited "h.a.agent"] "h")) = ["h.a.agent"] ∧
  torn_down (planned (reconcile [agent Running [fenced false "agent"; fenced true "watch"]] [alive "h.a.watch"] "h")) = ["h.a.watch"].
Proof. split; vm_compute; reflexivity. Qed.
