(* ===== verification/Execute.v ===== *)
(** * Carrying out a plan

    Models the supervisor's pass of [crates/st-drivers/src/run.rs]: what is read of the sessions, which
    deaths are taken for a misread, and how a plan is carried out against the runner and the restart
    cap. The [Runner] trait, the clock and the archiving of an inbox are the class [Runner]: any
    world on which the operations are defined. Tracing and metrics are left out.

    A report's vectors are lists to which the operations append. *)

From S2P Require Import Prelude StableSort Text Slices Flapping TaskReconcile.

Record CrashLoop := mkCrashLoop {
  cl_pty_id : string;
  cl_identity : string;
  cl_host : option string;
  cl_supervisor : option string
}.

Record UpReport := mkReport {
  r_skipped : bool;
  r_launched : list string;
  r_restarted : list string;
  r_torn_down : list string;
  r_gc : list string;
  r_deferred : list string;
  r_held : list string;
  r_flapping : list string;
  r_unparked : list string;
  r_crash_loops : list CrashLoop;
  r_adopted : list string;
  r_other_host : list string;
  r_unrunnable : list string;
  r_archived : list string;
  r_warnings : list string;
  r_errors : list string
}.

Definition empty_report : UpReport := mkReport false [] [] [] [] [] [] [] [] [] [] [] [] [] [] [].
Definition set_skipped (r : UpReport) : UpReport :=
  mkReport true (r_launched r) (r_restarted r) (r_torn_down r) (r_gc r) (r_deferred r) (r_held r) (r_flapping r)
    (r_unparked r) (r_crash_loops r) (r_adopted r) (r_other_host r) (r_unrunnable r) (r_archived r)
    (r_warnings r) (r_errors r).

(** Pushing to, or extending, one of the vectors. *)
Definition add_launched (xs : list string) (r : UpReport) : UpReport :=
  mkReport (r_skipped r) (r_launched r ++ xs) (r_restarted r) (r_torn_down r) (r_gc r) (r_deferred r) (r_held r)
    (r_flapping r) (r_unparked r) (r_crash_loops r) (r_adopted r) (r_other_host r) (r_unrunnable r)
    (r_archived r) (r_warnings r) (r_errors r).
Definition add_restarted (xs : list string) (r : UpReport) : UpReport :=
  mkReport (r_skipped r) (r_launched r) (r_restarted r ++ xs) (r_torn_down r) (r_gc r) (r_deferred r) (r_held r)
    (r_flapping r) (r_unparked r) (r_crash_loops r) (r_adopted r) (r_other_host r) (r_unrunnable r)
    (r_archived r) (r_warnings r) (r_errors r).
Definition add_torn_down (xs : list string) (r : UpReport) : UpReport :=
  mkReport (r_skipped r) (r_launched r) (r_restarted r) (r_torn_down r ++ xs) (r_gc r) (r_deferred r) (r_held r)
    (r_flapping r) (r_unparked r) (r_crash_loops r) (r_adopted r) (r_other_host r) (r_unrunnable r)
    (r_archived r) (r_warnings r) (r_errors r).
Definition add_gc (xs : list string) (r : UpReport) : UpReport :=
  mkReport (r_skipped r) (r_launched r) (r_restarted r) (r_torn_down r) (r_gc r ++ xs) (r_deferred r) (r_held r)
    (r_flapping r) (r_unparked r) (r_crash_loops r) (r_adopted r) (r_other_host r) (r_unrunnable r)
    (r_archived r) (r_warnings r) (r_errors r).
Definition set_deferred (xs : list string) (r : UpReport) : UpReport :=
  mkReport (r_skipped r) (r_launched r) (r_restarted r) (r_torn_down r) (r_gc r) xs (r_held r) (r_flapping r)
    (r_unparked r) (r_crash_loops r) (r_adopted r) (r_other_host r) (r_unrunnable r) (r_archived r)
    (r_warnings r) (r_errors r).
Definition add_held (xs : list string) (r : UpReport) : UpReport :=
  mkReport (r_skipped r) (r_launched r) (r_restarted r) (r_torn_down r) (r_gc r) (r_deferred r) (r_held r ++ xs)
    (r_flapping r) (r_unparked r) (r_crash_loops r) (r_adopted r) (r_other_host r) (r_unrunnable r)
    (r_archived r) (r_warnings r) (r_errors r).
Definition add_flapping (xs : list string) (r : UpReport) : UpReport :=
  mkReport (r_skipped r) (r_launched r) (r_restarted r) (r_torn_down r) (r_gc r) (r_deferred r) (r_held r)
    (r_flapping r ++ xs) (r_unparked r) (r_crash_loops r) (r_adopted r) (r_other_host r) (r_unrunnable r)
    (r_archived r) (r_warnings r) (r_errors r).
Definition add_unparked (xs : list string) (r : UpReport) : UpReport :=
  mkReport (r_skipped r) (r_launched r) (r_restarted r) (r_torn_down r) (r_gc r) (r_deferred r) (r_held r)
    (r_flapping r) (r_unparked r ++ xs) (r_crash_loops r) (r_adopted r) (r_other_host r) (r_unrunnable r)
    (r_archived r) (r_warnings r) (r_errors r).
Definition add_crash_loops (xs : list CrashLoop) (r : UpReport) : UpReport :=
  mkReport (r_skipped r) (r_launched r) (r_restarted r) (r_torn_down r) (r_gc r) (r_deferred r) (r_held r)
    (r_flapping r) (r_unparked r) (r_crash_loops r ++ xs) (r_adopted r) (r_other_host r) (r_unrunnable r)
    (r_archived r) (r_warnings r) (r_errors r).
Definition add_adopted (xs : list string) (r : UpReport) : UpReport :=
  mkReport (r_skipped r) (r_launched r) (r_restarted r) (r_torn_down r) (r_gc r) (r_deferred r) (r_held r)
    (r_flapping r) (r_unparked r) (r_crash_loops r) (r_adopted r ++ xs) (r_other_host r) (r_unrunnable r)
    (r_archived r) (r_warnings r) (r_errors r).
Definition add_other_host (xs : list string) (r : UpReport) : UpReport :=
  mkReport (r_skipped r) (r_launched r) (r_restarted r) (r_torn_down r) (r_gc r) (r_deferred r) (r_held r)
    (r_flapping r) (r_unparked r) (r_crash_loops r) (r_adopted r) (r_other_host r ++ xs) (r_unrunnable r)
    (r_archived r) (r_warnings r) (r_errors r).
Definition add_unrunnable (xs : list string) (r : UpReport) : UpReport :=
  mkReport (r_skipped r) (r_launched r) (r_restarted r) (r_torn_down r) (r_gc r) (r_deferred r) (r_held r)
    (r_flapping r) (r_unparked r) (r_crash_loops r) (r_adopted r) (r_other_host r) (r_unrunnable r ++ xs)
    (r_archived r) (r_warnings r) (r_errors r).
Definition add_warnings (xs : list string) (r : UpReport) : UpReport :=
  mkReport (r_skipped r) (r_launched r) (r_restarted r) (r_torn_down r) (r_gc r) (r_deferred r) (r_held r)
    (r_flapping r) (r_unparked r) (r_crash_loops r) (r_adopted r) (r_other_host r) (r_unrunnable r)
    (r_archived r) (r_warnings r ++ xs) (r_errors r).
Definition add_errors (xs : list string) (r : UpReport) : UpReport :=
  mkReport (r_skipped r) (r_launched r) (r_restarted r) (r_torn_down r) (r_gc r) (r_deferred r) (r_held r)
    (r_flapping r) (r_unparked r) (r_crash_loops r) (r_adopted r) (r_other_host r) (r_unrunnable r)
    (r_archived r) (r_warnings r) (r_errors r ++ xs).

(** ** The runner *)

(** The operations of [Runner], [Instant::now] and [message::archive_inbox], each with the world it leaves.
    The runner is given the path of the declaration, from which the source takes its directory. *)
Class Runner (W : Type) := {
  instant_now : W → W * Z;
  list_sessions : W → W * result string (list Session);
  spawn : W → TaskTarget → string → W * result string unit;
  patch_presentation : W → PtyPresentation → W * result string unit;
  kill : W → string → W * result string unit;
  reap_for_restart : W → string → W * result string unit;
  remove : W → string → W * result string unit;
  archive_inbox : W → string → W * result string unit
}.

(** ** Presentation *)

Definition MAX_PRESENTATION_PATCHES_PER_PASS : nat := 8.

(** [PresentationPatchCursor] is the ID after which the next batch starts. *)
Definition ordered_patches (presentation : list PtyPresentation) : list PtyPresentation :=
  sort_by (key_leb String.leb pp_pty_id) presentation.

Definition batch_start (after_id : option string) (ordered : list PtyPresentation) : nat :=
  match after_id with
  | Some after_id =>
      let next := partition_point (λ item, String.leb (pp_pty_id item) after_id) ordered in
      if next =? length ordered then 0 else next
  | None => 0
  end.

(** [ordered[(start + offset) % len]] for each offset. *)
Definition batch (after_id : option string) (presentation : list PtyPresentation) : option string * list PtyPresentation :=
  let ordered := ordered_patches presentation in
  match ordered with
  | [] => (after_id, [])
  | _ =>
      let start := batch_start after_id ordered in
      let batch :=
        omap (λ offset, ordered !! ((start + offset) mod length ordered))
          (seq 0 (Nat.min (length ordered) MAX_PRESENTATION_PATCHES_PER_PASS)) in
      (pp_pty_id <$> last batch, batch)
  end.

(** ** Misread deaths *)

Record LivenessDebounce := mkDebounce { last_alive : gmap string Z; grace : Z }.

Definition DEBOUNCE_GRACE : Z := 10.

Definition observe (self : LivenessDebounce) (sessions : list Session) (now : Z) : LivenessDebounce :=
  let seen := fold_left (λ m s, if s_alive s then <[s_pty_id s := now]> m else m) sessions (last_alive self) in
  mkDebounce (filter (λ kv, (duration_since now kv.2 < grace self)%Z) seen) (grace self).

Definition recently_alive (self : LivenessDebounce) (id : string) (now : Z) : bool :=
  is_some_and (last_alive self !! id) (λ t, (duration_since now t <? grace self)%Z).

(** A launch without the tasks that are deferred, and the IDs deferred so far. *)
Definition narrow (self : LivenessDebounce) (now : Z) (l : Launch) : Launch :=
  mkLaunch (l_spec l) (List.filter (λ t, negb (recently_alive self (tt_pty_id t) now)) (l_tasks l)) (l_live_derived l).

Definition defer_launch (self : LivenessDebounce) (now : Z) (acc : list string * list Launch) (l : Launch) : list string * list Launch :=
  let '(deferred, kept) := acc in
  let deferred :=
    fold_left (λ ds t, if recently_alive self (tt_pty_id t) now && negb (bool_decide (tt_pty_id t ∈ ds)) then ds ++ [tt_pty_id t] else ds)
      (l_tasks l) deferred in
  (deferred, kept ++ [narrow self now l]).

Definition defer_flickers (self : LivenessDebounce) (plan : ReconcilePlan) (now : Z) : ReconcilePlan * list string :=
  let deferred := List.filter (λ id, recently_alive self id now) (p_gc plan) in
  let gc := List.filter (λ id, negb (recently_alive self id now)) (p_gc plan) in
  let '(deferred, launch) := fold_left (defer_launch self now) (p_launch plan) (deferred, []) in
  (mkPlan (List.filter (λ l, match l_tasks l with [] => false | _ => true end) launch) (p_teardown plan) (p_settle_retirement plan)
     (p_adopt plan) (p_other_host plan) (p_unrunnable plan) gc (p_held plan) (p_presentation plan) (p_live plan), deferred).

(** ** Carrying out *)

(** What is carried from pass to pass. *)
Record Supervisor := mkSupervisor { sv_cap : FlappingCap; sv_debounce : LivenessDebounce; sv_cursor : option string }.

(** What the execution of a plan changes. *)
Record Exec (W : Type) := mkExec { x_world : W; x_cap : FlappingCap; x_report : UpReport }.
#[global] Arguments mkExec {W} _ _ _.
#[global] Arguments x_world {W} _.
#[global] Arguments x_cap {W} _.
#[global] Arguments x_report {W} _.

Section execute.
Context {W : Type} {R : Runner W}.
#[local] Abbreviation Exec := (Exec W).

Definition reported (f : UpReport → UpReport) (x : Exec) : Exec := mkExec (x_world x) (x_cap x) (f (x_report x)).
Definition in_world (w : W) (x : Exec) : Exec := mkExec w (x_cap x) (x_report x).

Definition reap_corpse (launch_ids : list string) (x : Exec) (id : string) : Exec :=
  if bool_decide (id ∈ launch_ids) then x
  else
    match remove (x_world x) id with
    | (w, Ok _) => reported (add_gc [id]) (in_world w x)
    | (w, Err e) => reported (add_errors ["rm " +:+ id +:+ ": " +:+ e]) (in_world w x)
    end.

Definition stop_companion (x : Exec) (companion_id : string) : Exec :=
  match kill (x_world x) companion_id with
  | (w, Ok _) => reported (add_torn_down [companion_id]) (in_world w x)
  | (w, Err e) => reported (add_errors ["kill unavailable derived companion " +:+ companion_id +:+ ": " +:+ e]) (in_world w x)
  end.

Definition stop_live_derived_companions (l : Launch) (x : Exec) : Exec := fold_left stop_companion (l_live_derived l) x.

Definition canonical (target : TaskTarget) : bool := str_eqb (tt_name target) "agent" && negb (tt_derived target).
Definition launched_agent (l : Launch) : option TaskTarget := List.find canonical (l_tasks l).

Definition ordered_targets (l : Launch) : list TaskTarget :=
  match launched_agent l with
  | Some agent => agent :: List.filter (λ target, negb (str_eqb (tt_pty_id agent) (tt_pty_id target))) (l_tasks l)
  | None => l_tasks l
  end.

(** The target could not be started: a canonical one takes its companions with it. *)
Definition unavailable (l : Launch) (target : TaskTarget) (x : Exec) (agent_available : bool) : Exec * bool :=
  if canonical target then (stop_live_derived_companions l x, false) else (x, agent_available).

Definition crash_loop (l : Launch) (target : TaskTarget) : CrashLoop :=
  mkCrashLoop (tt_pty_id target) (a_identity (l_spec l)) (a_host (l_spec l)) (a_supervisor (l_spec l)).

Definition report_flapping (l : Launch) (target : TaskTarget) (r : UpReport) : UpReport :=
  if bool_decide (tt_pty_id target ∈ r_flapping r) then r
  else add_crash_loops [crash_loop l target] (add_flapping [tt_pty_id target] r).

(** [runner.spawn] and what is recorded of it; [on_canonical_live] is the caller's hook. *)
Definition spawn_target (on_canonical_live : W → AgentSpec → W) (l : Launch) (target : TaskTarget) (now : Z) (restarting : bool)
    (x : Exec) (agent_available : bool) : Exec * bool :=
  match spawn (x_world x) target (a_path (l_spec l)) with
  | (w, Ok _) =>
      let id := tt_pty_id target in
      let x := mkExec w (record (x_cap x) id now)
                 ((if restarting then add_restarted [id] else add_launched [id]) (x_report x)) in
      if canonical target then (in_world (on_canonical_live (x_world x) (l_spec l)) x, true) else (x, agent_available)
  | (w, Err e) =>
      unavailable l target (reported (add_errors ["spawn " +:+ tt_pty_id target +:+ ": " +:+ e]) (in_world w x)) agent_available
  end.

Definition launch_target (on_canonical_live : W → AgentSpec → W) (gc_set : list string) (l : Launch) (acc : Exec * bool) (target : TaskTarget) :
    Exec * bool :=
  let '(x, agent_available) := acc in
  if tt_derived target && negb agent_available then (x, agent_available)
  else
    let id := tt_pty_id target in
    let (w, now) := instant_now (x_world x) in
    let (cap, decision) := decide_restart (x_cap x) id now (restart_policy (l_spec l)) in
    let x := mkExec w cap (x_report x) in
    match decision with
    | GaveUp => unavailable l target (reported (report_flapping l target) x) agent_available
    | Delaying | RateLimited => (x, if canonical target then false else agent_available)
    | Allow =>
        if bool_decide (id ∈ gc_set) then
          match reap_for_restart (x_world x) id with
          | (w, Ok _) => spawn_target on_canonical_live l target now true (in_world w x) agent_available
          | (w, Err e) =>
              unavailable l target (reported (add_errors ["reap " +:+ id +:+ " for restart: " +:+ e]) (in_world w x)) agent_available
          end
        else spawn_target on_canonical_live l target now false x agent_available
    end.

Definition run_launch (on_canonical_live : W → AgentSpec → W) (gc_set : list string) (x : Exec) (l : Launch) : Exec :=
  let agent_available := negb (is_some (launched_agent l)) in
  (fold_left (launch_target on_canonical_live gc_set l) (ordered_targets l) (x, agent_available)).1.

Definition kill_one (acc : Exec * bool) (id : string) : Exec * bool :=
  let '(x, failed) := acc in
  match kill (x_world x) id with
  | (w, Ok _) => (reported (add_torn_down [id]) (in_world w x), failed)
  | (w, Err e) => (reported (add_errors ["kill " +:+ id +:+ ": " +:+ e]) (in_world w x), true)
  end.

(** The paths of the declarations some of whose sessions could not be stopped. *)
Definition tear_down (acc : Exec * list string) (td : Teardown) : Exec * list string :=
  let '(x, failed_teardowns) := acc in
  let '(x, failed) := fold_left kill_one (td_pty_ids td) (x, false) in
  (x, if failed then failed_teardowns ++ [a_path (td_spec td)] else failed_teardowns).

Definition settle_retired (failed_teardowns : list string) (x : Exec) (spec : AgentSpec) : Exec :=
  if bool_decide (a_path spec ∈ failed_teardowns) then x
  else
    match archive_inbox (x_world x) (a_path spec) with
    | (w, Ok _) => in_world w x
    | (w, Err e) => reported (add_errors ["archive retired inbox for " +:+ a_identity spec +:+ ": " +:+ e]) (in_world w x)
    end.

Definition patch (x : Exec) (presentation : PtyPresentation) : Exec :=
  match patch_presentation (x_world x) presentation with
  | (w, Ok _) => in_world w x
  | (w, Err e) => reported (add_errors ["metadata patch " +:+ pp_pty_id presentation +:+ ": " +:+ e]) (in_world w x)
  end.

(** [deferred_presentation] in the warning is a decimal. *)
Definition deferred_warning (n : nat) : string :=
  "deferred " +:+ pretty n +:+ " presentation patches after bounded batch of 8".

Definition execute_with_presentation_cursor (on_canonical_live : W → AgentSpec → W) (plan : ReconcilePlan) (after_id : option string)
    (x : Exec) : Exec * option string :=
  let launch_ids := flat_map (λ l, map tt_pty_id (l_tasks l)) (p_launch plan) in
  let x := fold_left (reap_corpse launch_ids) (p_gc plan) x in
  let x := fold_left (run_launch on_canonical_live (p_gc plan)) (p_launch plan) x in
  let (w, now) := instant_now (x_world x) in
  let x := mkExec w (end_pass (x_cap x) now (p_live plan)) (x_report x) in
  let '(x, failed_teardowns) := fold_left tear_down (p_teardown plan) (x, []) in
  let x := fold_left (settle_retired failed_teardowns) (p_settle_retirement plan) x in
  let '(after_id, patches) := batch after_id (p_presentation plan) in
  let x := fold_left patch patches x in
  let deferred := length (p_presentation plan) - MAX_PRESENTATION_PATCHES_PER_PASS in
  let x := if 0 <? deferred then reported (add_warnings [deferred_warning deferred]) x else x in
  (reported (λ r, add_unrunnable (map a_identity (p_unrunnable plan)) (add_other_host (map a_identity (p_other_host plan))
     (add_held (p_held plan) (add_adopted (map a_identity (p_adopt plan)) r)))) x, after_id).

(** ** A pass *)

Definition conflict_text (c : TaskIdentityConflict) : string :=
  "agent '" +:+ cf_bus_id c +:+ "' task '" +:+ cf_task c +:+ "' declares conflicting ST_AGENT '" +:+ cf_declared c +:+
  "'; expected runner-owned value '" +:+ cf_bus_id c +:+ "'".

(** [None] is the plan's [unreachable!]. *)
Definition reconcile_specs_with_sessions (specs : list AgentSpec) (sessions : list Session) (this_host : string) (sv : Supervisor)
    (w : W) (report : UpReport) : option (W * Supervisor * UpReport) :=
  let (w, now) := instant_now w in
  let debounce := observe (sv_debounce sv) sessions now in
  match reconcile specs sessions this_host with
  | None => None
  | Some (Ok plan) =>
      let '(plan, deferred) := defer_flickers debounce plan now in
      let '(x, cursor) :=
        execute_with_presentation_cursor (λ w _, w) plan (sv_cursor sv) (mkExec w (sv_cap sv) (set_deferred deferred report)) in
      Some (x_world x, mkSupervisor (x_cap x) debounce cursor, x_report x)
  | Some (Err e) => Some (w, mkSupervisor (sv_cap sv) debounce (sv_cursor sv), add_errors [conflict_text e] report)
  end.

Definition reconcile_pass_specs_with_cursor (specs : list AgentSpec) (this_host : string) (sv : Supervisor) (w : W) :
    option (W * Supervisor * UpReport) :=
  match validate_task_identities specs this_host with
  | Err e => Some (w, sv, add_errors [conflict_text e] empty_report)
  | Ok _ =>
      match list_sessions w with
      | (w, Ok sessions) => reconcile_specs_with_sessions specs sessions this_host sv w empty_report
      | (w, Err e) => Some (w, sv, add_errors ["list sessions (pass skipped): " +:+ e] (set_skipped empty_report))
      end
  end.

(** [grant_unpark_requests], given the IDs and errors that were read. *)
Definition grant_request (acc : FlappingCap * UpReport) (id : string) : FlappingCap * UpReport :=
  let '(cap, report) := acc in
  let '(cap, granted) := unpark cap id in
  (cap, if granted then add_unparked [id] report else add_warnings ["unpark '" +:+ id +:+ "': not parked; nothing to recover"] report).

Definition grant_unpark_requests (cap : FlappingCap) (requests : list string * list string) (report : UpReport) : FlappingCap * UpReport :=
  fold_left grant_request requests.1 (cap, add_errors requests.2 report).
End execute.

Lemma fold_left_keeps {A B} (P : A → Prop) (f : A → B → A) (l : list B) : ∀ x,
  (∀ x b, b ∈ l → P x → P (f x b)) → P x → P (fold_left f l x).
Proof.
  induction l as [|b l IH]; intros x Hf Hx; [done|]. simpl. apply IH; [|apply Hf; [left|done]].
  intros y c Hc. apply Hf. by right.
Qed.

(** ** The cap is driven as it expects

    Each step of a pass leaves the cap in a state that its own history explains: a decision before
    every spawn and a record after it, and what the report says was spawned is what was recorded. *)

Definition count_id (id : string) (ids : list string) : nat := length (List.filter (λ x, str_eqb x id) ids).
Definition spawn_count (id : string) (r : UpReport) : nat := count_id id (r_launched r) + count_id id (r_restarted r).

Lemma count_id_app id l1 l2 : count_id id (l1 ++ l2) = count_id id l1 + count_id id l2.
Proof. unfold count_id. by rewrite List.filter_app, length_app. Qed.
Lemma launch_count_app id l1 l2 : launch_count id (l1 ++ l2) = launch_count id l1 + launch_count id l2.
Proof. unfold launch_count. by rewrite List.filter_app, length_app. Qed.

(** Decisions and launches, and passes that saw [live]. *)
Definition within (live : list string) (e : LogEvent) : Prop :=
  match e with EvPass _ seen => seen = live | EvUnpark _ => False | _ => True end.

Section drives.
Context {W : Type} {R : Runner W} (policy : string → Restart) (live : list string).

Definition drives (x x' : Exec W) : Prop :=
  ∀ log, runs policy log (x_cap x) →
    ∃ log', runs policy (log' ++ log) (x_cap x') ∧ Forall (within live) log' ∧
            ∀ id, spawn_count id (x_report x') = spawn_count id (x_report x) + launch_count id log'.

#[export] Instance drives_preorder : PreOrder drives.
Proof.
  split.
  - intros x log Hr. exists []. split_and!; [done|constructor|]. intros id. unfold launch_count. simpl. lia.
  - intros x y z Hxy Hyz log Hr. destruct (Hxy log Hr) as (l1 & H1 & F1 & C1). destruct (Hyz _ H1) as (l2 & H2 & F2 & C2).
    exists (l2 ++ l1). rewrite <- app_assoc. split_and!; [done|by apply Forall_app|].
    intros id. rewrite C2, C1, launch_count_app. lia.
Qed.

Lemma drives_fold {A} (f : Exec W → A → Exec W) (l : list A) : ∀ x,
  (∀ x a, a ∈ l → drives x (f x a)) → drives x (fold_left f l x).
Proof.
  induction l as [|a l IH]; intros x Hf; [reflexivity|]. simpl. transitivity (f x a); [apply Hf; left|].
  apply IH. intros y b Hb. apply Hf. by right.
Qed.

(** A step that touches neither the cap nor the spawns reported. *)
Lemma drives_still x x' :
  x_cap x' = x_cap x → r_launched (x_report x') = r_launched (x_report x) →
  r_restarted (x_report x') = r_restarted (x_report x) → drives x x'.
Proof.
  intros Hc Hl Hr log H. exists []. rewrite Hc. split_and!; [done|constructor|]. intros id.
  unfold spawn_count, launch_count. rewrite Hl, Hr. simpl. lia.
Qed.

Lemma reap_drives ids x id : drives x (reap_corpse ids x id).
Proof. unfold reap_corpse. case_bool_decide; [reflexivity|]. destruct (remove _ _) as [w [|]]; by apply drives_still. Qed.

Lemma stop_drives l x : drives x (stop_live_derived_companions l x).
Proof.
  apply drives_fold. intros y id _. unfold stop_companion. destruct (kill _ _) as [w [|]]; by apply drives_still.
Qed.

Lemma unavailable_drives l target x b : drives x (unavailable l target x b).1.
Proof. unfold unavailable. destruct (canonical target); [apply stop_drives|reflexivity]. Qed.

Lemma decided_drives x id now cap d w :
  decide_restart (x_cap x) id now (policy id) = (cap, d) → drives x (mkExec w cap (x_report x)).
Proof.
  intros Hd log Hr. exists [EvDecide id now]. split_and!; [by apply (runs_decide policy log (x_cap x) id now cap d)|by repeat constructor|].
  intros y. unfold launch_count. simpl. lia.
Qed.

Lemma spawn_drives on l target now restarting x cap w b :
  decide_restart (x_cap x) (tt_pty_id target) now (policy (tt_pty_id target)) = (cap, Allow) →
  drives x (spawn_target on l target now restarting (mkExec w cap (x_report x)) b).1.
Proof.
  intros Hd. unfold spawn_target. cbn [x_world]. destruct (spawn w target _) as [w' [u|e]].
  - set (y := mkExec w' _ _). assert (Hy : drives x y).
    { intros log Hr. exists [EvLaunch (tt_pty_id target) now; EvDecide (tt_pty_id target) now].
      split_and!; [by apply (runs_launch policy log (x_cap x))|by repeat constructor|]. intros id. unfold spawn_count, launch_count, count_id, y. simpl.
      destruct restarting; simpl; rewrite List.filter_app, length_app; simpl; destruct (str_eqb _ _); simpl; lia. }
    destruct (canonical target); [|done]. transitivity y; [done|by apply drives_still].
  - transitivity (mkExec w cap (x_report x)); [by apply (decided_drives x (tt_pty_id target) now cap Allow w)|].
    etransitivity; [|apply unavailable_drives]. by apply drives_still.
Qed.

Lemma launch_target_drives on gc l x b target :
  policy (tt_pty_id target) = restart_policy (l_spec l) → drives x (launch_target on gc l (x, b) target).1.
Proof.
  intros Hp. unfold launch_target. destruct (tt_derived target && negb b); [reflexivity|]. rewrite <- Hp.
  destruct (instant_now _) as [w now]. destruct (decide_restart _ _ _ _) as [cap d] eqn:Hd.
  pose proof (decided_drives x _ now cap d w Hd) as Hdec. cbn [x_world x_report].
  destruct d; [|done|done|].
  - case_bool_decide; [|by apply (spawn_drives on l target now false x cap w)]. destruct (reap_for_restart w _) as [w' [u|e]]; [by apply (spawn_drives on l target now true x cap w')|].
    etransitivity; [exact Hdec|]. etransitivity; [|apply unavailable_drives]. by apply drives_still.
  - etransitivity; [exact Hdec|]. etransitivity; [|apply unavailable_drives]. unfold reported, report_flapping. cbn.
    by case_bool_decide; apply drives_still.
Qed.

Lemma ordered_targets_elem l target : target ∈ ordered_targets l → target ∈ l_tasks l.
Proof.
  unfold ordered_targets, launched_agent. destruct (List.find _ _) as [a|] eqn:Ef; [|done].
  apply List.find_some in Ef as [Hin _]. intros [->|[H _]%lfilter_elem]%elem_of_cons; [by apply list_elem_of_In|done].
Qed.

Lemma run_launch_drives on gc l x :
  (∀ target, target ∈ l_tasks l → policy (tt_pty_id target) = restart_policy (l_spec l)) → drives x (run_launch on gc x l).
Proof.
  intros Hp. unfold run_launch. generalize (negb (is_some (launched_agent l))).
  assert (Ht : ∀ target, target ∈ ordered_targets l → policy (tt_pty_id target) = restart_policy (l_spec l))
    by (intros; by apply Hp, ordered_targets_elem).
  revert x Ht. induction (ordered_targets l) as [|t ts IH]; intros x Ht b; [reflexivity|]. cbn [fold_left].
  transitivity (launch_target on gc l (x, b) t).1; [apply launch_target_drives, Ht; left|].
  destruct (launch_target on gc l (x, b) t) as [y b']. apply IH. intros target Hin. apply Ht. by right.
Qed.

Lemma tear_down_still tds : ∀ x failed,
  let y := (fold_left tear_down tds (x, failed)).1 in
  x_cap y = x_cap x ∧ r_launched (x_report y) = r_launched (x_report x) ∧ r_restarted (x_report y) = r_restarted (x_report x).
Proof.
  assert (Hk : ∀ ids x b, let y := (fold_left kill_one ids (x, b)).1 in
    x_cap y = x_cap x ∧ r_launched (x_report y) = r_launched (x_report x) ∧ r_restarted (x_report y) = r_restarted (x_report x)).
  { induction ids as [|id ids IH]; intros x b; [done|]. cbn [fold_left kill_one].
    destruct (kill _ _) as [w [u|e]]; cbn zeta; match goal with |- context [fold_left kill_one ids (?x', ?b')] => exact (IH x' b') end. }
  induction tds as [|td tds IH]; intros x failed; [done|]. cbn [fold_left tear_down].
  pose proof (Hk (td_pty_ids td) x false) as H. destruct (fold_left kill_one _ _) as [y b]. cbn [fst] in H. cbn zeta in *.
  match goal with |- context [fold_left tear_down tds (?x', ?b')] => pose proof (IH x' b') as H' end. cbn zeta in H'.
  destruct H as (E1 & E2 & E3), H' as (F1 & F2 & F3). by rewrite F1, F2, F3.
Qed.

(** The whole plan. *)
Lemma execute_drives on plan after_id x :
  live = p_live plan →
  (∀ l target, l ∈ p_launch plan → target ∈ l_tasks l → policy (tt_pty_id target) = restart_policy (l_spec l)) →
  drives x (execute_with_presentation_cursor on plan after_id x).1.
Proof.
  intros Hlive Hp. unfold execute_with_presentation_cursor. cbn zeta.
  set (x1 := fold_left (reap_corpse _) _ x). assert (H1 : drives x x1) by (apply drives_fold; intros; apply reap_drives).
  set (x2 := fold_left (run_launch _ _) _ x1).
  assert (H2 : drives x1 x2) by (apply drives_fold; intros y l Hl; apply run_launch_drives; intros; by apply Hp).
  destruct (instant_now _) as [w now]. set (x3 := mkExec w _ _).
  assert (H3 : drives x2 x3).
  { intros log Hr. exists [EvPass now live]. rewrite Hlive. split_and!; [by apply runs_pass|by repeat constructor|].
    intros id. unfold launch_count. simpl. lia. }
  pose proof (tear_down_still (p_teardown plan) x3 []) as H4. destruct (fold_left tear_down _ _) as [x4 failed]. cbn [fst] in H4. cbn zeta in H4.
  set (x5 := fold_left (settle_retired _) _ x4).
  assert (H5 : drives x4 x5).
  { apply drives_fold. intros y spec _. unfold settle_retired. case_bool_decide; [reflexivity|].
    destruct (archive_inbox _ _) as [? [|]]; by apply drives_still. }
  destruct (batch _ _) as [cursor patches]. set (x6 := fold_left patch _ x5).
  assert (H6 : drives x5 x6).
  { apply drives_fold. intros y p _. unfold patch. destruct (patch_presentation _ _) as [? [|]]; by apply drives_still. }
  etransitivity; [exact H1|]. etransitivity; [exact H2|]. etransitivity; [exact H3|].
  etransitivity; [apply (drives_still _ x4); apply H4|]. etransitivity; [exact H5|]. etransitivity; [exact H6|].
  cbn [fst]. by destruct (0 <? _); apply drives_still.
Qed.
End drives.

(** ** Presentation is repaired in turn *)

(** The batches of some passes over the same drift. *)
Fixpoint batches (k : nat) (after_id : option string) (presentation : list PtyPresentation) : list PtyPresentation :=
  match k with
  | O => []
  | S k => let '(after_id, patches) := batch after_id presentation in patches ++ batches k after_id presentation
  end.

Lemma partition_point_strict (o : list PtyPresentation) : ∀ j x,
  StronglySorted (λ a b, String.leb (pp_pty_id a) (pp_pty_id b) = true) o → NoDup (map pp_pty_id o) → o !! j = Some x →
  partition_point (λ item, String.leb (pp_pty_id item) (pp_pty_id x)) o = S j.
Proof.
  induction o as [|a o IH]; intros j x Hs Hnd Hj; [done|]. apply StronglySorted_inv in Hs as [Hs Ha]. cbn in Hnd. apply NoDup_cons in Hnd as [Hn Hnd].
  cbn [partition_point]. rewrite List.Forall_forall in Ha. destruct j as [|j]; cbn in Hj.
  - injection Hj as ->. rewrite str_leb_refl. f_equal. destruct o as [|b o]; [done|]. cbn.
    destruct (String.leb (pp_pty_id b) (pp_pty_id x)) eqn:E; [|done]. exfalso. apply Hn.
    rewrite (str_leb_antisym (pp_pty_id x) (pp_pty_id b)); [cbn; left| |done]. apply Ha. by left.
  - rewrite Ha by (apply list_elem_of_In; by apply list_elem_of_lookup_2 in Hj). f_equal. by apply IH.
Qed.

Section turns.
Context (presentation : list PtyPresentation) (Hnd : NoDup (map pp_pty_id presentation)) (Hne : presentation ≠ []).
Let o := ordered_patches presentation.
Let n := length o.
Let m := Nat.min n MAX_PRESENTATION_PATCHES_PER_PASS.

Lemma ordered_facts :
  0 < n ∧ StronglySorted (λ a b, String.leb (pp_pty_id a) (pp_pty_id b) = true) o ∧ NoDup (map pp_pty_id o).
Proof.
  split_and!.
  - unfold n, o, ordered_patches. rewrite length_sort_by. destruct presentation; [done|]. cbn. lia.
  - apply (sort_by_sorted (key_leb String.leb pp_pty_id)).
    + intros a b. apply str_leb_total.
    + intros a b c. apply str_leb_trans.
  - unfold o, ordered_patches. by rewrite (Permutation_map pp_pty_id (sort_by_perm _ presentation)).
Qed.

Lemma batch_start_lt after_id : batch_start after_id o < n.
Proof.
  destruct ordered_facts as [Hn _]. unfold batch_start. destruct after_id as [id|]; [|done]. fold n.
  destruct (Nat.eqb_spec (partition_point (λ item, String.leb (pp_pty_id item) id) o) n); [done|].
  pose proof (partition_point_le (λ item, String.leb (pp_pty_id item) id) o) as H. fold n in H. lia.
Qed.

Lemma batch_eq after_id :
  batch after_id presentation =
  let b := omap (λ offset, o !! ((batch_start after_id o + offset) mod n)) (seq 0 m) in (pp_pty_id <$> last b, b).
Proof. destruct ordered_facts as [Hn _]. unfold batch, m, n, o in *. destruct (ordered_patches presentation) as [|a l]; [cbn in Hn; lia|]. reflexivity. Qed.

(** A batch reads on from its start, and the next one starts where it ends. *)
Lemma batch_turn after_id :
  let s := batch_start after_id o in let r := batch after_id presentation in
  (∀ i x, i < m → o !! ((s + i) mod n) = Some x → x ∈ r.2) ∧ batch_start r.1 o = (s + m) mod n.
Proof.
  cbn zeta. destruct ordered_facts as (Hn & Hs & Hnd'). pose proof (batch_start_lt after_id) as Hst. set (s := batch_start after_id o) in *.
  rewrite batch_eq. fold s.
  assert (Hm : 0 < m) by (unfold m, MAX_PRESENTATION_PATCHES_PER_PASS; lia).
  assert (Hget : ∀ i, ∃ x, o !! ((s + i) mod n) = Some x) by (intros i; apply lookup_lt_is_Some_2, Nat.mod_upper_bound; lia).
  cbn [fst snd]. split.
  - intros i x Hi Hx. apply list_elem_of_omap. exists i. split; [apply elem_of_seq; lia|done].
  - replace m with (S (m - 1)) at 1 by lia. rewrite seq_S, omap_app. cbn. destruct (Hget (m - 1)) as (x & Hx). rewrite Hx. rewrite last_snoc. cbn [fmap option_fmap option_map].
    unfold batch_start. rewrite (partition_point_strict o _ x Hs Hnd' Hx). fold n.
    assert (Hlt : (s + (m - 1)) mod n < n) by (apply Nat.mod_upper_bound; lia).
    replace (s + m) with (S (s + (m - 1))) by lia.
    destruct (Nat.eqb_spec (S ((s + (m - 1)) mod n)) n) as [E|E].
    + replace (S (s + (m - 1))) with (s + (m - 1) + 1) by lia. rewrite <- (Nat.Div0.add_mod_idemp_l (s + (m - 1)) 1 n).
      replace ((s + (m - 1)) mod n + 1) with n by lia. by rewrite Nat.Div0.mod_same.
    + replace (S (s + (m - 1))) with (s + (m - 1) + 1) by lia. rewrite <- (Nat.Div0.add_mod_idemp_l (s + (m - 1)) 1 n). rewrite (Nat.mod_small ((s + (m - 1)) mod n + 1)) by lia. lia.
Qed.

Lemma batches_turn k : ∀ after_id i x,
  i < k * m → o !! ((batch_start after_id o + i) mod n) = Some x → x ∈ batches k after_id presentation.
Proof.
  destruct ordered_facts as (Hn & _). induction k as [|k IH]; intros after_id i x Hi Hx; [lia|]. cbn [batches].
  destruct (batch_turn after_id) as [H1 H2]. destruct (batch after_id presentation) as [after' patches]. cbn [fst snd] in *.
  apply elem_of_app. destruct (decide (i < m)); [left; by apply (H1 i)|]. right. apply (IH after' (i - m)); [lia|].
  rewrite H2, Nat.Div0.add_mod_idemp_l. by replace (batch_start after_id o + m + (i - m)) with (batch_start after_id o + i) by lia.
Qed.
End turns.

(** Drifting presentations are repaired in turn, none is passed over for ever: while the same terminals
    drift, any number of passes whose batches of eight add up to their number reach every one of
    them, wherever the cursor stands. *)
Theorem every_drift_gets_its_turn presentation after_id k p :
  NoDup (map pp_pty_id presentation) → length presentation ≤ k * MAX_PRESENTATION_PATCHES_PER_PASS →
  p ∈ presentation → p ∈ batches k after_id presentation.
Proof.
  intros Hnd Hk Hp. assert (Hne : presentation ≠ []) by (intros ->; by apply elem_of_nil in Hp).
  pose proof (ordered_facts presentation Hnd Hne) as (Hn & _). pose proof (batch_start_lt presentation Hnd Hne after_id) as Hs.
  set (o := ordered_patches presentation) in *. assert (Ho : p ∈ o) by (by apply elem_of_sort_by).
  assert (Hlen : length o = length presentation) by apply length_sort_by.
  apply list_elem_of_lookup in Ho as (q & Hq). pose proof (lookup_lt_Some _ _ _ Hq) as Hql. set (s := batch_start after_id o) in *.
  apply (batches_turn presentation Hnd Hne k after_id ((q + (length o - s)) mod length o)).
  - fold o. assert ((q + (length o - s)) mod length o < length o) by (apply Nat.mod_upper_bound; lia).
    unfold MAX_PRESENTATION_PATCHES_PER_PASS in *. destruct k as [|k]; [lia|].
    destruct (Nat.min_spec (length o) 8) as [[_ ->]|[_ ->]]; lia.
  - fold o. fold s. rewrite Nat.Div0.add_mod_idemp_r. replace (s + (q + (length o - s))) with (q + 1 * length o) by lia.
    rewrite Nat.Div0.mod_add, Nat.mod_small by done. done.
Qed.

(** Nine terminals in two batches, from the middle. *)
Definition nine : list PtyPresentation :=
  map (λ id, mkPresentation id None []) ["a"; "b"; "c"; "d"; "e"; "f"; "g"; "h"; "i"].

Lemma turns_witness :
  mkPresentation "d" None [] ∈ batches 2 (Some "d") nine ∧ map pp_pty_id (batch (Some "d") nine).2 = ["e"; "f"; "g"; "h"; "i"; "a"; "b"; "c"].
Proof.
  split; [|vm_compute; reflexivity].
  apply (every_drift_gets_its_turn nine (Some "d") 2 (mkPresentation "d" None [])).
  - apply (bool_decide_eq_true _). vm_compute. reflexivity.
  - cbn. unfold MAX_PRESENTATION_PATCHES_PER_PASS. lia.
  - cbn. do 3 right. left.
Defined.
