(* ===== verification/Supervise.v ===== *)
(** * Supervising a team

    What [reconcile_pass_specs_with_cursor] of [crates/st-drivers/src/run.rs] guarantees over many passes, on
    whatever runner. [supervised] is the life of a supervisor: passes, and requests to unpark that are
    granted, with the world free to change in between. [LocalRunner] states that an operation keeps
    to the session it names. *)

From S2P Require Import Prelude StableSort Text Slices Flapping TaskReconcile Execute.

(** ** Deferring *)

Lemma defer_launches self now ls : ∀ acc,
  (fold_left (defer_launch self now) ls acc).2 = acc.2 ++ map (narrow self now) ls.
Proof.
  induction ls as [|l ls IH]; intros [ds kept]; cbn [fold_left map snd]; [by rewrite app_nil_r|].
  rewrite IH. cbn [defer_launch snd]. by rewrite <- app_assoc.
Qed.

Definition has_tasks (l : Launch) : bool := match l_tasks l with [] => false | _ => true end.

Lemma defer_flickers_plan self plan now :
  let p := (defer_flickers self plan now).1 in
  p_launch p = List.filter has_tasks (map (narrow self now) (p_launch plan)) ∧
  p_live p = p_live plan ∧ p_teardown p = p_teardown plan ∧
  p_gc p = List.filter (λ id, negb (recently_alive self id now)) (p_gc plan).
Proof.
  unfold defer_flickers. set (acc := (_, [])). pose proof (defer_launches self now (p_launch plan) acc) as H.
  destruct (fold_left _ _ _). cbn in *. by rewrite H.
Qed.

Lemma defer_flickers_launch self plan now l :
  l ∈ p_launch (defer_flickers self plan now).1 → ∃ l0, l0 ∈ p_launch plan ∧ l = narrow self now l0.
Proof.
  destruct (defer_flickers_plan self plan now) as [-> _]. intros [(l0 & -> & H)%list_elem_of_fmap _]%lfilter_elem. by exists l0.
Qed.

Lemma narrow_elem self now l target :
  target ∈ l_tasks (narrow self now l) ↔ target ∈ l_tasks l ∧ recently_alive self (tt_pty_id target) now = false.
Proof. cbn. by rewrite lfilter_elem, negb_true_iff. Qed.

(** ** Passes *)

Lemma by_id_elem sessions id s : by_id sessions !! id = Some s → s ∈ sessions ∧ s_pty_id s = id.
Proof.
  unfold by_id. assert (H : ∀ (m : gmap string Session), fold_left (λ m s, <[s_pty_id s := s]> m) sessions m !! id = Some s →
    m !! id = Some s ∨ s ∈ sessions ∧ s_pty_id s = id).
  { induction sessions as [|s0 sessions IH]; intros m E; [by left|]. apply IH in E as [E|[Hin ?]]; [|right; split; [by right|done]].
    apply lookup_insert_Some in E as [[<- <-]|[_ E]]; [right; split; [left|done]|by left]. }
  intros [E|?]%H; [by rewrite lookup_empty in E|done].
Qed.

Definition shows_alive (sessions : list Session) (id : string) : bool :=
  existsb (λ s, str_eqb (s_pty_id s) id && s_alive s) sessions.

Lemma live_is_shown specs sessions this_host plan id :
  reconcile specs sessions this_host = Some (Ok plan) → id ∈ p_live plan → shows_alive sessions id = true.
Proof.
  intros E. destruct (reconcile_tells specs sessions this_host plan E) as (_ & _ & _ & _ & ->).
  unfold decided. intros ([spec t] & -> & Hin)%list_elem_of_fmap. apply lfilter_elem in Hin as [_ Hd%bool_decide_eq_true%list_elem_of_singleton].
  cbn [fst snd] in *. assert (Hs : session_state (by_id sessions) (task_id spec this_host t) = Alive).
  { unfold decision, stopped_decision, running_decision in Hd. destruct (session_state _ _); [done|..]; exfalso;
      destruct (is_running _); cbn [negb] in Hd; repeat case_match; done. }
  unfold session_state in Hs. destruct (by_id sessions !! _) as [s|] eqn:Es; [|done]. destruct (s_alive s) eqn:Ea; [|done].
  apply by_id_elem in Es as [Hin Hid]. apply existsb_exists. exists s. rewrite Hid, str_eqb_refl, Ea. split; [by apply list_elem_of_In|done].
Qed.

(** Every task of this host has the restart policy of its agent. *)
Definition policies_agree (policy : string → Restart) (specs : list AgentSpec) (this_host : string) : Prop :=
  ∀ spec t, (spec, t) ∈ local_tasks specs this_host → policy (task_id spec this_host t) = restart_policy spec.

Section passes.
Context {W : Type} {R : Runner W} (policy : string → Restart).

Definition observed_alive (w : W) (id : string) : bool :=
  match (list_sessions w).2 with Ok sessions => shows_alive sessions id | Err _ => false end.

Lemma pass_drives specs this_host sv w w' sv' r log :
  policies_agree policy specs this_host →
  reconcile_pass_specs_with_cursor specs this_host sv w = Some (w', sv', r) → runs policy log (sv_cap sv) →
  ∃ log' live, runs policy (log' ++ log) (sv_cap sv') ∧ Forall (within live) log' ∧
    (∀ id, id ∈ live → observed_alive w id = true) ∧ ∀ id, spawn_count id r = launch_count id log'.
Proof.
  intros Hp E Hr. unfold reconcile_pass_specs_with_cursor, observed_alive in *.
  assert (Hskip : sv_cap sv' = sv_cap sv → r_launched r = [] → r_restarted r = [] →
    ∃ log' live, runs policy (log' ++ log) (sv_cap sv') ∧ Forall (within live) log' ∧
      (∀ id, id ∈ live → match (list_sessions w).2 with Ok sessions => shows_alive sessions id | Err _ => false end = true) ∧
      ∀ id, spawn_count id r = launch_count id log').
  { intros Hc H1 H2. exists [], []. rewrite Hc. split_and!; [done|constructor|by intros id ?%elem_of_nil|].
    intros id. unfold spawn_count. by rewrite H1, H2. }
  destruct (validate_task_identities _ _); [|injection E as <- <- <-; by apply Hskip].
  destruct (list_sessions w) as [w1 [sessions|e]]; [|injection E as <- <- <-; by apply Hskip]. cbn [snd] in *.
  unfold reconcile_specs_with_sessions in E. destruct (instant_now w1) as [w2 now].
  destruct (reconcile specs sessions this_host) as [[plan|e]|] eqn:Erec; [| |done]; [|injection E as <- <- <-; by apply Hskip].
  set (d := observe _ _ _) in E. pose proof (defer_flickers_launch d plan now) as Hl. pose proof (defer_flickers_plan d plan now) as (_ & Hlive & _).
  destruct (defer_flickers d plan now) as [plan' deferred]. cbn [fst] in Hl, Hlive.
  set (x0 := mkExec _ _ _) in E.
  assert (Hdr : drives policy (p_live plan') x0 (execute_with_presentation_cursor (λ w _, w) plan' (sv_cursor sv) x0).1).
  { apply execute_drives; [done|]. intros l target Hin Ht. destruct (Hl l Hin) as (l0 & Hl0 & ->).
    apply narrow_elem in Ht as [Ht0 _]. destruct (reconcile_launches specs sessions this_host plan l0 Erec Hl0) as (H1 & H2 & H3 & H4 & _).
    destruct (H4 target Ht0) as (t & launch & Hin' & _ & ->). apply (Hp (l_spec l0) t). by apply local_tasks_elem. }
  destruct (execute_with_presentation_cursor _ _ _ _) as [x cursor]. injection E as <- <- <-. cbn [sv_cap fst] in *.
  destruct (Hdr log Hr) as (log' & H1 & H2 & H3). exists log', (p_live plan'). split_and!; [done..| |].
  - rewrite Hlive. intros id. by apply (live_is_shown specs sessions this_host plan).
  - intros id. by rewrite H3.
Qed.

Lemma grants_drive ids : ∀ cap report log,
  runs policy log cap →
  ∃ log', runs policy (log' ++ log) (fold_left grant_request ids (cap, report)).1 ∧
    Forall (λ e, match e with EvUnpark id => id ∈ ids | _ => False end) log'.
Proof.
  induction ids as [|id ids IH]; intros cap report log Hr; [by exists []|]. cbn [fold_left grant_request].
  pose proof (runs_unpark policy log cap id Hr) as H. destruct (unpark cap id) as [cap' granted]. cbn [fst] in H.
  match goal with |- context [fold_left grant_request ids (cap', ?r)] => destruct (IH cap' r _ H) as (log' & Hr' & Hl) end.
  exists (log' ++ [EvUnpark id]). rewrite <- app_assoc. split; [done|]. apply Forall_app. split; [|constructor; [left|constructor]].
  eapply Forall_impl; [exact Hl|]. intros [| | |x] He; cbn in *; try done. by right.
Qed.
End passes.

(** What a supervisor has done: passes, with the world they started in and their report, and requests to unpark
    that were granted. *)
Inductive Past (W : Type) := Passed (w : W) (r : UpReport) | Granted (ids : list string).
#[global] Arguments Passed {W} _ _.
#[global] Arguments Granted {W} _.

Definition spawns {W} (id : string) (e : Past W) : nat := match e with Passed _ r => spawn_count id r | Granted _ => 0 end.

(** No inventory showed the task alive, and nobody asked to unpark it. *)
Definition stays_down {W} {R : Runner W} (id : string) (e : Past W) : Prop :=
  match e with Passed w _ => observed_alive w id = false | Granted ids => id ∉ ids end.

Section supervised.
Context {W : Type} {R : Runner W} (policy : string → Restart) (this_host : string).

(** Newest first. What happens to the world between two passes is not restricted, and the declarations may change. *)
Inductive supervised : list (Past W) → Supervisor → Prop :=
| supervised_new d cursor : supervised [] (mkSupervisor new d cursor)
| supervised_pass h sv specs w w' sv' r :
    supervised h sv → policies_agree policy specs this_host →
    reconcile_pass_specs_with_cursor specs this_host sv w = Some (w', sv', r) →
    supervised (Passed w r :: h) sv'
| supervised_grant h sv requests report :
    supervised h sv →
    supervised (Granted requests.1 :: h)
      (mkSupervisor (grant_unpark_requests (sv_cap sv) requests report).1 (sv_debounce sv) (sv_cursor sv)).

Lemma supervised_runs h sv :
  supervised h sv →
  ∃ log, runs policy log (sv_cap sv) ∧ (∀ id, list_sum (map (spawns id) h) = launch_count id log) ∧
    ∀ id, Forall (stays_down id) h → never_up id log.
Proof.
  induction 1 as [d cursor|h sv specs w w' sv' r Hs (log & Hr & Hc & Hup) Hp E|h sv requests report Hs (log & Hr & Hc & Hup)].
  - exists []. split_and!; [constructor|done|]. intros id _. constructor.
  - destruct (pass_drives policy specs this_host sv w w' sv' r log Hp E Hr) as (log' & live & Hr' & Hw & Hlive & Hc').
    exists (log' ++ log). split_and!; [done| |].
    + intros id. simpl. rewrite launch_count_app, Hc', Hc. done.
    + intros id [Hw0 Hh]%Forall_cons_iff. cbn in Hw0. apply Forall_app. split; [|by apply Hup].
      eapply Forall_impl; [exact Hw|]. intros [| |now seen|] He; cbn in *; try done.
      intros Hin. rewrite He in Hin. apply Hlive in Hin. congruence.
  - destruct (grants_drive policy requests.1 (sv_cap sv) (add_errors requests.2 report) log Hr) as (log' & Hr' & Hl).
    exists (log' ++ log). split_and!; [done| |].
    + intros id. simpl. rewrite launch_count_app, <- Hc. enough (launch_count id log' = 0) by lia.
      clear -Hl. induction Hl as [|e log' He Hl IH]; [done|]. unfold launch_count in *. by destruct e.
    + intros id [Hw0 Hh]%Forall_cons_iff. cbn in Hw0. apply Forall_app. split; [|by apply Hup].
      eapply Forall_impl; [exact Hl|]. intros [| | |x] He; cbn in *; try done. by intros ->.
Qed.
End supervised.

(** C21. A crash loop ends whatever the runner does: over any number of passes of a supervisor, a task with a
    fail policy that no inventory ever shows alive, and that nobody asks to unpark, is spawned at
    most the policy's number of attempts, first launches and restarts together, although its
    declaration stays and every plan asks for it again. *)
Theorem supervised_crash_loops_end {W} {R : Runner W} policy this_host (h : list (Past W)) sv id :
  supervised policy this_host h sv → restart_mode (policy id) = ModeFail → Forall (stays_down id) h →
  list_sum (map (spawns id) h) ≤ attempts (policy id).
Proof.
  intros Hs Hm Hup. destruct (supervised_runs policy this_host h sv Hs) as (log & Hr & Hc & Hn). rewrite Hc.
  by apply (fail_budget_inv policy log (sv_cap sv) id Hm Hr), Hn.
Qed.

(** ** What a pass leaves alone *)

(** A runner that keeps to the session it is asked about: an operation on one ID changes the state of no other
    session, whether it succeeds or not, and listing, the clock, an inbox and the
    presentation of a terminal change none. *)
Class LocalRunner (W : Type) {R : Runner W} := {
  state_of : W → string → SessionState;
  list_local w id : state_of (list_sessions w).1 id = state_of w id;
  now_local w id : state_of (instant_now w).1 id = state_of w id;
  patch_local w p id : state_of (patch_presentation w p).1 id = state_of w id;
  archive_local w path id : state_of (archive_inbox w path).1 id = state_of w id;
  spawn_local w target path id : tt_pty_id target ≠ id → state_of (spawn w target path).1 id = state_of w id;
  kill_local w x id : x ≠ id → state_of (kill w x).1 id = state_of w id;
  reap_local w x id : x ≠ id → state_of (reap_for_restart w x).1 id = state_of w id;
  remove_local w x id : x ≠ id → state_of (remove w x).1 id = state_of w id
}.

(** The IDs a plan may act on. *)
Definition acts_on (plan : ReconcilePlan) (id : string) : Prop :=
  id ∈ launched plan ∨ id ∈ p_gc plan ∨ id ∈ torn_down plan ∨ ∃ l, l ∈ p_launch plan ∧ id ∈ l_live_derived l.

Section frame.
Context {W : Type} {R : Runner W} {L : LocalRunner W} (id : string) (s : SessionState).

Definition keeps (x : Exec W) : Prop := state_of (x_world x) id = s.

Lemma keeps_world x (w : W) (f : UpReport → UpReport) : state_of w id = s → keeps (reported f (in_world w x)).
Proof. done. Qed.

Lemma reap_keeps ids x y : y ≠ id → keeps x → keeps (reap_corpse ids x y).
Proof.
  intros Hne Hk. unfold reap_corpse. case_bool_decide; [done|]. pose proof (remove_local (x_world x) y id Hne) as Hloc.
  destruct (remove _ _) as [w [|]]; apply keeps_world; cbn [fst] in Hloc; by rewrite Hloc.
Qed.

Lemma companions_keep l x : id ∉ l_live_derived l → keeps x → keeps (stop_live_derived_companions l x).
Proof.
  intros Hn Hk. unfold stop_live_derived_companions. apply (fold_left_keeps keeps); [|done]. intros y c Hc Hy. assert (Hne : c ≠ id) by by intros ->.
  unfold stop_companion. pose proof (kill_local (x_world y) c id Hne) as Hloc. destruct (kill _ _) as [w [|]]; apply keeps_world; cbn [fst] in Hloc; by rewrite Hloc.
Qed.

Lemma unavailable_keeps l target x b : id ∉ l_live_derived l → keeps x → keeps (unavailable l target x b).1.
Proof. intros Hn Hk. unfold unavailable. destruct (canonical target); [by apply companions_keep|done]. Qed.

Lemma spawn_keeps l target now restarting x b :
  id ∉ l_live_derived l → tt_pty_id target ≠ id → keeps x → keeps (spawn_target (λ w _, w) l target now restarting x b).1.
Proof.
  intros Hn Hne Hk. unfold spawn_target. pose proof (spawn_local (x_world x) target (a_path (l_spec l)) id Hne) as Hloc.
  destruct (spawn _ _ _) as [w [|]]; cbn [fst] in Hloc.
  - destruct (canonical target); unfold keeps; cbn; by rewrite Hloc.
  - apply unavailable_keeps; [done|]. apply keeps_world. by rewrite Hloc.
Qed.

Lemma launch_target_keeps gc l x b target :
  id ∉ l_live_derived l → tt_pty_id target ≠ id → keeps x → keeps (launch_target (λ w _, w) gc l (x, b) target).1.
Proof.
  intros Hn Hne Hk. unfold launch_target. destruct (tt_derived target && negb b); [done|].
  pose proof (now_local (x_world x) id) as Hnow. destruct (instant_now _) as [w now]. destruct (decide_restart _ _ _ _) as [cap d].
  cbn [fst] in Hnow. set (y := mkExec w cap (x_report x)). assert (Hy : keeps y) by (unfold keeps; cbn in *; by rewrite Hnow).
  destruct d; [|done|done|by apply unavailable_keeps].
  case_bool_decide; [|by apply spawn_keeps]. pose proof (reap_local w _ id Hne) as Hr. cbn [x_world y].
  destruct (reap_for_restart w _) as [w' [|]]; cbn [fst] in Hr.
  - apply spawn_keeps; [done..|]. unfold keeps. cbn. rewrite Hr. exact Hy.
  - apply unavailable_keeps; [done|]. apply keeps_world. rewrite Hr. exact Hy.
Qed.

Lemma run_launch_keeps gc x l :
  id ∉ l_live_derived l → id ∉ map tt_pty_id (l_tasks l) → keeps x → keeps (run_launch (λ w _, w) gc x l).
Proof.
  intros Hn Ht Hk. unfold run_launch. apply (fold_left_keeps (λ acc, keeps acc.1)); [|done].
  intros [y b] target Hin Hy. apply launch_target_keeps; [done| |done].
  intros <-. apply Ht, list_elem_of_fmap. exists target. split; [done|]. by apply ordered_targets_elem.
Qed.

Lemma tear_down_keeps acc td : id ∉ td_pty_ids td → keeps acc.1 → keeps (tear_down acc td).1.
Proof.
  destruct acc as [x failed]. intros Hn Hk. unfold tear_down.
  assert (Hf : keeps (fold_left kill_one (td_pty_ids td) (x, false)).1).
  { apply (fold_left_keeps (λ acc, keeps acc.1)); [|done]. intros [y b] c Hc Hy. assert (Hne : c ≠ id) by by intros ->.
    unfold kill_one. pose proof (kill_local (x_world y) c id Hne) as Hloc. destruct (kill _ _) as [w [|]]; apply keeps_world; cbn [fst] in Hloc; by rewrite Hloc. }
  by destruct (fold_left kill_one _ _) as [y b].
Qed.

Lemma execute_keeps plan after_id x :
  ¬ acts_on plan id → keeps x → keeps (execute_with_presentation_cursor (λ w _, w) plan after_id x).1.
Proof.
  intros Hn Hk. unfold execute_with_presentation_cursor, acts_on in *. cbn zeta.
  set (x1 := fold_left (reap_corpse _) _ x).
  assert (H1 : keeps x1) by (apply (fold_left_keeps keeps); [|done]; intros y c Hc; apply reap_keeps; intros ->; auto).
  set (x2 := fold_left (run_launch _ _) _ x1).
  assert (H2 : keeps x2).
  { apply (fold_left_keeps keeps); [|done]. intros y l Hl. apply run_launch_keeps; intros Hin; apply Hn; [eauto 6|]. left. unfold launched.
    apply list_elem_of_In, in_flat_map. exists l. by rewrite <- !list_elem_of_In. }
  pose proof (now_local (x_world x2) id) as Hnow. destruct (instant_now _) as [w now]. set (x3 := mkExec w _ _).
  assert (H3 : keeps x3) by (unfold keeps; cbn in *; by rewrite Hnow).
  assert (H4 : keeps (fold_left tear_down (p_teardown plan) (x3, [])).1).
  { apply (fold_left_keeps (λ acc, keeps acc.1)); [|done]. intros acc td Htd. apply tear_down_keeps. intros Hin. apply Hn. do 2 right. left.
    unfold torn_down. apply list_elem_of_In, in_flat_map. exists td. by rewrite <- !list_elem_of_In. }
  destruct (fold_left tear_down _ _) as [x4 failed]. cbn [fst] in H4. set (x5 := fold_left (settle_retired _) _ x4).
  assert (H5 : keeps x5).
  { apply (fold_left_keeps keeps); [|done]. intros y spec _ Hy. unfold settle_retired. case_bool_decide; [done|].
    pose proof (archive_local (x_world y) (a_path spec) id) as Hloc. destruct (archive_inbox _ _) as [? [|]]; unfold keeps; cbn in *; by rewrite Hloc. }
  destruct (batch _ _) as [cursor patches]. set (x6 := fold_left patch _ x5).
  assert (H6 : keeps x6).
  { apply (fold_left_keeps keeps); [|done]. intros y p _ Hy. unfold patch. pose proof (patch_local (x_world y) p id) as Hloc.
    destruct (patch_presentation _ _) as [? [|]]; unfold keeps; cbn in *; by rewrite Hloc. }
  by destruct (0 <? _).
Qed.
End frame.

(** An ID a plan acts on is a declared task's, and a task observed alive is only ever stopped. *)
Lemma decided_elem m this_host ds sts id :
  id ∈ decided m this_host ds sts ↔
  ∃ spec t, (spec, t) ∈ sts ∧ task_id spec this_host t = id ∧ decision m this_host spec t ∈ ds.
Proof.
  unfold decided. rewrite list_elem_of_fmap. split.
  - intros ([spec t] & -> & [Hin Hd%bool_decide_eq_true]%lfilter_elem). by exists spec, t.
  - intros (spec & t & Hin & <- & Hd). exists (spec, t). split; [done|]. apply lfilter_elem. by rewrite bool_decide_true.
Qed.

(** What each decision says of the session. *)
Lemma decision_state m this_host spec t :
  let s := session_state m (task_id spec this_host t) in
  match decision m this_host spec t with
  | Live | Stop => s = Alive
  | Reap | Replace => s = Dead
  | Start => s = Absent
  | Hold => s ≠ Alive
  | Leave => True
  end.
Proof.
  cbn zeta. unfold decision, stopped_decision, running_decision. destruct (session_state m _), (is_running _); cbn [negb];
    repeat (case_match; cbn); done.
Qed.

Lemma alive_is_shown sessions id : session_state (by_id sessions) id = Alive → shows_alive sessions id = true.
Proof.
  unfold session_state. intros Hs. destruct (by_id sessions !! id) as [s|] eqn:Es; [|done]. destruct (s_alive s) eqn:Ea; [|done].
  apply by_id_elem in Es as [Hin Hid]. apply existsb_exists. exists s. rewrite Hid, str_eqb_refl, Ea. split; [by apply list_elem_of_In|done].
Qed.

Lemma launched_elem p id : id ∈ launched p ↔ ∃ l target, l ∈ p_launch p ∧ target ∈ l_tasks l ∧ tt_pty_id target = id.
Proof.
  unfold launched. rewrite list_elem_of_In, in_flat_map. split.
  - intros (l & Hl & (target & <- & Ht)%in_map_iff). exists l, target. by rewrite !list_elem_of_In.
  - intros (l & target & Hl & Ht & <-). exists l. rewrite !list_elem_of_In in *. split; [done|]. by apply in_map.
Qed.

Lemma acts_on_declared specs sessions this_host plan d now id :
  reconcile specs sessions this_host = Some (Ok plan) → acts_on (defer_flickers d plan now).1 id →
  id ∈ map (λ st, task_id st.1 this_host st.2) (local_tasks specs this_host) ∧
  (shows_alive sessions id = true ∨ recently_alive d id now = false).
Proof.
  intros E Ha. destruct (reconcile_tells specs sessions this_host plan E) as (T1 & T2 & T3 & _).
  destruct (defer_flickers_plan d plan now) as (_ & _ & Htd & Hgc).
  assert (Hin : ∀ ds, id ∈ decided (by_id sessions) this_host ds (local_tasks specs this_host) →
            id ∈ map (λ st, task_id st.1 this_host st.2) (local_tasks specs this_host)).
  { intros ds (spec & t & Hin & <- & _)%decided_elem. apply list_elem_of_fmap. by exists (spec, t). }
  destruct Ha as [Ha|[Ha|[Ha|(l & Hl & Hid)]]].
  - apply launched_elem in Ha as (l & target & Hl & Ht & <-). destruct (defer_flickers_launch d plan now l Hl) as (l0 & Hl0 & ->).
    apply narrow_elem in Ht as [Ht0 Hr]. split; [|by right]. apply (Hin [Start; Replace]). rewrite <- T1. apply launched_elem. by exists l0, target.
  - rewrite Hgc in Ha. apply lfilter_elem in Ha as [Ha Hr%negb_true_iff]. split; [|by right]. apply (Hin [Reap; Replace]). by rewrite <- T3.
  - unfold torn_down in Ha. rewrite Htd in Ha. fold (torn_down plan) in Ha. rewrite T2 in Ha. split; [by apply (Hin [Stop])|]. left.
    apply decided_elem in Ha as (spec & t & _ & <- & Hd%list_elem_of_singleton). apply alive_is_shown.
    pose proof (decision_state (by_id sessions) this_host spec t) as Hs. by rewrite Hd in Hs.
  - destruct (defer_flickers_launch d plan now l Hl) as (l0 & Hl0 & ->). cbn [narrow l_live_derived] in Hid.
    destruct (reconcile_launches specs sessions this_host plan l0 E Hl0) as (H1 & H2 & _ & _ & H5).
    destruct (H5 id Hid) as (Hs & t & Ht & _ & <-). split; [|left; by apply alive_is_shown].
    apply list_elem_of_fmap. exists (l_spec l0, t). split; [done|]. by apply local_tasks_elem.
Qed.

Lemma observe_not_shown self sessions id now :
  shows_alive sessions id = false → recently_alive (observe self sessions now) id now = recently_alive self id now.
Proof.
  unfold recently_alive, observe. cbn [last_alive grace]. intros Hs.
  assert (E : fold_left (λ m s, if s_alive s then <[s_pty_id s:=now]> m else m) sessions (last_alive self) !! id = last_alive self !! id).
  { apply (fold_left_keeps (λ m : gmap string Z, m !! id = last_alive self !! id)); [|done]. intros m s Hin Hm. destruct (s_alive s) eqn:Ea; [|done].
    rewrite lookup_insert_ne; [done|]. intros <-. rewrite <- not_true_iff_false in Hs. apply Hs. apply existsb_exists. exists s.
    rewrite str_eqb_refl, Ea. split; [by apply list_elem_of_In|done]. }
  rewrite map_lookup_filter, E. destruct (last_alive self !! id) as [t|]; [|done]. cbn. case_guard as Hg; cbn; [done|].
  symmetry. apply Z.ltb_ge. cbn in Hg. lia.
Qed.

(** C22. A pass leaves alone what is not its own and what it may have misread: whatever the runner answers, the
    state of a session is unchanged when no task declared for this host has its ID, or when the task
    is not shown alive but was seen alive within the grace. *)
Theorem passes_leave_the_rest_alone {W} {R : Runner W} {L : LocalRunner W} specs this_host sv (w w1 w' : W) sessions sv' r id :
  reconcile_pass_specs_with_cursor specs this_host sv w = Some (w', sv', r) → list_sessions w = (w1, Ok sessions) →
  (id ∉ map (λ st, task_id st.1 this_host st.2) (local_tasks specs this_host)) ∨
  shows_alive sessions id = false ∧ recently_alive (sv_debounce sv) id (instant_now w1).2 = true →
  state_of w' id = state_of w id.
Proof.
  intros E Els Hcase. unfold reconcile_pass_specs_with_cursor in E. rewrite Els in E.
  pose proof (list_local w id) as Hw1. rewrite Els in Hw1. cbn [fst] in Hw1.
  destruct (validate_task_identities _ _); [|by injection E as <- <- <-].
  unfold reconcile_specs_with_sessions in E. pose proof (now_local w1 id) as Hw2. destruct (instant_now w1) as [w2 now]. cbn [fst snd] in *.
  destruct (reconcile specs sessions this_host) as [[plan|e]|] eqn:Erec; [| |done].
  2: { injection E as <- <- <-. congruence. }
  pose proof (acts_on_declared specs sessions this_host plan (observe (sv_debounce sv) sessions now) now id Erec) as Hacts.
  destruct (defer_flickers _ _ _) as [plan' deferred]. cbn [fst] in Hacts. set (x0 := mkExec w2 _ _) in E.
  pose proof (execute_keeps id (state_of w id) plan' (sv_cursor sv) x0) as Hk.
  destruct (execute_with_presentation_cursor _ _ _ _) as [x cursor]. injection E as <- <- <-. apply Hk.
  - intros Ha. apply Hacts in Ha as [Hin Hor]. destruct Hcase as [Hn|[Hs Hr]]; [done|].
    rewrite observe_not_shown in Hor by done. destruct Hor; congruence.
  - unfold keeps. cbn. congruence.
Qed.

(** ** A runner in memory

    The sessions by ID with whether they are alive, and a clock that ticks when it is read. *)

Record Host := mkHost { h_sessions : gmap string bool; h_clock : Z }.

Definition h_list (h : Host) : list Session := map (λ kv, mkSession kv.1 kv.2 None None) (map_to_list (h_sessions h)).

#[export] Instance host_runner : Runner Host := {
  instant_now h := (mkHost (h_sessions h) (h_clock h + 1), h_clock h);
  list_sessions h := (h, Ok (h_list h));
  spawn h target _ := (mkHost (<[tt_pty_id target := true]> (h_sessions h)) (h_clock h), Ok tt);
  patch_presentation h _ := (h, Ok tt);
  kill h id := (mkHost (<[id := false]> (h_sessions h)) (h_clock h), Ok tt);
  reap_for_restart h id := (mkHost (delete id (h_sessions h)) (h_clock h), Ok tt);
  remove h id := (mkHost (delete id (h_sessions h)) (h_clock h), Ok tt);
  archive_inbox h _ := (h, Ok tt)
}.

Definition h_state (h : Host) (id : string) : SessionState :=
  match h_sessions h !! id with Some true => Alive | Some false => Dead | None => Absent end.

#[export, refine] Instance host_local : LocalRunner Host := { state_of := h_state }.
Proof.
  all: intros; unfold h_state; cbn; rewrite ?lookup_insert_ne, ?lookup_delete_ne by done; done.
Defined.

Lemma h_list_ids h : NoDup (map s_pty_id (h_list h)).
Proof. unfold h_list. rewrite map_map. cbn. apply NoDup_fst_map_to_list. Qed.

Lemma h_list_elem h s : s ∈ h_list h ↔ ∃ id b, s = mkSession id b None None ∧ h_sessions h !! id = Some b.
Proof.
  unfold h_list. rewrite list_elem_of_fmap. split.
  - intros ([id b] & -> & H%elem_of_map_to_list). by exists id, b.
  - intros (id & b & -> & H). exists (id, b). split; [done|]. by apply elem_of_map_to_list.
Qed.

Lemma h_list_state h id : session_state (by_id (h_list h)) id = h_state h id.
Proof.
  rewrite (found_state _ _ (h_list_ids h)). unfold h_state. destruct (find_session (h_list h) id) as [s|] eqn:Ef.
  - unfold find_session in Ef. apply List.find_some in Ef as [Hin Hid%str_eqb_true]. apply list_elem_of_In, h_list_elem in Hin as (id' & b & -> & Hl).
    cbn in *. subst id'. rewrite Hl. by destruct b.
  - destruct (h_sessions h !! id) as [b|] eqn:E; [|done]. exfalso.
    assert (Hin : mkSession id b None None ∈ h_list h) by (apply h_list_elem; by exists id, b).
    apply list_elem_of_In in Hin. unfold find_session in Ef. apply (List.find_none _ _ Ef) in Hin. cbn in Hin. by rewrite str_eqb_refl in Hin.
Qed.

(** ** Examples *)

Definition sessions_of (l : list (string * bool)) (clock : Z) : Host := mkHost (list_to_map l) clock.
Definition fresh : Supervisor := mkSupervisor new (mkDebounce ∅ DEBOUNCE_GRACE) None.

(** A pass as its three results, or those of a pass that did nothing. *)
Definition passed (sv : Supervisor) (h : Host) : Host * Supervisor * UpReport :=
  default (h, sv, empty_report) (reconcile_pass_specs_with_cursor team "h" sv h).

Lemma passed_eq sv h : is_some (reconcile_pass_specs_with_cursor team "h" sv h) = true →
  reconcile_pass_specs_with_cursor team "h" sv h = Some ((passed sv h).1.1, (passed sv h).1.2, (passed sv h).2).
Proof. unfold passed. by destruct (reconcile_pass_specs_with_cursor team "h" sv h) as [[[? ?] ?]|]. Qed.

(** The worker dies after each start. *)
Definition down (clock : Z) : Host := sessions_of [("h.worker.agent", false); ("stranger", true)] clock.
Definition p1 := passed fresh (down 0).
Definition p2 := passed p1.1.2 (down 100).
Definition p3 := passed p2.1.2 (down 200).
Definition crash_history : list (Past Host) := [Passed (down 200) p3.2; Passed (down 100) p2.2; Passed (down 0) p1.2].

Definition team_policy (id : string) : Restart := if str_eqb id "h.old.agent" then default_restart else mkRestart 2 60 0 ModeFail.

Lemma crash_loop_ends_witness :
  list_sum (map (spawns "h.worker.agent") crash_history) = 2 ∧ 2 ≤ attempts (team_policy "h.worker.agent") ∧
  r_flapping p3.2 = ["h.worker.agent"].
Proof.
  assert (Hp : policies_agree team_policy team "h").
  { intros spec t Hin. assert (H : forallb (λ st, bool_decide (attempts (team_policy (task_id st.1 "h" st.2)) = attempts (restart_policy st.1))
        && bool_decide (interval (team_policy (task_id st.1 "h" st.2)) = interval (restart_policy st.1))
        && bool_decide (delay (team_policy (task_id st.1 "h" st.2)) = delay (restart_policy st.1))
        && match restart_mode (team_policy (task_id st.1 "h" st.2)), restart_mode (restart_policy st.1) with
           | ModeFail, ModeFail | ModeDelay, ModeDelay => true | _, _ => false end) (local_tasks team "h") = true) by (vm_compute; reflexivity).
    rewrite forallb_forall in H. apply list_elem_of_In, H in Hin. cbn [fst snd] in Hin.
    apply andb_true_iff in Hin as [[[H1%bool_decide_eq_true H2%bool_decide_eq_true]%andb_true_iff H3%bool_decide_eq_true]%andb_true_iff H4].
    destruct (team_policy _) as [a i d m], (restart_policy spec) as [a' i' d' m']. cbn in *. subst. by destruct m, m'. }
  assert (E : list_sum (map (spawns "h.worker.agent") crash_history) = 2) by (vm_compute; reflexivity).
  rewrite E. split_and!; [done| |vm_compute; reflexivity]. rewrite <- E at 1.
  apply (supervised_crash_loops_end team_policy "h" crash_history p3.1.2).
  - apply (supervised_pass team_policy "h" _ p2.1.2 team _ p3.1.1); [|done|apply passed_eq; vm_compute; reflexivity].
    apply (supervised_pass team_policy "h" _ p1.1.2 team _ p2.1.1); [|done|apply passed_eq; vm_compute; reflexivity].
    apply (supervised_pass team_policy "h" _ fresh team _ p1.1.1); [constructor|done|apply passed_eq; vm_compute; reflexivity].
  - reflexivity.
  - repeat constructor.
Defined.

(** The worker was seen alive three seconds before it is shown dead. *)
Definition seen : Supervisor := mkSupervisor new (mkDebounce {["h.worker.agent" := 97%Z]} DEBOUNCE_GRACE) None.

Lemma left_alone_witness :
  h_state (passed seen (down 100)).1.1 "h.worker.agent" = Dead ∧ h_state (passed fresh (down 100)).1.1 "h.worker.agent" = Alive ∧
  h_state (passed fresh (down 100)).1.1 "stranger" = Alive.
Proof.
  split_and!; [|vm_compute; reflexivity|].
  - refine (eq_trans (passes_leave_the_rest_alone team "h" seen (down 100) (down 100) (passed seen (down 100)).1.1 (h_list (down 100))
                        (passed seen (down 100)).1.2 (passed seen (down 100)).2 "h.worker.agent" _ _ _) _).
    + apply passed_eq. vm_compute. reflexivity.
    + reflexivity.
    + right. split; vm_compute; reflexivity.
    + vm_compute. reflexivity.
  - refine (eq_trans (passes_leave_the_rest_alone team "h" fresh (down 100) (down 100) (passed fresh (down 100)).1.1 (h_list (down 100))
                        (passed fresh (down 100)).1.2 (passed fresh (down 100)).2 "stranger" _ _ _) _).
    + apply passed_eq. vm_compute. reflexivity.
    + reflexivity.
    + left. apply (bool_decide_eq_true _). vm_compute. reflexivity.
    + vm_compute. reflexivity.
Defined.
