(* ===== verification/Settle.v ===== *)
(** * A team comes up and settles

    What a supervisor reaches on a runner that does what it is asked ([ObedientRunner]): the states of all
    sessions after one pass, and that a fresh supervisor's team is up after the first and at rest
    after the second. The runner in memory is an instance. *)

From S2P Require Import Prelude StableSort Text BTree Slices Flapping TaskReconcile Execute Supervise.

(** ** A fresh supervisor *)

(** A task the cap knows nothing of. *)
Definition untried (c : FlappingCap) (id : string) : Prop :=
  launches c !! id = None ∧ last_launch c !! id = None ∧ (id ∉ parked c) ∧ consecutive c !! id = None ∧ healthy_since c !! id = None.

Lemma untried_allowed c id now policy c' d :
  untried c id → 0 < attempts policy → decide_restart c id now policy = (c', d) → d = Allow.
Proof.
  intros (H1 & H2 & H3 & H4 & H5) Ha. unfold decide_restart. rewrite H5. unfold is_parked. cbn [begin_decide parked is_some_and].
  rewrite bool_decide_false by done. cbn [last_launch begin_decide]. rewrite H2. cbn [is_some_and].
  destruct (restart_mode policy).
  - cbn [consecutive begin_decide]. rewrite H4. cbn [default]. destruct (Nat.leb_spec (attempts policy) 0); [lia|]. by intros [= <- <-].
  - unfold recent_count. cbn [launches begin_decide]. rewrite H1. destruct (Nat.leb_spec (attempts policy) 0); [lia|]. by intros [= <- <-].
Qed.

Lemma decide_untried c id now policy c' d x :
  decide_restart c id now policy = (c', d) → x ≠ id → untried c x → untried c' x.
Proof.
  intros Hd Hx (H1 & H2 & H3 & H4 & H5). pose proof (decide_facts c id now policy c' d Hd) as (Hf & _).
  destruct (Hf x Hx) as (Ea & Eb & Ec & Ed). unfold untried. rewrite Ea, Eb, Ec, Ed. split_and!; try done.
  unfold decide_restart in Hd. repeat (case_match; simplify_eq/=; try done).
  all: unfold recent_count in *; repeat (case_match; simplify_eq/=; try done).
Qed.

Lemma record_untried c id now x : x ≠ id → untried c x → untried (record c id now) x.
Proof. intros Hx (H1 & H2 & H3 & H4 & H5). unfold untried. cbn. rewrite !lookup_insert_ne by done. done. Qed.

(** A runner that does what it is asked. *)
Class ObedientRunner (W : Type) {R : Runner W} {L : LocalRunner W} := {
  lists_state w : ∃ sessions, (list_sessions w).2 = Ok sessions ∧
    ∀ id, session_state (by_id sessions) id = state_of w id ∧ (shows_alive sessions id = true → state_of w id = Alive);
  spawn_obeys w target path : (spawn w target path).2 = Ok tt ∧ state_of (spawn w target path).1 (tt_pty_id target) = Alive;
  kill_obeys w id : (kill w id).2 = Ok tt ∧ state_of (kill w id).1 id = Dead;
  reap_obeys w id : (reap_for_restart w id).2 = Ok tt ∧ state_of (reap_for_restart w id).1 id = Absent;
  remove_obeys w id : (remove w id).2 = Ok tt ∧ state_of (remove w id).1 id = Absent
}.

Section obey.
Context {W : Type} {R : Runner W} {L : LocalRunner W} {O : ObedientRunner W}.

(** From one world to another, the sessions of a list have become [s] and the others are as they were. *)
Definition become (s : SessionState) (ids : list string) (w w' : W) : Prop :=
  ∀ id, state_of w' id = if bool_decide (id ∈ ids) then s else state_of w id.

Lemma become_nil s w : become s [] w w.
Proof. intros id. by rewrite bool_decide_false by apply not_elem_of_nil. Qed.

Lemma become_app s l1 l2 w1 w2 w3 : become s l1 w1 w2 → become s l2 w2 w3 → become s (l1 ++ l2) w1 w3.
Proof.
  intros H1 H2 id. rewrite H2, H1. rewrite (bool_decide_ext (id ∈ l1 ++ l2) (id ∈ l1 ∨ id ∈ l2)) by apply elem_of_app.
  repeat case_bool_decide; naive_solver.
Qed.

Lemma become_same s l1 l2 w w' : (∀ id, id ∈ l1 ↔ id ∈ l2) → become s l1 w w' → become s l2 w w'.
Proof. intros Hl H id. rewrite H. by rewrite (bool_decide_ext _ _ (Hl id)). Qed.

Lemma become_one s w w' id : state_of w' id = s → (∀ x, id ≠ x → state_of w' x = state_of w x) → become s [id] w w'.
Proof.
  intros H1 H2 x. rewrite (bool_decide_ext (x ∈ [id]) (id = x)) by (rewrite list_elem_of_singleton; naive_solver).
  case_bool_decide as E; [by rewrite <- E|by apply H2].
Qed.

(** One target is started: the cap allows it and the runner obeys. *)
Lemma target_starts gc l x b target :
  untried (x_cap x) (tt_pty_id target) → 0 < attempts (restart_policy (l_spec l)) → (tt_derived target = true → b = true) →
  ∃ y, launch_target (λ w _, w) gc l (x, b) target = (y, if canonical target then true else b) ∧
    become Alive [tt_pty_id target] (x_world x) (x_world y) ∧
    ∀ id, id ≠ tt_pty_id target → untried (x_cap x) id → untried (x_cap y) id.
Proof.
  intros Hu Ha Hb. unfold launch_target. assert (E : tt_derived target && negb b = false) by (destruct (tt_derived target); [by rewrite Hb|done]).
  rewrite E. pose proof (now_local (x_world x)) as Hnow. destruct (instant_now _) as [w now]. cbn [fst] in Hnow.
  destruct (decide_restart _ _ _ _) as [cap d] eqn:Hd. rewrite (untried_allowed _ _ _ _ _ _ Hu Ha Hd) in *.
  assert (Hspawn : ∀ restarting w', (∀ id, tt_pty_id target ≠ id → state_of w' id = state_of w id) →
    ∃ y, spawn_target (λ w _, w) l target now restarting (mkExec w' cap (x_report x)) b = (y, if canonical target then true else b) ∧
      become Alive [tt_pty_id target] (x_world x) (x_world y) ∧
      ∀ id, id ≠ tt_pty_id target → untried (x_cap x) id → untried (x_cap y) id).
  { intros restarting w' Hw'. unfold spawn_target. cbn [x_world].
    pose proof (spawn_obeys w' target (a_path (l_spec l))) as [Ho Hs]. pose proof (spawn_local w' target (a_path (l_spec l))) as Hloc.
    destruct (spawn w' target _) as [w'' res]. cbn [fst snd] in *. subst res.
    set (y := mkExec w'' _ _). exists y. split; [by destruct (canonical target)|]. split.
    - apply become_one; [done|]. intros id Hid. cbn. by rewrite (Hloc id Hid), (Hw' id Hid), Hnow.
    - intros id Hid Hun. cbn. apply record_untried; [done|]. by apply (decide_untried _ _ _ _ _ _ id Hd). }
  case_bool_decide; [|by apply Hspawn]. cbn [x_world].
  pose proof (reap_obeys w (tt_pty_id target)) as [Ho _]. pose proof (reap_local w (tt_pty_id target)) as Hloc.
  destruct (reap_for_restart w _) as [w' res]. cbn [fst snd] in *. subst res. by apply Hspawn.
Qed.

Lemma targets_start gc l ts : ∀ x,
  0 < attempts (restart_policy (l_spec l)) → NoDup (map tt_pty_id ts) → (∀ id, id ∈ map tt_pty_id ts → untried (x_cap x) id) →
  ∃ y, fold_left (launch_target (λ w _, w) gc l) ts (x, true) = (y, true) ∧
    become Alive (map tt_pty_id ts) (x_world x) (x_world y) ∧
    ∀ id, id ∉ map tt_pty_id ts → untried (x_cap x) id → untried (x_cap y) id.
Proof.
  induction ts as [|t ts IH]; intros x Ha Hnd Hu; [exists x; split_and!; [done|apply become_nil|done]|].
  cbn [fold_left map] in *. apply NoDup_cons in Hnd as [Hn Hnd].
  destruct (target_starts gc l x true t) as (y & -> & Hb & Hun); [apply Hu; left|done|done|].
  destruct (IH y Ha Hnd) as (z & Hz & Hb' & Hun').
  { intros id Hid. apply Hun; [by intros ->|]. apply Hu. by right. }
  exists z. split_and!; [by destruct (canonical t)|by apply (become_app Alive [tt_pty_id t] _ _ (x_world y))|].
  intros id Hid Hid'. apply Hun'; [|apply Hun; [|done]]; intros Hin; apply Hid; [by right|rewrite Hin; left].
Qed.

Lemma ordered_targets_ids l id : id ∈ map tt_pty_id (ordered_targets l) ↔ id ∈ map tt_pty_id (l_tasks l).
Proof.
  rewrite !list_elem_of_fmap. split; intros (t & -> & Ht).
  - exists t. split; [done|]. by apply ordered_targets_elem.
  - unfold ordered_targets, launched_agent. destruct (List.find canonical (l_tasks l)) as [a|] eqn:Ea; [|by exists t].
    destruct (str_eqb (tt_pty_id a) (tt_pty_id t)) eqn:E; [apply str_eqb_true in E; exists a; split; [done|left]|].
    exists t. split; [done|]. right. apply lfilter_elem. by rewrite E.
Qed.

Lemma ordered_targets_NoDup l : NoDup (map tt_pty_id (l_tasks l)) → NoDup (map tt_pty_id (ordered_targets l)).
Proof.
  intros Hnd. unfold ordered_targets. destruct (launched_agent l) as [a|]; [|done]. cbn. apply NoDup_cons.
  split; [|by apply NoDup_map_filter]. intros (t & E & [_ Ht]%lfilter_elem)%list_elem_of_fmap. rewrite E, str_eqb_refl in Ht. done.
Qed.

(** A launch starts all its targets, the canonical one first. *)
Lemma launch_starts gc x l :
  0 < attempts (restart_policy (l_spec l)) → NoDup (map tt_pty_id (l_tasks l)) →
  (∀ id, id ∈ map tt_pty_id (l_tasks l) → untried (x_cap x) id) →
  let y := run_launch (λ w _, w) gc x l in
  become Alive (map tt_pty_id (l_tasks l)) (x_world x) (x_world y) ∧
  ∀ id, id ∉ map tt_pty_id (l_tasks l) → untried (x_cap x) id → untried (x_cap y) id.
Proof.
  intros Ha Hnd Hu. pose proof (ordered_targets_NoDup l Hnd) as Hnd'. pose proof (ordered_targets_ids l) as Hids.
  assert (Hu' : ∀ id, id ∈ map tt_pty_id (ordered_targets l) → untried (x_cap x) id) by (intros id Hid; by apply Hu, Hids).
  enough (Hex : ∃ y b, fold_left (launch_target (λ w _, w) gc l) (ordered_targets l) (x, negb (is_some (launched_agent l))) = (y, b) ∧
    become Alive (map tt_pty_id (ordered_targets l)) (x_world x) (x_world y) ∧
    ∀ id, id ∉ map tt_pty_id (ordered_targets l) → untried (x_cap x) id → untried (x_cap y) id).
  { destruct Hex as (y & b & E & Hb & Hun). unfold run_launch. rewrite E. cbn. split.
    - by apply (become_same _ _ _ _ _ Hids).
    - intros id Hid. apply Hun. by rewrite Hids. }
  clear Hids Hu Hnd. unfold ordered_targets in *. destruct (launched_agent l) as [a|] eqn:Ea; cbn [is_some negb].
  - unfold launched_agent in Ea. apply List.find_some in Ea as [_ Hcan].
    assert (Hder : tt_derived a = false) by (unfold canonical in Hcan; apply andb_true_iff in Hcan as [_ H]; by apply negb_true_iff in H).
    cbn [fold_left map] in *. set (rest := List.filter _ _) in *. apply NoDup_cons in Hnd' as [Hn Hnd'].
    destruct (target_starts gc l x false a) as (y & -> & Hb & Hun); [apply Hu'; left|done|by rewrite Hder|]. rewrite Hcan.
    destruct (targets_start gc l rest y Ha Hnd') as (z & -> & Hb' & Hun').
    { intros id Hid. apply Hun; [by intros ->|]. apply Hu'. by right. }
    exists z, true. split_and!; [done|by apply (become_app Alive [tt_pty_id a] _ _ (x_world y))|].
    intros id Hid Hid'. apply Hun'; [|apply Hun; [|done]]; intros Hin; apply Hid; [by right|rewrite Hin; left].
  - destruct (targets_start gc l (l_tasks l) x Ha Hnd' Hu') as (y & E & H). by exists y, true.
Qed.

Lemma launches_start gc ls : ∀ x,
  (∀ l, l ∈ ls → 0 < attempts (restart_policy (l_spec l))) → NoDup (flat_map (λ l, map tt_pty_id (l_tasks l)) ls) →
  (∀ id, id ∈ flat_map (λ l, map tt_pty_id (l_tasks l)) ls → untried (x_cap x) id) →
  become Alive (flat_map (λ l, map tt_pty_id (l_tasks l)) ls) (x_world x) (x_world (fold_left (run_launch (λ w _, w) gc) ls x)).
Proof.
  induction ls as [|l ls IH]; intros x Ha Hnd Hu; [apply become_nil|]. cbn [flat_map fold_left] in *.
  apply NoDup_app in Hnd as (Hnd & Hdis & Hnd').
  destruct (launch_starts gc x l) as [Hb Hun]; [apply Ha; left|done|intros id Hid; apply Hu, elem_of_app; by left|].
  eapply become_app; [exact Hb|]. apply IH; [intros; apply Ha; by right|done|].
  intros id Hid. apply Hun; [intros Hin; by apply (Hdis id)|]. apply Hu, elem_of_app. by right.
Qed.

Lemma corpses_go ids gcs : ∀ x,
  become Absent (List.filter (λ id, negb (bool_decide (id ∈ ids))) gcs) (x_world x) (x_world (fold_left (reap_corpse ids) gcs x)) ∧
  x_cap (fold_left (reap_corpse ids) gcs x) = x_cap x.
Proof.
  induction gcs as [|id gcs IH]; intros x; [split; [apply become_nil|done]|]. cbn [fold_left].
  change (id :: gcs) with ([id] ++ gcs). rewrite List.filter_app. set (y := reap_corpse ids x id).
  assert (Hy : become Absent (List.filter (λ id, negb (bool_decide (id ∈ ids))) [id]) (x_world x) (x_world y) ∧ x_cap y = x_cap x).
  { unfold y, reap_corpse. cbn [List.filter]. case_bool_decide as Hin; cbn [negb]; [split; [apply become_nil|done]|].
    pose proof (remove_obeys (x_world x) id) as [Ho Hs]. pose proof (remove_local (x_world x) id) as Hloc.
    destruct (remove _ _) as [w res]. cbn [fst snd] in *. subst res. split; [|done]. by apply become_one. }
  destruct Hy as [Hb Hc], (IH y) as [Hb' Hc']. split; [by eapply become_app|congruence].
Qed.

Lemma kills_stop ids : ∀ x b, ∃ y, fold_left kill_one ids (x, b) = (y, b) ∧ become Dead ids (x_world x) (x_world y).
Proof.
  induction ids as [|id ids IH]; intros x b; [exists x; split; [done|apply become_nil]|]. cbn [fold_left kill_one].
  pose proof (kill_obeys (x_world x) id) as [Ho Hs]. pose proof (kill_local (x_world x) id) as Hloc.
  destruct (kill _ _) as [w res]. cbn [fst snd] in *. subst res. destruct (IH (reported (add_torn_down [id]) (in_world w x)) b) as (y & Hy & Hb).
  exists y. split; [done|]. apply (become_app Dead [id] _ _ w); [|done]. by apply become_one.
Qed.

Lemma teardowns_stop tds : ∀ x failed,
  become Dead (flat_map td_pty_ids tds) (x_world x) (x_world (fold_left tear_down tds (x, failed)).1).
Proof.
  induction tds as [|td tds IH]; intros x failed; [apply become_nil|]. cbn [fold_left tear_down flat_map].
  destruct (kills_stop (td_pty_ids td) x false) as (y & -> & Hb). eapply become_app; [exact Hb|]. apply IH.
Qed.
End obey.

(** *** What a plan does when it is obeyed *)

Section obeyed.
Context {W : Type} {R : Runner W} {L : LocalRunner W} {O : ObedientRunner W}.

Lemma execute_obeys plan after_id x :
  (∀ l, l ∈ p_launch plan → 0 < attempts (restart_policy (l_spec l))) → NoDup (launched plan) →
  (∀ id, id ∈ launched plan → untried (x_cap x) id) →
  ∀ id, state_of (x_world (execute_with_presentation_cursor (λ w _, w) plan after_id x).1) id =
    if bool_decide (id ∈ torn_down plan) then Dead
    else if bool_decide (id ∈ launched plan) then Alive
    else if bool_decide (id ∈ p_gc plan) then Absent else state_of (x_world x) id.
Proof.
  intros Ha Hnd Hu id. unfold execute_with_presentation_cursor. fold (launched plan). cbn zeta.
  destruct (corpses_go (launched plan) (p_gc plan) x) as [H1 Hc]. set (x1 := fold_left (reap_corpse _) _ x) in *.
  assert (H2 : become Alive (launched plan) (x_world x1) (x_world (fold_left (run_launch (λ w _, w) (p_gc plan)) (p_launch plan) x1)))
    by (apply launches_start; [done|done|by rewrite Hc]).
  set (x2 := fold_left (run_launch _ _) _ x1) in *.
  pose proof (now_local (x_world x2)) as Hnow. destruct (instant_now _) as [w now]. cbn [fst] in Hnow. set (x3 := mkExec w _ _).
  pose proof (teardowns_stop (p_teardown plan) x3 []) as H4. destruct (fold_left tear_down _ _) as [x4 failed]. cbn [fst] in H4.
  fold (torn_down plan) in H4. set (x5 := fold_left (settle_retired _) _ x4).
  assert (H5 : state_of (x_world x5) id = state_of (x_world x4) id).
  { apply (fold_left_keeps (keeps id _)); [|done]. intros y spec _ Hy. unfold settle_retired. case_bool_decide; [done|].
    pose proof (archive_local (x_world y) (a_path spec) id) as Hloc. destruct (archive_inbox _ _) as [? [|]]; unfold keeps; cbn in *; by rewrite Hloc. }
  destruct (batch _ _) as [cursor patches]. set (x6 := fold_left patch _ x5).
  assert (H6 : state_of (x_world x6) id = state_of (x_world x5) id).
  { apply (fold_left_keeps (keeps id _)); [|done]. intros y p _ Hy. unfold patch. pose proof (patch_local (x_world y) p id) as Hloc.
    destruct (patch_presentation _ _) as [? [|]]; unfold keeps; cbn in *; by rewrite Hloc. }
  assert (E : state_of (x_world x6) id = state_of (x_world x4) id) by congruence. clear H5 H6.
  assert (E4 := H4 id). assert (E2 := H2 id). assert (E1 := H1 id). cbn [x3 x_world] in E4. rewrite Hnow in E4.
  enough (state_of (x_world x6) id = if bool_decide (id ∈ torn_down plan) then Dead else if bool_decide (id ∈ launched plan) then Alive
            else if bool_decide (id ∈ p_gc plan) then Absent else state_of (x_world x) id) by (by destruct (0 <? _)).
  rewrite E, E4, E2, E1. destruct (bool_decide (id ∈ torn_down plan)); [done|]. destruct (bool_decide (id ∈ launched plan)) eqn:Hl; [done|]. apply bool_decide_eq_false in Hl.
  rewrite (bool_decide_ext (id ∈ List.filter _ _) (id ∈ p_gc plan)); [done|]. rewrite lfilter_elem.
  rewrite bool_decide_false by done. naive_solver.
Qed.
End obeyed.

(** With IDs of their own, the tasks of one decision are known by their ID. *)
Lemma decided_unique m this_host ds sts spec t :
  NoDup (map (λ st, task_id st.1 this_host st.2) sts) → (spec, t) ∈ sts →
  (task_id spec this_host t ∈ decided m this_host ds sts ↔ decision m this_host spec t ∈ ds).
Proof.
  intros Hnd Hin. rewrite decided_elem. split; [|by exists spec, t].
  intros (spec' & t' & Hin' & E & Hd). enough ((spec', t') = (spec, t)) as [= -> ->]; [done|].
  clear Hd. induction sts as [|st sts IH]; [by apply elem_of_nil in Hin|]. cbn in Hnd. apply NoDup_cons in Hnd as [Hn Hnd].
  apply elem_of_cons in Hin, Hin'. destruct Hin as [Hin|Hin], Hin' as [Hin'|Hin']; [congruence| | |by apply IH].
  - destruct Hn. rewrite <- Hin. apply list_elem_of_fmap. by exists (spec', t').
  - destruct Hn. rewrite <- Hin'. apply list_elem_of_fmap. by exists (spec, t).
Qed.

Lemma decided_NoDup m this_host ds sts :
  NoDup (map (λ st, task_id st.1 this_host st.2) sts) → NoDup (decided m this_host ds sts).
Proof. apply NoDup_map_filter. Qed.

Lemma defer_nothing d plan now :
  (∀ id, id ∈ launched plan ∨ id ∈ p_gc plan → recently_alive d id now = false) →
  let p := (defer_flickers d plan now).1 in launched p = launched plan ∧ p_gc p = p_gc plan ∧ torn_down p = torn_down plan.
Proof.
  intros H. destruct (defer_flickers_plan d plan now) as (E1 & _ & E2 & E3). cbn zeta. split_and!.
  - unfold launched at 1. rewrite E1. clear E1 E2 E3.
    assert (Hl : ∀ l, l ∈ p_launch plan → map tt_pty_id (l_tasks (narrow d now l)) = map tt_pty_id (l_tasks l)).
    { intros l Hl. assert (Ht : ∀ t, t ∈ l_tasks l → recently_alive d (tt_pty_id t) now = false)
        by (intros t Ht; apply H; left; apply launched_elem; by exists l, t).
      clear H Hl. cbn. induction (l_tasks l) as [|t ts IH]; [done|]. cbn. rewrite Ht by left. cbn. f_equal. apply IH. intros t' ?. apply Ht. by right. }
    unfold launched. clear H. induction (p_launch plan) as [|l ls IH]; [done|]. cbn [map List.filter flat_map].
    rewrite <- (Hl l), <- IH by (first [left|intros; apply Hl; by right]). unfold has_tasks at 1.
    destruct (l_tasks (narrow d now l)) as [|t ts] eqn:Et; [done|]. cbn [flat_map]. by rewrite Et.
  - rewrite E3. clear E1 E2 E3. assert (Hg : ∀ id, id ∈ p_gc plan → recently_alive d id now = false) by auto.
    clear H. induction (p_gc plan) as [|id ids IH]; [done|]. cbn. rewrite Hg by left. cbn. f_equal. apply IH. intros. apply Hg. by right.
  - unfold torn_down. by rewrite E2.
Qed.

(** *** Passes that are obeyed *)

(** The inventory a pass reads, and when. *)
Definition inventory {W} {R : Runner W} (w : W) : list Session := match (list_sessions w).2 with Ok sessions => sessions | Err _ => [] end.
Definition pass_time {W} {R : Runner W} (w : W) : Z := (instant_now (list_sessions w).1).2.

Section converge.
Context {W : Type} {R : Runner W} {L : LocalRunner W} {O : ObedientRunner W}.
Context (specs : list AgentSpec) (this_host : string).
Context (Hids : NoDup (map (λ st, task_id st.1 this_host st.2) (local_tasks specs this_host))).
Context (Hatt : ∀ spec, spec ∈ specs → 0 < attempts (restart_policy spec)).

Lemma inventory_state w id :
  list_sessions w = ((list_sessions w).1, Ok (inventory w)) ∧ session_state (by_id (inventory w)) id = state_of w id ∧
  (shows_alive (inventory w) id = true → state_of w id = Alive).
Proof.
  destruct (lists_state w) as (sessions & E & H). unfold inventory. destruct (list_sessions w) as [w1 res]. cbn in *. subst res. split; [done|apply H].
Qed.

(** A pass over a valid team plans and carries out; the debounce has seen the inventory. *)
Lemma pass_plans sv w w' sv' r :
  validate_task_identities specs this_host = Ok tt →
  reconcile_pass_specs_with_cursor specs this_host sv w = Some (w', sv', r) →
  ∃ plan w1, let now := pass_time w in let d := observe (sv_debounce sv) (inventory w) now in
    let p := defer_flickers d plan now in
    let y := execute_with_presentation_cursor (λ w _, w) p.1 (sv_cursor sv) (mkExec w1 (sv_cap sv) (set_deferred p.2 empty_report)) in
    reconcile specs (inventory w) this_host = Some (Ok plan) ∧ (∀ id, state_of w1 id = state_of w id) ∧
    x_world y.1 = w' ∧ x_report y.1 = r ∧ sv_debounce sv' = d.
Proof.
  intros Hv E. unfold reconcile_pass_specs_with_cursor in E. rewrite Hv in E.
  assert (Els : list_sessions w = ((list_sessions w).1, Ok (inventory w))) by apply (inventory_state w "").
  pose proof (list_local w) as Hw1. unfold pass_time. destruct (list_sessions w) as [w1 res]. cbn [fst] in *. injection Els as ->.
  unfold reconcile_specs_with_sessions in E. pose proof (now_local w1) as Hw2. destruct (instant_now w1) as [w2 now]. cbn [fst snd] in *.
  destruct (reconcile specs (inventory w) this_host) as [[plan|e]|] eqn:Erec; [| |done].
  - exists plan, w2. cbn zeta. destruct (defer_flickers _ _ _) as [plan' deferred]. cbn [fst snd] in *.
    destruct (execute_with_presentation_cursor _ _ _ _) as [x cursor]. injection E as <- <- <-.
    split_and!; try done. intros id. congruence.
  - unfold reconcile in Erec. rewrite Hv in Erec. by destruct (reconcile_specs _ _ _ _).
Qed.

Lemma pass_obeys sv w w' sv' r :
  validate_task_identities specs this_host = Ok tt →
  reconcile_pass_specs_with_cursor specs this_host sv w = Some (w', sv', r) →
  (∀ spec t, (spec, t) ∈ local_tasks specs this_host → decision (by_id (inventory w)) this_host spec t ∈ [Start; Replace] →
    untried (sv_cap sv) (task_id spec this_host t)) →
  (∀ id, state_of w id ≠ Alive → recently_alive (sv_debounce sv) id (pass_time w) = false) →
  ∀ spec t, (spec, t) ∈ local_tasks specs this_host →
    state_of w' (task_id spec this_host t) = effect (decision (by_id (inventory w)) this_host spec t) (state_of w (task_id spec this_host t)).
Proof.
  intros Hv E Hu Hq spec t Hin. destruct (pass_plans sv w w' sv' r Hv E) as (plan & w1 & Erec & Hw1 & Hw' & _). cbn zeta in *.
  destruct (reconcile_tells specs (inventory w) this_host plan Erec) as (T1 & T2 & T3 & _). set (d := observe _ _ _) in *.
  assert (Hquiet : ∀ id, session_state (by_id (inventory w)) id ≠ Alive → recently_alive d id (pass_time w) = false).
  { intros id Hs. destruct (inventory_state w id) as (_ & Hst & Hsh). rewrite Hst in Hs. unfold d. rewrite observe_not_shown; [by apply Hq|].
    apply not_true_iff_false. intros Hal. by apply Hs, Hsh. }
  destruct (defer_nothing d plan (pass_time w)) as (D1 & D2 & D3).
  { intros id Hid. apply Hquiet. rewrite T1, T3 in Hid.
    destruct Hid as [(spec' & t' & _ & <- & Hd)%decided_elem|(spec' & t' & _ & <- & Hd)%decided_elem];
      pose proof (decision_state (by_id (inventory w)) this_host spec' t') as Hs; cbn zeta in Hs;
      apply elem_of_cons in Hd as [Hd|Hd%list_elem_of_singleton]; rewrite Hd in Hs; by rewrite Hs. }
  destruct (defer_flickers d plan (pass_time w)) as [plan' deferred] eqn:Edef. cbn [fst snd] in *. rewrite <- Hw'.
  rewrite (execute_obeys plan' (sv_cursor sv)).
  - cbn [x_world]. rewrite Hw1, D1, D2, D3, T1, T2, T3.
    rewrite !(bool_decide_ext _ _ (decided_unique (by_id (inventory w)) this_host _ _ spec t Hids Hin)).
    by destruct (decision (by_id (inventory w)) this_host spec t).
  - intros l Hl. replace plan' with (defer_flickers d plan (pass_time w)).1 in Hl by by rewrite Edef.
    apply defer_flickers_launch in Hl as (l0 & Hl0 & ->). cbn [narrow l_spec]. apply Hatt.
    apply (reconcile_launches specs (inventory w) this_host plan l0 Erec Hl0).
  - rewrite D1, T1. by apply decided_NoDup.
  - rewrite D1, T1. intros id (spec' & t' & Hin' & <- & Hd)%decided_elem. cbn [x_cap]. by apply Hu.
Qed.

(** The state of a plan that asks for nothing. *)
Lemma quiet_reports plan after_id (x : Exec W) :
  p_launch plan = [] → p_gc plan = [] → torn_down plan = [] →
  let r := x_report x in let r' := x_report (execute_with_presentation_cursor (λ w _, w) plan after_id x).1 in
  r_launched r' = r_launched r ∧ r_restarted r' = r_restarted r ∧ r_gc r' = r_gc r ∧ r_torn_down r' = r_torn_down r.
Proof.
  intros Hl Hg Ht. unfold execute_with_presentation_cursor. rewrite Hl, Hg. cbn [fold_left flat_map]. cbn zeta.
  destruct (instant_now _) as [w now]. set (x3 := mkExec w _ _).
  set (same := λ y : Exec W, let r := x_report x in let r' := x_report y in
    r_launched r' = r_launched r ∧ r_restarted r' = r_restarted r ∧ r_gc r' = r_gc r ∧ r_torn_down r' = r_torn_down r).
  assert (H3 : same x3) by done.
  assert (H4 : same (fold_left tear_down (p_teardown plan) (x3, [])).1).
  { apply (fold_left_keeps (λ acc, same acc.1)); [|done]. intros [y failed] td Htd Hy. unfold tear_down.
    assert (E : td_pty_ids td = []).
    { unfold torn_down in Ht. destruct (td_pty_ids td) as [|id ids] eqn:E; [done|]. exfalso.
      assert (Hin : id ∈ flat_map td_pty_ids (p_teardown plan)).
      { apply list_elem_of_In, in_flat_map. exists td. rewrite <- !list_elem_of_In, E. split; [done|left]. }
      rewrite Ht in Hin. by apply elem_of_nil in Hin. }
    by rewrite E. }
  destruct (fold_left tear_down _ _) as [x4 failed]. cbn [fst] in H4. set (x5 := fold_left (settle_retired _) _ x4).
  assert (H5 : same x5).
  { apply (fold_left_keeps same); [|done]. intros y spec _ Hy. unfold settle_retired. case_bool_decide; [done|]. by destruct (archive_inbox _ _) as [? [|]]. }
  destruct (batch _ _) as [cursor patches]. set (x6 := fold_left patch _ x5).
  assert (H6 : same x6) by (apply (fold_left_keeps same); [|done]; intros y p _ Hy; unfold patch; by destruct (patch_presentation _ _) as [? [|]]).
  by destruct (0 <? _).
Qed.
End converge.

(** After one pass that was carried out nothing is left to start. *)
Lemma running_started derived keep e lifecycle s :
  running_decision derived keep e lifecycle (effect (running_decision derived keep e lifecycle s) s) ∉ [Start; Replace].
Proof. apply (bool_decide_eq_true _). by destruct derived, keep, e, lifecycle, s. Qed.

Lemma decisions_started specs this_host m0 m1 spec t :
  carried_out specs this_host m0 m1 → (spec, t) ∈ local_tasks specs this_host → decision m1 this_host spec t ∉ [Start; Replace].
Proof.
  intros H1 Hin. pose proof (H1 spec t Hin) as E1. apply local_tasks_elem in Hin as (Hs & Hh & Ht). unfold decision in *.
  destruct (is_running (a_desired_state spec)) eqn:Hr; cbn [negb] in *.
  - destruct (negb (is_runnable spec) || _); [by apply (bool_decide_eq_true _)|].
    rewrite (has_agent_stable specs this_host m0 m1 spec), E1 by done. apply running_started.
  - unfold stopped_decision. apply (bool_decide_eq_true _). destruct (session_state m1 _); try done. by destruct (is_suspended _ && _).
Qed.

Lemma fresh_observed d sessions now id t :
  last_alive d = ∅ → last_alive (observe d sessions now) !! id = Some t → t = now.
Proof.
  intros Hd. unfold observe. cbn [last_alive]. rewrite map_lookup_filter_Some, Hd. intros [E _]. revert t E.
  apply (fold_left_keeps (λ m : gmap string Z, ∀ t, m !! id = Some t → t = now)).
  - intros m s _ Hm t. destruct (s_alive s); [|apply Hm]. rewrite lookup_insert_Some. intros [[_ <-]|[_ E]]; [done|by apply Hm].
  - intros t. by rewrite lookup_empty.
Qed.

Lemma launched_nil plan d now : launched plan = [] → p_launch (defer_flickers d plan now).1 = [].
Proof.
  intros Hl. destruct (defer_flickers_plan d plan now) as [-> _]. unfold launched in Hl. induction (p_launch plan) as [|l ls IH]; [done|].
  cbn in *. apply app_eq_nil in Hl as [Hl Hls]. destruct (l_tasks l) eqn:E; [|done]. unfold has_tasks at 1. cbn. rewrite E. by apply IH.
Qed.

(** C20. A fresh supervisor brings its team up and then rests: when the runner does what it is asked and nothing
    else happens, one pass starts every declared service of the agents that are to run here that may
    be started, whatever its session was; and once a second pass, later than the grace, has reaped
    what the first stopped, a third launches, restarts, stops and reaps nothing. *)
Theorem fresh_supervisors_settle {W} {R : Runner W} {L : LocalRunner W} {O : ObedientRunner W}
    specs this_host grace cursor (w0 v1 w1 v2 w2 v3 : W) sv1 sv2 sv3 r1 r2 r3 :
  NoDup (map (λ st, task_id st.1 this_host st.2) (local_tasks specs this_host)) →
  (∀ spec, spec ∈ specs → 0 < attempts (restart_policy spec)) →
  validate_task_identities specs this_host = Ok tt →
  reconcile_pass_specs_with_cursor specs this_host (mkSupervisor new (mkDebounce ∅ grace) cursor) w0 = Some (v1, sv1, r1) →
  (∀ id, state_of w1 id = state_of v1 id) → (pass_time w0 + grace ≤ pass_time w1)%Z →
  reconcile_pass_specs_with_cursor specs this_host sv1 w1 = Some (v2, sv2, r2) →
  (∀ id, state_of w2 id = state_of v2 id) →
  reconcile_pass_specs_with_cursor specs this_host sv2 w2 = Some (v3, sv3, r3) →
  (∀ spec t, (spec, t) ∈ local_tasks specs this_host → is_running (a_desired_state spec) = true → t_derived t = false →
     is_some (t_command t) || is_some (t_argv t) = true → t_lifecycle t = Service → t_keep t || a_keep spec = false →
     state_of v1 (task_id spec this_host t) = Alive) ∧
  r_launched r3 = [] ∧ r_restarted r3 = [] ∧ r_torn_down r3 = [] ∧ r_gc r3 = [].
Proof.
  intros Hids Hatt Hv E1 S1 Htime E2 S2 E3.
  pose proof (pass_obeys specs this_host Hids Hatt _ w0 v1 sv1 r1 Hv E1) as H1. cbn [sv_cap sv_debounce] in H1.
  assert (Hs1 : ∀ spec t, (spec, t) ∈ local_tasks specs this_host → state_of v1 (task_id spec this_host t) =
            effect (decision (by_id (inventory w0)) this_host spec t) (state_of w0 (task_id spec this_host t))).
  { apply H1; [|by intros id _; unfold recently_alive; cbn [last_alive]; rewrite lookup_empty].
    intros spec t _ _. unfold untried, new. cbn. rewrite !lookup_empty. split_and!; done. }
  assert (Hst : ∀ w id, session_state (by_id (inventory w)) id = state_of w id) by (intros w id; by apply inventory_state).
  assert (C1 : carried_out specs this_host (by_id (inventory w0)) (by_id (inventory w1))).
  { intros spec t Hin. by rewrite !Hst, S1, (Hs1 spec t Hin). }
  pose proof (pass_obeys specs this_host Hids Hatt _ w1 v2 sv2 r2 Hv E2) as H2.
  assert (C2 : carried_out specs this_host (by_id (inventory w1)) (by_id (inventory w2))).
  { intros spec t Hin. rewrite !Hst, S2. apply H2; [| |done].
    - intros spec' t' Hin' Hd. by apply (decisions_started specs this_host (by_id (inventory w0)) (by_id (inventory w1)) spec' t' C1) in Hd.
    - intros id _. destruct (pass_plans specs this_host _ w0 v1 sv1 r1 Hv E1) as (plan & w' & _ & _ & _ & _ & Hd). cbn zeta in Hd. cbn [sv_debounce] in Hd.
      rewrite Hd. unfold recently_alive. destruct (last_alive _ !! id) as [t0|] eqn:El; [|done].
      rewrite (fresh_observed (mkDebounce ∅ grace) _ _ _ _ eq_refl El). cbn. apply Z.ltb_ge. unfold duration_since. lia. }
  split.
  - intros spec t Hin Hr Hder Hl Hlc Hk. rewrite (Hs1 spec t Hin). apply local_tasks_elem in Hin as (_ & _ & Hin).
    unfold decision. rewrite Hr, (launchable_is_runnable spec t Hin Hder Hl), Hl, Hder, Hlc, Hk. cbn [negb orb]. unfold running_decision. cbn [andb].
    rewrite Hst. by destruct (state_of w0 _).
  - destruct (pass_plans specs this_host _ w2 v3 sv3 r3 Hv E3) as (plan & w' & Erec & _ & _ & Hrep & _). cbn zeta in *.
    destruct (reconcile_tells specs (inventory w2) this_host plan Erec) as (T1 & T2 & T3 & _).
    assert (Hnone : ∀ ds, Forall (λ d, active d = true) ds → decided (by_id (inventory w2)) this_host ds (local_tasks specs this_host) = []).
    { intros ds Hds. apply decided_active; [done|]. intros spec t. by apply (decisions_settle specs this_host (by_id (inventory w0)) (by_id (inventory w1))). }
    rewrite !Hnone in * by (by repeat constructor). set (d := observe _ _ _) in *.
    pose proof (launched_nil plan d (pass_time w2) T1) as P1. destruct (defer_flickers_plan d plan (pass_time w2)) as (_ & _ & P2 & P3).
    destruct (defer_flickers d plan (pass_time w2)) as [plan' deferred]. cbn [fst snd] in *. rewrite T3 in P3.
    destruct (quiet_reports (W:=W) plan' (sv_cursor sv2) (mkExec w' (sv_cap sv2) (set_deferred deferred empty_report))) as (Q1 & Q2 & Q3 & Q4);
      [done|done|unfold torn_down in *; by rewrite P2|]. rewrite <- Hrep. done.
Qed.

#[export, refine] Instance host_obeys : ObedientRunner Host := {}.
Proof.
  - intros h. exists (h_list h). split; [done|]. intros id. split; [apply h_list_state|].
    intros (s & Hin & Hs)%existsb_exists. apply list_elem_of_In, h_list_elem in Hin as (id' & b & -> & Hl). cbn in Hs.
    apply andb_true_iff in Hs as [->%str_eqb_true ->]. cbn. unfold h_state. by rewrite Hl.
  - intros. split; [done|]. cbn. unfold h_state. cbn. by rewrite lookup_insert_eq.
  - intros. split; [done|]. cbn. unfold h_state. cbn. by rewrite lookup_insert_eq.
  - intros. split; [done|]. cbn. unfold h_state. cbn. by rewrite lookup_delete_eq.
  - intros. split; [done|]. cbn. unfold h_state. cbn. by rewrite lookup_delete_eq.
Defined.

(** ** Examples *)

(** A host with nothing but the retired agent. *)
Definition start : Host := sessions_of [("h.old.agent", true)] 0.
Definition later (h : Host) : Host := mkHost (h_sessions h) (h_clock h + 60).
Definition q1 := passed fresh start.
Definition q2 := passed q1.1.2 (later q1.1.1).
Definition q3 := passed q2.1.2 (later q2.1.1).

Lemma settle_team_witness :
  h_state q1.1.1 "h.worker.agent" = Alive ∧ r_launched q1.2 = ["h.worker.agent"; "h.worker.watch"] ∧ r_gc q2.2 = ["h.old.agent"] ∧
  r_launched q3.2 = [] ∧ r_restarted q3.2 = [] ∧ r_torn_down q3.2 = [] ∧ r_gc q3.2 = [].
Proof.
  destruct (fresh_supervisors_settle team "h" DEBOUNCE_GRACE None start q1.1.1 (later q1.1.1) q2.1.1 (later q2.1.1) q3.1.1
              q1.1.2 q2.1.2 q3.1.2 q1.2 q2.2 q3.2) as [Hup Hrest].
  - apply (bool_decide_eq_true _). vm_compute. reflexivity.
  - intros spec Hin. assert (H : forallb (λ spec, 0 <? attempts (restart_policy spec)) team = true) by reflexivity.
    rewrite forallb_forall in H. apply list_elem_of_In, H, Nat.ltb_lt in Hin. done.
  - vm_compute. reflexivity.
  - apply passed_eq. vm_compute. reflexivity.
  - done.
  - vm_compute. done.
  - apply passed_eq. vm_compute. reflexivity.
  - done.
  - apply passed_eq. vm_compute. reflexivity.
  - split_and!; [|vm_compute; reflexivity|vm_compute; reflexivity|apply Hrest..].
    apply (Hup worker (service "agent" "run")); try reflexivity. apply local_tasks_elem. split_and!; [left|reflexivity|left].
Defined.
