(* ===== verification/Incremental.v ===== *)
(** * Incremental reconciliation

    Models [crates/st3/src/incremental.rs]: which items a reconcile pass must evaluate. Each item
    remembers what its last evaluation read; a pass turns every change into the keys a read would
    have noted and marks the items that read any of them. The state behind the mutex is a record of
    finite maps, and each method that locks it once is a function on the state. *)

From Stdlib Require Import Ascii.
From S2P Require Import Prelude Text Json.

Definition FULL_PASS_INTERVAL_MS : Z := 60000.

Record Change := mkChange {
  ch_subject : string;
  ch_kind : string;
  ch_actor : option string;
  ch_body : string
}.

Record Item := mkItem {
  it_reads : gset string;
  it_due : option Z;
  it_dirty : bool
}.

Record State := mkState {
  watermark : option (Z * Z);
  items : gmap string Item;
  readers : gmap string (gset string);
  execs : gmap string (option string);
  last_full : gmap string Z;
  ptys : option (gmap string string);
  values : gmap string string;
  polled_at : gmap string Z
}.

Definition default_state : State := mkState None ∅ ∅ ∅ ∅ None ∅ ∅.

Definition set_items (i : gmap string Item) (s : State) : State :=
  mkState (watermark s) i (readers s) (execs s) (last_full s) (ptys s) (values s) (polled_at s).

(** ** The keys of a change *)

Section keys.
Context `{NumberApi} (from_str : string → option Value).

Definition change_field (body : string) (name : string) : option string :=
  match from_str body with
  | None => None
  | Some body =>
      match get name (default body (get "fields" body)) with
      | Some v => as_str v
      | None => None
      end
  end.

(** [value[name]]: null where there is no such field. *)
Definition index_value (v : Value) (name : string) : Value := default Null (get name v).
Definition object_keys (v : Value) : list string :=
  match v with Object fs => map fst fs | _ => [] end.

Definition keyed (prefix : string) (value : option string) : list string :=
  match value with Some v => [prefix +:+ v] | None => [] end.

Definition change_keys (change : Change) : list string :=
  let kind := ch_kind change in
  let field := change_field (ch_body change) in
  [ch_subject change; "kind:" +:+ kind] ++ keyed "actor:" (ch_actor change)
  ++ (if str_eqb kind "message.sent" then keyed "mailbox:" (field "to")
      else if str_eqb kind "mission-run.created" then
        keyed "children:" (field "root_mission_run")
        ++ keyed "children-of-step:" (field "parent_step_run")
      else if str_eqb kind "owned-set.revised" then
        ["kind:intent.desired"]
        ++ match from_str (ch_body change) with
           | Some body =>
               flat_map (λ m, object_keys (index_value (index_value (index_value body "fields") "body") m))
                 ["members"; "retired"]
           | None => []
           end
      else if str_eqb kind "intent.desired" then
        keyed "owned:" (field "owner_run") ++ keyed "owned-step:" (field "owner_step")
      else if str_eqb kind "run-generation.created" then keyed "generations:" (field "run")
      else []).
End keys.

(** ** Marking *)

Definition set_dirty (it : Item) : Item := mkItem (it_reads it) (it_due it) true.

Definition readers_of (s : State) (key : string) : gset string := default ∅ (readers s !! key).

(** [mark_locked]: every item the index lists under the key. *)
Definition mark (s : State) (key : string) : State :=
  set_items (map_imap (λ name it, Some (if bool_decide (name ∈ readers_of s key)
                                        then set_dirty it else it)) (items s)) s.

Definition mark_all (s : State) (keys : list string) : State := fold_left mark keys s.

Definition touch (s : State) (key : string) : State := mark s key.

(** [observe]: [None] before the first pass, whose feed only sets the watermark. *)
Definition observe `{NumberApi} (from_str : string → option Value)
    (changes_since : Z → Z → list Change * (Z * Z)) (s : State) : State :=
  let set_watermark w s := mkState (Some w) (items s) (readers s) (execs s) (last_full s) (ptys s)
                             (values s) (polled_at s) in
  match watermark s with
  | None => set_watermark (changes_since (2 ^ 63 - 1) (2 ^ 63 - 1))%Z.2 s
  | Some (index, local) =>
      let (changes, w) := changes_since index local in
      mark_all (set_watermark w s) (flat_map (change_keys from_str) changes)
  end.

Definition take_full_pass (section : string) (now : Z) (s : State) : State * bool :=
  let due := is_none_or (last_full s !! section)
               (λ last, (FULL_PASS_INTERVAL_MS <=? sat_sub now last)%Z) in
  (if due then mkState (watermark s) (items s) (readers s) (execs s)
                 (<[section := now]> (last_full s)) (ptys s) (values s) (polled_at s)
   else s, due).

(** The keys of a map, in no particular order. *)
Definition keys_of {A} (m : gmap string A) : list string := map fst (map_to_list m).

Definition pty_changes (s : State) (snapshot : gmap string string) : list string :=
  match ptys s with
  | Some previous =>
      map (λ id, "pty:" +:+ id)
        (List.filter (λ id, negb (ostr_eqb (snapshot !! id) (previous !! id))) (keys_of previous)
         ++ List.filter (λ id, is_none (previous !! id)) (keys_of snapshot))
  | None => List.filter (starts_with "pty:") (keys_of (readers s))
  end.

Definition observe_ptys (snapshot : option (gmap string string)) (s : State) : State :=
  let set_ptys p s := mkState (watermark s) (items s) (readers s) (execs s) (last_full s) p
                        (values s) (polled_at s) in
  match snapshot with
  | None => set_ptys None s
  | Some snapshot => mark_all (set_ptys (Some snapshot) s) (pty_changes s snapshot)
  end.

Definition set_value (key value : string) (s : State) : State :=
  mkState (watermark s) (items s) (readers s) (execs s) (last_full s) (ptys s)
    (<[key := value]> (values s)) (polled_at s).
Definition set_polled (key : string) (now : Z) (s : State) : State :=
  mkState (watermark s) (items s) (readers s) (execs s) (last_full s) (ptys s) (values s)
    (<[key := now]> (polled_at s)).

Definition observe_value (key value : string) (s : State) : State :=
  if ostr_eqb (values s !! key) (Some value) then s else mark (set_value key value s) key.

Definition saw_value (key value : string) (now : Z) (s : State) : State :=
  set_polled key now (set_value key value s).

(** The bytes after a prefix, as the source slices a key that starts with it. *)
Definition without_prefix (prefix key : string) : string := default key (strip_prefix prefix key).

Definition poll_values (prefix : string) (every_ms now : Z) (poll : string → option string)
    (s : State) : State :=
  let keys := List.filter (λ key, starts_with prefix key
                && is_none_or (polled_at s !! key) (λ at_ms, (every_ms <=? sat_sub now at_ms)%Z))
                (keys_of (readers s)) in
  fold_left (λ s key,
      let value := default "" (poll (without_prefix prefix key)) in
      observe_value key value (set_polled key now s)) keys s.

Definition option_Z_min (l : list Z) : option Z :=
  match l with [] => None | x :: l' => Some (fold_left Z.min l' x) end.

Definition next_due (prefix : string) (s : State) : option Z :=
  option_Z_min (omap (λ e, if starts_with prefix e.1 then it_due e.2 else None)
                  (map_to_list (items s))).

(** [u128] times; the sum saturates. *)
Definition sat_add128 (a b : Z) : Z := Z.min u128_max (a + b).

Definition next_full_pass (s : State) : option Z :=
  (λ last, sat_add128 last FULL_PASS_INTERVAL_MS) <$> option_Z_min (map snd (map_to_list (last_full s))).

Definition reads_of (item : string) (s : State) : gset string :=
  match items s !! item with Some it => it_reads it | None => ∅ end.

Definition exec_changed (previous : option (option string)) (status : option string) : bool :=
  match previous with
  | Some previous => negb (ostr_eqb previous status)
  | None => negb (ostr_eqb status (Some "running"))
  end.

Definition set_exec (key : string) (status : option string) (s : State) : State :=
  mkState (watermark s) (items s) (readers s) (<[key := status]> (execs s)) (last_full s) (ptys s)
    (values s) (polled_at s).

Definition observe_execs (look : string → option string) (s : State) : State :=
  let keys := List.filter (starts_with "exec:") (keys_of (readers s)) in
  let kept := filter (λ e : string * option string, e.1 ∈ keys) (execs s) in
  let s := mkState (watermark s) (items s) (readers s) kept (last_full s) (ptys s) (values s)
             (polled_at s) in
  fold_left (λ s key,
      let status := look (without_prefix "exec:" key) in
      let previous := execs s !! key in
      let s := set_exec key status s in
      if exec_changed previous status then mark s key else s) keys s.

(** ** Evaluating and forgetting *)

Definition needs (item : string) (now : Z) (s : State) : bool :=
  is_none_or (items s !! item)
    (λ it, it_dirty it || is_some_and (it_due it) (λ due, (due <=? now)%Z)).

(** [set.remove(item)], dropping a set it empties. *)
Definition remove_reader (item : string) (m : gmap string (gset string)) (key : string)
    : gmap string (gset string) :=
  match m !! key with
  | Some set =>
      if bool_decide (set ∖ {[item]} = ∅) then delete key m else <[key := set ∖ {[item]}]> m
  | None => m
  end.

Definition remove_reads (item : string) (reads : gset string) (m : gmap string (gset string))
    : gmap string (gset string) :=
  fold_left (remove_reader item) (elements reads) m.

Definition add_reader (item : string) (m : gmap string (gset string)) (key : string)
    : gmap string (gset string) :=
  <[key := {[item]} ∪ default ∅ (m !! key)]> m.

Definition evaluated (item : string) (reads : gset string) (due : option Z) (s : State) : State :=
  let index :=
    match items s !! item with
    | Some previous => remove_reads item (it_reads previous) (readers s)
    | None => readers s
    end in
  mkState (watermark s) (<[item := mkItem reads due false]> (items s))
    (fold_left (add_reader item) (elements reads) index)
    (execs s) (last_full s) (ptys s) (values s) (polled_at s).

Definition forget (s : State) (item : string) : State :=
  match items s !! item with
  | None => s
  | Some previous =>
      mkState (watermark s) (delete item (items s)) (remove_reads item (it_reads previous) (readers s))
        (execs s) (last_full s) (ptys s) (values s) (polled_at s)
  end.

Definition retain (prefix : string) (active : gset string) (s : State) : State :=
  fold_left forget
    (List.filter (λ item, starts_with prefix item && negb (bool_decide (item ∈ active)))
       (keys_of (items s))) s.

(** ** When a result can change with time alone *)

Record StepRunView := mkStepRunView {
  sr_claim_expires_at_unix_ms : option Z;
  sr_not_before_unix_ms : option Z;
  sr_execution_started_at_unix_ms : option Z;
  sr_timeout_ms : option Z;
  sr_timeout_extension_ms : Z
}.

Definition step_due (step : StepRunView) (now : Z) : option Z :=
  let timeout :=
    match sr_execution_started_at_unix_ms step, sr_timeout_ms step with
    | Some started, Some timeout =>
        Some (sat_add128 (sat_add128 started timeout) (sr_timeout_extension_ms step))
    | _, _ => None
    end in
  option_Z_min (List.filter (λ time, (now <? time)%Z)
    (omap id [sr_claim_expires_at_unix_ms step; sr_not_before_unix_ms step; timeout])).

Definition run_due (deadline : option Z) (steps : list StepRunView) (now : Z) : option Z :=
  option_Z_min (List.filter (λ time, (now <? time)%Z) (option_list deadline)
                ++ omap (λ step, step_due step now) steps).

(** ** The index *)

Definition listed (m : gmap string (gset string)) (key : string) : gset string := default ∅ (m !! key).

Definition no_empty_set (m : gmap string (gset string)) : Prop :=
  ∀ key set, m !! key = Some set → set ≠ ∅.

(** The index lists under every key exactly the items whose last evaluation read it. *)
Definition index_ok (s : State) : Prop :=
  (∀ key name, name ∈ listed (readers s) key ↔
     ∃ it, items s !! name = Some it ∧ key ∈ it_reads it) ∧
  no_empty_set (readers s).

Lemma remove_reader_spec item m key0 :
  no_empty_set m → no_empty_set (remove_reader item m key0) ∧
  ∀ key x, x ∈ listed (remove_reader item m key0) key ↔
           x ∈ listed m key ∧ ¬ (x = item ∧ key = key0).
Proof.
  intros Hne. unfold remove_reader, listed.
  destruct (m !! key0) as [set|] eqn:E.
  2: { split; [done|]. intros key x. destruct (decide (key = key0)) as [->|]; [|naive_solver].
       rewrite E. set_solver. }
  case_bool_decide as He; split.
  - intros k' set' [_ H]%lookup_delete_Some. by eapply Hne.
  - intros key x. destruct (decide (key = key0)) as [->|Hk].
    + rewrite lookup_delete_eq, E. simpl. set_solver.
    + rewrite lookup_delete_ne by done. naive_solver.
  - intros k' set' [[<- <-]|[_ H]]%lookup_insert_Some; [done|]. by eapply Hne.
  - intros key x. destruct (decide (key = key0)) as [->|Hk].
    + rewrite lookup_insert_eq, E. simpl. set_solver.
    + rewrite lookup_insert_ne by done. naive_solver.
Qed.

Lemma remove_reads_spec item (reads : gset string) m :
  no_empty_set m → no_empty_set (remove_reads item reads m) ∧
  ∀ key x, x ∈ listed (remove_reads item reads m) key ↔
           x ∈ listed m key ∧ ¬ (x = item ∧ key ∈ reads).
Proof.
  intros Hne. unfold remove_reads.
  assert (Hel : ∀ key, key ∈ reads ↔ key ∈ elements reads) by (intros; by rewrite elem_of_elements).
  setoid_rewrite Hel. clear Hel.
  revert m Hne. induction (elements reads) as [|k l IH]; intros m Hne; simpl.
  { split; [done|]. setoid_rewrite elem_of_nil. naive_solver. }
  destruct (remove_reader_spec item m k Hne) as [Hne' Hk].
  destruct (IH _ Hne') as [Hne'' Hl]. split; [done|]. intros key x.
  rewrite Hl, Hk, elem_of_cons. naive_solver.
Qed.

Lemma add_reads_spec item (reads : gset string) m :
  no_empty_set m → no_empty_set (fold_left (add_reader item) (elements reads) m) ∧
  ∀ key x, x ∈ listed (fold_left (add_reader item) (elements reads) m) key ↔
           x ∈ listed m key ∨ (x = item ∧ key ∈ reads).
Proof.
  intros Hne.
  assert (Hel : ∀ key, key ∈ reads ↔ key ∈ elements reads) by (intros; by rewrite elem_of_elements).
  setoid_rewrite Hel. clear Hel.
  revert m Hne. induction (elements reads) as [|k l IH]; intros m Hne; simpl.
  { split; [done|]. setoid_rewrite elem_of_nil. naive_solver. }
  assert (Hne' : no_empty_set (add_reader item m k)).
  { unfold add_reader. intros k' set' [[<- <-]|[_ H]]%lookup_insert_Some; [set_solver|]. by eapply Hne. }
  assert (Hk : ∀ key x, x ∈ listed (add_reader item m k) key ↔
                        x ∈ listed m key ∨ (x = item ∧ key = k)).
  { intros key x. unfold listed, add_reader. destruct (decide (key = k)) as [->|Hkk].
    - rewrite lookup_insert_eq. simpl. set_solver.
    - rewrite lookup_insert_ne by done. naive_solver. }
  destruct (IH _ Hne') as [Hne'' Hl]. split; [done|]. intros key x.
  rewrite Hl, Hk, elem_of_cons. naive_solver.
Qed.

(** *** Marks *)

Lemma mark_lookup s key name :
  items (mark s key) !! name =
  (λ it, if bool_decide (name ∈ listed (readers s) key) then set_dirty it else it) <$> items s !! name.
Proof. unfold mark. simpl. rewrite map_lookup_imap. by destruct (items s !! name). Qed.

(** States that differ in more than their items' marks: the items marked for some keys, and the
    same index. *)
Definition marked (s s' : State) (keys : list string) : Prop :=
  readers s' = readers s ∧
  ∀ name, items s' !! name =
    (λ it, if existsb (λ key, bool_decide (name ∈ listed (readers s) key)) keys
           then set_dirty it else it) <$> items s !! name.

Lemma marked_nil s s' : readers s' = readers s → items s' = items s → marked s s' [].
Proof. intros Hr Hi. split; [done|]. intros name. rewrite Hi. by destruct (items s !! name). Qed.

Lemma marked_mark s key : marked s (mark s key) [key].
Proof.
  split; [done|]. intros name. rewrite mark_lookup. simpl. by rewrite orb_false_r.
Qed.

Lemma marked_trans s1 s2 s3 k1 k2 : marked s1 s2 k1 → marked s2 s3 k2 → marked s1 s3 (k1 ++ k2).
Proof.
  intros [Hr1 Hi1] [Hr2 Hi2]. split; [congruence|]. intros name. rewrite Hi2, Hi1, Hr1.
  destruct (items s1 !! name) as [it|]; simpl; [|done]. f_equal. rewrite existsb_app.
  by destruct (existsb _ k1), (existsb _ k2).
Qed.

Lemma marked_mark_all keys : ∀ s, marked s (mark_all s keys) keys.
Proof.
  induction keys as [|k keys IH]; intros s; simpl; [by apply marked_nil|].
  apply (marked_trans s (mark s k) _ [k] keys); [apply marked_mark | apply IH].
Qed.

Lemma marked_fold (f : State → string → State) (l : list string) :
  (∀ s k, ∃ ks, marked s (f s k) ks) → ∀ s, ∃ ks, marked s (fold_left f l s) ks.
Proof.
  intros Hf. induction l as [|k l IH]; intros s; simpl; [exists []; by apply marked_nil|].
  destruct (Hf s k) as [k1 H1]. destruct (IH (f s k)) as [k2 H2]. exists (k1 ++ k2).
  by eapply marked_trans.
Qed.

Lemma observe_value_marked key value s : ∃ ks, marked s (observe_value key value s) ks.
Proof.
  unfold observe_value. destruct (ostr_eqb _ _); [exists []; by apply marked_nil|].
  exists ([] ++ [key]). eapply marked_trans; [|apply marked_mark]. by apply marked_nil.
Qed.

Lemma poll_values_marked prefix every_ms now poll s :
  ∃ ks, marked s (poll_values prefix every_ms now poll s) ks.
Proof.
  apply marked_fold. clear s. intros s k.
  destruct (observe_value_marked k (default "" (poll (without_prefix prefix k))) (set_polled k now s))
    as [ks Hks]. exists ([] ++ ks). eapply marked_trans; [|exact Hks]. by apply marked_nil.
Qed.

Lemma observe_execs_marked look s : ∃ ks, marked s (observe_execs look s) ks.
Proof.
  unfold observe_execs. set (s1 := mkState _ _ _ _ _ _ _ _).
  match goal with |- ∃ ks, marked s (fold_left ?f ?l s1) ks =>
    destruct (marked_fold f l) with (s := s1) as [ks Hks] end.
  - clear. intros s k. set (s' := set_exec _ _ s).
    destruct (exec_changed _ _); [|exists []; by apply marked_nil].
    exists ([] ++ [k]). eapply marked_trans; [|apply marked_mark]. by apply marked_nil.
  - exists ([] ++ ks). eapply marked_trans; [|exact Hks]. by apply marked_nil.
Qed.

Lemma marked_index_ok s s' keys : marked s s' keys → index_ok s → index_ok s'.
Proof.
  intros [Hr Hi] [Hidx Hne]. split; rewrite Hr; [|done]. intros key name. rewrite Hidx, Hi.
  destruct (items s !! name) as [it|]; simpl; [|naive_solver].
  destruct (existsb _ keys); naive_solver.
Qed.

Lemma evaluated_index_ok item reads due s : index_ok s → index_ok (evaluated item reads due s).
Proof.
  intros [Hidx Hne]. unfold index_ok, evaluated. simpl.
  set (base := match items s !! item with Some _ => _ | None => _ end).
  assert (Hbase : no_empty_set base ∧ ∀ key x, x ∈ listed base key ↔
            x ≠ item ∧ ∃ it, items s !! x = Some it ∧ key ∈ it_reads it).
  { unfold base. destruct (items s !! item) as [prev|] eqn:E.
    - destruct (remove_reads_spec item (it_reads prev) (readers s) Hne) as [Hne' Hr].
      split; [done|]. intros key x. rewrite Hr, Hidx.
      destruct (decide (x = item)) as [->|]; [rewrite E|]; naive_solver.
    - split; [done|]. intros key x. rewrite Hidx.
      destruct (decide (x = item)) as [->|]; [rewrite E|]; naive_solver. }
  clearbody base. destruct Hbase as [Hneb Hb].
  destruct (add_reads_spec item reads base Hneb) as [Hne' Ha]. split; [|done].
  intros key name. rewrite Ha, Hb. destruct (decide (name = item)) as [->|Hn].
  - rewrite lookup_insert_eq. naive_solver.
  - rewrite lookup_insert_ne by done. naive_solver.
Qed.

Lemma forget_index_ok s item : index_ok s → index_ok (forget s item).
Proof.
  intros [Hidx Hne]. unfold forget. destruct (items s !! item) as [prev|] eqn:E; [|done].
  destruct (remove_reads_spec item (it_reads prev) (readers s) Hne) as [Hne' Hr].
  split; [|done]. simpl. intros key name. rewrite Hr, Hidx.
  destruct (decide (name = item)) as [->|Hn].
  - rewrite lookup_delete_eq, E. naive_solver.
  - rewrite lookup_delete_ne by done. naive_solver.
Qed.

(** ** Reachable states *)

Inductive reach `{NumberApi} (from_str : string → option Value) : State → Prop :=
| reach_default : reach from_str default_state
| reach_observe s feed : reach from_str s → reach from_str (observe from_str feed s)
| reach_touch s key : reach from_str s → reach from_str (touch s key)
| reach_full s section now : reach from_str s → reach from_str (take_full_pass section now s).1
| reach_ptys s snapshot : reach from_str s → reach from_str (observe_ptys snapshot s)
| reach_value s key value : reach from_str s → reach from_str (observe_value key value s)
| reach_saw s key value now : reach from_str s → reach from_str (saw_value key value now s)
| reach_poll s prefix every_ms now poll :
    reach from_str s → reach from_str (poll_values prefix every_ms now poll s)
| reach_execs s look : reach from_str s → reach from_str (observe_execs look s)
| reach_evaluated s item reads due : reach from_str s → reach from_str (evaluated item reads due s)
| reach_retain s prefix active : reach from_str s → reach from_str (retain prefix active s).

Lemma observe_marked `{NumberApi} from_str feed s :
  ∃ ks, marked s (observe from_str feed s) ks ∧
    ∀ index local, watermark s = Some (index, local) →
      ks = flat_map (change_keys from_str) (feed index local).1.
Proof.
  unfold observe. destruct (watermark s) as [[index local]|].
  - destruct (feed index local) as [changes w] eqn:E.
    exists ([] ++ flat_map (change_keys from_str) changes). split.
    + eapply marked_trans; [|apply marked_mark_all]. by apply marked_nil.
    + intros ?? [= <- <-]. by rewrite E.
  - exists []. split; [by apply marked_nil | done].
Qed.

Lemma observe_ptys_marked snapshot s :
  ∃ ks, marked s (observe_ptys snapshot s) ks ∧
    ∀ new, snapshot = Some new → ks = pty_changes s new.
Proof.
  unfold observe_ptys. destruct snapshot as [new|].
  - exists ([] ++ pty_changes s new). split; [|by intros ? [= <-]].
    eapply marked_trans; [|apply marked_mark_all]. by apply marked_nil.
  - exists []. split; [by apply marked_nil | done].
Qed.

Lemma reach_index_ok `{NumberApi} from_str s : reach from_str s → index_ok s.
Proof.
  induction 1 as [|s feed _ IH|s key _ IH|s section now _ IH|s snapshot _ IH|s key value _ IH
                 |s key value now _ IH|s prefix every_ms now poll _ IH|s look _ IH
                 |s item reads due _ IH|s prefix active _ IH].
  - split; [|intros ??; simpl; by rewrite lookup_empty]. intros key name. unfold listed. simpl.
    rewrite !lookup_empty. simpl. split; [set_solver|]. by intros (it & Hit & _).
  - destruct (observe_marked from_str feed s) as (ks & Hm & _). by eapply marked_index_ok.
  - eapply marked_index_ok; [apply marked_mark|done].
  - eapply (marked_index_ok s); [apply marked_nil|done]; unfold take_full_pass; by case_match.
  - destruct (observe_ptys_marked snapshot s) as (ks & Hm & _). by eapply marked_index_ok.
  - destruct (observe_value_marked key value s) as [ks Hm]. by eapply marked_index_ok.
  - eapply (marked_index_ok s); [by apply marked_nil|done].
  - destruct (poll_values_marked prefix every_ms now poll s) as [ks Hm]. by eapply marked_index_ok.
  - destruct (observe_execs_marked look s) as [ks Hm]. by eapply marked_index_ok.
  - by apply evaluated_index_ok.
  - unfold retain. generalize (List.filter (λ item, starts_with prefix item
      && negb (bool_decide (item ∈ active))) (keys_of (items s))). intros l.
    revert s IH. induction l as [|x l IHl]; intros s IH; simpl; [done|].
    by apply IHl, forget_index_ok.
Qed.

Lemma marked_needs s s' keys name it now :
  index_ok s → marked s s' keys → items s !! name = Some it →
  needs name now s' =
    needs name now s || existsb (λ key, bool_decide (key ∈ it_reads it)) keys.
Proof.
  intros [Hidx _] [_ Hi] Hit. unfold needs. rewrite Hi, Hit. simpl.
  assert (Hkeys : existsb (λ key, bool_decide (name ∈ listed (readers s) key)) keys =
                  existsb (λ key, bool_decide (key ∈ it_reads it)) keys).
  { clear Hi. induction keys as [|k keys IH]; simpl; [done|]. rewrite IH. f_equal.
    apply bool_decide_ext. rewrite Hidx, Hit. naive_solver. }
  rewrite Hkeys. destruct (existsb (λ key, bool_decide (key ∈ it_reads it)) keys); simpl.
  - by rewrite orb_true_r.
  - by rewrite orb_false_r.
Qed.

Lemma pty_changes_spec s previous snapshot id :
  ptys s = Some previous →
  "pty:" +:+ id ∈ pty_changes s snapshot ↔ snapshot !! id ≠ previous !! id.
Proof.
  intros Hp. unfold pty_changes. rewrite Hp.
  assert (Hkeys : ∀ (m : gmap string string) k, k ∈ keys_of m ↔ is_Some (m !! k)).
  { intros m k. unfold keys_of. rewrite list_elem_of_fmap. split.
    - intros ([k' v] & -> & Hin). apply elem_of_map_to_list in Hin. by exists v.
    - intros [v Hv]. exists (k, v). split; [done|]. by apply elem_of_map_to_list. }
  rewrite list_elem_of_fmap. split.
  - intros (id' & Heq & Hin). assert (id' = id) as -> by (by injection Heq).
    rewrite elem_of_app, !lfilter_elem, !Hkeys in Hin.
    destruct Hin as [[[v Hv] Hn]|[[v Hv] Hn]].
    + apply negb_true_iff, ostr_eqb_false in Hn. done.
    + rewrite Hv. unfold is_none in Hn. by destruct (previous !! id).
  - intros Hne. exists id. split; [done|]. rewrite elem_of_app, !lfilter_elem, !Hkeys.
    destruct (previous !! id) as [v|] eqn:E.
    + left. split; [done|]. by apply negb_true_iff, ostr_eqb_false.
    + right. split; [|done]. destruct (snapshot !! id); [done|congruence].
Qed.

(** A pass evaluates exactly what a change can affect: in every reachable state, after the
    changes since the watermark are observed, an item needs evaluating when it did before, or when
    its last evaluation read one of the changes' keys, and not otherwise. The same holds of a
    terminal snapshot, whose keys are exactly the runtimes that appeared, disappeared or changed
    state since the last one. *)
Theorem passes_evaluate_what_changed `{NumberApi} from_str s name it now :
  reach from_str s → items s !! name = Some it →
  (∀ feed index local, watermark s = Some (index, local) →
     needs name now (observe from_str feed s) =
       needs name now s
       || existsb (λ key, bool_decide (key ∈ it_reads it))
            (flat_map (change_keys from_str) (feed index local).1)) ∧
  (∀ snapshot,
     needs name now (observe_ptys (Some snapshot) s) =
       needs name now s
       || existsb (λ key, bool_decide (key ∈ it_reads it)) (pty_changes s snapshot)) ∧
  (∀ previous snapshot id, ptys s = Some previous →
     "pty:" +:+ id ∈ pty_changes s snapshot ↔ snapshot !! id ≠ previous !! id).
Proof.
  intros Hr%reach_index_ok Hit. split_and!.
  - intros feed index local Hw. destruct (observe_marked from_str feed s) as (ks & Hm & Hks).
    rewrite <- (Hks index local Hw). by apply marked_needs.
  - intros snapshot. destruct (observe_ptys_marked (Some snapshot) s) as (ks & Hm & Hks).
    rewrite <- (Hks snapshot eq_refl). by apply marked_needs.
  - intros previous snapshot id Hp. by apply pty_changes_spec.
Qed.

(** The reader index never drifts: in every reachable state, whatever was evaluated, marked,
    retained or forgotten, each key lists exactly the items whose last evaluation read it, and no
    key is kept without a reader. *)
Theorem reader_index_is_exact `{NumberApi} from_str s key :
  reach from_str s →
  (∀ name, name ∈ listed (readers s) key ↔ ∃ it, items s !! name = Some it ∧ key ∈ it_reads it) ∧
  (is_Some (readers s !! key) ↔ ∃ name it, items s !! name = Some it ∧ key ∈ it_reads it).
Proof.
  intros [Hidx Hne]%reach_index_ok. split; [apply Hidx|]. split.
  - intros [set Hset]. destruct (set_choose_or_empty set) as [[x Hx]|He].
    + exists x. apply Hidx. unfold listed. by rewrite Hset.
    + exfalso. apply (Hne key set Hset). by apply leibniz_equiv.
  - intros (name & Hit). apply Hidx in Hit. unfold listed in Hit.
    destruct (readers s !! key); [done|]. simpl in Hit. set_solver.
Qed.

(** *** Due times *)

Lemma option_Z_min_spec l m :
  option_Z_min l = Some m ↔ m ∈ l ∧ ∀ x, x ∈ l → (m ≤ x)%Z.
Proof.
  assert (Hfold : ∀ (l : list Z) a, fold_left Z.min l a ∈ a :: l ∧ ∀ x, x ∈ a :: l → (fold_left Z.min l a ≤ x)%Z).
  { clear. induction l as [|y l IH]; intros a; simpl; [split; [left | intros x [->|Hx]%elem_of_cons;
      [lia | by apply not_elem_of_nil in Hx]]|].
    destruct (IH (Z.min a y)) as [Hin Hle]. split.
    - apply elem_of_cons in Hin as [->|Hin]; [|by right; right].
      destruct (Z.min_dec a y) as [-> | ->]; [left | right; left].
    - pose proof (Hle (Z.min a y) ltac:(left)). intros x [->|[->|Hx]%elem_of_cons]%elem_of_cons; [lia..|].
      apply Hle. by right. }
  destruct l as [|a l]; simpl.
  - split; [done|]. intros [H _]. by apply not_elem_of_nil in H.
  - destruct (Hfold l a) as [Hin Hle]. split; [by intros [= <-]|].
    intros [Hm Hmin]. f_equal. apply Z.le_antisymm; [by apply Hle | by apply Hmin].
Qed.

(** A step is due at the earliest of its lease expiry, retry backoff and timeout that is still
    ahead. *)
Lemma step_due_future step now t :
  step_due step now = Some t → (now < t)%Z.
Proof.
  unfold step_due. intros [Hin _]%option_Z_min_spec. apply lfilter_elem in Hin as [_ Hlt]. lia.
Qed.

(** ** Examples *)

Definition no_json (_ : string) : option (Value (H := integer_numbers)) := None.

Definition toy_reads : gset string := {["agent/a"; "pty:r1"]}.

Definition read_state : State :=
  observe no_json (λ _ _, ([], (1, 1)%Z))
    (evaluated "mission-run/1" toy_reads None default_state).

Lemma read_state_reach : reach no_json read_state.
Proof. apply reach_observe, reach_evaluated, reach_default. Qed.

Definition claim_feed (_ _ : Z) : list Change * (Z * Z) :=
  ([mkChange "agent/a" "harness.observed" None "{}"], (2, 1)%Z).

Lemma passes_witness :
  needs "mission-run/1" 0 read_state = false ∧
  needs "mission-run/1" 0 (observe no_json claim_feed read_state) =
    needs "mission-run/1" 0 read_state
    || existsb (λ key, bool_decide (key ∈ toy_reads))
         (flat_map (change_keys no_json) (claim_feed 1 1).1).
Proof.
  split; [vm_compute; reflexivity|].
  destruct (passes_evaluate_what_changed no_json read_state "mission-run/1"
              (mkItem toy_reads None false) 0 read_state_reach
              ltac:(vm_compute; reflexivity)) as [Hobserve _].
  apply (Hobserve claim_feed 1 1)%Z. vm_compute. reflexivity.
Defined.

Lemma index_witness :
  is_Some (readers read_state !! "agent/a") ↔
  ∃ name it, items read_state !! name = Some it ∧ "agent/a" ∈ it_reads it.
Proof. apply (reader_index_is_exact no_json read_state "agent/a" read_state_reach). Defined.
