(* ===== verification/Mission.v ===== *)
(** * Missions

    Models the step graphs of [crates/st3/src/mission.rs]: which are accepted, and the step a run waits in before
    its other work. The fields of a step and of a mission that this code does not read are left out;
    the step it makes has their empty values. What a predicate dependency holds is a parameter, as
    is the hash of a step (JSON and SHA-256). *)

From stdpp Require Import relations.
From S2P Require Import Prelude StableSort Text.

(** [smallclaims::Error]; none of the errors built here carries details. *)
Record St3Error := mkSt3Error { er_code : string; er_message : string }.

Inductive DependencySpec (Gate : Type) :=
| StepDependency (step state : string)
| Predicate (gate : Gate).
#[global] Arguments StepDependency {Gate} _ _.
#[global] Arguments Predicate {Gate} _.

Inductive UsedMissionSpec := Revision (mission revision : string) | StepOutput (step : string).

Inductive WorkSelector := Assigned (agent : string) | Available (agents : list string) | Agentless.

(** The fields the validation reads and a waiting run sets. The others (titles, goals, documents,
    gates, loops and the like) are copied unchanged, and empty in the step a waiting run adds. *)
Record StepSpec (Gate : Type) := mkStep {
  st_id : string;
  st_path : string;
  st_finally : bool;
  st_work_selector : option WorkSelector;
  st_dependencies : list (DependencySpec Gate);
  st_produces_mission : option string;
  st_uses_mission : option UsedMissionSpec;
  st_after_run : option string;
  st_definition_hash : string
}.
#[global] Arguments mkStep {Gate} _ _ _ _ _ _ _ _ _.
#[global] Arguments st_id {Gate} _.
#[global] Arguments st_path {Gate} _.
#[global] Arguments st_finally {Gate} _.
#[global] Arguments st_work_selector {Gate} _.
#[global] Arguments st_dependencies {Gate} _.
#[global] Arguments st_produces_mission {Gate} _.
#[global] Arguments st_uses_mission {Gate} _.
#[global] Arguments st_after_run {Gate} _.
#[global] Arguments st_definition_hash {Gate} _.

(** Likewise for a mission. *)
Record MissionSpec (Gate : Type) := mkMission {
  ms_id : string;
  ms_steps : gmap string (StepSpec Gate);
  ms_display_order : list string
}.
#[global] Arguments mkMission {Gate} _ _ _.
#[global] Arguments ms_id {Gate} _.
#[global] Arguments ms_steps {Gate} _.
#[global] Arguments ms_display_order {Gate} _.

(** ** Step graphs *)

Section steps.
Context {Gate : Type}.
#[local] Abbreviation StepSpec := (StepSpec Gate).
#[local] Abbreviation DependencySpec := (DependencySpec Gate).
#[local] Abbreviation MissionSpec := (MissionSpec Gate).

Definition step_targets (deps : list DependencySpec) : list string :=
  omap (λ d, match d with StepDependency step _ => Some step | Predicate _ => None end) deps.

Fixpoint validate_dependency_targets (mission context : string) (deps : list DependencySpec) (steps : gmap string StepSpec) :
    result St3Error unit :=
  match deps with
  | [] => Ok tt
  | StepDependency target _ :: deps =>
      if is_some (steps !! target) then validate_dependency_targets mission context deps steps
      else Err (mkSt3Error "unknown-step-dependency"
                  (context +:+ " in mission `" +:+ mission +:+ "` depends on unknown step `" +:+ target +:+ "`"))
  | Predicate _ :: deps => validate_dependency_targets mission context deps steps
  end.

(** [None] is the panic of an index that is missing. *)
Fixpoint validate_phases (mission : string) (step : StepSpec) (deps : list DependencySpec) (steps : gmap string StepSpec) :
    option (result St3Error unit) :=
  match deps with
  | [] => Some (Ok tt)
  | StepDependency target _ :: deps =>
      match steps !! target with
      | None => None
      | Some other =>
          if eqb (st_finally other) (st_finally step) then validate_phases mission step deps steps
          else Some (Err (mkSt3Error "cross-phase-dependency"
                            ("step `" +:+ st_id step +:+ "` in mission `" +:+ mission +:+ "` cannot depend on step `" +:+ target
                             +:+ "` from another phase")))
      end
  | Predicate _ :: deps => validate_phases mission step deps steps
  end.

Definition waits_for (target : string) (deps : list DependencySpec) : bool :=
  existsb (λ d, match d with StepDependency step state => str_eqb step target && str_eqb state "completed" | Predicate _ => false end) deps.

Definition validate_mission_use (mission : string) (step : StepSpec) (steps : gmap string StepSpec) : result St3Error unit :=
  if is_some (st_produces_mission step) && is_some (st_uses_mission step)
  then Err (mkSt3Error "conflicting-mission-step"
              ("step `" +:+ st_id step +:+ "` in mission `" +:+ mission +:+ "` cannot produce and use a mission"))
  else
    match st_uses_mission step with
    | Some (StepOutput target) =>
        match steps !! target with
        | None =>
            Err (mkSt3Error "unknown-mission-output"
                   ("step `" +:+ st_id step +:+ "` in mission `" +:+ mission +:+ "` uses unknown step output `" +:+ target +:+ "`"))
        | Some producer =>
            if is_none (st_produces_mission producer)
            then Err (mkSt3Error "not-a-mission-output"
                        ("step `" +:+ st_id producer +:+ "` in mission `" +:+ mission +:+ "` does not produce a mission"))
            else if negb (waits_for target (st_dependencies step))
            then Err (mkSt3Error "missing-mission-output-dependency"
                        ("step `" +:+ st_id step +:+ "` must depend on completed step `" +:+ target
                         +:+ "` before it uses that mission output"))
            else Ok tt
        end
    | _ => Ok tt
    end.

(** The loop over the steps; they come in the order of their keys. *)
Fixpoint validate_steps (mission : string) (todo : list StepSpec) (steps : gmap string StepSpec) : option (result St3Error unit) :=
  match todo with
  | [] => Some (Ok tt)
  | step :: todo =>
      match validate_dependency_targets mission ("step `" +:+ st_id step +:+ "`") (st_dependencies step) steps with
      | Err e => Some (Err e)
      | Ok _ =>
          match validate_phases mission step (st_dependencies step) steps with
          | None => None
          | Some (Err e) => Some (Err e)
          | Some (Ok _) =>
              match validate_mission_use mission step steps with
              | Err e => Some (Err e)
              | Ok _ => validate_steps mission todo steps
              end
          end
      end
  end.

(** The steps being visited, and those visited. *)
Definition Marks : Type := gset string * gset string.

(** [visit], and the loop over the targets of a step. [None] is a missing index or the end of the fuel. *)
Fixpoint visit (fuel : nat) (steps : gmap string StepSpec) (id : string) (m : Marks) : option (result St3Error Marks) :=
  match fuel with
  | O => None
  | S fuel =>
      let '(visiting, visited) := m in
      if bool_decide (id ∈ visited) then Some (Ok m)
      else if bool_decide (id ∈ visiting)
      then Some (Err (mkSt3Error "dependency-cycle" ("the mission has a dependency cycle through step `" +:+ id +:+ "`")))
      else
        match steps !! id with
        | None => None
        | Some step =>
            match
              (fix visit_all (targets : list string) (m : Marks) : option (result St3Error Marks) :=
                 match targets with
                 | [] => Some (Ok m)
                 | target :: targets =>
                     match visit fuel steps target m with
                     | Some (Ok m) => visit_all targets m
                     | other => other
                     end
                 end) (step_targets (st_dependencies step)) ({[id]} ∪ visiting, visited)
            with
            | Some (Ok (visiting, visited)) => Some (Ok (visiting ∖ {[id]}, {[id]} ∪ visited))
            | other => other
            end
        end
  end.

Fixpoint visit_all (fuel : nat) (steps : gmap string StepSpec) (ids : list string) (m : Marks) : option (result St3Error Marks) :=
  match ids with
  | [] => Some (Ok m)
  | id :: ids =>
      match visit fuel steps id m with
      | Some (Ok m) => visit_all fuel steps ids m
      | other => other
      end
  end.

(** A branch of [visit] holds each step at most once, so the steps and one more call are enough. *)
Definition validate_dependencies (mission : string) (steps : gmap string StepSpec) : option (result St3Error unit) :=
  match validate_steps mission (map snd (in_key_order steps)) steps with
  | Some (Ok _) =>
      match visit_all (S (size steps)) steps (map fst (in_key_order steps)) (∅, ∅) with
      | Some (Ok _) => Some (Ok tt)
      | Some (Err e) => Some (Err e)
      | None => None
      end
  | other => other
  end.

(** ** After another run *)

Definition AFTER_RUN_STEP : string := "after-run".

Definition after_run_subject (run : string) : string := "mission-run/" +:+ default run (strip_prefix "mission-run/" run).

(** [step.dependencies.push]. *)
Definition wait_for_run (step : StepSpec) : StepSpec :=
  if st_finally step then step
  else mkStep (st_id step) (st_path step) (st_finally step) (st_work_selector step)
         (st_dependencies step ++ [StepDependency AFTER_RUN_STEP "completed"]) (st_produces_mission step) (st_uses_mission step)
         (st_after_run step) (st_definition_hash step).

Definition after_run_step (hash : StepSpec → result St3Error string) (run : string) : result St3Error StepSpec :=
  let step definition_hash :=
    mkStep AFTER_RUN_STEP AFTER_RUN_STEP false (Some Agentless) [] None None (Some (after_run_subject run)) definition_hash in
  let? definition_hash := hash (step "") in
  Ok (step definition_hash).

Definition mission_after_run (hash : StepSpec → result St3Error string) (mission : MissionSpec) (run : string) : result St3Error MissionSpec :=
  if is_some (ms_steps mission !! AFTER_RUN_STEP)
  then Err (mkSt3Error "after-run-step-exists" ("mission `" +:+ ms_id mission +:+ "` already has a root step named `" +:+ AFTER_RUN_STEP +:+ "`"))
  else
    let steps := wait_for_run <$> ms_steps mission in
    let? step := after_run_step hash run in
    Ok (mkMission (ms_id mission) (<[AFTER_RUN_STEP := step]> steps) (AFTER_RUN_STEP :: ms_display_order mission)).

Definition run_mission (hash : StepSpec → result St3Error string) (mission : MissionSpec) (after : option string) : result St3Error MissionSpec :=
  match after with
  | Some after => mission_after_run hash mission after
  | None => Ok mission
  end.
End steps.

(** ** Accepted graphs are exactly the acyclic ones *)

Section graphs.
Context {Gate : Type} (steps : gmap string (StepSpec Gate)).

Definition depends (a b : string) : Prop := ∃ step, steps !! a = Some step ∧ b ∈ step_targets (st_dependencies step).

Definition targets_known : Prop := ∀ a b, depends a b → is_Some (steps !! b).

Lemma visit_S fuel id (visiting visited : gset string) :
  visit (S fuel) steps id (visiting, visited) =
  if bool_decide (id ∈ visited) then Some (Ok (visiting, visited))
  else if bool_decide (id ∈ visiting)
  then Some (Err (mkSt3Error "dependency-cycle" ("the mission has a dependency cycle through step `" +:+ id +:+ "`")))
  else
    match steps !! id with
    | None => None
    | Some step =>
        match visit_all fuel steps (step_targets (st_dependencies step)) ({[id]} ∪ visiting, visited) with
        | Some (Ok (visiting, visited)) => Some (Ok (visiting ∖ {[id]}, {[id]} ∪ visited))
        | other => other
        end
    end.
Proof.
  cbn [visit]. destruct (bool_decide (id ∈ visited)); [done|]. destruct (bool_decide (id ∈ visiting)); [done|].
  destruct (steps !! id) as [step|]; [|done].
  enough (E : ∀ targets m, (fix visit_all (targets : list string) (m : Marks) : option (result St3Error Marks) :=
            match targets with
            | [] => Some (Ok m)
            | target :: targets => match visit fuel steps target m with Some (Ok m) => visit_all targets m | other => other end
            end) targets m = visit_all fuel steps targets m) by by rewrite E.
  intros targets. induction targets as [|t targets IH]; intros m; cbn [visit_all]; [done|].
  by destruct (visit fuel steps t m) as [[|]|].
Qed.

(** Nothing that was visited leads back to itself. *)
Definition sound (visited : gset string) : Prop := ∀ v, v ∈ visited → Acc (flip depends) v.

(** What a visit of the steps of a list leaves, from marks [A] and [V]. *)
Definition visits (ids : list string) (A V : gset string) (r : option (result St3Error Marks)) : Prop :=
  match r with
  | None => False
  | Some (Ok (A', V')) => A' = A ∧ V ⊆ V' ∧ (∀ id, id ∈ ids → id ∈ V') ∧ sound V' ∧ A ## V'
  | Some (Err _) => ∃ x, tc depends x x
  end.

Lemma visit_all_visits fuel (A : gset string) ids : ∀ V,
  (∀ id V, id ∈ ids → sound V → A ## V → visits [id] A V (visit fuel steps id (A, V))) →
  sound V → A ## V → visits ids A V (visit_all fuel steps ids (A, V)).
Proof.
  induction ids as [|id ids IH]; intros V Hv Hs Hd; cbn [visit_all]; [by split_and!; [| |intros ? ?%elem_of_nil| |]|].
  pose proof (Hv id V ltac:(left) Hs Hd) as H. destruct (visit fuel steps id (A, V)) as [[[A' V']|e]|]; [|done|done].
  destruct H as (-> & Hsub & Hin & Hs' & Hd'). specialize (IH V' ltac:(intros; apply Hv; [by right|done..]) Hs' Hd').
  destruct (visit_all fuel steps ids (A, V')) as [[[A'' V'']|e]|]; [|done|done].
  destruct IH as (-> & Hsub' & Hin' & Hs'' & Hd''). split_and!; [done|by transitivity V'| |done|done].
  intros x [->|Hx]%elem_of_cons; [|by apply Hin']. apply Hsub', Hin. left.
Qed.

Lemma visit_visits fuel : ∀ id A V,
  targets_known → is_Some (steps !! id) → A ⊆ dom steps → (∀ a, a ∈ A → tc depends a id) → size (dom steps ∖ A) < fuel →
  sound V → A ## V → visits [id] A V (visit fuel steps id (A, V)).
Proof.
  induction fuel as [|fuel IH]; intros id A V Hk Hid HA Hp Hf Hs Hd; [lia|]. rewrite visit_S.
  case_bool_decide as HV; [by split_and!; [| |intros x ->%list_elem_of_singleton| |]|].
  case_bool_decide as HiA; [exists id; by apply Hp|]. destruct Hid as [step Hstep]. rewrite Hstep.
  assert (Hdom : id ∈ dom steps) by (apply elem_of_dom; by rewrite Hstep).
  assert (Hsize : S (size (dom steps ∖ ({[id]} ∪ A))) = size (dom steps ∖ A)).
  { replace (dom steps ∖ ({[id]} ∪ A)) with ((dom steps ∖ A) ∖ {[id]}) by set_solver.
    rewrite size_difference by set_solver. rewrite size_singleton.
    assert (size (dom steps ∖ A) ≠ 0); [|lia]. apply size_non_empty_iff. set_solver. }
  assert (H : visits (step_targets (st_dependencies step)) ({[id]} ∪ A) V
                (visit_all fuel steps (step_targets (st_dependencies step)) ({[id]} ∪ A, V))).
  { apply visit_all_visits; [|done|set_solver]. intros t V0 Ht Hs0 Hd0. assert (Hdep : depends id t) by by exists step.
    apply IH; [done|by apply Hk in Hdep|set_solver| |lia|done|done].
    intros a [->%elem_of_singleton|Ha]%elem_of_union; [by apply tc_once|]. eapply tc_r; [by apply Hp|done]. }
  destruct (visit_all _ _ _ _) as [[[A' V']|e]|]; [|done|done]. destruct H as (-> & Hsub & Hin & Hs' & Hd').
  split_and!; [set_solver|set_solver|set_solver| |set_solver].
  intros v [->%elem_of_singleton|Hv]%elem_of_union; [|by apply Hs']. constructor. intros y (step' & Hy & Ht). apply Hs', Hin. congruence.
Qed.

(** The loop over all the steps. *)
Lemma all_visits :
  targets_known → visits (map fst (in_key_order steps)) ∅ ∅ (visit_all (S (size steps)) steps (map fst (in_key_order steps)) (∅, ∅)).
Proof.
  intros Hk. apply visit_all_visits; [|by intros v ?%elem_of_empty|set_solver].
  intros id V (kx & -> & Hin)%list_elem_of_fmap Hs Hd. destruct kx as [k x]. apply in_key_order_elem in Hin.
  apply visit_visits; [done|by exists x|set_solver|set_solver| |done|done].
  rewrite difference_empty_L, size_dom. lia.
Qed.

Lemma tc_first x y : tc depends x y → ∃ z, depends x z ∧ rtc depends z y.
Proof. inversion 1 as [? ? Hd|? z ? Hd Hz]; subst; [exists y|exists z]; (split; [done|]); [apply rtc_refl|by apply tc_rtc]. Qed.

Lemma accessible_acyclic x : Acc (flip depends) x → ¬ tc depends x x.
Proof.
  induction 1 as [x _ IH]. intros (z & Hxz & Hzx)%tc_first. apply (IH z Hxz). eapply tc_rtc_l; [exact Hzx|by apply tc_once].
Qed.

Lemma visits_exactly :
  targets_known →
  match visit_all (S (size steps)) steps (map fst (in_key_order steps)) (∅, ∅) with
  | None => False
  | Some (Ok _) => ∀ x, ¬ tc depends x x
  | Some (Err _) => ∃ x, tc depends x x
  end.
Proof.
  intros Hk. pose proof (all_visits Hk) as H. destruct (visit_all _ _ _ _) as [[[A V]|e]|]; [|done|done].
  destruct H as (_ & _ & Hin & Hs & _). intros x Hx. apply (accessible_acyclic x); [|done]. apply Hs, Hin.
  apply tc_first in Hx as (z & (step & Hx' & _) & _). apply list_elem_of_fmap. exists (x, step). split; [done|]. by apply in_key_order_elem.
Qed.
End graphs.

(** A step whose dependencies exist and are of its own phase, and which uses what another step produces only
    after that step has completed. *)
Definition valid_step {Gate} (steps : gmap string (StepSpec Gate)) (step : StepSpec Gate) : Prop :=
  (∀ target, target ∈ step_targets (st_dependencies step) → ∃ other, steps !! target = Some other ∧ st_finally other = st_finally step) ∧
  (st_produces_mission step = None ∨ st_uses_mission step = None) ∧
  (∀ target, st_uses_mission step = Some (StepOutput target) →
     ∃ producer, steps !! target = Some producer ∧ is_Some (st_produces_mission producer) ∧
       StepDependency target "completed" ∈ st_dependencies step).

Definition valid_graph {Gate} (steps : gmap string (StepSpec Gate)) : Prop :=
  (∀ id step, steps !! id = Some step → valid_step steps step) ∧ ∀ id, ¬ tc (depends steps) id id.

Section validation.
Context {Gate : Type} (mission : string) (steps : gmap string (StepSpec Gate)).

Lemma step_targets_elem (deps : list (DependencySpec Gate)) target :
  target ∈ step_targets deps ↔ ∃ state, StepDependency target state ∈ deps.
Proof.
  unfold step_targets. rewrite list_elem_of_omap. split.
  - intros ([step state|gate] & Hin & E); [|done]. injection E as ->. by exists state.
  - intros [state Hin]. by exists (StepDependency target state).
Qed.

Lemma step_targets_cons (d : DependencySpec Gate) deps target :
  target ∈ step_targets (d :: deps) ↔ (∃ state, d = StepDependency target state) ∨ target ∈ step_targets deps.
Proof.
  rewrite !step_targets_elem. setoid_rewrite elem_of_cons. split.
  - intros [state [H|H]]; [left|right]; by exists state.
  - intros [[state H]|[state H]]; exists state; auto.
Qed.

Lemma targets_exactly context deps :
  validate_dependency_targets mission context deps steps = Ok tt ↔ ∀ target, target ∈ step_targets deps → is_Some (steps !! target).
Proof.
  induction deps as [|d deps IH]; cbn [validate_dependency_targets]; [split; [by intros _ t ?%elem_of_nil|done]|].
  setoid_rewrite step_targets_cons. destruct d as [target state|gate].
  - destruct (steps !! target) as [other|] eqn:E; cbn [is_some].
    + rewrite IH. split; [|naive_solver]. intros H t [[state' Ht]|Ht]; [|by apply H]. injection Ht as -> ->. by exists other.
    + split; [done|]. intros H. destruct (H target) as [? ?]; [left; by exists state|congruence].
  - rewrite IH. naive_solver.
Qed.

Lemma phases_exactly step deps :
  (∀ target, target ∈ step_targets deps → is_Some (steps !! target)) →
  validate_phases mission step deps steps ≠ None ∧
  (validate_phases mission step deps steps = Some (Ok tt) ↔
   ∀ target, target ∈ step_targets deps → ∃ other, steps !! target = Some other ∧ st_finally other = st_finally step).
Proof.
  induction deps as [|d deps IH]; intros Hk; cbn [validate_phases]; [split; [done|split; [by intros _ t ?%elem_of_nil|done]]|].
  setoid_rewrite step_targets_cons in Hk. destruct IH as [Hn IH]; [auto|].
  destruct d as [target state|gate].
  - destruct (Hk target) as [other E]; [left; by exists state|]. rewrite E.
    destruct (eqb (st_finally other) (st_finally step)) eqn:Ef.
    + split; [done|]. rewrite IH. setoid_rewrite step_targets_cons. apply eqb_prop in Ef. split; [|naive_solver].
      intros H t [[state' Ht]|Ht]; [|by apply H]. injection Ht as -> ->. by exists other.
    + split; [done|]. split; [done|]. intros H. destruct (H target) as (o & E' & Ef'); [apply step_targets_cons; left; by exists state|].
      apply eqb_false_iff in Ef. congruence.
  - split; [done|]. rewrite IH. setoid_rewrite step_targets_cons. naive_solver.
Qed.

Lemma waits_for_true target (deps : list (DependencySpec Gate)) : waits_for target deps = true ↔ StepDependency target "completed" ∈ deps.
Proof.
  unfold waits_for. rewrite existsb_exists. setoid_rewrite <- list_elem_of_In. split.
  - intros ([step state|gate] & Hin & E); [|done]. by apply andb_true_iff in E as [->%str_eqb_true ->%str_eqb_true].
  - intros Hin. exists (StepDependency target "completed"). by rewrite !str_eqb_refl.
Qed.

Lemma mission_use_exactly step :
  validate_mission_use mission step steps = Ok tt ↔
  (st_produces_mission step = None ∨ st_uses_mission step = None) ∧
  (∀ target, st_uses_mission step = Some (StepOutput target) →
     ∃ producer, steps !! target = Some producer ∧ is_Some (st_produces_mission producer) ∧
       StepDependency target "completed" ∈ st_dependencies step).
Proof.
  unfold validate_mission_use. destruct (st_produces_mission step), (st_uses_mission step) as [[m r|target]|] eqn:Eu; cbn [is_some andb];
    try solve [split; naive_solver].
  destruct (steps !! target) as [producer|] eqn:Ep;
    [|split; [done|]; intros [_ H]; destruct (H target) as (? & ? & _); [done|congruence]].
  destruct (st_produces_mission producer) as [pm|] eqn:Epm; cbn [is_none].
  - destruct (waits_for target _) eqn:Ew; cbn [negb].
    + split; [|done]. intros _. split; [by left|]. intros t [= <-]. exists producer. split_and!; [done|by exists pm|by apply waits_for_true].
    + split; [done|]. intros [_ H]. destruct (H target) as (? & ? & _ & Hw%waits_for_true); [done|congruence].
  - split; [done|]. intros [_ H]. destruct (H target) as (? & ? & Hpm & _); [done|]. replace x with producer in Hpm by congruence. rewrite Epm in Hpm. by destruct Hpm.
Qed.

Lemma steps_exactly todo :
  validate_steps mission todo steps ≠ None ∧
  (validate_steps mission todo steps = Some (Ok tt) ↔ ∀ step, step ∈ todo → valid_step steps step).
Proof.
  induction todo as [|step todo [Hn IH]]; cbn [validate_steps]; [split; [done|split; [by intros _ s ?%elem_of_nil|done]]|].
  setoid_rewrite elem_of_cons.
  pose proof (targets_exactly ("step `" +:+ st_id step +:+ "`") (st_dependencies step)) as Ht.
  destruct (validate_dependency_targets _ _ _ _) as [[]|e].
  2: { split; [done|]. split; [done|]. intros H. destruct (H step) as [Hv _]; [by left|]. enough (Err e = Ok tt) by done.
       apply Ht. intros t Hin. destruct (Hv t Hin) as (o & E & _). by exists o. }
  destruct (phases_exactly step (st_dependencies step)) as [Hpn Hp]; [by apply Ht|].
  destruct (validate_phases _ _ _ _) as [[[]|e]|]; [| |done].
  2: { split; [done|]. split; [done|]. intros H. destruct (H step) as [Hv _]; [by left|]. enough (Some (Err e) = Some (Ok tt)) by done. by apply Hp. }
  pose proof (mission_use_exactly step) as Hu. destruct (validate_mission_use _ _ _) as [[]|e].
  2: { split; [done|]. split; [done|]. intros H. destruct (H step) as [_ Hv]; [by left|]. enough (Err e = Ok tt) by done. by apply Hu. }
  split; [done|]. rewrite IH. split; [|naive_solver]. intros H s [->|Hs]; [|by apply H].
  split; [by apply Hp|by apply Hu].
Qed.

(** The check always answers, and accepts the valid graphs. *)
Lemma validation_exactly :
  validate_dependencies mission steps ≠ None ∧ (validate_dependencies mission steps = Some (Ok tt) ↔ valid_graph steps).
Proof.
  unfold validate_dependencies. destruct (steps_exactly (map snd (in_key_order steps))) as [Hn Hs].
  assert (Hall : (∀ step, step ∈ map snd (in_key_order steps) → valid_step steps step) ↔ (∀ id step, steps !! id = Some step → valid_step steps step)).
  { split.
    - intros H id step Hin. apply H, list_elem_of_fmap. exists (id, step). split; [done|]. by apply in_key_order_elem.
    - intros H step ([id s] & -> & Hin)%list_elem_of_fmap. apply in_key_order_elem in Hin. by apply (H id). }
  rewrite Hall in Hs. unfold valid_graph. destruct (validate_steps _ _ _) as [[[]|e]|]; [| |done].
  2: { split; [done|]. split; [done|]. intros [H _]. by apply Hs in H. }
  assert (Hv : ∀ id step, steps !! id = Some step → valid_step steps step) by by apply Hs.
  assert (Hk : targets_known steps).
  { intros a b (step & Ha & Hb). destruct (Hv a step Ha) as [Ht _]. destruct (Ht b Hb) as (o & E & _). by exists o. }
  pose proof (visits_exactly steps Hk) as Hvis. destruct (visit_all _ _ _ _) as [[m|e]|]; [|split; [done|]|done].
  - split; [done|]. by split.
  - split; [done|]. intros [_ H]. destruct Hvis as [x Hx]. by destruct (H x).
Qed.
End validation.

(** C32. A mission's steps are accepted exactly when they can be carried out: the check always answers, and it
    accepts when every dependency names a step of the same phase, no step both produces and uses a
    mission, a step that uses another's mission waits for its completion and the other produces one, and no
    step depends on itself through others. *)
Theorem missions_are_accepted_exactly {Gate} mission (steps : gmap string (StepSpec Gate)) :
  ∃ r, validate_dependencies mission steps = Some r ∧ (r = Ok tt ↔ valid_graph steps).
Proof.
  destruct (validation_exactly mission steps) as [Hn H]. destruct (validate_dependencies mission steps) as [r|]; [|done].
  exists r. split; [done|]. rewrite <- H. split; [by intros ->|by intros [= ->]].
Qed.

(** ** Runs that wait keep their graph *)

Section after.
Context {Gate : Type} (hash : StepSpec Gate → result St3Error string).

Lemma wait_for_run_keeps (step : StepSpec Gate) :
  st_finally (wait_for_run step) = st_finally step ∧ st_produces_mission (wait_for_run step) = st_produces_mission step ∧
  st_uses_mission (wait_for_run step) = st_uses_mission step ∧ st_definition_hash (wait_for_run step) = st_definition_hash step ∧
  st_dependencies (wait_for_run step) =
    st_dependencies step ++ if st_finally step then [] else [StepDependency AFTER_RUN_STEP "completed"].
Proof. unfold wait_for_run. destruct (st_finally step) eqn:E; cbn; rewrite ?E, ?app_nil_r; done. Qed.

Lemma after_run_Ok mission run m' :
  mission_after_run hash mission run = Ok m' →
  ms_steps mission !! AFTER_RUN_STEP = None ∧
  ∃ step, ms_steps m' = <[AFTER_RUN_STEP := step]> (wait_for_run <$> ms_steps mission) ∧
    st_dependencies step = [] ∧ st_finally step = false ∧ st_uses_mission step = None ∧ st_after_run step = Some (after_run_subject run) ∧
    st_work_selector step = Some Agentless.
Proof.
  unfold mission_after_run, after_run_step. destruct (ms_steps mission !! AFTER_RUN_STEP); [done|]. cbn [is_some].
  destruct (hash _) as [h|e]; [|done]. cbn. intros [= <-]. split; [done|]. eexists. split; [done|]. done.
Qed.

Section one.
Context (mission m' : MissionSpec Gate) (run : string) (Hm : mission_after_run hash mission run = Ok m').
Context (Hv : valid_graph (ms_steps mission)).

Lemma after_lookup id step' :
  ms_steps m' !! id = Some step' →
  id = AFTER_RUN_STEP ∧ st_dependencies step' = [] ∧ st_finally step' = false ∧ st_uses_mission step' = None ∨
  id ≠ AFTER_RUN_STEP ∧ ∃ step, ms_steps mission !! id = Some step ∧ step' = wait_for_run step.
Proof.
  destruct (after_run_Ok mission run m' Hm) as (Hno & s & -> & H1 & H2 & H3 & _).
  intros [[<- <-]|[Hne Hl]]%lookup_insert_Some; [by left|]. right. apply lookup_fmap_Some in Hl as (step & E & Hs).
  split; [done|]. by exists step.
Qed.

Lemma after_kept id step : ms_steps mission !! id = Some step → ms_steps m' !! id = Some (wait_for_run step).
Proof.
  destruct (after_run_Ok mission run m' Hm) as (Hno & s & -> & _). intros Hl.
  rewrite lookup_insert_ne by (intros <-; congruence). rewrite lookup_fmap, Hl. done.
Qed.

Lemma after_depends a b : depends (ms_steps m') a b → b = AFTER_RUN_STEP ∨ depends (ms_steps mission) a b.
Proof.
  intros (step' & Ha & Hb). destruct (after_lookup a step' Ha) as [(_ & Hd & _)|(_ & step & Hs & ->)].
  - rewrite Hd in Hb. by apply elem_of_nil in Hb.
  - destruct (wait_for_run_keeps step) as (_ & _ & _ & _ & Ed). rewrite Ed in Hb. unfold step_targets in Hb. rewrite omap_app in Hb.
    apply elem_of_app in Hb as [Hb|Hb]; [right; by exists step|left]. destruct (st_finally step); [by apply elem_of_nil in Hb|].
    by apply list_elem_of_singleton in Hb.
Qed.

Lemma after_stops b : ¬ depends (ms_steps m') AFTER_RUN_STEP b.
Proof.
  intros (step' & Ha & Hb). destruct (after_lookup _ step' Ha) as [(_ & Hd & _)|(Hne & _)]; [|done].
  rewrite Hd in Hb. by apply elem_of_nil in Hb.
Qed.

Lemma after_tc a b : tc (depends (ms_steps m')) a b → b = AFTER_RUN_STEP ∨ tc (depends (ms_steps mission)) a b.
Proof.
  induction 1 as [a b H|a c b H H' IH].
  - apply after_depends in H as [?|?]; [by left|right; by apply tc_once].
  - destruct (after_depends a c H) as [->|Hac]; [|destruct IH as [?|IH]; [by left|right; by eapply tc_l]].
    apply tc_first in H' as (z & Hz & _). by apply after_stops in Hz.
Qed.

Lemma after_run_valid : valid_graph (ms_steps m').
Proof.
  split.
  - intros id step' Hl. destruct (after_lookup id step' Hl) as [(-> & Hd & Hf & Hu)|(Hne & step & Hs & ->)].
    { unfold valid_step. rewrite Hd, Hu. split_and!; [by intros t ?%elem_of_nil|by right|done]. }
    destruct Hv as [Hstep _]. destruct (Hstep id step Hs) as (H1 & H2 & H3).
    destruct (wait_for_run_keeps step) as (Ef & Epm & Eu & _ & Ed). unfold valid_step. rewrite Ef, Epm, Eu, Ed. split_and!; [|done|].
    + intros t Ht. unfold step_targets in Ht. rewrite omap_app in Ht. apply elem_of_app in Ht as [Ht|Ht].
      * destruct (H1 t Ht) as (o & Ho & Eo). exists (wait_for_run o). split; [by apply after_kept|]. destruct (wait_for_run_keeps o) as [-> _]. done.
      * destruct (st_finally step) eqn:Efin; [by apply elem_of_nil in Ht|]. apply list_elem_of_singleton in Ht as ->.
        destruct (after_run_Ok mission run m' Hm) as (_ & s & -> & _ & Hfin & _). exists s. by rewrite lookup_insert_eq.
    + intros target Hu. destruct (H3 target Hu) as (p & Hp & Hpm & Hin). exists (wait_for_run p). split_and!; [by apply after_kept| |].
      * destruct (wait_for_run_keeps p) as (_ & -> & _). done.
      * apply elem_of_app. by left.
  - intros id Hid. destruct (after_tc id id Hid) as [->|H].
    + apply tc_first in Hid as (z & Hz & _). by apply after_stops in Hz.
    + destruct Hv as [_ Ha]. by apply (Ha id).
Qed.
End one.
End after.

(** C33. A run that waits for another follows a mission as sound as the one it was made from: when the mission's
    steps are accepted, so are those with the waiting step, which waits for the named run and for
    nothing else; every step of the normal phase depends on its completion, the steps of the final
    phase are as they were, and no step's definition hash changes. *)
Theorem waiting_runs_are_accepted {Gate} (hash : StepSpec Gate → result St3Error string) mission run m' :
  validate_dependencies (ms_id mission) (ms_steps mission) = Some (Ok tt) → mission_after_run hash mission run = Ok m' →
  validate_dependencies (ms_id m') (ms_steps m') = Some (Ok tt) ∧
  (∃ step, ms_steps m' !! AFTER_RUN_STEP = Some step ∧ st_dependencies step = [] ∧ st_after_run step = Some (after_run_subject run)) ∧
  ∀ id step, ms_steps mission !! id = Some step →
    ∃ step', ms_steps m' !! id = Some step' ∧ st_definition_hash step' = st_definition_hash step ∧
      if st_finally step then step' = step else StepDependency AFTER_RUN_STEP "completed" ∈ st_dependencies step'.
Proof.
  intros Hok Hm. split_and!.
  - apply validation_exactly. apply (after_run_valid hash mission m' run Hm). by apply (validation_exactly (ms_id mission)).
  - destruct (after_run_Ok hash mission run m' Hm) as (_ & s & -> & H1 & _ & _ & H2 & _). exists s. by rewrite lookup_insert_eq.
  - intros id step Hs. exists (wait_for_run step). split; [by apply (after_kept hash mission m' run Hm)|].
    destruct (wait_for_run_keeps step) as (_ & _ & _ & Hh & Hd). split; [done|]. rewrite Hd. unfold wait_for_run.
    destruct (st_finally step); [done|]. apply elem_of_app. right. left.
Qed.

(** ** Examples *)

Definition plain_step (id : string) (finally : bool) (after : list string) : StepSpec Empty_set :=
  mkStep id id finally None (map (λ s, StepDependency s "completed") after) None None None ("hash of " +:+ id).

Definition release : MissionSpec Empty_set :=
  mkMission "release"
    (list_to_map [("build", plain_step "build" false []); ("test", plain_step "test" false ["build"]);
                  ("tidy", plain_step "tidy" true [])]) ["build"; "test"; "tidy"].

Definition name_hash (step : StepSpec Empty_set) : result St3Error string := Ok ("hash of " +:+ st_id step).
Definition waiting : MissionSpec Empty_set := match mission_after_run name_hash release "r1" with Ok m => m | Err _ => release end.

Lemma waiting_witness :
  validate_dependencies "release" (ms_steps waiting) = Some (Ok tt) ∧
  (∃ step, ms_steps waiting !! "after-run" = Some step ∧ st_dependencies step = [] ∧ st_after_run step = Some "mission-run/r1").
Proof.
  destruct (waiting_runs_are_accepted name_hash release "r1" waiting) as (H1 & H2 & _); [vm_compute; reflexivity|vm_compute; reflexivity|].
  split; [exact H1|exact H2].
Defined.

Example cycles_are_refused :
  validate_dependencies "m" (list_to_map [("a", plain_step "a" false ["b"]); ("b", plain_step "b" false ["c"]); ("c", plain_step "c" false ["b"])]) =
  Some (Err (mkSt3Error "dependency-cycle" "the mission has a dependency cycle through step `b`")).
Proof. vm_compute. reflexivity. Qed.
