(* ===== verification/MissionText.v ===== *)
(** * Text of missions

    Models the variables, durations and names of [crates/st3/src/mission.rs]. A loop over the rest of a text takes
    fuel, one more than its length, which is enough since each turn takes two bytes off. *)

From Stdlib Require Import Ascii.
From S2P Require Import Prelude StableSort Text Json Mission.

(** ** Variables in text *)

Definition VARIABLES : list string :=
  ["ST_MISSION"; "ST_MISSION_REVISION"; "ST_MISSION_RUN"; "ST_RUN_GENERATION"; "ST_ROOT_MISSION_RUN"; "ST_ROOT_MISSION_RUN_ID";
   "ST_WORKSPACE"; "ST_REQUESTER"; "ST_STEP"; "ST_STEP_RUN"; "ST_ATTEMPT"; "ST_ASSIGNEE"; "ST_PARENT_STEP_RUN"; "ST_GATE"; "ST_AGENT";
   "ST_LOOP_ROUND"; "ST_LOOP_FEEDBACK"; "ST_LOOP_ITEM_ID"; "ST_CANDIDATE_INDEX"; "loop.round"; "loop.feedback"; "loop.item.id";
   "candidate.index"; "PATH"].

Definition is_reserved_context_name (name : string) : bool :=
  (bool_decide (name ∈ VARIABLES) && negb (str_eqb name "PATH")) || str_eqb name "ST3_SUBJECT".

Definition registered_variable (name : string) : bool := bool_decide (name ∈ VARIABLES) || starts_with "loop.item." name.

Definition unknown_variable (name : string) : St3Error :=
  mkSt3Error "unknown-variable" ("variable `" +:+ name +:+ "` is not registered; write `$${" +:+ name +:+ "}` for the literal text").

Definition unclosed_variable : St3Error := mkSt3Error "invalid-variable" "a variable reference has no closing brace".

(** [find "${"]: what is before the first one, and what follows it. *)
Fixpoint split_open (s : string) : option (string * string) :=
  match s with
  | EmptyString => None
  | String c s' =>
      match strip_prefix "${" s with
      | Some tail => Some ("", tail)
      | None => prod_map (String c) id <$> split_open s'
      end
  end.

Definition find_variable (variables : gmap string string) (name : string) : option string :=
  match variables !! name with
  | Some value => Some value
  | None => if starts_with "loop.item." name then variables !! "loop.item.*" else None
  end.

(** The loop: each turn takes two bytes or more off [rest]. [None] is the end of the fuel. *)
Fixpoint interpolate_loop (fuel : nat) (variables : gmap string string) (output rest : string) : option (result St3Error string) :=
  match fuel with
  | O => None
  | S fuel =>
      match split_open rest with
      | None => Some (Ok (output +:+ rest))
      | Some (before, tail) =>
          match strip_suffix "$" before with
          | Some literal => interpolate_loop fuel variables (output +:+ literal +:+ "${") tail
          | None =>
              match split_once "}" tail with
              | None => Some (Err unclosed_variable)
              | Some (name, rest) =>
                  if negb (registered_variable name) && negb (starts_with "input." name) then Some (Err (unknown_variable name))
                  else
                    match find_variable variables name with
                    | None => Some (Err (mkSt3Error "unavailable-variable" ("variable `" +:+ name +:+ "` is not available in this phase")))
                    | Some value => interpolate_loop fuel variables (output +:+ before +:+ value) rest
                    end
              end
          end
      end
  end.

Definition interpolate (source : string) (variables : gmap string string) : option (result St3Error string) :=
  interpolate_loop (S (String.length source)) variables "" source.

(** [validate_variables] of a string. *)
Fixpoint validate_text (fuel : nat) (input_names : gset string) (rest : string) : option (result St3Error unit) :=
  match fuel with
  | O => None
  | S fuel =>
      match split_open rest with
      | None => Some (Ok tt)
      | Some (before, tail) =>
          if is_some (strip_suffix "$" before) then validate_text fuel input_names tail
          else
            match split_once "}" tail with
            | None => Some (Err unclosed_variable)
            | Some (name, rest) =>
                let declared_input := is_some_and (strip_prefix "input." name) (λ name, bool_decide (name ∈ input_names)) in
                if negb (registered_variable name) && negb declared_input then Some (Err (unknown_variable name))
                else validate_text fuel input_names rest
            end
      end
  end.

Section values.
Context `{NumberApi}.

Fixpoint validate_variables (value : Value) (input_names : gset string) : option (result St3Error unit) :=
  let validate_all := fix validate_all (values : list Value) : option (result St3Error unit) :=
    match values with
    | [] => Some (Ok tt)
    | value :: values =>
        match validate_variables value input_names with
        | Some (Ok _) => validate_all values
        | other => other
        end
    end in
  let validate_fields := fix validate_fields (fields : list (string * Value)) : option (result St3Error unit) :=
    match fields with
    | [] => Some (Ok tt)
    | (_, value) :: fields =>
        match validate_variables value input_names with
        | Some (Ok _) => validate_fields fields
        | other => other
        end
    end in
  match value with
  | Str s => validate_text (S (String.length s)) input_names s
  | Array values => validate_all values
  | Object fields => validate_fields fields
  | _ => Some (Ok tt)
  end.
End values.

(** *** Text and templates *)

Lemma substring_all (s : string) : String.substring 0 (String.length s) s = s.
Proof. induction s as [|c s IH]; [done|]. simpl. by rewrite IH. Qed.

Lemma substring_split (s : string) : ∀ n, n ≤ String.length s →
  s = String.substring 0 n s +:+ String.substring n (String.length s - n) s.
Proof.
  induction s as [|c s IH]; intros [|n] Hn; simpl in *; try done; try lia.
  - f_equal. by rewrite substring_all.
  - change (String c (String.substring 0 n s) +:+ ?t) with (String c (String.substring 0 n s +:+ t)). f_equal. apply IH. lia.
Qed.

Lemma substring_app (a b : string) :
  String.substring 0 (String.length a) (a +:+ b) = a ∧ String.substring (String.length a) (String.length b) (a +:+ b) = b.
Proof.
  induction a as [|c a [IH1 IH2]]; [split; [by destruct b|apply substring_all]|].
  change (String c a +:+ b) with (String c (a +:+ b)). simpl. by rewrite IH1.
Qed.

Lemma strip_suffix_Some p s r : strip_suffix p s = Some r ↔ s = r +:+ p.
Proof.
  unfold strip_suffix. split.
  - destruct (Nat.leb_spec (String.length p) (String.length s)) as [Hl|]; [|done]. cbn [andb].
    destruct (str_eqb _ p) eqn:E; [|done]. apply str_eqb_true in E. intros [= <-]. rewrite <- E at 2.
    pose proof (substring_split s (String.length s - String.length p) ltac:(lia)) as Hs.
    by replace (String.length s - (String.length s - String.length p)) with (String.length p) in Hs by lia.
  - intros ->. rewrite str_length_app. destruct (Nat.leb_spec (String.length p) (String.length r + String.length p)); [|lia].
    replace (String.length r + String.length p - String.length p) with (String.length r) by lia.
    destruct (substring_app r p) as [E1 E2]. by rewrite E1, E2, str_eqb_refl.
Qed.

Lemma split_open_Some s : ∀ a b, split_open s = Some (a, b) → s = a +:+ "${" +:+ b ∧ split_open a = None.
Proof.
  induction s as [|c s IH]; intros a b; [done|]. cbn [split_open].
  destruct (strip_prefix "${" (String c s)) as [tail|] eqn:E.
  - intros [= <- <-]. by apply strip_prefix_Some in E.
  - intros ([a' b'] & Es & E2)%fmap_Some. cbn in E2. injection E2 as -> ->. destruct (IH a' b' Es) as [-> Hn]. split; [done|]. cbn [split_open].
    destruct (strip_prefix "${" (String c a')) as [tail|] eqn:E'; [|by rewrite Hn].
    apply strip_prefix_Some in E'. enough (strip_prefix "${" (String c (a' +:+ "${" +:+ b')) = Some (tail +:+ "${" +:+ b')) by congruence.
    apply strip_prefix_Some. change (String c (a' +:+ "${" +:+ b')) with (String c a' +:+ "${" +:+ b'). by rewrite E', !str_app_assoc.
Qed.

(** The first opening is found after text without one. *)
Lemma split_open_app a b : split_open a = None → split_open (a +:+ "${" +:+ b) = Some (a, b).
Proof.
  induction a as [|c a IH]; [done|]. cbn [split_open]. destruct (strip_prefix "${" (String c a)) as [tail|] eqn:E; [done|].
  destruct (split_open a) as [[? ?]|] eqn:Ea; [done|]. intros _. change (String c a +:+ ?t) with (String c (a +:+ t)). cbn [split_open].
  rewrite IH by done. enough (E' : strip_prefix "${" (String c (a +:+ "${" +:+ b)) = None) by by rewrite E'.
  simpl in *. destruct (decide ("$"%char = c)) as [Hc|]; [|done]. destruct a as [|c' a]; [done|]. simpl in *.
  by destruct (decide ("{"%char = c')).
Qed.

Lemma split_open_snoc a c : c ≠ "{"%char → split_open a = None → split_open (a +:+ String c "") = None.
Proof.
  intros Hc. induction a as [|d a IH]; [intros _; destruct c as [[] [] [] [] [] [] [] []]; done|].
  cbn [split_open]. destruct (strip_prefix "${" (String d a)) as [tail|] eqn:E; [done|].
  destruct (split_open a) as [[? ?]|] eqn:Ea; [done|]. intros _. change (String d a +:+ ?t) with (String d (a +:+ t)). cbn [split_open].
  rewrite IH by done. enough (E' : strip_prefix "${" (String d (a +:+ String c "")) = None) by by rewrite E'.
  simpl in *. destruct (decide ("$"%char = d)) as [Hd|]; [|done]. destruct a as [|c' a]; simpl in *.
  - by destruct (decide ("{"%char = c)) as [<-|].
  - by destruct (decide ("{"%char = c')).
Qed.

Lemma split_open_dollar a : split_open a = None → split_open (a +:+ "$") = None.
Proof. by apply split_open_snoc. Qed.

(** Literal text as [unknown_variable] tells to write it. *)
Definition escape (s : string) : string := replace "${" "$${" s.

Lemma escape_split s :
  escape s = match split_open s with None => s | Some (a, b) => a +:+ "$${" +:+ escape b end.
Proof.
  unfold escape. induction s as [|c s IH]; [done|]. cbn [split_open].
  destruct (strip_prefix "${" (String c s)) as [tail|] eqn:E.
  - apply strip_prefix_Some in E. rewrite E. by rewrite replace_match.
  - unfold replace in *. cbn [replace_from]. unfold starts_with. rewrite E. cbn [is_some]. rewrite IH.
    by destruct (split_open s) as [[a b]|].
Qed.

Lemma escape_step c s : strip_prefix "${" (String c s) = None → escape (String c s) = String c (escape s).
Proof. intros E. unfold escape, replace. cbn [replace_from]. unfold starts_with. by rewrite E. Qed.

Lemma escape_opened s : escape ("${" +:+ s) = "$${" +:+ escape s.
Proof. unfold escape. by rewrite replace_match. Qed.

(** Escaping a text is escaping its parts, when no opening lies across them. *)
Lemma escape_app n : ∀ a x, String.length a < n →
  strip_suffix "$" a = None ∨ strip_prefix "{" x = None → escape (a +:+ x) = escape a +:+ escape x.
Proof.
  induction n as [|n IH]; intros a x Hn Hx; [lia|]. destruct a as [|c a]; [done|].
  assert (Hsub : ∀ p a', String c a = p +:+ a' → strip_suffix "$" a' = None ∨ strip_prefix "{" x = None).
  { intros p a' Ep. destruct Hx as [Hx|Hx]; [left|by right]. destruct (strip_suffix "$" a') as [r|] eqn:Er; [|done].
    apply strip_suffix_Some in Er. enough (strip_suffix "$" (String c a) = Some (p +:+ r)) by congruence.
    apply strip_suffix_Some. by rewrite Ep, Er, str_app_assoc. }
  destruct (strip_prefix "${" (String c a)) as [tail|] eqn:E.
  - apply strip_prefix_Some in E. pose proof (Hsub "${" tail E) as Ht. rewrite E in Hn |- *.
    rewrite <- str_app_assoc, !escape_opened, (IH tail x), str_app_assoc; [done|rewrite str_length_app in Hn; cbn in Hn; lia|done].
  - rewrite escape_step by done. change (String c a +:+ x) with (String c (a +:+ x)). rewrite escape_step.
    + rewrite (IH a x); [done|cbn in Hn; lia|by apply (Hsub (String c ""))].
    + simpl in E |- *. destruct (decide ("$"%char = c)) as [<-|]; [|done]. destruct a as [|c' a]; [|by simpl; destruct (decide ("{"%char = c'))].
      destruct Hx as [Hx|Hx]; [by vm_compute in Hx|]. change ("" +:+ x) with x. destruct x as [|c' x]; [done|].
      simpl in Hx. by destruct (decide ("{"%char = c')).
Qed.

(** A text of literals each followed by a variable, and a last literal. *)
Fixpoint print_template (parts : list (string * string)) (last : string) : string :=
  match parts with
  | [] => escape last
  | (literal, name) :: parts => escape literal +:+ "${" +:+ name +:+ "}" +:+ print_template parts last
  end.

(** What it says: each variable stands for its value, unless the literal before it ends in a dollar, which makes it
    an escape of the variable and goes away. *)
Fixpoint render_template (variables : gmap string string) (parts : list (string * string)) (last : string) : string :=
  match parts with
  | [] => last
  | (literal, name) :: parts =>
      match strip_suffix "$" literal with
      | None => literal +:+ default "" (find_variable variables name)
      | Some literal => literal +:+ "${" +:+ name +:+ "}"
      end +:+ render_template variables parts last
  end.

(** A variable is known, has a value and has no closing brace in its name; what follows an escape has no opening. *)
Definition template_ok (variables : gmap string string) (part : string * string) : Prop :=
  match strip_suffix "$" part.1 with
  | None => contains_char "}" part.2 = false ∧
      registered_variable part.2 || starts_with "input." part.2 = true ∧ is_Some (find_variable variables part.2)
  | Some _ => split_open part.2 = None
  end.

(** *** How a template is read *)

Lemma string_snoc s : s = "" ∨ ∃ s' c, s = s' +:+ String c "".
Proof.
  induction s as [|c s [->|(s' & d & ->)]]; [by left|right; by exists "", c|right]. by exists (String c s'), d.
Qed.

Lemma snoc_inj s c s' c' : s +:+ String c "" = s' +:+ String c' "" → s = s' ∧ c = c'.
Proof.
  intros E%(f_equal bytes_of). rewrite !bytes_of_app in E. apply app_inj_tail in E as [E ->]. by apply bytes_of_inj in E.
Qed.

Lemma no_dollar_snoc s c : c ≠ "$"%char → strip_suffix "$" (s +:+ String c "") = None.
Proof.
  intros Hc. destruct (strip_suffix "$" _) as [r|] eqn:E; [|done]. by apply strip_suffix_Some, snoc_inj in E as [_ ?].
Qed.

Lemma no_dollar_app p s : strip_suffix "$" p = None → strip_suffix "$" s = None → strip_suffix "$" (p +:+ s) = None.
Proof.
  intros Hp Hs. destruct (string_snoc s) as [->|(s' & c & ->)]; [by rewrite str_app_nil_r|]. rewrite str_app_assoc.
  apply no_dollar_snoc. intros ->. by rewrite (proj2 (strip_suffix_Some "$" (s' +:+ "$") s') eq_refl) in Hs.
Qed.

Lemma escape_plain s : split_open s = None → escape s = s.
Proof. intros E. by rewrite escape_split, E. Qed.

Section interpolation.
Context (variables : gmap string string).

(** The escapes of a literal are undone, up to what follows its last. *)
Lemma escaped_literal n : ∀ s fuel output rest,
  String.length s < n → String.length (escape s +:+ rest) < fuel →
  ∃ fuel' a b, interpolate_loop fuel variables output (escape s +:+ rest) = interpolate_loop fuel' variables (output +:+ a) (b +:+ rest) ∧
    s = a +:+ b ∧ split_open b = None ∧ String.length (b +:+ rest) < fuel' ∧ (strip_suffix "$" s = None → strip_suffix "$" b = None).
Proof.
  induction n as [|n IH]; intros s fuel output rest Hn Hf; [lia|]. rewrite escape_split in *.
  destruct (split_open s) as [[a b]|] eqn:E.
  - apply split_open_Some in E as [Hs Ha]. destruct fuel as [|fuel]; [lia|]. cbn [interpolate_loop].
    assert (Esp : split_open ((a +:+ "$${" +:+ escape b) +:+ rest) = Some (a +:+ "$", escape b +:+ rest)).
    { rewrite <- (split_open_app (a +:+ "$") (escape b +:+ rest)) by by apply split_open_dollar. f_equal. by rewrite <- !str_app_assoc. }
    rewrite Esp, (proj2 (strip_suffix_Some "$" (a +:+ "$") a) eq_refl).
    assert (Hlen : String.length s = String.length a + (2 + String.length b)) by (rewrite Hs, !str_length_app; simpl; lia).
    rewrite !str_length_app in Hf. cbn [String.length] in Hf.
    destruct (IH b fuel (output +:+ a +:+ "${") rest) as (fuel' & a' & b' & Hi & Hb & Hno & Hlt & Hd); [lia|rewrite str_length_app; lia|].
    exists fuel', (a +:+ "${" +:+ a'), b'. split_and!; [|by rewrite Hs, Hb, !str_app_assoc|done|done|].
    + rewrite Hi. f_equal. by rewrite !str_app_assoc.
    + intros Hns. apply Hd. destruct (strip_suffix "$" b) as [r|] eqn:Er; [|done]. apply strip_suffix_Some in Er.
      enough (strip_suffix "$" s = Some (a +:+ "${" +:+ r)) by congruence. apply strip_suffix_Some. by rewrite Hs, Er, !str_app_assoc.
  - exists fuel, "", s. split_and!; [by rewrite str_app_nil_r|done|done|done|done].
Qed.

(** A variable after a literal that does not end in a dollar becomes its value. *)
Lemma value_step fuel output literal name rest :
  strip_suffix "$" literal = None → contains_char "}" name = false →
  registered_variable name || starts_with "input." name = true → is_Some (find_variable variables name) →
  String.length (escape literal +:+ "${" +:+ name +:+ "}" +:+ rest) < fuel →
  ∃ fuel', String.length rest < fuel' ∧
    interpolate_loop fuel variables output (escape literal +:+ "${" +:+ name +:+ "}" +:+ rest) =
    interpolate_loop fuel' variables (output +:+ literal +:+ default "" (find_variable variables name)) rest.
Proof.
  intros Hd Hb Hr [value Hv] Hf. set (opened := "${" +:+ _) in *.
  destruct (escaped_literal (S (String.length literal)) literal fuel output opened) as (fuel' & a & b & -> & Hs & Hno & Hlt & Hbd); [lia|done|].
  destruct fuel' as [|fuel']; [lia|]. exists fuel'. split.
  { unfold opened in Hlt. rewrite !str_length_app in Hlt. cbn [String.length] in Hlt. lia. }
  cbn [interpolate_loop]. unfold opened. rewrite split_open_app by done. rewrite Hbd by done.
  rewrite (proj2 (split_once_Some "}" _ name rest)) by done.
  assert (Hu : negb (registered_variable name) && negb (starts_with "input." name) = false) by (rewrite <- negb_orb, Hr; done).
  rewrite Hu, Hv. cbn [default]. by rewrite Hs, !str_app_assoc.
Qed.

(** An opening after a dollar becomes the opening alone. *)
Lemma escape_step_once fuel output literal rest :
  String.length (escape literal +:+ "$${" +:+ rest) < fuel →
  ∃ fuel', String.length rest < fuel' ∧
    interpolate_loop fuel variables output (escape literal +:+ "$${" +:+ rest) =
    interpolate_loop fuel' variables (output +:+ literal +:+ "${") rest.
Proof.
  intros Hf. destruct (escaped_literal (S (String.length literal)) literal fuel output ("$${" +:+ rest))
    as (fuel' & a & b & -> & Hs & Hno & Hlt & _); [lia|done|].
  destruct fuel' as [|fuel']; [lia|]. exists fuel'. split; [rewrite !str_length_app in Hlt; cbn [String.length] in Hlt; lia|].
  cbn [interpolate_loop].
  assert (E : b +:+ "$${" +:+ rest = (b +:+ "$") +:+ "${" +:+ rest) by by rewrite <- str_app_assoc.
  rewrite E, split_open_app by by apply split_open_dollar. rewrite (proj2 (strip_suffix_Some "$" (b +:+ "$") b) eq_refl).
  by rewrite Hs, !str_app_assoc.
Qed.

(** [before] is text already read as literal: the name of an escaped variable, and its brace. *)
Lemma interpolates_template parts last : ∀ before fuel output,
  split_open before = None → strip_suffix "$" before = None →
  Forall (template_ok variables) parts → String.length (before +:+ print_template parts last) < fuel →
  interpolate_loop fuel variables output (before +:+ print_template parts last)
  = Some (Ok (output +:+ before +:+ render_template variables parts last)).
Proof.
  induction parts as [|[literal name] parts IH]; intros before fuel output Hno Hend Hok Hf; cbn [print_template render_template] in *.
  - assert (E : before +:+ escape last = escape (before +:+ last) +:+ "").
    { rewrite str_app_nil_r, (escape_app _ before last (Nat.lt_succ_diag_r _)) by by left. by rewrite (escape_plain before). }
    rewrite E in *. destruct (escaped_literal (S (String.length (before +:+ last))) (before +:+ last) fuel output "")
      as (fuel' & a & b & -> & Hs & Hb & Hlt & _); [lia|done|].
    rewrite str_app_nil_r in *. destruct fuel' as [|fuel']; [lia|]. cbn [interpolate_loop]. rewrite Hb. by rewrite Hs, str_app_assoc.
  - apply Forall_cons_iff in Hok as [Hp Hok]. unfold template_ok in Hp. cbn [fst snd] in Hp.
    destruct (strip_suffix "$" literal) as [l|] eqn:El.
    + apply strip_suffix_Some in El as ->.
      assert (E : before +:+ escape (l +:+ "$") +:+ "${" +:+ name +:+ "}" +:+ print_template parts last
                  = escape (before +:+ l) +:+ "$${" +:+ (name +:+ "}") +:+ print_template parts last).
      { rewrite (escape_app _ l "$" (Nat.lt_succ_diag_r _)) by by right.
        rewrite (escape_app _ before l (Nat.lt_succ_diag_r _)) by by left. by rewrite (escape_plain before), <- !str_app_assoc. }
      rewrite E in *. destruct (escape_step_once fuel output _ _ Hf) as (fuel' & Hlt & ->).
      rewrite IH; [by rewrite !str_app_assoc|by apply split_open_snoc|by apply no_dollar_snoc|done|done].
    + destruct Hp as (Hb & Hr & Hv).
      assert (E : before +:+ escape literal +:+ "${" +:+ name +:+ "}" +:+ print_template parts last
                  = escape (before +:+ literal) +:+ "${" +:+ name +:+ "}" +:+ print_template parts last).
      { rewrite (escape_app _ before literal (Nat.lt_succ_diag_r _)) by by left. by rewrite (escape_plain before), !str_app_assoc. }
      rewrite E in *. destruct (value_step fuel output (before +:+ literal) name (print_template parts last)) as (fuel' & Hlt & ->);
        [by apply no_dollar_app|done..|].
      pose proof (IH "" fuel' (output +:+ (before +:+ literal) +:+ default "" (find_variable variables name)) eq_refl eq_refl Hok Hlt) as Hrest.
      change ("" +:+ ?t) with t in Hrest. rewrite Hrest. by rewrite !str_app_assoc.
Qed.
End interpolation.

(** C34. Interpolation writes what a template says: for any literals, each escaped as the error message tells, and
    variables in braces between them, the text yields the literals with the values of the variables
    between them, for variables that are known, have a value and have no brace in their names. The one exception is a literal that ends
    in a dollar: with the variable after it, it is read as an escape, whatever the variable, so the dollar
    goes and the variable stays as written, braces and all; a dollar right before a value cannot be written. *)
Theorem templates_interpolate variables parts last :
  Forall (template_ok variables) parts →
  interpolate (print_template parts last) variables = Some (Ok (render_template variables parts last)).
Proof. intros Hok. unfold interpolate. exact (interpolates_template variables parts last "" _ "" eq_refl eq_refl Hok (Nat.lt_succ_diag_r _)). Qed.

(** *** What was validated interpolates *)

(** Each registered variable and each declared input has a value. *)
Definition all_available (variables : gmap string string) (input_names : gset string) : Prop :=
  (∀ name, registered_variable name = true → is_Some (find_variable variables name)) ∧
  (∀ name, name ∈ input_names → is_Some (variables !! ("input." +:+ name))).

Lemma validated_text variables input_names fuel : ∀ rest output,
  all_available variables input_names → validate_text fuel input_names rest = Some (Ok tt) →
  ∃ text, interpolate_loop fuel variables output rest = Some (Ok text).
Proof.
  induction fuel as [|fuel IH]; intros rest output Hav; [done|]. cbn [validate_text interpolate_loop].
  destruct (split_open rest) as [[before tail]|]; [|by exists (output +:+ rest)].
  destruct (strip_suffix "$" before) as [literal|]; cbn [is_some]; [by apply IH|].
  destruct (split_once "}" tail) as [[name rest']|]; [|done].
  destruct Hav as [Hreg Hin]. destruct (registered_variable name) eqn:Er; cbn [negb andb].
  - intros Hv. destruct (Hreg name Er) as [value ->]. by apply IH.
  - destruct (strip_prefix "input." name) as [input|] eqn:Ei; cbn [is_some_and negb]; [|done]. case_bool_decide as Hd; cbn [negb]; [|done].
    intros Hv. unfold starts_with. rewrite Ei. cbn [is_some negb]. apply strip_prefix_Some in Ei. destruct (Hin input Hd) as [value Hval].
    unfold find_variable. rewrite Ei, Hval. by apply IH.
Qed.

Section texts.
Context `{NumberApi}.

(** The strings of a value. *)
Fixpoint texts (value : Value) : list string :=
  match value with
  | Str s => [s]
  | Array values => flat_map texts values
  | Object fields => flat_map (λ f, texts f.2) fields
  | _ => []
  end.

Lemma validated_value variables input_names value :
  all_available variables input_names → validate_variables value input_names = Some (Ok tt) →
  ∀ s, s ∈ texts value → ∃ text, interpolate s variables = Some (Ok text).
Proof.
  intros Hav. induction value as [|b|n|s|values IH|fields IH] using Value_strong_ind; cbn [validate_variables texts]; intros Hv x Hx;
    try (by apply elem_of_nil in Hx).
  - apply list_elem_of_singleton in Hx as ->. by apply (validated_text variables input_names).
  - induction IH as [|v values Hval IH' IHl]; [by apply elem_of_nil in Hx|]. cbn [flat_map] in Hx.
    destruct (validate_variables v input_names) as [[[]|]|]; [|done|done]. apply elem_of_app in Hx as [Hx|Hx]; [by apply Hval|by apply IHl].
  - induction IH as [|[k v] fields Hval IH' IHl]; [by apply elem_of_nil in Hx|]. cbn [flat_map snd] in *.
    destruct (validate_variables v input_names) as [[[]|]|]; [|done|done]. apply elem_of_app in Hx as [Hx|Hx]; [by apply Hval|by apply IHl].
Qed.
End texts.

(** What was validated interpolates: when a value was accepted with the names of its inputs, and every registered
    variable and every input has a value, each string in it interpolates, at any depth. *)
Theorem validated_values_interpolate `{NumberApi} variables input_names value s :
  validate_variables value input_names = Some (Ok tt) → all_available variables input_names → s ∈ texts value →
  ∃ text, interpolate s variables = Some (Ok text).
Proof. intros Hv Hav Hs. by apply (validated_value variables input_names value). Qed.

(** ** Durations and assignees *)

Definition digit_value (c : ascii) : option Z :=
  let n := Z.of_N (N_of_ascii c) in if (48 <=? n)%Z && (n <=? 57)%Z then Some (n - 48)%Z else None.

(** The digits after those of [acc]; [None] for another byte or on overflow. *)
Fixpoint parse_digits (acc : Z) (s : string) : option Z :=
  match s with
  | EmptyString => Some acc
  | String c s =>
      match digit_value c with
      | None => None
      | Some d => let n := (acc * 10 + d)%Z in if (n <=? u64_max)%Z then parse_digits n s else None
      end
  end.

(** [str::parse::<u64>]: an optional plus, and digits. *)
Definition parse_u64 (s : string) : option Z :=
  match s with
  | EmptyString => None
  | String c s' =>
      if decide (c = "+"%char) then match s' with EmptyString => None | _ => parse_digits 0 s' end else parse_digits 0 s
  end.

Definition duration_units : list (string * Z) := [("ms", 1); ("s", 1000); ("m", 60000); ("h", 3600000); ("d", 86400000)]%Z.

Fixpoint parse_duration_units (units : list (string * Z)) (value : string) : result St3Error Z :=
  match units with
  | [] => Err (mkSt3Error "invalid-duration" ("duration `" +:+ value +:+ "` needs ms, s, m, h, or d"))
  | (suffix, multiplier) :: units =>
      match strip_suffix suffix value with
      | None => parse_duration_units units value
      | Some number =>
          match parse_u64 number with
          | None => Err (mkSt3Error "invalid-duration" ("duration `" +:+ value +:+ "` is invalid"))
          | Some number =>
              let product := (number * multiplier)%Z in
              if (product <=? u64_max)%Z then Ok product else Err (mkSt3Error "invalid-duration" "the duration is too large")
          end
      end
  end.

Definition parse_duration (value : string) : result St3Error Z := parse_duration_units duration_units value.

Definition normalize_subject (value kind : string) : string :=
  if starts_with (kind +:+ "/") value then value else kind +:+ "/" +:+ value.

Definition normalize_assignee (value default_host : string) : string :=
  if starts_with "person/" value then value
  else
    let identity := default value (strip_prefix "agent/" value) in
    if contains_char "." identity || is_some (split_open identity) then "agent/" +:+ identity
    else if contains_char "/" identity then value
    else "agent/" +:+ default_host +:+ "." +:+ identity.

Lemma strip_prefix_app p s : strip_prefix p (p +:+ s) = Some s.
Proof. by apply strip_prefix_Some. Qed.

(** An assignee that was normalized stays as it is, on whatever host it is read again. *)
Lemma normalize_assignee_idempotent value host host' :
  normalize_assignee (normalize_assignee value host) host' = normalize_assignee value host.
Proof.
  unfold normalize_assignee at 2 3. destruct (starts_with "person/" value) eqn:Ep; [unfold normalize_assignee; by rewrite Ep|].
  set (identity := default value (strip_prefix "agent/" value)). destruct (contains_char "." identity || is_some (split_open identity)) eqn:Ed.
  - unfold normalize_assignee. change (starts_with "person/" ("agent/" +:+ identity)) with false. cbn iota.
    rewrite strip_prefix_app. change (default ("agent/" +:+ identity) (Some identity)) with identity. by rewrite Ed.
  - destruct (contains_char "/" identity) eqn:Es.
    + unfold normalize_assignee. rewrite Ep. fold identity. by rewrite Ed, Es.
    + unfold normalize_assignee. change (starts_with "person/" ("agent/" +:+ host +:+ "." +:+ identity)) with false. cbn iota.
      rewrite strip_prefix_app. set (name := host +:+ "." +:+ identity). change (default ("agent/" +:+ name) (Some name)) with name.
      assert (E : contains_char "." name = true) by (unfold name; rewrite !contains_char_app; apply orb_true_r). by rewrite E.
Qed.

(** *** Durations *)

Lemma parse_digits_app s t : ∀ acc, parse_digits acc (s +:+ t) = parse_digits acc s ≫= λ n, parse_digits n t.
Proof.
  induction s as [|c s IH]; intros acc; [done|]. change (String c s +:+ t) with (String c (s +:+ t)). cbn [parse_digits].
  destruct (digit_value c) as [d|]; [|done]. case_match; [apply IH|done].
Qed.

Lemma digit_value_pretty (d : N) : (d < 10)%N → digit_value (pretty_N_char d) = Some (Z.of_N d).
Proof.
  intros Hd. assert (H : d ∈ [0; 1; 2; 3; 4; 5; 6; 7; 8; 9]%N).
  { destruct (decide (d ∈ [0; 1; 2; 3; 4; 5; 6; 7; 8; 9]%N)) as [|Hn]; [done|]. exfalso. rewrite !not_elem_of_cons in Hn. lia. }
  repeat (apply elem_of_cons in H as [->|H]; [reflexivity|]). by apply elem_of_nil in H.
Qed.

Lemma parse_digits_digits (x : N) : (Z.of_N x ≤ u64_max)%Z → parse_digits 0 (digits x) = Some (Z.of_N x).
Proof.
  induction (N.lt_wf_0 x) as [x _ IH]. intros Hx. destruct (decide (x = 0%N)) as [->|Hne]; [done|].
  rewrite digits_step by lia. pose proof (N.div_mod x 10 ltac:(lia)) as Hdm. pose proof (N.mod_lt x 10 ltac:(lia)) as Hm.
  assert (Hlt : (x `div` 10 < x)%N) by (apply N.div_lt; lia).
  rewrite parse_digits_app, IH by (done || lia). cbn [mbind option_bind parse_digits]. rewrite digit_value_pretty by done.
  cbv zeta. replace (Z.of_N (x `div` 10) * 10 + Z.of_N (x `mod` 10))%Z with (Z.of_N x) by lia.
  by destruct (Z.leb_spec (Z.of_N x) u64_max); [|lia].
Qed.

Lemma parse_u64_to_string n : (0 ≤ n ≤ u64_max)%Z → parse_u64 (u_to_string n) = Some n.
Proof.
  intros Hn. unfold u_to_string, pretty, pretty_N. destruct (decide (Z.to_N n = 0%N)) as [E|E].
  - replace n with 0%Z by lia. reflexivity.
  - fold (digits (Z.to_N n)). pose proof (parse_digits_digits (Z.to_N n)) as H. rewrite Z2N.id in H by lia. specialize (H ltac:(lia)).
    unfold parse_u64. destruct (digits (Z.to_N n)) as [|c s] eqn:Ed.
    + rewrite digits_step in Ed by lia. by destruct (digits _).
    + destruct (decide (c = "+"%char)) as [->|]; [done|exact H].
Qed.

Lemma u_to_string_last n c s : u_to_string n = s +:+ String c "" → digit_value c ≠ None.
Proof.
  unfold u_to_string, pretty, pretty_N. destruct (decide (Z.to_N n = 0%N)) as [E|E].
  - intros H. destruct s as [|c' s]; [by injection H as <-|]. destruct s; by injection H.
  - fold (digits (Z.to_N n)). rewrite digits_step by lia. intros H. apply (f_equal bytes_of) in H. rewrite !bytes_of_app in H.
    apply app_inj_tail in H as [_ <-]. rewrite digit_value_pretty by (apply N.mod_lt; lia). done.
Qed.

(** A suffix whose last byte is another is not there. *)
Lemma strip_suffix_other s p c d : c ≠ d → strip_suffix (p +:+ String c "") (s +:+ String d "") = None.
Proof.
  intros Hne. destruct (strip_suffix _ _) as [r|] eqn:E; [|done]. apply strip_suffix_Some in E. apply (f_equal bytes_of) in E.
  rewrite str_app_assoc, !bytes_of_app in E. apply app_inj_tail in E as [_ E]. congruence.
Qed.

(** Durations read back: a count of a unit that fits 64 bits is that many milliseconds, in every unit, and
    one that does not is refused and never wraps. *)
Theorem durations_read_back n unit multiplier :
  (0 ≤ n ≤ u64_max)%Z → (unit, multiplier) ∈ duration_units →
  parse_duration (u_to_string n +:+ unit) =
  if (n * multiplier <=? u64_max)%Z then Ok (n * multiplier)%Z else Err (mkSt3Error "invalid-duration" "the duration is too large").
Proof.
  intros Hn Hu.
  assert (Hthis : ∀ u k rest, strip_suffix u (u_to_string n +:+ unit) = Some (u_to_string n) →
    parse_duration_units ((u, k) :: rest) (u_to_string n +:+ unit) =
    if (n * k <=? u64_max)%Z then Ok (n * k)%Z else Err (mkSt3Error "invalid-duration" "the duration is too large")).
  { intros u k rest Hs. cbn [parse_duration_units]. by rewrite Hs, (parse_u64_to_string n Hn). }
  assert (Hskip : ∀ u k rest, strip_suffix u (u_to_string n +:+ unit) = None →
    parse_duration_units ((u, k) :: rest) (u_to_string n +:+ unit) = parse_duration_units rest (u_to_string n +:+ unit)).
  { intros u k rest Hs. cbn [parse_duration_units]. by rewrite Hs. }
  assert (Hself : ∀ u, strip_suffix u (u_to_string n +:+ u) = Some (u_to_string n)) by (intros u; by apply strip_suffix_Some).
  assert (Hms : strip_suffix "ms" (u_to_string n +:+ "s") = None).
  { destruct (strip_suffix _ _) as [r|] eqn:E; [|done]. apply strip_suffix_Some in E. exfalso.
    apply (u_to_string_last n "m" r); [|done]. apply bytes_of_inj. apply (f_equal bytes_of) in E. rewrite !bytes_of_app in *.
    change (bytes_of "ms") with (bytes_of "m" ++ bytes_of "s") in E. rewrite app_assoc in E. by apply app_inj_tail in E as [E _]. }
  assert (Hother : ∀ p c d, c ≠ d → strip_suffix (p +:+ String c "") (u_to_string n +:+ String d "") = None) by (intros; by apply strip_suffix_other).
  unfold parse_duration, duration_units in *.
  repeat (apply elem_of_cons in Hu as [Hu|Hu]; [injection Hu as -> ->|]); [| | | | |by apply elem_of_nil in Hu].
  - by apply Hthis.
  - rewrite Hskip by done. by apply Hthis.
  - rewrite Hskip by by apply (Hother "m"). rewrite Hskip by by apply (Hother ""). by apply Hthis.
  - rewrite Hskip by by apply (Hother "m"). do 2 rewrite Hskip by by apply (Hother ""). by apply Hthis.
  - rewrite Hskip by by apply (Hother "m"). do 3 rewrite Hskip by by apply (Hother ""). by apply Hthis.
Qed.

(** ** Examples *)

Definition agent_is (value : string) : gmap string string := {["ST_AGENT" := value]}.

Lemma template_witness :
  interpolate "ask ${ST_AGENT} for $${ST_AGENT} or $$${HOME}" (agent_is "host.dev") = Some (Ok "ask host.dev for ${ST_AGENT} or $${HOME}").
Proof.
  apply (templates_interpolate (agent_is "host.dev") [("ask ", "ST_AGENT"); (" for ${ST_AGENT} or $$", "HOME")] "").
  constructor; [|constructor; [|constructor]]; [|done]. split_and!; [reflexivity..|by exists "host.dev"].
Defined.

(** A dollar right before a variable makes the text an escape. *)
Example dollar_before_a_variable :
  interpolate "$${ST_AGENT}" (agent_is "host.dev") = Some (Ok "${ST_AGENT}") ∧
  interpolate "$$${ST_AGENT}" (agent_is "host.dev") = Some (Ok "$${ST_AGENT}").
Proof. split; reflexivity. Qed.

Definition everything : gmap string string :=
  list_to_map (("input.topic", "locks") :: ("loop.item.*", "item") :: map (λ name, (name, name)) VARIABLES).

Lemma everything_available : all_available everything {["topic"]}.
Proof.
  split.
  - intros name [Hin%bool_decide_eq_true|Hp]%orb_true_iff.
    + assert (H : forallb (λ name, is_some (find_variable everything name)) VARIABLES = true) by (vm_compute; reflexivity).
      rewrite forallb_forall in H. apply list_elem_of_In, H in Hin. destruct (find_variable everything name) as [value|]; [by exists value|done].
    + unfold find_variable. destruct (everything !! name) as [value|]; [by exists value|]. rewrite Hp.
      exists "item". vm_compute. reflexivity.
  - intros name ->%elem_of_singleton. exists "locks". vm_compute. reflexivity.
Qed.

Lemma validated_witness :
  let number := integer_numbers in ∃ text, interpolate "on ${input.topic}" everything = Some (Ok text).
Proof.
  intros number.
  apply (validated_values_interpolate everything {["topic"]} (Array [Str "plain"; Object [("say", Str "on ${input.topic}")]])).
  - vm_compute. reflexivity.
  - apply everything_available.
  - right. left.
Defined.

Lemma duration_witness : parse_duration "90s" = Ok 90000%Z ∧ parse_duration "99999999999999999d" = Err (mkSt3Error "invalid-duration" "the duration is too large").
Proof.
  split.
  - refine (eq_trans (durations_read_back 90 "s" 1000 _ _) _); [vm_compute; split; intros [=]|do 1 right; left|reflexivity].
  - refine (eq_trans (durations_read_back 99999999999999999 "d" 86400000 _ _) _); [vm_compute; split; intros [=]|do 4 right; left|reflexivity].
Defined.
