(* ===== verification/PersonRequest.v ===== *)
(** * Person requests

    Models [crates/st3/src/person_request.rs]: which structured requests are accepted, and what is recorded for the
    answer of a person. The derived readers and writers of JSON are not modelled: a request is the
    record they yield. The text an answer is trimmed to and the characters it is counted in are
    those of [Utf8]. *)

From Stdlib Require Import Ascii.
From S2P Require Import Prelude Text Bytes Json Utf8 Mission.

Definition REQUEST_VERSION : Z := 1.
Definition MAX_ANSWERS : nat := 5.
Definition MAX_REASONS : nat := 8.
Definition MAX_SUBJECTS : nat := 12.
Definition MAX_CONDITIONS : nat := 6.
Definition MAX_LINE : nat := 600.
Definition MAX_TEXT : nat := 8000.
Definition SUBJECT_KINDS : list string :=
  ["pull_request"; "issue"; "document"; "mission"; "run"; "step"; "agent"; "host"; "commit"; "link"].

Inductive RequestType := Decision | Choice | Feedback | Update.
Inductive DecisionOutcome := Accept | Decline | RequestChanges.

#[export] Instance RequestType_eq_dec : EqDecision RequestType.
Proof. solve_decision. Defined.
#[export] Instance DecisionOutcome_eq_dec : EqDecision DecisionOutcome.
Proof. solve_decision. Defined.

Definition RequestType_as_str (t : RequestType) : string :=
  match t with Decision => "decision" | Choice => "choice" | Feedback => "feedback" | Update => "update" end.

Record Recommendation := mkRecommendation { rc_answer : string; rc_reason : string }.

Record RequestSubject := mkSubject {
  sb_kind : string;
  sb_label : string;
  sb_reference : option string;
  sb_url : option string;
  sb_revision : option string
}.

Record AnswerOption := mkAnswer {
  an_id : string;
  an_label : string;
  an_consequence : string;
  an_outcome : option DecisionOutcome;
  an_conditions : list string
}.

Record StructuredRequest := mkRequest {
  rq_version : Z;
  rq_type : RequestType;
  rq_question : option string;
  rq_why_person : option string;
  rq_about : option string;
  rq_summary : option string;
  rq_reasons : list string;
  rq_recommendation : option Recommendation;
  rq_subjects : list RequestSubject;
  rq_answers : list AnswerOption;
  rq_custom : bool
}.

Record AnswerInput := mkInput { in_id : option string; in_text : option string }.

Definition invalid (message : string) : St3Error := mkSt3Error "invalid-person-request" message.
Definition invalid_answer (message : string) : St3Error := mkSt3Error "invalid-person-answer" message.

(** [chars().count()]. *)
Definition char_count (s : string) : nat := length (chars (bytes_of s)).

Definition line (name value : string) : result St3Error unit :=
  if str_eqb (trim value) "" then Err (invalid (name +:+ " must not be empty"))
  else if (MAX_LINE <? char_count value) then Err (invalid (name +:+ " must be at most 600 characters"))
  else Ok tt.

Definition answer_id (id : string) : bool :=
  match bytes_of id with
  | [] => false
  | first :: _ =>
      (String.length id <=? 48) && in_range 97 122 first
      && forallb (λ b, in_range 97 122 b || in_range 48 57 b || bool_decide (b = "-"%char)) (bytes_of id)
  end.

(** A loop of checks that stops at the first error. *)
Fixpoint check_all {A} (check : A → result St3Error unit) (l : list A) : result St3Error unit :=
  match l with
  | [] => Ok tt
  | x :: l => let? _ := check x in check_all check l
  end.

Definition check_some (name : string) (value : option string) : result St3Error unit :=
  match value with Some value => line name value | None => Ok tt end.

Definition refuse_if (bad : bool) (message : string) : result St3Error unit := if bad then Err (invalid message) else Ok tt.

Definition validate_question (r : StructuredRequest) : result St3Error unit :=
  if bool_decide (rq_type r = Update) then
    let? _ := refuse_if (is_some (rq_question r) || is_some (rq_why_person r)) "an update asks nothing: it has no question or why_person" in
    line "about (the run, step or message where the person asked)" (default "" (rq_about r))
  else
    let? _ := line "question" (default "" (rq_question r)) in
    let? _ := line "why_person" (default "" (rq_why_person r)) in
    refuse_if (is_some (rq_about r)) "only an update names what it is about".

Definition validate_subject (s : RequestSubject) : result St3Error unit :=
  let? _ := refuse_if (negb (bool_decide (sb_kind s ∈ SUBJECT_KINDS)))
              ("subject kind `" +:+ sb_kind s +:+ "` is not one of " +:+ join ", " SUBJECT_KINDS) in
  let? _ := line "a subject label" (sb_label s) in
  let? _ := refuse_if (is_none (sb_reference s) && is_none (sb_url s)) ("subject `" +:+ sb_label s +:+ "` needs a ref or a url") in
  let? _ := refuse_if (is_some_and (sb_url s) (λ url, negb (starts_with "https://" url || starts_with "http://" url)))
              ("subject `" +:+ sb_label s +:+ "` url must be http or https") in
  let? _ := check_some "subject ref" (sb_reference s) in
  check_some "subject revision" (sb_revision s).

(** One answer, with the IDs before it. *)
Definition validate_answer (ids : list string) (a : AnswerOption) : result St3Error unit :=
  let? _ := refuse_if (negb (answer_id (an_id a)))
              ("answer id `" +:+ an_id a +:+ "` must be lowercase letters, digits and dashes, starting with a letter") in
  let? _ := refuse_if (bool_decide (an_id a ∈ ids)) ("answer id `" +:+ an_id a +:+ "` repeats") in
  let? _ := line "an answer label" (an_label a) in
  let? _ := line "an answer consequence" (an_consequence a) in
  let? _ := refuse_if (MAX_CONDITIONS <? length (an_conditions a)) "at most 6 conditions per answer" in
  check_all (line "a condition") (an_conditions a).

Fixpoint validate_answers (ids : list string) (l : list AnswerOption) : result St3Error unit :=
  match l with
  | [] => Ok tt
  | a :: l => let? _ := validate_answer ids a in validate_answers (ids ++ [an_id a]) l
  end.

Definition outcomes (r : StructuredRequest) (outcome : DecisionOutcome) : list AnswerOption :=
  List.filter (λ a, bool_decide (an_outcome a = Some outcome)) (rq_answers r).

Definition validate_type (r : StructuredRequest) : result St3Error unit :=
  match rq_type r with
  | Decision =>
      let? _ := refuse_if (existsb (λ a, is_none (an_outcome a)) (rq_answers r)
                       || negb (length (outcomes r Accept) =? 1) || negb (length (outcomes r Decline) =? 1)
                       || (1 <? length (outcomes r RequestChanges)))
                  "a decision names one accept answer, one decline answer and at most one request_changes answer" in
      refuse_if (rq_custom r) "only a choice takes a custom answer"
  | Choice =>
      let? _ := refuse_if (negb ((2 <=? length (rq_answers r)) && (length (rq_answers r) <=? MAX_ANSWERS))) "a choice names 2 to 5 options" in
      refuse_if (existsb (λ a, is_some (an_outcome a)) (rq_answers r)) "choice options have no outcome"
  | Feedback =>
      refuse_if (negb (bool_decide (length (rq_answers r) = 0)) || rq_custom r || is_some (rq_recommendation r))
        "feedback asks for text: it has no answers, custom answer or recommendation"
  | Update =>
      refuse_if (negb (bool_decide (length (rq_answers r) = 0)) || rq_custom r || is_some (rq_recommendation r)
             || negb (bool_decide (length (rq_reasons r) = 0)))
        "an update asks nothing: it has no answers, reasons or recommendation"
  end.

Definition validate (r : StructuredRequest) : result St3Error unit :=
  let? _ := refuse_if (negb (rq_version r =? REQUEST_VERSION)%Z) "this daemon reads request version 1" in
  let? _ := validate_question r in
  let? _ := check_some "summary" (rq_summary r) in
  let? _ := refuse_if (MAX_REASONS <? length (rq_reasons r)) "at most 8 reasons" in
  let? _ := check_all (line "a reason") (rq_reasons r) in
  let? _ := refuse_if (MAX_SUBJECTS <? length (rq_subjects r)) "at most 12 subjects" in
  let? _ := check_all validate_subject (rq_subjects r) in
  let? _ := validate_answers [] (rq_answers r) in
  let? _ := validate_type r in
  match rq_recommendation r with
  | None => Ok tt
  | Some c =>
      let? _ := refuse_if (negb (bool_decide (rc_answer c ∈ map an_id (rq_answers r))))
                  ("the recommendation names `" +:+ rc_answer c +:+ "`, which is not one of the answers") in
      line "the recommendation reason" (rc_reason c)
  end.

(** ** Answers *)

Definition answer_ids (r : StructuredRequest) : string :=
  join ", " (map an_id (rq_answers r) ++ if bool_decide (rq_type r = Choice) && rq_custom r then ["or custom text"] else []).

Section answers.
Context `{NumberApi}.

Definition update_answer (input : option AnswerInput) : result St3Error Value :=
  if is_some_and input (λ input, is_some (in_text input) || is_some_and (in_id input) (λ id, negb (str_eqb id "read")))
  then Err (invalid_answer "an update takes no answer; it is only read. Reply in a conversation")
  else Ok (Object [("type", Str "update"); ("outcome", Str "read")]).

Definition answer_input (r : StructuredRequest) (input : option AnswerInput) (summary : string) : result St3Error AnswerInput :=
  match input with
  | Some input => Ok input
  | None =>
      if bool_decide (rq_type r = Feedback) && negb (str_eqb (trim summary) "") then Ok (mkInput None (Some summary))
      else Err (mkSt3Error "answer-required"
                  ("this " +:+ RequestType_as_str (rq_type r) +:+ " needs one of its named answers: " +:+ answer_ids r))
  end.

(** The text, trimmed, when anything is left of it. *)
Definition answer_text (input : AnswerInput) : option string :=
  match trim <$> in_text input with
  | Some text => if str_eqb text "" then None else Some text
  | None => None
  end.

Definition text_field (text : option string) : list (string * Value) := match text with Some text => [("text", Str text)] | None => [] end.

Definition named_answer (r : StructuredRequest) (id : string) (text : option string) : result St3Error Value :=
  match List.find (λ a, str_eqb (an_id a) id) (rq_answers r) with
  | None => Err (invalid_answer ("`" +:+ id +:+ "` is not one of this request's answers: " +:+ answer_ids r))
  | Some option =>
      let? outcome :=
        match an_outcome option with
        | Some Accept => Ok "accept"
        | Some Decline => Ok "decline"
        | Some RequestChanges =>
            if is_none text then Err (invalid_answer "requesting changes needs text naming the changes") else Ok "request_changes"
        | None => Ok "selected"
        end in
      Ok (Object ([("type", Str (RequestType_as_str (rq_type r))); ("outcome", Str outcome); ("id", Str (an_id option));
                   ("label", Str (an_label option))] ++ text_field text))
  end.

Definition spoken_answer (r : StructuredRequest) (outcome missing : string) (text : option string) : result St3Error Value :=
  match text with
  | None => Err (invalid_answer missing)
  | Some text => Ok (Object [("type", Str (RequestType_as_str (rq_type r))); ("outcome", Str outcome); ("text", Str text)])
  end.

(** [None] is [unreachable!]. *)
Definition answer (r : StructuredRequest) (input : option AnswerInput) (summary : string) : option (result St3Error Value) :=
  if bool_decide (rq_type r = Update) then Some (update_answer input)
  else
    match answer_input r input summary with
    | Err e => Some (Err e)
    | Ok input =>
        let text := answer_text input in
        if is_some_and text (λ text, MAX_TEXT <? char_count text)
        then Some (Err (invalid_answer "answer text must be at most 8000 characters"))
        else
          match rq_type r, in_id input with
          | Update, _ => None
          | Feedback, Some _ => Some (Err (invalid_answer "feedback has no named answers; send text"))
          | Feedback, None => Some (spoken_answer r "feedback" "feedback needs text" text)
          | Choice, None =>
              if negb (rq_custom r)
              then Some (Err (mkSt3Error "answer-required" ("this choice needs one of its options: " +:+ answer_ids r)))
              else Some (spoken_answer r "custom" "a custom answer needs text" text)
          | Decision, None =>
              Some (Err (mkSt3Error "answer-required" ("this decision needs one of its named answers: " +:+ answer_ids r)))
          | _, Some id => Some (named_answer r id text)
          end
    end.

(** [answer["name"].as_str()]; a missing field is null. *)
Definition str_field (name : string) (v : Value) : option string := get name v ≫= as_str.

Definition answer_summary (v : Value) : string :=
  match str_field "label" v, str_field "text" v with
  | Some label, Some text => label +:+ ": " +:+ text
  | Some label, None => label
  | None, Some text => text
  | None, None => match str_field "outcome" v with Some "read" => "Read" | _ => "" end
  end.
End answers.

(** ** What acceptance gives *)

Lemma refuse_if_Ok bad message : refuse_if bad message = Ok tt ↔ bad = false.
Proof. by destruct bad. Qed.

Lemma bind_Ok_unit {E A} (m : result E unit) (k : result E A) a : (let? _ := m in k) = Ok a ↔ m = Ok tt ∧ k = Ok a.
Proof. destruct m as [[]|e]; cbn; [naive_solver|]. split; [done|by intros [? _]]. Qed.

Lemma validate_answers_ids l : ∀ ids,
  validate_answers ids l = Ok tt → NoDup (map an_id l) ∧ ∀ id, id ∈ map an_id l → id ∉ ids.
Proof.
  induction l as [|a l IH]; intros ids; cbn [validate_answers map]; [by split; [constructor|intros id ?%elem_of_nil]|].
  intros [Ha Hl]%bind_Ok_unit. destruct (IH _ Hl) as [Hnd Hdis]. unfold validate_answer in Ha.
  apply bind_Ok_unit in Ha as [_ Ha]. apply bind_Ok_unit in Ha as [Hr%refuse_if_Ok _]. apply bool_decide_eq_false in Hr. split.
  - apply NoDup_cons. split; [|done]. intros Hin. apply (Hdis _ Hin). apply elem_of_app. right. left.
  - intros id [->|Hid]%elem_of_cons; [done|]. intros Hin. apply (Hdis id Hid). apply elem_of_app. by left.
Qed.

Lemma validate_Ok r : validate r = Ok tt → NoDup (map an_id (rq_answers r)) ∧ validate_type r = Ok tt.
Proof.
  unfold validate. intros H. do 7 apply bind_Ok_unit in H as [_ H]. apply bind_Ok_unit in H as [Ha H]. apply bind_Ok_unit in H as [Ht _].
  split; [by apply (validate_answers_ids _ [])|done].
Qed.

Lemma one_outcome r outcome :
  length (outcomes r outcome) = 1 →
  ∃ o, o ∈ rq_answers r ∧ an_outcome o = Some outcome ∧ ∀ a, a ∈ rq_answers r → an_outcome a = Some outcome → a = o.
Proof.
  destruct (outcomes r outcome) as [|o [|]] eqn:E; try done. intros _.
  assert (Hin : ∀ a, a ∈ outcomes r outcome ↔ a ∈ rq_answers r ∧ an_outcome a = Some outcome)
    by (intros a; unfold outcomes; by rewrite lfilter_elem, bool_decide_eq_true).
  rewrite E in Hin. exists o. destruct (proj1 (Hin o)) as [H1 H2]; [left|]. split_and!; [done..|]. intros a Ha Ho.
  by apply list_elem_of_singleton, Hin.
Qed.

Lemma decision_outcomes r :
  validate r = Ok tt → rq_type r = Decision →
  (∀ a, a ∈ rq_answers r → is_Some (an_outcome a)) ∧ length (outcomes r Accept) = 1 ∧ length (outcomes r Decline) = 1.
Proof.
  intros [_ Ht]%validate_Ok Hd. unfold validate_type in Ht. rewrite Hd in Ht. apply bind_Ok_unit in Ht as [Ht%refuse_if_Ok _].
  apply orb_false_iff in Ht as [[[H1 H2%negb_false_iff]%orb_false_iff H3%negb_false_iff]%orb_false_iff _].
  apply Nat.eqb_eq in H2, H3. split_and!; [|done|done]. intros a Ha. destruct (an_outcome a) as [o|] eqn:Eo; [by exists o|]. exfalso.
  rewrite <- not_true_iff_false in H1. apply H1, existsb_exists. exists a. rewrite Eo. split; [by apply list_elem_of_In|done].
Qed.

Section recorded.
Context `{NumberApi}.

Lemma find_answer r id a :
  NoDup (map an_id (rq_answers r)) → a ∈ rq_answers r → an_id a = id → List.find (λ a, str_eqb (an_id a) id) (rq_answers r) = Some a.
Proof.
  intros Hnd Hin <-. induction (rq_answers r) as [|x l IH]; [by apply elem_of_nil in Hin|]. cbn in *. apply NoDup_cons in Hnd as [Hn Hnd].
  apply elem_of_cons in Hin as [->|Hin]; [by rewrite str_eqb_refl|]. destruct (str_eqb (an_id x) (an_id a)) eqn:E; [|by apply IH].
  apply str_eqb_true in E. destruct Hn. rewrite E. apply list_elem_of_fmap. by exists a.
Qed.

(** What a named answer records. *)
Lemma named_answer_Ok r id text v :
  named_answer r id text = Ok v →
  ∃ o, o ∈ rq_answers r ∧ an_id o = id ∧ str_field "id" v = Some id ∧ str_field "label" v = Some (an_label o) ∧
    str_field "outcome" v = Some (match an_outcome o with Some Accept => "accept" | Some Decline => "decline"
                                  | Some RequestChanges => "request_changes" | None => "selected" end) ∧
    str_field "text" v = text ∧ (an_outcome o = Some RequestChanges → is_Some text).
Proof.
  unfold named_answer. destruct (List.find _ _) as [o|] eqn:Ef; [|done]. apply List.find_some in Ef as [Hin <-%str_eqb_true]. intros Hv.
  exists o. split; [by apply list_elem_of_In|].
  destruct (an_outcome o) as [[]|], text; try done; injection Hv as <-; split_and!; try done; by eexists.
Qed.

Lemma decision_answer r input summary v :
  rq_type r = Decision → answer r input summary = Some (Ok v) →
  ∃ i id, input = Some i ∧ in_id i = Some id ∧ named_answer r id (answer_text i) = Ok v.
Proof.
  intros Hd. unfold answer. rewrite Hd. cbn [bool_decide]. rewrite bool_decide_false by done. unfold answer_input. rewrite Hd.
  destruct input as [i|]; [|rewrite bool_decide_false by done; done].
  destruct (is_some_and _ _); [done|]. destruct (in_id i) as [id|] eqn:Ei; [|done]. intros [= E]. by exists i, id.
Qed.

Lemma decision_names r i id :
  rq_type r = Decision → in_id i = Some id → is_some_and (answer_text i) (λ text, MAX_TEXT <? char_count text) = false →
  answer r (Some i) "" = Some (named_answer r id (answer_text i)).
Proof.
  intros Hd Hi Ht. unfold answer. rewrite Hd, bool_decide_false by done. cbn [answer_input]. by rewrite Ht, Hi.
Qed.
(** The [unreachable!] is. *)
Lemma answer_total r input summary : is_Some (answer r input summary).
Proof.
  unfold answer. case_bool_decide as Hu; [by eexists|]. destruct (answer_input r input summary) as [i|e]; [|by eexists].
  destruct (is_some_and _ _); [by eexists|]. destruct (rq_type r), (in_id i); try done; try by eexists. destruct (negb _); by eexists.
Qed.

Lemma answer_text_shown input text : answer_text input = Some text → text ≠ "".
Proof.
  unfold answer_text. destruct (trim <$> in_text input) as [t|]; [|done]. destruct (str_eqb t "") eqn:E; [done|]. intros [= ->] ->.
  by rewrite str_eqb_refl in E.
Qed.

(** Words of the person are recorded as they trim, and shown in the history when no label is. *)
Lemma spoken_answer_shown r outcome missing input v :
  spoken_answer r outcome missing (answer_text input) = Ok v →
  ∃ text, answer_text input = Some text ∧ answer_summary v = text ∧ text ≠ "".
Proof.
  unfold spoken_answer. destruct (answer_text input) as [text|] eqn:E; [|done]. intros [= <-]. exists text. split_and!; [done..|].
  by apply answer_text_shown in E.
Qed.

(** An update is recorded as read or refused; nothing else is ever recorded for it. *)
Lemma update_only_read r input summary v :
  rq_type r = Update → answer r input summary = Some (Ok v) →
  str_field "outcome" v = Some "read" ∧ answer_summary v = "Read" ∧ (input ≫= in_text) = None.
Proof.
  intros Hu. unfold answer. rewrite Hu, bool_decide_true by done. unfold update_answer. destruct input as [[id text]|]; cbn.
  - destruct text; cbn; [done|]. destruct id as [id|]; cbn; [destruct (negb _)|]; try done; by intros [= <-].
  - by intros [= <-].
Qed.
End recorded.

(** C35. A decision cannot be misread: an accepted decision offers exactly one answer declared to accept
    and exactly one declared to decline, under different names; both can be given without words, and
    whatever is recorded is one of the answers offered, by its own name and label, as accepting exactly
    when the person named the one that accepts and as declining exactly when they named the one that
    declines; anything else asks for changes, in words. Prose alone is never recorded as an answer. *)
Theorem decisions_cannot_be_misread `{NumberApi} r :
  validate r = Ok tt → rq_type r = Decision →
  ∃ yes no,
    (∀ a, a ∈ rq_answers r ∧ an_outcome a = Some Accept ↔ a = yes) ∧
    (∀ a, a ∈ rq_answers r ∧ an_outcome a = Some Decline ↔ a = no) ∧
    an_id yes ≠ an_id no ∧
    is_Some (answer r (Some (mkInput (Some (an_id yes)) None)) "" ≫= λ v, match v with Ok v => str_field "label" v | Err _ => None end) ∧
    is_Some (answer r (Some (mkInput (Some (an_id no)) None)) "" ≫= λ v, match v with Ok v => str_field "label" v | Err _ => None end) ∧
    ∀ input summary v, answer r input summary = Some (Ok v) →
      ∃ o, o ∈ rq_answers r ∧ (input ≫= in_id) = Some (an_id o) ∧
        str_field "id" v = Some (an_id o) ∧ str_field "label" v = Some (an_label o) ∧
        (str_field "outcome" v = Some "accept" ↔ o = yes) ∧ (str_field "outcome" v = Some "decline" ↔ o = no) ∧
        (o ≠ yes → o ≠ no → str_field "outcome" v = Some "request_changes" ∧ is_Some (str_field "text" v)).
Proof.
  intros Hv Hd. destruct (validate_Ok r Hv) as [Hnd _]. destruct (decision_outcomes r Hv Hd) as (Hall & Ha & Hn).
  destruct (one_outcome r Accept Ha) as (yes & Hyes & Oyes & Uyes). destruct (one_outcome r Decline Hn) as (no & Hno & Ono & Uno).
  assert (Hby : ∀ a b, a ∈ rq_answers r → b ∈ rq_answers r → an_id a = an_id b → a = b).
  { intros a b Hia Hib E. pose proof (find_answer r (an_id a) a Hnd Hia eq_refl) as F1. pose proof (find_answer r (an_id a) b Hnd Hib (eq_sym E)) as F2. congruence. }
  assert (Hgive : ∀ a, a ∈ rq_answers r → an_outcome a = Some Accept ∨ an_outcome a = Some Decline →
    is_Some (answer r (Some (mkInput (Some (an_id a)) None)) "" ≫= λ v, match v with Ok v => str_field "label" v | Err _ => None end)).
  { intros a Hia Ho. rewrite (decision_names r _ (an_id a)) by done. unfold named_answer. rewrite (find_answer r (an_id a) a) by done.
    exists (an_label a). by destruct Ho as [->| ->]. }
  exists yes, no. split_and!; [intros a; split; [intros [? ?]; by apply Uyes|by intros ->]
    |intros a; split; [intros [? ?]; by apply Uno|by intros ->]| |by apply Hgive; auto|by apply Hgive; auto|].
  - intros E. apply Hby in E; [congruence|done..].
  - intros input summary v Hans. destruct (decision_answer r input summary v Hd Hans) as (i & id & -> & Hi & Hnamed).
    destruct (named_answer_Ok r id _ v Hnamed) as (o & Ho & <- & Hid & Hlab & Hout & Htext & Hch). exists o. rewrite Hout, Htext.
    destruct (Hall o Ho) as [oc Eo]. rewrite Eo in *. split_and!; [done..| | |].
    + split; [|intros ->; by rewrite Oyes in Eo; injection Eo as <-]. intros Hacc. destruct oc; try done. by apply Uyes.
    + split; [|intros ->; by rewrite Ono in Eo; injection Eo as <-]. intros Hacc. destruct oc; try done. by apply Uno.
    + intros Hny Hnn. destruct oc; [by destruct Hny; apply Uyes|by destruct Hnn; apply Uno|]. split; [done|by apply Hch].
Qed.

#[local] Existing Instance integer_numbers.

Definition merge_request : StructuredRequest :=
  mkRequest 1 Decision (Some "Merge the fix?") (Some "only you own the release") None None ["it fixes the outage"] None
    [mkSubject "pull_request" "The fix" (Some "12") None None]
    [mkAnswer "merge" "Merge it" "the fix ships" (Some Accept) []; mkAnswer "wait" "Wait" "nothing ships" (Some Decline) [];
     mkAnswer "change" "Change it" "the author edits it" (Some RequestChanges) []] false.

Lemma misread_witness :
  validate merge_request = Ok tt ∧
  ∀ input summary v, answer merge_request input summary = Some (Ok v) →
    str_field "outcome" v = Some "accept" ↔ (input ≫= in_id) = Some "merge".
Proof.
  split; [by vm_compute|].
  destruct (decisions_cannot_be_misread merge_request) as (yes & no & Hy & Hn & Hne & _ & _ & H); [by vm_compute|done|].
  assert (mkAnswer "merge" "Merge it" "the fix ships" (Some Accept) [] = yes) as <- by (apply Hy; split; [left|done]).
  intros input summary v Hv. destruct (H input summary v Hv) as (o & Ho & Hi & _ & _ & Ha & _). rewrite Hi, Ha.
  split; [by intros ->|]. intros [= E]. cbn in Ho. repeat (apply elem_of_cons in Ho as [->|Ho]; [done|]). by apply elem_of_nil in Ho.
Defined.
