(* ===== verification/Mailbox.v ===== *)
(** * Whose mailbox it is

    Models the reads of [crates/st3/src/store.rs] that decide whether a harness session is a seat's live one: the
    harness state a person is shown ([current_harness_at]) and the shorter read that fences a
    mailbox ([mailbox_harness_ended]), which is proved to say the same. A claim row carries its
    canonical key, and a query lists rows in canonical order ([Canonical]). The text SQLite gives for an
    array or an object is a parameter. *)

From S2P Require Import Prelude StableSort Text Bytes Json Order BTree Slices Canonical Mission.

(** A row of [claims], with its key; the key has its ID and its time. *)
Record Row `{NumberApi} := mkRow {
  rw_key : ClaimKey;
  rw_subject : string;
  rw_kind : string;
  rw_actor : option string;
  rw_body : Value;
  rw_index : Z
}.
#[global] Arguments mkRow {_} _ _ _ _ _ _.

Record Fence := mkFence {
  fe_subject : string;
  fe_incarnation : string;
  fe_component : string;
  fe_epoch : Z;
  fe_token : string
}.

Definition i64_max : Z := 2 ^ 63 - 1.

(** [a > b] on keys. *)
Definition key_gt (a b : ClaimKey) : bool := match key_compare a b with Gt => true | _ => false end.

(** A JSON value as [json_extract] gives it. *)
Inductive Sql := SqlNull | SqlText (s : string) | SqlNumber.

#[export] Instance Sql_eq_dec : EqDecision Sql.
Proof. solve_decision. Defined.

(** [CurrentHarnessView] *)
Record CurrentHarness := mkHarness {
  ch_state : string;
  ch_driver : option string;
  ch_incarnation_id : string;
  ch_transport : option string;
  ch_reason : option string;
  ch_blocked_on : option string;
  ch_ask : option string;
  ch_input_buffer : option string;
  ch_exit : option string;
  ch_claim : string;
  ch_observed_at_unix_ms : Z
}.

Section reads.
Context `{NumberApi} (json_text : Value → string).

Definition json_extract (v : option Value) : Sql :=
  match v with
  | None | Some Null => SqlNull
  | Some (Str s) => SqlText s
  | Some (Bool _) | Some (Num _) => SqlNumber
  | Some v => SqlText (json_text v)
  end.

(** [body.get("fields").unwrap_or(&body)]; in SQL the path is chosen by whether [$.fields] is there. *)
Definition fields_of (body : Value) : Value := default body (get "fields" body).

Definition str_of_field (name : string) (fields : Value) : option string := get name fields ≫= as_str.

Definition incarnation_of_claim (r : Row) : Sql := json_extract (get "incarnation_id" (fields_of (rw_body r))).

Definition state_of (r : Row) : option string := str_of_field "state" (fields_of (rw_body r)).

(** [ORDER BY CANONICAL_DESC] *)
Definition newer (a b : Row) : bool := negb (key_gt (rw_key b) (rw_key a)).
Definition canonical_desc (rows : list Row) : list Row := sort_by newer rows.

Definition select (p : Row → bool) (rows : list Row) : list Row := List.filter p (canonical_desc rows).

(** ** The queries *)

Definition newest_claims_of_kind (kind subject : string) (at_index : Z) (rows : list Row) : list Row :=
  select (λ r, str_eqb (rw_subject r) subject && str_eqb (rw_kind r) kind && (rw_index r <=? at_index)%Z) rows.

Definition harness_observations_of_incarnation (subject : string) (at_index : Z) (incarnation : string) (rows : list Row) : list Row :=
  select (λ r, str_eqb (rw_subject r) subject && bool_decide (incarnation_of_claim r = SqlText incarnation)
               && str_eqb (rw_kind r) "harness.observed" && (rw_index r <=? at_index)%Z) rows.

(** [accepted_at_unix_ms], decimal text, is at least [since]. *)
Definition accepted_since (since : string) (r : Row) : bool :=
  let accepted := u_to_string (ck_time (rw_key r)) in
  (String.length since <? String.length accepted)
  || (String.length accepted =? String.length since) && String.leb since accepted.

Definition harness_observations_without_incarnation (subject : string) (at_index : Z) (since : string) (rows : list Row) : list Row :=
  select (λ r, str_eqb (rw_subject r) subject && str_eqb (rw_kind r) "harness.observed" && (rw_index r <=? at_index)%Z
               && accepted_since since r
               && match incarnation_of_claim r with SqlText _ => false | _ => true end) rows.

(** [IS ?2]: the incarnation when it is a JSON string, and null otherwise. *)
Definition incarnation_text (r : Row) : option string := str_of_field "incarnation_id" (fields_of (rw_body r)).

Definition newest_mailbox_harness_state (subject : string) (incarnation : option string) (rows : list Row) : option (Row * string) :=
  match select (λ r, str_eqb (rw_subject r) subject && str_eqb (rw_kind r) "harness.observed" && is_some (state_of r)
                     && ostr_eqb (incarnation_text r) incarnation) rows with
  | [] => None
  | r :: _ => match state_of r with Some state => Some (r, state) | None => None end
  end.

Definition PROMPT_CODES : list string := ["provider-auth-expired"; "provider-auth-restored"; "provider-trust-prompt"].

Definition code_of (r : Row) : Sql := json_extract (pointer2 "fields" "code" (rw_body r)).

Definition prompt_claims (subject incarnation : string) (rows : list Row) : list Row :=
  select (λ r, str_eqb (rw_subject r) subject && str_eqb (rw_kind r) "harness.diagnostic"
               && bool_decide (code_of r ∈ map SqlText PROMPT_CODES)
               && bool_decide (json_extract (pointer2 "fields" "incarnation_id" (rw_body r)) = SqlText incarnation)) rows.

Definition work_claims (subject incarnation : string) (rows : list Row) : list Row :=
  select (λ r, bool_decide (rw_actor r = Some subject) && bool_decide (rw_kind r ∈ ["work.claimed"; "work.progress"])
               && bool_decide (json_extract (pointer2 "fields" "claim_incarnation" (rw_body r)) = SqlText incarnation)) rows.

(** ** The displayed state *)

Definition OPTIONAL : list string := ["driver"; "transport"; "reason"; "blocked_on"; "ask"; "input_buffer"; "exit"].

Definition read_optional (fields : Value) (optional : gmap string (option string)) : gmap string (option string) :=
  fold_left (λ optional name,
    match optional !! name, get name fields with
    | None, Some value => <[name := as_str value]> optional
    | _, _ => optional
    end) OPTIONAL optional.

(** The rows the loop draws from the two queries, newest first: a row without an incarnation is drawn when its
    key is greater. *)
Fixpoint draw (named : list Row) : list Row → list Row :=
  fix draw_unnamed unnamed :=
    match named, unnamed with
    | [], _ => unnamed
    | _, [] => named
    | n :: named', u :: unnamed' =>
        if key_gt (rw_key u) (rw_key n) then u :: draw_unnamed unnamed' else n :: draw named' unnamed
    end.

Fixpoint fold_observations (rows : list Row) (current : option (string * Row)) (optional : gmap string (option string)) :
    option (string * Row) * gmap string (option string) :=
  match rows with
  | [] => (current, optional)
  | r :: rows =>
      let current := match current with Some _ => current | None => (λ state, (state, r)) <$> state_of r end in
      let optional := read_optional (fields_of (rw_body r)) optional in
      if is_some current && (size optional =? 7) then (current, optional) else fold_observations rows current optional
  end.

Definition unnamed_observations (subject : string) (at_index : Z) (runtime_key : ClaimKey) (rows : list Row) : list Row :=
  sort_by newer
    (List.filter (λ r, key_gt (rw_key r) runtime_key)
       (harness_observations_without_incarnation subject at_index (u_to_string (ck_time runtime_key)) rows)).

Definition prompted (incarnation code : string) (r : Row) : CurrentHarness :=
  let '(state, reason) :=
    if str_eqb code "provider-trust-prompt" then ("blocked", "providerTrustPrompt") else ("unauthenticated", "providerAuth") in
  mkHarness state (Some "claude") incarnation (Some "claude-channel") (Some reason) (Some "human") None None None
    (ck_id (rw_key r)) (ck_time (rw_key r)).

(** The newest prompt of the incarnation, unless its login was restored. *)
Definition prompt_rejection (claims : list Row) : option (string * Row) :=
  match claims with
  | r :: _ => match code_of r with
              | SqlText code => if str_eqb code "provider-auth-restored" then None else Some (code, r)
              | _ => None
              end
  | [] => None
  end.

Definition harness_of_incarnation (subject incarnation : string) (runtime_key : ClaimKey) (at_index : Z) (rows : list Row) :
    option CurrentHarness :=
  let at_or_before := List.filter (λ r, (rw_index r <=? at_index)%Z) in
  match prompt_rejection (at_or_before (prompt_claims subject incarnation rows)) with
  | Some (code, r) => Some (prompted incarnation code r)
  | None =>
      let '(current, optional) :=
        fold_observations
          (draw (harness_observations_of_incarnation subject at_index incarnation rows)
                (unnamed_observations subject at_index runtime_key rows)) None ∅ in
      let field name := default None (optional !! name) in
      match head (at_or_before (work_claims subject incarnation rows)) with
      | Some work =>
          if key_gt (rw_key work) runtime_key && is_none_or current (λ c, key_gt (rw_key work) (rw_key c.2))
          then Some (mkHarness "working" (field "driver") incarnation (field "transport") None None None None None
                       (ck_id (rw_key work)) (ck_time (rw_key work)))
          else (λ c, mkHarness c.1 (field "driver") incarnation (field "transport") (field "reason") (field "blocked_on") (field "ask")
                       (field "input_buffer") (field "exit") (ck_id (rw_key c.2)) (ck_time (rw_key c.2))) <$> current
      | None =>
          (λ c, mkHarness c.1 (field "driver") incarnation (field "transport") (field "reason") (field "blocked_on") (field "ask")
                  (field "input_buffer") (field "exit") (ck_id (rw_key c.2)) (ck_time (rw_key c.2))) <$> current
      end
  end.

Definition current_harness_at (subject : string) (at_index : option Z) (rows : list Row) : option CurrentHarness :=
  let at_index := default i64_max at_index in
  match newest_claims_of_kind "runtime.observed" subject at_index rows with
  | [] => None
  | runtime :: _ =>
      let fields := fields_of (rw_body runtime) in
      if ostr_eqb (str_of_field "status" fields) (Some "running")
      then match str_of_field "incarnation_id" fields with
           | None => None
           | Some incarnation => harness_of_incarnation subject incarnation (rw_key runtime) at_index rows
           end
      else None
  end.

(** ** The fence's read *)

(** The newer of the two observations; one without an incarnation counts after the runtime's only. *)
Definition latest_harness_state (subject incarnation : string) (runtime_key : ClaimKey) (rows : list Row) : option (Row * string) :=
  let named := newest_mailbox_harness_state subject (Some incarnation) rows in
  match newest_mailbox_harness_state subject None rows with
  | Some (u, state) =>
      if key_gt (rw_key u) runtime_key && is_none_or named (λ n, key_gt (rw_key u) (rw_key n.1)) then Some (u, state) else named
  | None => named
  end.

Definition mailbox_harness_ended (subject incarnation : string) (runtime_key : ClaimKey) (rows : list Row) : bool :=
  match latest_harness_state subject incarnation runtime_key rows with
  | None => false
  | Some (harness, state) =>
      if negb (str_eqb state "ended") then false
      else
        let diagnostic := code_of <$> head (prompt_claims subject incarnation rows) in
        if is_some_and diagnostic (λ code, negb (bool_decide (code = SqlText "provider-auth-restored"))) then false
        else
          match head (work_claims subject incarnation rows) with
          | Some work => negb (key_gt (rw_key work) runtime_key && key_gt (rw_key work) (rw_key harness))
          | None => true
          end
  end.

Definition starting_error : St3Error := mkSt3Error "mailbox-session-starting" "waiting for the seat's running incarnation".
Definition not_live_error : St3Error := mkSt3Error "stale-mailbox-session" "this is not the seat's live incarnation".

Definition harness_starting (fence : Fence) (rows : list Row) : bool :=
  match newest_claims_of_kind "harness.observed" (fe_subject fence) i64_max rows with
  | [] => false
  | harness :: _ =>
      let fields := fields_of (rw_body harness) in
      ostr_eqb (str_of_field "state" fields) (Some "starting")
      && ostr_eqb (str_of_field "incarnation_id" fields) (Some (fe_incarnation fence))
  end.

Definition check_mailbox_incarnation (fence : Fence) (rows : list Row) : result St3Error unit :=
  let runtime := head (newest_claims_of_kind "runtime.observed" (fe_subject fence) i64_max rows) in
  let fields := match runtime with Some r => fields_of (rw_body r) | None => Null end in
  let status := str_of_field "status" fields in
  let incarnation := str_of_field "incarnation_id" fields in
  let live := ostr_eqb status (Some "running") && ostr_eqb incarnation (Some (fe_incarnation fence)) in
  let describes_another := negb (ostr_eqb incarnation (Some (fe_incarnation fence))) in
  if negb live && (describes_another || bool_decide (status ∈ [None; Some "starting"])) && harness_starting fence rows
  then Err starting_error
  else
    match runtime with
    | Some r =>
        if negb live || mailbox_harness_ended (fe_subject fence) (fe_incarnation fence) (rw_key r) rows
        then Err not_live_error else Ok tt
    | None => Err not_live_error
    end.
End reads.

(** ** The two reads agree *)

#[export] Instance key_compare_order : cmp_order key_compare.
Proof. unfold key_compare. derive_order. Qed.

Lemma key_gt_trans a b c : key_gt a b = true → key_gt c b = false → key_gt a c = true.
Proof.
  unfold key_gt. intros H1 H2. destruct (key_compare a c) eqn:E; [| |done]; exfalso.
  - rewrite (cmp_Eq_l key_compare a c b E) in H1. by destruct (key_compare c b).
  - assert (key_compare a b ≠ Gt) as Hn; [|by destruct (key_compare a b)].
    apply (cmp_trans key_compare a c b); [by rewrite E|by destruct (key_compare c b)].
Qed.

Lemma key_gt_time a b : key_gt a b = true → (ck_time b ≤ ck_time a)%Z.
Proof.
  unfold key_gt, key_compare. destruct (Z.compare_spec (ck_time a) (ck_time b)); cbn; intros; [lia|done|lia].
Qed.

Section lists.
Context {A : Type}.
Implicit Types (p q : A → bool) (l : list A).

Lemma find_lfilter p q l : List.find p (List.filter q l) = List.find (λ x, q x && p x) l.
Proof. induction l as [|x l IH]; cbn; [done|]. destruct (q x); cbn; [destruct (p x)|]; done. Qed.

Lemma head_lfilter p l : head (List.filter p l) = List.find p l.
Proof. induction l as [|x l IH]; cbn; [done|]. by destruct (p x). Qed.

Lemma find_ext p q l : (∀ x, x ∈ l → p x = q x) → List.find p l = List.find q l.
Proof.
  induction l as [|x l IH]; intros Hpq; cbn; [done|]. rewrite (Hpq x) by left. rewrite IH; [done|]. intros y Hy. apply Hpq. by right.
Qed.

Lemma sorted_lfilter (R : A → A → Prop) p l : StronglySorted R l → StronglySorted R (List.filter p l).
Proof.
  induction 1 as [|x l Hl IH Hx]; cbn; [constructor|]. destruct (p x); [|done]. constructor; [done|].
  apply Forall_forall. intros y [Hy _]%lfilter_elem. by apply (proj1 (Forall_forall _ _) Hx).
Qed.
End lists.

Section agree.
Context `{NumberApi} (json_text : Value → string).
Implicit Types (r : Row) (rows : list Row).

#[local] Abbreviation newest_first := (StronglySorted (λ a b : Row, newer a b = true)).

Lemma newer_total (a b : Row) : newer a b = true ∨ newer b a = true.
Proof.
  unfold newer, key_gt. rewrite (cmp_opp key_compare (rw_key a) (rw_key b)). destruct (key_compare _ _); cbn; auto.
Qed.
Lemma newer_trans (a b c : Row) : newer a b = true → newer b c = true → newer a c = true.
Proof.
  unfold newer. rewrite !negb_true_iff. intros Hab Hbc. destruct (key_gt (rw_key c) (rw_key a)) eqn:E; [|done].
  by rewrite (key_gt_trans _ _ _ E Hab) in Hbc.
Qed.

Lemma select_sorted p rows : newest_first (select p rows).
Proof. apply sorted_lfilter, sort_by_sorted; [apply newer_total|apply newer_trans]. Qed.

(** What is found first in the drawn rows is the newer of what each list has first. *)
Lemma find_draw p (named : list Row) : ∀ unnamed, newest_first named → newest_first unnamed →
  List.find p (draw named unnamed) =
  match List.find p unnamed with
  | Some u => if is_none_or (List.find p named) (λ n, key_gt (rw_key u) (rw_key n)) then Some u else List.find p named
  | None => List.find p named
  end.
Proof.
  induction named as [|n named IHn]; intros unnamed Hn Hu.
  { destruct unnamed; cbn; [done|]. destruct (p _); [done|]. by destruct (List.find p unnamed). }
  induction unnamed as [|u unnamed IHu]; [done|]. cbn [draw].
  apply StronglySorted_inv in Hn as Hn'. destruct Hn' as [Hn' Hnf]. apply StronglySorted_inv in Hu as Hu'. destruct Hu' as [Hu' Huf].
  destruct (key_gt (rw_key u) (rw_key n)) eqn:Eg; cbn [List.find].
  - destruct (p u) eqn:Epu; [|by apply IHu]. assert (Hgt : ∀ r, r ∈ n :: named → key_gt (rw_key u) (rw_key r) = true).
    { intros r [->|Hr]%elem_of_cons; [done|]. apply (key_gt_trans _ (rw_key n)); [done|].
      pose proof (proj1 (Forall_forall _ _) Hnf r Hr) as Hnew. unfold newer in Hnew. by rewrite negb_true_iff in Hnew. }
    destruct (p n); cbn [is_none_or]; [by rewrite Eg|]. destruct (List.find p named) as [r|] eqn:Ef; cbn [is_none_or]; [|done].
    rewrite Hgt; [done|]. right. by apply find_Some_elem in Ef as [Hf _].
  - destruct (p n) eqn:Epn.
    + assert (Hle : ∀ r, r ∈ u :: unnamed → key_gt (rw_key r) (rw_key n) = false).
      { intros r Hr. destruct (key_gt (rw_key r) (rw_key n)) eqn:E; [|done]. apply elem_of_cons in Hr as [->|Hr]; [congruence|].
        pose proof (proj1 (Forall_forall _ _) Huf r Hr) as Hnew. unfold newer in Hnew. rewrite negb_true_iff in Hnew.
        (* r > n ≥ u *) pose proof (key_gt_trans _ _ _ E Eg). congruence. }
      cbn. destruct (p u); cbn; [by rewrite Eg|]. destruct (List.find p unnamed) as [r|] eqn:Ef; [|done].
      rewrite Hle; [done|]. right. by apply find_Some_elem in Ef as [Hf _].
    + rewrite IHn by done. by cbn [List.find].
Qed.

(** A search among the rows after a key finds what the search finds, when that is after it. *)
Lemma find_after p key (l : list Row) : newest_first l →
  List.find (λ r, p r && key_gt (rw_key r) key) l =
  match List.find p l with Some r => if key_gt (rw_key r) key then Some r else None | None => None end.
Proof.
  induction 1 as [|r l Hl IH Hr]; cbn; [done|]. destruct (p r); cbn; [|done]. destruct (key_gt (rw_key r) key) eqn:E; [done|].
  destruct (List.find _ l) as [r'|] eqn:Ef; [|done]. exfalso. apply find_Some_elem in Ef as [Hin [_ Hgt]%andb_true_iff].
  pose proof (proj1 (Forall_forall _ _) Hr r' Hin) as Hn. unfold newer in Hn. rewrite negb_true_iff in Hn.
  pose proof (key_gt_trans _ _ _ Hgt E) as Hx. congruence.
Qed.

Lemma fold_keeps_current rows : ∀ c optional, fst (fold_observations rows (Some c) optional) = Some c.
Proof. induction rows as [|r rows IH]; intros c optional; cbn [fold_observations]; [done|]. destruct (_ && _); [done|apply IH]. Qed.

Lemma fold_first rows : ∀ optional,
  fst (fold_observations rows None optional) =
  List.find (λ r, is_some (state_of r)) rows ≫= λ r, (λ state, (state, r)) <$> state_of r.
Proof.
  induction rows as [|r rows IH]; intros optional; cbn [fold_observations List.find]; [done|].
  destruct (state_of r) as [state|] eqn:E; cbn.
  - rewrite E. destruct (size _ =? 7); [done|apply fold_keeps_current].
  - apply IH.
Qed.

Lemma accepted_since_after r key :
  (0 ≤ ck_time (rw_key r))%Z → (0 ≤ ck_time key)%Z → key_gt (rw_key r) key = true → accepted_since (u_to_string (ck_time key)) r = true.
Proof.
  intros Hr Hk Hgt%key_gt_time. unfold accepted_since. pose proof (shortlex_decimal _ _ Hk Hr) as Hs. unfold shortlex in Hs.
  destruct (Nat.compare_spec (String.length (u_to_string (ck_time key))) (String.length (u_to_string (ck_time (rw_key r))))) as [E|E|E]; cbn in Hs.
  - rewrite E, Nat.ltb_irrefl, Nat.eqb_refl. cbn. unfold String.leb. rewrite Hs.
    destruct (Z.compare_spec (ck_time key) (ck_time (rw_key r))); [done|done|lia].
  - by rewrite (proj2 (Nat.ltb_lt _ _)).
  - symmetry in Hs. apply Z.compare_gt_iff in Hs. lia.
Qed.
End agree.

(** Indexes are SQLite's and times are unsigned. *)
Definition rows_ok `{NumberApi} (rows : list Row) : Prop :=
  ∀ r, r ∈ rows → (rw_index r ≤ i64_max)%Z ∧ (0 ≤ ck_time (rw_key r))%Z.

(** No observation of the seat's harness names an array or an object as its incarnation. *)
Definition plain_incarnations `{NumberApi} (subject : string) (rows : list Row) : Prop :=
  ∀ r, r ∈ rows → rw_subject r = subject → rw_kind r = "harness.observed" →
    match get "incarnation_id" (fields_of (rw_body r)) with Some (Array _) | Some (Object _) => False | _ => True end.

Section same.
Context `{NumberApi} (json_text : Value → string) (subject : string) (rows : list Row).
Context (Hok : rows_ok rows) (Hplain : plain_incarnations subject rows).
Implicit Types (r : Row).

#[local] Abbreviation rows_desc := (canonical_desc rows).

Lemma desc_elem r : r ∈ rows_desc ↔ r ∈ rows.
Proof. apply elem_of_sort_by. Qed.

Lemma index_ok r : r ∈ rows_desc → (rw_index r <=? i64_max)%Z = true.
Proof. intros Hr%desc_elem. apply Z.leb_le. by apply Hok. Qed.

Lemma incarnation_same r :
  r ∈ rows_desc → rw_subject r = subject → rw_kind r = "harness.observed" →
  (∀ incarnation, bool_decide (incarnation_of_claim json_text r = SqlText incarnation) = ostr_eqb (incarnation_text r) (Some incarnation)) ∧
  match incarnation_of_claim json_text r with SqlText _ => false | _ => true end = ostr_eqb (incarnation_text r) None.
Proof.
  intros Hr%desc_elem Hs Hk. pose proof (Hplain r Hr Hs Hk) as Hp. unfold incarnation_of_claim, incarnation_text, str_of_field.
  destruct (get "incarnation_id" _) as [[]|]; try done. cbn. split; [|done]. intros incarnation. unfold ostr_eqb. apply bool_decide_ext. split; [by intros [= ->]|by intros [= ->]].
Qed.

(** The first observation with a state, among those that name the incarnation and those that name none. *)
Definition stated (incarnation : option string) r : bool :=
  str_eqb (rw_subject r) subject && str_eqb (rw_kind r) "harness.observed" && is_some (state_of r) && ostr_eqb (incarnation_text r) incarnation.

Lemma newest_state_find incarnation :
  newest_mailbox_harness_state subject incarnation rows = List.find (stated incarnation) rows_desc ≫= λ r, (λ state, (r, state)) <$> state_of r.
Proof.
  unfold newest_mailbox_harness_state, select. fold (stated incarnation). rewrite <- head_lfilter.
  destruct (List.filter (stated incarnation) rows_desc) as [|r l]; cbn; [done|]. by destruct (state_of r).
Qed.

Lemma named_find incarnation :
  List.find (λ r, is_some (state_of r)) (harness_observations_of_incarnation json_text subject i64_max incarnation rows) =
  List.find (stated (Some incarnation)) rows_desc.
Proof.
  unfold harness_observations_of_incarnation, select. rewrite find_lfilter. apply find_ext. intros r Hr. unfold stated.
  rewrite (index_ok r Hr), andb_true_r. destruct (str_eqb (rw_subject r) subject) eqn:Es; [|done].
  destruct (str_eqb (rw_kind r) "harness.observed") eqn:Ek; [|by rewrite andb_false_r]. apply str_eqb_true in Es, Ek.
  destruct (incarnation_same r Hr Es Ek) as [-> _]. cbn. rewrite andb_true_r. apply andb_comm.
Qed.

Lemma unnamed_find key :
  (0 ≤ ck_time key)%Z →
  List.find (λ r, is_some (state_of r)) (unnamed_observations json_text subject i64_max key rows) =
  match List.find (stated None) rows_desc with Some r => if key_gt (rw_key r) key then Some r else None | None => None end.
Proof.
  intros Hk. unfold unnamed_observations. rewrite sort_by_id by apply sorted_lfilter, select_sorted.
  rewrite <- find_after by (apply sort_by_sorted; [apply newer_total|apply newer_trans]).
  unfold harness_observations_without_incarnation, select. rewrite !find_lfilter. apply find_ext. intros r Hr. unfold stated.
  destruct (key_gt (rw_key r) key) eqn:Eg; [|by rewrite !andb_false_r].
  rewrite (index_ok r Hr), !andb_true_r. rewrite (accepted_since_after r key) by (done || by apply Hok, desc_elem). rewrite andb_true_r.
  destruct (str_eqb (rw_subject r) subject) eqn:Es; [|done]. destruct (str_eqb (rw_kind r) "harness.observed") eqn:Ekd; [|done].
  apply str_eqb_true in Es, Ekd. destruct (incarnation_same r Hr Es Ekd) as [_ ->]. cbn. apply andb_comm.
Qed.

Lemma latest_is_current incarnation key :
  (0 ≤ ck_time key)%Z →
  fst (fold_observations
         (draw (harness_observations_of_incarnation json_text subject i64_max incarnation rows)
               (unnamed_observations json_text subject i64_max key rows)) None ∅) =
  (λ c : Row * string, (c.2, c.1)) <$> latest_harness_state subject incarnation key rows.
Proof.
  intros Hk. rewrite fold_first, find_draw.
  - rewrite (named_find incarnation), (unnamed_find key Hk). unfold latest_harness_state. rewrite !newest_state_find.
    assert (Hst : ∀ i r, List.find (stated i) rows_desc = Some r → ∃ state, state_of r = Some state).
    { intros i r [_ Hs]%find_Some_elem. unfold stated in Hs. apply andb_true_iff in Hs as [[_ Hs]%andb_true_iff _].
      destruct (state_of r) as [state|]; [by exists state|done]. }
    destruct (List.find (stated None) rows_desc) as [u|] eqn:Eu; cbn.
    + destruct (Hst _ _ Eu) as [su Esu]. rewrite Esu. cbn. destruct (key_gt (rw_key u) key); cbn.
      * destruct (List.find (stated (Some incarnation)) rows_desc) as [n|] eqn:En; cbn; [|by rewrite Esu].
        destruct (Hst _ _ En) as [sn Esn]. rewrite Esn. cbn. destruct (key_gt _ _); cbn; by rewrite ?Esu, ?Esn.
      * destruct (List.find (stated (Some incarnation)) rows_desc) as [n|] eqn:En; cbn; [|done]. by destruct (state_of n).
    + destruct (List.find (stated (Some incarnation)) rows_desc) as [n|]; cbn; [|done]. by destruct (state_of n).
  - apply select_sorted.
  - apply sort_by_sorted; [apply newer_total|apply newer_trans].
Qed.

Lemma all_before p : List.filter (λ r, (rw_index r <=? i64_max)%Z) (select p rows) = select p rows.
Proof.
  unfold select. rewrite lfilter_filter. apply filter_ext_in. intros r Hr%list_elem_of_In. by rewrite (index_ok r Hr), andb_true_r.
Qed.

(** The fence reads as ended what is displayed as ended. *)
Lemma ended_as_displayed incarnation key :
  (0 ≤ ck_time key)%Z →
  mailbox_harness_ended json_text subject incarnation key rows =
  is_some_and (harness_of_incarnation json_text subject incarnation key i64_max rows) (λ h, str_eqb (ch_state h) "ended").
Proof.
  intros Hk. pose proof (latest_is_current incarnation key Hk) as Hl. unfold mailbox_harness_ended, harness_of_incarnation.
  unfold prompt_claims, work_claims. rewrite !all_before. fold (prompt_claims json_text subject incarnation rows).
  fold (work_claims json_text subject incarnation rows). destruct (fold_observations _ None ∅) as [current optional]. cbn [fst] in Hl. subst current.
  assert (Hprompt : is_some_and (code_of json_text <$> head (prompt_claims json_text subject incarnation rows))
                      (λ code, negb (bool_decide (code = SqlText "provider-auth-restored"))) =
                    is_some (prompt_rejection json_text (prompt_claims json_text subject incarnation rows))).
  { destruct (prompt_claims json_text subject incarnation rows) as [|r l] eqn:Ep; [done|]. cbn.
    assert (Hr : r ∈ prompt_claims json_text subject incarnation rows) by (rewrite Ep; left).
    apply lfilter_elem in Hr as [_ [[_ Hc%bool_decide_eq_true]%andb_true_iff _]%andb_true_iff].
    destruct (code_of json_text r) as [|code|]; [by apply list_elem_of_fmap in Hc as (? & ? & _)| |by apply list_elem_of_fmap in Hc as (? & ? & _)].
    unfold str_eqb. do 2 case_bool_decide; naive_solver. }
  rewrite Hprompt. destruct (prompt_rejection _ _) as [[code r]|]; cbn [is_some].
  - assert (is_some_and (Some (prompted incarnation code r)) (λ h, str_eqb (ch_state h) "ended") = false) as ->
      by (unfold prompted; by destruct (str_eqb code "provider-trust-prompt")).
    destruct (latest_harness_state _ _ _ _) as [[harness state]|]; [|done]. by destruct (negb _).
  - destruct (latest_harness_state _ _ _ _) as [[harness state]|]; cbn -[str_eqb].
    + destruct (head (work_claims json_text subject incarnation rows)) as [work|]; cbn -[str_eqb]; [|by destruct (str_eqb state "ended")].
      destruct (key_gt (rw_key work) key && _); cbn -[str_eqb]; by destruct (str_eqb state "ended").
    + destruct (head (work_claims json_text subject incarnation rows)) as [work|]; cbn -[str_eqb]; [|done]. by destruct (key_gt (rw_key work) key && true).
Qed.
End same.

(** C31. Mail goes to the session that is shown as live: a channel's session is admitted exactly when the newest
    observation of the seat's runtime says that it runs as the channel's incarnation and the
    harness state a person is shown is not that it ended, although the check never folds what is
    shown but reads the newest state of each kind alone. *)
Theorem sessions_are_admitted_as_displayed `{NumberApi} (json_text : Value → string) fence rows :
  rows_ok rows → plain_incarnations (fe_subject fence) rows →
  check_mailbox_incarnation json_text fence rows = Ok tt ↔
  ∃ runtime, head (newest_claims_of_kind "runtime.observed" (fe_subject fence) i64_max rows) = Some runtime ∧
    str_of_field "status" (fields_of (rw_body runtime)) = Some "running" ∧
    str_of_field "incarnation_id" (fields_of (rw_body runtime)) = Some (fe_incarnation fence) ∧
    ∀ h, current_harness_at json_text (fe_subject fence) None rows = Some h → ch_state h ≠ "ended".
Proof.
  intros Hok Hplain. unfold check_mailbox_incarnation, current_harness_at. cbn [default].
  destruct (newest_claims_of_kind "runtime.observed" (fe_subject fence) i64_max rows) as [|runtime l] eqn:Er; cbn [head].
  { destruct (_ && _); split; [done|by intros (? & ? & _)|done|by intros (? & ? & _)]. }
  assert (Hrt : (0 ≤ ck_time (rw_key runtime))%Z).
  { assert (Hin : runtime ∈ newest_claims_of_kind "runtime.observed" (fe_subject fence) i64_max rows) by (rewrite Er; left).
    apply lfilter_elem in Hin as [Hin%elem_of_sort_by _]. by apply Hok. }
  set (fields := fields_of (rw_body runtime)).
  destruct (ostr_eqb (str_of_field "status" fields) (Some "running")) eqn:Es;
    destruct (ostr_eqb (str_of_field "incarnation_id" fields) (Some (fe_incarnation fence))) eqn:Ei; cbn [andb negb orb].
  - apply bool_decide_eq_true in Es, Ei. rewrite Ei.
    rewrite (ended_as_displayed json_text (fe_subject fence) rows Hok Hplain (fe_incarnation fence) (rw_key runtime) Hrt).
    destruct (harness_of_incarnation _ _ _ _ _ _) as [h|]; cbn [is_some_and].
    + destruct (str_eqb (ch_state h) "ended") eqn:Ee; split; try done.
      * intros (? & [= <-] & _ & _ & Hne). apply str_eqb_true in Ee. by destruct (Hne h).
      * intros _. exists runtime. split_and!; [done..|]. intros ? [= <-] E. by rewrite E in Ee.
    + split; [|done]. intros _. by exists runtime.
  - apply bool_decide_eq_false in Ei. destruct (harness_starting fence rows); split; [done| |done|]; by intros (? & [= <-] & _ & ? & _).
  - apply bool_decide_eq_false in Es. destruct (_ && _); split; [done| |done|]; by intros (? & [= <-] & ? & _).
  - apply bool_decide_eq_false in Es. destruct (harness_starting fence rows); split; [done| |done|]; by intros (? & [= <-] & ? & _).
Qed.

(** ** Examples *)

#[local] Existing Instance integer_numbers.

Definition observed (time : Z) (kind : string) (fields : list (string * Value)) : Row :=
  mkRow (mkClaimKey time "node" time "b" 0 kind) "agent/dev" kind (Some "agent/dev") (Object [("fields", Object fields)]) time.

Definition brackets (_ : Value) : string := "[]".
Definition dev_channel : Fence := mkFence "agent/dev" "s1" "delivery" 1 "t1".

(** A session that ended and then worked again. *)
Definition dev_rows : list Row :=
  [observed 100 "runtime.observed" [("status", Str "running"); ("incarnation_id", Str "s1")];
   observed 200 "harness.observed" [("state", Str "ended"); ("incarnation_id", Str "s1")];
   observed 300 "work.progress" [("claim_incarnation", Str "s1")]].

Lemma admitted_witness :
  check_mailbox_incarnation brackets dev_channel dev_rows = Ok tt ∧
  ∀ h, current_harness_at brackets "agent/dev" None dev_rows = Some h → ch_state h ≠ "ended".
Proof.
  assert (Hok : check_mailbox_incarnation brackets dev_channel dev_rows = Ok tt) by by vm_compute. split; [done|].
  destruct (proj1 (sessions_are_admitted_as_displayed brackets dev_channel dev_rows
                     ltac:(intros r Hr; repeat apply elem_of_cons in Hr as [->|Hr]; [done..|by apply elem_of_nil in Hr])
                     ltac:(intros r Hr _ _; repeat apply elem_of_cons in Hr as [->|Hr]; [done..|by apply elem_of_nil in Hr])) Hok)
    as (runtime & _ & _ & _ & H). exact H.
Defined.

(** An incarnation that is an array counts as none for the fence, and as another one's for the display. *)
Example compound_incarnations_differ :
  let rows := [observed 100 "runtime.observed" [("status", Str "running"); ("incarnation_id", Str "s1")];
               observed 200 "harness.observed" [("state", Str "ended"); ("incarnation_id", Array [])]] in
  current_harness_at brackets "agent/dev" None rows = None ∧
  check_mailbox_incarnation brackets dev_channel rows = Err not_live_error.
Proof. by vm_compute. Qed.
