(* ===== verification/MailboxFence.v ===== *)
(** * Who owns a mailbox

    Models the ownership of a seat's delivery channels in [crates/st3/src/store.rs]: binding a channel
    ([bind_mailbox]) and the check each of its reads and receipts passes ([check_mailbox_fence]), on the
    two tables that outlive the daemon. Proves that a channel has one owner, that a replaced one
    never comes back, and that a retried request changes nothing. *)

From Stdlib Require Import Ascii.
From stdpp Require Import relations.
From S2P Require Import Prelude StableSort Text Json Mission Canonical Order Mailbox.

(** A row of [local_mailbox_bindings], under its token. *)
Record Binding := mkBinding {
  bd_subject : string;
  bd_component : string;
  bd_incarnation : string;
  bd_epoch : Z
}.

(** [local_mailbox_owners] by subject and component, and [local_mailbox_bindings] by token. *)
Record Tables := mkTables {
  t_owners : gmap (string * string) (string * Z);
  t_bindings : gmap string Binding
}.

Definition no_tables : Tables := mkTables ∅ ∅.

Definition newer_owner_error : St3Error := mkSt3Error "stale-mailbox-session" "a newer channel owns this seat".
Definition missing_token_error : St3Error := mkSt3Error "invalid-mailbox-token" "binding requires a stable request token".
Definition foreign_token_error : St3Error := mkSt3Error "invalid-mailbox-token" "binding token belongs to another session".
Definition exhausted_error : St3Error := mkSt3Error "internal" "mailbox epoch exhausted".

Definition with_epoch (fence : Fence) (epoch : Z) : Fence :=
  mkFence (fe_subject fence) (fe_incarnation fence) (fe_component fence) epoch (fe_token fence).

Section tables.
Context `{NumberApi} (json_text : Value → string).

(** The owner of the seat's channel, joined with the binding of the token. *)
Definition bound_owner (t : Tables) (fence : Fence) : option (string * Z) :=
  match t_owners t !! (fe_subject fence, fe_component fence), t_bindings t !! fe_token fence with
  | Some (incarnation, epoch), Some b =>
      if str_eqb (bd_subject b) (fe_subject fence) && str_eqb (bd_component b) (fe_component fence)
         && str_eqb (bd_incarnation b) incarnation && (bd_epoch b =? epoch)%Z
      then Some (incarnation, epoch) else None
  | _, _ => None
  end.

Definition check_mailbox_fence (rows : list Row) (t : Tables) (fence : Fence) : result St3Error unit :=
  let? _ := check_mailbox_incarnation json_text fence rows in
  if bool_decide (bound_owner t fence = Some (fe_incarnation fence, fe_epoch fence)) then Ok tt else Err newer_owner_error.

(** The transaction: the answer, and the tables it leaves. *)
Definition bind_mailbox (rows : list Row) (t : Tables) (request : Fence) : result St3Error Fence * Tables :=
  match check_mailbox_incarnation json_text request rows with
  | Err e => (Err e, t)
  | Ok _ =>
      if negb (fe_epoch request =? 0)%Z then (let? _ := check_mailbox_fence rows t request in Ok request, t)
      else if str_eqb (fe_token request) "" || (128 <? String.length (fe_token request)) then (Err missing_token_error, t)
      else
        match t_bindings t !! fe_token request with
        | Some b =>
            if negb (str_eqb (bd_subject b) (fe_subject request) && str_eqb (bd_component b) (fe_component request)
                     && str_eqb (bd_incarnation b) (fe_incarnation request))
            then (Err foreign_token_error, t)
            else
              let bound := with_epoch request (bd_epoch b) in
              (let? _ := check_mailbox_fence rows t bound in Ok bound, t)
        | None =>
            let channel := (fe_subject request, fe_component request) in
            let epoch := (default 0 (snd <$> t_owners t !! channel) + 1)%Z in
            if (epoch <=? i64_max)%Z
            then
              (Ok (with_epoch request epoch),
               mkTables (<[channel := (fe_incarnation request, epoch)]> (t_owners t))
                 (<[fe_token request := mkBinding (fe_subject request) (fe_component request) (fe_incarnation request) epoch]> (t_bindings t)))
            else (Err exhausted_error, t)
        end
  end.

(** Channels bind in any order, whatever the graph says by then. *)
Inductive table_step : Tables → Tables → Prop :=
| step_bind rows request t : table_step t (snd (bind_mailbox rows t request)).

(** ** What the tables keep *)

Definition owns (t : Tables) (channel : string * string) (token : string) (epoch : Z) : Prop :=
  ∃ b, t_bindings t !! token = Some b ∧ (bd_subject b, bd_component b) = channel ∧ bd_epoch b = epoch.

(** Epochs start at one and stay within SQLite's integers; a binding is of its channel's owner or older; no two
    bindings of a channel share an epoch. *)
Record tables_ok (t : Tables) : Prop := {
  ok_owners : ∀ channel incarnation epoch, t_owners t !! channel = Some (incarnation, epoch) → (1 ≤ epoch ≤ i64_max)%Z;
  ok_bindings : ∀ channel token epoch, owns t channel token epoch →
    ∃ incarnation newest, t_owners t !! channel = Some (incarnation, newest) ∧ (1 ≤ epoch ≤ newest)%Z;
  ok_epochs : ∀ channel token token' epoch, owns t channel token epoch → owns t channel token' epoch → token = token'
}.

(** Bindings stay, and owners only grow newer. *)
Definition extends (t t' : Tables) : Prop :=
  (∀ token b, t_bindings t !! token = Some b → t_bindings t' !! token = Some b) ∧
  (∀ channel incarnation epoch, t_owners t !! channel = Some (incarnation, epoch) →
     ∃ incarnation' epoch', t_owners t' !! channel = Some (incarnation', epoch') ∧
       ((epoch < epoch')%Z ∨ incarnation' = incarnation ∧ epoch' = epoch)).

#[global] Instance extends_preorder : PreOrder extends.
Proof.
  split.
  - intros t. split; [done|]. intros channel i e Ho. exists i, e. auto.
  - intros t1 t2 t3 [B1 O1] [B2 O2]. split; [auto|]. intros channel i e Ho. destruct (O1 _ _ _ Ho) as (i' & e' & Ho' & Hle).
    destruct (O2 _ _ _ Ho') as (i'' & e'' & Ho'' & Hle'). exists i'', e''. split; [done|]. destruct Hle as [?|[-> ->]], Hle' as [?|[-> ->]]; auto; left; lia.
Qed.

(** A bind leaves the tables as they are, or takes the next epoch of its channel for a token never seen. *)
Lemma bind_cases rows t request :
  snd (bind_mailbox rows t request) = t ∨
  let channel := (fe_subject request, fe_component request) in
  let epoch := (default 0 (snd <$> t_owners t !! channel) + 1)%Z in
  t_bindings t !! fe_token request = None ∧ (epoch ≤ i64_max)%Z ∧ fst (bind_mailbox rows t request) = Ok (with_epoch request epoch) ∧
  snd (bind_mailbox rows t request) =
    mkTables (<[channel := (fe_incarnation request, epoch)]> (t_owners t))
      (<[fe_token request := mkBinding (fe_subject request) (fe_component request) (fe_incarnation request) epoch]> (t_bindings t)).
Proof.
  unfold bind_mailbox. destruct (check_mailbox_incarnation _ _ _); [|by left]. destruct (negb _); [by left|]. destruct (_ || _); [by left|].
  destruct (t_bindings t !! fe_token request) eqn:Eb; [destruct (negb _); by left|].
  destruct (Z.leb_spec (default 0%Z (snd <$> t_owners t !! (fe_subject request, fe_component request)) + 1)%Z i64_max); [|by left]. right. by split_and!.
Qed.

Lemma next_epoch t channel : tables_ok t → (1 ≤ default 0 (snd <$> t_owners t !! channel) + 1)%Z.
Proof. intros Hok. destruct (t_owners t !! channel) as [[i e]|] eqn:E; cbn; [|lia]. apply (ok_owners t Hok) in E. lia. Qed.

Lemma owns_insert t owners' token b channel token' epoch :
  t_bindings t !! token = None →
  owns (mkTables owners' (<[token := b]> (t_bindings t))) channel token' epoch ↔
  token' = token ∧ (bd_subject b, bd_component b) = channel ∧ bd_epoch b = epoch ∨ owns t channel token' epoch.
Proof.
  intros Hn. unfold owns. cbn. split.
  - intros (b' & Hb & Hc & He). apply lookup_insert_Some in Hb as [[<- <-]|[_ Hb]]; [by left|right; by exists b'].
  - intros [(-> & Hc & He)|(b' & Hb & Hc & He)]; [exists b|exists b']; split_and!; try done; [by rewrite lookup_insert_eq|].
    rewrite lookup_insert_ne; [done|]. intros ->. congruence.
Qed.

Lemma step_ok t t' : table_step t t' → tables_ok t → tables_ok t' ∧ extends t t'.
Proof.
  intros [rows request t0] Hok. destruct (bind_cases rows t0 request) as [->|(Hn & Hmax & _ & ->)]; [split; [done|reflexivity]|].
  set (channel := (fe_subject request, fe_component request)) in *. set (epoch := (_ + 1)%Z) in *.
  pose proof (next_epoch t0 channel Hok) as Hpos. fold epoch in Hpos.
  assert (Hlt : ∀ token e, owns t0 channel token e → (e < epoch)%Z).
  { intros token e (i & n & Ho & Hle)%(ok_bindings t0 Hok). unfold epoch. rewrite Ho. cbn. lia. }
  split; [split|split]; cbn.
  - intros c i e [[<- [= <- <-]]|[_ Ho]]%lookup_insert_Some; [lia|]. by apply (ok_owners t0 Hok) in Ho.
  - intros c token e [(-> & <- & <-)|Ho]%owns_insert; [| |done].
    + exists (fe_incarnation request), epoch. split; [by rewrite lookup_insert_eq|cbn; lia].
    + destruct (decide (c = channel)) as [->|Hne].
      * exists (fe_incarnation request), epoch. split; [by rewrite lookup_insert_eq|]. pose proof (Hlt _ _ Ho).
        destruct (ok_bindings t0 Hok _ _ _ Ho) as (? & ? & ? & ?). lia.
      * destruct (ok_bindings t0 Hok _ _ _ Ho) as (i & n & Hi & Hle). exists i, n. by rewrite lookup_insert_ne.
  - intros c token token' e [(-> & <- & <-)|Ho]%owns_insert [(-> & Hc & He)|Ho']%owns_insert; try done; cbn in *.
    + by apply Hlt, Z.lt_irrefl in Ho'.
    + subst. by apply Hlt, Z.lt_irrefl in Ho.
    + by apply (ok_epochs t0 Hok c token token' e).
  - intros token b Hb. rewrite lookup_insert_ne; [done|]. intros E. congruence.
  - intros c i e Ho. destruct (decide (c = channel)) as [->|Hne].
    + exists (fe_incarnation request), epoch. split; [by rewrite lookup_insert_eq|]. unfold epoch. rewrite Ho. cbn. lia.
    + exists i, e. split; [by rewrite lookup_insert_ne|auto].
Qed.

Lemma steps_ok t t' : rtc table_step t t' → tables_ok t → tables_ok t' ∧ extends t t'.
Proof.
  induction 1 as [t|t1 t2 t3 Hs _ IH]; intros Hok; [split; [done|reflexivity]|]. destruct (step_ok _ _ Hs Hok) as [Hok2 He]. destruct (IH Hok2) as [Hok3 He3].
  split; [done|]. by etrans.
Qed.

Lemma reachable_tables_ok t : rtc table_step no_tables t → tables_ok t.
Proof.
  intros Hr. apply (steps_ok _ _ Hr). split; cbn; [by intros ??? ?|by intros ??? (? & ? & _)|by intros ???? (? & ? & _)].
Qed.

(** ** Who is admitted *)

Lemma admitted_owner rows t fence :
  check_mailbox_fence rows t fence = Ok tt →
  t_owners t !! (fe_subject fence, fe_component fence) = Some (fe_incarnation fence, fe_epoch fence) ∧
  owns t (fe_subject fence, fe_component fence) (fe_token fence) (fe_epoch fence).
Proof.
  unfold check_mailbox_fence. destruct (check_mailbox_incarnation _ _ _); cbn; [|done]. case_bool_decide as Hb; [|done]. intros _.
  unfold bound_owner in Hb. destruct (t_owners t !! _) as [[i e]|]; [|done]. destruct (t_bindings t !! _) as [b|] eqn:Eb; [|done].
  destruct (_ && _) eqn:E; [|done]. injection Hb as -> ->. split; [done|].
  apply andb_true_iff in E as [[[Hs%str_eqb_true Hc%str_eqb_true]%andb_true_iff _]%andb_true_iff He%Z.eqb_eq].
  exists b. by rewrite Hs, Hc.
Qed.

(** The owner of a channel is one fence. *)
Lemma one_owner rows rows' t f g :
  tables_ok t → check_mailbox_fence rows t f = Ok tt → check_mailbox_fence rows' t g = Ok tt →
  fe_subject f = fe_subject g → fe_component f = fe_component g → f = g.
Proof.
  intros Hok [Of Bf]%admitted_owner [Og Bg]%admitted_owner Hs Hc. rewrite Hs, Hc in *. rewrite Of in Og. injection Og as Hi He. rewrite He in *.
  pose proof (ok_epochs t Hok _ _ _ _ Bf Bg) as Ht. destruct f, g; cbn in *. by subst.
Qed.

(** A fence older than its channel's owner is refused. *)
Lemma older_refused rows t f incarnation epoch :
  t_owners t !! (fe_subject f, fe_component f) = Some (incarnation, epoch) → (fe_epoch f < epoch)%Z →
  check_mailbox_fence rows t f ≠ Ok tt.
Proof. intros Ho Hlt [Hf _]%admitted_owner. rewrite Ho in Hf. injection Hf as _ ->. lia. Qed.
End tables.

Section fenced.
Context `{NumberApi} (json_text : Value → string).

Lemma fence_not_ok rows t f : check_mailbox_fence json_text rows t f ≠ Ok tt → ∃ e, check_mailbox_fence json_text rows t f = Err e.
Proof. destruct (check_mailbox_fence _ _ _ _) as [[]|e]; [done|]. by exists e. Qed.

(** A refused channel cannot bind again, neither with its epoch nor with its first request. *)
Lemma refused_binds rows t f epoch :
  epoch = fe_epoch f ∨ epoch = 0%Z → fe_epoch f ≠ 0%Z →
  t_bindings t !! fe_token f = Some (mkBinding (fe_subject f) (fe_component f) (fe_incarnation f) (fe_epoch f)) →
  check_mailbox_fence json_text rows t f ≠ Ok tt →
  ∃ e, bind_mailbox json_text rows t (with_epoch f epoch) = (Err e, t).
Proof.
  intros He Hz Hb [e Hf]%fence_not_ok.
  assert (Hw : with_epoch f (fe_epoch f) = f) by by destruct f.
  unfold bind_mailbox. destruct (check_mailbox_incarnation json_text (with_epoch f epoch) rows); [|by eexists].
  destruct He as [->| ->].
  - cbn [fe_epoch with_epoch]. rewrite (proj2 (Z.eqb_neq _ _) Hz). cbn [negb]. rewrite Hw, Hf. by eexists.
  - cbn [fe_epoch fe_token with_epoch Z.eqb negb]. destruct (_ || _); [by eexists|]. rewrite Hb. cbn [bd_subject bd_component bd_incarnation bd_epoch fe_subject fe_component fe_incarnation with_epoch].
    rewrite !str_eqb_refl. cbn [negb andb]. change (with_epoch (with_epoch f 0) (fe_epoch f)) with (with_epoch f (fe_epoch f)). rewrite Hw, Hf. by eexists.
Qed.

(** The binding of an admitted fence says what the fence says. *)
Lemma admitted_binding rows t f :
  check_mailbox_fence json_text rows t f = Ok tt →
  t_bindings t !! fe_token f = Some (mkBinding (fe_subject f) (fe_component f) (fe_incarnation f) (fe_epoch f)).
Proof.
  unfold check_mailbox_fence. destruct (check_mailbox_incarnation _ _ _); cbn; [|done]. case_bool_decide as Hb; [|done]. intros _.
  unfold bound_owner in Hb. destruct (t_owners t !! _) as [[i e]|]; [|done]. destruct (t_bindings t !! _) as [b|]; [|done].
  destruct (_ && _) eqn:E; [|done]. injection Hb as -> ->.
  apply andb_true_iff in E as [[[Hs%str_eqb_true Hc%str_eqb_true]%andb_true_iff Hi%str_eqb_true]%andb_true_iff He%Z.eqb_eq].
  destruct b; cbn in *. by subst.
Qed.
End fenced.

(** C30. A replaced channel never comes back: a seat's channel has one owner at a time, and once another session or
    another connection owns it, the one that did is refused for good. Whatever the graph says and
    whoever binds afterwards, every check of it fails, and it can neither reconnect with its epoch
    nor bind anew with the token of its first request. *)
Theorem replaced_channels_stay_fenced `{NumberApi} (json_text : Value → string) t t' rows rows' f g :
  rtc (table_step json_text) no_tables t → rtc (table_step json_text) t t' →
  check_mailbox_fence json_text rows t f = Ok tt → check_mailbox_fence json_text rows' t' g = Ok tt →
  fe_subject f = fe_subject g → fe_component f = fe_component g → f ≠ g →
  ∀ t'' rows'', rtc (table_step json_text) t' t'' →
    (∃ e, check_mailbox_fence json_text rows'' t'' f = Err e) ∧
    ∀ epoch, epoch = fe_epoch f ∨ epoch = 0%Z → ∃ e, bind_mailbox json_text rows'' t'' (with_epoch f epoch) = (Err e, t'').
Proof.
  intros Hr Hs Hf Hg Hsub Hcomp Hne t'' rows'' Hs'. pose proof (reachable_tables_ok json_text t Hr) as Hok.
  destruct (steps_ok json_text _ _ Hs Hok) as [Hok' Hx]. destruct (steps_ok json_text _ _ Hs' Hok') as [Hok'' Hx'].
  pose proof (admitted_binding json_text rows t f Hf) as Hb. destruct (admitted_owner json_text rows t f Hf) as [Of Bf].
  destruct (admitted_owner json_text rows' t' g Hg) as [Og Bg]. rewrite <- Hsub, <- Hcomp in Og, Bg.
  assert (Bf' : owns t' (fe_subject f, fe_component f) (fe_token f) (fe_epoch f)) by (eexists; split; [by apply Hx|done]).
  assert (Hlt : (fe_epoch f < fe_epoch g)%Z).
  { destruct (ok_bindings t' Hok' _ _ _ Bf') as (i & n & Ho & Hle). rewrite Og in Ho. injection Ho as <- <-.
    destruct (decide (fe_epoch f = fe_epoch g)) as [E|]; [|lia]. destruct Hne.
    rewrite <- E in Bg. pose proof (ok_epochs t' Hok' _ _ _ _ Bf' Bg) as Ht. pose proof (admitted_binding json_text rows' t' g Hg) as Hbg.
    destruct Hx as [Hxb _]. pose proof (Hxb _ _ Hb) as Hb'. rewrite Ht, Hbg in Hb'. injection Hb' as _ _ Hi _. destruct f, g; cbn in *. by subst. }
  destruct Hx' as [Hxb Hxo]. destruct (Hxo _ _ _ Og) as (i & n & Ho & Hle).
  assert (Hno : check_mailbox_fence json_text rows'' t'' f ≠ Ok tt) by (apply (older_refused json_text rows'' t'' f i n); [done|destruct Hle as [?|[_ ->]]; lia]).
  split; [by apply fence_not_ok|]. intros epoch He. apply refused_binds; [done| |by apply Hxb, Hx|done].
  destruct (ok_bindings t Hok _ _ _ Bf) as (? & ? & ? & ?). lia.
Qed.

Section binding.
Context `{NumberApi} (json_text : Value → string).

(** What a bind by token answers rests on the token's binding. *)
Lemma bound_by_token rows t request bound t' :
  bind_mailbox json_text rows t request = (Ok bound, t') → fe_epoch request = 0%Z →
  bound = with_epoch request (fe_epoch bound) ∧
  t_bindings t' !! fe_token request = Some (mkBinding (fe_subject request) (fe_component request) (fe_incarnation request) (fe_epoch bound)).
Proof.
  unfold bind_mailbox. intros Hb Hz. rewrite Hz in Hb. cbn [Z.eqb negb] in Hb. destruct (check_mailbox_incarnation _ _ _); [|done].
  destruct (_ || _); [done|]. destruct (t_bindings t !! fe_token request) as [b|] eqn:Eb.
  - destruct (str_eqb (bd_subject b) _ && _ && _) eqn:E; [|done]. cbn [negb] in Hb. destruct (check_mailbox_fence _ _ _ _); [|done].
    cbn in Hb. injection Hb as <- <-. split; [done|]. rewrite Eb.
    apply andb_true_iff in E as [[Hs%str_eqb_true Hc%str_eqb_true]%andb_true_iff Hi%str_eqb_true]. destruct b; cbn in *. by subst.
  - destruct (_ <=? _)%Z; [|done]. injection Hb as <- <-. split; [done|]. cbn. by rewrite lookup_insert_eq.
Qed.

Lemma retry_answers rows t request epoch :
  fe_epoch request = 0%Z →
  t_bindings t !! fe_token request = Some (mkBinding (fe_subject request) (fe_component request) (fe_incarnation request) epoch) →
  ∃ r, bind_mailbox json_text rows t request = (r, t) ∧ (r = Ok (with_epoch request epoch) ∨ ∃ e, r = Err e).
Proof.
  intros Hz Hb. unfold bind_mailbox. rewrite Hz. cbn [Z.eqb negb]. destruct (check_mailbox_incarnation _ _ _); [|eauto].
  destruct (_ || _); [eauto|]. rewrite Hb. cbn [bd_subject bd_component bd_incarnation bd_epoch]. rewrite !str_eqb_refl. cbn [andb negb].
  destruct (check_mailbox_fence _ _ _ _); cbn; eauto.
Qed.

(** A live session with a new token takes its channel over, and is admitted. *)
Lemma fresh_tokens_take_over rows t request :
  check_mailbox_incarnation json_text request rows = Ok tt → fe_epoch request = 0%Z →
  fe_token request ≠ "" → String.length (fe_token request) ≤ 128 → t_bindings t !! fe_token request = None →
  (default 0%Z (snd <$> t_owners t !! (fe_subject request, fe_component request)) < i64_max)%Z →
  ∃ bound t', bind_mailbox json_text rows t request = (Ok bound, t') ∧ check_mailbox_fence json_text rows t' bound = Ok tt.
Proof.
  intros Hc Hz Hne Hlen Hn Hmax. set (epoch := (default 0%Z (snd <$> t_owners t !! (fe_subject request, fe_component request)) + 1)%Z).
  exists (with_epoch request epoch). eexists. unfold bind_mailbox. rewrite Hc, Hz. cbn [Z.eqb negb].
  rewrite (proj2 (str_eqb_false _ _) Hne), (proj2 (Nat.ltb_ge _ _)) by lia. cbn [orb]. rewrite Hn.
  fold epoch. rewrite (proj2 (Z.leb_le epoch i64_max)) by (unfold epoch; lia). split; [done|].
  unfold check_mailbox_fence. change (check_mailbox_incarnation json_text (with_epoch request epoch) rows) with (check_mailbox_incarnation json_text request rows).
  rewrite Hc. cbn [result_bind]. rewrite bool_decide_true; [done|]. unfold bound_owner.
  cbn [t_owners t_bindings fe_subject fe_component fe_token fe_incarnation fe_epoch with_epoch]. rewrite !lookup_insert_eq.
  cbn [bd_subject bd_component bd_incarnation bd_epoch]. by rewrite !str_eqb_refl, Z.eqb_refl.
Qed.
End binding.

(** A lost response costs nothing: when a channel has bound, its request sent again, at any later time and
    under any graph, leaves the tables as they are and is answered with the very same epoch, or
    refused. So only a session's first request can take a seat over. *)
Theorem retried_binds_change_nothing `{NumberApi} (json_text : Value → string) rows t request bound t' :
  rtc (table_step json_text) no_tables t → fe_epoch request = 0%Z →
  bind_mailbox json_text rows t request = (Ok bound, t') →
  ∀ t'' rows'', rtc (table_step json_text) t' t'' →
    ∃ r, bind_mailbox json_text rows'' t'' request = (r, t'') ∧ (r = Ok bound ∨ ∃ e, r = Err e).
Proof.
  intros Hr Hz Hb t'' rows'' Hs. destruct (bound_by_token json_text rows t request bound t' Hb Hz) as [Hbound Hbind].
  assert (Hok' : tables_ok t').
  { apply (reachable_tables_ok json_text), (rtc_r _ t); [done|]. replace t' with (snd (bind_mailbox json_text rows t request)) by by rewrite Hb. constructor. }
  destruct (steps_ok json_text _ _ Hs Hok') as [_ [Hx _]]. rewrite Hbound. by apply retry_answers, Hx.
Qed.

(** ** Streams that see no change *)

Record MailboxWatermark := mkWatermark {
  wm_index : Z;
  wm_local : Z;
  wm_owner : option (string * Z * bool)
}.

(** A row of [local_observations]. *)
Record LocalRow := mkLocal { lo_id : Z; lo_subject : string }.

Definition mailbox_owner_key (t : Tables) (fence : Fence) : option (string * Z * bool) :=
  (λ owner, (owner, is_some (t_bindings t !! fe_token fence))) <$> t_owners t !! (fe_subject fence, fe_component fence).

Definition normalize_message_party (value : string) : string :=
  if str_eqb value "" || str_eqb value "requester" || contains_char "/"%char value then value else "agent/" +:+ value.

Definition bare_recipient (recipient : string) : string :=
  match strip_prefix "agent/" recipient with
  | Some suffix => if contains_char "/"%char suffix then recipient else suffix
  | None => recipient
  end.

Section streams.
Context `{NumberApi} (json_text : Value → string).

(** [index] is the store's committed index. *)
Definition mailbox_watermark (index : Z) (locals : list LocalRow) (t : Tables) (fence : Fence) : MailboxWatermark :=
  mkWatermark index (fold_left (λ m l, Z.max m (lo_id l)) locals 0%Z) (mailbox_owner_key t fence).

Definition mailbox_changed_since (rows : list Row) (locals : list LocalRow) (t : Tables) (fence : Fence) (mark : MailboxWatermark)
    (messages : list string) : bool :=
  let recipient := normalize_message_party (fe_subject fence) in
  let later r := (wm_index mark <? rw_index r)%Z in
  existsb (λ r, str_eqb (rw_subject r) (fe_subject fence) && later r) rows
  || existsb (λ r, str_eqb (rw_kind r) "message.sent"
                   && bool_decide (json_extract json_text (pointer2 "fields" "to" (rw_body r)) ∈ [SqlText recipient; SqlText (bare_recipient recipient)])
                   && later r) rows
  || existsb (λ r, bool_decide (rw_subject r ∈ messages) && later r) rows
  || existsb (λ r, str_eqb (rw_kind r) "intent.desired" && later r && starts_with "message/" (rw_subject r)) rows
  || existsb (λ l, str_eqb (lo_subject l) (fe_subject fence) && (wm_local mark <? lo_id l)%Z) locals
  || negb (bool_decide (mailbox_owner_key t fence = wm_owner mark)).

#[local] Abbreviation newest_first := (StronglySorted (λ a b : Row, newer a b = true)).

(** Filtering and sorting commute. *)
Lemma filter_insert p (r : Row) l :
  newest_first l → List.filter p (insert_by newer r l) = if p r then insert_by newer r (List.filter p l) else List.filter p l.
Proof.
  induction 1 as [|x l Hl IH Hx]; cbn; [by destruct (p r)|]. destruct (newer r x) eqn:E; cbn.
  - destruct (p r) eqn:Er, (p x) eqn:Ex; cbn; rewrite ?E; try done.
    assert (Hall : ∀ y, y ∈ List.filter p l → newer r y = true).
    { intros y [Hy _]%lfilter_elem. apply (newer_trans r x y E). by apply (proj1 (Forall_forall _ _) Hx). }
    destruct (List.filter p l) as [|y l']; cbn; [done|]. by rewrite Hall by left.
  - rewrite IH. destruct (p x) eqn:Ex, (p r) eqn:Er; cbn; rewrite ?E; done.
Qed.

Lemma select_filter p (rows : list Row) : select p rows = sort_by newer (List.filter p rows).
Proof.
  unfold select, canonical_desc. induction rows as [|r rows IH]; cbn; [done|].
  rewrite filter_insert by (apply sort_by_sorted; [apply newer_total|apply newer_trans]). rewrite IH. by destruct (p r).
Qed.

Lemma select_app p (rows added : list Row) : (∀ r, r ∈ added → p r = false) → select p (rows ++ added) = select p rows.
Proof.
  intros Hp. rewrite !select_filter, List.filter_app. replace (List.filter p added) with (@nil Row); [by rewrite app_nil_r|].
  induction added as [|r added IH]; cbn; [done|]. rewrite (Hp r) by left. apply IH. intros x Hx. apply Hp. by right.
Qed.

(** More rows only make the newest one newer. *)
Lemma select_newest p (rows added : list Row) r :
  head (select p rows) = Some r → ∃ r', head (select p (rows ++ added)) = Some r' ∧ key_gt (rw_key r) (rw_key r') = false.
Proof.
  intros Hr. pose proof (select_sorted p (rows ++ added)) as Hs.
  assert (Hin : r ∈ select p (rows ++ added)).
  { destruct (select p rows) as [|x l] eqn:E; [done|]. injection Hr as ->. assert (Hx : r ∈ select p rows) by (rewrite E; left).
    apply lfilter_elem in Hx as [Hx%elem_of_sort_by Hp]. apply lfilter_elem. split; [|done]. apply elem_of_sort_by, elem_of_app. by left. }
  destruct (select p (rows ++ added)) as [|r' l]; [by apply elem_of_nil in Hin|]. exists r'. split; [done|].
  apply elem_of_cons in Hin as [->|Hin].
  - unfold key_gt. pose proof (cmp_opp key_compare (rw_key r') (rw_key r')) as Ho. by destruct (key_compare _ _).
  - apply StronglySorted_inv in Hs as [_ Hf]. pose proof (proj1 (Forall_forall _ _) Hf r Hin) as Hn. unfold newer in Hn. by apply negb_true_iff in Hn.
Qed.

Section quiet.
Context (rows added : list Row) (fence : Fence) (Hother : ∀ r, r ∈ added → rw_subject r ≠ fe_subject fence).

Lemma other_subject r : r ∈ added → str_eqb (rw_subject r) (fe_subject fence) = false.
Proof. intros Hr. apply str_eqb_false. by apply Hother. Qed.

Lemma same_kind kind at_index :
  newest_claims_of_kind kind (fe_subject fence) at_index (rows ++ added) = newest_claims_of_kind kind (fe_subject fence) at_index rows.
Proof. apply select_app. intros r Hr. by rewrite (other_subject r Hr). Qed.

Lemma same_latest incarnation key :
  latest_harness_state (fe_subject fence) incarnation key (rows ++ added) = latest_harness_state (fe_subject fence) incarnation key rows.
Proof.
  unfold latest_harness_state, newest_mailbox_harness_state.
  by rewrite !(select_app _ rows added) by (intros r Hr; by rewrite (other_subject r Hr)).
Qed.

(** Claims of the seat's work can only show that a session has not ended. *)
Lemma still_running incarnation key :
  mailbox_harness_ended json_text (fe_subject fence) incarnation key rows = false →
  mailbox_harness_ended json_text (fe_subject fence) incarnation key (rows ++ added) = false.
Proof.
  unfold mailbox_harness_ended. rewrite same_latest. destruct (latest_harness_state _ _ _ rows) as [[harness state]|]; [|done].
  destruct (negb _); [done|]. unfold prompt_claims. rewrite (select_app _ rows added) by (intros r Hr; by rewrite (other_subject r Hr)).
  destruct (is_some_and _ _); [done|]. destruct (head (work_claims json_text (fe_subject fence) incarnation rows)) as [work|] eqn:Ew; [|done].
  rewrite negb_false_iff. intros [Hr Hh]%andb_true_iff. destruct (select_newest _ rows added work Ew) as (work' & Ew' & Hn).
  fold (work_claims json_text (fe_subject fence) incarnation (rows ++ added)) in Ew'. rewrite Ew'.
  rewrite negb_false_iff. apply andb_true_iff.
  assert (Hup : ∀ k, key_gt (rw_key work) k = true → key_gt (rw_key work') k = true); [|by split; apply Hup].
  intros k Hk. destruct (key_gt (rw_key work') k) eqn:E; [done|]. by rewrite (key_gt_trans _ _ _ Hk E) in Hn.
Qed.

Lemma still_live : check_mailbox_incarnation json_text fence rows = Ok tt → check_mailbox_incarnation json_text fence (rows ++ added) = Ok tt.
Proof.
  unfold check_mailbox_incarnation, harness_starting. rewrite !same_kind. destruct (head (newest_claims_of_kind _ _ _ rows)) as [r|].
  - destruct (_ && match _ with [] => _ | _ => _ end); [done|]. destruct (negb _); [done|]. cbn [orb].
    destruct (mailbox_harness_ended _ _ _ _ rows) eqn:E; [done|]. by rewrite still_running.
  - by destruct (_ && match _ with [] => _ | _ => _ end).
Qed.
End quiet.
End streams.

(** A stream that sees no change may go on: when a channel was admitted after its watermark was read, and later
    the store finds nothing changed since that watermark, the channel is admitted still. Whatever
    was appended to the graph and whoever bound in between, the stream sends its mail without
    reading the seat again. *)
Theorem quiet_streams_stay_admitted `{NumberApi} (json_text : Value → string) t0 t t' rows added locals0 locals fence index messages :
  rtc (table_step json_text) no_tables t0 → rtc (table_step json_text) t0 t → rtc (table_step json_text) t t' →
  (∀ r, r ∈ added → (index < rw_index r)%Z) →
  check_mailbox_fence json_text rows t fence = Ok tt →
  mailbox_changed_since json_text (rows ++ added) locals t' fence (mailbox_watermark index locals0 t0 fence) messages = false →
  check_mailbox_fence json_text (rows ++ added) t' fence = Ok tt.
Proof.
  intros Hr Hs0 Hs Hadd Hf Hq. unfold mailbox_changed_since in Hq. cbn [wm_index wm_owner mailbox_watermark] in Hq.
  apply orb_false_iff in Hq as [Hq Ho%negb_false_iff%bool_decide_eq_true]. repeat apply orb_false_iff in Hq as [Hq _].
  assert (Hother : ∀ r, r ∈ added → rw_subject r ≠ fe_subject fence).
  { intros r Hin E. rewrite existsb_false_elem in Hq. specialize (Hq r (proj2 (elem_of_app _ _ _) (or_intror Hin))).
    by rewrite E, str_eqb_refl, (proj2 (Z.ltb_lt _ _) (Hadd r Hin)) in Hq. }
  pose proof (reachable_tables_ok json_text t0 Hr) as Hok0. destruct (steps_ok json_text _ _ Hs0 Hok0) as [Hok [_ X0]].
  destruct (steps_ok json_text _ _ Hs Hok) as [_ [Xb X]]. destruct (admitted_owner json_text rows t fence Hf) as [Of _].
  pose proof (admitted_binding json_text rows t fence Hf) as Hb. destruct (X _ _ _ Of) as (i' & e' & Of' & Hle').
  unfold mailbox_owner_key in Ho. rewrite Of' in Ho.
  destruct (t_owners t0 !! (fe_subject fence, fe_component fence)) as [[i0 e0]|] eqn:O0; [|done]. cbn in Ho. injection Ho as -> -> _.
  destruct (X0 _ _ _ O0) as (i & e & Oi & Hle). rewrite Of in Oi. injection Oi as <- <-.
  assert (i0 = fe_incarnation fence ∧ e0 = fe_epoch fence) as [-> ->] by (destruct Hle as [?|[??]], Hle' as [?|[??]]; auto; lia).
  unfold check_mailbox_fence in *. destruct (check_mailbox_incarnation json_text fence rows) as [[]|] eqn:Ei; [|done].
  rewrite (still_live json_text rows added fence Hother Ei). cbn [result_bind]. rewrite bool_decide_true; [done|].
  unfold bound_owner. rewrite Of', (Xb _ _ Hb). cbn. by rewrite !str_eqb_refl, Z.eqb_refl.
Qed.

(** ** Examples *)

#[local] Existing Instance integer_numbers.

Definition dev_request (session token : string) : Fence := mkFence "agent/dev" session "delivery" 0 token.

(** A second session of the seat replaces the first. *)
Definition replaced_rows : list Row :=
  dev_rows ++ [observed 400 "runtime.observed" [("status", Str "running"); ("incarnation_id", Str "s2")]].

Definition first_tables : Tables := snd (bind_mailbox brackets dev_rows no_tables (dev_request "s1" "t1")).
Definition second_tables : Tables := snd (bind_mailbox brackets replaced_rows first_tables (dev_request "s2" "t2")).

Lemma first_step : rtc (table_step brackets) no_tables first_tables.
Proof. apply rtc_once. constructor. Qed.
Lemma second_step : rtc (table_step brackets) first_tables second_tables.
Proof. apply rtc_once. constructor. Qed.

Lemma replaced_witness :
  check_mailbox_fence brackets dev_rows first_tables dev_channel = Ok tt ∧
  ∃ e, bind_mailbox brackets dev_rows second_tables (dev_request "s1" "t1") = (Err e, second_tables).
Proof.
  split; [by vm_compute|].
  destruct (replaced_channels_stay_fenced brackets first_tables second_tables dev_rows replaced_rows dev_channel
              (with_epoch (dev_request "s2" "t2") 2) first_step second_step ltac:(by vm_compute) ltac:(by vm_compute)
              eq_refl eq_refl ltac:(done) second_tables dev_rows (rtc_refl _ _)) as [_ Hb].
  destruct (Hb 0%Z (or_intror eq_refl)) as [e He]. by exists e.
Defined.

Lemma retried_witness :
  ∃ r, bind_mailbox brackets dev_rows second_tables (dev_request "s1" "t1") = (r, second_tables) ∧
    (r = Ok dev_channel ∨ ∃ e, r = Err e).
Proof.
  apply (retried_binds_change_nothing brackets dev_rows no_tables (dev_request "s1" "t1") dev_channel first_tables (rtc_refl _ _) eq_refl).
  - unfold first_tables. apply injective_projections; [by vm_compute|done].
  - exact second_step.
Defined.

Lemma quiet_witness :
  check_mailbox_fence brackets (dev_rows ++ [mkRow (mkClaimKey 500 "node" 500 "b" 0 "x") "agent/ops" "runtime.observed" None Null 500]) first_tables dev_channel = Ok tt.
Proof.
  apply (quiet_streams_stay_admitted brackets first_tables first_tables first_tables dev_rows _ [] [] dev_channel 300 []);
    [exact first_step|apply rtc_refl|apply rtc_refl| |by vm_compute|by vm_compute].
  intros r [->|Hr]%elem_of_cons; [done|by apply elem_of_nil in Hr].
Defined.
