(* ===== verification/Work.v ===== *)
(** * Work and its leases

    Models the work a step of a run is: claiming, renewing and finishing it under a lease
    ([work_action_extending] of [crates/st3/src/store.rs]), the transitions the reconciler makes
    ([set_step_state], [retry_step]), the claims they publish, and the projection of those claims
    on another replica ([project_mission_run_update]). The tables a transaction reads besides the steps
    (runs and generations, asks of people, seat queues, fresh sessions) are the record [Reads]. A
    claim's body is the record of the fields that are written and read; evidence, summaries and
    error details are left out. *)

From Stdlib Require Import Ascii.
From S2P Require Import Prelude StableSort Text Utf8 Mission.

(** A row of [step_runs], with the generation its subject names. *)
Record StepRow := mkStepRow {
  sr_subject : string;
  sr_run : string;
  sr_generation : string;
  sr_step : string;
  sr_status : string;
  sr_attempt : Z;
  sr_assigned_to : option string;
  sr_available_to : list string;
  sr_agentless : bool;
  sr_goals : list string;
  sr_worker_reported : bool;
  sr_claimant : option string;
  sr_claim_incarnation : option string;
  sr_claim_expires : option Z;
  sr_blocked_reason : option string;
  sr_not_before : option Z;
  sr_activated_at : option Z;
  sr_readiness_epoch : Z;
  sr_updated_at : Z
}.

(** The columns an update of the work sets. *)
Definition set_work (status : string) (worker_reported : bool) (claimant incarnation : option string) (expires : option Z)
    (reason : option string) (epoch updated : Z) (r : StepRow) : StepRow :=
  mkStepRow (sr_subject r) (sr_run r) (sr_generation r) (sr_step r) status (sr_attempt r) (sr_assigned_to r) (sr_available_to r)
    (sr_agentless r) (sr_goals r) worker_reported claimant incarnation expires reason (sr_not_before r) (sr_activated_at r) epoch updated.

Definition set_expiry (expires updated : Z) (r : StepRow) : StepRow :=
  set_work (sr_status r) (sr_worker_reported r) (sr_claimant r) (sr_claim_incarnation r) (Some expires) (sr_blocked_reason r)
    (sr_readiness_epoch r) updated r.

(** A view whose status and reason change, and one whose lease is dropped too. *)
Definition view_status (status : string) (reason : option string) (r : StepRow) : StepRow :=
  set_work status (sr_worker_reported r) (sr_claimant r) (sr_claim_incarnation r) (sr_claim_expires r) reason (sr_readiness_epoch r) (sr_updated_at r) r.
Definition view_unleased (status : string) (reason : option string) (r : StepRow) : StepRow :=
  set_work status (sr_worker_reported r) None None None reason (sr_readiness_epoch r) (sr_updated_at r) r.

(** The run, its generation and its root run. *)
Record Owner := mkOwner {
  ow_run_status : string;
  ow_run_phase : string;
  ow_current_generation : string;
  ow_generation_status : string;
  ow_root_status : string;
  ow_root_phase : string
}.

(** What a transaction reads besides the steps: the owner of a run's generation, whether a person's step has an
    ask that is no longer current, the asks a step waits for, the work its seat must take first, and
    whether the session is fresh enough for the step. *)
Record Reads := mkReads {
  rd_owner : string → string → option Owner;
  rd_ask_ended : string → bool;
  rd_blockers : string → list string;
  rd_seat_conflict : string → string → option string;
  rd_fresh_ready : StepRow → string → string → bool
}.

Record WorkRequest := mkWorkRequest {
  rq_actor : option string;
  rq_incarnation : option string;
  rq_summary : option string;
  rq_reason : option string;
  rq_evidence : list string;
  rq_key : string
}.

Record Fields := mkFields {
  fd_attempt : option Z;
  fd_status : option string;
  fd_reason : option string;
  fd_worker_reported : option bool;
  fd_claimant : option string;
  fd_claim_incarnation : option string;
  fd_claim_expires : option Z;
  fd_readiness_epoch : option Z;
  fd_not_before : option Z;
  fd_goals : option (list string);
  fd_extend_ms : option Z
}.

Record WorkClaim := mkWorkClaim {
  wc_subject : string;
  wc_kind : string;
  wc_actor : option string;
  wc_fields : Fields;
  wc_accepted_at : Z
}.

Record Renewal := mkRenewal {
  rn_attempt : Z;
  rn_owner : string;
  rn_incarnation : string;
  rn_expires : Z;
  rn_updated : Z
}.

Record WorkStore := mkWorkStore {
  ws_steps : gmap string StepRow;
  ws_idempotency : gmap string StepRow;
  ws_renewals : gmap string Renewal;
  ws_claims : list WorkClaim
}.

Definition MAX_STEP_EXTENSION_MS : Z := 7 * 24 * 60 * 60 * 1000.
Definition LEASE_MS : Z := 600000.

Definition is_terminal_run_state (status : string) : bool := bool_decide (status ∈ ["completed"; "failed"; "cancelled"]).
Definition is_terminal_generation_state (status : string) : bool :=
  bool_decide (status ∈ ["completed"; "failed"; "cancelled"; "superseded"]).

Definition owner_terminal (o : Owner) : bool :=
  is_terminal_run_state (ow_run_status o) || str_eqb (ow_run_phase o) "terminal" || is_terminal_generation_state (ow_generation_status o)
  || is_terminal_run_state (ow_root_status o) || str_eqb (ow_root_phase o) "terminal".

Definition leased_status (status : string) : bool := bool_decide (status ∈ ["claimed"; "working"; "verifying"; "blocked"]).

Definition normalize_step_run (value : string) : string := if starts_with "step-run/" value then value else "step-run/" +:+ value.
Definition normalize_actor (value default_kind : string) : string :=
  if contains_char "/"%char value then value else default_kind +:+ "/" +:+ value.

(** ** The state reads show *)

Definition apply_effective_step_state (rd : Reads) (now : Z) (r : StepRow) : StepRow :=
  match rd_owner rd (sr_run r) (sr_generation r) with
  | None => r
  | Some o =>
      let r :=
        if is_some_and (sr_assigned_to r) (starts_with "person/") && rd_ask_ended rd (sr_subject r)
           && bool_decide (sr_status r ∈ ["ready"; "pending"])
        then view_status "cancelled" (Some "the requester, originating attempt or owning run ended") r else r in
      if owner_terminal o || negb (str_eqb (sr_generation r) (ow_current_generation o))
      then
        if is_terminal_run_state (sr_status r) then view_unleased (sr_status r) (sr_blocked_reason r) r
        else view_unleased "cancelled" (Some "the owning mission run or generation is terminal") r
      else
        let r :=
          if leased_status (sr_status r) && is_some_and (sr_claim_expires r) (λ expiry, (expiry <=? now)%Z)
          then view_unleased "ready" (Some "the worker lease expired") r else r in
        let r :=
          if str_eqb (sr_status r) "waiting-person" && bool_decide (rd_blockers rd (sr_subject r) = [])
          then set_work "ready" (sr_worker_reported r) (sr_claimant r) (sr_claim_incarnation r) (sr_claim_expires r) None
                 (sr_readiness_epoch r + 1) (sr_updated_at r) r
          else r in
        if str_eqb (sr_status r) "ready" && is_some (sr_blocked_reason r)
        then if bool_decide (rd_blockers rd (sr_subject r) = []) then view_status "ready" None r
             else view_unleased "blocked" (sr_blocked_reason r) r
        else r
  end.

(** ** Work actions *)

Definition work_error (code message : string) : St3Error := mkSt3Error code message.

(** The checks before the transaction: the actor and its incarnation. *)
Definition check_request (action : string) (request : WorkRequest) (extend_ms : option Z) : result St3Error (string * string) :=
  if str_eqb action "extend" && negb (is_some_and extend_ms (λ by_ms, (1 <=? by_ms)%Z && (by_ms <=? MAX_STEP_EXTENSION_MS)%Z))
  then Err (work_error "invalid-extension" "an extension adds between 1 millisecond and 7 days")
  else if str_eqb action "extend" && is_none_or (rq_reason request) (λ reason, str_eqb (trim reason) "")
  then Err (work_error "extension-needs-reason" "an extension records why the step needs more time; pass --reason")
  else if negb (str_eqb action "extend") && is_some extend_ms
  then Err (work_error "invalid-work-action" "only an extension adds time")
  else
    match rq_actor request with
    | None => Err (work_error "missing-work-actor" "a work action needs an actor")
    | Some actor =>
        match rq_incarnation request with
        | Some incarnation =>
            if str_eqb incarnation ""
            then Err (work_error "missing-work-incarnation" "a work action must be fenced to one exact live agent incarnation")
            else Ok (normalize_actor actor "agent", incarnation)
        | None => Err (work_error "missing-work-incarnation" "a work action must be fenced to one exact live agent incarnation")
        end
    end.

(** Steps in the order of their subjects. *)
Definition step_rows (st : WorkStore) : list StepRow := map snd (in_key_order (ws_steps st)).

(** The successor of a superseded step, when it carries the actor's claim. *)
Definition carried_claim_successor (rd : Reads) (st : WorkStore) (r : StepRow) (actor : string) : option StepRow :=
  head (List.filter (λ s, str_eqb (sr_run s) (sr_run r) && str_eqb (sr_step s) (sr_step r) && ostr_eqb (sr_claimant s) (Some actor)
                          && negb (str_eqb (sr_generation s) (sr_generation r))
                          && ostr_eqb (Some (sr_generation s)) (ow_current_generation <$> rd_owner rd (sr_run r) (sr_generation r)))
          (step_rows st)).

Definition above (ancestor path : string) : bool := starts_with (ancestor +:+ "/") path.

(** Whether a leased step counts against the claim of [r]: it is of another generation, or neither holds the
    other. *)
Definition independent (r s : StepRow) : bool :=
  negb (str_eqb (sr_generation s) (sr_generation r)) || negb (above (sr_step s) (sr_step r) || above (sr_step r) (sr_step s)).

Definition lease_active (now : Z) (actor : string) (s : StepRow) : bool :=
  ostr_eqb (sr_claimant s) (Some actor) && leased_status (sr_status s) && is_some_and (sr_claim_expires s) (λ expiry, (now <? expiry)%Z).

Definition lease_valid (now : Z) (r : StepRow) : bool := is_some_and (sr_claim_expires r) (λ expiry, (now <? expiry)%Z).

(** The checks of the owner and of the claim, up to the lease. *)
Definition check_work (rd : Reads) (now : Z) (st : WorkStore) (action actor incarnation : string) (r : StepRow) : result St3Error unit :=
  let subject := sr_subject r in
  let claiming := str_eqb action "claim" in
  match rd_owner rd (sr_run r) (sr_generation r) with
  | None => Err (work_error "internal" "Query returned no rows")
  | Some o =>
      if negb (str_eqb (sr_generation r) (ow_current_generation o))
      then Err (work_error "stale-run-generation" ("step run `" +:+ subject +:+ "` belongs to a superseded generation"))
      else if owner_terminal o
      then Err (work_error "terminal-work-owner" ("the owner of step run `" +:+ subject +:+ "` is terminal"))
      else if claiming && str_eqb (ow_run_phase o) "revision-draining"
      then Err (work_error "run-generation-draining" "the current generation is draining for a revision cutover")
      else if claiming && is_some (sr_blocked_reason r) && negb (bool_decide (rd_blockers rd subject = []))
      then Err (work_error "work-not-ready" ("step run `" +:+ subject +:+ "` has an unresolved external blocker"))
      else if sr_agentless r || negb (ostr_eqb (sr_assigned_to r) (Some actor) || bool_decide (actor ∈ sr_available_to r))
      then Err (work_error "work-not-available" ("`" +:+ subject +:+ "` is not available to `" +:+ actor +:+ "`"))
      else
        match (if claiming then List.find (independent r) (List.filter (λ s, lease_active now actor s && negb (str_eqb (sr_subject s) subject)) (step_rows st)) else None) with
        | Some active =>
            Err (work_error "agent-capacity"
                   ("`" +:+ actor +:+ "` already owns independent work `" +:+ sr_subject active +:+ "`; finish or release it before claiming `" +:+ subject +:+ "`"))
        | None =>
            if is_terminal_run_state (sr_status r)
            then Err (work_error "terminal-step-run" ("step run `" +:+ subject +:+ "` is already " +:+ sr_status r))
            else
              match (if claiming && str_eqb (sr_status r) "ready" then rd_seat_conflict rd actor subject else None) with
              | Some next =>
                  Err (work_error "seat-queue-order"
                         ("`" +:+ subject +:+ "` is not the next work for `" +:+ actor +:+ "`; claim `" +:+ next
                          +:+ "` first. A person, or an agent with queue authority for this seat, can reorder it with `st agents queue move`"))
              | None =>
                  if claiming && str_eqb (sr_status r) "ready" && negb (rd_fresh_ready rd r actor incarnation)
                  then Err (work_error "fresh-context-pending"
                              ("`" +:+ actor +:+ "` must start a fresh harness session before claiming `" +:+ subject +:+ "`"))
                  else if lease_valid now r && negb (ostr_eqb (sr_claimant r) (Some actor))
                  then Err (work_error "work-already-claimed" ("step run `" +:+ subject +:+ "` has an active lease"))
                  else if negb claiming && (negb (lease_valid now r) || negb (ostr_eqb (sr_claimant r) (Some actor)))
                  then Err (work_error "work-not-claimed" ("`" +:+ actor +:+ "` does not hold an active lease for `" +:+ subject +:+ "`"))
                  else if lease_valid now r && ostr_eqb (sr_claimant r) (Some actor) && negb (ostr_eqb (sr_claim_incarnation r) (Some incarnation))
                  then Err (work_error "wrong-work-incarnation" ("another `" +:+ actor +:+ "` incarnation holds `" +:+ subject +:+ "`"))
                  else Ok tt
              end
        end
  end.

(** The row's new status, report and lease. *)
Record Outcome := mkOutcome {
  oc_status : string;
  oc_reported : bool;
  oc_claimant : option string;
  oc_incarnation : option string;
  oc_expires : option Z
}.

Definition action_outcome (now : Z) (action actor : string) (incarnation : option string) (r : StepRow) : result St3Error Outcome :=
  let held status := mkOutcome status (sr_worker_reported r) (Some actor) incarnation (Some (now + LEASE_MS)%Z) in
  if str_eqb action "claim" then
    if negb (str_eqb (sr_status r) "ready") && negb (str_eqb (sr_status r) "claimed")
    then Err (work_error "work-not-ready" ("step run `" +:+ sr_subject r +:+ "` is " +:+ sr_status r))
    else Ok (held "claimed")
  else if str_eqb action "renew" then Ok (held (sr_status r))
  else if str_eqb action "progress" then Ok (held "working")
  else if str_eqb action "extend" then Ok (held (sr_status r))
  else if str_eqb action "complete" then Ok (mkOutcome "verifying" true None None None)
  else if str_eqb action "fail" then Ok (mkOutcome "failed" (sr_worker_reported r) None None None)
  else if str_eqb action "release" then Ok (mkOutcome "ready" (sr_worker_reported r) None None None)
  else Err (work_error "invalid-work-action" ("work action `" +:+ action +:+ "` is not registered")).

(** Total, as the action has an outcome: the last arm is [unreachable!]. *)
Definition action_claim_kind (action : string) : string :=
  if str_eqb action "claim" then "work.claimed"
  else if str_eqb action "renew" then "work.renewed"
  else if str_eqb action "progress" then "work.progress"
  else if str_eqb action "complete" then "work.submitted"
  else if str_eqb action "fail" then "work.failed"
  else if str_eqb action "release" then "work.released"
  else "work.extended".

(** [renew_nested_ancestor_leases_tx], on one row. *)
Definition renew_ancestor (generation path actor : string) (incarnation : option string) (now : Z) (s : StepRow) : StepRow :=
  if str_eqb (sr_generation s) generation && above (sr_step s) path && bool_decide (sr_status s ∈ ["claimed"; "working"; "verifying"])
     && ostr_eqb (sr_claimant s) (Some actor) && ostr_eqb (sr_claim_incarnation s) incarnation
  then set_expiry (now + LEASE_MS) now s else s.

(** The expiry of the last claim that replicated the step's lease. *)
Definition last_replicated_expiry (st : WorkStore) (subject : string) : option Z :=
  head (reverse (List.filter (λ c, str_eqb (wc_subject c) subject && bool_decide (wc_kind c ∈ ["work.claimed"; "work.renewed"; "work.progress"]))
                   (ws_claims st))) ≫= λ c, fd_claim_expires (wc_fields c).

Definition quiet_renewal (action : string) (request : WorkRequest) : bool :=
  str_eqb action "renew" && is_none (rq_summary request) && is_none (rq_reason request) && bool_decide (rq_evidence request = []).

Section actions.
(** SHA-256 of the key. *)
Context (opaque_cache_key : string → string).

(** The writes. [current] is the view the checks passed; [accepted] is when the claim is accepted. *)
Definition write_work (now accepted : Z) (st : WorkStore) (action actor incarnation : string) (request : WorkRequest) (extend_ms : option Z)
    (current : StepRow) (o : Outcome) : option (StepRow * WorkStore) :=
  let subject := sr_subject current in
  let epoch :=
    Z.min u32_max (sr_readiness_epoch current + (if str_eqb (oc_status o) "ready" && negb (str_eqb (sr_status current) "ready") then 1 else 0)) in
  let actor_incarnation := match sr_claim_incarnation current with Some i => Some i | None => Some incarnation end in
  let update := set_work (oc_status o) (oc_reported o) (oc_claimant o) (oc_incarnation o) (oc_expires o) (rq_reason request) epoch now in
  let steps := renew_ancestor (sr_generation current) (sr_step current) actor actor_incarnation now <$> alter update subject (ws_steps st) in
  let fields :=
    mkFields (Some (sr_attempt current)) (Some (oc_status o)) (rq_reason request) (Some (oc_reported o)) (oc_claimant o) (oc_incarnation o)
      (oc_expires o) (Some epoch) None None extend_ms in
  let publish :=
    negb (quiet_renewal action request)
    || is_none_or (last_replicated_expiry st subject) (λ expiry, (expiry <=? now + 300000)%Z) in
  match steps !! subject with
  | None => None
  | Some view =>
      let idempotency := <[opaque_cache_key (rq_key request) := view]> (ws_idempotency st) in
      if publish
      then Some (view, mkWorkStore steps idempotency (delete subject (ws_renewals st))
                         (ws_claims st ++ [mkWorkClaim subject (action_claim_kind action) (Some actor) fields accepted]))
      else
        match oc_expires o with
        | None => None
        | Some expires =>
            Some (view, mkWorkStore steps idempotency
                          (<[subject := mkRenewal (sr_attempt current) actor incarnation expires now]> (ws_renewals st)) (ws_claims st))
        end
  end.

(** [None] is a failed lookup of the row just written, or a renewal without an expiry. *)
Definition work_action (rd : Reads) (now accepted : Z) (st : WorkStore) (subject action : string) (request : WorkRequest)
    (extend_ms : option Z) : option (result St3Error StepRow * WorkStore) :=
  match check_request action request extend_ms with
  | Err e => Some (Err e, st)
  | Ok (actor, incarnation) =>
      let subject := normalize_step_run subject in
      match ws_idempotency st !! opaque_cache_key (rq_key request) with
      | Some response => Some (Ok response, st)
      | None =>
          match ws_steps st !! subject with
          | None => Some (Err (work_error "missing-step-run" ("step run `" +:+ subject +:+ "` does not exist")), st)
          | Some row =>
              let current :=
                if str_eqb action "claim" then apply_effective_step_state rd now row
                else default row (carried_claim_successor rd st row actor) in
              match check_work rd now st action actor incarnation current with
              | Err e => Some (Err e, st)
              | Ok _ =>
                  let effective_incarnation := match sr_claim_incarnation current with Some i => Some i | None => Some incarnation end in
                  match action_outcome now action actor effective_incarnation current with
                  | Err e => Some (Err e, st)
                  | Ok o =>
                      match write_work now accepted st action actor incarnation request extend_ms current o with
                      | Some (view, st') => Some (Ok view, st')
                      | None => None
                      end
                  end
              end
          end
      end
  end.
End actions.

(** ** The reconciler's transitions *)

Definition released_by (status : string) : bool := bool_decide (status ∈ ["ready"; "completed"; "failed"; "cancelled"]).

(** The row of [set_step_state]; [activated] is the time of its claim. *)
Definition state_row (released : bool) (status : string) (reason : option string) (epoch activated updated : Z) (r : StepRow) : StepRow :=
  mkStepRow (sr_subject r) (sr_run r) (sr_generation r) (sr_step r) status (sr_attempt r) (sr_assigned_to r) (sr_available_to r)
    (sr_agentless r) (sr_goals r) (sr_worker_reported r)
    (if released then None else sr_claimant r) (if released then None else sr_claim_incarnation r) (if released then None else sr_claim_expires r)
    reason (if str_eqb status "ready" then None else sr_not_before r) (if str_eqb status "ready" then Some activated else sr_activated_at r)
    epoch updated.

Definition set_step_state (rd : Reads) (now accepted : Z) (st : WorkStore) (subject status : string) (reason : option string) : bool * WorkStore :=
  let subject := normalize_step_run subject in
  match ws_steps st !! subject with
  | None => (false, st)
  | Some r =>
      match rd_owner rd (sr_run r) (sr_generation r) with
      | None => (false, st)
      | Some o =>
          if negb (str_eqb (sr_generation r) (ow_current_generation o)) || str_eqb (sr_status r) status
             || (owner_terminal o && negb (is_terminal_run_state status))
          then (false, st)
          else
            let epoch := Z.min u32_max (sr_readiness_epoch r + (if str_eqb status "ready" then 1 else 0)) in
            (true, mkWorkStore (<[subject := state_row (released_by status) status reason epoch accepted now r]> (ws_steps st)) (ws_idempotency st) (ws_renewals st)
                     (ws_claims st ++ [mkWorkClaim subject "step-run.state" None
                                         (mkFields None (Some status) reason None None None None (Some epoch) None None None) accepted]))
      end
  end.

(** The row of a new attempt. *)
Definition retried_row (attempt : Z) (reason : option string) (not_before : option Z) (goals : list string) (updated : Z) (r : StepRow) : StepRow :=
  mkStepRow (sr_subject r) (sr_run r) (sr_generation r) (sr_step r) "pending" attempt (sr_assigned_to r) (sr_available_to r)
    (sr_agentless r) goals false None None None reason not_before None (sr_readiness_epoch r) updated.

Definition retry_step_as (rd : Reads) (now accepted : Z) (st : WorkStore) (subject : string) (actor : option string) (reason : string) (backoff_ms : Z) :
    bool * WorkStore :=
  let subject := normalize_step_run subject in
  match ws_steps st !! subject with
  | None => (false, st)
  | Some r =>
      match rd_owner rd (sr_run r) (sr_generation r) with
      | None => (false, st)
      | Some o =>
          if negb (str_eqb (sr_generation r) (ow_current_generation o)) || negb (str_eqb (sr_status r) "failed") || owner_terminal o
          then (false, st)
          else
            let attempt := Z.min u32_max (sr_attempt r + 1) in
            let not_before := Z.min u128_max (now + backoff_ms) in
            (true, mkWorkStore (<[subject := retried_row attempt (Some reason) (Some not_before) (sr_goals r) now r]> (ws_steps st)) (ws_idempotency st)
                     (ws_renewals st)
                     (ws_claims st ++ [mkWorkClaim subject "step-run.retried" actor
                                         (mkFields (Some attempt) (Some "pending") (Some reason) None None None None None (Some not_before) None None) accepted]))
      end
  end.

Definition step_owner_is_terminal (rd : Reads) (r : StepRow) : bool :=
  is_some_and (rd_owner rd (sr_run r) (sr_generation r)) (λ o, owner_terminal o || negb (str_eqb (ow_current_generation o) (sr_generation r))).

Definition retry_step_for_feedback (rd : Reads) (now accepted : Z) (st : WorkStore) (subject : string) (reviewed_attempt : Z) (reason reviewer : string) :
    bool * WorkStore :=
  let subject := normalize_step_run subject in
  match ws_steps st !! subject with
  | None => (false, st)
  | Some r =>
      if negb (sr_attempt r =? reviewed_attempt)%Z || negb (bool_decide (sr_status r ∈ ["verifying"; "working"; "blocked"])) || step_owner_is_terminal rd r
      then (false, st)
      else
        let goals := sr_goals r ++ ["Reviewer feedback: " +:+ reason] in
        let attempt := Z.min u32_max (sr_attempt r + 1) in
        (true, mkWorkStore (<[subject := retried_row attempt (Some reason) None goals now r]> (ws_steps st)) (ws_idempotency st) (ws_renewals st)
                 (ws_claims st ++ [mkWorkClaim subject "step-run.retried" (Some reviewer)
                                     (mkFields (Some attempt) (Some "pending") (Some reason) None None None None None None (Some goals) None) accepted]))
  end.

(** ** Projection *)

(** What a replica makes of a step's row when it admits a claim about it. *)
Definition project_step (rd : Reads) (c : WorkClaim) (r : StepRow) : StepRow :=
  let f := wc_fields c in
  let terminal := step_owner_is_terminal rd r in
  if str_eqb (wc_kind c) "step-run.retried" then
    if terminal then r
    else match fd_attempt f with
         | None => r
         | Some attempt => retried_row attempt (fd_reason f) (fd_not_before f) (default (sr_goals r) (fd_goals f)) (wc_accepted_at c) r
         end
  else
    match fd_status f with
    | None => r
    | Some status =>
        if terminal && negb (is_terminal_run_state status) then r
        else if str_eqb (wc_kind c) "step-run.state"
        then state_row (bool_decide (status ∈ ["ready"; "orphaned"; "completed"; "failed"; "cancelled"])) status (fd_reason f)
               (default (sr_readiness_epoch r) (fd_readiness_epoch f)) (wc_accepted_at c) (wc_accepted_at c) r
        else if starts_with "work." (wc_kind c)
        then
          if terminal then r
          else if negb (default 1%Z (fd_attempt f) =? sr_attempt r)%Z then r
          else set_work status (default false (fd_worker_reported f)) (fd_claimant f) (fd_claim_incarnation f) (fd_claim_expires f) (fd_reason f)
                 (default (sr_readiness_epoch r) (fd_readiness_epoch f)) (wc_accepted_at c) r
        else r
    end.

Definition project_mission_run_update (rd : Reads) (c : WorkClaim) (steps : gmap string StepRow) : gmap string StepRow :=
  if starts_with "step-run/" (wc_subject c) then alter (project_step rd c) (wc_subject c) steps else steps.

(** ** What the tables keep *)

(** A lease is whole or absent, and a step that is ready or waits for a person has none. *)
Definition row_ok (r : StepRow) : Prop :=
  (is_some (sr_claimant r) = is_some (sr_claim_incarnation r) ∧ is_some (sr_claimant r) = is_some (sr_claim_expires r)) ∧
  (sr_status r = "ready" ∨ sr_status r = "waiting-person" → sr_claimant r = None).

(** Rows lie under their subjects, and a generation has one row for a path. *)
Record store_ok (st : WorkStore) : Prop := {
  so_subject : ∀ s r, ws_steps st !! s = Some r → sr_subject r = s ∧ starts_with "step-run/" s = true;
  so_row : ∀ s r, ws_steps st !! s = Some r → row_ok r;
  so_path : ∀ s s' r r', ws_steps st !! s = Some r → ws_steps st !! s' = Some r' →
    sr_generation r = sr_generation r' → sr_step r = sr_step r' → s = s'
}.

(** The columns no operation on work changes. *)
Definition same_place (r r' : StepRow) : Prop :=
  sr_subject r = sr_subject r' ∧ sr_run r = sr_run r' ∧ sr_generation r = sr_generation r' ∧ sr_step r = sr_step r' ∧ sr_attempt r = sr_attempt r'.

Lemma effective_place rd now r : same_place r (apply_effective_step_state rd now r).
Proof.
  unfold apply_effective_step_state. destruct (rd_owner _ _ _); [|done].
  repeat (match goal with |- context [if ?b then _ else _] => destruct b end); done.
Qed.

(** A live owner's step shows its lease while it is valid, and none when the step can be claimed anew. *)
Lemma effective_lease rd now r o :
  row_ok r → rd_owner rd (sr_run r) (sr_generation r) = Some o → owner_terminal o = false → sr_generation r = ow_current_generation o →
  let r' := apply_effective_step_state rd now r in
  (lease_valid now r = true → sr_claimant r' = sr_claimant r ∧ sr_claim_incarnation r' = sr_claim_incarnation r ∧ sr_claim_expires r' = sr_claim_expires r) ∧
  (lease_valid now r' = false → sr_status r' = "ready" ∨ sr_status r' = "claimed" → sr_claim_incarnation r' = None).
Proof.
  intros [[Hi He] Hidle] Ho Ht Hg. unfold apply_effective_step_state. rewrite Ho.
  set (r1 := if _ && _ && _ then _ else r).
  assert (Hr1 : sr_claimant r1 = sr_claimant r ∧ sr_claim_incarnation r1 = sr_claim_incarnation r ∧ sr_claim_expires r1 = sr_claim_expires r ∧
    sr_generation r1 = sr_generation r ∧ (sr_status r1 = sr_status r ∨ sr_status r1 = "cancelled")) by (unfold r1; destruct (_ && _ && _); cbn; auto 10).
  clearbody r1. destruct Hr1 as (C1 & I1 & E1 & G1 & S1). rewrite Ht, G1, Hg, str_eqb_refl. cbn [orb negb].
  assert (Hnone : sr_claimant r = None → sr_claim_incarnation r = None ∧ sr_claim_expires r = None).
  { intros Hc. rewrite Hc in Hi, He. by destruct (sr_claim_incarnation r), (sr_claim_expires r). }
  unfold lease_valid. destruct (leased_status (sr_status r1)) eqn:El.
  - destruct (sr_claim_expires r1) as [e|] eqn:Ee; cbn [is_some_and].
    + destruct (Z.leb_spec e now); cbn [andb].
      * cbn. rewrite <- E1. cbn. split; [rewrite (proj2 (Z.ltb_ge now e)) by lia; done|].
        intros _ _. by destruct (bool_decide (rd_blockers rd _ = [])).
      * assert (sr_status r1 ≠ "waiting-person" ∧ sr_status r1 ≠ "ready") as [Hw Hr] by (split; intros E; by rewrite E in El).
        rewrite (proj2 (str_eqb_false _ _) Hw). cbn [andb]. rewrite (proj2 (str_eqb_false _ _) Hr). cbn [andb]. split; [intros _; by rewrite Ee|]. rewrite Ee. cbn. rewrite (proj2 (Z.ltb_lt now e)) by lia. done.
    + cbn [andb].
      assert (sr_status r1 ≠ "waiting-person" ∧ sr_status r1 ≠ "ready") as [Hw Hr] by (split; intros E; by rewrite E in El).
      rewrite (proj2 (str_eqb_false _ _) Hw). cbn [andb]. rewrite (proj2 (str_eqb_false _ _) Hr). cbn [andb]. rewrite <- E1. split; [done|]. intros _ _. rewrite I1.
      rewrite <- E1 in He. destruct (sr_claimant r); [done|]. by destruct (sr_claim_incarnation r).
  - cbn [andb]. destruct (str_eqb (sr_status r1) "waiting-person") eqn:Ew.
    + apply str_eqb_true in Ew. destruct S1 as [S1|S1]; [|congruence]. destruct Hnone as [Hni Hne]; [apply Hidle; right; congruence|].
      destruct (bool_decide (rd_blockers rd (sr_subject r1) = [])); cbn -[str_eqb]; rewrite ?Ew;
        change (str_eqb "waiting-person" "ready") with false; change (str_eqb "ready" "ready") with true; cbn [andb is_some];
        rewrite ?C1, ?I1, ?E1, ?Hni, ?Hne; split; auto.
    + cbn [andb]. destruct (str_eqb (sr_status r1) "ready") eqn:Er.
      * apply str_eqb_true in Er. destruct S1 as [S1|S1]; [|congruence]. destruct Hnone as [Hni Hne]; [apply Hidle; left; congruence|].
        destruct (is_some (sr_blocked_reason r1)); cbn [andb]; [destruct (bool_decide (rd_blockers rd (sr_subject r1) = []))|];
          cbn -[str_eqb]; rewrite ?C1, ?I1, ?E1, ?Hni, ?Hne; split; auto; done.
      * cbn [andb]. split; [auto|]. intros _ [Hs|Hs]; [by rewrite Hs in Er|by rewrite Hs in El].
Qed.

(** ** Accepted actions *)

(** What an accepted action that was not answered before has passed. *)
Record accepted_action (opaque_cache_key : string → string) rd now accepted st subject action request extend_ms view st' actor incarnation
    (row current : StepRow) (o : Outcome) : Prop := {
  ac_request : check_request action request extend_ms = Ok (actor, incarnation);
  ac_new : ws_idempotency st !! opaque_cache_key (rq_key request) = None;
  ac_row : ws_steps st !! normalize_step_run subject = Some row;
  ac_current : current = if str_eqb action "claim" then apply_effective_step_state rd now row
                         else default row (carried_claim_successor rd st row actor);
  ac_checked : check_work rd now st action actor incarnation current = Ok tt;
  ac_outcome : action_outcome now action actor (match sr_claim_incarnation current with Some i => Some i | None => Some incarnation end) current = Ok o;
  ac_written : write_work opaque_cache_key now accepted st action actor incarnation request extend_ms current o = Some (view, st')
}.

Section accepted.
Context (opaque_cache_key : string → string) (rd : Reads) (now accepted : Z) (st : WorkStore) (Hst : store_ok st).
Context (subject action : string) (request : WorkRequest) (extend_ms : option Z).

Lemma work_action_Ok view st' :
  work_action opaque_cache_key rd now accepted st subject action request extend_ms = Some (Ok view, st') →
  st' = st ∨ ∃ actor incarnation row current o,
    accepted_action opaque_cache_key rd now accepted st subject action request extend_ms view st' actor incarnation row current o.
Proof.
  unfold work_action. destruct (check_request _ _ _) as [[actor incarnation]|] eqn:E1; [|done].
  destruct (ws_idempotency st !! _) eqn:E2; [intros [= _ <-]; by left|]. destruct (ws_steps st !! _) as [row|] eqn:E3; [|done].
  set (current := if str_eqb action "claim" then _ else _). destruct (check_work _ _ _ _ _ _ _) as [[]|] eqn:E4; [|done].
  destruct (action_outcome _ _ _ _ _) as [o|] eqn:E5; [|done]. destruct (write_work _ _ _ _ _ _ _ _ _ _ _) as [[v s]|] eqn:E6; [|done].
  intros [= <- <-]. right. exists actor, incarnation, row, current, o. by split.
Qed.

(** A refused action changes nothing. *)
Lemma work_action_Err e st' :
  work_action opaque_cache_key rd now accepted st subject action request extend_ms = Some (Err e, st') → st' = st.
Proof.
  unfold work_action. destruct (check_request _ _ _) as [[actor incarnation]|]; [|by intros [= _ <-]].
  destruct (ws_idempotency st !! _); [done|]. destruct (ws_steps st !! _) as [row|]; [|by intros [= _ <-]].
  destruct (check_work _ _ _ _ _ _ _); [|by intros [= _ <-]]. destruct (action_outcome _ _ _ _ _); [|by intros [= _ <-]].
  by destruct (write_work _ _ _ _ _ _ _ _ _ _ _) as [[]|].
Qed.

Section one.
Context view st' actor incarnation row current o
  (H : accepted_action opaque_cache_key rd now accepted st subject action request extend_ms view st' actor incarnation row current o).

(** The checks, as facts. *)
Lemma checked_owner : ∃ ow, rd_owner rd (sr_run current) (sr_generation current) = Some ow ∧ owner_terminal ow = false ∧ sr_generation current = ow_current_generation ow.
Proof.
  pose proof (ac_checked _ _ _ _ _ _ _ _ _ _ _ _ _ _ _ _ H) as Hc. unfold check_work in Hc. destruct (rd_owner _ _ _) as [ow|]; [|done]. exists ow.
  destruct (str_eqb (sr_generation current) _) eqn:E; [|done]. apply str_eqb_true in E. cbn [negb] in Hc. by destruct (owner_terminal ow).
Qed.

Lemma checked_lease :
  (lease_valid now current = true → sr_claimant current = Some actor ∧ sr_claim_incarnation current = Some incarnation) ∧
  (lease_valid now current = false → action = "claim").
Proof.
  pose proof (ac_checked _ _ _ _ _ _ _ _ _ _ _ _ _ _ _ _ H) as Hc. unfold check_work in Hc. destruct (rd_owner _ _ _) as [ow|]; [|done].
  do 5 (match type of Hc with (if ?b then _ else _) = _ => destruct b; [done|] end).
  destruct (if str_eqb action "claim" then List.find _ _ else None); [done|]. destruct (is_terminal_run_state _); [done|].
  destruct (if _ && _ then rd_seat_conflict _ _ _ else None); [done|]. destruct (_ && _ && _); [done|].
  destruct (lease_valid now current); cbn [andb negb] in Hc.
  - destruct (ostr_eqb (sr_claimant current) (Some actor)) eqn:Ea; [|done]. cbn [negb] in Hc. rewrite andb_false_r in Hc. cbn [andb] in Hc.
    destruct (ostr_eqb (sr_claim_incarnation current) (Some incarnation)) eqn:Ei; [|done]. apply bool_decide_eq_true in Ea, Ei. done.
  - split; [done|]. intros _. rewrite andb_true_r in Hc. destruct (str_eqb action "claim") eqn:E; [by apply str_eqb_true|done].
Qed.

(** The row acted on lies in the table, in the place the view shows. *)
Lemma acted_row : ∃ r, ws_steps st !! sr_subject current = Some r ∧ same_place r current ∧ row_ok r ∧ (action ≠ "claim" → r = current) ∧
  (action = "claim" → current = apply_effective_step_state rd now r).
Proof.
  pose proof (ac_row _ _ _ _ _ _ _ _ _ _ _ _ _ _ _ _ H) as Hr. pose proof (ac_current _ _ _ _ _ _ _ _ _ _ _ _ _ _ _ _ H) as Hc.
  destruct (str_eqb action "claim") eqn:Ea.
  - apply str_eqb_true in Ea. exists row. pose proof (effective_place rd now row) as Hp. rewrite <- Hc in Hp.
    destruct (so_subject st Hst _ _ Hr) as [Hs _]. assert (Hs' : sr_subject current = normalize_step_run subject) by (destruct Hp as [<- _]; done).
    rewrite Hs'. split; [done|]. split; [done|]. split; [by apply (so_row st Hst _ _ Hr)|]. by split.
  - apply str_eqb_false in Ea. destruct (carried_claim_successor rd st row actor) as [r|] eqn:Es; cbn in Hc; subst current.
    + unfold carried_claim_successor in Es. assert (Hin : r ∈ step_rows st).
      { destruct (List.filter _ _) as [|x l] eqn:E; [done|]. injection Es as ->. assert (Hx : r ∈ r :: l) by left. rewrite <- E in Hx. by apply lfilter_elem in Hx as [Hx _]. }
      apply list_elem_of_fmap in Hin as ([k r'] & -> & Hin). apply in_key_order_elem in Hin. cbn. destruct (so_subject st Hst _ _ Hin) as [-> _].
      exists r'. split; [done|]. split; [done|]. split; [by apply (so_row st Hst _ _ Hin)|]. by split.
    + destruct (so_subject st Hst _ _ Hr) as [-> _]. exists row. split; [done|]. split; [done|]. split; [by apply (so_row st Hst _ _ Hr)|]. by split.
Qed.

Lemma effective_incarnation : match sr_claim_incarnation current with Some i => Some i | None => Some incarnation end = Some incarnation.
Proof.
  destruct checked_lease as [Hv Hn]. destruct (lease_valid now current) eqn:El; [by destruct (Hv eq_refl) as [_ ->]|].
  destruct acted_row as (r & _ & (Hs & Hrun & Hg & _) & Hok & _ & Hcur). specialize (Hcur (Hn eq_refl)).
  destruct checked_owner as (ow & How & Ht & Hgen). rewrite <- Hrun, <- Hg in How. rewrite <- Hg in Hgen.
  destruct (effective_lease rd now r ow Hok How Ht Hgen) as [_ Heff]. rewrite <- Hcur in Heff. rewrite Heff; [done|done|].
  pose proof (ac_outcome _ _ _ _ _ _ _ _ _ _ _ _ _ _ _ _ H) as Ho. rewrite (Hn eq_refl) in Ho. unfold action_outcome in Ho.
  change (str_eqb "claim" "claim") with true in Ho. cbn iota in Ho.
  destruct (str_eqb (sr_status current) "ready") eqn:E1; [left; by apply str_eqb_true|].
  destruct (str_eqb (sr_status current) "claimed") eqn:E2; [right; by apply str_eqb_true|]. done.
Qed.

Definition new_epoch : Z :=
  Z.min u32_max (sr_readiness_epoch current + (if str_eqb (oc_status o) "ready" && negb (str_eqb (sr_status current) "ready") then 1 else 0)).
Definition acted : StepRow → StepRow :=
  set_work (oc_status o) (oc_reported o) (oc_claimant o) (oc_incarnation o) (oc_expires o) (rq_reason request) new_epoch now.

(** The steps afterwards: the row acted on, and its nested ancestors under the same lease. *)
Lemma written_steps :
  ws_steps st' = renew_ancestor (sr_generation current) (sr_step current) actor (Some incarnation) now <$> alter acted (sr_subject current) (ws_steps st).
Proof.
  pose proof (ac_written _ _ _ _ _ _ _ _ _ _ _ _ _ _ _ _ H) as Hw. unfold write_work in Hw. rewrite effective_incarnation in Hw. fold new_epoch in Hw. fold acted in Hw.
  destruct ((_ <$> _) !! sr_subject current); [|done]. destruct (negb _ || _); [by injection Hw as _ <-|]. destruct (oc_expires o); [|done]. by injection Hw as _ <-.
Qed.
End one.
End accepted.

(** C23. Leases are private: while a worker's lease on a step is valid, no accepted action of another worker, nor of
    another incarnation of the same one, changes the step's row in any way, whichever step it acts
    on. *)
Theorem leases_are_private opaque_cache_key rd now accepted st subject action request extend_ms view st' actor incarnation s r a i e :
  store_ok st → check_request action request extend_ms = Ok (actor, incarnation) →
  work_action opaque_cache_key rd now accepted st subject action request extend_ms = Some (Ok view, st') →
  ws_steps st !! s = Some r → sr_claimant r = Some a → sr_claim_incarnation r = Some i → sr_claim_expires r = Some e → (now < e)%Z →
  (actor, incarnation) ≠ (a, i) → ws_steps st' !! s = Some r.
Proof.
  intros Hst Hreq Hw Hr Ha Hi He Hnow Hne.
  destruct (work_action_Ok _ _ _ _ _ _ _ _ _ _ _ Hw) as [->|(actor' & inc' & row & current & o & H)]; [done|].
  pose proof (ac_request _ _ _ _ _ _ _ _ _ _ _ _ _ _ _ _ H) as Hreq'. rewrite Hreq in Hreq'. injection Hreq' as <- <-.
  assert (Hvalid : lease_valid now r = true) by (unfold lease_valid; rewrite He; cbn; by apply Z.ltb_lt).
  rewrite (written_steps _ _ _ _ _ Hst _ _ _ _ _ _ _ _ _ _ _ H), lookup_fmap.
  assert (Hs : s ≠ sr_subject current).
  { intros ->. destruct (acted_row _ _ _ _ _ Hst _ _ _ _ _ _ _ _ _ _ _ H) as (r' & Hr' & (_ & Hrun & Hg & _) & Hok & Hother & Hclaim).
    rewrite Hr in Hr'. injection Hr' as <-. destruct (checked_lease _ _ _ _ _ _ _ _ _ _ _ _ _ _ _ _ H) as [Hv Hn].
    assert (Hsame : lease_valid now current = true ∧ sr_claimant current = Some a ∧ sr_claim_incarnation current = Some i).
    { destruct (decide (action = "claim")) as [->|Hna]; [|by rewrite <- (Hother Hna)].
      destruct (checked_owner _ _ _ _ _ _ _ _ _ _ _ _ _ _ _ _ H) as (ow & How & Ht & Hgen). rewrite <- Hrun, <- Hg in How. rewrite <- Hg in Hgen.
      destruct (effective_lease rd now r ow Hok How Ht Hgen) as [Heff _]. rewrite <- (Hclaim eq_refl) in Heff. destruct (Heff Hvalid) as (E1 & E2 & E3).
      unfold lease_valid in *. rewrite E1, E2, E3. done. }
    destruct Hsame as (Hcv & Hca & Hci). destruct (Hv Hcv) as [Hv1 Hv2]. congruence. }
  rewrite lookup_alter_ne by done. rewrite Hr. cbn. f_equal. unfold renew_ancestor. rewrite Ha, Hi.
  destruct (ostr_eqb (Some a) (Some actor)) eqn:Ea; [|by rewrite !andb_false_r].
  destruct (ostr_eqb (Some i) (Some incarnation)) eqn:Ei; [|by rewrite !andb_false_r]. apply bool_decide_eq_true in Ea, Ei. congruence.
Qed.

(** ** One chain of nested work for each worker *)

Lemma above_spec x p : above x p = true ↔ ∃ t, p = x +:+ "/" +:+ t.
Proof.
  unfold above, starts_with. destruct (strip_prefix (x +:+ "/") p) as [t|] eqn:E; cbn.
  - apply strip_prefix_Some in E. split; [|done]. intros _. exists t. by rewrite str_app_assoc.
  - split; [done|]. intros [t ->]. assert (strip_prefix (x +:+ "/") (x +:+ "/" +:+ t) = Some t) by (apply strip_prefix_Some; by rewrite str_app_assoc). congruence.
Qed.

Lemma above_trans x y z : above x y = true → above y z = true → above x z = true.
Proof. rewrite !above_spec. intros [t ->] [u ->]. exists (t +:+ "/" +:+ u). by rewrite !str_app_assoc. Qed.

Lemma above_irrefl x : above x x = false.
Proof.
  apply not_true_iff_false. rewrite above_spec. intros [t Ht]. apply (f_equal String.length) in Ht. rewrite !str_length_app in Ht. cbn in Ht. lia.
Qed.

(** Two ancestors of a path are nested, unless they are one. *)
Lemma above_comparable x : ∀ y p, above x p = true → above y p = true → x = y ∨ above x y = true ∨ above y x = true.
Proof.
  induction x as [|c x IH]; intros [|d y] p; rewrite !above_spec; intros [t Ht] [u Hu].
  - by left.
  - right. left. rewrite Ht in Hu. cbn in Hu. injection Hu as <- Hu. exists y. done.
  - right. right. rewrite Hu in Ht. cbn in Ht. injection Ht as <- Ht. exists x. done.
  - rewrite Ht in Hu. cbn in Hu. injection Hu as <- Hu. destruct (IH y (x +:+ "/" +:+ t)) as [->|[Hxy|Hyx]].
    + apply above_spec. by exists t.
    + apply above_spec. by exists u.
    + by left.
    + right. left. apply above_spec in Hxy as [v ->]. by exists v.
    + right. right. apply above_spec in Hyx as [v ->]. by exists v.
Qed.

Lemma independent_false r s :
  independent r s = false ↔ sr_generation s = sr_generation r ∧ (above (sr_step s) (sr_step r) = true ∨ above (sr_step r) (sr_step s) = true).
Proof. unfold independent. rewrite orb_false_iff, !negb_false_iff, str_eqb_true, orb_true_iff. done. Qed.

Lemma independent_sym r s : independent r s = false → independent s r = false.
Proof. rewrite !independent_false. naive_solver. Qed.

(** The steps a worker holds at a time are nested in one another, in one generation. *)
Definition one_chain (now : Z) (a : string) (steps : gmap string StepRow) : Prop :=
  ∀ s s' r r', steps !! s = Some r → steps !! s' = Some r' → s ≠ s' → lease_active now a r = true → lease_active now a r' = true →
    independent r r' = false.

(** A step under a valid lease has a status the capacity check counts. *)
Definition leases_counted (now : Z) (steps : gmap string StepRow) : Prop :=
  ∀ s r, steps !! s = Some r → lease_valid now r = true → leased_status (sr_status r) = true.

Section chain.
Context (opaque_cache_key : string → string) (rd : Reads) (now accepted : Z) (st : WorkStore) (Hst : store_ok st).
Context (subject action : string) (request : WorkRequest) (extend_ms : option Z).
Context view st' actor incarnation row current o
  (H : accepted_action opaque_cache_key rd now accepted st subject action request extend_ms view st' actor incarnation row current o).
Context (Hchain : ∀ a, one_chain now a (ws_steps st)) (Hcounted : leases_counted now (ws_steps st)).

(** What the worker holds besides the step is nested with it. *)
Lemma held_nested s r :
  s ≠ sr_subject current → ws_steps st !! s = Some r → lease_active now actor r = true → independent current r = false.
Proof.
  intros Hne Hr Hact. destruct (str_eqb action "claim") eqn:Ea.
  - pose proof (ac_checked _ _ _ _ _ _ _ _ _ _ _ _ _ _ _ _ H) as Hc. unfold check_work in Hc. rewrite Ea in Hc. destruct (rd_owner _ _ _) as [ow|]; [|done].
    do 5 (match type of Hc with (if ?b then _ else _) = _ => destruct b; [done|] end).
    destruct (List.find (independent current) _) eqn:Ef; [done|]. apply (find_None_elem _ _ Ef). apply lfilter_elem. split.
    + apply list_elem_of_fmap. exists (s, r). split; [done|]. by apply in_key_order_elem.
    + destruct (so_subject st Hst _ _ Hr) as [-> _]. rewrite Hact. cbn [andb]. apply negb_true_iff, str_eqb_false. done.
  - apply str_eqb_false in Ea. destruct (acted_row _ _ _ _ _ Hst _ _ _ _ _ _ _ _ _ _ _ H) as (r0 & Hr0 & _ & _ & Hother & _). rewrite (Hother Ea) in Hr0.
    destruct (checked_lease _ _ _ _ _ _ _ _ _ _ _ _ _ _ _ _ H) as [Hv Hn]. destruct (lease_valid now current) eqn:El; [|by destruct Ea; apply Hn].
    apply (Hchain actor (sr_subject current) s); [done..|congruence| |done].
    destruct (Hv eq_refl) as [Hc _]. unfold lease_active. unfold lease_valid in El. rewrite Hc, El, (Hcounted _ _ Hr0) by done.
    unfold ostr_eqb. by rewrite bool_decide_true.
Qed.

(** A row afterwards is the one acted on, one renewed above it, or as it was. *)
Lemma row_after s r' :
  ws_steps st' !! s = Some r' →
  (s = sr_subject current ∧ sr_generation r' = sr_generation current ∧ sr_step r' = sr_step current ∧
     (sr_claimant r' = Some actor ∨ sr_claimant r' = None)) ∨
  (s ≠ sr_subject current ∧ ∃ r, ws_steps st !! s = Some r ∧ sr_generation r' = sr_generation r ∧ sr_step r' = sr_step r ∧
     (r' = r ∨ sr_claimant r' = Some actor ∧ sr_generation r = sr_generation current ∧ above (sr_step r) (sr_step current) = true)).
Proof.
  rewrite (written_steps _ _ _ _ _ Hst _ _ _ _ _ _ _ _ _ _ _ H), lookup_fmap.
  destruct (decide (s = sr_subject current)) as [->|Hne].
  - rewrite lookup_alter_eq. destruct (acted_row _ _ _ _ _ Hst _ _ _ _ _ _ _ _ _ _ _ H) as (r0 & -> & (_ & _ & Hg & Hs & _) & _). cbn.
    intros [= <-]. left. unfold renew_ancestor. cbn [sr_step acted set_work]. rewrite Hs, above_irrefl, andb_false_r. cbn [andb].
    split; [done|]. split; [done|]. split; [done|]. cbn.
    pose proof (ac_outcome _ _ _ _ _ _ _ _ _ _ _ _ _ _ _ _ H) as Ho. unfold action_outcome in Ho.
    repeat match type of Ho with (if ?b then _ else _) = _ => destruct b end; try done; injection Ho as <-; cbn; auto.
  - rewrite lookup_alter_ne by done. destruct (ws_steps st !! s) as [r|] eqn:Er; [|done]. cbn. intros [= <-]. right. split; [done|]. exists r.
    split; [done|]. unfold renew_ancestor. destruct (_ && _ && _ && _ && _) eqn:E; [|auto]. cbn. split; [done|]. split; [done|]. right.
    apply andb_true_iff in E as [[[[Hg%str_eqb_true Hab]%andb_true_iff _]%andb_true_iff Ha%bool_decide_eq_true]%andb_true_iff _]. done.
Qed.

Lemma chain_after a now' : (now ≤ now')%Z → one_chain now' a (ws_steps st').
Proof.
  intros Hle s s' r1 r2 H1 H2 Hss A1 A2.
  assert (Hact : ∀ r, lease_active now' a r = true → sr_claimant r = Some a ∧ lease_active now a r = true).
  { intros r. unfold lease_active. rewrite !andb_true_iff. intros [[Hc%bool_decide_eq_true Hs] He]. destruct (sr_claim_expires r) as [e|]; [|done].
    cbn in *. apply Z.ltb_lt in He. rewrite Hs, (proj2 (Z.ltb_lt now e)) by lia. unfold ostr_eqb. by rewrite bool_decide_true. }
  destruct (Hact _ A1) as [C1 B1], (Hact _ A2) as [C2 B2]. clear A1 A2.
  (* a row of the worker's besides the acted one is nested with it *)
  assert (Hmember : ∀ s r', ws_steps st' !! s = Some r' → s ≠ sr_subject current → a = actor → lease_active now a r' = true → independent current r' = false).
  { intros x r' Hx Hxs -> Hxa. destruct (row_after x r' Hx) as [[-> _]|(_ & r & Hr & Hg & Hp & [->|(_ & Hgc & Hab)])]; [done| |].
    - by apply (held_nested x).
    - apply independent_false. rewrite Hg, Hp. auto. }
  destruct (row_after s r1 H1) as [(-> & Hg1 & Hp1 & Hc1)|(Hs1 & o1 & O1 & Hg1 & Hp1 & D1)];
    destruct (row_after s' r2 H2) as [(-> & Hg2 & Hp2 & Hc2)|(Hs2 & o2 & O2 & Hg2 & Hp2 & D2)].
  - done.
  - assert (a = actor) as -> by (destruct Hc1; congruence). pose proof (Hmember s' r2 H2 Hs2 eq_refl B2) as Hm.
    apply independent_false in Hm. apply independent_false. by rewrite Hg1, Hp1.
  - assert (a = actor) as -> by (destruct Hc2; congruence). pose proof (Hmember s r1 H1 Hs1 eq_refl B1) as Hm. apply independent_sym.
    apply independent_false in Hm. apply independent_false. by rewrite Hg2, Hp2.
  - assert (Hrenewed : ∀ x y rx ry, ws_steps st' !! x = Some rx → ws_steps st' !! y = Some ry → x ≠ y → x ≠ sr_subject current → y ≠ sr_subject current →
      sr_claimant rx = Some actor → a = actor → (∃ ox oy, ws_steps st !! x = Some ox ∧ ws_steps st !! y = Some oy ∧ sr_generation rx = sr_generation ox ∧ sr_step rx = sr_step ox ∧ sr_generation ry = sr_generation oy ∧ sr_step ry = sr_step oy ∧ sr_generation ox = sr_generation current ∧ above (sr_step ox) (sr_step current) = true) →
      lease_active now a ry = true → independent rx ry = false).
    { intros x y rx ry Hx Hy Hxy Hxs Hys _ Ha (ox & oy & Ox & Oy & Gx & Px & Gy & Py & Gc & Ab) Hya.
      pose proof (Hmember y ry Hy Hys Ha Hya) as Hm. apply independent_false in Hm as [Gm Hm]. apply independent_false. rewrite Gx, Px, Gc, Gm. split; [done|].
      destruct Hm as [Hm|Hm].
      - destruct (above_comparable _ _ _ Ab Hm) as [E|[E|E]]; [|auto|auto]. exfalso. apply Hxy. apply (so_path st Hst x y ox oy Ox Oy); congruence.
      - right. by apply (above_trans _ (sr_step current)). }
    destruct D1 as [->|(Ha1 & Gc1 & Ab1)].
    + destruct D2 as [->|(Ha2 & Gc2 & Ab2)]; [by apply (Hchain a s s')|]. apply independent_sym.
      apply (Hrenewed s' s); [done|done|done|done|done|done|congruence| |done]. exists o2, o1. split_and!; done.
    + apply (Hrenewed s s'); [done|done|done|done|done|done|congruence| |done]. exists o1, o2. split_and!; done.
Qed.

(** Each row afterwards is one of before, in its place, with a lease that is whole or absent, and counted if there. *)
Lemma kept_after s r' :
  (∀ s r, ws_steps st !! s = Some r → sr_claimant r ≠ None → leased_status (sr_status r) = true) →
  ws_steps st' !! s = Some r' →
  ∃ r, ws_steps st !! s = Some r ∧ same_place r r' ∧
    (is_some (sr_claimant r') = is_some (sr_claim_incarnation r') ∧ is_some (sr_claimant r') = is_some (sr_claim_expires r')) ∧
    (sr_claimant r' ≠ None → leased_status (sr_status r') = true).
Proof using Hst H.
  intros Hheld. rewrite (written_steps _ _ _ _ _ Hst _ _ _ _ _ _ _ _ _ _ _ H), lookup_fmap.
  destruct (decide (s = sr_subject current)) as [->|Hne].
  - rewrite lookup_alter_eq. destruct (acted_row _ _ _ _ _ Hst _ _ _ _ _ _ _ _ _ _ _ H) as (r0 & Hr0 & (_ & _ & _ & Hs & _) & _ & Hother & _).
    rewrite Hr0. cbn [fmap option_fmap option_map]. intros [= <-]. exists r0. split; [done|]. unfold renew_ancestor. cbn [sr_step acted set_work].
    rewrite Hs, above_irrefl, andb_false_r. cbn [andb]. split; [done|]. cbn.
    pose proof (ac_outcome _ _ _ _ _ _ _ _ _ _ _ _ _ _ _ _ H) as Ho. rewrite (effective_incarnation _ _ _ _ _ Hst _ _ _ _ _ _ _ _ _ _ _ H) in Ho.
    assert (Hkept : str_eqb action "claim" = false → leased_status (sr_status current) = true).
    { intros Ea%str_eqb_false. destruct (checked_lease _ _ _ _ _ _ _ _ _ _ _ _ _ _ _ _ H) as [Hv Hn].
      destruct (lease_valid now current); [|by destruct Ea; apply Hn]. destruct (Hv eq_refl) as [Hc _].
      rewrite (Hother Ea) in Hr0. apply (Hheld _ _ Hr0). by rewrite Hc. }
    unfold action_outcome in Ho. destruct (str_eqb action "claim"); [destruct (_ && _); [done|]; by injection Ho as <-|].
    specialize (Hkept eq_refl). repeat match type of Ho with (if ?b then _ else _) = _ => destruct b end; try done; by injection Ho as <-.
  - rewrite lookup_alter_ne by done. destruct (ws_steps st !! s) as [r|] eqn:Er; [|done]. cbn. intros [= <-]. exists r. split; [done|].
    destruct (so_row st Hst _ _ Er) as [Hw _]. specialize (Hheld s r Er). unfold renew_ancestor. destruct (_ && _ && _ && _ && _) eqn:E; [|by split].
    apply andb_true_iff in E as [[_ Ha%bool_decide_eq_true]%andb_true_iff _]. destruct Hw as [Hi _]. rewrite Ha in *. cbn. rewrite Ha. by split.
Qed.
End chain.

(** ** Histories of work *)

(** What workers' actions and the reconciler's transitions keep: the steps a worker holds are nested in one another, and
    a step under a lease has a status that counts. *)
Record chained (now : Z) (st : WorkStore) : Prop := {
  ch_store : store_ok st;
  ch_counted : ∀ s r, ws_steps st !! s = Some r → sr_claimant r ≠ None → leased_status (sr_status r) = true;
  ch_chain : ∀ a, one_chain now a (ws_steps st)
}.

(** One operation on the steps, whatever its outcome. A transition gives a step that is under a lease a status that ends
    the lease or one that is counted. *)
Inductive work_step (opaque_cache_key : string → string) (now : Z) (st : WorkStore) : WorkStore → Prop :=
| step_action rd accepted subject action request extend_ms answer st' :
    work_action opaque_cache_key rd now accepted st subject action request extend_ms = Some (answer, st') →
    work_step opaque_cache_key now st st'
| step_state rd accepted subject status reason changed st' :
    released_by status = true ∨ leased_status status = true ∨
      (∀ r, ws_steps st !! normalize_step_run subject = Some r → sr_claimant r = None) →
    set_step_state rd now accepted st subject status reason = (changed, st') → work_step opaque_cache_key now st st'
| step_retry rd accepted subject actor reason backoff_ms changed st' :
    retry_step_as rd now accepted st subject actor reason backoff_ms = (changed, st') → work_step opaque_cache_key now st st'
| step_feedback rd accepted subject attempt reason reviewer changed st' :
    retry_step_for_feedback rd now accepted st subject attempt reason reviewer = (changed, st') → work_step opaque_cache_key now st st'.

(** Operations one after another, at times that do not go back. *)
Inductive work_history (opaque_cache_key : string → string) : Z → WorkStore → Z → WorkStore → Prop :=
| no_work now now' st : (now ≤ now')%Z → work_history opaque_cache_key now st now' st
| more_work now now1 now' st st1 st' :
    (now ≤ now1)%Z → work_step opaque_cache_key now1 st st1 → work_history opaque_cache_key now1 st1 now' st' →
    work_history opaque_cache_key now st now' st'.

(** A lease that is active at a time was active before. *)
Lemma lease_active_before now now' a r : (now ≤ now')%Z → lease_active now' a r = true → lease_active now a r = true.
Proof.
  intros Hle. unfold lease_active. rewrite !andb_true_iff. intros [? He]. split; [done|].
  destruct (sr_claim_expires r); [|done]. cbn in *. apply Z.ltb_lt in He. apply Z.ltb_lt. lia.
Qed.

Lemma chained_later now now' st : (now ≤ now')%Z → chained now st → chained now' st.
Proof.
  intros Hle [Hst Hc Hch]. split; [done..|]. intros a s s' r r' H1 H2 Hne A1 A2.
  by apply (Hch a s s' r r'); [..|eapply lease_active_before|eapply lease_active_before].
Qed.

(** Writing one row in its place, with a lease that was there and still counts, or with none. *)
Lemma write_row_chained now st st' s r r' :
  chained now st → ws_steps st !! s = Some r → ws_steps st' = <[s := r']> (ws_steps st) →
  sr_subject r' = sr_subject r → sr_generation r' = sr_generation r → sr_step r' = sr_step r →
  (sr_claimant r' = None ∧ sr_claim_incarnation r' = None ∧ sr_claim_expires r' = None) ∨
  (sr_claimant r' = sr_claimant r ∧ sr_claim_incarnation r' = sr_claim_incarnation r ∧ sr_claim_expires r' = sr_claim_expires r ∧
   leased_status (sr_status r') = true) →
  chained now st'.
Proof.
  intros [Hst Hc Hch] Hr Hw Hsub Hgen Hpath Hlease.
  assert (Hrow : ∀ x y, ws_steps st' !! x = Some y → ∃ y0, ws_steps st !! x = Some y0 ∧ sr_subject y = sr_subject y0 ∧
    sr_generation y = sr_generation y0 ∧ sr_step y = sr_step y0 ∧ row_ok y ∧ (sr_claimant y ≠ None → leased_status (sr_status y) = true) ∧
    ∀ a, lease_active now a y = true → lease_active now a y0 = true).
  { intros x y. rewrite Hw. destruct (decide (x = s)) as [->|Hne].
    2: { rewrite lookup_insert_ne by done. intros Hy. exists y. split_and!; [done..|by apply (so_row st Hst x)|by apply (Hc x)|done]. }
    rewrite lookup_insert_eq. intros [= <-]. exists r. split_and!; [done..| | |].
    - destruct Hlease as [(E1 & E2 & E3)|(E1 & E2 & E3 & Hl)]; unfold row_ok; [by rewrite E1, E2, E3|]. destruct (so_row st Hst _ _ Hr) as [Hwhole _].
      rewrite E1, E2, E3. split; [done|]. intros [E|E]; by rewrite E in Hl.
    - by destruct Hlease as [(E1 & _)|(_ & _ & _ & Hl)].
    - intros a. unfold lease_active. destruct Hlease as [(E1 & _)|(E1 & _ & E3 & _)]; rewrite E1; [done|]. rewrite E3.
      intros [[Ha _]%andb_true_iff He]%andb_true_iff. rewrite Ha, He. apply bool_decide_eq_true in Ha. by rewrite (Hc _ _ Hr) by by rewrite Ha. }
  split; [split|..].
  - intros x y Hy. destruct (Hrow x y Hy) as (y0 & Hy0 & Es & _). rewrite Es. by apply (so_subject st Hst).
  - intros x y Hy. by destruct (Hrow x y Hy) as (y0 & _ & _ & _ & _ & ? & _).
  - intros x x' y y' Hy Hy' Eg Ep. destruct (Hrow x y Hy) as (y0 & Hy0 & _ & G & P & _). destruct (Hrow x' y' Hy') as (y0' & Hy0' & _ & G' & P' & _).
    apply (so_path st Hst x x' y0 y0'); [done..|congruence|congruence].
  - intros x y Hy. by destruct (Hrow x y Hy) as (y0 & _ & _ & _ & _ & _ & ? & _).
  - intros a x x' y y' Hy Hy' Hne A A'. destruct (Hrow x y Hy) as (y0 & Hy0 & _ & G & P & _ & _ & B). destruct (Hrow x' y' Hy') as (y0' & Hy0' & _ & G' & P' & _ & _ & B').
    pose proof (Hch a x x' y0 y0' Hy0 Hy0' Hne (B a A) (B' a A')) as Hi. apply independent_false. apply independent_false in Hi. by rewrite G, P, G', P'.
Qed.

Lemma action_chained opaque_cache_key rd now accepted st subject action request extend_ms answer st' :
  chained now st → work_action opaque_cache_key rd now accepted st subject action request extend_ms = Some (answer, st') → chained now st'.
Proof.
  intros Hch Hw. pose proof Hch as [Hst Hc Hone].
  destruct answer as [view|e]; [|by apply (work_action_Err opaque_cache_key rd now accepted st) in Hw as ->].
  destruct (work_action_Ok _ _ _ _ _ _ _ _ _ _ _ Hw) as [->|(actor & incarnation & row & current & o & H)]; [done|].
  assert (Hcounted : leases_counted now (ws_steps st)).
  { intros s r Hr Hv. apply (Hc s r Hr). destruct (so_row st Hst _ _ Hr) as [[_ He] _]. unfold lease_valid in Hv.
    destruct (sr_claimant r); [done|]. by destruct (sr_claim_expires r). }
  pose proof (λ s r', kept_after _ _ _ _ _ Hst _ _ _ _ _ _ _ _ _ _ _ H s r' Hc) as Hrow.
  split; [split|..].
  - intros s r' Hr'. destruct (Hrow s r' Hr') as (r & Hr & (Es & _) & _). rewrite <- Es. by apply (so_subject st Hst).
  - intros s r' Hr'. destruct (Hrow s r' Hr') as (r & Hr & _ & Hwhole & Hl). split; [done|].
    intros Hidle. destruct (sr_claimant r') as [a|] eqn:Ea; [|done]. specialize (Hl ltac:(done)). by destruct Hidle as [E|E]; rewrite E in Hl.
  - intros s s' r1 r2 H1 H2 Eg Ep. destruct (Hrow s r1 H1) as (o1 & O1 & (_ & _ & G1 & P1 & _) & _). destruct (Hrow s' r2 H2) as (o2 & O2 & (_ & _ & G2 & P2 & _) & _).
    apply (so_path st Hst s s' o1 o2); [done..|congruence|congruence].
  - intros s r' Hr'. by destruct (Hrow s r' Hr') as (r & _ & _ & _ & ?).
  - intros a. by apply (chain_after _ _ _ _ _ Hst _ _ _ _ _ _ _ _ _ _ _ H Hone Hcounted).
Qed.

Lemma step_chained opaque_cache_key now st st' : chained now st → work_step opaque_cache_key now st st' → chained now st'.
Proof.
  intros Hch [rd accepted subject action request extend_ms answer s Hw|rd accepted subject status reason changed s Hs Hw
    |rd accepted subject actor reason backoff_ms changed s Hw|rd accepted subject attempt reason reviewer changed s Hw].
  - by eapply action_chained.
  - unfold set_step_state in Hw. destruct (ws_steps st !! _) as [r|] eqn:Er; [|by injection Hw as _ <-].
    destruct (rd_owner _ _ _) as [o|]; [|by injection Hw as _ <-]. destruct (_ || _ || _); [by injection Hw as _ <-|]. injection Hw as _ <-.
    eapply write_row_chained; [exact Hch|exact Er|done..|]. cbn. destruct (released_by status) eqn:El; [by left|].
    destruct Hs as [?|[Hs|Hs]]; [done|right; by split_and!|left]. specialize (Hs r eq_refl). destruct (so_row st (ch_store _ _ Hch) _ _ Er) as [[Hi He] _].
    rewrite Hs in *. by destruct (sr_claim_incarnation r), (sr_claim_expires r).
  - unfold retry_step_as in Hw. destruct (ws_steps st !! _) as [r|] eqn:Er; [|by injection Hw as _ <-].
    destruct (rd_owner _ _ _) as [o|]; [|by injection Hw as _ <-]. destruct (_ || _ || _); [by injection Hw as _ <-|]. injection Hw as _ <-.
    eapply write_row_chained; [exact Hch|exact Er|done..|]. by left.
  - unfold retry_step_for_feedback in Hw. destruct (ws_steps st !! _) as [r|] eqn:Er; [|by injection Hw as _ <-].
    destruct (_ || _ || _); [by injection Hw as _ <-|]. injection Hw as _ <-. eapply write_row_chained; [exact Hch|exact Er|done..|]. by left.
Qed.

(** C24. A worker holds one chain of work, over any history of one node's work on its steps: in a store where the steps each worker holds under leases are nested
    in one another, and each step that has a lease has a status the capacity check counts, both stay so after any
    actions of any workers, accepted or refused, and any transitions and retries of the reconciler, at the time and later, on
    one condition: a transition of a step that has a lease gives it a status that ends the lease (ready or ended) or is counted (claimed,
    working, verifying or blocked). A claim is accepted only for work nested with what the worker has, and the leases
    renewed above a step, which may have run out, cannot bring unrelated work back. Marking leased work orphaned is a transition that
    breaks the condition, and the rule ([orphaned_work_escapes_capacity]). *)
Theorem workers_keep_one_chain opaque_cache_key now st now' st' :
  chained now st → work_history opaque_cache_key now st now' st' → chained now' st'.
Proof.
  intros Hch Hh. revert Hch. induction Hh as [now now' st Hle|now now1 now' st st1 st' Hle Hs _ IH]; intros Hch; [by eapply chained_later|].
  apply IH. eapply step_chained; [|exact Hs]. by eapply chained_later.
Qed.

(** ** What replicas see *)

Definition dated (updated : Z) (r : StepRow) : StepRow :=
  set_work (sr_status r) (sr_worker_reported r) (sr_claimant r) (sr_claim_incarnation r) (sr_claim_expires r) (sr_blocked_reason r)
    (sr_readiness_epoch r) updated r.

(** The operations on a step that publish a claim about it. *)
Inductive published (opaque_cache_key : string → string) (rd : Reads) (now accepted : Z) (st st' : WorkStore) (c : WorkClaim) : Prop :=
| by_action subject action request extend_ms view :
    work_action opaque_cache_key rd now accepted st subject action request extend_ms = Some (Ok view, st') →
    ws_claims st' = ws_claims st ++ [c] → published opaque_cache_key rd now accepted st st' c
| by_state subject status reason :
    status ≠ "orphaned" → set_step_state rd now accepted st subject status reason = (true, st') →
    ws_claims st' = ws_claims st ++ [c] → published opaque_cache_key rd now accepted st st' c
| by_retry subject actor reason backoff_ms :
    retry_step_as rd now accepted st subject actor reason backoff_ms = (true, st') →
    ws_claims st' = ws_claims st ++ [c] → published opaque_cache_key rd now accepted st st' c
| by_feedback subject attempt reason reviewer :
    retry_step_for_feedback rd now accepted st subject attempt reason reviewer = (true, st') →
    ws_claims st' = ws_claims st ++ [c] → published opaque_cache_key rd now accepted st st' c.

Lemma app_one {A} (l : list A) x y : l ++ [x] = l ++ [y] → x = y.
Proof. intros E. apply app_inv_head in E. by injection E. Qed.

Lemma not_terminal rd r o :
  rd_owner rd (sr_run r) (sr_generation r) = Some o → owner_terminal o = false → sr_generation r = ow_current_generation o → step_owner_is_terminal rd r = false.
Proof. intros Ho Ht Hg. unfold step_owner_is_terminal. rewrite Ho. cbn. by rewrite Ht, Hg, str_eqb_refl. Qed.

Lemma claim_kind_work action :
  str_eqb (action_claim_kind action) "step-run.retried" = false ∧ str_eqb (action_claim_kind action) "step-run.state" = false ∧
  starts_with "work." (action_claim_kind action) = true.
Proof. unfold action_claim_kind. repeat match goal with |- context [if ?b then _ else _] => destruct b end; done. Qed.

(** A row without the update of another lies in the table as the projection reads it. *)
Definition agrees (rd : Reads) (accepted : Z) (st st' : WorkStore) (c : WorkClaim) : Prop :=
  ∃ r', ws_steps st' !! wc_subject c = Some r' ∧ project_mission_run_update rd c (ws_steps st) !! wc_subject c = Some (dated accepted r').

Lemma agrees_row rd accepted st st' c r r' :
  starts_with "step-run/" (wc_subject c) = true → ws_steps st !! wc_subject c = Some r → ws_steps st' !! wc_subject c = Some r' →
  project_step rd c r = dated accepted r' → agrees rd accepted st st' c.
Proof. intros Hs Hr Hr' Hp. exists r'. split; [done|]. unfold project_mission_run_update. by rewrite Hs, lookup_alter_eq, Hr, <- Hp. Qed.

Section agreement.
Context (rd : Reads) (now accepted : Z) (st : WorkStore) (Hst : store_ok st).

Lemma action_agrees opaque_cache_key subject action request extend_ms view st' c :
  work_action opaque_cache_key rd now accepted st subject action request extend_ms = Some (Ok view, st') →
  ws_claims st' = ws_claims st ++ [c] → agrees rd accepted st st' c.
Proof.
  intros Hw Hc. destruct (work_action_Ok _ _ _ _ _ _ _ _ _ _ _ Hw) as [->|(actor & incarnation & row & current & o & H)].
  { apply (f_equal length) in Hc. rewrite length_app in Hc. cbn in Hc. lia. }
  destruct (acted_row _ _ _ _ _ Hst _ _ _ _ _ _ _ _ _ _ _ H) as (r & Hr & (_ & Hrun & Hg & Hs & Hatt) & _).
  destruct (checked_owner _ _ _ _ _ _ _ _ _ _ _ _ _ _ _ _ H) as (ow & How & Ht & Hgen). rewrite <- Hrun, <- Hg in How. rewrite <- Hg in Hgen.
  pose proof (written_steps _ _ _ _ _ Hst _ _ _ _ _ _ _ _ _ _ _ H) as Hsteps.
  assert (Hc' : c = mkWorkClaim (sr_subject current) (action_claim_kind action) (Some actor)
    (mkFields (Some (sr_attempt current)) (Some (oc_status o)) (rq_reason request) (Some (oc_reported o)) (oc_claimant o) (oc_incarnation o)
      (oc_expires o) (Some (new_epoch current o)) None None extend_ms) accepted).
  { pose proof (ac_written _ _ _ _ _ _ _ _ _ _ _ _ _ _ _ _ H) as Hwr. unfold write_work in Hwr. fold (new_epoch current o) in Hwr.
    destruct ((_ <$> _) !! sr_subject current); [|done]. destruct (negb _ || _).
    - injection Hwr as _ Hst'. rewrite <- Hst' in Hc. cbn in Hc. symmetry. by apply app_one in Hc.
    - destruct (oc_expires o); [|done]. injection Hwr as _ Hst'. rewrite <- Hst' in Hc. cbn in Hc. apply (f_equal length) in Hc. rewrite length_app in Hc. cbn in Hc. lia. }
  subst c. apply (agrees_row rd accepted st st' _ r (acted now request current o r)).
  - destruct (so_subject st Hst _ _ Hr) as [_ Hpre]. done.
  - done.
  - cbn [wc_subject]. rewrite Hsteps, lookup_fmap, lookup_alter_eq, Hr. cbn. f_equal. unfold renew_ancestor. cbn [sr_step acted set_work].
    by rewrite Hs, above_irrefl, andb_false_r.
  - unfold project_step. cbn [wc_kind wc_fields wc_accepted_at fd_status fd_attempt]. destruct (claim_kind_work action) as (-> & -> & ->).
    rewrite (not_terminal rd r ow How Ht Hgen). cbn [andb default]. rewrite Hatt, Z.eqb_refl. done.
Qed.

Lemma normalized subject s r : ws_steps st !! normalize_step_run subject = Some r → s = normalize_step_run subject → starts_with "step-run/" s = true.
Proof. intros Hr ->. by destruct (so_subject st Hst _ _ Hr). Qed.

Lemma state_agrees subject status reason st' c :
  status ≠ "orphaned" → set_step_state rd now accepted st subject status reason = (true, st') →
  ws_claims st' = ws_claims st ++ [c] → agrees rd accepted st st' c.
Proof.
  intros Hno Hs Hc. unfold set_step_state in Hs. destruct (ws_steps st !! _) as [r|] eqn:Er; [|done]. destruct (rd_owner _ _ _) as [o|] eqn:Eo; [|done].
  destruct (_ || _) eqn:Eg; [done|]. apply orb_false_iff in Eg as [[Hg%negb_false_iff%str_eqb_true _]%orb_false_iff Ht].
  injection Hs as <-. cbn in Hc. apply app_one in Hc. subst c.
  apply (agrees_row rd accepted st _ _ r (state_row (released_by status) status reason (Z.min u32_max (sr_readiness_epoch r + (if str_eqb status "ready" then 1 else 0))) accepted now r)).
  - by apply (normalized subject _ r Er).
  - done.
  - cbn. by rewrite lookup_insert_eq.
  - unfold project_step. cbn [wc_kind wc_fields wc_accepted_at fd_status fd_reason fd_readiness_epoch].
    change (str_eqb "step-run.state" "step-run.retried") with false. change (str_eqb "step-run.state" "step-run.state") with true. cbn iota.
    assert (Hterm : step_owner_is_terminal rd r && negb (is_terminal_run_state status) = false).
    { unfold step_owner_is_terminal. rewrite Eo. cbn. rewrite Hg, str_eqb_refl. cbn. by rewrite orb_false_r. }
    rewrite Hterm. unfold state_row, dated, set_work. cbn. unfold released_by.
    assert (Hrel : bool_decide (status ∈ ["ready"; "orphaned"; "completed"; "failed"; "cancelled"]) = bool_decide (status ∈ ["ready"; "completed"; "failed"; "cancelled"])).
    { apply bool_decide_ext. rewrite !elem_of_cons. naive_solver. }
    by rewrite Hrel.
Qed.

Lemma retried_agrees c r r' st' :
  wc_kind c = "step-run.retried" → starts_with "step-run/" (wc_subject c) = true → ws_steps st !! wc_subject c = Some r → step_owner_is_terminal rd r = false →
  fd_attempt (wc_fields c) = Some (sr_attempt r') →
  retried_row (sr_attempt r') (fd_reason (wc_fields c)) (fd_not_before (wc_fields c)) (default (sr_goals r) (fd_goals (wc_fields c))) (wc_accepted_at c) r = dated accepted r' →
  ws_steps st' !! wc_subject c = Some r' → agrees rd accepted st st' c.
Proof.
  intros Hk Hs Hr Ht Ha Hrow Hr'. apply (agrees_row rd accepted st st' c r r' Hs Hr Hr'). unfold project_step. rewrite Hk, Ht, Ha.
  change (str_eqb "step-run.retried" "step-run.retried") with true. cbn iota. done.
Qed.
End agreement.

(** C25. Replicas see what was done: whatever a worker or the reconciler does to a step, the claim it publishes,
    projected by a replica on the row as it was, gives the row the node wrote itself, with the date
    of the claim; the lease, the attempt, the report, the reason and the readiness are the same.
    Leases renewed without a claim are the exception, and so is a step marked orphaned. *)
Theorem replicas_project_what_was_done opaque_cache_key rd now accepted st st' c :
  store_ok st → published opaque_cache_key rd now accepted st st' c →
  ∃ r', ws_steps st' !! wc_subject c = Some r' ∧ project_mission_run_update rd c (ws_steps st) !! wc_subject c = Some (dated accepted r').
Proof.
  intros Hst [subject action request extend_ms view Hw Hc|subject status reason Hno Hs Hc|subject actor reason backoff Hs Hc|subject attempt reason reviewer Hs Hc].
  - by apply (action_agrees rd now accepted st Hst opaque_cache_key subject action request extend_ms view).
  - by apply (state_agrees rd now accepted st Hst subject status reason).
  - unfold retry_step_as in Hs. destruct (ws_steps st !! _) as [r|] eqn:Er; [|done]. destruct (rd_owner _ _ _) as [o|] eqn:Eo; [|done].
    destruct (_ || _) eqn:Eg; [done|]. apply orb_false_iff in Eg as [[Hg%negb_false_iff%str_eqb_true _]%orb_false_iff Ht].
    injection Hs as <-. cbn in Hc. apply app_one in Hc. subst c.
    apply (retried_agrees rd accepted st _ r (retried_row (Z.min u32_max (sr_attempt r + 1)) (Some reason) (Some (Z.min u128_max (now + backoff))) (sr_goals r) now r));
      [done|by apply (normalized st Hst subject _ r Er)|done|by apply (not_terminal rd r o)|done|done|]. cbn. by rewrite lookup_insert_eq.
  - unfold retry_step_for_feedback in Hs. destruct (ws_steps st !! _) as [r|] eqn:Er; [|done]. destruct (_ || _) eqn:Eg; [done|].
    apply orb_false_iff in Eg as [_ Ht]. injection Hs as <-. cbn in Hc. apply app_one in Hc. subst c.
    apply (retried_agrees rd accepted st _ r (retried_row (Z.min u32_max (sr_attempt r + 1)) (Some reason) None (sr_goals r ++ ["Reviewer feedback: " +:+ reason]) now r));
      [done|by apply (normalized st Hst subject _ r Er)|done|done|done|done|]. cbn. by rewrite lookup_insert_eq.
Qed.

Lemma renew_subject generation path actor incarnation now r : sr_subject (renew_ancestor generation path actor incarnation now r) = sr_subject r.
Proof. unfold renew_ancestor. by destruct (_ && _ && _ && _ && _). Qed.

(** A quiet renewal stays within what was replicated: after a claim, a renewal or a report of progress, the last
    lease the replicas were told of runs for more than five minutes yet. *)
Theorem renewals_stay_replicated opaque_cache_key rd now accepted st subject action request extend_ms view st' :
  store_ok st → action = "claim" ∨ action = "renew" ∨ action = "progress" → ws_idempotency st !! opaque_cache_key (rq_key request) = None →
  work_action opaque_cache_key rd now accepted st subject action request extend_ms = Some (Ok view, st') →
  ∃ e, last_replicated_expiry st' (sr_subject view) = Some e ∧ (now + 300000 < e)%Z.
Proof.
  intros Hst Ha Hnew Hw. destruct (work_action_Ok _ _ _ _ _ _ _ _ _ _ _ Hw) as [->|(actor & incarnation & row & current & o & H)].
  { unfold work_action in Hw. rewrite Hnew in Hw. exfalso. destruct (check_request _ _ _) as [[actor incarnation]|]; [|done].
    destruct (ws_steps st !! _); [|done]. destruct (check_work _ _ _ _ _ _ _); [|done]. destruct (action_outcome _ _ _ _ _); [|done].
    unfold write_work in Hw. destruct ((_ <$> _) !! sr_subject _); [|done]. destruct (negb _ || _).
    - injection Hw as _ Hw. apply (f_equal (λ s, length (ws_claims s))) in Hw. cbn in Hw. rewrite length_app in Hw. cbn in Hw. lia.
    - destruct (oc_expires _); [|done]. injection Hw as Hv Hw. apply (f_equal (λ s, ws_idempotency s !! opaque_cache_key (rq_key request))) in Hw.
      cbn in Hw. by rewrite lookup_insert_eq, Hnew in Hw. }
  pose proof (ac_written _ _ _ _ _ _ _ _ _ _ _ _ _ _ _ _ H) as Hwr.
  assert (Hview : sr_subject view = sr_subject current).
  { unfold write_work in Hwr. destruct (acted_row _ _ _ _ _ Hst _ _ _ _ _ _ _ _ _ _ _ H) as (r & Hr & [Hp _] & _).
    rewrite lookup_fmap, lookup_alter_eq, Hr in Hwr. cbn in Hwr.
    destruct (negb _ || _); [|destruct (oc_expires o); [|done]]; injection Hwr as <- _; by rewrite renew_subject. }
  assert (Hexp : oc_expires o = Some (now + LEASE_MS)%Z).
  { pose proof (ac_outcome _ _ _ _ _ _ _ _ _ _ _ _ _ _ _ _ H) as Ho. unfold action_outcome in Ho. destruct Ha as [->|[->| ->]]; cbn -[LEASE_MS] in Ho.
    - destruct (negb _ && _); [done|]. by injection Ho as <-.
    - by injection Ho as <-.
    - by injection Ho as <-. }
  rewrite Hview. unfold write_work in Hwr. destruct ((_ <$> _) !! sr_subject current) as [v|]; [|done]. destruct (negb _ || _) eqn:Ep.
  - injection Hwr as _ <-. exists (now + LEASE_MS)%Z. split; [|unfold LEASE_MS; lia]. unfold last_replicated_expiry. cbn [ws_claims].
    rewrite List.filter_app. cbn [List.filter wc_subject wc_kind]. rewrite str_eqb_refl.
    assert (Hk : bool_decide (action_claim_kind action ∈ ["work.claimed"; "work.renewed"; "work.progress"]) = true) by (destruct Ha as [->|[->| ->]]; done).
    rewrite Hk. cbn [andb]. by rewrite reverse_snoc, <- Hexp.
  - rewrite Hexp in Hwr. injection Hwr as _ <-. apply orb_false_iff in Ep as [_ Ep].
    destruct (last_replicated_expiry st (sr_subject current)) as [e|] eqn:El; [|done]. cbn in Ep. exists e. split; [done|]. by apply Z.leb_gt.
Qed.

(** ** Examples *)

Definition live_reads : Reads :=
  mkReads (λ _ generation, if str_eqb generation "g1" then Some (mkOwner "active" "normal" "g1" "active" "active" "normal") else None)
    (λ _, false) (λ _, []) (λ _ _, None) (λ _ _ _, true).

Definition fresh_step (path agent : string) : StepRow :=
  mkStepRow ("step-run/g1/" +:+ path) "r1" "g1" path "ready" 1 (Some agent) [] false [] false None None None None None None 0 0.

Definition fresh_store : WorkStore :=
  mkWorkStore (list_to_map (map (λ r, (sr_subject r, r)) [fresh_step "a" "agent/dev"; fresh_step "a/x" "agent/dev"; fresh_step "b" "agent/dev"; fresh_step "c" "agent/ops"])) ∅ ∅ [].

Definition request_of (actor incarnation key : string) : WorkRequest := mkWorkRequest (Some actor) (Some incarnation) None None [] key.

Definition act (st : WorkStore) (now : Z) (subject action : string) (request : WorkRequest) : WorkStore :=
  match work_action id live_reads now now st subject action request None with Some (_, st') => st' | None => st end.

(** The developer has claimed a step. *)
Definition dev_claimed : WorkStore := act fresh_store 1000 "g1/a" "claim" (request_of "dev" "s1" "k1").
Definition ops_claimed : WorkStore := act dev_claimed 2000 "g1/c" "claim" (request_of "ops" "s2" "k2").

Definition row_at (st : WorkStore) (s : string) : StepRow := default (fresh_step "" "") (ws_steps st !! s).

(** A store is checked row by row. *)
Definition store_okb (st : WorkStore) : bool :=
  forallb (λ p : string * StepRow, str_eqb (sr_subject p.2) p.1 && starts_with "step-run/" p.1
    && Bool.eqb (is_some (sr_claimant p.2)) (is_some (sr_claim_incarnation p.2)) && Bool.eqb (is_some (sr_claimant p.2)) (is_some (sr_claim_expires p.2))
    && (negb (bool_decide (sr_status p.2 ∈ ["ready"; "waiting-person"])) || is_none (sr_claimant p.2))
    && forallb (λ q : string * StepRow, negb (str_eqb (sr_generation p.2) (sr_generation q.2) && str_eqb (sr_step p.2) (sr_step q.2)) || str_eqb p.1 q.1)
         (in_key_order (ws_steps st))) (in_key_order (ws_steps st)).

Lemma store_okb_ok st : store_okb st = true → store_ok st.
Proof.
  unfold store_okb. intros Hall. rewrite forallb_forall in Hall.
  assert (Hrow : ∀ s r, ws_steps st !! s = Some r → _) by (intros s r Hr; exact (Hall (s, r) (proj1 (list_elem_of_In _ _) (proj2 (in_key_order_elem _ _ _) Hr)))).
  cbn in Hrow. split.
  - intros s r Hr. specialize (Hrow s r Hr). rewrite !andb_true_iff in Hrow. destruct Hrow as [[[[[Hs%str_eqb_true Hp] _] _] _] _]. done.
  - intros s r Hr. specialize (Hrow s r Hr). rewrite !andb_true_iff in Hrow. destruct Hrow as [[[[_ Hi%eqb_prop] He%eqb_prop] Hidle] _].
    split; [done|]. intros Hst. apply orb_true_iff in Hidle as [Hn%negb_true_iff%bool_decide_eq_false|Hn].
    + destruct Hn. apply elem_of_cons. destruct Hst as [->| ->]; [by left|right; by apply list_elem_of_singleton].
    + by destruct (sr_claimant r).
  - intros s s' r r' Hr Hr' Hg Hp. specialize (Hrow s r Hr). rewrite !andb_true_iff in Hrow. destruct Hrow as [_ Hpath].
    rewrite forallb_forall in Hpath. specialize (Hpath (s', r') (proj1 (list_elem_of_In _ _) (proj2 (in_key_order_elem _ _ _) Hr'))). cbn in Hpath.
    rewrite Hg, Hp, !str_eqb_refl in Hpath. cbn in Hpath. by apply str_eqb_true.
Qed.

Lemma private_witness :
  sr_claimant (row_at dev_claimed "step-run/g1/a") = Some "agent/dev" ∧
  ws_steps ops_claimed !! "step-run/g1/a" = Some (row_at dev_claimed "step-run/g1/a").
Proof.
  split; [by vm_compute|].
  apply (leases_are_private id live_reads 2000 2000 dev_claimed "g1/c" "claim" (request_of "ops" "s2" "k2") None
           (row_at ops_claimed "step-run/g1/c") ops_claimed "agent/ops" "s2" "step-run/g1/a" _ "agent/dev" "s1" 601000);
    [apply store_okb_ok; by vm_compute|by vm_compute|vm_compute; reflexivity|by vm_compute|by vm_compute|by vm_compute|by vm_compute|done|done].
Defined.

(** A store of unclaimed steps. *)
Lemma unclaimed_chained now st : store_okb st = true → forallb (λ p : string * StepRow, is_none (sr_claimant p.2)) (in_key_order (ws_steps st)) = true → chained now st.
Proof.
  intros Hok Hnone. assert (Hc : ∀ s r, ws_steps st !! s = Some r → sr_claimant r = None).
  { intros s r Hr. rewrite forallb_forall in Hnone. specialize (Hnone (s, r) (proj1 (list_elem_of_In _ _) (proj2 (in_key_order_elem _ _ _) Hr))). cbn in Hnone.
    by destruct (sr_claimant r). }
  split; [by apply store_okb_ok|intros s r Hr Hn; by destruct Hn; apply (Hc s)|].
  intros a s s' r r' Hr _ _ A. unfold lease_active in A. by rewrite (Hc s r Hr) in A.
Qed.

(** The developer claims a step, and one below it while the first is verified. *)
Definition dev_verifying : WorkStore := (set_step_state live_reads 1500 1500 dev_claimed "g1/a" "verifying" None).2.
Definition dev_nested : WorkStore := act dev_verifying 2000 "g1/a/x" "claim" (request_of "dev" "s1" "k3").

Lemma chain_witness :
  one_chain 3000 "agent/dev" (ws_steps dev_nested) ∧
  lease_active 3000 "agent/dev" (row_at dev_nested "step-run/g1/a") = true ∧
  lease_active 3000 "agent/dev" (row_at dev_nested "step-run/g1/a/x") = true.
Proof.
  split; [|by vm_compute].
  apply (ch_chain 3000 dev_nested). apply (workers_keep_one_chain id 0 fresh_store 3000 dev_nested); [apply unclaimed_chained; by vm_compute|].
  apply (more_work id 0 1000 3000 fresh_store dev_claimed); [done| |].
  { apply (step_action id 1000 fresh_store live_reads 1000 "g1/a" "claim" (request_of "dev" "s1" "k1") None (Ok (row_at dev_claimed "step-run/g1/a"))).
    vm_compute. reflexivity. }
  apply (more_work id 1000 1500 3000 dev_claimed dev_verifying); [done| |].
  { apply (step_state id 1500 dev_claimed live_reads 1500 "g1/a" "verifying" None true); [right; left; by vm_compute|vm_compute; reflexivity]. }
  apply (more_work id 1500 2000 3000 dev_verifying dev_nested); [done| |by apply no_work].
  apply (step_action id 2000 dev_verifying live_reads 2000 "g1/a/x" "claim" (request_of "dev" "s1" "k3") None (Ok (row_at dev_nested "step-run/g1/a/x"))).
  vm_compute. reflexivity.
Defined.

Definition first_claim : WorkClaim :=
  mkWorkClaim "step-run/g1/a" "work.claimed" (Some "agent/dev")
    (mkFields (Some 1) (Some "claimed") None (Some false) (Some "agent/dev") (Some "s1") (Some 601000) (Some 0) None None None)%Z 1000.

Lemma project_witness :
  ∃ r', ws_steps dev_claimed !! "step-run/g1/a" = Some r' ∧
    project_mission_run_update live_reads first_claim (ws_steps fresh_store) !! "step-run/g1/a" = Some (dated 1000 r').
Proof.
  apply (replicas_project_what_was_done id live_reads 1000 1000 fresh_store dev_claimed first_claim); [apply store_okb_ok; by vm_compute|].
  apply (by_action id live_reads 1000 1000 fresh_store dev_claimed first_claim "g1/a" "claim" (request_of "dev" "s1" "k1") None (row_at dev_claimed "step-run/g1/a"));
    [vm_compute; reflexivity|by vm_compute].
Defined.

(** A step marked orphaned keeps its lease on the node that marks it and loses it on every other. *)
Example orphaned_leases_diverge :
  let '(_, st) := set_step_state live_reads 2000 2000 dev_claimed "g1/a" "orphaned" (Some "the exact worker incarnation ended") in
  let projected := fold_left (λ steps c, project_mission_run_update live_reads c steps) (ws_claims st) (ws_steps fresh_store) in
  sr_claimant (row_at st "step-run/g1/a") = Some "agent/dev" ∧ (sr_claimant <$> projected !! "step-run/g1/a") = Some None.
Proof. by vm_compute. Qed.

(** So its worker can take unrelated work and then report progress on it, and holds both. *)
Example orphaned_work_escapes_capacity :
  let '(_, st) := set_step_state live_reads 2000 2000 dev_claimed "g1/a" "orphaned" None in
  let st := act (act st 3000 "g1/b" "claim" (request_of "dev" "s1" "k4")) 4000 "g1/a" "progress" (request_of "dev" "s1" "k5") in
  lease_active 5000 "agent/dev" (row_at st "step-run/g1/a") = true ∧ lease_active 5000 "agent/dev" (row_at st "step-run/g1/b") = true ∧
  independent (row_at st "step-run/g1/a") (row_at st "step-run/g1/b") = true.
Proof. by vm_compute. Qed.

(** Leases renewed above a step are not told to the replicas, which see them run out. *)
Example ancestor_renewals_stay_local :
  let st := act (act dev_claimed 2000 "g1/a/x" "claim" (request_of "dev" "s1" "k6")) 500000 "g1/a/x" "progress" (request_of "dev" "s1" "k7") in
  let projected := fold_left (λ steps c, project_mission_run_update live_reads c steps) (ws_claims st) (ws_steps fresh_store) in
  sr_claim_expires (row_at st "step-run/g1/a") = Some 1100000%Z ∧ (sr_claim_expires <$> projected !! "step-run/g1/a") = Some (Some 601000%Z).
Proof. by vm_compute. Qed.
