(* ===== verification/RunStep.v ===== *)
(** * The steps of a mission run

    Models how a pass moves each step of a run ([evaluate_mission_run] of [crates/st3/src/reconcile.rs], the part that
    evaluates one step, with [flatten_mission_steps], [step_dependencies_hold], [step_timed_out],
    [expire_step_timeout] and [awaited_run], and [work_claim_is_orphaned] of [store.rs]). The rows and their transitions are
    those of [Work]. What the pass asks of the rest of the system (gates, products, declarations,
    loops, used missions, the time a step has executed) is the record [Answers]: the theorems
    hold whatever the answers are. A loop writes its step's row only through [set_step_state]. An error of
    one of these services, which ends the evaluation of the step until the next pass, is left
    out, except that of an awaited run whose name cannot be interpolated. *)

From S2P Require Import Prelude StableSort Text Utf8 Mission MissionText Work.

Inductive GateOutcome := Pass | GatePending | NotYet | Broken (reason : string) | GateFail (reason : string).

Inductive UsedMissionOutcome := UsedPending | UsedCompleted | UsedFailed (reason : string).

(** What an evaluation of a loop does to its step: nothing (with whether it changed anything else), or one
    transition. *)
Inductive LoopOutcome := LoopWaits (changed : bool) | LoopSets (status : string) (reason : option string).

(** The fields of a step that its evaluation reads besides those of [StepSpec]. *)
Record StepMore (Gate : Type) := mkMore {
  so_timeout_ms : option Z;
  so_attempts : Z;
  so_backoff_ms : Z;
  so_baselines : list (string * list Gate);
  so_gates : list Gate;
  so_loop : bool
}.
#[global] Arguments mkMore {Gate} _ _ _ _ _ _.
#[global] Arguments so_timeout_ms {Gate} _.
#[global] Arguments so_attempts {Gate} _.
#[global] Arguments so_backoff_ms {Gate} _.
#[global] Arguments so_baselines {Gate} _.
#[global] Arguments so_gates {Gate} _.
#[global] Arguments so_loop {Gate} _.

(** A step, with the name and the steps of its nested mission, which are in display order. *)
Inductive FullStep (Gate : Type) :=
| mkFullStep (spec : StepSpec Gate) (more : StepMore Gate) (nested : option (string * list (FullStep Gate))).
#[global] Arguments mkFullStep {Gate} _ _ _.

Record RuntimeStep (Gate : Type) := mkRuntimeStep {
  rt_spec : StepSpec Gate;
  rt_more : StepMore Gate;
  rt_nested : option string;
  rt_dependency_prefix : string;
  rt_parent : option string
}.
#[global] Arguments mkRuntimeStep {Gate} _ _ _ _ _.
#[global] Arguments rt_spec {Gate} _.
#[global] Arguments rt_more {Gate} _.
#[global] Arguments rt_nested {Gate} _.
#[global] Arguments rt_dependency_prefix {Gate} _.
#[global] Arguments rt_parent {Gate} _.

(** Answers about a step are by its path, about its row by its subject. *)
Record Answers (Gate : Type) := mkAnswers {
  an_context_gate : Gate → GateOutcome;
  an_gate : string → Gate → GateOutcome;
  an_predicate : string → Gate → GateOutcome;
  an_products_hold : bool;
  an_missing_product : string → bool;
  an_notified : string → bool;
  an_observed : string → list (option string * option string);
  an_elapsed : string → Z;
  an_extension : string → Z;
  an_agent : string → bool;
  an_agent_declared : string → string → bool;
  an_materialized : string → bool → bool;
  an_declaration_failure : string → option string;
  an_declarations_hold : string → bool;
  an_loop : string → LoopOutcome;
  an_produced : string → bool;
  an_used : string → bool * UsedMissionOutcome;
  an_variables : string → gmap string string;
  an_run_status : string → option string;
  an_mission_materialized : bool;
  an_retired : bool
}.
#[global] Arguments mkAnswers {Gate} _ _ _ _ _ _ _ _ _ _ _ _ _ _ _ _ _ _ _ _ _.
#[global] Arguments an_context_gate {Gate} _ _.
#[global] Arguments an_gate {Gate} _ _ _.
#[global] Arguments an_predicate {Gate} _ _ _.
#[global] Arguments an_products_hold {Gate} _.
#[global] Arguments an_missing_product {Gate} _ _.
#[global] Arguments an_notified {Gate} _ _.
#[global] Arguments an_observed {Gate} _ _.
#[global] Arguments an_elapsed {Gate} _ _.
#[global] Arguments an_extension {Gate} _ _.
#[global] Arguments an_agent {Gate} _ _.
#[global] Arguments an_agent_declared {Gate} _ _ _.
#[global] Arguments an_materialized {Gate} _ _ _.
#[global] Arguments an_declaration_failure {Gate} _ _.
#[global] Arguments an_declarations_hold {Gate} _ _.
#[global] Arguments an_loop {Gate} _ _.
#[global] Arguments an_produced {Gate} _ _.
#[global] Arguments an_used {Gate} _ _.
#[global] Arguments an_variables {Gate} _ _.
#[global] Arguments an_run_status {Gate} _ _.
#[global] Arguments an_mission_materialized {Gate} _.
#[global] Arguments an_retired {Gate} _.

(** The tables of work, and the timeouts whose fault was raised: a step, its attempt and its extension. *)
Record PassState := mkPass { ps_work : WorkStore; ps_raised : gset (string * Z * Z) }.

(** Whether something changed, and the state; [None] is an error. *)
Definition Evaluated : Type := option bool * PassState.

Definition also (changed : bool) (e : Evaluated) : Evaluated := (orb changed <$> e.1, e.2).

(** ** Steps *)

Definition passes (outcome : GateOutcome) : bool := match outcome with Pass => true | _ => false end.

Fixpoint append_step {Gate} (dependency_prefix : string) (parent : option string) (step : FullStep Gate) : list (RuntimeStep Gate) :=
  match step with
  | mkFullStep spec more nested =>
      mkRuntimeStep spec more (fst <$> nested) dependency_prefix parent ::
      match nested with
      | None => []
      | Some (id, steps) => flat_map (append_step (st_path spec +:+ "/" +:+ id) (Some (st_path spec))) steps
      end
  end.

Definition flatten_mission_steps {Gate} (steps : list (FullStep Gate)) : list (RuntimeStep Gate) := flat_map (append_step "" None) steps.

(** The state a dependency names, of a step with this status. *)
Definition state_holds (state status : string) : bool :=
  if str_eqb state "completed" then str_eqb status "completed"
  else if str_eqb state "failed" then str_eqb status "failed"
  else if str_eqb state "terminal" then is_terminal_run_state status
  else false.

(** From the newest observation: whether it shows that the incarnation has ended. *)
Fixpoint incarnation_ended (incarnation : string) (observed : list (option string * option string)) : bool :=
  match observed with
  | [] => false
  | (Some status, current) :: observed =>
      if str_eqb status "running"
      then match current with Some current => negb (str_eqb current incarnation) | None => incarnation_ended incarnation observed end
      else bool_decide (status ∈ ["exited"; "vanished"; "stopped"; "absent"; "failed"]) || incarnation_ended incarnation observed
  | (None, _) :: observed => incarnation_ended incarnation observed
  end.

Definition eligible_phase (phase : string) (finally : bool) : bool :=
  ((str_eqb phase "normal" || str_eqb phase "revision-draining") && negb finally)
  || (bool_decide (phase ∈ ["final"; "final-cancelled"]) && finally).

Definition LEASE_EXPIRED : string := "the worker lease expired".

(** The agents that may take the step, as the reason names them. *)
Definition candidates (view : StepRow) : list string := option_list (sr_assigned_to view) ++ sr_available_to view.
Definition no_agent_reason (view : StepRow) : string :=
  "no eligible agent is present in the desired graph: " +:+ String.concat ", " (map (λ agent, "`" +:+ agent +:+ "`") (candidates view)).
Definition baseline_reason (name : string) : string := "step baseline `" +:+ name +:+ "` does not hold".

Section step.
Context {Gate : Type} (rd : Reads) (an : Answers Gate) (now accepted : Z).

Definition set_state (p : PassState) (subject status : string) (reason : option string) : Evaluated :=
  let '(changed, work) := set_step_state rd now accepted (ps_work p) subject status reason in (Some changed, mkPass work (ps_raised p)).

Definition work_claim_is_orphaned (work : StepRow) : bool :=
  match sr_claimant work, sr_claim_incarnation work with
  | Some actor, Some incarnation => incarnation_ended incarnation (an_observed an actor)
  | _, _ => false
  end.

Definition awaited_run (step : RuntimeStep Gate) : result St3Error (option string) :=
  match st_after_run (rt_spec step) with
  | None => Ok None
  | Some after =>
      match interpolate after (an_variables an (st_path (rt_spec step))) with
      | Some (Ok after) => Ok (Some (after_run_subject after))
      | Some (Err e) => Err e
      | None => Err (mkSt3Error "internal" "unreachable")
      end
  end.

Definition dependency_holds (views : gmap string StepRow) (step : RuntimeStep Gate) (dependency : DependencySpec Gate) : bool :=
  match dependency with
  | StepDependency target state =>
      let path := if str_eqb (rt_dependency_prefix step) "" then target else rt_dependency_prefix step +:+ "/" +:+ target in
      is_some_and (views !! path) (λ target, state_holds state (sr_status target))
  | Predicate gate => passes (an_predicate an (st_path (rt_spec step)) gate)
  end.

Definition step_dependencies_hold (views : gmap string StepRow) (step : RuntimeStep Gate) : bool :=
  is_none_or (rt_parent step) (λ parent,
    is_some_and (views !! parent) (λ parent, bool_decide (sr_status parent ∈ ["claimed"; "working"; "verifying"])))
  && forallb (dependency_holds views step) (st_dependencies (rt_spec step)).

(** Without the wake it arms for a step that still has time. *)
Definition step_timed_out (view : StepRow) (step : RuntimeStep Gate) : bool :=
  match so_timeout_ms (rt_more step) with
  | None => false
  | Some timeout => (sat_add64 timeout (an_extension an (sr_subject view)) <=? an_elapsed an (sr_subject view))%Z
  end.

(** Without the text of the fault. *)
Definition expire_step_timeout (view : StepRow) (p : PassState) : Evaluated :=
  if sr_agentless view then set_state p (sr_subject view) "failed" (Some "the active execution timeout expired")
  else
    let episode := (sr_subject view, sr_attempt view, an_extension an (sr_subject view)) in
    if bool_decide (episode ∈ ps_raised p) then (Some false, p)
    else (Some true, mkPass (ps_work p) ({[episode]} ∪ ps_raised p)).

(** The first baseline with a gate that does not pass. *)
Definition failing_baseline (evaluate : Gate → GateOutcome) (baselines : list (string * list Gate)) : option string :=
  fst <$> List.find (λ b, negb (forallb (λ gate, passes (evaluate gate)) (snd b))) baselines.

Definition assignment_blocked (view : StepRow) : bool :=
  str_eqb (sr_status view) "blocked" && is_some_and (sr_blocked_reason view) (starts_with "no eligible agent is present").
Definition baseline_blocked (view : StepRow) : bool :=
  str_eqb (sr_status view) "blocked" && is_some_and (sr_blocked_reason view) (starts_with "step baseline `").

(** A step that has not been ready yet. *)
Definition admit_step (views : gmap string StepRow) (step : RuntimeStep Gate) (view : StepRow) (p : PassState) : Evaluated :=
  let path := st_path (rt_spec step) in
  let subject := sr_subject view in
  if is_some_and (sr_not_before view) (λ not_before, (now <? not_before)%Z) then (Some false, p)
  else if negb (step_dependencies_hold views step) then (Some false, p)
  else
    match failing_baseline (an_gate an path) (so_baselines (rt_more step)) with
    | Some name => set_state p subject "blocked" (Some (baseline_reason name))
    | None =>
        let '(changed, p) := if baseline_blocked view then set_state p subject "pending" None else (Some false, p) in
        let eligible :=
          sr_agentless view || is_some_and (sr_assigned_to view) (starts_with "person/") || existsb (an_agent an) (candidates view) in
        let materialized := negb eligible && an_materialized an path true in
        also (default false changed || materialized)
          (if eligible || existsb (an_agent_declared an path) (candidates view)
           then set_state p subject "ready" None
           else set_state p subject "blocked" (Some (no_agent_reason view)))
    end.

Fixpoint evaluate_gates (step : RuntimeStep Gate) (subject : string) (gates : list Gate) (p : PassState) : Evaluated :=
  match gates with
  | [] => set_state p subject "completed" None
  | gate :: gates =>
      match an_gate an (st_path (rt_spec step)) gate with
      | Pass => evaluate_gates step subject gates p
      | GatePending | NotYet => (Some false, p)
      | Broken reason => if st_finally (rt_spec step) then set_state p subject "failed" (Some reason) else (Some false, p)
      | GateFail reason => set_state p subject "failed" (Some reason)
      end
  end.

(** The awaited run, the products and the gates. *)
Definition finish_step (step : RuntimeStep Gate) (view : StepRow) (p : PassState) : Evaluated :=
  let path := st_path (rt_spec step) in
  let subject := sr_subject view in
  let finish := if an_missing_product an path then (Some (an_notified an path), p) else evaluate_gates step subject (so_gates (rt_more step)) p in
  match awaited_run step with
  | Err _ => (None, p)
  | Ok None => finish
  | Ok (Some after) =>
      match an_run_status an after with
      | Some status =>
          if str_eqb status "completed" then finish
          else if bool_decide (status ∈ ["failed"; "cancelled"])
          then set_state p subject "failed" (Some ("the awaited mission run `" +:+ after +:+ "` is " +:+ status))
          else (Some false, p)
      | None => (Some false, p)
      end
  end.

Definition nested_completed (views : gmap string StepRow) (step : RuntimeStep Gate) : bool :=
  is_none_or (rt_nested step) (λ id,
    forallb (λ '(path, child), negb (starts_with (st_path (rt_spec step) +:+ "/" +:+ id +:+ "/") path) || str_eqb (sr_status child) "completed")
      (map_to_list views)).

(** What a step that runs is checked for. *)
Definition check_step (views : gmap string StepRow) (step : RuntimeStep Gate) (view : StepRow) (p : PassState) : Evaluated :=
  let spec := rt_spec step in
  let path := st_path spec in
  let subject := sr_subject view in
  match an_declaration_failure an path with
  | Some reason => set_state p subject "failed" (Some reason)
  | None =>
      if step_timed_out view step && (sr_agentless view || bool_decide (sr_status view ∈ ["claimed"; "working"; "ready"]))
      then expire_step_timeout view p
      else if negb (an_declarations_hold an path) then (Some false, p)
      else if negb (sr_agentless view) && negb (sr_worker_reported view) then (Some false, p)
      else if so_loop (rt_more step)
      then match an_loop an path with
           | LoopWaits changed => (Some changed, p)
           | LoopSets status reason => set_state p subject status reason
           end
      else if negb (nested_completed views step) then (Some false, p)
      else if is_some (st_produces_mission spec) && negb (an_produced an path) then (Some false, p)
      else
        let '(changed, outcome) := if is_some (st_uses_mission spec) then an_used an path else (false, UsedCompleted) in
        also changed
          match outcome with
          | UsedPending => (Some false, p)
          | UsedFailed reason => set_state p subject "failed" (Some reason)
          | UsedCompleted => finish_step step view p
          end
  end.

(** A step that can be worked on: agentless work starts by itself. *)
Definition run_step (views : gmap string StepRow) (step : RuntimeStep Gate) (view : StepRow) (p : PassState) : Evaluated :=
  let subject := sr_subject view in
  let starts := str_eqb (sr_status view) "ready" && sr_agentless view in
  match (if starts then awaited_run step else Ok None) with
  | Err _ => (None, p)
  | Ok after =>
      let reason := (λ after, "waiting for `" +:+ after +:+ "` to complete") <$> after in
      let '(changed, p) := if starts then set_state p subject "working" reason else (Some false, p) in
      if starts && is_some (rt_nested step) then (changed, p)
      else also (default false changed || an_materialized an (st_path (rt_spec step)) false) (check_step views step view p)
  end.

Definition evaluate_eligible (phase : string) (views : gmap string StepRow) (step : RuntimeStep Gate) (view : StepRow) (p : PassState) : Evaluated :=
  let subject := sr_subject view in
  let status := sr_status view in
  if str_eqb phase "revision-draining" && bool_decide (status ∈ ["pending"; "ready"; "blocked"; "failed"; "completed"; "cancelled"])
  then (Some false, p)
  else if str_eqb status "failed" then
    if (sr_attempt view <? so_attempts (rt_more step))%Z
    then let '(changed, work) := retry_step_as rd now accepted (ps_work p) subject None "the step repeat policy permits another attempt"
                                   (so_backoff_ms (rt_more step)) in (Some changed, mkPass work (ps_raised p))
    else (Some false, p)
  else if bool_decide (status ∈ ["completed"; "cancelled"; "waiting-person"]) then (Some false, p)
  else if str_eqb status "orphaned" then set_state p subject "ready" (Some "the prior worker incarnation ended")
  else if leased_status status && work_claim_is_orphaned view
  then set_state p subject "orphaned" (Some "the exact worker incarnation ended")
  else if str_eqb status "ready" && ostr_eqb (sr_blocked_reason view) (Some LEASE_EXPIRED)
  then if step_timed_out view step then expire_step_timeout view p else set_state p subject "ready" (Some LEASE_EXPIRED)
  else if is_some_and (sr_claim_expires view) (λ expiry, (expiry <=? now)%Z) && leased_status status
  then set_state p subject "ready" (Some LEASE_EXPIRED)
  else if str_eqb status "pending" || assignment_blocked view || baseline_blocked view then admit_step views step view p
  else if negb (bool_decide (status ∈ ["ready"; "claimed"; "working"; "verifying"; "blocked"])) then (Some false, p)
  else run_step views step view p.

(** One step of the loop: an error changes nothing more. *)
Definition evaluate_step (phase : string) (views : gmap string StepRow) (step : RuntimeStep Gate) (p : PassState) : bool * PassState :=
  match views !! st_path (rt_spec step) with
  | None => (false, p)
  | Some view =>
      if eligible_phase phase (st_finally (rt_spec step))
      then let '(changed, p) := evaluate_eligible phase views step view p in (default false changed, p)
      else (false, p)
  end.

Fixpoint evaluate_steps (phase : string) (views : gmap string StepRow) (steps : list (RuntimeStep Gate)) (p : PassState) : bool * PassState :=
  match steps with
  | [] => (false, p)
  | step :: steps =>
      let '(changed, p) := evaluate_step phase views step p in
      let '(rest, p) := evaluate_steps phase views steps p in (changed || rest, p)
  end.
End step.

(** ** The table of moves *)

Section table.
Context {Gate : Type} (an : Answers Gate) (now : Z) (views : gmap string StepRow) (step : RuntimeStep Gate) (view : StepRow).

Definition unstarted : Prop := sr_status view = "pending" ∨ assignment_blocked view = true ∨ baseline_blocked view = true.

Definition running : Prop := sr_status view ∈ ["ready"; "claimed"; "working"; "verifying"; "blocked"].

(** Its time has come, its dependencies hold, and its baselines too. *)
Definition admitted : Prop :=
  (∀ t, sr_not_before view = Some t → (t ≤ now)%Z) ∧ step_dependencies_hold an views step = true ∧
  ∀ name gates gate, (name, gates) ∈ so_baselines (rt_more step) → gate ∈ gates → an_gate an (st_path (rt_spec step)) gate = Pass.

(** Its declarations hold, and its worker reported it, if it has one. *)
Definition reported : Prop :=
  an_declaration_failure an (st_path (rt_spec step)) = None ∧ an_declarations_hold an (st_path (rt_spec step)) = true ∧
  (sr_agentless view = true ∨ sr_worker_reported view = true).

(** What a step needs to complete. *)
Record checked : Prop := {
  ch_reported : reported;
  ch_nested : ∀ id path child, rt_nested step = Some id → views !! path = Some child →
    starts_with (st_path (rt_spec step) +:+ "/" +:+ id +:+ "/") path = true → sr_status child = "completed";
  ch_produced : is_Some (st_produces_mission (rt_spec step)) → an_produced an (st_path (rt_spec step)) = true;
  ch_used : is_Some (st_uses_mission (rt_spec step)) → (an_used an (st_path (rt_spec step))).2 = UsedCompleted;
  ch_awaited : st_after_run (rt_spec step) = None ∨
    ∃ after, awaited_run an step = Ok (Some after) ∧ an_run_status an after = Some "completed";
  ch_products : an_missing_product an (st_path (rt_spec step)) = false;
  ch_gates : ∀ gate, gate ∈ so_gates (rt_more step) → an_gate an (st_path (rt_spec step)) gate = Pass
}.

(** The moves of a step that a pass may make, by the status it moves to. *)
Inductive may_move : string → Prop :=
| recovers : sr_status view = "orphaned" → may_move "ready"
| expires : (sr_status view = "ready" ∧ sr_blocked_reason view = Some LEASE_EXPIRED) ∨
    (leased_status (sr_status view) = true ∧ ∃ t, sr_claim_expires view = Some t ∧ (t ≤ now)%Z) → may_move "ready"
| orphans : leased_status (sr_status view) = true → work_claim_is_orphaned an view = true → may_move "orphaned"
| readies : unstarted → admitted → may_move "ready"
| unblocks : baseline_blocked view = true → admitted → may_move "pending"
| blocks : unstarted → step_dependencies_hold an views step = true → may_move "blocked"
| starts : sr_status view = "ready" → sr_agentless view = true → may_move "working"
| fails : running → may_move "failed"
| completes : running → so_loop (rt_more step) = false → checked → may_move "completed"
| loops status reason : running → so_loop (rt_more step) = true → reported → an_loop an (st_path (rt_spec step)) = LoopSets status reason →
    may_move status.
End table.

(** From one state to another, the statuses and attempts of the rows are the same, but for one subject whose status was moved to one
    of [P]. *)
Definition moved (subject : string) (P : string → Prop) (p p' : PassState) : Prop :=
  ∀ s r', ws_steps (ps_work p') !! s = Some r' → ∃ r, ws_steps (ps_work p) !! s = Some r ∧ sr_attempt r' = sr_attempt r ∧
    (sr_status r' = sr_status r ∨ s = subject ∧ P (sr_status r')).

Lemma moved_refl subject P p : moved subject P p p.
Proof. intros s r Hr. exists r. auto. Qed.

Lemma moved_trans subject P p1 p2 p3 : moved subject P p1 p2 → moved subject P p2 p3 → moved subject P p1 p3.
Proof.
  intros H1 H2 s r3 Hr3. destruct (H2 s r3 Hr3) as (r2 & Hr2 & Ha2 & Hs2). destruct (H1 s r2 Hr2) as (r1 & Hr1 & Ha1 & Hs1).
  exists r1. split; [done|]. split; [congruence|]. destruct Hs2 as [->|Hs2]; [|auto]. done.
Qed.

#[export] Hint Resolve moved_refl : st.

Section moves.
Context {Gate : Type} (rd : Reads) (an : Answers Gate) (now accepted : Z).

Lemma set_state_moved p subject status reason (P : string → Prop) :
  P status → moved (normalize_step_run subject) P p (set_state rd now accepted p subject status reason).2.
Proof.
  intros HP. unfold set_state, set_step_state.
  destruct (ws_steps (ps_work p) !! normalize_step_run subject) as [r|] eqn:Er; [|apply (moved_refl _ _ p)].
  destruct (rd_owner _ _ _) as [o|]; [|apply (moved_refl _ _ p)]. destruct (_ || _ || _); [apply (moved_refl _ _ p)|].
  intros s r'. cbn. rewrite lookup_insert_Some. intros [[<- <-]|[Hne Hr']]; [|exists r'; auto]. exists r. auto.
Qed.

Lemma also_moved subject P p c e : moved subject P p e.2 → moved subject P p (also c e).2.
Proof. done. Qed.

Context (views : gmap string StepRow) (step : RuntimeStep Gate) (view : StepRow).
#[local] Abbreviation moved' := (moved (normalize_step_run (sr_subject view)) (may_move an now views step view)).

Lemma expire_moved p : running view → moved' p (expire_step_timeout rd an now accepted view p).2.
Proof.
  intros Hrun. unfold expire_step_timeout. destruct (sr_agentless view); [apply set_state_moved; by apply fails|].
  destruct (bool_decide _); apply (moved_refl _ _ p).
Qed.

Lemma failing_baseline_None (evaluate : Gate → GateOutcome) baselines :
  failing_baseline evaluate baselines = None → ∀ name gates gate, (name, gates) ∈ baselines → gate ∈ gates → evaluate gate = Pass.
Proof.
  unfold failing_baseline. intros Hf name gates gate Hb Hg. destruct (List.find _ _) eqn:E; [done|].
  pose proof (find_None_elem _ _ E _ Hb) as Hn. apply negb_false_iff in Hn. cbn in Hn. rewrite forallb_forall in Hn.
  specialize (Hn gate). rewrite <- list_elem_of_In in Hn. specialize (Hn Hg). by destruct (evaluate gate).
Qed.

Lemma admit_moved p : unstarted view → moved' p (admit_step rd an now accepted views step view p).2.
Proof.
  intros Hun. unfold admit_step. destruct (is_some_and _ _) eqn:Et; [apply moved_refl|].
  destruct (step_dependencies_hold an views step) eqn:Ed; cbn [negb]; [|apply moved_refl].
  destruct (failing_baseline _ _) as [name|] eqn:Ef; [apply set_state_moved; by apply blocks|].
  assert (Hadm : admitted an now views step view).
  { split; [|split; [done|exact (failing_baseline_None _ _ Ef)]]. intros t Ht. rewrite Ht in Et. cbn in Et. by apply Z.ltb_ge in Et. }
  destruct (if baseline_blocked view then _ else _) as [changed q] eqn:Eq.
  assert (Hq : moved' p q).
  { destruct (baseline_blocked view) eqn:Eb; [|injection Eq as _ <-; apply moved_refl].
    change q with (changed, q).2. rewrite <- Eq. apply set_state_moved. by apply unblocks. }
  apply also_moved. eapply moved_trans; [exact Hq|].
  destruct (_ || _); apply set_state_moved; [by apply readies|by apply blocks].
Qed.

Lemma gates_moved p gates :
  running view → so_loop (rt_more step) = false → (∀ gate, gate ∈ so_gates (rt_more step) → gate ∈ gates ∨ an_gate an (st_path (rt_spec step)) gate = Pass) →
  ((∀ gate, gate ∈ so_gates (rt_more step) → an_gate an (st_path (rt_spec step)) gate = Pass) → checked an views step view) →
  moved' p (evaluate_gates rd an now accepted step (sr_subject view) gates p).2.
Proof.
  intros Hrun Hloop Hgates Hch. induction gates as [|gate gates IH]; cbn [evaluate_gates].
  - apply set_state_moved. apply completes; [done|done|]. apply Hch. intros gate Hg. destruct (Hgates gate Hg) as [Hn|]; [|done]. by apply elem_of_nil in Hn.
  - destruct (an_gate an _ gate) eqn:Eg.
    + apply IH. intros g Hg. destruct (Hgates g Hg) as [Hin|]; [|auto]. apply elem_of_cons in Hin as [->|]; auto.
    + apply moved_refl.
    + apply moved_refl.
    + destruct (st_finally _); [apply set_state_moved; by apply fails|apply moved_refl].
    + apply set_state_moved. by apply fails.
Qed.

Lemma finish_moved p :
  running view → so_loop (rt_more step) = false →
  ((st_after_run (rt_spec step) = None ∨ ∃ after, awaited_run an step = Ok (Some after) ∧ an_run_status an after = Some "completed") →
   an_missing_product an (st_path (rt_spec step)) = false →
   (∀ gate, gate ∈ so_gates (rt_more step) → an_gate an (st_path (rt_spec step)) gate = Pass) → checked an views step view) →
  moved' p (finish_step rd an now accepted step view p).2.
Proof.
  intros Hrun Hloop Hch. unfold finish_step.
  assert (Hfin : (st_after_run (rt_spec step) = None ∨ ∃ after, awaited_run an step = Ok (Some after) ∧ an_run_status an after = Some "completed") →
    moved' p (if an_missing_product an (st_path (rt_spec step)) then (Some (an_notified an (st_path (rt_spec step))), p)
              else evaluate_gates rd an now accepted step (sr_subject view) (so_gates (rt_more step)) p).2).
  { intros Haw. destruct (an_missing_product _ _) eqn:Em; [apply moved_refl|]. apply gates_moved; auto. }
  destruct (awaited_run an step) as [[after|]|] eqn:Ea; [| |apply moved_refl].
  - destruct (an_run_status an after) as [status|] eqn:Es; [|apply moved_refl]. destruct (str_eqb status "completed") eqn:Ec.
    + apply str_eqb_true in Ec as ->. apply Hfin. right. eauto.
    + destruct (bool_decide _); [apply set_state_moved; by apply fails|apply moved_refl].
  - apply Hfin. left. unfold awaited_run in Ea. destruct (st_after_run _); [|done].
    destruct (interpolate _ _) as [[]|]; done.
Qed.

Lemma nested_completed_true id path child :
  nested_completed views step = true → rt_nested step = Some id → views !! path = Some child →
  starts_with (st_path (rt_spec step) +:+ "/" +:+ id +:+ "/") path = true → sr_status child = "completed".
Proof.
  unfold nested_completed. intros H Hn Hp Hs. rewrite Hn in H. cbn [is_none_or] in H. rewrite forallb_forall in H.
  specialize (H (path, child)). rewrite <- list_elem_of_In, elem_of_map_to_list in H. specialize (H Hp). cbn beta iota in H.
  rewrite Hs in H. by apply str_eqb_true in H.
Qed.

Lemma check_moved p : running view → moved' p (check_step rd an now accepted views step view p).2.
Proof.
  intros Hrun. unfold check_step. destruct (an_declaration_failure _ _) eqn:Ef; [apply set_state_moved; by apply fails|].
  destruct (_ && _); [by apply expire_moved|]. destruct (an_declarations_hold an _) eqn:Eh; cbn [negb]; [|apply moved_refl].
  destruct (negb (sr_agentless view) && _) eqn:Er; [apply moved_refl|].
  assert (Hrep : reported an step view).
  { split; [done|]. split; [done|]. destruct (sr_agentless view); [by left|]. right. by destruct (sr_worker_reported view). }
  destruct (so_loop (rt_more step)) eqn:El.
  { destruct (an_loop an _) eqn:Ea; [apply moved_refl|]. apply set_state_moved. by eapply loops. }
  destruct (nested_completed views step) eqn:En; cbn [negb]; [|apply moved_refl].
  destruct (is_some (st_produces_mission _) && _) eqn:Ep; [apply moved_refl|].
  destruct (if is_some (st_uses_mission _) then _ else _) as [c outcome] eqn:Eu. apply also_moved.
  destruct outcome; [apply moved_refl| |apply set_state_moved; by apply fails].
  apply finish_moved; [done|done|]. intros Haw Hprod Hgates. constructor; [done| | | |done|done|done].
  - intros. by eapply nested_completed_true.
  - intros [m Hm]. rewrite Hm in Ep. cbn in Ep. by destruct (an_produced an _).
  - intros [m Hm]. rewrite Hm in Eu. cbn in Eu. by rewrite Eu.
Qed.

Lemma run_moved p : running view → moved' p (run_step rd an now accepted views step view p).2.
Proof.
  intros Hrun. unfold run_step. destruct (str_eqb (sr_status view) "ready" && sr_agentless view) eqn:Es; cbn [andb].
  - apply andb_true_iff in Es as [Es%str_eqb_true Eg]. destruct (awaited_run an step) as [after|]; [|apply moved_refl].
    destruct (set_state _ _ _ _ _ "working" _) as [changed q] eqn:Eq.
    assert (Hq : moved' p q) by (change q with (changed, q).2; rewrite <- Eq; apply set_state_moved; by apply starts).
    destruct (is_some (rt_nested step)); [done|]. apply also_moved. eapply moved_trans; [exact Hq|]. by apply check_moved.
  - apply also_moved. by apply check_moved.
Qed.

(** A step that failed and may be tried again is, and any other moves by the table. *)
Lemma evaluate_eligible_moved phase p :
  let p' := (evaluate_eligible rd an now accepted phase views step view p).2 in
  moved' p p' ∨
  sr_status view = "failed" ∧ (sr_attempt view < so_attempts (rt_more step))%Z ∧
    ps_work p' = (retry_step_as rd now accepted (ps_work p) (sr_subject view) None "the step repeat policy permits another attempt"
                    (so_backoff_ms (rt_more step))).2.
Proof.
  unfold evaluate_eligible. destruct (_ && bool_decide _); [left; apply moved_refl|].
  destruct (str_eqb (sr_status view) "failed") eqn:Ef.
  { destruct (Z.ltb_spec (sr_attempt view) (so_attempts (rt_more step))); [|left; apply moved_refl]. right. apply str_eqb_true in Ef.
    split; [done|]. split; [done|]. by destruct (retry_step_as _ _ _ _ _ _ _ _). }
  left. destruct (bool_decide (sr_status view ∈ ["completed"; "cancelled"; "waiting-person"])); [apply moved_refl|].
  destruct (str_eqb (sr_status view) "orphaned") eqn:Eo; [apply set_state_moved; apply recovers; by apply str_eqb_true|].
  destruct (leased_status (sr_status view) && work_claim_is_orphaned an view) eqn:Ew.
  { apply andb_true_iff in Ew as []. apply set_state_moved. by apply orphans. }
  destruct (str_eqb (sr_status view) "ready" && ostr_eqb _ _) eqn:Er.
  { apply andb_true_iff in Er as [Er%str_eqb_true Eb%ostr_eqb_true]. destruct (step_timed_out _ _ _).
    - apply expire_moved. unfold running. rewrite Er. set_solver.
    - apply set_state_moved. apply expires. auto. }
  destruct (is_some_and (sr_claim_expires view) _ && leased_status _) eqn:Ee.
  { apply andb_true_iff in Ee as [Ee El]. apply set_state_moved. apply expires. right. split; [done|].
    destruct (sr_claim_expires view) as [t|]; [|done]. exists t. split; [done|]. by apply Z.leb_le. }
  destruct (str_eqb (sr_status view) "pending" || _ || _) eqn:Eu.
  { apply admit_moved. unfold unstarted. apply orb_true_iff in Eu as [[Eu%str_eqb_true|Eu]%orb_true_iff|Eu]; auto. }
  destruct (bool_decide (sr_status view ∈ ["ready"; "claimed"; "working"; "verifying"; "blocked"])) eqn:Eb; cbn [negb]; [|apply moved_refl].
  apply bool_decide_eq_true in Eb. by apply run_moved.
Qed.
End moves.

(** ** A pass over the steps *)

Section steps.
Context {Gate : Type} (rd : Reads) (an : Answers Gate) (now accepted : Z) (phase : string) (views : gmap string StepRow).
#[local] Abbreviation rows p := (ws_steps (ps_work p)).

(** Where a step of the pass writes. *)
Definition writes_at (step : RuntimeStep Gate) (s : string) : Prop :=
  ∃ view, views !! st_path (rt_spec step) = Some view ∧ normalize_step_run (sr_subject view) = s.

(** No two steps of the pass write to one row. *)
Definition apart (steps : list (RuntimeStep Gate)) : Prop :=
  NoDup (map (λ step, st_path (rt_spec step)) steps) ∧
  ∀ path path' view view', views !! path = Some view → views !! path' = Some view' →
    normalize_step_run (sr_subject view) = normalize_step_run (sr_subject view') → path = path'.

Lemma set_step_state_other st subject status reason s :
  s ≠ normalize_step_run subject → ws_steps (set_step_state rd now accepted st subject status reason).2 !! s = ws_steps st !! s.
Proof.
  intros Hne. unfold set_step_state. destruct (ws_steps st !! normalize_step_run subject); [|done]. destruct (rd_owner _ _ _); [|done].
  destruct (_ || _ || _); [done|]. cbn. by rewrite lookup_insert_ne.
Qed.

Lemma set_state_other p subject status reason s :
  s ≠ normalize_step_run subject → rows (set_state rd now accepted p subject status reason).2 !! s = rows p !! s.
Proof.
  intros Hne. unfold set_state. pose proof (set_step_state_other (ps_work p) subject status reason s Hne) as H.
  by destruct (set_step_state _ _ _ _ _ _ _).
Qed.

Lemma expire_other view p s : s ≠ normalize_step_run (sr_subject view) → rows (expire_step_timeout rd an now accepted view p).2 !! s = rows p !! s.
Proof.
  intros Hne. unfold expire_step_timeout. destruct (sr_agentless view); [by apply set_state_other|]. by destruct (bool_decide _).
Qed.

Lemma gates_other step subject gates p s :
  s ≠ normalize_step_run subject → rows (evaluate_gates rd an now accepted step subject gates p).2 !! s = rows p !! s.
Proof.
  intros Hne. induction gates as [|gate gates IH]; cbn [evaluate_gates]; [by apply set_state_other|].
  destruct (an_gate _ _ _); [done|done|done| |]; [destruct (st_finally _); [|done]|]; by apply set_state_other.
Qed.

Lemma check_other step view p s :
  s ≠ normalize_step_run (sr_subject view) → rows (check_step rd an now accepted views step view p).2 !! s = rows p !! s.
Proof.
  intros Hne. unfold check_step. destruct (an_declaration_failure _ _); [by apply set_state_other|].
  destruct (_ && _); [by apply expire_other|]. destruct (negb _); [done|]. destruct (_ && _); [done|].
  destruct (so_loop _); [destruct (an_loop _ _); [done|by apply set_state_other]|].
  destruct (negb _); [done|]. destruct (_ && _); [done|].
  destruct (if is_some (st_uses_mission (rt_spec step)) then _ else _) as [c outcome]. destruct outcome; cbn [also snd]; [done| |by apply set_state_other]. unfold finish_step.
  destruct (awaited_run an step) as [[after|]|]; [|destruct (an_missing_product _ _); [done|by apply gates_other]|done].
  destruct (an_run_status an after); [|done]. destruct (str_eqb _ _); [destruct (an_missing_product _ _); [done|by apply gates_other]|].
  destruct (bool_decide _); [by apply set_state_other|done].
Qed.

Lemma run_other step view p s :
  s ≠ normalize_step_run (sr_subject view) → rows (run_step rd an now accepted views step view p).2 !! s = rows p !! s.
Proof.
  intros Hne. unfold run_step. destruct (str_eqb (sr_status view) "ready" && sr_agentless view); cbn [andb]; [|by apply check_other].
  destruct (awaited_run an step) as [after|]; [|done].
  pose proof (set_state_other p (sr_subject view) "working" ((λ after, "waiting for `" +:+ after +:+ "` to complete") <$> after) s Hne) as H.
  destruct (set_state _ _ _ _ _ _ _) as [changed q]. destruct (is_some _); [done|]. cbn [also snd]. by rewrite check_other.
Qed.

Lemma admit_other step view p s :
  s ≠ normalize_step_run (sr_subject view) → rows (admit_step rd an now accepted views step view p).2 !! s = rows p !! s.
Proof.
  intros Hne. unfold admit_step. destruct (is_some_and _ _); [done|]. destruct (negb _); [done|].
  destruct (failing_baseline _ _); [by apply set_state_other|].
  pose proof (set_state_other p (sr_subject view) "pending" None s Hne) as H. destruct (baseline_blocked view).
  - destruct (set_state _ _ _ _ _ _ _) as [changed q]. cbn [also snd]. destruct (_ || _); by rewrite set_state_other.
  - cbn [also snd]. destruct (_ || _); by rewrite set_state_other.
Qed.

Lemma evaluate_eligible_other step view p s :
  s ≠ normalize_step_run (sr_subject view) → rows (evaluate_eligible rd an now accepted phase views step view p).2 !! s = rows p !! s.
Proof.
  intros Hne. unfold evaluate_eligible. destruct (_ && _); [done|]. destruct (str_eqb (sr_status view) "failed").
  { destruct (_ <? _)%Z; [|done]. unfold retry_step_as. destruct (ws_steps _ !! normalize_step_run _); [|done]. destruct (rd_owner _ _ _); [|done].
    destruct (_ || _ || _); [done|]. cbn. by rewrite lookup_insert_ne. }
  destruct (bool_decide (sr_status view ∈ ["completed"; "cancelled"; "waiting-person"])); [done|]. destruct (str_eqb _ "orphaned"); [by apply set_state_other|].
  destruct (_ && work_claim_is_orphaned _ _); [by apply set_state_other|].
  destruct (str_eqb _ "ready" && _); [destruct (step_timed_out _ _ _); [by apply expire_other|by apply set_state_other]|].
  destruct (_ && leased_status _); [by apply set_state_other|]. destruct (str_eqb _ "pending" || _ || _); [by apply admit_other|].
  destruct (negb _); [done|]. by apply run_other.
Qed.

(** A step writes to no other row. *)
Lemma evaluate_step_other step p s : ¬ writes_at step s → rows (evaluate_step rd an now accepted phase views step p).2 !! s = rows p !! s.
Proof.
  intros Hw. unfold evaluate_step. destruct (views !! st_path (rt_spec step)) as [view|] eqn:Ev; [|done].
  destruct (eligible_phase _ _); [|done]. pose proof (evaluate_eligible_other step view p s) as H.
  destruct (evaluate_eligible _ _ _ _ _ _ _ _ _) as [changed q]. apply H. intros ->. apply Hw. by exists view.
Qed.

Lemma evaluate_steps_other steps p s :
  (∀ step, step ∈ steps → ¬ writes_at step s) → rows (evaluate_steps rd an now accepted phase views steps p).2 !! s = rows p !! s.
Proof.
  revert p. induction steps as [|step steps IH]; intros p Hw; [done|]. cbn [evaluate_steps].
  pose proof (evaluate_step_other step p s (Hw step ltac:(set_solver))) as H1. destruct (evaluate_step _ _ _ _ _ _ _ _) as [changed q].
  specialize (IH q ltac:(set_solver)). destruct (evaluate_steps _ _ _ _ _ _ _ _) as [rest q']. cbn in *. congruence.
Qed.

(** What one evaluation does to a row. *)
Lemma evaluate_step_row step p s r' :
  rows (evaluate_step rd an now accepted phase views step p).2 !! s = Some r' →
  ∃ r, rows p !! s = Some r ∧
    (sr_status r' = sr_status r ∧ sr_attempt r' = sr_attempt r ∨
     ∃ view, views !! st_path (rt_spec step) = Some view ∧ normalize_step_run (sr_subject view) = s ∧
       eligible_phase phase (st_finally (rt_spec step)) = true ∧
       (may_move an now views step view (sr_status r') ∧ sr_attempt r' = sr_attempt r ∨
        sr_status view = "failed" ∧ (sr_attempt view < so_attempts (rt_more step))%Z ∧ sr_status r = "failed" ∧
          sr_status r' = "pending" ∧ sr_attempt r' = Z.min u32_max (sr_attempt r + 1))).
Proof.
  unfold evaluate_step. destruct (views !! st_path (rt_spec step)) as [view|] eqn:Ev; [|intros Hr; exists r'; auto].
  destruct (eligible_phase _ _) eqn:Ee; [|intros Hr; exists r'; auto].
  pose proof (evaluate_eligible_moved rd an now accepted views step view phase p) as H.
  destruct (evaluate_eligible _ _ _ _ _ _ _ _ _) as [changed q]. cbn [snd] in *. intros Hr'. destruct H as [H|(Hf & Hlt & Hq)].
  - destruct (H s r' Hr') as (r & Hr & Ha & Hs). exists r. split; [done|]. destruct Hs as [Hs|[-> Hs]]; [auto|]. right. exists view. auto 10.
  - revert Hr'. rewrite Hq. unfold retry_step_as. destruct (ws_steps (ps_work p) !! normalize_step_run (sr_subject view)) as [r|] eqn:Er; [|intros Hr; exists r'; auto].
    destruct (rd_owner _ _ _) as [o|]; [|intros Hr; exists r'; auto]. destruct (_ || _ || _) eqn:Eg; [intros Hr; exists r'; auto|].
    apply orb_false_iff in Eg as [[_ Eg]%orb_false_iff _]. apply negb_false_iff, str_eqb_true in Eg.
    cbn [fst snd ws_steps]. rewrite lookup_insert_Some. intros [[<- <-]|[Hne Hr']]; [|exists r'; auto]. exists r. split; [done|]. right. exists view. cbn. auto 15.
Qed.

(** C27. Steps move only by the table: in a pass over a run's steps, whatever the gates and the other services answer, a row
    keeps its status and attempt unless it is the row of one of the steps, of the phase the run is in, and
    its new status is one the table allows that step: ready only when its time has come and its dependencies and baselines hold, or to
    recover it after its worker or its lease has gone; decided by its loop if it has one; completed otherwise only when its worker reported it and its nested steps, used and awaited runs, products and
    gates are all in order, and so on; or it failed with attempts left, and a new attempt, the next one, is pending. *)
Theorem steps_move_by_the_table steps p changed p' s r' :
  apart steps → evaluate_steps rd an now accepted phase views steps p = (changed, p') → rows p' !! s = Some r' →
  ∃ r, rows p !! s = Some r ∧
    (sr_status r' = sr_status r ∧ sr_attempt r' = sr_attempt r ∨
     ∃ step view, step ∈ steps ∧ views !! st_path (rt_spec step) = Some view ∧ normalize_step_run (sr_subject view) = s ∧
       eligible_phase phase (st_finally (rt_spec step)) = true ∧
       (may_move an now views step view (sr_status r') ∧ sr_attempt r' = sr_attempt r ∨
        sr_status view = "failed" ∧ (sr_attempt view < so_attempts (rt_more step))%Z ∧ sr_status r = "failed" ∧
          sr_status r' = "pending" ∧ sr_attempt r' = Z.min u32_max (sr_attempt r + 1))).
Proof.
  intros [Hdup Hinj] He Hr'. apply (f_equal snd) in He. cbn in He. subst p'. revert p Hr'. induction steps as [|step steps IH]; intros p.
  { intros Hr'. exists r'. auto. }
  apply NoDup_cons in Hdup as [Hnot Hdup]. cbn [evaluate_steps].
  pose proof (evaluate_step_row step p s) as Hrow. pose proof (evaluate_step_other step p s) as Hother.
  destruct (evaluate_step _ _ _ _ _ _ _ _) as [c q]. cbn [snd] in *.
  pose proof (evaluate_steps_other steps q s) as Hrest. specialize (IH Hdup q).
  destruct (evaluate_steps _ _ _ _ _ _ _ _) as [c' q']. cbn [snd] in *. intros Hr'.
  assert ((∃ view, views !! st_path (rt_spec step) = Some view ∧ normalize_step_run (sr_subject view) = s) ∨ ¬ writes_at step s) as [(view & Hv & Hs)|Hno].
  { unfold writes_at. destruct (views !! st_path (rt_spec step)) as [view|]; [|right; by intros (? & ? & _)].
    destruct (decide (normalize_step_run (sr_subject view) = s)); [left; eauto|right]. intros (? & [= <-] & ?). done. }
  - rewrite Hrest in Hr'.
    + destruct (Hrow r' Hr') as (r & Hr & Hc). exists r. split; [done|]. destruct Hc as [Hc|(v & Hv' & Hc)]; [auto|]. right. exists step, v. set_solver.
    + intros step' Hin (v & Hv' & Hs'). apply Hnot. apply list_elem_of_fmap. exists step'. split; [|done]. apply (Hinj _ _ view v); [done|done|congruence].
  - destruct (IH Hr') as (r & Hr & Hc). rewrite (Hother Hno) in Hr.
    exists r. split; [done|]. destruct Hc as [Hc|(step' & v & Hin & Hc)]; [auto|]. right. exists step', v. set_solver.
Qed.
End steps.

(** A pass reads its rows through [apply_effective_step_state], which never shows a lease that has run out: the moves [expires] are not made
    at the time the views are of. The row keeps the lease until another claim, a repair or an end of the run takes it. *)
Lemma expired_leases_are_not_shown rd now r o :
  rd_owner rd (sr_run r) (sr_generation r) = Some o → owner_terminal o = false → sr_generation r = ow_current_generation o →
  let view := apply_effective_step_state rd now r in
  ¬ (sr_status view = "ready" ∧ sr_blocked_reason view = Some LEASE_EXPIRED) ∧
  ¬ (leased_status (sr_status view) = true ∧ ∃ t, sr_claim_expires view = Some t ∧ (t ≤ now)%Z).
Proof.
  intros Ho Ht Hg. unfold apply_effective_step_state. rewrite Ho.
  set (r1 := if _ && _ && _ then _ else r). assert (Hr1 : sr_generation r1 = sr_generation r) by (unfold r1; by destruct (_ && _ && _)).
  clearbody r1. rewrite Ht, Hr1, Hg, str_eqb_refl. cbn [orb negb].
  set (r2 := if leased_status (sr_status r1) && _ then _ else r1).
  assert (H2 : ¬ (leased_status (sr_status r2) = true ∧ ∃ t, sr_claim_expires r2 = Some t ∧ (t ≤ now)%Z)).
  { unfold r2. destruct (leased_status (sr_status r1)) eqn:El; cbn [andb]; [|by rewrite El; intros []]. destruct (sr_claim_expires r1) as [t|] eqn:Et; cbn [is_some_and andb].
    - destruct (Z.leb_spec t now); [by intros [? _]|]. rewrite Et. intros (_ & t' & [= <-] & ?). lia.
    - rewrite Et. by intros (_ & t' & ? & _). }
  clearbody r2. set (r3 := if _ && bool_decide _ then _ else r2).
  assert (H3 : ¬ (leased_status (sr_status r3) = true ∧ ∃ t, sr_claim_expires r3 = Some t ∧ (t ≤ now)%Z)).
  { unfold r3. destruct (_ && bool_decide _); [by intros [? _]|exact H2]. }
  clearbody r3. destruct (str_eqb (sr_status r3) "ready") eqn:Es; cbn [andb].
  - destruct (sr_blocked_reason r3) as [reason|] eqn:Er; cbn [is_some].
    + destruct (bool_decide _); cbn; (split; [by intros [? ?]|]); [by intros [? _]|]. by intros (_ & t & ? & _).
    + split; [|done]. rewrite Er. by intros [_ ?].
  - split; [|done]. intros [Hs _]. by rewrite Hs in Es.
Qed.

(** ** Examples *)

(** Gates that answer as they are called, and services without objections. *)
Definition plain_answers : Answers GateOutcome :=
  mkAnswers (λ gate, gate) (λ _ gate, gate) (λ _ gate, gate) true (λ _, false) (λ _, false) (λ _, []) (λ _, 0%Z) (λ _, 0%Z) (λ _, true) (λ _ _, true)
    (λ _ _, false) (λ _, None) (λ _, true) (λ _, LoopWaits false) (λ _, true) (λ _, (false, UsedCompleted)) (λ _, ∅) (λ _, None) false false.

Definition agentless_step (id : string) (finally : bool) (after : list string) : StepSpec GateOutcome :=
  mkStep id id finally None (map (λ s, StepDependency s "completed") after) None None None ("hash of " +:+ id).
Definition plain_more (gates : list GateOutcome) : StepMore GateOutcome := mkMore None 1 0 [] gates false.

Definition agentless_row (id status : string) : StepRow :=
  mkStepRow ("step-run/g/" +:+ id) "r" "g" id status 1 None [] true [] false None None None None None None 0 0.

Definition no_reads : Reads := mkReads (λ _ _, Some (mkOwner "running" "normal" "g" "running" "running" "normal")) (λ _, false) (λ _, []) (λ _ _, None) (λ _ _ _, true).

(** One step can start, and another waits for it. *)
Definition two_steps : list (RuntimeStep GateOutcome) :=
  [mkRuntimeStep (agentless_step "build" false []) (plain_more [Pass]) None "" None;
   mkRuntimeStep (agentless_step "test" false ["build"]) (plain_more []) None "" None].
Definition two_rows : gmap string StepRow :=
  {[ "step-run/g/build" := agentless_row "build" "ready"; "step-run/g/test" := agentless_row "test" "pending" ]}.
Definition two_views : gmap string StepRow := {[ "build" := agentless_row "build" "ready"; "test" := agentless_row "test" "pending" ]}.
Definition two_state : PassState := mkPass (mkWorkStore two_rows ∅ ∅ []) ∅.
Definition two_passed : bool * PassState := evaluate_steps no_reads plain_answers 5 5 "normal" two_views two_steps two_state.

Example two_statuses : (sr_status <$> ws_steps (ps_work two_passed.2)) = {[ "step-run/g/build" := "completed"; "step-run/g/test" := "pending" ]}.
Proof. vm_compute. reflexivity. Qed.

Lemma table_witness : ∃ r' : StepRow,
  sr_status r' = "completed" ∧
  ∃ r, two_rows !! "step-run/g/build" = Some r ∧
    (sr_status r' = sr_status r ∧ sr_attempt r' = sr_attempt r ∨
     ∃ step view, step ∈ two_steps ∧ two_views !! st_path (rt_spec step) = Some view ∧ normalize_step_run (sr_subject view) = "step-run/g/build" ∧
       eligible_phase "normal" (st_finally (rt_spec step)) = true ∧
       (may_move plain_answers 5 two_views step view (sr_status r') ∧ sr_attempt r' = sr_attempt r ∨
        sr_status view = "failed" ∧ (sr_attempt view < so_attempts (rt_more step))%Z ∧ sr_status r = "failed" ∧
          sr_status r' = "pending" ∧ sr_attempt r' = Z.min u32_max (sr_attempt r + 1))).
Proof.
  destruct (ws_steps (ps_work two_passed.2) !! "step-run/g/build") as [r'|] eqn:E; [|vm_compute in E; discriminate E].
  exists r'. split; [vm_compute in E; injection E as <-; reflexivity|].
  apply (steps_move_by_the_table no_reads plain_answers 5 5 "normal" two_views two_steps two_state two_passed.1 two_passed.2); [|symmetry; apply surjective_pairing|exact E].
  split; [apply (bool_decide_unpack _); vm_compute; reflexivity|].
  assert (Hv : ∀ path view, two_views !! path = Some view → sr_subject view = "step-run/g/" +:+ path).
  { intros path view Hp. unfold two_views in Hp. apply lookup_insert_Some in Hp as [[<- <-]|[_ Hp]]; [reflexivity|]. apply lookup_singleton_Some in Hp as [<- <-]. reflexivity. }
  intros path path' view view' H H'. rewrite (Hv _ _ H), (Hv _ _ H'). intros Heq.
  change ("step-run/g/" +:+ path = "step-run/g/" +:+ path') in Heq. by injection Heq.
Defined.
