(* ===== verification/MissionRun.v ===== *)
(** * Mission runs

    Models how a pass moves a mission run through its phases: [evaluate_active_mission_run], [evaluate_mission_run],
    [mission_completion_selected], [final_step_failures] and [reconcile_mission_run_cleanup] of [crates/st3/src/reconcile.rs],
    and the transaction they end in, [set_mission_run_state_tx] of [store.rs], with what it does to the
    steps of the run and to the runs below it. The steps are evaluated by [RunStep]. The two claims a transition publishes, on the run and
    on its generation, have one body and are one [RunClaim] here. *)

From S2P Require Import Prelude StableSort Text Utf8 Mission Work RunStep.

Inductive CompletionSpec (Gate : Type) := AllStepsExhausted | Dependencies (dependencies : list (DependencySpec Gate)).
#[global] Arguments AllStepsExhausted {Gate}.
#[global] Arguments Dependencies {Gate} _.

(** What a run reads of its mission; the steps are in display order. *)
Record RunMission (Gate : Type) := mkRunMission {
  rm_steps : list (FullStep Gate);
  rm_completion : option (CompletionSpec Gate);
  rm_baselines : list (string * list Gate);
  rm_gates : list Gate;
  rm_declares : bool
}.
#[global] Arguments mkRunMission {Gate} _ _ _ _ _.
#[global] Arguments rm_steps {Gate} _.
#[global] Arguments rm_completion {Gate} _.
#[global] Arguments rm_baselines {Gate} _.
#[global] Arguments rm_gates {Gate} _.
#[global] Arguments rm_declares {Gate} _.

(** A row of [mission_runs], with the run's generations, oldest first, and their status. *)
Record RunRow := mkRunRow {
  rr_status : string;
  rr_phase : string;
  rr_generation : string;
  rr_generations : list (string * string);
  rr_root : string;
  rr_parent_step : option string
}.

Record RunClaim := mkRunClaim {
  rc_run : string;
  rc_status : string;
  rc_phase : string;
  rc_reason : option string;
  rc_actor : option string;
  rc_accepted_at : Z
}.

(** The verdicts are those of evals: the verdict, its reason and what the eval left behind. *)
Record RunState := mkRunState {
  rs_pass : PassState;
  rs_runs : gmap string RunRow;
  rs_claims : list RunClaim;
  rs_verdicts : gmap string (string * option string * list string)
}.

Definition rs_work (st : RunState) : WorkStore := ps_work (rs_pass st).
Definition with_pass (p : PassState) (st : RunState) : RunState := mkRunState p (rs_runs st) (rs_claims st) (rs_verdicts st).
Definition with_work (w : WorkStore) (st : RunState) : RunState := with_pass (mkPass w (ps_raised (rs_pass st))) st.

Definition run_owner (runs : gmap string RunRow) (run generation : string) : option Owner :=
  row ← runs !! run;
  g ← List.find (λ g, str_eqb (fst g) generation) (rr_generations row);
  root ← runs !! rr_root row;
  Some (mkOwner (rr_status row) (rr_phase row) (rr_generation row) (snd g) (rr_status root) (rr_phase root)).

(** The other tables, with the runs as they are. *)
Definition reads (rd : Reads) (st : RunState) : Reads :=
  mkReads (run_owner (rs_runs st)) (rd_ask_ended rd) (rd_blockers rd) (rd_seat_conflict rd) (rd_fresh_ready rd).

(** ** The transaction *)

Definition cancelled_row (reason : string) (now : Z) (r : StepRow) : StepRow :=
  set_work "cancelled" (sr_worker_reported r) None None None (Some reason) (sr_readiness_epoch r) now r.

Section transaction.
Context (now accepted : Z).

Definition cancel_step (reason : string) (actor : option string) (w : WorkStore) (r : StepRow) : WorkStore :=
  mkWorkStore (<[sr_subject r := cancelled_row reason now r]> (ws_steps w)) (ws_idempotency w) (ws_renewals w)
    (ws_claims w ++ [mkWorkClaim (sr_subject r) "step-run.state" actor
                       (mkFields None (Some "cancelled") (Some reason) None None None None None None None None) accepted]).

Definition open_steps (generation : string) (w : WorkStore) : list StepRow :=
  List.filter (λ r, str_eqb (sr_generation r) generation && negb (is_terminal_run_state (sr_status r))) (step_rows w).

Definition terminalize_generation_steps (reason : string) (actor : option string) (w : WorkStore) (generation : string) : WorkStore :=
  fold_left (cancel_step reason actor) (open_steps generation w) w.

Definition terminalize_run_steps (run reason : string) (actor : option string) (st : RunState) : RunState :=
  match rs_runs st !! run with
  | None => st
  | Some row => with_work (fold_left (terminalize_generation_steps reason actor) (map fst (rr_generations row)) (rs_work st)) st
  end.

(** The run that the step [subject] belongs to, and its generation. *)
Definition step_place (st : RunState) (subject : string) : option (string * string) :=
  (λ r, (sr_run r, sr_generation r)) <$> ws_steps (rs_work st) !! subject.

Definition children (below : string * string → bool) (st : RunState) : gset string :=
  list_to_set (map fst (List.filter (λ '(_, row), is_some_and (rr_parent_step row ≫= step_place st) below) (map_to_list (rs_runs st)))).

(** The recursive query: a round adds the runs whose parent step is of one found before. As many rounds as there are runs find
    all of them ([descendants_closed]). *)
Definition descendant_mission_run_ids (generation : string) (st : RunState) : list string :=
  let round found := found ∪ children (λ place, bool_decide (fst place ∈ found)) st in
  map fst (in_key_order (gset_to_gmap tt (Nat.iter (size (rs_runs st)) round (children (λ place, str_eqb (snd place) generation) st)))).

Definition set_row (status phase : string) (row : RunRow) : RunRow :=
  mkRunRow status phase (rr_generation row)
    (map (λ g, if str_eqb (fst g) (rr_generation row) then (fst g, status) else g) (rr_generations row)) (rr_root row) (rr_parent_step row).

Definition move_run (run : string) (row : RunRow) (status phase : string) (reason actor : option string) (st : RunState) : RunState :=
  mkRunState (rs_pass st) (<[run := set_row status phase row]> (rs_runs st))
    (rs_claims st ++ [mkRunClaim run status phase reason actor accepted]) (rs_verdicts st).

Definition cancel_descendant (reason : string) (st : RunState) (run : string) : RunState :=
  let st := terminalize_run_steps run reason (Some "daemon/runtime") st in
  match rs_runs st !! run with
  | None => st
  | Some row =>
      if bool_decide (rr_status row ∈ ["running"; "standing"; "blocked"])
      then move_run run row "cancelled" "terminal" (Some reason) (Some "daemon/runtime") st else st
  end.

Definition cancel_descendant_mission_runs (generation reason : string) (st : RunState) : RunState :=
  fold_left (cancel_descendant reason) (descendant_mission_run_ids generation st) st.

(** How many claims there are: a transaction that published one has changed something. *)
Definition claim_count (st : RunState) : nat := length (rs_claims st) + length (ws_claims (rs_work st)).

Definition TERMINAL_OWNER : string := "the owning mission run is terminal".

Definition set_mission_run_state (st : RunState) (run status phase : string) (reason : option string) : bool * RunState :=
  match rs_runs st !! run with
  | None => (false, st)
  | Some row =>
      let same := str_eqb (rr_status row) status && str_eqb (rr_phase row) phase in
      let target_is_terminal := is_terminal_run_state status || str_eqb phase "terminal" in
      let sweep st := terminalize_run_steps run (default TERMINAL_OWNER reason) None
                        (cancel_descendant_mission_runs (rr_generation row) (default TERMINAL_OWNER reason) st) in
      if str_eqb (rr_phase row) "terminal" || (same && target_is_terminal)
      then let st' := sweep st in (negb (claim_count st' =? claim_count st), st')
      else if same then (false, st)
      else if (starts_with "cleanup-" (rr_phase row) && negb (str_eqb phase "terminal"))
              || (str_eqb (rr_phase row) "final-cancelled" && negb (bool_decide (phase ∈ ["final-cancelled"; "cleanup-cancelled"; "terminal"])))
      then (false, st)
      else
        let st := move_run run row status phase reason None st in
        let st := if starts_with "cleanup-" phase
                  then terminalize_run_steps run (default "the mission run entered cleanup" reason) (Some "daemon/runtime") st else st in
        (true, if target_is_terminal then sweep st else st)
  end.
End transaction.

(** ** The phases *)

Definition latest_claim (st : RunState) (run : string) : option RunClaim := head (reverse (List.filter (λ c, str_eqb (rc_run c) run) (rs_claims st))).
Definition latest_reason (st : RunState) (run : string) : option string := latest_claim st run ≫= rc_reason.

Section run.
Context {Gate : Type} (rd : Reads) (an : Answers Gate) (now accepted : Z).

(** The run's steps as a pass reads them, and by their paths. *)
Definition run_steps (st : RunState) (row : RunRow) : list StepRow :=
  map (apply_effective_step_state (reads rd st) now) (List.filter (λ r, str_eqb (sr_generation r) (rr_generation row)) (step_rows (rs_work st))).
Definition by_path (steps : list StepRow) : gmap string StepRow := list_to_map (map (λ r, (sr_step r, r)) steps).

Definition view_of (views : gmap string StepRow) (step : RuntimeStep Gate) : option StepRow := views !! st_path (rt_spec step).
Definition finally (step : RuntimeStep Gate) : bool := st_finally (rt_spec step).
Definition normal (step : RuntimeStep Gate) : bool := negb (finally step).

(** A step that is not tried again. *)
Definition exhausted (step : RuntimeStep Gate) (view : StepRow) : bool :=
  str_eqb (sr_status view) "failed" && (so_attempts (rt_more step) <=? sr_attempt view)%Z.

Definition mission_completion_selected (mission : RunMission Gate) (views : gmap string StepRow) : bool :=
  match rm_completion mission with
  | None => false
  | Some AllStepsExhausted =>
      forallb (λ step, is_some_and (view_of views step) (λ view,
                 bool_decide (sr_status view ∈ ["completed"; "cancelled"]) || exhausted step view))
        (List.filter normal (flatten_mission_steps (rm_steps mission)))
  | Some (Dependencies dependencies) =>
      forallb (λ dependency,
                 match dependency with
                 | StepDependency step state => is_some_and (views !! step) (λ view, state_holds state (sr_status view))
                 | Predicate gate => passes (an_context_gate an gate)
                 end) dependencies
  end.

(** The baselines of the mission, before its first step is admitted. *)
Definition admitted_steps (flat : list (RuntimeStep Gate)) (views : gmap string StepRow) : bool :=
  existsb (λ step, normal step && is_some_and (view_of views step) (λ view, (1 <? sr_attempt view)%Z
             || bool_decide (sr_status view ∈ ["ready"; "claimed"; "working"; "verifying"; "completed"; "failed"; "cancelled"]))) flat.

Definition mission_baseline (mission : RunMission Gate) (flat : list (RuntimeStep Gate)) (views : gmap string StepRow) : option string :=
  if admitted_steps flat views then None else failing_baseline (an_context_gate an) (rm_baselines mission).

(** What the gates of the mission say of its normal phase: wait, or its failure if any. *)
Fixpoint mission_gates (gates : list Gate) : option (option string) :=
  match gates with
  | [] => Some None
  | gate :: gates =>
      match an_context_gate an gate with
      | Pass => mission_gates gates
      | GatePending | NotYet | Broken _ => None
      | GateFail reason => Some (Some reason)
      end
  end.

Definition set_run (st : RunState) (run status phase : string) (reason : option string) : bool * RunState :=
  set_mission_run_state now accepted st run status phase reason.

Definition also_run (changed : bool) (r : bool * RunState) : bool * RunState := (changed || r.1, r.2).

(** The normal steps still open are cancelled. *)
Definition cancel_open_step (views : gmap string StepRow) (reason : string) (acc : bool * RunState) (step : RuntimeStep Gate) : bool * RunState :=
  let '(changed, st) := acc in
  match view_of views step with
  | Some view =>
      if normal step && negb (is_terminal_run_state (sr_status view))
      then let '(c, w) := set_step_state (reads rd st) now accepted (rs_work st) (sr_subject view) "cancelled" (Some reason) in
           (changed || c, with_work w st)
      else (changed, st)
  | None => (changed, st)
  end.

Definition cancel_open_steps (views : gmap string StepRow) (reason : string) (flat : list (RuntimeStep Gate)) (st : RunState) : bool * RunState :=
  fold_left (cancel_open_step views reason) flat (false, st).

(** The normal phase is over: [failure] is why it failed, if it did. *)
Definition end_normal_phase (run : string) (flat : list (RuntimeStep Gate)) (views : gmap string StepRow) (failure : option string) (st : RunState) :
    bool * RunState :=
  let '(changed, st) := cancel_open_steps views (if is_some failure then "another step failed" else "the normal phase completed") flat st in
  also_run changed
    (if existsb finally flat then set_run st run "running" "final" failure
     else set_run st run "running" (if is_some failure then "cleanup-failed" else "cleanup-completed") failure).

Definition final_terminal (flat : list (RuntimeStep Gate)) (views : gmap string StepRow) : bool :=
  forallb (λ step, is_some_and (view_of views step) (λ view, is_terminal_run_state (sr_status view))) (List.filter finally flat).

Definition final_step_failures (flat : list (RuntimeStep Gate)) (views : gmap string StepRow) : list string :=
  map (λ view, sr_step view +:+ ": " +:+ default "the step failed" (sr_blocked_reason view))
    (List.filter (λ view, str_eqb (sr_status view) "failed") (omap (view_of views) (List.filter finally flat))).

(** Without the fault the failed final steps raise. *)
Definition end_final_phase (run phase : string) (flat : list (RuntimeStep Gate)) (steps : list StepRow) (st : RunState) : bool * RunState :=
  let views := by_path steps in
  let failures := final_step_failures flat views in
  let final_failed := negb (bool_decide (failures = [])) in
  let failed :=
    negb (str_eqb phase "final-cancelled")
    && existsb (λ v, bool_decide (sr_step v ∈ map (λ step, st_path (rt_spec step)) (List.filter normal flat))
                     && bool_decide (sr_status v ∈ ["failed"; "cancelled"])) steps in
  let terminal_status := if str_eqb phase "final-cancelled" then "cancelled" else if failed then "failed" else "completed" in
  let failure_reason :=
    if final_failed && str_eqb terminal_status "cancelled" then Some ("finally steps failed: " +:+ String.concat "; " failures)
    else if failed then Some "one or more mission steps failed" else None in
  also_run (final_failed && negb (str_eqb terminal_status "cancelled")) (set_run st run "running" ("cleanup-" +:+ terminal_status) failure_reason).

(** The status of a run whose steps were evaluated. *)
Definition settle_status (mission : RunMission Gate) (flat : list (RuntimeStep Gate)) (changed : bool) (steps : list StepRow) : string * option string :=
  let normal_views := List.filter (λ v, bool_decide (sr_step v ∈ map (λ step, st_path (rt_spec step)) (List.filter normal flat))) steps in
  if existsb (λ v, bool_decide (sr_status v ∈ ["ready"; "claimed"; "working"; "verifying"])) normal_views then ("running", None)
  else if existsb (λ v, bool_decide (sr_status v ∈ ["failed"; "cancelled"])) normal_views then ("blocked", Some "the mission has no available step")
  else if is_none (rm_completion mission) && negb changed then ("standing", Some "the open mission has no available step")
  else ("running", None).

(** A normal step has failed for good, or was cancelled. *)
Definition any_failed (flat : list (RuntimeStep Gate)) (views : gmap string StepRow) : bool :=
  existsb (λ step, normal step && is_some_and (view_of views step) (λ view, exhausted step view || str_eqb (sr_status view) "cancelled")) flat.

(** [row] is the run as the pass read it. *)
Definition evaluate_mission_run (mission : RunMission Gate) (run : string) (row : RunRow) (st : RunState) : bool * RunState :=
  let phase := rr_phase row in
  let flat := flatten_mission_steps (rm_steps mission) in
  let steps := run_steps st row in
  let views := by_path steps in
  match (if str_eqb phase "normal" then mission_baseline mission flat views else None) with
  | Some name => set_run st run "blocked" "normal" (Some ("mission baseline `" +:+ name +:+ "` does not hold"))
  | None =>
      let '(changed, st) :=
        if str_eqb phase "normal" && str_eqb (rr_status row) "blocked" && is_some_and (latest_reason st run) (starts_with "mission baseline `")
        then set_run st run "running" "normal" None else (false, st) in
      let changed := changed || (rm_declares mission && an_mission_materialized an) || an_retired an in
      let normal_failed := any_failed flat views in
      let selected := str_eqb phase "normal" && ((normal_failed && is_some (rm_completion mission)) || mission_completion_selected mission views) in
      if selected then
        match (if normal_failed then Some (Some "a normal step failed")
               else if an_products_hold an then mission_gates (rm_gates mission) else None) with
        | None => (changed, st)
        | Some failure => also_run changed (end_normal_phase run flat views failure st)
        end
      else if bool_decide (phase ∈ ["final"; "final-cancelled"]) && final_terminal flat views
      then also_run changed (end_final_phase run phase flat steps st)
      else
        let '(stepped, p) := evaluate_steps (reads rd st) an now accepted phase views flat (rs_pass st) in
        let st := with_pass p st in
        let changed := changed || stepped in
        if str_eqb phase "normal"
        then let '(status, reason) := settle_status mission flat changed (run_steps st row) in also_run changed (set_run st run status "normal" reason)
        else (changed, st)
  end.
End run.

(** ** Cleanup *)

(** What a run owns: whether its declaration is a stop or names a runtime, the status last observed, and whether its seat is kept. *)
Record Owned := mkOwned {
  od_subject : string;
  od_stop : bool;
  od_member : bool;
  od_actual : option (option string);
  od_retained : bool
}.

(** What a cleanup reads and does elsewhere: the intake it stopped, what the run owns, whether declaring the stops changed anything, and,
    for an eval, the errors of removing its runtimes and what it left behind. *)
Record CleanupAnswers := mkCleanup {
  ca_intake_stopped : bool;
  ca_owned : list Owned;
  ca_applied : bool;
  ca_deadline_ms : Z;
  ca_eval : bool;
  ca_errors : list string;
  ca_retired : result string (list string)
}.

Definition owned_live (o : Owned) : bool :=
  (od_member o || od_stop o)
  && negb (od_stop o && is_none (od_actual o))
  && negb (is_some_and (od_actual o ≫= id) (λ status, bool_decide (status ∈ ["stopped"; "absent"; "exited"])))
  && negb (od_stop o && od_retained o).

(** The status a run ends in, and an eval's verdict with its reason and residue. *)
Definition eval_verdict (errors : list string) (retired : result string (list string)) (status : string) (run_reason : option string) :
    string * (string * option string * list string) :=
  match errors, retired with
  | _ :: _, _ =>
      let reasons := errors ++ match retired with Err e => [e] | Ok _ => [] end in
      ("cancelled", ("void", Some ("eval cleanup infrastructure failed: " +:+ String.concat "; " reasons), []))
  | [], Ok [] =>
      (status, (if str_eqb status "completed" then "pass" else if str_eqb status "failed" then "fail" else "void",
                if str_eqb status "failed" then run_reason else None, []))
  | [], Ok residue => ("failed", ("fail", Some "the eval left subjects in its owned graph", residue))
  | [], Err e => ("cancelled", ("void", Some ("eval cleanup infrastructure failed: " +:+ e), []))
  end.

Definition reconcile_mission_run_cleanup (now accepted : Z) (ca : CleanupAnswers) (run : string) (row : RunRow) (st : RunState) : bool * RunState :=
  let live := List.filter owned_live (ca_owned ca) in
  if existsb (λ o, negb (od_stop o)) live then (ca_applied ca || ca_intake_stopped ca, st)
  else
    let since := match latest_claim st run with
                 | Some c => if str_eqb (rc_phase c) (rr_phase row) then rc_accepted_at c else now
                 | None => now
                 end in
    if negb (bool_decide (live = [])) && (now <? Z.min u128_max (since + ca_deadline_ms ca))%Z then (ca_intake_stopped ca, st)
    else
      let unstopped :=
        if bool_decide (live = []) then None
        else Some ("cleanup ended at its deadline with runtimes still live: " +:+ String.concat ", " (map od_subject live)) in
      let status := default "failed" (strip_prefix "cleanup-" (rr_phase row)) in
      let reason := latest_reason st run in
      let '(status, st) :=
        if ca_eval ca
        then let '(status, verdict) := eval_verdict (option_list unstopped ++ ca_errors ca) (ca_retired ca) status reason in
             (status, mkRunState (rs_pass st) (rs_runs st) (rs_claims st) (<[run := verdict]> (rs_verdicts st)))
        else (status, st) in
      also_run (ca_intake_stopped ca || ca_eval ca)
        (set_run now accepted st run status "terminal" (match unstopped with Some u => Some u | None => reason end)).

(** ** An active run *)

(** What a pass reads of a run besides its row: the deadline with the timeout it is named by, the state after a revision that
    was draining is applied, if it is, whether one is still draining, and its mission, if its revision is here. *)
Record ActiveRun (Gate : Type) := mkActive {
  av_deadline : option Z;
  av_timeout : string;
  av_drained : option RunState;
  av_draining : bool;
  av_mission : option (result St3Error (RunMission Gate))
}.
#[global] Arguments mkActive {Gate} _ _ _ _ _.
#[global] Arguments av_deadline {Gate} _.
#[global] Arguments av_timeout {Gate} _.
#[global] Arguments av_drained {Gate} _.
#[global] Arguments av_draining {Gate} _.
#[global] Arguments av_mission {Gate} _.

Definition evaluate_active_mission_run {Gate} (rd : Reads) (an : Answers Gate) (now accepted : Z) (ca : CleanupAnswers) (av : ActiveRun Gate) (run : string)
    (row : RunRow) (st : RunState) : bool * RunState :=
  let phase := rr_phase row in
  let cleaning := starts_with "cleanup-" phase in
  if is_some_and (av_deadline av) (λ deadline, (deadline <=? now)%Z) && negb cleaning then
    let reason := "the mission timeout expired after " +:+ av_timeout av +:+ "ms" in
    let st' := cancel_descendant_mission_runs now accepted (rr_generation row) reason st in
    also_run (negb (claim_count st' =? claim_count st))
      (set_run now accepted st' run "running" (if str_eqb phase "final-cancelled" then "cleanup-cancelled" else "cleanup-failed") (Some reason))
  else
    match (if str_eqb phase "revision-draining" then av_drained av else None) with
    | Some drained => (true, drained)
    | None =>
        if str_eqb phase "revision-draining" && negb (av_draining av) then set_run now accepted st run (rr_status row) "normal" None
        else if cleaning then reconcile_mission_run_cleanup now accepted ca run row st
        else
          match av_mission av with
          | None => set_run now accepted st run "blocked" phase (Some "the selected mission revision is unavailable")
          | Some (Err e) => set_run now accepted st run "blocked" phase (Some (er_message e))
          | Some (Ok mission) => evaluate_mission_run rd an now accepted mission run row st
          end
    end.

(** ** The runs below a generation *)

(** A search that only adds, within a set, has found everything after as many rounds as the set has elements. *)
Lemma rounds_suffice (grow : gset string → gset string) (all start : gset string) :
  (∀ found, found ⊆ grow found) → (∀ found, found ⊆ all → grow found ⊆ all) → start ⊆ all →
  grow (Nat.iter (size all) grow start) = Nat.iter (size all) grow start.
Proof.
  intros Hgrow Hwithin Hstart.
  assert (Hin : ∀ k, Nat.iter k grow start ⊆ all) by (intros k; induction k as [|k IH]; [done|by apply Hwithin]).
  assert (Hsize : ∀ k, grow (Nat.iter k grow start) = Nat.iter k grow start ∨ k ≤ size (Nat.iter k grow start)).
  { intros k. induction k as [|k [IH|IH]]; [right; lia|left; change (grow (grow (Nat.iter k grow start)) = grow (Nat.iter k grow start)); by rewrite IH|]. set (found := Nat.iter k grow start) in *.
    change (Nat.iter (S k) grow start) with (grow found). destruct (decide (grow found = found)) as [E|E]; [left; by rewrite E|right].
    pose proof (Hgrow found) as Hsub. assert (size found < size (grow found)); [|lia]. apply subset_size. split; [done|]. intros Hback. apply E. set_solver. }
  destruct (Hsize (size all)) as [H|H]; [done|]. set (found := Nat.iter (size all) grow start) in *. pose proof (Hin (size all)) as Hf. fold found in Hf.
  assert (Heq : found = all).
  { apply set_eq. intros x. split; [apply Hf|]. intros Hx. destruct (decide (x ∈ found)) as [|Hn]; [done|].
    assert (size found < size all); [|lia]. apply subset_size. split; [done|]. intros Hback. by apply Hn, Hback. }
  pose proof (Hgrow found). pose proof (Hwithin found Hf). set_solver.
Qed.

(** Nothing below a run that the search found is missing. *)
Lemma descendants_closed generation st run row subject place :
  rs_runs st !! run = Some row → rr_parent_step row = Some subject → step_place st subject = Some place →
  snd place = generation ∨ fst place ∈ descendant_mission_run_ids generation st → run ∈ descendant_mission_run_ids generation st.
Proof.
  intros Hrow Hparent Hplace. unfold descendant_mission_run_ids.
  set (start := children (λ place, str_eqb (snd place) generation) st).
  set (grow := λ found, found ∪ children (λ place, bool_decide (fst place ∈ found)) st).
  assert (Hdom : ∀ below, children below st ⊆ dom (rs_runs st)).
  { intros below x. unfold children. rewrite elem_of_list_to_set, list_elem_of_fmap. intros ([k v] & -> & Hk). apply lfilter_elem in Hk as [Hk _].
    apply elem_of_map_to_list in Hk. by apply elem_of_dom_2 in Hk. }
  assert (Hchild : ∀ below, below place = true → run ∈ children below st).
  { intros below Hb. unfold children. apply elem_of_list_to_set, list_elem_of_fmap. exists (run, row). split; [done|]. apply lfilter_elem.
    split; [by apply elem_of_map_to_list|]. rewrite Hparent. cbn. by rewrite Hplace. }
  assert (Hin : ∀ x (X : gset string), x ∈ map fst (in_key_order (gset_to_gmap tt X)) ↔ x ∈ X).
  { intros x X. rewrite list_elem_of_fmap. split.
    - intros ([k []] & -> & Hk). apply in_key_order_elem in Hk. by apply lookup_gset_to_gmap_Some in Hk as [? _].
    - intros Hx. exists (x, tt). split; [done|]. apply in_key_order_elem. by apply lookup_gset_to_gmap_Some. }
  rewrite !Hin, <- size_dom.
  assert (Hfix : grow (Nat.iter (size (dom (rs_runs st))) grow start) = Nat.iter (size (dom (rs_runs st))) grow start).
  { apply rounds_suffice; [unfold grow; set_solver| |apply Hdom]. intros found Hf. unfold grow. pose proof (Hdom (λ place, bool_decide (fst place ∈ found))). set_solver. }
  intros [Hg|Hf].
  - assert (Hs : ∀ k, start ⊆ Nat.iter k grow start) by (intros k; induction k as [|k IH]; [done|]; change (start ⊆ grow (Nat.iter k grow start)); unfold grow at 1; set_solver).
    apply Hs, Hchild. by apply str_eqb_true.
  - rewrite <- Hfix. unfold grow at 1. apply elem_of_union_r, Hchild. by apply bool_decide_eq_true.
Qed.

(** ** What a transition does to the run *)

Section transitions.
Context (now accepted : Z).

Lemma terminalize_keeps run reason actor st : rs_runs (terminalize_run_steps now accepted run reason actor st) = rs_runs st.
Proof. unfold terminalize_run_steps. by destruct (rs_runs st !! run). Qed.

(** A run that is not ending and is to end no sooner than in cleanup has the status and the phase it is given. *)
Lemma set_run_moves st run row status phase reason :
  rs_runs st !! run = Some row → rr_phase row ∈ ["normal"; "final"; "final-cancelled"; "revision-draining"] →
  is_terminal_run_state status = false → phase ≠ "terminal" → (rr_phase row = "final-cancelled" → phase = "cleanup-cancelled") →
  ∃ row', rs_runs (set_run now accepted st run status phase reason).2 !! run = Some row' ∧ rr_status row' = status ∧ rr_phase row' = phase ∧
    rr_generation row' = rr_generation row.
Proof.
  intros Hrow Hphase Hs Hp Hc. unfold set_run, set_mission_run_state. rewrite Hrow, Hs, (proj2 (str_eqb_false phase "terminal") Hp). cbn [orb].
  assert (Hnt : str_eqb (rr_phase row) "terminal" = false ∧ starts_with "cleanup-" (rr_phase row) = false).
  { apply elem_of_cons in Hphase as [->|Hphase]; [done|]. repeat (apply elem_of_cons in Hphase as [->|Hphase]; [done|]). by apply elem_of_nil in Hphase. }
  destruct Hnt as [-> ->]. rewrite andb_false_r. cbn [orb andb].
  destruct (str_eqb (rr_status row) status && str_eqb (rr_phase row) phase) eqn:Es.
  { apply andb_true_iff in Es as [Es%str_eqb_true Ep%str_eqb_true]. exists row. auto. }
  assert (Hfc : str_eqb (rr_phase row) "final-cancelled" && negb (bool_decide (phase ∈ ["final-cancelled"; "cleanup-cancelled"; "terminal"])) = false).
  { destruct (str_eqb (rr_phase row) "final-cancelled") eqn:Ef; [|done]. apply str_eqb_true in Ef. by rewrite (Hc Ef). }
  rewrite Hfc. exists (set_row status phase row). destruct (starts_with "cleanup-" phase); cbn [snd]; rewrite ?terminalize_keeps; cbn; by rewrite lookup_insert_eq.
Qed.
End transitions.

(** ** How the phases end *)

Section ends.
Context {Gate : Type} (rd : Reads) (an : Answers Gate) (now accepted : Z) (run : string).

Lemma mission_gates_accept gates : mission_gates an gates = Some None ↔ ∀ gate, gate ∈ gates → an_context_gate an gate = Pass.
Proof.
  induction gates as [|gate gates IH]; cbn [mission_gates]; [split; [intros _ g Hg; by apply elem_of_nil in Hg|done]|].
  split.
  - destruct (an_context_gate an gate) eqn:E; try done. rewrite IH. intros H g [->|Hg]%elem_of_cons; auto.
  - intros H. rewrite (H gate) by set_solver. apply IH. set_solver.
Qed.

Lemma cancel_open_keeps views reason (flat : list (RuntimeStep Gate)) acc :
  rs_runs (fold_left (cancel_open_step rd now accepted views reason) flat acc).2 = rs_runs acc.2.
Proof.
  revert acc. induction flat as [|step flat IH]; intros [c st0]; [done|]. cbn [fold_left]. rewrite IH. unfold cancel_open_step.
  destruct (view_of views step) as [view|]; [|done]. destruct (normal step && _); [|done]. by destruct (set_step_state _ _ _ _ _ _ _).
Qed.

(** The phase after the normal one. *)
Lemma end_normal_phase_row (flat : list (RuntimeStep Gate)) views failure st row :
  rs_runs st !! run = Some row → rr_phase row = "normal" →
  ∃ row', rs_runs (end_normal_phase rd now accepted run flat views failure st).2 !! run = Some row' ∧
    rr_phase row' = (if existsb finally flat then "final" else if is_some failure then "cleanup-failed" else "cleanup-completed").
Proof.
  intros Hrow Hp. unfold end_normal_phase.
  pose proof (cancel_open_keeps views (if is_some failure then "another step failed" else "the normal phase completed") flat (false, st)) as Hk.
  unfold cancel_open_steps. destruct (fold_left _ _ _) as [c st']. cbn [snd] in Hk. rewrite <- Hk in Hrow.
  assert (Hin : rr_phase row ∈ ["normal"; "final"; "final-cancelled"; "revision-draining"]) by (rewrite Hp; set_solver).
  assert (Hmoves : ∀ phase, phase ≠ "terminal" → ∃ row', rs_runs (set_run now accepted st' run "running" phase failure).2 !! run = Some row' ∧ rr_phase row' = phase).
  { intros phase Hne. destruct (set_run_moves now accepted st' run row "running" phase failure) as (row' & H1 & _ & H2 & _); [done..|congruence|]. eauto. }
  destruct (existsb finally flat), (is_some failure); by apply Hmoves.
Qed.

(** A run in its normal phase, when the frontier decides: whether it waits, and for what failure it ends. *)
Definition judged (mission : RunMission Gate) (views : gmap string StepRow) : option (option string) :=
  let normal_failed := any_failed (flatten_mission_steps (rm_steps mission)) views in
  if (normal_failed && is_some (rm_completion mission)) || mission_completion_selected an mission views
  then if normal_failed then Some (Some "a normal step failed") else if an_products_hold an then mission_gates an (rm_gates mission) else None
  else None.

Lemma normal_phase_row (mission : RunMission Gate) st row :
  let flat := flatten_mission_steps (rm_steps mission) in
  let views := by_path (run_steps rd now st row) in
  rs_runs st !! run = Some row → rr_phase row = "normal" → mission_baseline an mission flat views = None →
  ∃ row', rs_runs (evaluate_mission_run rd an now accepted mission run row st).2 !! run = Some row' ∧
    rr_phase row' = match judged mission views with
                    | None => "normal"
                    | Some failure => if existsb finally flat then "final" else if is_some failure then "cleanup-failed" else "cleanup-completed"
                    end.
Proof.
  intros flat views Hrow Hp Hb. unfold evaluate_mission_run. rewrite Hp. fold flat. fold views. change (str_eqb "normal" "normal") with true. cbn [andb].
  rewrite Hb. set (go := if (_ : bool) then set_run _ _ _ _ _ _ _ else (false, st)).
  assert (Hgo : ∃ row0, rs_runs go.2 !! run = Some row0 ∧ rr_phase row0 = "normal").
  { unfold go. destruct (_ && _); [|by exists row].
    destruct (set_run_moves now accepted st run row "running" "normal" None) as (row0 & H1 & _ & H2 & _); [done|rewrite Hp; set_solver|done|done|congruence|]. eauto. }
  clearbody go. destruct go as [c st0]. cbn [snd] in Hgo. destruct Hgo as (row0 & Hrow0 & Hp0).
  unfold judged. fold flat. set (failed := any_failed flat views).
  destruct ((failed && is_some (rm_completion mission)) || mission_completion_selected an mission views).
  - destruct (if failed then Some (Some "a normal step failed") else _) as [failure|]; [|exists row0; auto]. cbn [also_run snd]. by apply (end_normal_phase_row flat views failure st0 row0).
  - change (bool_decide ("normal" ∈ ["final"; "final-cancelled"])) with false. cbn [andb].
    destruct (evaluate_steps _ _ _ _ _ _ _ _) as [c' p]. destruct (settle_status _ _ _ _) as [status reason] eqn:Es.
    assert (Hst : is_terminal_run_state status = false).
    { unfold settle_status in Es. repeat (match type of Es with (if ?b then _ else _) = _ => destruct b end); by injection Es as <- _. }
    destruct (set_run_moves now accepted (with_pass p st0) run row0 status "normal" reason) as (row' & H1 & _ & H2 & _);
      [done|rewrite Hp0; set_solver|done|done|congruence|]. exists row'. auto.
Qed.

(** A run whose baselines do not hold waits. *)
Lemma unheld_baseline_row (mission : RunMission Gate) st row name :
  rs_runs st !! run = Some row → rr_phase row = "normal" →
  mission_baseline an mission (flatten_mission_steps (rm_steps mission)) (by_path (run_steps rd now st row)) = Some name →
  ∃ row', rs_runs (evaluate_mission_run rd an now accepted mission run row st).2 !! run = Some row' ∧
    rr_status row' = "blocked" ∧ rr_phase row' = "normal".
Proof.
  intros Hrow Hp Hb. unfold evaluate_mission_run. rewrite Hp. change (str_eqb "normal" "normal") with true. cbn iota. rewrite Hb.
  edestruct (set_run_moves now accepted st run row "blocked" "normal") as (row' & H1 & H2 & H3 & _);
    [done|rewrite Hp; set_solver|done|done|congruence|]. by exists row'.
Qed.
End ends.

Section outcomes.
Context {Gate : Type} (rd : Reads) (an : Answers Gate) (now accepted : Z) (mission : RunMission Gate) (run : string) (row : RunRow) (st : RunState).
Context (Hrow : rs_runs st !! run = Some row).
#[local] Abbreviation flat := (flatten_mission_steps (rm_steps mission)).
#[local] Abbreviation steps := (run_steps rd now st row).
#[local] Abbreviation views := (by_path steps).

(** A normal step that failed for good or was cancelled. *)
Definition work_failed : Prop :=
  ∃ step view, step ∈ flat ∧ normal step = true ∧ view_of views step = Some view ∧ (exhausted step view = true ∨ sr_status view = "cancelled").

Lemma work_failed_true : any_failed flat views = true ↔ work_failed.
Proof.
  unfold any_failed. rewrite existsb_true_elem. unfold work_failed. split.
  - intros (step & Hin & [Hn Hv]%andb_true_iff). destruct (view_of views step) as [view|] eqn:Ev; [|done]. cbn in Hv.
    exists step, view. apply orb_true_iff in Hv. rewrite str_eqb_true in Hv. auto.
  - intros (step & view & Hin & Hn & Hv & Hf). exists step. split; [done|]. rewrite Hn, Hv. cbn. apply orb_true_iff. by rewrite str_eqb_true.
Qed.

(** The completion frontier is reached. *)
Definition frontier_reached : Prop := mission_completion_selected an mission views = true.

(** A normal step is or was under way, or the gates of every baseline pass. *)
Definition work_admitted : Prop :=
  ∃ step view, step ∈ flat ∧ normal step = true ∧ view_of views step = Some view ∧
    ((1 < sr_attempt view)%Z ∨
     sr_status view ∈ ["ready"; "claimed"; "working"; "verifying"; "completed"; "failed"; "cancelled"]).
Definition baselines_hold : Prop :=
  work_admitted ∨ ∀ name gates gate, (name, gates) ∈ rm_baselines mission → gate ∈ gates → an_context_gate an gate = Pass.

Lemma work_admitted_true : admitted_steps flat views = true ↔ work_admitted.
Proof.
  unfold admitted_steps. rewrite existsb_true_elem. unfold work_admitted. split.
  - intros (step & Hin & [Hn Hv]%andb_true_iff). destruct (view_of views step) as [view|] eqn:Ev; [|done]. cbn in Hv.
    exists step, view. apply orb_true_iff in Hv. rewrite Z.ltb_lt, bool_decide_eq_true in Hv. auto.
  - intros (step & view & Hin & Hn & Hv & Hf). exists step. split; [done|]. rewrite Hn, Hv. cbn [is_some_and andb].
    apply orb_true_iff. by rewrite Z.ltb_lt, bool_decide_eq_true.
Qed.

Lemma mission_baseline_holds : mission_baseline an mission flat views = None ↔ baselines_hold.
Proof.
  unfold mission_baseline, baselines_hold. rewrite <- work_admitted_true. destruct (admitted_steps flat views).
  { split; [by left|done]. }
  split; [intros H; right; by apply failing_baseline_None|]. intros [?|H]; [done|].
  unfold failing_baseline. destruct (List.find _ _) as [[name gates]|] eqn:E; [exfalso|done].
  apply List.find_some in E as [Hin Hn%negb_true_iff]. apply not_true_iff_false in Hn. apply Hn, forallb_forall. intros gate Hg.
  cbn [snd] in Hg. by rewrite (H name gates gate) by by apply list_elem_of_In.
Qed.

(** The gates of the mission are asked in order, and the first that does not pass rejects the work. *)
Definition gates_reject : Prop :=
  ∃ passing gate others reason, rm_gates mission = passing ++ gate :: others ∧
    (∀ g, g ∈ passing → an_context_gate an g = Pass) ∧ an_context_gate an gate = GateFail reason.

Lemma mission_gates_reject gates :
  (∃ reason, mission_gates an gates = Some (Some reason)) ↔
  ∃ passing gate others reason, gates = passing ++ gate :: others ∧
    (∀ g, g ∈ passing → an_context_gate an g = Pass) ∧ an_context_gate an gate = GateFail reason.
Proof.
  induction gates as [|gate gates IH]; cbn [mission_gates].
  { split; [by intros [? ?]|]. by intros ([|? ?] & ? & ? & ? & ? & _). }
  destruct (an_context_gate an gate) as [| | | |reason] eqn:E.
  2-4: split; [by intros [? ?]|]; intros ([|g passing] & gate' & others & reason' & [= -> Eg] & Hp & Hf);
    [congruence|by rewrite Hp in E by left].
  - rewrite IH. split.
    + intros (passing & g & others & reason & -> & Hp & Hf). exists (gate :: passing), g, others, reason.
      split_and!; [done| |done]. intros g' [->|Hg]%elem_of_cons; auto.
    + intros ([|g passing] & gate' & others & reason & [= -> ->] & Hp & Hf); [congruence|].
      exists passing, gate', others, reason. split_and!; [done| |done]. intros g' Hg. apply Hp. by right.
  - split; [|by eexists]. intros _. exists [], gate, gates, reason. split_and!; [done| |done]. by intros g ?%elem_of_nil.
Qed.

(** C28. A run without final steps is completed exactly when it is accepted: a pass over such a run in its normal
    phase moves it on to the cleanup of a completed run if and only if its baselines hold (work was admitted
    already, or each of their gates passes), the completion frontier is reached, no normal step has failed for
    good or was cancelled, the products of the mission hold and all its gates pass; and to the cleanup of a failed
    one if and only if its baselines hold and either a normal step failed for good or was cancelled in a mission
    that has a completion, or none did and what the frontier and the products accept is rejected by the first
    gate that does not pass. Otherwise it stays in its normal phase, blocked if its baselines do not hold. *)
Theorem runs_are_accepted_exactly :
  rr_phase row = "normal" → existsb finally flat = false →
  ∃ row', rs_runs (evaluate_mission_run rd an now accepted mission run row st).2 !! run = Some row' ∧
    (rr_phase row' = "cleanup-completed" ↔
       baselines_hold ∧ frontier_reached ∧ ¬ work_failed ∧ an_products_hold an = true ∧
       ∀ gate, gate ∈ rm_gates mission → an_context_gate an gate = Pass) ∧
    (rr_phase row' = "cleanup-failed" ↔
       baselines_hold ∧
       (work_failed ∧ rm_completion mission ≠ None ∨
        ¬ work_failed ∧ frontier_reached ∧ an_products_hold an = true ∧ gates_reject)) ∧
    rr_phase row' ∈ ["normal"; "cleanup-completed"; "cleanup-failed"] ∧
    (¬ baselines_hold → rr_status row' = "blocked" ∧ rr_phase row' = "normal").
Proof using Hrow.
  intros Hp Hfin. pose proof mission_baseline_holds as Hbase. destruct (mission_baseline an mission flat views) as [name|] eqn:Eb.
  { assert (Hn : ¬ baselines_hold) by by intros ?%Hbase.
    destruct (unheld_baseline_row rd an now accepted run mission st row name Hrow Hp Eb) as (row' & Hrow' & Hs & Hp').
    exists row'. rewrite Hs, Hp'. split_and!; [done|split; [done|by intros [? _]]|split; [done|by intros [? _]]|by left|done]. }
  assert (Hb : baselines_hold) by by apply Hbase.
  destruct (normal_phase_row rd an now accepted run mission st row Hrow Hp Eb) as (row' & Hrow' & Hp').
  exists row'. split; [done|]. rewrite Hp', Hfin. unfold judged, frontier_reached, gates_reject. rewrite <- mission_gates_reject.
  pose proof work_failed_true as Hwf. assert (Hm : is_some (rm_completion mission) = true ↔ rm_completion mission ≠ None)
    by by destruct (rm_completion mission).
  destruct (any_failed flat views) eqn:Ef; cbn [andb].
  - assert work_failed by by apply Hwf. destruct (is_some (rm_completion mission)) eqn:Ec; cbn [orb is_some].
    + assert (rm_completion mission ≠ None) by by apply Hm. split_and!; [naive_solver|naive_solver|set_solver|done].
    + assert (En : rm_completion mission = None) by by destruct (rm_completion mission).
      unfold mission_completion_selected. rewrite En. split_and!; [naive_solver|naive_solver|set_solver|done].
  - assert (¬ work_failed) as Hn by (intros ?%Hwf; done). cbn [orb].
    destruct (mission_completion_selected an mission views) eqn:Es; [|split_and!; [naive_solver|naive_solver|set_solver|done]].
    destruct (an_products_hold an) eqn:Epr; [|split_and!; [naive_solver|naive_solver|set_solver|done]]. rewrite <- mission_gates_accept.
    destruct (mission_gates an (rm_gates mission)) as [[reason|]|] eqn:Eg; cbn [is_some];
      (split_and!; [naive_solver|naive_solver|set_solver|done]).
Qed.
End outcomes.

(** The final phase ends as its steps and those of the normal phase did. *)
Lemma final_phase_row {Gate} (rd : Reads) (an : Answers Gate) now accepted (mission : RunMission Gate) run row st :
  let flat := flatten_mission_steps (rm_steps mission) in
  let steps := run_steps rd now st row in
  rs_runs st !! run = Some row → rr_phase row = "final" → final_terminal flat (by_path steps) = true →
  ∃ row', rs_runs (evaluate_mission_run rd an now accepted mission run row st).2 !! run = Some row' ∧
    rr_phase row' = if existsb (λ v, bool_decide (sr_step v ∈ map (λ step, st_path (rt_spec step)) (List.filter normal flat))
                                    && bool_decide (sr_status v ∈ ["failed"; "cancelled"])) steps
                    then "cleanup-failed" else "cleanup-completed".
Proof.
  intros flat steps Hrow Hp Ht. unfold evaluate_mission_run. rewrite Hp. fold flat. fold steps. change (str_eqb "final" "normal") with false. cbn [andb].
  change (bool_decide ("final" ∈ ["final"; "final-cancelled"])) with true. rewrite Ht. cbn [andb also_run snd]. unfold end_final_phase.
  change (str_eqb "final" "final-cancelled") with false. cbn [negb andb].
  assert (Hin : rr_phase row ∈ ["normal"; "final"; "final-cancelled"; "revision-draining"]) by (rewrite Hp; set_solver).
  destruct (existsb _ steps); cbn [also_run snd].
  - edestruct (set_run_moves now accepted st run row "running" "cleanup-failed") as (row' & H1 & _ & H2 & _); [done|done|done|done|congruence|]. exists row'. split; [exact H1|done].
  - edestruct (set_run_moves now accepted st run row "running" "cleanup-completed") as (row' & H1 & _ & H2 & _); [done|done|done|done|congruence|]. exists row'. split; [exact H1|done].
Qed.

(** C29. Final work forgets the verdict on a mission. When a gate of the mission rejects the finished work of a run, a run without final
    steps fails; one with final steps goes on to them, and once they have ended, however they did, it is a completed
    run. And a run that ends its final phase with a normal step cancelled is a failed run, although a completion
    frontier cancels every step it leaves out. *)
Theorem final_work_forgets_the_verdict {Gate} (rd : Reads) (an : Answers Gate) now accepted (mission : RunMission Gate) run row st reason :
  let flat := flatten_mission_steps (rm_steps mission) in
  let views := by_path (run_steps rd now st row) in
  rs_runs st !! run = Some row → rr_phase row = "normal" → mission_baseline an mission flat views = None →
  rm_completion mission = Some AllStepsExhausted →
  (∀ step, step ∈ flat → normal step = true → ∃ view, view_of views step = Some view ∧ sr_status view = "completed") →
  an_products_hold an = true → mission_gates an (rm_gates mission) = Some (Some reason) →
  (∃ row', rs_runs (evaluate_mission_run rd an now accepted mission run row st).2 !! run = Some row' ∧
     rr_phase row' = if existsb finally flat then "final" else "cleanup-failed") ∧
  ∀ an' now' accepted' row' st',
    let steps := run_steps rd now' st' row' in
    rs_runs st' !! run = Some row' → rr_phase row' = "final" → final_terminal flat (by_path steps) = true →
    ∃ row'', rs_runs (evaluate_mission_run rd an' now' accepted' mission run row' st').2 !! run = Some row'' ∧
      ((∀ v step, v ∈ steps → step ∈ flat → normal step = true → sr_step v = st_path (rt_spec step) → sr_status v = "completed") →
         rr_phase row'' = "cleanup-completed") ∧
      ((∃ v step, v ∈ steps ∧ step ∈ flat ∧ normal step = true ∧ sr_step v = st_path (rt_spec step) ∧ sr_status v = "cancelled") →
         rr_phase row'' = "cleanup-failed").
Proof.
  intros flat views Hrow Hp Hb Hc Hdone Hprod Hg. split.
  - destruct (normal_phase_row rd an now accepted run mission st row Hrow Hp Hb) as (row' & Hrow' & Hp'). exists row'. split; [done|]. rewrite Hp'.
    unfold judged. fold flat. fold views.
    assert (Hnf : any_failed flat views = false).
    { apply existsb_false_elem. intros step Hin. destruct (normal step) eqn:En; [|done]. destruct (Hdone step Hin En) as (view & -> & Hs). cbn.
      unfold exhausted. by rewrite Hs. }
    assert (Hsel : mission_completion_selected an mission views = true).
    { unfold mission_completion_selected. rewrite Hc. apply forallb_forall. intros step Hin. rewrite <- list_elem_of_In, lfilter_elem in Hin.
      destruct Hin as [Hin En]. destruct (Hdone step Hin En) as (view & -> & Hs). cbn. by rewrite Hs. }
    rewrite Hnf, Hsel, Hprod, Hg. cbn. done.
  - intros an' now' accepted' row' st' steps Hrow' Hp' Ht.
    destruct (final_phase_row rd an' now' accepted' mission run row' st' Hrow' Hp' Ht) as (row'' & Hrow'' & Hp''). exists row''. split; [done|].
    rewrite Hp''. fold flat. fold steps. split.
    + intros Hok. destruct (existsb _ steps) eqn:Ee; [|done]. exfalso. apply existsb_true_elem in Ee as (v & Hv & [Hpath Hs]%andb_true_iff).
      apply bool_decide_eq_true in Hpath, Hs. apply list_elem_of_fmap in Hpath as (step & Hpath & Hin). apply lfilter_elem in Hin as [Hin En].
      rewrite (Hok v step) in Hs by done. set_solver.
    + intros (v & step & Hv & Hin & En & Hpath & Hs). destruct (existsb _ steps) eqn:Ee; [done|]. rewrite existsb_false_elem in Ee. specialize (Ee v Hv).
      rewrite !bool_decide_true in Ee; [done|rewrite Hs; set_solver|]. apply list_elem_of_fmap. exists step. split; [done|]. by apply lfilter_elem.
Qed.

(** ** Examples *)

Definition example_mission (finals : list string) (gates : list GateOutcome) : RunMission GateOutcome :=
  mkRunMission (mkFullStep (agentless_step "build" false []) (plain_more []) None
                :: map (λ id, mkFullStep (agentless_step id true []) (plain_more []) None) finals)
    (Some AllStepsExhausted) [] gates false.

Definition example_row (phase : string) : RunRow := mkRunRow "running" phase "g" [("g", "running")] "r" None.
Definition example_run (phase : string) (rows : list (string * string)) : RunState :=
  mkRunState (mkPass (mkWorkStore (list_to_map (map (λ '(id, status), ("step-run/g/" +:+ id, agentless_row id status)) rows)) ∅ ∅ []) ∅)
    {[ "r" := example_row phase ]} [] ∅.

Lemma accepted_witness : ∃ row', rs_runs (evaluate_mission_run no_reads plain_answers 5 5 (example_mission [] [Pass]) "r" (example_row "normal")
    (example_run "normal" [("build", "completed")])).2 !! "r" = Some row' ∧ rr_phase row' = "cleanup-completed".
Proof.
  destruct (runs_are_accepted_exactly no_reads plain_answers 5 5 (example_mission [] [Pass]) "r" (example_row "normal")
    (example_run "normal" [("build", "completed")])) as (row' & Hrow' & Haccepted & _); [reflexivity..|].
  exists row'. split; [exact Hrow'|]. apply Haccepted.
  split; [right; intros name gates gate Hb; apply elem_of_nil in Hb; destruct Hb|].
  split; [vm_compute; reflexivity|]. split; [|split; [reflexivity|]].
  - intros (step & view & Hin & _ & Hv & Hf). apply elem_of_cons in Hin as [->|Hin]; [|apply elem_of_nil in Hin; destruct Hin].
    vm_compute in Hv. injection Hv as <-. vm_compute in Hf. destruct Hf; discriminate.
  - intros gate Hg. apply list_elem_of_singleton in Hg as ->. reflexivity.
Defined.

(** The work is rejected; with final work the run is completed all the same. *)
Definition rejecting : RunMission GateOutcome := example_mission ["tidy"] [GateFail "the review rejected it"].

Lemma forgotten_witness :
  (∃ row', rs_runs (evaluate_mission_run no_reads plain_answers 5 5 rejecting "r" (example_row "normal")
     (example_run "normal" [("build", "completed"); ("tidy", "pending")])).2 !! "r" = Some row' ∧ rr_phase row' = "final") ∧
  ∃ row'', rs_runs (evaluate_mission_run no_reads plain_answers 6 6 rejecting "r" (example_row "final")
     (example_run "final" [("build", "completed"); ("tidy", "completed")])).2 !! "r" = Some row'' ∧ rr_phase row'' = "cleanup-completed".
Proof.
  destruct (final_work_forgets_the_verdict no_reads plain_answers 5 5 rejecting "r" (example_row "normal")
    (example_run "normal" [("build", "completed"); ("tidy", "pending")]) "the review rejected it") as [H1 H2]; [reflexivity..| |reflexivity|reflexivity|].
  - intros step Hin Hn. apply elem_of_cons in Hin as [->|Hin]; [eexists; vm_compute; split; reflexivity|].
    apply list_elem_of_singleton in Hin as ->. vm_compute in Hn. discriminate.
  - split; [exact H1|]. destruct (H2 plain_answers 6%Z 6%Z (example_row "final") (example_run "final" [("build", "completed"); ("tidy", "completed")]))
      as (row'' & Hrow'' & Hok & _); [reflexivity..|vm_compute; reflexivity|]. exists row''. split; [exact Hrow''|]. apply Hok.
    intros v step Hv Hin Hn Hpath. apply elem_of_cons in Hv as [->|Hv]; [vm_compute; reflexivity|].
    apply list_elem_of_singleton in Hv as ->. vm_compute. reflexivity.
Defined.
