(* ===== verification/RunCompletes.v ===== *)
(** * Missions are carried out

    The reconciler of [RunStep] and [MissionRun] on missions whose steps nobody has to be waited for ([unattended]): an abstract machine with the
    progress of each step ([next]), the simulation of it by the passes ([follows]), and the theorem that enough
    passes with favourable answers ([favourable]) complete the root run of any such mission that the validation of [Mission] accepts. *)

From stdpp Require Import relations.
From S2P Require Import Prelude StableSort Text Utf8 Mission Work RunStep MissionRun.

(** ** The abstract machine *)

Inductive Progress := Waiting | Startable | Done.
#[export] Instance Progress_eq_dec : EqDecision Progress.
Proof. solve_decision. Defined.

Definition weight (q : Progress) : nat := match q with Waiting => 2 | Startable => 1 | Done => 0 end.

Lemma list_sum_le {A} (f g : A → nat) l : (∀ x, x ∈ l → f x ≤ g x) → list_sum (map f l) ≤ list_sum (map g l).
Proof. induction l as [|x l IH]; intros H; [done|]. cbn. specialize (H x ltac:(set_solver)) as Hx. specialize (IH ltac:(set_solver)). unfold list_sum in *. lia. Qed.

Lemma list_sum_lt {A} (f g : A → nat) l x : (∀ x, x ∈ l → f x ≤ g x) → x ∈ l → f x < g x → list_sum (map f l) < list_sum (map g l).
Proof.
  intros H Hx Hlt. induction l as [|y l IH]; [by apply elem_of_nil in Hx|]. cbn. pose proof (H y ltac:(set_solver)) as Hy.
  apply elem_of_cons in Hx as [<-|Hx].
  - pose proof (list_sum_le f g l ltac:(set_solver)). unfold list_sum in *. lia.
  - specialize (IH ltac:(set_solver) Hx). unfold list_sum in *. lia.
Qed.

Section machine.
Context {Gate : Type} (steps : gmap string (StepSpec Gate)).

Definition dependencies_done (σ : string → Progress) (spec : StepSpec Gate) : bool :=
  forallb (λ target, bool_decide (σ target = Done)) (step_targets (st_dependencies spec)).

(** A pass over the steps of one phase. *)
Definition next (finally : bool) (σ : string → Progress) (id : string) : Progress :=
  match steps !! id with
  | Some spec =>
      if Bool.eqb (st_finally spec) finally
      then match σ id with Waiting => if dependencies_done σ spec then Startable else Waiting | _ => Done end
      else σ id
  | None => σ id
  end.

(** What is left of the phase. *)
Definition todo (finally : bool) (σ : string → Progress) : nat :=
  list_sum (map (λ '(id, spec), if Bool.eqb (st_finally spec) finally then weight (σ id) else 0) (map_to_list steps)).

Lemma todo_bound finally σ : todo finally σ ≤ 2 * length (List.filter (λ '(_, spec), Bool.eqb (st_finally spec) finally) (map_to_list steps)).
Proof.
  unfold todo, list_sum. induction (map_to_list steps) as [|[id spec] l IH]; [done|]. cbn in *. destruct (Bool.eqb (st_finally spec) finally); cbn; [|done].
  destruct (σ id); cbn; lia.
Qed.

Lemma todo_0 finally σ : todo finally σ = 0 ↔ ∀ id spec, steps !! id = Some spec → st_finally spec = finally → σ id = Done.
Proof.
  unfold todo. split.
  - intros H id spec Hid Hf. rewrite <- elem_of_map_to_list in Hid. revert H. induction (map_to_list steps) as [|x l IH]; [by apply elem_of_nil in Hid|].
    cbn. apply elem_of_cons in Hid as [<-|Hid].
    + cbn. rewrite (proj2 (Bool.eqb_true_iff _ _) Hf). destruct (σ id); cbn; [lia|lia|done].
    + intros H. apply IH; [done|]. unfold list_sum. lia.
  - intros H. assert (Hall : ∀ x, x ∈ map_to_list steps → st_finally x.2 = finally → σ x.1 = Done).
    { intros [id spec] Hin. apply elem_of_map_to_list in Hin. by apply H. }
    induction (map_to_list steps) as [|[id spec] l IH]; [done|]. cbn. destruct (Bool.eqb (st_finally spec) finally) eqn:E.
    + assert (σ id = Done) as -> by (apply (Hall (id, spec)); [set_solver|by apply Bool.eqb_true_iff]). cbn. apply IH. set_solver.
    + apply IH. set_solver.
Qed.

Context (Hvalid : valid_graph steps).

Lemma valid_accessible id : is_Some (steps !! id) → Acc (flip (depends steps)) id.
Proof using Hvalid.
  intros [spec Hid]. destruct Hvalid as [Hsteps Hacyclic].
  assert (Hk : targets_known steps).
  { intros a b (step & Ha & Hb). destruct (Hsteps a step Ha) as [Ht _]. destruct (Ht b Hb) as (o & E & _). by exists o. }
  pose proof (all_visits steps Hk) as H. destruct (visit_all _ _ _ _) as [[[A V]|e]|]; [| |done].
  - destruct H as (_ & _ & Hin & Hs & _). apply Hs, Hin. apply list_elem_of_fmap. exists (id, spec). split; [done|]. by apply in_key_order_elem.
  - destruct H as [x Hx]. by destruct (Hacyclic x).
Qed.

(** Some step of a phase that is not over can be moved on. *)
Lemma some_step_moves finally σ id spec :
  steps !! id = Some spec → st_finally spec = finally → σ id ≠ Done →
  ∃ id' spec', steps !! id' = Some spec' ∧ st_finally spec' = finally ∧ σ id' ≠ Done ∧ dependencies_done σ spec' = true.
Proof using Hvalid.
  intros Hid. assert (Hacc : Acc (flip (depends steps)) id) by (apply valid_accessible; eauto). revert spec Hid.
  induction Hacc as [id _ IH]. intros spec Hid Hf Hn. destruct (dependencies_done σ spec) eqn:E; [by exists id, spec|].
  unfold dependencies_done in E. apply not_true_iff_false in E. rewrite forallb_forall in E.
  destruct (decide (Forall (λ target, σ target = Done) (step_targets (st_dependencies spec)))) as [Hall|Hnot].
  { destruct E. intros t Ht. rewrite bool_decide_true; [done|]. rewrite Forall_forall in Hall. by apply Hall, list_elem_of_In. }
  apply not_Forall_Exists in Hnot; [|apply _]. apply Exists_exists in Hnot as (t & Ht & Hnt).
  destruct Hvalid as [Hsteps _]. destruct (Hsteps id spec Hid) as [Htargets _]. destruct (Htargets t Ht) as (other & Hother & Hsame).
  apply (IH t) with other; [by exists spec|done|congruence|done].
Qed.

(** Each pass leaves less to do. *)
Lemma todo_decreases finally σ : todo finally σ ≠ 0 → todo finally (next finally σ) < todo finally σ.
Proof using Hvalid.
  intros Hn.
  assert (Hle : ∀ x, x ∈ map_to_list steps →
    (λ '(id, spec), if Bool.eqb (st_finally spec) finally then weight (next finally σ id) else 0) x ≤
    (λ '(id, spec), if Bool.eqb (st_finally spec) finally then weight (σ id) else 0) x).
  { intros [id spec] Hin. apply elem_of_map_to_list in Hin. unfold next. rewrite Hin. destruct (Bool.eqb _ _); [|done].
    destruct (σ id); cbn; [|lia|lia]. destruct (dependencies_done _ _); cbn; lia. }
  destruct (decide (map_Forall (λ id spec, st_finally spec = finally → σ id = Done) steps)) as [Hall|Hnot].
  { destruct Hn. apply todo_0. exact Hall. }
  apply map_not_Forall in Hnot as (id & spec & Hid & Hf); [|apply _].
  destruct (some_step_moves finally σ id spec) as (id' & spec' & Hid' & Hf' & Hnd & Hdd); [done| | |].
  { destruct (decide (st_finally spec = finally)); [done|]. by destruct Hf. }
  { intros Hd. by apply Hf. }
  apply (list_sum_lt _ _ _ (id', spec')); [exact Hle|by apply elem_of_map_to_list|]. unfold next. rewrite Hid', (proj2 (Bool.eqb_true_iff _ _) Hf').
  rewrite Hdd. destruct (σ id'); cbn; [lia|lia|done].
Qed.
End machine.

(** ** Missions carried out unattended *)

Definition text (q : Progress) : string := match q with Waiting => "pending" | Startable => "ready" | Done => "completed" end.

Definition graph {Gate} (specs : list (StepSpec Gate * StepMore Gate)) : gmap string (StepSpec Gate) := list_to_map (map (λ x, (st_id x.1, x.1)) specs).

(** A mission of agentless steps without nested missions, loops, and missions produced, used or awaited, in which the
    dependencies on steps are on their completion. It completes when its steps have. *)
Record unattended {Gate} (mission : RunMission Gate) (specs : list (StepSpec Gate * StepMore Gate)) : Prop := {
  ua_steps : rm_steps mission = map (λ x, mkFullStep x.1 x.2 None) specs;
  ua_completion : rm_completion mission = Some AllStepsExhausted;
  ua_ids : NoDup (map (λ x, st_id x.1) specs);
  ua_path : ∀ x, x ∈ specs → st_path x.1 = st_id x.1;
  ua_plain : ∀ x, x ∈ specs → st_produces_mission x.1 = None ∧ st_uses_mission x.1 = None ∧ st_after_run x.1 = None ∧ so_loop x.2 = false;
  ua_states : ∀ x target state, x ∈ specs → StepDependency target state ∈ st_dependencies x.1 → state = "completed" ∨ state = "terminal"
}.

(** All gates pass, what is declared and produced is there, and no step runs out of time. *)
Record favourable {Gate} (specs : list (StepSpec Gate * StepMore Gate)) (an : Answers Gate) : Prop := {
  fa_context : ∀ gate, an_context_gate an gate = Pass;
  fa_gate : ∀ path gate, an_gate an path gate = Pass;
  fa_predicate : ∀ path gate, an_predicate an path gate = Pass;
  fa_products : an_products_hold an = true;
  fa_product : ∀ path, an_missing_product an path = false;
  fa_declared : ∀ path, an_declaration_failure an path = None ∧ an_declarations_hold an path = true;
  fa_time : ∀ x timeout subject, x ∈ specs → so_timeout_ms x.2 = Some timeout → (an_elapsed an subject < sat_add64 timeout (an_extension an subject))%Z
}.

Section unattended.
Context {Gate : Type} (rd : Reads) (mission : RunMission Gate) (specs : list (StepSpec Gate * StepMore Gate)) (run gen : string).
Context (Hm : unattended mission specs) (Hvalid : valid_graph (graph specs)).

Definition runtime (x : StepSpec Gate * StepMore Gate) : RuntimeStep Gate := mkRuntimeStep x.1 x.2 None "" None.

(** The row of a step that has progressed to [q]. *)
Record row_at (spec : StepSpec Gate) (q : Progress) (s : string) (r : StepRow) : Prop := {
  ra_subject : sr_subject r = s;
  ra_prefix : starts_with "step-run/" s = true;
  ra_run : sr_run r = run;
  ra_generation : sr_generation r = gen;
  ra_step : sr_step r = st_id spec;
  ra_agentless : sr_agentless r = true;
  ra_assigned : sr_assigned_to r = None;
  ra_expires : sr_claim_expires r = None;
  ra_reason : sr_blocked_reason r = None;
  ra_not_before : sr_not_before r = None;
  ra_status : sr_status r = text q
}.

Definition run_at (phase : string) (row : RunRow) : Prop :=
  rr_status row = "running" ∧ rr_phase row = phase ∧ rr_generation row = gen ∧ rr_generations row = [(gen, "running")] ∧ rr_root row = run.

(** The tables show the run in this phase and its steps at this progress. *)
Record follows (σ : string → Progress) (phase : string) (st : RunState) : Prop := {
  fo_run : ∃ row, rs_runs st !! run = Some row ∧ run_at phase row;
  fo_step : ∀ x, x ∈ specs → ∃ s r, ws_steps (rs_work st) !! s = Some r ∧ row_at x.1 (σ (st_id x.1)) s r;
  fo_only : ∀ s r, ws_steps (rs_work st) !! s = Some r → sr_generation r = gen → ∃ x, x ∈ specs ∧ row_at x.1 (σ (st_id x.1)) s r;
  fo_one : ∀ s s' r r', ws_steps (rs_work st) !! s = Some r → ws_steps (rs_work st) !! s' = Some r' →
    sr_generation r = gen → sr_generation r' = gen → sr_step r = sr_step r' → s = s'
}.

Definition live (rd : Reads) : Prop := ∃ o, rd_owner rd run gen = Some o ∧ owner_terminal o = false ∧ ow_current_generation o = gen.

Lemma flat_specs : flatten_mission_steps (rm_steps mission) = map runtime specs.
Proof using Hm.
  rewrite (ua_steps _ _ Hm). unfold flatten_mission_steps. clear. induction specs as [|x l IH]; [done|]. cbn. by rewrite <- IH.
Qed.

Lemma graph_lookup id spec : graph specs !! id = Some spec → ∃ x, x ∈ specs ∧ st_id x.1 = id ∧ x.1 = spec.
Proof using Type.
  unfold graph. intros H. apply elem_of_list_to_map_2, list_elem_of_fmap in H as (x & [= -> ->] & Hx). by exists x.
Qed.

Lemma lookup_graph x : x ∈ specs → graph specs !! st_id x.1 = Some x.1.
Proof using Hm.
  intros Hx. unfold graph. apply elem_of_list_to_map_1.
  - rewrite <- list_fmap_compose. exact (ua_ids _ _ Hm).
  - apply list_elem_of_fmap. by exists x.
Qed.

Lemma normalize_at spec q s r : row_at spec q s r → normalize_step_run (sr_subject r) = s.
Proof using Type. intros H. unfold normalize_step_run. by rewrite (ra_subject _ _ _ _ H), (ra_prefix _ _ _ _ H). Qed.

Lemma row_owner spec q s r rd' : live rd' → row_at spec q s r →
  ∃ o, rd_owner rd' (sr_run r) (sr_generation r) = Some o ∧ owner_terminal o = false ∧ ow_current_generation o = sr_generation r.
Proof using Type. intros (o & H1 & H2 & H3) H. exists o. by rewrite (ra_run _ _ _ _ H), (ra_generation _ _ _ _ H). Qed.

(** Reads show such a row as it is. *)
Lemma effective_at spec q s r now rd' : live rd' → row_at spec q s r → apply_effective_step_state rd' now r = r.
Proof using Type.
  intros Hl H. destruct (row_owner _ _ _ _ _ Hl H) as (o & Ho & Ht & Hg). unfold apply_effective_step_state. rewrite Ho, (ra_assigned _ _ _ _ H). cbn [is_some_and andb].
  rewrite Ht, Hg, str_eqb_refl. cbn [orb negb]. rewrite (ra_expires _ _ _ _ H). cbn [is_some_and]. rewrite andb_false_r, (ra_status _ _ _ _ H).
  assert (str_eqb (text q) "waiting-person" = false) as -> by (by destruct q). cbn [andb].
  by rewrite (ra_status _ _ _ _ H), (ra_reason _ _ _ _ H), andb_false_r.
Qed.

(** A transition of such a row. *)
Lemma set_state_at spec q s r rd' now accepted p status :
  live rd' → ws_steps (ps_work p) !! s = Some r → row_at spec q s r → status ≠ text q →
  ∃ epoch, ws_steps (ps_work (set_state rd' now accepted p (sr_subject r) status None).2) !! s =
    Some (state_row (released_by status) status None epoch accepted now r).
Proof using Type.
  intros Hl Hr H Hne. destruct (row_owner _ _ _ _ _ Hl H) as (o & Ho & Ht & Hg). unfold set_state, set_step_state.
  rewrite (normalize_at _ _ _ _ H), Hr, Ho, Ht, Hg, str_eqb_refl, (ra_status _ _ _ _ H). cbn [negb orb andb].
  rewrite (proj2 (str_eqb_false (text q) status)) by congruence. cbn [orb]. eexists. cbn. by rewrite lookup_insert_eq.
Qed.

Lemma state_row_at spec q q' s r epoch activated updated :
  row_at spec q s r → row_at spec q' s (state_row (released_by (text q')) (text q') None epoch activated updated r).
Proof using Type. intros []. constructor; cbn; try done; destruct q'; cbn; auto. Qed.

(** ** One step *)

Section pass.
Context (an : Answers Gate) (Han : favourable specs an) (now accepted : Z) (rd' : Reads) (Hlive : live rd').
Context (σ : string → Progress) (views : gmap string StepRow).
Context (Hviews : ∀ x, x ∈ specs → ∃ s r, views !! st_id x.1 = Some r ∧ row_at x.1 (σ (st_id x.1)) s r).

Lemma state_holds_at state q : state = "completed" ∨ state = "terminal" → state_holds state (text q) = bool_decide (q = Done).
Proof using Type. intros [->| ->]; by destruct q. Qed.

Lemma dependencies_hold_at x : x ∈ specs → step_dependencies_hold an views (runtime x) = dependencies_done σ x.1.
Proof using Hm Hvalid Han Hviews.
  intros Hx. unfold step_dependencies_hold, dependencies_done. cbn [runtime rt_parent rt_spec is_none_or andb].
  assert (Hd : ∀ target state, StepDependency target state ∈ st_dependencies x.1 →
    dependency_holds an views (runtime x) (StepDependency target state) = bool_decide (σ target = Done)).
  { intros target state Hin. unfold dependency_holds. cbn [runtime rt_dependency_prefix]. change (str_eqb "" "") with true. cbn iota.
    destruct (proj1 Hvalid (st_id x.1) x.1 (lookup_graph x Hx)) as [Ht _].
    destruct (Ht target) as (other & Hother & _); [apply step_targets_elem; by exists state|].
    apply graph_lookup in Hother as (y & Hy & <- & _). destruct (Hviews y Hy) as (s & r & -> & Hr). cbn [is_some_and]. rewrite (ra_status _ _ _ _ Hr).
    apply state_holds_at. by apply (ua_states _ _ Hm x (st_id y.1)). }
  revert Hd. generalize (st_dependencies x.1). intros deps. induction deps as [|[target state|gate] deps IH]; intros Hd; [done| |].
  - cbn [forallb]. rewrite (Hd target state) by left. rewrite IH by (intros; apply Hd; by right). done.
  - cbn [forallb]. rewrite IH by (intros; apply Hd; by right). cbn [dependency_holds]. by rewrite (fa_predicate _ _ Han).
Qed.

Lemma baselines_hold evaluate (baselines : list (string * list Gate)) : (∀ gate, evaluate gate = Pass) → failing_baseline evaluate baselines = None.
Proof using Type.
  intros H. unfold failing_baseline. destruct (List.find _ _) as [[name gates]|] eqn:E; [|done]. exfalso.
  apply find_Some_elem in E as [_ E]. apply negb_true_iff, not_true_iff_false in E. apply E. apply forallb_forall. intros gate _. by rewrite H.
Qed.

Lemma gates_pass x subject gates p : evaluate_gates rd' an now accepted (runtime x) subject gates p = set_state rd' now accepted p subject "completed" None.
Proof using Han. induction gates as [|gate gates IH]; [done|]. cbn. by rewrite (fa_gate _ _ Han). Qed.

Lemma in_time x r : x ∈ specs → step_timed_out an r (runtime x) = false.
Proof using Han.
  intros Hx. unfold step_timed_out. cbn. destruct (so_timeout_ms x.2) as [timeout|] eqn:E; [|done]. apply Z.leb_gt. by apply (fa_time _ _ Han x).
Qed.

(** A startable step is completed at once. *)
Lemma run_step_at x r p s :
  x ∈ specs → ws_steps (ps_work p) !! s = Some r → row_at x.1 Startable s r →
  ∃ r', ws_steps (ps_work (run_step rd' an now accepted views (runtime x) r p).2) !! s = Some r' ∧ row_at x.1 Done s r'.
Proof using Hm Han Hlive.
  intros Hx Hr H. destruct (ua_plain _ _ Hm x Hx) as (Hprod & Huse & Hafter & Hloop). unfold run_step, awaited_run. cbn [runtime rt_spec rt_nested].
  rewrite Hafter, (ra_status _ _ _ _ H), (ra_agentless _ _ _ _ H). change (str_eqb (text Startable) "ready") with true. cbn [andb fmap option_fmap option_map].
  destruct (set_state_at _ _ _ _ rd' now accepted p "working" Hlive Hr H) as (epoch & Hw); [done|].
  destruct (set_state _ _ _ _ _ "working" None) as [c q]. cbn [snd] in Hw. cbn [is_some also snd].
  unfold check_step. cbn [runtime rt_spec rt_more rt_nested]. destruct (fa_declared _ _ Han (st_path x.1)) as [-> ->]. rewrite in_time by done. cbn [andb negb].
  rewrite (ra_agentless _ _ _ _ H), Hloop, Hprod, Huse. cbn [negb andb is_some nested_completed runtime rt_nested is_none_or also snd].
  unfold finish_step, awaited_run. cbn [runtime rt_spec rt_more]. rewrite Hafter, (fa_product _ _ Han), gates_pass.
  set (r1 := state_row _ _ _ _ _ _ r) in Hw.
  assert (Hown : ∃ o, rd_owner rd' (sr_run r1) (sr_generation r1) = Some o ∧ owner_terminal o = false ∧ ow_current_generation o = sr_generation r1) by exact (row_owner _ _ _ _ _ Hlive H).
  destruct Hown as (o & Ho & Ht & Hg). unfold set_state, set_step_state. rewrite (normalize_at _ _ _ _ H), Hw, Ho, Ht, Hg, str_eqb_refl. cbn [negb orb andb].
  change (str_eqb (sr_status r1) "completed") with false. cbn [orb snd ps_work ws_steps]. eexists. split; [apply lookup_insert_eq|].
  destruct H. constructor; done.
Qed.

(** The progress a step is at after the pass. *)
Definition step_next (finally : bool) (spec : StepSpec Gate) (q : Progress) : Progress :=
  if Bool.eqb (st_finally spec) finally then match q with Waiting => if dependencies_done σ spec then Startable else Waiting | _ => Done end else q.

Lemma evaluate_step_at finally phase x r p s :
  phase = (if finally : bool then "final" else "normal") →
  x ∈ specs → views !! st_id x.1 = Some r → ws_steps (ps_work p) !! s = Some r → row_at x.1 (σ (st_id x.1)) s r →
  ∃ r', ws_steps (ps_work (evaluate_step rd' an now accepted phase views (runtime x) p).2) !! s = Some r' ∧
    row_at x.1 (step_next finally x.1 (σ (st_id x.1))) s r'.
Proof using Hm Hvalid Han Hviews Hlive.
  intros Hphase Hx Hv Hr H. unfold evaluate_step. cbn [runtime rt_spec]. rewrite (ua_path _ _ Hm x Hx), Hv. unfold step_next.
  assert (eligible_phase phase (st_finally x.1) = Bool.eqb (st_finally x.1) finally) as -> by (rewrite Hphase; by destruct finally, (st_finally x.1)).
  destruct (Bool.eqb (st_finally x.1) finally); [|by exists r].
  assert (Hd : str_eqb phase "revision-draining" = false) by (rewrite Hphase; by destruct finally).
  enough (∃ r', ws_steps (ps_work (evaluate_eligible rd' an now accepted phase views (runtime x) r p).2) !! s = Some r' ∧
    row_at x.1 (match σ (st_id x.1) with Waiting => if dependencies_done σ x.1 then Startable else Waiting | _ => Done end) s r') as Henough.
  { by destruct (evaluate_eligible _ _ _ _ _ _ _ _ _). }
  unfold evaluate_eligible. rewrite Hd. cbn [andb]. unfold assignment_blocked, baseline_blocked. pose proof (ra_status _ _ _ _ H) as Hs.
  rewrite Hs, (ra_expires _ _ _ _ H), (ra_reason _ _ _ _ H). destruct (σ (st_id x.1)) eqn:Eq; cbn [text].
  - enough (∃ r', ws_steps (ps_work (admit_step rd' an now accepted views (runtime x) r p).2) !! s = Some r' ∧
      row_at x.1 (if dependencies_done σ x.1 then Startable else Waiting) s r') as Henough by exact Henough.
    unfold admit_step. rewrite (ra_not_before _ _ _ _ H), dependencies_hold_at by done. cbn [is_some_and].
    destruct (dependencies_done σ x.1); cbn [negb]; [|by exists r].
    rewrite baselines_hold by apply (fa_gate _ _ Han). unfold baseline_blocked. rewrite Hs, (ra_agentless _ _ _ _ H).
    change (str_eqb (text Waiting) "blocked") with false. cbn [andb orb negb also snd].
    destruct (set_state_at _ _ _ _ rd' now accepted p "ready" Hlive Hr H) as (epoch & ->); [done|]. eexists. split; [done|].
    by apply (state_row_at x.1 Waiting Startable).
  - enough (∃ r', ws_steps (ps_work (run_step rd' an now accepted views (runtime x) r p).2) !! s = Some r' ∧ row_at x.1 Done s r') as Henough by exact Henough.
    by apply run_step_at.
  - by exists r.
Qed.
End pass.

(** ** A pass over the steps *)

Lemma evaluate_steps_app rd' (an : Answers Gate) now accepted phase views l1 l2 p :
  (evaluate_steps rd' an now accepted phase views (l1 ++ l2) p).2 =
  (evaluate_steps rd' an now accepted phase views l2 (evaluate_steps rd' an now accepted phase views l1 p).2).2.
Proof using Type.
  revert p. induction l1 as [|step l1 IH]; intros p; [done|]. cbn. destruct (evaluate_step _ _ _ _ _ _ _ _) as [c q]. specialize (IH q).
  destruct (evaluate_steps _ _ _ _ _ _ (l1 ++ l2) q), (evaluate_steps _ _ _ _ _ _ l1 q). cbn in *. done.
Qed.

Section follow.
Context (now accepted : Z) (σ : string → Progress) (phase : string) (st : RunState) (row : RunRow).
Context (Hf : follows σ phase st) (Hphase : phase ≠ "terminal") (Hrow : rs_runs st !! run = Some row).
#[local] Abbreviation rows := (ws_steps (rs_work st)).
#[local] Abbreviation views := (by_path (run_steps rd now st row)).

Lemma row_run_at : run_at phase row.
Proof using Hf Hrow. destruct (fo_run _ _ _ Hf) as (row' & Hrow' & H). congruence. Qed.

Lemma live_now : live (reads rd st).
Proof using Hf Hphase Hrow.
  destruct row_run_at as (Hs & Hp & Hg & Hgs & Hr). unfold live, reads, run_owner. cbn. rewrite Hrow. cbn. rewrite Hgs. cbn. rewrite str_eqb_refl. cbn.
  rewrite Hr, Hrow. cbn. eexists. split; [done|]. split; [|done]. unfold owner_terminal. cbn. rewrite Hs, Hp. rewrite (proj2 (str_eqb_false _ _) Hphase). done.
Qed.

Lemma run_steps_elem v : v ∈ run_steps rd now st row ↔ ∃ s, rows !! s = Some v ∧ sr_generation v = gen.
Proof using Hf Hphase Hrow.
  destruct row_run_at as (_ & _ & Hg & _). unfold run_steps. rewrite list_elem_of_fmap.
  assert (Heff : ∀ s r, rows !! s = Some r → sr_generation r = gen → apply_effective_step_state (reads rd st) now r = r).
  { intros s r Hr Hgen. destruct (fo_only _ _ _ Hf s r Hr Hgen) as (x & _ & H). exact (effective_at _ _ _ _ _ _ live_now H). }
  split.
  - intros (r & -> & Hin). apply lfilter_elem in Hin as [Hin Hgen%str_eqb_true]. rewrite Hg in Hgen.
    apply list_elem_of_fmap in Hin as ([s r'] & -> & Hin). apply in_key_order_elem in Hin. exists s. cbn in *. by rewrite (Heff s r').
  - intros (s & Hr & Hgen). exists v. split; [by rewrite (Heff s v)|]. apply lfilter_elem. rewrite str_eqb_true, Hg. split; [|done].
    apply list_elem_of_fmap. exists (s, v). split; [done|]. by apply in_key_order_elem.
Qed.

Lemma view_at x : x ∈ specs → ∃ s r, rows !! s = Some r ∧ views !! st_id x.1 = Some r ∧ row_at x.1 (σ (st_id x.1)) s r.
Proof using Hf Hphase Hrow.
  intros Hx. destruct (fo_step _ _ _ Hf x Hx) as (s & r & Hr & H). exists s, r. split; [done|]. split; [|done].
  assert (Hin : r ∈ run_steps rd now st row) by (apply run_steps_elem; exists s; by rewrite (ra_generation _ _ _ _ H)).
  unfold by_path. destruct (list_to_map _ !! _) as [v|] eqn:Ev.
  - apply elem_of_list_to_map_2, list_elem_of_fmap in Ev as (v' & [= Hid <-] & Hv). apply run_steps_elem in Hv as (s' & Hv & Hg).
    assert (s' = s) as -> by (apply (fo_one _ _ _ Hf s' s v r); rewrite ?(ra_generation _ _ _ _ H), ?(ra_step _ _ _ _ H); done). congruence.
  - apply not_elem_of_list_to_map_2 in Ev. destruct Ev. rewrite <- list_fmap_compose. apply list_elem_of_fmap. exists r. split; [|done].
    cbn. by rewrite (ra_step _ _ _ _ H).
Qed.

(** A step writes to its own row. *)
Lemma writes_own x s : x ∈ specs → writes_at views (runtime x) s → ∃ r, rows !! s = Some r ∧ row_at x.1 (σ (st_id x.1)) s r.
Proof using Hm Hf Hphase Hrow.
  intros Hx (view & Hv & Hs). cbn in Hv. rewrite (ua_path _ _ Hm x Hx) in Hv. destruct (view_at x Hx) as (s' & r & Hr & Hv' & H).
  assert (view = r) as -> by congruence. rewrite (normalize_at _ _ _ _ H) in Hs. subst s'. eauto.
Qed.

(** The passes follow the machine. *)
Lemma steps_follow (an : Answers Gate) finally :
  favourable specs an → phase = (if finally : bool then "final" else "normal") →
  follows (next (graph specs) finally σ) phase (with_pass (evaluate_steps (reads rd st) an now accepted phase views (map runtime specs) (rs_pass st)).2 st).
Proof using Hm Hvalid Hf Hphase Hrow.
  intros Han Hph. set (p' := (evaluate_steps _ _ _ _ _ _ _ _).2).
  assert (Hown : ∀ x s r, x ∈ specs → rows !! s = Some r → row_at x.1 (σ (st_id x.1)) s r →
    ∃ r', ws_steps (ps_work p') !! s = Some r' ∧ row_at x.1 (next (graph specs) finally σ (st_id x.1)) s r').
  { intros x s r Hx Hr H.
    assert (next (graph specs) finally σ (st_id x.1) = step_next σ finally x.1 (σ (st_id x.1))) as -> by (unfold next; by rewrite lookup_graph).
    destruct (view_at x Hx) as (s' & r0 & Hr0 & Hv & H0).
    assert (s' = s) as -> by (apply (fo_one _ _ _ Hf s' s r0 r); rewrite ?(ra_generation _ _ _ _ H), ?(ra_generation _ _ _ _ H0), ?(ra_step _ _ _ _ H), ?(ra_step _ _ _ _ H0); done).
    assert (r0 = r) as -> by congruence.
    assert (Hother : ∀ y, y ∈ specs → st_id y.1 ≠ st_id x.1 → ¬ writes_at views (runtime y) s).
    { intros y Hy Hne Hw. destruct (writes_own y s Hy Hw) as (r1 & Hr1 & H1). apply Hne. rewrite <- (ra_step _ _ _ _ H1), <- (ra_step _ _ _ _ H). congruence. }
    pose proof (ua_ids _ _ Hm) as Hdup. unfold p'. clear p'.
    destruct (list_elem_of_split _ _ Hx) as (l1 & l2 & Hl). rewrite Hl in Hdup, Hother |- *. rewrite map_app, evaluate_steps_app. rewrite map_app in Hdup. cbn [map] in *.
    apply NoDup_app in Hdup as (_ & Hd1 & Hd2). apply NoDup_cons in Hd2 as [Hd2 _].
    pose proof (evaluate_steps_other (reads rd st) an now accepted phase views (map runtime l1) (rs_pass st) s) as Hl1.
    specialize (Hl1 ltac:(intros step (y & -> & Hy)%list_elem_of_fmap; apply Hother; [set_solver|]; intros E; apply (Hd1 (st_id y.1)); [apply list_elem_of_fmap; by exists y|rewrite E; left])).
    set (q := (evaluate_steps _ _ _ _ _ _ (map runtime l1) _).2) in *. cbn [evaluate_steps].
    destruct (evaluate_step_at an Han now accepted (reads rd st) live_now σ views) with (finally := finally) (phase := phase) (x := x) (r := r) (p := q) (s := s)
      as (r' & Hr' & H'); [|done|done|done|by rewrite Hl1|done|].
    { intros y Hy. destruct (view_at y Hy) as (sy & ry & _ & ? & ?). eauto. }
    destruct (evaluate_step _ _ _ _ _ _ _ q) as [c q']. cbn [snd] in Hr'.
    pose proof (evaluate_steps_other (reads rd st) an now accepted phase views (map runtime l2) q' s) as Hl2.
    specialize (Hl2 ltac:(intros step (y & -> & Hy)%list_elem_of_fmap; apply Hother; [set_solver|]; intros E; apply Hd2; rewrite <- E; apply list_elem_of_fmap; by exists y)).
    destruct (evaluate_steps _ _ _ _ _ _ _ q') as [c' q'']. cbn [snd] in *. exists r'. by rewrite Hl2. }
  assert (Hback : ∀ s r', ws_steps (ps_work p') !! s = Some r' → sr_generation r' = gen →
    ∃ x r, x ∈ specs ∧ rows !! s = Some r ∧ row_at x.1 (σ (st_id x.1)) s r).
  { intros s r' Hr' Hg. destruct (rows !! s) as [r|] eqn:Er.
    - destruct (decide (sr_generation r = gen)) as [E|E].
      + destruct (fo_only _ _ _ Hf s r Er E) as (x & Hx & H). by exists x, r.
      + exfalso. unfold p' in Hr'. rewrite evaluate_steps_other in Hr'.
        * change (rows !! s = Some r') in Hr'. congruence.
        * intros step (y & -> & Hy)%list_elem_of_fmap Hw. destruct (writes_own y s Hy Hw) as (r1 & Hr1 & H1). apply E. rewrite <- (ra_generation _ _ _ _ H1). congruence.
    - exfalso. unfold p' in Hr'. rewrite evaluate_steps_other in Hr'.
      + change (rows !! s = Some r') in Hr'. congruence.
      + intros step (y & -> & Hy)%list_elem_of_fmap Hw. destruct (writes_own y s Hy Hw) as (r1 & Hr1 & H1). congruence. }
  clearbody p'. constructor; unfold rs_work; cbn [with_pass rs_pass rs_runs].
  - exact (fo_run _ _ _ Hf).
  - intros x Hx. destruct (fo_step _ _ _ Hf x Hx) as (s & r & Hr & H). destruct (Hown x s r Hx Hr H) as (r' & Hr' & H'). by exists s, r'.
  - intros s r' Hr' Hg. destruct (Hback s r' Hr' Hg) as (x & r & Hx & Hr & H). destruct (Hown x s r Hx Hr H) as (r'' & Hr'' & H''). exists x. split; [done|].
    assert (r'' = r') as -> by congruence. done.
  - intros s s' r r' Hr Hr' Hg Hg' Hstep. destruct (Hback s r Hr Hg) as (x & r0 & Hx & Hr0 & H0), (Hback s' r' Hr' Hg') as (x' & r0' & Hx' & Hr0' & H0').
    destruct (Hown x s r0 Hx Hr0 H0) as (r1 & Hr1 & H1), (Hown x' s' r0' Hx' Hr0' H0') as (r1' & Hr1' & H1').
    assert (r1 = r) as -> by congruence. assert (r1' = r') as -> by congruence.
    apply (fo_one _ _ _ Hf s s' r0 r0'); [done|done|apply H0|apply H0'|].
    rewrite (ra_step _ _ _ _ H0), (ra_step _ _ _ _ H0'), <- (ra_step _ _ _ _ H1), <- (ra_step _ _ _ _ H1'). done.
Qed.
End follow.

(** ** The passes of a run *)

Section phases.
Context (an : Answers Gate) (Han : favourable specs an) (now accepted : Z) (σ : string → Progress) (phase : string) (st : RunState) (row : RunRow).
Context (Hf : follows σ phase st) (Hphase : phase ≠ "terminal") (Hrow : rs_runs st !! run = Some row).
#[local] Abbreviation views := (by_path (run_steps rd now st row)).
#[local] Abbreviation flat := (flatten_mission_steps (rm_steps mission)).

Lemma flat_view step : step ∈ flat → ∃ x s r, x ∈ specs ∧ step = runtime x ∧ view_of views step = Some r ∧ row_at x.1 (σ (st_id x.1)) s r.
Proof using Hm Hf Hphase Hrow.
  rewrite flat_specs. intros (x & -> & Hx)%list_elem_of_fmap. destruct (view_at now σ phase st row Hf Hphase Hrow x Hx) as (s & r & _ & Hv & H).
  exists x, s, r. unfold view_of. cbn. by rewrite (ua_path _ _ Hm x Hx).
Qed.

Lemma none_failed : any_failed flat views = false.
Proof using Hm Hf Hphase Hrow.
  apply existsb_false_elem. intros step Hin. destruct (flat_view step Hin) as (x & s & r & _ & _ & -> & H). cbn. unfold exhausted. rewrite (ra_status _ _ _ _ H).
  by destruct (σ _), (normal step).
Qed.

Lemma selected_at : mission_completion_selected an mission views = true ↔ todo (graph specs) false σ = 0.
Proof using Hm Hf Hphase Hrow.
  unfold mission_completion_selected. rewrite (ua_completion _ _ Hm), todo_0, forallb_forall. split.
  - intros H id spec Hid Hn. apply graph_lookup in Hid as (x & Hx & <- & <-). specialize (H (runtime x)).
    destruct (flat_view (runtime x)) as (x' & s & r & _ & [= E1 E2] & Hv & Hr); [rewrite flat_specs; apply list_elem_of_fmap; by exists x|].
    rewrite <- list_elem_of_In, lfilter_elem, Hv in H. cbn in H. rewrite (ra_status _ _ _ _ Hr) in H. unfold normal, finally, exhausted in H. cbn in H.
    rewrite (ra_status _ _ _ _ Hr), Hn, <- E1 in H. destruct (σ (st_id x.1)); [| |done]; exfalso.
    all: discriminate H; split; [rewrite flat_specs; apply list_elem_of_fmap; by exists x|done].
  - intros H step. rewrite <- list_elem_of_In, lfilter_elem. intros [Hin Hn]. destruct (flat_view step Hin) as (x & s & r & Hx & -> & -> & Hr). cbn.
    rewrite (ra_status _ _ _ _ Hr), (H (st_id x.1) x.1); [done|by apply lookup_graph|by apply negb_true_iff in Hn].
Qed.

Lemma final_terminal_at : final_terminal flat views = true ↔ todo (graph specs) true σ = 0.
Proof using Hm Hf Hphase Hrow.
  unfold final_terminal. rewrite todo_0, forallb_forall. split.
  - intros H id spec Hid Hn. apply graph_lookup in Hid as (x & Hx & <- & <-). specialize (H (runtime x)).
    destruct (flat_view (runtime x)) as (x' & s & r & _ & [= E1 E2] & Hv & Hr); [rewrite flat_specs; apply list_elem_of_fmap; by exists x|].
    rewrite <- list_elem_of_In, lfilter_elem, Hv in H. cbn in H. rewrite (ra_status _ _ _ _ Hr), <- E1 in H.
    destruct (σ (st_id x.1)); [| |done]; exfalso; discriminate H; (split; [rewrite flat_specs; apply list_elem_of_fmap; by exists x|done]).
  - intros H step. rewrite <- list_elem_of_In, lfilter_elem. intros [Hin Hn]. destruct (flat_view step Hin) as (x & s & r & Hx & -> & -> & Hr). cbn.
    rewrite (ra_status _ _ _ _ Hr), (H (st_id x.1) x.1); [done|by apply lookup_graph|done].
Qed.

(** Nothing has failed, so a mission with a completion is running. *)
Lemma settles changed : settle_status mission flat changed (run_steps rd now st row) = ("running", None).
Proof using Hm Hf Hphase Hrow.
  unfold settle_status. destruct (existsb _ _); [done|]. set (f := existsb _ _). assert (f = false) as ->; [|by rewrite (ua_completion _ _ Hm)].
  apply existsb_false_elem. intros v [Hv _]%lfilter_elem. apply (run_steps_elem now σ phase st row Hf Hphase Hrow) in Hv as (s & Hv & Hg).
  destruct (fo_only _ _ _ Hf s v Hv Hg) as (x & _ & H). rewrite (ra_status _ _ _ _ H). by destruct (σ _).
Qed.

Lemma no_mission_baseline : mission_baseline an mission flat views = None.
Proof using Han. unfold mission_baseline. destruct (admitted_steps _ _); [done|]. apply baselines_hold, (fa_context _ _ Han). Qed.

Lemma gates_accept : mission_gates an (rm_gates mission) = Some None.
Proof using Han. apply mission_gates_accept. intros gate _. apply (fa_context _ _ Han). Qed.
End phases.

(** The tables of steps and runs are all that is followed. *)
Lemma follows_tables σ phase phase' st st' row' :
  follows σ phase st → ws_steps (rs_work st') = ws_steps (rs_work st) → rs_runs st' !! run = Some row' → run_at phase' row' → follows σ phase' st'.
Proof using Type. intros [H1 H2 H3 H4] E Hrow Hat. constructor; [by exists row'|rewrite E..]; done. Qed.

Lemma set_row_at phase phase' row : run_at phase row → run_at phase' (set_row "running" phase' row).
Proof using Type. intros (H1 & H2 & H3 & H4 & H5). unfold run_at. cbn. rewrite H3, H4. cbn. by rewrite str_eqb_refl. Qed.

(** Nothing is left for a run whose steps are done to cancel. *)
Lemma terminalize_done now accepted σ phase st reason actor :
  follows σ phase st → (∀ x, x ∈ specs → σ (st_id x.1) = Done) →
  ws_steps (rs_work (terminalize_run_steps now accepted run reason actor st)) = ws_steps (rs_work st).
Proof using Type.
  intros Hf Hd. unfold terminalize_run_steps. destruct (fo_run _ _ _ Hf) as (row & Hrow & _ & _ & _ & Hgs & _). rewrite Hrow, Hgs. cbn [map fold_left].
  unfold terminalize_generation_steps. replace (open_steps (gen, "running").1 (rs_work st)) with (@nil StepRow); [done|]. symmetry.
  unfold open_steps. destruct (List.filter _ _) as [|r l] eqn:E; [done|]. exfalso.
  assert (Hr : r ∈ r :: l) by left. rewrite <- E in Hr. apply lfilter_elem in Hr as [Hr [Hg%str_eqb_true Ho]%andb_true_iff].
  apply list_elem_of_fmap in Hr as ([s r'] & -> & Hr). apply in_key_order_elem in Hr. destruct (fo_only _ _ _ Hf s r' Hr Hg) as (x & Hx & H).
  cbn in Ho. by rewrite (ra_status _ _ _ _ H), (Hd x Hx) in Ho.
Qed.

Lemma all_done σ : todo (graph specs) false σ = 0 → todo (graph specs) true σ = 0 → ∀ x, x ∈ specs → σ (st_id x.1) = Done.
Proof using Hm. rewrite !todo_0. intros H1 H2 x Hx. destruct (st_finally x.1) eqn:E; [apply (H2 _ x.1)|apply (H1 _ x.1)]; auto using lookup_graph. Qed.

(** The run moves to another phase. *)
Lemma set_run_follows now accepted σ phase phase' reason st :
  follows σ phase st → phase ∈ ["normal"; "final"] → phase' ∈ ["final"; "cleanup-completed"] → phase ≠ phase' →
  (phase' = "cleanup-completed" → ∀ x, x ∈ specs → σ (st_id x.1) = Done) →
  follows σ phase' (set_run now accepted st run "running" phase' reason).2.
Proof using Type.
  intros Hf Hp Hp' Hne Hd. destruct (fo_run _ _ _ Hf) as (row & Hrow & Hat). destruct (Hat) as (Hs & Hph & _).
  unfold set_run, set_mission_run_state. rewrite Hrow, Hs, Hph. rewrite (proj2 (str_eqb_false phase phase') Hne).
  set (moved := move_run accepted run row "running" phase' reason None st).
  assert (Hmoved : follows σ phase' moved).
  { apply (follows_tables σ phase phase' st moved (set_row "running" phase' row)); [done|done| |by apply (set_row_at phase)]. unfold moved. cbn. apply lookup_insert_eq. }
  assert (Hdone : ∀ reason actor, phase' = "cleanup-completed" → follows σ phase' (terminalize_run_steps now accepted run reason actor moved)).
  { intros why actor Hc. eapply (follows_tables σ phase' phase' moved); [done|exact (terminalize_done now accepted σ phase' moved why actor Hmoved (Hd Hc))| |by apply (set_row_at phase)].
    rewrite terminalize_keeps. unfold moved. cbn. apply lookup_insert_eq. }
  clearbody moved. apply elem_of_cons in Hp as [->|Hp]; [|apply list_elem_of_singleton in Hp as ->];
    (apply elem_of_cons in Hp' as [->|Hp']; [|apply list_elem_of_singleton in Hp' as ->]); cbn -[terminalize_run_steps]; try done; by apply Hdone.
Qed.

Section active.
Context (ca : CleanupAnswers).

(** The run as the reconciler evaluates it: while it is open, with a mission that is here and no deadline. *)
Definition evaluate_open_run (st : RunState) (x : Answers Gate * Z * Z) : RunState :=
  match rs_runs st !! run with
  | Some row =>
      if bool_decide (rr_status row ∈ ["running"; "standing"; "blocked"])
      then (evaluate_active_mission_run rd x.1.1 x.1.2 x.2 ca (mkActive None "" None false (Some (Ok mission))) run row st).2
      else st
  | None => st
  end.

Lemma evaluate_open_follows σ phase st x :
  follows σ phase st → phase = "normal" ∨ phase = "final" →
  ∃ row, rs_runs st !! run = Some row ∧ run_at phase row ∧
    evaluate_open_run st x = (evaluate_mission_run rd x.1.1 x.1.2 x.2 mission run row st).2.
Proof using Type.
  intros Hf Hp. destruct (fo_run _ _ _ Hf) as (row & Hrow & Hat). exists row. split; [done|]. split; [done|]. unfold evaluate_open_run. rewrite Hrow.
  destruct Hat as (Hs & Hph & _). rewrite Hs. change (bool_decide ("running" ∈ ["running"; "standing"; "blocked"])) with true. cbn iota.
  unfold evaluate_active_mission_run. rewrite Hph. by destruct Hp as [->| ->].
Qed.

Lemma normal_pass σ st x :
  favourable specs x.1.1 → follows σ "normal" st → todo (graph specs) false σ ≠ 0 → follows (next (graph specs) false σ) "normal" (evaluate_open_run st x).
Proof using Hm Hvalid.
  destruct x as [[an now] accepted]. cbn. intros Han Hf Hn. destruct (evaluate_open_follows σ "normal" st (an, now, accepted) Hf) as (row & Hrow & Hat & ->); [by left|].
  cbn [fst snd]. unfold evaluate_mission_run. destruct (Hat) as (Hs & Hp & _). rewrite Hp, Hs. change (str_eqb "normal" "normal") with true.
  change (str_eqb "running" "blocked") with false. cbn [andb]. rewrite (no_mission_baseline an Han now st row).
  rewrite (none_failed now σ "normal" st row Hf) by done. cbn [orb andb]. destruct (mission_completion_selected an mission _) eqn:Es.
  { apply (selected_at an now σ "normal" st row Hf) in Es; done. }
  change (bool_decide ("normal" ∈ ["final"; "final-cancelled"])) with false. cbn [andb]. rewrite flat_specs.
  pose proof (steps_follow now accepted σ "normal" st row Hf ltac:(done) Hrow an false Han eq_refl) as Hfol.
  destruct (evaluate_steps _ _ _ _ _ _ _ _) as [stepped p]. cbn [snd] in Hfol. rewrite <- flat_specs.
  rewrite (settles now _ "normal" (with_pass p st) row Hfol) by done. cbn [also_run snd]. unfold set_run, set_mission_run_state. cbn [with_pass rs_runs].
  rewrite Hrow, Hs, Hp. exact Hfol.
Qed.

Lemma normal_end σ st x :
  favourable specs x.1.1 → follows σ "normal" st → todo (graph specs) false σ = 0 →
  follows σ "final" (evaluate_open_run st x) ∨ todo (graph specs) true σ = 0 ∧ follows σ "cleanup-completed" (evaluate_open_run st x).
Proof using Hm Hvalid.
  destruct x as [[an now] accepted]. cbn. intros Han Hf Hn. destruct (evaluate_open_follows σ "normal" st (an, now, accepted) Hf) as (row & Hrow & Hat & ->); [by left|].
  cbn [fst snd]. unfold evaluate_mission_run. destruct (Hat) as (Hs & Hp & _). rewrite Hp, Hs. change (str_eqb "normal" "normal") with true.
  change (str_eqb "running" "blocked") with false. cbn [andb]. rewrite (no_mission_baseline an Han now st row).
  rewrite (none_failed now σ "normal" st row Hf) by done. rewrite (proj2 (selected_at an now σ "normal" st row Hf ltac:(done) Hrow) Hn). cbn [orb andb].
  rewrite (fa_products _ _ Han), (gates_accept an Han). cbn [also_run snd]. unfold end_normal_phase, cancel_open_steps.
  assert (Hnone : ∀ reason (l : list (RuntimeStep Gate)), (∀ step, step ∈ l → step ∈ flatten_mission_steps (rm_steps mission)) →
    fold_left (cancel_open_step rd now accepted (by_path (run_steps rd now st row)) reason) l (false, st) = (false, st)).
  { intros reason l. induction l as [|step l IH]; intros Hl; [done|]. cbn [fold_left]. rewrite <- (IH ltac:(set_solver)) at 2. f_equal. unfold cancel_open_step.
    destruct (flat_view now σ "normal" st row Hf ltac:(done) Hrow step ltac:(set_solver)) as (y & s & r & Hy & -> & -> & H). rewrite (ra_status _ _ _ _ H).
    destruct (normal (runtime y)) eqn:En; [|done]. rewrite todo_0 in Hn. rewrite (Hn (st_id y.1) y.1); [done|by apply lookup_graph|by apply negb_true_iff in En]. }
  rewrite Hnone by done. cbn [is_some also_run snd]. destruct (existsb finally _) eqn:Ef.
  - left. cbn [snd]. apply (set_run_follows now accepted σ "normal" "final"); [done|set_solver|set_solver|done|done].
  - right. assert (Ht : todo (graph specs) true σ = 0).
    { apply todo_0. intros id spec Hid Hfin. exfalso. apply graph_lookup in Hid as (y & Hy & _ & <-). rewrite existsb_false_elem in Ef.
      specialize (Ef (runtime y)). unfold finally in Ef. cbn in Ef. rewrite Hfin in Ef. discriminate Ef. rewrite flat_specs. apply list_elem_of_fmap. by exists y. }
    split; [done|]. apply (set_run_follows now accepted σ "normal" "cleanup-completed"); [done|set_solver|set_solver|done|]. intros _. by apply all_done.
Qed.

Lemma final_pass σ st x :
  favourable specs x.1.1 → follows σ "final" st → todo (graph specs) true σ ≠ 0 → follows (next (graph specs) true σ) "final" (evaluate_open_run st x).
Proof using Hm Hvalid.
  destruct x as [[an now] accepted]. cbn. intros Han Hf Hn. destruct (evaluate_open_follows σ "final" st (an, now, accepted) Hf) as (row & Hrow & Hat & ->); [by right|].
  cbn [fst snd]. unfold evaluate_mission_run. destruct (Hat) as (Hs & Hp & _). rewrite Hp. change (str_eqb "final" "normal") with false. cbn [andb].
  destruct (final_terminal _ _) eqn:Et; [apply (final_terminal_at now σ "final" st row Hf) in Et; done|]. rewrite andb_false_r, flat_specs.
  pose proof (steps_follow now accepted σ "final" st row Hf ltac:(done) Hrow an true Han eq_refl) as Hfol.
  by destruct (evaluate_steps _ _ _ _ _ _ _ _) as [stepped p].
Qed.

Lemma final_end σ st x :
  favourable specs x.1.1 → follows σ "final" st → todo (graph specs) false σ = 0 → todo (graph specs) true σ = 0 →
  follows σ "cleanup-completed" (evaluate_open_run st x).
Proof using Hm Hvalid.
  destruct x as [[an now] accepted]. cbn. intros Han Hf Hn Ht. destruct (evaluate_open_follows σ "final" st (an, now, accepted) Hf) as (row & Hrow & Hat & ->); [by right|].
  cbn [fst snd]. unfold evaluate_mission_run. destruct (Hat) as (Hs & Hp & _). rewrite Hp. change (str_eqb "final" "normal") with false. cbn [andb].
  rewrite (proj2 (final_terminal_at now σ "final" st row Hf ltac:(done) Hrow) Ht). change (bool_decide ("final" ∈ ["final"; "final-cancelled"])) with true.
  cbn [andb also_run snd]. unfold end_final_phase. change (str_eqb "final" "final-cancelled") with false. cbn [negb andb].
  assert (Hdone : ∀ v, v ∈ run_steps rd now st row → sr_status v = "completed").
  { intros v Hv. apply (run_steps_elem now σ "final" st row Hf ltac:(done) Hrow) in Hv as (s & Hv & Hg). destruct (fo_only _ _ _ Hf s v Hv Hg) as (y & Hy & H).
    by rewrite (ra_status _ _ _ _ H), (all_done σ Hn Ht y Hy). }
  assert (existsb (λ v, bool_decide (sr_step v ∈ map (λ step, st_path (rt_spec step)) (List.filter normal (flatten_mission_steps (rm_steps mission))))
                        && bool_decide (sr_status v ∈ ["failed"; "cancelled"])) (run_steps rd now st row) = false) as ->.
  { apply existsb_false_elem. intros v Hv. by rewrite (Hdone v Hv), andb_false_r. }
  cbn [also_run snd]. apply (set_run_follows now accepted σ "final" "cleanup-completed"); [done|set_solver|set_solver|done|]. intros _. by apply all_done.
Qed.

(** ** The end *)

Definition finished (st : RunState) : Prop := ∃ row, rs_runs st !! run = Some row ∧ rr_status row = "completed" ∧ rr_phase row = "terminal".

Lemma finished_keeps now accepted reason ids st : finished st → finished (fold_left (cancel_descendant now accepted reason) ids st).
Proof using Type.
  revert st. induction ids as [|id ids IH]; intros st Hst; [done|]. cbn [fold_left]. apply IH. destruct Hst as (row & Hrow & Hs & Hp). unfold cancel_descendant.
  rewrite terminalize_keeps. destruct (rs_runs st !! id) as [row'|] eqn:Er; [|exists row; by rewrite terminalize_keeps].
  case_bool_decide as Hopen; [|exists row; by rewrite terminalize_keeps]. exists row. cbn. rewrite terminalize_keeps.
  rewrite lookup_insert_ne; [done|]. intros ->. assert (row' = row) as -> by congruence. rewrite Hs in Hopen. clear -Hopen. set_solver.
Qed.

Lemma cleanup_pass σ st x :
  List.filter owned_live (ca_owned ca) = [] → ca_eval ca = false → follows σ "cleanup-completed" st → finished (evaluate_open_run st x).
Proof using Type.
  intros Hlive Heval Hf. destruct (fo_run _ _ _ Hf) as (row & Hrow & Hs & Hp & _). unfold evaluate_open_run, evaluate_active_mission_run. rewrite Hrow, Hs, Hp.
  change (bool_decide ("running" ∈ ["running"; "standing"; "blocked"])) with true. change (starts_with "cleanup-" "cleanup-completed") with true.
  cbn [av_deadline is_some_and andb]. change (str_eqb "cleanup-completed" "revision-draining") with false. cbn [andb].
  unfold reconcile_mission_run_cleanup. rewrite Hlive, Heval, Hp. cbn [existsb]. rewrite bool_decide_true by done. cbn [negb andb option_list app also_run snd].
  change (default "failed" (strip_prefix "cleanup-" "cleanup-completed")) with "completed".
  unfold set_run, set_mission_run_state. rewrite Hrow, Hs, Hp. change (str_eqb "cleanup-completed" "terminal") with false.
  change (str_eqb "running" "completed") with false. cbn [andb orb]. change (starts_with "cleanup-" "cleanup-completed") with true. change (str_eqb "terminal" "terminal") with true.
  change (str_eqb "cleanup-completed" "final-cancelled") with false. change (starts_with "cleanup-" "terminal") with false. change (is_terminal_run_state "completed") with true. cbn [andb negb orb snd].
  set (moved := move_run _ _ _ _ _ _ _ _). assert (Hmoved : finished moved).
  { exists (set_row "completed" "terminal" row). split; [|done]. unfold moved. cbn. apply lookup_insert_eq. }
  unfold cancel_descendant_mission_runs. set (swept := fold_left _ _ moved). assert (finished swept) as (row' & H & H') by by apply finished_keeps.
  exists row'. by rewrite terminalize_keeps.
Qed.

Lemma finished_pass st x : finished st → evaluate_open_run st x = st.
Proof using Type. intros (row & Hrow & Hs & _). unfold evaluate_open_run. rewrite Hrow, Hs. done. Qed.

(** However favourable passes answer, [n] of them finish the run. *)
Definition finishes_in (n : nat) (st : RunState) : Prop :=
  ∀ xs, Forall (λ x, favourable specs x.1.1) xs → n ≤ length xs → finished (fold_left evaluate_open_run xs st).

Lemma finished_stays st n : finished st → finishes_in n st.
Proof using Type.
  intros Hst xs Hxs _. induction xs as [|x xs IH]; [done|]. apply Forall_cons in Hxs as [_ Hxs]. cbn. rewrite finished_pass by done. by apply IH.
Qed.

Lemma finishes_after st n : (∀ x, favourable specs x.1.1 → finishes_in n (evaluate_open_run st x)) → finishes_in (S n) st.
Proof using Type. intros H [|x xs] Hxs Hn; [cbn in Hn; lia|]. apply Forall_cons in Hxs as [Hx Hxs]. cbn in *. apply H; [done|done|lia]. Qed.

Lemma finishes_le m n st : finishes_in m st → m ≤ n → finishes_in n st.
Proof using Type. intros H Hle xs Hxs Hn. apply H; [done|lia]. Qed.

Lemma todo_other finally σ : todo (graph specs) (negb finally) (next (graph specs) finally σ) = todo (graph specs) (negb finally) σ.
Proof using Type.
  unfold todo. f_equal. apply map_ext_in. intros [id spec] Hin. rewrite <- list_elem_of_In, elem_of_map_to_list in Hin. unfold next. rewrite Hin.
  by destruct (st_finally spec), finally.
Qed.

Section count.
Context (Hlive : List.filter owned_live (ca_owned ca) = []) (Heval : ca_eval ca = false).

Lemma cleanup_finishes σ st : follows σ "cleanup-completed" st → finishes_in 1 st.
Proof using Hlive Heval. intros Hf. apply finishes_after. intros x _. apply finished_stays. by apply (cleanup_pass σ). Qed.

Lemma final_finishes n : ∀ σ st, todo (graph specs) true σ ≤ n → todo (graph specs) false σ = 0 → follows σ "final" st → finishes_in (n + 2) st.
Proof using Hm Hvalid Hlive Heval.
  induction n as [|n IH]; intros σ st Hn H0 Hf; (destruct (decide (todo (graph specs) true σ = 0)) as [Ht|Ht];
    [apply (finishes_le 2); [|lia]; apply finishes_after; intros x Hx; apply (cleanup_finishes σ); by apply final_end|]); [lia|].
  cbn [Nat.add]. apply finishes_after. intros x Hx. apply (IH (next (graph specs) true σ)); [|by rewrite (todo_other true)|by apply final_pass].
  pose proof (todo_decreases _ Hvalid true σ Ht). lia.
Qed.

Lemma normal_finishes n k : ∀ σ st,
  todo (graph specs) false σ ≤ n → todo (graph specs) true σ ≤ k → follows σ "normal" st → finishes_in (n + (k + 3)) st.
Proof using Hm Hvalid Hlive Heval.
  induction n as [|n IH]; intros σ st Hn Hk Hf; (destruct (decide (todo (graph specs) false σ = 0)) as [H0|H0];
    [apply (finishes_le (S (k + 2))); [|lia]; apply finishes_after; intros x Hx; destruct (normal_end σ st x Hx Hf H0) as [Hfin|[Ht Hc]];
       [by apply (final_finishes k σ)|apply (finishes_le 1); [by apply (cleanup_finishes σ)|lia]]|]); [lia|].
  cbn [Nat.add]. apply finishes_after. intros x Hx. apply (IH (next (graph specs) false σ)); [|by rewrite (todo_other false)|by apply normal_pass].
  pose proof (todo_decreases _ Hvalid false σ H0). lia.
Qed.
End count.
End active.
End unattended.

Lemma todo_total {Gate} (specs : list (StepSpec Gate * StepMore Gate)) σ : todo (graph specs) false σ + todo (graph specs) true σ ≤ 2 * length specs.
Proof.
  assert (length (map_to_list (graph specs)) ≤ length specs) as Hle.
  { unfold graph. rewrite length_map_to_list. induction specs as [|x l IH]; [done|]. cbn. pose proof (map_size_insert (st_id x.1) x.1 (list_to_map (map (λ x, (st_id x.1, x.1)) l) : gmap string (StepSpec Gate))) as Hi.
    rewrite Hi. destruct (_ !! _); unfold id; lia. }
  pose proof (todo_bound (graph specs) false σ). pose proof (todo_bound (graph specs) true σ).
  assert (length (List.filter (λ '(_, spec), Bool.eqb (st_finally spec) false) (map_to_list (graph specs))) +
    length (List.filter (λ '(_, spec), Bool.eqb (st_finally spec) true) (map_to_list (graph specs))) = length (map_to_list (graph specs))); [|lia].
  clear. induction (map_to_list (graph specs)) as [|[id spec] l IH]; [done|]. cbn. destruct (st_finally spec); cbn; lia.
Qed.

(** C26. Missions that wait for nobody are carried out. Take a mission that is complete when all its normal steps are exhausted, each of
    whose steps is agentless and none nested, a loop, or one that produces, uses or awaits a mission; whose dependencies the
    validation accepts, whatever their graph, and, where they are on steps, wait for completed or terminal ones only; with or without final
    steps. Take a root run of it that is running in its normal phase with one generation and one row for each step, pending without a
    reason or a delay, ready, or completed. Then any sequence of passes of twice as many as it has steps and three more completes the run, if in
    all of them every gate, baseline and predicate passes, products and declarations are there, no step runs out of time, the run has no
    deadline and its revision is at hand, it is not an eval, and it owns nothing that is live when it is cleaned up. *)
Theorem unattended_missions_complete {Gate} rd (mission : RunMission Gate) name specs run gen ca σ st passes :
  unattended mission specs → validate_dependencies name (graph specs) = Some (Ok tt) →
  List.filter owned_live (ca_owned ca) = [] → ca_eval ca = false →
  follows specs run gen σ "normal" st →
  Forall (λ x, favourable specs x.1.1) passes → 2 * length specs + 3 ≤ length passes →
  ∃ row, rs_runs (fold_left (evaluate_open_run rd mission run ca) passes st) !! run = Some row ∧ rr_status row = "completed" ∧ rr_phase row = "terminal".
Proof.
  intros Hm Hv Hlive Heval Hf Hpasses Hlen. assert (Hvalid : valid_graph (graph specs)) by by apply (validation_exactly name).
  pose proof (todo_total specs σ) as Hle.
  apply (finishes_le rd mission specs run ca (todo (graph specs) false σ + (todo (graph specs) true σ + 3)) (2 * length specs + 3));
    [|lia|done|done]. by eapply normal_finishes.
Qed.

(** ** Example *)

Definition example_specs : list (StepSpec GateOutcome * StepMore GateOutcome) :=
  [(agentless_step "build" false [], plain_more [Pass]); (agentless_step "test" false ["build"], plain_more []); (agentless_step "tidy" true [], plain_more [])].
Definition unattended_example : RunMission GateOutcome := mkRunMission (map (λ x, mkFullStep x.1 x.2 None) example_specs) (Some AllStepsExhausted) [] [Pass] false.
Definition no_owned : CleanupAnswers := mkCleanup false [] false 60000 false [] (Ok []).
Definition agreeable : Answers GateOutcome :=
  mkAnswers (λ _, Pass) (λ _ _, Pass) (λ _ _, Pass) true (λ _, false) (λ _, false) (λ _, []) (λ _, 0%Z) (λ _, 0%Z) (λ _, true) (λ _ _, true)
    (λ _ _, false) (λ _, None) (λ _, true) (λ _, LoopWaits false) (λ _, true) (λ _, (false, UsedCompleted)) (λ _, ∅) (λ _, None) false false.

Lemma agreeable_favourable : favourable example_specs agreeable.
Proof.
  constructor; try done. intros x timeout subject Hx Ht. exfalso. unfold example_specs in Hx.
  repeat (apply elem_of_cons in Hx as [->|Hx]; [discriminate Ht|]). by apply elem_of_nil in Hx.
Qed.

Lemma example_unattended : unattended unattended_example example_specs.
Proof.
  constructor; [done|done|by apply (bool_decide_unpack _); vm_compute| | |].
  1,2: intros x Hx; unfold example_specs in Hx; repeat (apply elem_of_cons in Hx as [->|Hx]; [done|]); by apply elem_of_nil in Hx.
  intros x target state Hx Hd. unfold example_specs in Hx. repeat (apply elem_of_cons in Hx as [->|Hx]; [cbn in Hd; set_solver|]). by apply elem_of_nil in Hx.
Qed.

Definition example_start : RunState := example_run "normal" [("build", "pending"); ("test", "pending"); ("tidy", "pending")].

Lemma example_follows : follows example_specs "r" "g" (λ _, Waiting) "normal" example_start.
Proof.
  assert (Hrows : ∀ s r, ws_steps (rs_work example_start) !! s = Some r → ∃ x, x ∈ example_specs ∧ row_at "r" "g" x.1 Waiting s r).
  { intros s r H. unfold example_start in H. cbn [example_run rs_work rs_pass ps_work ws_steps map list_to_map foldr] in H.
    apply lookup_insert_Some in H as [[<- <-]|[_ H]]; [eexists; split; [left|by constructor]|].
    apply lookup_insert_Some in H as [[<- <-]|[_ H]]; [eexists; split; [right; left|by constructor]|].
    apply lookup_insert_Some in H as [[<- <-]|[_ H]]; [eexists; split; [right; right; left|by constructor]|]. by rewrite lookup_empty in H. }
  constructor.
  - exists (example_row "normal"). split; [done|]. done.
  - intros x Hx. unfold example_specs in Hx.
    repeat (apply elem_of_cons in Hx as [->|Hx];
      [match goal with |- context [agentless_step ?id] => exists ("step-run/g/" +:+ id), (agentless_row id "pending") end; split; [vm_compute; reflexivity|by constructor]|]).
    by apply elem_of_nil in Hx.
  - intros s r H _. exact (Hrows s r H).
  - intros s s' r r' H H' _ _ Hstep. destruct (Hrows s r H) as (x & Hx & Hr), (Hrows s' r' H') as (x' & Hx' & Hr').
    assert (Hname : ∀ s r, ws_steps (rs_work example_start) !! s = Some r → s = "step-run/g/" +:+ sr_step r).
    { clear. intros s r H. unfold example_start in H. cbn [example_run rs_work rs_pass ps_work ws_steps map list_to_map foldr] in H.
      repeat (apply lookup_insert_Some in H as [[<- <-]|[_ H]]; [done|]). by rewrite lookup_empty in H. }
    rewrite (Hname s r H), (Hname s' r' H'). congruence.
Qed.

Lemma unattended_witness : ∃ row, rs_runs (fold_left (evaluate_open_run no_reads unattended_example "r" no_owned) (replicate 9 (agreeable, 5%Z, 5%Z)) example_start) !! "r" = Some row ∧
  rr_status row = "completed" ∧ rr_phase row = "terminal".
Proof.
  apply (unattended_missions_complete no_reads unattended_example "m" example_specs "r" "g" no_owned (λ _, Waiting) example_start).
  - exact example_unattended.
  - vm_compute. reflexivity.
  - reflexivity.
  - reflexivity.
  - exact example_follows.
  - apply Forall_replicate. exact agreeable_favourable.
  - reflexivity.
Defined.

(** A run whose completion frontier is one step cancels the other, goes to its final work, and fails; without final work it is completed. *)
Definition frontier_mission (finals : list string) : RunMission GateOutcome :=
  mkRunMission ([mkFullStep (agentless_step "build" false []) (plain_more []) None; mkFullStep (agentless_step "extra" false []) (plain_more []) None]
                ++ map (λ id, mkFullStep (agentless_step id true []) (plain_more []) None) finals)
    (Some (Dependencies [StepDependency "build" "completed"])) [] [] false.

Definition phase_after (mission : RunMission GateOutcome) (st : RunState) : option string * RunState :=
  match rs_runs st !! "r" with
  | Some row => let st' := (evaluate_mission_run no_reads plain_answers 5 5 mission "r" row st).2 in (rr_phase <$> rs_runs st' !! "r", st')
  | None => (None, st)
  end.

Example frontier_without_final_work :
  (phase_after (frontier_mission []) (example_run "normal" [("build", "completed"); ("extra", "pending")])).1 = Some "cleanup-completed".
Proof. vm_compute. reflexivity. Qed.

Example frontier_with_final_work :
  let start := example_run "normal" [("build", "completed"); ("extra", "pending"); ("tidy", "pending")] in
  let passes := [phase_after (frontier_mission ["tidy"]) start] in
  let second := phase_after (frontier_mission ["tidy"]) (phase_after (frontier_mission ["tidy"]) start).2 in
  let third := phase_after (frontier_mission ["tidy"]) second.2 in
  (map fst passes, second.1, third.1, (phase_after (frontier_mission ["tidy"]) third.2).1) =
  ([Some "final"], Some "final", Some "final", Some "cleanup-failed").
Proof. vm_compute. reflexivity. Qed.
